(* ===== verification/_CoqProject ===== *)
-Q . S2P
Prelude.v
IOUAmount.v
XRPAmount.v
Serializer.v
STAmount.v
Quality.v
StateTable.v
Consensus.v
ConsensusEngine.v
ConsensusSafety.v
LedgerTrie.v
LedgerTrieSupport.v
LedgerTriePreferred.v
Validations.v
ValidationsSafety.v
RCLValidations.v
SField.v
STObject.v
STObjectWire.v
STObjectLaws.v
Entry.v
Indexes.v
ApplyView.v
ViewLogic.v
Directory.v
DirectoryPages.v
DirectoryCorrect.v
DirectoryRemove.v
DirectoryRead.v
DirectoryTheorems.v
DirectoryFrame.v
TxBase.v
Invariants.v
Keys.v
HashRouter.v
Encodings.v
Conditions.v
STTx.v
LoadFeeTrack.v
CoreLogic.v
View.v
ViewLaws.v
PaymentSandbox.v
PaymentLaws.v
XrpNeutral.v
Transactor.v
AccountTx.v
OwnedTx.v
Escrow.v
EscrowLaws.v
AccountLaws.v
TransactorLaws.v
PreclaimLaws.v
ReplayLaws.v
SHAMap.v
SHAMapLaws.v
SHAMapHash.v
SHAMapOrder.v
SHAMapDelta.v
SHAMapWire.v
CanonicalTXSet.v
BuildLedger.v
