(* ===== verification/Prelude.v ===== *)
(** * A verification development of rippled

    rippled is the server of the XRP Ledger.  The parts of it that this
    development is about, and how they work together:

    - amounts ([src/src/ripple/protocol]): drops of XRP ([XRPAmount]), issued
      currency as a decimal floating point number of 16 digits ([IOUAmount]), the
      amount that transactions and ledger entries hold ([STAmount]), and the
      exchange rates between them ([Quality], [Rate]);
    - the binary format ([Serializer], [SerialIter], [STObject]) in which transactions and
      ledger entries are hashed, signed, stored and sent;
    - the ledger state ([src/src/ripple/ledger]): a map from keys to entries which a
      transaction changes through a stack of buffering views (a [Sandbox] over an
      [ApplyStateTable] over an [OpenView] over a [Ledger]) and which only becomes
      permanent when each view is applied to the one below; directories are lists
      of entries in pages of that map; and the Merkle tree ([SHAMap]) in which a ledger
      keeps the map and whose root hash identifies it;
    - transactions ([src/src/ripple/app/tx]): the checks of form, signature, sequence and
      fee, the transactors for keys, settings, signers, escrows, checks, tickets and
      deposit authorisation, and the invariants that are checked before a transaction
      changes the ledger;
    - consensus ([src/src/ripple/consensus]): the rounds in which servers agree on the
      next set of transactions and on the ledger's close time, and the trie of validated
      ledgers from which a server chooses the ledger to work on;
    - around them: public keys and signatures in canonical form, the router of hashes that
      have been seen, base58 and hexadecimal text, crypto-conditions, load fees.

    ** Files

    Foundations
    - [Prelude] (this file): exceptions as values of [outcome], machine integers, loops
      with fuel, decimal scaling ([shift10]) and the normal form that both amount
      classes compute ([Section Normal]), bit fields, ordered maps.

    Amounts and the binary format
    - [IOUAmount], [XRPAmount], [STAmount], [Quality]: [IOUAmount.cpp], [XRPAmount.h],
      [STAmount.cpp], [Quality.cpp] and [Rate2.cpp].
    - [Serializer]: [Serializer.h] and [Serializer.cpp].  The buffer is a list of bytes,
      [SerialIter] a buffer with a position; reading is the monad [reader].
    - [SField], [STObject]: the table of fields, the types of values and objects of
      [SField.cpp], [SOTemplate.cpp], [STObject.cpp] and the [ST] classes; [STObjectWire]
      and [STObjectLaws] have what the wire format and the accessors satisfy.
    - [Keys], [Encodings], [Conditions], [STTx]: [PublicKey.cpp]; [tokens.cpp],
      [StringUtilities.cpp], [base64.cpp]; the decoders of [src/src/ripple/conditions]; [STTx.cpp] and
      [apply.cpp] as far as they check signatures.

    Ledger state
    - [StateTable]: [RawStateTable.cpp], [ApplyStateTable.cpp], and the views [OpenView],
      [ApplyViewBase], [Sandbox] and [Ledger] as far as they read and write state.
      Entries that are shared by pointer live in a heap, so that a write through a
      pointer obtained from [peek] is seen by the table.  [Class RawView] is the
      interface a table is applied to, [Class RawLaws] what its instances promise.
    - [Entry]: the fields of ledger entries in equational form.  [Indexes]: the keys under which
      entries are filed ([Indexes.cpp], [Keylet.cpp]), with the hash as the class [Sha512].
    - [ApplyView]: programs over a view (peek, insert, update, erase and reading) as a free
      monad, run against a finite map or against a state table; the two agree.
      [ViewLogic] and [CoreLogic] are the program logics for them.
    - [Directory]: [ApplyView.cpp] and the directory functions of [View.cpp];
      [DirectoryPages], [DirectoryCorrect], [DirectoryRemove], [DirectoryRead],
      [DirectoryTheorems], [DirectoryFrame]: pages, the invariant of the chain of pages, what
      adding, removing and visiting do to the list, and what they leave alone.
    - [View], [ViewLaws], [XrpNeutral]: the functions of [View.cpp] that move money, make and
      remove trust lines, and count owners.
    - [PaymentSandbox]: [PaymentSandbox.cpp], the table of deferred credits and the hooks over a
      chain of sandboxes; [PaymentLaws]: payments in XRP against journals of transfers.
    - [SHAMap]: [SHAMap.cpp] and the hashes of [SHAMapTreeNode.cpp]; [SHAMapLaws], [SHAMapHash],
      [SHAMapOrder]: the tree as a map, its root hash, and the order of iteration.
      [SHAMapDelta]: [SHAMapDelta.cpp].  [SHAMapWire]: nodes as bytes.

    Transactions
    - [TxBase]: result codes, amendments, fees, flags.  [Invariants]: [InvariantCheck.cpp].
    - [Transactor]: [Transactor.cpp], [applySteps.cpp] and [ApplyContext.cpp].
    - [AccountTx]: [SetAccount.cpp], [SetRegularKey.cpp], [SetSignerList.cpp].  [OwnedTx]: checks,
      tickets, deposit authorisation, offers that are cancelled.  [Escrow]: [Escrow.cpp].
    - [EscrowLaws], [AccountLaws], [TransactorLaws], [PreclaimLaws], [ReplayLaws]: their theorems;
      [Class CommonChecks] and [Class KeepsSequence] are what the types of transactions promise.
    - [HashRouter]: [HashRouter.cpp].  [LoadFeeTrack]: [LoadFeeTrack.cpp].
    - [CanonicalTXSet]: [CanonicalTXSet.cpp], [LocalTxs.cpp].  [BuildLedger]: [BuildLedger.cpp] and
      [apply.cpp], which put consensus and transactions together.

    Consensus
    - [Consensus]: [LedgerTiming.h], [Consensus.cpp], [ConsensusProposal.h],
      [DisputedTx.h], [ConsensusTypes.h]: the pure decisions.
    - [ConsensusEngine]: the class template [Consensus<Adaptor>] of [Consensus.h] as a state
      machine, generic in the application ([Class Adaptor]) and the transaction set
      ([Class TxSetOps]) as the template is.
    - [ConsensusSafety]: weakest preconditions for that state machine, its invariants by
      induction over reachable states, and an instance of the interfaces.
    - [LedgerTrie]: [LedgerTrie.h]; [LedgerTrieSupport], [LedgerTriePreferred]: the multiset of
      ledgers it stands for, and its choice.  [Validations]: [Validations.h];
      [ValidationsSafety]: the books it keeps.  [RCLValidations]: the adaptor of
      [RCLValidations.cpp].

    The definitions keep the names of the code where Rocq allows it; [raw_], [ap_], [st_],
    [iou_], [xrp_], [ser_] and [iter_] tell apart operations that share a name there.

    ** What the theorems show

    - Amounts: normalisation finds the unique canonical representation; addition, order,
      multiplication and division are characterised by exact bounds against the
      rational result, on every branch with its exceptions; [STAmount] refines
      [IOUAmount] and [XRPAmount]; where rounding goes the wrong way, a theorem
      exhibits it ([mulRatio_roundUp_truncates], [mulRound_roundUp_low],
      [canonicalize_native_unsound]).  Limiting an offer never promises more than it had
      ([ceil_correct]).
    - Binary format: reading never leaves the buffer ([SerialIter_safe]); amounts and objects
      are read back as they were written ([STAmount_roundtrip], [STObject_roundtrip]); what
      is read has the types of the table ([STObject_typed]); the bytes that are signed
      determine the fields ([signing_injective]); a signature has one canonical form
      ([canonical_unique]).
    - State: a table over a base behaves as the base map with its changes made, and
      applying it makes the view below show exactly that map, also through shared
      pointers and for a stack of views ([sandbox_commit], [table_refines]).
    - Directories: adding and removing change the list of entries as they should
      ([dirAdd_correct], [dirRemove_correct]), pages stay within their size
      ([directory_bounds]), and visiting finds every entry once ([directory_visits]).
    - The Merkle tree: operations are those of a finite map ([shamap_refines]); equal root hashes
      mean equal contents, whatever the history ([root_hash_identifies]); iteration is in
      the order of keys and ends ([shamap_iterates]); comparison finds exactly the
      differences ([compare_correct]); nodes are read back ([node_roundtrip]).
    - Money: sending conserves XRP and moves the balance of a trust line by the amount
      ([accountSend_conserves], [rippleCredit_balance]); escrows conserve XRP, and can be
      cancelled exactly after their time ([escrow_conserves], [escrow_deadline]); in a payment
      an account can spend what it had less what it sent, and nothing it received
      ([credits_deferred]).
    - Transactions: a transaction that costs an account anything carries signatures that verify, by
      keys the account allows, but for what [tecINSUFF_FEE] claims ([preclaim_authorized]); a
      transaction that claims a fee changes nothing else, but for the unfunded offers that
      [tecOVERSIZE] and [tecKILLED] remove ([doApply_claims_fee]); it is applied as a whole or not
      at all, with the invariants holding ([doApply_sound], [invariants_sound]); one that was applied
      is not applied again ([replay_refused]); an account keeps a way to sign unless it is
      made its own regular key ([account_keeps_key], [own_key_locks_out]).
    - Ledgers: an agreed set of transactions has one order ([canonical_order]), and building a
      ledger from it accounts for every transaction and every drop of XRP
      ([build_accounts]).
    - Consensus: in every reachable state no assertion fails but that of a [simulate] with a
      position ([consensus_asserts]), and the disputes are
      exactly the differences with the peers' sets ([disputes_exact]); a ledger is
      accepted only with the majority the parameters ask for ([accept_sound]); the timer
      returns ([timerEntry_total]).  The trie is the multiset of the ledgers supported
      ([trie_refines]), the preferred ledger is the one that cannot be overtaken
      ([preferred_correct]), and the validations keep the trie's books
      ([validations_account], [preferred_choice]).

    ** Bounds and fuel

    A [while] loop is [loop] or [loopM] with a number of iterations.  [normalize] scales a
    64-bit mantissa to 16 digits: at most 16 steps up and 20 down; the corresponding
    loops of [STAmount] take the same bounds, those whose length depends on an
    exponent take the difference of the exponents.  [loop_exit] and the lemmas on
    [shift10] show that the loops end because their condition fails, never for lack
    of fuel.  The successor search and the iterators of a state table take the number
    of entries as fuel, shown to suffice in [StateTable].  The recursion of
    [timerEntry] has fuel because it ends only if the application stops naming new
    ledgers; two levels are enough when it does.

    The loops that read an object are bounded by the bytes that are left, and the nesting by
    the ten levels the code allows.  A walk over a directory needs more fuel than there
    are entries and pages.  The Merkle tree has 64 levels below its root; iterating takes one
    step for each item, comparing one for each node.  Walks over the trie of ledgers take
    its number of nodes.  Euclid's algorithm in [LoadFeeTrack] takes 130 steps for 64-bit
    numbers.

    Integers are [Z]; wrap-around is written out with [u64], [i64], [u32], [i32] wherever the
    C++ type can overflow.  Signed overflow, undefined in C++, does not occur on the
    canonical values the theorems are about, or is stated as a bound.  The support in the trie is
    taken to stay below 2^32.

    ** Hypotheses

    Hashes and signatures are third-party code and are parameters: the classes [Sha512] and
    [Crypto].  Where a property needs that the hash has no collision, the hypothesis is
    about the keys or encodings that occur ([pages_distinct], [leaves_distinct],
    [hash_faithful]), and a witness instantiates the hash.  The ledgers of the trie satisfy
    [LedgerLaws]; those of [RCLValidations] do if they know their whole history, which is at
    most 256 ancestors.  The theorems on whole transactions ask that the entries which the
    code inserts into its view are not in the ledger yet, in the run they are about: a table
    finds that out only when it is applied, and the server then stops.  [inserts_fresh] says
    so, and [fresh_run] computes it.

    ** What is not modelled

    JSON and text forms other than tokens, logging, and everything that is input or output
    (overlay, RPC, databases, node store, threads) are left out, and with them the loading
    of tree nodes on demand, their sharing and synchronisation, and the tree of
    version 2.  The metadata that [ApplyStateTable::apply] writes is not modelled.  In the programs
    of [View] the hooks of a view do nothing, as in every view but [PaymentSandbox]; what its
    hooks do is proved for transfers of XRP, on the balances of the accounts.  The payment
    engine, path finding, offers that are created, the transaction queue and the amendment
    table are not modelled: they would need the metadata and order books first.  Of
    the payment channels, the text of [PayChanClaim] in this source tree is not readable as code.
    The template parameters of [Consensus<Adaptor>] stay interfaces.  The assertions of
    [Consensus.h] and of [ConsensusResult] are executed, in a build that has them ([Class Build]);
    elsewhere [assert] is not executed, and the model does what a release build does. *)

From stdpp Require Import base numbers list gmap strings sorting.
From Stdlib Require Import Lia ZArith.

Local Open Scope Z_scope.

(** ** Exceptions

    The C++ code reports failures with [Throw<E> (message)].  The model keeps
    the class of the exception and its message, and a computation that may
    throw is a value of [outcome]. *)

Inductive exn : Type :=
| runtime_error (msg : string)
| overflow_error (msg : string)
| logic_error (msg : string).

#[export] Instance exn_eq_dec : EqDecision exn.
Proof. solve_decision. Defined.

Inductive outcome (A : Type) : Type :=
| Ret (a : A)
| Throw (e : exn).
Arguments Ret {A} _.
Arguments Throw {A} _.

#[export] Instance outcome_eq_dec {A} `{EqDecision A} : EqDecision (outcome A).
Proof. solve_decision. Defined.

#[export] Instance outcome_ret : MRet outcome := @Ret.

#[export] Instance outcome_bind : MBind outcome := λ A B f m,
  match m with Ret a => f a | Throw e => Throw e end.

#[export] Instance outcome_fmap : FMap outcome := λ A B f m,
  match m with Ret a => Ret (f a) | Throw e => Throw e end.

Definition threw {A} (m : outcome A) : bool :=
  match m with Ret _ => false | Throw _ => true end.

Lemma outcome_bind_Ret {A B} (f : A → outcome B) m b :
  (m ≫= f) = Ret b ↔ ∃ a, m = Ret a ∧ f a = Ret b.
Proof.
  destruct m as [a|e]; simpl; split; [eauto | by intros (? & [= ->] & ?) | done | by intros (? & ? & ?)].
Qed.

(** ** Machine integers

    Integers are [Z]; a store into a w-bit variable is written out with the
    wrap-around functions below. *)

Definition u64 (z : Z) : Z := z `mod` 2 ^ 64.
Definition u32 (z : Z) : Z := z `mod` 2 ^ 32.
Definition i64 (z : Z) : Z := (z + 2 ^ 63) `mod` 2 ^ 64 - 2 ^ 63.
Definition i32 (z : Z) : Z := (z + 2 ^ 31) `mod` 2 ^ 32 - 2 ^ 31.

Definition in_u64 (z : Z) : Prop := 0 ≤ z < 2 ^ 64.
Definition in_i64 (z : Z) : Prop := - 2 ^ 63 ≤ z < 2 ^ 63.
Definition in_u32 (z : Z) : Prop := 0 ≤ z < 2 ^ 32.
Definition in_i32 (z : Z) : Prop := - 2 ^ 31 ≤ z < 2 ^ 31.

Lemma u64_small z : in_u64 z → u64 z = z.
Proof. intros H. apply Z.mod_small, H. Qed.

Lemma u32_small z : in_u32 z → u32 z = z.
Proof. intros H. apply Z.mod_small, H. Qed.

Lemma i64_small z : in_i64 z → i64 z = z.
Proof. unfold in_i64, i64. intros H. rewrite Z.mod_small; lia. Qed.

Lemma i32_small z : in_i32 z → i32 z = z.
Proof. unfold in_i32, i32. intros H. rewrite Z.mod_small; lia. Qed.

Lemma u64_range z : in_u64 (u64 z).
Proof. apply Z.mod_pos_bound. lia. Qed.

Lemma i64_range z : in_i64 (i64 z).
Proof.
  unfold in_i64, i64.
  pose proof (Z.mod_pos_bound (z + 2 ^ 63) (2 ^ 64) ltac:(lia)). lia.
Qed.

Create HintDb ints.
Create Rewrite HintDb ints_rw.
#[export] Hint Resolve u64_range i64_range : ints.
#[export] Hint Rewrite u64_small u32_small i64_small i32_small
  using (unfold in_u64, in_u32, in_i64, in_i32 in *; lia) : ints_rw.

(** Drop every wrap-around whose argument is provably in range. *)
Ltac nowrap := autorewrite with ints_rw in *.

(** [lia] with quotients and remainders turned into their equations. *)
Ltac div_lia := Z.to_euclidean_division_equations; lia.

(** Disjoint bit fields: or is addition. *)
Lemma lor_fields a b k : 0 ≤ k → 0 ≤ b < 2 ^ k → Z.lor (a * 2 ^ k) b = a * 2 ^ k + b.
Proof.
  intros Hk Hb. rewrite <- Z.add_lor_land.
  assert (Z.land (a * 2 ^ k) b = 0); [|lia].
  replace b with (b `mod` 2 ^ k) by (by apply Z.mod_small).
  rewrite <- Z.land_ones, (Z.land_comm b), Z.land_assoc, Z.land_ones by done.
  rewrite Z.mod_mul by lia. apply Z.land_0_l.
Qed.

Lemma shiftr_fields a b k : 0 ≤ k → 0 ≤ b < 2 ^ k → (a * 2 ^ k + b) ≫ k = a.
Proof.
  intros Hk Hb. rewrite Z.shiftr_div_pow2 by done.
  rewrite Z.add_comm, Z.div_add, Z.div_small by lia. lia.
Qed.

Lemma land_fields a b k :
  0 ≤ k → 0 ≤ b < 2 ^ k → Z.land (a * 2 ^ k + b) (Z.ones k) = b.
Proof.
  intros Hk Hb. rewrite Z.land_ones by done.
  rewrite Z.add_comm, Z.mod_add by lia. by apply Z.mod_small.
Qed.

(** A single bit of a word. *)
Lemma land_bit w k :
  0 ≤ k → 0 ≤ w < 2 * 2 ^ k → Z.land w (2 ^ k) = if w <? 2 ^ k then 0 else 2 ^ k.
Proof.
  intros Hk Hw. pose proof (Z.pow_pos_nonneg 2 k ltac:(lia) Hk).
  assert (Hlow : ∀ b, 0 ≤ b < 2 ^ k → Z.land b (2 ^ k) = 0).
  { intros b Hb. pose proof (lor_fields 1 b k Hk Hb) as Hl.
    pose proof (Z.add_lor_land (1 * 2 ^ k) b). rewrite Z.mul_1_l in *.
    rewrite Z.land_comm. lia. }
  destruct (Z.ltb_spec w (2 ^ k)); [apply Hlow; lia|].
  rewrite <- (Zplus_minus (2 ^ k) w), <- (Z.mul_1_l (2 ^ k)) at 1.
  rewrite <- lor_fields by lia.
  rewrite Z.mul_1_l, Z.land_comm, Z.land_lor_distr_r, Z.land_diag.
  rewrite (Z.land_comm (2 ^ k)), Hlow by lia. apply Z.lor_0_r.
Qed.

(** ** Loops

    A C++ [while] loop is [loop cond body fuel]; the lemmas below turn a
    measure into a proof that the fuel given is enough, i.e. that the loop
    stopped because its condition is false. *)

Section Loop.
Context {St : Type} (cond : St → bool) (body : St → St).

Fixpoint loop (fuel : nat) (s : St) : St :=
  match fuel with
  | O => s
  | S n => if cond s then loop n (body s) else s
  end.

Lemma loop_exit (P : St → Prop) (m : St → nat) :
  (∀ s, P s → cond s = true → P (body s) ∧ (m (body s) < m s)%nat) →
  ∀ n s, P s → (m s ≤ n)%nat → P (loop n s) ∧ cond (loop n s) = false.
Proof.
  intros Hstep. induction n as [|n IH]; intros s HP Hm; simpl.
  - split; [done|]. destruct (cond s) eqn:E; [|done].
    destruct (Hstep s HP E). lia.
  - destruct (cond s) eqn:E; [|done].
    destruct (Hstep s HP E). apply IH; [done|lia].
Qed.

Lemma loop_false n s : cond s = false → loop n s = s.
Proof. destruct n; simpl; [done|]. by intros ->. Qed.
End Loop.

Lemma loop_ext {St} (cond : St → bool) (b1 b2 : St → St) (P : St → Prop) :
  (∀ s, P s → cond s = true → b1 s = b2 s ∧ P (b2 s)) →
  ∀ n s, P s → loop cond b1 n s = loop cond b2 n s.
Proof.
  intros H. induction n as [|n IH]; intros s HP; simpl; [done|].
  destruct (cond s) eqn:E; [|done].
  destruct (H s HP E) as [-> ?]. by apply IH.
Qed.

(** A loop whose body may throw. *)
Section LoopM.
Context {St : Type} (cond : St → bool) (body : St → outcome St).

Fixpoint loopM (fuel : nat) (s : St) : outcome St :=
  match fuel with
  | O => Ret s
  | S n => if cond s then s' ← body s; loopM n s' else Ret s
  end.
End LoopM.

(** ** Decimal scaling

    Amounts are decimal floating point numbers [m * 10 ^ e].  [shift10 m s]
    rewrites the mantissa for an exponent that is larger by [s], truncating
    towards zero when digits are dropped. *)

Definition shift10 (m s : Z) : Z :=
  if s <? 0 then m * 10 ^ (- s) else m `quot` 10 ^ s.

Lemma pow10_pos s : 0 ≤ s → 0 < 10 ^ s.
Proof. intros. apply Z.pow_pos_nonneg; lia. Qed.

Lemma pow10_succ s : 0 ≤ s → 10 ^ (s + 1) = 10 * 10 ^ s.
Proof. intros. rewrite Z.add_1_r, Z.pow_succ_r; lia. Qed.

Lemma shift10_nonneg m s : 0 ≤ m → 0 ≤ s → shift10 m s = m `div` 10 ^ s.
Proof.
  intros. unfold shift10. destruct (Z.ltb_spec s 0); [lia|].
  apply Z.quot_div_nonneg; [done|]. by apply pow10_pos.
Qed.

Lemma shift10_neg m s : s ≤ 0 → shift10 m s = m * 10 ^ (- s).
Proof.
  intros. unfold shift10. destruct (Z.ltb_spec s 0); [done|].
  assert (s = 0) as -> by lia. simpl. rewrite Z.quot_1_r. lia.
Qed.

Lemma shift10_0 m : shift10 m 0 = m.
Proof. rewrite shift10_neg by lia. simpl. lia. Qed.

Lemma shift10_0_l s : shift10 0 s = 0.
Proof.
  unfold shift10. destruct (Z.ltb_spec s 0); [done|].
  apply Z.quot_0_l. pose proof (pow10_pos s). lia.
Qed.

Lemma shift10_opp m s : shift10 (- m) s = - shift10 m s.
Proof.
  unfold shift10. destruct (s <? 0); [lia|].
  destruct (Z.eq_dec (10 ^ s) 0) as [->|]; [by rewrite !Z.quot_0_r_ext|].
  by apply Z.quot_opp_l.
Qed.

Lemma shift10_pos_ge0 m s : 0 ≤ m → 0 ≤ shift10 m s.
Proof.
  intros Hm. destruct (Z.le_gt_cases 0 s).
  - rewrite shift10_nonneg by done. pose proof (pow10_pos s).
    apply Z.div_pos; lia.
  - rewrite shift10_neg by lia. pose proof (pow10_pos (- s)). nia.
Qed.

(** Dropping one more digit. *)
Lemma shift10_succ m s : 0 ≤ m → shift10 m (s + 1) = shift10 m s `div` 10.
Proof.
  intros Hm. destruct (Z.le_gt_cases 0 s).
  - rewrite !shift10_nonneg by lia. rewrite pow10_succ by done.
    rewrite (Z.mul_comm 10), Z.div_div; [done| |lia].
    pose proof (pow10_pos s). lia.
  - rewrite !shift10_neg by lia.
    replace (- s) with (- (s + 1) + 1) by lia. rewrite pow10_succ by lia.
    replace (m * (10 * 10 ^ (- (s + 1)))) with (m * 10 ^ (- (s + 1)) * 10) by lia.
    by rewrite Z.div_mul.
Qed.

Lemma shift10_shift10 m s t :
  0 ≤ m → 0 ≤ t → shift10 (shift10 m s) t = shift10 m (s + t).
Proof.
  intros Hm. revert t. apply natlike_ind.
  - by rewrite shift10_0, Z.add_0_r.
  - intros t Ht IH. rewrite <- Z.add_1_r.
    rewrite shift10_succ by (by apply shift10_pos_ge0).
    rewrite IH, Z.add_assoc, shift10_succ; done.
Qed.

Lemma shift10_mono_l m m' s : 0 ≤ m ≤ m' → shift10 m s ≤ shift10 m' s.
Proof.
  intros [??]. destruct (Z.le_gt_cases 0 s).
  - rewrite !shift10_nonneg by lia. pose proof (pow10_pos s).
    apply Z.div_le_mono; lia.
  - rewrite !shift10_neg by lia. pose proof (pow10_pos (- s)). nia.
Qed.

Lemma shift10_anti m s t : 0 ≤ m → s ≤ t → shift10 m t ≤ shift10 m s.
Proof.
  intros Hm Hst. replace t with (s + (t - s)) by lia.
  rewrite <- shift10_shift10 by lia.
  rewrite shift10_nonneg; [|by apply shift10_pos_ge0|lia].
  pose proof (pow10_pos (t - s) ltac:(lia)).
  pose proof (shift10_pos_ge0 m s Hm).
  apply Z.div_le_upper_bound; nia.
Qed.

(** A strictly larger exponent loses at least one digit. *)
Lemma shift10_anti_strict m s t :
  0 ≤ m → s < t → shift10 m t ≤ shift10 m s `div` 10.
Proof.
  intros Hm Hst. rewrite <- shift10_succ by done. apply shift10_anti; lia.
Qed.

Lemma shift10_quot10 m s : 0 ≤ s → shift10 m s `quot` 10 = shift10 m (s + 1).
Proof.
  intros Hs. unfold shift10.
  destruct (Z.ltb_spec s 0), (Z.ltb_spec (s + 1) 0); try lia.
  pose proof (pow10_pos s Hs).
  rewrite pow10_succ, (Z.mul_comm 10), Z.quot_quot by lia. done.
Qed.

(** Truncation loses less than one unit of the new exponent and never
    overshoots. *)
Lemma shift10_err m s e :
  0 ≤ e → 0 ≤ e + s →
  Z.abs (m * 10 ^ e - shift10 m s * 10 ^ (e + s)) < 10 ^ (e + s) ∧
  Z.abs (shift10 m s * 10 ^ (e + s)) ≤ Z.abs (m * 10 ^ e) ∧
  0 ≤ m * shift10 m s.
Proof.
  intros He Hes. destruct (Z.le_gt_cases 0 s) as [Hs|Hs].
  - unfold shift10. destruct (Z.ltb_spec s 0); [lia|].
    pose proof (pow10_pos s Hs) as Hp. pose proof (pow10_pos e He).
    pose proof (Z.quot_rem' m (10 ^ s)) as Hqr.
    pose proof (Z.rem_bound_abs m (10 ^ s) ltac:(lia)) as Hr.
    pose proof (Z.rem_sign_nz m (10 ^ s) ltac:(lia)) as Hsg.
    rewrite Z.pow_add_r by lia.
    set (q := m `quot` 10 ^ s) in *. set (r := m `rem` 10 ^ s) in *.
    set (P := 10 ^ s) in *. set (E := 10 ^ e) in *.
    assert (Hrs : r = 0 ∨ (0 < m ∧ 0 < r) ∨ (m < 0 ∧ r < 0)).
    { destruct (Z.eq_dec r 0); [by left|right]. specialize (Hsg ltac:(done)).
      destruct (Z.lt_trichotomy m 0) as [?|[->|?]]; destruct (Z.lt_trichotomy r 0) as [?|[?|?]];
        try lia; rewrite ?(Z.sgn_neg m), ?(Z.sgn_pos m), ?(Z.sgn_neg r), ?(Z.sgn_pos r) in Hsg by lia;
        simpl in *; lia. }
    assert (Hq : 0 ≤ m * q ∧ Z.abs (q * P) ≤ Z.abs m).
    { destruct (Z.le_gt_cases 0 m).
      - assert (0 ≤ q) by (apply Z.quot_pos; lia). nia.
      - assert (q ≤ 0); [|nia]. destruct (Z.le_gt_cases q 0); [done|]. nia. }
    split_and!; [|nia|tauto].
    replace (m * E - q * (E * P)) with (r * E) by nia. rewrite Z.abs_mul. nia.
  - rewrite shift10_neg by lia. pose proof (pow10_pos (- s) ltac:(lia)).
    replace (m * 10 ^ (- s) * 10 ^ (e + s)) with (m * (10 ^ (- s) * 10 ^ (e + s))) by lia.
    rewrite <- Z.pow_add_r by lia. replace (- s + (e + s)) with e by lia.
    pose proof (pow10_pos (e + s)). split_and!; [lia|lia|nia].
Qed.

(** ** The two normalisation loops

    [IOUAmount::normalize] and [STAmount::canonicalize] bring a mantissa into
    [[10^15, 10^16 - 1]] with the same pair of loops: multiply by ten while the
    mantissa is too small and the exponent can still decrease, then divide by
    ten while it is too large, throwing when the exponent cannot increase.
    The section relates them to [shift10] for any bounds. *)

Section Normal.
Context (lo emin emax : Z) (x : exn).
#[local] Abbreviation hi := (10 * lo - 1).

Definition up10_cond (s : Z * Z) : bool := (s.1 <? lo) && (emin <? s.2).
Definition up10 (s : Z * Z) : Z * Z := (s.1 * 10, s.2 - 1).
Definition down10_cond (s : Z * Z) : bool := hi <? s.1.
Definition down10 (s : Z * Z) : outcome (Z * Z) :=
  if emax <=? s.2 then Throw x else Ret (s.1 `quot` 10, s.2 + 1).

Lemma up10_spec n m e :
  0 < m → lo ≤ m * 10 ^ Z.of_nat n →
  ∃ k, 0 ≤ k ∧ loop up10_cond up10 n (m, e) = (m * 10 ^ k, e - k) ∧
    (lo ≤ m * 10 ^ k ∨ e - k ≤ emin) ∧
    (k = 0 ∨ (m * 10 ^ k < 10 * lo ∧ emin ≤ e - k)).
Proof.
  revert m e. induction n as [|n IH]; intros m e Hm Hn.
  - exists 0. simpl in *. rewrite Z.mul_1_r in *. rewrite Z.sub_0_r. auto with lia.
  - cbn [loop]. destruct (up10_cond (m, e)) eqn:E; unfold up10_cond in E; simpl in E.
    + apply andb_true_iff in E as [E1%Z.ltb_lt E2%Z.ltb_lt].
      rewrite Nat2Z.inj_succ, Z.pow_succ_r in Hn by lia.
      destruct (IH (m * 10) (e - 1)) as (k & ? & Hl & ? & Hk); [lia|lia|].
      exists (k + 1). unfold up10 at 2. simpl fst. simpl snd.
      rewrite Hl, pow10_succ by done.
      replace (m * (10 * 10 ^ k)) with (m * 10 * 10 ^ k) by lia.
      replace (e - (k + 1)) with (e - 1 - k) by lia.
      split_and!; [lia|done|done|]. right.
      destruct Hk as [->|?]; [|done]. rewrite Z.mul_1_r. lia.
    + exists 0. rewrite Z.mul_1_r, Z.sub_0_r. split_and!; [lia|done| |by left].
      apply andb_false_iff in E as [E%Z.ltb_ge|E%Z.ltb_ge]; auto.
Qed.

Lemma down10_spec n m e :
  0 ≤ m → m ≤ hi * 10 ^ Z.of_nat n →
  match loopM down10_cond down10 n (m, e) with
  | Ret (m', e') => ∃ j, 0 ≤ j ∧ m' = shift10 m j ∧ e' = e + j ∧ m' ≤ hi ∧
      (j = 0 ∨ (lo ≤ m' ∧ e' ≤ emax))
  | Throw x' => x' = x ∧ ∃ j, 0 ≤ j ∧ hi < shift10 m j ∧ emax ≤ e + j
  end.
Proof.
  revert m e. induction n as [|n IH]; intros m e Hm Hn.
  - simpl in *. exists 0. rewrite shift10_0, Z.mul_1_r in *. auto with lia.
  - cbn [loopM]. destruct (down10_cond (m, e)) eqn:E; unfold down10_cond in E; simpl in E.
    + apply Z.ltb_lt in E.
      change (down10 (m, e)) with
        (if emax <=? e then Throw x else Ret (m `quot` 10, e + 1)).
      destruct (Z.leb_spec emax e) as [He|He]; simpl.
      { split; [done|]. exists 0. rewrite shift10_0, Z.add_0_r. auto with lia. }
      rewrite Nat2Z.inj_succ, Z.pow_succ_r in Hn by lia.
      change (m `quot` 10) with (shift10 m 1).
      assert (Hm1 : shift10 m 1 = m `div` 10) by (by rewrite shift10_nonneg).
      assert (0 ≤ shift10 m 1) by (by apply shift10_pos_ge0).
      assert (lo ≤ shift10 m 1).
      { rewrite Hm1. apply Z.div_le_lower_bound; lia. }
      specialize (IH (shift10 m 1) (e + 1) ltac:(done)
        ltac:(rewrite Hm1; apply Z.div_le_upper_bound; lia)).
      destruct (loopM _ _ n _) as [[m' e']|x'].
      * destruct IH as (j & ? & -> & -> & ? & Hj). exists (j + 1).
        rewrite shift10_shift10, (Z.add_comm 1) in * by done.
        split_and!; [lia|done|lia|done|]. right.
        destruct Hj as [->|?]; [|lia]. rewrite Z.add_0_l in *. lia.
      * destruct IH as (-> & j & ? & Hj & ?). split; [done|]. exists (j + 1).
        rewrite shift10_shift10, (Z.add_comm 1) in Hj by done. auto with lia.
    + apply Z.ltb_ge in E. exists 0. rewrite shift10_0. auto with lia.
Qed.
(** Both loops, and the checks that follow them. *)
Lemma norm_loops nup ndown m e :
  0 < m → lo ≤ m * 10 ^ Z.of_nat nup →
  m ≤ hi * 10 ^ Z.of_nat ndown →
  match loopM down10_cond down10 ndown (loop up10_cond up10 nup (m, e)) with
  | Ret (m', e') =>
      m' = shift10 m (e' - e) ∧ m' ≤ hi ∧ (lo ≤ m' ∨ e' ≤ emin)
  | Throw x' => x' = x ∧ hi < shift10 m (emax - e)
  end.
Proof.
  intros Hm Hup Hdown.
  destruct (up10_spec nup m e) as (k & Hk & -> & Hout & Hk'); [lia..|].
  assert (Hsh : m * 10 ^ k = shift10 m (- k)).
  { rewrite shift10_neg by lia. by rewrite Z.opp_involutive. }
  pose proof (pow10_pos k Hk). pose proof (pow10_pos (Z.of_nat ndown) ltac:(lia)).
  assert (Hb : m * 10 ^ k ≤ hi * 10 ^ Z.of_nat ndown).
  { destruct Hk' as [->|[? _]]; [lia|]. transitivity (hi * 1); [lia|].
    apply Z.mul_le_mono_nonneg_l; [|lia].
    destruct (Z.le_gt_cases 1 lo); [lia|]. nia. }
  pose proof (down10_spec ndown (m * 10 ^ k) (e - k) ltac:(nia) Hb) as Hd.
  destruct (loopM _ _ _ _) as [[m' e']|x'].
  - destruct Hd as (j & Hj & -> & -> & ? & Hj').
    rewrite Hsh, shift10_shift10 in * by lia.
    replace (e - k + j - e) with (- k + j) by lia.
    split_and!; [done|done|]. destruct Hj' as [->|?]; [|by left; lia].
    rewrite Z.add_0_r in *. lia.
  - destruct Hd as (-> & j & Hj & Hgt & ?). split; [done|].
    rewrite Hsh, shift10_shift10 in Hgt by lia.
    eapply Z.lt_le_trans; [exact Hgt|]. apply shift10_anti; lia.
Qed.

(** The three possible outcomes of normalising [m * 10 ^ e], [0 < m]: below the
    smallest representable amount, a normal mantissa, or an overflow. *)
Inductive norm_result (m e : Z) : outcome (option (Z * Z)) → Prop :=
| norm_zero : shift10 m (emin - e) < lo → norm_result m e (Ret None)
| norm_some e' : emin ≤ e' ≤ emax → lo ≤ shift10 m (e' - e) ≤ hi →
    norm_result m e (Ret (Some (shift10 m (e' - e), e')))
| norm_over x' : hi < shift10 m (emax - e) → norm_result m e (Throw x').

Definition norm_finish (x2 : exn) (s : Z * Z) : outcome (option (Z * Z)) :=
  if (s.2 <? emin) || (s.1 <? lo) then Ret None
  else if emax <? s.2 then Throw x2 else Ret (Some s).

Lemma norm_correct nup ndown x2 m e :
  0 < m → lo ≤ m * 10 ^ Z.of_nat nup → m ≤ hi * 10 ^ Z.of_nat ndown →
  norm_result m e
    (loopM down10_cond down10 ndown (loop up10_cond up10 nup (m, e)) ≫= norm_finish x2).
Proof.
  intros Hm Hup Hdown. pose proof (norm_loops nup ndown m e Hm Hup Hdown) as Hl.
  destruct (loopM _ _ _ _) as [[m' e']|x']; simpl; [|by destruct Hl; apply norm_over].
  destruct Hl as (-> & Hhi & Hlo). unfold norm_finish. simpl.
  destruct (_ || _) eqn:Ez.
  - apply norm_zero. apply orb_true_iff in Ez as [Ez%Z.ltb_lt|Ez%Z.ltb_lt].
    + pose proof (shift10_anti_strict m (e' - e) (emin - e) ltac:(lia) ltac:(lia)).
      pose proof (Z.div_lt_upper_bound (shift10 m (e' - e)) 10 lo). lia.
    + pose proof (shift10_anti m (e' - e) (emin - e) ltac:(lia)). lia.
  - apply orb_false_iff in Ez as [He%Z.ltb_ge Hm'%Z.ltb_ge].
    destruct (Z.ltb_spec emax e') as [He'|He'].
    + apply norm_over.
      pose proof (shift10_anti_strict m (emax - e) (e' - e) ltac:(lia) ltac:(lia)).
      pose proof (Z.div_lt_upper_bound (shift10 m (emax - e)) 10 lo). lia.
    + apply norm_some; lia.
Qed.

(** At most one exponent gives a normal mantissa. *)
Lemma norm_unique m s t :
  0 ≤ m → lo ≤ shift10 m s ≤ hi → lo ≤ shift10 m t ≤ hi → s = t.
Proof.
  intros Hm Hs Ht.
  destruct (Z.lt_trichotomy s t) as [H|[H|H]]; [|done|];
    apply (shift10_anti_strict _ _ _ Hm) in H.
  - pose proof (Z.div_lt_upper_bound (shift10 m s) 10 lo). lia.
  - pose proof (Z.div_lt_upper_bound (shift10 m t) 10 lo). lia.
Qed.

(** The outcome is determined, up to the exception thrown. *)
Lemma norm_result_det m e r1 r2 :
  0 ≤ m → 0 < lo → emin ≤ emax → norm_result m e r1 → norm_result m e r2 →
  match r1, r2 with
  | Ret a, Ret b => a = b
  | Throw _, Throw _ => True
  | _, _ => False
  end.
Proof.
  intros Hm Hlo Hee H1 H2.
  pose proof (shift10_anti m (emin - e) (emax - e) Hm ltac:(lia)).
  destruct H1 as [H1|e1 He1 H1|x1 H1], H2 as [H2|e2 He2 H2|x2 H2]; try done; try lia.
  - pose proof (shift10_anti m (emin - e) (e2 - e) Hm). lia.
  - pose proof (shift10_anti m (emin - e) (e1 - e) Hm). lia.
  - pose proof (norm_unique _ _ _ Hm H1 H2). by replace e2 with e1 by lia.
  - pose proof (shift10_anti m (e1 - e) (emax - e) Hm). lia.
  - pose proof (shift10_anti m (e2 - e) (emax - e) Hm). lia.
Qed.
(** The outcome read off from the magnitude; one of the three cases applies. *)
Lemma norm_result_cases m e r :
  0 ≤ m → 0 < lo → emin ≤ emax → norm_result m e r →
  (shift10 m (emin - e) < lo → r = Ret None) ∧
  (∀ e', emin ≤ e' ≤ emax → lo ≤ shift10 m (e' - e) ≤ hi →
     r = Ret (Some (shift10 m (e' - e), e'))) ∧
  (hi < shift10 m (emax - e) → ∃ x', r = Throw x') ∧
  (shift10 m (emin - e) < lo ∨
   (∃ e', emin ≤ e' ≤ emax ∧ lo ≤ shift10 m (e' - e) ≤ hi) ∨
   hi < shift10 m (emax - e)).
Proof.
  intros Hm Hlo Hee Hr. pose proof (norm_result_det m e) as Hdet.
  split_and!.
  - intros H. specialize (Hdet _ _ Hm Hlo Hee Hr (norm_zero m e H)).
    destruct r; [by subst|done].
  - intros e' He' H. specialize (Hdet _ _ Hm Hlo Hee Hr (norm_some m e e' He' H)).
    destruct r; [by subst|done].
  - intros H. specialize (Hdet _ _ Hm Hlo Hee Hr (norm_over m e x H)).
    destruct r; [done|eauto].
  - destruct Hr; eauto.
Qed.
End Normal.

(** ** Ordered maps *)

(** The items of a [std::map], in the order of its iterators. *)
Definition key_le {A} (x y : Z * A) : Prop := x.1 ≤ y.1.
#[export] Instance key_le_dec {A} (x y : Z * A) : Decision (key_le x y).
Proof. unfold key_le. apply _. Defined.

Definition in_order {A} (m : gmap Z A) : list (Z * A) := merge_sort key_le (map_to_list m).

Lemma in_order_perm {A} (m : gmap Z A) : in_order m ≡ₚ map_to_list m.
Proof. apply merge_sort_Permutation. Qed.

Lemma elem_of_in_order {A} (m : gmap Z A) k x : (k, x) ∈ in_order m ↔ m !! k = Some x.
Proof. unfold in_order. rewrite merge_sort_Permutation. apply elem_of_map_to_list. Qed.

#[export] Instance key_le_trans {A} : Transitive (@key_le A).
Proof. intros x y z. unfold key_le. lia. Qed.
#[export] Instance key_le_total {A} : Total (@key_le A).
Proof. intros x y. unfold key_le. lia. Qed.

Lemma in_order_singleton {A} k (x : A) : in_order {[k := x]} = [(k, x)].
Proof. unfold in_order. by rewrite map_to_list_singleton. Qed.

Lemma in_order_sorted {A} (m : gmap Z A) : StronglySorted key_le (in_order m).
Proof. apply StronglySorted_merge_sort; apply _. Qed.

Lemma in_order_NoDup {A} (m : gmap Z A) : NoDup (in_order m).*1.
Proof. unfold in_order. rewrite merge_sort_Permutation. apply NoDup_fst_map_to_list. Qed.

Lemma in_order_strict {A} (m : gmap Z A) : StronglySorted (λ x y, x.1 < y.1) (in_order m).
Proof.
  pose proof (in_order_sorted m) as Hs. pose proof (in_order_NoDup m) as Hn.
  induction Hs as [|[k x] l Hs IH Hall]; [constructor|].
  rewrite fmap_cons in Hn. apply NoDup_cons in Hn as [Hk Hn]. constructor; [by apply IH|].
  apply Forall_forall. intros [k' x'] Hin. simpl. rewrite Forall_forall in Hall.
  specialize (Hall _ Hin). unfold key_le in Hall. simpl in *.
  destruct (decide (k = k')) as [->|]; [|lia]. destruct Hk. apply list_elem_of_fmap.
  by exists (k', x').
Qed.

Lemma sorted_filter {A} (R : relation A) (P : A → Prop) `{!∀ x, Decision (P x)} l :
  StronglySorted R l → StronglySorted R (filter P l).
Proof.
  induction 1 as [|x l Hs IH Hall]; [constructor|]. rewrite filter_cons. case_decide; [|done].
  constructor; [done|]. rewrite Forall_forall in *. intros y [_ Hy]%list_elem_of_filter. by apply Hall.
Qed.

Lemma omap_filter {A B} (f : A → option B) (P : A → Prop) `{!∀ x, Decision (P x)} (l : list A) :
  (∀ x, ¬ P x → f x = None) → omap f (filter P l) = omap f l.
Proof.
  intros Hf. induction l as [|x l IH]; [done|]. rewrite filter_cons. case_decide as Hx; csimpl.
  - by rewrite IH.
  - by rewrite Hf, IH.
Qed.

Lemma in_order_filter {A} (P : Z * A → Prop) `{!∀ x, Decision (P x)} (m : gmap Z A) :
  in_order (filter P m) = filter P (in_order m).
Proof.
  apply (StronglySorted_unique_strong key_le).
  - intros [k1 x1] [k2 x2] H1%elem_of_in_order [_ H2%elem_of_in_order]%list_elem_of_filter Hle Hge.
    unfold key_le in *. simpl in *. assert (k1 = k2) as -> by lia.
    apply map_lookup_filter_Some in H1 as [H1 _]. congruence.
  - apply in_order_sorted.
  - apply sorted_filter, in_order_sorted.
  - apply NoDup_Permutation; [eapply NoDup_fmap_1, in_order_NoDup|
      apply NoDup_filter; eapply NoDup_fmap_1, in_order_NoDup|].
    intros [k x]. rewrite list_elem_of_filter, !elem_of_in_order, map_lookup_filter_Some. tauto.
Qed.

(** ** Sums over lists *)

Definition sum {A} (f : A → Z) (xs : list A) : Z := foldr (λ x acc, f x + acc) 0 xs.

Lemma sum_cons {A} (f : A → Z) x xs : sum f (x :: xs) = f x + sum f xs.
Proof. done. Qed.

Lemma sum_app {A} (f : A → Z) xs ys : sum f (xs ++ ys) = sum f xs + sum f ys.
Proof. induction xs as [|x xs IH]; simpl; [done|]. rewrite IH. lia. Qed.

Lemma sum_ext {A} (f g : A → Z) xs : (∀ x, x ∈ xs → f x = g x) → sum f xs = sum g xs.
Proof.
  induction xs as [|x xs IH]; intros H; simpl; [done|].
  rewrite H by (by left). rewrite IH; [done|]. intros y Hy. apply H. by right.
Qed.

Lemma sum_le {A} (f g : A → Z) xs : (∀ x, x ∈ xs → f x ≤ g x) → sum f xs ≤ sum g xs.
Proof.
  induction xs as [|x xs IH]; intros H; simpl; [done|].
  apply Z.add_le_mono; [apply H; by left|]. apply IH. intros y Hy. apply H. by right.
Qed.

Lemma sum_perm {A} (f : A → Z) xs ys : xs ≡ₚ ys → sum f xs = sum f ys.
Proof. induction 1; simpl; lia. Qed.

(** The element at a position counts once. *)
Lemma sum_lookup {A} (f : A → Z) xs i x :
  xs !! i = Some x → sum f xs = f x + sum f (delete i xs).
Proof.
  intros Hi. rewrite (sum_perm f xs (x :: delete i xs)); [done|]. by apply delete_Permutation.
Qed.

Lemma sum_alter {A} (f : A → Z) xs i x g :
  xs !! i = Some x → sum f (alter g i xs) = sum f xs - f x + f (g x).
Proof.
  revert i. induction xs as [|y xs IH]; intros [|i] Hi; simplify_eq/=; [lia|].
  rewrite (IH i Hi). lia.
Qed.

Lemma sum_zero {A} (xs : list A) : sum (λ _, 0) xs = 0.
Proof. induction xs; simpl; lia. Qed.

Lemma sum_nonneg {A} (f : A → Z) xs : (∀ x, x ∈ xs → 0 ≤ f x) → 0 ≤ sum f xs.
Proof. intros H. transitivity (sum (λ _ : A, 0) xs); [by rewrite sum_zero|by apply sum_le]. Qed.

Lemma sum_fmap {A B} (f : B → Z) (g : A → B) xs : sum f (g <$> xs) = sum (λ x, f (g x)) xs.
Proof. induction xs as [|x xs IH]; [done|]. rewrite fmap_cons. simpl. by rewrite IH. Qed.

Lemma sum_omap {A B} (f : B → Z) (g : A → option B) xs :
  sum f (omap g xs) = sum (λ x, match g x with Some y => f y | None => 0 end) xs.
Proof.
  induction xs as [|x xs IH]; [done|]. rewrite sum_cons, <- IH. cbn. by destruct (g x).
Qed.

Lemma elem_of_delete_at {A} (xs : list A) i x : x ∈ delete i xs → ∃ j, xs !! j = Some x ∧ j ≠ i.
Proof.
  intros [j Hj]%list_elem_of_lookup. rewrite list_lookup_delete in Hj. eexists; split; [exact Hj|].
  case_decide; lia.
Qed.

(** ** Hash containers *)

(** The iteration order of the hash maps, which is unspecified. *)
Class HashOrder := {
  hash_order : ∀ {K} `{Countable K} {V}, gmap K V → list (K * V);
  hash_order_perm : ∀ {K} `{Countable K} V (m : gmap K V), hash_order m ≡ₚ map_to_list m }.

Section HashOrder.
Context `{!HashOrder} {K : Type} `{Countable K}.

Lemma elem_of_hash_order {V} (m : gmap K V) k v : (k, v) ∈ hash_order m ↔ m !! k = Some v.
Proof. rewrite hash_order_perm. apply elem_of_map_to_list. Qed.

Lemma hash_order_NoDup {V} (m : gmap K V) : NoDup (hash_order m).*1.
Proof. rewrite hash_order_perm. apply NoDup_fst_map_to_list. Qed.

(** The elements of a hash set. *)
Definition set_order (X : gset K) : list K := (hash_order (gset_to_gmap () X)).*1.

Lemma elem_of_set_order (X : gset K) k : k ∈ set_order X ↔ k ∈ X.
Proof.
  unfold set_order. rewrite list_elem_of_fmap. split.
  - intros ([k' v] & -> & Hk%elem_of_hash_order). by apply lookup_gset_to_gmap_Some in Hk as [Hk _].
  - intros Hk. exists (k, ()). by rewrite elem_of_hash_order, lookup_gset_to_gmap_Some.
Qed.
End HashOrder.
