(* ===== verification/IOUAmount.v ===== *)
(** * IOUAmount: decimal floating point amounts of issued currency

    Model of [src/src/ripple/protocol/IOUAmount.h] and
    [src/src/ripple/protocol/impl/IOUAmount.cpp]: the normalised
    representation, its arithmetic and its ordering. *)

From S2P Require Import Prelude.
From stdpp Require Import base numbers list strings.
From Stdlib Require Import Lia ZArith.

Local Open Scope Z_scope.

(** ** Data *)

Definition minMantissa : Z := 1000000000000000.
Definition maxMantissa : Z := 9999999999999999.
Definition minExponent : Z := -96.
Definition maxExponent : Z := 80.

(** [mantissa_] is an [int64_t], [exponent_] an [int]. *)
Record IOUAmount : Type := mkIOU { mantissa_ : Z; exponent_ : Z }.

#[export] Instance IOUAmount_eq_dec : EqDecision IOUAmount.
Proof. solve_decision. Defined.

(** [operator= (beast::Zero)]. *)
Definition iou_zero : IOUAmount := mkIOU 0 (-100).

(** [signum]; comparisons with [beast::zero] go through it. *)
Definition iou_signum (a : IOUAmount) : Z :=
  if mantissa_ a <? 0 then -1 else if mantissa_ a =? 0 then 0 else 1.

(** ** Operations *)

(** The loops of [normalize].  The exponent moves only inside
    [[minExponent, maxExponent]], so it never leaves [int]. *)
Definition normalize_up (s : Z * Z) : Z * Z :=
  loop (λ s, (s.1 <? minMantissa) && (minExponent <? s.2))
       (λ s, (i64 (s.1 * 10), s.2 - 1)) 16 s.

Definition normalize_down (s : Z * Z) : outcome (Z * Z) :=
  loopM (λ s, maxMantissa <? s.1)
        (λ s, if maxExponent <=? s.2
              then Throw (overflow_error "IOUAmount::normalize")
              else Ret (s.1 `quot` 10, s.2 + 1)) 20 s.

Definition normalize (a : IOUAmount) : outcome IOUAmount :=
  if mantissa_ a =? 0 then Ret iou_zero else
  let negative := mantissa_ a <? 0 in
  let m := if negative then i64 (- mantissa_ a) else mantissa_ a in
  '(m, e) ← normalize_down (normalize_up (m, exponent_ a));
  if (e <? minExponent) || (m <? minMantissa) then Ret iou_zero
  else if maxExponent <? e then Throw (overflow_error "value overflow")
  else Ret (mkIOU (if negative then - m else m) e).

(** The constructor [IOUAmount (mantissa, exponent)]. *)
Definition iou_make (m e : Z) : outcome IOUAmount := normalize (mkIOU m e).

(** One of the two alignment loops of [operator+=]: while the exponent is
    below [target], divide the mantissa by ten. *)
Definition align (target : Z) (s : Z * Z) : Z * Z :=
  loop (λ s, s.2 <? target) (λ s, (s.1 `quot` 10, s.2 + 1))
       (Z.to_nat (target - s.2)) s.

(** [operator+=]. *)
Definition iou_add (a b : IOUAmount) : outcome IOUAmount :=
  if iou_signum b =? 0 then Ret a else
  if iou_signum a =? 0 then Ret b else
  let '(m1, e1) := align (exponent_ b) (mantissa_ a, exponent_ a) in
  let '(m2, _) := align e1 (mantissa_ b, exponent_ b) in
  let m := i64 (m1 + m2) in
  if (-10 <=? m) && (m <=? 10) then Ret iou_zero
  else normalize (mkIOU m e1).

(** Unary minus runs the constructor on the negated mantissa. *)
Definition iou_neg (a : IOUAmount) : outcome IOUAmount :=
  iou_make (i64 (- mantissa_ a)) (exponent_ a).

(** [operator-=]. *)
Definition iou_sub (a b : IOUAmount) : outcome IOUAmount :=
  nb ← iou_neg b; iou_add a nb.

(** [operator==]. *)
Definition iou_eq (a b : IOUAmount) : bool :=
  (exponent_ a =? exponent_ b) && (mantissa_ a =? mantissa_ b).

(** [operator<]. *)
Definition iou_lt (a b : IOUAmount) : bool :=
  let lneg := mantissa_ a <? 0 in
  let rneg := mantissa_ b <? 0 in
  if negb (Bool.eqb lneg rneg) then lneg else
  if mantissa_ a =? 0 then 0 <? mantissa_ b else
  if mantissa_ b =? 0 then false else
  if exponent_ b <? exponent_ a then lneg else
  if exponent_ a <? exponent_ b then negb lneg else
  mantissa_ a <? mantissa_ b.

(** *** mulRatio *)

Definition u128 (z : Z) : Z := z `mod` 2 ^ 128.

(** The table built by the [powerTable] lambda: 10^0 ... 10^29. *)
Definition powerTable : list Z :=
  (fix go (n : nat) (cur : Z) : list Z :=
     match n with O => [] | S n' => cur :: go n' (u128 (cur * 10)) end) 30%nat 1.

(** [std::lower_bound] on a sorted range: the index of the first element that
    is not less than [v]. *)
Fixpoint lower_bound (l : list Z) (v : Z) : Z :=
  match l with
  | [] => 0
  | x :: l' => if x <? v then 1 + lower_bound l' v else 0
  end.

Definition tableAt (i : Z) : Z := nth (Z.to_nat i) powerTable 0.

Definition log10Ceil (v : Z) : Z := lower_bound powerTable v.

Definition log10Floor (v : Z) : Z :=
  let index := lower_bound powerTable v in
  if tableAt index =? v then index else index - 1.

Definition fl64 : Z := log10Floor (2 ^ 63 - 1).

(** The part of [mulRatio] that grows the quotient while there is room in the
    mantissa: returns the new (low, rem, exponent). *)
Definition mulRatio_grow (low rem exponent den : Z) : Z * Z * Z :=
  if rem =? 0 then (low, rem, exponent) else
  let roomToGrow := fl64 - log10Ceil low in
  let '(low, rem, exponent) :=
    if 0 <? roomToGrow then
      (u128 (low * tableAt roomToGrow), u128 (rem * tableAt roomToGrow),
       exponent - roomToGrow)
    else (low, rem, exponent) in
  let addRem := rem `quot` den in
  (u128 (low + addRem), rem - addRem * den, exponent).

(** The part that shrinks a quotient that does not fit: (low, hasRem, exponent). *)
Definition mulRatio_shrink (low rem exponent : Z) : Z * bool * Z :=
  let hasRem := negb (rem =? 0) in
  let mustShrink := log10Ceil low - fl64 in
  if 0 <? mustShrink then
    let sav := low in
    let low := low `quot` tableAt mustShrink in
    (low,
     if hasRem then hasRem else negb (sav - u128 (low * tableAt mustShrink) =? 0),
     exponent + mustShrink)
  else (low, hasRem, exponent).

Definition mulRatio (amt : IOUAmount) (num den : Z) (roundUp : bool) :
    outcome IOUAmount :=
  if den =? 0 then Throw (runtime_error "division by zero") else
  let neg := mantissa_ amt <? 0 in
  let mul := u128 ((if neg then - mantissa_ amt else mantissa_ amt) * num) in
  let low := mul `quot` den in
  let rem := mul - low * den in
  let '(low, rem, exponent) := mulRatio_grow low rem (exponent_ amt) den in
  let '(low, hasRem, exponent) := mulRatio_shrink low rem exponent in
  let mantissa := if neg then - low else low in
  result ← iou_make mantissa exponent;
  if hasRem && roundUp && negb neg then
    if mantissa_ result =? 0 then iou_make minMantissa minExponent
    else iou_make (mantissa_ result + 1) (exponent_ result)
  else if hasRem && negb roundUp && neg then
    if mantissa_ result =? 0 then iou_make (- minMantissa) minExponent
    else iou_make (mantissa_ result - 1) (exponent_ result)
  else Ret result.

Example mulRatio_ex :
  mulRatio (mkIOU 1000000000000001 0) 1100000000 1000000000 true
  = Ret (mkIOU 1100000000000001 0).
Proof. vm_compute. reflexivity. Qed.

(** ** Representation invariant *)

Definition normal_mantissa (m : Z) : Prop := minMantissa ≤ Z.abs m ≤ maxMantissa.

Definition wf (a : IOUAmount) : Prop :=
  a = iou_zero ∨
  (normal_mantissa (mantissa_ a) ∧ minExponent ≤ exponent_ a ≤ maxExponent).

#[export] Instance wf_dec a : Decision (wf a).
Proof. unfold wf, normal_mantissa. apply _. Defined.

Ltac iou_consts :=
  unfold normal_mantissa, minMantissa, maxMantissa, minExponent, maxExponent in *.

(** ** normalize *)

Lemma normalize_up_eq m e :
  0 < m < 2 ^ 63 →
  normalize_up (m, e) = loop (up10_cond minMantissa minExponent) up10 16 (m, e).
Proof.
  intros Hm. unfold normalize_up.
  apply (loop_ext _ _ _ (λ s, 0 < s.1)); [|simpl; lia].
  intros [m' e'] Hp [H1%Z.ltb_lt _]%andb_true_iff. simpl in *. unfold up10. simpl.
  iou_consts. split; [|lia]. by rewrite i64_small by (unfold in_i64; lia).
Qed.

Lemma shift10_abs m s : Z.abs (shift10 m s) = shift10 (Z.abs m) s.
Proof.
  destruct (Z.le_gt_cases 0 m).
  - rewrite (Z.abs_eq m) by done. apply Z.abs_eq, shift10_pos_ge0. done.
  - rewrite (Z.abs_neq m), shift10_opp by lia. rewrite Z.abs_neq; [done|].
    pose proof (shift10_pos_ge0 (- m) s ltac:(lia)) as Hp.
    rewrite shift10_opp in Hp. lia.
Qed.

Lemma normal_unique m s t :
  normal_mantissa (shift10 m s) → normal_mantissa (shift10 m t) → s = t.
Proof.
  unfold normal_mantissa. rewrite !shift10_abs.
  change maxMantissa with (10 * minMantissa - 1). apply norm_unique, Z.abs_nonneg.
Qed.

Definition iou_norm_result := norm_result minMantissa minExponent maxExponent.

(** [normalize] on a non-zero mantissa: normalise the magnitude, put the sign
    back. *)
Lemma normalize_norm m e :
  m ≠ 0 → Z.abs m < 2 ^ 63 →
  ∃ r, iou_norm_result (Z.abs m) e r ∧
    (∀ x, r = Throw x → ∃ msg, x = overflow_error msg) ∧
    normalize (mkIOU m e) =
      (o ← r; Ret (match o with
                   | Some (m', e') => mkIOU (if m <? 0 then - m' else m') e'
                   | None => iou_zero
                   end)).
Proof.
  intros Hm0 Hm.
  pose proof (norm_correct minMantissa minExponent maxExponent
    (overflow_error "IOUAmount::normalize") 16 20 (overflow_error "value overflow")
    (Z.abs m) e ltac:(lia) ltac:(iou_consts; lia) ltac:(iou_consts; lia)) as Hn.
  rewrite <- normalize_up_eq in Hn by lia.
  eexists. split; [exact Hn|].
  unfold normalize. simpl mantissa_. simpl exponent_.
  destruct (Z.eqb_spec m 0); [done|].
  assert ((if m <? 0 then i64 (- m) else m) = Z.abs m) as ->.
  { destruct (Z.ltb_spec m 0); [|lia]. rewrite i64_small; unfold in_i64; lia. }
  change (normalize_down (normalize_up (Z.abs m, e))) with
    (loopM (down10_cond minMantissa)
       (down10 maxExponent (overflow_error "IOUAmount::normalize")) 20
       (normalize_up (Z.abs m, e))).
  pose proof (norm_loops minMantissa minExponent maxExponent
    (overflow_error "IOUAmount::normalize") 16 20
    (Z.abs m) e ltac:(lia) ltac:(iou_consts; lia) ltac:(iou_consts; lia)) as Hl.
  rewrite <- normalize_up_eq in Hl by lia.
  destruct (loopM _ _ 20 _) as [[m' e']|x]; simpl.
  - unfold norm_finish. simpl. destruct (_ || _); simpl; [by split|].
    destruct (maxExponent <? e'); simpl; split; try done. intros x [= <-]. eauto.
  - split; [|done]. intros x' [= <-]. destruct Hl as [-> _]. eauto.
Qed.

Lemma normalize_nonzero m e :
  m ≠ 0 → Z.abs m < 2 ^ 63 →
  match normalize (mkIOU m e) with
  | Ret a =>
      (Z.abs (shift10 m (minExponent - e)) < minMantissa ∧ a = iou_zero) ∨
      (∃ e', minExponent ≤ e' ≤ maxExponent ∧
        normal_mantissa (shift10 m (e' - e)) ∧ a = mkIOU (shift10 m (e' - e)) e')
  | Throw x =>
      maxMantissa < Z.abs (shift10 m (maxExponent - e)) ∧
      ∃ msg, x = overflow_error msg
  end.
Proof.
  intros Hm0 Hm. destruct (normalize_norm m e Hm0 Hm) as (r & Hr & Hx & ->).
  destruct Hr as [Hr|e' He' Hr|x Hr]; simpl.
  - left. by rewrite shift10_abs.
  - right. exists e'. unfold normal_mantissa. rewrite shift10_abs.
    split; [done|]. split; [exact Hr|]. f_equal. destruct (Z.ltb_spec m 0).
    + by rewrite Z.abs_neq, shift10_opp, Z.opp_involutive by lia.
    + by rewrite Z.abs_eq by lia.
  - rewrite shift10_abs. split; [exact Hr|]. by apply Hx.
Qed.

(** [normalize] on any [int64_t] mantissa whose negation does not overflow:
    amounts too small to represent become zero, an exponent that makes the
    truncated mantissa normal is used, and amounts too large throw
    [overflow_error]; one of the three always applies. *)
Theorem normalize_correct (m e : Z) (Hm : - 2 ^ 63 < m < 2 ^ 63) :
  (Z.abs (shift10 m (minExponent - e)) < minMantissa →
     normalize (mkIOU m e) = Ret iou_zero) ∧
  (∀ e', minExponent ≤ e' ≤ maxExponent → normal_mantissa (shift10 m (e' - e)) →
     normalize (mkIOU m e) = Ret (mkIOU (shift10 m (e' - e)) e')) ∧
  (maxMantissa < Z.abs (shift10 m (maxExponent - e)) →
     ∃ msg, normalize (mkIOU m e) = Throw (overflow_error msg)) ∧
  (Z.abs (shift10 m (minExponent - e)) < minMantissa ∨
   (∃ e', minExponent ≤ e' ≤ maxExponent ∧ normal_mantissa (shift10 m (e' - e))) ∨
   maxMantissa < Z.abs (shift10 m (maxExponent - e))).
Proof.
  destruct (decide (m = 0)) as [->|Hm0].
  { unfold normal_mantissa.
    split_and!; [done|intros e'|..]; rewrite shift10_0_l; iou_consts; lia. }
  pose proof (normalize_nonzero m e Hm0 ltac:(lia)) as Hn.
  pose proof (Z.abs_nonneg m) as Hp.
  assert (Hexcl : ∀ e', minExponent ≤ e' ≤ maxExponent →
    normal_mantissa (shift10 m (e' - e)) →
    minMantissa ≤ Z.abs (shift10 m (minExponent - e)) ∧
    Z.abs (shift10 m (maxExponent - e)) ≤ maxMantissa).
  { intros e' He'. unfold normal_mantissa. rewrite !shift10_abs.
    pose proof (shift10_anti (Z.abs m) (minExponent - e) (e' - e) Hp ltac:(lia)).
    pose proof (shift10_anti (Z.abs m) (e' - e) (maxExponent - e) Hp ltac:(lia)). lia. }
  assert (Hanti : Z.abs (shift10 m (maxExponent - e)) ≤
                  Z.abs (shift10 m (minExponent - e))).
  { rewrite !shift10_abs. apply shift10_anti; [done|]. iou_consts; lia. }
  destruct (normalize (mkIOU m e)) as [a|x].
  - destruct Hn as [[Hz ->]|(e1 & He1 & Hn1 & ->)].
    + split_and!; [done| |iou_consts; lia|by left].
      intros e' He' Hn'. destruct (Hexcl e' He' Hn'). lia.
    + destruct (Hexcl e1 He1 Hn1). split_and!; [lia| |lia|eauto].
      intros e' He' Hn'. pose proof (normal_unique _ _ _ Hn1 Hn').
      by replace e' with e1 by lia.
  - destruct Hn as [Hbig [msg ->]]. split_and!; [iou_consts; lia| |eauto|eauto].
    intros e' He' Hn'. destruct (Hexcl e' He' Hn'). lia.
Qed.

Lemma normalize_correct_witness :
  normalize (mkIOU (-123456789012345678) 3) = Ret (mkIOU (-1234567890123456) 5).
Proof.
  destruct (normalize_correct (-123456789012345678) 3 ltac:(lia)) as (_ & H & _).
  apply (H 5); vm_compute; split; discriminate.
Defined.

Lemma normalize_wf m e a :
  - 2 ^ 63 < m < 2 ^ 63 → normalize (mkIOU m e) = Ret a → wf a.
Proof.
  intros Hm Ha. destruct (decide (m = 0)) as [->|Hm0].
  { by injection Ha as <-; left. }
  pose proof (normalize_nonzero m e Hm0 ltac:(lia)) as Hn. rewrite Ha in Hn.
  destruct Hn as [[_ ->]|(e' & ? & ? & ->)]; [by left|by right].
Qed.

(** Normalising a normal amount changes nothing. *)
Lemma normalize_id a : wf a → normalize a = Ret a.
Proof.
  destruct a as [m e]. intros [[= -> ->]|[Hm He]]; [done|]. simpl in *.
  assert (Hm0 : m ≠ 0) by (intros ->; iou_consts; lia).
  pose proof (normalize_nonzero m e Hm0 ltac:(iou_consts; lia)) as Hn.
  pose proof (shift10_anti (Z.abs m) (minExponent - e) 0 ltac:(lia) ltac:(lia)).
  pose proof (shift10_anti (Z.abs m) 0 (maxExponent - e) ltac:(lia) ltac:(lia)).
  rewrite shift10_0, <- shift10_abs in *. destruct (normalize _) as [a|x].
  - destruct Hn as [[? _]|(e' & ? & Hn & ->)]; [iou_consts; lia|].
    assert (e' - e = 0).
    { apply (normal_unique m); [done|by rewrite shift10_0]. }
    replace e' with e by lia. by rewrite Z.sub_diag, shift10_0.
  - iou_consts; lia.
Qed.

(** ** The value of an amount

    [val] is the amount times 10^200, which makes every exponent the code can
    reach non-negative; [ulp] is the value of one unit of the mantissa. *)

Definition ulp (a : IOUAmount) : Z := 10 ^ (exponent_ a + 200).
Definition val (a : IOUAmount) : Z := mantissa_ a * ulp a.

Lemma ulp_pos a : -200 ≤ exponent_ a → 0 < ulp a.
Proof. intros. apply pow10_pos. lia. Qed.

Lemma wf_exponent a : wf a → -100 ≤ exponent_ a ≤ 80.
Proof. intros [->|[_ ?]]; iou_consts; simpl; lia. Qed.

Lemma pow10_le s t : 0 ≤ s ≤ t → 10 ^ s ≤ 10 ^ t.
Proof. intros. apply Z.pow_le_mono_r; lia. Qed.

(** A larger exponent dominates on normal amounts. *)
Lemma val_exponent_lt m e m' e' :
  -200 ≤ e → normal_mantissa m → normal_mantissa m' → e < e' →
  Z.abs m * 10 ^ (e + 200) < Z.abs m' * 10 ^ (e' + 200).
Proof.
  intros He Hm Hm' Hlt.
  assert (10 * 10 ^ (e + 200) ≤ 10 ^ (e' + 200)).
  { rewrite <- pow10_succ by lia. apply pow10_le. lia. }
  pose proof (pow10_pos (e + 200)). iou_consts; nia.
Qed.

Lemma wf_zero_or a : wf a →
  a = iou_zero ∨ (mantissa_ a ≠ 0 ∧ normal_mantissa (mantissa_ a) ∧
    minExponent ≤ exponent_ a ≤ maxExponent).
Proof.
  intros [->|[Hm He]]; [by left|right].
  split_and!; try done; try lia. intros E. rewrite E in Hm. iou_consts; lia.
Qed.

Lemma val_inj a b : wf a → wf b → val a = val b → a = b.
Proof.
  intros Ha Hb. pose proof (wf_exponent a Ha). pose proof (wf_exponent b Hb).
  pose proof (ulp_pos a ltac:(lia)). pose proof (ulp_pos b ltac:(lia)).
  destruct (wf_zero_or a Ha) as [->|(Ha0 & Hma & Hea)];
    destruct (wf_zero_or b Hb) as [->|(Hb0 & Hmb & Heb)];
    unfold val in *; [done|simpl; nia|simpl; nia|].
  destruct a as [ma ea], b as [mb eb]. unfold ulp in *. simpl in *. intros Hv.
  assert (Habs : Z.abs ma * 10 ^ (ea + 200) = Z.abs mb * 10 ^ (eb + 200)).
  { rewrite <- (Z.abs_eq (10 ^ (ea + 200))), <- (Z.abs_eq (10 ^ (eb + 200))) by lia.
    rewrite <- !Z.abs_mul. by rewrite Hv. }
  destruct (Z.lt_trichotomy ea eb) as [E|[->|E]].
  - pose proof (val_exponent_lt ma ea mb eb ltac:(lia) Hma Hmb E). lia.
  - f_equal. nia.
  - pose proof (val_exponent_lt mb eb ma ea ltac:(lia) Hmb Hma E). lia.
Qed.

Lemma iou_lt_val a b : wf a → wf b → iou_lt a b = true ↔ val a < val b.
Proof.
  intros Ha Hb. pose proof (wf_exponent a Ha). pose proof (wf_exponent b Hb).
  pose proof (ulp_pos a ltac:(lia)) as Hua. pose proof (ulp_pos b ltac:(lia)) as Hub.
  destruct (wf_zero_or a Ha) as [->|(Ha0 & Hma & Hea)];
    destruct (wf_zero_or b Hb) as [->|(Hb0 & Hmb & Heb)];
    unfold iou_lt, val; cbn [mantissa_ exponent_ iou_zero].
  - done.
  - destruct (Z.ltb_spec (mantissa_ b) 0); simpl; [|rewrite Z.ltb_lt]; split; try done; nia.
  - destruct (Z.ltb_spec (mantissa_ a) 0); simpl; [split; [nia|done]|].
    destruct (Z.eqb_spec (mantissa_ a) 0); [done|]. split; [done|nia].
  - destruct a as [ma ea], b as [mb eb]. unfold ulp in *. cbn [mantissa_ exponent_] in *.
    destruct (Z.ltb_spec ma 0), (Z.ltb_spec mb 0); simpl;
      try (split; intros; try done; nia);
      destruct (Z.eqb_spec ma 0), (Z.eqb_spec mb 0); try done;
      (destruct (Z.ltb_spec eb ea) as [E|E];
         [pose proof (val_exponent_lt mb eb ma ea ltac:(lia) Hmb Hma E);
          split; intros; try done; lia|]);
      (destruct (Z.ltb_spec ea eb) as [E'|E'];
         [pose proof (val_exponent_lt ma ea mb eb ltac:(lia) Hma Hmb E');
          split; intros; try done; lia|]);
      assert (ea = eb) as -> by lia; rewrite Z.ltb_lt; nia.
Qed.

(** on normalised amounts [operator<] and [operator==] are the order and the
    equality of the values the amounts denote; in particular the normalised
    representation of a value is unique. *)
Theorem iou_order_correct (a b : IOUAmount) (Ha : wf a) (Hb : wf b) :
  (iou_lt a b = true ↔ val a < val b) ∧
  (iou_eq a b = true ↔ val a = val b) ∧
  (val a = val b ↔ a = b).
Proof.
  assert (Hv : val a = val b ↔ a = b) by (split; [by apply val_inj|by intros ->]).
  split_and!; [by apply iou_lt_val| |done].
  rewrite Hv. unfold iou_eq. rewrite andb_true_iff, !Z.eqb_eq.
  destruct a, b; simpl. split; [by intros [-> ->]|by intros [= -> ->]].
Qed.

Lemma iou_order_correct_witness :
  val (mkIOU (-2000000000000000) 7) < val (mkIOU 3000000000000000 (-20)).
Proof.
  apply (iou_order_correct (mkIOU (-2000000000000000) 7) (mkIOU 3000000000000000 (-20)));
    [right; vm_compute; done..|reflexivity].
Defined.

(** ** Addition *)

Lemma align_spec m e t :
  align t (m, e) = if e <=? t then (shift10 m (t - e), t) else (m, e).
Proof.
  unfold align. simpl snd.
  destruct (Z.leb_spec e t) as [He|He].
  2:{ apply loop_false. simpl. apply Z.ltb_ge. lia. }
  assert (Hgen : ∀ n k, 0 ≤ k → t - e - k = Z.of_nat n →
    loop (λ s, s.2 <? t) (λ s, (s.1 `quot` 10, s.2 + 1)) n (shift10 m k, e + k)
    = (shift10 m (t - e), t)).
  { induction n as [|n IH]; intros k Hk Hn; simpl.
    - f_equal; [f_equal|]; lia.
    - destruct (Z.ltb_spec (e + k) t); [|lia].
      rewrite shift10_quot10, <- Z.add_assoc by done. apply IH; lia. }
  specialize (Hgen (Z.to_nat (t - e)) 0). rewrite shift10_0, Z.add_0_r in Hgen.
  apply Hgen; lia.
Qed.

(** The sum of the mantissas aligned to the larger exponent. *)
Definition aligned_sum (a b : IOUAmount) : Z :=
  let E := Z.max (exponent_ a) (exponent_ b) in
  shift10 (mantissa_ a) (E - exponent_ a) + shift10 (mantissa_ b) (E - exponent_ b).

Lemma shift10_abs_le m s : 0 ≤ s → Z.abs (shift10 m s) ≤ Z.abs m.
Proof.
  intros Hs. rewrite shift10_abs. rewrite <- (shift10_0 (Z.abs m)) at 2.
  apply shift10_anti; lia.
Qed.

Lemma aligned_sum_bound a b :
  normal_mantissa (mantissa_ a) → normal_mantissa (mantissa_ b) →
  Z.abs (aligned_sum a b) ≤ 2 * maxMantissa.
Proof.
  intros Ha Hb. unfold aligned_sum.
  pose proof (shift10_abs_le (mantissa_ a)
    (Z.max (exponent_ a) (exponent_ b) - exponent_ a) ltac:(lia)).
  pose proof (shift10_abs_le (mantissa_ b)
    (Z.max (exponent_ a) (exponent_ b) - exponent_ b) ltac:(lia)).
  unfold normal_mantissa in *. lia.
Qed.

Lemma iou_signum_0 a : iou_signum a = 0 ↔ mantissa_ a = 0.
Proof.
  unfold iou_signum. destruct (Z.ltb_spec (mantissa_ a) 0); [lia|].
  destruct (Z.eqb_spec (mantissa_ a) 0); lia.
Qed.

(** The two alignment loops: both mantissas at the larger exponent. *)
Lemma align_pair a b :
  (let '(m1, e1) := align (exponent_ b) (mantissa_ a, exponent_ a) in
   let '(m2, _) := align e1 (mantissa_ b, exponent_ b) in (m1 + m2, e1))
  = (aligned_sum a b, Z.max (exponent_ a) (exponent_ b)).
Proof.
  rewrite align_spec. unfold aligned_sum.
  destruct (Z.leb_spec (exponent_ a) (exponent_ b)); rewrite align_spec;
    rewrite (proj2 (Z.leb_le _ _)) by lia.
  - by rewrite Z.max_r by done.
  - by rewrite Z.max_l, (Z.sub_diag (exponent_ a)), shift10_0 by lia.
Qed.

Lemma iou_add_eq a b :
  normal_mantissa (mantissa_ a) → normal_mantissa (mantissa_ b) →
  iou_add a b =
    if Z.abs (aligned_sum a b) <=? 10 then Ret iou_zero
    else normalize (mkIOU (aligned_sum a b) (Z.max (exponent_ a) (exponent_ b))).
Proof.
  intros Ha Hb. unfold iou_add.
  destruct (Z.eqb_spec (iou_signum b) 0) as [E%iou_signum_0|_];
    [rewrite E in Hb; iou_consts; lia|].
  destruct (Z.eqb_spec (iou_signum a) 0) as [E%iou_signum_0|_];
    [rewrite E in Ha; iou_consts; lia|].
  pose proof (aligned_sum_bound a b Ha Hb) as Hs.
  pose proof (align_pair a b) as Hal.
  destruct (align _ (mantissa_ a, _)) as [m1 e1].
  destruct (align _ (mantissa_ b, _)) as [m2 e2].
  injection Hal as -> ->.
  rewrite i64_small by (unfold in_i64; iou_consts; lia).
  destruct (Z.leb_spec (Z.abs (aligned_sum a b)) 10),
    (Z.leb_spec (-10) (aligned_sum a b)), (Z.leb_spec (aligned_sum a b) 10);
    simpl; done || lia.
Qed.

(** What normalisation does to the value: either the amount is below the
    smallest representable one, or less than one unit of the result is lost,
    towards zero. *)
Lemma normalize_val m e r :
  Z.abs m < 2 ^ 63 → -190 ≤ e → normalize (mkIOU m e) = Ret r →
  (r = iou_zero ∧ Z.abs m * 10 ^ (e + 200) < minMantissa * 10 ^ (minExponent + 200)) ∨
  (normal_mantissa (mantissa_ r) ∧ minExponent ≤ exponent_ r ≤ maxExponent ∧
   mantissa_ r = shift10 m (exponent_ r - e) ∧
   Z.abs (m * 10 ^ (e + 200) - val r) < ulp r ∧
   Z.abs (val r) ≤ Z.abs (m * 10 ^ (e + 200)) ∧ 0 ≤ m * mantissa_ r).
Proof.
  intros Hm He Hr. destruct (decide (m = 0)) as [->|Hm0].
  { injection Hr as <-. left. split; [done|]. simpl. done. }
  pose proof (normalize_nonzero m e Hm0 Hm) as Hn. rewrite Hr in Hn.
  destruct Hn as [[Hz ->]|(e' & He' & Hn & ->)].
  - left. split; [done|]. rewrite shift10_abs in Hz.
    pose proof (pow10_pos (e + 200) ltac:(lia)).
    destruct (Z.le_gt_cases (minExponent - e) 0).
    + rewrite shift10_neg in Hz by lia.
      replace (e + 200) with (- (minExponent - e) + (minExponent + 200)) by lia.
      rewrite Z.pow_add_r by (iou_consts; lia).
      pose proof (pow10_pos (minExponent + 200) ltac:(done)). nia.
    + rewrite shift10_nonneg in Hz by lia.
      pose proof (pow10_pos (minExponent - e) ltac:(lia)).
      replace (minExponent + 200) with ((minExponent - e) + (e + 200)) by lia.
      rewrite (Z.pow_add_r 10 (minExponent - e)) by lia.
      assert (Z.abs m < minMantissa * 10 ^ (minExponent - e)); [|nia].
      pose proof (Z.mul_succ_div_gt (Z.abs m) (10 ^ (minExponent - e)) ltac:(lia)). nia.
  - right. unfold val, ulp. simpl.
    destruct (shift10_err m (e' - e) (e + 200)) as (? & ? & ?);
      [lia|iou_consts; lia|].
    replace (e + 200 + (e' - e)) with (e' + 200) in * by lia. tauto.
Qed.

Lemma aligned_sum_err a b :
  wf a → wf b →
  Z.abs (aligned_sum a b * 10 ^ (Z.max (exponent_ a) (exponent_ b) + 200)
         - (val a + val b)) < 10 ^ (Z.max (exponent_ a) (exponent_ b) + 200).
Proof.
  intros Ha%wf_exponent Hb%wf_exponent. unfold aligned_sum, val, ulp.
  set (E := Z.max _ _).
  assert (exponent_ a ≤ E ∧ exponent_ b ≤ E ∧
          (E - exponent_ a = 0 ∨ E - exponent_ b = 0)) as (? & ? & Hone)
    by (unfold E; lia).
  clearbody E.
  pose proof (shift10_err (mantissa_ a) (E - exponent_ a) (exponent_ a + 200)
    ltac:(lia) ltac:(lia)) as (Hea & _ & _).
  pose proof (shift10_err (mantissa_ b) (E - exponent_ b) (exponent_ b + 200)
    ltac:(lia) ltac:(lia)) as (Heb & _ & _).
  replace (exponent_ a + 200 + (E - exponent_ a)) with (E + 200) in * by lia.
  replace (exponent_ b + 200 + (E - exponent_ b)) with (E + 200) in * by lia.
  destruct Hone as [Hz|Hz]; rewrite Hz, shift10_0 in *;
    [replace (exponent_ a) with E in * by lia|replace (exponent_ b) with E in * by lia]; lia.
Qed.

Lemma normalize_throw m e x :
  Z.abs m < 2 ^ 63 → normalize (mkIOU m e) = Throw x →
  maxMantissa < Z.abs (shift10 m (maxExponent - e)) ∧ ∃ msg, x = overflow_error msg.
Proof.
  intros Hm Hr. destruct (decide (m = 0)) as [->|Hm0]; [done|].
  pose proof (normalize_nonzero m e Hm0 Hm) as Hn. by rewrite Hr in Hn.
Qed.

(** [operator+=] on normalised amounts: the result is normalised and is the
    exact sum up to eleven units of the larger exponent (one lost by aligning,
    ten by renormalising or by the snap of tiny sums to zero), or it underflows
    to zero when the sum is below the smallest amount; it throws only
    [overflow_error], and only when the sum exceeds the largest amount. *)
Theorem iou_add_correct (a b : IOUAmount) (Ha : wf a) (Hb : wf b) :
  let E := Z.max (exponent_ a) (exponent_ b) in
  match iou_add a b with
  | Ret r => wf r ∧
      (Z.abs (val r - (val a + val b)) < 11 * 10 ^ (E + 200) ∨
       (r = iou_zero ∧ Z.abs (val a + val b)
          < minMantissa * 10 ^ (minExponent + 200) + 10 ^ (E + 200)))
  | Throw x => (∃ msg, x = overflow_error msg) ∧
      maxMantissa * 10 ^ (maxExponent + 200) < Z.abs (val a + val b)
  end.
Proof.
  cbv zeta. pose proof (aligned_sum_err a b Ha Hb) as Herr.
  set (E := Z.max _ _) in *.
  assert (HE : -100 ≤ E ≤ 80).
  { apply wf_exponent in Ha, Hb. unfold E. lia. }
  pose proof (pow10_pos (E + 200) ltac:(lia)) as HP.
  destruct (wf_zero_or b Hb) as [->|(? & Hmb & ?)].
  { unfold iou_add. simpl. split; [done|]. left. unfold val at 3. simpl. lia. }
  destruct (wf_zero_or a Ha) as [->|(? & Hma & ?)].
  { unfold iou_add. destruct (Z.eqb_spec (iou_signum b) 0) as [Hs%iou_signum_0|]; [done|].
    simpl. split; [done|]. left. unfold val at 2. simpl. lia. }
  rewrite iou_add_eq by done. fold E.
  pose proof (aligned_sum_bound a b Hma Hmb) as Hbd.
  set (S := aligned_sum a b) in *.
  destruct (Z.leb_spec (Z.abs S) 10) as [HS|HS].
  { split; [by left|]. left. unfold val at 1. simpl. nia. }
  assert (HSb : Z.abs S < 2 ^ 63) by (iou_consts; lia).
  destruct (normalize (mkIOU S E)) as [r|x] eqn:Hr.
  - split; [eapply normalize_wf; [|done]; lia|].
    destruct (normalize_val S E r HSb ltac:(lia) Hr)
      as [[-> Hu]|(Hn & He & _ & Hv & Hle & _)].
    + right. split; [done|]. nia.
    + left. assert (ulp r ≤ 10 * 10 ^ (E + 200)); [|lia].
      rewrite <- pow10_succ by lia. apply pow10_le. iou_consts.
      destruct (Z.le_gt_cases (exponent_ r) (E + 1)); [lia|].
      assert (100 * 10 ^ (E + 200) ≤ ulp r).
      { change 100 with (10 ^ 2). rewrite <- Z.pow_add_r by lia. apply pow10_le. lia. }
      unfold val in Hle. rewrite !Z.abs_mul in Hle. nia.
  - apply normalize_throw in Hr as [Hbig Hmsg]; [|done]. split; [done|].
    rewrite shift10_abs in Hbig.
    assert (HE80 : E = 80 ∨ E < 80) by lia. destruct HE80 as [->|HE80].
    + unfold maxExponent in *. rewrite Z.sub_diag, shift10_0 in Hbig.
      pose proof (Z.abs_mul S (10 ^ (80 + 200))). rewrite (Z.abs_eq (10 ^ _)) in * by lia. nia.
    + exfalso. unfold maxExponent in *.
      pose proof (shift10_anti_strict (Z.abs S) 0 (80 - E) ltac:(lia) ltac:(lia)) as Hs.
      rewrite shift10_0 in Hs.
      pose proof (Z.div_le_upper_bound (Z.abs S) 10 maxMantissa). iou_consts; lia.
Qed.

Lemma iou_add_correct_witness :
  wf (mkIOU 9999999999999999 3) ∧ wf (mkIOU (-1000000000000000) 1) ∧
  iou_add (mkIOU 9999999999999999 3) (mkIOU (-1000000000000000) 1)
    = Ret (mkIOU 9989999999999999 3) ∧
  wf (mkIOU 9989999999999999 3).
Proof.
  assert (H1 : wf (mkIOU 9999999999999999 3)) by (right; vm_compute; done).
  assert (H2 : wf (mkIOU (-1000000000000000) 1)) by (right; vm_compute; done).
  split_and!; [done|done|reflexivity|].
  exact (proj1 (iou_add_correct _ _ H1 H2)).
Defined.

(** ** mulRatio *)

Lemma powerTable_eq : powerTable = (λ i, 10 ^ i) <$> seqZ 0 30.
Proof. vm_compute. reflexivity. Qed.

Lemma tableAt_pow i : 0 ≤ i < 30 → tableAt i = 10 ^ i.
Proof.
  intros Hi. unfold tableAt. rewrite powerTable_eq.
  rewrite nth_lookup, list_lookup_fmap, lookup_seqZ_lt by lia. simpl. f_equal; lia.
Qed.

Lemma lower_bound_pow v n k :
  0 ≤ k → v ≤ 10 ^ (k + Z.of_nat n) →
  let i := lower_bound ((λ i, 10 ^ i) <$> seqZ k (Z.of_nat (S n))) v in
  0 ≤ i ≤ Z.of_nat n ∧ v ≤ 10 ^ (k + i) ∧ (i = 0 ∨ 10 ^ (k + i - 1) < v).
Proof.
  revert k. induction n as [|n IH]; intros k Hk Hv; cbv zeta;
    rewrite seqZ_cons by lia; cbn [fmap list_fmap lower_bound].
  - simpl in Hv. rewrite Z.add_0_r in Hv. destruct (Z.ltb_spec (10 ^ k) v); [lia|].
    rewrite Z.add_0_r. auto with lia.
  - destruct (Z.ltb_spec (10 ^ k) v).
    + replace (Z.pred (Z.of_nat (S (S n)))) with (Z.of_nat (S n)) by lia.
      destruct (IH (Z.succ k)) as (? & Hle & Hlt); [lia|by rewrite Nat2Z.inj_succ, <- Z.add_succ_comm in Hv|].
      set (i := lower_bound _ v) in *. clearbody i.
      replace (k + (1 + i)) with (Z.succ k + i) by lia.
      split_and!; [lia|lia|done|]. right. destruct Hlt as [->|?]; [|done].
      by replace (Z.succ k + 0 - 1) with k by lia.
    + rewrite Z.add_0_r. auto with lia.
Qed.

Lemma log10Ceil_spec v :
  v ≤ 10 ^ 29 →
  0 ≤ log10Ceil v ≤ 29 ∧ v ≤ 10 ^ log10Ceil v ∧
  (log10Ceil v = 0 ∨ 10 ^ (log10Ceil v - 1) < v).
Proof.
  intros Hv. unfold log10Ceil. rewrite powerTable_eq.
  apply (lower_bound_pow v 29 0); [lia|exact Hv].
Qed.

Lemma fl64_eq : fl64 = 18.
Proof. vm_compute. reflexivity. Qed.

Lemma u128_small z : 0 ≤ z < 2 ^ 128 → u128 z = z.
Proof. apply Z.mod_small. Qed.

(** The exact quotient [x / den] is kept as [low * den + rem] while digits are
    gained; when there was a remainder the quotient ends with at least 18
    digits. *)
Lemma mulRatio_grow_spec x den e low rem ex :
  0 < den < 2 ^ 32 → 2 ^ 32 ≤ x < 2 ^ 95 →
  mulRatio_grow (x `quot` den) (x - x `quot` den * den) e den = (low, rem, ex) →
  ex ≤ e ≤ ex + 18 ∧ x * 10 ^ (e - ex) = low * den + rem ∧ 0 ≤ rem < den ∧
  0 < low ≤ 10 ^ 29 ∧ (rem = 0 ∧ ex = e ∨ 10 ^ 17 ≤ low).
Proof.
  intros Hden Hx. rewrite Z.quot_div_nonneg by lia.
  pose proof (Z.div_mod x den ltac:(lia)) as Hdm.
  pose proof (Z.mod_pos_bound x den ltac:(lia)) as Hmb.
  set (q := x `div` den) in *. set (r := x `mod` den) in *. clearbody q r.
  replace (x - q * den) with r by lia.
  assert (Hq : 1 ≤ q < 2 ^ 95) by nia.
  unfold mulRatio_grow. destruct (Z.eqb_spec r 0) as [->|Hr].
  { intros [= <- <- <-]. rewrite Z.sub_diag. split_and!; try lia. }
  rewrite fl64_eq.
  destruct (log10Ceil_spec q) as (Hi & Hle & Hlt); [lia|].
  set (i := log10Ceil q) in *. clearbody i.
  destruct (Z.ltb_spec 0 (18 - i)) as [Hroom|Hroom].
  - rewrite tableAt_pow by lia.
    pose proof (pow10_pos (18 - i) ltac:(lia)).
    assert (Hqk : q * 10 ^ (18 - i) ≤ 10 ^ 18).
    { assert (Hsum : 10 ^ i * 10 ^ (18 - i) = 10 ^ 18).
      { rewrite <- Z.pow_add_r by lia. f_equal. lia. }
      rewrite <- Hsum. nia. }
    assert (Hp18 : 10 ^ (18 - i) ≤ 10 ^ 18) by (apply pow10_le; lia).
    assert (Hlow : 10 ^ 17 ≤ q * 10 ^ (18 - i)).
    { destruct (decide (i = 0)) as [->|]; [change (10 ^ (18 - 0)) with (10 ^ 18); lia|].
      destruct Hlt as [?|Hlt]; [done|].
      replace (10 ^ 17) with (10 ^ (i - 1) * 10 ^ (18 - i))
        by (rewrite <- Z.pow_add_r; [f_equal; lia|lia..]). nia. }
    rewrite (u128_small (q * _)), (u128_small (r * _)) by nia.
    set (K := 10 ^ (18 - i)) in *.
    rewrite Z.quot_div_nonneg by nia.
    pose proof (Z.div_mod (r * K) den ltac:(lia)).
    pose proof (Z.mod_pos_bound (r * K) den ltac:(lia)).
    pose proof (Z.div_pos (r * K) den ltac:(nia) ltac:(lia)).
    assert ((r * K) `div` den ≤ K) by (apply Z.div_le_upper_bound; nia).
    set (ar := (r * K) `div` den) in *. set (rr := (r * K) `mod` den) in *. clearbody ar rr.
    rewrite u128_small by lia. intros [= <- <- <-].
    replace (e - (e - (18 - i))) with (18 - i) by lia. fold K.
    split_and!; lia || nia.
  - rewrite Z.quot_small, Z.add_0_r, Z.mul_0_l, Z.sub_0_r by lia.
    rewrite u128_small by lia. intros [= <- <- <-]. rewrite Z.sub_diag.
    assert (10 ^ 17 ≤ 10 ^ (i - 1)) by (apply pow10_le; lia).
    split_and!; lia.
Qed.

Lemma mulRatio_shrink_spec low rem ex low' hasRem ex' :
  0 ≤ rem → 0 < low ≤ 10 ^ 29 →
  mulRatio_shrink low rem ex = (low', hasRem, ex') →
  ex ≤ ex' ≤ ex + 11 ∧ low' = low `div` 10 ^ (ex' - ex) ∧ 0 < low' ≤ 10 ^ 18 ∧
  (hasRem = false ↔ rem = 0 ∧ low = low' * 10 ^ (ex' - ex)) ∧
  (ex' = ex ∨ 10 ^ 17 ≤ low').
Proof.
  intros Hrem Hlow. unfold mulRatio_shrink. rewrite fl64_eq.
  destruct (log10Ceil_spec low) as (Hi & Hle & Hlt); [lia|].
  set (i := log10Ceil low) in *. clearbody i.
  destruct (Z.ltb_spec 0 (i - 18)) as [Hs|Hs].
  - rewrite tableAt_pow by lia. pose proof (pow10_pos (i - 18) ltac:(lia)).
    rewrite Z.quot_div_nonneg by lia. intros [= <- <- <-].
    replace (ex + (i - 18) - ex) with (i - 18) by lia.
    set (K := 10 ^ (i - 18)) in *.
    assert (10 ^ 18 * K = 10 ^ i ∧ 10 ^ 17 * K = 10 ^ (i - 1)) as [HK1 HK2].
    { unfold K. rewrite <- !Z.pow_add_r by lia. split; f_equal; lia. }
    pose proof (Z.div_mod low K ltac:(lia)).
    pose proof (Z.mod_pos_bound low K ltac:(lia)).
    assert (low `div` K ≤ 10 ^ 18) by (apply Z.div_le_upper_bound; lia).
    assert (10 ^ 17 ≤ low `div` K).
    { apply Z.div_le_lower_bound; [lia|]. destruct Hlt; lia. }
    rewrite u128_small by nia.
    split_and!; try lia;
    destruct (Z.eqb_spec rem 0), (Z.eqb_spec (low - low `div` K * K) 0); simpl;
      try done; try lia; tauto.
  - intros [= <- <- <-]. rewrite Z.sub_diag, Z.div_1_r, Z.mul_1_r.
    assert (10 ^ i ≤ 10 ^ 18) by (apply pow10_le; lia).
    split_and!; try lia; destruct (Z.eqb_spec rem 0); simpl; try done; tauto.
Qed.

(** The truncated quotient before rounding. *)
Definition quotient (x den e : Z) : Z * bool * Z :=
  let low := x `quot` den in
  let '(low, rem, exponent) := mulRatio_grow low (x - low * den) e den in
  mulRatio_shrink low rem exponent.

Lemma quotient_spec x den e low hasRem ex :
  0 < den < 2 ^ 32 → 2 ^ 32 ≤ x < 2 ^ 95 → -96 ≤ e →
  quotient x den e = (low, hasRem, ex) →
  e - 18 ≤ ex ∧ 0 < low ≤ 10 ^ 18 ∧
  (if hasRem then
     den * (low * 10 ^ (ex + 200)) < x * 10 ^ (e + 200)
       < den * ((low + 1) * 10 ^ (ex + 200)) ∧ 10 ^ 17 ≤ low
   else den * (low * 10 ^ (ex + 200)) = x * 10 ^ (e + 200)).
Proof.
  intros Hden Hx He. unfold quotient.
  destruct (mulRatio_grow _ _ _ _) as [[low1 rem1] ex1] eqn:Hg.
  apply mulRatio_grow_spec in Hg as (Hex1 & Heq1 & Hrem1 & Hlow1 & Hd1); [|done..].
  intros Hs. apply mulRatio_shrink_spec in Hs as (Hex & Heq & Hlow & Hrem & Hd); [|lia|done].
  split_and!; [lia|lia|lia|].
  pose proof (pow10_pos (ex1 + 200) ltac:(lia)) as HP1.
  pose proof (pow10_pos (ex - ex1) ltac:(lia)) as HK.
  assert (Hx' : x * 10 ^ (e + 200) = (low1 * den + rem1) * 10 ^ (ex1 + 200)).
  { rewrite <- Heq1, <- Z.mul_assoc, <- Z.pow_add_r by lia. do 2 f_equal. lia. }
  assert (Hp : 10 ^ (ex + 200) = 10 ^ (ex - ex1) * 10 ^ (ex1 + 200)).
  { rewrite <- Z.pow_add_r by lia. f_equal. lia. }
  rewrite Hx', Hp. set (P := 10 ^ (ex1 + 200)) in *. set (K := 10 ^ (ex - ex1)) in *.
  pose proof (Z.div_mod low1 K ltac:(lia)) as Hdm.
  pose proof (Z.mod_pos_bound low1 K HK) as Hmb.
  rewrite <- Heq in Hdm. set (md := low1 `mod` K) in *.
  assert (HK1 : ex = ex1 → K = 1) by (intros ->; unfold K; by rewrite Z.sub_diag).
  clearbody md P K.
  destruct hasRem.
  - assert (Hnz : 0 < rem1 ∨ 0 < md).
    { destruct (decide (rem1 = 0)), (decide (md = 0)); lia. }
    split; [split|].
    + assert (den * (low * K) < low1 * den + rem1); [|nia]. nia.
    + assert (low1 * den + rem1 < den * ((low + 1) * K)); [|nia]. nia.
    + destruct Hd as [Hd|?]; [|done]. specialize (HK1 Hd) as ->. lia.
  - destruct Hrem as [Hrem _]. destruct (Hrem eq_refl) as [-> Hl]. rewrite Hl. ring.
Qed.

Lemma mulRatio_eq amt num den roundUp :
  wf amt → 0 < mantissa_ amt → in_u32 num → den ≠ 0 →
  mulRatio amt num den roundUp =
    let '(low, hasRem, ex) := quotient (mantissa_ amt * num) den (exponent_ amt) in
    result ← iou_make low ex;
    if hasRem && roundUp then
      if mantissa_ result =? 0 then iou_make minMantissa minExponent
      else iou_make (mantissa_ result + 1) (exponent_ result)
    else Ret result.
Proof.
  intros Hwf Hm Hnum Hden. unfold mulRatio, quotient.
  destruct (Z.eqb_spec den 0); [done|].
  destruct (Z.ltb_spec (mantissa_ amt) 0); [lia|].
  rewrite u128_small.
  2:{ destruct (wf_zero_or _ Hwf) as [E|(_ & ? & _)]; [by rewrite E in Hm|].
      unfold in_u32 in Hnum. iou_consts. nia. }
  destruct (mulRatio_grow _ _ _ _) as [[low rem] ex].
  destruct (mulRatio_shrink _ _ _) as [[low' hasRem] ex'].
  destruct (iou_make low' ex') as [res|]; [|done]. simpl.
  rewrite !andb_true_r, !andb_false_r. done.
Qed.

(** The smallest positive amount. *)
Definition minPositive : IOUAmount := mkIOU minMantissa minExponent.

(** Truncating the quotient to a normal mantissa. *)
(** A quotient too large for a mantissa loses less than one unit of the result. *)
Lemma truncation_gap low ex t :
  normal_mantissa (mantissa_ t) → 0 < mantissa_ t → mantissa_ t = shift10 low (exponent_ t - ex) →
  maxMantissa < low → -200 ≤ ex → (low + 1) * 10 ^ (ex + 200) ≤ val t + ulp t.
Proof.
  intros Hn Hm0 Hm Hbig Hex.
  assert (Hs : 0 ≤ exponent_ t - ex).
  { destruct (Z.le_gt_cases 0 (exponent_ t - ex)); [done|]. exfalso.
    rewrite shift10_neg in Hm by lia.
    pose proof (pow10_pos (- (exponent_ t - ex)) ltac:(lia)). iou_consts; nia. }
  pose proof (pow10_pos (ex + 200) ltac:(lia)).
  rewrite shift10_nonneg in Hm by (iou_consts; lia).
  pose proof (pow10_pos _ Hs).
  pose proof (Z.mul_succ_div_gt low (10 ^ (exponent_ t - ex)) ltac:(lia)) as Hgt.
  rewrite <- Hm in Hgt. unfold val, ulp.
  replace (exponent_ t + 200) with ((exponent_ t - ex) + (ex + 200)) by lia.
  rewrite (Z.pow_add_r 10 (exponent_ t - ex)) by lia.
  set (K := 10 ^ (exponent_ t - ex)) in *. set (P := 10 ^ (ex + 200)) in *.
  replace (mantissa_ t * (K * P) + K * P) with (K * Z.succ (mantissa_ t) * P) by lia.
  apply Z.mul_le_mono_nonneg_r; lia.
Qed.

Lemma quotient_normalize x den e low hasRem ex t :
  0 < den < 2 ^ 32 → 2 ^ 32 ≤ x < 2 ^ 95 → -96 ≤ e →
  quotient x den e = (low, hasRem, ex) → iou_make low ex = Ret t →
  (t = iou_zero ∧ x * 10 ^ (e + 200) < den * val minPositive) ∨
  (normal_mantissa (mantissa_ t) ∧ 0 < mantissa_ t ∧
   minExponent ≤ exponent_ t ≤ maxExponent ∧
   den * val t ≤ x * 10 ^ (e + 200) < den * (val t + ulp t) ∧
   (hasRem = true → den * val t < x * 10 ^ (e + 200))).
Proof.
  intros Hden Hx He Hq Ht.
  apply quotient_spec in Hq as (Hex & Hlow & Hq); [|done..].
  pose proof (pow10_pos (ex + 200) ltac:(lia)) as HP.
  apply normalize_val in Ht as [[-> Hz]|(Hn & Het & Hm & Hv & Hle & Hsg)]; [| |lia..].
  - left. split; [done|]. change (val minPositive) with (minMantissa * 10 ^ (minExponent + 200)).
    rewrite Z.abs_eq in Hz by lia. destruct hasRem; [|nia].
    destruct Hq as [[_ Hlt] Hbig].
    eapply Z.lt_le_trans; [exact Hlt|]. apply Z.mul_le_mono_nonneg_l; [lia|].
    assert (Hexm : ex < minExponent).
    { destruct (Z.le_gt_cases minExponent ex); [|done]. exfalso.
      pose proof (pow10_le (minExponent + 200) (ex + 200) ltac:(iou_consts; lia)).
      iou_consts; nia. }
    assert (Hp : 10 ^ (minExponent + 200) = 10 ^ (minExponent - ex) * 10 ^ (ex + 200)).
    { rewrite <- Z.pow_add_r by (iou_consts; lia). f_equal. lia. }
    rewrite Hp, Z.mul_assoc in *. apply Z.mul_lt_mono_pos_r in Hz; [|done].
    apply Z.mul_le_mono_nonneg_r; lia.
  - right. assert (Hm0 : 0 < mantissa_ t).
    { destruct (Z.eq_dec (mantissa_ t) 0) as [E|]; [rewrite E in Hn; iou_consts; lia|]. nia. }
    pose proof (ulp_pos t ltac:(iou_consts; lia)) as Hu.
    assert (0 < val t) by (unfold val; nia).
    rewrite (Z.abs_eq (val t)), (Z.abs_eq (low * _)) in Hle by nia.
    refine (conj Hn (conj Hm0 (conj Het (conj (conj _ _) _)))).
    { etransitivity; [apply Z.mul_le_mono_nonneg_l; [lia|exact Hle]|].
      destruct hasRem; lia. }
    2:{ intros ->. eapply Z.le_lt_trans; [|apply Hq].
        apply Z.mul_le_mono_nonneg_l; [lia|exact Hle]. }
    destruct hasRem.
    2:{ rewrite <- Hq. apply Z.mul_lt_mono_pos_l; lia. }
    destruct Hq as [[_ Hlt] Hbig].
    eapply Z.lt_le_trans; [exact Hlt|]. apply Z.mul_le_mono_nonneg_l; [lia|].
    apply truncation_gap; [done..|iou_consts; lia|lia].
Qed.

Lemma normalize_carry e :
  minExponent ≤ e ≤ maxExponent →
  match normalize (mkIOU (maxMantissa + 1) e) with
  | Ret a => a = mkIOU minMantissa (e + 1) ∧ e < maxExponent
  | Throw x => e = maxExponent ∧ ∃ msg, x = overflow_error msg
  end.
Proof.
  intros He. pose proof (normalize_nonzero (maxMantissa + 1) e ltac:(done) ltac:(done)) as Hn.
  assert (Hone : shift10 (maxMantissa + 1) 1 = minMantissa) by done.
  destruct (normalize _) as [a|x].
  - destruct Hn as [[Hz _]|(e' & He' & Hn & ->)].
    + rewrite shift10_neg in Hz by lia.
      pose proof (pow10_pos (- (minExponent - e)) ltac:(lia)). iou_consts; nia.
    + assert (e' - e = 1).
      { apply (normal_unique (maxMantissa + 1)); [done|]. by rewrite Hone. }
      replace e' with (e + 1) in * by lia. replace (e + 1 - e) with 1 by lia.
      rewrite Hone. split; [done|lia].
  - destruct Hn as [Hn ?]. split; [|done].
    destruct (decide (e = maxExponent)); [done|].
    pose proof (shift10_anti (maxMantissa + 1) 1 (maxExponent - e) ltac:(done) ltac:(lia)).
    pose proof (shift10_pos_ge0 (maxMantissa + 1) (maxExponent - e) ltac:(done)).
    rewrite Hone in *. iou_consts; lia.
Qed.

Lemma iou_make_succ t :
  normal_mantissa (mantissa_ t) → 0 < mantissa_ t →
  minExponent ≤ exponent_ t ≤ maxExponent →
  match iou_make (mantissa_ t + 1) (exponent_ t) with
  | Ret r => wf r ∧ r ≠ iou_zero ∧ val r = val t + ulp t ∧ ulp t ≤ ulp r
  | Throw x => (∃ msg, x = overflow_error msg) ∧
      val t = maxMantissa * 10 ^ (maxExponent + 200)
  end.
Proof.
  intros Hn Hm He. unfold iou_make.
  destruct (decide (mantissa_ t = maxMantissa)) as [E|E].
  - rewrite E. pose proof (normalize_carry (exponent_ t) He) as Hc.
    destruct (normalize _) as [r|x].
    + destruct Hc as [-> Hlt]. unfold val, ulp. rewrite E. cbn [mantissa_ exponent_].
      replace (exponent_ t + 1 + 200) with (exponent_ t + 200 + 1) by lia.
      rewrite pow10_succ by (iou_consts; lia).
      pose proof (pow10_pos (exponent_ t + 200) ltac:(iou_consts; lia)).
      split_and!; [right; iou_consts; simpl; lia|done|iou_consts; lia|lia].
    + destruct Hc as [Hc ?]. split; [done|]. unfold val, ulp. by rewrite E, Hc.
  - rewrite normalize_id by (right; iou_consts; simpl; lia).
    split_and!; [right; iou_consts; simpl; lia|by intros [=]; lia|unfold val, ulp; simpl; lia|done].
Qed.

Lemma mulRatio_zero amt num den roundUp :
  mantissa_ amt * num = 0 → 0 < den → mulRatio amt num den roundUp = Ret iou_zero.
Proof.
  intros Hz Hden. unfold mulRatio. destruct (Z.eqb_spec den 0); [lia|].
  assert ((if mantissa_ amt <? 0 then - mantissa_ amt else mantissa_ amt) * num = 0) as -> by (destruct (_ <? _); lia).
  change (u128 0) with 0. rewrite Z.quot_0_l by lia. rewrite Z.mul_0_l, Z.sub_diag. by destruct (_ <? _), roundUp.
Qed.

Lemma iou_make_throw low ex x :
  0 < low ≤ 10 ^ 18 → -200 ≤ ex → iou_make low ex = Throw x →
  (∃ msg, x = overflow_error msg) ∧
  maxMantissa * 10 ^ (maxExponent + 200) < low * 10 ^ (ex + 200).
Proof.
  intros Hlow Hex Hx. apply normalize_throw in Hx as [Hbig ?]; [|lia].
  split; [done|].
  destruct (shift10_err low (maxExponent - ex) (ex + 200)) as (_ & Hle & _);
    [lia|iou_consts; lia|].
  replace (ex + 200 + (maxExponent - ex)) with (maxExponent + 200) in Hle by lia.
  pose proof (pow10_pos (ex + 200) ltac:(lia)).
  rewrite (Z.abs_eq (low * _)), Z.abs_mul in Hle by lia.
  rewrite (Z.abs_eq (10 ^ (maxExponent + 200))) in Hle by (iou_consts; lia).
  eapply Z.lt_le_trans; [|exact Hle].
  apply Z.mul_lt_mono_pos_r; [by apply pow10_pos|done].
Qed.

(** *** The exact result *)

(** An amount of at most 18 digits, or 10^18: [mulRatio] sees that nothing is left over. *)
Definition short (X den : Z) : Prop :=
  ∃ low ex, -200 ≤ ex ∧ 0 ≤ low ≤ 10 ^ 18 ∧ den * (low * 10 ^ (ex + 200)) = X.

(** [X / den] cut off to the 16 digits of an amount, and the next amount above. *)
Definition cut (X den : Z) (t : IOUAmount) : Prop :=
  wf t ∧ 0 ≤ mantissa_ t ∧
  (t = iou_zero ∧ X < den * val minPositive ∨
   0 < mantissa_ t ∧ den * val t ≤ X < den * (val t + ulp t)).

Definition above (t : IOUAmount) : Z := if mantissa_ t =? 0 then val minPositive else val t + ulp t.

(** A remainder is left exactly if the quotient is not short. *)
Lemma quotient_short x den e low hasRem ex :
  0 < den < 2 ^ 32 → 2 ^ 32 ≤ x < 2 ^ 95 → -96 ≤ e →
  quotient x den e = (low, hasRem, ex) →
  if hasRem then ¬ short (x * 10 ^ (e + 200)) den else short (x * 10 ^ (e + 200)) den.
Proof.
  intros Hden Hx He Hq. apply quotient_spec in Hq as (Hex & Hlow & Hq); [|done..].
  destruct hasRem; [|exists low, ex; split_and!; lia].
  destruct Hq as [[H1 H2] Hbig]. intros (l2 & e2 & He2 & Hl2 & HX). rewrite <- HX in H1, H2.
  apply Z.mul_lt_mono_pos_l in H1, H2; [|lia..].
  destruct (Z.le_gt_cases ex e2) as [Hle|Hgt].
  - assert (Hp : 10 ^ (e2 + 200) = 10 ^ (e2 - ex) * 10 ^ (ex + 200)) by (rewrite <- Z.pow_add_r by lia; f_equal; lia).
    rewrite Hp, Z.mul_assoc in H1, H2.
    pose proof (pow10_pos (ex + 200) ltac:(lia)). apply Z.mul_lt_mono_pos_r in H1, H2; lia.
  - assert (Hp : 10 ^ (ex + 200) = 10 ^ (ex - e2 - 1) * 10 * 10 ^ (e2 + 200)).
    { rewrite <- (Z.pow_1_r 10) at 3. rewrite <- !Z.pow_add_r by lia. f_equal. lia. }
    rewrite Hp in H1. pose proof (pow10_pos (e2 + 200) ltac:(lia)). pose proof (pow10_pos (ex - e2 - 1) ltac:(lia)).
    set (P := 10 ^ (e2 + 200)) in *. set (K := 10 ^ (ex - e2 - 1)) in *.
    rewrite Z.mul_assoc in H1. apply Z.mul_lt_mono_pos_r in H1; [|lia]. nia.
Qed.

(** *** Negative amounts *)

Definition opp (a : IOUAmount) : IOUAmount := mkIOU (- mantissa_ a) (exponent_ a).

Lemma iou_make_opp m e : 0 < m < 2 ^ 63 → iou_make (- m) e = opp <$> iou_make m e.
Proof.
  intros Hm. unfold iou_make, normalize. cbn [mantissa_ exponent_].
  destruct (Z.eqb_spec (- m) 0), (Z.eqb_spec m 0), (Z.ltb_spec (- m) 0), (Z.ltb_spec m 0); try lia.
  rewrite Z.opp_involutive, i64_small by (unfold in_i64; lia).
  destruct (normalize_down _) as [[m' e']|]; [|done]. cbn [mbind outcome_bind].
  destruct (_ || _); [done|]. by destruct (maxExponent <? e').
Qed.

Lemma iou_make_wf m e a : - 2 ^ 63 < m < 2 ^ 63 → iou_make m e = Ret a → wf a.
Proof. apply normalize_wf. Qed.

Lemma wf_mantissa a : wf a → Z.abs (mantissa_ a) ≤ maxMantissa.
Proof. intros [->|[[_ H] _]]; [done|exact H]. Qed.

Lemma wf_opp a : wf a → wf (opp a).
Proof.
  intros [->|[Hn He]]; [by left|right]. unfold normal_mantissa in *. cbn. by rewrite Z.abs_opp.
Qed.

Lemma mulRatio_opp amt num den roundUp :
  wf amt → 0 < mantissa_ amt → in_u32 num → num ≠ 0 → 0 < den < 2 ^ 32 →
  mulRatio (opp amt) num den roundUp = opp <$> mulRatio amt num den (negb roundUp).
Proof.
  intros Hwf Hm Hnum Hnz Hden. rewrite (mulRatio_eq amt) by (done || lia).
  destruct (wf_zero_or _ Hwf) as [->|(_ & Hn & He)]; [done|].
  assert (Hx : 2 ^ 32 ≤ mantissa_ amt * num < 2 ^ 95) by (unfold in_u32 in Hnum; iou_consts; nia).
  unfold mulRatio. cbn [mantissa_ exponent_ opp]. destruct (Z.eqb_spec den 0); [lia|].
  destruct (Z.ltb_spec (- mantissa_ amt) 0); [|lia]. rewrite Z.opp_involutive, u128_small by lia.
  destruct (quotient _ _ _) as [[low hasRem] ex] eqn:Hq.
  assert (Hq' := Hq). apply quotient_spec in Hq' as (_ & Hlow & _); [|done|done|iou_consts; lia].
  unfold quotient in Hq. destruct (mulRatio_grow _ _ _ _) as [[l1 r1] e1]. rewrite Hq.
  rewrite (iou_make_opp low ex) by lia. destruct (iou_make low ex) as [t|] eqn:Et; [|done]. cbn [fmap outcome_fmap mbind outcome_bind].
  rewrite !andb_false_r, andb_true_r. cbn [mantissa_ exponent_ opp].
  destruct (hasRem && negb roundUp); [|done].
  pose proof (wf_mantissa t (iou_make_wf low ex t ltac:(lia) Et)) as Hmax.
  destruct (Z.eqb_spec (- mantissa_ t) 0), (Z.eqb_spec (mantissa_ t) 0); try lia; [done|].
  replace (- mantissa_ t - 1) with (- (mantissa_ t + 1)) by lia.
  assert (0 < mantissa_ t) as Hpos.
  { unfold iou_make in Et. pose proof (normalize_nonzero low ex ltac:(lia) ltac:(lia)) as Hz. rewrite Et in Hz.
    destruct Hz as [[_ ->]|(e' & _ & Hn' & ->)]; [done|]. cbn [mantissa_] in *.
    pose proof (shift10_pos_ge0 low (e' - ex) ltac:(lia)). lia. }
  rewrite (iou_make_opp (mantissa_ t + 1)) by (iou_consts; lia). done.
Qed.

(** Positive amounts. *)
Lemma mulRatio_pos amt num den roundUp :
  wf amt → 0 < mantissa_ amt → in_u32 num → num ≠ 0 → 0 < den < 2 ^ 32 →
  match mulRatio amt num den roundUp with
  | Ret r => wf r ∧ 0 ≤ mantissa_ r ∧ ∃ t, cut (num * val amt) den t ∧
      (roundUp = false ∨ short (num * val amt) den → val r = val t) ∧
      (roundUp = true → ¬ short (num * val amt) den → val r = above t)
  | Throw x => (∃ msg, x = overflow_error msg) ∧
      den * (maxMantissa * 10 ^ (maxExponent + 200)) < num * val amt
  end.
Proof.
  intros Hwf Hpos Hnum Hnz Hden. destruct (wf_zero_or _ Hwf) as [->|(_ & Hn & He)]; [done|].
  assert (He96 : -96 ≤ exponent_ amt) by apply He.
  rewrite mulRatio_eq by (done || lia). destruct (quotient _ _ _) as [[low hasRem] ex] eqn:Hq.
  assert (Hx : 2 ^ 32 ≤ mantissa_ amt * num < 2 ^ 95) by (unfold in_u32 in Hnum; iou_consts; nia).
  assert (Hval : num * val amt = mantissa_ amt * num * 10 ^ (exponent_ amt + 200)) by (unfold val, ulp; ring).
  rewrite Hval. set (X := mantissa_ amt * num * _) in *.
  pose proof (quotient_spec _ _ _ _ _ _ Hden Hx He96 Hq) as (Hex & Hlow & Hqs). fold X in Hqs.
  pose proof (quotient_short _ _ _ _ _ _ Hden Hx He96 Hq) as Hsh. fold X in Hsh.
  destruct (iou_make low ex) as [t|x] eqn:Ht; cbn [mbind outcome_bind].
  2:{ apply iou_make_throw in Ht as [? Hbig]; [|lia|iou_consts; lia]. split; [done|].
      eapply Z.lt_le_trans; [apply Z.mul_lt_mono_pos_l; [|exact Hbig]; lia|]. destruct hasRem; lia. }
  pose proof (quotient_normalize _ _ _ _ _ _ _ Hden Hx He96 Hq Ht) as Hqn. fold X in Hqn.
  assert (Hcut : cut X den t).
  { destruct Hqn as [[-> Hs]|(Htn & Htm & Hte & Hb & _)]; [by split_and!; [left| |left]|].
    split_and!; [by right|lia|by right]. }
  destruct Hqn as [[-> Hsmall]|(Htn & Htm & Hte & [Hge Hlt] & Hstrict)].
  - destruct hasRem, roundUp; cbn [andb].
    1: change (mantissa_ iou_zero =? 0) with true; cbv iota;
       change (iou_make minMantissa minExponent) with (Ret minPositive); split_and!; [by right|done|].
    2,3,4: split_and!; [by left|done|].
    all: exists iou_zero; split_and!; [done|by intros [?|?]|by intros ??].
  - destruct (hasRem && roundUp) eqn:Hr.
    + apply andb_true_iff in Hr as [-> ->]. specialize (Hstrict eq_refl).
      destruct (Z.eqb_spec (mantissa_ t) 0) as [|Hnz0]; [lia|].
      pose proof (iou_make_succ t Htn Htm Hte) as Hs.
      destruct (iou_make (mantissa_ t + 1) _) as [r|x].
      * destruct Hs as (Hwr & _ & Hvr & _). split; [done|].
        assert (0 ≤ mantissa_ r) as Hr0.
        { pose proof (ulp_pos t ltac:(iou_consts; lia)). assert (0 < val r) by (rewrite Hvr; unfold val; nia).
          destruct (wf_zero_or _ Hwr) as [->|(_ & _ & Her)]; [done|].
          pose proof (ulp_pos r ltac:(iou_consts; lia)). unfold val in *. nia. }
        split; [done|]. exists t. split_and!; [done|by intros [?|?]|]. intros _ _. unfold above.
        by destruct (Z.eqb_spec (mantissa_ t) 0).
      * destruct Hs as [? Hvt]. split; [done|]. rewrite <- Hvt. exact Hstrict.
    + split_and!; [by right|lia|]. exists t. split_and!; [done|done|]. intros -> Hns.
      rewrite andb_true_r in Hr. by rewrite Hr in Hsh.
Qed.

(** C40: [mulRatio amt num den roundUp], for any amount: the magnitude of the result is that of
    [num * amt / den] cut off to the digits of an amount, and the next amount above that when
    rounding away from zero was asked for (up for an amount that is not negative, down for
    a negative one) and the quotient has more than 18 digits; below the smallest amount
    this is zero or the smallest amount.  The sign is that of the amount.  Only
    [overflow_error] is thrown, and only above the largest amount. *)
Theorem mulRatio_correct (amt : IOUAmount) (num den : Z) (roundUp : bool)
    (Hwf : wf amt) (Hnum : in_u32 num) (Hden : 0 < den < 2 ^ 32) :
  let X := num * Z.abs (val amt) in
  let away := if mantissa_ amt <? 0 then negb roundUp else roundUp in
  match mulRatio amt num den roundUp with
  | Ret r => wf r ∧ 0 ≤ mantissa_ amt * mantissa_ r ∧ ∃ t, cut X den t ∧
      (away = false ∨ short X den → Z.abs (val r) = val t) ∧
      (away = true → ¬ short X den → Z.abs (val r) = above t)
  | Throw x => (∃ msg, x = overflow_error msg) ∧ den * (maxMantissa * 10 ^ (maxExponent + 200)) < X
  end.
Proof.
  cbv zeta. destruct (decide (mantissa_ amt * num = 0)) as [Hz|Hnz].
  { rewrite mulRatio_zero by (done || lia).
    assert (num * Z.abs (val amt) = 0) as ->.
    { rewrite <- (Z.abs_eq num) by (unfold in_u32 in Hnum; lia). rewrite <- Z.abs_mul.
      replace (num * val amt) with (mantissa_ amt * num * ulp amt) by (unfold val; ring). by rewrite Hz. }
    split_and!; [by left|by rewrite Z.mul_0_r|]. exists iou_zero.
    assert (short 0 den) by (exists 0, 0; split_and!; lia).
    split_and!; [|done|done]. split_and!; [by left|done|]. left. split; [done|].
    change (val minPositive) with (minMantissa * 10 ^ 104). apply Z.mul_pos_pos; [lia|done]. }
  assert (Hnz' : num ≠ 0) by (intros ->; lia).
  assert (Habs : ∀ a, wf a → 0 ≤ mantissa_ a → Z.abs (val a) = val a ∧ Z.abs (val (opp a)) = val a).
  { intros a Ha Hm. assert (0 ≤ val a).
    { destruct (wf_zero_or _ Ha) as [->|(_ & _ & He)]; [done|]. pose proof (ulp_pos a ltac:(iou_consts; lia)). unfold val. nia. }
    assert (val (opp a) = - val a) as -> by (unfold val, ulp; cbn; ring). lia. }
  destruct (Z.ltb_spec (mantissa_ amt) 0) as [Hneg|Hpos].
  - assert (Ho : amt = opp (opp amt)) by (destruct amt; unfold opp; cbn; f_equal; lia).
    pose proof (wf_opp _ Hwf) as Hwo. assert (0 < mantissa_ (opp amt)) as Hpo by (cbn; lia).
    assert (mulRatio amt num den roundUp = opp <$> mulRatio (opp amt) num den (negb roundUp)) as ->
      by (rewrite <- mulRatio_opp by done; by rewrite <- Ho).
    assert (Z.abs (val amt) = val (opp amt)) as ->.
    { pose proof (Habs (opp amt) Hwo ltac:(lia)) as [_ H]. by rewrite <- Ho in H. }
    pose proof (mulRatio_pos (opp amt) num den (negb roundUp) Hwo Hpo Hnum Hnz' Hden) as H.
    destruct (mulRatio (opp amt) _ _ _) as [r|x]; [|done]. cbn [fmap outcome_fmap].
    destruct H as (Hw & Hr0 & t & Hc & H1 & H2). split; [by apply wf_opp|]. split; [cbn; nia|]. exists t.
    rewrite (proj2 (Habs r Hw Hr0)). done.
  - assert (Z.abs (val amt) = val amt) as -> by (apply Habs; [done|lia]).
    assert (0 < mantissa_ amt) as Hp by lia.
    pose proof (mulRatio_pos amt num den roundUp Hwf Hp Hnum Hnz' Hden) as H.
    destruct (mulRatio amt _ _ _) as [r|x]; [|done].
    destruct H as (Hw & Hr0 & t & Hc & H1 & H2). split; [done|]. split; [nia|]. exists t.
    rewrite (proj1 (Habs r Hw Hr0)). done.
Qed.

(** The smallest amounts of the unit tests. *)
Lemma mulRatio_correct_witness :
  mulRatio (opp minPositive) 1 (2 ^ 32 - 1) false = Ret (opp minPositive) ∧
  ∃ t, cut (1 * Z.abs (val (opp minPositive))) (2 ^ 32 - 1) t.
Proof.
  assert (E : mulRatio (opp minPositive) 1 (2 ^ 32 - 1) false = Ret (opp minPositive)) by (vm_compute; reflexivity).
  split; [exact E|].
  assert (H1 : wf (opp minPositive)) by (right; vm_compute; intuition discriminate).
  pose proof (mulRatio_correct (opp minPositive) 1 (2 ^ 32 - 1) false H1 ltac:(unfold in_u32; lia) ltac:(lia)) as H.
  cbv zeta in H. rewrite E in H. destruct H as (_ & _ & t & Hc & _). exact (ex_intro _ t Hc).
Defined.

(** rounding up is not honoured when the digits are dropped by the
    normalisation and not by the division: a 10% transfer fee on
    1000000000000001 rounded up is below the exact product. *)
Theorem mulRatio_roundUp_truncates :
  ∃ amt r, wf amt ∧
    mulRatio amt 1100000000 1000000000 true = Ret r ∧
    1000000000 * val r < 1100000000 * val amt.
Proof.
  exists (mkIOU 1000000000000001 0), (mkIOU 1100000000000001 0).
  split_and!; [right; vm_compute; done|vm_compute; reflexivity|vm_compute; reflexivity].
Qed.
