(* ===== verification/XRPAmount.v ===== *)
(** * XRPAmount: drops of the native currency

    Model of [src/src/ripple/protocol/XRPAmount.h].  The only field, [drops_],
    is an [int64_t]; the operators wrap as the two's complement arithmetic
    does. *)

From S2P Require Import Prelude.
From stdpp Require Import base numbers strings.
From Stdlib Require Import Lia ZArith.

Local Open Scope Z_scope.

Record XRPAmount : Type := mkXRP { drops_ : Z }.

#[export] Instance XRPAmount_eq_dec : EqDecision XRPAmount.
Proof. solve_decision. Defined.

(** [SYSTEM_CURRENCY_START]: 100 billion XRP of a million drops each. *)
Definition SYSTEM_CURRENCY_START : Z := 100000000000 * 1000000.

Definition xrp_zero : XRPAmount := mkXRP 0.
Definition xrp_of_int (drops : Z) : XRPAmount := mkXRP (i64 drops).
Definition xrp_add (a b : XRPAmount) : XRPAmount := mkXRP (i64 (drops_ a + drops_ b)).
Definition xrp_sub (a b : XRPAmount) : XRPAmount := mkXRP (i64 (drops_ a - drops_ b)).
Definition xrp_neg (a : XRPAmount) : XRPAmount := mkXRP (i64 (- drops_ a)).
Definition xrp_eq (a b : XRPAmount) : bool := drops_ a =? drops_ b.
Definition xrp_lt (a b : XRPAmount) : bool := drops_ a <? drops_ b.
Definition xrp_signum (a : XRPAmount) : Z :=
  if drops_ a <? 0 then -1 else if drops_ a =? 0 then 0 else 1.

(** [mulRatio]: the product and quotient are computed in 128 bits; the final
    conversion to [int64_t] keeps the value when it is in range. *)
Definition xrp_mulRatio (amt : XRPAmount) (num den : Z) (roundUp : bool) :
    outcome XRPAmount :=
  if den =? 0 then Throw (runtime_error "division by zero") else
  let neg := drops_ amt <? 0 in
  let m := drops_ amt * num in
  let r := m `quot` den in
  let r :=
    if m `rem` den =? 0 then r
    else
      let r := if negb neg && roundUp then r + 1 else r in
      if neg && negb roundUp then r - 1 else r in
  if 2 ^ 63 - 1 <? r then Throw (overflow_error "XRP mulRatio overflow")
  else Ret (mkXRP r).

Definition isLegalAmount (a : XRPAmount) : bool := drops_ a <=? SYSTEM_CURRENCY_START.

(** The rounded quotient: the floor, or the ceiling when rounding up. *)
Definition round_div (roundUp : bool) (a b : Z) : Z :=
  if roundUp then - ((- a) `div` b) else a `div` b.

Lemma ceil_div y den : 0 < den →
  - ((- y) `div` den) = if y `mod` den =? 0 then y `div` den else y `div` den + 1.
Proof.
  intros Hden. destruct (Z.eqb_spec (y `mod` den) 0).
  - rewrite Z.div_opp_l_z by lia. lia.
  - rewrite Z.div_opp_l_nz by lia. lia.
Qed.

(** The adjustment of the truncated quotient gives the rounded one. *)
Lemma round_quot x den roundUp neg :
  0 < den → (if neg : bool then x ≤ 0 else 0 ≤ x) →
  (if x `rem` den =? 0 then x `quot` den
   else
     let r := if negb neg && roundUp then x `quot` den + 1 else x `quot` den in
     if neg && negb roundUp then r - 1 else r) = round_div roundUp x den.
Proof.
  intros Hden Hx. unfold round_div. destruct neg; simpl.
  - replace x with (- (- x)) by lia. set (y := - x). assert (0 ≤ y) by lia. clearbody y.
    rewrite Z.rem_opp_l, Z.quot_opp_l, Z.quot_div_nonneg, Z.rem_mod_nonneg by lia.
    rewrite Z.opp_involutive. pose proof (ceil_div y den Hden) as Hc.
    destruct (Z.eqb_spec (y `mod` den) 0), (Z.eqb_spec (- (y `mod` den)) 0); try lia;
      destruct roundUp; simpl; lia.
  - rewrite Z.quot_div_nonneg, Z.rem_mod_nonneg by lia. rewrite ceil_div by done.
    destruct (Z.eqb_spec (x `mod` den) 0), roundUp; done.
Qed.

(** [mulRatio] on drops is the exact floor, or ceiling, of
    [num * drops / den] for amounts of either sign, and throws [overflow_error]
    exactly when that does not fit in an [int64_t] from above. *)
Theorem xrp_mulRatio_exact (amt : XRPAmount) (num den : Z) (roundUp : bool)
    (Hnum : in_u32 num) (Hden : 0 < den < 2 ^ 32) :
  let q := round_div roundUp (drops_ amt * num) den in
  xrp_mulRatio amt num den roundUp =
    if 2 ^ 63 - 1 <? q then Throw (overflow_error "XRP mulRatio overflow")
    else Ret (mkXRP q).
Proof.
  cbv zeta. unfold xrp_mulRatio. destruct (Z.eqb_spec den 0); [lia|].
  rewrite <- (round_quot _ _ _ (drops_ amt <? 0)); [done|lia|].
  unfold in_u32 in Hnum. destruct (Z.ltb_spec (drops_ amt) 0); nia.
Qed.

Lemma xrp_mulRatio_exact_witness :
  xrp_mulRatio (mkXRP (-7)) 1 2 false = Ret (mkXRP (-4)).
Proof. apply (xrp_mulRatio_exact (mkXRP (-7)) 1 2 false); unfold in_u32; lia. Defined.
