(* ===== verification/Serializer.v ===== *)
(** * Serializer and SerialIter: the canonical binary format

    Model of [src/src/ripple/protocol/Serializer.h] and
    [src/src/ripple/protocol/impl/Serializer.cpp].  A [Serializer] is its byte
    vector [mData]; bytes are integers in [[0, 255]].  A [SerialIter] is a
    cursor over a buffer; its getters form a small state-and-error monad. *)

From S2P Require Import Prelude.
From stdpp Require Import base numbers list strings.
From Stdlib Require Import Lia ZArith.

Local Open Scope Z_scope.

(** ** Bytes *)

Definition u8 (z : Z) : Z := z `mod` 256.
Definition is_byte (b : Z) : Prop := 0 ≤ b < 256.

(** The big-endian bytes of an unsigned integer; also the storage of a
    [base_uint<8 * n>]. *)
Fixpoint to_be (n : nat) (z : Z) : list Z :=
  match n with
  | O => []
  | S m => u8 (z ≫ (8 * Z.of_nat m)) :: to_be m z
  end.

Definition of_be (l : list Z) : Z := foldl (λ acc b, acc * 256 + b) 0 l.

(** ** Serializer *)

Definition Serializer : Type := list Z.

(** Each [add] returns the offset at which it wrote, and the new contents. *)
Definition push (bs : list Z) (s : Serializer) : Z * Serializer :=
  (Z.of_nat (length s), s ++ bs).

Definition addZeros (uBytes : nat) (s : Serializer) : Z * Serializer :=
  push (replicate uBytes 0) s.

Definition add8 (byte : Z) (s : Serializer) : Z * Serializer := push [byte] s.

Definition add16 (i : Z) (s : Serializer) : Z * Serializer :=
  push [u8 (i ≫ 8); u8 (Z.land i 255)] s.

Definition add32 (i : Z) (s : Serializer) : Z * Serializer :=
  push [u8 (i ≫ 24); u8 (Z.land (i ≫ 16) 255); u8 (Z.land (i ≫ 8) 255);
        u8 (Z.land i 255)] s.

Definition add64 (i : Z) (s : Serializer) : Z * Serializer :=
  push [u8 (i ≫ 56); u8 (Z.land (i ≫ 48) 255); u8 (Z.land (i ≫ 40) 255);
        u8 (Z.land (i ≫ 32) 255); u8 (Z.land (i ≫ 24) 255);
        u8 (Z.land (i ≫ 16) 255); u8 (Z.land (i ≫ 8) 255); u8 (Z.land i 255)] s.

(** [addBitString<Bits>]: [begin] to [end] of a [base_uint] are its big-endian
    bytes; [add128], [add160] and [add256] are its instances. *)
Definition addBitString (nbytes : nat) (v : Z) (s : Serializer) : Z * Serializer :=
  push (to_be nbytes v) s.

Definition add128 (v : Z) (s : Serializer) := addBitString 16 v s.
Definition add160 (v : Z) (s : Serializer) := addBitString 20 v s.
Definition add256 (v : Z) (s : Serializer) := addBitString 32 v s.

Definition addRaw (vector : list Z) (s : Serializer) : Z * Serializer := push vector s.

Definition addFieldID (type name : Z) (s : Serializer) : Z * Serializer :=
  if type <? 16 then
    if name <? 16 then push [u8 (Z.lor (type ≪ 4) name)] s
    else push [u8 (type ≪ 4); u8 name] s
  else if name <? 16 then push [u8 name; u8 type] s
  else push [0; u8 type; u8 name] s.

Definition addEncoded (length : Z) (s : Serializer) : outcome (Z * Serializer) :=
  if length <=? 192 then Ret (push [u8 length] s)
  else if length <=? 12480 then
    let length := length - 193 in
    Ret (push [u8 (193 + u8 (length ≫ 8)); u8 (Z.land length 255)] s)
  else if length <=? 918744 then
    let length := length - 12481 in
    Ret (push [u8 (241 + u8 (length ≫ 16)); u8 (Z.land (length ≫ 8) 255);
               u8 (Z.land length 255)] s)
  else Throw (overflow_error "lenlen").

Definition encodeLengthLength (length : Z) : outcome Z :=
  if length <? 0 then Throw (overflow_error "len<0") else
  if length <=? 192 then Ret 1 else
  if length <=? 12480 then Ret 2 else
  if length <=? 918744 then Ret 3 else Throw (overflow_error "len>918744").

Definition decodeLengthLength (b1 : Z) : outcome Z :=
  if b1 <? 0 then Throw (overflow_error "b1<0") else
  if b1 <=? 192 then Ret 1 else
  if b1 <=? 240 then Ret 2 else
  if b1 <=? 254 then Ret 3 else Throw (overflow_error "b1>254").

Definition decodeVLLength1 (b1 : Z) : outcome Z :=
  if b1 <? 0 then Throw (overflow_error "b1<0") else
  if 254 <? b1 then Throw (overflow_error "b1>254") else Ret b1.

Definition decodeVLLength2 (b1 b2 : Z) : outcome Z :=
  if b1 <? 193 then Throw (overflow_error "b1<193") else
  if 240 <? b1 then Throw (overflow_error "b1>240") else
  Ret (193 + (b1 - 193) * 256 + b2).

Definition decodeVLLength3 (b1 b2 b3 : Z) : outcome Z :=
  if b1 <? 241 then Throw (overflow_error "b1<241") else
  if 254 <? b1 then Throw (overflow_error "b1>254") else
  Ret (12481 + (b1 - 241) * 65536 + b2 * 256 + b3).

(** The three [addVL] overloads append the encoded length and the bytes. *)
Definition addVL (vector : list Z) (s : Serializer) : outcome (Z * Serializer) :=
  '(ret, s) ← addEncoded (Z.of_nat (length vector)) s;
  let '(_, s) := addRaw vector s in
  Ret (ret, s).

(** *** Random access

    [offset] is an [int] compared with a [size_t]: it is converted to 64-bit
    unsigned first, so a negative offset is never below the size.  The [bool]
    result and the out parameters are an [option]. *)
Definition ser_get8 (offset : Z) (s : Serializer) : option Z :=
  if Z.of_nat (length s) <=? u64 offset then None else s !! Z.to_nat offset.

Definition ser_getRaw (offset len : Z) (s : Serializer) : option (list Z) :=
  if Z.of_nat (length s) <? u64 (offset + len) then None
  else Some (take (Z.to_nat len) (drop (Z.to_nat offset) s)).

Definition ser_get256 (offset : Z) (s : Serializer) : option Z :=
  if Z.of_nat (length s) <? u64 (offset + 32) then None
  else Some (of_be (take 32 (drop (Z.to_nat offset) s))).

Definition ser_getInteger (bytes : nat) (offset : Z) (s : Serializer) : option Z :=
  if Z.of_nat (length s) <? u64 (offset + Z.of_nat bytes) then None
  else Some (of_be (take bytes (drop (Z.to_nat offset) s))).

Definition chop (bytes : Z) (s : Serializer) : option Serializer :=
  if Z.of_nat (length s) <? u64 bytes then None
  else Some (take (length s - Z.to_nat bytes) s).

(** The length prefix at [offset]: the number of prefix bytes and the length of
    the data, read the way [getVL] and [getVLLength] do.  The call of
    [decodeLengthLength] is outside their [try] block, so its exception
    escapes; the [decodeVLLength] calls are inside, and turn into [false]. *)
Definition ser_vlPrefix (offset : Z) (s : Serializer) : outcome (option (Z * Z)) :=
  match ser_get8 offset s with
  | None => Ret None
  | Some b1 =>
    lenLen ← decodeLengthLength b1;
    let caught (o : outcome Z) :=
      match o with Ret datLen => Ret (Some (lenLen, datLen)) | Throw _ => Ret None end in
    if lenLen =? 1 then caught (decodeVLLength1 b1)
    else if lenLen =? 2 then
      match ser_get8 (offset + 1) s with
      | None => Ret None
      | Some b2 => caught (decodeVLLength2 b1 b2)
      end
    else if lenLen =? 3 then
      match ser_get8 (offset + 1) s with
      | None => Ret None
      | Some b2 =>
        match ser_get8 (offset + 2) s with
        | None => Ret None
        | Some b3 => caught (decodeVLLength3 b1 b2 b3)
        end
      end
    else Ret None
  end.

(** [getVL]: the data and the total number of bytes used. *)
Definition ser_getVL (offset : Z) (s : Serializer) : outcome (option (list Z * Z)) :=
  p ← ser_vlPrefix offset s;
  match p with
  | None => Ret None
  | Some (lenLen, datLen) =>
      Ret ((λ d, (d, lenLen + datLen)) <$> ser_getRaw (offset + lenLen) datLen s)
  end.

Definition ser_getVLLength (offset : Z) (s : Serializer) : outcome (option Z) :=
  p ← ser_vlPrefix offset s;
  Ret (match p with Some (_, datLen) => Some datLen | None => None end).

(** ** SerialIter *)

(** [p_] is the position of the pointer in the buffer the iterator was made
    from. *)
Record SerialIter : Type := mkIter {
  buf : list Z; p_ : nat; used_ : nat; remain_ : nat }.

Definition iter_of (data : list Z) : SerialIter := mkIter data 0 0 (length data).

Definition advance (n : nat) (it : SerialIter) : SerialIter :=
  mkIter (buf it) (p_ it + n) (used_ it + n) (remain_ it - n).

Definition reset (it : SerialIter) : SerialIter :=
  mkIter (buf it) (p_ it - used_ it) 0 (remain_ it + used_ it).

Definition empty (it : SerialIter) : bool := (remain_ it =? 0)%nat.

Definition reader (A : Type) : Type := SerialIter → outcome (A * SerialIter).

#[export] Instance reader_ret : MRet reader := λ A a it, Ret (a, it).
#[export] Instance reader_bind : MBind reader := λ A B f r it,
  match r it with Ret (a, it') => f a it' | Throw e => Throw e end.

Definition throw {A} (e : exn) : reader A := λ _, Throw e.
Definition lift {A} (m : outcome A) : reader A := λ it,
  match m with Ret a => Ret (a, it) | Throw e => Throw e end.

(** Take [n] bytes or throw: the common shape of the fixed-size getters. *)
Definition take_bytes (n : nat) (msg : string) : reader (list Z) := λ it,
  if (remain_ it <? n)%nat then Throw (runtime_error msg)
  else Ret (take n (drop (p_ it) (buf it)), advance n it).

Definition skip (len : Z) : reader unit := λ it,
  if Z.of_nat (remain_ it) <? u64 len
  then Throw (runtime_error "invalid SerialIter skip")
  else Ret (tt, advance (Z.to_nat len) it).

Definition get8 : reader Z :=
  t ← take_bytes 1 "invalid SerialIter get8"; mret (nth 0 t 0).

Definition get16 : reader Z :=
  t ← take_bytes 2 "invalid SerialIter get16";
  mret ((nth 0 t 0 ≪ 8) + nth 1 t 0).

Definition get32 : reader Z :=
  t ← take_bytes 4 "invalid SerialIter get32";
  mret ((nth 0 t 0 ≪ 24) + (nth 1 t 0 ≪ 16) + (nth 2 t 0 ≪ 8) + nth 3 t 0).

Definition get64 : reader Z :=
  t ← take_bytes 8 "invalid SerialIter get64";
  mret ((nth 0 t 0 ≪ 56) + (nth 1 t 0 ≪ 48) + (nth 2 t 0 ≪ 40) + (nth 3 t 0 ≪ 32)
        + (nth 4 t 0 ≪ 24) + (nth 5 t 0 ≪ 16) + (nth 6 t 0 ≪ 8) + nth 7 t 0).

Definition getBitString (nbytes : nat) : reader Z :=
  t ← take_bytes nbytes "invalid SerialIter getBitString"; mret (of_be t).

Definition get160 : reader Z := getBitString 20.
Definition get256 : reader Z := getBitString 32.

(** The messages of the two range errors append the number that was read. *)
Definition getFieldID : reader (Z * Z) :=
  b ← get8;
  let name := Z.land b 15 in
  let type := b ≫ 4 in
  type ← (if type =? 0 then
            t ← get8;
            if (t =? 0) || (t <? 16)
            then throw (runtime_error "gFID: uncommon type out of range")
            else mret t
          else mret type);
  name ← (if name =? 0 then
            n ← get8;
            if (n =? 0) || (n <? 16)
            then throw (runtime_error "gFID: uncommon name out of range")
            else mret n
          else mret name);
  mret (type, name).

(** [getRawHelper]: [remain_] is compared with the [int] size converted to
    unsigned. *)
Definition getRaw (size : Z) : reader (list Z) := λ it,
  if Z.of_nat (remain_ it) <? u64 size
  then Throw (runtime_error "invalid SerialIter getRaw")
  else Ret (take (Z.to_nat size) (drop (p_ it) (buf it)), advance (Z.to_nat size) it).

Definition getSlice (bytes : Z) : reader (list Z) := λ it,
  if Z.of_nat (remain_ it) <? bytes
  then Throw (runtime_error "invalid SerialIter getSlice")
  else Ret (take (Z.to_nat bytes) (drop (p_ it) (buf it)), advance (Z.to_nat bytes) it).

Definition getVLDataLength : reader Z :=
  b1 ← get8;
  lenLen ← lift (decodeLengthLength b1);
  if lenLen =? 1 then lift (decodeVLLength1 b1)
  else if lenLen =? 2 then
    b2 ← get8; lift (decodeVLLength2 b1 b2)
  else
    b2 ← get8; b3 ← get8; lift (decodeVLLength3 b1 b2 b3).

(** [getVL] and [getVLBuffer]. *)
Definition getVL : reader (list Z) := n ← getVLDataLength; getRaw n.

Example vl_ex :
  (s ← addVL (replicate 300 7) []; getVL (iter_of s.2)) =
    Ret (replicate 300 7, mkIter ([193; 107] ++ replicate 300 7) 302 302 0).
Proof. vm_compute. reflexivity. Qed.

(** ** Big-endian bytes *)

Lemma u8_byte z : is_byte (u8 z).
Proof. apply Z.mod_pos_bound. lia. Qed.

Lemma u8_small z : is_byte z → u8 z = z.
Proof. apply Z.mod_small. Qed.

Lemma land_255 z : Z.land z 255 = u8 z.
Proof. change 255 with (Z.ones 8). rewrite Z.land_ones by lia. done. Qed.

Lemma u8_u8 z : u8 (u8 z) = u8 z.
Proof. apply u8_small, u8_byte. Qed.

Lemma length_to_be n z : length (to_be n z) = n.
Proof. induction n; simpl; congruence. Qed.

Lemma to_be_bytes n z : Forall is_byte (to_be n z).
Proof. induction n; simpl; constructor; auto using u8_byte. Qed.

Lemma of_be_snoc l b : of_be (l ++ [b]) = of_be l * 256 + b.
Proof. unfold of_be. by rewrite foldl_app. Qed.

Lemma foldl_be l acc : foldl (λ acc b, acc * 256 + b) acc l = acc * 256 ^ Z.of_nat (length l) + of_be l.
Proof.
  unfold of_be. revert acc. induction l as [|b l IH]; intros acc; cbn [foldl length]; [simpl; lia|].
  rewrite (IH (acc * 256 + b)), (IH (0 * 256 + b)). rewrite Nat2Z.inj_succ, Z.pow_succ_r by lia. lia.
Qed.

Lemma of_be_cons b l : of_be (b :: l) = b * 256 ^ Z.of_nat (length l) + of_be l.
Proof. unfold of_be at 1. simpl. apply foldl_be. Qed.

Lemma of_be_bound l : Forall is_byte l → 0 ≤ of_be l < 256 ^ Z.of_nat (length l).
Proof.
  induction 1 as [|b l Hb _ IH]; [done|]. rewrite of_be_cons. simpl length.
  rewrite Nat2Z.inj_succ, Z.pow_succ_r by lia. unfold is_byte in Hb. nia.
Qed.

Lemma shiftr8 z m : z ≫ (8 * Z.of_nat m) = z `div` 256 ^ Z.of_nat m.
Proof.
  rewrite Z.shiftr_div_pow2 by lia. f_equal.
  rewrite Z.pow_mul_r by lia. done.
Qed.

Lemma of_be_to_be_mod n z : of_be (to_be n z) = z `mod` 256 ^ Z.of_nat n.
Proof.
  induction n as [|n IH]; simpl to_be.
  - by rewrite Z.mod_1_r.
  - rewrite of_be_cons, IH, length_to_be, shiftr8. unfold u8.
    rewrite Nat2Z.inj_succ, Z.pow_succ_r by lia.
    rewrite (Z.mul_comm 256), Z.rem_mul_r by lia. lia.
Qed.

Lemma of_be_to_be n z : 0 ≤ z < 256 ^ Z.of_nat n → of_be (to_be n z) = z.
Proof. intros. rewrite of_be_to_be_mod. by apply Z.mod_small. Qed.


(** ** The iterator invariant *)

(** The buffer holds bytes and has the size of an object, and the pointer, the
    count of used bytes and the count of remaining bytes agree with it. *)
Definition it_ok (it : SerialIter) : Prop :=
  Forall is_byte (buf it) ∧ p_ it = used_ it ∧
  (p_ it + remain_ it = length (buf it))%nat ∧ Z.of_nat (length (buf it)) < 2 ^ 63.

(** [safe r Q]: the reader [r] keeps the invariant and the buffer, only moves
    forward, and what it returns satisfies [Q]. *)
Definition safe {A} (r : reader A) (Q : A → Prop) : Prop :=
  ∀ it a it', it_ok it → r it = Ret (a, it') →
    it_ok it' ∧ buf it' = buf it ∧ (p_ it ≤ p_ it')%nat ∧ Q a.

Lemma it_ok_advance n it : it_ok it → (n ≤ remain_ it)%nat → it_ok (advance n it).
Proof. unfold it_ok, advance. simpl. intuition lia. Qed.

Lemma safe_ret {A} (a : A) (Q : A → Prop) : Q a → safe (mret a) Q.
Proof. intros HQ it b it' Hok [= <- <-]. auto. Qed.

Lemma safe_throw {A} e (Q : A → Prop) : safe (throw e) Q.
Proof. by intros it b it' Hok. Qed.

Lemma safe_lift {A} (m : outcome A) (Q : A → Prop) :
  (∀ a, m = Ret a → Q a) → safe (lift m) Q.
Proof.
  intros HQ it b it' Hok. unfold lift. destruct m; [|done]. intros [= <- <-]. auto.
Qed.

Lemma safe_bind {A B} (r : reader A) (f : A → reader B) P Q :
  safe r P → (∀ a, P a → safe (f a) Q) → safe (r ≫= f) Q.
Proof.
  intros Hr Hf it b it'' Hok. unfold mbind, reader_bind.
  destruct (r it) as [[a it']|] eqn:E; [|done]. intros Hb.
  destruct (Hr _ _ _ Hok E) as (Hok' & Hbuf & Hp & HP).
  destruct (Hf _ HP _ _ _ Hok' Hb) as (? & Hbuf' & ? & ?).
  split_and!; [done|congruence|lia|done].
Qed.

(** A run of [n] bytes. *)
Definition n_bytes (n : nat) (l : list Z) : Prop := length l = n ∧ Forall is_byte l.

Lemma it_ok_take n it :
  it_ok it → (n ≤ remain_ it)%nat → n_bytes n (take n (drop (p_ it) (buf it))).
Proof.
  intros (Hb & _ & Hl & _) Hn. split; [rewrite length_take, length_drop; lia|].
  by apply Forall_take, Forall_drop.
Qed.

Lemma safe_take_bytes n msg : safe (take_bytes n msg) (n_bytes n).
Proof.
  intros it a it' Hok. unfold take_bytes.
  destruct (Nat.ltb_spec (remain_ it) n); [done|]. intros [= <- <-].
  split_and!; [by apply it_ok_advance|done|simpl; lia|by apply it_ok_take].
Qed.

(** The value that the shift-and-add getters compute is [of_be]. *)
Lemma of_be_2 t : length t = 2%nat → (nth 0 t 0 ≪ 8) + nth 1 t 0 = of_be t.
Proof.
  destruct t as [|b0 [|b1 [|]]]; try done. intros _. unfold of_be. simpl nth. simpl foldl.
  rewrite !Z.shiftl_mul_pow2 by lia. lia.
Qed.

Lemma of_be_4 t : length t = 4%nat →
  (nth 0 t 0 ≪ 24) + (nth 1 t 0 ≪ 16) + (nth 2 t 0 ≪ 8) + nth 3 t 0 = of_be t.
Proof.
  destruct t as [|b0 [|b1 [|b2 [|b3 [|]]]]]; try done. intros _.
  unfold of_be. simpl nth. simpl foldl. rewrite !Z.shiftl_mul_pow2 by lia. lia.
Qed.

Lemma of_be_8 t : length t = 8%nat →
  (nth 0 t 0 ≪ 56) + (nth 1 t 0 ≪ 48) + (nth 2 t 0 ≪ 40) + (nth 3 t 0 ≪ 32)
  + (nth 4 t 0 ≪ 24) + (nth 5 t 0 ≪ 16) + (nth 6 t 0 ≪ 8) + nth 7 t 0 = of_be t.
Proof.
  destruct t as [|b0 [|b1 [|b2 [|b3 [|b4 [|b5 [|b6 [|b7 [|]]]]]]]]]; try done. intros _.
  unfold of_be. simpl nth. simpl foldl. rewrite !Z.shiftl_mul_pow2 by lia. lia.
Qed.

Lemma safe_get8 : safe get8 is_byte.
Proof.
  eapply safe_bind; [apply safe_take_bytes|]. intros [|b [|]] [? Hb]; try done.
  inversion_clear Hb. by apply safe_ret.
Qed.

Definition below (n : nat) (v : Z) : Prop := 0 ≤ v < 256 ^ Z.of_nat n.

Lemma safe_get16 : safe get16 (below 2).
Proof.
  eapply safe_bind; [apply safe_take_bytes|]. intros t [Hl Hb]. apply safe_ret.
  rewrite of_be_2 by done. pose proof (of_be_bound t Hb). by rewrite Hl in *.
Qed.

Lemma safe_get32 : safe get32 (below 4).
Proof.
  eapply safe_bind; [apply safe_take_bytes|]. intros t [Hl Hb]. apply safe_ret.
  rewrite of_be_4 by done. pose proof (of_be_bound t Hb). by rewrite Hl in *.
Qed.

Lemma safe_get64 : safe get64 (below 8).
Proof.
  eapply safe_bind; [apply safe_take_bytes|]. intros t [Hl Hb]. apply safe_ret.
  rewrite of_be_8 by done. pose proof (of_be_bound t Hb). by rewrite Hl in *.
Qed.

Lemma safe_getBitString n : safe (getBitString n) (below n).
Proof.
  eapply safe_bind; [apply safe_take_bytes|]. intros t [Hl Hb]. apply safe_ret.
  pose proof (of_be_bound t Hb). by rewrite Hl in *.
Qed.

(** A size check against an [int]: a negative size always fails it. *)
Lemma size_check it size :
  it_ok it → in_i32 size → u64 size ≤ Z.of_nat (remain_ it) →
  0 ≤ size ∧ (Z.to_nat size ≤ remain_ it)%nat.
Proof.
  intros (_ & _ & Hl & Hmax) Hsz Hr. unfold in_i32 in Hsz.
  destruct (Z.le_gt_cases 0 size).
  - rewrite u64_small in Hr by (unfold in_u64; lia). lia.
  - unfold u64 in Hr. replace size with (size + 2 ^ 64 + (-1) * 2 ^ 64) in Hr by lia.
    rewrite Z.mod_add, Z.mod_small in Hr; lia.
Qed.

Lemma safe_getRaw size : in_i32 size →
  safe (getRaw size) (λ l, 0 ≤ size ∧ n_bytes (Z.to_nat size) l).
Proof.
  intros Hsz it a it' Hok. unfold getRaw.
  destruct (Z.ltb_spec (Z.of_nat (remain_ it)) (u64 size)) as [|Hr]; [done|].
  apply size_check in Hr as [? Hn]; [|done..]. intros [= <- <-].
  split_and!; [by apply it_ok_advance|done|simpl; lia|done|apply it_ok_take; done..].
Qed.

Lemma safe_skip len : in_i32 len → safe (skip len) (λ _, 0 ≤ len).
Proof.
  intros Hsz it a it' Hok. unfold skip.
  destruct (Z.ltb_spec (Z.of_nat (remain_ it)) (u64 len)) as [|Hr]; [done|].
  apply size_check in Hr as [? Hn]; [|done..]. intros [= <- <-].
  split_and!; [by apply it_ok_advance|done|simpl; lia|done].
Qed.

Lemma safe_getSlice n : 0 ≤ n → safe (getSlice n) (n_bytes (Z.to_nat n)).
Proof.
  intros Hsz it a it' Hok. unfold getSlice.
  destruct (Z.ltb_spec (Z.of_nat (remain_ it)) n) as [|Hr]; [done|]. intros [= <- <-].
  split_and!; [apply it_ok_advance; [done|lia]|done|simpl; lia|apply it_ok_take; [done|lia]..].
Qed.

Lemma decodeLengthLength_inv b1 n :
  decodeLengthLength b1 = Ret n →
  (0 ≤ b1 ≤ 192 ∧ n = 1) ∨ (193 ≤ b1 ≤ 240 ∧ n = 2) ∨ (241 ≤ b1 ≤ 254 ∧ n = 3).
Proof.
  unfold decodeLengthLength.
  destruct (Z.ltb_spec b1 0); [done|].
  destruct (Z.leb_spec b1 192); [intros [= <-]; lia|].
  destruct (Z.leb_spec b1 240); [intros [= <-]; lia|].
  destruct (Z.leb_spec b1 254); [intros [= <-]; lia|done].
Qed.

Lemma safe_getVLDataLength : safe getVLDataLength (λ n, 0 ≤ n ≤ 929984).
Proof.
  eapply safe_bind; [apply safe_get8|]. intros b1 Hb1.
  eapply (safe_bind _ _ (λ n, decodeLengthLength b1 = Ret n)); [by apply safe_lift|].
  intros n Hn%decodeLengthLength_inv. unfold is_byte in Hb1.
  destruct Hn as [[? ->]|[[? ->]|[? ->]]]; simpl.
  - apply safe_lift. intros a. unfold decodeVLLength1.
    destruct (_ <? _); [done|]. destruct (_ <? _); [done|]. intros [= <-]. lia.
  - eapply safe_bind; [apply safe_get8|]. intros b2 Hb2. unfold is_byte in Hb2.
    apply safe_lift. intros a. unfold decodeVLLength2.
    destruct (_ <? _); [done|]. destruct (_ <? _); [done|]. intros [= <-]. lia.
  - eapply safe_bind; [apply safe_get8|]. intros b2 Hb2.
    eapply safe_bind; [apply safe_get8|]. intros b3 Hb3. unfold is_byte in *.
    apply safe_lift. intros a. unfold decodeVLLength3.
    destruct (_ <? _); [done|]. destruct (_ <? _); [done|]. intros [= <-]. lia.
Qed.

Lemma safe_getVL : safe getVL (λ l, Z.of_nat (length l) ≤ 929984 ∧ Forall is_byte l).
Proof.
  eapply safe_bind; [apply safe_getVLDataLength|]. intros n Hn it a it' Hok Ha. simpl in Hn.
  assert (Hi : in_i32 n) by (unfold in_i32; lia).
  destruct (safe_getRaw n Hi _ _ _ Hok Ha)
    as (? & ? & ? & ? & Hl & ?).
  do 3 (split; [done|]). split; [lia|done].
Qed.

Lemma safe_getFieldID : safe getFieldID (λ '(t, n), 1 ≤ t ≤ 255 ∧ 1 ≤ n ≤ 255).
Proof.
  assert (Hun : ∀ e, safe (t ← get8; if (t =? 0) || (t <? 16) then throw e else mret t)
                      (λ t, 1 ≤ t ≤ 255)).
  { intros e. eapply safe_bind; [apply safe_get8|]. intros t Ht. unfold is_byte in Ht.
    destruct ((t =? 0) || (t <? 16)) eqn:E; [apply safe_throw|apply safe_ret].
    apply orb_false_iff in E as [E%Z.eqb_neq _]. lia. }
  eapply safe_bind; [apply safe_get8|]. intros b Hb. unfold is_byte in Hb.
  assert (Hlo : 0 ≤ Z.land b 15 ≤ 15).
  { change (Z.land b 15) with (Z.land b (Z.ones 4)).
    rewrite Z.land_ones by lia. div_lia. }
  assert (Hhi : 0 ≤ b ≫ 4 ≤ 15) by (rewrite Z.shiftr_div_pow2 by lia; div_lia).
  eapply (safe_bind _ _ (λ t, 1 ≤ t ≤ 255)).
  { destruct (Z.eqb_spec (b ≫ 4) 0); [apply Hun|apply safe_ret; lia]. }
  intros t Ht. eapply (safe_bind _ _ (λ t, 1 ≤ t ≤ 255)).
  { destruct (Z.eqb_spec (Z.land b 15) 0); [apply Hun|apply safe_ret; lia]. }
  intros n Hn. by apply safe_ret.
Qed.

(** every getter of [SerialIter] keeps the iterator consistent with its
    buffer, never moves backwards and never reads past the end: on success the
    values are in the range of their type, lengths are bounded and field ids
    are non-zero bytes. *)
Theorem SerialIter_safe (size : Z) (Hsz : in_i32 size) :
  safe get8 is_byte ∧ safe get16 (below 2) ∧ safe get32 (below 4) ∧
  safe get64 (below 8) ∧ safe get160 (below 20) ∧ safe get256 (below 32) ∧
  safe (skip size) (λ _, 0 ≤ size) ∧
  safe (getRaw size) (λ l, 0 ≤ size ∧ n_bytes (Z.to_nat size) l) ∧
  safe getVLDataLength (λ n, 0 ≤ n ≤ 929984) ∧
  safe getVL (λ l, Z.of_nat (length l) ≤ 929984 ∧ Forall is_byte l) ∧
  safe getFieldID (λ '(t, n), 1 ≤ t ≤ 255 ∧ 1 ≤ n ≤ 255) ∧
  (∀ it, it_ok it → it_ok (reset it) ∧ p_ (reset it) = 0%nat).
Proof.
  split_and!; auto using safe_get8, safe_get16, safe_get32, safe_get64,
    safe_getBitString, safe_skip, safe_getRaw, safe_getVLDataLength, safe_getVL,
    safe_getFieldID.
  - apply safe_getBitString.
  - apply safe_getBitString.
  - intros it (? & ? & ? & ?). unfold it_ok, reset. simpl. split_and!; auto; lia.
Qed.

Lemma SerialIter_safe_witness :
  safe (getRaw 5) (λ l, 0 ≤ 5 ∧ n_bytes 5 l).
Proof. apply (SerialIter_safe 5). unfold in_i32. lia. Defined.

(** ** Round trips *)

(** [decodes r bs v]: wherever the iterator stands in front of [bs], the reader
    [r] consumes exactly [bs] and returns [v]. *)
Definition decodes {A} (r : reader A) (bs : list Z) (v : A) : Prop :=
  ∀ it post, it_ok it → drop (p_ it) (buf it) = bs ++ post →
    r it = Ret (v, advance (length bs) it).

Lemma it_front it bs post :
  it_ok it → drop (p_ it) (buf it) = bs ++ post → (length bs ≤ remain_ it)%nat.
Proof.
  intros (_ & _ & Hl & _) Hd. apply (f_equal length) in Hd.
  rewrite length_drop, length_app in Hd. lia.
Qed.

Lemma decodes_ret {A} (a : A) : decodes (mret a) [] a.
Proof.
  intros [b p u r] post Hok Hd. unfold mret, reader_ret, advance. simpl.
  by rewrite !Nat.add_0_r, Nat.sub_0_r.
Qed.

Lemma decodes_lift {A} (m : outcome A) a : m = Ret a → decodes (lift m) [] a.
Proof. intros ->. apply (decodes_ret a). Qed.

Lemma decodes_bind {A B} (r : reader A) (f : A → reader B) bs1 bs2 a b :
  decodes r bs1 a → decodes (f a) bs2 b → decodes (r ≫= f) (bs1 ++ bs2) b.
Proof.
  intros Hr Hf it post Hok Hd. rewrite <- app_assoc in Hd.
  unfold mbind, reader_bind. rewrite (Hr _ _ Hok Hd).
  pose proof (it_front _ _ _ Hok Hd).
  rewrite (Hf _ post).
  - unfold advance. simpl. rewrite length_app. do 2 f_equal; f_equal; lia.
  - by apply it_ok_advance.
  - simpl. rewrite <- drop_drop, Hd. by rewrite drop_app_length.
Qed.

(** The same where the second reader consumes everything that is left. *)
Lemma decodes_bind' {A B} (r : reader A) (f : A → reader B) bs a b :
  decodes r bs a → decodes (f a) [] b → decodes (r ≫= f) bs b.
Proof. intros. rewrite <- (app_nil_r bs). by eapply decodes_bind. Qed.

Lemma decodes_take_bytes msg bs : decodes (take_bytes (length bs) msg) bs bs.
Proof.
  intros it post Hok Hd. unfold take_bytes.
  pose proof (it_front _ _ _ Hok Hd).
  destruct (Nat.ltb_spec (remain_ it) (length bs)); [lia|].
  by rewrite Hd, take_app_length.
Qed.

Lemma decodes_getRaw bs :
  Z.of_nat (length bs) < 2 ^ 31 → decodes (getRaw (Z.of_nat (length bs))) bs bs.
Proof.
  intros Hlen it post Hok Hd. unfold getRaw.
  pose proof (it_front _ _ _ Hok Hd).
  rewrite u64_small by (unfold in_u64; lia).
  destruct (Z.ltb_spec (Z.of_nat (remain_ it)) (Z.of_nat (length bs))); [lia|].
  by rewrite Nat2Z.id, Hd, take_app_length.
Qed.

Lemma decodes_get8 b : decodes get8 [b] b.
Proof. eapply decodes_bind'; [apply (decodes_take_bytes _ [b])|apply decodes_ret]. Qed.

Lemma to_be_2 v : to_be 2 v = [u8 (v ≫ 8); u8 v].
Proof. simpl. by rewrite Z.shiftr_0_r. Qed.

Lemma to_be_4 v : to_be 4 v = [u8 (v ≫ 24); u8 (v ≫ 16); u8 (v ≫ 8); u8 v].
Proof. simpl. by rewrite Z.shiftr_0_r. Qed.

Lemma to_be_8 v : to_be 8 v =
  [u8 (v ≫ 56); u8 (v ≫ 48); u8 (v ≫ 40); u8 (v ≫ 32);
   u8 (v ≫ 24); u8 (v ≫ 16); u8 (v ≫ 8); u8 v].
Proof. simpl. by rewrite Z.shiftr_0_r. Qed.

Lemma add16_push v s : add16 v s = push (to_be 2 v) s.
Proof. unfold add16. by rewrite to_be_2, land_255, u8_u8. Qed.

Lemma add32_push v s : add32 v s = push (to_be 4 v) s.
Proof. unfold add32. by rewrite to_be_4, !land_255, !u8_u8. Qed.

Lemma add64_push v s : add64 v s = push (to_be 8 v) s.
Proof. unfold add64. by rewrite to_be_8, !land_255, !u8_u8. Qed.

Lemma decodes_get16 v : below 2 v → decodes get16 (to_be 2 v) v.
Proof.
  intros Hv. eapply decodes_bind'; [apply (decodes_take_bytes _ (to_be 2 v))|].
  cbv beta. rewrite of_be_2, of_be_to_be by done. apply decodes_ret.
Qed.

Lemma decodes_get32 v : below 4 v → decodes get32 (to_be 4 v) v.
Proof.
  intros Hv. eapply decodes_bind'; [apply (decodes_take_bytes _ (to_be 4 v))|].
  cbv beta. rewrite of_be_4, of_be_to_be by done. apply decodes_ret.
Qed.

Lemma decodes_get64 v : below 8 v → decodes get64 (to_be 8 v) v.
Proof.
  intros Hv. eapply decodes_bind'; [apply (decodes_take_bytes _ (to_be 8 v))|].
  cbv beta. rewrite of_be_8, of_be_to_be by done. apply decodes_ret.
Qed.

Lemma decodes_getBitString n v : below n v → decodes (getBitString n) (to_be n v) v.
Proof.
  intros Hv. unfold getBitString. rewrite <- (length_to_be n v) at 1.
  eapply decodes_bind'; [apply decodes_take_bytes|].
  rewrite of_be_to_be by done. apply decodes_ret.
Qed.

(** The converse: what a getter returned is what the buffer held. *)
Lemma to_be_of_be l : Forall is_byte l → to_be (length l) (of_be l) = l.
Proof.
  assert (Hlow : ∀ n h z, to_be n (h * 256 ^ Z.of_nat n + z) = to_be n z).
  { intros n. induction n as [|n IH]; intros h z; [done|]. cbn [to_be].
    rewrite Nat2Z.inj_succ, Z.pow_succ_r by lia. f_equal.
    - rewrite !shiftr8. unfold u8.
      replace (h * (256 * 256 ^ Z.of_nat n) + z) with (z + h * 256 * 256 ^ Z.of_nat n) by lia.
      rewrite Z.div_add by (apply Z.pow_nonzero; lia). by rewrite Z.mod_add.
    - rewrite <- (IH (h * 256) z). f_equal. lia. }
  induction 1 as [|b l Hb Hl IH]; [done|]. rewrite of_be_cons. cbn [length to_be].
  rewrite Hlow, IH. f_equal. pose proof (of_be_bound l Hl).
  rewrite shiftr8, Z.add_comm, Z.div_add by (apply Z.pow_nonzero; lia).
  rewrite Z.div_small by done. by apply u8_small.
Qed.

Definition front (n : nat) (it : SerialIter) : list Z := take n (drop (p_ it) (buf it)).

Lemma front_app m n it : front m it ++ front n (advance m it) = front (m + n) it.
Proof.
  unfold front. simpl. by rewrite <- drop_drop, take_take_drop.
Qed.

Lemma getBitString_inv n it v it' :
  it_ok it → getBitString n it = Ret (v, it') →
  it' = advance n it ∧ it_ok it' ∧ below n v ∧ front n it = to_be n v.
Proof.
  intros Hok Hg. destruct (safe_getBitString n _ _ _ Hok Hg) as (Hok' & _ & _ & Hv).
  unfold getBitString, mbind, reader_bind, take_bytes in Hg.
  destruct (Nat.ltb_spec (remain_ it) n) as [|Hn]; [done|].
  injection Hg as <- <-. destruct (it_ok_take n it Hok Hn) as [Hl Hb].
  split; [done|]. split; [done|]. split; [done|].
  symmetry. rewrite <- Hl at 1. by apply to_be_of_be.
Qed.

Lemma get64_inv it v it' :
  it_ok it → get64 it = Ret (v, it') →
  it' = advance 8 it ∧ it_ok it' ∧ below 8 v ∧ front 8 it = to_be 8 v.
Proof.
  intros Hok Hg. apply getBitString_inv; [done|].
  unfold get64, getBitString, mbind, reader_bind, take_bytes in *.
  destruct (Nat.ltb_spec (remain_ it) 8) as [|Hn]; [done|]. rewrite <- Hg.
  unfold mret, reader_ret. do 2 f_equal. symmetry. apply of_be_8. by apply it_ok_take.
Qed.

(** what an [add] of [Serializer] appends is exactly what the matching
    getter of [SerialIter] consumes, and it returns the same value; for the
    integers of every width and the 128, 160 and 256 bit strings. *)
Theorem integer_roundtrip (v : Z) (s : Serializer) :
  (is_byte v → add8 v s = push [v] s ∧ decodes get8 [v] v) ∧
  (below 2 v → add16 v s = push (to_be 2 v) s ∧ decodes get16 (to_be 2 v) v) ∧
  (below 4 v → add32 v s = push (to_be 4 v) s ∧ decodes get32 (to_be 4 v) v) ∧
  (below 8 v → add64 v s = push (to_be 8 v) s ∧ decodes get64 (to_be 8 v) v) ∧
  (below 16 v → add128 v s = push (to_be 16 v) s ∧
    decodes (getBitString 16) (to_be 16 v) v) ∧
  (below 20 v → add160 v s = push (to_be 20 v) s ∧ decodes get160 (to_be 20 v) v) ∧
  (below 32 v → add256 v s = push (to_be 32 v) s ∧ decodes get256 (to_be 32 v) v).
Proof.
  rewrite add16_push, add32_push, add64_push.
  split_and!; intros Hv; (split; [done|]).
  - apply decodes_get8.
  - by apply decodes_get16.
  - by apply decodes_get32.
  - by apply decodes_get64.
  - by apply decodes_getBitString.
  - by apply decodes_getBitString.
  - by apply decodes_getBitString.
Qed.

(** The bytes of a length prefix. *)
Definition vl_prefix (n : Z) : list Z :=
  if n <=? 192 then [n]
  else if n <=? 12480 then [193 + (n - 193) `div` 256; (n - 193) `mod` 256]
  else [241 + (n - 12481) `div` 65536; ((n - 12481) `div` 256) `mod` 256;
        (n - 12481) `mod` 256].

Lemma addEncoded_push n s :
  0 ≤ n ≤ 918744 → addEncoded n s = Ret (push (vl_prefix n) s).
Proof.
  intros Hn. unfold addEncoded, vl_prefix.
  rewrite !land_255, !Z.shiftr_div_pow2, !u8_u8 by lia.
  change (2 ^ 8) with 256. change (2 ^ 16) with 65536.
  destruct (Z.leb_spec n 192); [by rewrite u8_small by (unfold is_byte; lia)|].
  destruct (Z.leb_spec n 12480).
  - rewrite (u8_small (_ `div` _)) by (unfold is_byte; div_lia).
    by rewrite (u8_small (_ + _)) by (unfold is_byte; div_lia).
  - destruct (Z.leb_spec n 918744); [|lia].
    rewrite (u8_small (_ `div` 65536)) by (unfold is_byte; div_lia).
    by rewrite (u8_small (_ + _)) by (unfold is_byte; div_lia).
Qed.

Lemma decodes_getVLDataLength n :
  0 ≤ n ≤ 918744 → decodes getVLDataLength (vl_prefix n) n.
Proof.
  intros Hn. unfold vl_prefix.
  destruct (Z.leb_spec n 192); [|destruct (Z.leb_spec n 12480)].
  - eapply (decodes_bind _ _ [n] []); [apply decodes_get8|].
    eapply (decodes_bind' _ _ []).
    { apply (decodes_lift _ 1). unfold decodeLengthLength.
      destruct (Z.ltb_spec n 0); [lia|]. by destruct (Z.leb_spec n 192); [|lia]. }
    simpl. apply decodes_lift. unfold decodeVLLength1.
    destruct (Z.ltb_spec n 0); [lia|]. by destruct (Z.ltb_spec 254 n); [lia|].
  - set (b1 := 193 + _). set (b2 := _ `mod` _).
    assert (Hb : 193 ≤ b1 ≤ 240 ∧ 193 + (b1 - 193) * 256 + b2 = n)
      by (unfold b1, b2; split; div_lia).
    eapply (decodes_bind _ _ [b1] [b2]); [apply decodes_get8|].
    eapply (decodes_bind _ _ [] [b2]).
    { apply (decodes_lift _ 2). unfold decodeLengthLength.
      destruct (Z.ltb_spec b1 0); [lia|]. destruct (Z.leb_spec b1 192); [lia|].
      by destruct (Z.leb_spec b1 240); [|lia]. }
    simpl. eapply decodes_bind'; [apply decodes_get8|].
    apply decodes_lift. unfold decodeVLLength2.
    destruct (Z.ltb_spec b1 193); [lia|]. destruct (Z.ltb_spec 240 b1); [lia|].
    f_equal; lia.
  - set (b1 := 241 + _). set (b2 := (_ `div` 256) `mod` 256). set (b3 := _ `mod` 256).
    assert (Hb : 241 ≤ b1 ≤ 254 ∧ 12481 + (b1 - 241) * 65536 + b2 * 256 + b3 = n)
      by (unfold b1, b2, b3; split; div_lia).
    eapply (decodes_bind _ _ [b1] [b2; b3]); [apply decodes_get8|].
    eapply (decodes_bind _ _ [] [b2; b3]).
    { apply (decodes_lift _ 3). unfold decodeLengthLength.
      destruct (Z.ltb_spec b1 0); [lia|]. destruct (Z.leb_spec b1 192); [lia|].
      destruct (Z.leb_spec b1 240); [lia|]. by destruct (Z.leb_spec b1 254); [|lia]. }
    simpl. eapply (decodes_bind _ _ [b2] [b3]); [apply decodes_get8|].
    eapply decodes_bind'; [apply decodes_get8|].
    apply decodes_lift. unfold decodeVLLength3.
    destruct (Z.ltb_spec b1 241); [lia|]. destruct (Z.ltb_spec 254 b1); [lia|].
    f_equal; lia.
Qed.

Lemma addVL_push data s :
  Z.of_nat (length data) ≤ 918744 →
  addVL data s =
    Ret (push (vl_prefix (Z.of_nat (length data)) ++ data) s).
Proof.
  intros Hl. unfold addVL. rewrite addEncoded_push by lia. simpl.
  unfold push. by rewrite <- app_assoc.
Qed.

(** variable length fields round trip: for data of any length the encoding
    supports, [addVL] succeeds and [getVL] reads back the same bytes and
    nothing more; longer data throws [overflow_error] and writes nothing. *)
Theorem VL_roundtrip (data : list Z) (s : Serializer) :
  let n := Z.of_nat (length data) in
  (n ≤ 918744 → ∃ bs, addVL data s = Ret (push bs s) ∧ decodes getVL bs data ∧
     encodeLengthLength n = Ret (Z.of_nat (length bs) - n)) ∧
  (918744 < n → addVL data s = Throw (overflow_error "lenlen") ∧
     encodeLengthLength n = Throw (overflow_error "len>918744")).
Proof.
  cbv zeta. set (n := Z.of_nat (length data)). split; intros Hn.
  - exists (vl_prefix n ++ data). split_and!.
    + by apply addVL_push.
    + eapply decodes_bind; [apply decodes_getVLDataLength; lia|].
      apply decodes_getRaw. lia.
    + rewrite length_app. unfold encodeLengthLength, vl_prefix.
      destruct (Z.ltb_spec n 0); [lia|].
      destruct (Z.leb_spec n 192); [simpl; f_equal; lia|].
      destruct (Z.leb_spec n 12480); [simpl; f_equal; lia|].
      destruct (Z.leb_spec n 918744); [simpl; f_equal; lia|lia].
  - unfold addVL, addEncoded, encodeLengthLength. fold n.
    destruct (Z.leb_spec n 192); [lia|]. destruct (Z.leb_spec n 12480); [lia|].
    destruct (Z.leb_spec n 918744); [lia|]. by destruct (Z.ltb_spec n 0); [lia|].
Qed.

(** The bytes of a field id. *)
Definition field_bytes (type name : Z) : list Z :=
  if type <? 16 then
    if name <? 16 then [16 * type + name] else [16 * type; name]
  else if name <? 16 then [name; type] else [0; type; name].

Lemma addFieldID_push type name s :
  0 < type < 256 → 0 < name < 256 →
  addFieldID type name s = push (field_bytes type name) s.
Proof.
  intros Ht Hn. unfold addFieldID, field_bytes.
  rewrite Z.shiftl_mul_pow2, (u8_small type), (u8_small name) by (done || unfold is_byte; lia).
  destruct (Z.ltb_spec type 16), (Z.ltb_spec name 16); try done.
  - rewrite lor_fields by lia. rewrite u8_small by (unfold is_byte; lia). do 2 f_equal; lia.
  - rewrite u8_small by (unfold is_byte; lia). do 2 f_equal; lia.
Qed.

Lemma decodes_getFieldID type name :
  0 < type < 256 → 0 < name < 256 →
  decodes getFieldID (field_bytes type name) (type, name).
Proof.
  intros Ht Hn. unfold field_bytes.
  assert (Hhead : ∀ hi lo bs, 0 ≤ hi < 16 → 0 ≤ lo < 16 →
    (∃ bs1 bs2, bs = bs1 ++ bs2 ∧
      (if decide (hi = 0) then bs1 = [type] ∧ 16 ≤ type else bs1 = [] ∧ hi = type) ∧
      (if decide (lo = 0) then bs2 = [name] ∧ 16 ≤ name else bs2 = [] ∧ lo = name)) →
    decodes getFieldID ((16 * hi + lo) :: bs) (type, name)).
  { intros hi lo bs Hhi Hlo (bs1 & bs2 & -> & H1 & H2).
    eapply (decodes_bind _ _ [16 * hi + lo]); [apply decodes_get8|]. cbv zeta.
    pose proof (shiftr_fields hi lo 4 ltac:(lia) ltac:(lia)) as Hsh.
    pose proof (land_fields hi lo 4 ltac:(lia) ltac:(lia)) as Hla.
    change (2 ^ 4) with 16 in *. change (Z.ones 4) with 15 in *.
    rewrite (Z.mul_comm 16), Hsh, Hla.
    rewrite <- (app_nil_r bs2), (app_assoc bs1).
    rewrite <- app_assoc. eapply decodes_bind; [|eapply decodes_bind'].
    - destruct (decide (hi = 0)) as [->|]; destruct H1 as [-> H1]; simpl.
      + eapply decodes_bind'; [apply decodes_get8|]. cbv beta.
        destruct (Z.eqb_spec type 0); [lia|]. destruct (Z.ltb_spec type 16); [lia|].
        apply decodes_ret.
      + subst. destruct (Z.eqb_spec type 0); [lia|]. apply decodes_ret.
    - destruct (decide (lo = 0)) as [->|]; destruct H2 as [-> H2]; simpl.
      + eapply decodes_bind'; [apply decodes_get8|]. cbv beta.
        destruct (Z.eqb_spec name 0); [lia|]. destruct (Z.ltb_spec name 16); [lia|].
        apply decodes_ret.
      + subst. destruct (Z.eqb_spec name 0); [lia|]. apply decodes_ret.
    - apply decodes_ret. }
  destruct (Z.ltb_spec type 16), (Z.ltb_spec name 16).
  - apply Hhead; [lia..|]. exists [], [].
    repeat destruct (decide _); try lia; auto.
  - replace (16 * type) with (16 * type + 0) by lia. apply Hhead; [lia..|].
    exists [], [name]. repeat destruct (decide _); try lia; auto with lia.
  - replace name with (16 * 0 + name) at 1 by lia. apply Hhead; [lia..|].
    exists [type], []. repeat destruct (decide _); try lia; auto with lia.
  - replace 0 with (16 * 0 + 0) at 1 by lia. apply Hhead; [lia..|].
    exists [type], [name]. repeat destruct (decide _); try lia; auto with lia.
Qed.

(** field identifiers round trip: for every type and name code in [1, 255],
    what [addFieldID] writes (one, two or three bytes) is read back by
    [getFieldID]. *)
Theorem FieldID_roundtrip (type name : Z) (s : Serializer)
    (Ht : 0 < type < 256) (Hn : 0 < name < 256) :
  ∃ bs, addFieldID type name s = push bs s ∧ decodes getFieldID bs (type, name) ∧
    Z.of_nat (length bs) =
      1 + (if type <? 16 then 0 else 1) + (if name <? 16 then 0 else 1).
Proof.
  exists (field_bytes type name). split_and!.
  - by apply addFieldID_push.
  - by apply decodes_getFieldID.
  - unfold field_bytes. by destruct (type <? 16), (name <? 16).
Qed.

Lemma FieldID_roundtrip_witness :
  ∃ bs, addFieldID 16 2 [7] = push bs [7] ∧ decodes getFieldID bs (16, 2) ∧
    Z.of_nat (length bs) = 2.
Proof. apply (FieldID_roundtrip 16 2 [7]); lia. Defined.

(** a prefix byte of 255 makes [getVL] and [getVLLength] throw instead of
    returning false: [decodeLengthLength] is called before their [try] block.
    Every other malformed or short input gives false. *)
Theorem getVL_escapes (offset : Z) (s : Serializer) (Hs : Forall is_byte s) :
  (ser_get8 offset s = Some 255 ↔ threw (ser_getVL offset s) = true) ∧
  threw (ser_getVLLength offset s) = threw (ser_getVL offset s).
Proof.
  assert (Hb : ∀ o b, ser_get8 o s = Some b → is_byte b).
  { intros o b. unfold ser_get8. destruct (_ <=? _); [done|]. intros Hl.
    by apply (Forall_lookup_1 _ _ _ _ Hs Hl). }
  unfold ser_getVL, ser_getVLLength, ser_vlPrefix.
  destruct (ser_get8 offset s) as [b1|] eqn:E1; [|done].
  specialize (Hb _ _ E1). unfold is_byte in Hb. clear E1.
  assert (Hno : b1 ≠ 255 → Some b1 = Some 255 ↔ false = true).
  { intros Hne. split; [by intros [=]|done]. }
  unfold decodeLengthLength.
  destruct (Z.ltb_spec b1 0); [lia|].
  destruct (Z.leb_spec b1 192).
  { simpl. destruct (decodeVLLength1 b1); simpl; (split; [|done]); apply Hno; lia. }
  destruct (Z.leb_spec b1 240).
  { simpl. destruct (ser_get8 (offset + 1) s) as [b2|]; simpl;
      [destruct (decodeVLLength2 b1 b2)|]; simpl; (split; [|done]); apply Hno; lia. }
  destruct (Z.leb_spec b1 254).
  { simpl. destruct (ser_get8 (offset + 1) s) as [b2|]; simpl;
      [destruct (ser_get8 (offset + 2) s) as [b3|]; simpl;
        [destruct (decodeVLLength3 b1 b2 b3)|]|]; simpl; (split; [|done]); apply Hno; lia. }
  simpl. split; [|done]. split; [done|]. intros _. f_equal. lia.
Qed.

Lemma getVL_escapes_witness : threw (ser_getVL 0 [255]) = true.
Proof.
  destruct (getVL_escapes 0 [255]) as [H _]; [repeat constructor; lia|].
  apply H. reflexivity.
Defined.
