(* ===== verification/STAmount.v ===== *)
(** * STAmount: the amount type of the protocol

    Model of [src/src/ripple/protocol/STAmount.h] and
    [src/src/ripple/protocol/impl/STAmount.cpp]: native (XRP) and issued
    amounts in one type, their canonical form, arithmetic with and without
    rounding, the order book rate, and the wire format.  The field name that an
    [STAmount] inherits from [STBase] does not influence any of it and is left
    out. *)

From S2P Require Import Prelude IOUAmount XRPAmount Serializer.
From stdpp Require Import base numbers list strings.
From Stdlib Require Import Lia ZArith.

Local Open Scope Z_scope.

(** ** Data *)

(** [Currency] and [AccountID] are 160-bit unsigned integers. *)
Record Issue : Type := mkIssue { currency : Z; account : Z }.

#[export] Instance Issue_eq_dec : EqDecision Issue.
Proof. solve_decision. Defined.

Definition isXRP (c : Z) : bool := c =? 0.
Definition xrpIssue : Issue := mkIssue 0 0.
Definition noIssue : Issue := mkIssue 1 1.

Record STAmount : Type := mkAmount {
  mIssue : Issue;
  mValue : Z;          (* uint64_t *)
  mOffset : Z;         (* int *)
  mIsNative : bool;
  mIsNegative : bool }.

#[export] Instance STAmount_eq_dec : EqDecision STAmount.
Proof. solve_decision. Defined.

Definition cMinOffset : Z := -96.
Definition cMaxOffset : Z := 80.
Definition cMinValue : Z := 1000000000000000.
Definition cMaxValue : Z := 9999999999999999.
Definition cMaxNativeN : Z := 100000000000000000.
Definition cNotNative : Z := 0x8000000000000000.
Definition cPosNative : Z := 0x4000000000000000.
Definition tenTo14 : Z := 100000000000000.
Definition tenTo14m1 : Z := tenTo14 - 1.
Definition tenTo17 : Z := tenTo14 * 1000.

Definition st_signum (a : STAmount) : Z :=
  if mValue a =? 0 then 0 else if mIsNegative a then -1 else 1.

(** Comparisons with [beast::zero] are comparisons of [signum] with zero. *)
Definition is_zero (a : STAmount) : bool := st_signum a =? 0.

Definition areComparable (v1 v2 : STAmount) : bool :=
  Bool.eqb (mIsNative v1) (mIsNative v2) &&
  (currency (mIssue v1) =? currency (mIssue v2)).

(** ** Canonical form *)

(** The two loops of the native branch: both end with offset zero; the second
    one multiplies in 64 bits. *)
Definition native_down (s : Z * Z) : Z * Z :=
  loop (λ s, s.2 <? 0) (λ s, (s.1 `quot` 10, s.2 + 1)) (Z.to_nat (- s.2)) s.
Definition native_up (s : Z * Z) : Z * Z :=
  loop (λ s, 0 <? s.2) (λ s, (u64 (s.1 * 10), s.2 - 1)) (Z.to_nat s.2) s.

Definition canon_up (s : Z * Z) : Z * Z :=
  loop (λ s, (s.1 <? cMinValue) && (cMinOffset <? s.2))
       (λ s, (u64 (s.1 * 10), s.2 - 1)) 16 s.
Definition canon_down (s : Z * Z) : outcome (Z * Z) :=
  loopM (λ s, cMaxValue <? s.1)
        (λ s, if cMaxOffset <=? s.2 then Throw (runtime_error "value overflow")
              else Ret (s.1 `quot` 10, s.2 + 1)) 20 s.

Definition canonicalize (a : STAmount) : outcome STAmount :=
  if isXRP (currency (mIssue a)) then
    if mValue a =? 0 then Ret (mkAmount (mIssue a) (mValue a) 0 true false) else
    let '(v, o) := native_up (native_down (mValue a, mOffset a)) in
    if cMaxNativeN <? v
    then Throw (runtime_error "Native currency amount out of range")
    else Ret (mkAmount (mIssue a) v o true (mIsNegative a))
  else
    if mValue a =? 0 then Ret (mkAmount (mIssue a) (mValue a) (-100) false false) else
    '(v, o) ← canon_down (canon_up (mValue a, mOffset a));
    if (o <? cMinOffset) || (v <? cMinValue)
    then Ret (mkAmount (mIssue a) 0 (-100) false false)
    else if cMaxOffset <? o then Throw (runtime_error "value overflow")
    else Ret (mkAmount (mIssue a) v o false (mIsNegative a)).

(** ** Constructors *)

(** [STAmount (issue, mantissa, exponent, negative)], canonicalised;
    [mIsNative] is set by [canonicalize]. *)
Definition st_make (issue : Issue) (mantissa exponent : Z) (negative : bool) :
    outcome STAmount :=
  canonicalize (mkAmount issue mantissa exponent false negative).

(** [STAmount (issue)]. *)
Definition st_zero (issue : Issue) : outcome STAmount := st_make issue 0 0 false.

(** [set (int64_t)]: the sign and the magnitude. *)
Definition set (v : Z) (a : STAmount) : STAmount :=
  if v <? 0 then mkAmount (mIssue a) (u64 (- v)) (mOffset a) (mIsNative a) true
  else mkAmount (mIssue a) (u64 v) (mOffset a) (mIsNative a) false.

(** [STAmount (name, int64_t)]: native, not canonicalised. *)
Definition st_of_int64 (mantissa : Z) : STAmount :=
  set mantissa (mkAmount xrpIssue 0 0 true false).

(** [STAmount (name, uint64_t)]: native, not canonicalised. *)
Definition st_of_uint64 (mantissa : Z) (negative : bool) : STAmount :=
  mkAmount xrpIssue mantissa 0 true negative.

(** [STAmount (uint64_t, bool)]: native, zero is never negative. *)
Definition st_native (mantissa : Z) (negative : bool) : STAmount :=
  mkAmount xrpIssue mantissa 0 true (negb (mantissa =? 0) && negative).

(** [STAmount (issue, int64_t, exponent)]. *)
Definition st_make_signed (issue : Issue) (mantissa exponent : Z) : outcome STAmount :=
  canonicalize (set mantissa (mkAmount issue 0 exponent false false)).

Definition st_of_iou (amount : IOUAmount) (issue : Issue) : outcome STAmount :=
  let neg := iou_signum amount <? 0 in
  canonicalize (mkAmount issue
    (u64 (if neg then - mantissa_ amount else mantissa_ amount))
    (exponent_ amount) false neg).

Definition st_of_xrp (amount : XRPAmount) : outcome STAmount :=
  let neg := xrp_signum amount <? 0 in
  canonicalize (mkAmount xrpIssue
    (u64 (if neg then - drops_ amount else drops_ amount)) 0 true neg).

(** ** Conversions *)

Definition xrp (a : STAmount) : outcome XRPAmount :=
  if mIsNative a then
    let drops := i64 (mValue a) in
    Ret (mkXRP (if mIsNegative a then i64 (- drops) else drops))
  else Throw (logic_error "Cannot return non-native STAmount as XRPAmount").

Definition iou (a : STAmount) : outcome IOUAmount :=
  if mIsNative a then Throw (logic_error "Cannot return native STAmount as IOUAmount")
  else
    let mantissa := i64 (mValue a) in
    iou_make (if mIsNegative a then i64 (- mantissa) else mantissa) (mOffset a).

Definition getSNValue (a : STAmount) : outcome Z :=
  if mIsNative a then
    let ret := i64 (mValue a) in
    Ret (if mIsNegative a then i64 (- ret) else ret)
  else Throw (runtime_error "amount is not native!").

Definition setIssue (issue : Issue) (a : STAmount) : STAmount :=
  mkAmount issue (mValue a) (mOffset a) (isXRP (currency issue)) (mIsNegative a).

Definition clear (a : STAmount) : STAmount :=
  mkAmount (mIssue a) 0 (if mIsNative a then 0 else -100) (mIsNative a) false.

Definition negate (a : STAmount) : STAmount :=
  if is_zero a then a
  else mkAmount (mIssue a) (mValue a) (mOffset a) (mIsNative a) (negb (mIsNegative a)).

(** ** Operators *)

Definition st_eq (lhs rhs : STAmount) : bool :=
  areComparable lhs rhs && Bool.eqb (mIsNegative lhs) (mIsNegative rhs) &&
  (mOffset lhs =? mOffset rhs) && (mValue lhs =? mValue rhs).

Definition st_lt (lhs rhs : STAmount) : outcome bool :=
  if negb (areComparable lhs rhs)
  then Throw (runtime_error "Can't compare amounts that are't comparable!") else
  if negb (Bool.eqb (mIsNegative lhs) (mIsNegative rhs)) then Ret (mIsNegative lhs) else
  if mValue lhs =? 0 then
    if mIsNegative rhs then Ret false else Ret (negb (mValue rhs =? 0)) else
  if mValue rhs =? 0 then Ret false else
  if mOffset rhs <? mOffset lhs then Ret (mIsNegative lhs) else
  if mOffset lhs <? mOffset rhs then Ret (negb (mIsNegative lhs)) else
  if mValue rhs <? mValue lhs then Ret (mIsNegative lhs) else
  if mValue lhs <? mValue rhs then Ret (negb (mIsNegative lhs)) else Ret false.

(** Unary minus: unchecked construction with the sign flipped. *)
Definition st_neg (value : STAmount) : STAmount :=
  if mValue value =? 0 then value
  else mkAmount (mIssue value) (mValue value) (mOffset value) (mIsNative value)
         (negb (mIsNegative value)).

Definition st_add (v1 v2 : STAmount) : outcome STAmount :=
  if negb (areComparable v1 v2)
  then Throw (runtime_error "Can't add amounts that are't comparable!") else
  if is_zero v2 then Ret v1 else
  if is_zero v1 then st_make (mIssue v1) (mValue v2) (mOffset v2) (mIsNegative v2) else
  if mIsNative v1 then
    a ← getSNValue v1; b ← getSNValue v2; Ret (st_of_int64 (i64 (a + b)))
  else
    let vv1 := i64 (mValue v1) in
    let vv2 := i64 (mValue v2) in
    let vv1 := if mIsNegative v1 then i64 (- vv1) else vv1 in
    let vv2 := if mIsNegative v2 then i64 (- vv2) else vv2 in
    let '(vv1, ov1) := align (mOffset v2) (vv1, mOffset v1) in
    let '(vv2, _) := align ov1 (vv2, mOffset v2) in
    let fv := i64 (vv1 + vv2) in
    if (-10 <=? fv) && (fv <=? 10) then st_zero (mIssue v1)
    else if 0 <=? fv then st_make (mIssue v1) (u64 fv) ov1 false
    else st_make (mIssue v1) (u64 (- fv)) ov1 true.

Definition st_sub (v1 v2 : STAmount) : outcome STAmount := st_add v1 (st_neg v2).

(** ** Multiplication and division *)

(** [(a * b) / c] in 128 bits. *)
Definition muldiv (multiplier multiplicand divisor : Z) : outcome Z :=
  let ret := (multiplier * multiplicand) `div` divisor in
  if 2 ^ 64 - 1 <? ret then Throw (overflow_error "overflow: (a * b) / c") else Ret ret.

Definition muldiv_round (multiplier multiplicand divisor rounding : Z) : outcome Z :=
  let ret := (multiplier * multiplicand + rounding) `div` divisor in
  if 2 ^ 64 - 1 <? ret then Throw (overflow_error "overflow: ((a * b) + r) / c")
  else Ret ret.

(** The loops that bring a native operand into the mantissa range. *)
Definition upscale (native : bool) (s : Z * Z) : Z * Z :=
  if native then
    loop (λ s, s.1 <? cMinValue) (λ s, (u64 (s.1 * 10), s.2 - 1)) 16 s
  else s.

Definition divide (num den : STAmount) (issue : Issue) : outcome STAmount :=
  if is_zero den then Throw (runtime_error "division by zero") else
  if is_zero num then st_zero issue else
  let '(numVal, numOffset) := upscale (mIsNative num) (mValue num, mOffset num) in
  let '(denVal, denOffset) := upscale (mIsNative den) (mValue den, mOffset den) in
  q ← muldiv numVal tenTo17 denVal;
  st_make issue (u64 (q + 5)) (numOffset - denOffset - 17)
    (negb (Bool.eqb (mIsNegative num) (mIsNegative den))).

(** The case of two native operands with a native result, shared by [multiply]
    and [mulRound]: the operands are compared as signed and used as unsigned. *)
Definition multiply_native (v1 v2 : STAmount) : outcome STAmount :=
  a ← getSNValue v1; b ← getSNValue v2;
  let minV := u64 (if a <? b then a else b) in
  let maxV := u64 (if a <? b then b else a) in
  if 3000000000 <? minV then Throw (runtime_error "Native value overflow") else
  if 2095475792 <? u64 ((maxV ≫ 32) * minV)
  then Throw (runtime_error "Native value overflow")
  else Ret (st_of_uint64 (u64 (minV * maxV)) false).

Definition multiply (v1 v2 : STAmount) (issue : Issue) : outcome STAmount :=
  if is_zero v1 || is_zero v2 then st_zero issue else
  if mIsNative v1 && mIsNative v2 && isXRP (currency issue)
  then multiply_native v1 v2 else
  let '(value1, offset1) := upscale (mIsNative v1) (mValue v1, mOffset v1) in
  let '(value2, offset2) := upscale (mIsNative v2) (mValue v2, mOffset v2) in
  q ← muldiv value1 value2 tenTo14;
  st_make issue (u64 (q + 7)) (offset1 + offset2 + 14)
    (negb (Bool.eqb (mIsNegative v1) (mIsNegative v2))).

Definition canonicalizeRound (native : bool) (value offset : Z) : Z * Z :=
  if native then
    if offset <? 0 then
      let '(value, offset, loops) :=
        loop (λ s : Z * Z * Z, s.1.2 <? -1)
             (λ s, (s.1.1 `quot` 10, s.1.2 + 1, s.2 + 1))
             (Z.to_nat (- offset)) (value, offset, 0) in
      (u64 (value + (if 2 <=? loops then 9 else 10)) `quot` 10, offset + 1)
    else (value, offset)
  else if cMaxValue <? value then
    let '(value, offset) :=
      loop (λ s : Z * Z, 10 * cMaxValue <? s.1)
           (λ s, (s.1 `quot` 10, s.2 + 1)) 20 (value, offset) in
    (u64 (value + 9) `quot` 10, offset + 1)
  else (value, offset).

(** The end of [mulRound] and [divRound].  [so] and [so2] are the values of
    [stAmountCalcSwitchover] and [stAmountCalcSwitchover2]. *)
Definition finishRound (so so2 : bool) (issue : Issue) (amount offset : Z)
    (resultNegative roundUp : bool) : outcome STAmount :=
  let '(amount, offset) :=
    if negb (Bool.eqb resultNegative roundUp)
    then canonicalizeRound (isXRP (currency issue)) amount offset
    else (amount, offset) in
  result ← st_make issue amount offset resultNegative;
  if roundUp && negb resultNegative && is_zero result && so then
    if isXRP (currency issue) && so2 then st_make issue 1 0 resultNegative
    else st_make issue cMinValue cMinOffset resultNegative
  else Ret result.

Definition mulRound (so so2 : bool) (v1 v2 : STAmount) (issue : Issue) (roundUp : bool) :
    outcome STAmount :=
  if is_zero v1 || is_zero v2 then st_zero issue else
  if mIsNative v1 && mIsNative v2 && isXRP (currency issue)
  then multiply_native v1 v2 else
  let '(value1, offset1) := upscale (mIsNative v1) (mValue v1, mOffset v1) in
  let '(value2, offset2) := upscale (mIsNative v2) (mValue v2, mOffset v2) in
  let resultNegative := negb (Bool.eqb (mIsNegative v1) (mIsNegative v2)) in
  amount ← muldiv_round value1 value2 tenTo14
    (if negb (Bool.eqb resultNegative roundUp) then tenTo14m1 else 0);
  finishRound so so2 issue amount (offset1 + offset2 + 14) resultNegative roundUp.

Definition divRound (so so2 : bool) (num den : STAmount) (issue : Issue) (roundUp : bool) :
    outcome STAmount :=
  if is_zero den then Throw (runtime_error "division by zero") else
  if is_zero num then st_zero issue else
  let '(numVal, numOffset) := upscale (mIsNative num) (mValue num, mOffset num) in
  let '(denVal, denOffset) := upscale (mIsNative den) (mValue den, mOffset den) in
  let resultNegative := negb (Bool.eqb (mIsNegative num) (mIsNegative den)) in
  amount ← muldiv_round numVal tenTo17 denVal
    (if negb (Bool.eqb resultNegative roundUp) then denVal - 1 else 0);
  finishRound so so2 issue amount (numOffset - denOffset - 17) resultNegative roundUp.

(** ** Rates *)

(** [getRate]: every exception becomes rate 0. *)
Definition getRate (offerOut offerIn : STAmount) : Z :=
  if is_zero offerOut then 0 else
  match divide offerIn offerOut noIssue with
  | Ret r =>
      if is_zero r then 0
      else Z.lor (u64 (u64 (mOffset r + 100) ≪ (64 - 8))) (mValue r)
  | Throw _ => 0
  end.

Definition amountFromQuality (rate : Z) : outcome STAmount :=
  if rate =? 0 then st_zero noIssue else
  let mantissa := Z.land rate (Z.lxor (255 ≪ (64 - 8)) (2 ^ 64 - 1)) in
  let exponent := (rate ≫ (64 - 8)) - 100 in
  st_make noIssue mantissa exponent false.

(** ** Wire format *)

(** [add (Serializer&)]. *)
Definition st_serialize (a : STAmount) (s : Serializer) : Serializer :=
  if mIsNative a then
    (add64 (if mIsNegative a then mValue a else Z.lor (mValue a) cPosNative) s).2
  else
    let s :=
      if is_zero a then (add64 cNotNative s).2
      else if mIsNegative a then
        (add64 (Z.lor (mValue a) (u64 (u64 (mOffset a + 512 + 97) ≪ (64 - 10)))) s).2
      else
        (add64 (Z.lor (mValue a) (u64 (u64 (mOffset a + 512 + 256 + 97) ≪ (64 - 10)))) s).2 in
    let s := (add160 (currency (mIssue a)) s).2 in
    (add160 (account (mIssue a)) s).2.

(** The constructor from a [SerialIter]. *)
Definition st_deserialize : reader STAmount :=
  value ← get64;
  if Z.land value cNotNative =? 0 then
    if negb (Z.land value cPosNative =? 0) then
      mret (mkAmount xrpIssue (Z.land value (Z.lxor cPosNative (2 ^ 64 - 1))) 0 true false)
    else if value =? 0 then throw (runtime_error "negative zero is not canonical")
    else mret (mkAmount xrpIssue value 0 true true)
  else
    cur ← get160;
    if isXRP cur then throw (runtime_error "invalid native currency") else
    acc ← get160;
    if isXRP acc then throw (runtime_error "invalid native account") else
    let issue := mkIssue cur acc in
    let offset := value ≫ (64 - 10) in
    let value := Z.land value (Z.lxor (1023 ≪ (64 - 10)) (2 ^ 64 - 1)) in
    if negb (value =? 0) then
      let isNegative := Z.land offset 256 =? 0 in
      let offset := Z.land offset 255 - 97 in
      if (value <? cMinValue) || (cMaxValue <? value) ||
         (offset <? cMinOffset) || (cMaxOffset <? offset)
      then throw (runtime_error "invalid currency value")
      else lift (canonicalize (mkAmount issue value offset false isNegative))
    else if negb (offset =? 512) then throw (runtime_error "invalid currency value")
    else lift (canonicalize (mkAmount issue 0 0 false false)).

(** ** The canonical form *)

Ltac st_consts :=
  unfold cMinValue, cMaxValue, cMinOffset, cMaxOffset, cMaxNativeN in *.

Definition zero_or_normal (v o : Z) (neg : bool) : Prop :=
  (v = 0 ∧ o = -100 ∧ neg = false) ∨
  (cMinValue ≤ v ≤ cMaxValue ∧ cMinOffset ≤ o ≤ cMaxOffset).

(** The representation invariant.  A native amount has up to 62 bits on the
    wire, which is what the deserialiser accepts. *)
Definition canonical (a : STAmount) : Prop :=
  if mIsNative a then
    mIssue a = xrpIssue ∧ mOffset a = 0 ∧ 0 ≤ mValue a < 2 ^ 62 ∧
    (mValue a = 0 → mIsNegative a = false)
  else
    isXRP (currency (mIssue a)) = false ∧
    zero_or_normal (mValue a) (mOffset a) (mIsNegative a).

#[export] Instance canonical_dec a : Decision (canonical a).
Proof. unfold canonical, zero_or_normal. destruct (mIsNative a); apply _. Defined.

Lemma canon_up_eq v o :
  0 < v → canon_up (v, o) = loop (up10_cond cMinValue cMinOffset) up10 16 (v, o).
Proof.
  intros Hv. unfold canon_up. apply (loop_ext _ _ _ (λ s, 0 < s.1)); [|done].
  intros [m' e'] Hp [H1%Z.ltb_lt _]%andb_true_iff. simpl in *. unfold up10. simpl.
  st_consts. split; [|lia]. by rewrite u64_small by (unfold in_u64; lia).
Qed.

Definition st_norm_result := norm_result cMinValue cMinOffset cMaxOffset.

(** [canonicalize] on a non-zero issued amount normalises the magnitude and
    keeps the sign; its only exception is the overflow. *)
Lemma canonicalize_norm a :
  isXRP (currency (mIssue a)) = false → 0 < mValue a < 2 ^ 64 →
  ∃ r, st_norm_result (mValue a) (mOffset a) r ∧
    (∀ x, r = Throw x → x = runtime_error "value overflow") ∧
    canonicalize a =
      (o ← r; Ret (match o with
                   | Some (m, e) => mkAmount (mIssue a) m e false (mIsNegative a)
                   | None => mkAmount (mIssue a) 0 (-100) false false
                   end)).
Proof.
  intros Hx Hv. set (x := runtime_error "value overflow").
  pose proof (norm_correct cMinValue cMinOffset cMaxOffset x 16 20 x
    (mValue a) (mOffset a) ltac:(lia) ltac:(st_consts; lia) ltac:(st_consts; lia)) as Hn.
  pose proof (norm_loops cMinValue cMinOffset cMaxOffset x 16 20
    (mValue a) (mOffset a) ltac:(lia) ltac:(st_consts; lia) ltac:(st_consts; lia)) as Hl.
  rewrite <- canon_up_eq in Hn, Hl by lia.
  eexists. split; [exact Hn|]. unfold canonicalize. rewrite Hx.
  destruct (Z.eqb_spec (mValue a) 0); [lia|].
  change (canon_down (canon_up (mValue a, mOffset a))) with
    (loopM (down10_cond cMinValue) (down10 cMaxOffset x) 20
       (canon_up (mValue a, mOffset a))).
  destruct (loopM _ _ 20 _) as [[m e]|x']; simpl.
  - unfold norm_finish. simpl. destruct (_ || _); simpl; [by split|].
    destruct (cMaxOffset <? e); simpl; split; try done. by intros ? [= <-].
  - split; [|done]. intros ? [= <-]. by destruct Hl as [-> _].
Qed.

(** [canonicalize] on an issued amount with any 64-bit mantissa and any
    offset: amounts below the smallest representable one become the canonical
    zero, the exponent that makes the truncated mantissa normal is used
    otherwise, and amounts that are too large throw; one of the three always
    applies. *)
Theorem canonicalize_issued (a : STAmount)
    (Hx : isXRP (currency (mIssue a)) = false) (Hv : in_u64 (mValue a)) :
  let v := mValue a in
  let o := mOffset a in
  (shift10 v (cMinOffset - o) < cMinValue →
     canonicalize a = Ret (mkAmount (mIssue a) 0 (-100) false false)) ∧
  (∀ e, cMinOffset ≤ e ≤ cMaxOffset → cMinValue ≤ shift10 v (e - o) ≤ cMaxValue →
     canonicalize a = Ret (mkAmount (mIssue a) (shift10 v (e - o)) e false (mIsNegative a))) ∧
  (cMaxValue < shift10 v (cMaxOffset - o) →
     canonicalize a = Throw (runtime_error "value overflow")) ∧
  (shift10 v (cMinOffset - o) < cMinValue ∨
   (∃ e, cMinOffset ≤ e ≤ cMaxOffset ∧ cMinValue ≤ shift10 v (e - o) ≤ cMaxValue) ∨
   cMaxValue < shift10 v (cMaxOffset - o)).
Proof.
  simpl. destruct (decide (mValue a = 0)) as [Hz|Hz].
  { rewrite Hz. setoid_rewrite shift10_0_l.
    split_and!; [|st_consts; lia..]. intros _. unfold canonicalize. rewrite Hx, Hz. done. }
  destruct (canonicalize_norm a Hx ltac:(unfold in_u64 in Hv; lia)) as (r & Hr & Hthrow & ->).
  destruct (norm_result_cases cMinValue cMinOffset cMaxOffset (runtime_error "") _ _ _ (proj1 Hv)
    ltac:(st_consts; lia) ltac:(st_consts; lia) Hr) as (H1 & H2 & H3 & H4).
  split_and!; [..|exact H4].
  - intros ->%H1. done.
  - intros e He ->%H2; done.
  - intros [x Hx']%H3. rewrite Hx' in *. by rewrite (Hthrow x).
Qed.

Lemma canonicalize_issued_witness :
  canonicalize (mkAmount (mkIssue 7 8) 123456789012345678 3 false true)
  = Ret (mkAmount (mkIssue 7 8) 1234567890123456 5 false true).
Proof.
  destruct (canonicalize_issued (mkAmount (mkIssue 7 8) 123456789012345678 3 false true)
    ltac:(reflexivity) ltac:(unfold in_u64; simpl; lia)) as (_ & H & _).
  apply (H 5); vm_compute; split; discriminate.
Defined.

Lemma native_down_eq v o :
  native_down (v, o) = if o <? 0 then (shift10 v (- o), 0) else (v, o).
Proof.
  unfold native_down. simpl snd. destruct (Z.ltb_spec o 0) as [Ho|Ho].
  2: { apply loop_false. simpl. by apply Z.ltb_ge. }
  set (f := Z.to_nat (- o)). assert (Hf : (Z.to_nat (- o) <= f)%nat) by done. clearbody f.
  assert (Hgen : ∀ j, 0 ≤ j → o + j ≤ 0 → (Z.to_nat (- (o + j)) ≤ f)%nat →
    loop (λ s, s.2 <? 0) (λ s, (s.1 `quot` 10, s.2 + 1)) f (shift10 v j, o + j)
    = (shift10 v (- o), 0)).
  { clear Hf. induction f as [|f IH]; intros j Hj Hoj Hf.
    - replace j with (- o) by lia. simpl. f_equal. lia.
    - simpl. destruct (Z.ltb_spec (o + j) 0).
      + rewrite shift10_quot10 by done. rewrite <- Z.add_assoc. apply IH; lia.
      + replace j with (- o) by lia. f_equal. lia. }
  specialize (Hgen 0). rewrite shift10_0, Z.add_0_r in Hgen. apply Hgen; lia.
Qed.

Lemma u64_mul_l x y : u64 (u64 x * y) = u64 (x * y).
Proof. unfold u64. by rewrite Z.mul_mod_idemp_l by lia. Qed.

Lemma native_up_eq v o :
  0 ≤ o → in_u64 v → native_up (v, o) = (u64 (v * 10 ^ o), 0).
Proof.
  intros Ho Hv. unfold native_up. simpl snd. rewrite <- (Z2Nat.id o) at 2 3 by done.
  generalize (Z.to_nat o). clear o Ho. intros n. revert v Hv.
  induction n as [|n IH]; intros v Hv.
  - simpl. by rewrite Z.mul_1_r, u64_small.
  - cbn [loop snd fst]. destruct (Z.ltb_spec 0 (Z.of_nat (S n))); [|lia].
    replace (Z.of_nat (S n) - 1) with (Z.of_nat n) by lia.
    rewrite IH by apply u64_range. rewrite u64_mul_l. f_equal. f_equal.
    rewrite Nat2Z.inj_succ, Z.pow_succ_r by lia. lia.
Qed.

(** [canonicalize] on a native amount: the drops are the magnitude shifted
    to exponent zero, truncated when digits are dropped and reduced modulo 2^64
    when the offset is positive; more than 10^17 drops throw. *)
Theorem canonicalize_native (a : STAmount)
    (Hx : isXRP (currency (mIssue a)) = true) (Hv : in_u64 (mValue a)) :
  let drops := u64 (shift10 (mValue a) (- mOffset a)) in
  canonicalize a =
    if mValue a =? 0 then Ret (mkAmount (mIssue a) 0 0 true false)
    else if cMaxNativeN <? drops
    then Throw (runtime_error "Native currency amount out of range")
    else Ret (mkAmount (mIssue a) drops 0 true (mIsNegative a)).
Proof.
  simpl. unfold canonicalize. rewrite Hx.
  destruct (Z.eqb_spec (mValue a) 0) as [->|Hz]; [done|]. rewrite native_down_eq.
  unfold in_u64 in Hv.
  destruct (Z.ltb_spec (mOffset a) 0) as [Ho|Ho].
  - assert (in_u64 (shift10 (mValue a) (- mOffset a))) as Hs.
    { split; [apply shift10_pos_ge0; lia|].
      pose proof (shift10_anti (mValue a) 0 (- mOffset a)) as Ha.
      rewrite shift10_0 in Ha. lia. }
    rewrite native_up_eq, Z.mul_1_r by (done || lia). done.
  - rewrite native_up_eq by (done || lia). by rewrite shift10_neg, Z.opp_involutive by lia.
Qed.

Lemma canonicalize_native_witness :
  canonicalize (mkAmount xrpIssue 25 3 false true)
  = Ret (mkAmount xrpIssue 25000 0 true true).
Proof.
  exact (canonicalize_native (mkAmount xrpIssue 25 3 false true)
    ltac:(reflexivity) ltac:(unfold in_u64; simpl; lia)).
Defined.

(** the native branch of [canonicalize] lets two wrong results through: a
    fraction of a drop keeps its sign, giving a negative zero that the
    deserialiser rejects, and the multiplication by ten wraps, so that
    10^64 drops pass the range check as zero drops. *)
Theorem canonicalize_native_unsound :
  (∃ a bytes, canonicalize (mkAmount xrpIssue 5 (-1) true true) = Ret a ∧
     mValue a = 0 ∧ mIsNegative a = true ∧ st_serialize a [] = bytes ∧
     st_deserialize (iter_of bytes) = Throw (runtime_error "negative zero is not canonical")) ∧
  (∃ a, canonicalize (mkAmount xrpIssue 1 64 true false) = Ret a ∧ mValue a = 0).
Proof.
  split.
  - exists (mkAmount xrpIssue 0 0 true true), (replicate 8 0).
    repeat split; vm_compute; reflexivity.
  - exists (mkAmount xrpIssue 0 0 true false). split; vm_compute; reflexivity.
Qed.

(** ** Wire format *)

(** The 64-bit word of an amount, as arithmetic. *)
Definition st_word (a : STAmount) : Z :=
  if mIsNative a then (if mIsNegative a then 0 else 1) * 2 ^ 62 + mValue a
  else if mValue a =? 0 then 2 ^ 63
  else (mOffset a + 512 + (if mIsNegative a then 0 else 256) + 97) * 2 ^ 54 + mValue a.

Definition st_bytes (a : STAmount) : list Z :=
  to_be 8 (st_word a) ++
  if mIsNative a then []
  else to_be 20 (currency (mIssue a)) ++ to_be 20 (account (mIssue a)).

(** An amount that can be sent: canonical, and its issue is a pair of non-zero
    160-bit identifiers. *)
Definition wire_ok (a : STAmount) : Prop :=
  canonical a ∧
  (mIsNative a = false → 0 < currency (mIssue a) < 2 ^ 160 ∧
                         0 < account (mIssue a) < 2 ^ 160).

Lemma is_zero_value a : is_zero a = (mValue a =? 0).
Proof. unfold is_zero, st_signum. by destruct (mValue a =? 0), (mIsNegative a). Qed.

Lemma canonical_offset a :
  canonical a → mIsNative a = false → mValue a ≠ 0 →
  cMinValue ≤ mValue a ≤ cMaxValue ∧ cMinOffset ≤ mOffset a ≤ cMaxOffset.
Proof.
  unfold canonical, zero_or_normal. intros H Hn Hv. rewrite Hn in H.
  by destruct H as [_ [[? _]|?]].
Qed.

Lemma u64_shift_54 h : 0 ≤ h < 1024 → u64 (u64 h ≪ (64 - 10)) = h * 2 ^ 54.
Proof.
  intros Hh. rewrite (u64_small h) by (unfold in_u64; lia).
  rewrite Z.shiftl_mul_pow2 by lia. apply u64_small. unfold in_u64. lia.
Qed.

Lemma st_serialize_bytes a s : canonical a → st_serialize a s = s ++ st_bytes a.
Proof.
  intros Hc. unfold st_serialize, st_bytes, st_word.
  rewrite is_zero_value, !add64_push.
  destruct (mIsNative a) eqn:En.
  - unfold canonical in Hc. rewrite En in Hc. destruct Hc as (_ & _ & Hv & _).
    destruct (mIsNegative a); rewrite app_nil_r; simpl; [done|].
    rewrite Z.lor_comm. change cPosNative with (1 * 2 ^ 62). by rewrite lor_fields by lia.
  - unfold add160, addBitString, push. rewrite !app_assoc. do 2 f_equal. simpl snd.
    destruct (Z.eqb_spec (mValue a) 0) as [Hz|Hz]; [done|].
    destruct (canonical_offset a Hc En Hz) as [Hv Ho]. st_consts.
    destruct (mIsNegative a); rewrite u64_shift_54, Z.lor_comm, lor_fields by lia;
      [by rewrite Z.add_0_r|done].
Qed.

Lemma st_word_below a : canonical a → below 8 (st_word a).
Proof.
  intros Hc. unfold below, st_word. change (256 ^ Z.of_nat 8) with (2 ^ 64).
  destruct (mIsNative a) eqn:En.
  - unfold canonical in Hc. rewrite En in Hc. destruct (mIsNegative a); lia.
  - destruct (Z.eqb_spec (mValue a) 0) as [Hz|Hz]; [lia|].
    destruct (canonical_offset a Hc En Hz) as [Hv Ho]. st_consts.
    destruct (mIsNegative a); lia.
Qed.

(** The bit operations of the deserialiser, on a word given by its fields. *)
Lemma issued_word_fields h v :
  512 ≤ h < 1024 → 0 ≤ v < 2 ^ 54 →
  let w := h * 2 ^ 54 + v in
  Z.land w cNotNative ≠ 0 ∧ w ≫ (64 - 10) = h ∧
  Z.land w (Z.lxor (1023 ≪ (64 - 10)) (2 ^ 64 - 1)) = v.
Proof.
  intros Hh Hv. simpl. split_and!.
  - pose proof (land_bit (h * 2 ^ 54 + v) 63 ltac:(lia) ltac:(lia)) as Hb.
    change (2 ^ 63) with cNotNative in *. rewrite Hb.
    destruct (Z.ltb_spec (h * 2 ^ 54 + v) cNotNative) as [Hlt|]; unfold cNotNative in *; lia.
  - by apply (shiftr_fields h v 54).
  - by apply (land_fields h v 54).
Qed.

Lemma native_word_fields (p : bool) v :
  0 ≤ v < 2 ^ 62 →
  let w := (if p then 1 else 0) * 2 ^ 62 + v in
  Z.land w cNotNative = 0 ∧ (Z.land w cPosNative =? 0) = negb p ∧
  Z.land w (Z.lxor cPosNative (2 ^ 64 - 1)) = v.
Proof.
  intros Hv. simpl. set (w := _ + v).
  assert (Hw : w = (if p then 2 ^ 62 else 0) + v) by (unfold w; destruct p; lia).
  split_and!.
  - pose proof (land_bit w 63 ltac:(lia) ltac:(destruct p; lia)) as Hb.
    change (2 ^ 63) with cNotNative in *. rewrite Hb.
    destruct (Z.ltb_spec w cNotNative); [done|]. unfold cNotNative in *. destruct p; lia.
  - pose proof (land_bit w 62 ltac:(lia) ltac:(destruct p; lia)) as Hb.
    change (2 ^ 62) with cPosNative in *. rewrite Hb.
    destruct (Z.ltb_spec w cPosNative); unfold cPosNative in *; destruct p; try done; lia.
  - change (Z.lxor cPosNative (2 ^ 64 - 1)) with (Z.lor (1 ≪ 63) (Z.ones 62)).
    rewrite Z.land_lor_distr_r. change (1 ≪ 63) with (2 ^ 63).
    rewrite (land_bit w 63) by (destruct p; lia).
    destruct (Z.ltb_spec w (2 ^ 63)); [|destruct p; lia].
    rewrite Z.lor_0_l. by apply land_fields.
Qed.

(** Canonical issued amounts are fixed points of [canonicalize], whatever the
    native flag was before. *)
Lemma canonicalize_id issue v o neg n :
  isXRP (currency issue) = false → cMinValue ≤ v ≤ cMaxValue →
  cMinOffset ≤ o ≤ cMaxOffset →
  canonicalize (mkAmount issue v o n neg) = Ret (mkAmount issue v o false neg).
Proof.
  intros Hx Hv Ho.
  destruct (canonicalize_norm (mkAmount issue v o n neg) Hx) as (r & Hr & _ & ->);
    simpl in *; [st_consts; lia|].
  destruct (norm_result_cases cMinValue cMinOffset cMaxOffset (runtime_error "") v o r
    ltac:(st_consts; lia) ltac:(st_consts; lia) ltac:(st_consts; lia) Hr) as (_ & H2 & _).
  specialize (H2 o Ho). rewrite Z.sub_diag, shift10_0 in H2. by rewrite H2.
Qed.

Lemma isXRP_false c : 0 < c → isXRP c = false.
Proof. intros. unfold isXRP. apply Z.eqb_neq. lia. Qed.

Lemma issued_range_check v o :
  cMinValue ≤ v ≤ cMaxValue → cMinOffset ≤ o ≤ cMaxOffset →
  (v <? cMinValue) || (cMaxValue <? v) || (o <? cMinOffset) || (cMaxOffset <? o) = false.
Proof.
  intros. rewrite !orb_false_iff, !Z.ltb_ge. lia.
Qed.

(** The sign bit and the exponent in the top ten bits of the word. *)
Lemma offset_fields (neg : bool) b :
  0 ≤ b < 256 →
  let h := 512 + (if neg then 0 else 256) + b in
  (Z.land h 256 =? 0) = neg ∧ Z.land h 255 = b.
Proof.
  intros Hb. simpl. split.
  - change 256 with (Z.land 511 (2 ^ 8)) at 2. rewrite Z.land_assoc.
    pose proof (land_fields 1 ((if neg then 0 else 256) + b) 9 ltac:(lia)
      ltac:(destruct neg; lia)) as Hf.
    change (1 * 2 ^ 9) with 512 in Hf. change (Z.ones 9) with 511 in Hf.
    rewrite <- Z.add_assoc, Hf, land_bit by (destruct neg; lia).
    by destruct neg, (Z.ltb_spec (0 + b) (2 ^ 8)), (Z.ltb_spec (256 + b) (2 ^ 8)); lia || done.
  - replace (512 + (if neg then 0 else 256) + b) with ((if neg then 2 else 3) * 2 ^ 8 + b)
      by (destruct neg; lia).
    by apply (land_fields _ b 8).
Qed.

Lemma decodes_issued a :
  wire_ok a → mIsNative a = false → decodes st_deserialize (st_bytes a) a.
Proof.
  intros [Hc Hi] Hn. destruct (Hi Hn) as [Hcur Hacc]. unfold st_bytes. rewrite Hn.
  eapply decodes_bind; [by apply decodes_get64, st_word_below|]. cbv beta.
  assert (∃ h, 512 ≤ h < 1024 ∧ 0 ≤ mValue a < 2 ^ 54 ∧ st_word a = h * 2 ^ 54 + mValue a ∧
    (mValue a = 0 → h = 512) ∧
    (mValue a ≠ 0 → h = mOffset a + 512 + (if mIsNegative a then 0 else 256) + 97))
    as (h & Hh & Hv & -> & Hz & Hnz).
  { unfold st_word. rewrite Hn. destruct (Z.eqb_spec (mValue a) 0) as [Hz|Hz].
    - exists 512. split_and!; lia.
    - destruct (canonical_offset a Hc Hn Hz). st_consts.
      eexists. split_and!; [..|reflexivity|done|done]; destruct (mIsNegative a); lia. }
  destruct (issued_word_fields h (mValue a) Hh Hv) as (Hnn & Hsh & Hla).
  rewrite (proj2 (Z.eqb_neq _ _) Hnn).
  eapply decodes_bind; [apply decodes_getBitString; unfold below; lia|].
  cbv beta. rewrite isXRP_false by lia.
  eapply decodes_bind'; [apply decodes_getBitString; unfold below; lia|].
  cbv beta zeta. rewrite isXRP_false by lia. rewrite Hsh, Hla.
  assert (Ha : a = mkAmount (mkIssue (currency (mIssue a)) (account (mIssue a)))
                (mValue a) (mOffset a) false (mIsNegative a)).
  { destruct a as [[] ? ? ? ?]. simpl in *. by rewrite Hn. }
  unfold canonical in Hc. rewrite Hn in Hc. destruct Hc as [Hx Hc].
  destruct (Z.eqb_spec (mValue a) 0) as [Hv0|Hv0]; simpl negb; cbv iota.
  - rewrite Hz by done. simpl. apply decodes_lift. rewrite Ha, Hv0.
    destruct Hc as [(_ & -> & ->)|?]; [|st_consts; lia].
    unfold canonicalize. simpl. by rewrite Hx.
  - destruct Hc as [?|[Hvr Hor]]; [lia|]. rewrite Hnz by done.
    replace (mOffset a + 512 + (if mIsNegative a then 0 else 256) + 97)
      with (512 + (if mIsNegative a then 0 else 256) + (mOffset a + 97)) by lia.
    destruct (offset_fields (mIsNegative a) (mOffset a + 97) ltac:(st_consts; lia)) as [-> ->].
    rewrite Z.add_simpl_r.
    rewrite issued_range_check by done. apply decodes_lift. rewrite canonicalize_id by done.
    by rewrite <- Ha.
Qed.

Lemma decodes_native a :
  wire_ok a → mIsNative a = true → decodes st_deserialize (st_bytes a) a.
Proof.
  intros [Hc _] Hn. unfold st_bytes. rewrite Hn.
  pose proof (st_word_below a Hc) as Hw. unfold canonical in Hc. rewrite Hn in Hc.
  destruct Hc as (Hi & Ho & Hv & Hz).
  eapply decodes_bind; [by apply decodes_get64|]. cbv beta.
  unfold st_word. rewrite Hn.
  destruct (native_word_fields (negb (mIsNegative a)) (mValue a) Hv) as (H1 & H2 & H3).
  replace (if negb (mIsNegative a) then 1 else 0) with (if mIsNegative a then 0 else 1)
    in H1, H2, H3 by (by destruct (mIsNegative a)).
  rewrite H1, H2, H3. simpl. destruct a as [ai av ao an ag]. simpl in *. subst.
  destruct ag; cbn [negb]; [|apply decodes_ret]. rewrite Z.mul_0_l, Z.add_0_l.
  destruct (Z.eqb_spec av 0); [by specialize (Hz ltac:(done))|]. apply decodes_ret.
Qed.

Lemma decodes_amount a : wire_ok a → decodes st_deserialize (st_bytes a) a.
Proof. intros Ha. destruct (mIsNative a) eqn:E; [by apply decodes_native|by apply decodes_issued]. Qed.

(** C36: serialisation round trip: for every amount that can be sent, native or
    issued, positive, negative or zero, [add] appends bytes that the
    deserialising constructor consumes exactly, returning the same amount. *)
Theorem STAmount_roundtrip (a : STAmount) (s : Serializer) (Ha : wire_ok a) :
  ∃ bs, st_serialize a s = s ++ bs ∧ decodes st_deserialize bs a.
Proof.
  exists (st_bytes a). split; [by apply st_serialize_bytes; destruct Ha|by apply decodes_amount].
Qed.

Lemma STAmount_roundtrip_witness :
  ∃ bs, st_serialize (mkAmount (mkIssue 7 8) 1234567890123456 (-3) false true) [] = [] ++ bs ∧
    decodes st_deserialize bs (mkAmount (mkIssue 7 8) 1234567890123456 (-3) false true).
Proof.
  apply STAmount_roundtrip. split.
  - unfold canonical, zero_or_normal. simpl. split; [reflexivity|]. right. st_consts. lia.
  - simpl. lia.
Defined.

Lemma word_split w k : 0 ≤ k → w = (w ≫ k) * 2 ^ k + w `mod` 2 ^ k ∧ 0 ≤ w `mod` 2 ^ k < 2 ^ k.
Proof.
  intros Hk. rewrite Z.shiftr_div_pow2 by done.
  pose proof (Z.pow_pos_nonneg 2 k ltac:(lia) Hk).
  pose proof (Z.div_mod w (2 ^ k)). pose proof (Z.mod_pos_bound w (2 ^ k)). lia.
Qed.

Lemma native_word_inv w :
  below 8 w → Z.land w cNotNative = 0 →
  ∃ (p : bool) v, 0 ≤ v < 2 ^ 62 ∧ w = (if p then 1 else 0) * 2 ^ 62 + v.
Proof.
  unfold below. change (256 ^ Z.of_nat 8) with (2 * 2 ^ 63). intros Hw.
  change cNotNative with (2 ^ 63). rewrite land_bit by lia.
  destruct (Z.ltb_spec w (2 ^ 63)); [intros _|done].
  destruct (Z.le_gt_cases (2 ^ 62) w).
  - exists true, (w - 2 ^ 62). lia.
  - exists false, w. lia.
Qed.

Lemma issued_word_inv w :
  below 8 w → Z.land w cNotNative ≠ 0 →
  ∃ h v, 512 ≤ h < 1024 ∧ 0 ≤ v < 2 ^ 54 ∧ w = h * 2 ^ 54 + v.
Proof.
  unfold below. change (256 ^ Z.of_nat 8) with (2 * 2 ^ 63). intros Hw.
  change cNotNative with (2 ^ 63). rewrite land_bit by lia.
  destruct (Z.ltb_spec w (2 ^ 63)); [done|intros _].
  destruct (word_split w 54 ltac:(lia)) as [He Hv].
  exists (w ≫ 54), (w `mod` 2 ^ 54). lia.
Qed.

Lemma top_bits_inv h :
  512 ≤ h < 1024 →
  ∃ (neg : bool) b, 0 ≤ b < 256 ∧ h = 512 + (if neg then 0 else 256) + b.
Proof.
  intros Hh. destruct (Z.lt_ge_cases h 768).
  - exists true, (h - 512). lia.
  - exists false, (h - 768). lia.
Qed.

(** [written it it' a]: between [it] and [it'] the buffer holds the bytes of the
    sendable amount [a]. *)
Definition written (it it' : SerialIter) (a : STAmount) : Prop :=
  wire_ok a ∧ it' = advance (length (st_bytes a)) it ∧
  front (length (st_bytes a)) it = st_bytes a.

Lemma written_native it (p : bool) v :
  0 ≤ v < 2 ^ 62 → (v = 0 → p = true) →
  front 8 it = to_be 8 ((if p then 1 else 0) * 2 ^ 62 + v) →
  written it (advance 8 it) (mkAmount xrpIssue v 0 true (negb p)).
Proof.
  intros Hv Hz Hf. set (a := mkAmount _ _ _ _ _).
  assert (st_bytes a = to_be 8 ((if p then 1 else 0) * 2 ^ 62 + v)) as Hb.
  { unfold st_bytes. cbn [mIsNative a]. rewrite app_nil_r. by destruct p. }
  unfold written. rewrite Hb, length_to_be. split; [|done]. split; [|done].
  unfold canonical. simpl. split; [done|]. split; [done|]. split; [done|].
  by intros ->%Hz.
Qed.

Lemma written_issued it c ac v o neg :
  below 20 c → below 20 ac → c ≠ 0 → ac ≠ 0 → zero_or_normal v o neg →
  let a := mkAmount (mkIssue c ac) v o false neg in
  front 48 it = to_be 8 (st_word a) ++ to_be 20 c ++ to_be 20 ac →
  written it (advance 48 it) a.
Proof.
  intros Hc Hac Hc0 Hac0 Hz a Hf. unfold below in Hc, Hac.
  change (256 ^ Z.of_nat 20) with (2 ^ 160) in *.
  assert (Hl : length (st_bytes a) = 48%nat).
  { unfold st_bytes. cbn [mIsNative a]. by rewrite !length_app, !length_to_be. }
  unfold written. rewrite Hl. split; [|done]. split; [|simpl; lia].
  unfold canonical. simpl. split; [|done]. by apply Z.eqb_neq.
Qed.

Lemma st_deserialize_inv it a it' :
  it_ok it → st_deserialize it = Ret (a, it') → written it it' a.
Proof.
  intros Hok. unfold st_deserialize, mbind at 1, reader_bind at 1.
  destruct (get64 it) as [[w it1]|] eqn:E1; [|done].
  destruct (get64_inv _ _ _ Hok E1) as (-> & Hok1 & Hw & Hf). clear E1.
  destruct (Z.eqb_spec (Z.land w cNotNative) 0) as [Hnn|Hnn].
  { destruct (native_word_inv w Hw Hnn) as (p & v & Hv & ->).
    destruct (native_word_fields p v Hv) as (_ & Hp & Hl). rewrite Hp, Hl. clear Hp Hl Hnn.
    destruct p; simpl negb; cbv iota.
    - intros [= <- <-]. by apply (written_native it true).
    - rewrite Z.mul_0_l, Z.add_0_l in *. destruct (Z.eqb_spec v 0); [done|].
      intros [= <- <-]. by apply (written_native it false). }
  destruct (issued_word_inv w Hw Hnn) as (h & v & Hh & Hv & ->).
  destruct (issued_word_fields h v Hh Hv) as (_ & Hs & Hl). rewrite Hs, Hl. clear Hs Hl Hnn.
  unfold mbind at 1, reader_bind at 1.
  destruct (get160 _) as [[c it2]|] eqn:E2; [|done].
  destruct (getBitString_inv _ _ _ _ Hok1 E2) as (-> & Hok2 & Hc & Hfc). clear E2.
  destruct (isXRP c) eqn:Hxc; [done|]. unfold mbind, reader_bind.
  destruct (get160 _) as [[ac it3]|] eqn:E3; [|done].
  destruct (getBitString_inv _ _ _ _ Hok2 E3) as (-> & Hok3 & Hac & Hfa). clear E3.
  destruct (isXRP ac) eqn:Hxa; [done|].
  assert (Hall : front 48 it = to_be 8 (h * 2 ^ 54 + v) ++ to_be 20 c ++ to_be 20 ac).
  { change 48%nat with (8 + (20 + 20))%nat. by rewrite <- !front_app, Hf, Hfc, Hfa. }
  assert (Hadv : advance 20 (advance 20 (advance 8 it)) = advance 48 it).
  { unfold advance. simpl. f_equal; lia. }
  rewrite Hadv. apply Z.eqb_neq in Hxa, Hxc.
  assert (Hx : isXRP (currency (mkIssue c ac)) = false) by (by apply Z.eqb_neq).
  destruct (Z.eqb_spec v 0) as [->|Hv0]; cbn [negb].
  - destruct (Z.eqb_spec h 512) as [->|]; [|done]. cbn [negb].
    unfold canonicalize, lift. simpl in Hx |- *. rewrite Hx. intros [= <- <-].
    apply written_issued; try done. by left.
  - destruct (top_bits_inv h Hh) as (neg & b & Hb & ->).
    destruct (offset_fields neg b Hb) as [-> ->].
    destruct (_ || _) eqn:Hr; [done|]. rewrite !orb_false_iff, !Z.ltb_ge in Hr.
    destruct Hr as [[[Hr1 Hr2] Hr3] Hr4].
    rewrite (canonicalize_id _ _ _ _ _ Hx) by done. intros [= <- <-].
    apply written_issued; try done; [by right|]. rewrite Hall. do 2 f_equal.
    unfold st_word. simpl. destruct (Z.eqb_spec v 0); [done|]. f_equal. lia.
Qed.

(** the wire format has one encoding per amount: whatever buffer the
    deserialiser accepts, the amount it returns is canonical, its issue is
    well formed, and serialising it again gives exactly the bytes consumed. *)
Theorem STAmount_wire_unique (it it' : SerialIter) (a : STAmount)
    (Hok : it_ok it) (Hd : st_deserialize it = Ret (a, it')) :
  wire_ok a ∧ st_serialize a [] = take (p_ it' - p_ it) (drop (p_ it) (buf it)).
Proof.
  destruct (st_deserialize_inv it a it' Hok Hd) as (Hw & -> & Hf). split; [done|].
  rewrite st_serialize_bytes by apply Hw. simpl. rewrite <- Hf at 1. unfold front.
  f_equal. simpl. lia.
Qed.

Lemma STAmount_wire_unique_witness :
  st_serialize (mkAmount xrpIssue 7 0 true true) [] = [0; 0; 0; 0; 0; 0; 0; 7].
Proof.
  apply (STAmount_wire_unique (iter_of [0; 0; 0; 0; 0; 0; 0; 7; 9])
    (mkIter [0; 0; 0; 0; 0; 0; 0; 7; 9] 8 8 1)).
  - unfold it_ok. simpl. split; [repeat constructor; lia|]. lia.
  - vm_compute. reflexivity.
Defined.

(** ** Issued amounts refine [IOUAmount] *)

(** The [IOUAmount] an issued amount stands for. *)
Definition iou_view (a : STAmount) : IOUAmount :=
  mkIOU (if mIsNegative a then - mValue a else mValue a) (mOffset a).

Definition issued (issue : Issue) (a : STAmount) : Prop :=
  canonical a ∧ mIsNative a = false ∧ mIssue a = issue.

(** Both computations throw, or both return and the results correspond. *)
Definition agrees (issue : Issue) (s : outcome STAmount) (i : outcome IOUAmount) : Prop :=
  match s, i with
  | Ret c, Ret z => issued issue c ∧ iou_view c = z
  | Throw _, Throw _ => True
  | _, _ => False
  end.

Lemma issued_zero issue :
  isXRP (currency issue) = false → issued issue (mkAmount issue 0 (-100) false false).
Proof. intros Hx. split; [|done]. split; [exact Hx|by left]. Qed.

Lemma iou_view_wf issue a : issued issue a → wf (iou_view a).
Proof.
  intros (Hc & Hn & _). unfold canonical in Hc. rewrite Hn in Hc.
  unfold iou_view. destruct Hc as [_ [(-> & -> & ->)|[Hv Ho]]]; [by left|right].
  simpl. unfold normal_mantissa, minMantissa, maxMantissa, minExponent, maxExponent.
  st_consts. destruct (mIsNegative a); lia.
Qed.

(** Canonicalising a sign and magnitude is normalising the signed mantissa. *)
Lemma st_make_agrees issue m e (neg : bool) :
  isXRP (currency issue) = false → 0 < m < 2 ^ 63 →
  agrees issue (st_make issue m e neg) (normalize (mkIOU (if neg then - m else m) e)).
Proof.
  intros Hx Hm. set (sm := if neg then - m else m).
  assert (Habs : Z.abs sm = m ∧ sm ≠ 0 ∧ (sm <? 0) = neg).
  { unfold sm. destruct neg; (split; [lia|]); (split; [lia|]);
      [apply Z.ltb_lt|apply Z.ltb_ge]; lia. }
  destruct Habs as (Habs & Hs0 & Hneg).
  destruct (canonicalize_norm (mkAmount issue m e false neg) Hx ltac:(simpl; lia))
    as (r1 & Hr1 & _ & Hst).
  destruct (normalize_norm sm e Hs0 ltac:(lia)) as (r2 & Hr2 & _ & Hio).
  unfold st_make. rewrite Hst, Hio, Hneg. rewrite Habs in Hr2. simpl in Hr1. clear Hst Hio.
  pose proof (norm_result_det cMinValue cMinOffset cMaxOffset m e r1 r2
    ltac:(lia) ltac:(done) ltac:(done) Hr1 Hr2) as Hdet.
  destruct r1 as [o1|], r2 as [o2|]; try done. subst o2. simpl.
  destruct o1 as [[m' e']|]; simpl; [|by split; [apply issued_zero|]].
  split; [|done]. split; [|done]. split; [exact Hx|]. simpl. right.
  clear Habs Hs0 Hneg sm. inversion Hr1; subst. unfold cMaxValue. unfold cMinValue in *. lia.
Qed.

Lemma issued_value issue a :
  issued issue a → 0 ≤ mValue a ≤ cMaxValue ∧ (mValue a ≠ 0 → normal_mantissa (mantissa_ (iou_view a))).
Proof.
  intros H. pose proof (iou_view_wf _ _ H) as Hw. destruct H as (Hc & Hn & _).
  unfold canonical in Hc. rewrite Hn in Hc.
  destruct Hc as [_ [(-> & _)|[Hv Ho]]]; [st_consts; lia|].
  split; [st_consts; lia|]. intros Hz. destruct Hw as [Hw|[Hw _]]; [|done].
  unfold iou_view in Hw. destruct (mIsNegative a); injection Hw; lia.
Qed.

Lemma iou_view_signum a :
  0 ≤ mValue a → (iou_signum (iou_view a) =? 0) = (mValue a =? 0).
Proof.
  intros Hv. unfold iou_signum, iou_view. simpl.
  destruct (mIsNegative a), (Z.eqb_spec (mValue a) 0) as [->|]; try done.
  - destruct (Z.ltb_spec (- mValue a) 0); [done|lia].
  - destruct (Z.ltb_spec (mValue a) 0); [lia|]. by destruct (Z.eqb_spec (mValue a) 0).
Qed.

Lemma signed_mantissa issue a :
  issued issue a →
  (if mIsNegative a then i64 (- i64 (mValue a)) else i64 (mValue a)) = mantissa_ (iou_view a).
Proof.
  intros [Hv _]%issued_value. st_consts. unfold iou_view. simpl.
  destruct (mIsNegative a); rewrite !i64_small by (unfold in_i64; rewrite ?i64_small; unfold in_i64; lia); done.
Qed.

Lemma st_add_agrees i1 i2 a b :
  issued i1 a → issued i2 b → currency i1 = currency i2 →
  agrees i1 (st_add a b) (iou_add (iou_view a) (iou_view b)).
Proof.
  intros Ha Hb Hcur. pose proof Ha as (Hca & Hna & Hia). pose proof Hb as (Hcb & Hnb & Hib).
  assert (Hx : isXRP (currency i1) = false).
  { unfold canonical in Hca. rewrite Hna, Hia in Hca. apply Hca. }
  destruct (issued_value _ _ Ha) as [Hva Hma], (issued_value _ _ Hb) as [Hvb Hmb].
  unfold st_add, iou_add, areComparable.
  rewrite Hna, Hnb, Hia, Hib, Hcur, Z.eqb_refl, !is_zero_value. cbn [Bool.eqb andb negb].
  rewrite !iou_view_signum by lia.
  destruct (Z.eqb_spec (mValue b) 0) as [Hb0|Hb0]; [done|].
  destruct (Z.eqb_spec (mValue a) 0) as [Ha0|Ha0].
  { pose proof (st_make_agrees i1 (mValue b) (mOffset b) (mIsNegative b) Hx) as Hm.
    change (mkIOU (if mIsNegative b then - mValue b else mValue b) (mOffset b))
      with (iou_view b) in Hm.
    rewrite normalize_id in Hm by (by eapply iou_view_wf). apply Hm. st_consts. lia. }
  rewrite (signed_mantissa _ a Ha), (signed_mantissa _ b Hb).
  change (mOffset a) with (exponent_ (iou_view a)). change (mOffset b) with (exponent_ (iou_view b)).
  pose proof (align_pair (iou_view a) (iou_view b)) as Hal.
  pose proof (aligned_sum_bound _ _ (Hma Ha0) (Hmb Hb0)) as Hs.
  destruct (align _ (mantissa_ (iou_view a), _)) as [m1 e1].
  destruct (align _ (mantissa_ (iou_view b), _)) as [m2 e2]. injection Hal as -> ->.
  set (fv := aligned_sum _ _) in *. set (E := Z.max _ _). clearbody fv E.
  unfold maxMantissa in Hs. rewrite i64_small by (unfold in_i64; lia).
  destruct (_ && _) eqn:Hsmall.
  { unfold st_zero, st_make, canonicalize. simpl. rewrite Hx. simpl.
    by split; [apply issued_zero|]. }
  rewrite andb_false_iff, !Z.leb_gt in Hsmall.
  destruct (Z.leb_spec 0 fv); rewrite u64_small by (unfold in_u64; lia).
  - apply (st_make_agrees i1 fv E false Hx). lia.
  - pose proof (st_make_agrees i1 (- fv) E true Hx ltac:(lia)) as Hm.
    simpl in Hm. by rewrite Z.opp_involutive in Hm.
Qed.

Lemma issued_negative issue a :
  issued issue a → (mantissa_ (iou_view a) <? 0) = mIsNegative a.
Proof.
  intros H. destruct (issued_value _ _ H) as [Hv _]. destruct H as (Hc & Hn & _).
  unfold canonical, zero_or_normal in Hc. rewrite Hn in Hc. destruct Hc as [_ Hc].
  unfold iou_view. simpl. st_consts.
  destruct (mIsNegative a); [apply Z.ltb_lt|apply Z.ltb_ge]; destruct Hc as [(? & ? & ?)|?]; done || lia.
Qed.

Lemma st_lt_iou i1 i2 a b :
  issued i1 a → issued i2 b → currency i1 = currency i2 →
  st_lt a b = Ret (iou_lt (iou_view a) (iou_view b)).
Proof.
  intros Ha Hb Hcur. unfold st_lt, iou_lt, areComparable.
  rewrite (issued_negative _ _ Ha), (issued_negative _ _ Hb).
  destruct (issued_value _ _ Ha) as [Hva _], (issued_value _ _ Hb) as [Hvb _].
  destruct Ha as (_ & -> & ->), Hb as (_ & -> & ->).
  rewrite Hcur, Z.eqb_refl. cbn [Bool.eqb andb negb].
  unfold iou_view. cbn [mantissa_ exponent_].
  destruct (mIsNegative a) eqn:Na, (mIsNegative b) eqn:Nb; cbn [Bool.eqb negb]; try done.
  - assert (∀ x, (- x =? 0) = (x =? 0)) as Hopp.
    { intros x. destruct (Z.eqb_spec (- x) 0), (Z.eqb_spec x 0); lia. }
    rewrite !Hopp.
    destruct (Z.eqb_spec (mValue a) 0) as [Hz|Hz].
    { f_equal. symmetry. apply Z.ltb_ge. lia. }
    destruct (mValue b =? 0); [done|]. destruct (_ <? _); [done|]. destruct (_ <? _); [done|].
    destruct (Z.ltb_spec (mValue b) (mValue a)), (Z.ltb_spec (- mValue a) (- mValue b)),
      (Z.ltb_spec (mValue a) (mValue b)); try done; lia.
  - destruct (mValue a =? 0).
    { f_equal. destruct (Z.eqb_spec (mValue b) 0), (Z.ltb_spec 0 (mValue b)); simpl; done || lia. }
    destruct (mValue b =? 0); [done|]. destruct (_ <? _); [done|]. destruct (_ <? _); [done|].
    destruct (Z.ltb_spec (mValue b) (mValue a)), (Z.ltb_spec (mValue a) (mValue b)); try done; lia.
Qed.

Lemma st_neg_issued issue a :
  issued issue a → issued issue (st_neg a) ∧
  iou_neg (iou_view a) = Ret (iou_view (st_neg a)).
Proof.
  intros Ha. pose proof Ha as (Hc & Hn & Hi). destruct (issued_value _ _ Ha) as [Hv _].
  assert (Hneg : issued issue (st_neg a) ∧
                 iou_view (st_neg a) = mkIOU (- mantissa_ (iou_view a)) (mOffset a)).
  { unfold st_neg. unfold canonical in Hc. rewrite Hn in Hc. destruct Hc as [Hx Hc].
    destruct (Z.eqb_spec (mValue a) 0) as [Hz|Hz].
    - split; [done|]. unfold iou_view. simpl. rewrite Hz. by destruct (mIsNegative a).
    - split.
      + split; [|done]. unfold canonical. simpl. rewrite Hn. split; [done|]. right.
        destruct Hc as [[? _]|?]; done.
      + unfold iou_view. simpl. f_equal. destruct (mIsNegative a); simpl; lia. }
  destruct Hneg as [Hiss Hview]. split; [done|]. unfold iou_neg, iou_make.
  rewrite i64_small.
  - rewrite Hview. change (exponent_ (iou_view a)) with (mOffset a). rewrite <- Hview.
    apply normalize_id. by eapply iou_view_wf.
  - unfold iou_view, in_i64. simpl. st_consts. destruct (mIsNegative a); lia.
Qed.

Lemma st_eq_iou i1 i2 a b :
  issued i1 a → issued i2 b → currency i1 = currency i2 →
  st_eq a b = iou_eq (iou_view a) (iou_view b).
Proof.
  intros Ha Hb Hcur. pose proof (issued_negative _ _ Ha) as Na.
  pose proof (issued_negative _ _ Hb) as Nb.
  unfold st_eq, iou_eq, areComparable.
  destruct Ha as (_ & -> & ->), Hb as (_ & -> & ->).
  rewrite Hcur, Z.eqb_refl. cbn [Bool.eqb andb].
  unfold iou_view in *. cbn [mantissa_ exponent_] in *.
  rewrite (andb_comm (Bool.eqb _ _)), <- andb_assoc. f_equal.
  destruct (mIsNegative a), (mIsNegative b); cbn [Bool.eqb andb]; try done;
    rewrite ?Z.ltb_lt, ?Z.ltb_ge in *.
  - destruct (Z.eqb_spec (mValue a) (mValue b)), (Z.eqb_spec (- mValue a) (- mValue b)); lia || done.
  - symmetry. apply Z.eqb_neq. lia.
  - symmetry. apply Z.eqb_neq. lia.
Qed.

Lemma iou_of_view issue a : issued issue a → iou a = Ret (iou_view a).
Proof.
  intros Ha. unfold iou. rewrite (proj1 (proj2 Ha)).
  rewrite (signed_mantissa _ _ Ha). apply (normalize_id (iou_view a)).
  by eapply iou_view_wf.
Qed.

Lemma st_of_view issue a : issued issue a → st_of_iou (iou_view a) issue = Ret a.
Proof.
  intros Ha. pose proof (issued_negative _ _ Ha) as Hneg.
  destruct (issued_value _ _ Ha) as [Hv _]. destruct Ha as (Hc & Hn & Hi).
  unfold st_of_iou. 
  assert ((iou_signum (iou_view a) <? 0) = mIsNegative a) as ->.
  { rewrite <- Hneg. unfold iou_signum. destruct (mantissa_ (iou_view a) <? 0); [done|].
    by destruct (_ =? 0). }
  replace (u64 _) with (mValue a).
  2:{ unfold iou_view. simpl. st_consts.
      destruct (mIsNegative a); rewrite ?Z.opp_involutive, u64_small; done || unfold in_u64; lia. }
  unfold canonical in Hc. rewrite Hn, Hi in Hc. destruct Hc as [Hx Hc].
  destruct a as [ai av ao an ag]. simpl in *. subst.
  destruct Hc as [(-> & -> & ->)|[??]]; [|by apply canonicalize_id].
  unfold canonicalize. simpl. by rewrite Hx.
Qed.

(** on issued amounts of one currency [STAmount] is a refinement of
    [IOUAmount]: the conversions are inverse to each other, addition,
    subtraction and negation correspond (overflowing together), equality and
    order agree, and every result is canonical with the issue of the left
    operand. *)
Theorem STAmount_refines_IOUAmount (i1 i2 : Issue) (a b : STAmount)
    (Ha : issued i1 a) (Hb : issued i2 b) (Hcur : currency i1 = currency i2) :
  iou a = Ret (iou_view a) ∧ wf (iou_view a) ∧ st_of_iou (iou_view a) i1 = Ret a ∧
  agrees i1 (st_add a b) (iou_add (iou_view a) (iou_view b)) ∧
  agrees i1 (st_sub a b) (iou_sub (iou_view a) (iou_view b)) ∧
  agrees i1 (Ret (st_neg a)) (iou_neg (iou_view a)) ∧
  st_lt a b = Ret (iou_lt (iou_view a) (iou_view b)) ∧
  st_eq a b = iou_eq (iou_view a) (iou_view b).
Proof.
  destruct (st_neg_issued _ _ Ha) as [Hna Hnva], (st_neg_issued _ _ Hb) as [Hnb Hnvb].
  split; [by eapply iou_of_view|]. split; [by eapply iou_view_wf|].
  split; [by apply st_of_view|]. split; [by eapply st_add_agrees|].
  split. { unfold st_sub, iou_sub. rewrite Hnvb. by eapply st_add_agrees. }
  split; [by rewrite Hnva|]. split; [by eapply st_lt_iou|by eapply st_eq_iou].
Qed.

Lemma STAmount_refines_IOUAmount_witness :
  let a := mkAmount (mkIssue 7 8) 1500000000000000 (-15) false false in
  let b := mkAmount (mkIssue 7 9) 9000000000000000 (-15) false false in
  iou a = Ret (mkIOU 1500000000000000 (-15)) ∧
  agrees (mkIssue 7 8) (st_sub a b) (Ret (mkIOU (-7500000000000000) (-15))).
Proof.
  assert (issued (mkIssue 7 8) (mkAmount (mkIssue 7 8) 1500000000000000 (-15) false false)) as H1.
  { split; [|done]. split; [done|]. right. unfold cMinValue, cMaxValue, cMinOffset, cMaxOffset. simpl. lia. }
  assert (issued (mkIssue 7 9) (mkAmount (mkIssue 7 9) 9000000000000000 (-15) false false)) as H2.
  { split; [|done]. split; [done|]. right. unfold cMinValue, cMaxValue, cMinOffset, cMaxOffset. simpl. lia. }
  destruct (STAmount_refines_IOUAmount _ _ _ _ H1 H2 eq_refl) as (Hi & _ & _ & _ & Hs & _).
  split; [exact Hi|exact Hs].
Defined.

(** ** Native amounts refine [XRPAmount] *)

Definition drops_view (a : STAmount) : Z := if mIsNegative a then - mValue a else mValue a.

(** A native amount within the supply of the system. *)
Definition native_ok (a : STAmount) : Prop :=
  canonical a ∧ mIsNative a = true ∧ mValue a ≤ cMaxNativeN.

Lemma native_ok_inv a : native_ok a → ∃ v neg,
  a = mkAmount xrpIssue v 0 true neg ∧ 0 ≤ v ≤ cMaxNativeN ∧ (v = 0 → neg = false).
Proof.
  intros (Hc & Hn & Hv). unfold canonical in Hc. rewrite Hn in Hc.
  destruct Hc as (Hi & Ho & Hv' & Hz). destruct a as [ai v ao an neg]. simpl in *. subst.
  exists v, neg. split; [done|]. split; [lia|done].
Qed.

Lemma st_of_int64_drops d :
  Z.abs d < 2 ^ 62 →
  canonical (st_of_int64 d) ∧ mIsNative (st_of_int64 d) = true ∧ drops_view (st_of_int64 d) = d.
Proof.
  intros Hd. unfold st_of_int64, set, drops_view, canonical.
  destruct (Z.ltb_spec d 0); simpl; nowrap; (split; [|split; [done|lia]]);
    (split; [done|]); (split; [done|]); split; done || lia.
Qed.

Lemma xrp_drops c : canonical c → mIsNative c = true → xrp c = Ret (mkXRP (drops_view c)).
Proof.
  unfold canonical. intros Hc Hn. rewrite Hn in Hc. destruct Hc as (_ & _ & Hv & _).
  unfold xrp, drops_view. rewrite Hn, (i64_small (mValue c)) by (unfold in_i64; lia).
  destruct (mIsNegative c); [|done]. by rewrite i64_small by (unfold in_i64; lia).
Qed.

Lemma getSNValue_native a : native_ok a → getSNValue a = Ret (drops_view a).
Proof.
  intros (Hc & Hn & _). pose proof (xrp_drops a Hc Hn) as Hx. unfold xrp, getSNValue in *.
  rewrite Hn in *. by injection Hx as ->.
Qed.

Lemma st_add_native a b : native_ok a → native_ok b →
  ∃ c, st_add a b = Ret c ∧ canonical c ∧ mIsNative c = true ∧
    drops_view c = drops_view a + drops_view b.
Proof.
  intros Ha Hb. pose proof (getSNValue_native a Ha) as Hsa.
  pose proof (getSNValue_native b Hb) as Hsb. unfold st_add. rewrite Hsa, Hsb, !is_zero_value.
  pose proof Ha as [Hca _]. pose proof Hb as [Hcb _]. clear Hsa Hsb.
  destruct (native_ok_inv a Ha) as (v & neg & -> & Hv & Hz).
  destruct (native_ok_inv b Hb) as (v' & neg' & -> & Hv' & Hz'). simpl. unfold drops_view. simpl.
  destruct (Z.eqb_spec v' 0) as [->|Hn'].
  { eexists. split; [done|]. split; [done|]. split; [done|]. simpl.
    rewrite (Hz' eq_refl). lia. }
  destruct (Z.eqb_spec v 0) as [->|Hn].
  { exists (mkAmount xrpIssue v' 0 true neg'). split_and!; [|done|done|simpl; destruct neg; lia].
    unfold st_make, canonicalize. simpl. destruct (Z.eqb_spec v' 0); [done|].
    destruct (Z.ltb_spec cMaxNativeN v'); [lia|done]. }
  eexists. split; [reflexivity|]. rewrite i64_small by (unfold in_i64; st_consts; destruct neg, neg'; lia).
  apply st_of_int64_drops. st_consts. destruct neg, neg'; lia.
Qed.

Lemma st_of_xrp_native a : native_ok a → st_of_xrp (mkXRP (drops_view a)) = Ret a.
Proof.
  intros (v & neg & -> & Hv & Hz)%native_ok_inv.
  unfold st_of_xrp, drops_view, xrp_signum, canonicalize. simpl. st_consts.
  destruct neg.
  - assert (v ≠ 0) by (intros ->; discriminate (Hz eq_refl)).
    rewrite (proj2 (Z.ltb_lt (- v) 0)) by lia. rewrite Z.opp_involutive. simpl. nowrap.
    destruct (Z.eqb_spec v 0); [done|]. by destruct (Z.ltb_spec 100000000000000000 v); [lia|].
  - rewrite (proj2 (Z.ltb_ge v 0)) by lia.
    destruct (Z.eqb_spec v 0) as [->|]; [done|]. simpl. nowrap.
    destruct (Z.eqb_spec v 0); [done|]. by destruct (Z.ltb_spec 100000000000000000 v); [lia|].
Qed.

Lemma native_ok_neg a : native_ok a → native_ok (st_neg a) ∧ drops_view (st_neg a) = - drops_view a.
Proof.
  intros Ha. pose proof Ha as Ha'. apply native_ok_inv in Ha' as (v & neg & -> & Hv & Hz).
  unfold st_neg. simpl. destruct (Z.eqb_spec v 0) as [->|Hn].
  - rewrite (Hz eq_refl) in *. done.
  - split; [|unfold drops_view; simpl; destruct neg; simpl; lia].
    destruct Ha as (Hc & _ & Hm). unfold canonical in Hc. simpl in *.
    split; [|done]. unfold canonical. simpl. intuition lia.
Qed.

Lemma st_order_native a b : native_ok a → native_ok b →
  st_lt a b = Ret (drops_view a <? drops_view b) ∧ st_eq a b = (drops_view a =? drops_view b).
Proof.
  intros (v & neg & -> & Hv & Hz)%native_ok_inv (v' & neg' & -> & Hv' & Hz')%native_ok_inv.
  unfold st_lt, st_eq, drops_view. simpl.
  assert (Hdec : ∀ x y : Z, (x <? y) = bool_decide (x < y) ∧ (x =? y) = bool_decide (x = y)).
  { intros x y. split; [destruct (Z.ltb_spec x y)|destruct (Z.eqb_spec x y)];
      case_bool_decide; done || lia. }
  rewrite !(proj1 (Hdec _ _)), !(proj2 (Hdec _ _)).
  destruct neg, neg'; simpl; repeat case_bool_decide; simpl; auto with lia;
    try (discriminate (Hz ltac:(lia))); try (discriminate (Hz' ltac:(lia))).
Qed.

(** native amounts within the supply of the system refine [XRPAmount]: the
    conversions are inverse to each other, addition and subtraction are exact
    and canonical, and order and equality are those of the drops. *)
Theorem STAmount_refines_XRPAmount (a b : STAmount) (Ha : native_ok a) (Hb : native_ok b) :
  xrp a = Ret (mkXRP (drops_view a)) ∧ st_of_xrp (mkXRP (drops_view a)) = Ret a ∧
  (∃ c, st_add a b = Ret c ∧ canonical c ∧
     xrp c = Ret (xrp_add (mkXRP (drops_view a)) (mkXRP (drops_view b))) ∧
     drops_view c = drops_view a + drops_view b) ∧
  (∃ c, st_sub a b = Ret c ∧ canonical c ∧
     xrp c = Ret (xrp_sub (mkXRP (drops_view a)) (mkXRP (drops_view b))) ∧
     drops_view c = drops_view a - drops_view b) ∧
  st_lt a b = Ret (drops_view a <? drops_view b) ∧
  st_eq a b = (drops_view a =? drops_view b).
Proof.
  assert (Hbound : ∀ x, native_ok x → - cMaxNativeN ≤ drops_view x ≤ cMaxNativeN).
  { intros x (v & neg & -> & Hv & _)%native_ok_inv. unfold drops_view. simpl. destruct neg; lia. }
  pose proof (Hbound a Ha) as Hda. pose proof (Hbound b Hb) as Hdb.
  assert (Hi : ∀ z, - 2 * cMaxNativeN ≤ z ≤ 2 * cMaxNativeN → i64 z = z).
  { intros z Hz. apply i64_small. unfold in_i64. st_consts. lia. }
  split; [by apply xrp_drops; apply Ha|]. split.
  { by apply st_of_xrp_native. }
  destruct (native_ok_neg b Hb) as [Hnb Hnd].
  destruct (st_add_native a b Ha Hb) as (c & Hadd & Hc & Hn & Hd).
  destruct (st_add_native a (st_neg b) Ha Hnb) as (c' & Hadd' & Hc' & Hn' & Hd').
  rewrite Hnd, Z.add_opp_r in Hd'.
  split; [|split; [|by apply st_order_native]].
  - exists c. rewrite xrp_drops by done. unfold xrp_add. simpl.
    rewrite Hd, Hi by lia. done.
  - exists c'. rewrite xrp_drops by done. unfold xrp_sub. simpl.
    rewrite Hd', Hi by lia. done.
Qed.

Lemma STAmount_refines_XRPAmount_witness :
  st_lt (st_of_int64 (-5)) (st_of_int64 3) = Ret (-5 <? 3).
Proof.
  apply (STAmount_refines_XRPAmount (st_of_int64 (-5)) (st_of_int64 3));
    (split; [|split; [reflexivity|discriminate]]);
    (split; [reflexivity|]); (split; [reflexivity|]); (split; [|discriminate || reflexivity]);
    vm_compute; (split; [discriminate|reflexivity]).
Defined.

(** ** Rounding

    [mulRound] and [divRound] round an exact quotient [N / D], scaled by a power
    of ten, to an issued amount: away from zero when [roundUp] and the sign of
    the result say so, towards zero otherwise. *)

Lemma st_make_normal issue m e neg :
  isXRP (currency issue) = false → cMinValue ≤ m ≤ cMaxValue →
  st_make issue m e neg =
    if e <? cMinOffset then Ret (mkAmount issue 0 (-100) false false)
    else if cMaxOffset <? e then Throw (runtime_error "value overflow")
    else Ret (mkAmount issue m e false neg).
Proof.
  intros Hx Hm. unfold st_make.
  destruct (canonicalize_norm (mkAmount issue m e false neg) Hx) as (r & Hr & Hthrow & ->);
    simpl in *; [st_consts; lia|].
  destruct (norm_result_cases cMinValue cMinOffset cMaxOffset (runtime_error "") m e r
    ltac:(st_consts; lia) ltac:(done) ltac:(done) Hr) as (H1 & H2 & H3 & _).
  destruct (Z.ltb_spec e cMinOffset) as [He|He].
  { rewrite H1; [done|].
    pose proof (shift10_anti m 1 (cMinOffset - e) ltac:(st_consts; lia) ltac:(lia)) as Ha.
    rewrite (shift10_nonneg m 1) in Ha by (st_consts; lia).
    pose proof (Z.div_lt_upper_bound m (10 ^ 1) cMinValue ltac:(lia)). st_consts. lia. }
  destruct (Z.ltb_spec cMaxOffset e) as [He'|He'].
  - destruct H3 as [x ->]; [|by rewrite (Hthrow x)].
    rewrite shift10_neg by lia.
    pose proof (pow10_succ (- (cMaxOffset - e) - 1) ltac:(lia)) as Hp.
    rewrite Z.sub_add in Hp. rewrite Hp.
    pose proof (pow10_pos (- (cMaxOffset - e) - 1) ltac:(lia)). st_consts. nia.
  - specialize (H2 e). rewrite Z.sub_diag, shift10_0 in H2. by rewrite H2 by done.
Qed.

(** Truncating construction of a mantissa that is large enough. *)
Lemma st_make_trunc issue q off neg :
  isXRP (currency issue) = false → cMinValue ≤ q < 2 ^ 64 →
  match st_make issue q off neg with
  | Ret r => issued issue r ∧
      ((mValue r = 0 ∧ off ≤ cMinOffset ∧ q < cMinValue * 10 ^ (cMinOffset - off)) ∨
       (mIsNegative r = neg ∧ cMinValue ≤ mValue r ∧ ∃ j, 0 ≤ j ∧ mOffset r = off + j ∧
          mValue r * 10 ^ j ≤ q < (mValue r + 1) * 10 ^ j))
  | Throw x => x = runtime_error "value overflow"
  end.
Proof.
  intros Hx Hq. unfold st_make.
  destruct (canonicalize_norm (mkAmount issue q off false neg) Hx) as (r & Hr & Hthrow & ->);
    simpl in *; [st_consts; lia|].
  destruct Hr as [Hz|e He Hs|x _]; simpl; [..|by apply Hthrow].
  - split; [by apply issued_zero|]. left. split; [done|].
    destruct (Z.le_gt_cases (cMinOffset - off) 0).
    + rewrite shift10_neg in Hz by lia. pose proof (pow10_pos (- (cMinOffset - off)) ltac:(lia)).
      st_consts. nia.
    + rewrite shift10_nonneg in Hz by (st_consts; lia). split; [lia|].
      pose proof (pow10_pos (cMinOffset - off) ltac:(lia)).
      destruct (Z.lt_ge_cases q (cMinValue * 10 ^ (cMinOffset - off))) as [|Hge]; [done|].
      pose proof (Z.div_le_lower_bound q (10 ^ (cMinOffset - off)) cMinValue). lia.
  - assert (0 ≤ e - off) as Hj.
    { destruct (Z.le_gt_cases 0 (e - off)); [done|]. rewrite shift10_neg in Hs by lia.
      pose proof (pow10_succ (- (e - off) - 1) ltac:(lia)) as Hp. rewrite Z.sub_add in Hp.
      rewrite Hp in Hs. pose proof (pow10_pos (- (e - off) - 1) ltac:(lia)). st_consts. nia. }
    split.
    { split; [|done]. split; [exact Hx|]. right. simpl. unfold cMaxValue. unfold cMinValue in *. lia. }
    right. split; [done|]. split; [lia|]. exists (e - off). split; [done|]. split; [lia|].
    rewrite shift10_nonneg by (st_consts; lia).
    pose proof (pow10_pos (e - off) Hj). pose proof (Z.div_mod q (10 ^ (e - off)) ltac:(lia)).
    pose proof (Z.mod_pos_bound q (10 ^ (e - off)) ltac:(lia)). nia.
Qed.

(** The dividing loop of [canonicalizeRound]. *)
Lemma round_loop n v o :
  cMaxValue < v → v ≤ 10 * cMaxValue * 10 ^ Z.of_nat n →
  ∃ k, 0 ≤ k ∧
    loop (λ s : Z * Z, 10 * cMaxValue <? s.1) (λ s, (s.1 `quot` 10, s.2 + 1)) n (v, o)
      = (shift10 v k, o + k) ∧
    cMaxValue ≤ shift10 v k ≤ 10 * cMaxValue ∧ (v ≤ 10 * cMaxValue → k = 0).
Proof.
  intros Hlo. assert (Hge : cMaxValue ≤ v) by lia. clear Hlo. revert v o Hge.
  induction n as [|n IH]; intros v o Hge Hn.
  { exists 0. rewrite shift10_0, Z.add_0_r. simpl. simpl in Hn. auto with lia. }
  cbn [loop fst snd]. destruct (Z.ltb_spec (10 * cMaxValue) v).
  - rewrite Nat2Z.inj_succ, Z.pow_succ_r in Hn by lia.
    assert (Hq : v `quot` 10 = v `div` 10) by (apply Z.quot_div_nonneg; st_consts; lia).
    destruct (IH (v `quot` 10) (o + 1)) as (k & Hk & -> & Hb & _).
    { rewrite Hq. apply Z.div_le_lower_bound; lia. }
    { rewrite Hq. apply Z.div_le_upper_bound; lia. }
    exists (1 + k). change (v `quot` 10) with (shift10 v 1) in *.
    rewrite shift10_shift10 in * by (st_consts; lia). rewrite Z.add_assoc.
    split; [lia|]. split; [done|]. split; [done|lia].
  - exists 0. rewrite shift10_0, Z.add_0_r. auto with lia.
Qed.

(** [canonicalizeRound] on an issued amount: the mantissa becomes normal; it is
    less than a unit above the value, and can fall below it by less than a
    tenth of a unit (never, when at most one digit is dropped). *)
Lemma canonicalizeRound_issued v o :
  cMinValue ≤ v < 2 ^ 64 →
  ∃ m j, canonicalizeRound false v o = (m, o + j) ∧ 0 ≤ j ∧ cMinValue ≤ m ≤ cMaxValue ∧
    10 * v < (10 * m + 1) * 10 ^ j ∧ m * 10 ^ j < v + 10 ^ j ∧
    (v ≤ 10 * cMaxValue → v ≤ m * 10 ^ j).
Proof.
  intros Hv. unfold canonicalizeRound. destruct (Z.ltb_spec cMaxValue v) as [Hgt|Hle].
  2:{ exists v, 0. rewrite Z.add_0_r. split; [done|]. simpl. lia. }
  destruct (round_loop 20 v o Hgt) as (k & Hk & -> & Hb & Hk0).
  { st_consts. lia. }
  set (w := shift10 v k) in *.
  rewrite u64_small by (unfold in_u64; st_consts; lia).
  assert (Hq : (w + 9) `quot` 10 = (w + 9) `div` 10) by (apply Z.quot_div_nonneg; st_consts; lia).
  rewrite Hq. set (m := (w + 9) `div` 10).
  assert (Hm : 10 * m ≤ w + 9 < 10 * m + 10) by (unfold m; div_lia).
  exists m, (k + 1). rewrite Z.add_assoc.
  assert (Hw : w * 10 ^ k ≤ v < (w + 1) * 10 ^ k).
  { unfold w. rewrite shift10_nonneg by (st_consts; lia). pose proof (pow10_pos k Hk).
    pose proof (Z.div_mod v (10 ^ k) ltac:(lia)). pose proof (Z.mod_pos_bound v (10 ^ k)). nia. }
  pose proof (pow10_pos k Hk) as Hp. rewrite pow10_succ by done.
  split; [done|]. split; [lia|]. split; [st_consts; lia|].
  split; [clear - Hw Hm Hp; nia|]. split; [clear - Hw Hm Hp; nia|].
  intros ->%Hk0. simpl in *. lia.
Qed.

(** [rounded]: what the result of rounding [N / D * 10 ^ off] with sign [neg]
    must satisfy.  Either its mantissa brackets the quotient on the required
    side (up to a tenth of a unit when rounding away from zero), or the quotient
    is below the smallest amount and the result is zero, respectively that
    smallest amount when rounding a positive result up. *)
Definition rounded (issue : Issue) (N D off : Z) (neg roundUp so : bool)
    (res : outcome STAmount) : Prop :=
  match res with
  | Throw x => x = runtime_error "value overflow"
  | Ret r => issued issue r ∧
      ((mIsNegative r = neg ∧ cMinValue ≤ mValue r ∧ ∃ j, 0 ≤ j ∧ mOffset r = off + j ∧
          if Bool.eqb neg roundUp
          then mValue r * 10 ^ j * D ≤ N < (mValue r + 1) * 10 ^ j * D
          else 10 * N < (10 * mValue r + 1) * 10 ^ j * D ∧ mValue r * 10 ^ j * D < N + 10 ^ j * D)
       ∨ (off ≤ cMinOffset ∧ N < cMinValue * 10 ^ (cMinOffset - off) * D ∧
          r = if roundUp && negb neg && so then mkAmount issue cMinValue cMinOffset false false
              else mkAmount issue 0 (-100) false false))
  end.

Lemma issued_value_0 issue r :
  issued issue r → mValue r = 0 → r = mkAmount issue 0 (-100) false false.
Proof.
  intros (Hc & Hn & Hi) Hv. unfold canonical, zero_or_normal in Hc. rewrite Hn in Hc.
  destruct r; simpl in *. subst. destruct Hc as [_ [(_ & -> & ->)|?]]; [done|st_consts; lia].
Qed.

(** The correction at the end of [finishRound] turns a zero that should have
    been rounded up into the smallest amount. *)
Lemma rounded_correction so issue N D off neg roundUp res :
  isXRP (currency issue) = false →
  rounded issue N D off neg roundUp false res →
  rounded issue N D off neg roundUp so
    (result ← res;
     if roundUp && negb neg && is_zero result && so
     then st_make issue cMinValue cMinOffset neg else Ret result).
Proof.
  intros Hx. destruct res as [r|x]; [|done]. intros [Hr Hcases].
  cbn [mbind outcome_bind]. rewrite is_zero_value.
  destruct Hcases as [Hc|(Ho & HNs & ->)].
  - destruct (Z.eqb_spec (mValue r) 0) as [E|E].
    { destruct Hc as (_ & Hc & _). st_consts. lia. }
    rewrite andb_false_r. simpl. split; [done|]. by left.
  - rewrite andb_false_r. cbn [mValue]. rewrite Z.eqb_refl, andb_true_r.
    destruct (roundUp && negb neg && so) eqn:E.
    + rewrite st_make_normal by (done || st_consts; lia). simpl.
      apply andb_true_iff in E as [E ->]. apply andb_true_iff in E as [-> E].
      apply negb_true_iff in E as ->.
      split; [|right; done]. split; [|done]. split; [exact Hx|]. by right.
    + split; [by apply issued_zero|]. right. by rewrite E.
Qed.

Lemma finishRound_rounded so so2 issue N D off neg roundUp q :
  isXRP (currency issue) = false → 0 < D →
  (if Bool.eqb neg roundUp then q * D ≤ N < (q + 1) * D else (q - 1) * D < N ≤ q * D) →
  cMinValue ≤ q < 2 ^ 64 →
  rounded issue N D off neg roundUp so (finishRound so so2 issue q off neg roundUp).
Proof.
  intros Hx HD HN Hq. unfold finishRound. rewrite Hx. cbn [andb].
  destruct (Bool.eqb neg roundUp) eqn:Ed; cbn [negb].
  - apply rounded_correction; [done|].
    pose proof (st_make_trunc issue q off neg Hx Hq) as Ht.
    destruct (st_make issue q off neg) as [r|x]; [|done]. destruct Ht as [Hr Ht]. split; [done|].
    rewrite andb_false_r, Ed. destruct Ht as [(Hz & Ho & Hlt)|(Hn & Hv & j & Hj & Ho & Hb)].
    + right. split; [done|]. split; [nia|]. by apply issued_value_0.
    + left. split; [done|]. split; [done|]. exists j. split; [done|]. split; [done|].
      pose proof (pow10_pos j Hj). nia.
  - destruct (canonicalizeRound_issued q off Hq) as (m & j & -> & Hj & Hm & Hb1 & Hb2 & _).
    apply rounded_correction; [done|]. rewrite st_make_normal by done.
    pose proof (pow10_pos j Hj).
    destruct (Z.ltb_spec (off + j) cMinOffset) as [Hlow|Hlow].
    + split; [by apply issued_zero|]. right. rewrite andb_false_r.
      split; [lia|]. split; [|done].
      assert (10 * 10 ^ j ≤ 10 ^ (cMinOffset - off)).
      { rewrite <- pow10_succ by done. apply pow10_le. lia. }
      assert (q < cMinValue * 10 ^ (cMinOffset - off)); [|nia]. st_consts. nia.
    + destruct (Z.ltb_spec cMaxOffset (off + j)); [done|]. simpl.
      split. { split; [|done]. split; [exact Hx|]. right. simpl. lia. }
      left. split; [done|]. split; [lia|]. exists j. rewrite Ed.
      split; [done|]. split; [done|]. nia.
Qed.

(** Magnitudes, scaled by 10^100 so that every exponent is natural. *)
Definition st_ulp (a : STAmount) : Z := 10 ^ (mOffset a + 100).
Definition st_mag (a : STAmount) : Z := mValue a * st_ulp a.

(** The same specification for a quotient [A / B] of magnitudes. *)
Definition rounded_mag (issue : Issue) (A B : Z) (neg roundUp so : bool)
    (res : outcome STAmount) : Prop :=
  match res with
  | Throw x => x = runtime_error "value overflow"
  | Ret r => issued issue r ∧
      ((mIsNegative r = neg ∧ cMinValue ≤ mValue r ∧
          if Bool.eqb neg roundUp
          then st_mag r * B ≤ A < (st_mag r + st_ulp r) * B
          else 10 * A < (10 * st_mag r + st_ulp r) * B ∧ st_mag r * B < A + st_ulp r * B)
       ∨ (A < cMinValue * 10 ^ (cMinOffset + 100) * B ∧
          r = if roundUp && negb neg && so then mkAmount issue cMinValue cMinOffset false false
              else mkAmount issue 0 (-100) false false))
  end.

Lemma rounded_rounded_mag issue N D off neg roundUp so res A B s :
  0 < s → A = N * s →
  (∀ j, 0 ≤ j → 0 ≤ off + j + 100 → B * 10 ^ (off + j + 100) = D * s * 10 ^ j) →
  rounded issue N D off neg roundUp so res → rounded_mag issue A B neg roundUp so res.
Proof.
  intros Hs -> HB. destruct res as [r|x]; [|done]. intros [Hr Hc]. split; [done|].
  destruct Hc as [(Hn & Hv & j & Hj & Ho & Hb)|(Ho & Hlt & ->)].
  - left. split; [done|]. split; [done|].
    assert (0 ≤ off + j + 100) as Hpos.
    { destruct (canonical_offset r (proj1 Hr) (proj1 (proj2 Hr))); [st_consts; lia|].
      st_consts. lia. }
    specialize (HB j Hj Hpos). unfold st_mag, st_ulp. rewrite Ho.
    assert (E : ∀ x, x * 10 ^ (off + j + 100) * B = x * 10 ^ j * D * s).
    { intros x. transitivity (x * (B * 10 ^ (off + j + 100))); [ring|]. rewrite HB. ring. }
    pose proof (E 1) as E1. rewrite !Z.mul_1_l in E1.
    destruct (Bool.eqb neg roundUp).
    + rewrite E, Z.mul_add_distr_r, E, E1. nia.
    + set (P := 10 ^ (off + j + 100)) in *.
      replace ((10 * (mValue r * P) + P) * B) with (10 * (mValue r * P * B) + P * B) by ring.
      rewrite E, E1. nia.
  - right. split; [|done]. specialize (HB (cMinOffset - off) ltac:(lia)).
    replace (off + (cMinOffset - off) + 100) with (cMinOffset + 100) in HB by lia.
    specialize (HB ltac:(st_consts; lia)).
    rewrite <- Z.mul_assoc, (Z.mul_comm _ B), HB. nia.
Qed.

(** A non-zero operand: canonical and, when native, within the supply. *)
Definition operand (a : STAmount) : Prop :=
  canonical a ∧ mValue a ≠ 0 ∧ (mIsNative a = true → mValue a ≤ cMaxNativeN).

Lemma upscale_loop n v o :
  0 < v → cMinValue ≤ v * 10 ^ Z.of_nat n →
  ∃ k, 0 ≤ k ≤ Z.of_nat n ∧
    loop (λ s : Z * Z, s.1 <? cMinValue) (λ s, (u64 (s.1 * 10), s.2 - 1)) n (v, o)
      = (v * 10 ^ k, o - k) ∧
    cMinValue ≤ v * 10 ^ k ∧ (k = 0 ∨ v * 10 ^ k ≤ cMaxValue).
Proof.
  revert v o. induction n as [|n IH]; intros v o Hv Hn.
  { exists 0. rewrite Z.sub_0_r, Z.mul_1_r. simpl in *. rewrite Z.mul_1_r in Hn. auto with lia. }
  cbn [loop fst snd]. destruct (Z.ltb_spec v cMinValue) as [Hlt|Hge].
  - rewrite Nat2Z.inj_succ, Z.pow_succ_r in Hn by lia.
    rewrite u64_small by (unfold in_u64; st_consts; lia).
    destruct (IH (v * 10) (o - 1)) as (k & Hk & -> & Hlo & Hhi); [lia|lia|].
    exists (k + 1). rewrite pow10_succ by lia. rewrite !Z.mul_assoc in *.
    split; [lia|]. split; [f_equal; lia|]. split; [done|]. right.
    destruct Hhi as [->|?]; [|done]. st_consts. lia.
  - exists 0. rewrite Z.sub_0_r, Z.mul_1_r. auto with lia.
Qed.

(** The operand loops keep the magnitude and give a mantissa of at least 10^15. *)
Lemma upscale_operand a :
  operand a → ∃ M O, upscale (mIsNative a) (mValue a, mOffset a) = (M, O) ∧
    cMinValue ≤ M ≤ (if mIsNative a then cMaxNativeN else cMaxValue) ∧
    cMinOffset ≤ O ≤ cMaxOffset ∧ st_mag a = M * 10 ^ (O + 100).
Proof.
  intros (Hc & Hv & Hmax). unfold upscale, st_mag, st_ulp. destruct (mIsNative a) eqn:Hn.
  - unfold canonical in Hc. rewrite Hn in Hc. destruct Hc as (_ & -> & Hb & _).
    specialize (Hmax eq_refl).
    destruct (upscale_loop 16 (mValue a) 0) as (k & Hk & -> & Hlo & Hhi); [lia|st_consts; lia|].
    exists (mValue a * 10 ^ k), (0 - k). split; [done|].
    split; [destruct Hhi as [->|]; st_consts; lia|]. split; [st_consts; lia|].
    rewrite <- Z.mul_assoc, <- Z.pow_add_r by lia. do 2 f_equal. lia.
  - exists (mValue a), (mOffset a). split; [done|].
    destruct (canonical_offset a Hc Hn Hv). split; [|done]. lia.
Qed.

Lemma operand_not_zero a : operand a → is_zero a = false.
Proof. intros (_ & Hv & _). rewrite is_zero_value. by apply Z.eqb_neq. Qed.

Lemma ceil_bounds N D : 0 < D → ((N + (D - 1)) `div` D - 1) * D < N ≤ (N + (D - 1)) `div` D * D.
Proof.
  intros HD. pose proof (Z.div_mod (N + (D - 1)) D ltac:(lia)).
  pose proof (Z.mod_pos_bound (N + (D - 1)) D HD). nia.
Qed.

Lemma floor_bounds N D : 0 < D → N `div` D * D ≤ N < (N `div` D + 1) * D.
Proof.
  intros HD. pose proof (Z.div_mod N D ltac:(lia)). pose proof (Z.mod_pos_bound N D HD). nia.
Qed.

(** The 128-bit quotient of the two rounding routines fits in 64 bits. *)
Lemma muldiv_round_bounds a b D rnd lo hi :
  0 < D → (rnd = 0 ∨ rnd = D - 1) → lo * D ≤ a * b → a * b ≤ hi * D → hi + 1 < 2 ^ 64 →
  ∃ q, muldiv_round a b D rnd = Ret q ∧ lo ≤ q ≤ hi + 1 ∧
    (rnd = 0 → q * D ≤ a * b < (q + 1) * D) ∧
    (rnd = D - 1 → (q - 1) * D < a * b ≤ q * D).
Proof.
  intros HD Hrnd Hlo Hhi H64. unfold muldiv_round.
  exists ((a * b + rnd) `div` D).
  assert (Hq : lo ≤ (a * b + rnd) `div` D ≤ hi + 1).
  { split; [apply Z.div_le_lower_bound; lia|].
    destruct (Z.le_gt_cases ((a * b + rnd) `div` D) (hi + 1)) as [|Hgt]; [done|].
    pose proof (floor_bounds (a * b + rnd) D HD). nia. }
  destruct (Z.ltb_spec (2 ^ 64 - 1) ((a * b + rnd) `div` D)); [lia|].
  split; [done|]. split; [done|]. split; intros ->.
  - rewrite Z.add_0_r. by apply floor_bounds.
  - by apply ceil_bounds.
Qed.

Lemma divRound_rounded so so2 num den issue roundUp :
  isXRP (currency issue) = false → operand num → operand den →
  rounded_mag issue (st_mag num * 10 ^ 100) (st_mag den)
    (negb (Bool.eqb (mIsNegative num) (mIsNegative den))) roundUp so
    (divRound so so2 num den issue roundUp).
Proof.
  intros Hx Hn Hd. unfold divRound. rewrite !operand_not_zero by done.
  destruct (upscale_operand num Hn) as (M1 & O1 & -> & HM1 & HO1 & ->).
  destruct (upscale_operand den Hd) as (M2 & O2 & -> & HM2 & HO2 & ->).
  assert (Hb1 : cMinValue ≤ M1 ≤ cMaxNativeN) by (destruct (mIsNative num); st_consts; lia).
  assert (Hb2 : cMinValue ≤ M2 ≤ cMaxNativeN) by (destruct (mIsNative den); st_consts; lia).
  clear HM1 HM2. set (neg := negb _). clearbody neg.
  destruct (muldiv_round_bounds M1 tenTo17 M2
    (if negb (Bool.eqb neg roundUp) then M2 - 1 else 0) cMinValue (100 * tenTo17))
    as (q & -> & Hq & Hq0 & Hq1).
  { st_consts. lia. }
  { destruct (Bool.eqb neg roundUp); auto. }
  { unfold tenTo17, tenTo14. st_consts. lia. }
  { unfold tenTo17, tenTo14. st_consts. lia. }
  { unfold tenTo17, tenTo14. st_consts. lia. }
  cbn [mbind outcome_bind].
  apply (rounded_rounded_mag issue (M1 * tenTo17) M2 (O1 - O2 - 17) _ _ _ _ _ _ (10 ^ (O1 + 183))).
  - apply pow10_pos. st_consts. lia.
  - change tenTo17 with (10 ^ 17). rewrite <- !Z.mul_assoc, <- !Z.pow_add_r by (st_consts; lia).
    do 2 f_equal. lia.
  - intros j Hj Hpos. rewrite <- !Z.mul_assoc, <- !Z.pow_add_r by (st_consts; lia).
    do 2 f_equal. lia.
  - apply finishRound_rounded; [done|st_consts; lia| |unfold tenTo17, tenTo14 in *; st_consts; lia].
    destruct (Bool.eqb neg roundUp); simpl in Hq0, Hq1; [by apply Hq0|by apply Hq1].
Qed.

Lemma mulRound_rounded so so2 v1 v2 issue roundUp :
  isXRP (currency issue) = false → operand v1 → operand v2 →
  mIsNative v1 && mIsNative v2 = false →
  rounded_mag issue (st_mag v1 * st_mag v2) (10 ^ 100)
    (negb (Bool.eqb (mIsNegative v1) (mIsNegative v2))) roundUp so
    (mulRound so so2 v1 v2 issue roundUp).
Proof.
  intros Hx H1 H2 Hnn. unfold mulRound. rewrite !operand_not_zero, Hnn by done. cbn [orb andb].
  destruct (upscale_operand v1 H1) as (M1 & O1 & -> & HM1 & HO1 & ->).
  destruct (upscale_operand v2 H2) as (M2 & O2 & -> & HM2 & HO2 & ->).
  assert (HM : cMinValue ≤ M1 ∧ cMinValue ≤ M2 ∧ M1 * M2 ≤ cMaxNativeN * cMaxValue).
  { destruct (mIsNative v1), (mIsNative v2); st_consts; try done; nia. }
  clear HM1 HM2. set (neg := negb _). clearbody neg.
  destruct (muldiv_round_bounds M1 M2 tenTo14
    (if negb (Bool.eqb neg roundUp) then tenTo14m1 else 0) cMinValue (100 * tenTo17))
    as (q & -> & Hq & Hq0 & Hq1).
  { done. }
  { destruct (Bool.eqb neg roundUp); auto. }
  { unfold tenTo14. st_consts. nia. }
  { unfold tenTo17, tenTo14. st_consts. lia. }
  { unfold tenTo17, tenTo14. lia. }
  cbn [mbind outcome_bind].
  apply (rounded_rounded_mag issue (M1 * M2) tenTo14 (O1 + O2 + 14) _ _ _ _ _ _
    (10 ^ (O1 + O2 + 200))).
  - apply pow10_pos. st_consts. lia.
  - transitivity (M1 * M2 * (10 ^ (O1 + 100) * 10 ^ (O2 + 100))); [ring|].
    rewrite <- Z.pow_add_r by (st_consts; lia). do 2 f_equal. lia.
  - intros j Hj Hpos. change tenTo14 with (10 ^ 14).
    rewrite <- !Z.pow_add_r by (st_consts; lia). f_equal. lia.
  - apply finishRound_rounded; [done|done| |unfold tenTo17, tenTo14 in *; st_consts; lia].
    destruct (Bool.eqb neg roundUp); simpl in Hq0, Hq1; [by apply Hq0|by apply Hq1].
Qed.

(** [mulRound] and [divRound] with an issued result.  Rounding towards zero
    gives the largest representable amount that is not above the exact result.
    Rounding away from zero gives less than one unit above it, and at most a
    tenth of a unit below it.  A result below the smallest amount is zero, or
    that smallest amount when a positive result is rounded up; the only
    exception is the overflow. *)
Theorem rounding_correct (so so2 : bool) (a b : STAmount) (issue : Issue) (roundUp : bool)
    (Hx : isXRP (currency issue) = false) (Ha : operand a) (Hb : operand b) :
  let neg := negb (Bool.eqb (mIsNegative a) (mIsNegative b)) in
  rounded_mag issue (st_mag a * 10 ^ 100) (st_mag b) neg roundUp so
    (divRound so so2 a b issue roundUp) ∧
  (mIsNative a && mIsNative b = false →
   rounded_mag issue (st_mag a * st_mag b) (10 ^ 100) neg roundUp so
     (mulRound so so2 a b issue roundUp)).
Proof. split; [by apply divRound_rounded|intros; by apply mulRound_rounded]. Qed.

Lemma rounding_correct_witness :
  let two := mkAmount (mkIssue 7 8) 2000000000000000 (-15) false false in
  let three := mkAmount (mkIssue 7 8) 3000000000000000 (-15) false false in
  rounded_mag (mkIssue 7 8) (st_mag two * 10 ^ 100) (st_mag three) false true true
    (Ret (mkAmount (mkIssue 7 8) 6666666666666667 (-16) false false)).
Proof.
  assert (H : ∀ v, cMinValue ≤ v ≤ cMaxValue →
    operand (mkAmount (mkIssue 7 8) v (-15) false false)).
  { intros v Hv. split; [|split; [simpl; st_consts; lia|done]].
    split; [done|]. right. split; [done|]. unfold cMinOffset, cMaxOffset. simpl. lia. }
  intros two three.
  assert (E : divRound true true two three (mkIssue 7 8) true
    = Ret (mkAmount (mkIssue 7 8) 6666666666666667 (-16) false false))
    by (vm_compute; reflexivity).
  rewrite <- E.
  exact (proj1 (rounding_correct true true two three (mkIssue 7 8) true eq_refl
    (H 2000000000000000 ltac:(st_consts; lia)) (H 3000000000000000 ltac:(st_consts; lia)))).
Defined.

(** the tenth of a unit is real: [canonicalizeRound] truncates digits before
    it adds its rounding term, so [mulRound] can return less than the exact
    product when it is asked to round up. *)
Theorem mulRound_roundUp_low :
  let a := mkAmount (mkIssue 7 8) 2000000000000002 0 false false in
  let b := mkAmount (mkIssue 7 8) 5000000000000005 0 false false in
  ∃ r, mulRound true true a b (mkIssue 7 8) true = Ret r ∧
    st_mag r * 10 ^ 100 < st_mag a * st_mag b.
Proof.
  exists (mkAmount (mkIssue 7 8) 1000000000000002 16 false false).
  split; vm_compute; reflexivity.
Qed.

(** ** Unrounded multiplication and division *)

(** Within one unit of the exact quotient [A / B]. *)
Definition nearest (issue : Issue) (A B : Z) (neg : bool) (res : outcome STAmount) : Prop :=
  match res with
  | Throw x => x = runtime_error "value overflow"
  | Ret r => issued issue r ∧
      ((mIsNegative r = neg ∧ cMinValue ≤ mValue r ∧
          Z.abs (st_mag r * B - A) < st_ulp r * B)
       ∨ (A < cMinValue * 10 ^ (cMinOffset + 100) * B ∧ mValue r = 0))
  end.

(** Adding less than ten before at least one digit is dropped. *)
Lemma st_make_nearest issue N D off neg q c A B s :
  isXRP (currency issue) = false → 0 < D → q * D ≤ N < (q + 1) * D →
  cMaxValue < q → q + 10 < 2 ^ 64 → 0 < c < 10 →
  0 < s → A = N * s →
  (∀ j, 0 ≤ j → 0 ≤ off + j + 100 → B * 10 ^ (off + j + 100) = D * s * 10 ^ j) →
  nearest issue A B neg (st_make issue (u64 (q + c)) off neg).
Proof.
  intros Hx HD HN Hlo Hhi Hc Hs -> HB.
  rewrite u64_small by (unfold in_u64; st_consts; lia).
  pose proof (st_make_trunc issue (q + c) off neg Hx ltac:(st_consts; lia)) as Ht.
  destruct (st_make issue (q + c) off neg) as [r|x]; [|done]. destruct Ht as [Hr Ht].
  split; [done|]. destruct Ht as [(Hz & Ho & Hlt)|(Hn & Hv & j & Hj & Ho & Hb)].
  - right. split; [|done]. specialize (HB (cMinOffset - off) ltac:(lia)).
    replace (off + (cMinOffset - off) + 100) with (cMinOffset + 100) in HB by lia.
    specialize (HB ltac:(st_consts; lia)). rewrite <- Z.mul_assoc, (Z.mul_comm _ B), HB.
    set (P := 10 ^ (cMinOffset - off)) in *. set (V := cMinValue) in *.
    replace (V * (D * s * P)) with (V * P * D * s) by ring.
    apply Z.mul_lt_mono_pos_r; [done|]. nia.
  - left. split; [done|]. split; [done|].
    destruct (canonical_offset r (proj1 Hr) (proj1 (proj2 Hr))) as [Hv' Ho'];
      [st_consts; lia|].
    assert (0 ≤ off + j + 100) as Hpos by (st_consts; lia).
    assert (1 ≤ j) as Hj1.
    { destruct (Z.eq_dec j 0) as [->|]; [|lia]. simpl in Hb. lia. }
    specialize (HB j Hj Hpos). unfold st_mag, st_ulp. rewrite Ho.
    replace (mValue r * 10 ^ (off + j + 100) * B) with (mValue r * (B * 10 ^ (off + j + 100)))
      by ring.
    rewrite (Z.mul_comm _ B), HB. clear HB.
    replace (mValue r * (D * s * 10 ^ j) - N * s) with ((mValue r * 10 ^ j * D - N) * s) by ring.
    replace (D * s * 10 ^ j) with (10 ^ j * D * s) by ring.
    rewrite Z.abs_mul, (Z.abs_eq s) by lia. apply Z.mul_lt_mono_pos_r; [done|].
    assert (10 ^ 1 ≤ 10 ^ j) by (apply pow10_le; lia). nia.
Qed.

Lemma muldiv_bounds a b D lo hi :
  0 < D → lo * D ≤ a * b → a * b ≤ hi * D → hi < 2 ^ 64 →
  ∃ q, muldiv a b D = Ret q ∧ lo ≤ q ≤ hi ∧ q * D ≤ a * b < (q + 1) * D.
Proof.
  intros HD Hlo Hhi H64. unfold muldiv. exists ((a * b) `div` D).
  assert (lo ≤ (a * b) `div` D ≤ hi).
  { split; [apply Z.div_le_lower_bound; lia|]. apply Z.div_le_upper_bound; lia. }
  destruct (Z.ltb_spec (2 ^ 64 - 1) ((a * b) `div` D)); [lia|].
  split; [done|]. split; [done|]. by apply floor_bounds.
Qed.

(** A divisor of at most 16 digits: every issued amount, and every native one
    below 10^16 drops. *)
Definition divisor (a : STAmount) : Prop := operand a ∧ mValue a ≤ cMaxValue.

Lemma divide_nearest num den issue :
  isXRP (currency issue) = false → operand num → divisor den →
  nearest issue (st_mag num * 10 ^ 100) (st_mag den)
    (negb (Bool.eqb (mIsNegative num) (mIsNegative den))) (divide num den issue).
Proof.
  intros Hx Hn [Hd Hdmax]. unfold divide. rewrite !operand_not_zero by done.
  destruct (upscale_operand num Hn) as (M1 & O1 & -> & HM1 & HO1 & ->).
  assert (∃ M2 O2, upscale (mIsNative den) (mValue den, mOffset den) = (M2, O2) ∧
    cMinValue ≤ M2 ≤ cMaxValue ∧ cMinOffset ≤ O2 ≤ cMaxOffset ∧
    st_mag den = M2 * 10 ^ (O2 + 100)) as (M2 & O2 & -> & HM2 & HO2 & ->).
  { destruct (upscale_operand den Hd) as (M2 & O2 & E & HM2 & HO2 & Hm).
    exists M2, O2. split; [done|]. split; [|done]. unfold upscale in E.
    destruct (mIsNative den) eqn:Hnat; [|lia].
    destruct (upscale_loop 16 (mValue den) (mOffset den)) as (k & _ & Hl & _ & Hk).
    { destruct Hd as (Hc & Hv & _). unfold canonical in Hc. rewrite Hnat in Hc. lia. }
    { destruct Hd as (Hc & Hv & _). unfold canonical in Hc. rewrite Hnat in Hc. st_consts. lia. }
    rewrite E in Hl. injection Hl as -> ->. destruct Hk as [->|?]; lia. }
  assert (Hb1 : cMinValue ≤ M1 ≤ cMaxNativeN) by (destruct (mIsNative num); st_consts; lia).
  clear HM1.
  destruct (muldiv_bounds M1 tenTo17 M2 (10 * cMinValue) (100 * tenTo17)) as (q & -> & Hq & HqN);
    [unfold tenTo17, tenTo14; st_consts; lia..|].
  cbn [mbind outcome_bind].
  eapply (st_make_nearest issue (M1 * tenTo17) M2 (O1 - O2 - 17) _ q 5 _ _ (10 ^ (O1 + 183)));
    try done; unfold tenTo17, tenTo14 in *; [st_consts; lia..| | |].
  - apply pow10_pos. st_consts. lia.
  - change (100000000000000 * 1000) with (10 ^ 17).
    rewrite <- !Z.mul_assoc, <- !Z.pow_add_r by (st_consts; lia). do 2 f_equal. lia.
  - intros j Hj Hpos. rewrite <- !Z.mul_assoc, <- !Z.pow_add_r by (st_consts; lia).
    do 2 f_equal. lia.
Qed.

Lemma multiply_nearest v1 v2 issue :
  isXRP (currency issue) = false → operand v1 → operand v2 →
  mIsNative v1 && mIsNative v2 = false →
  nearest issue (st_mag v1 * st_mag v2) (10 ^ 100)
    (negb (Bool.eqb (mIsNegative v1) (mIsNegative v2))) (multiply v1 v2 issue).
Proof.
  intros Hx H1 H2 Hnn. unfold multiply. rewrite !operand_not_zero, Hnn by done. cbn [orb andb].
  destruct (upscale_operand v1 H1) as (M1 & O1 & -> & HM1 & HO1 & ->).
  destruct (upscale_operand v2 H2) as (M2 & O2 & -> & HM2 & HO2 & ->).
  assert (HM : cMinValue ≤ M1 ∧ cMinValue ≤ M2 ∧ M1 * M2 ≤ cMaxNativeN * cMaxValue).
  { destruct (mIsNative v1), (mIsNative v2); st_consts; try done; nia. }
  clear HM1 HM2.
  destruct (muldiv_bounds M1 M2 tenTo14 (10 * cMinValue) (100 * tenTo17))
    as (q & -> & Hq & HqN).
  { done. }
  { unfold tenTo14. st_consts. nia. }
  { unfold tenTo17, tenTo14. st_consts. lia. }
  { done. }
  cbn [mbind outcome_bind].
  eapply (st_make_nearest issue (M1 * M2) tenTo14 (O1 + O2 + 14) _ q 7 _ _ (10 ^ (O1 + O2 + 200)));
    try done.
  - st_consts. lia.
  - unfold tenTo17, tenTo14 in *. lia.
  - apply pow10_pos. st_consts. lia.
  - transitivity (M1 * M2 * (10 ^ (O1 + 100) * 10 ^ (O2 + 100))); [ring|].
    rewrite <- Z.pow_add_r by (st_consts; lia). do 2 f_equal. lia.
  - intros j Hj Hpos. change tenTo14 with (10 ^ 14).
    rewrite <- !Z.pow_add_r by (st_consts; lia). f_equal. lia.
Qed.

(** [multiply] and [divide] with an issued result are within one unit of the
    exact product and quotient, have the right sign, give zero only below the
    smallest amount, and throw nothing but the overflow. *)
Theorem multiply_divide_correct (a b : STAmount) (issue : Issue)
    (Hx : isXRP (currency issue) = false) (Ha : operand a) (Hb : divisor b) :
  let neg := negb (Bool.eqb (mIsNegative a) (mIsNegative b)) in
  nearest issue (st_mag a * 10 ^ 100) (st_mag b) neg (divide a b issue) ∧
  (mIsNative a && mIsNative b = false →
   nearest issue (st_mag a * st_mag b) (10 ^ 100) neg (multiply a b issue)).
Proof. split; [by apply divide_nearest|intros; apply multiply_nearest; try done; apply Hb]. Qed.

Lemma multiply_divide_correct_witness :
  let a := mkAmount (mkIssue 7 8) 2000000000000000 (-15) false false in
  nearest noIssue (st_mag a * 10 ^ 100) (st_mag a)
    (negb (Bool.eqb (mIsNegative a) (mIsNegative a))) (divide a a noIssue).
Proof.
  intros a.
  assert (H : operand a).
  { split; [|split; [discriminate|done]]. split; [done|]. right.
    vm_compute. repeat split; discriminate. }
  assert (Hd : divisor a) by (split; [exact H|discriminate]).
  destruct (multiply_divide_correct a a noIssue eq_refl H Hd) as [Hq _]. exact Hq.
Defined.
