(* ===== verification/Quality.v ===== *)
(** * Quality and Rate: exchange rates and transfer rates

    Model of [src/src/ripple/protocol/Quality.h],
    [src/src/ripple/protocol/impl/Quality.cpp] and
    [src/src/ripple/protocol/impl/Rate2.cpp].  A quality is the 64-bit key under
    which offers are sorted; [getRate] and [amountFromQuality] of [STAmount]
    encode and decode it.  The two flags [so] and [so2] are the values of
    [stAmountCalcSwitchover] and [stAmountCalcSwitchover2] during the call.
    [Quality::round] is not modelled: its body in this tree is not C++. *)

From stdpp Require Import base numbers list strings.
From Stdlib Require Import Lia ZArith.
From S2P Require Import Prelude IOUAmount XRPAmount Serializer STAmount.

Local Open Scope Z_scope.

(** ** Data *)

Record Amounts : Type := mkAmounts { am_in : STAmount; am_out : STAmount }.

(** [empty]: one of the amounts is not positive. *)
Definition amounts_empty (a : Amounts) : bool :=
  (st_signum (am_in a) <=? 0) || (st_signum (am_out a) <=? 0).

Definition amounts_add (l r : Amounts) : outcome Amounts :=
  i ← st_add (am_in l) (am_in r); o ← st_add (am_out l) (am_out r); Ret (mkAmounts i o).

Definition amounts_sub (l r : Amounts) : outcome Amounts :=
  i ← st_sub (am_in l) (am_in r); o ← st_sub (am_out l) (am_out r); Ret (mkAmounts i o).

Definition amounts_eq (l r : Amounts) : bool :=
  st_eq (am_in l) (am_in r) && st_eq (am_out l) (am_out r).

Record Quality : Type := mkQuality { m_value : Z }.

Definition quality_of (amount : Amounts) : Quality :=
  mkQuality (getRate (am_out amount) (am_in amount)).

(** The order is inverted: a lower value is a better quality. *)
Definition quality_lt (l r : Quality) : bool := m_value r <? m_value l.
Definition quality_eq (l r : Quality) : bool := m_value l =? m_value r.
Definition quality_incr (q : Quality) : Quality := mkQuality (u64 (m_value q - 1)).
Definition quality_decr (q : Quality) : Quality := mkQuality (u64 (m_value q + 1)).

Definition rate (q : Quality) : outcome STAmount := amountFromQuality (m_value q).

Section Ceil.
Context (so so2 : bool).

Definition ceil_in (q : Quality) (amount : Amounts) (limit : STAmount) : outcome Amounts :=
  above ← st_lt limit (am_in amount);
  if above : bool then
    r ← rate q;
    out ← divRound so so2 limit r (mIssue (am_out amount)) true;
    clamp ← st_lt (am_out amount) out;
    Ret (mkAmounts limit (if clamp : bool then am_out amount else out))
  else Ret amount.

Definition ceil_out (q : Quality) (amount : Amounts) (limit : STAmount) : outcome Amounts :=
  above ← st_lt limit (am_out amount);
  if above : bool then
    r ← rate q;
    inn ← mulRound so so2 limit r (mIssue (am_in amount)) true;
    clamp ← st_lt (am_in amount) inn;
    Ret (mkAmounts (if clamp : bool then am_in amount else inn) limit)
  else Ret amount.

Definition composed_quality (lhs rhs : Quality) : outcome Quality :=
  lhs_rate ← rate lhs;
  rhs_rate ← rate rhs;
  r ← mulRound so so2 lhs_rate rhs_rate (mIssue lhs_rate) true;
  let stored_exponent := u64 (mOffset r + 100) in
  Ret (mkQuality (Z.lor (u64 (stored_exponent ≪ (64 - 8))) (mValue r))).
End Ceil.

(** ** Transfer rates, in billionths *)

Definition QUALITY_ONE : Z := 1000000000.
Definition parityRate : Z := QUALITY_ONE.

Definition as_amount (rate : Z) : outcome STAmount := st_make noIssue rate (-9) false.

Definition rate_multiply (amount : STAmount) (rate : Z) : outcome STAmount :=
  if rate =? parityRate then Ret amount
  else r ← as_amount rate; multiply amount r (mIssue amount).

Definition rate_divide (amount : STAmount) (rate : Z) : outcome STAmount :=
  if rate =? parityRate then Ret amount
  else r ← as_amount rate; divide amount r (mIssue amount).

Definition multiplyRound (so so2 : bool) (amount : STAmount) (rate : Z) (issue : Issue)
    (roundUp : bool) : outcome STAmount :=
  if rate =? parityRate then Ret amount
  else r ← as_amount rate; mulRound so so2 amount r issue roundUp.

Definition divideRound (so so2 : bool) (amount : STAmount) (rate : Z) (issue : Issue)
    (roundUp : bool) : outcome STAmount :=
  if rate =? parityRate then Ret amount
  else r ← as_amount rate; divRound so so2 amount r issue roundUp.

(** ** The rate encoding *)

(** A positive canonical amount without an issue: what a quality stands for. *)
Definition positive_rate (r : STAmount) : Prop :=
  issued noIssue r ∧ mValue r ≠ 0 ∧ mIsNegative r = false.

Definition st_rate (r : STAmount) : Z := (mOffset r + 100) * 2 ^ 56 + mValue r.

Lemma positive_rate_bounds r :
  positive_rate r →
  cMinValue ≤ mValue r ≤ cMaxValue ∧ cMinOffset ≤ mOffset r ≤ cMaxOffset ∧
  r = mkAmount noIssue (mValue r) (mOffset r) false false.
Proof.
  intros ((Hc & Hn & Hi) & Hv & Hneg). destruct (canonical_offset r Hc Hn Hv).
  split; [done|]. split; [done|]. destruct r; simpl in *. by subst.
Qed.

Lemma rate_word r :
  positive_rate r →
  Z.lor (u64 (u64 (mOffset r + 100) ≪ (64 - 8))) (mValue r) = st_rate r ∧ in_u64 (st_rate r).
Proof.
  intros (Hv & Ho & _)%positive_rate_bounds. unfold st_rate, in_u64. st_consts.
  rewrite (u64_small (mOffset r + 100)) by (unfold in_u64; lia).
  rewrite Z.shiftl_mul_pow2 by lia. rewrite u64_small by (unfold in_u64; lia).
  change (64 - 8) with 56. rewrite lor_fields by lia. lia.
Qed.

Lemma amountFromQuality_rate r :
  positive_rate r → amountFromQuality (st_rate r) = Ret r.
Proof.
  intros (Hv & Ho & Hr)%positive_rate_bounds. unfold amountFromQuality, st_rate. st_consts.
  destruct (Z.eqb_spec ((mOffset r + 100) * 2 ^ 56 + mValue r) 0); [lia|].
  change (Z.lxor (255 ≪ (64 - 8)) (2 ^ 64 - 1)) with (Z.ones 56). change (64 - 8) with 56.
  rewrite land_fields, shiftr_fields by lia. rewrite Z.add_simpl_r.
  unfold st_make. rewrite canonicalize_id; [by rewrite <- Hr|done|st_consts; lia..].
Qed.

(** Exponent first, then mantissa: the order of the keys is the order of the
    rates. *)
Lemma st_rate_order r1 r2 :
  positive_rate r1 → positive_rate r2 → st_rate r1 < st_rate r2 ↔ st_mag r1 < st_mag r2.
Proof.
  intros (Hv1 & Ho1 & _)%positive_rate_bounds (Hv2 & Ho2 & _)%positive_rate_bounds.
  unfold st_rate, st_mag, st_ulp. st_consts.
  assert (Hstep : ∀ o o' v v', o < o' → -100 ≤ o → 0 < v ≤ 9999999999999999 →
    1000000000000000 ≤ v' → v * 10 ^ (o + 100) < v' * 10 ^ (o' + 100)).
  { intros o o' v v' Hlt Hlo Hv Hv'. pose proof (pow10_pos (o + 100) ltac:(lia)).
    assert (10 * 10 ^ (o + 100) ≤ 10 ^ (o' + 100)); [|nia].
    rewrite <- pow10_succ by lia. apply pow10_le. lia. }
  destruct (Z.lt_trichotomy (mOffset r1) (mOffset r2)) as [Hlt|[Heq|Hgt]].
  - pose proof (Hstep _ _ (mValue r1) (mValue r2) Hlt). lia.
  - rewrite Heq. pose proof (pow10_pos (mOffset r2 + 100) ltac:(lia)).
    rewrite <- Z.mul_lt_mono_pos_r by done. lia.
  - pose proof (Hstep _ _ (mValue r2) (mValue r1) Hgt). lia.
Qed.

(** the quality of an offer with positive amounts decodes to the exchange
    rate, within one unit of the exact quotient in/out; quality zero is left
    for rates that are too small or too large to represent; and for any two
    rates the keys, compared as unsigned integers, are ordered as the rates
    themselves. *)
Theorem quality_correct (offer : Amounts)
    (Hout : divisor (am_out offer)) (Hin : operand (am_in offer))
    (Hpo : mIsNegative (am_out offer) = false) (Hpi : mIsNegative (am_in offer) = false) :
  let A := st_mag (am_in offer) * 10 ^ 100 in
  let B := st_mag (am_out offer) in
  ((m_value (quality_of offer) = 0 ∧
      (divide (am_in offer) (am_out offer) noIssue = Throw (runtime_error "value overflow") ∨
       A < cMinValue * 10 ^ (cMinOffset + 100) * B)) ∨
   ∃ r, positive_rate r ∧ rate (quality_of offer) = Ret r ∧
     m_value (quality_of offer) = st_rate r ∧ Z.abs (st_mag r * B - A) < st_ulp r * B) ∧
  (∀ r1 r2, positive_rate r1 → positive_rate r2 →
     quality_lt (mkQuality (st_rate r2)) (mkQuality (st_rate r1)) = true ↔
     st_mag r1 < st_mag r2).
Proof.
  cbv zeta. split.
  2:{ intros r1 r2 H1 H2. unfold quality_lt. simpl. rewrite Z.ltb_lt. by apply st_rate_order. }
  pose proof (divide_nearest (am_in offer) (am_out offer) noIssue eq_refl Hin Hout) as Hd.
  rewrite Hpo, Hpi in Hd. simpl negb in Hd.
  unfold rate, quality_of, getRate. cbn [m_value].
  rewrite operand_not_zero by apply Hout.
  destruct (divide (am_in offer) (am_out offer) noIssue) as [r|x].
  2:{ left. split; [done|]. left. by rewrite Hd. }
  destruct Hd as [Hr [(Hneg & Hv & Hb)|[Hlt Hz]]]; rewrite is_zero_value.
  - assert (Hp : positive_rate r) by (split; [done|]; split; [st_consts; lia|done]).
    destruct (Z.eqb_spec (mValue r) 0) as [E|_]; [by destruct Hp as (_ & ? & _)|].
    right. exists r. destruct (rate_word r Hp) as [-> _].
    split; [done|]. split; [by apply amountFromQuality_rate|done].
  - rewrite Hz. left. split; [done|by right].
Qed.

Lemma quality_correct_witness :
  let usd n := mkAmount (mkIssue 7 8) n (-15) false false in
  m_value (quality_of (mkAmounts (usd 3000000000000000) (usd 2000000000000000))) = 0 ∨
  ∃ r, positive_rate r ∧
    rate (quality_of (mkAmounts (usd 3000000000000000) (usd 2000000000000000))) = Ret r.
Proof.
  intros usd.
  assert (H : ∀ n, cMinValue ≤ n ≤ cMaxValue → operand (usd n)).
  { intros n Hn. split; [|split; [simpl; st_consts; lia|done]].
    split; [done|]. right. split; [done|]. unfold cMinOffset, cMaxOffset. simpl. lia. }
  destruct (quality_correct (mkAmounts (usd 3000000000000000) (usd 2000000000000000)))
    as [[[Hz _]|(r & Hp & Hr & _)] _].
  - split; [apply H; unfold cMinValue, cMaxValue; lia|discriminate].
  - apply H; unfold cMinValue, cMaxValue; lia.
  - reflexivity.
  - reflexivity.
  - left. exact Hz.
  - right. exists r. split; [exact Hp|exact Hr].
Defined.

(** ** Scaling an offer down *)

Lemma st_lt_irrefl a : st_lt a a = Ret false.
Proof.
  unfold st_lt, areComparable. rewrite !Bool.eqb_reflx, !Z.eqb_refl, !Z.ltb_irrefl. simpl.
  by destruct (mValue a =? 0), (mIsNegative a).
Qed.

(** Amounts that can be compared: [l] is not above [r]. *)
Definition st_le (l r : STAmount) : Prop := st_lt r l = Ret false.

(** An offer in issued currencies and a limit on one of its sides. *)
Definition issued_offer (amount : Amounts) (ii io : Issue) : Prop :=
  issued ii (am_in amount) ∧ issued io (am_out amount).

(** What scaling one side of an offer promises: nothing changes when the side is
    within the limit; otherwise the side becomes the limit and the other side
    the rounded quotient or product, clamped to the offer. *)
Definition scaled (side other : Amounts → STAmount) (amount : Amounts) (limit : STAmount)
    (exact : STAmount → Prop) (res : outcome Amounts) : Prop :=
  match res with
  | Throw x => x = runtime_error "value overflow"
  | Ret r =>
      st_le (side r) limit ∧ st_le (other r) (other amount) ∧
      (st_lt limit (side amount) = Ret false → r = amount) ∧
      (st_lt limit (side amount) = Ret true →
         side r = limit ∧ (other r = other amount ∨ exact (other r)))
  end.

Lemma issued_not_xrp issue a : issued issue a → isXRP (currency issue) = false.
Proof. intros (Hc & Hn & Hi). unfold canonical in Hc. rewrite Hn, Hi in Hc. apply Hc. Qed.

Lemma issued_operand issue a : issued issue a → mValue a ≠ 0 → operand a.
Proof.
  intros (Hc & Hn & Hi) Hv. split; [done|]. split; [done|]. intros Hn'. by rewrite Hn in Hn'.
Qed.

Lemma positive_rate_operand r : positive_rate r → operand r.
Proof. intros (Hi & Hv & _). by eapply issued_operand. Qed.

(** Both ceilings are this computation. *)
Lemma scale_side (side other : Amounts → STAmount) (mk : STAmount → STAmount → Amounts)
    amount limit ii io exact R :
  (∀ l o, side (mk l o) = l ∧ other (mk l o) = o) →
  issued ii limit → issued ii (side amount) → issued io (other amount) →
  match R with
  | Ret o => issued io o ∧ exact o
  | Throw x => x = runtime_error "value overflow"
  end →
  scaled side other amount limit exact
    (above ← st_lt limit (side amount);
     if above : bool then
       o ← R;
       clamp ← st_lt (other amount) o;
       Ret (mk limit (if clamp : bool then other amount else o))
     else Ret amount).
Proof.
  intros Hmk Hl Hs Ho HR. pose proof (st_lt_iou _ _ _ _ Hl Hs eq_refl) as El. rewrite El.
  cbn [mbind outcome_bind]. destruct (iou_lt _ _).
  - destruct R as [o|x]; cbn [mbind outcome_bind]; [|exact HR]. destruct HR as [Hio Hex].
    pose proof (st_lt_iou _ _ _ _ Ho Hio eq_refl) as Ec. rewrite Ec. cbn [mbind outcome_bind].
    unfold scaled, st_le. rewrite El, (proj1 (Hmk _ _)), (proj2 (Hmk _ _)), st_lt_irrefl.
    destruct (iou_lt _ _); rewrite ?Ec, ?st_lt_irrefl;
      (split; [done|]); (split; [done|]); (split; [done|]); auto.
  - unfold scaled, st_le. rewrite El, st_lt_irrefl. done.
Qed.

(** [ceil_in] and [ceil_out] on offers between issued currencies, at any
    representable rate: the call returns unless the amount overflows, an offer
    within the limit is unchanged, the limited side becomes the limit, the
    other side is the exact quotient (product) rounded up, and it never exceeds
    what the offer has, so that no currency is created. *)
Theorem ceil_correct (so so2 : bool) (rt : STAmount) (amount : Amounts) (limit : STAmount)
    (ii io : Issue) (Hrt : positive_rate rt) (Hoff : issued_offer amount ii io)
    (Hlim : mValue limit ≠ 0) (Hpos : mIsNegative limit = false) :
  let q := mkQuality (st_rate rt) in
  (issued ii limit →
     scaled am_in am_out amount limit
       (λ out, rounded_mag io (st_mag limit * 10 ^ 100) (st_mag rt) false true so (Ret out))
       (ceil_in so so2 q amount limit)) ∧
  (issued io limit →
     scaled am_out am_in amount limit
       (λ inn, rounded_mag ii (st_mag limit * st_mag rt) (10 ^ 100) false true so (Ret inn))
       (ceil_out so so2 q amount limit)).
Proof.
  cbv zeta. destruct Hoff as [Hai Hao].
  assert (Hneg : negb (Bool.eqb (mIsNegative limit) (mIsNegative rt)) = false).
  { by rewrite Hpos, (proj2 (proj2 Hrt)). }
  pose proof (positive_rate_operand rt Hrt) as Hop.
  split; intros Hl; pose proof (issued_operand _ _ Hl Hlim) as Hlo;
    unfold ceil_in, ceil_out, rate; cbn [m_value]; rewrite amountFromQuality_rate by done.
  - pose proof (divRound_rounded so so2 limit rt io true (issued_not_xrp _ _ Hao) Hlo Hop) as Hr.
    rewrite Hneg in Hr. rewrite (proj2 (proj2 Hao)).
    apply (scale_side am_in am_out mkAmounts amount limit ii io); try done.
    destruct (divRound _ _ _ _ _ _); [|exact Hr]. split; [apply Hr|exact Hr].
  - assert (Hnn : mIsNative limit && mIsNative rt = false) by (by rewrite (proj1 (proj2 Hl))).
    pose proof (mulRound_rounded so so2 limit rt ii true (issued_not_xrp _ _ Hai) Hlo Hop Hnn) as Hr.
    rewrite Hneg in Hr. rewrite (proj2 (proj2 Hai)).
    apply (scale_side am_out am_in (λ l o, mkAmounts o l) amount limit io ii); try done.
    destruct (mulRound _ _ _ _ _ _); [|exact Hr]. split; [apply Hr|exact Hr].
Qed.

Lemma ceil_correct_witness :
  let usd n := mkAmount (mkIssue 7 8) n (-15) false false in
  let eur n := mkAmount (mkIssue 9 8) n (-15) false false in
  let one := mkAmount noIssue 1000000000000000 (-15) false false in
  scaled am_in am_out (mkAmounts (usd 3000000000000000) (eur 2000000000000000))
    (usd 1000000000000000)
    (λ out, rounded_mag (mkIssue 9 8) (st_mag (usd 1000000000000000) * 10 ^ 100) (st_mag one)
              false true true (Ret out))
    (ceil_in true true (mkQuality (st_rate one))
       (mkAmounts (usd 3000000000000000) (eur 2000000000000000)) (usd 1000000000000000)).
Proof.
  intros usd eur one.
  assert (H : ∀ i n, isXRP (currency i) = false → cMinValue ≤ n ≤ cMaxValue →
    issued i (mkAmount i n (-15) false false)).
  { intros i n Hi Hn. split; [|done]. split; [exact Hi|]. right. split; [done|].
    unfold cMinOffset, cMaxOffset. simpl. lia. }
  destruct (ceil_correct true true one
    (mkAmounts (usd 3000000000000000) (eur 2000000000000000)) (usd 1000000000000000)
    (mkIssue 7 8) (mkIssue 9 8)) as [Hin _].
  - split; [apply H; [reflexivity|unfold cMinValue, cMaxValue; lia]|]. split; [discriminate|reflexivity].
  - split; apply H; try reflexivity; unfold cMinValue, cMaxValue; lia.
  - discriminate.
  - reflexivity.
  - apply Hin. apply H; [reflexivity|unfold cMinValue, cMaxValue; lia].
Defined.

(** ** Transfer rates *)

(** A common factor of the exact quotient cancels. *)
Lemma rounded_mag_scale issue A B k neg roundUp so res :
  0 < k → rounded_mag issue (A * k) (B * k) neg roundUp so res →
  rounded_mag issue A B neg roundUp so res.
Proof.
  intros Hk. destruct res as [r|x]; [|done]. intros [Hr Hc]. split; [done|].
  assert (Hlt : ∀ x y, x * k < y * k → x < y) by (intros x y; by apply Z.mul_lt_mono_pos_r).
  assert (Hle : ∀ x y, x * k ≤ y * k → x ≤ y) by (intros x y; by apply Z.mul_le_mono_pos_r).
  destruct Hc as [(Hn & Hv & Hb)|[Hz ->]].
  - left. split; [done|]. split; [done|]. destruct (Bool.eqb neg roundUp).
    + split; [apply Hle|apply Hlt]; rewrite <- Z.mul_assoc; apply Hb.
    + split; apply Hlt.
      * rewrite <- !Z.mul_assoc. apply Hb.
      * rewrite Z.mul_add_distr_r, <- !Z.mul_assoc. apply Hb.
  - right. split; [|done]. apply Hlt. rewrite <- Z.mul_assoc. exact Hz.
Qed.

Lemma as_amount_spec rate :
  0 < rate < 2 ^ 32 →
  ∃ r, as_amount rate = Ret r ∧ positive_rate r ∧ st_mag r = rate * 10 ^ 91.
Proof.
  intros Hr. unfold as_amount, st_make.
  destruct (canonicalize_norm (mkAmount noIssue rate (-9) false false) eq_refl ltac:(simpl; lia))
    as (res & Hres & _ & ->). simpl in Hres.
  destruct (upscale_loop 16 rate 0 ltac:(lia) ltac:(st_consts; lia)) as (k & Hk & _ & Hlo & Hhi).
  assert (Hkpos : k ≠ 0) by (intros ->; st_consts; lia).
  destruct Hhi as [?|Hhi]; [done|].
  destruct (norm_result_cases cMinValue cMinOffset cMaxOffset (runtime_error "") rate (-9) res
    ltac:(lia) ltac:(done) ltac:(done) Hres) as (_ & H2 & _).
  assert (Hs : shift10 rate (-9 - k - -9) = rate * 10 ^ k).
  { rewrite shift10_neg by lia. do 2 f_equal. lia. }
  specialize (H2 (-9 - k) ltac:(st_consts; lia)). rewrite Hs in H2. rewrite H2.
  2:{ split; [done|exact Hhi]. }
  simpl. eexists. split; [reflexivity|]. split.
  - split; [|split; [simpl; st_consts; lia|done]]. split; [|done]. split; [done|].
    right. simpl. split; [done|]. st_consts. lia.
  - unfold st_mag, st_ulp. simpl. rewrite <- Z.mul_assoc, <- Z.pow_add_r by lia. do 2 f_equal. lia.
Qed.

(** transfer fees: [multiplyRound] and [divideRound] by a rate in billionths
    round the exact product and quotient of the amount with the rate, on the
    side asked for; at the parity rate the amount is returned as it is. *)
Theorem transfer_rate_correct (so so2 roundUp : bool) (amount : STAmount) (issue : Issue)
    (rate : Z) (Hr : 0 < rate < 2 ^ 32) (Ha : issued issue amount) (Hv : mValue amount ≠ 0) :
  let neg := mIsNegative amount in
  if rate =? 1000000000 then
    multiplyRound so so2 amount rate issue roundUp = Ret amount ∧
    divideRound so so2 amount rate issue roundUp = Ret amount
  else
    rounded_mag issue (st_mag amount * rate) (10 ^ 9) neg roundUp so
      (multiplyRound so so2 amount rate issue roundUp) ∧
    rounded_mag issue (st_mag amount * 10 ^ 9) rate neg roundUp so
      (divideRound so so2 amount rate issue roundUp).
Proof.
  cbv zeta. unfold multiplyRound, divideRound. change parityRate with 1000000000.
  destruct (Z.eqb_spec rate 1000000000); [done|].
  destruct (as_amount_spec rate Hr) as (r & -> & Hp & Hm). cbn [mbind outcome_bind].
  pose proof (issued_operand _ _ Ha Hv) as Hop. pose proof (positive_rate_operand _ Hp) as Hrop.
  pose proof (issued_not_xrp _ _ Ha) as Hx.
  assert (Hneg : negb (Bool.eqb (mIsNegative amount) (mIsNegative r)) = mIsNegative amount).
  { rewrite (proj2 (proj2 Hp)). by destruct (mIsNegative amount). }
  split; apply (rounded_mag_scale _ _ _ (10 ^ 91)); try (by apply pow10_pos); rewrite <- Hneg.
  - rewrite <- Z.mul_assoc, <- Hm, <- Z.pow_add_r by lia.
    apply mulRound_rounded; try done. by rewrite (proj1 (proj2 Ha)).
  - rewrite <- Hm, <- Z.mul_assoc, <- Z.pow_add_r by lia. by apply divRound_rounded.
Qed.

Lemma transfer_rate_correct_witness :
  let usd := mkAmount (mkIssue 7 8) 3000000000000000 (-15) false false in
  rounded_mag (mkIssue 7 8) (st_mag usd * 1002000000) (10 ^ 9) false true true
    (multiplyRound true true usd 1002000000 (mkIssue 7 8) true).
Proof.
  intros usd.
  assert (Hu : issued (mkIssue 7 8) usd).
  { split; [|done]. split; [reflexivity|]. right. vm_compute. repeat split; discriminate. }
  assert (Hv : mValue usd ≠ 0) by discriminate.
  destruct (transfer_rate_correct true true true usd (mkIssue 7 8) 1002000000 ltac:(lia) Hu Hv)
    as [Hm _]. exact Hm.
Defined.
