(* ===== verification/StateTable.v ===== *)
(** * Ledger state tables

    Model of [src/src/ripple/ledger/detail/RawStateTable.h],
    [src/src/ripple/ledger/impl/RawStateTable.cpp],
    [src/src/ripple/ledger/detail/ApplyStateTable.h],
    [src/src/ripple/ledger/impl/ApplyStateTable.cpp] and of the views built on
    them ([OpenView], [ApplyViewBase], [Sandbox], the raw interface of
    [Ledger]).  A table buffers changes to the entries of a base view; reading
    goes through the buffer, applying writes it out.

    The abstract state is a finite map from keys to ledger entries.  The
    theorems say that a table over a base view behaves as the base map with the
    buffered changes made, and that applying the table to its base produces that
    map.  A ledger entry (SLE) is its key, its type and a body; the tables never
    look into the body, so it is a type parameter. *)

From stdpp Require Import base numbers list gmap strings sorting.
From Stdlib Require Import Lia ZArith.
From S2P Require Import Prelude XRPAmount.

Local Open Scope Z_scope.

(** ** Entries, keylets and views *)

(** LedgerEntryType values that [Keylet::check] distinguishes. *)
Definition ltANY : Z := -3.
Definition ltCHILD : Z := -2.
Definition ltINVALID : Z := -1.
Definition ltDIR_NODE : Z := 100.

Record Keylet : Type := mkKeylet { kl_type : Z; kl_key : Z }.

Definition unchecked (key : Z) : Keylet := mkKeylet ltANY key.

Record SLE {F : Type} : Type := mkSLE { sle_key : Z; sle_type : Z; sle_body : F }.
Arguments SLE : clear implicits.
Arguments mkSLE {F} _ _ _.

Definition check {F} (k : Keylet) (sle : SLE F) : bool :=
  if kl_type k =? ltANY then true
  else if kl_type k =? ltINVALID then false
  else if kl_type k =? ltCHILD then negb (sle_type sle =? ltDIR_NODE)
  else sle_type sle =? kl_type k.

(** The part of [ReadView] that gives access to the state. *)
Record ReadView {F : Type} : Type := mkView {
  rv_exists : Keylet → bool;
  rv_read : Keylet → option (SLE F);
  rv_succ : Z → option Z → option Z }.
Arguments ReadView : clear implicits.
Arguments mkView {F} _ _ _.

(** [boost::optional] comparisons: none is below every value. *)
Definition opt_ge (next last : option Z) : bool :=
  match next, last with
  | Some n, Some l => l <=? n
  | None, Some _ => false
  | _, None => true
  end.

(** Found both: the lower key. *)
Definition lower_of (own next : option Z) : option Z :=
  match own, next with
  | Some o, Some n => if o <? n then Some o else next
  | Some o, None => Some o
  | None, _ => next
  end.

(** The search for the successor, shared by both tables: skip the erased keys of
    the base, then take the first key of the buffer that is not erased if it
    is lower. *)
Section Succ.
Context {F A : Type} (erased : A → bool) (items : gmap Z A).

Fixpoint base_succ (base : ReadView F) (fuel : nat) (next : Z) (last : option Z) : option Z :=
  match fuel with
  | O => None
  | S n =>
    match rv_succ base next last with
    | None => None
    | Some next =>
      match items !! next with
      | Some a => if erased a then base_succ base n next last else Some next
      | None => Some next
      end
    end
  end.

Definition own_succ (key : Z) : option Z :=
  (λ x, x.1) <$> head (filter (λ x, key < x.1 ∧ erased x.2 = false) (in_order items)).

Definition table_succ (base : ReadView F) (key : Z) (last : option Z) : option Z :=
  let next := lower_of (own_succ key) (base_succ base (S (size items)) key last) in
  match last with
  | Some _ => if opt_ge next last then None else next
  | None => next
  end.
End Succ.

(** ** Shared entries

    Tables hold [shared_ptr<SLE>]: the address of an entry.  The key of an entry
    never changes after its construction, so it is kept with the address; its
    contents are in the heap, where holders of the pointer can change them. *)

Record sptr : Type := mkPtr { addr : positive; pkey : Z }.

#[export] Instance sptr_eq_dec : EqDecision sptr.
Proof. solve_decision. Defined.

Abbreviation heap F := (gmap positive (SLE F)).

Definition deref {F} (h : heap F) (p : sptr) : option (SLE F) := h !! addr p.

(** A fresh copy of an entry. *)
Definition alloc {F} (h : heap F) (sle : SLE F) : sptr * heap F :=
  let a := fresh (dom h) in (mkPtr a (sle_key sle), <[a := sle]> h).

(** ** RawView: where changes are written *)

Class RawView (F V : Type) := {
  rawErase : heap F → sptr → V → outcome V;
  rawInsert : heap F → sptr → V → outcome V;
  rawReplace : heap F → sptr → V → outcome V;
  rawDestroyXRP : XRPAmount → V → V }.

(** The state map of a [Ledger] and [info_.drops], the drops in existence. *)
Record LedgerState {F : Type} : Type := mkLedger { l_map : gmap Z (SLE F); l_drops : XRPAmount }.
Arguments LedgerState : clear implicits.
Arguments mkLedger {F} _ _.

Section Ledger.
Context {F : Type}.
Implicit Types (l : LedgerState F) (p : sptr) (h : heap F).

Definition ledger_rawErase h p l : outcome (LedgerState F) :=
  match l_map l !! pkey p with
  | None => Throw (logic_error "Ledger::rawErase: key not found")
  | Some _ => Ret (mkLedger (delete (pkey p) (l_map l)) (l_drops l))
  end.

Definition ledger_rawInsert h p l : outcome (LedgerState F) :=
  match deref h p with
  | None => Throw (logic_error "null entry")
  | Some sle =>
    match l_map l !! pkey p with
    | Some _ => Throw (logic_error "Ledger::rawInsert: key already exists")
    | None => Ret (mkLedger (<[pkey p := sle]> (l_map l)) (l_drops l))
    end
  end.

Definition ledger_rawReplace h p l : outcome (LedgerState F) :=
  match deref h p with
  | None => Throw (logic_error "null entry")
  | Some sle =>
    match l_map l !! pkey p with
    | None => Throw (logic_error "Ledger::rawReplace: key not found")
    | Some _ => Ret (mkLedger (<[pkey p := sle]> (l_map l)) (l_drops l))
    end
  end.

Definition ledger_rawDestroyXRP (fee : XRPAmount) l : LedgerState F :=
  mkLedger (l_map l) (xrp_sub (l_drops l) fee).
End Ledger.

#[export] Instance ledger_raw {F} : RawView F (LedgerState F) := {
  rawErase := ledger_rawErase;
  rawInsert := ledger_rawInsert;
  rawReplace := ledger_rawReplace;
  rawDestroyXRP := ledger_rawDestroyXRP }.

(** Run an effect for every item, in order. *)
Fixpoint for_each {A V} (f : A → V → outcome V) (l : list A) (v : V) : outcome V :=
  match l with
  | [] => Ret v
  | x :: l => v ← f x v; for_each f l v
  end.

(** ** RawStateTable *)

Module Raw.

Inductive RawAction : Type := erase | insert | replace.

#[global] Instance RawAction_eq_dec : EqDecision RawAction.
Proof. solve_decision. Defined.

Record RawStateTable : Type := mkRaw {
  items_ : gmap Z (RawAction * sptr);
  dropsDestroyed_ : XRPAmount }.

Definition raw_is_erase (i : RawAction * sptr) : bool :=
  match i.1 with erase => true | _ => false end.

Definition raw_put (k : Z) (i : RawAction * sptr) (t : RawStateTable) : RawStateTable :=
  mkRaw (<[k := i]> (items_ t)) (dropsDestroyed_ t).
Definition raw_drop (k : Z) (t : RawStateTable) : RawStateTable :=
  mkRaw (base.delete k (items_ t)) (dropsDestroyed_ t).

Definition raw_erase (sle : sptr) (t : RawStateTable) : outcome RawStateTable :=
  let k := pkey sle in
  match items_ t !! k with
  | None => Ret (raw_put k (erase, sle) t)
  | Some (erase, _) => Throw (logic_error "RawStateTable::erase: already erased")
  | Some (insert, _) => Ret (raw_drop k t)
  | Some (replace, _) => Ret (raw_put k (erase, sle) t)
  end.

Definition raw_insert (sle : sptr) (t : RawStateTable) : outcome RawStateTable :=
  let k := pkey sle in
  match items_ t !! k with
  | None => Ret (raw_put k (insert, sle) t)
  | Some (erase, _) => Ret (raw_put k (replace, sle) t)
  | Some (insert, _) => Throw (logic_error "RawStateTable::insert: already inserted")
  | Some (replace, _) => Throw (logic_error "RawStateTable::insert: already exists")
  end.

Definition raw_replace (sle : sptr) (t : RawStateTable) : outcome RawStateTable :=
  let k := pkey sle in
  match items_ t !! k with
  | None => Ret (raw_put k (replace, sle) t)
  | Some (erase, _) => Throw (logic_error "RawStateTable::replace: was erased")
  | Some (a, _) => Ret (raw_put k (a, sle) t)
  end.

Definition raw_destroyXRP (fee : XRPAmount) (t : RawStateTable) : RawStateTable :=
  mkRaw (items_ t) (xrp_add (dropsDestroyed_ t) fee).

#[global] Instance raw_raw {F} : RawView F RawStateTable := {
  rawErase _ := raw_erase;
  rawInsert _ := raw_insert;
  rawReplace _ := raw_replace;
  rawDestroyXRP := raw_destroyXRP }.

Section Access.
Context {F : Type} (h : heap F) (base : ReadView F).

Definition raw_exists (t : RawStateTable) (k : Keylet) : bool :=
  match items_ t !! kl_key k with
  | None => rv_exists base k
  | Some (erase, _) => false
  | Some (_, sle) =>
      match deref h sle with Some sle => check k sle | None => false end
  end.

Definition raw_read (t : RawStateTable) (k : Keylet) : option (SLE F) :=
  match items_ t !! kl_key k with
  | None => rv_read base k
  | Some (erase, _) => None
  | Some (_, sle) =>
      match deref h sle with
      | Some sle => if check k sle then Some sle else None
      | None => None
      end
  end.

Definition raw_succ (t : RawStateTable) : Z → option Z → option Z :=
  table_succ raw_is_erase (items_ t) base.

(** The state access of an [OpenView] on [base]. *)
Definition raw_view (t : RawStateTable) : ReadView F := mkView (raw_exists t) (raw_read t) (raw_succ t).

Definition raw_apply_item `{!RawView F V} (x : Z * (RawAction * sptr)) (to : V) : outcome V :=
  match x.2.1 with
  | erase => rawErase h x.2.2 to
  | insert => rawInsert h x.2.2 to
  | replace => rawReplace h x.2.2 to
  end.

Definition raw_apply `{!RawView F V} (t : RawStateTable) (to : V) : outcome V :=
  for_each raw_apply_item (in_order (items_ t)) (rawDestroyXRP (dropsDestroyed_ t) to).

(** *** The iterator over all entries

    [sles_iter_impl] holds a position in the items and one in the entries of the
    base; a position is what is left to visit, its current entry the head. *)

Definition sles_iter : Type := list (Z * (RawAction * sptr)) * list (SLE F).

(** The loop of [skip]: the entry of the base is dereferenced without a check. *)
Fixpoint iter_skip (fuel : nat) (it : sles_iter) : outcome sles_iter :=
  match fuel with
  | O => Ret it
  | S n =>
    match it with
    | (((_, (erase, p)) :: l1) as it1, l0) =>
      match l0 with
      | [] => Throw (logic_error "null pointer")
      | s :: l0' =>
        if sle_key s =? pkey p then
          if bool_decide (l0' = []) then Ret (l1, l0') else iter_skip n (l1, l0')
        else Ret (it1, l0)
      end
    | _ => Ret it
    end
  end.

Definition iter_skip_all (it : sles_iter) : outcome sles_iter := iter_skip (S (length it.1)) it.

Definition iter_make (l1 : list (Z * (RawAction * sptr))) (l0 : list (SLE F)) : outcome sles_iter :=
  match l1 with [] => Ret (l1, l0) | _ => iter_skip_all (l1, l0) end.

Definition iter_increment (it : sles_iter) : outcome sles_iter :=
  match it with
  | ([], []) => Ret it
  | (_ :: l1, []) => Ret (l1, [])
  | ([], _ :: l0) => Ret ([], l0)
  | ((_, (_, p)) :: l1, s :: l0) =>
      if pkey p =? sle_key s then iter_skip_all (l1, l0)
      else if pkey p <? sle_key s then iter_skip_all (l1, s :: l0)
      else iter_skip_all (it.1, l0)
  end.

Definition iter_dereference (it : sles_iter) : option (SLE F) :=
  match it with
  | ([], []) => None
  | ([], s :: _) => Some s
  | ((_, (_, p)) :: _, []) => deref h p
  | ((_, (_, p)) :: _, s :: _) => if pkey p <=? sle_key s then deref h p else Some s
  end.

(** A range-for over the entries. *)
Fixpoint iter_collect (fuel : nat) (it : sles_iter) : outcome (list (option (SLE F))) :=
  match fuel with
  | O => Ret []
  | S n =>
    match it with
    | ([], []) => Ret []
    | _ => it' ← iter_increment it; l ← iter_collect n it'; Ret (iter_dereference it :: l)
    end
  end.

Definition sles (t : RawStateTable) (l0 : list (SLE F)) : outcome (list (option (SLE F))) :=
  let l1 := in_order (items_ t) in
  it ← iter_make l1 l0; iter_collect (length l1 + length l0) it.
End Access.
End Raw.

(** ** ApplyStateTable *)

Module Apply.

Inductive ApplyAction : Type := cache | erase | insert | modify.

#[export] Instance ApplyAction_eq_dec : EqDecision ApplyAction.
Proof. solve_decision. Defined.

Record ApplyStateTable : Type := mkApply {
  items_ : gmap Z (ApplyAction * sptr);
  dropsDestroyed_ : XRPAmount }.

Definition empty_table : ApplyStateTable := mkApply ∅ xrp_zero.

Definition ap_is_erase (i : ApplyAction * sptr) : bool :=
  match i.1 with erase => true | _ => false end.

Definition ap_put (k : Z) (i : ApplyAction * sptr) (t : ApplyStateTable) : ApplyStateTable :=
  mkApply (<[k := i]> (items_ t)) (dropsDestroyed_ t).
Definition ap_drop (k : Z) (t : ApplyStateTable) : ApplyStateTable :=
  mkApply (base.delete k (items_ t)) (dropsDestroyed_ t).

(** [erase] and [update] insist on the pointer the table itself handed out. *)
Definition ap_erase (sle : sptr) (t : ApplyStateTable) : outcome ApplyStateTable :=
  let k := pkey sle in
  match items_ t !! k with
  | None => Throw (logic_error "ApplyStateTable::erase: missing key")
  | Some (a, p) =>
    if bool_decide (p = sle) then
      match a with
      | erase => Throw (logic_error "ApplyStateTable::erase: double erase")
      | insert => Ret (ap_drop k t)
      | cache | modify => Ret (ap_put k (erase, p) t)
      end
    else Throw (logic_error "ApplyStateTable::erase: unknown SLE")
  end.

Definition ap_rawErase (sle : sptr) (t : ApplyStateTable) : outcome ApplyStateTable :=
  let k := pkey sle in
  match items_ t !! k with
  | None => Ret (ap_put k (erase, sle) t)
  | Some (erase, _) => Throw (logic_error "ApplyStateTable::rawErase: double erase")
  | Some (insert, _) => Ret (ap_drop k t)
  | Some (_, _) => Ret (ap_put k (erase, sle) t)
  end.

Definition ap_insert (sle : sptr) (t : ApplyStateTable) : outcome ApplyStateTable :=
  let k := pkey sle in
  match items_ t !! k with
  | None => Ret (ap_put k (insert, sle) t)
  | Some (cache, _) => Throw (logic_error "ApplyStateTable::insert: already cached")
  | Some (insert, _) => Throw (logic_error "ApplyStateTable::insert: already inserted")
  | Some (modify, _) => Throw (logic_error "ApplyStateTable::insert: already modified")
  | Some (erase, _) => Ret (ap_put k (modify, sle) t)
  end.

Definition ap_replace (sle : sptr) (t : ApplyStateTable) : outcome ApplyStateTable :=
  let k := pkey sle in
  match items_ t !! k with
  | None => Ret (ap_put k (modify, sle) t)
  | Some (erase, _) => Throw (logic_error "ApplyStateTable::replace: already erased")
  | Some (cache, _) => Ret (ap_put k (modify, sle) t)
  | Some (a, _) => Ret (ap_put k (a, sle) t)
  end.

Definition ap_update (sle : sptr) (t : ApplyStateTable) : outcome ApplyStateTable :=
  let k := pkey sle in
  match items_ t !! k with
  | None => Throw (logic_error "ApplyStateTable::update: missing key")
  | Some (a, p) =>
    if bool_decide (p = sle) then
      match a with
      | erase => Throw (logic_error "ApplyStateTable::update: erased")
      | cache => Ret (ap_put k (modify, p) t)
      | insert | modify => Ret t
      end
    else Throw (logic_error "ApplyStateTable::update: unknown SLE")
  end.

Definition ap_destroyXRP (fee : XRPAmount) (t : ApplyStateTable) : ApplyStateTable :=
  mkApply (items_ t) (xrp_add (dropsDestroyed_ t) fee).

(** The raw interface of [ApplyViewBase]. *)
#[global] Instance apply_raw {F} : RawView F ApplyStateTable := {
  rawErase _ := ap_rawErase;
  rawInsert _ := ap_insert;
  rawReplace _ := ap_replace;
  rawDestroyXRP := ap_destroyXRP }.

(** [size]: the number of entries that [apply] writes. *)
Definition ap_size (t : ApplyStateTable) : nat :=
  length (filter (λ x : Z * (ApplyAction * sptr), x.2.1 ≠ cache) (map_to_list (items_ t))).

Section Access.
Context {F : Type} (base : ReadView F).

Definition ap_exists (h : heap F) (t : ApplyStateTable) (k : Keylet) : bool :=
  match items_ t !! kl_key k with
  | None => rv_exists base k
  | Some (erase, _) => false
  | Some (_, sle) =>
      match deref h sle with Some sle => check k sle | None => false end
  end.

Definition ap_read (h : heap F) (t : ApplyStateTable) (k : Keylet) : option (SLE F) :=
  match items_ t !! kl_key k with
  | None => rv_read base k
  | Some (erase, _) => None
  | Some (_, sle) =>
      match deref h sle with
      | Some sle => if check k sle then Some sle else None
      | None => None
      end
  end.

Definition ap_succ (t : ApplyStateTable) : Z → option Z → option Z :=
  table_succ ap_is_erase (items_ t) base.

Definition ap_view (h : heap F) (t : ApplyStateTable) : ReadView F :=
  mkView (ap_exists h t) (ap_read h t) (ap_succ t).

(** [peek]: a pointer for modification; an entry of the base is copied and
    cached first. *)
Definition ap_peek (k : Keylet) (h : heap F) (t : ApplyStateTable) :
    option sptr * heap F * ApplyStateTable :=
  match items_ t !! kl_key k with
  | None =>
    match rv_read base k with
    | None => (None, h, t)
    | Some sle =>
        let '(p, h) := alloc h sle in
        (Some p, h, ap_put (sle_key sle) (cache, p) t)
    end
  | Some (erase, _) => (None, h, t)
  | Some (_, p) =>
      match deref h p with
      | Some sle => (if check k sle then Some p else None, h, t)
      | None => (None, h, t)
      end
  end.

Definition ap_apply_item `{!RawView F V} (h : heap F) (x : Z * (ApplyAction * sptr)) (to : V) :
    outcome V :=
  match x.2.1 with
  | cache => Ret to
  | erase => rawErase h x.2.2 to
  | insert => rawInsert h x.2.2 to
  | modify => rawReplace h x.2.2 to
  end.

(** [apply (RawView&)], also [Sandbox::apply]. *)
Definition ap_apply `{!RawView F V} (h : heap F) (t : ApplyStateTable) (to : V) : outcome V :=
  for_each (ap_apply_item h) (in_order (items_ t)) (rawDestroyXRP (dropsDestroyed_ t) to).

(** [visit]: what the invariant checkers are shown of each change: the key,
    whether it is a deletion, the entry before and after. *)
Definition ap_visit (h : heap F) (t : ApplyStateTable) :
    list (Z * bool * option (SLE F) * option (SLE F)) :=
  omap (λ x : Z * (ApplyAction * sptr),
    match x.2.1 with
    | cache => None
    | erase => Some (x.1, true, rv_read base (unchecked x.1), deref h x.2.2)
    | insert => Some (x.1, false, None, deref h x.2.2)
    | modify => Some (x.1, false, rv_read base (unchecked x.1), deref h x.2.2)
    end) (in_order (items_ t)).
End Access.
End Apply.

(** ** The abstract state behind a view *)

(** [r] is the first key of [m] above [key], and below [last] if there is one. *)
Definition is_succ {A} (m : gmap Z A) (key : Z) (last r : option Z) : Prop :=
  match r with
  | Some k => is_Some (m !! k) ∧ key < k ∧ (∀ l, last = Some l → k < l) ∧
      ∀ k', key < k' → is_Some (m !! k') → k ≤ k'
  | None => ∀ k', key < k' → is_Some (m !! k') → ∃ l, last = Some l ∧ l ≤ k'
  end.

Definition lookup_kl {F} (m : gmap Z (SLE F)) (k : Keylet) : option (SLE F) :=
  match m !! kl_key k with
  | Some sle => if check k sle then Some sle else None
  | None => None
  end.

(** What a view promises to its clients: it shows the map [m]. *)
Class ViewOf {F} (v : ReadView F) (m : gmap Z (SLE F)) : Prop := {
  vo_read k : rv_read v k = lookup_kl m k;
  vo_exists k : rv_exists v k = bool_decide (is_Some (lookup_kl m k));
  vo_succ key last : is_succ m key last (rv_succ v key last) }.

(** ** Successors through a table *)

(** The first element of a sorted list that satisfies [P]. *)
Lemma head_filter_sorted {A} (R : relation A) (P : A → Prop) `{!∀ x, Decision (P x)} l :
  StronglySorted R l →
  match head (filter P l) with
  | Some x => x ∈ l ∧ P x ∧ ∀ y, y ∈ l → P y → y = x ∨ R x y
  | None => ∀ y, y ∈ l → ¬ P y
  end.
Proof.
  induction 1 as [|a l Hs IH Hall]; simpl; [by intros y Hy%not_elem_of_nil|].
  rewrite filter_cons. destruct (decide (P a)) as [Ha|Ha]; simpl.
  - split; [by left|]. split; [done|]. intros y [->|Hy]%elem_of_cons _; [by left|right].
    by apply (Forall_forall (R a) l).
  - destruct (head (filter P l)) as [x|].
    + destruct IH as (Hin & Hp & Hmin). split; [by right|]. split; [done|].
      intros y [->|Hy]%elem_of_cons Hy'; [done|by apply Hmin].
    + intros y [->|Hy]%elem_of_cons; [done|by apply IH].
Qed.

Section SuccProof.
Context {F A : Type} (erased : A → bool) (items : gmap Z A).
Context (base : ReadView F) (m : gmap Z (SLE F)) `{!ViewOf base m}.

Definition hidden (k : Z) : Prop := ∃ a, items !! k = Some a ∧ erased a = true.

Lemma own_succ_spec key :
  match own_succ erased items key with
  | Some o => key < o ∧ (∃ a, items !! o = Some a ∧ erased a = false) ∧
      ∀ k a, key < k → items !! k = Some a → erased a = false → o ≤ k
  | None => ∀ k a, key < k → items !! k = Some a → erased a = true
  end.
Proof.
  unfold own_succ.
  pose proof (head_filter_sorted key_le (λ x, key < x.1 ∧ erased x.2 = false) _
    (in_order_sorted items)) as H.
  destruct (head _) as [[o a]|]; simpl.
  - destruct H as (Hin & [Hlt He] & Hmin). simpl in *. apply elem_of_in_order in Hin.
    split; [done|]. split; [eauto|]. intros k a' Hk Hl He'.
    destruct (Hmin (k, a')) as [[= -> ->]|Hle]; [by apply elem_of_in_order|done|lia|done].
  - intros k a Hk Hl. destruct (erased a) eqn:E; [done|].
    destruct (H (k, a)); [by apply elem_of_in_order|done].
Qed.

(** The keys of the table that can still be skipped. *)
Definition above (next : Z) : gset Z := filter (λ k, next < k) (dom items).

Lemma base_succ_spec fuel next last :
  (size (above next) < fuel)%nat →
  match base_succ erased items base fuel next last with
  | Some n => next < n ∧ is_Some (m !! n) ∧ ¬ hidden n ∧ (∀ l, last = Some l → n < l) ∧
      ∀ k, next < k < n → is_Some (m !! k) → hidden k
  | None => ∀ k, next < k → is_Some (m !! k) → hidden k ∨ ∃ l, last = Some l ∧ l ≤ k
  end.
Proof.
  revert next. induction fuel as [|fuel IH]; intros next Hf; [lia|]. simpl.
  pose proof (vo_succ next last) as Hs. destruct (rv_succ base next last) as [n|]; [|by eauto].
  destruct Hs as (Hn & Hlt & Hlast & Hmin).
  assert (Hfound : ¬ hidden n → next < n ∧ is_Some (m !! n) ∧ ¬ hidden n ∧
    (∀ l, last = Some l → n < l) ∧ ∀ k, next < k < n → is_Some (m !! k) → hidden k).
  { intros Hh. split_and!; try done. intros k Hk Hmk. specialize (Hmin k ltac:(lia) Hmk). lia. }
  destruct (items !! n) as [a|] eqn:Ei.
  2:{ apply Hfound. intros (a & Ha & _). congruence. }
  destruct (erased a) eqn:Ea.
  2:{ apply Hfound. intros (a' & Ha & ?). congruence. }
  assert (Hh : hidden n) by (by exists a).
  assert (size (above n) < size (above next))%nat.
  { apply subset_size. split.
    - intros k. unfold above. rewrite !elem_of_filter. intros [??]. split; [lia|done].
    - intros Hsub. assert (n ∈ above n) as Hin.
      { apply Hsub. unfold above. apply elem_of_filter. split; [done|]. by apply elem_of_dom_2 in Ei. }
      unfold above in Hin. apply elem_of_filter in Hin as [? _]. lia. }
  specialize (IH n ltac:(lia)). destruct (base_succ _ _ _ _ _ _) as [n'|].
  - destruct IH as (? & ? & ? & ? & Hmid). split_and!; [lia|done..|].
    intros k Hk Hmk. destruct (Z.lt_trichotomy k n) as [?|[->|?]]; [|done|by apply Hmid; [lia|]].
    specialize (Hmin k ltac:(lia) Hmk). lia.
  - intros k Hk Hmk. destruct (Z.lt_trichotomy k n) as [?|[->|?]]; [|by left|by apply IH].
    specialize (Hmin k ltac:(lia) Hmk). lia.
Qed.

(** [mo] has the keys that the table shows. *)
Definition shows (mo : gmap Z (SLE F)) : Prop :=
  ∀ k, is_Some (mo !! k) ↔
    match items !! k with Some a => erased a = false | None => is_Some (m !! k) end.

(** The least key shown above [key], unless [last] is not above it. *)
Definition least_shown (mo : gmap Z (SLE F)) (key : Z) (last next : option Z) : Prop :=
  match next with
  | Some n => is_Some (mo !! n) ∧ key < n ∧
      ∀ k, key < k → is_Some (mo !! k) → n ≤ k ∨ ∃ l, last = Some l ∧ l ≤ k
  | None => ∀ k, key < k → is_Some (mo !! k) → ∃ l, last = Some l ∧ l ≤ k
  end.

Lemma lower_of_spec mo key last :
  shows mo →
  least_shown mo key last
    (lower_of (own_succ erased items key) (base_succ erased items base (S (size items)) key last)).
Proof.
  intros Hmo.
  assert (Hsz : (size (above key) < S (size items))%nat).
  { apply Nat.lt_succ_r. rewrite <- size_dom. apply subseteq_size. unfold above.
    intros k. rewrite elem_of_filter. by intros [_ ?]. }
  pose proof (base_succ_spec _ key last Hsz) as Hb. pose proof (own_succ_spec key) as Ho.
  destruct (base_succ erased items base (S (size items)) key last) as [n|].
  - destruct Hb as (Hlt & Hm & Hh & _ & Hmid).
    assert (Hmon : is_Some (mo !! n)).
    { apply Hmo. destruct (items !! n) as [a|] eqn:Ei; [|done].
      destruct (erased a) eqn:Ea; [|done]. destruct Hh. by exists a. }
    assert (Hbase : ∀ k, key < k → is_Some (mo !! k) → items !! k = None → n ≤ k).
    { intros k Hk Hs%Hmo Hi. rewrite Hi in Hs. destruct (Z.le_gt_cases n k); [done|].
      destruct (Hmid k ltac:(lia) Hs) as (a & Ha & _). congruence. }
    destruct (own_succ erased items key) as [o|]; simpl.
    + destruct Ho as (Hlto & (a & Ha & Hae) & Hmin).
      assert (Hmoo : is_Some (mo !! o)) by (apply Hmo; by rewrite Ha).
      assert (Hall : ∀ k, key < k → is_Some (mo !! k) → o ≤ k ∨ n ≤ k).
      { intros k Hk Hs. destruct (items !! k) as [a'|] eqn:Ei; [left|right; eauto].
        apply Hmo in Hs. rewrite Ei in Hs. eauto. }
      destruct (Z.ltb_spec o n); (split_and!; [done..|]); intros k Hk Hs;
        destruct (Hall k Hk Hs); left; lia.
    + split_and!; [done..|]. intros k Hk Hs. left. apply Hbase; [done..|].
      destruct (items !! k) as [a'|] eqn:Ei; [|done].
      apply Hmo in Hs. rewrite Ei, (Ho k a' Hk Ei) in Hs. done.
  - assert (Hbase : ∀ k, key < k → is_Some (mo !! k) → items !! k = None →
      ∃ l, last = Some l ∧ l ≤ k).
    { intros k Hk Hs%Hmo Hi. rewrite Hi in Hs.
      destruct (Hb k Hk Hs) as [(a & Ha & _)|?]; [congruence|done]. }
    destruct (own_succ erased items key) as [o|]; simpl.
    + destruct Ho as (Hlto & (a & Ha & Hae) & Hmin).
      split_and!; [apply Hmo; by rewrite Ha|done|]. intros k Hk Hs.
      destruct (items !! k) as [a'|] eqn:Ei; [left|right; eauto].
      apply Hmo in Hs. rewrite Ei in Hs. eauto.
    + intros k Hk Hs. apply Hbase; [done..|]. destruct (items !! k) as [a'|] eqn:Ei; [|done].
      apply Hmo in Hs. rewrite Ei, (Ho k a' Hk Ei) in Hs. done.
Qed.

Lemma table_succ_spec mo key last :
  shows mo → is_succ mo key last (table_succ erased items base key last).
Proof.
  intros Hmo. unfold table_succ. pose proof (lower_of_spec mo key last Hmo) as Hn.
  destruct (lower_of _ _) as [n|]; [|by destruct last].
  destruct Hn as (Hs & Hlt & Hmin). destruct last as [l|]; simpl.
  - destruct (Z.leb_spec l n).
    + intros k Hk Hsk. exists l. split; [done|].
      destruct (Hmin k Hk Hsk) as [?|(l' & [= <-] & ?)]; lia.
    + split_and!; [done..|intros ? [= <-]; lia|]. intros k Hk Hsk.
      destruct (Hmin k Hk Hsk) as [?|(l' & [= <-] & ?)]; lia.
  - split_and!; [done..|]. intros k Hk Hsk. by destruct (Hmin k Hk Hsk) as [?|(l' & ? & ?)].
Qed.
End SuccProof.

(** ** What a table means

    Both tables map keys to an action and an entry; for the meaning it only
    matters which of four effects an action has. *)

Inductive effect : Type := e_none | e_erase | e_insert | e_replace.

Definition points {F} (h : heap F) (p : sptr) (s : SLE F) : Prop :=
  deref h p = Some s ∧ sle_key s = pkey p.

(** The laws of a place where changes can be written, with the map it stands
    for: erasing and replacing need the key to be there, inserting needs it to
    be absent. *)
Class RawLaws {F V} `{!RawView F V} (h : heap F) (inv : V → Prop)
    (abs : V → gmap Z (SLE F)) : Prop := {
  rl_erase p v : inv v → is_Some (abs v !! pkey p) →
    ∃ v', rawErase h p v = Ret v' ∧ inv v' ∧ abs v' = delete (pkey p) (abs v);
  rl_insert p s v : inv v → points h p s → abs v !! pkey p = None →
    ∃ v', rawInsert h p v = Ret v' ∧ inv v' ∧ abs v' = <[pkey p := s]> (abs v);
  rl_replace p s v : inv v → points h p s → is_Some (abs v !! pkey p) →
    ∃ v', rawReplace h p v = Ret v' ∧ inv v' ∧ abs v' = <[pkey p := s]> (abs v);
  rl_destroy fee v : inv v →
    inv (rawDestroyXRP fee v) ∧ abs (rawDestroyXRP fee v) = abs v }.

Section Table.
Context {F A : Type} (eff : A → effect) (h : heap F) (m : gmap Z (SLE F)).
Implicit Types (items : gmap Z (A * sptr)).

Definition shown (i : option (A * sptr)) (b : option (SLE F)) : option (SLE F) :=
  match i with
  | None => b
  | Some (a, p) => match eff a with e_erase => None | _ => deref h p end
  end.

(** The map the table shows over the base map [m]. *)
Definition overlay items : gmap Z (SLE F) := merge shown items m.

Lemma lookup_overlay items k : overlay items !! k = shown (items !! k) (m !! k).
Proof. unfold overlay. rewrite lookup_merge. by destruct (items !! k), (m !! k). Qed.

(** The table invariant: every entry is filed under its key, entries that are
    not erased exist, and an entry is marked as inserted exactly when the base
    does not have it. *)
Definition item_ok (k : Z) (i : A * sptr) : Prop :=
  pkey i.2 = k ∧
  (eff i.1 ≠ e_erase → ∃ s, points h i.2 s) ∧
  (eff i.1 = e_insert ↔ m !! k = None).

Definition items_ok items : Prop := map_Forall item_ok items.

(** Cached entries are still the ones of the base. *)
Definition clean items : Prop :=
  map_Forall (λ k i, eff i.1 = e_none → deref h i.2 = m !! k) items.

Definition do_effect `{!RawView F V} (e : effect) (p : sptr) (v : V) : outcome V :=
  match e with
  | e_none => Ret v
  | e_erase => rawErase h p v
  | e_insert => rawInsert h p v
  | e_replace => rawReplace h p v
  end.

Lemma overlay_put items k a p s :
  eff a ≠ e_erase → deref h p = Some s →
  overlay (<[k := (a, p)]> items) = <[k := s]> (overlay items).
Proof.
  intros He Hp. apply map_eq. intros k'. rewrite lookup_overlay.
  destruct (decide (k' = k)) as [->|].
  - rewrite !lookup_insert_eq. simpl. by destruct (eff a).
  - by rewrite !lookup_insert_ne, lookup_overlay.
Qed.

Lemma overlay_put_erase items k a p :
  eff a = e_erase → overlay (<[k := (a, p)]> items) = delete k (overlay items).
Proof.
  intros He. apply map_eq. intros k'. rewrite lookup_overlay.
  destruct (decide (k' = k)) as [->|].
  - rewrite lookup_insert_eq, lookup_delete_eq. simpl. by rewrite He.
  - by rewrite lookup_insert_ne, lookup_delete_ne, lookup_overlay.
Qed.

Lemma overlay_drop items k :
  m !! k = None → overlay (delete k items) = delete k (overlay items).
Proof.
  intros Hm. apply map_eq. intros k'. rewrite lookup_overlay.
  destruct (decide (k' = k)) as [->|].
  - by rewrite !lookup_delete_eq.
  - by rewrite !lookup_delete_ne, lookup_overlay.
Qed.

Lemma items_ok_put items k i : items_ok items → item_ok k i → items_ok (<[k := i]> items).
Proof. intros. by apply map_Forall_insert_2. Qed.

Lemma items_ok_drop items k : items_ok items → items_ok (delete k items).
Proof. intros. by apply map_Forall_delete. Qed.

(** Writing out a list of items with distinct keys. *)
Lemma for_each_spec `{RawLaws F V h inv abs} (l : list (Z * (A * sptr))) (v : V) :
  NoDup l.*1 → inv v →
  Forall (λ x, item_ok x.1 x.2 ∧ abs v !! x.1 = m !! x.1) l →
  Forall (λ x, eff x.2.1 = e_none → deref h x.2.2 = m !! x.1) l →
  ∃ v', for_each (λ x, do_effect (eff x.2.1) x.2.2) l v = Ret v' ∧ inv v' ∧
    ∀ k, abs v' !! k = shown ((list_to_map l : gmap Z (A * sptr)) !! k) (abs v !! k).
Proof.
  revert v. induction l as [|[k [a p]] l IH]; intros v Hnd Hinv Hok Hcl.
  { exists v. split_and!; [done..|]. intros k. simpl. by rewrite lookup_empty. }
  rewrite fmap_cons in Hnd. apply NoDup_cons in Hnd as [Hk Hnd].
  cbn [for_each list_to_map]. apply Forall_cons in Hok as [[Hi Hv] Hok].
  apply Forall_cons in Hcl as [Hc Hcl]. destruct Hi as (Hp & Hs & Hins). cbn [fst snd] in *.
  assert (Hstep : ∃ v1, do_effect (eff a) p v = Ret v1 ∧ inv v1 ∧
    (∀ k', k' ≠ k → abs v1 !! k' = abs v !! k') ∧
    abs v1 !! k = shown (Some (a, p)) (abs v !! k)).
  { unfold do_effect, shown. destruct (eff a) eqn:He.
    - exists v. split_and!; try done. by rewrite Hc, Hv.
    - destruct (rl_erase p v Hinv) as (v1 & -> & Hinv1 & Habs).
      { rewrite Hp, Hv. destruct (m !! k) eqn:Em; [eauto|].
        discriminate (proj2 Hins eq_refl). }
      exists v1. split_and!; try done; rewrite Habs, Hp.
      + intros k' ?. by rewrite lookup_delete_ne.
      + by rewrite lookup_delete_eq.
    - destruct (Hs ltac:(done)) as (s & Hps).
      destruct (rl_insert p s v Hinv Hps) as (v1 & -> & Hinv1 & Habs).
      { rewrite Hp, Hv. by apply Hins. }
      exists v1. split_and!; try done; rewrite Habs, Hp.
      + intros k' ?. by rewrite lookup_insert_ne.
      + rewrite lookup_insert_eq. symmetry. apply Hps.
    - destruct (Hs ltac:(done)) as (s & Hps).
      destruct (rl_replace p s v Hinv Hps) as (v1 & -> & Hinv1 & Habs).
      { rewrite Hp, Hv. destruct (m !! k) eqn:Em; [eauto|].
        discriminate (proj2 Hins eq_refl). }
      exists v1. split_and!; try done; rewrite Habs, Hp.
      + intros k' ?. by rewrite lookup_insert_ne.
      + rewrite lookup_insert_eq. symmetry. apply Hps. }
  destruct Hstep as (v1 & -> & Hinv1 & Hne & Heq). simpl.
  destruct (IH v1 Hnd Hinv1) as (v2 & -> & Hinv2 & Habs2); [|done|].
  { apply Forall_forall. intros x Hx. rewrite Forall_forall in Hok. destruct (Hok x Hx) as [? Hxv].
    split; [done|]. rewrite Hne; [done|]. intros Hxk. apply Hk. rewrite <- Hxk.
    apply list_elem_of_fmap. by exists x. }
  exists v2. split_and!; [done..|]. intros k'. rewrite Habs2.
  destruct (decide (k' = k)) as [->|Hkk].
  - rewrite lookup_insert_eq, Heq. by rewrite (proj1 (not_elem_of_list_to_map l k) Hk).
  - by rewrite lookup_insert_ne, Hne.
Qed.
End Table.

Lemma in_order_list_to_map {A} (m : gmap Z A) : list_to_map (in_order m) = m.
Proof.
  rewrite <- (list_to_map_to_list m) at 2. apply list_to_map_proper; [apply in_order_NoDup|].
  apply merge_sort_Permutation.
Qed.

Section TableLaws.
Context {F A : Type} (eff : A → effect).
Implicit Types (items : gmap Z (A * sptr)) (m : gmap Z (SLE F)) (h : heap F).

(** Applying a table to its own base makes the changes the table shows. *)
Lemma apply_spec `{RawLaws F V h inv abs} m items (v : V) fee :
  inv v → abs v = m → items_ok eff h m items → clean eff h m items →
  ∃ v', for_each (λ x, do_effect h (eff x.2.1) x.2.2) (in_order items) (rawDestroyXRP fee v) = Ret v' ∧
    inv v' ∧ abs v' = overlay eff h m items.
Proof.
  intros Hinv <- Hok Hcl. destruct (rl_destroy fee v Hinv) as [Hinv' Habs].
  destruct (for_each_spec eff h (abs v) (in_order items) (rawDestroyXRP fee v))
    as (v' & Hv' & Hinv2 & Hl).
  - apply in_order_NoDup.
  - done.
  - apply Forall_forall. intros [k [a p]] Hin%elem_of_in_order. rewrite Habs. split; [|done].
    apply (Hok k (a, p) Hin).
  - apply Forall_forall. intros [k [a p]] Hin%elem_of_in_order. apply (Hcl k (a, p) Hin).
  - exists v'. split_and!; [done..|]. apply map_eq. intros k.
    by rewrite Hl, in_order_list_to_map, Habs, lookup_overlay.
Qed.

(** The items of a table over [m] with the keys of its base. *)
Lemma items_show h m items (is_erase : A * sptr → bool) :
  (∀ i, is_erase i = true ↔ eff i.1 = e_erase) →
  items_ok eff h m items → shows is_erase items m (overlay eff h m items).
Proof.
  intros He Hok k. rewrite lookup_overlay. destruct (items !! k) as [[a p]|] eqn:Ei; [|done].
  simpl. destruct (Hok k (a, p) Ei) as (_ & Hs & _). specialize (He (a, p)). simpl in *.
  destruct (is_erase (a, p)).
  - rewrite (proj1 He eq_refl). split; [by intros [??]|done].
  - split; [done|]. intros _.
    assert (eff a ≠ e_erase) as Hne by (intros E; by apply He in E).
    destruct (Hs Hne) as (s & Hd & _). destruct (eff a); try done; by exists s.
Qed.
End TableLaws.

(** The key of every entry of a map is where it is stored. *)
Definition keyed {F} (m : gmap Z (SLE F)) : Prop := map_Forall (λ k s, sle_key s = k) m.

#[export] Instance ledger_laws {F} (h : heap F) :
  RawLaws h (λ l : LedgerState F, keyed (l_map l)) l_map.
Proof.
  split.
  - intros p l Hk [s Hs]. simpl. unfold ledger_rawErase. rewrite Hs.
    eexists. split_and!; [done| |done]. by apply map_Forall_delete.
  - intros p s l Hk [Hd Hkey] Hn. simpl. unfold ledger_rawInsert. rewrite Hd, Hn.
    eexists. split_and!; [done| |done]. by apply map_Forall_insert_2.
  - intros p s l Hk [Hd Hkey] [s' Hs]. simpl. unfold ledger_rawReplace. rewrite Hd, Hs.
    eexists. split_and!; [done| |done]. by apply map_Forall_insert_2.
  - done.
Qed.

(** ** RawStateTable implements the abstract state *)

Module RawProofs.
Import Raw.

Definition eff (a : RawAction) : effect :=
  match a with erase => e_erase | insert => e_insert | replace => e_replace end.

Section Proofs.
Context {F : Type} (h : heap F) (m : gmap Z (SLE F)).

Definition ok (t : RawStateTable) : Prop := items_ok eff h m (items_ t).
Definition state (t : RawStateTable) : gmap Z (SLE F) := overlay eff h m (items_ t).

Lemma raw_view_correct (base : ReadView F) `{!ViewOf base m} t :
  ok t → ViewOf (raw_view h base t) (state t).
Proof.
  intros Hok.
  assert (Hread : ∀ k, raw_read h base t k = lookup_kl (state t) k).
  { intros k. unfold raw_read, lookup_kl, state. rewrite lookup_overlay, vo_read.
    destruct (items_ t !! kl_key k) as [[[] p]|]; simpl; [done| | |done]; by destruct (deref h p). }
  split; [exact Hread| |].
  - intros k. simpl. rewrite <- Hread. unfold raw_exists, raw_read. rewrite vo_exists, vo_read.
    destruct (items_ t !! kl_key k) as [[[] p]|]; [done| | |done];
      destruct (deref h p) as [s|]; try done; by destruct (check k s).
  - intros key last. apply (table_succ_spec _ _ base m). apply items_show; [|done].
    intros [[] p]; simpl; split; done.
Qed.

#[export] Instance raw_laws : RawLaws h ok state.
Proof.
  split.
  - intros p t Hok [s Hs]. simpl. unfold raw_erase. unfold state in *.
    rewrite lookup_overlay in Hs.
    destruct (items_ t !! pkey p) as [[[] q]|] eqn:Ei; simpl in Hs; [done|..].
    + destruct (Hok _ _ Ei) as (_ & _ & Hins). simpl in Hins.
      eexists. split_and!; [done|by apply items_ok_drop|]. apply overlay_drop. by apply Hins.
    + destruct (Hok _ _ Ei) as (_ & _ & Hins). simpl in Hins.
      eexists. split_and!; [done| |by apply overlay_put_erase].
      apply items_ok_put; [done|]. split_and!; [done..|]. simpl.
      split; [done|]. intros E. by apply Hins in E.
    + eexists. split_and!; [done| |by apply overlay_put_erase].
      apply items_ok_put; [done|]. split_and!; [done..|]. simpl. by rewrite Hs.
  - intros p s t Hok Hp Hn. simpl. unfold raw_insert. unfold state in *.
    rewrite lookup_overlay in Hn.
    destruct (items_ t !! pkey p) as [[a q]|] eqn:Ei; simpl in Hn.
    + destruct (Hok _ _ Ei) as (Hq & Hs & Hins). simpl in *.
      assert (a = erase) as ->.
      { destruct a; [done|..]; destruct (Hs ltac:(done)) as (s' & Hd & _); simpl in Hn; congruence. }
      eexists. split_and!; [done| |by apply overlay_put; [|apply Hp]].
      apply items_ok_put; [done|]. split_and!; [done|eauto|]. simpl.
      split; [done|]. intros E. by apply Hins in E.
    + eexists. split_and!; [done| |by apply overlay_put; [|apply Hp]].
      apply items_ok_put; [done|]. split_and!; [done|eauto|]. simpl. done.
  - intros p s t Hok Hp [s' Hs']. simpl. unfold raw_replace. unfold state in *.
    rewrite lookup_overlay in Hs'.
    destruct (items_ t !! pkey p) as [[a q]|] eqn:Ei; simpl in Hs'.
    + destruct (Hok _ _ Ei) as (Hq & Hs & Hins). simpl in *.
      destruct a; simpl in *; [done|..];
        (eexists; split_and!; [done| |by apply overlay_put; [|apply Hp]]);
        apply items_ok_put; try done; (split_and!; [done|eauto|]); done.
    + eexists. split_and!; [done| |by apply overlay_put; [|apply Hp]].
      apply items_ok_put; [done|]. split_and!; [done|eauto|]. simpl. by rewrite Hs'.
  - done.
Qed.
End Proofs.
End RawProofs.

(** ** ApplyStateTable implements the abstract state *)

Module ApplyProofs.
Import Apply.

Definition eff (a : ApplyAction) : effect :=
  match a with cache => e_none | erase => e_erase | insert => e_insert | modify => e_replace end.

Lemma is_erase_eff (i : ApplyAction * sptr) : ap_is_erase i = true ↔ eff i.1 = e_erase.
Proof. destruct i as [[] p]; simpl; split; done. Qed.

Section Proofs.
Context {F : Type}.
Implicit Types (h : heap F) (m : gmap Z (SLE F)) (t : ApplyStateTable).

Definition state h m t : gmap Z (SLE F) := overlay eff h m (items_ t).

(** The invariant: well-formed items, and no unsaved change to a cached entry. *)
Definition ok h m t : Prop := items_ok eff h m (items_ t) ∧ clean eff h m (items_ t).

Lemma apply_view_correct h m (base : ReadView F) `{!ViewOf base m} t :
  ok h m t → ViewOf (ap_view base h t) (state h m t).
Proof.
  intros [Hok _].
  assert (Hread : ∀ k, ap_read base h t k = lookup_kl (state h m t) k).
  { intros k. unfold ap_read, lookup_kl, state. rewrite lookup_overlay, vo_read.
    destruct (items_ t !! kl_key k) as [[[] p]|]; simpl; try done; by destruct (deref h p). }
  split; [exact Hread| |].
  - intros k. simpl. rewrite <- Hread. unfold ap_exists, ap_read. rewrite vo_exists, vo_read.
    destruct (items_ t !! kl_key k) as [[[] p]|]; try done;
      destruct (deref h p) as [s|]; try done; by destruct (check k s).
  - intros key last. apply (table_succ_spec _ _ base m). apply items_show; [|done].
    apply is_erase_eff.
Qed.

Lemma clean_put h m (items : gmap Z (ApplyAction * sptr)) k a p :
  eff a ≠ e_none → clean eff h m items → clean eff h m (<[k := (a, p)]> items).
Proof. intros Ha Hc. by apply map_Forall_insert_2. Qed.

Lemma clean_drop h m (items : gmap Z (ApplyAction * sptr)) k :
  clean eff h m items → clean eff h m (delete k items).
Proof. intros. by apply map_Forall_delete. Qed.

(** Storing an entry, or its deletion, under an action that agrees with the
    base. *)
Lemma put_spec h m t k a p s :
  ok h m t → eff a ≠ e_none → eff a ≠ e_erase → pkey p = k → points h p s →
  (eff a = e_insert ↔ m !! k = None) →
  ok h m (ap_put k (a, p) t) ∧ state h m (ap_put k (a, p) t) = <[k := s]> (state h m t).
Proof.
  intros [Hok Hcl] Hn He Hp Hps Hins. split; [split|].
  - apply items_ok_put; [done|]. split_and!; [done|eauto|done].
  - by apply clean_put.
  - apply overlay_put; [done|apply Hps].
Qed.

Lemma put_erase_spec h m t k p :
  ok h m t → pkey p = k → m !! k ≠ None →
  ok h m (ap_put k (erase, p) t) ∧ state h m (ap_put k (erase, p) t) = delete k (state h m t).
Proof.
  intros [Hok Hcl] Hp Hm. split; [split|].
  - apply items_ok_put; [done|]. by split_and!.
  - by apply clean_put.
  - by apply overlay_put_erase.
Qed.

Lemma drop_spec h m t k :
  ok h m t → m !! k = None →
  ok h m (ap_drop k t) ∧ state h m (ap_drop k t) = delete k (state h m t).
Proof.
  intros [Hok Hcl] Hm. split; [split|].
  - by apply items_ok_drop.
  - by apply clean_drop.
  - by apply overlay_drop.
Qed.

(** What is known of a key from the state of the table. *)
Lemma item_cases h m t k :
  ok h m t →
  match items_ t !! k with
  | None => state h m t !! k = m !! k
  | Some (erase, p) => state h m t !! k = None ∧ m !! k ≠ None
  | Some (insert, p) => (∃ s, points h p s ∧ state h m t !! k = Some s) ∧ pkey p = k ∧ m !! k = None
  | Some (_, p) => (∃ s, points h p s ∧ state h m t !! k = Some s) ∧ pkey p = k ∧ m !! k ≠ None
  end.
Proof.
  intros [Hok _]. unfold state. rewrite lookup_overlay.
  destruct (items_ t !! k) as [[a p]|] eqn:Ei; [|done].
  destruct (Hok k (a, p) Ei) as (Hp & Hs & Hins). simpl in *.
  assert (Hne : eff a ≠ e_insert → m !! k ≠ None) by (intros Ha E; by apply Hins in E).
  destruct a; simpl in *; [destruct (Hs ltac:(done)) as (s & Hps)| |
    destruct (Hs ltac:(done)) as (s & Hps)|destruct (Hs ltac:(done)) as (s & Hps)].
  - split_and!; [exists s; split; [done|apply Hps]|done|by apply Hne].
  - split; [done|by apply Hne].
  - split_and!; [exists s; split; [done|apply Hps]|done|by apply Hins].
  - split_and!; [exists s; split; [done|apply Hps]|done|by apply Hne].
Qed.

#[export] Instance apply_laws h m : RawLaws h (ok h m) (state h m).
Proof.
  split.
  - intros p t Hok [s Hs]. simpl. unfold ap_rawErase.
    pose proof (item_cases h m t (pkey p) Hok) as Hi.
    destruct (items_ t !! pkey p) as [[[] q]|]; rewrite ?Hs in Hi.
    + eexists. split; [done|]. apply put_erase_spec; [done..|apply Hi].
    + by destruct Hi.
    + eexists. split; [done|]. apply drop_spec; [done|apply Hi].
    + eexists. split; [done|]. apply put_erase_spec; [done..|apply Hi].
    + eexists. split; [done|]. apply put_erase_spec; [done..|]. by rewrite <- Hi.
  - intros p s t Hok Hp Hn. simpl. unfold ap_insert.
    pose proof (item_cases h m t (pkey p) Hok) as Hi. rewrite Hn in Hi.
    destruct (items_ t !! pkey p) as [[[] q]|];
      [by destruct Hi as [(? & _ & ?) _]| |by destruct Hi as [(? & _ & ?) _]..|].
    + eexists. split; [done|]. apply put_spec; try done. simpl. split; [done|].
      by intros ?%(proj2 Hi).
    + eexists. split; [done|]. by apply put_spec.
  - intros p s t Hok Hp [s' Hs']. simpl. unfold ap_replace.
    pose proof (item_cases h m t (pkey p) Hok) as Hi. rewrite Hs' in Hi.
    destruct (items_ t !! pkey p) as [[[] q]|].
    + eexists. split; [done|]. apply put_spec; try done. simpl. split; [done|].
      by intros ?%(proj2 (proj2 Hi)).
    + by destruct Hi.
    + eexists. split; [done|]. apply put_spec; try done. simpl. split; [|done].
      intros _. apply Hi.
    + eexists. split; [done|]. apply put_spec; try done. simpl. split; [done|].
      by intros ?%(proj2 (proj2 Hi)).
    + eexists. split; [done|]. apply put_spec; try done. simpl. by rewrite <- Hi.
  - done.
Qed.

(** *** Entries handed out to clients *)

Lemma points_mono h h' p s : h ⊆ h' → points h p s → points h' p s.
Proof. intros Hh [Hd Hk]. split; [|done]. by eapply lookup_weaken. Qed.

(** A larger heap does not change the meaning of a table. *)
Lemma heap_mono h h' m t :
  h ⊆ h' → ok h m t → ok h' m t ∧ state h' m t = state h m t.
Proof.
  intros Hh Hok. pose proof (item_cases h m t) as Hcases.
  assert (Hd : ∀ k a p, items_ t !! k = Some (a, p) → eff a ≠ e_erase → deref h' p = deref h p).
  { intros k a p Hi Ha. specialize (Hcases k Hok). rewrite Hi in Hcases.
    destruct a; try done; destruct Hcases as [(s & Hps & _) _];
      rewrite (proj1 Hps); by apply (points_mono h h'). }
  destruct Hok as [Hok Hcl]. split; [split|].
  - intros k [a p] Hi. destruct (Hok k _ Hi) as (Hp & Hs & Hins). split_and!; [done| |done].
    intros Ha. destruct (Hs Ha) as (s & Hps). exists s. by apply (points_mono h h').
  - intros k [a p] Hi Ha. simpl in *. rewrite (Hd k a p Hi); [|by destruct a].
    by apply (Hcl k (a, p) Hi).
  - unfold state. apply map_eq. intros k. rewrite !lookup_overlay.
    destruct (items_ t !! k) as [[a p]|] eqn:Ei; [|done]. simpl.
    destruct (eff a) eqn:Ea; try done; rewrite (Hd k a p Ei); congruence.
Qed.

Lemma alloc_spec h (s : SLE F) :
  let '(p, h') := alloc h s in h ⊆ h' ∧ points h' p s ∧ pkey p = sle_key s.
Proof.
  unfold alloc. split_and!; [|split; [|done]|done].
  - apply insert_subseteq. apply not_elem_of_dom. apply is_fresh.
  - unfold deref. simpl. by rewrite lookup_insert_eq.
Qed.

(** The table holds [p] for writing. *)
Definition holds (t : ApplyStateTable) (p : sptr) : Prop :=
  ∃ a, items_ t !! pkey p = Some (a, p) ∧ a ≠ erase.

Lemma put_cache_spec h m t p s :
  ok h m t → items_ t !! pkey p = None → points h p s → m !! pkey p = Some s →
  ok h m (ap_put (pkey p) (cache, p) t) ∧
  state h m (ap_put (pkey p) (cache, p) t) = state h m t.
Proof.
  intros [Hok Hcl] Hi Hps Hm. split; [split|].
  - apply items_ok_put; [done|]. split_and!; [done|eauto|]. simpl. by rewrite Hm.
  - apply map_Forall_insert_2; [|done]. intros _. simpl. rewrite Hm. apply Hps.
  - unfold state. simpl. rewrite (overlay_put _ _ _ _ _ _ _ s); [|done|apply Hps].
    apply insert_id. by rewrite lookup_overlay, Hi.
Qed.

Lemma peek_spec h m (base : ReadView F) `{!ViewOf base m} t k :
  keyed m → ok h m t →
  let '(r, h', t') := ap_peek base k h t in
  h ⊆ h' ∧ ok h' m t' ∧ state h' m t' = state h m t ∧
  match r with
  | Some p => ∃ s, points h' p s ∧ pkey p = kl_key k ∧ holds t' p ∧
      lookup_kl (state h m t) k = Some s
  | None => lookup_kl (state h m t) k = None
  end.
Proof.
  intros Hkey Hok. unfold ap_peek. pose proof (item_cases h m t (kl_key k) Hok) as Hi.
  unfold lookup_kl. destruct (items_ t !! kl_key k) as [[a p]|] eqn:Ei.
  - assert (Hfound : a ≠ erase → ∃ s, points h p s ∧ pkey p = kl_key k ∧
      state h m t !! kl_key k = Some s).
    { destruct a; [intros _|done|intros _..]; destruct Hi as [(s & Hps & Hst) [Hp _]]; eauto. }
    destruct (decide (a = erase)) as [->|Ha].
    { split_and!; try done. by rewrite (proj1 Hi). }
    destruct (Hfound Ha) as (s & Hps & Hp & Hst). clear Hi Hfound.
    assert (Hpk : match a with
      | erase => (None, h, t)
      | _ => match deref h p with
             | Some sle => (if check k sle then Some p else None, h, t)
             | None => (None, h, t)
             end
      end = (if check k s then Some p else None, h, t)).
    { rewrite (proj1 Hps). by destruct a. }
    rewrite Hpk, Hst. destruct (check k s); split_and!; try done.
    exists s. split_and!; try done. exists a. by rewrite Hp.
  - rewrite vo_read. unfold lookup_kl. rewrite Hi.
    destruct (m !! kl_key k) as [s|] eqn:Em; [|by split_and!].
    destruct (check k s); [|by split_and!].
    pose proof (alloc_spec h s) as Ha. destruct (alloc h s) as [p h'].
    destruct Ha as (Hh & Hps & Hp). pose proof (Hkey _ _ Em) as Hks.
    destruct (heap_mono h h' m t Hh Hok) as [Hok' Hst].
    rewrite <- Hst, <- Hp. destruct (put_cache_spec h' m t p s Hok') as [Hok2 Hst2].
    { by rewrite Hp, Hks. } { done. } { by rewrite Hp, Hks. }
    split_and!; [done..|]. exists s. split_and!; [done|congruence| |done].
    exists cache. split; [|done]. simpl. by rewrite lookup_insert_eq.
Qed.

(** Writing through a held pointer changes only what is filed under its key. *)
Lemma write_deref h m t p s s' k a q :
  ok h m t → holds t p → points h p s → sle_key s' = pkey p →
  items_ t !! k = Some (a, q) → a ≠ erase → k ≠ pkey p →
  deref (<[addr p := s']> h) q = deref h q.
Proof.
  intros Hok Hh Hps Hs' Hi Ha Hk. unfold deref. apply lookup_insert_ne.
  intros E. pose proof (item_cases h m t k Hok) as Hc. rewrite Hi in Hc.
  assert (∃ sq, points h q sq ∧ pkey q = k) as (sq & Hq & Hqk).
  { destruct a; [|done|..]; destruct Hc as [(sq & Hq & _) [Hk' _]]; eauto. }
  destruct Hq as [Hd1 Hk1], Hps as [Hd2 Hk2]. unfold deref in *. rewrite E in Hd2. congruence.
Qed.

Lemma update_spec h m t p s s' :
  ok h m t → holds t p → points h p s → sle_key s' = pkey p →
  let h' := <[addr p := s']> h in
  ∃ t', ap_update p t = Ret t' ∧ ok h' m t' ∧ holds t' p ∧
    state h' m t' = <[pkey p := s']> (state h m t).
Proof.
  intros Hok Hh Hps Hs'. simpl. set (h' := <[addr p := s']> h).
  assert (Hps' : points h' p s') by (split; [unfold deref, h'; by rewrite lookup_insert_eq|done]).
  pose proof (λ k a q, write_deref h m t p s s' k a q Hok Hh Hps Hs') as Hw. fold h' in Hw.
  destruct Hh as (a & Hi & Ha). unfold ap_update. rewrite Hi, bool_decide_true by done.
  set (a' := match a with cache => modify | _ => a end).
  exists (ap_put (pkey p) (a', p) t). pose proof Hok as [Hio Hcl].
  assert (Hput : ∀ a0, items_ t !! pkey p = Some (a0, p) → ap_put (pkey p) (a0, p) t = t).
  { intros a0 H0. destruct t as [it d]. unfold ap_put. simpl in *. by rewrite insert_id. }
  split. { destruct a; [done|done|..]; unfold a'; by rewrite Hput. }
  destruct (Hio _ _ Hi) as (Hk & _ & Hins). simpl in Hins.
  split; [split|split].
  - intros k [b q]. simpl. destruct (decide (k = pkey p)) as [->|Hk'].
    + rewrite lookup_insert_eq. intros [= <- <-]. split_and!; [done|eauto|].
      simpl. rewrite <- Hins. unfold a'. by destruct a.
    + rewrite lookup_insert_ne by done. intros Hq. destruct (Hio _ _ Hq) as (Hqk & Hqs & Hqi).
      split_and!; [done| |done]. intros Hb. destruct (Hqs Hb) as (sq & Hd & Hsk).
      exists sq. split; [|done]. simpl in *. rewrite (Hw k b q); try done. by intros ->.
  - intros k [b q]. simpl. destruct (decide (k = pkey p)) as [->|Hk'].
    + rewrite lookup_insert_eq. intros [= <- <-]. unfold a'. by destruct a.
    + rewrite lookup_insert_ne by done. intros Hq Hb. simpl in Hb.
      rewrite (Hw k b q); try done; [by apply (Hcl _ _ Hq)|]. by intros ->.
  - exists a'. simpl. rewrite lookup_insert_eq. split; [done|]. unfold a'. by destruct a.
  - unfold state. apply map_eq. intros k. rewrite lookup_overlay. simpl.
    destruct (decide (k = pkey p)) as [->|Hk'].
    + rewrite !lookup_insert_eq. simpl. rewrite (proj1 Hps'). unfold a'. by destruct a.
    + rewrite !lookup_insert_ne, lookup_overlay by done.
      destruct (items_ t !! k) as [[b q]|] eqn:Eq; [|done]. simpl.
      destruct (eff b) eqn:Eb; try done; apply (Hw k b q); try done; by intros ->.
Qed.

Lemma erase_spec h m t p :
  ok h m t → holds t p →
  ∃ t', ap_erase p t = Ret t' ∧ ok h m t' ∧ state h m t' = delete (pkey p) (state h m t).
Proof.
  intros Hok (a & Hi & Ha). pose proof (item_cases h m t (pkey p) Hok) as Hc.
  unfold ap_erase. rewrite Hi in *. rewrite bool_decide_true by done.
  destruct a; [|done|..]; eexists; (split; [done|]).
  - apply put_erase_spec; [done..|apply Hc].
  - apply drop_spec; [done|apply Hc].
  - apply put_erase_spec; [done..|apply Hc].
Qed.
End Proofs.
End ApplyProofs.

(** ** The theorems *)

Lemma for_each_ext {A V} (f g : A → V → outcome V) l v :
  (∀ x v, f x v = g x v) → for_each f l v = for_each g l v.
Proof.
  intros Hfg. revert v. induction l as [|x l IH]; intros v; simpl; [done|].
  rewrite Hfg. destruct (g x v); simpl; [apply IH|done].
Qed.

Lemma for_each_keeps {A V B} (f : A → V → outcome V) (g : V → B) l v v' :
  (∀ x v v', f x v = Ret v' → g v' = g v) → for_each f l v = Ret v' → g v' = g v.
Proof.
  intros Hf. revert v. induction l as [|x l IH]; intros v; simpl; [by intros [= <-]|].
  destruct (f x v) as [v1|] eqn:E; simpl; [|done]. intros Hv. rewrite (IH _ Hv). by eapply Hf.
Qed.

Lemma ledger_effect_drops {F} (h : heap F) e p (l l' : LedgerState F) :
  do_effect h e p l = Ret l' → l_drops l' = l_drops l.
Proof.
  destruct e; simpl; [by intros [= <-]|..];
    unfold ledger_rawErase, ledger_rawInsert, ledger_rawReplace;
    repeat case_match; intros [= <-]; done.
Qed.

Lemma raw_apply_effects {F V} `{!RawView F V} (h : heap F) (t : Raw.RawStateTable) (v : V) :
  Raw.raw_apply h t v =
    for_each (λ x, do_effect h (RawProofs.eff x.2.1) x.2.2) (in_order (Raw.items_ t))
      (rawDestroyXRP (Raw.dropsDestroyed_ t) v).
Proof. apply for_each_ext. by intros [k [[] p]] v'. Qed.

Lemma apply_apply_effects {F V} `{!RawView F V} (h : heap F) (t : Apply.ApplyStateTable) (v : V) :
  Apply.ap_apply h t v =
    for_each (λ x, do_effect h (ApplyProofs.eff x.2.1) x.2.2) (in_order (Apply.items_ t))
      (rawDestroyXRP (Apply.dropsDestroyed_ t) v).
Proof. apply for_each_ext. by intros [k [[] p]] v'. Qed.

(** a [RawStateTable] over a base view is the base map with the buffered
    changes made: reads, existence checks and successor searches through it see
    exactly that map; inserting, replacing and erasing change it as on a map;
    and applying the table to the ledger it is based on writes that map and
    destroys the accumulated fees. *)
Theorem RawStateTable_correct {F} (h : heap F) (m : gmap Z (SLE F)) (base : ReadView F)
    (t : Raw.RawStateTable) (p : sptr) (s : SLE F) (l : LedgerState F)
    (Hb : ViewOf base m) (Hok : RawProofs.ok h m t) (Hp : points h p s)
    (Hkey : keyed m) (Hl : l_map l = m) :
  let state := RawProofs.state h m in
  let ok := RawProofs.ok h m in
  ViewOf (Raw.raw_view h base t) (state t) ∧
  (state t !! pkey p = None → ∃ t', Raw.raw_insert p t = Ret t' ∧ ok t' ∧
     state t' = <[pkey p := s]> (state t)) ∧
  (is_Some (state t !! pkey p) → ∃ t', Raw.raw_replace p t = Ret t' ∧ ok t' ∧
     state t' = <[pkey p := s]> (state t)) ∧
  (is_Some (state t !! pkey p) → ∃ t', Raw.raw_erase p t = Ret t' ∧ ok t' ∧
     state t' = delete (pkey p) (state t)) ∧
  (∃ l', Raw.raw_apply h t l = Ret l' ∧ l_map l' = state t ∧
     l_drops l' = xrp_sub (l_drops l) (Raw.dropsDestroyed_ t)).
Proof.
  cbv zeta. split_and!.
  - by apply RawProofs.raw_view_correct.
  - exact (@rl_insert _ _ _ _ _ _ (RawProofs.raw_laws h m) p s t Hok Hp).
  - exact (@rl_replace _ _ _ _ _ _ (RawProofs.raw_laws h m) p s t Hok Hp).
  - exact (@rl_erase _ _ _ _ _ _ (RawProofs.raw_laws h m) p t Hok).
  - rewrite raw_apply_effects.
    destruct (apply_spec (H := ledger_laws h) RawProofs.eff m (Raw.items_ t) l (Raw.dropsDestroyed_ t))
      as (l' & Hl' & _ & Habs); [by rewrite Hl|done|done| |].
    { intros k [a q] _ Ha. by destruct a. }
    exists l'. split_and!; [done..|]. apply (for_each_keeps _ l_drops) in Hl'; [done|].
    intros x v v'. apply ledger_effect_drops.
Qed.

(** The view of an empty ledger, for the witnesses. *)
Definition empty_view {F} : ReadView F := mkView (λ _, false) (λ _, None) (λ _ _, None).

Lemma empty_view_of {F} : ViewOf (@empty_view F) ∅.
Proof.
  split.
  - intros k. unfold lookup_kl. by rewrite lookup_empty.
  - intros k. unfold lookup_kl. by rewrite lookup_empty.
  - intros key last k _ [? H]. by rewrite lookup_empty in H.
Qed.

Lemma RawStateTable_correct_witness :
  let s := mkSLE 5 97 tt in
  let h : heap unit := {[1%positive := s]} in
  ∃ l', Raw.raw_apply h (Raw.mkRaw {[5 := (Raw.insert, mkPtr 1 5)]} (mkXRP 10))
          (mkLedger ∅ (mkXRP 100)) = Ret l' ∧
    l_map l' = RawProofs.state h ∅ (Raw.mkRaw {[5 := (Raw.insert, mkPtr 1 5)]} (mkXRP 10)) ∧
    l_drops l' = xrp_sub (mkXRP 100) (mkXRP 10).
Proof.
  intros s h.
  assert (Hp : points h (mkPtr 1 5) s) by (split; reflexivity).
  destruct (RawStateTable_correct h ∅ empty_view
    (Raw.mkRaw {[5 := (Raw.insert, mkPtr 1 5)]} (mkXRP 10)) (mkPtr 1 5) s
    (mkLedger ∅ (mkXRP 100)) empty_view_of) as (_ & _ & _ & _ & Ha).
  - intros k i Hi. cbn [Raw.items_] in Hi. apply lookup_singleton_Some in Hi as [<- <-].
    split; [reflexivity|]. split; [intros _; exists s; exact Hp|]. split; reflexivity.
  - exact Hp.
  - intros k x Hx. by rewrite lookup_empty in Hx.
  - reflexivity.
  - exact Ha.
Defined.

(** an [ApplyStateTable] over a base view: reads through it see the base map
    with its changes made; [peek] changes nothing and hands out a pointer to the
    current entry exactly when the keylet finds one; writing through that
    pointer and calling [update] stores the new entry and touches no other key;
    [erase] removes it; [insert] adds an entry under a free key. *)
Theorem ApplyStateTable_correct {F} (h : heap F) (m : gmap Z (SLE F)) (base : ReadView F)
    (t : Apply.ApplyStateTable) (k : Keylet)
    (Hb : ViewOf base m) (Hkey : keyed m) (Hok : ApplyProofs.ok h m t) :
  let state := ApplyProofs.state in
  ViewOf (Apply.ap_view base h t) (state h m t) ∧
  (let '(r, h1, t1) := Apply.ap_peek base k h t in
   ApplyProofs.ok h1 m t1 ∧ state h1 m t1 = state h m t ∧
   match r with
   | None => lookup_kl (state h m t) k = None
   | Some p => (∃ s, points h1 p s ∧ lookup_kl (state h m t) k = Some s) ∧
       pkey p = kl_key k ∧
       (∀ s', sle_key s' = kl_key k →
          ∃ t2, Apply.ap_update p t1 = Ret t2 ∧ ApplyProofs.ok (<[addr p := s']> h1) m t2 ∧
            state (<[addr p := s']> h1) m t2 = <[kl_key k := s']> (state h m t)) ∧
       (∃ t2, Apply.ap_erase p t1 = Ret t2 ∧ ApplyProofs.ok h1 m t2 ∧
          state h1 m t2 = delete (kl_key k) (state h m t))
   end) ∧
  (∀ p s, points h p s → state h m t !! pkey p = None →
     ∃ t', Apply.ap_insert p t = Ret t' ∧ ApplyProofs.ok h m t' ∧
       state h m t' = <[pkey p := s]> (state h m t)).
Proof.
  cbv zeta. split_and!.
  - by apply ApplyProofs.apply_view_correct.
  - pose proof (ApplyProofs.peek_spec h m base t k Hkey Hok) as Hpk.
    destruct (Apply.ap_peek base k h t) as [[[p|] h1] t1].
    2:{ destruct Hpk as (_ & Hok1 & Hst & Hr). done. }
    destruct Hpk as (_ & Hok1 & Hst & s & Hps & Hp & Hh & Hl).
    split_and!; [done..|eauto|done| |].
    + intros s' Hs'. rewrite <- Hp in Hs'.
      destruct (ApplyProofs.update_spec h1 m t1 p s s' Hok1 Hh Hps Hs') as (t2 & Hu & Hok2 & _ & Hst2).
      exists t2. rewrite Hst2, Hst, Hp. done.
    + destruct (ApplyProofs.erase_spec h1 m t1 p Hok1 Hh) as (t2 & He & Hok2 & Hst2).
      exists t2. rewrite Hst2, Hst, Hp. done.
  - intros p s Hps Hn.
    exact (@rl_insert _ _ _ _ _ _ (ApplyProofs.apply_laws h m) p s t Hok Hps Hn).
Qed.

Lemma ApplyStateTable_correct_witness :
  let s := mkSLE 5 97 0 in
  let h : heap Z := {[1%positive := s]} in
  let t := Apply.mkApply {[5 := (Apply.insert, mkPtr 1 5)]} xrp_zero in
  Apply.ap_peek empty_view (mkKeylet 97 5) h t = (Some (mkPtr 1 5), h, t) ∧
  (∃ t2, Apply.ap_update (mkPtr 1 5) t = Ret t2 ∧
     ApplyProofs.state (<[1%positive := mkSLE 5 97 42]> h) ∅ t2
     = <[5 := mkSLE 5 97 42]> (ApplyProofs.state h ∅ t)).
Proof.
  intros s h t. split; [reflexivity|].
  destruct (ApplyStateTable_correct h ∅ empty_view t (mkKeylet 97 5) empty_view_of)
    as (_ & Hpk & _).
  - intros k x Hx. by rewrite lookup_empty in Hx.
  - split.
    + intros k i Hi. cbn [Apply.items_ t] in Hi. apply lookup_singleton_Some in Hi as [<- <-].
      split; [reflexivity|]. split; [intros _; exists s; split; reflexivity|]. split; reflexivity.
    + intros k i Hi. cbn [Apply.items_ t] in Hi. by apply lookup_singleton_Some in Hi as [<- <-].
  - change (Apply.ap_peek empty_view (mkKeylet 97 5) h t) with (Some (mkPtr 1 5), h, t) in Hpk.
    destruct Hpk as (_ & _ & _ & _ & Hw & _).
    destruct (Hw (mkSLE 5 97 42) eq_refl) as (t2 & Hu & _ & Hs). exists t2. done.
Defined.

(** C18: committing a sandbox: applying the table of a sandbox to the view it was
    opened on, be it a ledger, an open view or another sandbox, succeeds, and
    afterwards that view shows exactly what the sandbox showed. *)
Theorem sandbox_commit {F} (h : heap F) (m : gmap Z (SLE F)) (base : ReadView F)
    (Hb : ViewOf base m) (Hkey : keyed m) :
  (∀ t (l : LedgerState F), l_map l = m → ApplyProofs.ok h m t →
     ∃ l', Apply.ap_apply h t l = Ret l' ∧ l_map l' = ApplyProofs.state h m t) ∧
  (∀ t r, RawProofs.ok h m r →
     let shown := RawProofs.state h m r in
     ApplyProofs.ok h shown t →
     ∃ r', Apply.ap_apply h t r = Ret r' ∧ RawProofs.ok h m r' ∧
       ViewOf (Apply.ap_view (Raw.raw_view h base r) h t) (ApplyProofs.state h shown t) ∧
       ViewOf (Raw.raw_view h base r') (ApplyProofs.state h shown t)) ∧
  (∀ t parent, ApplyProofs.ok h m parent →
     let shown := ApplyProofs.state h m parent in
     ApplyProofs.ok h shown t →
     ∃ parent', Apply.ap_apply h t parent = Ret parent' ∧ ApplyProofs.ok h m parent' ∧
       ViewOf (Apply.ap_view (Apply.ap_view base h parent) h t) (ApplyProofs.state h shown t) ∧
       ViewOf (Apply.ap_view base h parent') (ApplyProofs.state h shown t)).
Proof.
  split_and!.
  - intros t l Hl [Hok Hcl]. rewrite apply_apply_effects.
    destruct (apply_spec (H := ledger_laws h) ApplyProofs.eff m (Apply.items_ t) l
      (Apply.dropsDestroyed_ t)) as (l' & Hl' & _ & Habs); [by rewrite Hl|done..|].
    by exists l'.
  - intros t r Hr shown Ht. pose proof (RawProofs.raw_view_correct h m base r Hr) as Hvr.
    pose proof Ht as [Hok Hcl]. rewrite apply_apply_effects.
    destruct (apply_spec (H := RawProofs.raw_laws h m) ApplyProofs.eff shown (Apply.items_ t) r
      (Apply.dropsDestroyed_ t)) as (r' & Hr' & Hokr & Habs); [done..|].
    exists r'. split_and!; [done..|by apply ApplyProofs.apply_view_correct|].
    unfold ApplyProofs.state. rewrite <- Habs. by apply RawProofs.raw_view_correct.
  - intros t r Hr shown Ht. pose proof (ApplyProofs.apply_view_correct h m base r Hr) as Hvr.
    pose proof Ht as [Hok Hcl]. rewrite apply_apply_effects.
    destruct (apply_spec (H := ApplyProofs.apply_laws h m) ApplyProofs.eff shown (Apply.items_ t) r
      (Apply.dropsDestroyed_ t)) as (r' & Hr' & Hokr & Habs); [done..|].
    exists r'. split_and!; [done..|by apply ApplyProofs.apply_view_correct|].
    unfold ApplyProofs.state in *. rewrite <- Habs. by apply ApplyProofs.apply_view_correct.
Qed.

Lemma sandbox_commit_witness :
  let s := mkSLE 5 97 0 in
  let h : heap Z := {[1%positive := s]} in
  let t := Apply.mkApply {[5 := (Apply.insert, mkPtr 1 5)]} xrp_zero in
  ∃ l', Apply.ap_apply h t (mkLedger ∅ xrp_zero) = Ret l' ∧ l_map l' = ApplyProofs.state h ∅ t.
Proof.
  intros s h t. apply (sandbox_commit h ∅ empty_view empty_view_of).
  - intros k x Hx. by rewrite lookup_empty in Hx.
  - reflexivity.
  - split.
    + intros k i Hi. cbn [Apply.items_ t] in Hi. apply lookup_singleton_Some in Hi as [<- <-].
      split; [reflexivity|]. split; [intros _; exists s; split; reflexivity|]. split; reflexivity.
    + intros k i Hi. cbn [Apply.items_ t] in Hi. by apply lookup_singleton_Some in Hi as [<- <-].
Defined.

(** ** Iterating over a table *)

Module RawIter.
Import Raw.

Section Iter.
Context {F : Type} (h : heap F).
Implicit Types (s : SLE F).

Definition lt1 (x y : Z * (RawAction * sptr)) : Prop := x.1 < y.1.
Definition lt0 (s s' : SLE F) : Prop := sle_key s < sle_key s'.

(** What is left of the table fits what is left of the base. *)
Definition fits (l0 : list (SLE F)) (x : Z * (RawAction * sptr)) : Prop :=
  pkey x.2.2 = x.1 ∧
  match x.2.1 with
  | erase => ∃ s, s ∈ l0 ∧ sle_key s = x.1
  | insert => (∃ s, points h x.2.2 s) ∧ ∀ s, s ∈ l0 → sle_key s ≠ x.1
  | replace => (∃ s, points h x.2.2 s) ∧ ∃ s, s ∈ l0 ∧ sle_key s = x.1
  end.

Definition good (l1 : list (Z * (RawAction * sptr))) (l0 : list (SLE F)) : Prop :=
  StronglySorted lt1 l1 ∧ StronglySorted lt0 l0 ∧ Forall (fits l0) l1.

(** The entries still to be visited. *)
Definition visible (l1 : list (Z * (RawAction * sptr))) (l0 : list (SLE F)) s : Prop :=
  (∃ x, x ∈ l1 ∧ x.2.1 ≠ erase ∧ points h x.2.2 s) ∨
  (s ∈ l0 ∧ ∀ x, x ∈ l1 → x.1 ≠ sle_key s).

(** After [skip], an erased item at the head has not been reached yet. *)
Definition settled (l1 : list (Z * (RawAction * sptr))) (l0 : list (SLE F)) : Prop :=
  match l1 with
  | (k, (erase, _)) :: _ => match l0 with s :: _ => sle_key s < k | [] => False end
  | _ => True
  end.

Lemma fits_tail s l0 x : fits (s :: l0) x → sle_key s ≠ x.1 → fits l0 x.
Proof.
  intros [Hp Hf] Hne. split; [done|].
  assert (Hin : (∃ s', s' ∈ s :: l0 ∧ sle_key s' = x.1) → ∃ s', s' ∈ l0 ∧ sle_key s' = x.1).
  { intros (s' & [->|Hs']%elem_of_cons & Hk); [done|eauto]. }
  destruct (x.2.1); [by apply Hin| |].
  - destruct Hf as [Hs Hf]. split; [done|]. intros s' Hs'. apply Hf. by right.
  - destruct Hf as [Hs Hf]. split; [done|]. by apply Hin.
Qed.

Lemma sorted_cons_lt {A} (R : relation A) x l y :
  StronglySorted R (x :: l) → y ∈ l → R x y.
Proof. intros [_ Hx]%StronglySorted_inv Hy. by apply (Forall_forall (R x) l). Qed.

(** Dropping the first entry of the base, when no item left needs it. *)
Lemma good_tail0 l1 s l0 :
  good l1 (s :: l0) → (∀ x, x ∈ l1 → x.1 ≠ sle_key s) → good l1 l0.
Proof.
  intros (H1 & H0 & Hf) Hne. split_and!; [done|by apply StronglySorted_inv in H0 as [? _]|].
  apply Forall_forall. intros x Hx. rewrite Forall_forall in Hf.
  apply (fits_tail s); [by apply Hf|]. intros E. by apply (Hne x Hx).
Qed.

Lemma good_tail1 x l1 l0 : good (x :: l1) l0 → good l1 l0.
Proof.
  intros (H1 & H0 & Hf). split_and!; [by apply StronglySorted_inv in H1 as [? _]|done|].
  by apply Forall_cons in Hf as [_ ?].
Qed.

Lemma items_above x l1 l0 y :
  good (x :: l1) l0 → y ∈ l1 → x.1 < y.1.
Proof. intros (H1 & _) Hy. by apply (sorted_cons_lt lt1 x l1). Qed.

Lemma visible_key_above k l1 l0 s :
  Forall (fits l0) l1 → (∀ x, x ∈ l1 → k < x.1) → (∀ s, s ∈ l0 → k < sle_key s) →
  visible l1 l0 s → k < sle_key s.
Proof.
  intros Hf H1 H0 [(x & Hx & _ & Hp)|[Hs _]]; [|by apply H0].
  rewrite Forall_forall in Hf. destruct (Hf x Hx) as [Hpk _].
  destruct Hp as [_ ->]. rewrite Hpk. by apply H1.
Qed.

(** An erased item and the entry it erases are both invisible. *)
Lemma visible_erased k p l1 s l0 s' :
  StronglySorted lt0 (s :: l0) → k = sle_key s →
  visible l1 l0 s' ↔ visible ((k, (erase, p)) :: l1) (s :: l0) s'.
Proof.
  intros H0 Hk. unfold visible. split.
  - intros [(x & Hx & Hr)|[Hs' Hx]].
    + left. exists x. split; [by right|done].
    + right. split; [by right|]. intros x [->|Hx']%elem_of_cons; [|by apply Hx]. simpl.
      pose proof (sorted_cons_lt lt0 _ _ _ H0 Hs') as Hlt. unfold lt0 in Hlt. lia.
  - intros [(x & [->|Hx]%elem_of_cons & Hr)|[[->|Hs']%elem_of_cons Hx]].
    + by destruct Hr.
    + left. eauto.
    + destruct (Hx (k, (erase, p))); [by left|]. simpl. congruence.
    + right. split; [done|]. intros x Hx'. apply Hx. by right.
Qed.

Lemma skip_spec fuel l1 l0 :
  (length l1 < fuel)%nat → good l1 l0 →
  ∃ l1' l0', iter_skip fuel (l1, l0) = Ret (l1', l0') ∧ good l1' l0' ∧ settled l1' l0' ∧
    (∀ s, visible l1' l0' s ↔ visible l1 l0 s) ∧
    (length l1' + length l0' ≤ length l1 + length l0)%nat ∧
    (∀ x, x ∈ l1' → x ∈ l1) ∧ (∀ s, s ∈ l0' → s ∈ l0).
Proof.
  revert l1 l0. induction fuel as [|fuel IH]; intros l1 l0 Hlen Hg; [lia|].
  destruct l1 as [|[k [a p]] l1]; simpl.
  { exists [], l0. split_and!; done. }
  destruct (decide (a = erase)) as [->|Ha].
  2:{ exists ((k, (a, p)) :: l1), l0. destruct a; [done|..]; split_and!; done. }
  pose proof Hg as (H1 & H0 & Hf). pose proof Hf as [[Hp (s0 & Hs0 & Hk0)] _]%Forall_cons.
  simpl in Hp, Hk0. destruct l0 as [|s l0]; [by apply not_elem_of_nil in Hs0|].
  destruct (Z.eqb_spec (sle_key s) (pkey p)) as [E|E].
  2:{ exists ((k, (erase, p)) :: l1), (s :: l0). split_and!; try done. simpl.
      apply elem_of_cons in Hs0 as [->|Hs0]; [congruence|].
      pose proof (sorted_cons_lt lt0 _ _ _ H0 Hs0) as Hlt. unfold lt0 in Hlt. lia. }
  assert (Hne : ∀ x, x ∈ l1 → x.1 ≠ sle_key s).
  { intros x Hx. pose proof (items_above _ _ _ x Hg Hx) as Hlt. simpl in Hlt. lia. }
  assert (Hg' : good l1 l0) by (apply good_tail0 with s; [by apply good_tail1 in Hg|done]).
  assert (Hvis : ∀ s', visible l1 l0 s' ↔ visible ((k, (erase, p)) :: l1) (s :: l0) s')
    by (intros s'; apply visible_erased; [done|congruence]).
  assert (Hres : ∃ l1' l0', (if bool_decide (l0 = []) then Ret (l1, l0) else iter_skip fuel (l1, l0))
      = Ret (l1', l0') ∧ good l1' l0' ∧ settled l1' l0' ∧
      (∀ s, visible l1' l0' s ↔ visible l1 l0 s) ∧
      (length l1' + length l0' ≤ length l1 + length l0)%nat ∧
      (∀ x, x ∈ l1' → x ∈ l1) ∧ (∀ s, s ∈ l0' → s ∈ l0)).
  { case_bool_decide as El.
    - subst l0. exists l1, []. split_and!; try done.
      destruct l1 as [|[k' [[] p']] l1']; try done. simpl.
      destruct Hg' as (_ & _ & [_ (s' & Hs' & _)]%Forall_inv). by apply not_elem_of_nil in Hs'.
    - apply IH; [simpl in Hlen; lia|done]. }
  destruct Hres as (l1' & l0' & Hsk & Hg2 & Hset & Hv2 & Hl2 & Hi1 & Hi0).
  exists l1', l0'. split; [exact Hsk|]. split_and!; [done..| | | |].
  - intros s'. by rewrite Hv2, Hvis.
  - simpl. lia.
  - intros x Hx. right. by apply Hi1.
  - intros s' Hs'. right. by apply Hi0.
Qed.

Lemma points_inj p s s' : points h p s → points h p s' → s = s'.
Proof. intros [H1 _] [H2 _]. congruence. Qed.

(** One item left out of the table, its entry visited. *)
Lemma visible_item x l1 l0 l0' s :
  points h x.2.2 s → x.2.1 ≠ erase → pkey x.2.2 = x.1 →
  (∀ s', s' ∈ l0' ↔ s' ∈ l0 ∧ sle_key s' ≠ x.1) →
  ∀ s', visible (x :: l1) l0 s' ↔ s' = s ∨ visible l1 l0' s'.
Proof.
  intros Hp Ha Hk H0 s'. unfold visible. split.
  - intros [(y & [->|Hy]%elem_of_cons & Hyr)|[Hs' Hx]].
    + left. destruct Hyr as [_ Hyp]. by eapply points_inj.
    + right. left. eauto.
    + right. right. split.
      * apply H0. split; [done|]. intros E. apply (Hx x); [by left|done].
      * intros y Hy. apply Hx. by right.
  - intros [->|[(y & Hy & Hyr)|[Hs' Hx]]].
    + left. exists x. split; [by left|done].
    + left. exists y. split; [by right|done].
    + apply H0 in Hs' as [Hs' Hne]. right. split; [done|].
      intros y [->|Hy]%elem_of_cons; [congruence|by apply Hx].
Qed.

(** One entry of the base visited. *)
Lemma visible_base l1 s l0 :
  (∀ x, x ∈ l1 → x.1 ≠ sle_key s) →
  ∀ s', visible l1 (s :: l0) s' ↔ s' = s ∨ visible l1 l0 s'.
Proof.
  intros Hne s'. unfold visible. split.
  - intros [?|[[->|Hs']%elem_of_cons Hx]]; [by right; left|by left|by right; right].
  - intros [->|[?|[Hs' Hx]]]; [right|by left|right].
    + split; [by left|done].
    + split; [by right|done].
Qed.

(** The current entry is the least one still to be visited, and advancing leaves
    the others.  Four cases: only the base is left, only the table is left, the
    item comes first (alone or in place of an entry of the base), or the entry
    of the base comes first. *)
Definition advances l1 l0 : Prop :=
  ∃ l1' l0' s, iter_increment (l1, l0) = iter_skip_all (l1', l0') ∧
    iter_dereference h (l1, l0) = Some s ∧ good l1' l0' ∧
    (length l1' + length l0' < length l1 + length l0)%nat ∧
    (∀ s', visible l1 l0 s' ↔ s' = s ∨ visible l1' l0' s') ∧
    (∀ s', visible l1' l0' s' → sle_key s < sle_key s').

Lemma advances_base s l0 : good [] (s :: l0) → advances [] (s :: l0).
Proof.
  intros Hg. exists [], l0, s.
  assert (Hg' : good [] l0) by (apply good_tail0 with s; [done|]; by intros x ?%not_elem_of_nil).
  split_and!; try done; [simpl; lia|by apply visible_base; intros x ?%not_elem_of_nil|].
  intros s'. apply visible_key_above; [apply Hg'|by intros x ?%not_elem_of_nil|].
  intros s2 Hs2. destruct Hg as (_ & H0 & _). by apply (sorted_cons_lt lt0 _ _ _ H0).
Qed.

Lemma advances_table k a p l1 :
  good ((k, (a, p)) :: l1) [] → a ≠ erase → advances ((k, (a, p)) :: l1) [].
Proof.
  intros Hg Hae. pose proof Hg as (_ & _ & [[Hp Ha] Hf1]%Forall_cons). simpl in Hp, Ha.
  assert (∃ sx, points h p sx) as (sx & Hsx) by (destruct a; [done|apply Ha..]).
  exists l1, [], sx. split_and!; try done.
  - destruct l1 as [|[k' [[] p']] l1']; try done.
    apply Forall_inv in Hf1 as [_ (s' & Hs' & _)]. by apply not_elem_of_nil in Hs'.
  - simpl. apply Hsx.
  - by apply good_tail1 in Hg.
  - simpl. lia.
  - apply (visible_item (k, (a, p))); try done. intros s'. rewrite elem_of_nil. tauto.
  - intros s'. rewrite (proj2 Hsx), Hp. apply visible_key_above; [done| |].
    + intros x. apply (items_above _ _ _ x Hg).
    + by intros s2 ?%not_elem_of_nil.
Qed.

Lemma advances_item k a p l1 s l0 :
  good ((k, (a, p)) :: l1) (s :: l0) → a ≠ erase → k ≤ sle_key s →
  advances ((k, (a, p)) :: l1) (s :: l0).
Proof.
  intros Hg Hae Hle. pose proof Hg as (_ & H0 & [[Hp Ha] Hf1]%Forall_cons). simpl in Hp, Ha.
  assert (∃ sx, points h p sx) as (sx & Hsx) by (destruct a; [done|apply Ha..]).
  assert (H1k : ∀ x, x ∈ l1 → k < x.1) by (intros x; apply (items_above _ _ _ x Hg)).
  assert (H0k : ∀ s', s' ∈ l0 → sle_key s < sle_key s')
    by (intros s' Hs'; by apply (sorted_cons_lt lt0 _ _ _ H0)).
  assert (Hderef : iter_dereference h ((k, (a, p)) :: l1, s :: l0) = Some sx).
  { simpl. rewrite Hp, (proj2 (Z.leb_le _ _) Hle). apply Hsx. }
  assert (Habove : ∀ l0', (∀ s', s' ∈ l0' → k < sle_key s') → good l1 l0' →
    ∀ s', visible l1 l0' s' → sle_key sx < sle_key s').
  { intros l0' H0' Hg' s'. rewrite (proj2 Hsx), Hp. by apply visible_key_above; [apply Hg'|..]. }
  destruct (decide (k = sle_key s)) as [E|E].
  - assert (Hg' : good l1 l0).
    { apply good_tail0 with s; [by apply good_tail1 in Hg|]. intros x Hx%H1k. lia. }
    exists l1, l0, sx. split_and!; [|done|done|simpl; lia| |].
    + simpl. by rewrite Hp, (proj2 (Z.eqb_eq _ _) E).
    + apply (visible_item (k, (a, p))); [done..|]. intros s'. simpl. rewrite elem_of_cons. split.
      * intros Hs'. split; [by right|]. apply H0k in Hs'. lia.
      * intros [[->|?] ?]; done.
    + apply Habove; [|done]. intros s' Hs'%H0k. lia.
  - exists l1, (s :: l0), sx. split_and!; [|done|by apply good_tail1 in Hg|simpl; lia| |].
    + simpl. rewrite Hp, (proj2 (Z.eqb_neq _ _) E), (proj2 (Z.ltb_lt _ _)) by lia. done.
    + apply (visible_item (k, (a, p))); [done..|]. intros s'. simpl. rewrite elem_of_cons.
      split; [|by intros [? _]]. intros Hs'. split; [done|].
      destruct Hs' as [->|Hs'%H0k]; lia.
    + apply Habove; [|by apply good_tail1 in Hg].
      intros s' [->|Hs'%H0k]%elem_of_cons; lia.
Qed.

Lemma advances_below k a p l1 s l0 :
  good ((k, (a, p)) :: l1) (s :: l0) → sle_key s < k → advances ((k, (a, p)) :: l1) (s :: l0).
Proof.
  intros Hg Hlt. pose proof Hg as (_ & H0 & [[Hp Ha] Hf1]%Forall_cons). simpl in Hp, Ha.
  assert (H1k : ∀ x, x ∈ (k, (a, p)) :: l1 → sle_key s < x.1).
  { intros x [->|Hx]%elem_of_cons; [done|]. pose proof (items_above _ _ _ x Hg Hx). simpl in *. lia. }
  assert (Hg' : good ((k, (a, p)) :: l1) l0).
  { apply good_tail0 with s; [done|]. intros x Hx%H1k. lia. }
  exists ((k, (a, p)) :: l1), l0, s. split_and!; [| |done|simpl; lia| |].
  - simpl. rewrite Hp, (proj2 (Z.eqb_neq _ _)), (proj2 (Z.ltb_ge _ _)) by lia. done.
  - simpl. by rewrite Hp, (proj2 (Z.leb_gt _ _)).
  - apply visible_base. intros x Hx%H1k. lia.
  - intros s'. apply visible_key_above; [apply Hg'|done|].
    intros s2 Hs2. by apply (sorted_cons_lt lt0 _ _ _ H0).
Qed.

Lemma increment_spec l1 l0 :
  good l1 l0 → settled l1 l0 → (l1, l0) ≠ ([], []) → advances l1 l0.
Proof.
  intros Hg Hset Hne. destruct l1 as [|[k [a p]] l1], l0 as [|s l0]; [done|..].
  - by apply advances_base.
  - apply advances_table; [done|]. by intros ->.
  - destruct (Z.le_gt_cases k (sle_key s)); [|by apply advances_below].
    apply advances_item; [done| |done]. intros ->. simpl in Hset. lia.
Qed.

Lemma collect_spec fuel l1 l0 :
  (length l1 + length l0 ≤ fuel)%nat → good l1 l0 → settled l1 l0 →
  ∃ l, iter_collect h fuel (l1, l0) = Ret (Some <$> l) ∧ StronglySorted lt0 l ∧
    ∀ s, s ∈ l ↔ visible l1 l0 s.
Proof.
  assert (Hnil : ∀ s, s ∈ [] ↔ visible [] [] s).
  { intros s. split; [by intros ?%not_elem_of_nil|].
    intros [(x & ?%not_elem_of_nil & _)|[?%not_elem_of_nil _]]; done. }
  revert l1 l0. induction fuel as [|fuel IH]; intros l1 l0 Hlen Hg Hset.
  { destruct l1, l0; simpl in Hlen; try lia. exists []. split_and!; [done|constructor|done]. }
  destruct (decide (length l1 = 0 ∧ length l0 = 0)%nat) as [[E1 E0]|Hne].
  { destruct l1, l0; try done. exists []. split_and!; [done|constructor|done]. }
  assert (Hne' : (l1, l0) ≠ ([], [])) by (intros [= -> ->]; by destruct Hne).
  destruct (increment_spec l1 l0 Hg Hset Hne')
    as (l1' & l0' & s & Hinc & Hd & Hg' & Hl' & Hvis & Habove).
  destruct (skip_spec (S (length l1')) l1' l0' ltac:(lia) Hg')
    as (l1'' & l0'' & Hsk & Hg'' & Hset'' & Hvis'' & Hl'' & _).
  destruct (IH l1'' l0'' ltac:(lia) Hg'' Hset'') as (l & Hc & Hsort & Hin).
  exists (s :: l). split_and!.
  - assert (iter_collect h (S fuel) (l1, l0) =
      (it' ← iter_increment (l1, l0); l ← iter_collect h fuel it'; Ret (iter_dereference h (l1, l0) :: l)))
      as -> by (by destruct l1, l0).
    rewrite Hinc. unfold iter_skip_all. simpl fst. rewrite Hsk. cbn [mbind outcome_bind].
    rewrite Hc, Hd. done.
  - constructor; [done|]. apply Forall_forall. intros s' Hs'%Hin%Hvis''. by apply Habove.
  - intros s'. by rewrite elem_of_cons, Hin, Hvis'', Hvis.
Qed.
End Iter.
End RawIter.

Lemma entries_in_order {F} (m : gmap Z (SLE F)) s :
  keyed m → s ∈ (in_order m).*2 ↔ m !! sle_key s = Some s.
Proof.
  intros Hk. rewrite list_elem_of_fmap. split.
  - intros ([k s'] & -> & Hin%elem_of_in_order). simpl. by rewrite (Hk k s' Hin).
  - intros Hm. exists (sle_key s, s). split; [done|]. by apply elem_of_in_order.
Qed.

Lemma entries_sorted {F} (m : gmap Z (SLE F)) :
  keyed m → StronglySorted RawIter.lt0 (in_order m).*2.
Proof.
  intros Hk. pose proof (in_order_strict m) as Hs.
  assert (Hkeys : Forall (λ x : Z * SLE F, sle_key x.2 = x.1) (in_order m)).
  { apply Forall_forall. intros [k s] Hin%elem_of_in_order. by apply (Hk k s). }
  induction Hs as [|[k x] l Hs IH Hall]; [constructor|].
  apply Forall_cons in Hkeys as [Hx Hkeys]. rewrite fmap_cons. constructor; [by apply IH|].
  apply Forall_fmap. apply Forall_forall. intros y Hy. rewrite Forall_forall in Hall, Hkeys.
  unfold RawIter.lt0. simpl in *. rewrite Hx, (Hkeys y Hy). by apply (Hall y Hy).
Qed.

Lemma table_good {F} (h : heap F) m t :
  keyed m → RawProofs.ok h m t →
  RawIter.good h (in_order (Raw.items_ t)) (in_order m).*2.
Proof.
  intros Hk Hok. split_and!; [apply in_order_strict|by apply entries_sorted|].
  apply Forall_forall. intros [k [a p]] Hin%elem_of_in_order.
  destruct (Hok k (a, p) Hin) as (Hp & Hs & Hins). split; [done|]. simpl in *.
  assert (Hbase : RawProofs.eff a ≠ e_insert → ∃ s, s ∈ (in_order m).*2 ∧ sle_key s = k).
  { intros Ha. destruct (m !! k) as [s|] eqn:Em; [|by destruct Ha; apply Hins].
    pose proof (Hk k s Em) as Hsk. exists s. split; [|done].
    apply entries_in_order; [done|]. by rewrite Hsk. }
  destruct a; simpl in *.
  - by apply Hbase.
  - split; [by apply Hs|]. intros s Hs'%entries_in_order; [|done]. intros <-.
    rewrite (proj1 Hins eq_refl) in Hs'. done.
  - split; [by apply Hs|by apply Hbase].
Qed.

Lemma table_visible {F} (h : heap F) m t s :
  keyed m → RawProofs.ok h m t →
  RawIter.visible h (in_order (Raw.items_ t)) (in_order m).*2 s ↔
  RawProofs.state h m t !! sle_key s = Some s.
Proof.
  intros Hk Hok. unfold RawProofs.state. rewrite lookup_overlay. unfold RawIter.visible. split.
  - intros [([k [a p]] & Hin%elem_of_in_order & Ha & Hp)|[Hs Hx]].
    + destruct (Hok k (a, p) Hin) as (Hpk & _). simpl in *. destruct Hp as [Hd Hsk].
      rewrite Hsk, Hpk, Hin. simpl. by destruct a.
    + apply entries_in_order in Hs; [|done].
      destruct (Raw.items_ t !! sle_key s) as [i|] eqn:Ei; [|done].
      destruct (Hx (sle_key s, i)); [by apply elem_of_in_order|done].
  - destruct (Raw.items_ t !! sle_key s) as [[a p]|] eqn:Ei; simpl.
    + intros Hd. left. exists (sle_key s, (a, p)).
      destruct (Hok _ (a, p) Ei) as (Hpk & _). simpl in *.
      split; [by apply elem_of_in_order|]. destruct a; simpl in *; try done; by repeat split.
    + intros Hm. right. split; [by apply entries_in_order|].
      intros [k i] Hin%elem_of_in_order. simpl. congruence.
Qed.

(** iterating over an open view visits exactly the entries of its state, each
    once and in increasing order of the keys, whatever mixture of insertions,
    replacements and erasures is buffered; the iterator never dereferences the
    end of the base. *)
Theorem sles_correct {F} (h : heap F) (m : gmap Z (SLE F)) (t : Raw.RawStateTable)
    (Hkey : keyed m) (Hok : RawProofs.ok h m t) :
  ∃ l, Raw.sles h t (in_order m).*2 = Ret (Some <$> l) ∧
    StronglySorted (λ s s', sle_key s < sle_key s') l ∧
    ∀ s, s ∈ l ↔ RawProofs.state h m t !! sle_key s = Some s.
Proof.
  pose proof (table_good h m t Hkey Hok) as Hg. unfold Raw.sles.
  set (l1 := in_order (Raw.items_ t)) in *. set (l0 := (in_order m).*2) in *.
  destruct (RawIter.skip_spec h (S (length l1)) l1 l0 ltac:(lia) Hg)
    as (l1' & l0' & Hsk & Hg' & Hset & Hvis & Hlen & _).
  destruct (RawIter.collect_spec h (length l1 + length l0) l1' l0' Hlen Hg' Hset)
    as (l & Hc & Hs & Hin).
  assert (Hm : Raw.iter_make l1 l0 = Ret (l1', l0')).
  { unfold Raw.iter_make, Raw.iter_skip_all. by destruct l1. }
  exists l. rewrite Hm. cbn [mbind outcome_bind]. split_and!; [done..|].
  intros s. rewrite Hin, Hvis. by apply table_visible.
Qed.

Lemma sles_correct_witness :
  let s := mkSLE 5 97 tt in
  let h : heap unit := {[1%positive := s]} in
  let t := Raw.mkRaw {[5 := (Raw.insert, mkPtr 1 5)]} xrp_zero in
  ∃ l, Raw.sles h t (in_order ∅).*2 = Ret (Some <$> l) ∧
    ∀ s', s' ∈ l ↔ RawProofs.state h ∅ t !! sle_key s' = Some s'.
Proof.
  intros s h t. destruct (sles_correct h ∅ t) as (l & Hl & _ & Hin).
  - intros k x Hx. by rewrite lookup_empty in Hx.
  - intros k i Hi. cbn [Raw.items_ t] in Hi. apply lookup_singleton_Some in Hi as [<- <-].
    split; [reflexivity|]. split; [intros _; exists s; split; reflexivity|]. split; reflexivity.
  - exists l. split; [exact Hl|exact Hin].
Defined.
