(* ===== verification/Consensus.v ===== *)
(** * Consensus: times, thresholds, proposals and disputes

    Model of [src/src/ripple/consensus/LedgerTiming.h], [Consensus.cpp],
    [ConsensusParms.h], [ConsensusProposal.h], [DisputedTx.h] and of the data of
    [ConsensusTypes.h]: the pure decisions of a consensus round.  The state
    machine that uses them is in [ConsensusEngine].

    A [NetClock::time_point] is a 32-bit count of seconds, its arithmetic wraps;
    a [std::chrono::milliseconds] is a [Z].  An identifier (node, ledger,
    transaction, transaction set) is a [Z]. *)

From stdpp Require Import base numbers list gmap strings.
From Stdlib Require Import Lia ZArith.
From S2P Require Import Prelude.

Local Open Scope Z_scope.

(** ** Close times (LedgerTiming.h) *)

Definition ledgerPossibleTimeResolutions : list Z := [10; 20; 30; 60; 90; 120].
Definition ledgerDefaultTimeResolution : Z := 30.
Definition increaseLedgerTimeResolutionEvery : Z := 8.
Definition decreaseLedgerTimeResolutionEvery : Z := 1.

Definition getNextLedgerTimeResolution (previousResolution : Z) (previousAgree : bool)
    (ledgerSeq : Z) : Z :=
  match list_find (λ r, r = previousResolution) ledgerPossibleTimeResolutions with
  | None => previousResolution
  | Some (iter, _) =>
    match (if negb previousAgree && (ledgerSeq `mod` decreaseLedgerTimeResolutionEvery =? 0)
           then ledgerPossibleTimeResolutions !! S iter else None) with
    | Some r => r
    | None =>
      if previousAgree && (ledgerSeq `mod` increaseLedgerTimeResolutionEvery =? 0)
      then match iter with
           | O => previousResolution
           | S iter => default previousResolution (ledgerPossibleTimeResolutions !! iter)
           end
      else previousResolution
    end
  end.

Definition roundCloseTime (closeTime closeResolution : Z) : Z :=
  if closeTime =? 0 then closeTime
  else
    let closeTime := u32 (closeTime + closeResolution `div` 2) in
    u32 (closeTime - closeTime `mod` closeResolution).

Definition effCloseTime (closeTime resolution priorCloseTime : Z) : Z :=
  if closeTime =? 0 then closeTime
  else roundCloseTime closeTime resolution `max` u32 (priorCloseTime + 1).

(** ** Parameters (ConsensusParms.h)

    The fields the consensus code reads; seconds for network times, milliseconds
    for durations. *)

Record ConsensusParms : Type := mkParms {
  proposeFRESHNESS : Z;
  proposeINTERVAL : Z;
  minCONSENSUS_PCT : Z;
  ledgerIDLE_INTERVAL : Z;
  ledgerMIN_CONSENSUS : Z;
  ledgerMIN_CLOSE : Z;
  avMIN_CONSENSUS_TIME : Z;
  avINIT_CONSENSUS_PCT : Z;
  avMID_CONSENSUS_TIME : Z;
  avMID_CONSENSUS_PCT : Z;
  avLATE_CONSENSUS_TIME : Z;
  avLATE_CONSENSUS_PCT : Z;
  avSTUCK_CONSENSUS_TIME : Z;
  avSTUCK_CONSENSUS_PCT : Z;
  avCT_CONSENSUS_PCT : Z;
  useRoundedCloseTime : bool }.

Definition defaultParms : ConsensusParms :=
  mkParms 20 12 80 15000 1950 2000 5000 50 50 65 85 70 200 95 75 true.

(** ** Decisions (Consensus.cpp) *)

Definition shouldCloseLedger (anyTransactions : bool)
    (prevProposers proposersClosed proposersValidated : Z)
    (prevRoundTime timeSincePrevClose openTime idleInterval : Z) (parms : ConsensusParms) : bool :=
  if (prevRoundTime <? -1000) || (600000 <? prevRoundTime) || (600000 <? timeSincePrevClose)
  then true
  else if prevProposers `div` 2 <? u64 (proposersClosed + proposersValidated) then true
  else if negb anyTransactions then idleInterval <=? timeSincePrevClose
  else if openTime <? ledgerMIN_CLOSE parms then false
  else if openTime <? prevRoundTime `quot` 2 then false
  else true.

Definition checkConsensusReached (agreeing total : Z) (count_self : bool)
    (minConsensusPct : Z) : bool :=
  if total =? 0 then true
  else
    let agreeing := if count_self then u64 (agreeing + 1) else agreeing in
    let total := if count_self then u64 (total + 1) else total in
    let currentPercentage := u64 (agreeing * 100) `div` total in
    minConsensusPct <=? currentPercentage.

Inductive ConsensusState : Type := No | MovedOn | Yes.

#[export] Instance ConsensusState_eq_dec : EqDecision ConsensusState.
Proof. solve_decision. Defined.

Definition checkConsensus (prevProposers currentProposers currentAgree currentFinished : Z)
    (previousAgreeTime currentAgreeTime : Z) (parms : ConsensusParms) (proposing : bool)
    : ConsensusState :=
  if currentAgreeTime <=? ledgerMIN_CONSENSUS parms then No
  else if (currentProposers <? u64 (prevProposers * 3) `div` 4)
       && (currentAgreeTime <? previousAgreeTime + ledgerMIN_CONSENSUS parms) then No
  else if checkConsensusReached currentAgree currentProposers proposing (minCONSENSUS_PCT parms)
  then Yes
  else if checkConsensusReached currentFinished currentProposers false (minCONSENSUS_PCT parms)
  then MovedOn
  else No.

(** ** Modes, phases and timers (ConsensusTypes.h) *)

Inductive ConsensusMode : Type := proposing | observing | wrongLedger | switchedLedger.

#[export] Instance ConsensusMode_eq_dec : EqDecision ConsensusMode.
Proof. solve_decision. Defined.

Inductive ConsensusPhase : Type := open | establish | accepted.

#[export] Instance ConsensusPhase_eq_dec : EqDecision ConsensusPhase.
Proof. solve_decision. Defined.

(** [start_] is a time of the steady clock in nanoseconds, [dur_] counts
    milliseconds. *)
Record ConsensusTimer : Type := mkTimer { start_ : Z; dur_ : Z }.

Definition timer_reset (tp : Z) : ConsensusTimer := mkTimer tp 0.
Definition timer_tick (tp : Z) (t : ConsensusTimer) : ConsensusTimer :=
  mkTimer (start_ t) ((tp - start_ t) `quot` 1000000).
Definition timer_tick_fixed (fixed : Z) (t : ConsensusTimer) : ConsensusTimer :=
  mkTimer (start_ t) (dur_ t + fixed).

(** ** Proposals (ConsensusProposal.h) *)

Definition seqJoin : Z := 0.
Definition seqLeave : Z := 2 ^ 32 - 1.

Record ConsensusProposal : Type := mkProposal {
  prevLedger : Z;
  position : Z;
  closeTime : Z;
  seenTime : Z;
  proposeSeq : Z;
  nodeID : Z }.

#[export] Instance ConsensusProposal_eq_dec : EqDecision ConsensusProposal.
Proof. solve_decision. Defined.

Definition isInitial (p : ConsensusProposal) : bool := proposeSeq p =? seqJoin.
Definition isBowOut (p : ConsensusProposal) : bool := proposeSeq p =? seqLeave.
Definition isStale (cutoff : Z) (p : ConsensusProposal) : bool := seenTime p <=? cutoff.

Definition changePosition (newPosition newCloseTime now : Z) (p : ConsensusProposal)
    : ConsensusProposal :=
  mkProposal (prevLedger p) newPosition newCloseTime now
    (if proposeSeq p =? seqLeave then proposeSeq p else u32 (proposeSeq p + 1)) (nodeID p).

Definition bowOut (now : Z) (p : ConsensusProposal) : ConsensusProposal :=
  mkProposal (prevLedger p) (position p) (closeTime p) now seqLeave (nodeID p).

(** ** Disputed transactions (DisputedTx.h)

    The two counters are [int]; they count peers, and signed overflow is
    undefined in C++, so they are [Z]. *)

Section Disputes.
Context {Tx : Type}.

Record DisputedTx : Type := mkDisputed {
  yays_ : Z;
  nays_ : Z;
  ourVote_ : bool;
  tx_ : Tx;
  votes_ : gmap Z bool }.

Definition newDispute (tx : Tx) (ourVote : bool) : DisputedTx := mkDisputed 0 0 ourVote tx ∅.

Definition setVote (peer : Z) (votesYes : bool) (d : DisputedTx) : DisputedTx :=
  match votes_ d !! peer with
  | None =>
    if votesYes
    then mkDisputed (yays_ d + 1) (nays_ d) (ourVote_ d) (tx_ d) (<[peer := votesYes]> (votes_ d))
    else mkDisputed (yays_ d) (nays_ d + 1) (ourVote_ d) (tx_ d) (<[peer := votesYes]> (votes_ d))
  | Some voted =>
    if votesYes && negb voted
    then mkDisputed (yays_ d + 1) (nays_ d - 1) (ourVote_ d) (tx_ d) (<[peer := true]> (votes_ d))
    else if negb votesYes && voted
    then mkDisputed (yays_ d - 1) (nays_ d + 1) (ourVote_ d) (tx_ d) (<[peer := false]> (votes_ d))
    else d
  end.

Definition unVote (peer : Z) (d : DisputedTx) : DisputedTx :=
  match votes_ d !! peer with
  | Some true => mkDisputed (yays_ d - 1) (nays_ d) (ourVote_ d) (tx_ d) (delete peer (votes_ d))
  | Some false => mkDisputed (yays_ d) (nays_ d - 1) (ourVote_ d) (tx_ d) (delete peer (votes_ d))
  | None => d
  end.

(** The share of yes votes needed, in percent, after [percentTime] percent of
    the expected time; the [int] is compared with a [std::size_t]. *)
Definition neededPct (percentTime : Z) (p : ConsensusParms) : Z :=
  if u64 percentTime <? avMID_CONSENSUS_TIME p then avINIT_CONSENSUS_PCT p
  else if u64 percentTime <? avLATE_CONSENSUS_TIME p then avMID_CONSENSUS_PCT p
  else if u64 percentTime <? avSTUCK_CONSENSUS_TIME p then avLATE_CONSENSUS_PCT p
  else avSTUCK_CONSENSUS_PCT p.

Definition updateVote (percentTime : Z) (proposing : bool) (p : ConsensusParms)
    (d : DisputedTx) : bool * DisputedTx :=
  if ourVote_ d && (nays_ d =? 0) then (false, d)
  else if negb (ourVote_ d) && (yays_ d =? 0) then (false, d)
  else
    let newPosition :=
      if proposing then
        let weight := (yays_ d * 100 + (if ourVote_ d then 100 else 0))
                      `quot` (nays_ d + yays_ d + 1) in
        neededPct percentTime p <? u64 weight
      else nays_ d <? yays_ d in
    if Bool.eqb newPosition (ourVote_ d) then (false, d)
    else (true, mkDisputed (yays_ d) (nays_ d) newPosition (tx_ d) (votes_ d)).
End Disputes.
Arguments DisputedTx : clear implicits.

(** ** Close times: theorems *)

(** Adding half the resolution and cutting off the remainder finds the nearest
    multiple. *)
Lemma nearest_multiple t res :
  0 < t → 0 < res → t + res `div` 2 < 2 ^ 32 →
  roundCloseTime t res = (t + res `div` 2) `div` res * res.
Proof.
  intros Ht Hres Hmax. unfold roundCloseTime.
  destruct (Z.eqb_spec t 0); [lia|].
  assert (0 ≤ res `div` 2) by (apply Z.div_pos; lia).
  rewrite (u32_small (t + _)) by (unfold in_u32; lia).
  pose proof (Z.mod_pos_bound (t + res `div` 2) res Hres).
  pose proof (Z.mod_le (t + res `div` 2) res ltac:(lia) Hres).
  rewrite u32_small by (unfold in_u32; lia).
  rewrite (Z.div_mod (t + res `div` 2) res) at 1 by lia. lia.
Qed.

(** a close time is rounded to the nearest multiple of the resolution, a time
    halfway between two multiples going up, rounding twice changes nothing, and
    the effective close time is the rounded time or, if later, one second after
    the close time of the prior ledger. *)
Theorem close_time_correct t res prior :
  0 < t → 0 < res → t + res < 2 ^ 32 → 0 ≤ prior < 2 ^ 32 - 1 →
  let r := roundCloseTime t res in
  r `mod` res = 0 ∧ 2 * (t - r) < res ∧ 2 * (r - t) ≤ res ∧
  roundCloseTime r res = r ∧
  effCloseTime t res prior = r `max` (prior + 1) ∧ prior < effCloseTime t res prior.
Proof.
  intros Ht Hres Hmax Hprior r.
  assert (Hr : r = (t + res `div` 2) `div` res * res) by (apply nearest_multiple; div_lia).
  assert (Hnear : 2 * (t - r) < res ∧ 2 * (r - t) ≤ res).
  { rewrite Hr. pose proof (Z.div_mod (t + res `div` 2) res ltac:(lia)).
    pose proof (Z.mod_pos_bound (t + res `div` 2) res Hres).
    pose proof (Z.div_mod res 2 ltac:(lia)). pose proof (Z.mod_pos_bound res 2 ltac:(lia)). lia. }
  assert (Heff : effCloseTime t res prior = r `max` (prior + 1)).
  { unfold effCloseTime. destruct (Z.eqb_spec t 0); [lia|].
    rewrite u32_small by (unfold in_u32; lia). done. }
  split_and!; [by rewrite Hr, Z.mod_mul by lia|lia|lia| |done|lia].
  destruct (Z.eq_dec r 0) as [->|Hr0]; [done|].
  assert (0 ≤ r) by (rewrite Hr; apply Z.mul_nonneg_nonneg; [apply Z.div_pos; [div_lia|lia]|lia]).
  rewrite nearest_multiple by div_lia.
  rewrite Hr at 1. rewrite Z.add_comm, Z.div_add by lia.
  rewrite (Z.div_small (res `div` 2)) by div_lia. lia.
Qed.

Lemma close_time_correct_witness :
  roundCloseTime 75 30 = 90 ∧ 89 < effCloseTime 75 30 89.
Proof.
  split; [vm_compute; reflexivity|].
  apply (close_time_correct 75 30 89); lia.
Defined.

(** the next resolution is again one of the table.  Without agreement it is
    the next coarser one; with agreement it is the next finer one every eighth
    ledger; in every other case, and at the ends of the table, it is unchanged. *)
Theorem time_resolution_correct prev agree seq :
  prev ∈ ledgerPossibleTimeResolutions →
  let next := getNextLedgerTimeResolution prev agree seq in
  next ∈ ledgerPossibleTimeResolutions ∧
  (agree = false →
    prev ≤ next ∧ (∀ r, r ∈ ledgerPossibleTimeResolutions → prev < r → prev < next ≤ r)) ∧
  (agree = true → seq `mod` 8 = 0 →
    next ≤ prev ∧ (∀ r, r ∈ ledgerPossibleTimeResolutions → r < prev → r ≤ next < prev)) ∧
  (agree = true → seq `mod` 8 ≠ 0 → next = prev).
Proof.
  intros Hin. unfold getNextLedgerTimeResolution.
  unfold decreaseLedgerTimeResolutionEvery, increaseLedgerTimeResolutionEvery.
  rewrite Z.mod_1_r.
  assert (Hcases : ∀ r, r ∈ ledgerPossibleTimeResolutions ↔
    r = 10 ∨ r = 20 ∨ r = 30 ∨ r = 60 ∨ r = 90 ∨ r = 120).
  { intros r. unfold ledgerPossibleTimeResolutions. rewrite !elem_of_cons, elem_of_nil. intuition. }
  destruct (Z.eqb_spec (seq `mod` 8) 0) as [Hm|Hm];
    apply Hcases in Hin as [->|[->|[->|[->|[->| ->]]]]]; destruct agree; simpl;
    (split; [apply Hcases; lia|]); split_and!; intros; try done;
    (split; [lia|intros r ?%Hcases ?; lia]).
Qed.

Lemma time_resolution_correct_witness : getNextLedgerTimeResolution 30 false 5 = 60 ∧ 60 ∈ ledgerPossibleTimeResolutions.
Proof.
  split; [vm_compute; reflexivity|].
  apply (time_resolution_correct 30 false 5).
  unfold ledgerPossibleTimeResolutions. rewrite !elem_of_cons. right; right; left. reflexivity.
Defined.

(** ** Decisions: theorems *)

Definition self (count_self : bool) : Z := if count_self then 1 else 0.

(** Enough of [total] (and ourselves, if counted) agree. *)
Definition enough (pct agreeing total : Z) (count_self : bool) : Prop :=
  total = 0 ∨ pct * (total + self count_self) ≤ 100 * (agreeing + self count_self).

Lemma checkConsensusReached_spec agreeing total count_self pct :
  in_u32 agreeing → in_u32 total →
  checkConsensusReached agreeing total count_self pct = true ↔ enough pct agreeing total count_self.
Proof.
  unfold in_u32, checkConsensusReached, enough. intros Ha Ht.
  destruct (Z.eqb_spec total 0) as [->|Hne]; [intuition|].
  assert (Hs : ∀ x, in_u32 x → (if count_self then u64 (x + 1) else x) = x + self count_self).
  { unfold in_u32. intros x ?. destruct count_self; simpl; nowrap; lia. }
  rewrite !Hs, u64_small by (try done; unfold in_u64; destruct count_self; simpl; lia).
  set (a := agreeing + self count_self). set (t := total + self count_self).
  assert (0 < t) by (unfold t, self; destruct count_self; lia).
  rewrite Z.leb_le. split.
  - intros H0. right. pose proof (Z.mul_div_le (a * 100) t ltac:(lia)). nia.
  - intros [?|H0]; [lia|]. apply Z.div_le_lower_bound; lia.
Qed.

(** consensus is declared exactly when the round has lasted longer than the
    minimum, at least three quarters of the previous proposers are present or a
    previous round's time has passed, and the required percentage of the
    proposers (and ourselves, if proposing) agrees; that the network moved on
    is declared when instead that percentage of the proposers has finished. *)
Theorem checkConsensus_correct prev cur agree finished prevTime time parms proposing :
  in_u32 prev → in_u32 cur → in_u32 agree → in_u32 finished →
  let patient := ledgerMIN_CONSENSUS parms < time ∧
    (3 * prev < 4 * (cur + 1) ∨ prevTime + ledgerMIN_CONSENSUS parms ≤ time) in
  let pct := minCONSENSUS_PCT parms in
  let res := checkConsensus prev cur agree finished prevTime time parms proposing in
  (res = Yes ↔ patient ∧ enough pct agree cur proposing) ∧
  (res = MovedOn ↔ patient ∧ ¬ enough pct agree cur proposing ∧ enough pct finished cur false).
Proof.
  intros Hp Hc Ha Hf patient pct res. unfold patient, pct, res, checkConsensus.
  rewrite <- !checkConsensusReached_spec by done. unfold in_u32 in *.
  rewrite u64_small by (unfold in_u64; lia).
  assert (Hq : cur < (prev * 3) `div` 4 ↔ 4 * (cur + 1) ≤ 3 * prev) by (split; div_lia).
  destruct (Z.leb_spec time (ledgerMIN_CONSENSUS parms)); [split; (split; [done|lia])|].
  destruct (Z.ltb_spec cur ((prev * 3) `div` 4)); simpl;
    [destruct (Z.ltb_spec time (prevTime + ledgerMIN_CONSENSUS parms));
      [split; (split; [done|lia])|]|];
    (assert (Hpat : 3 * prev < 4 * (cur + 1) ∨ prevTime + ledgerMIN_CONSENSUS parms ≤ time) by lia);
    destruct (checkConsensusReached agree _ _ _), (checkConsensusReached finished _ _ _);
    intuition congruence.
Qed.

Lemma checkConsensus_correct_witness :
  checkConsensus 5 5 4 0 5000 3000 defaultParms true = Yes.
Proof.
  apply (checkConsensus_correct 5 5 4 0 5000 3000 defaultParms true);
    [unfold in_u32; lia..|].
  unfold enough, defaultParms, self. simpl. lia.
Defined.

(** ** Disputes: theorems *)

(** The number of peers that vote [b]. *)
Definition tally (b : bool) (votes : gmap Z bool) : Z :=
  Z.of_nat (size (filter (λ v, v.2 = b) votes)).

Lemma tally_insert_new b p v votes :
  votes !! p = None →
  tally b (<[p := v]> votes) = tally b votes + (if decide (v = b) then 1 else 0).
Proof.
  intros Hp. unfold tally. case_decide as Hv.
  - rewrite map_filter_insert_True, map_size_insert_None by (try done; apply map_lookup_filter_None; auto).
    lia.
  - rewrite map_filter_insert_not' by (simpl; intros; congruence). lia.
Qed.

Lemma tally_delete b p v votes :
  votes !! p = Some v →
  tally b (delete p votes) = tally b votes - (if decide (v = b) then 1 else 0).
Proof.
  intros Hp. rewrite <- (insert_delete_id votes p v Hp) at 2.
  rewrite tally_insert_new by apply lookup_delete_eq. lia.
Qed.

Lemma tally_insert b p v w votes :
  votes !! p = Some w →
  tally b (<[p := v]> votes) =
    tally b votes - (if decide (w = b) then 1 else 0) + (if decide (v = b) then 1 else 0).
Proof.
  intros Hp. rewrite <- insert_delete_eq, tally_insert_new by apply lookup_delete_eq.
  by rewrite (tally_delete b p w).
Qed.

Lemma tally_nonneg b votes : 0 ≤ tally b votes.
Proof. unfold tally. lia. Qed.

Lemma tally_zero b votes : tally b votes = 0 ↔ ∀ p v, votes !! p = Some v → v ≠ b.
Proof.
  unfold tally. rewrite <- Nat2Z.inj_0, Nat2Z.inj_iff, map_size_empty_iff, map_empty.
  setoid_rewrite map_lookup_filter_None. split.
  - intros H p v Hp ->. destruct (H p) as [?|H']; [congruence|]. by apply (H' b).
  - intros H p. destruct (votes !! p) as [v|] eqn:E; [right|by left].
    intros w [= <-]. by apply (H p).
Qed.

Section DisputeFacts.
Context {Tx : Type}.
Implicit Types d : DisputedTx Tx.

(** The counters are the numbers of yes and no votes. *)
Definition votes_ok d : Prop := yays_ d = tally true (votes_ d) ∧ nays_ d = tally false (votes_ d).

Lemma votes_ok_new (tx : Tx) v : votes_ok (newDispute tx v).
Proof. done. Qed.

Lemma setVote_votes p v d : votes_ (setVote p v d) = <[p := v]> (votes_ d).
Proof.
  unfold setVote. destruct (votes_ d !! p) as [[]|] eqn:E; destruct v; simpl; try done;
    by rewrite insert_id.
Qed.

Lemma setVote_rest p v d : ourVote_ (setVote p v d) = ourVote_ d ∧ tx_ (setVote p v d) = tx_ d.
Proof. unfold setVote. by destruct (votes_ d !! p) as [[]|], v. Qed.

Lemma setVote_ok p v d : votes_ok d → votes_ok (setVote p v d).
Proof.
  intros [Hy Hn]. unfold votes_ok, setVote.
  destruct (votes_ d !! p) as [w|] eqn:E; [destruct v, w|destruct v]; simpl; try done;
    first [rewrite !(tally_insert _ _ _ _ _ E)|rewrite !tally_insert_new by done];
    repeat case_decide; try done; lia.
Qed.

Lemma unVote_votes p d : votes_ (unVote p d) = delete p (votes_ d).
Proof.
  unfold unVote. destruct (votes_ d !! p) as [[]|] eqn:E; simpl; try done. by rewrite delete_id.
Qed.

Lemma unVote_rest p d : ourVote_ (unVote p d) = ourVote_ d ∧ tx_ (unVote p d) = tx_ d.
Proof. unfold unVote. by destruct (votes_ d !! p) as [[]|]. Qed.

Lemma unVote_ok p d : votes_ok d → votes_ok (unVote p d).
Proof.
  intros [Hy Hn]. unfold votes_ok, unVote.
  destruct (votes_ d !! p) as [[]|] eqn:E; simpl; try done;
    rewrite !(tally_delete _ _ _ _ E); repeat case_decide; try done; lia.
Qed.
End DisputeFacts.

(** What happens to the votes on a dispute. *)
Inductive vote_op : Type := Vote (peer : Z) (yes : bool) | Withdraw (peer : Z).

Definition cast (votes : gmap Z bool) (op : vote_op) : gmap Z bool :=
  match op with Vote p v => <[p := v]> votes | Withdraw p => delete p votes end.

Definition run_vote {Tx} (d : DisputedTx Tx) (op : vote_op) : DisputedTx Tx :=
  match op with Vote p v => setVote p v d | Withdraw p => unVote p d end.

(** after any sequence of votes, changes of vote and withdrawals, the counters
    of a dispute are the numbers of peers whose last vote is yes and no. *)
Theorem votes_correct {Tx} (tx : Tx) ours ops :
  let d := foldl run_vote (newDispute tx ours) ops in
  let votes := foldl cast ∅ ops in
  votes_ d = votes ∧ yays_ d = tally true votes ∧ nays_ d = tally false votes ∧
  ourVote_ d = ours ∧ tx_ d = tx.
Proof.
  enough (H : ∀ d : DisputedTx Tx, votes_ok d → let d' := foldl run_vote d ops in
    votes_ok d' ∧ votes_ d' = foldl cast (votes_ d) ops ∧ ourVote_ d' = ourVote_ d ∧ tx_ d' = tx_ d).
  { intros d votes. destruct (H _ (votes_ok_new tx ours)) as ([Hy Hn] & Hv & Ho & Ht).
    fold d in Hy, Hn, Hv, Ho, Ht. rewrite Hv in *. done. }
  induction ops as [|[p v|p] ops IH]; intros d Hok; simpl; [done| |].
  - destruct (IH _ (setVote_ok p v d Hok)) as (Hok' & Hv & Ho & Ht).
    destruct (setVote_rest p v d) as [Ho' Ht'].
    rewrite setVote_votes in Hv. split_and!; try done; congruence.
  - destruct (IH _ (unVote_ok p d Hok)) as (Hok' & Hv & Ho & Ht).
    destruct (unVote_rest p d) as [Ho' Ht'].
    rewrite unVote_votes in Hv. split_and!; try done; congruence.
Qed.

(** The thresholds grow as the round lasts. *)
Definition ramping (p : ConsensusParms) : Prop :=
  0 ≤ avINIT_CONSENSUS_PCT p ≤ avMID_CONSENSUS_PCT p ∧
  avMID_CONSENSUS_PCT p ≤ avLATE_CONSENSUS_PCT p ≤ avSTUCK_CONSENSUS_PCT p ∧
  avMID_CONSENSUS_TIME p ≤ avLATE_CONSENSUS_TIME p ≤ avSTUCK_CONSENSUS_TIME p.

Lemma neededPct_mono p t t' :
  ramping p → 0 ≤ t ≤ t' → t' < 2 ^ 31 → 0 ≤ neededPct t p ≤ neededPct t' p.
Proof.
  intros (? & ? & ?) ? ?. unfold neededPct. nowrap.
  destruct (Z.ltb_spec t (avMID_CONSENSUS_TIME p)), (Z.ltb_spec t' (avMID_CONSENSUS_TIME p)),
    (Z.ltb_spec t (avLATE_CONSENSUS_TIME p)), (Z.ltb_spec t' (avLATE_CONSENSUS_TIME p)),
    (Z.ltb_spec t (avSTUCK_CONSENSUS_TIME p)), (Z.ltb_spec t' (avSTUCK_CONSENSUS_TIME p)); lia.
Qed.

(** The vote we should cast: with the peers if they all say what we say, otherwise
    by the share of yes votes, ours included when we propose. *)
Definition vote_yes (t : Z) (proposing : bool) (p : ConsensusParms) (ours : bool) (y n : Z) : Prop :=
  if ours && (n =? 0) then True
  else if negb ours && (y =? 0) then False
  else if proposing then (neededPct t p + 1) * (n + y + 1) ≤ 100 * (y + self ours)
  else n < y.

Lemma weight_spec pct y n ours :
  0 ≤ y → 0 ≤ n →
  pct < u64 ((y * 100 + (if ours : bool then 100 else 0)) `quot` (n + y + 1)) ↔
  (pct + 1) * (n + y + 1) ≤ 100 * (y + self ours).
Proof.
  intros Hy Hn.
  replace (y * 100 + (if ours : bool then 100 else 0)) with (100 * (y + self ours))
    by (destruct ours; simpl; lia).
  assert (0 ≤ self ours ≤ 1) by (destruct ours; simpl; lia).
  rewrite Z.quot_div_nonneg by lia.
  pose proof (Z.div_pos (100 * (y + self ours)) (n + y + 1) ltac:(lia) ltac:(lia)).
  assert ((100 * (y + self ours)) `div` (n + y + 1) ≤ 100) by (apply Z.div_le_upper_bound; lia).
  rewrite u64_small by (unfold in_u64; lia).
  split; intros H2.
  - pose proof (Z.mul_div_le (100 * (y + self ours)) (n + y + 1) ltac:(lia)). nia.
  - apply Z.lt_le_trans with (pct + 1); [lia|]. apply Z.div_le_lower_bound; lia.
Qed.

Lemma updateVote_spec {Tx} t proposing p (d : DisputedTx Tx) :
  0 ≤ yays_ d → 0 ≤ nays_ d →
  let '(changed, d') := updateVote t proposing p d in
  (ourVote_ d' = true ↔ vote_yes t proposing p (ourVote_ d) (yays_ d) (nays_ d)) ∧
  changed = negb (Bool.eqb (ourVote_ d') (ourVote_ d)) ∧
  d' = mkDisputed (yays_ d) (nays_ d) (ourVote_ d') (tx_ d) (votes_ d).
Proof.
  destruct d as [y n ours tx votes]. simpl. intros Hy Hn.
  unfold updateVote, vote_yes. simpl.
  destruct (ours && (n =? 0)) eqn:E1; [apply andb_prop in E1 as [-> _]; done|].
  destruct (negb ours && (y =? 0)) eqn:E2; [apply andb_prop in E2 as [E2 _]; by destruct ours|].
  match goal with |- context [Bool.eqb ?new ours] => assert (Hnew : new = true ↔
    if proposing then (neededPct t p + 1) * (n + y + 1) ≤ 100 * (y + self ours) else n < y);
    [destruct proposing; rewrite Z.ltb_lt; [by apply weight_spec|done]|generalize dependent new] end.
  intros new Hnew.
  destruct (Bool.eqb_spec new ours) as [<-|Hne]; simpl; split_and!; try done;
    [by rewrite Bool.eqb_reflx|by destruct new, ours].
Qed.

Lemma updateVote_ok {Tx} t proposing p (d : DisputedTx Tx) :
  votes_ok d → votes_ok (updateVote t proposing p d).2.
Proof.
  intros [Hy Hn]. pose proof (tally_nonneg true (votes_ d)). pose proof (tally_nonneg false (votes_ d)).
  pose proof (updateVote_spec t proposing p d ltac:(lia) ltac:(lia)) as H1.
  destruct (updateVote t proposing p d) as [c d']. destruct H1 as (_ & _ & ->). done.
Qed.

(** A node that has just changed its mind keeps its new vote: its own vote counts
    on the side it joined. *)
Lemma vote_yes_stable t proposing p ours y n :
  0 ≤ y → 0 ≤ n → 0 ≤ neededPct t p →
  ∀ new : bool, (new = true ↔ vote_yes t proposing p ours y n) →
  (new = true ↔ vote_yes t proposing p new y n).
Proof.
  intros Hy Hn Hpct new Hnew. destruct (Bool.eqb_spec new ours) as [->|Hne]; [done|].
  unfold vote_yes in *.
  destruct new, ours; try done; simpl in *;
    destruct (Z.eqb_spec n 0), (Z.eqb_spec y 0), proposing; simpl in *; intuition (try discriminate; lia).
Qed.

(** a dispute's update follows the peers when they all say what we say and
    otherwise compares the share of yes votes with the threshold of the moment;
    it reports whether our vote changed and touches nothing else; repeating it
    at the same moment changes nothing (no oscillation); and, when proposing, a
    vote that is yes late in the round would have been yes earlier. *)
Theorem updateVote_correct {Tx} t t' proposing p (d : DisputedTx Tx) :
  votes_ok d → ramping p → 0 ≤ t ≤ t' → t' < 2 ^ 31 →
  let '(changed, d') := updateVote t proposing p d in
  (ourVote_ d' = true ↔
    vote_yes t proposing p (ourVote_ d) (tally true (votes_ d)) (tally false (votes_ d))) ∧
  (changed = true ↔ ourVote_ d' ≠ ourVote_ d) ∧
  votes_ok d' ∧ votes_ d' = votes_ d ∧ tx_ d' = tx_ d ∧
  updateVote t proposing p d' = (false, d') ∧
  (proposing = true → ourVote_ (updateVote t' proposing p d).2 = true → ourVote_ d' = true).
Proof.
  intros Hok Hp Ht Ht'. pose proof (updateVote_ok t proposing p d Hok) as Hok'.
  destruct Hok as [Hy Hn]. rewrite <- Hy, <- Hn.
  assert (0 ≤ yays_ d) by (rewrite Hy; apply tally_nonneg).
  assert (0 ≤ nays_ d) by (rewrite Hn; apply tally_nonneg).
  destruct (neededPct_mono p t t' Hp Ht Ht') as [Hp0 Hp1].
  pose proof (updateVote_spec t proposing p d ltac:(done) ltac:(done)) as H1.
  pose proof (updateVote_spec t' proposing p d ltac:(done) ltac:(done)) as H2.
  destruct (updateVote t proposing p d) as [c d'], (updateVote t' proposing p d) as [c' d''].
  destruct H1 as (Hv & Hc & Hd), H2 as (Hv' & _ & _). simpl in *.
  split_and!; [done| |done|by rewrite Hd..| |].
  - rewrite Hc. destruct (Bool.eqb_spec (ourVote_ d') (ourVote_ d)); simpl; intuition congruence.
  - pose proof (updateVote_spec t proposing p d') as H3. rewrite Hd in H3. simpl in H3. rewrite <- Hd in H3.
    destruct (updateVote t proposing p d') as [c2 d2]. destruct H3 as (Hv2 & Hc2 & Hd2); [done..|].
    assert (E : ourVote_ d2 = ourVote_ d').
    { apply Bool.eq_iff_eq_true. rewrite Hv2. symmetry.
      by apply (vote_yes_stable _ _ _ (ourVote_ d)). }
    rewrite E in Hc2, Hd2. rewrite Bool.eqb_reflx in Hc2. by rewrite Hd2, Hc2, <- Hd.
  - intros -> Hy2. apply Hv. apply Hv' in Hy2. unfold vote_yes in *.
    destruct (ourVote_ d && (nays_ d =? 0)), (negb (ourVote_ d) && (yays_ d =? 0)); try done. nia.
Qed.

Lemma defaultParms_ramping : ramping defaultParms.
Proof. unfold ramping, defaultParms. simpl. lia. Qed.

Definition sample_dispute : DisputedTx Z :=
  foldl run_vote (newDispute 7 false) [Vote 1 true; Vote 2 true; Vote 3 false; Vote 3 true].

Lemma updateVote_correct_witness :
  updateVote 60 true defaultParms sample_dispute = (true, mkDisputed 3 0 true 7 (votes_ sample_dispute)) ∧
  votes_ok (updateVote 60 true defaultParms sample_dispute).2.
Proof.
  split; [vm_compute; reflexivity|].
  pose proof (updateVote_correct 60 90 true defaultParms sample_dispute) as H.
  destruct (updateVote 60 true defaultParms sample_dispute) as [c d'].
  apply H; [split; vm_compute; reflexivity|apply defaultParms_ramping|lia|lia].
Defined.
