(* ===== verification/ConsensusEngine.v ===== *)
(** * Consensus: the round

    Model of the class template [Consensus<Adaptor>] of
    [src/src/ripple/consensus/Consensus.h] with [ConsensusResult] of
    [ConsensusTypes.h].  The members of the class are the record [Cs], its
    functions are computations in a state monad.  The [assert]s of [Consensus.h] and of
    the constructor of [ConsensusResult] are part of the computations: in a build that
    checks them ([Build]) a condition that does not hold ends the program ([Asserted]), in
    a build that does not they are skipped.

    The template's parameters are interfaces: [TxSetOps] is the transaction set
    ([RCLTxSet] in the server), [Adaptor] the application ([RCLConsensus::Adaptor]).
    A call that asks the application something may change its state; a call that
    tells it something is an [Event], recorded in a trace.  The iteration order of
    a [hash_map] is unspecified: it is the order given by [HashOrder].

    [timerEntry] and [startRoundInternal] call each other through [checkLedger], as
    long as the application keeps naming new ledgers; the recursion has fuel and
    [OutOfFuel] means it ran out.  [timerEntry_total] shows that two levels suffice for
    an application that sticks to the ledger it named. *)

From stdpp Require Import base numbers list gmap strings.
From Stdlib Require Import Lia ZArith.
From S2P Require Import Prelude Consensus.

Local Open Scope Z_scope.

(** ** Interfaces *)

(** The members of a ledger that consensus uses. *)
Record CxLedger : Type := mkLedger {
  lg_id : Z;
  lg_seq : Z;
  lg_closeTimeResolution : Z;
  lg_closeAgree : bool;
  lg_closeTime : Z;
  lg_parentCloseTime : Z }.

Class TxSetOps (TxSet Tx : Type) := {
  tx_id : Tx → Z;
  ts_id : TxSet → Z;
  ts_exists : TxSet → Z → bool;
  ts_find : TxSet → Z → option Tx;
  ts_compare : TxSet → TxSet → list (Z * bool);
  ts_insert : TxSet → Tx → TxSet;
  ts_erase : TxSet → Z → TxSet }.

(** ** The result of a round *)

Record ConsensusResult {TxSet Tx : Type} : Type := mkResult {
  txns : TxSet;
  pos : ConsensusProposal;
  disputes : gmap Z (DisputedTx Tx);
  compares : gset Z;
  roundTime : ConsensusTimer;
  state : ConsensusState;
  proposers : Z }.
Arguments ConsensusResult : clear implicits.
Arguments mkResult {TxSet Tx}.

(** What the application is told. *)
Inductive Event {TxSet Tx : Type} : Type :=
| OnModeChange (before after : ConsensusMode)
| SharePosition (p : ConsensusProposal)
| ShareTxSet (s : TxSet)
| ShareTx (t : Tx)
| Propose (p : ConsensusProposal)
| OnAccept (r : ConsensusResult TxSet Tx) (prev : CxLedger) (closeResolution : Z)
    (rawPeers : gmap Z Z) (rawSelf : Z) (mode : ConsensusMode)
| OnForceAccept (r : ConsensusResult TxSet Tx) (prev : CxLedger) (closeResolution : Z)
    (rawPeers : gmap Z Z) (rawSelf : Z) (mode : ConsensusMode).
Arguments Event : clear implicits.

Class Adaptor (W TxSet Tx : Type) := {
  parms : ConsensusParms;
  clock_now : W → Z * W;
  acquireLedger : Z → W → option CxLedger * W;
  acquireTxSet : Z → W → option TxSet * W;
  hasOpenTransactions : W → bool * W;
  proposersValidated : Z → W → Z * W;
  proposersFinished : CxLedger → Z → W → Z * W;
  getPrevLedger : Z → CxLedger → ConsensusMode → W → Z * W;
  onClose : CxLedger → Z → ConsensusMode → W → (TxSet * ConsensusProposal) * W;
  notify : Event TxSet Tx → W → W }.

(** ** The state *)

Record Cs {TxSet Tx : Type} : Type := mkCs {
  phase_ : ConsensusPhase;
  mode_ : ConsensusMode;
  firstRound_ : bool;
  haveCloseTimeConsensus_ : bool;
  convergePercent_ : Z;
  openTime_ : ConsensusTimer;
  closeResolution_ : Z;
  prevRoundTime_ : Z;
  now_ : Z;
  prevCloseTime_ : Z;
  prevLedgerID_ : Z;
  previousLedger_ : CxLedger;
  acquired_ : gmap Z TxSet;
  result_ : option (ConsensusResult TxSet Tx);
  rawPeers_ : gmap Z Z;
  rawSelf_ : Z;
  currPeerPositions_ : gmap Z ConsensusProposal;
  recentPeerPositions_ : gmap Z (list ConsensusProposal);
  prevProposers_ : Z;
  deadNodes_ : gset Z }.
Arguments Cs : clear implicits.
Arguments mkCs {TxSet Tx}.

Section Setters.
Context {TxSet Tx : Type}.
Implicit Types (r : ConsensusResult TxSet Tx) (c : Cs TxSet Tx).

Definition r_set_txns v r : ConsensusResult TxSet Tx :=
  mkResult v (pos r) (disputes r) (compares r) (roundTime r) (state r) (proposers r).
Definition r_set_pos v r : ConsensusResult TxSet Tx :=
  mkResult (txns r) v (disputes r) (compares r) (roundTime r) (state r) (proposers r).
Definition r_set_disputes v r : ConsensusResult TxSet Tx :=
  mkResult (txns r) (pos r) v (compares r) (roundTime r) (state r) (proposers r).
Definition r_set_compares v r : ConsensusResult TxSet Tx :=
  mkResult (txns r) (pos r) (disputes r) v (roundTime r) (state r) (proposers r).
Definition r_set_roundTime v r : ConsensusResult TxSet Tx :=
  mkResult (txns r) (pos r) (disputes r) (compares r) v (state r) (proposers r).
Definition r_set_state v r : ConsensusResult TxSet Tx :=
  mkResult (txns r) (pos r) (disputes r) (compares r) (roundTime r) v (proposers r).
Definition r_set_proposers v r : ConsensusResult TxSet Tx :=
  mkResult (txns r) (pos r) (disputes r) (compares r) (roundTime r) (state r) v.

Definition set_phase v c : Cs TxSet Tx :=
  mkCs v (mode_ c) (firstRound_ c) (haveCloseTimeConsensus_ c) (convergePercent_ c) (openTime_ c)
    (closeResolution_ c) (prevRoundTime_ c) (now_ c) (prevCloseTime_ c) (prevLedgerID_ c)
    (previousLedger_ c) (acquired_ c) (result_ c) (rawPeers_ c) (rawSelf_ c)
    (currPeerPositions_ c) (recentPeerPositions_ c) (prevProposers_ c) (deadNodes_ c).
Definition set_mode v c : Cs TxSet Tx :=
  mkCs (phase_ c) v (firstRound_ c) (haveCloseTimeConsensus_ c) (convergePercent_ c) (openTime_ c)
    (closeResolution_ c) (prevRoundTime_ c) (now_ c) (prevCloseTime_ c) (prevLedgerID_ c)
    (previousLedger_ c) (acquired_ c) (result_ c) (rawPeers_ c) (rawSelf_ c)
    (currPeerPositions_ c) (recentPeerPositions_ c) (prevProposers_ c) (deadNodes_ c).
Definition set_firstRound v c : Cs TxSet Tx :=
  mkCs (phase_ c) (mode_ c) v (haveCloseTimeConsensus_ c) (convergePercent_ c) (openTime_ c)
    (closeResolution_ c) (prevRoundTime_ c) (now_ c) (prevCloseTime_ c) (prevLedgerID_ c)
    (previousLedger_ c) (acquired_ c) (result_ c) (rawPeers_ c) (rawSelf_ c)
    (currPeerPositions_ c) (recentPeerPositions_ c) (prevProposers_ c) (deadNodes_ c).
Definition set_haveCloseTimeConsensus v c : Cs TxSet Tx :=
  mkCs (phase_ c) (mode_ c) (firstRound_ c) v (convergePercent_ c) (openTime_ c)
    (closeResolution_ c) (prevRoundTime_ c) (now_ c) (prevCloseTime_ c) (prevLedgerID_ c)
    (previousLedger_ c) (acquired_ c) (result_ c) (rawPeers_ c) (rawSelf_ c)
    (currPeerPositions_ c) (recentPeerPositions_ c) (prevProposers_ c) (deadNodes_ c).
Definition set_convergePercent v c : Cs TxSet Tx :=
  mkCs (phase_ c) (mode_ c) (firstRound_ c) (haveCloseTimeConsensus_ c) v (openTime_ c)
    (closeResolution_ c) (prevRoundTime_ c) (now_ c) (prevCloseTime_ c) (prevLedgerID_ c)
    (previousLedger_ c) (acquired_ c) (result_ c) (rawPeers_ c) (rawSelf_ c)
    (currPeerPositions_ c) (recentPeerPositions_ c) (prevProposers_ c) (deadNodes_ c).
Definition set_openTime v c : Cs TxSet Tx :=
  mkCs (phase_ c) (mode_ c) (firstRound_ c) (haveCloseTimeConsensus_ c) (convergePercent_ c) v
    (closeResolution_ c) (prevRoundTime_ c) (now_ c) (prevCloseTime_ c) (prevLedgerID_ c)
    (previousLedger_ c) (acquired_ c) (result_ c) (rawPeers_ c) (rawSelf_ c)
    (currPeerPositions_ c) (recentPeerPositions_ c) (prevProposers_ c) (deadNodes_ c).
Definition set_closeResolution v c : Cs TxSet Tx :=
  mkCs (phase_ c) (mode_ c) (firstRound_ c) (haveCloseTimeConsensus_ c) (convergePercent_ c)
    (openTime_ c) v (prevRoundTime_ c) (now_ c) (prevCloseTime_ c) (prevLedgerID_ c)
    (previousLedger_ c) (acquired_ c) (result_ c) (rawPeers_ c) (rawSelf_ c)
    (currPeerPositions_ c) (recentPeerPositions_ c) (prevProposers_ c) (deadNodes_ c).
Definition set_prevRoundTime v c : Cs TxSet Tx :=
  mkCs (phase_ c) (mode_ c) (firstRound_ c) (haveCloseTimeConsensus_ c) (convergePercent_ c)
    (openTime_ c) (closeResolution_ c) v (now_ c) (prevCloseTime_ c) (prevLedgerID_ c)
    (previousLedger_ c) (acquired_ c) (result_ c) (rawPeers_ c) (rawSelf_ c)
    (currPeerPositions_ c) (recentPeerPositions_ c) (prevProposers_ c) (deadNodes_ c).
Definition set_now v c : Cs TxSet Tx :=
  mkCs (phase_ c) (mode_ c) (firstRound_ c) (haveCloseTimeConsensus_ c) (convergePercent_ c)
    (openTime_ c) (closeResolution_ c) (prevRoundTime_ c) v (prevCloseTime_ c) (prevLedgerID_ c)
    (previousLedger_ c) (acquired_ c) (result_ c) (rawPeers_ c) (rawSelf_ c)
    (currPeerPositions_ c) (recentPeerPositions_ c) (prevProposers_ c) (deadNodes_ c).
Definition set_prevCloseTime v c : Cs TxSet Tx :=
  mkCs (phase_ c) (mode_ c) (firstRound_ c) (haveCloseTimeConsensus_ c) (convergePercent_ c)
    (openTime_ c) (closeResolution_ c) (prevRoundTime_ c) (now_ c) v (prevLedgerID_ c)
    (previousLedger_ c) (acquired_ c) (result_ c) (rawPeers_ c) (rawSelf_ c)
    (currPeerPositions_ c) (recentPeerPositions_ c) (prevProposers_ c) (deadNodes_ c).
Definition set_prevLedgerID v c : Cs TxSet Tx :=
  mkCs (phase_ c) (mode_ c) (firstRound_ c) (haveCloseTimeConsensus_ c) (convergePercent_ c)
    (openTime_ c) (closeResolution_ c) (prevRoundTime_ c) (now_ c) (prevCloseTime_ c) v
    (previousLedger_ c) (acquired_ c) (result_ c) (rawPeers_ c) (rawSelf_ c)
    (currPeerPositions_ c) (recentPeerPositions_ c) (prevProposers_ c) (deadNodes_ c).
Definition set_previousLedger v c : Cs TxSet Tx :=
  mkCs (phase_ c) (mode_ c) (firstRound_ c) (haveCloseTimeConsensus_ c) (convergePercent_ c)
    (openTime_ c) (closeResolution_ c) (prevRoundTime_ c) (now_ c) (prevCloseTime_ c)
    (prevLedgerID_ c) v (acquired_ c) (result_ c) (rawPeers_ c) (rawSelf_ c)
    (currPeerPositions_ c) (recentPeerPositions_ c) (prevProposers_ c) (deadNodes_ c).
Definition set_acquired v c : Cs TxSet Tx :=
  mkCs (phase_ c) (mode_ c) (firstRound_ c) (haveCloseTimeConsensus_ c) (convergePercent_ c)
    (openTime_ c) (closeResolution_ c) (prevRoundTime_ c) (now_ c) (prevCloseTime_ c)
    (prevLedgerID_ c) (previousLedger_ c) v (result_ c) (rawPeers_ c) (rawSelf_ c)
    (currPeerPositions_ c) (recentPeerPositions_ c) (prevProposers_ c) (deadNodes_ c).
Definition set_result v c : Cs TxSet Tx :=
  mkCs (phase_ c) (mode_ c) (firstRound_ c) (haveCloseTimeConsensus_ c) (convergePercent_ c)
    (openTime_ c) (closeResolution_ c) (prevRoundTime_ c) (now_ c) (prevCloseTime_ c)
    (prevLedgerID_ c) (previousLedger_ c) (acquired_ c) v (rawPeers_ c) (rawSelf_ c)
    (currPeerPositions_ c) (recentPeerPositions_ c) (prevProposers_ c) (deadNodes_ c).
Definition set_rawPeers v c : Cs TxSet Tx :=
  mkCs (phase_ c) (mode_ c) (firstRound_ c) (haveCloseTimeConsensus_ c) (convergePercent_ c)
    (openTime_ c) (closeResolution_ c) (prevRoundTime_ c) (now_ c) (prevCloseTime_ c)
    (prevLedgerID_ c) (previousLedger_ c) (acquired_ c) (result_ c) v (rawSelf_ c)
    (currPeerPositions_ c) (recentPeerPositions_ c) (prevProposers_ c) (deadNodes_ c).
Definition set_rawSelf v c : Cs TxSet Tx :=
  mkCs (phase_ c) (mode_ c) (firstRound_ c) (haveCloseTimeConsensus_ c) (convergePercent_ c)
    (openTime_ c) (closeResolution_ c) (prevRoundTime_ c) (now_ c) (prevCloseTime_ c)
    (prevLedgerID_ c) (previousLedger_ c) (acquired_ c) (result_ c) (rawPeers_ c) v
    (currPeerPositions_ c) (recentPeerPositions_ c) (prevProposers_ c) (deadNodes_ c).
Definition set_currPeerPositions v c : Cs TxSet Tx :=
  mkCs (phase_ c) (mode_ c) (firstRound_ c) (haveCloseTimeConsensus_ c) (convergePercent_ c)
    (openTime_ c) (closeResolution_ c) (prevRoundTime_ c) (now_ c) (prevCloseTime_ c)
    (prevLedgerID_ c) (previousLedger_ c) (acquired_ c) (result_ c) (rawPeers_ c) (rawSelf_ c) v
    (recentPeerPositions_ c) (prevProposers_ c) (deadNodes_ c).
Definition set_recentPeerPositions v c : Cs TxSet Tx :=
  mkCs (phase_ c) (mode_ c) (firstRound_ c) (haveCloseTimeConsensus_ c) (convergePercent_ c)
    (openTime_ c) (closeResolution_ c) (prevRoundTime_ c) (now_ c) (prevCloseTime_ c)
    (prevLedgerID_ c) (previousLedger_ c) (acquired_ c) (result_ c) (rawPeers_ c) (rawSelf_ c)
    (currPeerPositions_ c) v (prevProposers_ c) (deadNodes_ c).
Definition set_prevProposers v c : Cs TxSet Tx :=
  mkCs (phase_ c) (mode_ c) (firstRound_ c) (haveCloseTimeConsensus_ c) (convergePercent_ c)
    (openTime_ c) (closeResolution_ c) (prevRoundTime_ c) (now_ c) (prevCloseTime_ c)
    (prevLedgerID_ c) (previousLedger_ c) (acquired_ c) (result_ c) (rawPeers_ c) (rawSelf_ c)
    (currPeerPositions_ c) (recentPeerPositions_ c) v (deadNodes_ c).
Definition set_deadNodes v c : Cs TxSet Tx :=
  mkCs (phase_ c) (mode_ c) (firstRound_ c) (haveCloseTimeConsensus_ c) (convergePercent_ c)
    (openTime_ c) (closeResolution_ c) (prevRoundTime_ c) (now_ c) (prevCloseTime_ c)
    (prevLedgerID_ c) (previousLedger_ c) (acquired_ c) (result_ c) (rawPeers_ c) (rawSelf_ c)
    (currPeerPositions_ c) (recentPeerPositions_ c) (prevProposers_ c) v.
End Setters.

Record St {W TxSet Tx : Type} : Type := mkSt {
  world : W;
  cs : Cs TxSet Tx;
  trace : list (Event TxSet Tx) }.
Arguments St : clear implicits.
Arguments mkSt {W TxSet Tx} _ _ _.

(** ** The monad *)

(** A computation ends, fails an assertion, or the fuel of the model is not enough. *)
Inductive Run (A : Type) : Type :=
| Done (a : A)
| Asserted
| OutOfFuel.
Arguments Done {A} _.
Arguments Asserted {A}.
Arguments OutOfFuel {A}.

Definition M (S A : Type) : Type := S → Run (A * S).

#[export] Instance M_ret S : MRet (M S) := λ A a s, Done (a, s).
#[export] Instance M_bind S : MBind (M S) := λ A B f m s,
  match m s with
  | Done (a, s) => f a s
  | Asserted => Asserted
  | OutOfFuel => OutOfFuel
  end.

(** Whether the program was built with its assertions ([NDEBUG] not defined). *)
Class Build := { asserts : bool }.

Definition assert_ `{build : Build} {S} (b : bool) : M S () := λ s,
  if asserts && negb b then Asserted else Done ((), s).

Definition isSome {A} (o : option A) : bool := match o with Some _ => true | None => false end.

Fixpoint for_all {S A} (l : list A) (body : A → M S ()) : M S () :=
  match l with
  | [] => mret ()
  | a :: l => body a ;; for_all l body
  end.

(** ** Operations *)

(** How many participants must agree to reach a percentage. *)
Definition participantsNeeded (participants percent : Z) : Z :=
  let result := (participants * percent + percent `quot` 2) `quot` 100 in
  if result =? 0 then 1 else result.

Section Engine.
Context {W TxSet Tx : Type} `{!TxSetOps TxSet Tx} `{!Adaptor W TxSet Tx} `{!HashOrder} `{build : Build}.

#[local] Abbreviation Result := (ConsensusResult TxSet Tx).
#[local] Abbreviation C := (Cs TxSet Tx).
#[local] Abbreviation S := (St W TxSet Tx).

Definition get : M S C := λ s, Done (cs s, s).
Definition modify (f : C → C) : M S () := λ s, Done ((), mkSt (world s) (f (cs s)) (trace s)).
Definition query {A} (f : W → A * W) : M S A := λ s,
  let '(a, w) := f (world s) in Done (a, mkSt w (cs s) (trace s)).
Definition emit (e : Event TxSet Tx) : M S () := λ s,
  Done ((), mkSt (notify e (world s)) (cs s) (trace s ++ [e])).
Definition out_of_fuel {A} : M S A := λ _, OutOfFuel.

(** A change of [*result_]. *)
Definition on_result (f : Result → Result) (c : C) : C := set_result (f <$> result_ c) c.

Definition setMode (mode : ConsensusMode) : M S () :=
  c ← get;
  emit (OnModeChange (mode_ c) mode) ;;
  modify (set_mode mode).

Definition asCloseTime (c : C) (raw : Z) : Z :=
  if useRoundedCloseTime parms then roundCloseTime raw (closeResolution_ c)
  else effCloseTime raw (closeResolution_ c) (lg_closeTime (previousLedger_ c)).

(** Every peer whose transaction set is known votes on a new dispute. *)
Definition poll (c : C) (txID : Z) (d : DisputedTx Tx) : DisputedTx Tx :=
  foldl (λ d '(peer, p),
    match acquired_ c !! position p with
    | Some s => setVote peer (ts_exists s txID) d
    | None => d
    end) d (hash_order (currPeerPositions_ c)).

(** One difference between our set and the set [o]. *)
Definition createDispute (o : TxSet) (id : Z * bool) : M S () :=
  c ← get;
  match result_ c with
  | None => mret ()
  | Some r =>
    assert_ ((id.2 && isSome (ts_find (txns r) id.1) && negb (isSome (ts_find o id.1)))
             || (negb id.2 && negb (isSome (ts_find (txns r) id.1)) && isSome (ts_find o id.1))) ;;
    match (if id.2 then ts_find (txns r) id.1 else ts_find o id.1) with
    | None => mret ()
    | Some tx =>
      let txID := tx_id tx in
      match disputes r !! txID with
      | Some _ => mret ()
      | None =>
        let dtx := poll c txID (newDispute tx (ts_exists (txns r) txID)) in
        emit (ShareTx (tx_ dtx)) ;;
        modify (on_result (λ r, r_set_disputes (<[txID := dtx]> (disputes r)) r))
      end
    end
  end.

Definition createDisputes (o : TxSet) : M S () :=
  c ← get;
  assert_ (isSome (result_ c)) ;;
  match result_ c with
  | None => mret ()
  | Some r =>
    if bool_decide (ts_id o ∈ compares r) then mret ()
    else
      modify (on_result (λ r, r_set_compares ({[ ts_id o ]} ∪ compares r) r)) ;;
      if ts_id (txns r) =? ts_id o then mret ()
      else for_all (ts_compare (txns r) o) (createDispute o)
  end.

Definition updateDisputes (node : Z) (other : TxSet) : M S () :=
  c ← get;
  assert_ (isSome (result_ c)) ;;
  match result_ c with
  | None => mret ()
  | Some r =>
    (if bool_decide (ts_id other ∈ compares r) then mret () else createDisputes other) ;;
    modify (on_result (λ r, r_set_disputes
      ((λ d, setVote node (ts_exists other (tx_id (tx_ d))) d) <$> disputes r) r))
  end.

Definition gotTxSet (now : Z) (txSet : TxSet) : M S () :=
  c ← get;
  if decide (phase_ c = accepted) then mret ()
  else
    modify (set_now now) ;;
    let id := ts_id txSet in
    match acquired_ c !! id with
    | Some _ => mret ()
    | None =>
      modify (set_acquired (<[id := txSet]> (acquired_ c))) ;;
      match result_ c with
      | None => mret ()
      | Some r =>
        assert_ (negb (id =? position (pos r))) ;;
        for_all (hash_order (currPeerPositions_ c)) (λ it,
          if position it.2 =? id then updateDisputes it.1 txSet else mret ())
      end
    end.

(** The peer takes back its votes. *)
Definition unVoteAll (peer : Z) : C → C :=
  on_result (λ r, r_set_disputes (unVote peer <$> disputes r) r).

Definition peerProposalInternal (now : Z) (newPeerPos : ConsensusProposal) : M S bool :=
  c ← get;
  if decide (phase_ c = accepted) then mret false
  else
    modify (set_now now) ;;
    let peerID := nodeID newPeerPos in
    if negb (prevLedger newPeerPos =? prevLedgerID_ c) then mret false
    else if bool_decide (peerID ∈ deadNodes_ c) then mret false
    else if (match currPeerPositions_ c !! peerID with
             | Some p => proposeSeq newPeerPos <=? proposeSeq p
             | None => false
             end) then mret false
    else if isBowOut newPeerPos then
      modify (unVoteAll peerID) ;;
      modify (λ c, set_currPeerPositions (delete peerID (currPeerPositions_ c)) c) ;;
      modify (λ c, set_deadNodes ({[ peerID ]} ∪ deadNodes_ c) c) ;;
      mret true
    else
      modify (λ c, set_currPeerPositions (<[peerID := newPeerPos]> (currPeerPositions_ c)) c) ;;
      (if isInitial newPeerPos
       then modify (λ c, set_rawPeers
              (<[closeTime newPeerPos := default 0 (rawPeers_ c !! closeTime newPeerPos) + 1]>
                (rawPeers_ c)) c)
       else mret ()) ;;
      (match acquired_ c !! position newPeerPos with
       | None =>
         set ← query (acquireTxSet (position newPeerPos));
         match set with Some set => gotTxSet now set | None => mret () end
       | Some set =>
         match result_ c with
         | Some _ => updateDisputes (nodeID newPeerPos) set
         | None => mret ()
         end
       end) ;;
      mret true.

Definition peerProposal (now : Z) (newPeerPos : ConsensusProposal) : M S bool :=
  c ← get;
  let peerID := nodeID newPeerPos in
  let props := default [] (recentPeerPositions_ c !! peerID) in
  let props := if bool_decide (10 ≤ length props)%nat then tail props else props in
  modify (set_recentPeerPositions (<[peerID := props ++ [newPeerPos]]> (recentPeerPositions_ c))) ;;
  peerProposalInternal now newPeerPos.

Definition playbackProposals : M S () :=
  c ← get;
  for_all (hash_order (recentPeerPositions_ c)) (λ it,
    for_all it.2 (λ pos,
      c ← get;
      if prevLedger pos =? prevLedgerID_ c then
        relay ← peerProposalInternal (now_ c) pos;
        if relay : bool then emit (SharePosition pos) else mret ()
      else mret ())).

Definition leaveConsensus : M S () :=
  c ← get;
  if decide (mode_ c = proposing) then
    (match result_ c with
     | Some r =>
       if isBowOut (pos r) then mret ()
       else
         modify (on_result (λ r, r_set_pos (bowOut (now_ c) (pos r)) r)) ;;
         emit (Propose (bowOut (now_ c) (pos r)))
     | None => mret ()
     end) ;;
    setMode observing
  else mret ().

Definition closeLedger : M S () :=
  c ← get;
  assert_ (negb (isSome (result_ c))) ;;
  modify (set_phase establish) ;;
  modify (λ c, set_rawSelf (now_ c) c) ;;
  c ← get;
  closed ← query (onClose (previousLedger_ c) (now_ c) (mode_ c));
  assert_ (ts_id closed.1 =? position closed.2) ;;
  start ← query clock_now;
  let r := mkResult closed.1 closed.2 ∅ ∅ (timer_reset start) No 0 in
  modify (set_result (Some r)) ;;
  (match acquired_ c !! ts_id (txns r) with
   | Some _ => mret ()
   | None =>
     modify (λ c, set_acquired (<[ts_id (txns r) := txns r]> (acquired_ c)) c) ;;
     emit (ShareTxSet (txns r))
   end) ;;
  (if decide (mode_ c = proposing) then emit (Propose (pos r)) else mret ()) ;;
  for_all (hash_order (currPeerPositions_ c)) (λ pit,
    c ← get;
    match acquired_ c !! position pit.2 with
    | Some s => createDisputes s
    | None => mret ()
    end).

Definition phaseOpen : M S () :=
  c ← get;
  anyTransactions ← query hasOpenTransactions;
  let proposersClosed := Z.of_nat (size (currPeerPositions_ c)) in
  validated ← query (proposersValidated (prevLedgerID_ c));
  tick ← query clock_now;
  modify (λ c, set_openTime (timer_tick tick (openTime_ c)) c) ;;
  c ← get;
  let prev := previousLedger_ c in
  let previousCloseCorrect :=
    negb (bool_decide (mode_ c = wrongLedger)) && lg_closeAgree prev
    && negb (lg_closeTime prev =? lg_parentCloseTime prev + 1) in
  let lastCloseTime := if previousCloseCorrect then lg_closeTime prev else prevCloseTime_ c in
  let sinceClose :=
    if lastCloseTime <=? now_ c then (now_ c - lastCloseTime) * 1000
    else - ((lastCloseTime - now_ c) * 1000) in
  let idleInterval := ledgerIDLE_INTERVAL parms `max` (u32 (2 * lg_closeTimeResolution prev) * 1000) in
  if shouldCloseLedger anyTransactions (prevProposers_ c) proposersClosed validated
       (prevRoundTime_ c) sinceClose (dur_ (openTime_ c)) idleInterval parms
  then closeLedger else mret ().

(** *** Establishing consensus *)

(** A peer's position is dropped if it is stale, otherwise its close time counts. *)
Definition count_peer (peerCutoff : Z) (cv : C * gmap Z Z) (it : Z * ConsensusProposal)
    : C * gmap Z Z :=
  let '(c, closeTimeVotes) := cv in
  if isStale peerCutoff it.2
  then (let c := unVoteAll (nodeID it.2) c in
        set_currPeerPositions (delete it.1 (currPeerPositions_ c)) c, closeTimeVotes)
  else
    let t := asCloseTime c (closeTime it.2) in
    (c, <[t := default 0 (closeTimeVotes !! t) + 1]> closeTimeVotes).

(** Our vote on one dispute; a changed vote changes our set. *)
Definition update_dispute (convergePercent : Z) (isProposing : bool) (txns : TxSet)
    (ds : gmap Z (DisputedTx Tx) * option TxSet) (it : Z * DisputedTx Tx)
    : gmap Z (DisputedTx Tx) * option TxSet :=
  let '(disputes, mutableSet) := ds in
  let '(changed, d) := updateVote convergePercent isProposing parms it.2 in
  (<[it.1 := d]> disputes,
   if changed : bool
   then let set := default txns mutableSet in
        Some (if ourVote_ d then ts_insert set (tx_ d) else ts_erase set it.1)
   else mutableSet).

(** The vote on the close time: the time chosen, the votes it has and whether that
    is a consensus. *)
Definition tally_close_time (threshConsensus : Z) (acc : Z * Z * bool) (it : Z * Z) : Z * Z * bool :=
  let '(consensusCloseTime, threshVote, have) := acc in
  if threshVote <=? it.2 then (it.1, it.2, have || (threshConsensus <=? it.2)) else acc.

Definition choose_close_time (c : C) (r : Result) (closeTimeVotes : gmap Z Z) : Z * bool :=
  let ours := asCloseTime c (closeTime (pos r)) in
  if decide (currPeerPositions_ c = ∅) then (ours, true)
  else
    let neededWeight := neededPct (convergePercent_ c) parms in
    let participants := Z.of_nat (size (currPeerPositions_ c)) in
    let '(closeTimeVotes, participants) :=
      if decide (mode_ c = proposing)
      then (<[ours := default 0 (closeTimeVotes !! ours) + 1]> closeTimeVotes, participants + 1)
      else (closeTimeVotes, participants) in
    let threshVote := participantsNeeded participants neededWeight in
    let threshConsensus := participantsNeeded participants (avCT_CONSENSUS_PCT parms) in
    let '(t, _, have) :=
      foldl (tally_close_time threshConsensus) (0, threshVote, false) (in_order closeTimeVotes) in
    (t, have).

(** Our new position is shared and, if we propose, proposed. *)
Definition take_position (newSet : TxSet) (consensusCloseTime : Z) : M S () :=
  let newID := ts_id newSet in
  modify (λ c, on_result (λ r, r_set_pos (changePosition newID consensusCloseTime (now_ c) (pos r))
                                 (r_set_txns newSet r)) c) ;;
  c ← get;
  match result_ c with
  | None => mret ()
  | Some r =>
    (match acquired_ c !! newID with
     | Some _ => mret ()
     | None =>
       modify (set_acquired (<[newID := newSet]> (acquired_ c))) ;;
       (if isBowOut (pos r) then mret () else emit (ShareTxSet newSet)) ;;
       for_all (hash_order (currPeerPositions_ c)) (λ it,
         if position it.2 =? newID then updateDisputes it.1 newSet else mret ())
     end) ;;
    if negb (isBowOut (pos r)) && bool_decide (mode_ c = proposing)
    then emit (Propose (pos r)) else mret ()
  end.

Definition updateOurPositions : M S () :=
  c ← get;
  assert_ (isSome (result_ c)) ;;
  let peerCutoff := u32 (now_ c - proposeFRESHNESS parms) in
  let ourCutoff := u32 (now_ c - proposeINTERVAL parms) in
  let '(c, closeTimeVotes) := foldl (count_peer peerCutoff) (c, ∅) (hash_order (currPeerPositions_ c)) in
  modify (λ _, c) ;;
  match result_ c with
  | None => mret ()
  | Some r =>
    let '(ds, mutableSet) :=
      foldl (update_dispute (convergePercent_ c) (bool_decide (mode_ c = proposing)) (txns r))
        (disputes r, None) (hash_order (disputes r)) in
    modify (on_result (r_set_disputes ds)) ;;
    let '(consensusCloseTime, have) := choose_close_time c r closeTimeVotes in
    modify (set_haveCloseTimeConsensus have) ;;
    match mutableSet with
    | Some newSet => take_position newSet consensusCloseTime
    | None =>
      if negb (consensusCloseTime =? asCloseTime c (closeTime (pos r))) || isStale ourCutoff (pos r)
      then take_position (txns r) consensusCloseTime
      else mret ()
    end
  end.

(** The peers at a position. *)
Definition at_position (id : Z) (peers : gmap Z ConsensusProposal) : Z :=
  Z.of_nat (size (filter (λ it, position it.2 = id) peers)).

Definition haveConsensus : M S bool :=
  c ← get;
  assert_ (isSome (result_ c)) ;;
  match result_ c with
  | None => mret false
  | Some r =>
    let agree := at_position (position (pos r)) (currPeerPositions_ c) in
    let disagree := Z.of_nat (size (currPeerPositions_ c)) - agree in
    currentFinished ← query (proposersFinished (previousLedger_ c) (prevLedgerID_ c));
    let st := checkConsensus (prevProposers_ c) (agree + disagree) agree currentFinished
                (prevRoundTime_ c) (dur_ (roundTime r)) parms (bool_decide (mode_ c = proposing)) in
    modify (on_result (r_set_state st)) ;;
    mret (negb (bool_decide (st = No)))
  end.

Definition phaseEstablish : M S () :=
  c ← get;
  assert_ (isSome (result_ c)) ;;
  tick ← query clock_now;
  modify (on_result (λ r, r_set_roundTime (timer_tick tick (roundTime r)) r)) ;;
  modify (λ c, on_result (r_set_proposers (Z.of_nat (size (currPeerPositions_ c)))) c) ;;
  c ← get;
  match result_ c with
  | None => mret ()
  | Some r =>
    modify (set_convergePercent (i32 ((dur_ (roundTime r) * 100)
      `quot` (prevRoundTime_ c `max` avMIN_CONSENSUS_TIME parms)))) ;;
    if dur_ (roundTime r) <? ledgerMIN_CONSENSUS parms then mret ()
    else
      updateOurPositions ;;
      reached ← haveConsensus;
      c ← get;
      if negb reached then mret ()
      else if negb (haveCloseTimeConsensus_ c) then mret ()
      else
        modify (λ c, set_prevProposers (Z.of_nat (size (currPeerPositions_ c))) c) ;;
        modify (λ c, set_prevRoundTime (default 0 ((λ r, dur_ (roundTime r)) <$> result_ c)) c) ;;
        modify (set_phase accepted) ;;
        c ← get;
        match result_ c with
        | None => mret ()
        | Some r => emit (OnAccept r (previousLedger_ c) (closeResolution_ c) (rawPeers_ c)
                            (rawSelf_ c) (mode_ c))
        end
  end.

(** *** Rounds *)

Definition startRoundInternal (timer : Z → M S ()) (now prevLedgerID : Z) (prevLedger : CxLedger)
    (mode : ConsensusMode) : M S () :=
  modify (set_phase open) ;;
  setMode mode ;;
  modify (set_now now) ;;
  modify (set_prevLedgerID prevLedgerID) ;;
  modify (set_previousLedger prevLedger) ;;
  modify (set_result None) ;;
  modify (set_convergePercent 0) ;;
  modify (set_haveCloseTimeConsensus false) ;;
  start ← query clock_now;
  modify (set_openTime (timer_reset start)) ;;
  modify (set_currPeerPositions ∅) ;;
  modify (set_acquired ∅) ;;
  modify (set_rawPeers ∅) ;;
  modify (set_rawSelf 0) ;;
  modify (set_deadNodes ∅) ;;
  modify (set_closeResolution (getNextLedgerTimeResolution (lg_closeTimeResolution prevLedger)
    (lg_closeAgree prevLedger) (u32 (lg_seq prevLedger + 1)))) ;;
  playbackProposals ;;
  c ← get;
  if prevProposers_ c `div` 2 <? Z.of_nat (size (currPeerPositions_ c)) then timer (now_ c)
  else mret ().

Definition handleWrongLedger (timer : Z → M S ()) (lgrId : Z) : M S () :=
  c ← get;
  assert_ (negb (lgrId =? prevLedgerID_ c) || negb (lg_id (previousLedger_ c) =? lgrId)) ;;
  leaveConsensus ;;
  c ← get;
  (if negb (prevLedgerID_ c =? lgrId) then
     modify (set_prevLedgerID lgrId) ;;
     modify (on_result (λ r, r_set_compares ∅ (r_set_disputes ∅ r))) ;;
     modify (set_currPeerPositions ∅) ;;
     modify (set_rawPeers ∅) ;;
     modify (set_deadNodes ∅) ;;
     playbackProposals
   else mret ()) ;;
  c ← get;
  if lg_id (previousLedger_ c) =? prevLedgerID_ c then mret ()
  else
    newLedger ← query (acquireLedger (prevLedgerID_ c));
    match newLedger with
    | Some newLedger => startRoundInternal timer (now_ c) lgrId newLedger switchedLedger
    | None => setMode wrongLedger
    end.

Definition checkLedger (timer : Z → M S ()) : M S () :=
  c ← get;
  netLgr ← query (getPrevLedger (prevLedgerID_ c) (previousLedger_ c) (mode_ c));
  if negb (netLgr =? prevLedgerID_ c) then handleWrongLedger timer netLgr
  else if negb (lg_id (previousLedger_ c) =? prevLedgerID_ c) then handleWrongLedger timer netLgr
  else mret ().

Fixpoint timerEntry (fuel : nat) (now : Z) : M S () :=
  match fuel with
  | O => out_of_fuel
  | Datatypes.S fuel =>
    c ← get;
    if decide (phase_ c = accepted) then mret ()
    else
      modify (set_now now) ;;
      checkLedger (timerEntry fuel) ;;
      c ← get;
      match phase_ c with
      | open => phaseOpen
      | establish => phaseEstablish
      | accepted => mret ()
      end
  end.

Definition startRound (fuel : nat) (now prevLedgerID : Z) (prevLedger : CxLedger)
    (nowUntrusted : gset Z) (isProposing : bool) : M S () :=
  c ← get;
  (if firstRound_ c then
     modify (set_prevRoundTime (ledgerIDLE_INTERVAL parms)) ;;
     modify (set_prevCloseTime (lg_closeTime prevLedger)) ;;
     modify (set_firstRound false)
   else modify (set_prevCloseTime (rawSelf_ c))) ;;
  modify (λ c, set_recentPeerPositions
    (filter (λ it, it.1 ∉ nowUntrusted) (recentPeerPositions_ c)) c) ;;
  let startMode := if isProposing then proposing else observing in
  if negb (lg_id prevLedger =? prevLedgerID) then
    newLedger ← query (acquireLedger prevLedgerID);
    match newLedger with
    | Some newLedger =>
      startRoundInternal (timerEntry fuel) now prevLedgerID newLedger startMode
    | None => startRoundInternal (timerEntry fuel) now prevLedgerID prevLedger wrongLedger
    end
  else startRoundInternal (timerEntry fuel) now prevLedgerID prevLedger startMode.

Definition simulate (now : Z) (consensusDelay : option Z) : M S () :=
  modify (set_now now) ;;
  closeLedger ;;
  modify (on_result (λ r, r_set_roundTime (timer_tick_fixed (default 100 consensusDelay) (roundTime r)) r)) ;;
  modify (λ c, set_prevProposers (Z.of_nat (size (currPeerPositions_ c))) c) ;;
  modify (λ c, on_result (r_set_proposers (prevProposers_ c)) c) ;;
  modify (λ c, set_prevRoundTime (default 0 ((λ r, dur_ (roundTime r)) <$> result_ c)) c) ;;
  modify (set_phase accepted) ;;
  c ← get;
  match result_ c with
  | None => mret ()
  | Some r => emit (OnForceAccept r (previousLedger_ c) (closeResolution_ c) (rawPeers_ c)
                      (rawSelf_ c) (mode_ c))
  end.
End Engine.
