(* ===== verification/ConsensusSafety.v ===== *)
(** * Consensus: invariants of a round

    Theorems on the state machine of [ConsensusEngine].  The computations are
    reasoned about with weakest preconditions on the members of the class: [wp m Q c]
    says that, run on the state [c] with any application and any trace, [m] fails no
    assertion and ends in a state that satisfies [Q] or runs out of fuel.  That [timerEntry] does not run
    out of fuel is a theorem of its own. *)

From stdpp Require Import base numbers list gmap strings sorting.
From Stdlib Require Import Lia ZArith.
From S2P Require Import Prelude Consensus ConsensusEngine.

Local Open Scope Z_scope.

(** ** Interfaces: laws *)

(** A transaction set is determined by its identifier, and comparing two sets
    lists their differences.  ([RCLTxSet::compare] lists at most 65536 of them.) *)
Class TxSetLaws (TxSet Tx : Type) `{!TxSetOps TxSet Tx} := {
  ts_id_inj : ∀ s s' : TxSet, ts_id s = ts_id s' → ∀ t, ts_exists s t = ts_exists s' t;
  ts_find_exists : ∀ (s : TxSet) t, ts_exists s t = true → ∃ tx, ts_find s t = Some tx ∧ tx_id tx = t;
  ts_find_missing : ∀ (s : TxSet) t, ts_exists s t = false → ts_find s t = None;
  ts_compare_spec : ∀ (s s' : TxSet) t b,
    (t, b) ∈ ts_compare s s' ↔ ts_exists s t ≠ ts_exists s' t ∧ b = ts_exists s t;
  ts_exists_insert : ∀ (s : TxSet) tx t,
    ts_exists (ts_insert s tx) t = bool_decide (t = tx_id tx) || ts_exists s t;
  ts_exists_erase : ∀ (s : TxSet) t' t,
    ts_exists (ts_erase s t') t = negb (bool_decide (t = t')) && ts_exists s t }.

(** The position taken on close is the transaction set that was closed. *)
Class AdaptorLaws (W TxSet Tx : Type) `{!TxSetOps TxSet Tx} `{!Adaptor W TxSet Tx} := {
  onClose_position : ∀ l now mode w txns pos w',
    onClose l now mode w = ((txns, pos), w') → position pos = ts_id txns }.

(** The application sticks to a ledger it named, once we work on it, and hands out
    the ledger it was asked for. *)
Class SteadyAdaptor (W TxSet Tx : Type) `{!Adaptor W TxSet Tx} := {
  acquireLedger_id : ∀ id w l w', acquireLedger id w = (Some l, w') → lg_id l = id;
  getPrevLedger_steady : ∀ id l m w l' m' w',
    let g := (getPrevLedger id l m w).1 in
    lg_id l' = g → (getPrevLedger g l' m' w').1 = g }.

(** ** Weakest preconditions *)

Section Wp.
Context {W TxSet Tx : Type} `{!TxSetOps TxSet Tx} `{!Adaptor W TxSet Tx} `{build : Build}.
#[local] Abbreviation C := (Cs TxSet Tx).
#[local] Abbreviation S := (St W TxSet Tx).

Definition wp {A} (m : M S A) (Q : A → C → Prop) (c : C) : Prop :=
  ∀ w t, match m (mkSt w c t) with Done (a, s) => Q a (cs s) | Asserted => False | OutOfFuel => True end.

Lemma engine_mono {A} (m : M S A) (Q Q' : A → C → Prop) c :
  (∀ a c', Q a c' → Q' a c') → wp m Q c → wp m Q' c.
Proof. intros H Hm w t. specialize (Hm w t). destruct (m _) as [[a s]| |]; auto. Qed.

#[export] Instance engine_proper {A} (m : M S A) :
  Proper (pointwise_relation A (pointwise_relation C iff) ==> eq ==> iff) (wp m).
Proof. intros Q Q' HQ c ? <-. split; apply engine_mono; intros a c' ?; by apply HQ. Qed.

Lemma engine_ret {A} (a : A) (Q : A → C → Prop) c : Q a c → wp (mret a) Q c.
Proof. intros H w t. exact H. Qed.

Lemma engine_bind {A B} (m : M S A) (k : A → M S B) Q c :
  wp m (λ a, wp (k a) Q) c → wp (m ≫= k) Q c.
Proof.
  intros H w t. specialize (H w t). unfold mbind, M_bind.
  destruct (m (mkSt w c t)) as [[a [w' c' t']]| |]; [apply H|done..].
Qed.

Lemma engine_get (Q : C → C → Prop) c : Q c c → wp get Q c.
Proof. intros H w t. exact H. Qed.

Lemma engine_modify f (Q : () → C → Prop) c : Q () (f c) → wp (modify f) Q c.
Proof. intros H w t. exact H. Qed.

Lemma engine_query_eq {A} (f : W → A * W) Q c :
  (∀ a w w', f w = (a, w') → Q a c) → wp (query f) Q c.
Proof. intros H w t. unfold query. simpl. destruct (f w) as [a w'] eqn:E. simpl. eauto. Qed.

Lemma engine_query {A} (f : W → A * W) (Q : A → C → Prop) c : (∀ a, Q a c) → wp (query f) Q c.
Proof. intros H. apply engine_query_eq. auto. Qed.

Lemma engine_emit e (Q : () → C → Prop) c : Q () c → wp (emit e) Q c.
Proof. intros H w t. exact H. Qed.

(** An assertion is to be shown, in a build that has it. *)
Lemma engine_assert b (Q : () → C → Prop) c :
  (asserts = true → b = true) → Q () c → wp (assert_ b) Q c.
Proof. intros Hb H w t. unfold assert_. destruct asserts; [by rewrite Hb|exact H]. Qed.

Lemma engine_out_of_fuel {A} (Q : A → C → Prop) c : wp out_of_fuel Q c.
Proof. intros w t. exact Logic.I. Qed.

(** A loop keeps an invariant on what is left to do. *)
Lemma engine_for_all {A} (body : A → M S ()) (I : list A → C → Prop) l c :
  (∀ a l c, I (a :: l) c → wp (body a) (λ _, I l) c) →
  I l c → wp (for_all l body) (λ _, I []) c.
Proof.
  intros Hb. revert c. induction l as [|a l IH]; intros c HI; [by apply engine_ret|].
  apply engine_bind. eapply engine_mono; [|by apply Hb]. intros ? c'. apply IH.
Qed.
End Wp.

(** Run the next primitive operations. *)
Ltac engine_step :=
  match goal with
  | |- wp (mbind _ _) _ _ => apply engine_bind
  | |- wp (mret _) _ _ => apply engine_ret
  | |- wp get _ _ => apply engine_get
  | |- wp (modify _) _ _ => apply engine_modify
  | |- wp (emit _) _ _ => apply engine_emit
  | |- wp (query _) _ _ => apply engine_query; intros ?
  end.
Ltac engine_run := repeat engine_step.

(** ** Totality *)

Section Total.
Context {W TxSet Tx : Type} `{!TxSetOps TxSet Tx} `{!Adaptor W TxSet Tx} `{build : Build}.
#[local] Abbreviation C := (Cs TxSet Tx).
#[local] Abbreviation S := (St W TxSet Tx).

(** The fuel is enough for the computation from [c], whatever the application. *)
Definition returns {A} (m : M S A) (c : C) : Prop := ∀ w t, m (mkSt w c t) ≠ OutOfFuel.

Lemma returns_bind {A B} (m : M S A) (k : A → M S B) c :
  returns m c → wp m (λ a, returns (k a)) c → returns (m ≫= k) c.
Proof.
  intros Hm Hk w t. specialize (Hm w t). specialize (Hk w t). unfold mbind, M_bind.
  destruct (m _) as [[a [w' c' t']]| |]; [apply Hk|done..].
Qed.

Lemma returns_ret {A} (a : A) c : returns (mret a) c.
Proof. by intros w t. Qed.

Lemma returns_bind_any {A B} (m : M S A) (k : A → M S B) c :
  returns m c → (∀ a c, returns (k a) c) → returns (m ≫= k) c.
Proof.
  intros Hm Hk w t. specialize (Hm w t). unfold mbind, M_bind.
  destruct (m _) as [[a [w' c' t']]| |]; [apply Hk|done..].
Qed.

Lemma returns_get c : returns get c.
Proof. by intros w t. Qed.

Lemma returns_modify f c : returns (modify f) c.
Proof. by intros w t. Qed.

Lemma returns_emit e c : returns (emit e) c.
Proof. by intros w t. Qed.

Lemma returns_query {A} (f : W → A * W) c : returns (query f) c.
Proof. intros w t. unfold query. simpl. by destruct (f w). Qed.

Lemma returns_assert b c : returns (assert_ b) c.
Proof. intros w t. unfold assert_. by destruct (_ && _). Qed.

Lemma returns_after_assert {A} b (m : M S A) c : returns m c → returns (assert_ b ;; m) c.
Proof. intros Hm w t. unfold mbind, M_bind, assert_. destruct (_ && _); [done|apply Hm]. Qed.

Lemma returns_for_all {A} (body : A → M S ()) l c :
  (∀ a c, returns (body a) c) → returns (for_all l body) c.
Proof.
  intros Hb. revert c. induction l as [|a l IH]; intros c; [apply returns_ret|].
  apply returns_bind_any; [apply Hb|intros ? c'; apply IH].
Qed.
End Total.

Create HintDb total.
#[export] Hint Resolve returns_ret returns_get returns_modify returns_emit returns_query returns_assert : total.

(** Everything but the timer returns. *)
Ltac total :=
  repeat first
    [ progress (auto with total)
    | apply returns_bind_any; [|intros ??]
    | apply returns_for_all; intros ??
    | match goal with |- returns (match ?x with _ => _ end) _ => destruct x end
    | progress cbv zeta ].

(** ** Invariants *)

Section Inv.
Context {W TxSet Tx : Type} `{!TxSetOps TxSet Tx} `{!Adaptor W TxSet Tx} `{!HashOrder} `{build : Build}.
Context `{!TxSetLaws TxSet Tx} `{!AdaptorLaws W TxSet Tx}.
#[local] Abbreviation Result := (ConsensusResult TxSet Tx).
#[local] Abbreviation C := (Cs TxSet Tx).
#[local] Abbreviation S := (St W TxSet Tx).
Context (standalone : Prop).
Implicit Types (c : C) (r : Result).

(** The current positions are by the peers they are filed under, on the ledger we
    work on, and none of them is by a peer that left. *)
Definition peers_ok c : Prop := ∀ k p, currPeerPositions_ c !! k = Some p →
  nodeID p = k ∧ prevLedger p = prevLedgerID_ c ∧ isBowOut p = false ∧ k ∉ deadNodes_ c.

Definition sets_ok c : Prop := ∀ id s, acquired_ c !! id = Some s → ts_id s = id.

(** A dispute is filed under its transaction, its counters count its votes, our
    vote is our set and only current peers vote. *)
Definition dispute_ok c r (t : Z) (d : DisputedTx Tx) : Prop :=
  tx_id (tx_ d) = t ∧ votes_ok d ∧ ourVote_ d = ts_exists (txns r) t ∧
  ∀ k, is_Some (votes_ d !! k) → is_Some (currPeerPositions_ c !! k).

(** Differences with a set we compared with are disputed, except those in [gap]. *)
Definition compared_ok (gap : Z → Z → Prop) r : Prop := ∀ s t,
  ts_id s ∈ compares r → ts_exists s t ≠ ts_exists (txns r) t → ¬ gap (ts_id s) t →
  is_Some (disputes r !! t).

(** A peer whose set we have, and who is not in [todo], has been compared with and
    votes on every dispute as its set says. *)
Definition voters_ok (todo : Z → Prop) c r : Prop := ∀ k p s,
  currPeerPositions_ c !! k = Some p → acquired_ c !! position p = Some s → ¬ todo k →
  position p ∈ compares r ∧
  ∀ t d, disputes r !! t = Some d → votes_ d !! k = Some (ts_exists s t).

Record result_ok (todo : Z → Prop) (gap : Z → Z → Prop) c r : Prop := {
  ok_position : position (pos r) = ts_id (txns r);
  ok_acquired : is_Some (acquired_ c !! ts_id (txns r));
  ok_disputes : ∀ t d, disputes r !! t = Some d → dispute_ok c r t d;
  ok_compared : compared_ok gap r;
  ok_voters : voters_ok todo c r }.

(** The same with the two halves of [voters_ok] apart: peers in [unseen] may not
    have been compared with, peers in [todo] may lack votes. *)
Record result_ok2 (unseen todo : Z → Prop) (gap : Z → Z → Prop) c r : Prop := {
  ok2_position : position (pos r) = ts_id (txns r);
  ok2_acquired : is_Some (acquired_ c !! ts_id (txns r));
  ok2_disputes : ∀ t d, disputes r !! t = Some d → dispute_ok c r t d;
  ok2_compared : compared_ok gap r;
  ok2_seen : ∀ k p s, currPeerPositions_ c !! k = Some p → acquired_ c !! position p = Some s →
    ¬ unseen k → position p ∈ compares r;
  ok2_voters : ∀ k p s t d, currPeerPositions_ c !! k = Some p → acquired_ c !! position p = Some s →
    ¬ todo k → disputes r !! t = Some d → votes_ d !! k = Some (ts_exists s t) }.

Lemma result_ok2_iff todo gap c r : result_ok2 todo todo gap c r ↔ result_ok todo gap c r.
Proof.
  split.
  - intros [? ? ? ? Hs Hv]. constructor; try done. intros k p s Hk Hp Ht. split; [by apply (Hs k p s)|].
    intros t d. by apply (Hv k p s).
  - intros [? ? ? ? Hv]. constructor; try done.
    + intros k p s Hk Hp Ht. by apply (Hv k p s).
    + intros k p s t d Hk Hp Ht. by apply (Hv k p s).
Qed.

Definition none : Z → Prop := λ _, False.
Definition no_gap : Z → Z → Prop := λ _ _, False.

Record inv c : Prop := {
  inv_peers : peers_ok c;
  inv_sets : sets_ok c;
  inv_result : ∀ r, result_ c = Some r → result_ok none no_gap c r }.

(** The part of the state that handling disputes does not touch. *)
Definition core c : C * option Result :=
  (set_result None c, (λ r, r_set_compares ∅ (r_set_disputes ∅ r)) <$> result_ c).

Lemma core_eq c c' : core c' = core c →
  phase_ c' = phase_ c ∧ mode_ c' = mode_ c ∧ now_ c' = now_ c ∧
  prevLedgerID_ c' = prevLedgerID_ c ∧ previousLedger_ c' = previousLedger_ c ∧
  acquired_ c' = acquired_ c ∧ currPeerPositions_ c' = currPeerPositions_ c ∧
  deadNodes_ c' = deadNodes_ c ∧ recentPeerPositions_ c' = recentPeerPositions_ c.
Proof. unfold core. intros Hc. apply (f_equal fst) in Hc. simpl in Hc. by simplify_eq. Qed.

Lemma core_result c c' r : core c' = core c → result_ c = Some r →
  ∃ r', result_ c' = Some r' ∧ txns r' = txns r ∧ pos r' = pos r ∧ state r' = state r.
Proof.
  unfold core. intros Hc Hr. apply (f_equal snd) in Hc. rewrite Hr in Hc. simpl in Hc.
  destruct (result_ c') as [r'|]; simpl in Hc; simplify_eq. eauto.
Qed.

(** *** Voting on a new dispute *)

Lemma hash_order_map {V} (m : gmap Z V) : list_to_map (hash_order m) = m.
Proof.
  rewrite <- (list_to_map_to_list m) at 2.
  apply list_to_map_proper; [apply hash_order_NoDup|apply hash_order_perm].
Qed.

Lemma poll_votes c t d k :
  votes_ (poll c t d) !! k =
    match currPeerPositions_ c !! k with
    | Some p => match acquired_ c !! position p with
                | Some s => Some (ts_exists s t)
                | None => votes_ d !! k
                end
    | None => votes_ d !! k
    end.
Proof.
  unfold poll. rewrite <- (hash_order_map (currPeerPositions_ c)) at 2.
  generalize (hash_order_NoDup (currPeerPositions_ c)).
  generalize (hash_order (currPeerPositions_ c)). intros l. revert d.
  induction l as [|[k' p'] l IH]; intros d Hnd; simpl; [by rewrite lookup_empty|].
  apply NoDup_cons in Hnd as [Hk' Hnd]. rewrite IH by done.
  destruct (decide (k = k')) as [->|Hne].
  - rewrite lookup_insert_eq, not_elem_of_list_to_map_1 by done.
    destruct (acquired_ c !! position p') as [s|]; [|done].
    by rewrite setVote_votes, lookup_insert_eq.
  - rewrite lookup_insert_ne by done.
    assert (Hv : votes_ match acquired_ c !! position p' with
      | Some s => setVote k' (ts_exists s t) d | None => d end !! k = votes_ d !! k).
    { destruct (acquired_ c !! position p'); [|done]. by rewrite setVote_votes, lookup_insert_ne. }
    by rewrite Hv.
Qed.

Lemma poll_rest c t d :
  votes_ok d → votes_ok (poll c t d) ∧ ourVote_ (poll c t d) = ourVote_ d ∧ tx_ (poll c t d) = tx_ d.
Proof.
  unfold poll. generalize (hash_order (currPeerPositions_ c)). intros l. revert d.
  induction l as [|[k p] l IH]; intros d Hok; simpl; [done|].
  destruct (acquired_ c !! position p) as [s|]; [|by apply IH].
  destruct (setVote_rest k (ts_exists s t) d) as [<- <-]. by apply IH, setVote_ok.
Qed.

(** *** Handling disputes *)

(** Differences with [o] that are still to be looked at. *)
Definition left_of (o : TxSet) (l : list (Z * bool)) (id t : Z) : Prop :=
  id = ts_id o ∧ t ∈ l.*1.

(** A difference is found in the set that has it and not in the other one. *)
Lemma difference_found (s o : TxSet) t :
  ts_exists s t ≠ ts_exists o t →
  (ts_exists s t && isSome (ts_find s t) && negb (isSome (ts_find o t)))
  || (negb (ts_exists s t) && negb (isSome (ts_find s t)) && isSome (ts_find o t)) = true.
Proof.
  intros Hne. destruct (ts_exists s t) eqn:Es, (ts_exists o t) eqn:Eo; try done.
  - destruct (ts_find_exists s t Es) as (tx & -> & _). by rewrite (ts_find_missing o t Eo).
  - destruct (ts_find_exists o t Eo) as (tx & -> & _). by rewrite (ts_find_missing s t Es).
Qed.

Lemma createDispute_ok unseen todo c r o id b l :
  result_ c = Some r → result_ok2 unseen todo (left_of o ((id, b) :: l)) c r →
  (id, b) ∈ ts_compare (txns r) o →
  wp (createDispute o (id, b)) (λ _ c', core c' = core c ∧
    ∃ r', result_ c' = Some r' ∧ result_ok2 unseen todo (left_of o l) c' r' ∧ compares r' = compares r) c.
Proof.
  intros Hr Hok [Hdiff Hb]%ts_compare_spec. unfold createDispute. engine_run. rewrite Hr. simpl.
  apply engine_bind, engine_assert; [intros _; subst b; by apply difference_found|].
  assert (Htx : ∃ tx, (if b then ts_find (txns r) id else ts_find o id) = Some tx ∧ tx_id tx = id).
  { subst b. destruct (ts_exists (txns r) id) eqn:E; apply ts_find_exists; [done|].
    by destruct (ts_exists o id). }
  destruct Htx as (tx & -> & <-).
  assert (Hgap : ∀ d, disputes r !! tx_id tx = Some d → compared_ok (left_of o l) r).
  { intros d Hd s t Hs Hne Hg. destruct (decide (t = tx_id tx)) as [->|]; [by rewrite Hd|].
    apply (ok2_compared _ _ _ _ _ Hok s); [done..|]. intros [? Ht]. simpl in Ht.
    apply Hg. split; [done|]. by apply elem_of_cons in Ht as [?|?]. }
  destruct (disputes r !! tx_id tx) as [d|] eqn:Hd.
  { engine_run. split; [done|]. exists r. split; [done|]. split; [|done]. destruct Hok; constructor; eauto. }
  engine_run. unfold on_result. rewrite Hr. simpl. split; [by unfold core; simpl; rewrite Hr|].
  eexists. split; [done|]. split; [|done].
  set (d := poll _ _ _).
  destruct (poll_rest c (tx_id tx) (newDispute tx (ts_exists (txns r) (tx_id tx)))) as (Hv & Ho & Ht);
    [done|]. fold d in Hv, Ho, Ht. simpl in Ho, Ht.
  constructor; simpl; [apply Hok..| | | |].
  - intros t d'. destruct (decide (t = tx_id tx)) as [->|Hne].
    + rewrite lookup_insert_eq. intros [= <-]. split_and!; [by rewrite Ht|done..|].
      intros k. unfold d. rewrite poll_votes. simpl.
      destruct (currPeerPositions_ c !! k); [eauto|]. rewrite lookup_empty. by intros [??].
    + rewrite lookup_insert_ne by done. apply (ok2_disputes _ _ _ _ _ Hok).
  - intros s t Hs Hne Hg. simpl in *. destruct (decide (t = tx_id tx)) as [->|Ht'].
    + rewrite lookup_insert_eq. eauto.
    + rewrite lookup_insert_ne by done. apply (ok2_compared _ _ _ _ _ Hok s); [done..|].
      intros [? Hin]. apply Hg. split; [done|]. by apply elem_of_cons in Hin as [?|?].
  - apply (ok2_seen _ _ _ _ _ Hok).
  - intros k p s t d' Hk Hs Htodo. destruct (decide (t = tx_id tx)) as [->|Hne].
    + rewrite lookup_insert_eq. intros [= <-]. unfold d. rewrite poll_votes. by rewrite Hk, Hs.
    + rewrite lookup_insert_ne by done. by apply (ok2_voters _ _ _ _ _ Hok k p s).
Qed.

Lemma createDisputes_ok unseen todo c r o :
  result_ c = Some r → result_ok2 unseen todo no_gap c r →
  wp (createDisputes o) (λ _ c', core c' = core c ∧
    ∃ r', result_ c' = Some r' ∧ result_ok2 unseen todo no_gap c' r' ∧ ts_id o ∈ compares r') c.
Proof.
  intros Hr Hok. unfold createDisputes. engine_run. rewrite Hr. apply engine_assert; [done|].
  case_bool_decide as Hin; engine_run; [split; [done|]; eauto|].
  set (c1 := on_result _ c). set (r1 := r_set_compares ({[ts_id o]} ∪ compares r) r).
  assert (Hr1 : result_ c1 = Some r1) by (unfold c1, on_result; by rewrite Hr).
  assert (Hc1 : core c1 = core c) by (unfold core, c1, on_result; simpl; by rewrite Hr).
  assert (Hok1 : result_ok2 unseen todo (left_of o (ts_compare (txns r) o)) c1 r1).
  { destruct Hok as [? ? Hd Hc Hseen Hv]. constructor; simpl; try done.
    - intros s t Hs Hne Hg. simpl in *. apply elem_of_union in Hs as [Hs%elem_of_singleton|Hs].
      + destruct Hg. split; [done|]. apply list_elem_of_fmap. exists (t, ts_exists (txns r) t).
        split; [done|]. apply ts_compare_spec. by rewrite <- (ts_id_inj s o Hs t).
      + apply (Hc s); [done..|by intros []].
    - intros k p s Hk Hs Ht. apply elem_of_union_r. by apply (Hseen k p s). }
  assert (Hino : ts_id o ∈ compares r1) by (apply elem_of_union_l, elem_of_singleton_2; done).
  destruct (Z.eqb_spec (ts_id (txns r)) (ts_id o)) as [Heq|_]; engine_run.
  - split; [done|]. exists r1. split_and!; try done.
    destruct Hok1 as [? ? ? Hc ? ?]. constructor; try done.
    intros s t Hs Hne _. apply (Hc s t Hs Hne). intros [Hso Hin']. simpl in Hne.
    destruct Hne. apply ts_id_inj. congruence.
  - eapply engine_mono; [|apply (engine_for_all _ (λ l c', core c' = core c ∧ ∃ r', result_ c' = Some r' ∧
      result_ok2 unseen todo (left_of o l) c' r' ∧ ts_id o ∈ compares r' ∧
      Forall (λ x, x ∈ ts_compare (txns r) o) l))].
    + intros _ c' (Hc' & r' & Hr' & Hok' & Hin' & _). split; [done|]. exists r'. split_and!; try done.
      destruct Hok' as [? ? ? Hc ? ?]. constructor; try done.
      intros s t Hs Hne _. apply (Hc s t Hs Hne). intros [_ []%elem_of_nil].
    + intros [id b] l c' (Hc' & r' & Hr' & Hok' & Hin' & [Hb Hl]%Forall_cons).
      destruct (core_result c c' r Hc' Hr) as (r2 & Hr2 & Htx & _). rewrite Hr' in Hr2. injection Hr2 as <-.
      eapply engine_mono; [|eapply (createDispute_ok unseen todo c' r' o id b l)]; [|done..|by rewrite Htx].
      intros _ c'' (Hc'' & r'' & Hr'' & Hok'' & Hcmp). split; [congruence|]. exists r''.
      rewrite Hcmp. done.
    + split; [done|]. exists r1. split_and!; try done. by apply Forall_forall.
Qed.

Lemma updateDisputes_ok todo c r node p other :
  result_ c = Some r → result_ok todo no_gap c r → ts_id other = position p →
  currPeerPositions_ c !! node = Some p → acquired_ c !! position p = Some other →
  wp (updateDisputes node other) (λ _ c', core c' = core c ∧
    ∃ r', result_ c' = Some r' ∧ result_ok (λ k, todo k ∧ k ≠ node) no_gap c' r') c.
Proof.
  intros Hr Hok Hid Hp Hs. unfold updateDisputes. engine_run. rewrite Hr. apply engine_assert; [done|]. engine_run.
  apply (engine_mono _ (λ _ c', core c' = core c ∧
    ∃ r', result_ c' = Some r' ∧ result_ok todo no_gap c' r' ∧ ts_id other ∈ compares r')).
  2:{ case_bool_decide; [engine_run; split; [done|]; eauto|].
      setoid_rewrite <- result_ok2_iff. apply (createDisputes_ok _ _ _ r); [done|].
      by apply result_ok2_iff. }
  intros _ c' (Hc & r' & Hr' & Hok' & Hin). engine_run. unfold on_result. rewrite Hr'. simpl.
  split; [rewrite <- Hc; unfold core; simpl; by rewrite Hr'|]. eexists. split; [done|].
  destruct (core_eq _ _ Hc) as (_ & _ & _ & _ & _ & Hacq & Hcurr & _).
  destruct Hok' as [? ? Hd Hcmp Hv]. constructor; simpl; try done.
  - intros t d. rewrite lookup_fmap. intros (d' & Hd' & ->)%fmap_Some.
    destruct (Hd t d' Hd') as (Ht & Hvok & Ho & Hk).
    destruct (setVote_rest node (ts_exists other (tx_id (tx_ d'))) d') as [Ho' Ht'].
    split_and!; [congruence|by apply setVote_ok|simpl; congruence|].
    intros k. rewrite setVote_votes. simpl. destruct (decide (k = node)) as [->|Hne].
    + rewrite Hcurr, Hp. eauto.
    + rewrite lookup_insert_ne by done. apply Hk.
  - intros s t Hs' Hne Hg. simpl in *. rewrite lookup_fmap. apply fmap_is_Some. by apply (Hcmp s).
  - intros k q s Hq Hsq Htodo. simpl in *. destruct (decide (k = node)) as [->|Hne].
    + assert (q = p) as -> by congruence. assert (s = other) as -> by congruence.
      split; [by rewrite <- Hid|]. intros t d. rewrite lookup_fmap.
      intros (d' & Hd' & ->)%fmap_Some. destruct (Hd t d' Hd') as (<- & _).
      by rewrite setVote_votes, lookup_insert_eq.
    + destruct (Hv k q s Hq Hsq) as [Hin' Hall]; [tauto|]. split; [done|].
      intros t d. rewrite lookup_fmap. intros (d' & Hd' & ->)%fmap_Some.
      rewrite setVote_votes, lookup_insert_ne by done. by apply Hall.
Qed.

Lemma result_ok_todo (todo todo' : Z → Prop) c r :
  (∀ k, todo k → todo' k) → result_ok todo no_gap c r → result_ok todo' no_gap c r.
Proof.
  intros Hsub [? ? ? ? Hv]. constructor; try done.
  intros k p s Hk Hs Ht. apply (Hv k p s); auto.
Qed.

(** The peers at a position vote as the set of that position says. *)
Lemma update_peers_ok c r id s :
  result_ c = Some r → acquired_ c !! id = Some s → ts_id s = id →
  result_ok (λ k, ∃ p, currPeerPositions_ c !! k = Some p ∧ position p = id) no_gap c r →
  wp (for_all (hash_order (currPeerPositions_ c))
        (λ it, if position it.2 =? id then updateDisputes it.1 s else mret ()))
    (λ _ c', core c' = core c ∧ ∃ r', result_ c' = Some r' ∧ result_ok none no_gap c' r') c.
Proof.
  intros Hr Hs Hid Hok.
  eapply engine_mono; [|apply (engine_for_all _ (λ l c', core c' = core c ∧
    Forall (λ it, currPeerPositions_ c !! it.1 = Some it.2) l ∧ ∃ r', result_ c' = Some r' ∧
    result_ok (λ k, ∃ p, (k, p) ∈ l ∧ position p = id) no_gap c' r'))].
  - intros _ c' (Hc & _ & r' & Hr' & Hok'). split; [done|]. exists r'. split; [done|].
    eapply result_ok_todo; [|done]. by intros k (p & []%elem_of_nil & _).
  - intros [k p] l c' (Hc & [Hk Hl]%Forall_cons & r' & Hr' & Hok'). simpl in *.
    destruct (core_eq _ _ Hc) as (_ & _ & _ & _ & _ & Hacq & Hcurr & _).
    destruct (Z.eqb_spec (position p) id) as [Hpos|Hpos].
    + eapply engine_mono; [|eapply (updateDisputes_ok _ c' r' k p s)]; [|done|done| |by rewrite Hcurr|].
      2,3: congruence.
      intros _ c'' (Hc'' & r'' & Hr'' & Hok''). split; [congruence|]. split; [done|].
      exists r''. split; [done|]. eapply result_ok_todo; [|done].
      intros k' [(p' & Hin & Hp') Hne]. exists p'. split; [|done].
      apply elem_of_cons in Hin as [[= -> ->]|?]; done.
    + engine_run. split_and!; try done. exists r'. split; [done|]. eapply result_ok_todo; [|done].
      intros k' (p' & Hin & Hp'). exists p'. split; [|done].
      apply elem_of_cons in Hin as [[= -> ->]|?]; done.
  - split_and!; [done| |].
    + apply Forall_forall. intros [k p] Hin. by apply elem_of_hash_order.
    + exists r. split; [done|]. eapply result_ok_todo; [|done].
      intros k (p & Hk & Hp). exists p. split; [by apply elem_of_hash_order|done].
Qed.

(** What handling a proposal or a transaction set does not change. *)
Definition shape c :=
  (phase_ c, mode_ c, (prevLedgerID_ c, previousLedger_ c, recentPeerPositions_ c),
   (λ r, (txns r, pos r, roundTime r)) <$> result_ c).

Lemma core_shape c c' : core c' = core c → shape c' = shape c.
Proof.
  intros Hc. destruct (core_eq _ _ Hc) as (Hp & Hm & _ & Hi & Hl & _ & _ & _ & Hrec).
  unfold shape. rewrite Hp, Hm, Hi, Hl, Hrec. f_equal.
  apply (f_equal snd) in Hc. unfold core in Hc. simpl in Hc.
  destruct (result_ c') as [[]|], (result_ c) as [[]|]; simpl in *; by simplify_eq.
Qed.

(** The invariant reads five members. *)
Definition parts c := (currPeerPositions_ c, acquired_ c, result_ c, prevLedgerID_ c, deadNodes_ c).

Lemma result_ok_same todo gap c c' r :
  currPeerPositions_ c' = currPeerPositions_ c → acquired_ c' = acquired_ c →
  result_ok todo gap c r → result_ok todo gap c' r.
Proof.
  intros Hcur Ha [? ? Hdis ? Hv].
  constructor; [done|by rewrite Ha|unfold dispute_ok; by rewrite Hcur|done|].
  unfold voters_ok. by rewrite Hcur, Ha.
Qed.

Lemma inv_same c c' : parts c' = parts c → inv c → inv c'.
Proof.
  unfold parts. intros [= Hcur Ha Hr Hi Hd] [Hp Hs Hres]. constructor.
  - unfold peers_ok. by rewrite Hi, Hcur, Hd.
  - unfold sets_ok. by rewrite Ha.
  - rewrite Hr. intros r Hr'. apply (result_ok_same _ _ c); [done..|by apply Hres].
Qed.

Lemma inv_core c c' :
  core c' = core c → peers_ok c → sets_ok c →
  (∀ r', result_ c' = Some r' → result_ok none no_gap c' r') → inv c'.
Proof.
  intros Hc Hp Hs Hr. destruct (core_eq _ _ Hc) as (_ & _ & _ & Hi & _ & Ha & Hcur & Hd & _).
  constructor; [|unfold sets_ok; by rewrite Ha|done].
  unfold peers_ok. by rewrite Hi, Hcur, Hd.
Qed.

Lemma gotTxSet_ok now s c :
  inv c → wp (gotTxSet now s) (λ _ c', inv c' ∧ shape c' = shape c) c.
Proof.
  intros Hi. unfold gotTxSet. engine_run. case_decide; engine_run; [done|].
  assert (Hnow : inv (set_now now c)) by (by apply (inv_same c)).
  destruct (acquired_ c !! ts_id s) as [s'|] eqn:Hnew; engine_run; [done|].
  set (c1 := set_acquired _ _).
  destruct Hi as [Hp Hs Hres].
  assert (Hs1 : sets_ok c1).
  { intros id s'. simpl. destruct (decide (id = ts_id s)) as [->|]; [|rewrite lookup_insert_ne by done; apply Hs].
    rewrite lookup_insert_eq. by intros [= <-]. }
  destruct (result_ c) as [r|] eqn:Hr; engine_run; [|by split; [constructor; simpl; try congruence|]].
  specialize (Hres r eq_refl). apply engine_assert.
  { intros _. apply negb_true_iff, Z.eqb_neq. intros Heq. destruct (ok_acquired _ _ _ _ Hres) as [x Hx].
    rewrite <- (ok_position _ _ _ _ Hres), <- Heq in Hx. congruence. }
  eapply engine_mono; [|apply (update_peers_ok c1 r (ts_id s) s)]; [|done|by apply lookup_insert_eq|done|].
  - intros _ c' (Hc & r' & Hr' & Hok'). split; [|by apply core_shape in Hc].
    apply (inv_core c1 c' Hc Hp Hs1). rewrite Hr'. by intros ? [= <-].
  - destruct Hres as [? Hacq Hd Hcmp Hv]. constructor; simpl; try done.
    + destruct (decide (ts_id (txns r) = ts_id s)) as [->|]; [rewrite lookup_insert_eq; eauto|].
      by rewrite lookup_insert_ne.
    + intros k p s' Hk Hs' Ht. simpl in *. rewrite lookup_insert_ne in Hs' by (intros Heq; apply Ht; by exists p).
      apply (Hv k p s'); [done..|by intros []].
Qed.

(** A peer is forgotten together with its votes. *)
Definition drop_peer (k : Z) c : C :=
  set_currPeerPositions (delete k (currPeerPositions_ (unVoteAll k c))) (unVoteAll k c).

Lemma drop_peer_ok k c : inv c → inv (drop_peer k c).
Proof.
  intros [Hp Hs Hres]. constructor.
  - intros k' p. simpl. intros [_ Hk']%lookup_delete_Some. by apply Hp.
  - apply Hs.
  - intros r'. simpl. intros (r & Hr & ->)%fmap_Some. destruct (Hres r Hr) as [? ? Hd Hcmp Hv].
    constructor; simpl; try done.
    + intros t d. rewrite lookup_fmap. intros (d' & Hd' & ->)%fmap_Some.
      destruct (Hd t d' Hd') as (Ht & Hok & Ho & Hk). destruct (unVote_rest k d') as [Ho' Ht'].
      split_and!; [congruence|by apply unVote_ok|simpl; congruence|].
      intros k' [v Hv']. rewrite unVote_votes in Hv'. apply lookup_delete_Some in Hv' as [Hne Hv'].
      simpl. rewrite lookup_delete_ne by done. eauto.
    + intros s t Hs' Hne Hg. simpl in *. rewrite lookup_fmap. apply fmap_is_Some. by apply (Hcmp s).
    + intros k' p s Hk' Hs' Ht. simpl in *. apply lookup_delete_Some in Hk' as [Hne Hk'].
      destruct (Hv k' p s Hk' Hs' Ht) as [Hin Hall]. split; [done|]. intros t d. rewrite lookup_fmap.
      intros (d' & Hd' & ->)%fmap_Some. rewrite unVote_votes, lookup_delete_ne by done. by apply Hall.
Qed.

Lemma drop_peer_shape k c : shape (drop_peer k c) = shape c.
Proof. unfold shape. simpl. f_equal. by destruct (result_ c). Qed.

(** A new position is filed: everything holds but that peer's votes. *)
Lemma add_peer_ok p c :
  inv c → prevLedger p = prevLedgerID_ c → nodeID p ∉ deadNodes_ c → isBowOut p = false →
  let c' := set_currPeerPositions (<[nodeID p := p]> (currPeerPositions_ c)) c in
  peers_ok c' ∧ sets_ok c' ∧
  ∀ r, result_ c = Some r → result_ok (λ k, k = nodeID p) no_gap c' r.
Proof.
  intros [Hp Hs Hres] Hl Hd Hb c'. split_and!; [|done|].
  - intros k q. simpl. destruct (decide (k = nodeID p)) as [->|Hne].
    + rewrite lookup_insert_eq. by intros [= <-].
    + rewrite lookup_insert_ne by done. apply Hp.
  - intros r Hr. destruct (Hres r Hr) as [? ? Hdis ? Hv]. constructor; try done.
    + intros t d Hd'. destruct (Hdis t d Hd') as (? & ? & ? & Hk). split_and!; try done.
      intros k Hk'. simpl. destruct (decide (k = nodeID p)) as [->|Hne];
        [rewrite lookup_insert_eq; eauto|rewrite lookup_insert_ne by done; by apply Hk].
    + intros k q s Hk Hs' Hne. simpl in *. rewrite lookup_insert_ne in Hk by done.
      apply (Hv k q s); [done..|by intros []].
Qed.

Lemma peerProposalInternal_ok now p c :
  inv c → wp (peerProposalInternal now p) (λ _ c', inv c' ∧ shape c' = shape c) c.
Proof.
  intros Hi. unfold peerProposalInternal. engine_run. case_decide; engine_run; [done|].
  assert (Hnow : inv (set_now now c)) by (by apply (inv_same c)).
  destruct (Z.eqb_spec (prevLedger p) (prevLedgerID_ c)) as [Hl|]; simpl; [|by engine_run].
  case_bool_decide as Hd; [by engine_run|].
  destruct (match currPeerPositions_ c !! nodeID p with Some _ => _ | None => _ end); [by engine_run|].
  destruct (isBowOut p) eqn:Hb; engine_run.
  { pose proof (drop_peer_ok (nodeID p) _ Hnow) as [Hp Hs Hres]. split; [|apply (drop_peer_shape (nodeID p) (set_now now c))].
    constructor; [|exact Hs|]; [|intros r Hr; by destruct (Hres r Hr); constructor].
    intros k q Hk. destruct (Hp k q Hk) as (? & ? & ? & Hk'). split_and!; try done. simpl in *.
    apply lookup_delete_Some in Hk as [Hne _]. rewrite elem_of_union, elem_of_singleton. intuition. }
  destruct (add_peer_ok p (set_now now c) Hnow Hl Hd Hb) as (Hp & Hs & Hres).
  set (c1 := set_currPeerPositions _ _) in *.
  apply (engine_mono _ (λ _ c', parts c' = parts c1 ∧ shape c' = shape c1)).
  2:{ destruct (isInitial p); by engine_run. }
  intros _ c2 [Hparts Hshape]. unfold parts in Hparts. injection Hparts as Hcur Ha Hr Hid Hdd.
  assert (Hp2 : peers_ok c2) by (unfold peers_ok; by rewrite Hcur, Hid, Hdd).
  assert (Hs2 : sets_ok c2) by (unfold sets_ok; by rewrite Ha).
  assert (Hres2 : ∀ r, result_ c = Some r → result_ok (λ k, k = nodeID p) no_gap c2 r)
    by (intros r Hr'; by apply (result_ok_same _ _ c1), Hres).
  simpl in Hcur, Ha, Hr.
  destruct (acquired_ c !! position p) as [set|] eqn:Hset; engine_run.
  - destruct (result_ c) as [r|] eqn:Hr0; engine_run;
      [|split; [constructor; [done..|by rewrite Hr, ?Hr0]|done]].
    eapply engine_mono; [|eapply (updateDisputes_ok (λ k, k = nodeID p) c2 r _ p)];
      [|done|by apply Hres2|by apply Hs|by rewrite Hcur, lookup_insert_eq|by rewrite Ha].
    intros _ c' (Hc & r' & Hr' & Hok'). engine_run. split; [|by rewrite (core_shape _ _ Hc)].
    apply (inv_core c2 c' Hc Hp2 Hs2). rewrite Hr'. intros ? [= <-].
    eapply result_ok_todo; [|done]. by intros k [-> ?].
  - assert (inv c2).
    { constructor; [done..|]. rewrite Hr. intros r Hr'. destruct (Hres2 r Hr') as [? ? ? ? Hv].
      constructor; try done. intros k q s Hk Hs' _.
      apply (Hv k q s); [done..|]. intros ->. rewrite Hcur, lookup_insert_eq in Hk.
      injection Hk as <-. congruence. }
    rename a into found. destruct found as [set|]; engine_run; [|done].
    eapply engine_mono; [|by apply gotTxSet_ok]. intros _ c' [Hi' Hs']. engine_run. split; [done|exact (eq_trans Hs' Hshape)].
Qed.

Lemma playbackProposals_ok c : inv c → wp playbackProposals (λ _ c', inv c' ∧ shape c' = shape c) c.
Proof.
  intros Hi. unfold playbackProposals. engine_run.
  apply (engine_for_all _ (λ _ c', inv c' ∧ shape c' = shape c)); [|done].
  intros [k ps] _ c1 H1. apply (engine_for_all _ (λ _ c', inv c' ∧ shape c' = shape c)); [|done].
  intros p _ c2 [Hi2 Hs2]. engine_run. destruct (prevLedger p =? prevLedgerID_ c2); engine_run; [|done].
  eapply engine_mono; [|by apply peerProposalInternal_ok]. intros [] c3 [Hi3 Hs3]; engine_run; split; congruence.
Qed.

(** *** Closing the ledger *)

(** Disputes are created with the set of every peer in turn. *)
Lemma dispute_peers_ok c r :
  peers_ok c → sets_ok c → result_ c = Some r → disputes r = ∅ → compares r = ∅ →
  position (pos r) = ts_id (txns r) → is_Some (acquired_ c !! ts_id (txns r)) →
  wp (for_all (hash_order (currPeerPositions_ c)) (λ pit,
        c ← get;
        match acquired_ c !! position pit.2 with
        | Some s => createDisputes s
        | None => mret ()
        end))
    (λ _ c', core c' = core c ∧ inv c') c.
Proof.
  intros Hp Hs Hr Hd Hc Hpos Hacq.
  eapply engine_mono; [|apply (engine_for_all _ (λ l c', core c' = core c ∧
    Forall (λ it, currPeerPositions_ c !! it.1 = Some it.2) l ∧ ∃ r', result_ c' = Some r' ∧
    result_ok2 (λ k, ∃ p, (k, p) ∈ l) none no_gap c' r'))].
  - intros _ c' (Hcore & _ & r' & Hr' & [? ? ? ? Hseen ?]). split; [done|].
    apply (inv_core c c' Hcore Hp Hs). rewrite Hr'. intros ? [= <-]. apply result_ok2_iff.
    constructor; try done. intros k p s Hk Hs' _. apply (Hseen k p s Hk Hs').
    by intros [? []%elem_of_nil].
  - intros [k p] l c' (Hcore & [Hk Hl]%Forall_cons & r' & Hr' & Hok'). simpl in *. engine_run.
    destruct (core_eq _ _ Hcore) as (_ & _ & _ & _ & _ & Ha & Hcur & _).
    assert (Hshrink : ∀ c'' r'', core c'' = core c' →
      (is_Some (acquired_ c !! position p) → position p ∈ compares r'') →
      result_ok2 (λ k', ∃ p', (k', p') ∈ (k, p) :: l) none no_gap c'' r'' →
      result_ok2 (λ k', ∃ p', (k', p') ∈ l) none no_gap c'' r'').
    { intros c'' r'' Hcore' Hin [? ? ? ? Hseen ?]. constructor; try done.
      destruct (core_eq _ _ Hcore') as (_ & _ & _ & _ & _ & Ha' & Hcur' & _).
      intros k' p' s' Hk' Hs' Hnot. destruct (decide (k' = k)) as [->|Hne].
      - assert (p' = p) as -> by congruence. apply Hin. rewrite <- Ha, <- Ha'. eauto.
      - apply (Hseen k' p' s' Hk' Hs'). intros [q Hq]. apply Hnot. exists q.
        apply elem_of_cons in Hq as [[= -> ->]|?]; done. }
    destruct (acquired_ c' !! position p) as [s|] eqn:Hs'; engine_run.
    + eapply engine_mono; [|by apply (createDisputes_ok _ _ c' r' s Hr' Hok')].
      intros _ c'' (Hcore'' & r'' & Hr'' & Hok'' & Hin). split; [congruence|]. split; [done|].
      exists r''. split; [done|]. apply Hshrink; [done| |done]. intros _.
      rewrite Ha in Hs'. by rewrite <- (Hs _ _ Hs').
    + split_and!; [done..|]. exists r'. split; [done|]. apply Hshrink; [done| |done].
      rewrite <- Ha, Hs'. by intros [??].
  - split_and!; [done| |].
    + apply Forall_forall. intros [k p] Hin. by apply elem_of_hash_order.
    + exists r. split; [done|]. constructor; try done.
      * intros t d. by rewrite Hd.
      * intros s t. by rewrite Hc.
      * intros k p s Hk _ Hnot. destruct Hnot. exists p. by apply elem_of_hash_order.
      * intros k p s t d _ _ _. by rewrite Hd.
Qed.

(** The ledgers a state works on. *)
Definition ledgers c := (prevLedgerID_ c, previousLedger_ c).

Lemma closeLedger_ok c :
  peers_ok c → sets_ok c → (asserts = true → result_ c = None) →
  wp closeLedger (λ _ c', inv c' ∧ phase_ c' = establish ∧ is_Some (result_ c') ∧ ledgers c' = ledgers c ∧
    ∀ r, result_ c' = Some r → state r = No) c.
Proof.
  intros Hp Hs Hn. unfold closeLedger. engine_run. apply engine_assert; [intros Ha; by rewrite (Hn Ha)|]. do 7 engine_step.
  apply engine_query_eq. intros [tx p] w w' Hclose. apply onClose_position in Hclose. engine_step.
  apply engine_assert; [intros _; simpl; by rewrite Hclose, Z.eqb_refl|]. engine_run. simpl.
  set (r := mkResult tx p _ _ _ _ _). set (c1 := set_result (Some r) _).
  apply (engine_mono _ (λ _ c', phase_ c' = establish ∧ ledgers c' = ledgers c ∧ mode_ c' = mode_ c ∧
    currPeerPositions_ c' = currPeerPositions_ c ∧ peers_ok c' ∧ sets_ok c' ∧ result_ c' = Some r ∧
    is_Some (acquired_ c' !! ts_id tx))).
  2:{ destruct (acquired_ c !! ts_id tx) eqn:E; engine_run; split_and!; try done.
      - intros id s. simpl. destruct (decide (id = ts_id tx)) as [->|].
        + rewrite lookup_insert_eq. by intros [= <-].
        + rewrite lookup_insert_ne by done. apply Hs.
      - simpl. rewrite lookup_insert_eq. eauto. }
  intros _ c2 (Hph & Hl & Hm & Hcur & Hp2 & Hs2 & Hr & Hacq). engine_run.
  apply (engine_mono _ (λ _ c', c' = c2)); [intros _ ? ->|case_decide; by engine_run].
  rewrite <- Hcur. eapply engine_mono; [|by apply (dispute_peers_ok c2 r)].
  intros _ c' [Hcore Hi].
  destruct (core_result _ _ r Hcore Hr) as (r' & Hr' & _ & _ & Hst).
  destruct (core_eq _ _ Hcore) as (Hph' & _ & _ & Hi' & Hl' & _).
  split_and!; [done|congruence|by rewrite Hr'|unfold ledgers in *; congruence|].
  rewrite Hr'. by intros ? [= <-].
Qed.

Lemma leaveConsensus_ok c :
  inv c → wp leaveConsensus (λ _ c', inv c' ∧ phase_ c' = phase_ c ∧
    (is_Some (result_ c') ↔ is_Some (result_ c)) ∧ ledgers c' = ledgers c) c.
Proof.
  intros Hi. unfold leaveConsensus. engine_run. case_decide; engine_run; [|done].
  assert (Hmode : ∀ m c', inv c' → inv (set_mode m c')) by (intros m c'; by apply inv_same).
  destruct (result_ c) as [r|] eqn:Hr; unfold setMode.
  2:{ engine_run. simpl. rewrite Hr. split; [by apply Hmode|done]. }
  destruct (isBowOut (pos r)); engine_run; [simpl; rewrite Hr; split; [by apply Hmode|done]|].
  unfold on_result. rewrite Hr. simpl. split; [|by repeat split].
  destruct Hi as [Hp Hs Hres]. constructor; [done..|]. intros r' [= <-].
  destruct (Hres r Hr). by constructor.
Qed.

(** *** Updating our position *)

Lemma count_peers_ok cutoff c :
  inv c →
  let c' := (foldl (count_peer cutoff) (c, ∅) (hash_order (currPeerPositions_ c))).1 in
  inv c' ∧ shape c' = shape c.
Proof.
  intros Hi c'. unfold c'. generalize (∅ : gmap Z Z).
  assert (Hl : Forall (λ it, nodeID it.2 = it.1) (hash_order (currPeerPositions_ c))).
  { apply Forall_forall. intros [k p] Hin%elem_of_hash_order. by apply (inv_peers _ Hi). }
  clear c'. revert Hl. generalize (hash_order (currPeerPositions_ c)). intros l. revert c Hi.
  induction l as [|[k p] l IH]; intros c Hi Hl votes; simpl; [done|].
  apply Forall_cons in Hl as [Hk Hl]. simpl in Hk. destruct (isStale cutoff p).
  - rewrite Hk. destruct (IH (drop_peer k c) (drop_peer_ok k c Hi) Hl votes) as [? Hs].
    split; [done|]. rewrite <- (drop_peer_shape k c). exact Hs.
  - by apply IH.
Qed.

Lemma updateVote_frame t b ps (d : DisputedTx Tx) :
  tx_ (updateVote t b ps d).2 = tx_ d ∧ votes_ (updateVote t b ps d).2 = votes_ d ∧
  ((updateVote t b ps d).1 = false → (updateVote t b ps d).2 = d).
Proof.
  unfold updateVote. destruct (ourVote_ d && _); [done|]. destruct (negb (ourVote_ d) && _); [done|].
  by destruct (Bool.eqb _ _).
Qed.

(** Voting on the disputes in [l] changes each of them and our set accordingly. *)
Lemma update_disputes_spec t b tx l ds ms :
  NoDup l.*1 →
  Forall (λ it, tx_id (tx_ it.2) = it.1 ∧ ourVote_ it.2 = ts_exists (default tx ms) it.1) l →
  let '(ds', ms') := foldl (update_dispute t b tx) (ds, ms) l in
  (∀ i, ds' !! i = match (list_to_map l : gmap Z (DisputedTx Tx)) !! i with
     | Some d => Some (updateVote t b parms d).2 | None => ds !! i end) ∧
  (∀ i, ts_exists (default tx ms') i = match (list_to_map l : gmap Z (DisputedTx Tx)) !! i with
     | Some d => ourVote_ (updateVote t b parms d).2 | None => ts_exists (default tx ms) i end).
Proof.
  revert ds ms. induction l as [|[k d] l IH]; intros ds ms Hnd Hl; [done|].
  apply NoDup_cons in Hnd as [Hk Hnd]. apply Forall_cons in Hl as [[Htx Ho] Hl]. simpl in Hk, Htx, Ho.
  cbn [foldl]. unfold update_dispute at 2. cbn [fst snd].
  destruct (updateVote_frame t b parms d) as (Htx' & _ & Hsame).
  destruct (updateVote t b parms d) as [ch d'] eqn:Hu. simpl in Htx', Hsame.
  set (ms1 := if ch then _ else ms).
  assert (Hms1 : ∀ i, ts_exists (default tx ms1) i =
    if decide (i = k) then ourVote_ d' else ts_exists (default tx ms) i).
  { intros i. unfold ms1. destruct ch; simpl.
    - destruct (ourVote_ d'); [rewrite ts_exists_insert, Htx', Htx|rewrite ts_exists_erase];
        case_bool_decide; case_decide; by simplify_eq.
    - rewrite Hsame by done. case_decide; by simplify_eq. }
  specialize (IH (<[k := d']> ds) ms1 Hnd). destruct (foldl _ _ l) as [ds' ms'].
  assert (Hne : ∀ it, it ∈ l → it.1 ≠ k).
  { intros it Hin <-. apply Hk, list_elem_of_fmap. by exists it. }
  destruct IH as [H1 H2].
  { rewrite Forall_forall in *. intros it Hin. destruct (Hl it Hin) as [? ->]. split; [done|].
    rewrite Hms1, decide_False by auto. done. }
  split; intros i; simpl; rewrite ?H1, ?H2; (destruct (decide (i = k)) as [->|Hi]);
    rewrite ?lookup_insert_eq, ?lookup_insert_ne by done;
    rewrite ?(not_elem_of_list_to_map_1 l k) by done; rewrite ?Hu, ?Hms1, ?lookup_insert_eq; try done.
  - by rewrite decide_True.
  - destruct (_ !! i); [done|]. by rewrite decide_False.
Qed.

(** The result is in order but for its position, if [newSet] becomes our set. *)
Definition ready (newSet : TxSet) c r : Prop :=
  (∀ t d, disputes r !! t = Some d → dispute_ok c (r_set_txns newSet r) t d) ∧
  compared_ok no_gap (r_set_txns newSet r) ∧ voters_ok none c r.

Lemma vote_ready t b c r ds ms :
  result_ok none no_gap c r →
  foldl (update_dispute t b (txns r)) (disputes r, None) (hash_order (disputes r)) = (ds, ms) →
  ready (default (txns r) ms) c (r_set_disputes ds r).
Proof.
  intros [? ? Hd Hcmp Hv] Hf.
  pose proof (update_disputes_spec t b (txns r) (hash_order (disputes r)) (disputes r) None
    (hash_order_NoDup _)) as Hspec.
  rewrite Hf, hash_order_map in Hspec. destruct Hspec as [Hds Hset].
  { apply Forall_forall. intros [k d] Hin%elem_of_hash_order. by destruct (Hd k d Hin) as (? & ? & ? & ?). }
  assert (Hds' : ∀ i, ds !! i = (λ d, (updateVote t b parms d).2) <$> disputes r !! i).
  { intros i. rewrite Hds. by destruct (disputes r !! i). }
  split_and!.
  - intros i d'. simpl. rewrite Hds'. intros (d & Hi & ->)%fmap_Some.
    destruct (Hd i d Hi) as (Htx & Hok & Ho & Hk).
    destruct (updateVote_frame t b parms d) as (Htx' & Hvo & _).
    split_and!; [congruence|by apply updateVote_ok| |by rewrite Hvo].
    simpl. by rewrite Hset, Hi.
  - intros s i Hs Hne _. simpl in *. rewrite Hds', fmap_is_Some. rewrite Hset in Hne.
    destruct (disputes r !! i) eqn:Hi; [eauto|]. rewrite <- Hi. apply (Hcmp s); [done..|by intros []].
  - intros k p s Hk Hs Ht. destruct (Hv k p s Hk Hs Ht) as [Hin Hall]. split; [done|].
    intros i d'. simpl. rewrite Hds'. intros (d & Hi & ->)%fmap_Some.
    destruct (updateVote_frame t b parms d) as (_ & -> & _). by apply Hall.
Qed.

Lemma take_position_ok newSet t c r :
  peers_ok c → sets_ok c → result_ c = Some r → ready newSet c r →
  wp (take_position newSet t) (λ _ c', inv c' ∧ phase_ c' = phase_ c ∧ is_Some (result_ c')) c.
Proof.
  intros Hp Hs Hr (Hd & Hcmp & Hv). unfold take_position. engine_run. unfold on_result. rewrite Hr. simpl.
  set (r1 := r_set_pos _ _). set (c1 := set_result (Some r1) c).
  assert (Htail : ∀ c', inv c' → phase_ c' = phase_ c → is_Some (result_ c') →
    wp (if negb (isBowOut (pos r1)) && bool_decide (mode_ c = proposing)
        then emit (Propose (pos r1)) else mret ())
      (λ _ c', inv c' ∧ phase_ c' = phase_ c ∧ is_Some (result_ c')) c').
  { intros c' ? ? ?. destruct (negb _ && _); by engine_run. }
  destruct (acquired_ c !! ts_id newSet) as [s|] eqn:Hacq; engine_run.
  - apply Htail; [|done|done]. constructor; [done..|]. intros ? [= <-]. by constructor.
  - set (c2 := set_acquired _ c1).
    apply (engine_mono _ (λ _ c', c' = c2)); [intros _ ? ->|destruct (isBowOut _); by engine_run].
    eapply engine_mono; [|apply (update_peers_ok c2 r1 (ts_id newSet) newSet)];
      [|done|by apply lookup_insert_eq|done|].
    + intros _ c' (Hc & r' & Hr' & Hok'). destruct (core_eq _ _ Hc) as (Hph & _).
      apply Htail; [|done|by rewrite Hr'].
      apply (inv_core c2 c' Hc Hp); [|rewrite Hr'; by intros ? [= <-]].
      intros id s. simpl. destruct (decide (id = ts_id newSet)) as [->|];
        [rewrite lookup_insert_eq; by intros [= <-]|rewrite lookup_insert_ne by done; apply Hs].
    + constructor; try done; [simpl; rewrite lookup_insert_eq; eauto|].
      intros k p s Hk Hs' Ht. simpl in *.
      rewrite lookup_insert_ne in Hs' by (intros Heq; apply Ht; by exists p).
      apply (Hv k p s); [done..|by intros []].
Qed.

Lemma updateOurPositions_ok c :
  inv c → is_Some (result_ c) →
  wp updateOurPositions (λ _ c', inv c' ∧ phase_ c' = phase_ c ∧ is_Some (result_ c')) c.
Proof.
  intros Hi [r0 Hr0]. unfold updateOurPositions. engine_run. rewrite Hr0. apply engine_assert; [done|].
  pose proof (count_peers_ok (u32 (now_ c - proposeFRESHNESS parms)) c Hi) as Hcount.
  destruct (foldl (count_peer _) _ _) as [c1 votes]. destruct Hcount as [Hi1 Hshape]. simpl in *.
  unfold shape in Hshape. rewrite Hr0 in Hshape. simpl in Hshape.
  injection Hshape as Hph _ _ _ _ Hres.
  destruct (result_ c1) as [r|] eqn:Hr; [|discriminate Hres]. engine_run.
  destruct Hi1 as [Hp Hs Hok]. specialize (Hok r Hr).
  destruct (foldl (update_dispute _ _ _) _ _) as [ds ms] eqn:Hf.
  pose proof (vote_ready _ _ _ _ _ _ Hok Hf) as Hready. engine_run.
  destruct (choose_close_time c1 r votes) as [t have]. engine_run.
  unfold on_result. rewrite Hr. simpl.
  set (c2 := set_haveCloseTimeConsensus _ _).
  assert (Htake : ∀ newSet, ready newSet c1 (r_set_disputes ds r) → wp (take_position newSet t)
    (λ _ c', inv c' ∧ phase_ c' = phase_ c ∧ is_Some (result_ c')) c2).
  { intros newSet Hrd. rewrite <- Hph. by apply (take_position_ok newSet t c2 (r_set_disputes ds r)). }
  destruct ms as [newSet|]; [by apply Htake|].
  destruct (negb _ || _); [by apply Htake|]. engine_run. split_and!; [|done|done].
  constructor; [done..|]. intros ? [= <-]. destruct Hok, Hready as (Hd & Hcmp & Hv). by constructor.
Qed.

(** The ledger was accepted because a percentage of the peers, with us if we
    propose, was at our position or had moved on, and the close time was agreed. *)
Definition accepted_ok c r : Prop :=
  let n := Z.of_nat (size (currPeerPositions_ c)) in
  let agree := at_position (position (pos r)) (currPeerPositions_ c) in
  let pct := minCONSENSUS_PCT (@parms W TxSet Tx _) in
  haveCloseTimeConsensus_ c = true ∧ ledgerMIN_CONSENSUS (@parms W TxSet Tx _) < dur_ (roundTime r) ∧
  prevProposers_ c = n ∧ prevRoundTime_ c = dur_ (roundTime r) ∧
  (state r = Yes ∧ checkConsensusReached agree n (bool_decide (mode_ c = proposing)) pct = true ∨
   state r = MovedOn ∧ ∃ finished w w',
     proposersFinished (previousLedger_ c) (prevLedgerID_ c) w = (finished, w') ∧
     checkConsensusReached finished n false pct = true).

(** The result belongs to the phase.  In standalone mode a ledger may be accepted
    without consensus, which leaves the state of the result at [No]. *)
Record phase_ok c : Prop := {
  phase_open : phase_ c = open → result_ c = None;
  phase_establish : phase_ c = establish → is_Some (result_ c);
  phase_accepted : phase_ c = accepted → ∀ r, result_ c = Some r →
    (standalone ∧ state r = No) ∨ accepted_ok c r }.

Definition full c : Prop := inv c ∧ phase_ok c.

(** Changes of the result that touch neither our set nor the disputes. *)
Lemma on_result_inv f c :
  (∀ r, txns (f r) = txns r ∧ position (pos (f r)) = position (pos r) ∧
        disputes (f r) = disputes r ∧ compares (f r) = compares r) →
  inv c → inv (on_result f c).
Proof.
  intros Hf [Hp Hs Hres]. constructor; [done..|]. intros r'. simpl. intros (r & Hr & ->)%fmap_Some.
  destruct (Hf r) as (Ht & Hpos & Hd & Hc), (Hres r Hr) as [? ? Hdis Hcmp Hv].
  constructor; unfold dispute_ok, compared_ok, voters_ok in *; rewrite ?Ht, ?Hpos, ?Hd, ?Hc; done.
Qed.

Lemma full_establish c : inv c → phase_ c = establish → is_Some (result_ c) → full c.
Proof. intros Hi Hph Hr. split; [done|]. constructor; rewrite Hph; done. Qed.

(** The end of [phaseEstablish]. *)
Lemma haveConsensus_ok c r :
  inv c → result_ c = Some r → wp haveConsensus (λ reached c',
    inv c' ∧ phase_ c' = phase_ c ∧ ∃ r', result_ c' = Some r' ∧
    (reached = true → haveCloseTimeConsensus_ c' = true →
      accepted_ok (set_prevRoundTime (dur_ (roundTime r'))
        (set_prevProposers (Z.of_nat (size (currPeerPositions_ c'))) c')) r')) c.
Proof.
  intros Hi Hr. unfold haveConsensus. engine_run. rewrite Hr. apply engine_assert; [done|]. engine_step.
  apply engine_query_eq. intros finished w w' Hfin. engine_run. unfold on_result. rewrite Hr. simpl.
  set (n := Z.of_nat _). set (agree := at_position _ _). rewrite (Zplus_minus agree n).
  split_and!; [|done|].
  { pose proof (on_result_inv (r_set_state (checkConsensus (prevProposers_ c) n agree finished
      (prevRoundTime_ c) (dur_ (roundTime r)) parms (bool_decide (mode_ c = proposing)))) c
      ltac:(done) Hi) as Hi'. unfold on_result in Hi'. by rewrite Hr in Hi'. }
  eexists. split; [done|]. simpl. intros Hreached Hct. unfold accepted_ok. simpl. fold n agree.
  unfold checkConsensus in *. destruct (Z.leb_spec (dur_ (roundTime r)) (ledgerMIN_CONSENSUS parms)); [done|].
  destruct (_ && _); [done|]. split_and!; try done.
  destruct (checkConsensusReached agree _ _ _); [by left|].
  destruct (checkConsensusReached finished _ _ _) eqn:E; [|done]. right. split; [done|].
  by exists finished, w, w'.
Qed.

Lemma phaseEstablish_ok c :
  full c → phase_ c = establish → wp phaseEstablish (λ _, full) c.
Proof.
  intros [Hi Hpok] Hph. pose proof (phase_establish _ Hpok Hph) as He. unfold phaseEstablish. engine_run.
  apply engine_assert; [intros _; by destruct (result_ c); [|destruct He]|]. engine_run.
  set (c1 := on_result _ (on_result _ c)).
  assert (Hi1 : inv c1) by (by repeat (apply on_result_inv; [done|])).
  assert (Hr1 : is_Some (result_ c1)) by (destruct He as [r Hr]; simpl; rewrite Hr; eauto).
  destruct (result_ c1) as [r|] eqn:Hr; [|by destruct Hr1]. engine_run.
  set (c2 := set_convergePercent _ c1).
  assert (Hi2 : inv c2) by (by apply (inv_same c1)).
  assert (Hr2 : is_Some (result_ c2)) by (change (is_Some (result_ c1)); by rewrite Hr).
  destruct (_ <? _); engine_run; [by apply full_establish|].
  eapply engine_mono; [|by apply updateOurPositions_ok].
  intros _ c3 (Hi3 & Hph3 & [r3 Hr3]). engine_run.
  eapply engine_mono; [|by apply (haveConsensus_ok c3 r3)].
  intros reached c4 (Hi4 & Hph4 & r4 & Hr4 & Hacc). engine_run.
  assert (Hph4' : phase_ c4 = establish) by (rewrite Hph4, Hph3; exact Hph).
  destruct reached; simpl; engine_run; [|by apply full_establish].
  destruct (haveCloseTimeConsensus_ c4) eqn:Hct; simpl; engine_run; [|by apply full_establish].
  simpl. rewrite Hr4. simpl. engine_run. split; [by apply (inv_same c4)|].
  constructor; simpl; try done. intros _ r'. rewrite Hr4. intros [= <-]. right.
  exact (Hacc eq_refl eq_refl).
Qed.

Lemma phaseOpen_ok c : full c → phase_ c = open → wp phaseOpen (λ _, full) c.
Proof.
  intros [Hi Hpok] Hph. unfold phaseOpen. engine_run.
  assert (Hi1 : inv (set_openTime (timer_tick a1 (openTime_ c)) c)) by (by apply (inv_same c)).
  destruct (shouldCloseLedger _ _ _ _ _ _ _ _ _); engine_run; [|by split; [|destruct Hpok; constructor]].
  destruct Hi1 as [Hp Hs _]. eapply engine_mono; [|apply closeLedger_ok; [done..|intros _; by apply (phase_open _ Hpok)]].
  intros _ c' (Hi' & Hph' & Hr' & _). by apply full_establish.
Qed.

(** *** Rounds *)

Lemma phase_ok_frame c c' :
  phase_ c ≠ accepted → phase_ c' = phase_ c → (is_Some (result_ c') ↔ is_Some (result_ c)) →
  phase_ok c → phase_ok c'.
Proof.
  intros Hna Hp Hr [Ho He _]. constructor; rewrite Hp; try done; [|by rewrite Hr].
  intros Hopen. specialize (Ho Hopen). rewrite Ho in Hr. apply eq_None_not_Some. rewrite Hr.
  by intros [??].
Qed.

Lemma shape_phase_ok c c' :
  phase_ c ≠ accepted → shape c' = shape c → phase_ok c → phase_ok c' ∧ phase_ c' ≠ accepted.
Proof.
  unfold shape. intros Hna [= Hp _ _ _ _ Hr] Hok. split; [|congruence].
  apply (phase_ok_frame c); [done..| |done]. by destruct (result_ c'), (result_ c).
Qed.

Lemma setMode_ok m c : full c → phase_ c ≠ accepted → wp (setMode m) (λ _, full) c.
Proof.
  intros [Hi Hp] Hna. unfold setMode. engine_run.
  split; [by apply (inv_same c)|by apply (phase_ok_frame c)].
Qed.

(** Switching to another ledger forgets the peers, their votes and the disputes. *)
Definition switch (id : Z) c : C :=
  set_deadNodes ∅ (set_rawPeers ∅ (set_currPeerPositions ∅
    (on_result (λ r, r_set_compares ∅ (r_set_disputes ∅ r)) (set_prevLedgerID id c)))).

Lemma switch_inv id c : inv c → inv (switch id c).
Proof.
  intros [Hp Hs Hres]. constructor; [intros ???; done|done|]. intros r'. simpl.
  intros (r & Hr & ->)%fmap_Some. destruct (Hres r Hr). constructor; simpl; try done.
Qed.

Section Timer.
Context (timer : Z → M S ()).
Context (timer_ok : ∀ now c, full c → wp (timer now) (λ _, full) c).

(** A new round starts from a consistent state whatever the old one was. *)
Lemma startRoundInternal_ok now id l mode c :
  wp (startRoundInternal timer now id l mode) (λ _, full) c.
Proof.
  unfold startRoundInternal, setMode. engine_run.
  match goal with |- wp _ _ ?c0 => set (c1 := c0) end.
  assert (Hi : inv c1) by (constructor; [intros ???; done|intros ???; done|done]).
  eapply engine_mono; [|by apply playbackProposals_ok].
  intros _ c2 [Hi2 Hs2]. engine_run.
  assert (full c2) by (split; [done|]; apply (shape_phase_ok c1); [done..|by constructor]).
  destruct (_ <? _); [by apply timer_ok|by engine_run].
Qed.

Lemma handleWrongLedger_ok id c :
  full c → phase_ c ≠ accepted → id ≠ prevLedgerID_ c ∨ lg_id (previousLedger_ c) ≠ id →
  wp (handleWrongLedger timer id) (λ _, full) c.
Proof.
  intros [Hi Hp] Hna Hid. unfold handleWrongLedger. engine_run.
  apply engine_assert; [intros _; by destruct Hid as [->%Z.eqb_neq| ->%Z.eqb_neq]; rewrite ?orb_true_r|]. engine_run. eapply engine_mono; [|by apply leaveConsensus_ok].
  intros _ c1 (Hi1 & Hph1 & Hr1 & _). engine_run.
  assert (Hf1 : full c1) by (split; [done|by apply (phase_ok_frame c)]).
  assert (Hna1 : phase_ c1 ≠ accepted) by (by rewrite Hph1).
  apply (engine_mono _ (λ _ c', full c' ∧ phase_ c' ≠ accepted)).
  - intros _ c2 [Hf2 Hna2]. engine_run. destruct (_ =? _); engine_run; [done|].
    destruct a; [apply startRoundInternal_ok|by apply setMode_ok].
  - destruct (negb _); engine_run; [|done].
    eapply engine_mono; [|apply (playbackProposals_ok (switch id c1)), switch_inv, Hi1].
    intros _ c3 [Hi3 Hs3]. destruct (shape_phase_ok (switch id c1) c3); [done..| |by split; [split|]].
    destruct Hf1 as [_ Hp1]. apply (phase_ok_frame c1); [done..| |done]. simpl. by rewrite fmap_is_Some.
Qed.

Lemma checkLedger_ok c :
  full c → phase_ c ≠ accepted → wp (checkLedger timer) (λ _, full) c.
Proof.
  intros Hf Hna. unfold checkLedger. engine_run.
  destruct (Z.eqb_spec a (prevLedgerID_ c)) as [->|Hne]; cbn [negb]; [|apply handleWrongLedger_ok; auto].
  destruct (Z.eqb_spec (lg_id (previousLedger_ c)) (prevLedgerID_ c)); cbn [negb];
    [by engine_run|apply handleWrongLedger_ok; auto].
Qed.
End Timer.

Lemma full_now now c : full c → full (set_now now c).
Proof. intros [? []]. split; [by apply (inv_same c)|by constructor]. Qed.

Lemma timerEntry_ok fuel now c : full c → wp (timerEntry fuel now) (λ _, full) c.
Proof.
  revert now c. induction fuel as [|fuel IH]; intros now c Hf; [apply engine_out_of_fuel|].
  simpl. engine_run. case_decide; engine_run; [done|].
  eapply engine_mono; [|by apply (checkLedger_ok _ IH); [apply full_now|]]. intros ? c1 Hf1. engine_run.
  destruct (phase_ c1) eqn:Hph; [by apply phaseOpen_ok|by apply phaseEstablish_ok|by engine_run].
Qed.

Lemma startRound_ok fuel now id l untrusted b c :
  wp (startRound fuel now id l untrusted b) (λ _, full) c.
Proof.
  unfold startRound. engine_run.
  apply (engine_mono _ (λ _ _, True)).
  2:{ destruct (firstRound_ c); by engine_run. }
  intros _ c1 _. engine_run.
  destruct (negb _); engine_run; [destruct a|]; apply startRoundInternal_ok, timerEntry_ok.
Qed.

Lemma simulate_ok now delay c :
  full c → (asserts = true → result_ c = None) → wp (simulate now delay) (λ _ c', standalone → full c') c.
Proof.
  intros [[Hp Hs _] _] Hn. unfold simulate. engine_run.
  eapply engine_mono; [|by apply (closeLedger_ok (set_now now c))].
  intros _ c1 (Hi & _ & [r Hr] & _ & Hno). specialize (Hno r Hr).
  engine_run. set (c2 := set_phase _ _).
  assert (Hi2 : inv c2).
  { eapply inv_same; [|apply (on_result_inv (λ r, r_set_proposers (Z.of_nat (size (currPeerPositions_ c1)))
      (r_set_roundTime (timer_tick_fixed (default 100 delay) (roundTime r)) r)) c1 ltac:(done) Hi)].
    unfold parts. simpl. by rewrite <- option_fmap_compose. }
  assert (Hp2 : standalone → phase_ok c2).
  { intros Hsim. constructor; try done. intros _ r2. simpl. rewrite Hr. simpl. intros [= <-]. by left. }
  destruct (result_ c2); engine_run; intros Hsim; split; auto.
Qed.

Lemma peerProposal_ok now p c : full c → wp (peerProposal now p) (λ _, full) c.
Proof.
  intros [Hi Hp]. unfold peerProposal. engine_run. set (c1 := set_recentPeerPositions _ _).
  assert (Hi1 : inv c1) by (by apply (inv_same c)).
  assert (Hp1 : phase_ok c1) by (destruct Hp; by constructor).
  destruct (decide (phase_ c = accepted)) as [Ha|Hna].
  - unfold peerProposalInternal. engine_run. rewrite decide_True by done. by engine_run.
  - eapply engine_mono; [|by apply peerProposalInternal_ok]. intros b c2 [Hi2 Hs2].
    split; [done|]. by apply (shape_phase_ok c1).
Qed.

Lemma gotTxSet_full now s c : full c → wp (gotTxSet now s) (λ _, full) c.
Proof.
  intros [Hi Hp]. destruct (decide (phase_ c = accepted)) as [Ha|Hna].
  - unfold gotTxSet. engine_run. rewrite decide_True by done. by engine_run.
  - eapply engine_mono; [|by apply gotTxSet_ok]. intros _ c2 [Hi2 Hs2].
    split; [done|]. by apply (shape_phase_ok c).
Qed.

(** ** The timer returns *)

Lemma createDisputes_returns o c : returns (createDisputes o) c.
Proof. unfold createDisputes, createDispute. total. Qed.
#[local] Hint Resolve createDisputes_returns : total.

Lemma updateDisputes_returns n o c : returns (updateDisputes n o) c.
Proof. unfold updateDisputes. total. Qed.
#[local] Hint Resolve updateDisputes_returns : total.

Lemma gotTxSet_returns now s c : returns (gotTxSet now s) c.
Proof. unfold gotTxSet. total. Qed.
#[local] Hint Resolve gotTxSet_returns : total.

Lemma peerProposalInternal_returns now p c : returns (peerProposalInternal now p) c.
Proof. unfold peerProposalInternal. total. Qed.
#[local] Hint Resolve peerProposalInternal_returns : total.

Lemma playbackProposals_returns c : returns playbackProposals c.
Proof. unfold playbackProposals. total. Qed.

Lemma leaveConsensus_returns c : returns leaveConsensus c.
Proof. unfold leaveConsensus, setMode. total. Qed.

Lemma closeLedger_returns c : returns closeLedger c.
Proof. unfold closeLedger. total. Qed.
#[local] Hint Resolve playbackProposals_returns leaveConsensus_returns closeLedger_returns : total.

Lemma phaseOpen_returns c : returns phaseOpen c.
Proof. unfold phaseOpen. total. Qed.

Lemma updateOurPositions_returns c : returns updateOurPositions c.
Proof. unfold updateOurPositions, take_position. total. Qed.
#[local] Hint Resolve updateOurPositions_returns : total.

Lemma phaseEstablish_returns c : returns phaseEstablish c.
Proof. unfold phaseEstablish, haveConsensus. total. Qed.
#[local] Hint Resolve phaseOpen_returns phaseEstablish_returns : total.

Section Steady.
Context `{!SteadyAdaptor W TxSet Tx}.

(** We work on the ledger [g], and the application agrees. *)
Definition settled (g : Z) c : Prop :=
  prevLedgerID_ c = g ∧ lg_id (previousLedger_ c) = g ∧
  ∀ l m w, lg_id l = g → (getPrevLedger g l m w).1 = g.

Lemma timerEntry_settled fuel now g c :
  settled g c → returns (timerEntry (Datatypes.S fuel) now) c.
Proof.
  intros (Hg & Hl & Hs). simpl. apply returns_bind; [apply returns_get|]. apply engine_get.
  case_decide; [apply returns_ret|]. apply returns_bind; [apply returns_modify|]. apply engine_modify.
  apply returns_bind_any; [|intros ? c'; total]. unfold checkLedger.
  apply returns_bind; [apply returns_get|]. apply engine_get. simpl.
  apply returns_bind; [apply returns_query|]. apply engine_query_eq. intros a w w' Ha.
  pose proof (Hs _ (mode_ c) w Hl) as Hs'. rewrite Hg in Ha. rewrite Ha in Hs'. simpl in Hs'.
  rewrite Hs', Hg, Hl, !Z.eqb_refl. simpl. apply returns_ret.
Qed.

Lemma startRoundInternal_returns timer now id l mode c :
  (∀ now c', ledgers c' = (id, l) → full c' → returns (timer now) c') →
  returns (startRoundInternal timer now id l mode) c.
Proof.
  intros Ht. unfold startRoundInternal, setMode.
  repeat (apply returns_bind; [by total|]; engine_run).
  match goal with |- wp _ _ ?x => set (c1 := x) end.
  assert (Hi : inv c1) by (constructor; [intros ???; done|intros ???; done|done]).
  eapply engine_mono; [|by apply playbackProposals_ok]. intros _ c2 [Hi2 Hs2].
  apply returns_bind; [apply returns_get|]. apply engine_get.
  destruct (_ <? _); [|apply returns_ret]. apply Ht.
  - unfold shape in Hs2. injection Hs2 as _ _ H1 H2 _ _. unfold ledgers. by rewrite H1, H2.
  - split; [done|]. apply (shape_phase_ok c1); [done..|by constructor].
Qed.

(** The ledger that [checkLedger] turns to is the one the application named. *)
Lemma handleWrongLedger_returns fuel id c :
  full c → (∀ l m w, lg_id l = id → (getPrevLedger id l m w).1 = id) →
  returns (handleWrongLedger (timerEntry (Datatypes.S fuel)) id) c.
Proof.
  intros [Hi Hp] Hset. unfold handleWrongLedger.
  apply returns_bind; [apply returns_get|]. apply engine_get. apply returns_after_assert.
  apply returns_bind; [apply leaveConsensus_returns|].
  eapply engine_mono; [|by apply leaveConsensus_ok]. intros _ c1 (Hi1 & _ & _ & _).
  apply returns_bind; [apply returns_get|]. apply engine_get.
  apply returns_bind; [by total|].
  apply (engine_mono _ (λ _ c', prevLedgerID_ c' = id)).
  - intros _ c2 Hid. apply returns_bind; [apply returns_get|]. apply engine_get.
    destruct (_ =? _); [apply returns_ret|].
    apply returns_bind; [apply returns_query|]. apply engine_query_eq. intros [l|] w w' Ha; [|unfold setMode; total].
    apply acquireLedger_id in Ha. apply startRoundInternal_returns. intros now c3 [= Hl Hl'] _.
    apply (timerEntry_settled _ _ id). split_and!; [done|congruence|done].
  - destruct (Z.eqb_spec (prevLedgerID_ c1) id); simpl; engine_run; [done|].
    eapply engine_mono; [|apply (playbackProposals_ok (switch id c1)), switch_inv, Hi1]. intros _ c3 [_ Hs3].
    unfold shape in Hs3. by injection Hs3 as _ _ -> _ _ _.
Qed.

Lemma timerEntry_returns fuel now c :
  full c → returns (timerEntry (Datatypes.S (Datatypes.S fuel)) now) c.
Proof.
  intros Hf. cbn [timerEntry]. apply returns_bind; [apply returns_get|]. apply engine_get.
  case_decide; [apply returns_ret|]. apply returns_bind; [apply returns_modify|]. apply engine_modify.
  apply returns_bind_any; [|intros ? c'; total]. unfold checkLedger.
  apply returns_bind; [apply returns_get|]. apply engine_get.
  apply returns_bind; [apply returns_query|]. apply engine_query_eq. intros g w w' Hg.
  assert (Hset : ∀ l m w, lg_id l = g → (getPrevLedger g l m w).1 = g).
  { intros l m w0 Hl. pose proof (getPrevLedger_steady (prevLedgerID_ (set_now now c))
      (previousLedger_ (set_now now c)) (mode_ (set_now now c)) w l m w0) as Hst.
    rewrite Hg in Hst. by apply Hst. }
  destruct (negb (g =? _)); [by apply handleWrongLedger_returns; [apply full_now|]|].
  destruct (negb _); [by apply handleWrongLedger_returns; [apply full_now|]|apply returns_ret].
Qed.
End Steady.

(** ** The close time *)

(** The choice is the time with the most votes, the latest such time, if it has
    enough of them. *)
Lemma tally_close_time_spec thrC thr l :
  StronglySorted (λ x y : Z * Z, x.1 < y.1) l →
  let '(t, v, have) := foldl (tally_close_time thrC) (0, thr, false) l in
  (t = 0 ∧ v = thr ∧ have = false ∧ Forall (λ it, it.2 < thr) l) ∨
  ((t, v) ∈ l ∧ thr ≤ v ∧ have = (thrC <=? v) ∧
   Forall (λ it, it.2 ≤ v ∧ (it.2 = v → it.1 ≤ t)) l).
Proof.
  induction l as [|[t' v'] l IH] using rev_ind; intros Hs; [by left|].
  rewrite foldl_app. cbn [foldl].
  assert (Hl : StronglySorted (λ x y : Z * Z, x.1 < y.1) l ∧ Forall (λ it, it.1 < t') l).
  { clear IH. induction l as [|x l IHl]; [by split; constructor|]. simpl in Hs.
    apply StronglySorted_inv in Hs as [Hs Hx]. apply Forall_app in Hx as [Hx1 Hx2].
    destruct (IHl Hs). apply Forall_cons in Hx2 as [Hx2 _]. split; constructor; done. }
  destruct Hl as [Hl Hlt]. specialize (IH Hl).
  destruct (foldl _ _ l) as [[t v] have]. unfold tally_close_time. simpl.
  rewrite Forall_forall in Hlt.
  destruct (Z.leb_spec v v') as [Hle|Hgt].
  - right. split; [apply elem_of_app; right; apply list_elem_of_singleton; done|].
    destruct IH as [(-> & -> & -> & Hall)|(Hin & Hthr & -> & Hall)]; rewrite Forall_forall in Hall.
    + split_and!; [done|done|]. apply Forall_app. split; [|by constructor; [simpl; lia|]].
      apply Forall_forall. intros it Hit. specialize (Hall it Hit). lia.
    + split_and!; [lia| |].
      * destruct (Z.leb_spec thrC v), (Z.leb_spec thrC v'); simpl; try done; lia.
      * apply Forall_app. split; [|by constructor; [simpl; lia|]].
        apply Forall_forall. intros it Hit. specialize (Hall it Hit). specialize (Hlt it Hit). lia.
  - destruct IH as [(-> & -> & -> & Hall)|(Hin & Hthr & -> & Hall)]; [left|right].
    + split_and!; try done. apply Forall_app. split; [done|]. by constructor.
    + split_and!; try done; [apply elem_of_app; by left|]. apply Forall_app. split; [done|].
      constructor; [simpl; lia|constructor].
Qed.

Lemma size_filter_map {V} (P : Z * V → Prop) `{!∀ x, Decision (P x)} (m : gmap Z V) :
  size (filter P m) = length (filter P (hash_order m)).
Proof.
  rewrite map_filter_alt, map_size_list_to_map.
  - by rewrite hash_order_perm.
  - apply (sublist_NoDup _ (map_to_list m).*1); [apply NoDup_fst_map_to_list|].
    apply fmap_sublist, sublist_filter.
Qed.

(** The fresh peers remain and their close times are counted. *)
Lemma count_peers_spec cutoff l c votes :
  NoDup l.*1 →
  let '(c', votes') := foldl (count_peer cutoff) (c, votes) l in
  (∀ k, currPeerPositions_ c' !! k = match (list_to_map l : gmap Z ConsensusProposal) !! k with
     | Some p => if isStale cutoff p then None else currPeerPositions_ c !! k
     | None => currPeerPositions_ c !! k end) ∧
  (∀ t, default 0 (votes' !! t) = default 0 (votes !! t) + Z.of_nat (length
     (filter (λ it, isStale cutoff it.2 = false ∧ asCloseTime c (closeTime it.2) = t) l))) ∧
  asCloseTime c' = asCloseTime c ∧ mode_ c' = mode_ c ∧ convergePercent_ c' = convergePercent_ c.
Proof.
  revert c votes. induction l as [|[k p] l IH]; intros c votes Hnd.
  { simpl. split_and!; try done. intros t. lia. }
  apply NoDup_cons in Hnd as [Hk Hnd]. rewrite list_to_map_cons.
  cbn [foldl]. unfold count_peer at 2. cbn [fst snd].
  destruct (isStale cutoff p) eqn:Hst.
  - specialize (IH (set_currPeerPositions (delete k (currPeerPositions_ (unVoteAll (nodeID p) c)))
      (unVoteAll (nodeID p) c)) votes Hnd).
    destruct (foldl _ _ l) as [c' votes']. destruct IH as (Hcur & Hv & Hr1 & Hr2 & Hr3).
    split_and!; try done.
    + intros k'. rewrite Hcur. simpl. destruct (decide (k' = k)) as [->|Hne].
      * by rewrite not_elem_of_list_to_map_1, lookup_insert_eq, lookup_delete_eq, Hst.
      * by rewrite lookup_insert_ne, lookup_delete_ne.
    + intros t. rewrite Hv, filter_cons, decide_False by (simpl; rewrite Hst; by intros [? _]). done.
  - specialize (IH c (<[asCloseTime c (closeTime p) :=
      default 0 (votes !! asCloseTime c (closeTime p)) + 1]> votes) Hnd).
    destruct (foldl _ _ l) as [c' votes']. destruct IH as (Hcur & Hv & Hr1 & Hr2 & Hr3).
    split_and!; try done.
    + intros k'. rewrite Hcur. destruct (decide (k' = k)) as [->|Hne].
      * by rewrite not_elem_of_list_to_map_1, lookup_insert_eq, Hst.
      * by rewrite lookup_insert_ne.
    + intros t. rewrite Hv, filter_cons. destruct (decide (asCloseTime c (closeTime p) = t)) as [<-|Hne].
      * rewrite lookup_insert_eq, decide_True by done. simpl. lia.
      * rewrite lookup_insert_ne by done. by rewrite decide_False by (by intros [_ ?]).
Qed.

(** The fresh peers that propose a close time. *)
Definition fresh_peers cutoff c : gmap Z ConsensusProposal :=
  filter (λ it, isStale cutoff it.2 = false) (currPeerPositions_ c).

Definition close_votes c (t : Z) (peers : gmap Z ConsensusProposal) : Z :=
  Z.of_nat (size (filter (λ it, asCloseTime c (closeTime it.2) = t) peers)).

Lemma count_peers_votes cutoff c :
  let '(c', votes) := foldl (count_peer cutoff) (c, ∅) (hash_order (currPeerPositions_ c)) in
  currPeerPositions_ c' = fresh_peers cutoff c ∧
  (∀ t, default 0 (votes !! t) = close_votes c t (fresh_peers cutoff c)) ∧
  asCloseTime c' = asCloseTime c ∧ mode_ c' = mode_ c ∧ convergePercent_ c' = convergePercent_ c.
Proof.
  pose proof (count_peers_spec cutoff (hash_order (currPeerPositions_ c)) c ∅ (hash_order_NoDup _)) as Hs.
  destruct (foldl _ _ _) as [c' votes]. destruct Hs as (Hcur & Hv & Hr1 & Hr2 & Hr3).
    split_and!; try done.
  - apply map_eq. intros k. rewrite Hcur, hash_order_map. unfold fresh_peers.
    destruct (currPeerPositions_ c !! k) as [p|] eqn:Hk.
    + symmetry. destruct (isStale cutoff p) eqn:Hst.
      * apply map_lookup_filter_None. right. intros p'. rewrite Hk. intros [= <-]. simpl. congruence.
      * by apply map_lookup_filter_Some.
    + symmetry. apply map_lookup_filter_None. by left.
  - intros t. rewrite Hv, lookup_empty. unfold close_votes, fresh_peers. simpl.
    rewrite map_filter_filter, size_filter_map, Z.add_0_l. do 2 f_equal.
    apply list_filter_iff. intros [k p]. simpl. tauto.
Qed.

Lemma participantsNeeded_pos n pct : 0 ≤ n → 0 ≤ pct → 1 ≤ participantsNeeded n pct.
Proof.
  intros Hn Hp. unfold participantsNeeded.
  assert (0 ≤ (n * pct + pct `quot` 2) `quot` 100).
  { apply Z.quot_pos; [|lia]. apply Z.add_nonneg_nonneg; [lia|by apply Z.quot_pos]. }
  destruct (Z.eqb_spec ((n * pct + pct `quot` 2) `quot` 100) 0); lia.
Qed.

(** The votes for a close time: the fresh peers, and ourselves if we propose. *)
Definition support cutoff c r (t : Z) : Z :=
  close_votes c t (fresh_peers cutoff c) +
  (if bool_decide (mode_ c = proposing ∧ t = asCloseTime c (closeTime (pos r))) then 1 else 0).

(** the close time a node settles on.  Peers whose proposals are not fresh do
    not count.  Without fresh peers it is our own rounded time.  Otherwise it is
    the time with the most votes, the latest of them if several have as many,
    provided it reaches the share required at this point of the round; if no time
    reaches it, there is none.  The close time is agreed when its votes reach the
    share required for agreement. *)
Theorem close_time_choice c r :
  ramping (@parms W TxSet Tx _) → 0 ≤ convergePercent_ c < 2 ^ 31 →
  let ps := @parms W TxSet Tx _ in
  let cutoff := u32 (now_ c - proposeFRESHNESS ps) in
  let peers := fresh_peers cutoff c in
  let ours := asCloseTime c (closeTime (pos r)) in
  let n := Z.of_nat (size peers) + (if bool_decide (mode_ c = proposing) then 1 else 0) in
  let thr := participantsNeeded n (neededPct (convergePercent_ c) ps) in
  let thrC := participantsNeeded n (avCT_CONSENSUS_PCT ps) in
  let votes t := support cutoff c r t in
  let '(c', counted) := foldl (count_peer cutoff) (c, ∅) (hash_order (currPeerPositions_ c)) in
  let '(t, have) := choose_close_time c' r counted in
  currPeerPositions_ c' = peers ∧
  (peers = ∅ → t = ours ∧ have = true) ∧
  (peers ≠ ∅ → (∀ t', votes t' < thr) → t = 0 ∧ have = false) ∧
  (peers ≠ ∅ → (∃ t', thr ≤ votes t') →
    thr ≤ votes t ∧ have = (thrC <=? votes t) ∧
    ∀ t', votes t' ≤ votes t ∧ (votes t' = votes t → t' ≤ t)).
Proof.
  intros Hramp Hconv ps cutoff peers ours n thr thrC votes.
  pose proof (count_peers_votes cutoff c) as Hcount.
  destruct (foldl _ _ _) as [c' counted]. destruct Hcount as (Hcur & Hcnt & Has & Hmode & Hcv).
  unfold choose_close_time. rewrite Hcur, Has, Hmode, Hcv. fold peers ours.
  destruct (decide (peers = ∅)) as [He|Hne]; [by split_and!|].
  set (V := if decide (mode_ c = proposing) then <[ours := default 0 (counted !! ours) + 1]> counted else counted).
  assert (HV : ∀ t, default 0 (V !! t) = votes t).
  { intros t. unfold V, votes, support. rewrite <- Hcnt. fold ours.
    case_decide as Hp; [|rewrite bool_decide_false by tauto; lia].
    destruct (decide (t = ours)) as [->|Ht];
      [rewrite lookup_insert_eq, bool_decide_true by done; done|].
    rewrite lookup_insert_ne by done. rewrite bool_decide_false by tauto. lia. }
  assert (Hpair : (if decide (mode_ c = proposing)
      then (<[ours := default 0 (counted !! ours) + 1]> counted, Z.of_nat (size peers) + 1)
      else (counted, Z.of_nat (size peers))) = (V, n)).
  { unfold V, n. destruct (decide (mode_ c = proposing)) as [Hp|Hp];
      [rewrite bool_decide_true by done|rewrite bool_decide_false by done]; f_equal; lia. }
  rewrite Hpair. fold ps thr thrC.
  assert (Hthr : 1 ≤ thr).
  { apply participantsNeeded_pos; [unfold n; case_bool_decide; lia|].
    apply (neededPct_mono ps _ (convergePercent_ c)); [done|lia|lia]. }
  pose proof (tally_close_time_spec thrC thr (in_order V) (in_order_strict V)) as Hspec.
  destruct (foldl _ _ _) as [[t v] have].
  assert (Hin : ∀ t' v', (t', v') ∈ in_order V → v' = votes t').
  { intros t' v' Hin%elem_of_in_order. by rewrite <- HV, Hin. }
  split_and!; [done|done| |]; intros _; destruct Hspec as [(-> & -> & -> & Hall)|(Ht & Hv & -> & Hall)];
    rewrite Forall_forall in Hall.
  - done.
  - intros Hlow. rewrite (Hin t v Ht) in Hv. specialize (Hlow t). lia.
  - intros [t' Ht']. rewrite <- HV in Ht'. destruct (V !! t') as [v'|] eqn:E; simpl in Ht'; [|lia].
    apply elem_of_in_order in E. specialize (Hall _ E). simpl in Hall. lia.
  - intros _. rewrite <- (Hin t v Ht). split_and!; [done|done|]. intros t'.
    rewrite <- (HV t'). destruct (V !! t') as [v'|] eqn:E; simpl; [|lia].
    apply elem_of_in_order in E. apply (Hall _ E).
Qed.

(** ** Reachable states *)

(** The members after construction; some are left uninitialised. *)
Definition initial (t : ConsensusTimer) (prevRoundTime : Z) (l : CxLedger) : C :=
  mkCs accepted observing true false 0 t ledgerDefaultTimeResolution prevRoundTime 0 0 0 l
    ∅ None ∅ 0 ∅ ∅ 0 ∅.

(** The calls the application makes. *)
Inductive call : Type :=
| StartRound (now prevLedgerID : Z) (prevLedger : CxLedger) (nowUntrusted : gset Z) (isProposing : bool)
| PeerProposal (now : Z) (p : ConsensusProposal)
| TimerEntry (now : Z)
| GotTxSet (now : Z) (txSet : TxSet)
| Simulate (now : Z) (delay : option Z).

#[export] Instance is_simulate_dec (x : call) : Decision (∃ now delay, x = Simulate now delay).
Proof. destruct x; [right; by intros (? & ? & ?)..|left; eauto]. Defined.

Definition run (fuel : nat) (x : call) : M S () :=
  match x with
  | StartRound now id l untrusted b => startRound fuel now id l untrusted b
  | PeerProposal now p => peerProposal now p ;; mret ()
  | TimerEntry now => timerEntry fuel now
  | GotTxSet now s => gotTxSet now s
  | Simulate now delay => simulate now delay
  end.

(** Between calls the application may change in any way.  Only a standalone server
    simulates. *)
Inductive reachable : S → Prop :=
| reach_initial w t prt l : reachable (mkSt w (initial t prt l) [])
| reach_world s w : reachable s → reachable (mkSt w (cs s) (trace s))
| reach_call s fuel x s' :
    reachable s → (∀ now delay, x = Simulate now delay → standalone) →
    run fuel x s = Done ((), s') → reachable s'.

(** Simulating asserts that there is no position yet. *)
Lemma simulate_asserts now delay s :
  asserts = true → is_Some (result_ (cs s)) → simulate now delay s = Asserted.
Proof.
  intros Ha [r Hr]. unfold simulate, closeLedger, mbind, M_bind, modify, get, assert_. simpl.
  by rewrite Ha, Hr.
Qed.

Lemma run_ok fuel x c :
  ((∃ now delay, x = Simulate now delay) → asserts = true → result_ c = None) → full c →
  wp (run fuel x) (λ _ c', ((∃ now delay, x = Simulate now delay) → standalone) → full c') c.
Proof.
  intros Hsim Hf. destruct x; simpl.
  - eapply engine_mono; [|apply startRound_ok]. auto.
  - engine_run. eapply engine_mono; [|by apply peerProposal_ok]. intros ? c' ?. by engine_run.
  - eapply engine_mono; [|by apply timerEntry_ok]. auto.
  - eapply engine_mono; [|by apply gotTxSet_full]. auto.
  - eapply engine_mono; [|apply simulate_ok; [done|apply Hsim; eauto]]. intros u c' Hc Hst. apply Hc, Hst. eauto.
Qed.

Lemma reachable_full s : reachable s → full (cs s).
Proof.
  induction 1 as [w t prt l|s w _ IH|[w c t] fuel x s' _ IH Hsim Hrun]; [|done|].
  - split; [constructor; [intros ???; done|intros ???; done|done]|by constructor].
  - assert (Hs : (∃ now delay, x = Simulate now delay) → asserts = true → result_ c = None).
    { intros (now & delay & ->) Ha. destruct (result_ c) eqn:Hr; [|done].
      simpl in Hrun. rewrite simulate_asserts in Hrun; [done|done|]. simpl. by rewrite Hr. }
    pose proof (run_ok fuel x c Hs IH w t) as Hwp. rewrite Hrun in Hwp. apply Hwp.
    intros (now & delay & ->). by eapply Hsim.
Qed.

(** C38: in a build that checks its assertions, a call made in a reachable state fails one
    exactly if it is [simulate] and there already is a position; every other call, and
    [simulate] without a position, fails none.  The assertions are all those of
    [Consensus.h] (a position to close, establish, update, dispute and vote with, none when
    the ledger closes; a set that arrives is not our own; a disputed transaction is in exactly
    one of the two sets; a wrong ledger is another one) and that of [ConsensusResult] (our
    position is our set). *)
Theorem consensus_asserts s fuel x :
  asserts = true → reachable s →
  run fuel x s = Asserted ↔ (∃ now delay, x = Simulate now delay) ∧ is_Some (result_ (cs s)).
Proof.
  intros Ha Hs%reachable_full. split.
  - intros Hrun. destruct (decide ((∃ now delay, x = Simulate now delay) ∧ is_Some (result_ (cs s)))) as [|Hnot]; [done|].
    exfalso. destruct s as [w c t]. pose proof (run_ok fuel x c) as Hwp. cbn [cs] in *.
    specialize (Hwp ltac:(intros Hx _; apply eq_None_not_Some; tauto) Hs w t). by rewrite Hrun in Hwp.
  - intros [(now & delay & ->) Hr]. by apply simulate_asserts.
Qed.

(** a peer is heard only for the ledger we work on, under its own identity, and
    never again in the round once it has bowed out. *)
Theorem consensus_peers s k p :
  reachable s → currPeerPositions_ (cs s) !! k = Some p →
  nodeID p = k ∧ prevLedger p = prevLedgerID_ (cs s) ∧ isBowOut p = false ∧ k ∉ deadNodes_ (cs s).
Proof. intros [[Hp _ _] _]%reachable_full. apply Hp. Qed.

(** C15: the disputes are exact.  Every transaction on which a peer's known set
    differs from ours is disputed; on every dispute each peer with a known set
    votes as its set says, we vote as our set says, the counters are the numbers
    of votes, and nobody votes who is not currently proposing. *)
Theorem disputes_exact s r :
  reachable s → result_ (cs s) = Some r →
  (∀ k p set t, currPeerPositions_ (cs s) !! k = Some p →
    acquired_ (cs s) !! position p = Some set →
    ts_exists set t ≠ ts_exists (txns r) t → is_Some (disputes r !! t)) ∧
  ∀ t d, disputes r !! t = Some d →
    tx_id (tx_ d) = t ∧ ourVote_ d = ts_exists (txns r) t ∧
    yays_ d = tally true (votes_ d) ∧ nays_ d = tally false (votes_ d) ∧
    (∀ k, is_Some (votes_ d !! k) → is_Some (currPeerPositions_ (cs s) !! k)) ∧
    (∀ k p set, currPeerPositions_ (cs s) !! k = Some p →
      acquired_ (cs s) !! position p = Some set → votes_ d !! k = Some (ts_exists set t)).
Proof.
  intros [[_ Hs Hres] _]%reachable_full Hr. destruct (Hres r Hr) as [_ _ Hd Hcmp Hv]. split.
  - intros k p set t Hk Hset Hne. destruct (Hv k p set Hk Hset) as [Hin _]; [by intros []|].
    apply (Hcmp set); [by rewrite (Hs _ _ Hset)|done|by intros []].
  - intros t d Ht. destruct (Hd t d Ht) as (Htx & [Hy Hn] & Ho & Hk). split_and!; try done.
    intros k p set Hkp Hset. destruct (Hv k p set Hkp Hset) as [_ Hall]; [by intros []|]. by apply Hall.
Qed.

Lemma at_position_disjoint id id' peers :
  id ≠ id' → at_position id peers + at_position id' peers ≤ Z.of_nat (size peers).
Proof.
  intros Hne. unfold at_position. rewrite <- Nat2Z.inj_add. apply Nat2Z.inj_le.
  assert (Hd : filter (λ it, position it.2 = id) peers ##ₘ filter (λ it, position it.2 = id') peers).
  { apply map_disjoint_spec. intros k p p' [Hp Hid]%map_lookup_filter_Some [Hp' Hid']%map_lookup_filter_Some.
    simpl in *. congruence. }
  rewrite <- map_size_disj_union by done. apply map_subseteq_size.
  apply map_union_least; apply map_filter_subseteq.
Qed.

(** C1: a server on the network accepts a ledger only with consensus: the close time
    is agreed, the round lasted longer than the minimum, and either the required
    percentage of the proposers (with us, if we propose) was at our position, or
    the application reported that percentage of them to have finished.  With a
    percentage above one half, no other position had that support. *)
Theorem accept_sound s r :
  reachable s → ¬ standalone → phase_ (cs s) = accepted → result_ (cs s) = Some r →
  let peers := currPeerPositions_ (cs s) in
  let n := Z.of_nat (size peers) in
  let pct := minCONSENSUS_PCT (@parms W TxSet Tx _) in
  let us := bool_decide (mode_ (cs s) = proposing) in
  n < 2 ^ 32 → 50 < pct →
  haveCloseTimeConsensus_ (cs s) = true ∧
  ledgerMIN_CONSENSUS (@parms W TxSet Tx _) < dur_ (roundTime r) ∧
  ((state r = Yes ∧ enough pct (at_position (position (pos r)) peers) n us ∧
    ∀ id, id ≠ position (pos r) → 0 < n → ¬ enough pct (at_position id peers) n false) ∨
   (state r = MovedOn ∧ ∃ finished w w',
      proposersFinished (previousLedger_ (cs s)) (prevLedgerID_ (cs s)) w = (finished, w') ∧
      (in_u32 finished → enough pct finished n false))).
Proof.
  intros [_ [_ _ Hacc]]%reachable_full Hnot Hph Hr peers n pct us Hn Hpct.
  destruct (Hacc Hph r Hr) as [[? _]|(Hct & Hmin & _ & _ & Hst)]; [done|].
  split_and!; [done..|]. assert (Hn' : in_u32 n) by (unfold in_u32, n; lia).
  assert (Ha : in_u32 (at_position (position (pos r)) peers)).
  { pose proof (map_subseteq_size _ _ (map_filter_subseteq (λ it, position it.2 = position (pos r)) peers)).
    unfold in_u32, at_position, n in *. lia. }
  destruct Hst as [[Hst Hyes]|(Hst & f & w & w' & Hf & Hyes)]; [left|right].
  - fold peers n pct us in Hyes. apply checkConsensusReached_spec in Hyes; [|done..]. split_and!; try done.
    intros id Hid Hpos [?|Hother]; [lia|]. destruct Hyes as [?|Hyes]; [lia|].
    pose proof (at_position_disjoint id _ peers Hid). fold n in H0.
    unfold self in *. destruct us; nia.
  - split; [done|]. exists f, w, w'. split; [done|]. intros Hfu. by apply checkConsensusReached_spec.
Qed.

(** C39: the timer returns.  With an application that sticks to the ledger it named,
    [timerEntry] called in a reachable state never needs more than two levels of
    the recursion through [checkLedger] and [startRoundInternal]. *)
Theorem timerEntry_total `{!SteadyAdaptor W TxSet Tx} now s :
  reachable s → ∃ s', timerEntry 2 now s = Done ((), s') ∧ reachable s'.
Proof.
  intros Hs. pose proof (reachable_full s Hs) as Hf. destruct s as [w c t].
  pose proof (timerEntry_returns 0 now _ Hf w t) as Hret. pose proof (timerEntry_ok 2 now _ Hf w t) as Hwp.
  cbn [cs] in *. destruct (timerEntry 2 now (mkSt w c t)) as [[[] s']| |] eqn:E; [|done..]. exists s'. split; [done|].
  by apply (reach_call _ 2 (TimerEntry now) s' Hs).
Qed.
End Inv.

(** ** An instance: sets of numbers as transaction sets and an application whose clock
    advances by three seconds at every reading. *)

Module Sample.
#[export] Instance ops : TxSetOps (gset Z) Z := {|
  tx_id t := t;
  ts_id s := Zpos (encode (elements s));
  ts_exists s t := bool_decide (t ∈ s);
  ts_find s t := if decide (t ∈ s) then Some t else None;
  ts_compare s s' := ((λ t, (t, true)) <$> elements (s ∖ s')) ++ ((λ t, (t, false)) <$> elements (s' ∖ s));
  ts_insert s t := {[ t ]} ∪ s;
  ts_erase s t := s ∖ {[ t ]} |}.

#[export] Instance laws : TxSetLaws (gset Z) Z.
Proof.
  constructor.
  - intros s s' [= He%encode_inj] t. simpl. apply bool_decide_ext.
    by rewrite <- !elem_of_elements, He.
  - intros s t Ht%bool_decide_eq_true. exists t. simpl. by rewrite decide_True.
  - intros s t Ht%bool_decide_eq_false. simpl. by rewrite decide_False.
  - intros s s' t b. simpl. rewrite elem_of_app, !list_elem_of_fmap. split.
    + intros [(x & [= -> ->] & Hx)|(x & [= -> ->] & Hx)];
        rewrite elem_of_elements, elem_of_difference in Hx; destruct Hx as [H1 H2].
      * by rewrite bool_decide_true, bool_decide_false by done.
      * by rewrite bool_decide_false, bool_decide_true by done.
    + intros [Hne ->]. destruct (decide (t ∈ s)) as [Hs|Hs], (decide (t ∈ s')) as [Hs'|Hs'];
        rewrite ?(bool_decide_true _ Hs), ?(bool_decide_false _ Hs),
          ?(bool_decide_true _ Hs'), ?(bool_decide_false _ Hs') in *; try done.
      * left. exists t. split; [done|]. by rewrite elem_of_elements, elem_of_difference.
      * right. exists t. split; [done|]. by rewrite elem_of_elements, elem_of_difference.
  - intros s tx t. simpl. rewrite <- bool_decide_or. apply bool_decide_ext.
    by rewrite elem_of_union, elem_of_singleton.
  - intros s t' t. simpl. rewrite <- bool_decide_not, <- bool_decide_and. apply bool_decide_ext.
    rewrite elem_of_difference, elem_of_singleton. tauto.
Qed.

Definition ledger (id : Z) : CxLedger := mkLedger id 5 30 true 100 70.
Definition proposal (set : gset Z) (now seq node : Z) : ConsensusProposal :=
  mkProposal 1 (ts_id set) now now seq node.

#[export] Instance adaptor : Adaptor Z (gset Z) Z := {|
  parms := defaultParms;
  clock_now w := (w, w + 3000000000);
  acquireLedger id w := (Some (ledger id), w);
  acquireTxSet id w := (None, w);
  hasOpenTransactions w := (true, w);
  proposersValidated id w := (0, w);
  proposersFinished l id w := (0, w);
  getPrevLedger id l m w := (id, w);
  onClose l now m w := (({[ 7 ]}, proposal {[ 7 ]} now 0 99), w);
  notify e w := w |}.

#[export] Instance adaptor_laws : AdaptorLaws Z (gset Z) Z.
Proof. constructor. by intros l now m w txns pos w' [= <- <- <-]. Qed.

#[export] Instance steady : SteadyAdaptor Z (gset Z) Z.
Proof. constructor; [by intros id w l w' [= <- <-]|done]. Qed.

#[export] Instance order : HashOrder := {| hash_order _ _ _ _ m := map_to_list m; hash_order_perm _ _ _ _ m := reflexivity _ |}.

#[export] Instance checked : Build := {| asserts := true |}.

Definition start : St Z (gset Z) Z := mkSt 0 (initial (mkTimer 0 0) 0 (ledger 0)) [].

Fixpoint run_all (l : list (@call (gset Z))) (s : St Z (gset Z) Z) : option (St Z (gset Z) Z) :=
  match l with
  | [] => Some s
  | x :: l => match run 2 x s with Done (_, s') => run_all l s' | _ => None end
  end.

Lemma run_all_reachable l s s' :
  reachable False s → Forall (λ x, ∀ now delay, x ≠ Simulate now delay) l →
  run_all l s = Some s' → reachable False s'.
Proof.
  intros Hs Hl. revert s Hs. induction Hl as [|x l Hx Hl IH]; intros s Hs; simpl; [by intros [= <-]|].
  destruct (run 2 x s) as [[[] s1]| |] eqn:E; [|done..]. apply IH.
  apply (reach_call False s 2 x s1 Hs); [|done]. intros now delay Heq. by destruct (Hx now delay).
Qed.

(** A peer proposes one transaction more than we do, and later comes round. *)
Definition disputed_calls : list (@call (gset Z)) :=
  [StartRound 200 1 (ledger 1) ∅ true; PeerProposal 201 (proposal {[ 7; 8 ]} 201 0 5);
   GotTxSet 201 {[ 7; 8 ]}; TimerEntry 202; TimerEntry 203].
Definition accepted_calls : list (@call (gset Z)) :=
  disputed_calls ++ [PeerProposal 204 (proposal {[ 7 ]} 204 1 5); TimerEntry 205].

Definition disputed_state : St Z (gset Z) Z := default start (run_all disputed_calls start).
Definition accepted_state : St Z (gset Z) Z := default start (run_all accepted_calls start).

Lemma disputed_reachable : reachable False disputed_state.
Proof.
  apply (run_all_reachable disputed_calls start); [apply reach_initial| |vm_compute; reflexivity].
  repeat constructor; done.
Qed.

Lemma accepted_reachable : reachable False accepted_state.
Proof.
  apply (run_all_reachable accepted_calls start); [apply reach_initial| |vm_compute; reflexivity].
  repeat constructor; done.
Qed.

Definition result_of (s : St Z (gset Z) Z) : ConsensusResult (gset Z) Z :=
  default (mkResult ∅ (proposal ∅ 0 0 0) ∅ ∅ (mkTimer 0 0) No 0) (result_ (cs s)).

Lemma consensus_asserts_witness :
  run 2 (TimerEntry 204) disputed_state ≠ Asserted ∧ run 2 (Simulate 204 None) disputed_state = Asserted.
Proof.
  split.
  - intros H. apply (consensus_asserts (build := checked) False disputed_state 2 (TimerEntry 204) (eq_refl true) disputed_reachable) in H
      as [(now & delay & Hx) _]. discriminate Hx.
  - apply (consensus_asserts (build := checked) False disputed_state 2 (Simulate 204 None) (eq_refl true) disputed_reachable).
    split; [by exists 204, None|]. exists (result_of disputed_state). vm_compute. reflexivity.
Defined.

Lemma consensus_peers_witness :
  nodeID (proposal {[ 7; 8 ]} 201 0 5) = 5 ∧ 5 ∉ deadNodes_ (cs disputed_state).
Proof.
  destruct (consensus_peers False disputed_state 5 (proposal {[ 7; 8 ]} 201 0 5) disputed_reachable)
    as (H1 & _ & _ & H2); [vm_compute; reflexivity|]. split; [exact H1|exact H2].
Defined.

Lemma disputes_exact_witness : is_Some (disputes (result_of disputed_state) !! 8).
Proof.
  destruct (disputes_exact False disputed_state (result_of disputed_state) disputed_reachable) as [H _];
    [vm_compute; reflexivity|].
  apply (H 5 (proposal {[ 7; 8 ]} 201 0 5) {[ 7; 8 ]} 8);
    [vm_compute; reflexivity|vm_compute; reflexivity|vm_compute; discriminate].
Defined.

Lemma accept_sound_witness :
  phase_ (cs accepted_state) = accepted ∧ haveCloseTimeConsensus_ (cs accepted_state) = true.
Proof.
  assert (Hph : phase_ (cs accepted_state) = accepted) by (vm_compute; reflexivity).
  split; [exact Hph|].
  apply (accept_sound False accepted_state (result_of accepted_state) accepted_reachable (λ f, f) Hph);
    vm_compute; reflexivity.
Defined.

Lemma close_time_choice_witness :
  let c := cs disputed_state in
  let cutoff := u32 (now_ c - proposeFRESHNESS defaultParms) in
  currPeerPositions_ (foldl (count_peer cutoff) (c, ∅) (hash_order (currPeerPositions_ c))).1 =
    fresh_peers cutoff c.
Proof.
  pose proof (close_time_choice (W := Z) (cs disputed_state) (result_of disputed_state) defaultParms_ramping) as H.
  cbv zeta in *. change (@parms Z (gset Z) Z adaptor) with defaultParms in H.
  destruct (foldl _ _ _) as [c' counted], (choose_close_time c' _ counted) as [t have].
  apply H. vm_compute. split; [discriminate|reflexivity].
Defined.

Lemma timerEntry_total_witness :
  ∃ s', timerEntry 2 204 disputed_state = Done ((), s') ∧ reachable False s'.
Proof. exact (timerEntry_total False 204 disputed_state disputed_reachable). Defined.
End Sample.
