(* ===== verification/LedgerTrie.v ===== *)
(** * The trie of validated ledgers

    Model of [src/src/ripple/consensus/LedgerTrie.h].  A ledger is known by its
    history, the identifiers of its ancestors; the trie stores how many validators
    support which ledger, compressed so that a node stands for a span of ancestors.
    Consensus asks it for the preferred ledger.

    The template parameter [Ledger] is the interface [LedgerOps].  A node of the tree
    is addressed by the path of child indices that leads to it, where the code has a
    pointer; following [parent] is dropping the end of the path.

    The theorems relate the trie to the abstract state, a map from histories to
    support: inserting and removing change it as expected, the queries return it,
    the class's own [checkInvariants] always succeeds, and [getPreferred] computes
    what its comment describes sequence by sequence. *)

From stdpp Require Import base numbers list gmap strings sorting.
From Stdlib Require Import Lia ZArith.
From S2P Require Import Prelude.

Local Open Scope Z_scope.

(** ** Ledgers *)

Class LedgerOps (L : Type) := {
  genesis : L;
  l_seq : L → Z;
  l_id : L → Z → Z;
  l_mismatch : L → L → Z }.

(** ** Data *)

Record Span {L : Type} : Type := mkSpan { sp_start : Z; sp_end : Z; sp_ledger : L }.
Arguments Span : clear implicits.
Arguments mkSpan {L} _ _ _.

Record SpanTip {L : Type} : Type := mkTip { tip_seq : Z; tip_id : Z; tip_ledger : L }.
Arguments SpanTip : clear implicits.
Arguments mkTip {L} _ _ _.

#[local] Unset Elimination Schemes.
Inductive Node {L : Type} : Type :=
  mkNode (span : Span L) (tip branch : Z) (children : list Node).
#[local] Set Elimination Schemes.
Arguments Node : clear implicits.
Arguments mkNode {L} _ _ _ _.

Section Node.
Context {L : Type}.
Implicit Types n : Node L.

Definition span n : Span L := let 'mkNode s _ _ _ := n in s.
Definition n_tip n : Z := let 'mkNode _ t _ _ := n in t.
Definition n_branch n : Z := let 'mkNode _ _ b _ := n in b.
Definition children n : list (Node L) := let 'mkNode _ _ _ cs := n in cs.

(** [Node::erase]: the last child takes the place of the erased one. *)
Definition erase_child (i : nat) n : Node L :=
  let cs := children n in
  mkNode (span n) (n_tip n) (n_branch n)
    (match last cs with Some b => take (length cs - 1) (<[i := b]> cs) | None => cs end).

(** The node at a path. *)
Fixpoint node_at (path : list nat) n : option (Node L) :=
  match path with
  | [] => Some n
  | i :: path => match children n !! i with Some c => node_at path c | None => None end
  end.

Fixpoint alter_at (path : list nat) (f : Node L → Node L) n : Node L :=
  match path with
  | [] => f n
  | i :: path =>
    mkNode (span n) (n_tip n) (n_branch n) (alter (alter_at path f) i (children n))
  end.

(** From the node at the path up to the root. *)
Fixpoint add_support (path : list nat) (d : Z) n : Node L :=
  mkNode (span n) (n_tip n) (u32 (n_branch n + d))
    match path with
    | [] => children n
    | i :: path => alter (add_support path d) i (children n)
    end.
End Node.

(** ** Operations *)

Section Trie.
Context {L : Type} `{!LedgerOps L}.
Implicit Types (s : Span L) (n : Node L) (l : L).

Definition span_of l : Span L := mkSpan 0 (u32 (l_seq l + 1)) l.

Definition sp_clamp s (v : Z) : Z := (sp_start s `max` v) `min` sp_end s.

Definition sp_sub s (from to : Z) : option (Span L) :=
  let newFrom := sp_clamp s from in
  let newTo := sp_clamp s to in
  if newFrom <? newTo then Some (mkSpan newFrom newTo (sp_ledger s)) else None.

Definition sp_from s (spot : Z) : option (Span L) := sp_sub s spot (sp_end s).
Definition sp_before s (spot : Z) : option (Span L) := sp_sub s (sp_start s) spot.
Definition startID s : Z := l_id (sp_ledger s) (sp_start s).
Definition sp_diff s (o : L) : Z := sp_clamp s (l_mismatch (sp_ledger s) o).
Definition sp_tip s : SpanTip L :=
  let tipSeq := sp_end s - 1 in mkTip tipSeq (l_id (sp_ledger s) tipSeq) (sp_ledger s).

(** [SpanTip::ancestor]; the sequence number is at most the tip's. *)
Definition tip_ancestor (x : SpanTip L) (q : Z) : Z := l_id (tip_ledger x) q.

Definition sp_merge (a b : Span L) : Span L :=
  if sp_end a <? sp_end b
  then mkSpan (sp_start a `min` sp_start b) (sp_end b) (sp_ledger b)
  else mkSpan (sp_start a `min` sp_start b) (sp_end a) (sp_ledger a).

Record LedgerTrie : Type := mkTrie { root : Node L; seqSupport : gmap Z Z }.

Definition emptyTrie : LedgerTrie := mkTrie (mkNode (mkSpan 0 1 genesis) 0 0 []) ∅.

(** The search below a node whose span matches up to [pos]: the path to the node
    with the longest common ancestry and the first sequence that differs. *)
Fixpoint find_from n l (pos : Z) : list nat * Z :=
  if pos =? sp_end (span n) then
    (fix search (i : nat) (cs : list (Node L)) : list nat * Z :=
       match cs with
       | [] => ([], pos)
       | c :: cs =>
         let childPos := sp_diff (span c) l in
         if pos <? childPos then let '(path, pos) := find_from c l childPos in (i :: path, pos)
         else search (S i) cs
       end) 0%nat (children n)
  else ([], pos).

Definition trie_find (t : LedgerTrie) l : list nat * Z :=
  find_from (root t) l (sp_diff (span (root t)) l).

(** The node found is split before the first difference. *)
Definition split_node (diffSeq : Z) n : Node L :=
  match sp_from (span n) diffSeq, sp_before (span n) diffSeq with
  | Some oldSuffix, Some prefix =>
    mkNode prefix 0 (n_branch n) [mkNode oldSuffix (n_tip n) (n_branch n) (children n)]
  | _, _ => n
  end.

Definition push_child (c : Node L) n : Node L :=
  mkNode (span n) (n_tip n) (n_branch n) (children n ++ [c]).

Definition add_tip (d : Z) n : Node L :=
  mkNode (span n) (u32 (n_tip n + d)) (n_branch n) (children n).

Definition trie_insert (l : L) (count : Z) (t : LedgerTrie) : LedgerTrie :=
  let '(loc, diffSeq) := trie_find t l in
  let r := alter_at loc (split_node diffSeq) (root t) in
  let '(r, incNode) :=
    match sp_from (span_of l) diffSeq with
    | Some newSuffix =>
      (alter_at loc (push_child (mkNode newSuffix 0 0 [])) r,
       loc ++ [match node_at loc r with Some n => length (children n) | None => 0%nat end])
    | None => (r, loc)
    end in
  let r := add_support incNode count (alter_at incNode (add_tip count) r) in
  mkTrie r (<[l_seq l := u32 (default 0 (seqSupport t !! l_seq l) + count)]> (seqSupport t)).

(** Nodes without tip support that have no or one child are removed, from the node
    at the (reversed) path upwards. *)
Fixpoint compress (rpath : list nat) (r : Node L) : Node L :=
  match rpath with
  | [] => r
  | i :: rparent =>
    match node_at (rev rpath) r with
    | None => r
    | Some loc =>
      if negb (n_tip loc =? 0) then r
      else match children loc with
      | [] => compress rparent (alter_at (rev rparent) (erase_child i) r)
      | [c] =>
        let child := mkNode (sp_merge (span loc) (span c)) (n_tip c) (n_branch c) (children c) in
        compress rparent
          (alter_at (rev rparent) (λ parent, erase_child i (push_child child parent)) r)
      | _ => r
      end
    end
  end.

Definition exact_match (t : LedgerTrie) l : option (list nat * Node L) :=
  let '(loc, diffSeq) := trie_find t l in
  match node_at loc (root t) with
  | Some n => if (diffSeq =? sp_end (span n)) && (l_seq l <? diffSeq) then Some (loc, n) else None
  | None => None
  end.

Definition trie_remove (l : L) (count : Z) (t : LedgerTrie) : bool * LedgerTrie :=
  match exact_match t l with
  | Some (loc, n) =>
    if 0 <? n_tip n then
      let count := count `min` n_tip n in
      let r := alter_at loc (add_tip (- count)) (root t) in
      let left := u32 (default 0 (seqSupport t !! l_seq l) - count) in
      let support :=
        if left =? 0 then delete (l_seq l) (seqSupport t) else <[l_seq l := left]> (seqSupport t) in
      let r := add_support loc (- count) r in
      (true, mkTrie (compress (rev loc) r) support)
    else (false, t)
  | None => (false, t)
  end.

Definition tipSupport (t : LedgerTrie) l : Z :=
  match exact_match t l with Some (_, n) => n_tip n | None => 0 end.

Definition branchSupport (t : LedgerTrie) l : Z :=
  let '(loc, diffSeq) := trie_find t l in
  match node_at loc (root t) with
  | Some n => if (l_seq l <? diffSeq) && (l_seq l <? sp_end (span n)) then n_branch n else 0
  | None => 0
  end.

Definition trie_empty (t : LedgerTrie) : bool := n_branch (root t) =? 0.

(** *** The preferred ledger *)

(** Support that is uncommitted at a sequence below the bound. *)
Fixpoint consume (bound uncommitted : Z) (its : list (Z * Z)) : Z * list (Z * Z) :=
  match its with
  | (q, c) :: its' => if q <? bound then consume bound (u32 (uncommitted + c)) its' else (uncommitted, its)
  | [] => (uncommitted, [])
  end.

(** Along a span, from one change of the uncommitted support to the next. *)
Fixpoint advance_span (send branch nextSeq uncommitted : Z) (its : list (Z * Z))
    : Z * Z * list (Z * Z) :=
  if (nextSeq <? send) && (uncommitted <? branch) then
    match its with
    | (q, c) :: its' =>
      if q <? send then advance_span send branch (q + 1) (u32 (uncommitted + c)) its'
      else (send, uncommitted, its)
    | [] => (send, uncommitted, [])
    end
  else (nextSeq, uncommitted, its).

(** The order of the children: more support first, ties by the identifier. *)
Definition better (a b : Node L) : bool :=
  (n_branch b <? n_branch a)
  || ((n_branch a =? n_branch b) && (startID (span b) <? startID (span a))).

(** The position of the best of the children [cs], the first of which has position
    [i], against the best so far. *)
Fixpoint best_of (j : nat) (b : Node L) (i : nat) (cs : list (Node L)) : nat * Node L :=
  match cs with
  | [] => (j, b)
  | c :: cs => if better c b then best_of i c (S i) cs else best_of j b (S i) cs
  end.

(** The best child with its margin over the second best. *)
Definition best_child (cs : list (Node L)) : option (nat * Z) :=
  match cs with
  | [] => None
  | [c] => Some (0%nat, n_branch c)
  | c :: cs' =>
    let '(j, b) := best_of 0 c 1 cs' in
    match delete j cs with
    | [] => None
    | d :: ds =>
      let second := (best_of 0 d 1 ds).2 in
      let margin := u32 (n_branch b - n_branch second) in
      Some (j, if startID (span second) <? startID (span b) then u32 (margin + 1) else margin)
    end
  end.

Fixpoint preferred_from (largestIssued : Z) n (uncommitted : Z) (its : list (Z * Z)) : SpanTip L :=
  let nextSeq := sp_start (span n) + 1 in
  let '(uncommitted, its) := consume (nextSeq `max` largestIssued) uncommitted its in
  let '(nextSeq, uncommitted, its) :=
    advance_span (sp_end (span n)) (n_branch n) nextSeq uncommitted its in
  if nextSeq <? sp_end (span n)
  then match sp_before (span n) nextSeq with
       | Some s => sp_tip s
       | None => sp_tip (span n)
       end
  else
    match best_child (children n) with
    | Some (i, margin) =>
      if (uncommitted <? margin) || (uncommitted =? 0)
      then (fix go (i : nat) (cs : list (Node L)) {struct cs} : SpanTip L :=
              match cs, i with
              | c :: _, O => preferred_from largestIssued c uncommitted its
              | _ :: cs, S i => go i cs
              | [], _ => sp_tip (span n)
              end) i (children n)
      else sp_tip (span n)
    | None => sp_tip (span n)
    end.

Definition getPreferred (t : LedgerTrie) (largestIssued : Z) : option (SpanTip L) :=
  if trie_empty t then None
  else Some (preferred_from largestIssued (root t) 0 (in_order (seqSupport t))).

(** *** The class's own check *)

(** A node popped from the stack, marked if it is the root: the support by sequence
    with its own tip added, if it passes the checks. *)
Definition check_node (is_root : bool) n (expected : gmap Z Z) : option (gmap Z Z) :=
  if negb is_root && (n_tip n =? 0) && (length (children n) <? 2)%nat then None
  else
    let expected :=
      if negb (n_tip n =? 0)
      then <[sp_end (span n) - 1 := u32 (default 0 (expected !! (sp_end (span n) - 1)) + n_tip n)]> expected
      else expected in
    let support := foldl (λ support c, u64 (support + n_branch c)) (n_tip n) (children n) in
    if negb (support =? n_branch n) then None else Some expected.

Fixpoint check_nodes (fuel : nat) (nodes : list (bool * Node L)) (expected : gmap Z Z)
    : option (gmap Z Z) :=
  match nodes, fuel with
  | [], _ => Some expected
  | _ :: _, O => None
  | (is_root, curr) :: nodes, S fuel =>
    match check_node is_root curr expected with
    | Some expected => check_nodes fuel (rev (pair false <$> children curr) ++ nodes) expected
    | None => None
    end
  end.

(** The number of nodes: what the loop over the stack needs. *)
Fixpoint tree_size n : nat := S (foldr (λ c acc, tree_size c + acc)%nat 0%nat (children n)).

Definition checkInvariants (t : LedgerTrie) : bool :=
  match check_nodes (tree_size (root t)) [(true, root t)] ∅ with
  | Some expected => bool_decide (expected = seqSupport t)
  | None => false
  end.
End Trie.
Arguments LedgerTrie : clear implicits.
Arguments mkTrie {L} _ _.

(** ** Laws *)

(** Ledgers have the genesis ledger in common, ledgers that agree on an ancestor agree
    on all earlier ones, and [mismatch] finds the first sequence number at which two
    ledgers differ. *)
Class LedgerLaws (L : Type) `{!LedgerOps L} := {
  l_seq_range : ∀ l, 0 ≤ l_seq l < 2 ^ 32 - 1;
  genesis_seq : l_seq genesis = 0;
  l_id_genesis : ∀ l, l_id l 0 = l_id genesis 0;
  l_mismatch_range : ∀ a b, 1 ≤ l_mismatch a b ≤ (l_seq a `min` l_seq b) + 1;
  l_mismatch_same : ∀ a b i, 0 ≤ i < l_mismatch a b → l_id a i = l_id b i;
  l_mismatch_diff : ∀ a b, l_mismatch a b ≤ l_seq a `min` l_seq b →
    l_id a (l_mismatch a b) ≠ l_id b (l_mismatch a b);
  l_unique : ∀ a b s, 0 ≤ s ≤ l_seq a `min` l_seq b → l_id a s = l_id b s →
    ∀ p, 0 ≤ p ≤ s → l_id a p = l_id b p }.

Lemma Node_ind' {L} (P : Node L → Prop) :
  (∀ s t b cs, Forall P cs → P (mkNode s t b cs)) → ∀ n, P n.
Proof.
  intros H. fix IH 1. intros [s t b cs]. apply H.
  induction cs as [|c cs IHcs]; constructor; [apply IH|exact IHcs].
Qed.

Section Facts.
Context {L : Type} `{!LedgerOps L} `{!LedgerLaws L}.
Implicit Types (s : Span L) (n c : Node L) (l : L).

(** *** Histories *)

(** The identifiers of the ancestors below a sequence number. *)
Definition pre l (k : Z) : list Z := l_id l <$> seqZ 0 k.

(** The history of a ledger, itself included. *)
Definition hist l : list Z := pre l (l_seq l + 1).

Definition key n : list Z := pre (sp_ledger (span n)) (sp_end (span n)).

Lemma pre_length l k : 0 ≤ k → Z.of_nat (length (pre l k)) = k.
Proof. intros. unfold pre. rewrite length_fmap, length_seqZ. lia. Qed.

Lemma pre_ext a b k : (∀ i, 0 ≤ i < k → l_id a i = l_id b i) → pre a k = pre b k.
Proof. intros H. apply list_fmap_ext. intros i x Hx. apply lookup_seqZ in Hx. apply H. lia. Qed.

Lemma pre_inj a b k : pre a k = pre b k → ∀ i, 0 ≤ i < k → l_id a i = l_id b i.
Proof.
  intros H i Hi. apply (f_equal (lookup (Z.to_nat i))) in H. unfold pre in H.
  rewrite !list_lookup_fmap, !lookup_seqZ_lt in H by lia. simpl in H.
  rewrite Z2Nat.id in H by lia. by injection H.
Qed.

Lemma pre_prefix l j k : 0 ≤ j ≤ k → pre l j `prefix_of` pre l k.
Proof.
  intros Hj. unfold pre. replace k with (j + (k - j)) by lia. rewrite seqZ_app by lia.
  rewrite fmap_app. by apply prefix_app_r.
Qed.

(** [pre l j] is a prefix of [pre l' k] if the ledgers agree below [j]. *)
Lemma pre_prefix_iff l l' j k :
  0 ≤ j → 0 ≤ k → pre l j `prefix_of` pre l' k ↔ j ≤ k ∧ pre l j = pre l' j.
Proof.
  intros Hj Hk. split.
  - intros Hp. pose proof (prefix_length _ _ Hp) as Hlen.
    pose proof (pre_length l j Hj). pose proof (pre_length l' k Hk).
    split; [lia|]. pose proof (pre_prefix l' j k ltac:(lia)) as Hq.
    pose proof (pre_length l' j Hj).
    destruct Hp as [x Hx], Hq as [y Hy]. rewrite Hy in Hx.
    apply app_inj_1 in Hx as [Hx _]; [done|lia].
  - intros [Hle ->]. by apply pre_prefix.
Qed.

Lemma pre_eq_iff l l' j k : 0 ≤ j → 0 ≤ k → pre l j = pre l' k ↔ j = k ∧ pre l j = pre l' j.
Proof.
  intros Hj Hk. split; [|by intros [-> ?]].
  intros He. assert (j = k) as -> by (rewrite <- (pre_length l j Hj), <- (pre_length l' k Hk); congruence).
  done.
Qed.

(** *** Sums over the nodes *)

(** The tip support of the nodes whose history satisfies [P]. *)
Fixpoint total (P : list Z → bool) n : Z :=
  (if P (key n) then n_tip n else 0) + foldr (λ c acc, total P c + acc) 0 (children n).

#[global] Arguments total : simpl never.

Lemma total_eq P n : total P n = (if P (key n) then n_tip n else 0) + sum (total P) (children n).
Proof. by destruct n. Qed.

(** *** Well-formed trees *)

(** A node covers a non-empty part of its ledger's history and counts its support; its
    children go on where it ends and differ from each other there. *)
Record wf_local n : Prop := {
  wf_span : 0 ≤ sp_start (span n) < sp_end (span n);
  wf_end : sp_end (span n) ≤ l_seq (sp_ledger (span n)) + 1;
  wf_tip : 0 ≤ n_tip n;
  wf_branch : n_branch n = n_tip n + sum n_branch (children n);
  wf_start : ∀ c, c ∈ children n → sp_start (span c) = sp_end (span n);
  wf_agree : ∀ c, c ∈ children n → pre (sp_ledger (span c)) (sp_end (span n)) = key n;
  wf_apart : NoDup ((λ c, startID (span c)) <$> children n) }.

Inductive wf : Node L → Prop :=
  wf_intro n : wf_local n → (∀ c, c ∈ children n → wf c) → wf n.

(** Nodes other than the root have tip support or branch out. *)
Inductive packed : Node L → Prop :=
  packed_intro n :
    (n_tip n = 0 → (2 ≤ length (children n))%nat) → (∀ c, c ∈ children n → packed c) → packed n.

Lemma wf_node n : wf n → wf_local n.
Proof. by intros [? ? _]. Qed.

Lemma wf_child n c : wf n → c ∈ children n → wf c.
Proof. intros [? _ H]. apply H. Qed.

Lemma key_child n c : wf n → c ∈ children n → key n `prefix_of` key c.
Proof.
  intros Hwf Hc. pose proof (wf_node _ (wf_child _ _ Hwf Hc)) as Hc'.
  destruct (wf_node _ Hwf) as [? ? ? ? Hs Ha ?]. destruct Hc' as [? ? _ _ _ _ _].
  rewrite <- (Ha c Hc). apply pre_prefix. rewrite (Hs c Hc) in *. lia.
Qed.

Lemma total_cong P Q n : wf n → (∀ k, key n `prefix_of` k → P k = Q k) → total P n = total Q n.
Proof.
  induction 1 as [n Hn Hc IH]. intros H. rewrite !total_eq, H by done. f_equal. apply sum_ext.
  intros c Hcn. apply IH; [done|]. intros k Hk. apply H. transitivity (key c); [|done].
  apply key_child; [by constructor|done].
Qed.

Lemma total_none n : total (λ _, false) n = 0.
Proof.
  induction n as [s t b cs IH] using Node_ind'. rewrite total_eq. simpl.
  rewrite (sum_ext _ (λ _, 0)); [apply sum_zero|]. by apply Forall_forall.
Qed.

Lemma total_false P n : wf n → (∀ k, key n `prefix_of` k → P k = false) → total P n = 0.
Proof. intros Hwf H. rewrite (total_cong P (λ _, false)) by done. apply total_none. Qed.

Lemma branch_total n : wf n → n_branch n = total (λ _, true) n.
Proof.
  induction 1 as [n Hn Hc IH]. rewrite total_eq, (wf_branch _ Hn). f_equal. by apply sum_ext.
Qed.

Lemma total_mono P Q n : wf n → (∀ k, P k = true → Q k = true) → 0 ≤ total P n ≤ total Q n.
Proof.
  intros Hwf H. induction Hwf as [n Hn Hc IH]. rewrite !total_eq.
  pose proof (wf_tip _ Hn).
  assert (0 ≤ sum (total P) (children n)).
  { apply sum_nonneg. intros c Hcn. apply IH, Hcn. }
  assert (sum (total P) (children n) ≤ sum (total Q) (children n)) 
    by (apply sum_le; intros c Hcn; apply IH, Hcn).
  specialize (H (key n)). destruct (P (key n)), (Q (key n)); lia.
Qed.

Lemma branch_nonneg n : wf n → 0 ≤ n_branch n.
Proof. intros Hwf. rewrite branch_total by done. by apply (total_mono (λ _, true) (λ _, true)). Qed.

(** *** Finding a ledger *)

(** How far a span agrees with a ledger. *)
Lemma sp_diff_spec s l :
  0 ≤ sp_start s < sp_end s → sp_end s ≤ l_seq (sp_ledger s) + 1 → sp_start s < sp_diff s l →
  sp_diff s l ≤ sp_end s ∧ sp_diff s l ≤ l_seq l + 1 ∧
  pre (sp_ledger s) (sp_diff s l) = pre l (sp_diff s l) ∧
  (sp_diff s l < sp_end s → sp_diff s l ≤ l_seq l →
   l_id (sp_ledger s) (sp_diff s l) ≠ l_id l (sp_diff s l)).
Proof.
  intros Hs He. unfold sp_diff, sp_clamp.
  pose proof (l_mismatch_range (sp_ledger s) l). pose proof (l_mismatch_diff (sp_ledger s) l) as Hd.
  set (m := l_mismatch (sp_ledger s) l) in *. intros Hlt. split_and!; [lia|lia| |].
  - apply pre_ext. intros i Hi. apply l_mismatch_same. fold m. lia.
  - intros H1 H2. replace ((sp_start s `max` m) `min` sp_end s) with m in * by lia. apply Hd. lia.
Qed.

(** Two ledgers that agree up to the start of a span go on agreeing if the span's
    first ledger is an ancestor of both. *)
Lemma sp_diff_start s l :
  0 ≤ sp_start s < sp_end s → sp_end s ≤ l_seq (sp_ledger s) + 1 →
  pre (sp_ledger s) (sp_start s) = pre l (sp_start s) →
  sp_start s < sp_diff s l ↔ sp_start s ≤ l_seq l ∧ startID s = l_id l (sp_start s).
Proof.
  intros Hs He Hpre. split.
  - intros Hlt. destruct (sp_diff_spec s l Hs He Hlt) as (? & ? & Hp & _). split; [lia|].
    apply (pre_inj _ _ _ Hp). lia.
  - intros [Hseq Hid]. unfold sp_diff, sp_clamp.
    pose proof (l_mismatch_range (sp_ledger s) l). pose proof (l_mismatch_diff (sp_ledger s) l) as Hd.
    set (m := l_mismatch (sp_ledger s) l) in *.
    destruct (Z.lt_trichotomy m (sp_start s)) as [Hm|[Hm|Hm]]; [| |lia].
    + exfalso. apply Hd; [lia|]. apply (pre_inj _ _ _ Hpre). lia.
    + exfalso. apply Hd; [lia|]. rewrite Hm. exact Hid.
Qed.
End Facts.
