(* ===== verification/LedgerTrieSupport.v ===== *)
(** * The support a trie holds

    The trie of [LedgerTrie] implements a map from histories to support.  The file
    proves that the search finds the node for a ledger, that inserting and removing
    keep the tree well formed, change the support of one history and leave the others
    alone, and that every trie reached by these operations passes [checkInvariants]. *)

From stdpp Require Import base numbers list gmap strings sorting.
From Stdlib Require Import Lia ZArith.
From S2P Require Import Prelude LedgerTrie.

Local Open Scope Z_scope.

Section Find.
Context {L : Type} `{!LedgerOps L} `{!LedgerLaws L}.
Implicit Types (s : Span L) (n c : Node L) (l : L) (P : list Z → bool).

(** [P] holds for histories that begin with [h] only. *)
Definition within (h : list Z) P : Prop := ∀ k, P k = true → h `prefix_of` k.

Definition exactly l : list Z → bool := λ k, bool_decide (k = hist l).
Definition under l : list Z → bool := λ k, bool_decide (hist l `prefix_of` k).

Lemma within_exactly l : within (hist l) (exactly l).
Proof. intros k ->%bool_decide_eq_true. done. Qed.

Lemma within_under l : within (hist l) (under l).
Proof. by intros k ?%bool_decide_eq_true. Qed.

Lemma key_length n : wf n → Z.of_nat (length (key n)) = sp_end (span n).
Proof. intros H%wf_node. apply pre_length. destruct H. lia. Qed.

Lemma hist_length l : Z.of_nat (length (hist l)) = l_seq l + 1.
Proof. apply pre_length. pose proof (l_seq_range l). lia. Qed.

Lemma lookup_pre l k i : 0 ≤ i < k → pre l k !! Z.to_nat i = Some (l_id l i).
Proof.
  intros Hi. unfold pre. rewrite list_lookup_fmap, lookup_seqZ_lt by lia. simpl. do 2 f_equal. lia.
Qed.

Lemma lookup_hist l i : 0 ≤ i ≤ l_seq l → hist l !! Z.to_nat i = Some (l_id l i).
Proof. intros. apply lookup_pre. lia. Qed.

(** A history that differs from the node's ledger is not in the histories below. *)
Lemma total_disagree P n h i x :
  wf n → within h P → 0 ≤ i < sp_end (span n) → h !! Z.to_nat i = Some x →
  l_id (sp_ledger (span n)) i ≠ x → total P n = 0.
Proof.
  intros Hwf HP Hi Hx Hne. apply total_false; [done|]. intros k Hk.
  destruct (P k) eqn:E; [|done]. destruct Hne. apply HP in E.
  pose proof (lookup_pre (sp_ledger (span n)) _ i Hi) as H1.
  apply (prefix_lookup_Some _ _ _ _ H1) in Hk. apply (prefix_lookup_Some _ _ _ _ Hx) in E.
  congruence.
Qed.

(** Where the search for [l] stops: the node has the longest common ancestry, which
    ends before [q]. *)
Record located l (q : Z) n : Prop := {
  lo_wf : wf n;
  lo_range : sp_start (span n) < q ≤ sp_end (span n);
  lo_seq : q ≤ l_seq l + 1;
  lo_pre : pre (sp_ledger (span n)) q = pre l q;
  lo_diff : q < sp_end (span n) → q ≤ l_seq l → l_id (sp_ledger (span n)) q ≠ l_id l q;
  lo_child : q = sp_end (span n) → q ≤ l_seq l → ∀ c, c ∈ children n → startID (span c) ≠ l_id l q }.

Lemma located_other l q n P :
  located l q n → within (hist l) P → q ≤ l_seq l → total P n = 0.
Proof.
  intros [Hwf Hr Hs Hp Hd Hc] HP Hq. pose proof (wf_node _ Hwf) as Hn.
  destruct (decide (q = sp_end (span n))) as [E|NE].
  - rewrite total_eq, (sum_ext _ (λ _, 0)), sum_zero.
    + destruct (P (key n)) eqn:EP; [|done]. apply HP, prefix_length in EP.
      pose proof (key_length n Hwf). pose proof (hist_length l). lia.
    + intros c Hcn. pose proof (wf_child _ _ Hwf Hcn) as Hc'.
      pose proof (wf_span _ (wf_node _ Hc')) as Hsp. rewrite (wf_start _ Hn c Hcn) in Hsp.
      pose proof (wf_span _ Hn).
      apply (total_disagree P c (hist l) q (l_id l q)); [done|done|lia|apply lookup_hist; lia|].
      specialize (Hc E Hq c Hcn). unfold startID in Hc. by rewrite (wf_start _ Hn c Hcn), <- E in Hc.
  - pose proof (wf_span _ Hn).
    apply (total_disagree P n (hist l) q (l_id l q)); [done|done|lia|apply lookup_hist; lia|].
    apply Hd; [lia|done].
Qed.

Lemma located_key l q n : located l q n → l_seq l < q → hist l `prefix_of` key n.
Proof.
  intros [Hwf Hr Hs Hp _ _] Hq. unfold hist, key. replace (l_seq l + 1) with q by lia.
  rewrite <- Hp. apply pre_prefix. pose proof (wf_span _ (wf_node _ Hwf)). lia.
Qed.

Lemma located_under l q n :
  located l q n → total (under l) n = if l_seq l <? q then n_branch n else 0.
Proof.
  intros H. destruct (l_seq l <? q) eqn:E; [apply Z.ltb_lt in E|apply Z.ltb_ge in E].
  - rewrite branch_total by apply H. apply total_cong; [apply H|]. intros k Hk.
    apply bool_decide_eq_true. transitivity (key n); [by apply (located_key l q)|done].
  - by apply (located_other l q); [|apply within_under|].
Qed.

Lemma located_exactly l q n :
  located l q n →
  total (exactly l) n = if (q =? sp_end (span n)) && (l_seq l <? q) then n_tip n else 0.
Proof.
  intros H. destruct (l_seq l <? q) eqn:E; [apply Z.ltb_lt in E|apply Z.ltb_ge in E].
  2: { rewrite andb_false_r. by apply (located_other l q); [|apply within_exactly|]. }
  destruct H as [Hwf Hr Hs Hp _ _]. pose proof (wf_node _ Hwf) as Hn.
  rewrite total_eq, (sum_ext _ (λ _, 0)), sum_zero, andb_true_r, Z.add_0_r.
  - unfold exactly. destruct (Z.eqb_spec q (sp_end (span n))) as [->|NE].
    + rewrite bool_decide_eq_true_2; [done|]. unfold key, hist.
      replace (l_seq l + 1) with (sp_end (span n)) by lia. done.
    + rewrite bool_decide_eq_false_2; [done|]. intros Hk.
      apply (f_equal (Z.of_nat ∘ length)) in Hk. simpl in Hk.
      rewrite key_length, hist_length in Hk by done. lia.
  - intros c Hc. apply total_false; [by apply (wf_child n)|]. intros k Hk.
    apply bool_decide_eq_false_2. intros ->. apply prefix_length in Hk.
    pose proof (hist_length l). pose proof (wf_child _ _ Hwf Hc) as Hwc.
    pose proof (key_length c Hwc). pose proof (wf_span _ (wf_node _ Hwc)).
    rewrite (wf_start _ Hn c Hc) in *. lia.
Qed.

(** The loop over the children of [find_from], under a name. *)
Definition search_from l (pos : Z) : nat → list (Node L) → list nat * Z :=
  fix search (i : nat) (cs : list (Node L)) : list nat * Z :=
    match cs with
    | [] => ([], pos)
    | c :: cs =>
      let childPos := sp_diff (span c) l in
      if pos <? childPos then let '(path, pos) := find_from c l childPos in (i :: path, pos)
      else search (S i) cs
    end.

Lemma find_from_eq n l pos :
  find_from n l pos =
  if pos =? sp_end (span n) then search_from l pos 0 (children n) else ([], pos).
Proof. by destruct n. Qed.

(** Either no child goes on or one of them does. *)
Lemma search_from_spec l pos i cs :
  (search_from l pos i cs = ([], pos) ∧ ∀ c, c ∈ cs → sp_diff (span c) l ≤ pos) ∨
  ∃ j c, cs !! j = Some c ∧ pos < sp_diff (span c) l ∧
    search_from l pos i cs =
    let '(path, q) := find_from c l (sp_diff (span c) l) in ((i + j)%nat :: path, q).
Proof.
  revert i. induction cs as [|c cs IH]; intros i; simpl.
  { left. split; [done|]. by intros c ?%not_elem_of_nil. }
  destruct (pos <? sp_diff (span c) l) eqn:E.
  - right. exists 0%nat, c. apply Z.ltb_lt in E. rewrite Nat.add_0_r. done.
  - apply Z.ltb_ge in E. destruct (IH (S i)) as [[Hs Hc]|(j & c' & Hj & Hd & Hs)].
    + left. split; [done|]. intros c' [->|?]%elem_of_cons; auto.
    + right. exists (S j), c'. rewrite Hs. by replace (S i + j)%nat with (i + S j)%nat by lia.
Qed.

(** A child starts where its parent's span ends, so it goes on with [l] if its first
    ledger is an ancestor of [l]. *)
Lemma child_goes_on l n c :
  wf n → c ∈ children n → pre (sp_ledger (span n)) (sp_end (span n)) = pre l (sp_end (span n)) →
  sp_start (span c) < sp_diff (span c) l ↔
  sp_end (span n) ≤ l_seq l ∧ startID (span c) = l_id l (sp_end (span n)).
Proof.
  intros Hwf Hc Hp. pose proof (wf_node _ Hwf) as Hn.
  pose proof (wf_node _ (wf_child _ _ Hwf Hc)) as Hc'.
  pose proof (wf_start _ Hn c Hc) as Hst. rewrite <- Hst.
  apply sp_diff_start; [apply Hc'|apply Hc'|]. rewrite Hst, (wf_agree _ Hn c Hc). exact Hp.
Qed.

(** The children other than the one that goes on have nothing to do with [h]. *)
Lemma total_one_child P h n i c :
  wf n → within h P → children n !! i = Some c →
  h !! Z.to_nat (sp_end (span n)) = Some (startID (span c)) → total P n = total P c.
Proof.
  intros Hwf HP Hi Hid. pose proof (wf_node _ Hwf) as Hn. pose proof (wf_span _ Hn).
  rewrite total_eq, (sum_lookup _ _ _ _ Hi), (sum_ext _ (λ _, 0) (delete i _)), sum_zero.
  - destruct (P (key n)) eqn:E; [|lia]. apply HP, prefix_length in E.
    pose proof (key_length n Hwf). apply lookup_lt_Some in Hid. lia.
  - intros c' (j & Hj & Hne)%elem_of_delete_at.
    pose proof (list_elem_of_lookup_2 _ _ _ Hj) as Hc'.
    pose proof (wf_child _ _ Hwf Hc') as Hwc. pose proof (wf_start _ Hn _ Hc') as Hs.
    pose proof (wf_span _ (wf_node _ Hwc)).
    apply (total_disagree P c' h (sp_end (span n)) (startID (span c))); [done|done|lia|done|].
    rewrite <- Hs. intros He. destruct Hne.
    apply (NoDup_lookup _ _ _ (startID (span c)) (wf_apart _ Hn)).
    + rewrite list_lookup_fmap, Hj. simpl. by f_equal.
    + by rewrite list_lookup_fmap, Hi.
Qed.

Lemma find_from_spec l n :
  wf n → sp_start (span n) < sp_diff (span n) l →
  ∃ path q loc, find_from n l (sp_diff (span n) l) = (path, q) ∧ node_at path n = Some loc ∧
    located l q loc ∧ ∀ P, within (hist l) P → total P n = total P loc.
Proof.
  intros Hwf. pose proof Hwf as Hw. induction Hw as [n Hn Hc IH]. intros Hd.
  destruct (sp_diff_spec (span n) l (wf_span _ Hn) (wf_end _ Hn) Hd) as (He & Hs & Hp & Hne).
  rewrite find_from_eq. destruct (Z.eqb_spec (sp_diff (span n) l) (sp_end (span n))) as [E|NE].
  2: { eexists [], _, n. split_and!; [done|done| |done]. split; [done|lia|done|done|done|lia]. }
  rewrite E in *.
  destruct (search_from_spec l (sp_end (span n)) 0 (children n)) as [[-> Hnone]|(i & c & Hi & Hlt & ->)].
  - eexists [], _, n. split_and!; [done|done| |done]. split; [done|lia|done|done|done|].
    intros _ Hq c Hcn Hid. specialize (Hnone c Hcn).
    assert (sp_start (span c) < sp_diff (span c) l) by (by apply (child_goes_on l n)).
    rewrite (wf_start _ Hn c Hcn) in *. lia.
  - pose proof (list_elem_of_lookup_2 _ _ _ Hi) as Hcn. pose proof (wf_start _ Hn c Hcn) as Hst.
    assert (Hlt' : sp_start (span c) < sp_diff (span c) l) by lia.
    destruct (IH c Hcn (Hc c Hcn) Hlt') as (path & q & loc & -> & Hat & Hloc & Htot).
    exists (i :: path), q, loc. split_and!; [done| |done|].
    + simpl. by rewrite Hi.
    + apply (child_goes_on l n c Hwf Hcn Hp) in Hlt' as [??].
      intros P HP. rewrite <- (Htot P HP). apply (total_one_child P (hist l) n i); [done|done|done|].
      pose proof (wf_span _ Hn). rewrite lookup_hist by lia. by f_equal.
Qed.
End Find.

(** ** Changing the tree at a path *)

Section Graft.
Context {L : Type} `{!LedgerOps L} `{!LedgerLaws L}.
Implicit Types (s : Span L) (n c : Node L) (l : L) (P : list Z → bool) (path : list nat).

(** [f] at the end of the path, [d] more branch support on the way. *)
Fixpoint graft path (f : Node L → Node L) (d : Z) n : Node L :=
  match path with
  | [] => f n
  | i :: path =>
    mkNode (span n) (n_tip n) (u32 (n_branch n + d)) (alter (graft path f d) i (children n))
  end.

(** The new node fits where the old one was, with [d] more support. *)
Record fits (d : Z) (old new : Node L) : Prop := {
  fit_wf : wf new;
  fit_start : sp_start (span new) = sp_start (span old);
  fit_pre : pre (sp_ledger (span new)) (sp_start (span old)) =
            pre (sp_ledger (span old)) (sp_start (span old));
  fit_id : startID (span new) = startID (span old);
  fit_branch : n_branch new = n_branch old + d }.

Lemma branch_child n c : wf n → c ∈ children n → 0 ≤ n_branch c ≤ n_branch n.
Proof.
  intros Hwf Hc. pose proof (branch_nonneg c (wf_child _ _ Hwf Hc)). split; [done|].
  rewrite (wf_branch _ (wf_node _ Hwf)). pose proof (wf_tip _ (wf_node _ Hwf)).
  apply list_elem_of_lookup in Hc as [i Hi]. rewrite (sum_lookup _ _ _ _ Hi).
  assert (0 ≤ sum n_branch (delete i (children n))); [|lia].
  apply sum_nonneg.
  intros x Hx%list_elem_of_delete_inv. by apply branch_nonneg, (wf_child n).
Qed.

Lemma node_at_wf path n loc : wf n → node_at path n = Some loc → wf loc ∧ n_branch loc ≤ n_branch n.
Proof.
  revert n. induction path as [|i path IH]; intros n Hwf Hat; simplify_eq/=; [done|].
  destruct (children n !! i) as [c|] eqn:Hi; [|done]. apply list_elem_of_lookup_2 in Hi.
  pose proof (wf_child _ _ Hwf Hi) as Hc. destruct (IH c Hc Hat). split; [done|].
  pose proof (branch_child n c Hwf Hi). lia.
Qed.

Lemma alter_insert_at {A} (f : A → A) i (xs : list A) x :
  xs !! i = Some x → alter f i xs = <[i := f x]> xs.
Proof.
  intros Hi. apply list_eq. intros j. destruct (decide (i = j)) as [<-|Hne].
  - rewrite list_lookup_alter_eq, list_lookup_insert_eq, Hi; [done|]. by apply lookup_lt_Some in Hi.
  - by rewrite list_lookup_alter_ne, list_lookup_insert_ne.
Qed.

(** Replacing a child by one that fits. *)
Lemma fits_child n i c c' d b :
  wf n → children n !! i = Some c → fits d c c' → b = n_branch n + d →
  fits d n (mkNode (span n) (n_tip n) b (<[i := c']> (children n))).
Proof.
  intros Hwf Hi [Hw Hs Hp Hid Hb] ->. pose proof (wf_node _ Hwf) as Hn.
  pose proof (list_elem_of_lookup_2 _ _ _ Hi) as Hc.
  assert (Hall : ∀ x, x ∈ <[i := c']> (children n) → x = c' ∨ x ∈ children n).
  { intros x [j Hj]%list_elem_of_lookup. apply list_lookup_insert_Some in Hj as [(_ & -> & _)|[_ Hj]];
      [by left|right; by apply list_elem_of_lookup_2 in Hj]. }
  split; [|done|done|done|done]. constructor.
  - split; simpl; try apply Hn.
    + rewrite <- (alter_insert_at (λ _, c') _ _ _ Hi), (sum_alter _ _ _ _ _ Hi), (wf_branch _ Hn). lia.
    + intros x [->|Hx]%Hall; [rewrite Hs|]; by apply (wf_start _ Hn).
    + intros x [->|Hx]%Hall; [|by apply (wf_agree _ Hn)].
      rewrite (wf_start _ Hn c Hc) in Hp. rewrite Hp. by apply (wf_agree _ Hn).
    + rewrite list_fmap_insert, Hid, list_insert_id; [apply Hn|].
      by rewrite list_lookup_fmap, Hi.
  - simpl. intros x [->|Hx]%Hall; [done|]. by apply (wf_child n).
Qed.

Lemma total_child P n i c c' b :
  children n !! i = Some c →
  total P (mkNode (span n) (n_tip n) b (<[i := c']> (children n))) =
  total P n + (total P c' - total P c).
Proof.
  intros Hi. rewrite (total_eq P n), (total_eq P (mkNode _ _ _ _)). unfold key. simpl.
  rewrite <- (alter_insert_at (λ _, c') _ _ _ Hi), (sum_alter _ _ _ _ _ Hi). lia.
Qed.

Lemma graft_fits path f d n loc :
  wf n → node_at path n = Some loc → fits d loc (f loc) → 0 ≤ n_branch loc + d → n_branch n + d < 2 ^ 32 →
  fits d n (graft path f d n) ∧
  ∀ P, total P (graft path f d n) = total P n + (total P (f loc) - total P loc).
Proof.
  revert n. induction path as [|i path IH]; intros n Hwf Hat Hf H0 H1; simplify_eq/=.
  { split; [done|]. intros P. lia. }
  destruct (children n !! i) as [c|] eqn:Hi; [|done].
  pose proof (list_elem_of_lookup_2 _ _ _ Hi) as Hc. pose proof (branch_child n c Hwf Hc).
  pose proof (wf_child _ _ Hwf Hc) as Hwc. destruct (node_at_wf _ _ _ Hwc Hat).
  destruct (IH c Hwc Hat Hf H0 ltac:(lia)) as [Hfc Htot].
  rewrite (alter_insert_at _ _ _ _ Hi). split.
  - apply (fits_child n i c); [done|done|done|]. apply u32_small. unfold in_u32. lia.
  - intros P. specialize (Htot P). rewrite (total_child P n i c _ _ Hi). lia.
Qed.
End Graft.

(** ** Inserting *)

Section Insert.
Context {L : Type} `{!LedgerOps L} `{!LedgerLaws L}.
Implicit Types (s : Span L) (n c : Node L) (l : L) (P : list Z → bool) (path : list nat).

Lemma alter_at_compose path (f g : Node L → Node L) n :
  alter_at path f (alter_at path g n) = alter_at path (f ∘ g) n.
Proof.
  revert n. induction path as [|i path IH]; intros n; simpl; [done|]. f_equal.
  rewrite list_alter_alter_eq. apply list_alter_ext; [|done]. intros c _. apply IH.
Qed.

Lemma node_at_alter path (f : Node L → Node L) n :
  node_at path (alter_at path f n) = f <$> node_at path n.
Proof.
  revert n. induction path as [|i path IH]; intros n; simpl; [done|].
  rewrite list_lookup_alter_eq. destruct (children n !! i) as [c|]; simpl; [apply IH|done].
Qed.

Lemma add_support_graft path p d (g h : Node L → Node L) n :
  add_support (path ++ p) d (alter_at (path ++ p) g (alter_at path h n)) =
  graft path (λ m, add_support p d (alter_at p g (h m))) d n.
Proof.
  revert n. induction path as [|i path IH]; intros n; simpl; [done|]. f_equal.
  rewrite !list_alter_alter_eq. apply list_alter_ext; [|done]. intros c _. apply IH.
Qed.

Lemma graft_ext path (f g : Node L → Node L) d n loc :
  node_at path n = Some loc → f loc = g loc → graft path f d n = graft path g d n.
Proof.
  revert n. induction path as [|i path IH]; intros n Hat Hfg; simplify_eq/=; [done|].
  f_equal. destruct (children n !! i) as [c|] eqn:Hi; [|done].
  apply list_alter_ext; [|done]. intros x Hx. simplify_eq. by apply IH.
Qed.

(** What [insert] does at the node found. *)
Definition insert_at l (count q : Z) n : Node L :=
  let m := split_node q n in
  match sp_from (span_of l) q with
  | Some newSuffix =>
    mkNode (span m) (n_tip m) (u32 (n_branch m + count))
      (children m ++ [mkNode newSuffix (u32 (0 + count)) (u32 (0 + count)) []])
  | None => mkNode (span m) (u32 (n_tip m + count)) (u32 (n_branch m + count)) (children m)
  end.

Lemma insert_graft t l count loc q n :
  trie_find t l = (loc, q) → node_at loc (root t) = Some n →
  root (trie_insert l count t) = graft loc (insert_at l count q) count (root t).
Proof.
  intros Hf Hat. unfold trie_insert. rewrite Hf, node_at_alter, Hat.
  cbn [fmap option_fmap option_map]. unfold insert_at. destruct (sp_from (span_of l) q) as [s|]; simpl.
  - rewrite alter_at_compose, add_support_graft. apply (graft_ext _ _ _ _ _ _ Hat). simpl.
    rewrite list_alter_alter_eq. f_equal.
    replace (length (children (split_node q n))) with (length (children (split_node q n)) + 0)%nat by lia.
    by rewrite alter_app_r.
  - pose proof (add_support_graft loc [] count (add_tip count) (split_node q) (root t)) as H.
    rewrite app_nil_r in H. rewrite H. by apply (graft_ext _ _ _ _ _ _ Hat).
Qed.

Lemma sp_from_inside s q :
  sp_start s < q < sp_end s → sp_from s q = Some (mkSpan q (sp_end s) (sp_ledger s)).
Proof.
  intros Hq. unfold sp_from, sp_sub, sp_clamp. rewrite (proj2 (Z.ltb_lt _ _)) by lia. do 2 f_equal; lia.
Qed.

Lemma sp_from_end s : sp_from s (sp_end s) = None.
Proof. unfold sp_from, sp_sub. by rewrite (proj2 (Z.ltb_ge _ _)). Qed.

Lemma sp_before_inside s q :
  sp_start s < q ≤ sp_end s → sp_before s q = Some (mkSpan (sp_start s) q (sp_ledger s)).
Proof.
  intros Hq. unfold sp_before, sp_sub, sp_clamp. rewrite (proj2 (Z.ltb_lt _ _)) by lia. do 2 f_equal; lia.
Qed.

(** The node found covers, after the split, exactly the common ancestors. *)
Lemma split_located l q n :
  located l q n → located l q (split_node q n) ∧ sp_end (span (split_node q n)) = q ∧
  fits 0 n (split_node q n) ∧ ∀ P, total P (split_node q n) = total P n.
Proof.
  intros [Hwf Hr Hs Hp Hd Hc]. pose proof (wf_node _ Hwf) as Hn. unfold split_node.
  destruct (decide (q = sp_end (span n))) as [->|NE].
  { rewrite sp_from_end. split_and!; [done|done| |done]. split; [done|done|done|done|lia]. }
  rewrite sp_from_inside, sp_before_inside by lia. destruct Hn as [Hsp He Ht Hb Hst Ha Hap].
  assert (Hwf' : wf (mkNode (mkSpan (sp_start (span n)) q (sp_ledger (span n))) 0 (n_branch n)
    [mkNode (mkSpan q (sp_end (span n)) (sp_ledger (span n))) (n_tip n) (n_branch n) (children n)])).
  { constructor; simpl.
    - split; simpl; try lia.
      + by intros c ->%list_elem_of_singleton.
      + by intros c ->%list_elem_of_singleton.
      + apply NoDup_singleton.
    - intros c ->%list_elem_of_singleton. constructor; [|by intros c; apply (wf_child n)].
      split; simpl; try done; lia. }
  split_and!; [|done| |].
  - split; simpl; [done|lia|done|done|lia|].
    intros _ Hq c ->%list_elem_of_singleton. apply Hd; [lia|done].
  - split; simpl; [done|done|done|done|lia].
  - intros P. rewrite !total_eq. unfold key. simpl. rewrite total_eq. unfold key. simpl.
    destruct (P _); lia.
Qed.

Lemma fits_trans d e (a b c : Node L) : fits d a b → fits e b c → fits (d + e) a c.
Proof.
  intros [Hw Hs Hp Hi Hb] [Hw' Hs' Hp' Hi' Hb']. split; [done|congruence| |congruence|lia].
  rewrite Hs in Hp'. congruence.
Qed.

Lemma tip_le_branch n : wf n → 0 ≤ n_tip n ≤ n_branch n.
Proof.
  intros Hwf. pose proof (wf_tip _ (wf_node _ Hwf)). rewrite (wf_branch _ (wf_node _ Hwf)).
  assert (0 ≤ sum n_branch (children n)); [|lia].
  apply sum_nonneg. intros x Hx. by apply (branch_child n).
Qed.

Lemma sp_from_span_of l q :
  0 ≤ q → sp_from (span_of l) q = if q <=? l_seq l then Some (mkSpan q (l_seq l + 1) l) else None.
Proof.
  intros Hq. pose proof (l_seq_range l). unfold span_of, sp_from, sp_sub, sp_clamp. simpl.
  rewrite u32_small by (unfold in_u32; lia).
  destruct (Z.leb_spec q (l_seq l)); destruct (Z.ltb_spec ((0 `max` q) `min` (l_seq l + 1))
    ((0 `max` (l_seq l + 1)) `min` (l_seq l + 1))); try lia; [|done]. do 2 f_equal; lia.
Qed.

(** A new leaf for the part of [l] that the node does not cover. *)
Lemma push_leaf l count q n :
  located l q n → sp_end (span n) = q → q ≤ l_seq l → 0 < count →
  let leaf := mkNode (mkSpan q (l_seq l + 1) l) count count [] in
  let n' := mkNode (span n) (n_tip n) (n_branch n + count) (children n ++ [leaf]) in
  fits count n n' ∧ ∀ P, total P n' = total P n + if P (hist l) then count else 0.
Proof.
  intros [Hwf Hr Hs Hp _ Hc] He Hq Hpos leaf n'. pose proof (wf_node _ Hwf) as Hn.
  pose proof (wf_span _ Hn). split.
  - split; [|done|done|done|done]. constructor.
    + split; simpl; try apply Hn.
      * rewrite sum_app, (wf_branch _ Hn). simpl. lia.
      * intros c [Hcn| ->%list_elem_of_singleton]%elem_of_app; [by apply (wf_start _ Hn)|done].
      * intros c [Hcn| ->%list_elem_of_singleton]%elem_of_app; [by apply (wf_agree _ Hn)|].
        unfold key. simpl. by rewrite He, Hp.
      * rewrite fmap_app, NoDup_app. split_and!; [apply (wf_apart _ Hn)| |apply NoDup_singleton].
        intros x (c & -> & Hcn)%list_elem_of_fmap Hx%list_elem_of_singleton. by apply (Hc (eq_sym He) Hq c).
    + simpl. intros c [Hcn| ->%list_elem_of_singleton]%elem_of_app; [by apply (wf_child n)|].
      constructor; simpl; [|by intros c ?%not_elem_of_nil]. split; simpl; try lia.
      * by intros c ?%not_elem_of_nil.
      * by intros c ?%not_elem_of_nil.
      * apply NoDup_nil_2.
  - intros P. rewrite !(total_eq P n), total_eq. unfold n'. simpl. rewrite sum_app. simpl.
    rewrite (total_eq P leaf). unfold leaf, key, hist. simpl. lia.
Qed.

(** More support for a ledger that has a node. *)
Lemma raise_tip l count q n :
  located l q n → sp_end (span n) = q → q = l_seq l + 1 → 0 < count →
  let n' := mkNode (span n) (n_tip n + count) (n_branch n + count) (children n) in
  fits count n n' ∧ ∀ P, total P n' = total P n + if P (hist l) then count else 0.
Proof.
  intros [Hwf Hr Hs Hp _ Hc] He Hq Hpos n'. pose proof (wf_node _ Hwf) as Hn. split.
  - split; [|done|done|done|done]. constructor; [|by intros c; apply (wf_child n)].
    split; simpl; try apply Hn; [pose proof (wf_tip _ Hn); lia|].
    rewrite (wf_branch _ Hn). lia.
  - intros P. rewrite !(total_eq P n), total_eq. simpl.
    replace (key n') with (hist l); [replace (key n) with (hist l); [destruct (P (hist l)); lia|]|];
      unfold key, hist; simpl; rewrite <- Hq, <- Hp, He; done.
Qed.

(** The node at which the search stopped, with [l] added to it. *)
Lemma insert_at_fits l count q n :
  located l q n → 0 < count → n_branch n + count < 2 ^ 32 →
  fits count n (insert_at l count q n) ∧
  ∀ P, total P (insert_at l count q n) = total P n + if P (hist l) then count else 0.
Proof.
  intros Hl Hpos Hmax. pose proof (split_located l q n Hl) as (Hm & He & Hf & Ht).
  pose proof (lo_wf _ _ _ Hm) as Hwm. pose proof (branch_nonneg _ Hwm).
  pose proof (tip_le_branch _ Hwm). pose proof (fit_branch _ _ _ Hf).
  pose proof (lo_seq _ _ _ Hm). pose proof (wf_span _ (wf_node _ Hwm)).
  unfold insert_at. rewrite sp_from_span_of by lia. set (m := split_node q n) in *.
  destruct (Z.leb_spec q (l_seq l)).
  - destruct (push_leaf l count q m Hm He) as [Hfit Htot]; [done|done|].
    rewrite !u32_small by (unfold in_u32; lia). split.
    + replace count with (0 + count) at 1 by lia. by apply (fits_trans _ _ n m).
    + intros P. by rewrite <- Ht.
  - destruct (raise_tip l count q m Hm He) as [Hfit Htot]; [lia|done|].
    rewrite !u32_small by (unfold in_u32; lia). split.
    + replace count with (0 + count) at 1 by lia. by apply (fits_trans _ _ n m).
    + intros P. by rewrite <- Ht.
Qed.
End Insert.

(** ** Compression *)

Section Compress.
Context {L : Type} `{!LedgerOps L} `{!LedgerLaws L}.
Implicit Types (s : Span L) (n c : Node L) (l : L) (P : list Z → bool) (path : list nat).

(** The condition [packed] puts on one node. *)
Definition packed_local n : Prop := n_tip n = 0 → (2 ≤ length (children n))%nat.

(** The root is exempt. *)
Definition rooted n : Prop := ∀ c, c ∈ children n → packed c.

Lemma packed_inv n : packed n → packed_local n ∧ rooted n.
Proof. by intros [m Hp Hc]. Qed.

(** Below the root, all nodes but the one at the end of the path are packed. *)
Fixpoint slack path n : Prop :=
  match path with
  | [] => rooted n
  | i :: path =>
    (∀ j c, children n !! j = Some c → j ≠ i → packed c) ∧
    ∃ c, children n !! i = Some c ∧ (path = [] ∨ packed_local c) ∧ slack path c
  end.

Lemma slack_rooted path n loc : rooted n → node_at path n = Some loc → slack path n.
Proof.
  revert n. induction path as [|i path IH]; intros n Hr Hat; simpl in *; [done|].
  split. { intros j c Hj _. by apply list_elem_of_lookup_2, Hr in Hj. }
  destruct (children n !! i) as [c|] eqn:Hi; [|done]. exists c. apply list_elem_of_lookup_2, Hr in Hi as Hp.
  destruct Hp as [c Hp Hc]. split_and!; [done|by right|by apply IH].
Qed.

Lemma rooted_slack path n loc :
  slack path n → node_at path n = Some loc → path = [] ∨ packed_local loc → rooted n.
Proof.
  revert n. induction path as [|i path IH]; intros n Hs Hat Hp; simpl in *; [done|].
  destruct Hs as (Ho & c & Hi & Hc & Hs). rewrite Hi in Hat. intros c' [j Hj]%list_elem_of_lookup.
  destruct (decide (j = i)) as [->|Hne]; [|by apply (Ho j)].
  assert (c' = c) as -> by congruence. destruct Hp as [|Hp]; [done|]. constructor.
  - destruct Hc as [->|Hc]; [|exact Hc]. simpl in Hat. injection Hat as ->. exact Hp.
  - by apply (IH c Hs Hat (or_intror Hp)).
Qed.

Lemma slack_graft path q f d n loc :
  slack (path ++ q) n → node_at path n = Some loc → rooted (f loc) → slack path (graft path f d n).
Proof.
  revert n. induction path as [|i path IH]; intros n Hs Hat Hf; simpl in *; [by injection Hat as ->|].
  destruct Hs as (Ho & c & Hi & Hc & Hs). rewrite Hi in Hat. split.
  - intros j c' Hj Hne. rewrite list_lookup_alter_ne in Hj by done. by apply (Ho j).
  - exists (graft path f d c). rewrite list_lookup_alter_eq, Hi. split_and!; [done| |by apply IH].
    destruct path as [|k path]; [by left|right]. destruct Hc as [?|Hc]; [done|].
    unfold packed_local in *. simpl. by rewrite length_alter.
Qed.

Lemma node_at_graft path f d n loc :
  node_at path n = Some loc → node_at path (graft path f d n) = Some (f loc).
Proof.
  revert n. induction path as [|i path IH]; intros n Hat; simpl in *; [by injection Hat as ->|].
  rewrite list_lookup_alter_eq. destruct (children n !! i) as [c|]; [simpl; by apply IH|done].
Qed.

(** Putting a packed node in. *)
Lemma rooted_graft path f d n loc :
  rooted n → node_at path n = Some loc → rooted (f loc) → path = [] ∨ packed_local (f loc) →
  rooted (graft path f d n).
Proof.
  intros Hr Hat Hf Hp. apply (rooted_slack path _ (f loc)); [|by apply node_at_graft|done].
  apply (slack_graft path [] _ _ _ loc); [|done|done]. rewrite app_nil_r. by apply (slack_rooted _ _ loc).
Qed.

Lemma node_at_app path i n :
  node_at (path ++ [i]) n = node_at path n ≫= λ m, children m !! i.
Proof.
  revert n. induction path as [|j path IH]; intros n; simpl.
  - by destruct (children n !! i).
  - by destruct (children n !! j).
Qed.

Lemma slack_siblings path i n m j c :
  slack (path ++ [i]) n → node_at path n = Some m → children m !! j = Some c → j ≠ i → packed c.
Proof.
  revert n. induction path as [|k path IH]; intros n Hs Hat Hj Hne; simpl in *.
  - simplify_eq. by apply (proj1 Hs j).
  - destruct Hs as (_ & c' & Hk & _ & Hs). rewrite Hk in Hat. by apply (IH c').
Qed.

Lemma slack_end path n m : slack path n → node_at path n = Some m → rooted m.
Proof.
  revert n. induction path as [|k path IH]; intros n Hs Hat; simpl in *; [by simplify_eq|].
  destruct Hs as (_ & c' & Hk & _ & Hs). rewrite Hk in Hat. by apply (IH c').
Qed.

(** A change that does not touch the support. *)
Lemma alter_at_graft path f n loc :
  wf n → n_branch n < 2 ^ 32 → node_at path n = Some loc → alter_at path f n = graft path f 0 n.
Proof.
  revert n. induction path as [|i path IH]; intros n Hwf Hb Hat; simpl in *; [done|].
  pose proof (branch_nonneg n Hwf). rewrite u32_small by (unfold in_u32; lia). f_equal; [lia|].
  destruct (children n !! i) as [c|] eqn:Hi; [|done]. apply list_alter_ext; [|done].
  intros x Hx. assert (x = c) as -> by congruence. apply list_elem_of_lookup_2 in Hi.
  pose proof (branch_child n c Hwf Hi). apply IH; [by apply (wf_child n)|lia|done].
Qed.

(** The children without the erased one, in some order. *)
Lemma erase_child_perm i n c :
  children n !! i = Some c → children (erase_child i n) ≡ₚ delete i (children n).
Proof.
  intros Hi. simpl. destruct (children n) as [|x xs _] using rev_ind; [done|].
  rewrite last_snoc, length_app. replace (length xs + length [x] - 1)%nat with (length xs) by (simpl; lia).
  destruct (decide (i = length xs)) as [->|Hne].
  - rewrite (delete_middle xs []), app_nil_r, insert_app_r_alt, Nat.sub_diag by lia. simpl.
    by rewrite take_app_length.
  - assert (i < length xs)%nat. { apply lookup_lt_Some in Hi. rewrite length_app in Hi. simpl in Hi. lia. }
    rewrite insert_app_l, take_app_le, take_ge by (rewrite ?length_insert; lia).
    assert (is_Some (xs !! i)) as [y Hy] by (by apply lookup_lt_is_Some).
    rewrite delete_take_drop, take_app_le, drop_app_le by lia.
    rewrite insert_take_drop by done. apply Permutation_app_head, Permutation_cons_append.
Qed.

Lemma erase_pushed i n c m :
  children n !! i = Some m →
  erase_child i (push_child c n) = mkNode (span n) (n_tip n) (n_branch n) (<[i := c]> (children n)).
Proof.
  intros Hi%lookup_lt_Some. unfold erase_child. simpl. rewrite last_snoc, length_app. f_equal.
  replace (length (children n) + length [c] - 1)%nat with (length (children n)) by (simpl; lia).
  by rewrite insert_app_l, take_app_le, take_ge by (rewrite ?length_insert; lia).
Qed.

(** A node whose children are rearranged and lose one without support. *)
Lemma fits_rearrange n cs b :
  wf n → NoDup ((λ c, startID (span c)) <$> cs) → (∀ c, c ∈ cs → c ∈ children n) →
  sum n_branch cs = sum n_branch (children n) → b = n_branch n →
  fits 0 n (mkNode (span n) (n_tip n) b cs).
Proof.
  intros Hwf Hnd Hsub Hsum ->. pose proof (wf_node _ Hwf) as Hn.
  split; [|done|done|done|simpl; lia]. constructor; simpl.
  - split; simpl; try apply Hn; [|by intros c Hc%Hsub; apply (wf_start _ Hn)
      |by intros c Hc%Hsub; apply (wf_agree _ Hn)|done].
    by rewrite (wf_branch _ Hn), Hsum.
  - intros c Hc%Hsub. by apply (wf_child n).
Qed.

Lemma leaf_total n P : wf n → n_tip n = 0 → children n = [] → n_branch n = 0 ∧ total P n = 0.
Proof.
  intros Hwf Ht Hc. rewrite (wf_branch _ (wf_node _ Hwf)), total_eq, Hc, Ht. simpl.
  by destruct (P (key n)).
Qed.

Lemma erase_fits i n c :
  wf n → children n !! i = Some c → n_tip c = 0 → children c = [] →
  fits 0 n (erase_child i n) ∧ ∀ P, total P (erase_child i n) = total P n.
Proof.
  intros Hwf Hi Ht Hc. pose proof (erase_child_perm i n c Hi) as Hp.
  assert (Hwc : wf c) by (apply list_elem_of_lookup_2 in Hi; by apply (wf_child n)).
  destruct (leaf_total c (λ _, true) Hwc Ht Hc) as [Hb _].
  pose proof (sum_lookup n_branch _ _ _ Hi) as Hs. split.
  - apply (fits_rearrange n (children (erase_child i n))); [done| | | |done].
    + rewrite Hp. pose proof (wf_apart _ (wf_node _ Hwf)) as Hnd.
      rewrite (delete_Permutation _ _ _ Hi) in Hnd. simpl in Hnd. by apply NoDup_cons in Hnd as [_ ?].
    + intros x Hx. rewrite Hp in Hx. by apply list_elem_of_delete_inv in Hx.
    + rewrite (sum_perm _ _ _ Hp). lia.
  - intros P. rewrite (total_eq P n), total_eq, (sum_perm _ _ _ Hp), (sum_lookup _ _ _ _ Hi).
    rewrite (proj2 (leaf_total c P Hwc Ht Hc)). unfold key. simpl. lia.
Qed.

(** A node without tip support gives way to its only child. *)
Lemma merge_fits n c :
  wf n → n_tip n = 0 → children n = [c] →
  let m := mkNode (sp_merge (span n) (span c)) (n_tip c) (n_branch c) (children c) in
  fits 0 n m ∧ ∀ P, total P m = total P n.
Proof.
  intros Hwf Ht Hc m. pose proof (wf_node _ Hwf) as Hn.
  assert (Hcn : c ∈ children n) by (rewrite Hc; by left).
  pose proof (wf_child _ _ Hwf Hcn) as Hwc. pose proof (wf_node _ Hwc) as Hcl.
  pose proof (wf_start _ Hn c Hcn) as Hst. pose proof (wf_agree _ Hn c Hcn) as Hag.
  pose proof (wf_span _ Hn). pose proof (wf_span _ Hcl). pose proof (wf_end _ Hcl).
  assert (Hm : sp_merge (span n) (span c) =
    mkSpan (sp_start (span n)) (sp_end (span c)) (sp_ledger (span c))).
  { unfold sp_merge. rewrite (proj2 (Z.ltb_lt _ _)) by lia. f_equal. lia. }
  assert (Hid : ∀ i, 0 ≤ i < sp_end (span n) → l_id (sp_ledger (span c)) i = l_id (sp_ledger (span n)) i).
  { by apply pre_inj. }
  unfold m. rewrite Hm. split.
  - split; simpl; [|done|by apply pre_ext; intros; apply Hid; lia|unfold startID; simpl; apply Hid; lia|].
    + constructor; simpl; [|by intros x; apply (wf_child c)]. 
      split; simpl; [lia|lia| | | | |]; apply Hcl.
    + rewrite (wf_branch _ Hn), Hc, Ht. simpl. lia.
  - intros P. rewrite (total_eq P n), total_eq, Hc, Ht. simpl.
    rewrite (total_eq P c). unfold key. simpl. destruct (P (pre (sp_ledger (span n)) _)); lia.
Qed.

Lemma packed_children_eq n m :
  packed n → n_tip m = n_tip n → children m = children n → packed m.
Proof. intros [x Hp Hx] Ht Hc. constructor; rewrite ?Ht, Hc; done. Qed.

(** Compression restores the shape and changes nothing else. *)
Lemma compress_spec rpath r loc :
  wf r → n_branch r < 2 ^ 32 → slack (rev rpath) r → node_at (rev rpath) r = Some loc →
  rooted (compress rpath r) ∧ fits 0 r (compress rpath r) ∧
  ∀ P, total P (compress rpath r) = total P r.
Proof.
  revert r loc. induction rpath as [|i rp IH]; intros r loc Hwf Hb Hs Hat; cbn [compress].
  { split_and!; [done|split; done || lia|done]. }
  rewrite Hat. cbn [rev] in Hs, Hat.
  destruct (Z.eqb_spec (n_tip loc) 0) as [Ht|Ht]; simpl.
  2: { split_and!; [|split; done || lia|done]. apply (rooted_slack _ _ _ Hs Hat). right. by intros ?. }
  rewrite node_at_app in Hat. destruct (node_at (rev rp) r) as [par|] eqn:Hpar; [|done]. simpl in Hat.
  destruct (node_at_wf _ _ _ Hwf Hpar) as [Hwp _].
  assert (Hwl : wf loc) by (apply list_elem_of_lookup_2 in Hat; by apply (wf_child par)).
  assert (Hgo : ∀ f, rooted (f par) → fits 0 par (f par) → (∀ P, total P (f par) = total P par) →
    let r' := compress rp (alter_at (rev rp) f r) in
    rooted r' ∧ fits 0 r r' ∧ ∀ P, total P r' = total P r).
  { intros f Hr Hf Htot r'. unfold r'. rewrite (alter_at_graft _ _ _ par) by done.
    pose proof (branch_nonneg _ Hwp).
    destruct (graft_fits (rev rp) f 0 r par Hwf Hpar Hf) as [Hg Hgt]; [lia|lia|].
    destruct (IH (graft (rev rp) f 0 r) (f par)) as (H1 & H2 & H3);
      [apply Hg|rewrite (fit_branch _ _ _ Hg); lia|by apply (slack_graft _ [i] _ _ _ par)
      |by apply node_at_graft|].
    split_and!; [done|by apply (fits_trans 0 0 _ (graft (rev rp) f 0 r))|].
    intros P. rewrite H3, Hgt, Htot. lia. }
  destruct (children loc) as [|c [|c' cs]] eqn:Hc.
  - destruct (erase_fits i par loc Hwp Hat Ht Hc) as [Hf Htot]. apply (Hgo _); [|done|done].
    intros x Hx. rewrite (erase_child_perm i par loc Hat) in Hx.
    apply elem_of_delete_at in Hx as (j & Hj & Hne). by apply (slack_siblings (rev rp) i r par j x).
  - destruct (merge_fits loc c Hwl Ht Hc) as [Hf Htot].
    apply (Hgo (λ parent, erase_child i (push_child _ parent))); rewrite (erase_pushed i par _ loc Hat).
    + intros x [j Hj]%list_elem_of_lookup. simpl in Hj.
      apply list_lookup_insert_Some in Hj as [(-> & <- & _)|[Hne Hj]].
      * apply (packed_children_eq c); [|done|done]. apply (slack_end _ _ loc Hs).
        -- by rewrite node_at_app, Hpar.
        -- rewrite Hc. by left.
      * by apply (slack_siblings (rev rp) i r par j x).
    + by apply (fits_child par i loc); [| | |lia].
    + intros P. rewrite (total_child P par i loc) by done. rewrite Htot. lia.
  - split_and!; [|split; done || lia|done]. apply (rooted_slack _ _ loc Hs); [by rewrite node_at_app, Hpar|].
    right. intros _. rewrite Hc. simpl. lia.
Qed.
End Compress.

(** ** The abstract state *)

(** What the trie stands for: the support by history.  Only supported histories are
    in the map. *)
Abbreviation support_map := (gmap (list Z) Z).

Definition m_insert (h : list Z) (count : Z) (m : support_map) : support_map :=
  <[h := default 0 (m !! h) + count]> m.

Definition m_remove (h : list Z) (count : Z) (m : support_map) : support_map :=
  match m !! h with
  | Some v => if v <=? count then delete h m else <[h := v - count]> m
  | None => m
  end.

Section Weight.
Implicit Types (h : list Z) (v c count : Z) (m : support_map) (P Q : list Z → bool).

(** The support of the histories that satisfy [P]. *)
Definition weight (P : list Z → bool) (m : support_map) : Z :=
  sum (λ x, if P x.1 then x.2 else 0) (map_to_list m).

Lemma weight_insert_new P h v m :
  m !! h = None → weight P (<[h := v]> m) = weight P m + if P h then v else 0.
Proof.
  intros H. unfold weight. rewrite (sum_perm _ _ _ (map_to_list_insert m h v H)). simpl. lia.
Qed.

Lemma weight_delete P h m :
  weight P (delete h m) = weight P m - if P h then default 0 (m !! h) else 0.
Proof.
  destruct (m !! h) as [v|] eqn:H; simpl.
  - pose proof (weight_insert_new P h v (delete h m) (lookup_delete_eq m h)) as Hw.
    rewrite (insert_delete_id m h v H) in Hw. lia.
  - rewrite delete_id by done. destruct (P h); lia.
Qed.

Lemma weight_insert P h v m :
  weight P (<[h := v]> m) = weight P m + if P h then v - default 0 (m !! h) else 0.
Proof.
  rewrite <- insert_delete_eq, weight_insert_new, weight_delete by apply lookup_delete_eq.
  destruct (P h); lia.
Qed.

Lemma weight_remove P h count m :
  0 ≤ count →
  weight P (m_remove h count m) =
  weight P m - if P h then count `min` default 0 (m !! h) else 0.
Proof.
  intros Hc. unfold m_remove. destruct (m !! h) as [v|] eqn:H; simpl.
  - destruct (Z.leb_spec v count).
    + rewrite weight_delete, H. simpl. destruct (P h); lia.
    + rewrite weight_insert, H. simpl. destruct (P h); lia.
  - destruct (P h); lia.
Qed.

Lemma weight_exactly h m :
  weight (λ k, bool_decide (k = h)) m = default 0 (m !! h).
Proof.
  induction m as [|k v m Hk IH] using map_ind; [done|]. rewrite weight_insert_new by done. rewrite IH.
  destruct (decide (k = h)) as [->|Hne].
  - by rewrite bool_decide_eq_true_2, Hk, lookup_insert_eq.
  - rewrite bool_decide_eq_false_2, lookup_insert_ne by done. lia.
Qed.

Definition positive_map (m : support_map) : Prop := ∀ h v, m !! h = Some v → 0 < v.

Lemma weight_mono P Q m :
  positive_map m → (∀ k, P k = true → Q k = true) → 0 ≤ weight P m ≤ weight Q m.
Proof.
  intros Hm H. unfold weight. split.
  - apply sum_nonneg. intros [k v] Hk%elem_of_map_to_list%Hm. simpl.
    destruct (P k); lia.
  - apply sum_le. intros [k v] Hk%elem_of_map_to_list%Hm. simpl. specialize (H k).
    destruct (P k), (Q k); try lia.
Qed.

Lemma positive_insert h c m : positive_map m → 0 < c → positive_map (m_insert h c m).
Proof.
  intros Hm Hc k v. unfold m_insert. intros [[<- <-]|[_ Hv]]%lookup_insert_Some; [|by apply (Hm k)].
  destruct (m !! h) as [x|] eqn:E; simpl; [apply Hm in E|]; lia.
Qed.

Lemma positive_remove h c m : positive_map m → positive_map (m_remove h c m).
Proof.
  intros Hm k v. unfold m_remove. destruct (m !! h) as [x|] eqn:E; [|apply Hm].
  destruct (Z.leb_spec x c).
  - intros [_ Hv]%lookup_delete_Some. by apply (Hm k).
  - intros [[<- <-]|[_ Hv]]%lookup_insert_Some; [lia|by apply (Hm k)].
Qed.

End Weight.

(** ** Tries and what they stand for *)

Section Reach.
Context {L : Type} `{!LedgerOps L} `{!LedgerLaws L}.
Implicit Types (s : Span L) (n c : Node L) (l : L) (P : list Z → bool) (t : LedgerTrie L).

(** The support for ledgers with sequence number [q]. *)
Definition at_seq (q : Z) : list Z → bool := λ k, Z.of_nat (length k) =? q + 1.

Definition everything : list Z → bool := λ _, true.

Record repr t (m : support_map) : Prop := {
  rp_wf : wf (root t);
  rp_start : sp_start (span (root t)) = 0;
  rp_end : sp_end (span (root t)) = 1;
  rp_max : n_branch (root t) < 2 ^ 32;
  rp_rooted : rooted (root t);
  rp_total : ∀ P, total P (root t) = weight P m;
  rp_positive : positive_map m;
  rp_seq : ∀ q, seqSupport t !! q = let v := weight (at_seq q) m in if v =? 0 then None else Some v }.

(** The children of a node are put into another order. *)
Inductive sorts : LedgerTrie L → LedgerTrie L → Prop :=
  sorts_intro t path n cs :
    node_at path (root t) = Some n → cs ≡ₚ children n →
    sorts t (mkTrie (alter_at path (λ _, mkNode (span n) (n_tip n) (n_branch n) cs) (root t)) (seqSupport t)).

(** The tries the operations lead to, with what they stand for.  [getPreferred] sorts
    the children of the nodes it passes, which is a step of its own. *)
Inductive reach : LedgerTrie L → support_map → Prop :=
  | reach_empty : reach emptyTrie ∅
  | reach_insert t m l count :
    reach t m → 0 < count → weight everything m + count < 2 ^ 32 →
    reach (trie_insert l count t) (m_insert (hist l) count m)
  | reach_remove t m l count :
    reach t m → 0 ≤ count →
    reach (trie_remove l count t).2 (m_remove (hist l) count m)
  | reach_sort t t' m : reach t m → sorts t t' → reach t' m.

Lemma trie_find_spec t m l :
  repr t m → ∃ path q loc, trie_find t l = (path, q) ∧ node_at path (root t) = Some loc ∧
    located l q loc ∧ ∀ P, within (hist l) P → total P loc = weight P m.
Proof.
  intros H. pose proof (rp_wf _ _ H) as Hwf. pose proof (wf_node _ Hwf) as Hn.
  destruct (find_from_spec l (root t) Hwf) as (path & q & loc & Hf & Hat & Hl & Ht).
  - apply sp_diff_start; [apply Hn|apply Hn|by rewrite (rp_start _ _ H)|].
    unfold startID. rewrite (rp_start _ _ H). pose proof (l_seq_range l).
    split; [lia|]. by rewrite l_id_genesis, (l_id_genesis l).
  - exists path, q, loc. split_and!; [done|done|done|]. intros P HP. by rewrite <- Ht, (rp_total _ _ H).
Qed.

Lemma weight_empty P : weight P ∅ = 0.
Proof. unfold weight. by rewrite map_to_list_empty. Qed.

Lemma repr_empty : repr emptyTrie ∅.
Proof.
  split.
  - constructor; simpl; [|by intros c ?%not_elem_of_nil]. pose proof (l_seq_range (genesis : L)).
    split; simpl; try lia; [by intros c ?%not_elem_of_nil|by intros c ?%not_elem_of_nil|apply NoDup_nil_2].
  - done.
  - done.
  - done.
  - by intros c ?%not_elem_of_nil.
  - intros P. rewrite total_eq, weight_empty. simpl. by destruct (P _).
  - intros h v. by rewrite lookup_empty.
  - intros q. by rewrite weight_empty.
Qed.

(** The support by sequence number after a change of [d] at the history [h]. *)
Lemma seq_change (ss : gmap Z Z) h d m m' :
  (∀ q, ss !! q = let v := weight (at_seq q) m in if v =? 0 then None else Some v) →
  (∀ P, weight P m' = weight P m + if P h then d else 0) →
  let q := Z.of_nat (length h) - 1 in
  let v := default 0 (ss !! q) + d in
  ∀ q', (if v =? 0 then delete q ss else <[q := v]> ss) !! q' =
    let v := weight (at_seq q') m' in if v =? 0 then None else Some v.
Proof.
  intros Hs Hd q v q'. rewrite Hd. simpl.
  destruct (decide (q = q')) as [<-|Hne].
  - assert (Hv : v = weight (at_seq q) m + d).
    { unfold v. rewrite Hs. simpl. destruct (Z.eqb_spec (weight (at_seq q) m) 0); simpl; lia. }
    replace (at_seq q h) with true by (unfold at_seq; symmetry; apply Z.eqb_eq; lia). rewrite <- Hv.
    destruct (v =? 0); [apply lookup_delete_eq|apply lookup_insert_eq].
  - replace (at_seq q' h) with false by (unfold at_seq; symmetry; apply Z.eqb_neq; lia).
    rewrite Z.add_0_r. destruct (v =? 0); rewrite ?lookup_delete_ne, ?lookup_insert_ne by done; apply Hs.
Qed.

Lemma split_packed q n :
  wf n → rooted n → sp_start (span n) < q ≤ sp_end (span n) → packed_local n ∨ q = sp_end (span n) →
  rooted (split_node q n) ∧
  (split_node q n = n ∨ n_tip (split_node q n) = 0 ∧ length (children (split_node q n)) = 1%nat).
Proof.
  intros Hwf Hr Hq Hp. unfold split_node. destruct (decide (q = sp_end (span n))) as [->|Hne].
  { rewrite sp_from_end. by split; [|left]. }
  rewrite sp_from_inside, sp_before_inside by lia. split; [|by right].
  intros c ->%list_elem_of_singleton. constructor; simpl; [|done]. by destruct Hp as [Hp|Hp].
Qed.

(** The leaf or the tip that [insert] adds leaves the tree packed. *)
Lemma insert_at_packed l count q n :
  located l q n → rooted n → 0 < count → n_branch n + count < 2 ^ 32 →
  packed_local n ∨ q = sp_end (span n) →
  rooted (insert_at l count q n) ∧ (packed_local n → packed_local (insert_at l count q n)).
Proof.
  intros Hl Hr Hc Hm Hp. destruct (split_located l q n Hl) as (Hlm & _ & Hf & _).
  destruct (split_packed q n (lo_wf _ _ _ Hl) Hr (lo_range _ _ _ Hl) Hp) as [Hr' Hcase].
  pose proof (tip_le_branch _ (lo_wf _ _ _ Hlm)). pose proof (fit_branch _ _ _ Hf).
  unfold insert_at. set (m := split_node q n) in *.
  assert (0 < u32 (n_tip m + count)) by (rewrite u32_small; unfold in_u32; lia).
  assert (0 < u32 (0 + count)) by (rewrite u32_small; unfold in_u32; lia).
  destruct (sp_from (span_of l) q) as [s|]; unfold packed_local, rooted; simpl.
  - split.
    + intros c [Hcm| ->%list_elem_of_singleton]%elem_of_app; [by apply Hr'|].
      constructor; simpl; [lia|by intros c ?%not_elem_of_nil].
    + rewrite length_app. simpl. intros Hpn Ht. destruct Hcase as [E|[_ ->]]; [|lia].
      rewrite E in *. specialize (Hpn Ht). lia.
  - split; [done|lia].
Qed.

Lemma span_graft path f d n loc :
  node_at path n = Some loc → span (f loc) = span loc → span (graft path f d n) = span n.
Proof. destruct path; simpl; [|done]. intros H. by injection H as ->. Qed.

Lemma m_insert_weight P h count m :
  weight P (m_insert h count m) = weight P m + if P h then count else 0.
Proof. unfold m_insert. rewrite weight_insert. destruct (P h); lia. Qed.

(** The node at a path that is not the root's is packed. *)
Lemma node_at_packed path n loc :
  rooted n → node_at path n = Some loc → rooted loc ∧ (path = [] ∨ packed_local loc).
Proof.
  intros Hr Hat. pose proof (slack_rooted _ _ _ Hr Hat) as Hs. split; [by apply (slack_end path n)|].
  destruct path as [|i path _] using rev_ind; [by left|right].
  rewrite node_at_app in Hat. destruct (node_at path n) as [m|] eqn:Hm; [|done]. simpl in Hat.
  pose proof (slack_rooted _ _ _ Hr Hm) as Hs'. apply (slack_end _ _ _ Hs') in Hm.
  apply list_elem_of_lookup_2, Hm in Hat. by destruct Hat.
Qed.

Lemma insert_seqSupport t l count :
  seqSupport (trie_insert l count t) =
  <[l_seq l := u32 (default 0 (seqSupport t !! l_seq l) + count)]> (seqSupport t).
Proof.
  unfold trie_insert. destruct (trie_find t l) as [path q]. by destruct (sp_from (span_of l) q).
Qed.

Lemma seq_default t m q :
  repr t m → default 0 (seqSupport t !! q) = weight (at_seq q) m ∧
  0 ≤ weight (at_seq q) m ≤ weight everything m.
Proof.
  intros H. rewrite (rp_seq _ _ H). split.
  - simpl. by destruct (Z.eqb_spec (weight (at_seq q) m) 0) as [->|].
  - by apply weight_mono; [apply (rp_positive _ _ H)|].
Qed.

(** The tree after [insert]. *)
Lemma insert_root t m l count :
  repr t m → 0 < count → weight everything m + count < 2 ^ 32 →
  let r := root (trie_insert l count t) in
  fits count (root t) r ∧ rooted r ∧ span r = span (root t) ∧
  ∀ P, total P r = total P (root t) + if P (hist l) then count else 0.
Proof.
  intros H Hc Hmax. destruct (trie_find_spec t m l H) as (path & q & loc & Hf & Hat & Hl & _).
  pose proof H as [Hwf Hs He Hb Hr Ht Hp Hseq].
  assert (Hbr : n_branch (root t) = weight everything m) by (rewrite branch_total by done; apply Ht).
  destruct (node_at_wf _ _ _ Hwf Hat) as [Hwl Hbl]. pose proof (branch_nonneg _ Hwl).
  destruct (insert_at_fits l count q loc Hl Hc ltac:(lia)) as [Hfit Htot].
  destruct (graft_fits path (insert_at l count q) count (root t) loc Hwf Hat Hfit) as [Hg Hgt]; [lia|lia|].
  rewrite (insert_graft t l count path q loc Hf Hat).
  destruct (node_at_packed path _ loc Hr Hat) as [Hrl Hpl].
  assert (Hq : path = [] → q = sp_end (span loc) ∧ span (insert_at l count q loc) = span loc).
  { intros ->. injection Hat as <-. pose proof (lo_range _ _ _ Hl). assert (q = sp_end (span (root t))) as -> by lia.
    split; [done|]. unfold insert_at, split_node. rewrite sp_from_end. by destruct (sp_from _ _). }
  destruct (insert_at_packed l count q loc Hl Hrl Hc ltac:(lia)) as [Hri Hpi].
  { destruct Hpl as [->|]; [right; by apply Hq|by left]. }
  split_and!; [done| | |intros P; rewrite Hgt, Htot; lia].
  - apply (rooted_graft path _ _ _ loc); [done|done|done|]. destruct Hpl; [by left|right; by apply Hpi].
  - destruct path; [|done]. injection Hat as <-. by apply Hq.
Qed.

Lemma repr_insert t m l count :
  repr t m → 0 < count → weight everything m + count < 2 ^ 32 →
  repr (trie_insert l count t) (m_insert (hist l) count m).
Proof.
  intros H Hc Hmax. destruct (insert_root t m l count H Hc Hmax) as (Hg & Hri & Hspan & Htot).
  pose proof H as [Hwf Hs He Hb Hr Ht Hp Hseq].
  assert (Hbr : n_branch (root t) = weight everything m) by (rewrite branch_total by done; apply Ht).
  split; rewrite ?Hspan; [apply Hg|done|done| |done| | |].
  - rewrite (fit_branch _ _ _ Hg). lia.
  - intros P. by rewrite Htot, m_insert_weight, Ht.
  - by apply positive_insert.
  - intros q'. rewrite insert_seqSupport. pose proof (hist_length l).
    destruct (seq_default t m (l_seq l) H) as [Hd Hrange].
    pose proof (seq_change (seqSupport t) (hist l) count m _ Hseq
      (λ P, m_insert_weight P (hist l) count m)) as Hch. simpl in Hch. specialize (Hch q').
    replace (Z.of_nat (length (hist l)) - 1) with (l_seq l) in Hch by lia.
    rewrite (proj2 (Z.eqb_neq _ 0)) in Hch by lia. rewrite u32_small; [exact Hch|unfold in_u32; lia].
Qed.

(** *** Removing *)

Definition lower (c : Z) n : Node L :=
  mkNode (span n) (u32 (n_tip n + - c)) (u32 (n_branch n + - c)) (children n).

Lemma lower_fits l (c : Z) q n :
  located l q n → q = sp_end (span n) → l_seq l < q → 0 ≤ c ≤ n_tip n → n_branch n < 2 ^ 32 →
  fits (- c) n (lower c n) ∧ ∀ P, total P (lower c n) = total P n - if P (hist l) then c else 0.
Proof.
  intros [Hwf Hr Hs Hp _ _] He Hq Hc Hb. pose proof (wf_node _ Hwf) as Hn.
  pose proof (tip_le_branch n Hwf). unfold lower. rewrite !u32_small by (unfold in_u32; lia). split.
  - split; [|done|done|done|done]. constructor; [|by intros x; apply (wf_child n)].
    split; simpl; try apply Hn; [lia|]. rewrite (wf_branch _ Hn). lia.
  - intros P. rewrite (total_eq P n), total_eq. simpl.
    replace (key (mkNode _ _ _ _)) with (hist l); [replace (key n) with (hist l); [destruct (P (hist l)); lia|]|];
      unfold key, hist; simpl; replace (l_seq l + 1) with q by lia; rewrite <- Hp, He; done.
Qed.

(** The node for [l], if it is supported. *)
Lemma exact_match_spec t m l :
  repr t m →
  match exact_match t l with
  | Some (path, n) =>
    node_at path (root t) = Some n ∧ located l (sp_end (span n)) n ∧ l_seq l < sp_end (span n) ∧
    n_tip n = default 0 (m !! hist l)
  | None => m !! hist l = None
  end.
Proof.
  intros H. destruct (trie_find_spec t m l H) as (path & q & loc & Hf & Hat & Hl & Htot).
  unfold exact_match. rewrite Hf, Hat. specialize (Htot _ (within_exactly l)).
  rewrite (located_exactly l q loc Hl) in Htot. unfold exactly in Htot. rewrite weight_exactly in Htot.
  destruct ((q =? sp_end (span loc)) && (l_seq l <? q)) eqn:E.
  - apply andb_prop in E as [->%Z.eqb_eq E%Z.ltb_lt]. done.
  - destruct (m !! hist l) as [v|] eqn:Hv; [|done]. apply (rp_positive _ _ H) in Hv. simpl in Htot. lia.
Qed.

Lemma compress_span rpath (r : Node L) : span (compress rpath r) = span r.
Proof.
  assert (Halt : ∀ path f (n : Node L), (∀ m, span (f m) = span m) → span (alter_at path f n) = span n).
  { intros [|j path] f n Hf; [apply Hf|done]. }
  revert r. induction rpath as [|i rp IH]; intros r; cbn [compress]; [done|].
  destruct (node_at (rev (i :: rp)) r) as [loc|]; [|done].
  destruct (negb (n_tip loc =? 0)); [done|].
  destruct (children loc) as [|c [|]]; [| |done]; rewrite IH; by apply Halt.
Qed.

Lemma lower_graft path (c : Z) n :
  add_support path (- c) (alter_at path (add_tip (- c)) n) = graft path (lower c) (- c) n.
Proof.
  pose proof (add_support_graft path [] (- c) id (add_tip (- c)) n) as H.
  rewrite app_nil_r in H. rewrite alter_at_compose in H. exact H.
Qed.

(** The tree after the support of a ledger has been lowered. *)
Lemma remove_root t m l path n (c : Z) :
  repr t m → node_at path (root t) = Some n → located l (sp_end (span n)) n → l_seq l < sp_end (span n) →
  0 ≤ c ≤ n_tip n →
  let r := compress (rev path) (add_support path (- c) (alter_at path (add_tip (- c)) (root t))) in
  fits (- c) (root t) r ∧ rooted r ∧ span r = span (root t) ∧
  ∀ P, total P r = total P (root t) - if P (hist l) then c else 0.
Proof.
  intros H Hat Hl Hq Hc. pose proof H as [Hwf Hs He Hb Hr Ht Hp Hseq].
  destruct (node_at_wf _ _ _ Hwf Hat) as [Hwn Hbn]. pose proof (tip_le_branch n Hwn).
  destruct (lower_fits l c _ n Hl eq_refl Hq Hc ltac:(lia)) as [Hf Htot].
  destruct (graft_fits path (lower c) (- c) (root t) n Hwf Hat Hf) as [Hg Hgt]; [lia|lia|].
  rewrite lower_graft. set (g := graft path (lower c) (- c) (root t)) in *.
  destruct (compress_spec (rev path) g (lower c n)) as (Hcr & Hcf & Hct).
  - apply Hg.
  - rewrite (fit_branch _ _ _ Hg). lia.
  - rewrite rev_involutive. apply (slack_graft path [] _ _ _ n); [|done|].
    + rewrite app_nil_r. by apply (slack_rooted _ _ n).
    + intros x Hx. by apply (proj1 (node_at_packed _ _ _ Hr Hat)).
  - rewrite rev_involutive. by apply node_at_graft.
  - split_and!; [|done| |].
    + replace (- c) with (- c + 0) by lia. by apply (fits_trans _ _ _ g).
    + rewrite compress_span. by apply (span_graft _ _ _ _ n).
    + intros P. rewrite Hct, Hgt, Htot. lia.
Qed.

Lemma support_at_seq m l : positive_map m → default 0 (m !! hist l) ≤ weight (at_seq (l_seq l)) m.
Proof.
  intros Hm. rewrite <- weight_exactly. apply weight_mono; [done|].
  intros k ->%bool_decide_eq_true. unfold at_seq. rewrite hist_length. by apply Z.eqb_eq.
Qed.

Lemma repr_remove t m l count :
  repr t m → 0 ≤ count →
  repr (trie_remove l count t).2 (m_remove (hist l) count m) ∧
  (trie_remove l count t).1 = bool_decide (is_Some (m !! hist l)).
Proof.
  intros H Hc. unfold trie_remove. pose proof (exact_match_spec t m l H) as Hm.
  assert (Hnone : m !! hist l = None → repr t (m_remove (hist l) count m) ∧
    false = bool_decide (is_Some (m !! hist l))).
  { intros E. unfold m_remove. by rewrite E, bool_decide_eq_false_2 by (by intros []). }
  destruct (exact_match t l) as [[path n]|]; [|by apply Hnone].
  destruct Hm as (Hat & Hl & Hq & Htip).
  destruct (Z.ltb_spec 0 (n_tip n)) as [Hpos|Hz]; simpl.
  2: { apply Hnone. destruct (m !! hist l) eqn:E; [|done]. apply (rp_positive _ _ H) in E. simpl in *. lia. }
  destruct (remove_root t m l path n (count `min` n_tip n) H Hat Hl Hq ltac:(lia)) as (Hg & Hr & Hsp & Htot).
  pose proof H as [Hwf Hs He Hb _ Ht Hp Hseq].
  split; [|symmetry; apply bool_decide_eq_true_2; destruct (m !! hist l); [by eexists|simpl in *; lia]].
  assert (Hw : ∀ P, weight P (m_remove (hist l) count m) =
    weight P m + if P (hist l) then - (count `min` n_tip n) else 0).
  { intros P. rewrite weight_remove by done. rewrite <- Htip. destruct (P (hist l)); lia. }
  split; simpl; rewrite ?Hsp; [apply Hg|done|done| |done| | |].
  - rewrite (fit_branch _ _ _ Hg). lia.
  - intros P. rewrite Htot, Hw, Ht. destruct (P (hist l)); lia.
  - by apply positive_remove.
  - intros q'. pose proof (hist_length l). destruct (seq_default t m (l_seq l) H) as [Hd Hrange].
    pose proof (seq_change (seqSupport t) (hist l) _ m _ Hseq Hw q') as Hch.
    replace (Z.of_nat (length (hist l)) - 1) with (l_seq l) in Hch by lia.
    rewrite u32_small; [exact Hch|]. rewrite branch_total, Ht in Hb by done.
    pose proof (support_at_seq m l Hp). unfold in_u32, everything in *. lia.
Qed.

(** *** Sorting the children of a node *)

Lemma repr_sort t t' m : repr t m → sorts t t' → repr t' m.
Proof.
  intros H Hst. destruct Hst as [t path n cs Hat Hcs]. pose proof H as [Hwf Hs He Hb Hr Ht Hp Hseq].
  destruct (node_at_wf _ _ _ Hwf Hat) as [Hwn _]. pose proof (branch_nonneg n Hwn).
  set (f := λ _ : Node L, mkNode (span n) (n_tip n) (n_branch n) cs).
  assert (Hf : fits 0 n (f n)).
  { apply fits_rearrange; [done| | |by apply sum_perm|done].
    - rewrite Hcs. apply (wf_apart _ (wf_node _ Hwn)).
    - intros x Hx. by rewrite <- Hcs. }
  assert (Htot : ∀ P, total P (f n) = total P n).
  { intros P. rewrite (total_eq P n), total_eq. simpl. by rewrite (sum_perm _ _ _ Hcs). }
  destruct (graft_fits path f 0 (root t) n Hwf Hat Hf) as [Hg Hgt]; [lia|lia|].
  destruct (node_at_packed _ _ _ Hr Hat) as [Hrn Hpn].
  split; simpl; rewrite ?(alter_at_graft _ _ _ n) by done; rewrite ?(span_graft _ _ _ _ n) by done.
  - apply Hg.
  - done.
  - done.
  - rewrite (fit_branch _ _ _ Hg). lia.
  - apply (rooted_graft _ _ _ _ n); [done|done| |].
    + intros x Hx. simpl in Hx. rewrite Hcs in Hx. by apply Hrn.
    + destruct Hpn as [|Hpn]; [by left|right]. unfold packed_local. simpl. by rewrite Hcs.
  - intros P. rewrite Hgt, Htot, Ht. lia.
  - done.
  - done.
Qed.

Lemma reach_repr t m : reach t m → repr t m.
Proof.
  induction 1.
  - apply repr_empty.
  - by apply repr_insert.
  - by apply repr_remove.
  - by apply (repr_sort t t').
Qed.

(** *** The class's own check *)

Definition nz (v : Z) : option Z := if v =? 0 then None else Some v.

Lemma support_sum a (cs : list (Node L)) :
  0 ≤ a → (∀ c, c ∈ cs → 0 ≤ n_branch c) → a + sum n_branch cs < 2 ^ 64 →
  foldl (λ support c, u64 (support + n_branch c)) a cs = a + sum n_branch cs.
Proof.
  revert a. induction cs as [|c cs IH]; intros a Ha Hc Hm; simpl in *; [lia|].
  pose proof (Hc c ltac:(by left)). assert (0 ≤ sum n_branch cs) by (apply sum_nonneg; intros x Hx; apply Hc; by right).
  rewrite u64_small by (unfold in_u64; lia). rewrite IH; [lia|lia| |lia].
  intros x Hx. apply Hc. by right.
Qed.

(** A node the check accepts. *)
Definition sound (x : bool * Node L) : Prop :=
  wf x.2 ∧ n_branch x.2 < 2 ^ 32 ∧ rooted x.2 ∧ (x.1 = false → packed_local x.2).

Lemma check_node_spec b n e (E : Z → Z) :
  sound (b, n) → (∀ q, e !! q = nz (E q)) → (∀ q, 0 ≤ E q ∧ E q + total (at_seq q) n < 2 ^ 32) →
  ∃ e', check_node b n e = Some e' ∧
    ∀ q, e' !! q = nz (E q + if at_seq q (key n) then n_tip n else 0).
Proof.
  intros (Hwf & Hb & Hr & Hp) He HE. simpl in *. pose proof (wf_node _ Hwf) as Hn.
  pose proof (tip_le_branch n Hwf). unfold check_node. rewrite support_sum, <- (wf_branch _ Hn), Z.eqb_refl.
  2: lia. 2: by intros c Hc; apply (branch_child n). 2: rewrite <- (wf_branch _ Hn); lia.
  simpl. destruct (negb b && (n_tip n =? 0) && (length (children n) <? 2)%nat) eqn:E1.
  { apply andb_prop in E1 as [[E1 Ht%Z.eqb_eq]%andb_prop E2%Nat.ltb_lt].
    apply Hp in Ht; [lia|by destruct b]. }
  eexists. split; [done|]. intros q. unfold at_seq. rewrite key_length by done.
  assert (Hq := HE (sp_end (span n) - 1)). pose proof (He (sp_end (span n) - 1)) as Heq.
  assert (Hd : default 0 (e !! (sp_end (span n) - 1)) = E (sp_end (span n) - 1)).
  { rewrite Heq. unfold nz. by destruct (Z.eqb_spec (E (sp_end (span n) - 1)) 0) as [->|]. }
  rewrite total_eq in Hq. unfold at_seq at 1 in Hq. rewrite key_length in Hq by done.
  rewrite (proj2 (Z.eqb_eq (sp_end (span n)) _)) in Hq by lia.
  assert (0 ≤ sum (total (at_seq (sp_end (span n) - 1))) (children n)).
  { apply sum_nonneg. intros c Hc. by apply (total_mono _ (λ _, true)); [apply (wf_child n)|]. }
  destruct (Z.eqb_spec (n_tip n) 0) as [Ht|Ht]; simpl.
  { rewrite Ht, He. f_equal. by destruct (sp_end (span n) =? q + 1); lia. }
  rewrite Hd, u32_small by (unfold in_u32; lia).
  destruct (Z.eqb_spec (sp_end (span n)) (q + 1)) as [Hs|Hs].
  - replace q with (sp_end (span n) - 1) by lia. rewrite lookup_insert_eq. unfold nz.
    by rewrite (proj2 (Z.eqb_neq _ _)) by lia.
  - rewrite lookup_insert_ne, He by lia. f_equal. lia.
Qed.

Lemma tree_size_eq n : Z.of_nat (tree_size n) = 1 + sum (λ c, Z.of_nat (tree_size c)) (children n).
Proof. destruct n as [s t b cs]. simpl. induction cs as [|c cs IH]; simpl in *; lia. Qed.

Lemma sum_pushed (f : Node L → Z) (cs : list (Node L)) nodes :
  sum (λ x, f x.2) (rev (pair false <$> cs) ++ nodes) = sum f cs + sum (λ x, f x.2) nodes.
Proof.
  rewrite sum_app. f_equal. rewrite <- (sum_perm _ _ _ (Permutation_rev _)).
  exact (sum_fmap (λ x : bool * Node L, f x.2) (pair false) cs).
Qed.

Lemma check_nodes_spec fuel nodes e (E : Z → Z) :
  (∀ x, x ∈ nodes → sound x) → sum (λ x, Z.of_nat (tree_size x.2)) nodes ≤ Z.of_nat fuel →
  (∀ q, e !! q = nz (E q)) → (∀ q, 0 ≤ E q ∧ E q + sum (λ x, total (at_seq q) x.2) nodes < 2 ^ 32) →
  ∃ e', check_nodes fuel nodes e = Some e' ∧
    ∀ q, e' !! q = nz (E q + sum (λ x, total (at_seq q) x.2) nodes).
Proof.
  revert nodes e E. induction fuel as [|fuel IH]; intros [|[b n] nodes] e E Hs Hf He HE.
  - exists e. split; [done|]. intros q. by rewrite He, Z.add_0_r.
  - simpl in Hf. rewrite tree_size_eq in Hf.
    assert (0 ≤ sum (λ c, Z.of_nat (tree_size c)) (children n)) by (apply sum_nonneg; lia).
    assert (0 ≤ sum (λ x, Z.of_nat (tree_size x.2)) nodes) by (apply sum_nonneg; lia). lia.
  - exists e. split; [done|]. intros q. by rewrite He, Z.add_0_r.
  - assert (Hn : sound (b, n)) by (apply Hs; by left). destruct Hn as (Hwf & Hb & Hr & Hp). simpl in *.
    assert (Hpos : ∀ q, 0 ≤ sum (λ x, total (at_seq q) x.2) nodes).
    { intros q. apply sum_nonneg. intros x Hx. apply (total_mono _ (λ _, true)); [|done]. by apply Hs; right. }
    destruct (check_node_spec b n e E) as (e1 & -> & He1); [done|done| |].
    { intros q. specialize (HE q). specialize (Hpos q). lia. }
    destruct (IH (rev (pair false <$> children n) ++ nodes) e1
      (λ q, E q + if at_seq q (key n) then n_tip n else 0)) as (e2 & -> & He2); [| |done| |].
    + intros x [Hx|Hx]%elem_of_app; [|by apply Hs; right].
      rewrite <- Permutation_rev in Hx. apply list_elem_of_fmap in Hx as (c & -> & Hc).
      pose proof (branch_child n c Hwf Hc). pose proof (packed_inv c (Hr c Hc)) as [Hpc Hcc].
      split_and!; [by apply (wf_child n)|simpl; lia|done|done].
    + rewrite (sum_pushed (λ c, Z.of_nat (tree_size c))). rewrite tree_size_eq in Hf. lia.
    + intros q. rewrite sum_pushed. specialize (HE q). rewrite total_eq in HE.
      pose proof (wf_tip _ (wf_node _ Hwf)). destruct (at_seq q (key n)); lia.
    + exists e2. split; [done|]. intros q. rewrite He2, sum_pushed, total_eq. f_equal. lia.
Qed.

Lemma repr_check t m : repr t m → checkInvariants t = true.
Proof.
  intros H. pose proof H as [Hwf Hs He Hb Hr Ht Hp Hseq]. unfold checkInvariants.
  destruct (check_nodes_spec (tree_size (root t)) [(true, root t)] ∅ (λ _, 0)) as (e & -> & Hlook).
  - intros x ->%list_elem_of_singleton. done.
  - simpl. lia.
  - done.
  - intros q. split; [done|]. simpl. rewrite branch_total in Hb by done.
    pose proof (total_mono (at_seq q) (λ _, true) (root t) Hwf (λ _ _, eq_refl)). lia.
  - apply bool_decide_eq_true_2, map_eq. intros q. rewrite Hlook, Hseq, <- Ht. simpl.
    by rewrite Z.add_0_r.
Qed.

Lemma repr_empty_iff t m : repr t m → trie_empty t = bool_decide (m = ∅).
Proof.
  intros H. unfold trie_empty. rewrite branch_total, (rp_total _ _ H) by apply (rp_wf _ _ H).
  destruct (decide (m = ∅)) as [->|Hne].
  - by rewrite bool_decide_eq_true_2, weight_empty.
  - rewrite bool_decide_eq_false_2 by done. apply Z.eqb_neq.
    apply map_choose in Hne as (h & v & Hv). pose proof (rp_positive _ _ H h v Hv).
    pose proof (weight_mono (λ k, bool_decide (k = h)) (λ _, true) m (rp_positive _ _ H) (λ _ _, eq_refl)).
    rewrite weight_exactly, Hv in *. simpl in *. lia.
Qed.

Lemma repr_tipSupport t m l : repr t m → tipSupport t l = default 0 (m !! hist l).
Proof.
  intros H. pose proof (exact_match_spec t m l H) as He. unfold tipSupport.
  destruct (exact_match t l) as [[path n]|]; [by apply He|by rewrite He].
Qed.

Lemma repr_branchSupport t m l : repr t m → branchSupport t l = weight (under l) m.
Proof.
  intros H. destruct (trie_find_spec t m l H) as (path & q & loc & Hf & Hat & Hl & Htot).
  unfold branchSupport. rewrite Hf, Hat, <- (Htot _ (within_under l)), (located_under l q loc Hl).
  pose proof (lo_range _ _ _ Hl). destruct (Z.ltb_spec (l_seq l) q); simpl; [|done].
  by rewrite (proj2 (Z.ltb_lt _ _)) by lia.
Qed.

(** C16: The trie is an implementation of the map from histories to support: after any
    insertions and removals (that keep the total support below 2^32), [tipSupport] is
    the support of the ledger's history, [branchSupport] is the support of the
    histories it is part of, [remove] reports whether the ledger was supported and
    [empty] whether nothing is. *)
Theorem trie_refines t m l count :
  reach t m → 0 ≤ count →
  tipSupport t l = default 0 (m !! hist l) ∧
  branchSupport t l = weight (under l) m ∧
  (trie_remove l count t).1 = bool_decide (is_Some (m !! hist l)) ∧
  trie_empty t = bool_decide (m = ∅).
Proof.
  intros H%reach_repr Hc. split_and!.
  - by apply repr_tipSupport.
  - by apply repr_branchSupport.
  - by apply repr_remove.
  - by apply repr_empty_iff.
Qed.

(** Every trie reached by insertions and removals passes the class's own check:
    compression, branch support and support by sequence number are as they should. *)
Theorem trie_invariants t m : reach t m → checkInvariants t = true.
Proof. intros H%reach_repr. by apply (repr_check t m). Qed.
End Reach.
