(* ===== verification/LedgerTriePreferred.v ===== *)
(** * The preferred ledger

    [LedgerTrie::getPreferred] against its description: starting from the genesis
    ledger, the preferred ledger at the next sequence number is the one that stays
    ahead of every other even if all validators that have not yet validated a ledger
    of that sequence number sided with the other one; the walk ends where there is
    none.  The code walks whole spans at a time and looks at the two best children
    only; the specification below looks at single ledgers and at all competitors. *)

From stdpp Require Import base numbers list gmap strings sorting.
From Stdlib Require Import Lia ZArith.
From S2P Require Import Prelude LedgerTrie LedgerTrieSupport.

Local Open Scope Z_scope.

(** ** Specification *)

Section Spec.
Context (m : support_map) (largestIssued : Z).
Implicit Types (h k : list Z) (x y : Z).

(** The support of the histories that begin with [h]. *)
Definition backing h : Z := weight (λ k, bool_decide (h `prefix_of` k)) m.

(** The support of validators that may yet validate a ledger with this number. *)
Definition uncommitted_at (s : Z) : Z :=
  weight (λ k, Z.of_nat (length k) - 1 <? s `max` largestIssued) m.

(** After [h], ledger [x] is ahead of every other ledger [y] whatever the uncommitted
    support turns to; ties go to the larger identifier. *)
Definition decisive h x : Prop :=
  let u := uncommitted_at (Z.of_nat (length h)) in
  ∀ y, y ≠ x →
    backing (h ++ [y]) + u < backing (h ++ [x]) ∨ backing (h ++ [y]) + u = backing (h ++ [x]) ∧ y < x.

(** [h] is the preferred history: each of its ledgers is, and no ledger after it. *)
Definition preferred h : Prop :=
  h ≠ [] ∧ (∀ i x, (1 ≤ i)%nat → h !! i = Some x → decisive (take i h) x) ∧ ∀ x, ¬ decisive h x.

Hypothesis m_positive : positive_map m.

Lemma backing_nonneg h : 0 ≤ backing h.
Proof. by apply (weight_mono _ (λ _, true)). Qed.

Lemma uncommitted_nonneg s : 0 ≤ uncommitted_at s.
Proof. by apply (weight_mono _ (λ _, true)). Qed.

Lemma decisive_ahead h x : decisive h x → uncommitted_at (Z.of_nat (length h)) < backing (h ++ [x]).
Proof.
  intros H. specialize (H (x + 1) ltac:(lia)). pose proof (backing_nonneg (h ++ [x + 1])). lia.
Qed.

Lemma decisive_unique h x y : decisive h x → decisive h y → x = y.
Proof.
  intros Hx Hy. destruct (decide (x = y)); [done|]. pose proof (uncommitted_nonneg (Z.of_nat (length h))).
  specialize (Hx y ltac:(done)). specialize (Hy x ltac:(done)). lia.
Qed.

(** There is at most one preferred history. *)
Lemma preferred_unique h k : preferred h → preferred k → head h = head k → h = k.
Proof.
  intros (Hh & Hdh & Hnh) (Hk & Hdk & Hnk) Hhead.
  assert (Hsame : ∀ i, (i ≤ length h)%nat → (i ≤ length k)%nat → take i h = take i k).
  { induction i as [|i IH]; intros H1 H2; [done|].
    destruct (lookup_lt_is_Some_2 h i ltac:(lia)) as [x Hx].
    destruct (lookup_lt_is_Some_2 k i ltac:(lia)) as [y Hy].
    rewrite (take_S_r _ _ _ Hx), (take_S_r _ _ _ Hy), IH by lia. do 2 f_equal.
    destruct i as [|i]; [by destruct h, k; simplify_eq/=|].
    apply (decisive_unique (take (S i) k)); [rewrite <- IH by lia; apply Hdh|apply Hdk]; done || lia. }
  destruct (lt_eq_lt_dec (length h) (length k)) as [[Hlt|Heq]|Hlt].
  - destruct (lookup_lt_is_Some_2 k (length h) Hlt) as [y Hy].
    destruct (Hnh y). rewrite <- (take_ge h (length h)), Hsame by lia. apply Hdk; [|done].
    destruct h; simpl; [done|lia].
  - rewrite <- (take_ge h (length h)), <- (take_ge k (length h)) by lia. apply Hsame; lia.
  - destruct (lookup_lt_is_Some_2 h (length k) Hlt) as [y Hy].
    destruct (Hnk y). rewrite <- (take_ge k (length k)), <- Hsame by lia. apply Hdh; [|done].
    destruct k; simpl; [done|lia].
Qed.
End Spec.

(** ** The iteration over the support by sequence number *)

Section Iterate.
Implicit Types (its : list (Z * Z)) (b q c u : Z).

(** The support below a sequence number and the entries from there on. *)
Definition upto its b : Z := sum (λ x, if x.1 <? b then x.2 else 0) its.
Definition rest its b : list (Z * Z) := filter (λ x, b ≤ x.1) its.

Definition ascending its : Prop := StronglySorted (λ x y, x.1 < y.1) its.

Lemma rest_cons q c its b :
  rest ((q, c) :: its) b = if b <=? q then (q, c) :: rest its b else rest its b.
Proof. unfold rest. rewrite filter_cons. simpl. destruct (Z.leb_spec b q); case_decide; done || lia. Qed.

Lemma rest_all its b : (∀ x, x ∈ its → b ≤ x.1) → rest its b = its ∧ upto its b = 0.
Proof.
  induction its as [|[q c] its IH]; intros H; [done|]. rewrite rest_cons.
  destruct IH as [-> Hu]; [intros x Hx; apply H; by right|]. pose proof (H (q, c) ltac:(by left)) as Hq.
  simpl in Hq. rewrite (proj2 (Z.leb_le _ _)) by lia. split; [done|]. unfold upto in *. simpl.
  rewrite (proj2 (Z.ltb_ge _ _)) by lia. lia.
Qed.

Lemma ascending_cons q c its : ascending ((q, c) :: its) → ascending its ∧ ∀ x, x ∈ its → q < x.1.
Proof. intros [H1 H2]%StronglySorted_inv. split; [done|]. by rewrite Forall_forall in H2. Qed.

Lemma rest_skip its b b' :
  ascending its → b ≤ b' → (∀ x, x ∈ rest its b → b' ≤ x.1) →
  rest its b' = rest its b ∧ upto its b' = upto its b.
Proof.
  intros Hs Hb. induction its as [|[q c] its IH]; intros H; [done|].
  apply ascending_cons in Hs as [Hs Hq]. rewrite !rest_cons in *. unfold upto in *. simpl in *.
  destruct (Z.leb_spec b q).
  - pose proof (H (q, c) ltac:(by left)) as Hqb. simpl in Hqb.
    destruct IH as [-> ->]; [done|intros x Hx; apply H; by right|].
    rewrite (proj2 (Z.leb_le _ _)), !(proj2 (Z.ltb_ge _ _)) by lia. done.
  - destruct IH as [-> ->]; [done|done|]. rewrite (proj2 (Z.leb_gt _ _)), !(proj2 (Z.ltb_lt _ _)) by lia. done.
Qed.

Lemma rest_next its b q c its' :
  ascending its → rest its b = (q, c) :: its' →
  b ≤ q ∧ rest its (q + 1) = its' ∧ upto its (q + 1) = upto its b + c.
Proof.
  intros Hs. induction its as [|[p d] its IH]; intros H; [done|].
  apply ascending_cons in Hs as [Hs Hq]. rewrite !rest_cons in *. unfold upto in *. simpl.
  destruct (Z.leb_spec b p).
  - simplify_eq. destruct (rest_all its (q + 1)) as [-> Hu]; [intros x Hx%Hq; lia|].
    destruct (rest_all its b) as [-> Hu']; [intros x Hx%Hq; lia|]. unfold upto in *.
    rewrite (proj2 (Z.leb_gt _ _)), (proj2 (Z.ltb_lt _ _)), (proj2 (Z.ltb_ge q b)) by lia.
    split_and!; [done|done|lia].
  - destruct IH as (H1 & H2 & H3); [done|done|].
    rewrite (proj2 (Z.leb_gt _ _)), !(proj2 (Z.ltb_lt _ _)) by lia. split_and!; [done|done|lia].
Qed.

Lemma ascending_rest its b : ascending its → ascending (rest its b).
Proof.
  intros Hs. induction its as [|[q c] its IH]; [done|]. pose proof Hs as [Hs' Hq]%ascending_cons.
  rewrite rest_cons. destruct (b <=? q); [|by apply IH]. constructor; [by apply IH|].
  apply Forall_forall. intros x [_ Hx]%list_elem_of_filter. by apply Hq.
Qed.

Lemma rest_from its b q c its' x :
  ascending its → rest its b = (q, c) :: its' → x ∈ rest its b → q ≤ x.1.
Proof.
  intros Hs He. pose proof (ascending_rest its b Hs) as Hr. rewrite He in *.
  apply ascending_cons in Hr as [_ Hr]. intros [->|Hx%Hr]%elem_of_cons; simpl; lia.
Qed.

Context (its0 : list (Z * Z)) (Hsorted : ascending its0).
Hypothesis Hmax : ∀ b, upto its0 b < 2 ^ 32.
Hypothesis Hnonneg : ∀ x, x ∈ its0 → 0 ≤ x.2.

Lemma upto_u32 b : u32 (upto its0 b) = upto its0 b.
Proof.
  apply u32_small. split; [|apply Hmax]. apply sum_nonneg. intros x Hx%Hnonneg. destruct (x.1 <? b); lia.
Qed.

Lemma consume_spec b bound :
  b ≤ bound → consume bound (upto its0 b) (rest its0 b) = (upto its0 bound, rest its0 bound).
Proof.
  remember (rest its0 b) as its eqn:E. revert b E. induction its as [|[q c] its IH]; intros b E Hb; simpl.
  - destruct (rest_skip its0 b bound) as [-> ->]; [done|done| |by rewrite <- E].
    rewrite <- E. by intros x ?%not_elem_of_nil.
  - destruct (rest_next its0 b q c its Hsorted (eq_sym E)) as (H1 & H2 & H3).
    destruct (Z.ltb_spec q bound).
    + rewrite <- H3, upto_u32. apply IH; [done|lia].
    + destruct (rest_skip its0 b bound) as [-> ->]; [done|done| |by rewrite <- E].
      intros x Hx. pose proof (rest_from its0 b q c its x Hsorted (eq_sym E) Hx). lia.
Qed.

(** No change of the uncommitted support before the end of the span. *)
Lemma rest_flat li send ns s :
  (∀ x, x ∈ rest its0 (ns `max` li) → send ≤ x.1) → ns ≤ s ≤ send →
  rest its0 (s `max` li) = rest its0 (ns `max` li) ∧ upto its0 (s `max` li) = upto its0 (ns `max` li).
Proof.
  intros H Hs. apply rest_skip; [done|lia|]. intros x Hx. pose proof (H x Hx).
  apply list_elem_of_filter in Hx as [Hx _]. lia.
Qed.

(** Along a span: as far as the branch support exceeds the uncommitted support. *)
Lemma advance_spec li send branch ns :
  ns ≤ send →
  ∃ ns', advance_span send branch ns (upto its0 (ns `max` li)) (rest its0 (ns `max` li)) =
    (ns', upto its0 (ns' `max` li), rest its0 (ns' `max` li)) ∧
    ns ≤ ns' ≤ send ∧ (∀ s, ns ≤ s < ns' → upto its0 (s `max` li) < branch) ∧
    (ns' < send → branch ≤ upto its0 (ns' `max` li)).
Proof.
  remember (rest its0 (ns `max` li)) as its eqn:E. revert ns E.
  induction its as [|[q c] its IH]; intros ns E Hns; cbn [advance_span];
    destruct (Z.ltb_spec ns send) as [Hlt|]; simpl;
    try (exists ns; rewrite <- E; split_and!; [done|lia|lia|lia|lia]);
    destruct (Z.ltb_spec (upto its0 (ns `max` li)) branch);
    try (exists ns; rewrite <- E; split_and!; [done|lia|lia|lia|lia]).
  - pose proof (rest_flat li send ns) as Hflat. rewrite <- E in Hflat.
    exists send. destruct (Hflat send) as [-> ->]; [by intros x ?%not_elem_of_nil|lia|].
    split_and!; [done|lia|lia| |lia]. intros s Hs. destruct (Hflat s) as [_ ->]; [by intros x ?%not_elem_of_nil|lia|done].
  - destruct (rest_next its0 _ q c its Hsorted (eq_sym E)) as (H1 & H2 & H3).
    pose proof (rest_from its0 (ns `max` li) q c its) as Hfrom. destruct (Z.ltb_spec q send).
    + rewrite <- H3, upto_u32. replace (q + 1) with ((q + 1) `max` li) in H2 at 1 by lia.
      destruct (IH (q + 1)) as (ns' & Hadv & Hr & Hlow & Hstop); [done|lia|].
      replace (upto its0 (q + 1)) with (upto its0 ((q + 1) `max` li)) by (f_equal; lia).
      exists ns'. split_and!; [done|lia|lia| |done]. intros s Hs. destruct (Z.leb_spec s q); [|apply Hlow; lia].
      destruct (rest_flat li q ns s) as [_ ->]; [|lia|done]. intros x Hx. by apply Hfrom.
    + pose proof (rest_flat li send ns) as Hflat.
      assert (Hall : ∀ x, x ∈ rest its0 (ns `max` li) → send ≤ x.1).
      { intros x Hx. pose proof (Hfrom x Hsorted (eq_sym E) Hx). lia. }
      exists send. destruct (Hflat send Hall) as [Hr ->]; [lia|]. rewrite Hr, <- E.
      split_and!; [done|lia|lia| |lia]. intros s Hs. destruct (Hflat s Hall) as [_ ->]; [lia|done].
Qed.
End Iterate.

(** ** The best child *)

Section Best.
Context {L : Type} `{!LedgerOps L}.
Implicit Types (b c d : Node L) (cs : list (Node L)).

Abbreviation sid c := (startID (span c)).

(** [c] is not better than [b]. *)
Lemma better_false c b :
  better c b = false ↔ n_branch c < n_branch b ∨ n_branch c = n_branch b ∧ sid c ≤ sid b.
Proof.
  unfold better. destruct (Z.ltb_spec (n_branch b) (n_branch c)), (Z.eqb_spec (n_branch c) (n_branch b)),
    (Z.ltb_spec (sid b) (sid c)); simpl; split; intros; try done; lia.
Qed.

Lemma better_true c b :
  better c b = true ↔ n_branch b < n_branch c ∨ n_branch c = n_branch b ∧ sid b < sid c.
Proof.
  unfold better. destruct (Z.ltb_spec (n_branch b) (n_branch c)), (Z.eqb_spec (n_branch c) (n_branch b)),
    (Z.ltb_spec (sid b) (sid c)); simpl; split; intros; try done; lia.
Qed.

Lemma best_of_spec j b i cs :
  let '(j', b') := best_of j b i cs in
  ((j', b') = (j, b) ∨ ∃ k, cs !! k = Some b' ∧ j' = (i + k)%nat) ∧
  ∀ c, c ∈ b :: cs → better c b' = false.
Proof.
  revert j b i. induction cs as [|c cs IH]; intros j b i; cbn [best_of].
  { split; [by left|]. intros c ->%list_elem_of_singleton. apply better_false. lia. }
  destruct (better c b) eqn:E.
  - specialize (IH i c (S i)). destruct (best_of i c (S i) cs) as [j' b']. destruct IH as [Hw Hall].
    split.
    + right. destruct Hw as [Hw|(k & Hk & ->)]; [exists 0%nat|exists (S k)]; simplify_eq/=; split; done || lia.
    + intros x [->|Hx]%elem_of_cons; [|by apply Hall]. pose proof (Hall c ltac:(by left)) as Hc.
      rewrite better_false in *. rewrite better_true in E. lia.
  - specialize (IH j b (S i)). destruct (best_of j b (S i) cs) as [j' b']. destruct IH as [Hw Hall].
    split.
    + destruct Hw as [Hw|(k & Hk & ->)]; [by left|right; exists (S k)]. split; [done|lia].
    + intros x [->|[->|Hx]%elem_of_cons]%elem_of_cons; [apply Hall; by left| |apply Hall; by right].
      pose proof (Hall b ltac:(by left)) as Hb. rewrite better_false in *. lia.
Qed.

Lemma best_of_in j b i cs : (best_of j b i cs).2 ∈ b :: cs ∧ ∀ c, c ∈ b :: cs → better c (best_of j b i cs).2 = false.
Proof.
  pose proof (best_of_spec j b i cs) as H. destruct (best_of j b i cs) as [j' b']. destruct H as [Hw Hall].
  split; [|done]. destruct Hw as [Hw|(k & Hk & _)]; simplify_eq/=; [by left|right].
  by apply list_elem_of_lookup_2 in Hk.
Qed.

(** With uncommitted support [u], the margin decides whether [b] stays ahead. *)
Definition stays_ahead u b cs : Prop :=
  u < n_branch b ∧
  ∀ c, c ∈ cs → sid c ≠ sid b → n_branch c + u < n_branch b ∨ n_branch c + u = n_branch b ∧ sid c < sid b.

(** The margin over the second best is what counts. *)
Lemma margin_ahead u b second cs :
  0 ≤ u → second ∈ cs → sid second ≠ sid b → 0 < n_branch second → better second b = false →
  (∀ c, c ∈ cs → sid c ≠ sid b → better c second = false) →
  (u < n_branch b - n_branch second + (if sid second <? sid b then 1 else 0) ∨ u = 0) ↔
  stays_ahead u b cs.
Proof.
  intros Hu Hin Hid Hps Hbs Hall. rewrite better_false in Hbs. unfold stays_ahead. split.
  - intros Hm. split; [destruct (Z.ltb_spec (sid second) (sid b)); lia|].
    intros x Hx Hne. specialize (Hall x Hx Hne). rewrite better_false in Hall.
    destruct (Z.ltb_spec (sid second) (sid b)); lia.
  - intros [Hub Hc]. specialize (Hc second Hin Hid). destruct (Z.ltb_spec (sid second) (sid b)); lia.
Qed.

Lemma best_child_spec cs :
  cs ≠ [] → NoDup ((λ c, sid c) <$> cs) → (∀ c, c ∈ cs → 0 < n_branch c < 2 ^ 32) →
  ∃ i b margin, best_child cs = Some (i, margin) ∧ cs !! i = Some b ∧
    (∀ c, c ∈ cs → better c b = false) ∧
    ∀ u, 0 ≤ u → u < margin ∨ u = 0 ↔ stays_ahead u b cs.
Proof.
  intros Hne Hnd Hpos. destruct cs as [|c [|c' cs]]; [done| |].
  { exists 0%nat, c, (n_branch c). pose proof (Hpos c ltac:(by left)). split_and!; [done|done| |].
    - intros x ->%list_elem_of_singleton. apply better_false. lia.
    - intros u Hu. split; [|intros [? _]; lia]. intros ?. split; [lia|].
      by intros x ->%list_elem_of_singleton. }
  unfold best_child. pose proof (best_of_spec 0 c 1 (c' :: cs)) as H.
  destruct (best_of 0 c 1 (c' :: cs)) as [j b]. destruct H as [Hw Hall].
  set (all := c :: c' :: cs) in *.
  assert (Hj : all !! j = Some b).
  { destruct Hw as [Hw|(k & Hk & ->)]; [by injection Hw as -> ->|exact Hk]. }
  assert (Hids : ∀ x, x ∈ delete j all ↔ x ∈ all ∧ sid x ≠ sid b).
  { rewrite (delete_Permutation _ _ _ Hj) in Hnd. simpl in Hnd. apply NoDup_cons in Hnd as [Hnb Hnd].
    intros x. rewrite (delete_Permutation all _ _ Hj) at 2. rewrite elem_of_cons. split.
    - intros Hx. split; [by right|]. intros He. apply Hnb. apply list_elem_of_fmap. by exists x.
    - by intros [[->|Hx] Hid]. }
  destruct (delete j all) as [|d ds] eqn:Hdel.
  { apply (f_equal length) in Hdel. rewrite length_delete in Hdel by (by eexists). done. }
  pose proof (best_of_in 0 d 1 ds) as [Hin Hsec]. set (second := (best_of 0 d 1 ds).2) in *.
  apply Hids in Hin as [Hsin Hid].
  pose proof (Hpos second Hsin) as Hps. pose proof (Hpos b (list_elem_of_lookup_2 _ _ _ Hj)) as Hpb.
  pose proof (Hall second Hsin) as Hbs. pose proof (proj1 (better_false _ _) Hbs).
  exists j, b, (n_branch b - n_branch second + if sid second <? sid b then 1 else 0).
  split_and!; [|done|done|].
  - f_equal. f_equal. rewrite (u32_small (n_branch b - _)) by (unfold in_u32; lia).
    destruct (sid second <? sid b); [rewrite u32_small; [done|unfold in_u32; lia]|lia].
  - intros u Hu. apply margin_ahead; [done|done|done|lia|done|]. intros x Hx Hne'. apply Hsec, Hids. done.
Qed.
End Best.

(** ** The walk *)

Section Walk.
Context {L : Type} `{!LedgerOps L} `{!LedgerLaws L}.
Implicit Types (n c : Node L) (t : LedgerTrie L) (m : support_map) (h : list Z).

Lemma sum_swap {A B} (f : A → B → Z) xs ys :
  sum (λ x, sum (f x) ys) xs = sum (λ y, sum (λ x, f x y) xs) ys.
Proof.
  induction xs as [|x xs IH]; simpl; [by rewrite sum_zero|]. rewrite IH. clear IH.
  induction ys as [|y ys IH]; simpl; lia.
Qed.

Lemma sum_indicator (ss : gmap Z Z) (q v : Z) :
  sum (λ x, if x.1 =? q then v else 0) (map_to_list ss) = if decide (is_Some (ss !! q)) then v else 0.
Proof.
  induction ss as [|k w ss Hk IH] using map_ind; [by rewrite map_to_list_empty|].
  rewrite (sum_perm _ _ _ (map_to_list_insert ss k w Hk)). simpl. rewrite IH.
  destruct (Z.eqb_spec k q) as [->|Hne].
  - rewrite lookup_insert_eq, Hk. by repeat case_decide; try done; lia || (exfalso; naive_solver).
  - by rewrite lookup_insert_ne by done.
Qed.

(** The map by sequence number adds up to the support below a sequence number. *)
Lemma upto_weight t m b :
  repr t m →
  upto (in_order (seqSupport t)) b = weight (λ k, Z.of_nat (length k) - 1 <? b) m.
Proof.
  intros H. unfold upto, in_order. rewrite (sum_perm _ _ _ (merge_sort_Permutation _ _)).
  transitivity (sum (λ x : Z * Z, sum (λ y : list Z * Z,
    if x.1 =? Z.of_nat (length y.1) - 1 then if Z.of_nat (length y.1) - 1 <? b then y.2 else 0 else 0)
    (map_to_list m)) (map_to_list (seqSupport t))).
  - apply sum_ext. intros [q v] Hq%elem_of_map_to_list. simpl. rewrite (rp_seq _ _ H) in Hq. simpl in Hq.
    destruct (Z.eqb_spec (weight (at_seq q) m) 0); simplify_eq. unfold weight.
    destruct (Z.ltb_spec q b).
    + apply sum_ext. intros [k w] _. unfold at_seq. simpl.
      destruct (Z.eqb_spec (Z.of_nat (length k)) (q + 1)), (Z.eqb_spec q (Z.of_nat (length k) - 1)); try lia.
      by rewrite (proj2 (Z.ltb_lt _ _)) by lia.
    + rewrite (sum_ext _ (λ _, 0)); [by rewrite sum_zero|]. intros [k w] _. simpl.
      destruct (Z.eqb_spec q (Z.of_nat (length k) - 1)); [|done]. by rewrite (proj2 (Z.ltb_ge _ _)) by lia.
  - rewrite sum_swap. apply sum_ext. intros [k w] Hk%elem_of_map_to_list. simpl. rewrite sum_indicator.
    rewrite decide_True; [done|]. rewrite (rp_seq _ _ H). simpl.
    rewrite (proj2 (Z.eqb_neq _ 0)); [by eexists|].
    pose proof (rp_positive _ _ H k w Hk). pose proof (weight_mono (λ k', bool_decide (k' = k))
      (at_seq (Z.of_nat (length k) - 1)) m (rp_positive _ _ H)) as Hm.
    rewrite weight_exactly, Hk in Hm. simpl in Hm. enough (0 < weight (at_seq (Z.of_nat (length k) - 1)) m) by lia.
    destruct Hm as [_ Hm]; [|lia]. intros k' ->%bool_decide_eq_true. unfold at_seq. apply Z.eqb_eq. lia.
Qed.

(** The step from a node to its best child, by its position. *)
Lemma preferred_from_eq li n u its :
  preferred_from li n u its =
  let '(u, its) := consume ((sp_start (span n) + 1) `max` li) u its in
  let '(nextSeq, u, its) :=
    advance_span (sp_end (span n)) (n_branch n) (sp_start (span n) + 1) u its in
  if nextSeq <? sp_end (span n) then sp_tip (default (span n) (sp_before (span n) nextSeq))
  else
    match best_child (children n) with
    | Some (i, margin) =>
      if (u <? margin) || (u =? 0)
      then match children n !! i with
           | Some c => preferred_from li c u its
           | None => sp_tip (span n)
           end
      else sp_tip (span n)
    | None => sp_tip (span n)
    end.
Proof.
  destruct n as [s t b cs]. simpl. destruct (consume _ u its) as [u1 its1].
  destruct (advance_span _ _ _ u1 its1) as [[ns u2] its2].
  destruct (ns <? sp_end s). { by destruct (sp_before s ns). }
  destruct (best_child cs) as [[i margin]|]; [|done]. destruct ((u2 <? margin) || (u2 =? 0)); [|done].
  revert i. induction cs as [|c cs IH]; intros [|i]; done || apply IH.
Qed.

Lemma pre_succ (l : L) s : 0 ≤ s → pre l (s + 1) = pre l s ++ [l_id l s].
Proof. intros Hs. unfold pre. by rewrite seqZ_app, fmap_app by lia. Qed.

Lemma packed_pos n : wf n → packed n → 0 < n_branch n.
Proof.
  intros Hwf. induction Hwf as [n Hn Hc IH]. intros [Hp Hr]%packed_inv. unfold rooted in Hr.
  rewrite (wf_branch _ Hn). pose proof (wf_tip _ Hn).
  assert (0 ≤ sum n_branch (children n)).
  { apply sum_nonneg. intros c Hcn. specialize (IH c Hcn (Hr c Hcn)). lia. }
  destruct (decide (n_tip n = 0)) as [Ht|]; [|lia]. specialize (Hp Ht).
  destruct (children n) as [|c cs]; [simpl in Hp; lia|]. simpl in *.
  pose proof (IH c ltac:(by left) (Hr c ltac:(by left))).
  assert (0 ≤ sum n_branch cs); [|lia].
  apply sum_nonneg. intros x Hx. specialize (IH x ltac:(by right) (Hr x ltac:(by right))). lia.
Qed.

(** The subtree at [n] has all the histories that begin like its ledger's. *)
Definition holds m n : Prop :=
  ∀ P, within (pre (sp_ledger (span n)) (sp_start (span n) + 1)) P → total P n = weight P m.

Lemma within_prefix h h' P : h' `prefix_of` h → within h P → within h' P.
Proof. intros Hh HP k Hk. transitivity h; [done|by apply HP]. Qed.

Lemma holds_child m n i c : wf n → holds m n → children n !! i = Some c → holds m c.
Proof.
  intros Hwf Hm Hi P HP. pose proof (list_elem_of_lookup_2 _ _ _ Hi) as Hc.
  pose proof (wf_node _ Hwf) as Hn. pose proof (wf_start _ Hn c Hc) as Hs. pose proof (wf_span _ Hn).
  rewrite Hs in HP. rewrite <- (total_one_child P _ n i c Hwf HP Hi).
  - apply Hm. apply (within_prefix (pre (sp_ledger (span c)) (sp_end (span n) + 1))); [|done].
    transitivity (pre (sp_ledger (span c)) (sp_end (span n))); [|apply pre_prefix; lia].
    rewrite (wf_agree _ Hn c Hc). apply pre_prefix. lia.
  - rewrite lookup_pre by lia. unfold startID. by rewrite Hs.
Qed.

(** Inside a span there is one way to go on, with all the support of the node. *)
Lemma backing_span m n s :
  wf n → holds m n → sp_start (span n) < s < sp_end (span n) →
  backing m (pre (sp_ledger (span n)) s ++ [l_id (sp_ledger (span n)) s]) = n_branch n ∧
  ∀ y, y ≠ l_id (sp_ledger (span n)) s → backing m (pre (sp_ledger (span n)) s ++ [y]) = 0.
Proof.
  intros Hwf Hm Hs. pose proof (wf_span _ (wf_node _ Hwf)). set (l := sp_ledger (span n)).
  assert (Hin : ∀ y, within (pre l (sp_start (span n) + 1)) (λ k, bool_decide (pre l s ++ [y] `prefix_of` k))).
  { intros y k Hk%bool_decide_eq_true. transitivity (pre l s); [apply pre_prefix; lia|].
    transitivity (pre l s ++ [y]); [by apply prefix_app_r|done]. }
  unfold backing. split; [|intros y Hy]; rewrite <- (Hm _ (Hin _)).
  - rewrite branch_total by done. apply total_cong; [done|]. intros k Hk. apply bool_decide_eq_true_2.
    rewrite <- pre_succ by lia. transitivity (key n); [apply pre_prefix; lia|done].
  - apply (total_disagree _ n (pre l s ++ [y]) s y); [done|by intros k ?%bool_decide_eq_true|lia| |done].
    pose proof (pre_length l s ltac:(lia)). rewrite lookup_app_r by lia.
    by replace (Z.to_nat s - length (pre l s))%nat with 0%nat by lia.
Qed.

(** At the end of a span the children are the ways to go on. *)
Lemma backing_children m n :
  wf n → holds m n →
  (∀ c, c ∈ children n → backing m (key n ++ [startID (span c)]) = n_branch c) ∧
  ∀ y, (∀ c, c ∈ children n → startID (span c) ≠ y) → backing m (key n ++ [y]) = 0.
Proof.
  intros Hwf Hm. pose proof (wf_node _ Hwf) as Hn. pose proof (wf_span _ Hn).
  pose proof (key_length n Hwf) as Hlen.
  assert (Hlast : ∀ y, (key n ++ [y]) !! Z.to_nat (sp_end (span n)) = Some y).
  { intros y. rewrite lookup_app_r by lia. by replace (Z.to_nat _ - length (key n))%nat with 0%nat by lia. }
  assert (Hw : ∀ y, within (key n ++ [y]) (λ k, bool_decide (key n ++ [y] `prefix_of` k)))
    by (by intros y k ?%bool_decide_eq_true).
  assert (Hin : ∀ y, within (pre (sp_ledger (span n)) (sp_start (span n) + 1))
    (λ k, bool_decide (key n ++ [y] `prefix_of` k))).
  { intros y. apply (within_prefix (key n ++ [y])); [|done].
    transitivity (key n); [apply pre_prefix; lia|by apply prefix_app_r]. }
  unfold backing. split; [intros c Hc|intros y Hy]; rewrite <- (Hm _ (Hin _)).
  - apply list_elem_of_lookup in Hc as [i Hi]. pose proof (list_elem_of_lookup_2 _ _ _ Hi) as Hc.
    rewrite (total_one_child _ _ n i c Hwf (Hw _) Hi) by apply Hlast.
    pose proof (wf_child _ _ Hwf Hc) as Hwc. rewrite branch_total by done. apply total_cong; [done|].
    intros k Hk. apply bool_decide_eq_true_2. transitivity (key c); [|done].
    rewrite <- (wf_agree _ Hn c Hc). unfold startID. rewrite (wf_start _ Hn c Hc), <- pre_succ by lia.
    apply pre_prefix. pose proof (wf_span _ (wf_node _ Hwc)). rewrite (wf_start _ Hn c Hc) in *. lia.
  - rewrite total_eq, (sum_ext _ (λ _, 0)), sum_zero.
    + destruct (bool_decide _) eqn:E; [|done]. apply bool_decide_eq_true, prefix_length in E.
      rewrite length_app in E. simpl in E. lia.
    + intros c Hc. pose proof (wf_child _ _ Hwf Hc) as Hwc. pose proof (wf_span _ (wf_node _ Hwc)).
      rewrite (wf_start _ Hn c Hc) in *.
      apply (total_disagree _ c (key n ++ [y]) (sp_end (span n)) y); [done|done|lia|done|].
      specialize (Hy c Hc). unfold startID in Hy. by rewrite (wf_start _ Hn c Hc) in Hy.
Qed.

(** *** The walk against the specification *)

Context (t : LedgerTrie L) (m : support_map) (li : Z) (Hrep : repr t m).

Abbreviation its0 := (in_order (seqSupport t)).
Abbreviation U := (uncommitted_at m li).

Lemma upto_U s : upto its0 (s `max` li) = U s.
Proof. by apply upto_weight. Qed.

Lemma upto_max b : upto its0 b < 2 ^ 32.
Proof.
  rewrite (upto_weight t m b Hrep). pose proof (rp_max _ _ Hrep) as Hb.
  rewrite branch_total, (rp_total _ _ Hrep) in Hb by apply (rp_wf _ _ Hrep).
  pose proof (weight_mono (λ k, Z.of_nat (length k) - 1 <? b) (λ _, true) m (rp_positive _ _ Hrep)
    (λ _ _, eq_refl)). lia.
Qed.

Lemma its0_nonneg x : x ∈ its0 → 0 ≤ x.2.
Proof.
  destruct x as [q v]. rewrite elem_of_in_order, (rp_seq _ _ Hrep). simpl.
  pose proof (weight_mono (at_seq q) (λ _, true) m (rp_positive _ _ Hrep) (λ _ _, eq_refl)).
  destruct (weight (at_seq q) m =? 0); intros; simplify_eq; lia.
Qed.

Let walk_consume := consume_spec its0 (in_order_strict _) upto_max its0_nonneg.
Let walk_advance := advance_spec its0 (in_order_strict _) upto_max its0_nonneg li.

(** The walk has come to the end of a history on the preferred path. *)
Definition walked (l : L) (e : Z) : Prop := 1 ≤ e ∧ ∀ s, 1 ≤ s < e → decisive m li (pre l s) (l_id l s).

Lemma walked_preferred l e : walked l e → (∀ x, ¬ decisive m li (pre l e) x) → preferred m li (pre l e).
Proof.
  intros [He Hw] Hstop. pose proof (pre_length l e ltac:(lia)) as Hlen. split_and!; [|intros i x Hi Hx|done].
  - intros E. rewrite E in Hlen. simpl in Hlen. lia.
  - pose proof (lookup_lt_Some _ _ _ Hx) as Hlt. specialize (Hw (Z.of_nat i) ltac:(lia)).
    pose proof (lookup_pre l e (Z.of_nat i) ltac:(lia)) as Hl. rewrite Nat2Z.id in Hl.
    replace x with (l_id l (Z.of_nat i)) by congruence.
    replace (take i (pre l e)) with (pre l (Z.of_nat i)); [done|].
    pose proof (pre_length l (Z.of_nat i) ltac:(lia)).
    destruct (pre_prefix l (Z.of_nat i) e ltac:(lia)) as [r ->]. rewrite take_app_length'; [done|lia].
Qed.

Lemma U_pre (l : L) s : 0 ≤ s → U (Z.of_nat (length (pre l s))) = U s.
Proof. intros Hs. by rewrite pre_length. Qed.

(** Along the span of [n] up to [ns]. *)
Lemma walk_span n ns :
  wf n → holds m n → walked (sp_ledger (span n)) (sp_start (span n) + 1) →
  sp_start (span n) + 1 ≤ ns ≤ sp_end (span n) →
  (∀ s, sp_start (span n) + 1 ≤ s < ns → upto its0 (s `max` li) < n_branch n) →
  walked (sp_ledger (span n)) ns ∧
  (ns < sp_end (span n) → n_branch n ≤ upto its0 (ns `max` li) →
   ∀ x, ¬ decisive m li (pre (sp_ledger (span n)) ns) x).
Proof.
  intros Hwf Hm [Hw1 Hw] Hns Hlow. pose proof (wf_span _ (wf_node _ Hwf)). split.
  - split; [lia|]. intros s Hs. destruct (Z.ltb_spec s (sp_start (span n) + 1)); [apply Hw; lia|].
    destruct (backing_span m n s Hwf Hm ltac:(lia)) as [Hb Ho]. intros y Hy. rewrite Hb, (Ho y Hy), U_pre by lia.
    specialize (Hlow s ltac:(lia)). rewrite upto_U in Hlow. left. lia.
  - intros He Hge x Hx%decisive_ahead; [|apply (rp_positive _ _ Hrep)]. rewrite U_pre in Hx by lia.
    rewrite upto_U in Hge. destruct (backing_span m n ns Hwf Hm ltac:(lia)) as [Hb Ho].
    pose proof (uncommitted_nonneg m li (rp_positive _ _ Hrep) ns).
    destruct (decide (x = l_id (sp_ledger (span n)) ns)) as [->|Hne]; [lia|].
    rewrite (Ho x Hne) in Hx. lia.
Qed.

Lemma child_or_not n y :
  (∃ c, c ∈ children n ∧ y = startID (span c)) ∨ ∀ c, c ∈ children n → startID (span c) ≠ y.
Proof.
  destruct (decide (y ∈ (λ c, startID (span c)) <$> children n)) as [(c & -> & Hc)%list_elem_of_fmap|Hno].
  - left. by exists c.
  - right. intros c Hc <-. apply Hno. apply list_elem_of_fmap. by exists c.
Qed.

(** The choice between the children of [n] decides what comes after it. *)
Lemma walk_child n :
  wf n → rooted n → holds m n → n_branch n < 2 ^ 32 →
  let u := U (sp_end (span n)) in
  match best_child (children n) with
  | Some (i, margin) =>
    ∃ c, children n !! i = Some c ∧
      if (u <? margin) || (u =? 0) then decisive m li (key n) (startID (span c))
      else ∀ x, ¬ decisive m li (key n) x
  | None => ∀ x, ¬ decisive m li (key n) x
  end.
Proof.
  intros Hwf Hr Hm Hmax u. destruct (backing_children m n Hwf Hm) as [Hb Ho].
  pose proof (uncommitted_nonneg m li (rp_positive _ _ Hrep) (sp_end (span n))) as Hu.
  assert (Hahead : ∀ x, decisive m li (key n) x → u < backing m (key n ++ [x])).
  { intros x Hx%decisive_ahead; [|apply (rp_positive _ _ Hrep)]. by rewrite key_length in Hx. }
  destruct (decide (children n = [])) as [Hnil|Hne].
  { rewrite Hnil in *. simpl. intros x Hx%Hahead. rewrite Ho in Hx; [lia|]. by intros c ?%not_elem_of_nil. }
  destruct (best_child_spec (children n) Hne (wf_apart _ (wf_node _ Hwf))) as (i & b & margin & -> & Hi & Hbest & Hiff).
  { intros c Hc. pose proof (branch_child n c Hwf Hc).
    pose proof (packed_pos c (wf_child _ _ Hwf Hc) (Hr c Hc)). lia. }
  exists b. split; [done|]. pose proof (list_elem_of_lookup_2 _ _ _ Hi) as Hbn.
  specialize (Hiff u Hu). destruct ((u <? margin) || (u =? 0)) eqn:E.
  - assert (u < margin ∨ u = 0) as [Hub Hall]%Hiff by (apply orb_prop in E as [?%Z.ltb_lt|?%Z.eqb_eq]; lia).
    intros y Hy. rewrite key_length by done. fold u. rewrite (Hb b Hbn).
    destruct (child_or_not n y) as [(c & Hc & ->)|Hno].
    + rewrite (Hb c Hc). by apply Hall.
    + rewrite (Ho y Hno). lia.
  - intros x Hx. pose proof (Hahead x Hx) as Hlt.
    destruct (child_or_not n x) as [(c & Hc & ->)|Hno]; [|rewrite (Ho x Hno) in Hlt; lia].
    unfold decisive in Hx. rewrite key_length in Hx by done. fold u in Hx. rewrite (Hb c Hc) in Hx.
    destruct (decide (startID (span c) = startID (span b))) as [Heq|Hne'].
    + apply orb_false_elim in E as [E1%Z.ltb_ge E2%Z.eqb_neq].
      assert (Hcb : n_branch c = n_branch b) by (rewrite <- (Hb c Hc), <- (Hb b Hbn), Heq; done).
      assert (stays_ahead u b (children n)) as [?|?]%Hiff; [|lia|lia]. split.
      * rewrite (Hb c Hc) in Hlt. lia.
      * intros d Hd Hdb. rewrite <- Heq in *. specialize (Hx _ Hdb). rewrite (Hb d Hd) in Hx. lia.
    + specialize (Hx (startID (span b)) ltac:(done)). rewrite (Hb b Hbn) in Hx.
      specialize (Hbest c Hc). rewrite better_false in Hbest. lia.
Qed.

(** The history that ends with a tip. *)
Definition tip_history (x : SpanTip L) : list Z := pre (tip_ledger x) (tip_seq x + 1).

Lemma sp_tip_history s : tip_history (sp_tip s) = pre (sp_ledger s) (sp_end s).
Proof. unfold tip_history. simpl. f_equal. lia. Qed.

Lemma walk_spec n b :
  wf n → rooted n → holds m n → n_branch n < 2 ^ 32 →
  walked (sp_ledger (span n)) (sp_start (span n) + 1) → b ≤ (sp_start (span n) + 1) `max` li →
  let x := preferred_from li n (upto its0 b) (rest its0 b) in
  preferred m li (tip_history x) ∧ tip_id x = l_id (tip_ledger x) (tip_seq x) ∧
  0 ≤ tip_seq x ≤ l_seq (tip_ledger x).
Proof.
  intros Hwf. pose proof Hwf as Hw. revert b. induction Hw as [n Hn Hc IH]. intros b Hr Hm Hmax Hpath Hb.
  pose proof (wf_span _ Hn). rewrite preferred_from_eq, (walk_consume b) by done.
  destruct (walk_advance (sp_end (span n)) (n_branch n) (sp_start (span n) + 1)) as
    (ns & -> & Hns & Hlow & Hstop); [lia|].
  destruct (walk_span n ns Hwf Hm Hpath Hns Hlow) as [Hwalk Hend].
  destruct (Z.ltb_spec ns (sp_end (span n))) as [Hlt|Hge].
  { pose proof (wf_end _ Hn). rewrite sp_before_inside by lia. simpl. split; [|split; [done|lia]]. rewrite sp_tip_history. simpl.
    apply walked_preferred; [done|]. by apply Hend; [|apply Hstop]. }
  assert (ns = sp_end (span n)) as -> by lia.
  assert (Htip : (∀ x, ¬ decisive m li (key n) x) →
    preferred m li (tip_history (sp_tip (span n))) ∧
    tip_id (sp_tip (span n)) = l_id (tip_ledger (sp_tip (span n))) (tip_seq (sp_tip (span n))) ∧
    0 ≤ tip_seq (sp_tip (span n)) ≤ l_seq (tip_ledger (sp_tip (span n)))).
  { intros Hno. pose proof (wf_end _ Hn). split; [|split; [done|simpl; lia]]. rewrite sp_tip_history. by apply walked_preferred. }
  pose proof (walk_child n Hwf Hr Hm Hmax) as Hchild. rewrite upto_U.
  destruct (best_child (children n)) as [[i margin]|]; [|by apply Htip].
  destruct Hchild as (c & Hi & Hdec). rewrite Hi.
  destruct ((U (sp_end (span n)) <? margin) || (U (sp_end (span n)) =? 0)); [|by apply Htip].
  pose proof (list_elem_of_lookup_2 _ _ _ Hi) as Hcn. pose proof (wf_start _ Hn c Hcn) as Hs.
  pose proof (branch_child n c Hwf Hcn). pose proof (packed_inv c (Hr c Hcn)) as [_ Hrc].
  rewrite <- upto_U. apply IH; [done|by apply (wf_child n)|done|by apply (holds_child m n i)|lia| |lia].
  rewrite Hs. split; [lia|]. pose proof (wf_agree _ Hn c Hcn) as Hag. intros s Hss.
  destruct (decide (s = sp_end (span n))) as [->|Hne].
  - rewrite Hag. unfold startID in Hdec. by rewrite Hs in Hdec.
  - rewrite (pre_inj _ _ _ Hag) by lia. destruct Hwalk as [_ Hwalk]. specialize (Hwalk s ltac:(lia)).
    rewrite (pre_ext _ (sp_ledger (span n)) s); [done|]. intros k Hk. apply (pre_inj _ _ _ Hag). lia.
Qed.

Lemma holds_root : holds m (root t).
Proof. intros P _. apply (rp_total _ _ Hrep). Qed.

Lemma its0_start : rest its0 (-1) = its0 ∧ upto its0 (-1) = 0.
Proof.
  apply rest_all. intros [q v]. rewrite elem_of_in_order, (rp_seq _ _ Hrep). simpl.
  destruct (Z.leb_spec (-1) q); [done|]. unfold weight. rewrite (sum_ext _ (λ _, 0)), sum_zero; [done|].
  intros [k w] _. unfold at_seq. simpl. by rewrite (proj2 (Z.eqb_neq _ _)) by lia.
Qed.

Lemma getPreferred_walk :
  m ≠ ∅ → ∃ x, getPreferred t li = Some x ∧ preferred m li (tip_history x) ∧
    tip_id x = l_id (tip_ledger x) (tip_seq x) ∧ 0 ≤ tip_seq x ≤ l_seq (tip_ledger x).
Proof.
  intros Hne. unfold getPreferred. rewrite (repr_empty_iff t m Hrep), bool_decide_eq_false_2 by done.
  eexists. split; [done|]. destruct its0_start as [E1 E2].
  pose proof Hrep as [Hwf Hs He Hb Hr _ _ _].
  destruct (walk_spec (root t) (-1) Hwf Hr holds_root Hb) as [H1 H2].
  - rewrite Hs. split; [lia|]. lia.
  - lia.
  - rewrite E1, E2 in H1, H2. done.
Qed.
End Walk.

Lemma tip_history_head {L} `{!LedgerOps L} `{!LedgerLaws L} (x : SpanTip L) :
  tip_history x ≠ [] → head (tip_history x) = Some (l_id (genesis : L) 0).
Proof.
  intros Hne. unfold tip_history in *. destruct (Z.leb_spec 1 (tip_seq x + 1)).
  - rewrite head_lookup, <- (l_id_genesis (tip_ledger x)). apply (lookup_pre _ _ 0). lia.
  - exfalso. apply Hne. unfold pre. rewrite seqZ_nil; [done|lia].
Qed.

(** C8: [getPreferred] computes the preferred history of its description: it returns no
    ledger if nothing is supported, and otherwise the tip of the history, beginning at
    the genesis ledger, whose ledgers each stay ahead of all competitors under any
    outcome of the uncommitted support and after which no ledger does.  There is only
    one such history. *)
Theorem preferred_correct {L} `{!LedgerOps L} `{!LedgerLaws L} (t : LedgerTrie L) m li :
  reach t m →
  match getPreferred t li with
  | None => m = ∅
  | Some x =>
    m ≠ ∅ ∧ preferred m li (tip_history x) ∧
    (∀ h, preferred m li h → head h = Some (l_id (genesis : L) 0) → h = tip_history x) ∧
    tip_id x = tip_ancestor x (tip_seq x) ∧
    ∀ q, 0 ≤ q ≤ tip_seq x → tip_history x !! Z.to_nat q = Some (tip_ancestor x q)
  end.
Proof.
  intros H%reach_repr. destruct (decide (m = ∅)) as [->|Hne].
  - unfold getPreferred. by rewrite (repr_empty_iff t ∅ H), bool_decide_eq_true_2.
  - destruct (getPreferred_walk t m li H Hne) as (x & -> & Hp & Hid & _). split_and!; [done|done| |done|].
    + intros h Hh Hhead. apply (preferred_unique m li (rp_positive _ _ H)); [done|done|].
      rewrite Hhead. symmetry. by apply tip_history_head, Hp.
    + intros q Hq. apply lookup_pre. lia.
Qed.
