(* ===== verification/Validations.v ===== *)
(** * Validations

    Model of [src/src/ripple/consensus/Validations.h]: the validations a server has
    received, by node and by ledger, and the trie of the ledgers the trusted nodes
    validated last, which is asked for the preferred ledger.

    The application behind the adaptor is a world [W] that the operations thread: it
    tells the time, acquires ledgers and is handed stale validations.  Hash containers
    are iterated in the order of [HashOrder].  [LedgerTrie::getPreferred] sorts the
    children of nodes in place; [sort_trie] stands for the tree it leaves.  The mutex
    is not modelled: an operation is a step.

    The theorems: the trie counts each node of [lastLedger_] once, so that questions
    put to the trie are answered as if the nodes' ledgers had been counted one by one;
    validations of a node are accepted in increasing order; the choice of the
    preferred ledger. *)

From stdpp Require Import base numbers list gmap strings relations.
From Stdlib Require Import Lia ZArith.
From S2P Require Import Prelude LedgerTrie LedgerTrieSupport LedgerTriePreferred.

Local Open Scope Z_scope.

(** ** Parameters and helpers *)

(** Durations in seconds. *)
Record ValidationParms := mkVParms {
  validationCURRENT_WALL : Z;
  validationCURRENT_LOCAL : Z;
  validationCURRENT_EARLY : Z;
  validationSET_EXPIRES : Z }.

Definition defaultVParms : ValidationParms :=
  mkVParms (60 * 5) (60 * 3) (60 * 3) (60 * 10).

Record SeqEnforcer := mkEnforcer { enf_seq : Z; enf_when : Z }.

Definition newEnforcer : SeqEnforcer := mkEnforcer 0 0.

(** [SeqEnforcer::operator()] *)
Definition enforce (p : ValidationParms) (now s : Z) (e : SeqEnforcer) : bool * SeqEnforcer :=
  let e :=
    if enf_when e + validationSET_EXPIRES p <? now then mkEnforcer 0 (enf_when e) else e in
  if s <=? enf_seq e then (false, e) else (true, mkEnforcer s now).

Definition largest (e : SeqEnforcer) : Z := enf_seq e.

(** Times of the network clock; the arithmetic is on 64 bits and does not overflow. *)
Definition isCurrent (p : ValidationParms) (now signTime seenTime : Z) : bool :=
  (now - validationCURRENT_EARLY p <? signTime) && (signTime <? now + validationCURRENT_WALL p)
  && ((seenTime =? 0) || (seenTime <? now + validationCURRENT_LOCAL p)).

Inductive ValStatus := VsCurrent | VsStale | VsBadSeq.

Record Validation := mkVal {
  ledgerID : Z;
  v_seq : Z;
  signTime : Z;
  seenTime : Z;
  trusted : bool;
  full : bool;
  loadFee : option Z }.

Definition set_trust (b : bool) (v : Validation) : Validation :=
  mkVal (ledgerID v) (v_seq v) (signTime v) (seenTime v) b (full v) (loadFee v).

(** ** The adaptor *)

Class VAdaptor (W L : Type) := {
  va_now : W → Z * W;
  va_clock : W → Z * W;
  acquire : Z → W → option L * W;
  onStale : Validation → W → W;
  va_flush : gmap Z Validation → W → W }.

(** The tree after [LedgerTrie::getPreferred] has sorted children of its nodes. *)
Class TrieSort (L : Type) := { sort_trie : LedgerTrie L → LedgerTrie L }.

(** ** State *)

Record Validations {L : Type} : Type := mkVs {
  current_ : gmap Z Validation;
  localSeqEnforcer_ : SeqEnforcer;
  seqEnforcers_ : gmap Z SeqEnforcer;
  byLedger_ : gmap Z (Z * gmap Z Validation);
  trie_ : LedgerTrie L;
  lastLedger_ : gmap Z L;
  acquiring_ : gmap (Z * Z) (gset Z) }.
Arguments Validations : clear implicits.
Arguments mkVs {L} _ _ _ _ _ _ _.

Section Setters.
Context {L : Type}.
Implicit Types v : Validations L.

Definition set_current c v :=
  mkVs c (localSeqEnforcer_ v) (seqEnforcers_ v) (byLedger_ v) (trie_ v) (lastLedger_ v) (acquiring_ v).
Definition set_local e v :=
  mkVs (current_ v) e (seqEnforcers_ v) (byLedger_ v) (trie_ v) (lastLedger_ v) (acquiring_ v).
Definition set_enforcers e v :=
  mkVs (current_ v) (localSeqEnforcer_ v) e (byLedger_ v) (trie_ v) (lastLedger_ v) (acquiring_ v).
Definition set_byLedger b v :=
  mkVs (current_ v) (localSeqEnforcer_ v) (seqEnforcers_ v) b (trie_ v) (lastLedger_ v) (acquiring_ v).
Definition set_trie t v :=
  mkVs (current_ v) (localSeqEnforcer_ v) (seqEnforcers_ v) (byLedger_ v) t (lastLedger_ v) (acquiring_ v).
Definition set_last l v :=
  mkVs (current_ v) (localSeqEnforcer_ v) (seqEnforcers_ v) (byLedger_ v) (trie_ v) l (acquiring_ v).
Definition set_acquiring a v :=
  mkVs (current_ v) (localSeqEnforcer_ v) (seqEnforcers_ v) (byLedger_ v) (trie_ v) (lastLedger_ v) a.
End Setters.

(** ** Operations *)

Section Operations.
Context {W L : Type} `{!LedgerOps L} `{!VAdaptor W L} `{!TrieSort L} `{!HashOrder} (parms_ : ValidationParms).
#[local] Abbreviation V := (Validations L).
Implicit Types (v : V) (w : W) (ws : W * V) (val : Validation) (node : Z) (ledger : L).

Definition newValidations : V := mkVs ∅ newEnforcer ∅ ∅ emptyTrie ∅ ∅.

Definition ledger_id ledger : Z := l_id ledger (l_seq ledger).

(** No longer waiting for the ledger on behalf of the node. *)
Definition forget_acquiring (k : Z * Z) node v : V :=
  match acquiring_ v !! k with
  | Some nodes =>
    let nodes := nodes ∖ {[node]} in
    set_acquiring (if bool_decide (nodes = ∅) then delete k (acquiring_ v)
                   else <[k := nodes]> (acquiring_ v)) v
  | None => v
  end.

Definition removeTrie node val v : V :=
  let v := forget_acquiring (v_seq val, ledgerID val) node v in
  match lastLedger_ v !! node with
  | Some l =>
    if ledger_id l =? ledgerID val
    then set_last (delete node (lastLedger_ v)) (set_trie (trie_remove l 1 (trie_ v)).2 v)
    else v
  | None => v
  end.

Definition updateTrie_ledger node ledger v : V :=
  let v :=
    match lastLedger_ v !! node with
    | Some l => set_trie (trie_remove l 1 (trie_ v)).2 v
    | None => v
    end in
  set_trie (trie_insert ledger 1 (trie_ v)) (set_last (<[node := ledger]> (lastLedger_ v)) v).

Definition check_acquiring ws (it : (Z * Z) * gset Z) : W * V :=
  let '(w, v) := ws in
  let '(k, nodes) := it in
  let '(ledger, w) := acquire k.2 w in
  match ledger with
  | Some ledger =>
    let v := foldl (λ v node, updateTrie_ledger node ledger v) v (set_order nodes) in
    (w, set_acquiring (delete k (acquiring_ v)) v)
  | None => (w, v)
  end.

Definition checkAcquired ws : W * V := foldl check_acquiring ws (hash_order (acquiring_ ws.2)).

Definition updateTrie node val (prior : option (Z * Z)) ws : W * V :=
  let '(w, v) := ws in
  let v := match prior with Some prior => forget_acquiring prior node v | None => v end in
  let '(w, v) := checkAcquired (w, v) in
  let valPair := (v_seq val, ledgerID val) in
  match acquiring_ v !! valPair with
  | Some nodes => (w, set_acquiring (<[valPair := nodes ∪ {[node]}]> (acquiring_ v)) v)
  | None =>
    let '(ledger, w) := acquire (ledgerID val) w in
    match ledger with
    | Some ledger => (w, updateTrie_ledger node ledger v)
    | None => (w, set_acquiring (<[valPair := {[node]}]> (acquiring_ v)) v)
    end
  end.

(** The loop over the current validations, which drops those that are stale and lists
    the others. *)
Definition current_step (t : Z) (acc : W * V * list (Z * Validation)) (it : Z * Validation) :=
  let '(w, v, live) := acc in
  let '(node, val) := it in
  if negb (isCurrent parms_ t (signTime val) (seenTime val)) then
    let v := removeTrie node val v in
    (onStale val w, set_current (delete node (current_ v)) v, live)
  else (w, v, live ++ [it]).

Definition current ws : W * V * list (Z * Validation) :=
  let '(w, v) := ws in
  let '(t, w) := va_now w in
  foldl (current_step t) (w, v, []) (hash_order (current_ v)).

Definition withTrie {A} (f : LedgerTrie L → A) ws : A * (W * V) :=
  let '(w, v, _) := current ws in
  let ws := checkAcquired (w, v) in
  (f (trie_ ws.2), ws).

(** The validations for a ledger, whose time of use is renewed. *)
Definition byLedger (id : Z) ws : list (Z * Validation) * (W * V) :=
  let '(w, v) := ws in
  match byLedger_ v !! id with
  | Some (_, vals) =>
    let '(now, w) := va_clock w in
    (hash_order vals, (w, set_byLedger (<[id := (now, vals)]> (byLedger_ v)) v))
  | None => ([], ws)
  end.

Definition canValidateSeq (s : Z) ws : bool * (W * V) :=
  let '(w, v) := ws in
  let '(now, w) := va_clock w in
  let '(ok, e) := enforce parms_ now s (localSeqEnforcer_ v) in
  (ok, (w, set_local e v)).

Definition add node val ws : ValStatus * (W * V) :=
  let '(w, v) := ws in
  let '(t, w) := va_now w in
  if negb (isCurrent parms_ t (signTime val) (seenTime val)) then (VsStale, (w, v))
  else
    let '(now, w) := va_clock w in
    let '(ok, e) := enforce parms_ now (v_seq val) (default newEnforcer (seqEnforcers_ v !! node)) in
    let v := set_enforcers (<[node := e]> (seqEnforcers_ v)) v in
    if negb ok then (VsBadSeq, (w, v))
    else
      let '(when, vals, w) :=
        match byLedger_ v !! ledgerID val with
        | Some (when, vals) => (when, vals, w)
        | None => let '(now, w) := va_clock w in (now, ∅, w)
        end in
      let v := set_byLedger (<[ledgerID val := (when, <[node := val]> vals)]> (byLedger_ v)) v in
      match current_ v !! node with
      | Some oldVal =>
        if signTime oldVal <? signTime val then
          let old := (v_seq oldVal, ledgerID oldVal) in
          let w := onStale oldVal w in
          let v := set_current (<[node := val]> (current_ v)) v in
          (VsCurrent, if trusted val then updateTrie node val (Some old) (w, v) else (w, v))
        else (VsStale, (w, v))
      | None =>
        let v := set_current (<[node := val]> (current_ v)) v in
        (VsCurrent, if trusted val then updateTrie node val None (w, v) else (w, v))
      end.

(** [beast::expire] on the container by ledger: the entries not used for long.  The
    clock is steady, so they are first in chronological order. *)
Definition expire ws : W * V :=
  let '(w, v) := ws in
  let '(now, w) := va_clock w in
  (w, set_byLedger (filter (λ x, ¬ x.2.1 ≤ now - validationSET_EXPIRES parms_) (byLedger_ v)) v).

Definition trust_step (added removed : gset Z) ws (it : Z * Validation) : W * V :=
  let '(w, v) := ws in
  let '(node, val) := it in
  if bool_decide (node ∈ added) then
    let val := set_trust true val in
    updateTrie node val None (w, set_current (<[node := val]> (current_ v)) v)
  else if bool_decide (node ∈ removed) then
    let val := set_trust false val in
    (w, removeTrie node val (set_current (<[node := val]> (current_ v)) v))
  else ws.

Definition retrust (added removed : gset Z) node val : Validation :=
  if bool_decide (node ∈ added) then set_trust true val
  else if bool_decide (node ∈ removed) then set_trust false val
  else val.

Definition retrust_all (added removed : gset Z) (x : Z * gmap Z Validation) : Z * gmap Z Validation :=
  (x.1, map_imap (λ node val, Some (retrust added removed node val)) x.2).

Definition trustChanged (added removed : gset Z) ws : W * V :=
  let '(w, v) := foldl (trust_step added removed) ws (hash_order (current_ ws.2)) in
  (w, set_byLedger (retrust_all added removed <$> byLedger_ v) v).

(** [std::max_element]: the first of the largest elements. *)
Definition max_element {A} (lt : A → A → bool) (xs : list A) : option A :=
  match xs with
  | [] => None
  | x :: xs => Some (foldl (λ best y, if lt best y then y else best) x xs)
  end.

Definition lex_lt (a b : Z * Z) : bool := (a.1 <? b.1) || ((a.1 =? b.1) && (a.2 <? b.2)).

(** The current ledger against the one the trusted validators prefer. *)
Definition choose (curr : L) (preferred : SpanTip L) : Z * Z :=
  let mine := (l_seq curr, ledger_id curr) in
  let theirs := (tip_seq preferred, tip_id preferred) in
  if (tip_seq preferred =? u32 (l_seq curr + 1)) && (tip_ancestor preferred (l_seq curr) =? ledger_id curr)
  then mine
  else if l_seq curr <? tip_seq preferred then theirs
  else if negb (l_id curr (tip_seq preferred) =? tip_id preferred) then theirs
  else mine.

Definition getPreferred_pair (curr : L) ws : option (Z * Z) * (W * V) :=
  let '(preferred, (w, v)) :=
    withTrie (λ trie, getPreferred trie (largest (localSeqEnforcer_ ws.2))) ws in
  let v := set_trie (sort_trie (trie_ v)) v in
  match preferred with
  | None =>
    (fst <$> max_element (λ a b, lex_lt (Z.of_nat (size a.2), a.1.2) (Z.of_nat (size b.2), b.1.2))
       (hash_order (acquiring_ v)), (w, v))
  | Some preferred => (Some (choose curr preferred), (w, v))
  end.

Definition getPreferred_min (curr : L) (minValidSeq : Z) ws : Z * (W * V) :=
  let '(preferred, ws) := getPreferred_pair curr ws in
  (match preferred with
   | Some (seq, id) => if minValidSeq <=? seq then id else ledger_id curr
   | None => ledger_id curr
   end, ws).

Definition getPreferredLCL (lcl : L) (minSeq : Z) (peerCounts : gmap Z Z) ws : Z * (W * V) :=
  let '(preferred, ws) := getPreferred_pair lcl ws in
  (match preferred with
   | Some (seq, id) => if minSeq <=? seq then id else ledger_id lcl
   | None =>
     match max_element (λ a b, lex_lt (a.2, a.1) (b.2, b.1)) (hash_order peerCounts) with
     | Some (id, _) => id
     | None => ledger_id lcl
     end
   end, ws).

Definition getNodesAfter ledger (id : Z) ws : Z * (W * V) :=
  if ledger_id ledger =? id
  then withTrie (λ trie, u32 (branchSupport trie ledger - tipSupport trie ledger)) ws
  else
    (Z.of_nat (length (filter (λ it, 0 < l_seq it.2 ∧ l_id it.2 (l_seq it.2 - 1) = id)
       (hash_order (lastLedger_ ws.2)))), ws).

Definition trusted_full (it : Z * Validation) : bool := trusted it.2 && full it.2.

Definition currentTrusted ws : list Validation * (W * V) :=
  let '(w, v, live) := current ws in
  (snd <$> filter (λ it, trusted_full it = true) live, (w, v)).

Definition getCurrentNodeIDs ws : gset Z * (W * V) :=
  let '(w, v, live) := current ws in (list_to_set live.*1, (w, v)).

Definition numTrustedForLedger (id : Z) ws : Z * (W * V) :=
  let '(its, ws) := byLedger id ws in
  (Z.of_nat (length (filter (λ it, trusted_full it = true) its)), ws).

Definition getTrustedForLedger (id : Z) ws : list Validation * (W * V) :=
  let '(its, ws) := byLedger id ws in
  (snd <$> filter (λ it, trusted_full it = true) its, ws).

Definition fees (id baseFee : Z) ws : list Z * (W * V) :=
  let '(its, ws) := byLedger id ws in
  ((λ it, default baseFee (loadFee it.2)) <$> filter (λ it, trusted_full it = true) its, ws).

Definition flush ws : W * V :=
  let '(w, v) := ws in
  let flushed := current_ v in
  (va_flush flushed w, set_current ∅ v).
End Operations.
#[global] Arguments updateTrie : simpl never.
#[global] Arguments checkAcquired : simpl never.
#[global] Arguments check_acquiring : simpl never.
