(* ===== verification/ValidationsSafety.v ===== *)
(** * Correctness of the validations

    Invariants and answers of the [Validations] of a server over any sequence of its
    operations: the trie holds one unit of support for each node of [lastLedger_], so
    the questions answered from the trie are counts of nodes; the preferred ledger is
    the one of the specification in [LedgerTriePreferred]; the sequence numbers a node
    validates increase. *)

From stdpp Require Import base numbers list gmap strings relations sorting.
From Stdlib Require Import Lia ZArith.
From S2P Require Import Prelude LedgerTrie LedgerTrieSupport LedgerTriePreferred Validations.

Local Open Scope Z_scope.

(** ** Counting nodes *)

Section Tally.
Context {L : Type} `{!LedgerOps L} `{!LedgerLaws L}.
Implicit Types (ll : gmap Z L) (P : list Z → bool) (l : L) (node : Z).

(** The number of nodes whose last ledger's history satisfies [P]. *)
Definition headcount P ll : Z := sum (λ x, if P (hist x.2) then 1 else 0) (map_to_list ll).

Lemma headcount_empty P : headcount P ∅ = 0.
Proof. unfold headcount. by rewrite map_to_list_empty. Qed.

Lemma headcount_insert P ll node l :
  ll !! node = None → headcount P (<[node := l]> ll) = headcount P ll + if P (hist l) then 1 else 0.
Proof.
  intros H. unfold headcount. rewrite (sum_perm _ _ _ (map_to_list_insert ll node l H)). simpl. lia.
Qed.

Lemma headcount_delete P ll node l :
  ll !! node = Some l → headcount P (delete node ll) = headcount P ll - if P (hist l) then 1 else 0.
Proof.
  intros H. pose proof (headcount_insert P (delete node ll) node l (lookup_delete_eq ll node)) as Hi.
  rewrite (insert_delete_id ll node l H) in Hi. lia.
Qed.

Lemma headcount_nonneg P ll : 0 ≤ headcount P ll.
Proof. apply sum_nonneg. intros x _. destruct (P (hist x.2)); lia. Qed.

Lemma headcount_all ll : headcount everything ll = Z.of_nat (size ll).
Proof.
  induction ll as [|node l ll Hn IH] using map_ind; [by rewrite headcount_empty, map_size_empty|].
  rewrite headcount_insert, map_size_insert_None, IH by done. simpl. lia.
Qed.

Lemma headcount_pos P ll node l : ll !! node = Some l → P (hist l) = true → 1 ≤ headcount P ll.
Proof.
  intros H HP. pose proof (headcount_delete P ll node l H). rewrite HP in *.
  pose proof (headcount_nonneg P (delete node ll)). lia.
Qed.

(** The support the nodes' last ledgers amount to. *)
Definition supports ll : support_map := foldr (λ x, m_insert (hist x.2) 1) ∅ (map_to_list ll).

Lemma supports_spec ll : positive_map (supports ll) ∧ ∀ P, weight P (supports ll) = headcount P ll.
Proof.
  unfold supports, headcount. induction (map_to_list ll) as [|x xs [Hp Hw]]; simpl.
  - split; [by intros h v; rewrite lookup_empty|]. intros P. by rewrite weight_empty.
  - split; [by apply positive_insert|]. intros P. rewrite m_insert_weight, Hw. lia.
Qed.

(** The trie counts the nodes. *)
Definition accounts (t : LedgerTrie L) ll : Prop := ∃ m, reach t m ∧ ∀ P, weight P m = headcount P ll.

Lemma weight_determines m m' :
  positive_map m → positive_map m' → (∀ P, weight P m = weight P m') → m = m'.
Proof.
  intros Hp Hp' Hw. apply map_eq. intros h. specialize (Hw (λ k, bool_decide (k = h))).
  rewrite !weight_exactly in Hw. destruct (m !! h) as [a|] eqn:Ea, (m' !! h) as [b|] eqn:Eb; simpl in Hw.
  - by rewrite Hw.
  - apply Hp in Ea. lia.
  - apply Hp' in Eb. lia.
  - done.
Qed.

Lemma accounts_supports t ll : accounts t ll → reach t (supports ll).
Proof.
  intros (m & Hr & Hm). destruct (supports_spec ll) as [Hp Hw].
  rewrite <- (weight_determines m (supports ll)); [done| |done|].
  - apply reach_repr in Hr. apply Hr.
  - intros P. by rewrite Hm, Hw.
Qed.

Lemma accounts_remove t ll node l :
  accounts t ll → ll !! node = Some l → accounts (trie_remove l 1 t).2 (delete node ll).
Proof.
  intros (m & Hr & Hm) Hl. exists (m_remove (hist l) 1 m). split; [by apply reach_remove|].
  intros P. rewrite weight_remove, Hm, (headcount_delete P ll node l) by done.
  assert (1 ≤ default 0 (m !! hist l)).
  { rewrite <- weight_exactly, Hm. apply (headcount_pos _ ll node l); [done|]. by apply bool_decide_eq_true_2. }
  destruct (P (hist l)); lia.
Qed.

Lemma accounts_insert t ll node l :
  accounts t ll → ll !! node = None → Z.of_nat (size ll) + 1 < 2 ^ 32 →
  accounts (trie_insert l 1 t) (<[node := l]> ll).
Proof.
  intros (m & Hr & Hm) Hl Hs. exists (m_insert (hist l) 1 m). split.
  - apply reach_insert; [done|lia|]. by rewrite Hm, headcount_all.
  - intros P. by rewrite m_insert_weight, Hm, headcount_insert.
Qed.

Lemma accounts_sort t t' ll : accounts t ll → rtc sorts t t' → accounts t' ll.
Proof.
  intros (m & Hr & Hm) Hs. exists m. split; [|done]. induction Hs; [done|]. apply IHHs. by apply (reach_sort x).
Qed.
End Tally.

Section Dom.
Context {A : Type} (m : gmap Z A) (X : gset Z).

Lemma dom_delete_sub k : dom m ⊆ X → dom (delete k m) ⊆ X.
Proof. intros Hm. rewrite dom_delete_L. by apply subseteq_difference_l. Qed.

Lemma dom_insert_sub k x : dom m ⊆ X → k ∈ X → dom (<[k := x]> m) ⊆ X.
Proof.
  intros Hm Hk. rewrite dom_insert_L. apply union_subseteq. split; [by apply singleton_subseteq_l|done].
Qed.
End Dom.

(** ** The invariant *)

Class TrieSortLaws (L : Type) `{!LedgerOps L} `{!TrieSort L} := {
  sort_trie_sorts : ∀ t, rtc sorts t (sort_trie t) }.

Section Invariant.
Context {W L : Type} `{!LedgerOps L} `{!LedgerLaws L} `{!VAdaptor W L} `{!TrieSort L} `{!TrieSortLaws L} `{HO : !HashOrder}.
Context (parms_ : ValidationParms).

(** The nodes that validations come from. *)
Context (known : gset Z) (known_size : Z.of_nat (size known) < 2 ^ 32 - 1).

#[local] Abbreviation V := (Validations L).
Implicit Types (v : V) (w : W) (ws : W * V) (val : Validation) (node : Z) (l : L).

Record vinv v : Prop := {
  vi_accounts : accounts (trie_ v) (lastLedger_ v);
  vi_last : dom (lastLedger_ v) ⊆ known;
  vi_current : dom (current_ v) ⊆ known;
  vi_acquiring : ∀ k X, acquiring_ v !! k = Some X → X ≠ ∅ ∧ X ⊆ known;
  vi_filed : ∀ id x node val, byLedger_ v !! id = Some x → x.2 !! node = Some val → ledgerID val = id }.

Lemma vinv_new : vinv newValidations.
Proof.
  split; simpl.
  - exists ∅. split; [apply reach_empty|]. intros P. by rewrite headcount_empty, weight_empty.
  - by rewrite dom_empty_L.
  - by rewrite dom_empty_L.
  - done.
  - done.
Qed.

Lemma foldl_inv {A B} (I : A → Prop) (f : A → B → A) (Q : B → Prop) xs a :
  I a → (∀ x, x ∈ xs → Q x) → (∀ a x, I a → Q x → I (f a x)) → I (foldl f a xs).
Proof.
  intros Ha Hq Hf. revert a Ha. induction xs as [|x xs IH]; intros a Ha; simpl; [done|].
  apply IH; [|apply Hf; [done|]]; [intros y Hy; apply Hq; by right|apply Hq; by left].
Qed.

Lemma forget_acquiring_vinv k node v : vinv v → vinv (forget_acquiring k node v).
Proof.
  intros [Ha Hl Hc Hq Hf]. unfold forget_acquiring. destruct (acquiring_ v !! k) as [X|] eqn:E; [|done].
  split; simpl; [done|done|done| |done]. intros k' X'. destruct (Hq k X E) as [_ HX].
  case_bool_decide as HX'.
  - intros [_ ?]%lookup_delete_Some. by apply (Hq k').
  - intros [[<- <-]|[_ ?]]%lookup_insert_Some; [|by apply (Hq k')]. split; [done|]. by apply subseteq_difference_l.
Qed.

Lemma removeTrie_vinv node val v : vinv v → vinv (removeTrie node val v).
Proof.
  intros H. unfold removeTrie. apply (forget_acquiring_vinv (v_seq val, ledgerID val) node) in H.
  set (v' := forget_acquiring _ _ _) in *. destruct (lastLedger_ v' !! node) as [l|] eqn:E; [|done].
  destruct (ledger_id l =? ledgerID val); [|done]. destruct H as [Ha Hl Hc Hq Hf].
  split; simpl; [by apply accounts_remove|by apply dom_delete_sub|done|done|done].
Qed.

Lemma known_bound (ll : gmap Z L) node :
  dom ll ⊆ known → node ∈ known → ll !! node = None → Z.of_nat (size ll) + 1 < 2 ^ 32.
Proof.
  intros Hd Hn Hl. pose proof (subseteq_size _ _ Hd) as Hs. rewrite size_dom in Hs. lia.
Qed.

Lemma updateTrie_ledger_vinv node l v : vinv v → node ∈ known → vinv (updateTrie_ledger node l v).
Proof.
  intros [Ha Hl Hc Hq Hf] Hn. unfold updateTrie_ledger.
  assert (Hacc : ∀ t, accounts t (delete node (lastLedger_ v)) →
    accounts (trie_insert l 1 t) (<[node := l]> (lastLedger_ v))).
  { intros t Ht. rewrite <- insert_delete_eq. apply accounts_insert; [done|apply lookup_delete_eq|].
    apply (known_bound _ node); [by apply dom_delete_sub|done|apply lookup_delete_eq]. }
  destruct (lastLedger_ v !! node) as [old|] eqn:E; split; simpl; try done.
  - apply Hacc. by apply accounts_remove.
  - by apply dom_insert_sub.
  - apply Hacc. by rewrite delete_id.
  - by apply dom_insert_sub.
Qed.

Lemma set_acquiring_delete k v : vinv v → vinv (set_acquiring (delete k (acquiring_ v)) v).
Proof.
  intros [Ha Hl Hc Hq Hf]. split; simpl; [done|done|done| |done].
  intros k' X [_ ?]%lookup_delete_Some. by apply (Hq k').
Qed.

Lemma check_acquiring_vinv ws it : vinv ws.2 → it.2 ⊆ known → vinv (check_acquiring ws it).2.
Proof.
  destruct ws as [w v], it as [k X]. unfold check_acquiring. simpl. intros H HX.
  destruct (acquire k.2 w) as [[l|] w']; simpl; [|done]. apply set_acquiring_delete.
  apply (foldl_inv vinv _ (λ node, node ∈ known)); [done| |].
  - intros node Hn%elem_of_set_order. set_solver.
  - intros v' node Hv Hn. by apply updateTrie_ledger_vinv.
Qed.

Lemma checkAcquired_vinv ws : vinv ws.2 → vinv (checkAcquired ws).2.
Proof.
  intros H. unfold checkAcquired.
  apply (foldl_inv (λ ws : W * V, vinv ws.2) _ (λ it, it.2 ⊆ known)); [done| |].
  - intros [k X] Hk%elem_of_hash_order. by apply (vi_acquiring _ H k).
  - intros ws' it. apply check_acquiring_vinv.
Qed.

Lemma set_acquiring_insert k X v :
  vinv v → X ≠ ∅ → X ⊆ known → vinv (set_acquiring (<[k := X]> (acquiring_ v)) v).
Proof.
  intros [Ha Hl Hc Hq Hf] HX Hk. split; simpl; [done|done|done| |done].
  intros k' X' [[<- <-]|[_ ?]]%lookup_insert_Some; [done|by apply (Hq k')].
Qed.

Lemma updateTrie_vinv node val prior ws :
  vinv ws.2 → node ∈ known → vinv (updateTrie node val prior ws).2.
Proof.
  destruct ws as [w v]. unfold updateTrie. simpl. intros H Hn.
  set (v1 := match prior with Some k => forget_acquiring k node v | None => v end).
  assert (H1 : vinv v1) by (destruct prior; [by apply forget_acquiring_vinv|done]).
  pose proof (checkAcquired_vinv (w, v1) H1) as H2. destruct (checkAcquired (w, v1)) as [w2 v2]. simpl in H2.
  destruct (acquiring_ v2 !! (v_seq val, ledgerID val)) as [X|] eqn:E; simpl.
  - destruct (vi_acquiring _ H2 _ _ E) as [_ HX]. apply set_acquiring_insert; [done| |].
    + intros [_ He]%empty_union_L. revert He. apply non_empty_singleton_L.
    + apply union_subseteq. split; [done|by apply singleton_subseteq_l].
  - destruct (acquire (ledgerID val) w2) as [[l|] w3]; simpl; [by apply updateTrie_ledger_vinv|].
    apply set_acquiring_insert; [done|apply non_empty_singleton_L|by apply singleton_subseteq_l].
Qed.

Lemma set_current_vinv c v : vinv v → dom c ⊆ known → vinv (set_current c v).
Proof. intros [Ha Hl Hc Hq Hf] Hd. by split. Qed.

Lemma current_vinv ws : vinv ws.2 → vinv (current parms_ ws).1.2.
Proof.
  destruct ws as [w v]. unfold current. simpl. intros H. destruct (va_now w) as [t w1].
  apply (foldl_inv (λ acc : W * V * list (Z * Validation), vinv acc.1.2) _ (λ _, True)); [done|done|].
  intros [[w' v'] live] [node val] Hv _. simpl in *.
  destruct (isCurrent _ _ _ _); simpl; [done|]. apply set_current_vinv; [by apply removeTrie_vinv|].
  apply (removeTrie_vinv node val) in Hv. apply dom_delete_sub, Hv.
Qed.

Lemma set_byLedger_vinv b v :
  vinv v → (∀ id x node val, b !! id = Some x → x.2 !! node = Some val → ledgerID val = id) →
  vinv (set_byLedger b v).
Proof. intros [Ha Hl Hc Hq Hf] Hb. by split. Qed.

Lemma byLedger_vinv id ws : vinv ws.2 → vinv (byLedger id ws).2.2.
Proof.
  destruct ws as [w v]. simpl. intros Hv. destruct (byLedger_ v !! id) as [[when vals]|] eqn:E; [|done].
  destruct (va_clock w) as [now w']. simpl. apply set_byLedger_vinv; [done|].
  intros id' x node val [[<- <-]|[_ Hx]]%lookup_insert_Some; [by apply (vi_filed _ Hv id (when, vals))
    |by apply (vi_filed _ Hv id')].
Qed.

Lemma expire_vinv ws : vinv ws.2 → vinv (expire parms_ ws).2.
Proof.
  destruct ws as [w v]. simpl. intros Hv. destruct (va_clock w) as [now w']. simpl.
  apply set_byLedger_vinv; [done|]. intros id x node val [Hx _]%map_lookup_filter_Some.
  by apply (vi_filed _ Hv id).
Qed.

Lemma add_vinv node val ws : vinv ws.2 → node ∈ known → vinv (add parms_ node val ws).2.2.
Proof.
  destruct ws as [w v]. simpl. intros Hv Hn. destruct (va_now w) as [t w1].
  destruct (isCurrent _ _ _ _); [|done]. simpl. destruct (va_clock w1) as [now w2].
  destruct (enforce _ _ _ _) as [ok e].
  assert (Hv1 : vinv (set_enforcers (<[node := e]> (seqEnforcers_ v)) v)) by (by destruct Hv).
  destruct ok; simpl; [|done].
  assert (Hfile : ∀ when vals, (∀ n x, vals !! n = Some x → ledgerID x = ledgerID val) →
    vinv (set_byLedger (<[ledgerID val := (when, <[node := val]> vals)]> (byLedger_ v))
      (set_enforcers (<[node := e]> (seqEnforcers_ v)) v))).
  { intros when vals Hvals. apply set_byLedger_vinv; [done|].
    intros id x n y [[<- <-]|[_ Hx]]%lookup_insert_Some; [|by apply (vi_filed _ Hv id)].
    simpl. intros [[<- <-]|[_ Hy]]%lookup_insert_Some; [done|by apply (Hvals n)]. }
  destruct (match byLedger_ v !! ledgerID val with
            | Some (when, vals) => (when, vals, w2)
            | None => let '(now, w) := va_clock w2 in (now, ∅, w)
            end) as [[when vals] w3] eqn:E.
  assert (Hvals : ∀ n x, vals !! n = Some x → ledgerID x = ledgerID val).
  { destruct (byLedger_ v !! ledgerID val) as [[when' vals']|] eqn:E'.
    - simplify_eq. intros n x Hx. by apply (vi_filed _ Hv _ _ n x E').
    - destruct (va_clock w2) as [now' w']. simplify_eq. intros n x Hx. by rewrite lookup_empty in Hx. }
  specialize (Hfile when vals Hvals). set (v3 := set_byLedger _ _) in *.
  assert (Hcur : vinv (set_current (<[node := val]> (current_ v3)) v3)).
  { apply set_current_vinv; [done|]. apply dom_insert_sub; [apply Hfile|done]. }
  destruct (current_ v !! node) as [old|].
  - destruct (signTime old <? signTime val); simpl; [|done].
    destruct (trusted val); [by apply updateTrie_vinv|done].
  - simpl. destruct (trusted val); [by apply updateTrie_vinv|done].
Qed.

Lemma trustChanged_vinv added removed ws : vinv ws.2 → vinv (trustChanged added removed ws).2.
Proof.
  intros Hv. unfold trustChanged.
  assert (Hf : vinv (foldl (trust_step added removed) ws (hash_order (current_ ws.2))).2).
  { apply (foldl_inv (λ ws : W * V, vinv ws.2) _ (λ it, it.1 ∈ known)); [done| |].
    - intros [node val] Hk%elem_of_hash_order%elem_of_dom_2. by apply (vi_current _ Hv).
    - intros [w v] [node val] Hv' Hn. simpl in *.
      assert (Hcur : ∀ x, vinv (set_current (<[node := x]> (current_ v)) v)).
      { intros x. apply set_current_vinv; [done|]. apply dom_insert_sub; [apply Hv'|done]. }
      repeat case_bool_decide; [apply updateTrie_vinv; [apply Hcur|done]|apply removeTrie_vinv, Hcur|done]. }
  destruct (foldl _ _ _) as [w v]. simpl in *. apply set_byLedger_vinv; [done|].
  intros id x node val. rewrite lookup_fmap. intros (y & Hy & ->)%fmap_Some. simpl.
  rewrite map_lookup_imap. intros (z & Hz & He)%bind_Some. injection He as <-.
  pose proof (vi_filed _ Hf id y node z Hy Hz). unfold retrust. by repeat case_bool_decide.
Qed.

Lemma sort_trie_vinv v : vinv v → vinv (set_trie (sort_trie (trie_ v)) v).
Proof.
  intros [Ha Hl Hc Hq Hf]. split; simpl; try done. apply (accounts_sort (trie_ v)); [done|]. apply sort_trie_sorts.
Qed.

Lemma withTrie_vinv {A} (f : LedgerTrie L → A) ws : vinv ws.2 → vinv (withTrie parms_ f ws).2.2.
Proof.
  intros Hv. unfold withTrie. apply current_vinv in Hv. destruct (current parms_ ws) as [[w v] live].
  by apply checkAcquired_vinv.
Qed.

Lemma getPreferred_pair_vinv curr ws : vinv ws.2 → vinv (getPreferred_pair parms_ curr ws).2.2.
Proof.
  intros Hv. unfold getPreferred_pair.
  pose proof (withTrie_vinv (λ t, getPreferred t (largest (localSeqEnforcer_ ws.2))) ws Hv) as Hw.
  destruct (withTrie _ _ _) as [[x|] [w v]]; simpl in *; by apply sort_trie_vinv.
Qed.

(** ** Every sequence of operations *)

Inductive vop :=
  | OpAdd (node : Z) (val : Validation)
  | OpCanValidateSeq (s : Z)
  | OpExpire
  | OpTrustChanged (added removed : gset Z)
  | OpGetPreferred (curr : L)
  | OpGetNodesAfter (ledger : L) (id : Z)
  | OpCurrent
  | OpByLedger (id : Z)
  | OpFlush.

(** What an operation leaves behind; those that differ in their answer only are one. *)
Definition run_op (o : vop) ws : W * V :=
  match o with
  | OpAdd node val => (add parms_ node val ws).2
  | OpCanValidateSeq s => (canValidateSeq parms_ s ws).2
  | OpExpire => expire parms_ ws
  | OpTrustChanged added removed => trustChanged added removed ws
  | OpGetPreferred curr => (getPreferred_pair parms_ curr ws).2
  | OpGetNodesAfter ledger id => (getNodesAfter parms_ ledger id ws).2
  | OpCurrent => (current parms_ ws).1
  | OpByLedger id => (byLedger id ws).2
  | OpFlush => flush ws
  end.

Inductive vreach : W * V → Prop :=
  | vreach_new w : vreach (w, newValidations)
  | vreach_op ws o :
    vreach ws → (if o is OpAdd node _ then node ∈ known else True) → vreach (run_op o ws).

Lemma getNodesAfter_vinv ledger id ws : vinv ws.2 → vinv (getNodesAfter parms_ ledger id ws).2.2.
Proof.
  intros Hv. unfold getNodesAfter. destruct (ledger_id ledger =? id); [by apply withTrie_vinv|done].
Qed.

Lemma vreach_vinv ws : vreach ws → vinv ws.2.
Proof.
  induction 1 as [w|ws o Hr Hv Ho]; [apply vinv_new|]. destruct o; simpl.
  - by apply add_vinv.
  - destruct ws as [w v]. simpl in *. destruct (va_clock w). destruct (enforce _ _ _ _). simpl. by destruct Hv.
  - by apply expire_vinv.
  - by apply trustChanged_vinv.
  - by apply getPreferred_pair_vinv.
  - by apply getNodesAfter_vinv.
  - by apply current_vinv.
  - by apply byLedger_vinv.
  - destruct ws as [w v]. simpl in *. apply set_current_vinv; [done|]. by rewrite dom_empty_L.
Qed.

(** C17: In every state a server reaches, the trie counts the last ledger of each node
    once: [tipSupport] is the number of nodes whose last ledger it is, [branchSupport]
    the number of nodes whose last ledger it is or descends from it, and the trie's own
    check passes.  No ledger is being acquired for nobody, and the validations by
    ledger are filed under the ledger they are for. *)
Theorem validations_account ws :
  vreach ws →
  (∀ l, tipSupport (trie_ ws.2) l = headcount (exactly l) (lastLedger_ ws.2) ∧
        branchSupport (trie_ ws.2) l = headcount (under l) (lastLedger_ ws.2)) ∧
  checkInvariants (trie_ ws.2) = true ∧
  (∀ k, acquiring_ ws.2 !! k ≠ Some ∅) ∧
  (∀ id x node val, byLedger_ ws.2 !! id = Some x → x.2 !! node = Some val → ledgerID val = id).
Proof.
  intros Hv%vreach_vinv. destruct (vi_accounts _ Hv) as (m & Hr%reach_repr & Hm). split_and!.
  - intros l. rewrite (repr_tipSupport _ m), (repr_branchSupport _ m), <- !Hm by done. split; [|done].
    symmetry. apply weight_exactly.
  - by apply (repr_check _ m).
  - intros k Hk. by destruct (vi_acquiring _ Hv k ∅ Hk).
  - apply (vi_filed _ Hv).
Qed.

Definition after (l : L) : list Z → bool := λ k, under l k && negb (exactly l k).

Lemma headcount_after l (ll : gmap Z L) : headcount (under l) ll - headcount (exactly l) ll = headcount (after l) ll.
Proof.
  unfold headcount. induction (map_to_list ll) as [|x xs IH]; simpl; [done|].
  assert (Hx : (if after l (hist x.2) then 1 else 0) =
    (if under l (hist x.2) then 1 else 0) - if exactly l (hist x.2) then 1 else 0).
  { unfold after. destruct (exactly l (hist x.2)) eqn:E; [|by destruct (under l (hist x.2))].
    apply bool_decide_eq_true in E. unfold under. by rewrite E, bool_decide_eq_true_2. }
  lia.
Qed.

(** For a ledger that is known, [getNodesAfter] is the number of nodes whose last
    ledger is a proper descendant of it. *)
Theorem getNodesAfter_correct ws ledger :
  vreach ws →
  let '(n, ws') := getNodesAfter parms_ ledger (ledger_id ledger) ws in
  n = headcount (after ledger) (lastLedger_ ws'.2).
Proof.
  intros Hv%vreach_vinv. unfold getNodesAfter. rewrite Z.eqb_refl.
  pose proof (withTrie_vinv (λ t, u32 (branchSupport t ledger - tipSupport t ledger)) ws Hv) as Hw.
  unfold withTrie in *. destruct (current parms_ ws) as [[w v] live]. simpl in *.
  destruct (checkAcquired (w, v)) as [w' v']. simpl in *.
  destruct (vi_accounts _ Hw) as (m & Hr%reach_repr & Hm).
  rewrite (repr_tipSupport _ m), (repr_branchSupport _ m) by done.
  rewrite <- headcount_after, <- !Hm. rewrite <- weight_exactly. apply u32_small.
  pose proof (rp_positive _ _ Hr) as Hp. pose proof (rp_max _ _ Hr) as Hmax.
  rewrite branch_total, (rp_total _ _ Hr) in Hmax by apply (rp_wf _ _ Hr).
  pose proof (weight_mono (exactly ledger) (under ledger) m Hp) as H1.
  pose proof (weight_mono (under ledger) (λ _, true) m Hp (λ _ _, eq_refl)) as H2.
  unfold in_u32. destruct H1 as [H0 H1]; [|unfold exactly in *; lia].
  intros k ->%bool_decide_eq_true. by apply bool_decide_eq_true_2.
Qed.

(** *** The preferred ledger *)

(** [h] leaves the current ledger in place: it is the ledger itself, an ancestor or an
    immediate successor. *)
Definition keeps (curr : L) (h : list Z) : Prop :=
  h `prefix_of` hist curr ∨ ∃ x, h = hist curr ++ [x].

(** Two ledgers that agree at a sequence number have that much history in common. *)
Lemma pre_same (a b : L) s :
  0 ≤ s ≤ l_seq a `min` l_seq b → l_id a s = l_id b s → pre a (s + 1) = pre b (s + 1).
Proof. intros Hs He. apply pre_ext. intros i Hi. apply (l_unique a b s); [done|done|lia]. Qed.

Lemma choose_spec curr (x : SpanTip L) :
  tip_id x = l_id (tip_ledger x) (tip_seq x) → 0 ≤ tip_seq x ≤ l_seq (tip_ledger x) →
  (keeps curr (tip_history x) → choose curr x = (l_seq curr, ledger_id curr)) ∧
  (¬ keeps curr (tip_history x) → choose curr x = (tip_seq x, tip_id x)).
Proof.
  intros Hid Hs. pose proof (l_seq_range curr). unfold choose, tip_ancestor, keeps, tip_history, ledger_id.
  rewrite u32_small by (unfold in_u32; lia).
  pose proof (pre_length (tip_ledger x) (tip_seq x + 1) ltac:(lia)) as Hlen.
  pose proof (hist_length curr) as Hlen'.
  assert (Hkeep : pre (tip_ledger x) (tip_seq x + 1) `prefix_of` hist curr ↔
    tip_seq x ≤ l_seq curr ∧ l_id curr (tip_seq x) = tip_id x).
  { unfold hist. rewrite pre_prefix_iff, Hid by lia. split.
    - intros [Hle Heq]. split; [lia|]. symmetry. apply (pre_inj _ _ _ Heq). lia.
    - intros [Hle Heq]. split; [lia|]. apply pre_same; [lia|done]. }
  assert (Hnext : (∃ y, pre (tip_ledger x) (tip_seq x + 1) = hist curr ++ [y]) ↔
    tip_seq x = l_seq curr + 1 ∧ l_id (tip_ledger x) (l_seq curr) = l_id curr (l_seq curr)).
  { split.
    - intros [y Hy]. assert (tip_seq x = l_seq curr + 1) as He.
      { apply (f_equal length) in Hy. rewrite length_app in Hy. simpl in Hy. lia. }
      split; [done|]. rewrite pre_succ in Hy by lia. apply app_inj_tail in Hy as [Hy _].
      rewrite He in Hy. apply (pre_inj _ _ _ Hy). lia.
    - intros [He Hc]. exists (l_id (tip_ledger x) (tip_seq x)). rewrite pre_succ by lia. f_equal.
      rewrite He. apply pre_same; [lia|done]. }
  rewrite Hkeep, Hnext. destruct (Z.eqb_spec (tip_seq x) (l_seq curr + 1)); simpl;
    [destruct (Z.eqb_spec (l_id (tip_ledger x) (l_seq curr)) (l_id curr (l_seq curr))); simpl|];
    destruct (Z.ltb_spec (l_seq curr) (tip_seq x)); try lia;
    try destruct (Z.eqb_spec (l_id curr (tip_seq x)) (tip_id x)); simpl; split; intros; try done; lia.
Qed.

Lemma lex_lt_true a b : lex_lt a b = true ↔ a.1 < b.1 ∨ a.1 = b.1 ∧ a.2 < b.2.
Proof.
  unfold lex_lt. destruct (Z.ltb_spec a.1 b.1), (Z.eqb_spec a.1 b.1), (Z.ltb_spec a.2 b.2);
    simpl; split; intros; try done; lia.
Qed.

Lemma lex_lt_false a b : lex_lt a b = false ↔ b.1 < a.1 ∨ b.1 = a.1 ∧ b.2 ≤ a.2.
Proof.
  unfold lex_lt. destruct (Z.ltb_spec a.1 b.1), (Z.eqb_spec a.1 b.1), (Z.ltb_spec a.2 b.2);
    simpl; split; intros; try done; lia.
Qed.

Lemma max_element_spec {A} (f : A → Z * Z) xs :
  match max_element (λ a b, lex_lt (f a) (f b)) xs with
  | None => xs = []
  | Some y => y ∈ xs ∧ ∀ x, x ∈ xs → lex_lt (f y) (f x) = false
  end.
Proof.
  destruct xs as [|z xs]; [done|]. cbn [max_element]. revert z.
  induction xs as [|y xs IH]; intros z; cbn [foldl].
  { split; [by left|]. intros x ->%list_elem_of_singleton. apply lex_lt_false. lia. }
  destruct (lex_lt (f z) (f y)) eqn:E; [specialize (IH y)|specialize (IH z)];
    destruct IH as [Hin Hmax]; set (r := foldl _ _ xs) in *; pose proof (Hmax _ ltac:(by left)) as Hb.
  - split; [by right|]. intros x [->|Hx]%elem_of_cons; [|by apply Hmax].
    rewrite lex_lt_true in E. rewrite lex_lt_false in *. lia.
  - split; [apply elem_of_cons in Hin as [->|Hin]; [by left|by do 2 right]|].
    intros x [->|[->|Hx]%elem_of_cons]%elem_of_cons; [done| |by apply Hmax; right].
    rewrite lex_lt_false in *. lia.
Qed.

Lemma supports_empty (ll : gmap Z L) : supports ll = ∅ ↔ ll = ∅.
Proof.
  split; [|intros ->; unfold supports; by rewrite map_to_list_empty].
  intros He. destruct (supports_spec ll) as [_ Hw]. specialize (Hw everything).
  rewrite He, weight_empty, headcount_all in Hw. apply map_size_empty_iff. lia.
Qed.

(** C35: The preferred ledger with its sequence number.  If a validated ledger has been
    acquired, the outcome follows from the preferred history of the nodes' last
    ledgers: the server stays with its current ledger if the history ends at it, at an
    ancestor or at an immediate successor, and moves to the end of the history
    otherwise.  If none has been acquired, it is a ledger that most nodes are waiting
    for, the one with the largest identifier on ties. *)
Theorem preferred_choice ws curr :
  vreach ws →
  let '(result, ws') := getPreferred_pair parms_ curr ws in
  let v := ws'.2 in
  let li := largest (localSeqEnforcer_ ws.2) in
  if decide (lastLedger_ v = ∅) then
    match result with
    | None => acquiring_ v = ∅
    | Some k => ∃ X, acquiring_ v !! k = Some X ∧
        ∀ k' X', acquiring_ v !! k' = Some X' →
          (size X' < size X)%nat ∨ size X' = size X ∧ k'.2 ≤ k.2
    end
  else
    ∃ h, preferred (supports (lastLedger_ v)) li h ∧ head h = Some (l_id (genesis : L) 0) ∧
      (keeps curr h → result = Some (l_seq curr, ledger_id curr)) ∧
      (¬ keeps curr h → ∃ id, last h = Some id ∧ result = Some (Z.of_nat (length h) - 1, id)).
Proof.
  intros Hv%vreach_vinv. unfold getPreferred_pair.
  pose proof (withTrie_vinv (λ t, getPreferred t (largest (localSeqEnforcer_ ws.2))) ws Hv) as Hw.
  unfold withTrie in *. destruct (current parms_ ws) as [[w1 v1] live]. simpl in *.
  destruct (checkAcquired (w1, v1)) as [w v]. simpl in *.
  pose proof (reach_repr _ _ (accounts_supports _ _ (vi_accounts _ Hw))) as Hr.
  destruct (decide (lastLedger_ v = ∅)) as [He|Hne].
  - assert (Hnone : getPreferred (trie_ v) (largest (localSeqEnforcer_ ws.2)) = None).
    { unfold getPreferred. by rewrite (repr_empty_iff _ _ Hr), bool_decide_eq_true_2 by (by apply supports_empty). }
    rewrite Hnone. simpl. rewrite decide_True by done.
    pose proof (max_element_spec (λ a : (Z * Z) * gset Z, (Z.of_nat (size a.2), a.1.2))
      (hash_order (acquiring_ v))) as Hmax. destruct (max_element _ _) as [[k X]|]; simpl in *.
    + destruct Hmax as [Hk%elem_of_hash_order Hmax]. exists X. split; [done|].
      intros k' X' Hk'. specialize (Hmax (k', X') (proj2 (elem_of_hash_order _ _ _) Hk')).
      rewrite lex_lt_false in Hmax. simpl in Hmax. lia.
    + apply map_empty. intros k. destruct (acquiring_ v !! k) as [X|] eqn:E; [|done].
      apply elem_of_hash_order in E. rewrite Hmax in E. by apply not_elem_of_nil in E.
  - destruct (getPreferred_walk (trie_ v) _ (largest (localSeqEnforcer_ ws.2)) Hr) as (x & -> & Hp & Hid & Hs).
    { by rewrite supports_empty. }
    simpl. rewrite decide_False by done. exists (tip_history x).
    destruct (choose_spec curr x Hid Hs) as [Hk Hnk]. split_and!; [done|by apply tip_history_head, Hp| |].
    + intros H. by rewrite Hk.
    + intros H. exists (tip_id x). rewrite Hnk by done. unfold tip_history. split.
      * rewrite pre_succ, last_snoc by lia. by rewrite Hid.
      * rewrite pre_length by lia. do 2 f_equal. lia.
Qed.
End Invariant.

(** ** Increasing sequence numbers *)

(** A node's validations over time: the accepted ones. *)
Fixpoint accepted (p : ValidationParms) (e : SeqEnforcer) (calls : list (Z * Z)) : list (Z * Z) :=
  match calls with
  | [] => []
  | (now, s) :: calls =>
    let '(ok, e) := enforce p now s e in
    if ok then (now, s) :: accepted p e calls else accepted p e calls
  end.

Lemma accepted_sub p e calls c : c ∈ accepted p e calls → c ∈ calls.
Proof.
  revert e. induction calls as [|[now s] calls IH]; intros e; simpl; [done|].
  destruct (enforce p now s e) as [[] e']; [intros [->|Hc]%elem_of_cons|intros Hc];
    [by left|right; by apply (IH e')|right; by apply (IH e')].
Qed.

Lemma enforce_spec p now s e :
  let '(ok, e') := enforce p now s e in
  let largest := if enf_when e + validationSET_EXPIRES p <? now then 0 else enf_seq e in
  ok = (largest <? s) ∧ e' = if ok then mkEnforcer s now else mkEnforcer largest (enf_when e).
Proof.
  unfold enforce. destruct (_ <? now); simpl.
  - rewrite Z.ltb_antisym. by destruct (s <=? 0).
  - rewrite Z.ltb_antisym. destruct (s <=? enf_seq e); [by destruct e|done].
Qed.

(** Accepted numbers exceed the last one, unless that one has expired. *)
Lemma accepted_above p e calls :
  0 ≤ validationSET_EXPIRES p → StronglySorted (λ a b, a.1 ≤ b.1) calls →
  (∀ c, c ∈ calls → enf_when e ≤ c.1) → 0 ≤ enf_seq e →
  StronglySorted (λ a b, b.1 ≤ a.1 + validationSET_EXPIRES p → a.2 < b.2) (accepted p e calls) ∧
  ∀ c, c ∈ accepted p e calls →
    0 < c.2 ∧ (c.1 ≤ enf_when e + validationSET_EXPIRES p → enf_seq e < c.2).
Proof.
  intros Hp Hs. revert e. induction Hs as [|[now s] calls Hs IH Hall]; intros e Hw H0.
  { split; [constructor|by intros c ?%not_elem_of_nil]. }
  pose proof (Hw (now, s) ltac:(by left)) as Hnow. simpl in Hnow.
  assert (Hlater : ∀ c, c ∈ calls → now ≤ c.1) by (by rewrite Forall_forall in Hall).
  simpl. pose proof (enforce_spec p now s e) as He. destruct (enforce p now s e) as [ok e'].
  destruct He as [Hok ->]. set (lg := if enf_when e + validationSET_EXPIRES p <? now then 0 else enf_seq e) in *.
  assert (Hlg : 0 ≤ lg ∧ (now ≤ enf_when e + validationSET_EXPIRES p → lg = enf_seq e)).
  { unfold lg. destruct (Z.ltb_spec (enf_when e + validationSET_EXPIRES p) now); lia. }
  destruct ok; symmetry in Hok; [apply Z.ltb_lt in Hok|apply Z.ltb_ge in Hok].
  - destruct (IH (mkEnforcer s now)) as [IH1 IH2]; [done|simpl; lia|]. simpl in IH2. split.
    + constructor; [done|]. apply Forall_forall. intros c Hc. by apply IH2.
    + intros c [->|Hc]%elem_of_cons; simpl; [lia|]. destruct (IH2 c Hc).
      apply accepted_sub, Hlater in Hc. lia.
  - destruct (IH (mkEnforcer lg (enf_when e))) as [IH1 IH2]; [intros c Hc; apply Hw; by right|simpl; lia|].
    split; [done|]. intros c Hc. destruct (IH2 c Hc). apply accepted_sub, Hlater in Hc. simpl in *. lia.
Qed.

(** The sequence numbers that [SeqEnforcer] lets pass, for a node's validations or for
    the server's own, are positive and strictly increase as long as they are not
    [validationSET_EXPIRES] apart. *)
Theorem sequences_increase p calls :
  0 ≤ validationSET_EXPIRES p → StronglySorted (λ a b, a.1 ≤ b.1) calls → (∀ c, c ∈ calls → 0 ≤ c.1) →
  (∀ c, c ∈ accepted p newEnforcer calls → 0 < c.2) ∧
  ∀ i j a b, (i < j)%nat → accepted p newEnforcer calls !! i = Some a →
    accepted p newEnforcer calls !! j = Some b → b.1 ≤ a.1 + validationSET_EXPIRES p → a.2 < b.2.
Proof.
  intros Hp Hs H0. destruct (accepted_above p newEnforcer calls Hp Hs H0) as [H1 H2]; [done|].
  split; [intros c Hc; by destruct (H2 c Hc)|]. generalize dependent (accepted p newEnforcer calls).
  intros xs H1 _. induction H1 as [|x xs Hxs IH Hx]; intros i j a b Hij Hi Hj; [done|].
  destruct j as [|j]; [lia|]. destruct i as [|i]; simplify_eq/=; [|apply (IH i j a b); done || lia].
  rewrite Forall_forall in Hx. by apply Hx, (list_elem_of_lookup_2 _ j).
Qed.
