(* ===== verification/RCLValidations.v ===== *)
(** * Validated ledgers

    Model of [RCLValidatedLedger] and its [mismatch] in
    [src/src/ripple/app/consensus/RCLValidations.cpp], the ledgers that [LedgerTrie]
    and [Validations] are used with.  A ledger knows the hashes of its last ancestors
    only (at most 256); two ledgers whose known ancestors do not overlap count as
    different from the start.

    [mismatch] is shown to find the first difference in the part of the history that
    both ledgers know, and ledgers that know their whole history are shown to satisfy
    the laws the trie relies on.  [Module Sample] runs the trie and the validations on
    such ledgers. *)

From stdpp Require Import base numbers list gmap strings relations.
From Stdlib Require Import Lia ZArith.
From S2P Require Import Prelude LedgerTrie LedgerTrieSupport LedgerTriePreferred Validations ValidationsSafety.

Local Open Scope Z_scope.

Record RCLValidatedLedger := mkRCL {
  ledgerID_ : Z;
  ledgerSeq_ : Z;
  ancestors_ : list Z }.

(** [RCLValidatedLedger (MakeGenesis)] *)
Definition rcl_genesis : RCLValidatedLedger := mkRCL 0 0 [].

(** From a ledger with its hash, its sequence number and the hashes in its skip list. *)
Definition rcl_of_ledger (hash seq : Z) (hashIndex : option (list Z)) : RCLValidatedLedger :=
  mkRCL hash seq (default [] hashIndex).

Definition rcl_seq (l : RCLValidatedLedger) : Z := ledgerSeq_ l.

Definition minSeq (l : RCLValidatedLedger) : Z :=
  rcl_seq l - rcl_seq l `min` u32 (Z.of_nat (length (ancestors_ l))).

(** [operator[]] *)
Definition rcl_index (l : RCLValidatedLedger) (s : Z) : Z :=
  if (minSeq l <=? s) && (s <=? rcl_seq l) then
    if s =? rcl_seq l then ledgerID_ l
    else
      let diff := rcl_seq l - s in
      nth (Z.to_nat (Z.of_nat (length (ancestors_ l)) - diff)) (ancestors_ l) 0
  else 0.

(** From [curr] down to the first sequence number at which the ledgers agree. *)
Fixpoint mismatch_from (a b : RCLValidatedLedger) (lower : Z) (curr : nat) : nat :=
  match curr with
  | O => O
  | S prev =>
    if negb (rcl_index a (Z.of_nat curr) =? rcl_index b (Z.of_nat curr)) && (lower <=? Z.of_nat curr)
    then mismatch_from a b lower prev
    else curr
  end.

Definition mismatch (a b : RCLValidatedLedger) : Z :=
  let lower := minSeq a `max` minSeq b in
  let upper := rcl_seq a `min` rcl_seq b in
  let curr := Z.of_nat (mismatch_from a b lower (Z.to_nat upper)) in
  if curr <? lower then 1 else curr + 1.

#[export] Instance rcl_ops : LedgerOps RCLValidatedLedger :=
  {| genesis := rcl_genesis; l_seq := rcl_seq; l_id := rcl_index; l_mismatch := mismatch |}.

(** ** Ledgers of chains *)

Section Chains.
(** The hash of a ledger determines the hash of its parent. *)
Context (parent : Z → Z).
Implicit Types l a b : RCLValidatedLedger.

Record linked l : Prop := {
  ln_seq : 0 ≤ rcl_seq l < 2 ^ 32 - 1;
  ln_anc : Z.of_nat (length (ancestors_ l)) ≤ rcl_seq l;
  ln_parent : ∀ i, minSeq l ≤ i < rcl_seq l → rcl_index l i = parent (rcl_index l (i + 1)) }.

Lemma minSeq_eq l : linked l → minSeq l = rcl_seq l - Z.of_nat (length (ancestors_ l)) ∧ 0 ≤ minSeq l ≤ rcl_seq l.
Proof.
  intros [Hs Ha _]. unfold minSeq. rewrite u32_small by (unfold in_u32; lia). lia.
Qed.

(** Ledgers that agree somewhere agree on all earlier ledgers that both know. *)
Lemma linked_agree a b i j :
  linked a → linked b → minSeq a `max` minSeq b ≤ i ≤ j → j ≤ rcl_seq a `min` rcl_seq b →
  rcl_index a j = rcl_index b j → rcl_index a i = rcl_index b i.
Proof.
  intros Ha Hb Hi Hj He. remember (Z.to_nat (j - i)) as n eqn:Hn. revert i Hi Hn.
  induction n as [|n IH]; intros i Hi Hn; [by replace i with j by lia|].
  rewrite (ln_parent _ Ha), (ln_parent _ Hb) by lia. f_equal. apply IH; lia.
Qed.

Lemma mismatch_from_spec a b lower n :
  let curr := Z.of_nat (mismatch_from a b lower n) in
  0 ≤ curr ≤ Z.of_nat n ∧
  (∀ i, 1 ≤ i → lower ≤ i → curr < i ≤ Z.of_nat n → rcl_index a i ≠ rcl_index b i) ∧
  (1 ≤ curr → lower ≤ curr → rcl_index a curr = rcl_index b curr).
Proof.
  induction n as [|n IH]; cbn [mismatch_from]; [split_and!; lia|].
  destruct (Z.eqb_spec (rcl_index a (Z.of_nat (S n))) (rcl_index b (Z.of_nat (S n)))) as [E|E]; simpl.
  - split_and!; [lia|lia|lia|done].
  - destruct (Z.leb_spec lower (Z.of_nat (S n))); [|split_and!; lia]. destruct IH as (H1 & H2 & H3).
    split_and!; [lia|lia| |done]. intros i Hi Hl Hc. destruct (decide (i = Z.of_nat (S n))) as [->|]; [done|].
    apply H2; lia.
Qed.

Lemma mismatch_spec a b :
  linked a → linked b →
  let lower := minSeq a `max` minSeq b in
  let upper := rcl_seq a `min` rcl_seq b in
  1 ≤ mismatch a b ≤ upper + 1 ∧
  (∀ i, 1 ≤ i → lower ≤ i ≤ upper → rcl_index a i = rcl_index b i ↔ i < mismatch a b) ∧
  (1 < mismatch a b → lower < mismatch a b).
Proof.
  intros Ha Hb lower upper. destruct (minSeq_eq a Ha) as [_ ?], (minSeq_eq b Hb) as [_ ?].
  pose proof (ln_seq _ Ha). pose proof (ln_seq _ Hb). unfold mismatch. fold lower upper.
  destruct (mismatch_from_spec a b lower (Z.to_nat upper)) as (Hc & Hdiff & Hsame).
  set (curr := Z.of_nat (mismatch_from a b lower (Z.to_nat upper))) in *.
  destruct (Z.ltb_spec curr lower).
  - split_and!; [lia|lia| |lia]. intros i Hi Hl. split; [|lia]. intros He. exfalso. apply (Hdiff i); lia || done.
  - split_and!; [lia|lia| |lia]. intros i Hi Hl. split.
    + intros He. destruct (Z.ltb_spec i (curr + 1)); [done|]. exfalso. apply (Hdiff i); lia || done.
    + intros Hlt. apply (linked_agree a b i curr); [done|done|lia|lia|]. apply Hsame; lia.
Qed.

(** *** Ledgers that know their whole history *)

Definition full_chain l : bool :=
  (0 <=? rcl_seq l) && (rcl_seq l <? 2 ^ 32 - 1) &&
  (if rcl_seq l =? 0 then (ledgerID_ l =? 0) && (length (ancestors_ l) =? 0)%nat
   else Z.of_nat (length (ancestors_ l)) =? rcl_seq l - 1) &&
  forallb (λ i, rcl_index l i =? parent (rcl_index l (i + 1))) (seqZ 1 (rcl_seq l - 1)).

Record Chained : Type := mkChained { ch_ledger : RCLValidatedLedger; ch_full : full_chain ch_ledger = true }.

Lemma full_chain_spec l :
  full_chain l = true → linked l ∧ minSeq l = rcl_seq l `min` 1 ∧ rcl_index l 0 = 0.
Proof.
  unfold full_chain. intros [[[H1%Z.leb_le H2%Z.ltb_lt]%andb_prop H3]%andb_prop H4]%andb_prop.
  rewrite forallb_forall in H4.
  assert (Hlen : Z.of_nat (length (ancestors_ l)) = (rcl_seq l - 1) `max` 0 ∧ (rcl_seq l = 0 → ledgerID_ l = 0)).
  { destruct (Z.eqb_spec (rcl_seq l) 0).
    - apply andb_prop in H3 as [H3%Z.eqb_eq H5%Nat.eqb_eq]. split; [lia|done].
    - apply Z.eqb_eq in H3. lia. }
  assert (Hmin : minSeq l = rcl_seq l `min` 1) by (unfold minSeq; rewrite u32_small by (unfold in_u32; lia); lia).
  split_and!; [split; [done|lia|]|done|].
  - intros i Hi. apply Z.eqb_eq, H4, list_elem_of_In, elem_of_seqZ. lia.
  - unfold rcl_index. rewrite Hmin. destruct (Z.eqb_spec 0 (rcl_seq l)) as [E|E].
    + rewrite <- E. simpl. apply Hlen. done.
    + rewrite (proj2 (Z.leb_gt _ _)); [done|lia].
Qed.

#[export] Instance chained_ops : LedgerOps Chained :=
  {| genesis := mkChained rcl_genesis eq_refl;
     l_seq x := rcl_seq (ch_ledger x);
     l_id x := rcl_index (ch_ledger x);
     l_mismatch x y := mismatch (ch_ledger x) (ch_ledger y) |}.

(** These ledgers are what the trie expects. *)
#[export] Instance chained_laws : LedgerLaws Chained.
Proof.
  assert (Hagree : ∀ a b : Chained, ∀ i, 1 ≤ i ≤ rcl_seq (ch_ledger a) `min` rcl_seq (ch_ledger b) →
    rcl_index (ch_ledger a) i = rcl_index (ch_ledger b) i ↔ i < mismatch (ch_ledger a) (ch_ledger b)).
  { intros [a Ha] [b Hb] i Hi. simpl in *.
    destruct (full_chain_spec a Ha) as (La & Ma & _), (full_chain_spec b Hb) as (Lb & Mb & _).
    apply (mismatch_spec a b La Lb); lia. }
  split; simpl.
  - intros [l Hl]. by destruct (full_chain_spec l Hl) as [[? ? ?] _].
  - done.
  - intros [l Hl]. simpl. by destruct (full_chain_spec l Hl) as (_ & _ & ->).
  - intros [a Ha] [b Hb]. simpl. destruct (full_chain_spec a Ha) as [La _], (full_chain_spec b Hb) as [Lb _].
    destruct (mismatch_spec a b La Lb) as [? _]. done.
  - intros a b i Hi. destruct (decide (i = 0)) as [->|Hne].
    + destruct a as [a Ha], b as [b Hb]. simpl. by rewrite (proj2 (proj2 (full_chain_spec a Ha))), (proj2 (proj2 (full_chain_spec b Hb))).
    + apply Hagree; [|lia]. destruct a as [a Ha], b as [b Hb]. simpl in *.
      destruct (full_chain_spec a Ha) as [La _], (full_chain_spec b Hb) as [Lb _]. destruct (mismatch_spec a b La Lb) as [? _]. lia.
  - intros a b Hm He. apply Hagree in He; [lia|]. destruct a as [a Ha], b as [b Hb]. simpl in *.
    destruct (full_chain_spec a Ha) as [La _], (full_chain_spec b Hb) as [Lb _]. destruct (mismatch_spec a b La Lb) as [? _]. lia.
  - intros [a Ha] [b Hb] i Hi He p Hp. simpl in *.
    destruct (full_chain_spec a Ha) as (La & Ma & Za), (full_chain_spec b Hb) as (Lb & Mb & Zb).
    destruct (decide (p = 0)) as [->|Hne]; [congruence|]. apply (linked_agree a b p i); [done|done|lia|lia|done].
Qed.

(** Two ledgers of chains agree on an ancestor that both know exactly if it comes
    before the sequence number [mismatch] returns, which is 1 if they agree on none. *)
Theorem rcl_mismatch_correct a b :
  linked a → linked b →
  let lower := minSeq a `max` minSeq b in
  let upper := rcl_seq a `min` rcl_seq b in
  1 ≤ mismatch a b ≤ upper + 1 ∧
  (∀ i, 1 ≤ i → lower ≤ i ≤ upper → rcl_index a i = rcl_index b i ↔ i < mismatch a b) ∧
  (1 < mismatch a b → lower < mismatch a b).
Proof. apply mismatch_spec. Qed.
End Chains.

(** ** Sample ledgers and validations *)

Module Sample.

(** The hash of a ledger has one more digit than its parent's. *)
Definition parent (h : Z) : Z := h `div` 10.

Abbreviation Led := (Chained parent).

Definition ledger (hash seq : Z) (anc : list Z) (H : full_chain parent (mkRCL hash seq anc) = true) : Led :=
  mkChained parent (mkRCL hash seq anc) H.

Definition l1 : Led := ledger 1 1 [] eq_refl.
Definition l12 : Led := ledger 12 2 [1] eq_refl.
Definition l13 : Led := ledger 13 2 [1] eq_refl.
Definition l121 : Led := ledger 121 3 [1; 12] eq_refl.
Definition l122 : Led := ledger 122 3 [1; 12] eq_refl.

Definition trie : LedgerTrie Led :=
  (trie_remove l122 1 (trie_insert l122 2 (trie_insert l13 1 (trie_insert l121 2 emptyTrie)))).2.

Definition trie_map : support_map :=
  m_remove (hist l122) 1 (m_insert (hist l122) 2 (m_insert (hist l13) 1 (m_insert (hist l121) 2 ∅))).

Lemma trie_reach : reach trie trie_map.
Proof.
  apply (reach_remove _ _ l122 1); [|done].
  apply (reach_insert _ _ l122 2); [|done|vm_compute; reflexivity].
  apply (reach_insert _ _ l13 1); [|done|vm_compute; reflexivity].
  apply (reach_insert _ _ l121 2); [|done|vm_compute; reflexivity].
  apply reach_empty.
Defined.

Lemma trie_refines_witness : tipSupport trie l121 = 2 ∧ branchSupport trie l12 = 3.
Proof.
  destruct (trie_refines trie trie_map l121 1 trie_reach) as (H1 & _); [done|].
  destruct (trie_refines trie trie_map l12 1 trie_reach) as (_ & H2 & _); [done|].
  rewrite H1, H2. split; vm_compute; reflexivity.
Defined.

Lemma trie_invariants_witness : checkInvariants trie = true.
Proof. exact (trie_invariants trie trie_map trie_reach). Defined.

Lemma preferred_correct_witness :
  ∃ x, getPreferred trie 0 = Some x ∧ preferred trie_map 0 (tip_history x) ∧ tip_id x = 12.
Proof.
  pose proof (preferred_correct trie trie_map 0 trie_reach) as H.
  assert (E : ∃ x, getPreferred trie 0 = Some x ∧ tip_id x = 12).
  { eexists. split; [vm_compute; reflexivity|reflexivity]. }
  destruct E as (x & E & Hid). rewrite E in H. exists x. split; [exact E|]. split; [apply H|exact Hid].
Defined.

Lemma rcl_mismatch_correct_witness :
  rcl_index (ch_ledger parent l121) 2 = rcl_index (ch_ledger parent l122) 2 ↔
  2 < mismatch (ch_ledger parent l121) (ch_ledger parent l122).
Proof.
  destruct (rcl_mismatch_correct parent (ch_ledger parent l121) (ch_ledger parent l122)) as (_ & H & _).
  - apply full_chain_spec. reflexivity.
  - apply full_chain_spec. reflexivity.
  - apply H; vm_compute; [discriminate|split; discriminate].
Defined.

(** *** An application *)

Record World := mkWorld { w_now : Z; w_clock : Z; w_ledgers : list Led; w_stale : list Validation }.

#[export] Instance world_adaptor : VAdaptor World Led :=
  {| va_now w := (w_now w, w);
     va_clock w := (w_clock w, w);
     acquire id w := (List.find (λ l, ledger_id l =? id) (w_ledgers w), w);
     onStale val w := mkWorld (w_now w) (w_clock w) (w_ledgers w) (w_stale w ++ [val]);
     va_flush _ w := w |}.

#[export] Instance world_sort : TrieSort Led := {| sort_trie t := t |}.
#[export] Instance world_sort_laws : TrieSortLaws Led := {| sort_trie_sorts t := rtc_refl _ t |}.
#[export] Instance world_order : HashOrder :=
  {| hash_order _ _ _ _ m := map_to_list m; hash_order_perm _ _ _ _ m := reflexivity _ |}.

Definition validation (l seq time : Z) : Validation := mkVal l seq time time true true None.

Definition p : ValidationParms := defaultVParms.
Definition nodes : gset Z := {[7; 8; 9]}.

Lemma nodes_size : Z.of_nat (size nodes) < 2 ^ 32 - 1.
Proof. vm_compute. reflexivity. Defined.

Definition w0 : World := mkWorld 1000 1000 [l1; l12; l13; l122] [].

(** Nodes 7 and 8 have validated ledger 12, node 9 ledger 122 after it. *)
Definition some_ops : list (@vop Led) :=
  [OpAdd 7 (validation 12 2 1000); OpAdd 8 (validation 12 2 1001); OpAdd 9 (validation 122 3 1002)].

Definition some_state : World * Validations Led :=
  foldl (λ ws o, run_op p o ws) (w0, newValidations) some_ops.

Lemma some_reach : vreach p nodes some_state.
Proof.
  unfold some_state, some_ops. cbn [foldl].
  do 3 (apply vreach_op; [|vm_compute; reflexivity]). apply vreach_new.
Defined.

Lemma validations_account_witness :
  tipSupport (trie_ some_state.2) l12 = 2 ∧ branchSupport (trie_ some_state.2) l12 = 3.
Proof.
  destruct (validations_account p nodes nodes_size some_state some_reach) as (H & _).
  destruct (H l12) as [-> ->]. split; vm_compute; reflexivity.
Defined.

Lemma getNodesAfter_correct_witness :
  (getNodesAfter p l12 12 some_state).1 = 1 ∧
  headcount (after l12) (lastLedger_ (getNodesAfter p l12 12 some_state).2.2) = 1.
Proof.
  pose proof (getNodesAfter_correct p nodes nodes_size some_state l12 some_reach) as H.
  assert (Hn : (getNodesAfter p l12 12 some_state).1 = 1) by (vm_compute; reflexivity).
  change (ledger_id l12) with 12 in H. destruct (getNodesAfter p l12 12 some_state) as [n ws'].
  simpl in *. split; congruence.
Defined.

Lemma preferred_choice_witness :
  ∃ h, preferred (supports (lastLedger_ (getPreferred_pair p l13 some_state).2.2)) 0 h ∧
    (¬ keeps l13 h → last h = Some 12).
Proof.
  pose proof (preferred_choice p nodes nodes_size some_state l13 some_reach) as H.
  change (largest (localSeqEnforcer_ some_state.2)) with 0 in H.
  assert (Hr : (getPreferred_pair p l13 some_state).1 = Some (2, 12)) by (vm_compute; reflexivity).
  assert (Hne : lastLedger_ (getPreferred_pair p l13 some_state).2.2 ≠ ∅) by (vm_compute; discriminate).
  destruct (getPreferred_pair p l13 some_state) as [r ws']. simpl in Hr, Hne.
  rewrite decide_False in H by exact Hne. destruct H as (h & Hp & _ & _ & Hn).
  exists h. split; [exact Hp|]. intros Hk. destruct (Hn Hk) as (id & Hid & E). congruence.
Defined.

Lemma sequences_increase_witness :
  accepted p newEnforcer [(10, 5); (20, 5); (30, 7)] = [(10, 5); (30, 7)] ∧ 5 < 7.
Proof.
  split; [reflexivity|].
  refine (proj2 (sequences_increase p [(10, 5); (20, 5); (30, 7)] _ _ _) 0%nat 1%nat (10, 5) (30, 7) _ _ _ _).
  - discriminate.
  - repeat constructor; discriminate.
  - intros c Hc. repeat (apply elem_of_cons in Hc as [->|Hc]; [discriminate|]). by apply not_elem_of_nil in Hc.
  - lia.
  - reflexivity.
  - reflexivity.
  - discriminate.
Defined.

(** *** Support that outlives its validation *)

(** Node 7 validates ledger 12, which the server has, and then ledger 121, which it
    has not.  When the second validation becomes stale, the support for the first
    ledger remains, although the node has no current validation. *)
Definition left_behind : World * Validations Led :=
  let ws := (add p 7 (validation 121 3 1001) (add p 7 (validation 12 2 1000) (w0, newValidations)).2).2 in
  (mkWorld 5000 5000 (w_ledgers ws.1) (w_stale ws.1), ws.2).

Lemma stale_support_remains :
  let '(result, ws) := getPreferred_pair p l13 left_behind in
  result = Some (2, 12) ∧ current_ ws.2 = ∅ ∧ acquiring_ ws.2 = ∅ ∧ tipSupport (trie_ ws.2) l12 = 1.
Proof. vm_compute. split_and!; reflexivity. Qed.
End Sample.
