(* ===== verification/SField.v ===== *)
(** * Serialised fields and object templates

    Model of [src/src/ripple/protocol/SField.h], [impl/SField.cpp],
    [SOTemplate.h], [KnownFormats.h], [impl/LedgerFormats.cpp],
    [impl/TxFormats.cpp] and [impl/InnerObjectFormats.cpp]: the fields that
    occur in serialised objects, and which fields an object of a given kind has.

    A field is a value; the registry of fields created at run time is a cache, so
    [getField] is a function of the code.  [fieldNum], the number by which a
    template finds a field, is left out: a template is searched by code. *)

From stdpp Require Import base numbers list gmap strings.
From Stdlib Require Import Lia ZArith.
From S2P Require Import Prelude StateTable.

Local Open Scope Z_scope.

(** ** SerializedTypeID *)

Definition STI_UNKNOWN : Z := -2.
Definition STI_NOTPRESENT : Z := 0.
Definition STI_UINT16 : Z := 1.
Definition STI_UINT32 : Z := 2.
Definition STI_UINT64 : Z := 3.
Definition STI_HASH128 : Z := 4.
Definition STI_HASH256 : Z := 5.
Definition STI_AMOUNT : Z := 6.
Definition STI_VL : Z := 7.
Definition STI_ACCOUNT : Z := 8.
Definition STI_OBJECT : Z := 14.
Definition STI_ARRAY : Z := 15.
Definition STI_UINT8 : Z := 16.
Definition STI_HASH160 : Z := 17.
Definition STI_PATHSET : Z := 18.
Definition STI_VECTOR256 : Z := 19.
Definition STI_TRANSACTION : Z := 10001.
Definition STI_LEDGERENTRY : Z := 10002.
Definition STI_VALIDATION : Z := 10003.
Definition STI_METADATA : Z := 10004.

(** ** SField *)

Definition sMD_Never : Z := 0.
Definition sMD_ChangeOrig : Z := 1.
Definition sMD_ChangeNew : Z := 2.
Definition sMD_DeleteFinal : Z := 4.
Definition sMD_Create : Z := 8.
Definition sMD_Always : Z := 16.
Definition sMD_Default : Z :=
  Z.lor (Z.lor sMD_ChangeOrig sMD_ChangeNew) (Z.lor sMD_DeleteFinal sMD_Create).

Record SField : Type := mkField {
  fieldCode : Z;
  fieldType : Z;
  fieldValue : Z;
  fieldName : string;
  fieldMeta : Z;
  signingField : bool }.

#[export] Instance SField_eq_dec : EqDecision SField.
Proof. solve_decision. Defined.

Definition field_code (id index : Z) : Z := Z.lor (id ≪ 16) index.

(** The constructors. *)
Definition one_with (tid fv : Z) (fn : string) (meta : Z) (signing : bool) : SField :=
  mkField (field_code tid fv) tid fv fn meta signing.
Definition one (tid fv : Z) (fn : string) : SField := one_with tid fv fn sMD_Default true.
Definition one_code (fc : Z) : SField := mkField fc STI_UNKNOWN 0 "" sMD_Never true.

Definition isInvalid (f : SField) : bool := fieldCode f =? -1.
Definition isUseful (f : SField) : bool := 0 <? fieldCode f.
Definition isBinary (f : SField) : bool := fieldValue f <? 256.
Definition isDiscardable (f : SField) : bool := 256 <? fieldValue f.
Definition shouldMeta (f : SField) (c : Z) : bool := negb (Z.land (fieldMeta f) c =? 0).
Definition shouldInclude (f : SField) (withSigningField : bool) : bool :=
  (fieldValue f <? 256) && (withSigningField || signingField f).

(** [SField::operator==]. *)
Definition same_field (f g : SField) : bool := fieldCode f =? fieldCode g.

Definition sfInvalid : SField := one_code (-1).
Definition sfGeneric : SField := one_code (0).
Definition sfLedgerEntry : SField := one STI_LEDGERENTRY 257 "LedgerEntry".
Definition sfTransaction : SField := one STI_TRANSACTION 257 "Transaction".
Definition sfValidation : SField := one STI_VALIDATION 257 "Validation".
Definition sfMetadata : SField := one STI_METADATA 257 "Metadata".
Definition sfHash : SField := one STI_HASH256 257 "hash".
Definition sfIndex : SField := one STI_HASH256 258 "index".
Definition sfCloseResolution : SField := one STI_UINT8 1 "CloseResolution".
Definition sfMethod : SField := one STI_UINT8 2 "Method".
Definition sfTransactionResult : SField := one STI_UINT8 3 "TransactionResult".
Definition sfTickSize : SField := one STI_UINT8 16 "TickSize".
Definition sfLedgerEntryType : SField := one_with STI_UINT16 1 "LedgerEntryType" sMD_Never true.
Definition sfTransactionType : SField := one STI_UINT16 2 "TransactionType".
Definition sfSignerWeight : SField := one STI_UINT16 3 "SignerWeight".
Definition sfFlags : SField := one STI_UINT32 2 "Flags".
Definition sfSourceTag : SField := one STI_UINT32 3 "SourceTag".
Definition sfSequence : SField := one STI_UINT32 4 "Sequence".
Definition sfPreviousTxnLgrSeq : SField := one_with STI_UINT32 5 "PreviousTxnLgrSeq" sMD_DeleteFinal true.
Definition sfLedgerSequence : SField := one STI_UINT32 6 "LedgerSequence".
Definition sfCloseTime : SField := one STI_UINT32 7 "CloseTime".
Definition sfParentCloseTime : SField := one STI_UINT32 8 "ParentCloseTime".
Definition sfSigningTime : SField := one STI_UINT32 9 "SigningTime".
Definition sfExpiration : SField := one STI_UINT32 10 "Expiration".
Definition sfTransferRate : SField := one STI_UINT32 11 "TransferRate".
Definition sfWalletSize : SField := one STI_UINT32 12 "WalletSize".
Definition sfOwnerCount : SField := one STI_UINT32 13 "OwnerCount".
Definition sfDestinationTag : SField := one STI_UINT32 14 "DestinationTag".
Definition sfHighQualityIn : SField := one STI_UINT32 16 "HighQualityIn".
Definition sfHighQualityOut : SField := one STI_UINT32 17 "HighQualityOut".
Definition sfLowQualityIn : SField := one STI_UINT32 18 "LowQualityIn".
Definition sfLowQualityOut : SField := one STI_UINT32 19 "LowQualityOut".
Definition sfQualityIn : SField := one STI_UINT32 20 "QualityIn".
Definition sfQualityOut : SField := one STI_UINT32 21 "QualityOut".
Definition sfStampEscrow : SField := one STI_UINT32 22 "StampEscrow".
Definition sfBondAmount : SField := one STI_UINT32 23 "BondAmount".
Definition sfLoadFee : SField := one STI_UINT32 24 "LoadFee".
Definition sfOfferSequence : SField := one STI_UINT32 25 "OfferSequence".
Definition sfFirstLedgerSequence : SField := one STI_UINT32 26 "FirstLedgerSequence".
Definition sfLastLedgerSequence : SField := one STI_UINT32 27 "LastLedgerSequence".
Definition sfTransactionIndex : SField := one STI_UINT32 28 "TransactionIndex".
Definition sfOperationLimit : SField := one STI_UINT32 29 "OperationLimit".
Definition sfReferenceFeeUnits : SField := one STI_UINT32 30 "ReferenceFeeUnits".
Definition sfReserveBase : SField := one STI_UINT32 31 "ReserveBase".
Definition sfReserveIncrement : SField := one STI_UINT32 32 "ReserveIncrement".
Definition sfSetFlag : SField := one STI_UINT32 33 "SetFlag".
Definition sfClearFlag : SField := one STI_UINT32 34 "ClearFlag".
Definition sfSignerQuorum : SField := one STI_UINT32 35 "SignerQuorum".
Definition sfCancelAfter : SField := one STI_UINT32 36 "CancelAfter".
Definition sfFinishAfter : SField := one STI_UINT32 37 "FinishAfter".
Definition sfSignerListID : SField := one STI_UINT32 38 "SignerListID".
Definition sfSettleDelay : SField := one STI_UINT32 39 "SettleDelay".
Definition sfIndexNext : SField := one STI_UINT64 1 "IndexNext".
Definition sfIndexPrevious : SField := one STI_UINT64 2 "IndexPrevious".
Definition sfBookNode : SField := one STI_UINT64 3 "BookNode".
Definition sfOwnerNode : SField := one STI_UINT64 4 "OwnerNode".
Definition sfBaseFee : SField := one STI_UINT64 5 "BaseFee".
Definition sfExchangeRate : SField := one STI_UINT64 6 "ExchangeRate".
Definition sfLowNode : SField := one STI_UINT64 7 "LowNode".
Definition sfHighNode : SField := one STI_UINT64 8 "HighNode".
Definition sfDestinationNode : SField := one STI_UINT64 9 "DestinationNode".
Definition sfCookie : SField := one STI_UINT64 10 "Cookie".
Definition sfEmailHash : SField := one STI_HASH128 1 "EmailHash".
Definition sfTakerPaysCurrency : SField := one STI_HASH160 1 "TakerPaysCurrency".
Definition sfTakerPaysIssuer : SField := one STI_HASH160 2 "TakerPaysIssuer".
Definition sfTakerGetsCurrency : SField := one STI_HASH160 3 "TakerGetsCurrency".
Definition sfTakerGetsIssuer : SField := one STI_HASH160 4 "TakerGetsIssuer".
Definition sfLedgerHash : SField := one STI_HASH256 1 "LedgerHash".
Definition sfParentHash : SField := one STI_HASH256 2 "ParentHash".
Definition sfTransactionHash : SField := one STI_HASH256 3 "TransactionHash".
Definition sfAccountHash : SField := one STI_HASH256 4 "AccountHash".
Definition sfPreviousTxnID : SField := one_with STI_HASH256 5 "PreviousTxnID" sMD_DeleteFinal true.
Definition sfLedgerIndex : SField := one STI_HASH256 6 "LedgerIndex".
Definition sfWalletLocator : SField := one STI_HASH256 7 "WalletLocator".
Definition sfRootIndex : SField := one_with STI_HASH256 8 "RootIndex" sMD_Always true.
Definition sfAccountTxnID : SField := one STI_HASH256 9 "AccountTxnID".
Definition sfBookDirectory : SField := one STI_HASH256 16 "BookDirectory".
Definition sfInvoiceID : SField := one STI_HASH256 17 "InvoiceID".
Definition sfNickname : SField := one STI_HASH256 18 "Nickname".
Definition sfAmendment : SField := one STI_HASH256 19 "Amendment".
Definition sfTicketID : SField := one STI_HASH256 20 "TicketID".
Definition sfDigest : SField := one STI_HASH256 21 "Digest".
Definition sfPayChannel : SField := one STI_HASH256 22 "Channel".
Definition sfConsensusHash : SField := one STI_HASH256 23 "ConsensusHash".
Definition sfCheckID : SField := one STI_HASH256 24 "CheckID".
Definition sfAmount : SField := one STI_AMOUNT 1 "Amount".
Definition sfBalance : SField := one STI_AMOUNT 2 "Balance".
Definition sfLimitAmount : SField := one STI_AMOUNT 3 "LimitAmount".
Definition sfTakerPays : SField := one STI_AMOUNT 4 "TakerPays".
Definition sfTakerGets : SField := one STI_AMOUNT 5 "TakerGets".
Definition sfLowLimit : SField := one STI_AMOUNT 6 "LowLimit".
Definition sfHighLimit : SField := one STI_AMOUNT 7 "HighLimit".
Definition sfFee : SField := one STI_AMOUNT 8 "Fee".
Definition sfSendMax : SField := one STI_AMOUNT 9 "SendMax".
Definition sfDeliverMin : SField := one STI_AMOUNT 10 "DeliverMin".
Definition sfMinimumOffer : SField := one STI_AMOUNT 16 "MinimumOffer".
Definition sfRippleEscrow : SField := one STI_AMOUNT 17 "RippleEscrow".
Definition sfDeliveredAmount : SField := one STI_AMOUNT 18 "DeliveredAmount".
Definition sfPublicKey : SField := one STI_VL 1 "PublicKey".
Definition sfSigningPubKey : SField := one STI_VL 3 "SigningPubKey".
Definition sfSignature : SField := one_with STI_VL 6 "Signature" sMD_Default false.
Definition sfMessageKey : SField := one STI_VL 2 "MessageKey".
Definition sfTxnSignature : SField := one_with STI_VL 4 "TxnSignature" sMD_Default false.
Definition sfDomain : SField := one STI_VL 7 "Domain".
Definition sfFundCode : SField := one STI_VL 8 "FundCode".
Definition sfRemoveCode : SField := one STI_VL 9 "RemoveCode".
Definition sfExpireCode : SField := one STI_VL 10 "ExpireCode".
Definition sfCreateCode : SField := one STI_VL 11 "CreateCode".
Definition sfMemoType : SField := one STI_VL 12 "MemoType".
Definition sfMemoData : SField := one STI_VL 13 "MemoData".
Definition sfMemoFormat : SField := one STI_VL 14 "MemoFormat".
Definition sfFulfillment : SField := one STI_VL 16 "Fulfillment".
Definition sfCondition : SField := one STI_VL 17 "Condition".
Definition sfMasterSignature : SField := one_with STI_VL 18 "MasterSignature" sMD_Default false.
Definition sfAccount : SField := one STI_ACCOUNT 1 "Account".
Definition sfOwner : SField := one STI_ACCOUNT 2 "Owner".
Definition sfDestination : SField := one STI_ACCOUNT 3 "Destination".
Definition sfIssuer : SField := one STI_ACCOUNT 4 "Issuer".
Definition sfAuthorize : SField := one STI_ACCOUNT 5 "Authorize".
Definition sfUnauthorize : SField := one STI_ACCOUNT 6 "Unauthorize".
Definition sfTarget : SField := one STI_ACCOUNT 7 "Target".
Definition sfRegularKey : SField := one STI_ACCOUNT 8 "RegularKey".
Definition sfPaths : SField := one STI_PATHSET 1 "Paths".
Definition sfIndexes : SField := one_with STI_VECTOR256 1 "Indexes" sMD_Never true.
Definition sfHashes : SField := one STI_VECTOR256 2 "Hashes".
Definition sfAmendments : SField := one STI_VECTOR256 3 "Amendments".
Definition sfTransactionMetaData : SField := one STI_OBJECT 2 "TransactionMetaData".
Definition sfCreatedNode : SField := one STI_OBJECT 3 "CreatedNode".
Definition sfDeletedNode : SField := one STI_OBJECT 4 "DeletedNode".
Definition sfModifiedNode : SField := one STI_OBJECT 5 "ModifiedNode".
Definition sfPreviousFields : SField := one STI_OBJECT 6 "PreviousFields".
Definition sfFinalFields : SField := one STI_OBJECT 7 "FinalFields".
Definition sfNewFields : SField := one STI_OBJECT 8 "NewFields".
Definition sfTemplateEntry : SField := one STI_OBJECT 9 "TemplateEntry".
Definition sfMemo : SField := one STI_OBJECT 10 "Memo".
Definition sfSignerEntry : SField := one STI_OBJECT 11 "SignerEntry".
Definition sfSigner : SField := one STI_OBJECT 16 "Signer".
Definition sfMajority : SField := one STI_OBJECT 18 "Majority".
Definition sfSigners : SField := one_with STI_ARRAY 3 "Signers" sMD_Default false.
Definition sfSignerEntries : SField := one STI_ARRAY 4 "SignerEntries".
Definition sfTemplate : SField := one STI_ARRAY 5 "Template".
Definition sfNecessary : SField := one STI_ARRAY 6 "Necessary".
Definition sfSufficient : SField := one STI_ARRAY 7 "Sufficient".
Definition sfAffectedNodes : SField := one STI_ARRAY 8 "AffectedNodes".
Definition sfMemos : SField := one STI_ARRAY 9 "Memos".
Definition sfMajorities : SField := one STI_ARRAY 16 "Majorities".

(** The fields with a number, a hash or an amount, and the others. *)
Definition scalar_fields : list SField :=
  [sfInvalid; sfGeneric; sfLedgerEntry; sfTransaction; sfValidation; sfMetadata; sfHash; sfIndex;
   sfCloseResolution; sfMethod; sfTransactionResult; sfTickSize; sfLedgerEntryType;
   sfTransactionType; sfSignerWeight; sfFlags; sfSourceTag; sfSequence; sfPreviousTxnLgrSeq;
   sfLedgerSequence; sfCloseTime; sfParentCloseTime; sfSigningTime; sfExpiration; sfTransferRate;
   sfWalletSize; sfOwnerCount; sfDestinationTag; sfHighQualityIn; sfHighQualityOut; sfLowQualityIn;
   sfLowQualityOut; sfQualityIn; sfQualityOut; sfStampEscrow; sfBondAmount; sfLoadFee;
   sfOfferSequence; sfFirstLedgerSequence; sfLastLedgerSequence; sfTransactionIndex;
   sfOperationLimit; sfReferenceFeeUnits; sfReserveBase; sfReserveIncrement; sfSetFlag;
   sfClearFlag; sfSignerQuorum; sfCancelAfter; sfFinishAfter; sfSignerListID; sfSettleDelay;
   sfIndexNext; sfIndexPrevious; sfBookNode; sfOwnerNode; sfBaseFee; sfExchangeRate; sfLowNode;
   sfHighNode; sfDestinationNode; sfCookie; sfEmailHash; sfTakerPaysCurrency; sfTakerPaysIssuer;
   sfTakerGetsCurrency; sfTakerGetsIssuer; sfLedgerHash; sfParentHash; sfTransactionHash;
   sfAccountHash; sfPreviousTxnID; sfLedgerIndex; sfWalletLocator; sfRootIndex; sfAccountTxnID;
   sfBookDirectory; sfInvoiceID; sfNickname; sfAmendment; sfTicketID; sfDigest; sfPayChannel;
   sfConsensusHash; sfCheckID; sfAmount; sfBalance; sfLimitAmount; sfTakerPays; sfTakerGets;
   sfLowLimit; sfHighLimit; sfFee; sfSendMax; sfDeliverMin; sfMinimumOffer; sfRippleEscrow;
   sfDeliveredAmount].

Definition other_fields : list SField :=
  [sfPublicKey; sfSigningPubKey; sfSignature; sfMessageKey; sfTxnSignature;
   sfDomain; sfFundCode; sfRemoveCode; sfExpireCode; sfCreateCode; sfMemoType; sfMemoData;
   sfMemoFormat; sfFulfillment; sfCondition; sfMasterSignature; sfAccount; sfOwner; sfDestination;
   sfIssuer; sfAuthorize; sfUnauthorize; sfTarget; sfRegularKey; sfPaths; sfIndexes; sfHashes;
   sfAmendments; sfTransactionMetaData; sfCreatedNode; sfDeletedNode; sfModifiedNode;
   sfPreviousFields; sfFinalFields; sfNewFields; sfTemplateEntry; sfMemo; sfSignerEntry; sfSigner;
   sfMajority; sfSigners; sfSignerEntries; sfTemplate; sfNecessary; sfSufficient; sfAffectedNodes;
   sfMemos; sfMajorities].

Definition known_fields : list SField := scalar_fields ++ other_fields.

Definition knownCodeToField : gmap Z SField :=
  list_to_map ((λ f, (fieldCode f, f)) <$> known_fields).

(** Decimal digits, as [std::to_string] writes a small number. *)
Definition to_string (n : Z) : string := pretty.pretty n.

(** The types of fields that are created when they are met. *)
Definition extensible (type : Z) : bool :=
  bool_decide (type ∈ [STI_UINT16; STI_UINT32; STI_UINT64; STI_HASH128; STI_HASH256; STI_AMOUNT;
    STI_VL; STI_ACCOUNT; STI_OBJECT; STI_ARRAY; STI_UINT8; STI_HASH160; STI_PATHSET;
    STI_VECTOR256]).

(** [SField::getField (int code)]. *)
Definition getField (code : Z) : SField :=
  match knownCodeToField !! code with
  | Some f => f
  | None =>
    let type := code ≫ 16 in
    let field := Z.land code 65535 in
    if (255 <? field) || (code <? 0) then sfInvalid
    else if extensible type
    then one type field (to_string type +:+ "/" +:+ to_string field)
    else sfInvalid
  end.

(** [SField::compare]: -1 before, 1 after, 0 an illegal combination. *)
Definition field_compare (f1 f2 : SField) : Z :=
  if (fieldCode f1 <=? 0) || (fieldCode f2 <=? 0) then 0
  else if fieldCode f1 <? fieldCode f2 then -1
  else if fieldCode f2 <? fieldCode f1 then 1
  else 0.

(** ** SOTemplate *)

Inductive SOE_Flags : Type := SOE_REQUIRED | SOE_OPTIONAL | SOE_DEFAULT.

#[export] Instance SOE_eq_dec : EqDecision SOE_Flags.
Proof. solve_decision. Defined.

Record SOElement : Type := mkElement { e_field : SField; flags : SOE_Flags }.

#[export] Instance SOElement_eq_dec : EqDecision SOElement.
Proof. solve_decision. Defined.

Abbreviation SOTemplate := (list SOElement).

Definition required (f : SField) : SOElement := mkElement f SOE_REQUIRED.
Definition optional (f : SField) : SOElement := mkElement f SOE_OPTIONAL.
Definition defaulted (f : SField) : SOElement := mkElement f SOE_DEFAULT.

(** Position of the first element that satisfies a predicate. *)
Fixpoint find_index {A} (p : A → bool) (l : list A) : option nat :=
  match l with
  | [] => None
  | x :: l => if p x then Some 0%nat else S <$> find_index p l
  end.

Definition getIndex (t : SOTemplate) (f : SField) : option nat :=
  find_index (λ e, same_field (e_field e) f) t.

Definition style (t : SOTemplate) (f : SField) : option SOE_Flags :=
  flags <$> List.find (λ e, same_field (e_field e) f) t.

(** ** Formats *)

Definition ltACCOUNT_ROOT : Z := 97.
Definition ltRIPPLE_STATE : Z := 114.
Definition ltTICKET : Z := 84.
Definition ltSIGNER_LIST : Z := 83.
Definition ltOFFER : Z := 111.
Definition ltLEDGER_HASHES : Z := 104.
Definition ltAMENDMENTS : Z := 102.
Definition ltFEE_SETTINGS : Z := 115.
Definition ltESCROW : Z := 117.
Definition ltPAYCHAN : Z := 120.
Definition ltCHECK : Z := 67.
Definition ltDEPOSIT_PREAUTH : Z := 112.

Definition ttPAYMENT : Z := 0.
Definition ttESCROW_CREATE : Z := 1.
Definition ttESCROW_FINISH : Z := 2.
Definition ttACCOUNT_SET : Z := 3.
Definition ttESCROW_CANCEL : Z := 4.
Definition ttREGULAR_KEY_SET : Z := 5.
Definition ttOFFER_CREATE : Z := 7.
Definition ttOFFER_CANCEL : Z := 8.
Definition ttTICKET_CREATE : Z := 10.
Definition ttTICKET_CANCEL : Z := 11.
Definition ttSIGNER_LIST_SET : Z := 12.
Definition ttPAYCHAN_CREATE : Z := 13.
Definition ttPAYCHAN_FUND : Z := 14.
Definition ttPAYCHAN_CLAIM : Z := 15.
Definition ttCHECK_CREATE : Z := 16.
Definition ttCHECK_CASH : Z := 17.
Definition ttCHECK_CANCEL : Z := 18.
Definition ttDEPOSIT_PREAUTH : Z := 19.
Definition ttTRUST_SET : Z := 20.
Definition ttAMENDMENT : Z := 100.
Definition ttFEE : Z := 101.

(** [KnownFormats::add] puts the common fields first. *)
Definition add_format (common : SOTemplate) (type : Z) (elements : SOTemplate) : Z * SOTemplate :=
  (type, common ++ elements).

Definition findByType (formats : list (Z * SOTemplate)) (type : Z) : option SOTemplate :=
  (list_to_map formats : gmap Z SOTemplate) !! type.

Definition fmt_AccountRoot : list SOElement :=
  [required sfAccount; required sfSequence; required sfBalance; required sfOwnerCount;
   required sfPreviousTxnID; required sfPreviousTxnLgrSeq; optional sfAccountTxnID;
   optional sfRegularKey; optional sfEmailHash; optional sfWalletLocator; optional sfWalletSize;
   optional sfMessageKey; optional sfTransferRate; optional sfDomain; optional sfTickSize].

Definition fmt_DirectoryNode : list SOElement :=
  [optional sfOwner; optional sfTakerPaysCurrency; optional sfTakerPaysIssuer;
   optional sfTakerGetsCurrency; optional sfTakerGetsIssuer; optional sfExchangeRate;
   required sfIndexes; required sfRootIndex; optional sfIndexNext; optional sfIndexPrevious].

Definition fmt_Offer : list SOElement :=
  [required sfAccount; required sfSequence; required sfTakerPays; required sfTakerGets;
   required sfBookDirectory; required sfBookNode; required sfOwnerNode; required sfPreviousTxnID;
   required sfPreviousTxnLgrSeq; optional sfExpiration].

Definition fmt_RippleState : list SOElement :=
  [required sfBalance; required sfLowLimit; required sfHighLimit; required sfPreviousTxnID;
   required sfPreviousTxnLgrSeq; optional sfLowNode; optional sfLowQualityIn;
   optional sfLowQualityOut; optional sfHighNode; optional sfHighQualityIn;
   optional sfHighQualityOut].

Definition fmt_Escrow : list SOElement :=
  [required sfAccount; required sfDestination; required sfAmount; optional sfCondition;
   optional sfCancelAfter; optional sfFinishAfter; optional sfSourceTag; optional sfDestinationTag;
   required sfOwnerNode; required sfPreviousTxnID; required sfPreviousTxnLgrSeq;
   optional sfDestinationNode].

Definition fmt_LedgerHashes : list SOElement :=
  [optional sfFirstLedgerSequence; optional sfLastLedgerSequence; required sfHashes].

Definition fmt_Amendments : list SOElement :=
  [optional sfAmendments; optional sfMajorities].

Definition fmt_FeeSettings : list SOElement :=
  [required sfBaseFee; required sfReferenceFeeUnits; required sfReserveBase;
   required sfReserveIncrement].

Definition fmt_Ticket : list SOElement :=
  [required sfAccount; required sfSequence; required sfOwnerNode; optional sfTarget;
   optional sfExpiration].

Definition fmt_SignerList : list SOElement :=
  [required sfOwnerNode; required sfSignerQuorum; required sfSignerEntries;
   required sfSignerListID; required sfPreviousTxnID; required sfPreviousTxnLgrSeq].

Definition fmt_PayChannel : list SOElement :=
  [required sfAccount; required sfDestination; required sfAmount; required sfBalance;
   required sfPublicKey; required sfSettleDelay; optional sfExpiration; optional sfCancelAfter;
   optional sfSourceTag; optional sfDestinationTag; required sfOwnerNode; required sfPreviousTxnID;
   required sfPreviousTxnLgrSeq].

Definition fmt_Check : list SOElement :=
  [required sfAccount; required sfDestination; required sfSendMax; required sfSequence;
   required sfOwnerNode; required sfDestinationNode; optional sfExpiration; optional sfInvoiceID;
   optional sfSourceTag; optional sfDestinationTag; required sfPreviousTxnID;
   required sfPreviousTxnLgrSeq].

Definition fmt_DepositPreauth : list SOElement :=
  [required sfAccount; required sfAuthorize; required sfOwnerNode; required sfPreviousTxnID;
   required sfPreviousTxnLgrSeq].

Definition fmt_common : list SOElement :=
  [optional sfLedgerIndex; required sfLedgerEntryType; required sfFlags].


Definition tx_AccountSet : list SOElement :=
  [optional sfEmailHash; optional sfWalletLocator; optional sfWalletSize; optional sfMessageKey;
   optional sfDomain; optional sfTransferRate; optional sfSetFlag; optional sfClearFlag;
   optional sfTickSize].

Definition tx_TrustSet : list SOElement :=
  [optional sfLimitAmount; optional sfQualityIn; optional sfQualityOut].

Definition tx_OfferCreate : list SOElement :=
  [required sfTakerPays; required sfTakerGets; optional sfExpiration; optional sfOfferSequence].

Definition tx_OfferCancel : list SOElement :=
  [required sfOfferSequence].

Definition tx_SetRegularKey : list SOElement :=
  [optional sfRegularKey].

Definition tx_Payment : list SOElement :=
  [required sfDestination; required sfAmount; optional sfSendMax; defaulted sfPaths;
   optional sfInvoiceID; optional sfDestinationTag; optional sfDeliverMin].

Definition tx_EscrowCreate : list SOElement :=
  [required sfDestination; required sfAmount; optional sfCondition; optional sfCancelAfter;
   optional sfFinishAfter; optional sfDestinationTag].

Definition tx_EscrowFinish : list SOElement :=
  [required sfOwner; required sfOfferSequence; optional sfFulfillment; optional sfCondition].

Definition tx_EscrowCancel : list SOElement :=
  [required sfOwner; required sfOfferSequence].

Definition tx_EnableAmendment : list SOElement :=
  [required sfLedgerSequence; required sfAmendment].

Definition tx_SetFee : list SOElement :=
  [optional sfLedgerSequence; required sfBaseFee; required sfReferenceFeeUnits;
   required sfReserveBase; required sfReserveIncrement].

Definition tx_TicketCreate : list SOElement :=
  [optional sfTarget; optional sfExpiration].

Definition tx_TicketCancel : list SOElement :=
  [required sfTicketID].

Definition tx_SignerListSet : list SOElement :=
  [required sfSignerQuorum; optional sfSignerEntries].

Definition tx_PaymentChannelCreate : list SOElement :=
  [required sfDestination; required sfAmount; required sfSettleDelay; required sfPublicKey;
   optional sfCancelAfter; optional sfDestinationTag].

Definition tx_PaymentChannelFund : list SOElement :=
  [required sfPayChannel; required sfAmount; optional sfExpiration].

Definition tx_PaymentChannelClaim : list SOElement :=
  [required sfPayChannel; optional sfAmount; optional sfBalance; optional sfSignature;
   optional sfPublicKey].

Definition tx_CheckCreate : list SOElement :=
  [required sfDestination; required sfSendMax; optional sfExpiration; optional sfDestinationTag;
   optional sfInvoiceID].

Definition tx_CheckCash : list SOElement :=
  [required sfCheckID; optional sfAmount; optional sfDeliverMin].

Definition tx_CheckCancel : list SOElement :=
  [required sfCheckID].

Definition tx_DepositPreauth : list SOElement :=
  [optional sfAuthorize; optional sfUnauthorize].

Definition tx_common : list SOElement :=
  [required sfTransactionType; optional sfFlags; optional sfSourceTag; required sfAccount;
   required sfSequence; optional sfPreviousTxnID; optional sfLastLedgerSequence;
   optional sfAccountTxnID; required sfFee; optional sfOperationLimit; optional sfMemos;
   required sfSigningPubKey; optional sfTxnSignature; optional sfSigners].

Definition LedgerFormats : list (Z * SOTemplate) :=
  (λ x, add_format fmt_common x.1 x.2) <$>
  [(ltACCOUNT_ROOT, fmt_AccountRoot); (ltDIR_NODE, fmt_DirectoryNode); (ltOFFER, fmt_Offer);
   (ltRIPPLE_STATE, fmt_RippleState); (ltESCROW, fmt_Escrow); (ltLEDGER_HASHES, fmt_LedgerHashes);
   (ltAMENDMENTS, fmt_Amendments); (ltFEE_SETTINGS, fmt_FeeSettings); (ltTICKET, fmt_Ticket);
   (ltSIGNER_LIST, fmt_SignerList); (ltPAYCHAN, fmt_PayChannel); (ltCHECK, fmt_Check);
   (ltDEPOSIT_PREAUTH, fmt_DepositPreauth)].

Definition TxFormats : list (Z * SOTemplate) :=
  (λ x, add_format tx_common x.1 x.2) <$>
  [(ttACCOUNT_SET, tx_AccountSet); (ttTRUST_SET, tx_TrustSet); (ttOFFER_CREATE, tx_OfferCreate);
   (ttOFFER_CANCEL, tx_OfferCancel); (ttREGULAR_KEY_SET, tx_SetRegularKey); (ttPAYMENT, tx_Payment);
   (ttESCROW_CREATE, tx_EscrowCreate); (ttESCROW_FINISH, tx_EscrowFinish);
   (ttESCROW_CANCEL, tx_EscrowCancel); (ttAMENDMENT, tx_EnableAmendment); (ttFEE, tx_SetFee);
   (ttTICKET_CREATE, tx_TicketCreate); (ttTICKET_CANCEL, tx_TicketCancel);
   (ttSIGNER_LIST_SET, tx_SignerListSet); (ttPAYCHAN_CREATE, tx_PaymentChannelCreate);
   (ttPAYCHAN_FUND, tx_PaymentChannelFund); (ttPAYCHAN_CLAIM, tx_PaymentChannelClaim);
   (ttCHECK_CREATE, tx_CheckCreate); (ttCHECK_CASH, tx_CheckCash); (ttCHECK_CANCEL, tx_CheckCancel);
   (ttDEPOSIT_PREAUTH, tx_DepositPreauth)].

Definition InnerObjectFormats : list (Z * SOTemplate) :=
  [(fieldCode sfSignerEntry, [required sfAccount; required sfSignerWeight]);
   (fieldCode sfSigner, [required sfAccount; required sfSigningPubKey; required sfTxnSignature])].

Definition findSOTemplateBySField (f : SField) : option SOTemplate :=
  findByType InnerObjectFormats (fieldCode f).
