(* ===== verification/STObject.v ===== *)
(** * Serialised objects

    Model of [src/src/ripple/protocol/STObject.h], [impl/STObject.cpp],
    [impl/STVar.cpp], [STArray], [STInteger], [STBitString], [STBlob],
    [STAccount], [STPathSet], [STVector256] and [STLedgerEntry]: the typed
    fields of transactions and ledger entries, the templates that say which
    fields an object has, and the binary format of objects.

    A value of the class hierarchy under [STBase] is a value of [STVar], one
    constructor per class; its field name is kept beside it, as the containers
    do.  [STObject] is the list of its fields and the template it is bound to, if
    any. *)

From stdpp Require Import base numbers list gmap strings sorting.
From Stdlib Require Import Lia ZArith.
From S2P Require Import Prelude Serializer STAmount StateTable SField.

Local Open Scope Z_scope.

(** ** STPathElement *)

Definition typeNone : Z := 0.
Definition typeAccount : Z := 1.
Definition typeCurrency : Z := 16.
Definition typeIssuer : Z := 32.
Definition typeBoundary : Z := 255.
Definition typeAll : Z := Z.lor (Z.lor typeAccount typeCurrency) typeIssuer.

Record STPathElement : Type := mkPathElement {
  pe_type : Z;
  pe_account : Z;
  pe_currency : Z;
  pe_issuer : Z;
  pe_is_offer : bool }.

#[export] Instance STPathElement_eq_dec : EqDecision STPathElement.
Proof. solve_decision. Defined.

Definition has_flag (t flag : Z) : bool := negb (Z.land t flag =? 0).

(** The constructor from an account, a currency and an issuer. *)
Definition path_element (account currency issuer : Z) (forceCurrency : bool) : STPathElement :=
  let is_offer := isXRP account in
  let t := typeNone in
  let t := if negb is_offer then Z.lor t typeAccount else t in
  let t := if forceCurrency || negb (isXRP currency) then Z.lor t typeCurrency else t in
  let t := if negb (isXRP issuer) then Z.lor t typeIssuer else t in
  mkPathElement t account currency issuer is_offer.

(** ** Values *)

Inductive STVar : Type :=
| NotPresent
| UInt8 (v : Z)
| UInt16 (v : Z)
| UInt32 (v : Z)
| UInt64 (v : Z)
| Hash128 (v : Z)
| Hash160 (v : Z)
| Hash256 (v : Z)
| Amount (v : STAmount)
| Blob (v : list Z)
| Account (v : Z) (default_ : bool)
| PathSet (v : list (list STPathElement))
| Vector256 (v : list Z)
| Object (o : STObject)
| Array (v : list (SField * STObject))
with STObject : Type :=
| mkObject (mType : option SOTemplate) (v_ : list (SField * STVar)).

Definition mType (o : STObject) : option SOTemplate := let 'mkObject t _ := o in t.
Definition v_ (o : STObject) : list (SField * STVar) := let 'mkObject _ v := o in v.

Definition getSType (x : STVar) : Z :=
  match x with
  | NotPresent => STI_NOTPRESENT
  | UInt8 _ => STI_UINT8
  | UInt16 _ => STI_UINT16
  | UInt32 _ => STI_UINT32
  | UInt64 _ => STI_UINT64
  | Hash128 _ => STI_HASH128
  | Hash160 _ => STI_HASH160
  | Hash256 _ => STI_HASH256
  | Amount _ => STI_AMOUNT
  | Blob _ => STI_VL
  | Account _ _ => STI_ACCOUNT
  | PathSet _ => STI_PATHSET
  | Vector256 _ => STI_VECTOR256
  | Object _ => STI_OBJECT
  | Array _ => STI_ARRAY
  end.

Definition absent (x : STVar) : bool := match x with NotPresent => true | _ => false end.

Definition isDefault (x : STVar) : bool :=
  match x with
  | NotPresent => true
  | UInt8 v | UInt16 v | UInt32 v | UInt64 v | Hash128 v | Hash160 v | Hash256 v => v =? 0
  | Amount v => (mValue v =? 0) && mIsNative v
  | Blob v => bool_decide (v = [])
  | Account _ d => d
  | PathSet v => match v with [] => true | _ => false end
  | Vector256 v => bool_decide (v = [])
  | Object o => match v_ o with [] => true | _ => false end
  | Array v => match v with [] => true | _ => false end
  end.

(** The default value of a type, [STVar (defaultObject, name)]. *)
Definition zeroAmount : STAmount := mkAmount xrpIssue 0 0 true false.

Definition defaultObject (f : SField) : outcome STVar :=
  let id := fieldType f in
  if id =? STI_NOTPRESENT then Ret NotPresent
  else if id =? STI_UINT8 then Ret (UInt8 0)
  else if id =? STI_UINT16 then Ret (UInt16 0)
  else if id =? STI_UINT32 then Ret (UInt32 0)
  else if id =? STI_UINT64 then Ret (UInt64 0)
  else if id =? STI_AMOUNT then Ret (Amount zeroAmount)
  else if id =? STI_HASH128 then Ret (Hash128 0)
  else if id =? STI_HASH160 then Ret (Hash160 0)
  else if id =? STI_HASH256 then Ret (Hash256 0)
  else if id =? STI_VECTOR256 then Ret (Vector256 [])
  else if id =? STI_VL then Ret (Blob [])
  else if id =? STI_ACCOUNT then Ret (Account 0 true)
  else if id =? STI_PATHSET then Ret (PathSet [])
  else if id =? STI_OBJECT then Ret (Object (mkObject None []))
  else if id =? STI_ARRAY then Ret (Array [])
  else Throw (runtime_error "Unknown object type").

(** ** Serialisation *)

Definition add_path_element (e : STPathElement) (s : Serializer) : Serializer :=
  let iType := pe_type e in
  let s := (add8 (u8 iType) s).2 in
  let s := if has_flag iType typeAccount then (add160 (pe_account e) s).2 else s in
  let s := if has_flag iType typeCurrency then (add160 (pe_currency e) s).2 else s in
  if has_flag iType typeIssuer then (add160 (pe_issuer e) s).2 else s.

Fixpoint add_paths (first : bool) (ps : list (list STPathElement)) (s : Serializer) : Serializer :=
  match ps with
  | [] => s
  | p :: ps =>
    let s := if first then s else (add8 typeBoundary s).2 in
    add_paths false ps (foldl (λ s e, add_path_element e s) s p)
  end.

Definition add_pathset (ps : list (list STPathElement)) (s : Serializer) : Serializer :=
  (add8 typeNone (add_paths true ps s)).2.

(** [std::sort] by field code; codes are distinct in the objects it is used on. *)
Definition by_code {A} (x y : SField * A) : Prop := fieldCode x.1 ≤ fieldCode y.1.

#[export] Instance by_code_dec {A} (x y : SField * A) : Decision (by_code x y).
Proof. unfold by_code. apply _. Defined.
#[export] Instance by_code_total {A} : Total (@by_code A).
Proof. intros x y. unfold by_code. lia. Qed.
#[export] Instance by_code_trans {A} : Transitive (@by_code A).
Proof. intros x y z. unfold by_code. lia. Qed.

Definition sort_fields {A} (l : list (SField * A)) : list (SField * A) := merge_sort by_code l.

Definition included {A} (which : bool) (x : SField * (STVar * A)) : bool :=
  negb (absent x.2.1) && shouldInclude x.1 which.

(** The loop of [STObject::add] over its sorted fields, each with what its own
    [add] writes. *)
Fixpoint add_pieces (l : list (SField * (STVar * (Serializer → outcome Serializer))))
    (s : Serializer) : outcome Serializer :=
  match l with
  | [] => Ret s
  | (f, (x, add)) :: l =>
    let s := (addFieldID (fieldType f) (fieldValue f) s).2 in
    s ← add s;
    let s := if (getSType x =? STI_ARRAY) || (getSType x =? STI_OBJECT)
             then (addFieldID (getSType x) 1 s).2 else s in
    add_pieces l s
  end.

Definition add_sorted (which : bool)
    (l : list (SField * (STVar * (Serializer → outcome Serializer)))) : Serializer → outcome Serializer :=
  add_pieces (sort_fields (filter (λ x, included which x = true) l)).

(** The loop of [STArray::add]. *)
Fixpoint add_elements (l : list (SField * (Serializer → outcome Serializer))) (s : Serializer) :
    outcome Serializer :=
  match l with
  | [] => Ret s
  | (f, add) :: l =>
    let s := (addFieldID (fieldType f) (fieldValue f) s).2 in
    s ← add s;
    add_elements l (addFieldID STI_OBJECT 1 s).2
  end.

Fixpoint add_var (x : STVar) : Serializer → outcome Serializer :=
  match x with
  | NotPresent => Ret
  | UInt8 v => λ s, Ret (add8 v s).2
  | UInt16 v => λ s, Ret (add16 v s).2
  | UInt32 v => λ s, Ret (add32 v s).2
  | UInt64 v => λ s, Ret (add64 v s).2
  | Hash128 v => λ s, Ret (add128 v s).2
  | Hash160 v => λ s, Ret (add160 v s).2
  | Hash256 v => λ s, Ret (add256 v s).2
  | Amount v => λ s, Ret (st_serialize v s)
  | Blob v => λ s, snd <$> addVL v s
  | Account v d => λ s, snd <$> addVL (if d then [] else to_be 20 v) s
  | PathSet v => λ s, Ret (add_pathset v s)
  | Vector256 v => λ s, snd <$> addVL (concat (to_be 32 <$> v)) s
  | Object o => add_object o
  | Array v => add_elements (map (λ x, (x.1, add_object x.2)) v)
  end
with add_object (o : STObject) : Serializer → outcome Serializer :=
  match o with
  | mkObject _ v => add_sorted true (map (λ x, (x.1, (x.2, add_var x.2))) v)
  end.

(** [STObject::add (s, whichFields)]. *)
Definition st_add (which : bool) (o : STObject) : Serializer → outcome Serializer :=
  add_sorted which (map (λ x, (x.1, (x.2, add_var x.2))) (v_ o)).

Definition withAllFields : bool := true.
Definition omitSigningFields : bool := false.

Definition getSerializer (o : STObject) : outcome Serializer := st_add withAllFields o [].
Definition addWithoutSigningFields (o : STObject) (s : Serializer) : outcome Serializer :=
  st_add omitSigningFields o s.

Definition getSortedFields (o : STObject) (which : bool) : list (SField * STVar) :=
  sort_fields (filter (λ x, negb (absent x.2) && shouldInclude x.1 which = true) (v_ o)).

(** ** Templates *)

Definition FieldErr (field description : string) : exn :=
  runtime_error ("Field '" +:+ field +:+ "' " +:+ description).

(** [STObject::set (SOTemplate)]: the fields of the template with their defaults. *)
Fixpoint template_fields (t : SOTemplate) : outcome (list (SField * STVar)) :=
  match t with
  | [] => Ret []
  | e :: t =>
    x ← match flags e with SOE_REQUIRED => defaultObject (e_field e) | _ => Ret NotPresent end;
    l ← template_fields t;
    Ret ((e_field e, x) :: l)
  end.

Definition set_template (t : SOTemplate) : outcome STObject :=
  l ← template_fields t; Ret (mkObject (Some t) l).

(** The first field with a name, and the list without it. *)
Fixpoint extract (f : SField) (l : list (SField * STVar)) :
    option ((SField * STVar) * list (SField * STVar)) :=
  match l with
  | [] => None
  | x :: l =>
    if same_field x.1 f then Some (x, l)
    else match extract f l with Some (y, r) => Some (y, x :: r) | None => None end
  end.

(** The first loop of [applyTemplate]: the fields in the order of the template, and what
    is left over. *)
Fixpoint match_template (t : SOTemplate) (v : list (SField * STVar)) :
    outcome (list (SField * STVar) * list (SField * STVar)) :=
  match t with
  | [] => Ret ([], v)
  | e :: t =>
    match extract (e_field e) v with
    | Some (x, v) =>
      if bool_decide (flags e = SOE_DEFAULT) && isDefault x.2
      then Throw (FieldErr (fieldName (e_field e)) "may not be explicitly set to default.")
      else '(l, r) ← match_template t v; Ret (x :: l, r)
    | None =>
      if bool_decide (flags e = SOE_REQUIRED)
      then Throw (FieldErr (fieldName (e_field e)) "is required but missing.")
      else '(l, r) ← match_template t v; Ret ((e_field e, NotPresent) :: l, r)
    end
  end.

Definition applyTemplate (t : SOTemplate) (o : STObject) : outcome STObject :=
  '(l, rest) ← match_template t (v_ o);
  match List.find (λ x, negb (isDiscardable x.1)) rest with
  | Some (f, _) => Throw (FieldErr (fieldName f) "found in disallowed location.")
  | None => Ret (mkObject (Some t) l)
  end.

Definition applyTemplateFromSField (f : SField) (o : STObject) : outcome STObject :=
  match findSOTemplateBySField f with
  | Some t => applyTemplate t o
  | None => Ret o
  end.

(** ** Deserialisation *)

Fixpoint read_paths (fuel : nat) (path : list STPathElement) : reader (list (list STPathElement)) :=
  match fuel with
  | O => throw (runtime_error "invalid SerialIter get8")
  | S n =>
    iType ← get8;
    if (iType =? typeNone) || (iType =? typeBoundary) then
      if bool_decide (path = []) then throw (runtime_error "empty path")
      else if iType =? typeNone then mret [path]
      else ps ← read_paths n []; mret (path :: ps)
    else if has_flag iType (Z.lxor typeAll 255) then throw (runtime_error "bad path element")
    else
      account ← (if has_flag iType typeAccount then get160 else mret 0);
      currency ← (if has_flag iType typeCurrency then get160 else mret 0);
      issuer ← (if has_flag iType typeIssuer then get160 else mret 0);
      read_paths n (path ++ [path_element account currency issuer (has_flag iType typeCurrency)])
  end.

(** Every step takes a byte, so the bytes that remain bound the number of steps. *)
Definition read_pathset : reader (list (list STPathElement)) := λ it,
  read_paths (S (remain_ it)) [] it.

Fixpoint chunks (n : nat) (l : list Z) : list Z :=
  match n with
  | O => []
  | S n => of_be (take 32 l) :: chunks n (drop 32 l)
  end.

Definition read_vector256 : reader (list Z) :=
  data ← getVL; mret (chunks (length data / 32)%nat data).

Definition read_account : reader STVar :=
  v ← getVL;
  if bool_decide (v = []) then mret (Account 0 true)
  else if negb (length v =? 20)%nat then throw (runtime_error "Invalid STAccount size")
  else mret (Account (of_be v) false).

(** [STArray (sit, f, depth)]; [elem] reads an object one level deeper. *)
Fixpoint read_array (elem : reader (bool * STObject)) (fuel : nat) :
    reader (list (SField * STObject)) := λ it,
  match fuel with
  | O => Ret ([], it)
  | S n =>
    if empty it then Ret ([], it) else
    (('(type, field) ← getFieldID;
      if (type =? STI_ARRAY) && (field =? 1) then mret []
      else if (type =? STI_OBJECT) && (field =? 1)
      then throw (runtime_error "Illegal terminator in array")
      else
        let fn := getField (field_code type field) in
        if isInvalid fn then throw (runtime_error "Unknown field")
        else if negb (fieldType fn =? STI_OBJECT) then throw (runtime_error "Non-object in array")
        else
          '(_, o) ← elem;
          o ← lift (applyTemplateFromSField fn o);
          l ← read_array elem n;
          mret ((fn, o) :: l)) : reader _) it
  end.

(** [STVar (sit, name, depth)] below the check of the depth; [obj] reads an object at this
    level, [elem] an object of an array. *)
Definition read_var (obj elem : reader (bool * STObject)) (f : SField) : reader STVar :=
  let id := fieldType f in
  if id =? STI_NOTPRESENT then mret NotPresent
  else if id =? STI_UINT8 then v ← get8; mret (UInt8 v)
  else if id =? STI_UINT16 then v ← get16; mret (UInt16 v)
  else if id =? STI_UINT32 then v ← get32; mret (UInt32 v)
  else if id =? STI_UINT64 then v ← get64; mret (UInt64 v)
  else if id =? STI_AMOUNT then v ← st_deserialize; mret (Amount v)
  else if id =? STI_HASH128 then v ← getBitString 16; mret (Hash128 v)
  else if id =? STI_HASH160 then v ← getBitString 20; mret (Hash160 v)
  else if id =? STI_HASH256 then v ← getBitString 32; mret (Hash256 v)
  else if id =? STI_VECTOR256 then v ← read_vector256; mret (Vector256 v)
  else if id =? STI_VL then v ← getVL; mret (Blob v)
  else if id =? STI_ACCOUNT then read_account
  else if id =? STI_PATHSET then v ← read_pathset; mret (PathSet v)
  else if id =? STI_OBJECT then '(_, o) ← obj; mret (Object o)
  else if id =? STI_ARRAY then v ← (λ it, read_array elem (remain_ it) it); mret (Array v)
  else throw (runtime_error "Unknown object type").

(** The loop of [STObject::set (sit, depth)]: whether the end marker was met, and the fields
    in the order in which they occur. *)
Fixpoint read_fields (var : SField → reader STVar) (fuel : nat) :
    reader (bool * list (SField * STVar)) := λ it,
  match fuel with
  | O => Ret ((false, []), it)
  | S n =>
    if empty it then Ret ((false, []), it) else
    (('(type, field) ← getFieldID;
      if (type =? STI_OBJECT) && (field =? 1) then mret (true, [])
      else if (type =? STI_ARRAY) && (field =? 1)
      then throw (runtime_error "Illegal end-of-array marker in object")
      else
        let fn := getField (field_code type field) in
        if isInvalid fn then throw (runtime_error "Unknown field")
        else
          x ← var fn;
          x ← match x with
              | Object o => o ← lift (applyTemplateFromSField fn o); mret (Object o)
              | _ => mret x
              end;
          '(reached, l) ← read_fields var n;
          mret (reached, (fn, x) :: l)) : reader _) it
  end.

(** [std::adjacent_find] for equal names. *)
Fixpoint adjacent_dup (l : list (SField * STVar)) : bool :=
  match l with
  | x :: ((y :: _) as l) => same_field x.1 y.1 || adjacent_dup l
  | _ => false
  end.

(** [STObject::set (sit, depth)], with [left] levels left above the deepest one allowed:
    [left] is ten less the depth. *)
Fixpoint read_object (left : nat) : reader (bool * STObject) :=
  let var := match left with
    | O => λ _, throw (runtime_error "Maximum nesting depth of STVar exceeded")
    | S l => read_var (read_object l)
        (match l with
         | O => throw (runtime_error "Maximum nesting depth of STObject exceeded")
         | S l' => read_object l'
         end)
    end in
  '(reached, l) ← (λ it, read_fields var (remain_ it) it);
  let o := mkObject None l in
  if adjacent_dup (getSortedFields o withAllFields)
  then throw (runtime_error "Duplicate field detected")
  else mret (reached, o).

(** [STObject (sit, name)]. *)
Definition st_read : reader STObject := '(_, o) ← read_object 10; mret o.

(** [STObject (type, sit, name)]. *)
Definition st_read_as (t : SOTemplate) : reader STObject :=
  o ← st_read; lift (applyTemplate t o).

(** ** Access to fields *)

Definition isFree (o : STObject) : bool := match mType o with None => true | Some _ => false end.

Definition getFieldIndex (o : STObject) (f : SField) : option nat :=
  match mType o with
  | Some t => getIndex t f
  | None => find_index (λ x, same_field x.1 f) (v_ o)
  end.

(** [v_[index]]; an index found is in range, see [fields_ok]. *)
Definition peekAtPField (o : STObject) (f : SField) : option STVar :=
  i ← getFieldIndex o f; snd <$> v_ o !! i.

Definition isFieldPresent (o : STObject) (f : SField) : bool :=
  match peekAtPField o f with Some x => negb (absent x) | None => false end.

Definition put_at (i : nat) (x : STVar) (o : STObject) : STObject :=
  mkObject (mType o) (alter (λ y, (y.1, x)) i (v_ o)).

Definition push_field (f : SField) (x : STVar) (o : STObject) : STObject :=
  mkObject (mType o) (v_ o ++ [(f, x)]).

(** [getPField (field, true)]: the place of the field, made if the object is free. *)
Definition getPField (f : SField) (o : STObject) : outcome (option nat * STObject) :=
  match getFieldIndex o f with
  | Some i => Ret (Some i, o)
  | None =>
    if isFree o then x ← defaultObject f; Ret (Some (length (v_ o)), push_field f x o)
    else Ret (None, o)
  end.

Definition makeFieldPresent (f : SField) (o : STObject) : outcome (nat * STObject) :=
  match getFieldIndex o f with
  | None =>
    if isFree o then Ret (length (v_ o), push_field f NotPresent o)
    else Throw (runtime_error "Field not found")
  | Some i =>
    match v_ o !! i with
    | Some (g, NotPresent) => x ← defaultObject g; Ret (i, put_at i x o)
    | _ => Ret (i, o)
    end
  end.

Definition makeFieldAbsent (f : SField) (o : STObject) : outcome STObject :=
  match getFieldIndex o f with
  | None => Throw (runtime_error "Field not found")
  | Some i => Ret (put_at i NotPresent o)
  end.

Definition delField (f : SField) (o : STObject) : bool * STObject :=
  match getFieldIndex o f with
  | None => (false, o)
  | Some i => (true, mkObject (mType o) (base.delete i (v_ o)))
  end.

(** [set (unique_ptr<STBase>)]. *)
Definition set_field (f : SField) (x : STVar) (o : STObject) : outcome STObject :=
  match getFieldIndex o f with
  | Some i => Ret (mkObject (mType o) (<[i := (f, x)]> (v_ o)))
  | None =>
    if isFree o then Ret (push_field f x o)
    else Throw (runtime_error "missing field in templated STObject")
  end.

(** A class of values: how a value is taken out of an [STVar] of the class, how one with a
    value is made, and the value of a field that is not present. *)
Record STClass (V : Type) : Type := mkClass {
  c_type : Z;
  c_value : STVar → option V;
  c_make : V → STVar;
  c_zero : V }.
Arguments mkClass {V} _ _ _ _.
Arguments c_type {V} _.
Arguments c_value {V} _ _.
Arguments c_make {V} _ _.
Arguments c_zero {V} _.

Definition U8 := mkClass STI_UINT8 (λ x, match x with UInt8 v => Some v | _ => None end) UInt8 0.
Definition U16 := mkClass STI_UINT16 (λ x, match x with UInt16 v => Some v | _ => None end) UInt16 0.
Definition U32 := mkClass STI_UINT32 (λ x, match x with UInt32 v => Some v | _ => None end) UInt32 0.
Definition U64 := mkClass STI_UINT64 (λ x, match x with UInt64 v => Some v | _ => None end) UInt64 0.
Definition H128 :=
  mkClass STI_HASH128 (λ x, match x with Hash128 v => Some v | _ => None end) Hash128 0.
Definition H160 :=
  mkClass STI_HASH160 (λ x, match x with Hash160 v => Some v | _ => None end) Hash160 0.
Definition H256 :=
  mkClass STI_HASH256 (λ x, match x with Hash256 v => Some v | _ => None end) Hash256 0.
Definition AccountID :=
  mkClass STI_ACCOUNT (λ x, match x with Account v _ => Some v | _ => None end)
    (λ v, Account v false) 0.
Definition VL := mkClass STI_VL (λ x, match x with Blob v => Some v | _ => None end) Blob [].
Definition AmountC :=
  mkClass STI_AMOUNT (λ x, match x with Amount v => Some v | _ => None end) Amount zeroAmount.
Definition V256 :=
  mkClass STI_VECTOR256 (λ x, match x with Vector256 v => Some v | _ => None end) Vector256 [].
Definition Paths :=
  mkClass STI_PATHSET (λ x, match x with PathSet v => Some v | _ => None end) PathSet [].
Definition ArrayC :=
  mkClass STI_ARRAY (λ x, match x with Array v => Some v | _ => None end) Array [].

(** [getFieldByValue] and [getFieldByConstRef]. *)
Definition getFieldBy {V} (T : STClass V) (o : STObject) (f : SField) : outcome V :=
  match peekAtPField o f with
  | None => Throw (runtime_error "Field not found")
  | Some NotPresent => Ret (c_zero T)
  | Some x =>
    match c_value T x with
    | Some v => Ret v
    | None => Throw (runtime_error "Wrong field type")
    end
  end.

(** The cast to the class, and setting the value. *)
Definition assign_at {V} (T : STClass V) (v : V) (i : nat) (o : STObject) : outcome STObject :=
  match v_ o !! i with
  | Some (_, x) =>
    match c_value T x with
    | Some _ => Ret (put_at i (c_make T v) o)
    | None => Throw (runtime_error "Wrong field type")
    end
  | None => Throw (runtime_error "Wrong field type")
  end.

(** [setFieldUsingSetValue] and [setFieldUsingAssignment]. *)
Definition setFieldUsing {V} (T : STClass V) (f : SField) (v : V) (o : STObject) : outcome STObject :=
  '(p, o) ← getPField f o;
  match p with
  | None => Throw (runtime_error "Field not found")
  | Some i =>
    '(i, o) ← match v_ o !! i with
              | Some (_, NotPresent) => makeFieldPresent f o
              | _ => Ret (i, o)
              end;
    assign_at T v i o
  end.

Definition getFieldU8 := getFieldBy U8.
Definition getFieldU16 := getFieldBy U16.
Definition getFieldU32 := getFieldBy U32.
Definition getFieldU64 := getFieldBy U64.
Definition getFieldH256 := getFieldBy H256.
Definition getAccountID := getFieldBy AccountID.
Definition getFieldVL := getFieldBy VL.
Definition getFieldAmount := getFieldBy AmountC.
Definition getFieldV256 := getFieldBy V256.
Definition getFieldArray := getFieldBy ArrayC.
Definition setFieldU8 := setFieldUsing U8.
Definition setFieldU16 := setFieldUsing U16.
Definition setFieldU32 := setFieldUsing U32.
Definition setFieldU64 := setFieldUsing U64.
Definition setFieldH256 := setFieldUsing H256.
Definition setAccountID := setFieldUsing AccountID.
Definition setFieldVL := setFieldUsing VL.
Definition setFieldAmount := setFieldUsing AmountC.
Definition setFieldV256 := setFieldUsing V256.
Definition setFieldArray := setFieldUsing ArrayC.

(** *** Flags *)

Definition getFlags (o : STObject) : Z :=
  match peekAtPField o sfFlags with Some (UInt32 v) => v | _ => 0 end.

Definition isFlag (o : STObject) (f : Z) : bool := Z.land (getFlags o) f =? f.

(** [setFlag (f)]: makes the field if the object is free. *)
Definition setFlag (f : Z) (o : STObject) : outcome (bool * STObject) :=
  '(p, o) ← getPField sfFlags o;
  match p with
  | Some i =>
    match v_ o !! i with
    | Some (_, UInt32 v) => Ret (true, put_at i (UInt32 (Z.lor v f)) o)
    | _ => Ret (false, o)
    end
  | None => Ret (false, o)
  end.

Definition clearFlag (f : Z) (o : STObject) : bool * STObject :=
  match getFieldIndex o sfFlags with
  | Some i =>
    match v_ o !! i with
    | Some (_, UInt32 v) => (true, put_at i (UInt32 (Z.land v (Z.lxor f (2 ^ 32 - 1)))) o)
    | _ => (false, o)
    end
  | None => (false, o)
  end.

(** *** Proxies: [o[f]] and [o[~f]] *)

Definition template_error (f : SField) : exn :=
  runtime_error ("Template field error '" +:+ fieldName f +:+ "'").
Definition missing_field (f : SField) : exn :=
  runtime_error ("Missing field '" +:+ fieldName f +:+ "'").

Section Proxy.
Context {V : Type} (T : STClass V).

(** [Proxy::Proxy]: the style of the field; [None] is [SOE_INVALID], a free object. *)
Definition proxy_style (o : STObject) (f : SField) : outcome (option SOE_Flags) :=
  match mType o with
  | Some t =>
    match peekAtPField o f with
    | None => Throw (template_error f)
    | Some _ => Ret (style t f)
    end
  | None => Ret None
  end.

Definition proxy_find (o : STObject) (f : SField) : option V := peekAtPField o f ≫= c_value T.

(** [Proxy::value]. *)
Definition proxy_value (o : STObject) (f : SField) : outcome V :=
  st ← proxy_style o f;
  match proxy_find o f with
  | Some v => Ret v
  | None => if bool_decide (st = Some SOE_DEFAULT) then Ret (c_zero T) else Throw (missing_field f)
  end.

(** [OptionalProxy::optional_value]. *)
Definition proxy_optional (o : STObject) (f : SField) : outcome (option V) :=
  st ← proxy_style o f;
  match proxy_find o f with
  | Some v => Ret (Some v)
  | None => Ret (if bool_decide (st = Some SOE_DEFAULT) then Some (c_zero T) else None)
  end.

(** [Proxy::assign]; the asserted pointer to a value of the class is dereferenced. *)
Definition proxy_assign `{EqDecision V} (f : SField) (v : V) (o : STObject) : outcome STObject :=
  st ← proxy_style o f;
  if bool_decide (st = Some SOE_DEFAULT) && bool_decide (v = c_zero T) then makeFieldAbsent f o
  else
    '(p, o) ← match st with
              | None => getPField f o
              | Some _ => '(i, o) ← makeFieldPresent f o; Ret (Some i, o)
              end;
    match p ≫= λ i, v_ o !! i with
    | Some (_, x) =>
      match c_value T x, p with
      | Some _, Some i => Ret (put_at i (c_make T v) o)
      | _, _ => Throw (logic_error "null pointer")
      end
    | None => Throw (logic_error "null pointer")
    end.

(** [OptionalProxy::disengage]. *)
Definition proxy_disengage (f : SField) (o : STObject) : outcome STObject :=
  st ← proxy_style o f;
  match st with
  | Some SOE_REQUIRED | Some SOE_DEFAULT => Throw (template_error f)
  | None => Ret (delField f o).2
  | Some SOE_OPTIONAL => makeFieldAbsent f o
  end.

(** [OptionalProxy::operator= (optional)]. *)
Definition proxy_assign_optional `{EqDecision V} (f : SField) (v : option V) (o : STObject) :
    outcome STObject :=
  match v with
  | Some v => proxy_assign f v o
  | None => proxy_disengage f o
  end.

(** The operators on a constant object. *)
Definition get_at (o : STObject) (f : SField) : outcome V :=
  match peekAtPField o f with
  | None => Throw (missing_field f)
  | Some x =>
    match c_value T x with
    | Some v => Ret v
    | None =>
      if bool_decide (mType o ≫= (λ t, style t f) = Some SOE_OPTIONAL) then Throw (missing_field f)
      else Ret (c_zero T)
    end
  end.

Definition get_optional (o : STObject) (f : SField) : option V :=
  match peekAtPField o f with
  | None => None
  | Some x =>
    match c_value T x with
    | Some v => Some v
    | None =>
      if bool_decide (mType o ≫= (λ t, style t f) = Some SOE_OPTIONAL) then None
      else Some (c_zero T)
    end
  end.
End Proxy.

(** ** STLedgerEntry *)

(** [STLedgerEntry (Keylet)]: an entry with the defaults of its format. *)
Definition make_SLE (k : Keylet) : outcome (SLE STObject) :=
  if negb ((0 <=? kl_type k) && (kl_type k <=? 65535))
  then Throw (runtime_error "invalid ledger entry type: out of range")
  else
    match findByType LedgerFormats (kl_type k) with
    | None => Throw (runtime_error "invalid ledger entry type")
    | Some t =>
      o ← set_template t;
      o ← setFieldU16 sfLedgerEntryType (kl_type k) o;
      Ret (mkSLE (kl_key k) (kl_type k) o)
    end.

(** [setSLEType], on the object read or copied. *)
Definition setSLEType (index : Z) (o : STObject) : outcome (SLE STObject) :=
  type ← getFieldU16 o sfLedgerEntryType;
  match findByType LedgerFormats type with
  | None => Throw (runtime_error "invalid ledger entry type")
  | Some t => o ← applyTemplate t o; Ret (mkSLE index type o)
  end.

(** [STLedgerEntry (sit, index)]. *)
Definition read_SLE (index : Z) : reader (SLE STObject) :=
  o ← st_read; lift (setSLEType index o).

Definition isThreadedType (sle : SLE STObject) : bool :=
  bool_decide (is_Some (getFieldIndex (sle_body sle) sfPreviousTxnID)).

Definition with_body {F} (sle : SLE F) (o : F) : SLE F := mkSLE (sle_key sle) (sle_type sle) o.

(** [thread]: the transaction that changed the entry before, if it was another one. *)
Definition thread (txID ledgerSeq : Z) (sle : SLE STObject) :
    outcome (option (Z * Z) * SLE STObject) :=
  let o := sle_body sle in
  oldPrevTxID ← getFieldH256 o sfPreviousTxnID;
  if oldPrevTxID =? txID then Ret (None, sle)
  else
    prevLedgerID ← getFieldU32 o sfPreviousTxnLgrSeq;
    o ← setFieldH256 sfPreviousTxnID txID o;
    o ← setFieldU32 sfPreviousTxnLgrSeq ledgerSeq o;
    Ret (Some (oldPrevTxID, prevLedgerID), with_body sle o).

(** ** Examples *)

Definition sample_payment : STObject :=
  mkObject None
    [(sfAmount, Amount (mkAmount xrpIssue 1000000 0 true false));
     (sfTransactionType, UInt16 0); (sfSequence, UInt32 7);
     (sfAccount, Account 12345 false); (sfDestination, Account 54321 false);
     (sfSigningPubKey, Blob []); (sfTxnSignature, Blob [1; 2; 3]);
     (sfMemos, Array [(sfMemo, mkObject None [(sfMemoData, Blob [9; 9])])])].

Example payment_bytes :
  length <$> getSerializer sample_payment = Ret 76%nat.
Proof. vm_compute. reflexivity. Qed.

Example payment_read :
  (bs ← getSerializer sample_payment; '(o, _) ← st_read (iter_of bs); Ret (fst <$> v_ o))
  = Ret [sfTransactionType; sfSequence; sfAmount; sfSigningPubKey; sfTxnSignature; sfAccount;
         sfDestination; sfMemos].
Proof. vm_compute. reflexivity. Qed.

Example account_root_fields :
  (λ e, length (v_ (sle_body e))) <$> make_SLE (mkKeylet ltACCOUNT_ROOT 5) = Ret 18%nat.
Proof. vm_compute. reflexivity. Qed.
