(* ===== verification/STObjectWire.v ===== *)
(** * The binary format of serialised objects

    What [STObject::add] writes, [STObject::set] reads back; what it reads is
    typed by its fields.  An object is written with its fields sorted by code, so
    that what is read back is the canonical form of the object: [canon_obj]. *)

From stdpp Require Import base numbers list gmap strings sorting.
From Stdlib Require Import Lia ZArith.
From S2P Require Import Prelude Serializer STAmount StateTable SField STObject.

Local Open Scope Z_scope.

(** ** Sorting by code *)

Section Sort.
Context {A B : Type} (g : SField * A → SField * B) (Hg : ∀ x, (g x).1 = x.1).

Local Lemma list_merge_fmap l1 l2 :
  list_merge by_code (g <$> l1) (g <$> l2) = g <$> list_merge by_code l1 l2.
Proof using Hg.
  revert l2. induction l1 as [|x l1 IH1]; intros l2; [by destruct l2|].
  induction l2 as [|y l2 IH2]; [done|]. cbn [fmap list_fmap]. rewrite !list_merge_cons.
  assert (Hiff : by_code (g x) (g y) ↔ by_code x y) by (unfold by_code; by rewrite !Hg).
  destruct (decide (by_code (g x) (g y))), (decide (by_code x y)); try tauto.
  - cbn [fmap list_fmap]. f_equal. apply (IH1 (y :: l2)).
  - cbn [fmap list_fmap]. f_equal. apply IH2.
Qed.

Local Abbreviation lift_stack st := (fmap (M:=list) (fmap (M:=option) (fmap (M:=list) g)) st).

Local Lemma merge_list_to_stack_fmap st l :
  merge_list_to_stack by_code (lift_stack st) (g <$> l) = lift_stack (merge_list_to_stack by_code st l).
Proof using Hg.
  revert l. induction st as [|[l'|] st IH]; intros l; try done.
  cbn [fmap list_fmap option_fmap option_map merge_list_to_stack]. f_equal.
  rewrite list_merge_fmap. apply IH.
Qed.

Local Lemma merge_stack_fmap st :
  merge_stack by_code (lift_stack st) = g <$> merge_stack by_code st.
Proof using Hg.
  induction st as [|[l'|] st IH]; try done.
  cbn [fmap list_fmap option_fmap option_map merge_stack]. by rewrite <- list_merge_fmap, <- IH.
Qed.

Lemma sort_fields_fmap l : sort_fields (g <$> l) = g <$> sort_fields l.
Proof using Hg.
  unfold sort_fields, merge_sort.
  enough (H : ∀ l st, merge_sort_aux by_code (lift_stack st) (g <$> l) = g <$> merge_sort_aux by_code st l)
    by exact (H l []).
  clear l. induction l as [|x l IH]; intros st; [apply merge_stack_fmap|].
  cbn [fmap list_fmap merge_sort_aux]. rewrite <- IH. f_equal.
  apply (merge_list_to_stack_fmap st [x]).
Qed.
End Sort.

Abbreviation codes l := ((λ x, fieldCode x.1) <$> l).

Lemma sort_fields_perm {A} (l : list (SField * A)) : sort_fields l ≡ₚ l.
Proof. apply merge_sort_Permutation. Qed.

Lemma sort_fields_sorted {A} (l : list (SField * A)) : StronglySorted by_code (sort_fields l).
Proof. apply StronglySorted_merge_sort; apply _. Qed.

Lemma codes_inj {A} (l : list (SField * A)) x y :
  NoDup (codes l) → x ∈ l → y ∈ l → fieldCode x.1 = fieldCode y.1 → x = y.
Proof.
  intros Hnd (i & Hi)%list_elem_of_lookup (j & Hj)%list_elem_of_lookup Heq.
  enough (i = j) as -> by congruence.
  eapply NoDup_lookup; [exact Hnd| |]; rewrite list_lookup_fmap; [by rewrite Hi|].
  by rewrite Hj, Heq.
Qed.

(** With distinct codes the sorted list depends on the set of fields only. *)
Lemma sort_fields_unique {A} (l1 l2 : list (SField * A)) :
  l1 ≡ₚ l2 → NoDup (codes l1) → sort_fields l1 = sort_fields l2.
Proof.
  intros Hp Hnd. apply (StronglySorted_unique_strong by_code).
  - intros x y Hx Hy H1 H2. rewrite sort_fields_perm in Hx, Hy. rewrite <- Hp in Hy.
    apply (codes_inj l1); auto. unfold by_code in *. lia.
  - apply sort_fields_sorted.
  - apply sort_fields_sorted.
  - by rewrite !sort_fields_perm.
Qed.

Lemma sort_fields_id {A} (l : list (SField * A)) :
  NoDup (codes l) → sort_fields (sort_fields l) = sort_fields l.
Proof.
  intros Hnd. symmetry. apply sort_fields_unique; [by rewrite sort_fields_perm|done].
Qed.

Lemma codes_sort {A} (l : list (SField * A)) : NoDup (codes l) → NoDup (codes (sort_fields l)).
Proof. intros H. by rewrite (fmap_Permutation _ _ _ (sort_fields_perm l)). Qed.

Lemma adjacent_dup_false l : NoDup (codes l) → adjacent_dup l = false.
Proof.
  induction l as [|x [|y l] IH]; try done. cbn [fmap list_fmap]. intros [Hx Hl]%NoDup_cons.
  change (adjacent_dup (x :: y :: l)) with (same_field x.1 y.1 || adjacent_dup (y :: l)).
  rewrite IH by done. unfold same_field. rewrite orb_false_r.
  apply Z.eqb_neq. intros Heq. apply Hx. rewrite Heq. by left.
Qed.

Lemma adjacent_dup_nodup l : StronglySorted by_code l → adjacent_dup l = false → NoDup (codes l).
Proof.
  induction l as [|x l IH]; [constructor|].
  intros [Hx Hs]%StronglySorted_cons Hd. cbn [fmap list_fmap].
  assert (Hlt : Forall (λ y, fieldCode x.1 < fieldCode y.1) l ∧ adjacent_dup l = false).
  { destruct l as [|y l]; [done|]. apply (orb_false_iff (same_field x.1 y.1)) in Hd as [Hn Hd].
    split; [|done]. apply Z.eqb_neq in Hn. apply Forall_cons in Hx as [Hxy Hx].
    apply StronglySorted_cons in Hs as [Hy _]. unfold by_code in *.
    constructor; [lia|]. rewrite Forall_forall in Hy |- *. intros z Hz. specialize (Hy z Hz). lia. }
  destruct Hlt as [Hlt Hd']. apply NoDup_cons. split; [|auto].
  intros (y & Heq & Hy)%list_elem_of_fmap. rewrite Forall_forall in Hlt.
  specialize (Hlt y Hy). lia.
Qed.

(** ** Fields on the wire *)

Definition marker (type value : Z) : bool :=
  ((type =? STI_OBJECT) || (type =? STI_ARRAY)) && (value =? 1).

(** A field that can be read from the wire. *)
Definition wire_field (f : SField) : Prop :=
  getField (fieldCode f) = f ∧ fieldCode f = field_code (fieldType f) (fieldValue f) ∧
  0 < fieldType f < 256 ∧ 0 < fieldValue f < 256 ∧ extensible (fieldType f) = true ∧
  marker (fieldType f) (fieldValue f) = false.

Lemma field_code_add t n : 0 ≤ n < 65536 → field_code t n = t * 65536 + n.
Proof.
  intros H. unfold field_code. rewrite Z.shiftl_mul_pow2 by lia. by apply (lor_fields t n 16).
Qed.

Definition known_ok (f : SField) : bool :=
  (fieldCode f <=? 0) ||
  ((fieldCode f =? field_code (fieldType f) (fieldValue f)) &&
   (0 <? fieldValue f) && (fieldValue f <? 65536) &&
   ((256 <=? fieldValue f) || extensible (fieldType f))).

Lemma known_fields_ok : forallb known_ok known_fields = true.
Proof. vm_compute. reflexivity. Qed.

Lemma known_lookup c f : knownCodeToField !! c = Some f → fieldCode f = c ∧ known_ok f = true.
Proof.
  intros Hl%elem_of_list_to_map_2. apply list_elem_of_fmap in Hl as (g & [= -> ->] & Hin).
  split; [done|]. pose proof known_fields_ok as H. rewrite forallb_forall in H.
  apply H. by apply list_elem_of_In.
Qed.

Lemma getField_wire t n :
  1 ≤ t ≤ 255 → 1 ≤ n ≤ 255 → marker t n = false →
  let f := getField (field_code t n) in
  isInvalid f = false → wire_field f ∧ fieldType f = t ∧ fieldValue f = n.
Proof.
  intros Ht Hn Hm f Hi. pose proof (field_code_add t n ltac:(lia)) as Hc.
  enough (Hf : fieldCode f = field_code t n ∧ fieldType f = t ∧ fieldValue f = n ∧ extensible t = true).
  { destruct Hf as (Hfc & Hft & Hfv & He). unfold wire_field. rewrite Hfc, Hft, Hfv.
    split_and!; auto; lia. }
  subst f. unfold getField in *.
  destruct (knownCodeToField !! field_code t n) as [f|] eqn:Hl.
  - apply known_lookup in Hl as [Hfc Hk]. unfold known_ok in Hk.
    apply orb_true_iff in Hk as [?%Z.leb_le|Hk]; [lia|].
    rewrite !andb_true_iff, orb_true_iff in Hk. destruct Hk as [[[He%Z.eqb_eq ?%Z.ltb_lt] ?%Z.ltb_lt] Hv].
    rewrite field_code_add in He by lia.
    assert (fieldValue f = n ∧ fieldType f = t) as [Hvn Htt] by lia.
    destruct Hv as [?%Z.leb_le|Hv]; [lia|]. by rewrite <- Htt at 3.
  - assert (Hs : field_code t n ≫ 16 = t).
    { rewrite Hc, Z.shiftr_div_pow2 by lia. change (2 ^ 16) with 65536. div_lia. }
    assert (Hla : Z.land (field_code t n) 65535 = n).
    { change 65535 with (Z.ones 16). rewrite Hc, Z.land_ones by lia. change (2 ^ 16) with 65536. div_lia. }
    rewrite Hs, Hla in *.
    destruct ((255 <? n) || _) eqn:Hb; [exfalso; apply orb_true_iff in Hb as [?%Z.ltb_lt|?%Z.ltb_lt]; lia|].
    by destruct (extensible t) eqn:He.
Qed.

Lemma wire_field_valid f : wire_field f → isInvalid f = false.
Proof.
  intros (_ & Hc & Ht & Hv & _). unfold isInvalid. rewrite field_code_add in Hc by lia.
  apply Z.eqb_neq. lia.
Qed.

Lemma wire_field_bytes f s :
  wire_field f →
  (addFieldID (fieldType f) (fieldValue f) s).2 = s ++ field_bytes (fieldType f) (fieldValue f) ∧
  decodes getFieldID (field_bytes (fieldType f) (fieldValue f)) (fieldType f, fieldValue f).
Proof.
  intros (_ & _ & Ht & Hv & _). split; [by rewrite addFieldID_push|by apply decodes_getFieldID].
Qed.

(** ** Values without inner objects *)

(** *** Path sets *)

(** An element as the constructor makes it. *)
Definition elem_ok (e : STPathElement) : Prop :=
  below 20 (pe_account e) ∧ below 20 (pe_currency e) ∧ below 20 (pe_issuer e) ∧
  e = path_element (pe_account e) (pe_currency e) (pe_issuer e) (has_flag (pe_type e) typeCurrency).

Lemma path_element_flags a c i force :
  let t := pe_type (path_element a c i force) in
  has_flag t typeAccount = negb (isXRP a) ∧ has_flag t typeIssuer = negb (isXRP i) ∧
  has_flag t typeCurrency = force || negb (isXRP c) ∧
  has_flag t (Z.lxor typeAll 255) = false ∧ (t =? typeBoundary) = false ∧ u8 t = t.
Proof.
  unfold path_element. destruct (isXRP a), (isXRP i), force, (isXRP c); vm_compute; auto 10.
Qed.

Lemma path_element_ok a c i force :
  below 20 a → below 20 c → below 20 i → elem_ok (path_element a c i force).
Proof.
  intros Ha Hc Hi. destruct (path_element_flags a c i force) as (_ & _ & Hf & _).
  unfold elem_ok. rewrite Hf. split_and!; try done. unfold path_element. simpl.
  by destruct force, (isXRP c).
Qed.

Definition elem_bytes (e : STPathElement) : list Z :=
  pe_type e ::
  (if has_flag (pe_type e) typeAccount then to_be 20 (pe_account e) else []) ++
  (if has_flag (pe_type e) typeCurrency then to_be 20 (pe_currency e) else []) ++
  (if has_flag (pe_type e) typeIssuer then to_be 20 (pe_issuer e) else []).

Definition path_bytes (p : list STPathElement) : list Z := concat (elem_bytes <$> p).

Fixpoint paths_bytes (p : list STPathElement) (ps : list (list STPathElement)) : list Z :=
  path_bytes p ++
  match ps with
  | [] => [typeNone]
  | p :: ps => typeBoundary :: paths_bytes p ps
  end.

Lemma add_path_element_bytes e s : elem_ok e → add_path_element e s = s ++ elem_bytes e.
Proof.
  intros (_ & _ & _ & He). assert (Hu : u8 (pe_type e) = pe_type e).
  { rewrite He. apply path_element_flags. }
  unfold add_path_element, elem_bytes, add160, addBitString, add8, push. rewrite Hu. simpl.
  destruct (has_flag _ typeAccount), (has_flag _ typeCurrency), (has_flag _ typeIssuer);
    cbn [snd app]; rewrite <- ?app_assoc, ?app_nil_r; done.
Qed.

Lemma add_path_bytes p s :
  Forall elem_ok p → foldl (λ s e, add_path_element e s) s p = s ++ path_bytes p.
Proof.
  intros Hp. revert s. induction Hp as [|e p He _ IH]; intros s; [by rewrite app_nil_r|].
  cbn [foldl]. rewrite IH, add_path_element_bytes by done. by rewrite <- app_assoc.
Qed.

Lemma add_pathset_bytes p ps s :
  Forall elem_ok p → Forall (Forall elem_ok) ps → add_pathset (p :: ps) s = s ++ paths_bytes p ps.
Proof.
  intros Hp Hps. unfold add_pathset, add8, push. simpl. rewrite add_path_bytes by done.
  cut (∀ s, add_paths false ps s ++ [typeNone] =
    s ++ match ps with [] => [typeNone] | p :: ps => typeBoundary :: paths_bytes p ps end).
  { intros H. rewrite H. destruct ps; simpl; by rewrite <- app_assoc. }
  clear p Hp s. induction Hps as [|p ps Hp _ IH]; intros s; [done|].
  simpl. rewrite add_path_bytes by done. rewrite IH. unfold add8, push. simpl.
  destruct ps; simpl; by rewrite <- !app_assoc.
Qed.

Lemma decodes_flagged (flag : bool) v :
  below 20 v → (flag = false → v = 0) →
  decodes (if flag then get160 else mret 0) (if flag then to_be 20 v else []) v.
Proof.
  intros Hv H0. destruct flag; [by apply decodes_getBitString|]. rewrite H0 by done. apply decodes_ret.
Qed.

Lemma decodes_read_elem n acc e bs v :
  elem_ok e → pe_type e ≠ typeNone →
  decodes (read_paths n (acc ++ [e])) bs v → decodes (read_paths (S n) acc) (elem_bytes e ++ bs) v.
Proof.
  intros (Ha & Hc & Hi & He) Ht Hrest.
  pose proof (path_element_flags (pe_account e) (pe_currency e) (pe_issuer e)
    (has_flag (pe_type e) typeCurrency)) as Hfl.
  cbv zeta in Hfl. rewrite <- He in Hfl. destruct Hfl as (Fa & Fi & Fc & Fx & Fb & _).
  cbn [read_paths]. unfold elem_bytes. cbn [app].
  apply (decodes_bind _ _ [pe_type e] _ (pe_type e)); [apply decodes_get8|].
  rewrite (proj2 (Z.eqb_neq _ _) Ht), Fb, Fx. simpl orb. cbv iota. rewrite <- !app_assoc.
  eapply decodes_bind; [apply decodes_flagged; [exact Ha|]|].
  { rewrite Fa. intros ?%negb_false_iff. by apply Z.eqb_eq. }
  eapply decodes_bind; [apply decodes_flagged; [exact Hc|]|].
  { rewrite Fc. intros [_ ?%negb_false_iff]%orb_false_iff. by apply Z.eqb_eq. }
  eapply decodes_bind; [apply decodes_flagged; [exact Hi|]|].
  { rewrite Fi. intros ?%negb_false_iff. by apply Z.eqb_eq. }
  by rewrite <- He.
Qed.

Lemma decodes_read_path p n acc bs v :
  Forall (λ e, elem_ok e ∧ pe_type e ≠ typeNone) p →
  (length (path_bytes p ++ bs) ≤ n)%nat →
  (∀ m, (length bs ≤ m)%nat → decodes (read_paths m (acc ++ p)) bs v) →
  decodes (read_paths n acc) (path_bytes p ++ bs) v.
Proof.
  intros Hp. revert n acc. induction Hp as [|e p [He Ht] _ IH]; intros n acc Hn Hrest.
  { rewrite app_nil_r in Hrest. by apply Hrest. }
  change (path_bytes (e :: p)) with (elem_bytes e ++ path_bytes p) in *.
  rewrite <- app_assoc in *. rewrite length_app in Hn. simpl in Hn.
  destruct n as [|n]; [lia|]. apply decodes_read_elem; try done. apply IH.
  - rewrite !length_app in *. lia.
  - intros m Hm. rewrite <- app_assoc. by apply Hrest.
Qed.

Lemma decodes_read_paths p ps n :
  Forall (λ p, p ≠ [] ∧ Forall (λ e, elem_ok e ∧ pe_type e ≠ typeNone) p) (p :: ps) →
  (length (paths_bytes p ps) ≤ n)%nat →
  decodes (read_paths n []) (paths_bytes p ps) (p :: ps).
Proof.
  revert p n. induction ps as [|p' ps IH]; intros p n [[Hp0 Hp] Hps]%Forall_cons Hn;
    cbn [paths_bytes] in *; (apply decodes_read_path; [done|done|]); intros m Hm; simpl in Hm;
    (destruct m as [|m]; [lia|]); cbn [read_paths app].
  - eapply decodes_bind'; [apply decodes_get8|]. cbn. rewrite bool_decide_false by done. apply decodes_ret.
  - eapply (decodes_bind _ _ [typeBoundary]); [apply decodes_get8|]. cbn.
    rewrite bool_decide_false by done.
    eapply decodes_bind'; [apply IH; [done|lia]|apply decodes_ret].
Qed.

Lemma decodes_read_pathset p ps :
  Forall (λ p, p ≠ [] ∧ Forall (λ e, elem_ok e ∧ pe_type e ≠ typeNone) p) (p :: ps) →
  decodes read_pathset (paths_bytes p ps) (p :: ps).
Proof.
  intros H it post Hok Hd. unfold read_pathset.
  pose proof (it_front _ _ _ Hok Hd).
  apply (decodes_read_paths p ps (S (remain_ it)) H) with (post := post); [lia|done|done].
Qed.

(** *** Vectors and accounts *)

Lemma length_concat_be (v : list Z) : length (concat (to_be 32 <$> v)) = (32 * length v)%nat.
Proof.
  induction v as [|x v IH]; [done|]. cbn [fmap list_fmap concat length].
  rewrite length_app, length_to_be, IH. lia.
Qed.

Lemma chunks_concat (v : list Z) :
  Forall (below 32) v → chunks (length v) (concat (to_be 32 <$> v)) = v.
Proof.
  induction 1 as [|x v Hx _ IH]; [done|]. cbn [fmap list_fmap concat length chunks].
  assert (Hl : length (to_be 32 x) = 32%nat) by apply length_to_be.
  rewrite take_app_length', drop_app_length' by done.
  rewrite IH, of_be_to_be; done.
Qed.

Lemma vl_prefix_bytes n : 0 ≤ n ≤ 918744 → Forall is_byte (vl_prefix n).
Proof.
  intros Hn. unfold vl_prefix, is_byte. repeat case_match; rewrite ?Z.leb_le, ?Z.leb_gt in *;
    repeat constructor; try lia; div_lia.
Qed.

Lemma st_bytes_bytes a : Forall is_byte (st_bytes a).
Proof. unfold st_bytes. case_match; rewrite ?Forall_app; auto using to_be_bytes. Qed.

Lemma elem_bytes_bytes e : elem_ok e → Forall is_byte (elem_bytes e).
Proof.
  intros (_ & _ & _ & He). constructor.
  - rewrite He. destruct (path_element_flags (pe_account e) (pe_currency e) (pe_issuer e)
      (has_flag (pe_type e) typeCurrency)) as (_ & _ & _ & _ & _ & <-). apply u8_byte.
  - rewrite !Forall_app. split_and!; case_match; auto using to_be_bytes.
Qed.

Lemma paths_bytes_bytes p ps :
  Forall elem_ok p → Forall (Forall elem_ok) ps → Forall is_byte (paths_bytes p ps).
Proof.
  assert (Hpath : ∀ p, Forall elem_ok p → Forall is_byte (path_bytes p)).
  { induction 1; [constructor|]. apply Forall_app. auto using elem_bytes_bytes. }
  intros Hp Hps. revert p Hp. induction Hps as [|p' ps Hp' _ IH]; intros p Hp; cbn [paths_bytes];
    apply Forall_app; (split; [auto|]); repeat constructor; auto; unfold typeNone, typeBoundary; lia.
Qed.

Lemma concat_be_bytes (v : list Z) : Forall is_byte (concat (to_be 32 <$> v)).
Proof. induction v; [constructor|]. apply Forall_app. split; [apply to_be_bytes|done]. Qed.

Lemma addVL_bytes data :
  Z.of_nat (length data) ≤ 918744 →
  Forall is_byte data →
  ∃ bs, (∀ s, snd <$> addVL data s = Ret (s ++ bs)) ∧ Forall is_byte bs ∧ decodes getVL bs data.
Proof.
  intros Hl Hb. exists (vl_prefix (Z.of_nat (length data)) ++ data). split_and!.
  - intros s. by rewrite addVL_push.
  - apply Forall_app. split; [apply vl_prefix_bytes; lia|done].
  - eapply decodes_bind; [apply decodes_getVLDataLength; lia|]. apply decodes_getRaw. lia.
Qed.

(** ** Canonical form and well-formed objects *)

(** The object that reading makes of an inner object named [f]. *)
Definition canon_in (f : SField) (o : STObject) : STObject :=
  match applyTemplateFromSField f o with Ret o => o | Throw _ => o end.

Definition canon_field (f : SField) (x : STVar) : STVar :=
  match x with Object o => Object (canon_in f o) | _ => x end.

(** The fields that are written, sorted, without templates but those that reading
    applies to inner objects. *)
Fixpoint canon_var (x : STVar) : STVar :=
  match x with
  | Object o => Object (canon_obj o)
  | Array v => Array (map (λ y, (y.1, canon_in y.1 (canon_obj y.2))) v)
  | _ => x
  end
with canon_obj (o : STObject) : STObject :=
  match o with
  | mkObject _ v => mkObject None (map (λ y, (y.1, y.2.2))
      (sort_fields (filter (λ y, included true y = true)
        (map (λ y, (y.1, (y.2, canon_field y.1 (canon_var y.2)))) v))))
  end.

Definition conforms (f : SField) (o : STObject) : Prop :=
  threw (applyTemplateFromSField f (canon_obj o)) = false.

(** The values that fields of their class can hold. *)
Definition leaf_ok (x : STVar) : Prop :=
  match x with
  | NotPresent => False
  | UInt8 v => is_byte v
  | UInt16 v => below 2 v
  | UInt32 v => below 4 v
  | UInt64 v => below 8 v
  | Hash128 v => below 16 v
  | Hash160 v => below 20 v
  | Hash256 v => below 32 v
  | Amount v => wire_ok v
  | Blob v => Forall is_byte v
  | Account v d => below 20 v ∧ (d = true → v = 0)
  | PathSet v => v ≠ [] ∧ Forall (λ p, p ≠ [] ∧ Forall elem_ok p) v
  | Vector256 v => Forall (below 32) v
  | Object _ | Array _ => True
  end.

(** The values that have an encoding. *)
Definition encodable (x : STVar) : Prop :=
  match x with
  | Blob v => Z.of_nat (length v) ≤ 918744
  | Vector256 v => 32 * Z.of_nat (length v) ≤ 918744
  | PathSet v => Forall (Forall (λ e, pe_type e ≠ typeNone)) v
  | _ => True
  end.

(** A field that can be written: [obj] and [elem] are what its object or the objects of its
    array have to satisfy. *)
Definition wire_value (L : STVar → Prop) (obj elem : STObject → Prop) (y : SField * STVar) : Prop :=
  wire_field y.1 ∧ getSType y.2 = fieldType y.1 ∧ L y.2 ∧
  match y.2 with
  | Object o => conforms y.1 o ∧ obj o
  | Array v =>
    Forall (λ z, wire_field z.1 ∧ fieldType z.1 = STI_OBJECT ∧ conforms z.1 z.2 ∧ elem z.2) v
  | _ => True
  end.

(** An object whose written fields satisfy [L], with at most [left] levels of objects in it. *)
Fixpoint wire_obj (L : STVar → Prop) (left : nat) (o : STObject) : Prop :=
  NoDup (codes (getSortedFields o true)) ∧
  Forall (λ y,
    match left with
    | O => False
    | S n =>
      wire_value L (wire_obj L n) (λ o, match n with O => False | S n => wire_obj L n o end) y
    end) (getSortedFields o true).

Lemma sorted_pieces {A} (h : SField * STVar → A) which v :
  sort_fields (filter (λ y, included which y = true) (map (λ y, (y.1, (y.2, h y))) v)) =
  (λ y, (y.1, (y.2, h y))) <$> getSortedFields (mkObject None v) which.
Proof.
  unfold getSortedFields. simpl. rewrite <- sort_fields_fmap by done. f_equal.
  induction v as [|y v IH]; [done|]. cbn [map]. rewrite !filter_cons.
  unfold included at 1. cbn [fst snd]. destruct (decide _); cbn [fmap list_fmap]; by rewrite IH.
Qed.

Lemma getSortedFields_v o which : getSortedFields o which = getSortedFields (mkObject None (v_ o)) which.
Proof. done. Qed.

Lemma canon_obj_eq o :
  canon_obj o = mkObject None ((λ y, (y.1, canon_field y.1 (canon_var y.2))) <$> getSortedFields o true).
Proof.
  destruct o as [t v]. cbn [canon_obj]. rewrite sorted_pieces. f_equal.
  rewrite <- list_fmap_compose. done.
Qed.

Lemma st_add_eq which o s :
  st_add which o s = add_pieces ((λ y, (y.1, (y.2, add_var y.2))) <$> getSortedFields o which) s.
Proof. unfold st_add, add_sorted. by rewrite sorted_pieces. Qed.

Lemma add_object_eq o s : add_object o s = st_add true o s.
Proof. by destruct o. Qed.

(** ** Writing and reading fields *)

Definition applied (f : SField) (x : STVar) : outcome STVar :=
  match x with Object o => Object <$> applyTemplateFromSField f o | _ => Ret x end.

(** The bytes from which [var] reads the fields [l]. *)
Inductive written (var : SField → reader STVar) : list Z → list (SField * STVar) → Prop :=
| written_nil : written var [] []
| written_cons f b x y bs l :
    wire_field f → decodes (var f) b x → applied f x = Ret y → written var bs l →
    written var (field_bytes (fieldType f) (fieldValue f) ++ b ++ bs) ((f, y) :: l).

Lemma field_bytes_length t n : (0 < length (field_bytes t n))%nat.
Proof. unfold field_bytes. repeat case_match; simpl; lia. Qed.

Lemma it_nonempty it bs post :
  it_ok it → drop (p_ it) (buf it) = bs ++ post → (0 < length bs)%nat → empty it = false.
Proof.
  intros Hok Hd Hl. pose proof (it_front _ _ _ Hok Hd). unfold empty. apply Nat.eqb_neq. lia.
Qed.

Lemma decodes_at {A} (r : reader A) bs v it post :
  decodes r bs v → it_ok it → drop (p_ it) (buf it) = bs ++ post →
  r it = Ret (v, advance (length bs) it) ∧ it_ok (advance (length bs) it) ∧
  drop (p_ (advance (length bs) it)) (buf (advance (length bs) it)) = post.
Proof.
  intros Hr Hok Hd. split_and!.
  - by apply (Hr it post).
  - apply it_ok_advance; [done|]. by eapply it_front.
  - simpl. by rewrite <- drop_drop, Hd, drop_app_length.
Qed.

Lemma advance_advance m n it : advance n (advance m it) = advance (m + n) it.
Proof. unfold advance. simpl. f_equal; lia. Qed.

Lemma bind_at {A B} (r : reader A) (f : A → reader B) it a it' :
  r it = Ret (a, it') → (r ≫= f) it = f a it'.
Proof. intros H. unfold mbind, reader_bind. by rewrite H. Qed.

Lemma marker_false t n :
  marker t n = false →
  (t =? STI_OBJECT) && (n =? 1) = false ∧ (t =? STI_ARRAY) && (n =? 1) = false.
Proof. unfold marker. destruct (t =? STI_OBJECT), (t =? STI_ARRAY), (n =? 1); auto. Qed.

(** One round of the loop of [STObject::set]. *)
Lemma read_fields_step var n f b x y it post :
  wire_field f → decodes (var f) b x → applied f x = Ret y →
  it_ok it → drop (p_ it) (buf it) = field_bytes (fieldType f) (fieldValue f) ++ b ++ post →
  let it' := advance (length (field_bytes (fieldType f) (fieldValue f) ++ b)) it in
  it_ok it' ∧ drop (p_ it') (buf it') = post ∧
  read_fields var (S n) it =
    ('(r, l) ← read_fields var n; mret (r, (f, y) :: l)) it'.
Proof.
  intros Hf Hx Hy Hok Hd it'.
  destruct (decodes_at _ _ _ _ _ (proj2 (wire_field_bytes f [] Hf)) Hok Hd) as (E1 & Hok1 & Hd1).
  destruct (decodes_at _ _ _ _ _ Hx Hok1 Hd1) as (E2 & Hok2 & Hd2).
  rewrite advance_advance, <- length_app in E2, Hok2, Hd2. split_and!; [done..|].
  cbn [read_fields]. rewrite (it_nonempty _ _ _ Hok Hd (field_bytes_length _ _)).
  erewrite bind_at by exact E1. pose proof Hf as (Hg & Hc & _ & _ & _ & Hm).
  apply marker_false in Hm as [-> ->]. rewrite <- Hc, Hg, (wire_field_valid f Hf).
  erewrite bind_at by exact E2.
  destruct x; simpl in Hy; try (injection Hy as <-; done).
  destruct (applyTemplateFromSField f o) as [o'|] eqn:E; [|done]. by injection Hy as <-.
Qed.

Lemma written_length var bs l : written var bs l → (length l ≤ length bs)%nat.
Proof.
  induction 1 as [|f b x y bs l _ _ _ _ IH]; [done|]. rewrite !length_app. simpl.
  pose proof (field_bytes_length (fieldType f) (fieldValue f)). lia.
Qed.

Lemma read_fields_end var bs l n :
  written var bs l → (length l < n)%nat →
  decodes (read_fields var n) (bs ++ field_bytes STI_OBJECT 1) (true, l).
Proof.
  intros Hw. revert n. induction Hw as [|f b x y bs l Hf Hx Hy _ IH]; intros n Hn it post Hok Hd;
    (destruct n as [|n]; [simpl in Hn; lia|]).
  - cbn [read_fields]. rewrite (it_nonempty _ _ _ Hok Hd) by apply field_bytes_length.
    destruct (decodes_at getFieldID _ (STI_OBJECT, 1) it post ltac:(by apply decodes_getFieldID) Hok Hd)
      as (E1 & _). by erewrite bind_at by exact E1.
  - rewrite <- !app_assoc in Hd. simpl in Hn.
    destruct (read_fields_step var n f b x y it _ Hf Hx Hy Hok Hd) as (Hok' & Hd' & ->).
    rewrite app_assoc in Hd'. erewrite bind_at by (apply (IH n ltac:(lia) _ post Hok' Hd')).
    cbn. unfold mret, reader_ret. rewrite advance_advance. by rewrite !length_app, !Nat.add_assoc.
Qed.

Lemma read_fields_all var bs l n it :
  written var bs l → (length l ≤ n)%nat → it_ok it → drop (p_ it) (buf it) = bs →
  read_fields var n it = Ret ((false, l), advance (length bs) it).
Proof.
  intros Hw. revert n it. induction Hw as [|f b x y bs l Hf Hx Hy _ IH]; intros n it Hn Hok Hd.
  - assert (Hr : remain_ it = 0%nat).
    { destruct Hok as (_ & _ & Hl & _). apply (f_equal length) in Hd. rewrite length_drop in Hd.
      simpl in Hd. lia. }
    assert (Ha : advance 0 it = it).
    { destruct it as [b p u r]. unfold advance. simpl. f_equal; lia. }
    destruct n; cbn [read_fields]; unfold empty; rewrite ?Hr; cbn; by rewrite Ha.
  - simpl in Hn. destruct n as [|n]; [lia|].
    destruct (read_fields_step var n f b x y it _ Hf Hx Hy Hok Hd) as (Hok' & Hd' & ->).
    erewrite bind_at by (apply (IH n _ ltac:(lia) Hok' Hd')).
    cbn. unfold mret, reader_ret. rewrite advance_advance. by rewrite !length_app, !Nat.add_assoc.
Qed.

(** *** Arrays *)

Inductive written_array (elem : reader (bool * STObject)) : list Z → list (SField * STObject) → Prop :=
| written_array_nil : written_array elem [] []
| written_array_cons f b r o o' bs l :
    wire_field f → fieldType f = STI_OBJECT → decodes elem b (r, o) →
    applyTemplateFromSField f o = Ret o' → written_array elem bs l →
    written_array elem (field_bytes (fieldType f) (fieldValue f) ++ b ++ bs) ((f, o') :: l).

Lemma read_array_end elem bs l n :
  written_array elem bs l → (length l < n)%nat →
  decodes (read_array elem n) (bs ++ field_bytes STI_ARRAY 1) l.
Proof.
  intros Hw. revert n.
  induction Hw as [|f b r o o' bs l Hf Ht Ho Hy _ IH]; intros n Hn it post Hok Hd;
    (destruct n as [|n]; [simpl in Hn; lia|]); cbn [read_array].
  - rewrite (it_nonempty _ _ _ Hok Hd) by apply field_bytes_length.
    destruct (decodes_at getFieldID _ (STI_ARRAY, 1) it post ltac:(by apply decodes_getFieldID) Hok Hd)
      as (E1 & _). by erewrite bind_at by exact E1.
  - rewrite <- !app_assoc in Hd. simpl in Hn.
    rewrite (it_nonempty _ _ _ Hok Hd) by apply field_bytes_length.
    destruct (decodes_at _ _ _ _ _ (proj2 (wire_field_bytes f [] Hf)) Hok Hd) as (E1 & Hok1 & Hd1).
    destruct (decodes_at _ _ _ _ _ Ho Hok1 Hd1) as (E2 & Hok2 & Hd2). rewrite app_assoc in Hd2.
    erewrite bind_at by exact E1. pose proof Hf as (Hg & Hc & _ & _ & _ & Hm).
    apply marker_false in Hm as [-> ->]. rewrite <- Hc, Hg, (wire_field_valid f Hf), Ht.
    cbn [negb]. change (STI_OBJECT =? STI_OBJECT) with true. cbv iota. cbn [negb].
    rewrite Ht in *. erewrite bind_at by exact E2. unfold lift. rewrite Hy.
    erewrite bind_at by reflexivity.
    erewrite bind_at by (apply (IH n ltac:(lia) _ post Hok2 Hd2)).
    unfold mret, reader_ret. rewrite !advance_advance. by rewrite !length_app, !Nat.add_assoc.
Qed.

(** ** Round trip *)

Definition elem_at (left : nat) : reader (bool * STObject) :=
  match left with
  | O => throw (runtime_error "Maximum nesting depth of STObject exceeded")
  | S l => read_object l
  end.

Definition var_at (left : nat) : SField → reader STVar :=
  match left with
  | O => λ _, throw (runtime_error "Maximum nesting depth of STVar exceeded")
  | S l => read_var (read_object l) (elem_at l)
  end.

Lemma read_object_eq left :
  read_object left =
    '(reached, l) ← (λ it, read_fields (var_at left) (remain_ it) it);
    if adjacent_dup (getSortedFields (mkObject None l) withAllFields)
    then throw (runtime_error "Duplicate field detected")
    else mret (reached, mkObject None l).
Proof. by destruct left as [|[|left]]. Qed.

(** A value without inner objects. *)
Definition is_leaf (x : STVar) : bool :=
  match x with Object _ | Array _ => false | _ => true end.

Lemma decodes_fmap {A B} (r : reader A) (g : A → B) bs a :
  decodes r bs a → decodes (v ← r; mret (g v)) bs (g a).
Proof. intros H. eapply decodes_bind'; [exact H|apply decodes_ret]. Qed.

(** Decide the tests of a chain on a known type. *)
Ltac pick_type :=
  cbv zeta;
  repeat match goal with
  | |- context [if ?a =? ?b then _ else _] =>
    let c := eval vm_compute in (a =? b) in
    match c with true => idtac | false => idtac end;
    change (a =? b) with c; cbv iota
  end.

Lemma leaf_roundtrip obj elem f x :
  is_leaf x = true → getSType x = fieldType f → leaf_ok x → encodable x →
  ∃ bs, (∀ s, add_var x s = Ret (s ++ bs)) ∧ Forall is_byte bs ∧ decodes (read_var obj elem f) bs x.
Proof.
  intros Hl Ht Hx He. unfold read_var. rewrite <- Ht. clear Ht.
  destruct x as [| v | v | v | v | v | v | v | v | v | v d | v | v | o | v]; try done;
    cbn [getSType leaf_ok encodable] in *; pick_type; cbn [add_var].
  - exists [v]. split_and!; [done|by constructor|]. by apply decodes_fmap, decodes_get8.
  - exists (to_be 2 v). split_and!; [intros; by rewrite add16_push|apply to_be_bytes|].
    by apply decodes_fmap, decodes_get16.
  - exists (to_be 4 v). split_and!; [intros; by rewrite add32_push|apply to_be_bytes|].
    by apply decodes_fmap, decodes_get32.
  - exists (to_be 8 v). split_and!; [intros; by rewrite add64_push|apply to_be_bytes|].
    by apply decodes_fmap, decodes_get64.
  - exists (to_be 16 v). split_and!; [done|apply to_be_bytes|]. by apply decodes_fmap, decodes_getBitString.
  - exists (to_be 20 v). split_and!; [done|apply to_be_bytes|]. by apply decodes_fmap, decodes_getBitString.
  - exists (to_be 32 v). split_and!; [done|apply to_be_bytes|]. by apply decodes_fmap, decodes_getBitString.
  - exists (st_bytes v). split_and!; [|apply st_bytes_bytes|].
    { intros. rewrite st_serialize_bytes; [done|by destruct Hx]. }
    by apply decodes_fmap, decodes_amount.
  - destruct (addVL_bytes v He Hx) as (bs & Hb & Hbb & Hd). exists bs. split_and!; [done..|]. by apply decodes_fmap.
  - destruct Hx as [Hv Hd0].
    assert (Hlen : (length (if d then [] else to_be 20 v) ≤ 20)%nat) by (destruct d; simpl; lia).
    destruct (addVL_bytes (if d then [] else to_be 20 v) ltac:(lia)) as (bs & Hb & Hbb & Hd).
    { destruct d; [constructor|apply to_be_bytes]. }
    exists bs. split_and!; [done..|]. eapply decodes_bind'; [exact Hd|]. destruct d.
    + rewrite Hd0 by done. apply decodes_ret.
    + rewrite bool_decide_false by (intros E%(f_equal length); simpl in E; lia).
      rewrite length_to_be. change (negb (20 =? 20)%nat) with false. cbv iota.
      rewrite of_be_to_be by done. apply decodes_ret.
  - destruct v as [|p ps]; [by destruct Hx|]. destruct Hx as [_ Hx]. exists (paths_bytes p ps).
    assert (Hall : Forall (λ p, p ≠ [] ∧ Forall (λ e, elem_ok e ∧ pe_type e ≠ typeNone) p) (p :: ps)).
    { apply Forall_forall. intros q Hq. rewrite Forall_forall in Hx, He.
      destruct (Hx q Hq) as [Hq0 Hq1]. split; [done|]. apply Forall_and. by split; [|apply He]. }
    apply Forall_cons in Hx as [[_ Hp] Hps].
    assert (Hps' : Forall (Forall elem_ok) ps) by (eapply Forall_impl; [exact Hps|]; by intros q []).
    split_and!; [|by apply paths_bytes_bytes|by apply decodes_fmap, decodes_read_pathset].
    intros s. f_equal. by apply add_pathset_bytes.
  - destruct (addVL_bytes (concat (to_be 32 <$> v))) as (bs & Hb & Hbb & Hd);
      [rewrite length_concat_be; lia|apply concat_be_bytes|].
    exists bs. split_and!; [done..|]. apply decodes_fmap. eapply decodes_bind'; [exact Hd|].
    rewrite length_concat_be, Nat.mul_comm, Nat.div_mul, chunks_concat by done. apply decodes_ret.
Qed.

Lemma field_bytes_bytes t n : 0 < t < 256 → 0 < n < 256 → Forall is_byte (field_bytes t n).
Proof.
  intros Ht Hn. unfold field_bytes, is_byte. repeat case_match; rewrite ?Z.ltb_lt, ?Z.ltb_ge in *;
    repeat constructor; lia.
Qed.

Lemma wire_field_is_bytes f :
  wire_field f → Forall is_byte (field_bytes (fieldType f) (fieldValue f)).
Proof. intros (_ & _ & Ht & Hv & _). by apply field_bytes_bytes. Qed.

(** What [STObject::add] writes for a field after its name. *)
Definition add_marked (x : STVar) (s : Serializer) : outcome Serializer :=
  s ← add_var x s;
  Ret (if (getSType x =? STI_ARRAY) || (getSType x =? STI_OBJECT)
       then (addFieldID (getSType x) 1 s).2 else s).

(** The bytes [b] of a field from which [var] reads its canonical form. *)
Definition field_written (var : SField → reader STVar) (y : SField * STVar) (b : list Z) : Prop :=
  wire_field y.1 ∧ Forall is_byte b ∧ (∀ s, add_marked y.2 s = Ret (s ++ b)) ∧
  ∃ x, decodes (var y.1) b x ∧ applied y.1 x = Ret (canon_field y.1 (canon_var y.2)).

Lemma add_pieces_written var l :
  Forall (λ y, ∃ b, field_written var y b) l →
  ∃ bs, (∀ s, add_pieces ((λ y, (y.1, (y.2, add_var y.2))) <$> l) s = Ret (s ++ bs)) ∧ Forall is_byte bs ∧
    written var bs ((λ y, (y.1, canon_field y.1 (canon_var y.2))) <$> l).
Proof.
  induction 1 as [|[f x] l (b & Hf & Hbb & Hb & x' & Hx' & Ha) _ (bs & Hbs & Hbb' & Hw)].
  { exists []. split_and!; [intros; by rewrite app_nil_r|constructor..]. }
  exists (field_bytes (fieldType f) (fieldValue f) ++ b ++ bs).
  split_and!; [|rewrite !Forall_app; auto using wire_field_is_bytes|by econstructor].
  intros s. cbn [fmap list_fmap add_pieces fst snd]. rewrite (proj1 (wire_field_bytes f s Hf)).
  specialize (Hb (s ++ field_bytes (fieldType f) (fieldValue f))). unfold add_marked in Hb.
  simpl in Hb. destruct (add_var x _) as [s'|]; [|done]. simpl in Hb |- *. injection Hb as ->.
  rewrite Hbs. by rewrite <- !app_assoc.
Qed.

Lemma codes_canon o :
  codes (v_ (canon_obj o)) = codes (getSortedFields o true).
Proof. rewrite canon_obj_eq. simpl. by rewrite <- list_fmap_compose. Qed.

Lemma canon_no_dup o :
  NoDup (codes (getSortedFields o true)) → ∀ which,
  adjacent_dup (getSortedFields (mkObject None (v_ (canon_obj o))) which) = false.
Proof.
  intros Hnd which. apply adjacent_dup_false. unfold getSortedFields at 1. apply codes_sort. simpl.
  rewrite <- codes_canon in Hnd. eapply sublist_NoDup; [exact Hnd|].
  apply fmap_sublist, sublist_filter.
Qed.

Definition object_written (left : nat) (o : STObject) (bs : list Z) : Prop :=
  (∀ s, add_object o s = Ret (s ++ bs)) ∧ Forall is_byte bs ∧ written (var_at left) bs (v_ (canon_obj o)).

Lemma canon_obj_free o : canon_obj o = mkObject None (v_ (canon_obj o)).
Proof. by rewrite canon_obj_eq. Qed.

(** Reading an inner object stops at its end marker. *)
Lemma decodes_read_object left o bs :
  NoDup (codes (getSortedFields o true)) → object_written left o bs →
  decodes (read_object left) (bs ++ field_bytes STI_OBJECT 1) (true, canon_obj o).
Proof.
  intros Hnd (_ & _ & Hw). rewrite read_object_eq.
  apply (decodes_bind' _ _ _ (true, v_ (canon_obj o))).
  - intros it post Hok Hd. pose proof (it_front _ _ _ Hok Hd) as Hl. rewrite length_app in Hl.
    pose proof (written_length _ _ _ Hw). pose proof (field_bytes_length STI_OBJECT 1).
    apply (read_fields_end _ _ _ (remain_ it) Hw ltac:(lia) it post); done.
  - rewrite canon_no_dup by done. rewrite <- canon_obj_free. apply decodes_ret.
Qed.

Lemma add_marker t s : 0 < t < 256 → (addFieldID t 1 s).2 = s ++ field_bytes t 1.
Proof. intros Ht. by rewrite addFieldID_push. Qed.

Abbreviation sendable := (λ x, leaf_ok x ∧ encodable x).

Lemma conforms_canon f o :
  conforms f o → applyTemplateFromSField f (canon_obj o) = Ret (canon_in f (canon_obj o)).
Proof. unfold conforms, canon_in. by destruct (applyTemplateFromSField f (canon_obj o)). Qed.

Section Step.
Context (n : nat) (IH : ∀ m, (m < n)%nat → ∀ o, wire_obj sendable m o → ∃ bs, object_written m o bs).

Local Lemma object_field_written m f o :
  (m < n)%nat → wire_field f → fieldType f = STI_OBJECT → conforms f o → wire_obj sendable m o →
  ∃ b, field_written (var_at (S m)) (f, Object o) b.
Proof using IH.
  intros Hm Hf Ht Hc Ho. destruct (IH m Hm o Ho) as (bs & Hw).
  exists (bs ++ field_bytes STI_OBJECT 1).
  split_and!; [done|apply Forall_app; split; [apply Hw|by apply field_bytes_bytes]| |].
  - intros s. unfold add_marked. cbn [add_var snd]. rewrite (proj1 Hw).
    change (Ret (addFieldID STI_OBJECT 1 (s ++ bs)).2 = Ret (s ++ bs ++ field_bytes STI_OBJECT 1)).
    by rewrite add_marker, <- app_assoc.
  - exists (Object (canon_obj o)). split.
    + cbn [var_at fst]. unfold read_var. rewrite Ht. pick_type.
      assert (Hnd : NoDup (codes (getSortedFields o true))) by (by destruct m; apply Ho).
      eapply decodes_bind'; [by apply decodes_read_object|]. apply decodes_ret.
    + simpl. by rewrite conforms_canon.
Qed.

Local Lemma array_written m v :
  (m < n)%nat →
  Forall (λ z, wire_field z.1 ∧ fieldType z.1 = STI_OBJECT ∧ conforms z.1 z.2 ∧
    match m with O => False | S m => wire_obj sendable m z.2 end) v →
  ∃ bs, (∀ s, add_elements (map (λ x, (x.1, add_object x.2)) v) s = Ret (s ++ bs)) ∧ Forall is_byte bs ∧
    written_array (elem_at m) bs (map (λ y, (y.1, canon_in y.1 (canon_obj y.2))) v).
Proof using IH.
  intros Hm. induction 1 as [|[f o] v (Hf & Ht & Hc & Ho) _ (bs & Hbs & Hbb & Hw)].
  { exists []. split_and!; [intros; by rewrite app_nil_r|constructor..]. }
  destruct m as [|m]; [done|]. simpl in Hf, Ht, Hc, Ho.
  destruct (IH m ltac:(lia) o Ho) as (b & Hb).
  assert (Hnd : NoDup (codes (getSortedFields o true))) by (by destruct m; apply Ho).
  exists (field_bytes (fieldType f) (fieldValue f) ++ (b ++ field_bytes STI_OBJECT 1) ++ bs). split_and!.
  - intros s. cbn [map add_elements fst snd]. rewrite (proj1 (wire_field_bytes f s Hf)), (proj1 Hb).
    cbn [mbind outcome_bind]. rewrite add_marker, Hbs by done. by rewrite <- !app_assoc.
  - rewrite !Forall_app. split_and!; auto using wire_field_is_bytes; [apply Hb|by apply field_bytes_bytes].
  - cbn [map fst snd]. econstructor; try done; [by apply decodes_read_object|by apply conforms_canon].
Qed.

Local Lemma array_field_written m f v :
  (m < n)%nat → wire_field f → fieldType f = STI_ARRAY →
  Forall (λ z, wire_field z.1 ∧ fieldType z.1 = STI_OBJECT ∧ conforms z.1 z.2 ∧
    match m with O => False | S m => wire_obj sendable m z.2 end) v →
  ∃ b, field_written (var_at (S m)) (f, Array v) b.
Proof using IH.
  intros Hm Hf Ht Hv. destruct (array_written m v Hm Hv) as (bs & Hbs & Hbb & Hw).
  exists (bs ++ field_bytes STI_ARRAY 1).
  split_and!; [done|apply Forall_app; split; [done|by apply field_bytes_bytes]| |].
  - intros s. unfold add_marked. cbn [add_var snd]. rewrite Hbs.
    change (Ret (addFieldID STI_ARRAY 1 (s ++ bs)).2 = Ret (s ++ bs ++ field_bytes STI_ARRAY 1)).
    by rewrite add_marker, <- app_assoc.
  - exists (canon_var (Array v)). split; [|done].
    cbn [var_at fst canon_var]. unfold read_var. rewrite Ht. pick_type. apply decodes_fmap.
    intros it post Hok Hd. pose proof (it_front _ _ _ Hok Hd) as Hl. rewrite length_app in Hl.
    assert (Hlen : (length (map (λ y, (y.1, canon_in y.1 (canon_obj y.2))) v) ≤ length bs)%nat).
    { clear -Hw. induction Hw as [|f b r o o' bs l _ _ _ _ _ IHw]; [done|]. rewrite !length_app. simpl.
      pose proof (field_bytes_length (fieldType f) (fieldValue f)). lia. }
    pose proof (field_bytes_length STI_ARRAY 1).
    apply (read_array_end _ _ _ (remain_ it) Hw ltac:(lia) it post); done.
Qed.
End Step.

Lemma object_roundtrip n o : wire_obj sendable n o → ∃ bs, object_written n o bs.
Proof.
  revert o. induction n as [n IH] using lt_wf_ind. intros o Ho.
  assert (Hall : Forall (λ y, ∃ b, field_written (var_at n) y b) (getSortedFields o true)).
  { destruct n as [|m]; destruct Ho as [_ Ho]; (eapply Forall_impl; [exact Ho|]);
      [done|]. intros [f x] (Hf & Ht & [Hx He] & Hrest). simpl in *.
    destruct (is_leaf x) eqn:Hl.
    - destruct (leaf_roundtrip (read_object m) (elem_at m) f x Hl Ht Hx He) as (b & Hb & Hbb & Hd).
      exists b. split_and!; [done..| |].
      + intros s. unfold add_marked. simpl. rewrite Hb. by destruct x.
      + exists x. split; [done|]. by destruct x.
    - destruct x; try done.
      + by apply (object_field_written _ IH); [lia|..]; try apply Hrest.
      + by apply (array_field_written _ IH); [lia|..]. }
  destruct (add_pieces_written _ _ Hall) as (bs & Hbs & Hbb & Hw). exists bs. split_and!; [|done|].
  - intros s. by rewrite add_object_eq, st_add_eq.
  - by rewrite canon_obj_eq.
Qed.

(** Reading a whole buffer. *)
Lemma read_written n o bs :
  NoDup (codes (getSortedFields o true)) → object_written n o bs → Z.of_nat (length bs) < 2 ^ 63 →
  read_object n (iter_of bs) = Ret ((false, canon_obj o), advance (length bs) (iter_of bs)).
Proof.
  intros Hnd (_ & Hb & Hw) Hl. rewrite read_object_eq.
  assert (Hok : it_ok (iter_of bs)) by (unfold it_ok, iter_of; simpl; split_and!; done || lia).
  erewrite bind_at.
  2: { apply (read_fields_all _ bs); [exact Hw| |done|done]. simpl. by eapply written_length. }
  cbv beta iota. rewrite canon_no_dup by done. by rewrite <- canon_obj_free.
Qed.

Lemma wire_obj_nodup L n o : wire_obj L n o → NoDup (codes (getSortedFields o true)).
Proof. destruct n; by intros []. Qed.

Lemma st_read_written o bs :
  wire_obj sendable 10 o → getSerializer o = Ret bs → Z.of_nat (length bs) < 2 ^ 63 →
  Forall is_byte bs ∧ st_read (iter_of bs) = Ret (canon_obj o, advance (length bs) (iter_of bs)).
Proof.
  intros Ho Hs Hl. destruct (object_roundtrip 10 o Ho) as (bs' & Hw). pose proof Hw as (Ha & Hb & _).
  unfold getSerializer in Hs. rewrite <- add_object_eq, Ha in Hs. injection Hs as <-.
  split; [done|]. unfold st_read. by erewrite bind_at by
    (apply read_written; [by eapply wire_obj_nodup|exact Hw|done]).
Qed.

(** C27: binary round trip of objects: an object whose fields hold sendable values and that
    is nested no deeper than the reader allows is always written, and reading the bytes
    gives its canonical form, every inner object and array included. *)
Theorem STObject_roundtrip (o : STObject) (Ho : wire_obj sendable 10 o) :
  ∃ bs, getSerializer o = Ret bs ∧
    (Z.of_nat (length bs) < 2 ^ 63 →
     Forall is_byte bs ∧ st_read (iter_of bs) = Ret (canon_obj o, advance (length bs) (iter_of bs))).
Proof.
  destruct (object_roundtrip 10 o Ho) as (bs & Hw).
  assert (Hs : getSerializer o = Ret bs)
    by (unfold getSerializer; rewrite <- add_object_eq; apply Hw).
  exists bs. split; [done|]. by apply st_read_written.
Qed.

(** ** Signing *)

(** The part of an object that a signature covers. *)
Definition signing_part (o : STObject) : STObject :=
  mkObject None (filter (λ y, signingField y.1 = true) (v_ o)).

Lemma getSortedFields_signing o : getSortedFields o false = getSortedFields (signing_part o) true.
Proof.
  unfold getSortedFields, signing_part. simpl. f_equal. rewrite list_filter_filter.
  apply list_filter_iff. intros [f x]. unfold shouldInclude. simpl.
  destruct (absent x), (fieldValue f <? 256), (signingField f); simpl; intuition congruence.
Qed.

Lemma st_add_signing o s : st_add false o s = st_add true (signing_part o) s.
Proof. by rewrite !st_add_eq, getSortedFields_signing. Qed.

Lemma signing_part_wire L n o : wire_obj L n o → wire_obj L n (signing_part o).
Proof.
  assert (Hsub : getSortedFields (signing_part o) true ⊆+ getSortedFields o true).
  { unfold getSortedFields, signing_part. simpl. rewrite !sort_fields_perm.
    set (inc := λ y : SField * STVar, negb (absent y.2) && shouldInclude y.1 true = true).
    assert (Hc : filter inc (filter (λ y, signingField y.1 = true) (v_ o)) =
      filter (λ y, signingField y.1 = true) (filter inc (v_ o))).
    { rewrite !list_filter_filter. apply list_filter_iff. tauto. }
    rewrite Hc. apply sublist_submseteq, sublist_filter. }
  apply submseteq_Permutation in Hsub as [r Hr].
  intros Ho. destruct n as [|n]; destruct Ho as [Hnd Ho];
    rewrite Hr, fmap_app, NoDup_app in Hnd; rewrite Hr, Forall_app in Ho; split; tauto.
Qed.

(** C28: a signature covers all of an object but the signatures: if the data to be signed
    of two objects are the same bytes, then the objects agree on every field that is not
    a signature. *)
Theorem signing_injective (o1 o2 : STObject) (bs : list Z)
    (H1 : wire_obj sendable 10 o1) (H2 : wire_obj sendable 10 o2)
    (E1 : addWithoutSigningFields o1 [] = Ret bs) (E2 : addWithoutSigningFields o2 [] = Ret bs)
    (Hl : Z.of_nat (length bs) < 2 ^ 63) :
  canon_obj (signing_part o1) = canon_obj (signing_part o2).
Proof.
  unfold addWithoutSigningFields, omitSigningFields in E1, E2. rewrite st_add_signing in E1, E2.
  destruct (st_read_written _ _ (signing_part_wire _ _ _ H1) E1 Hl) as [_ R1].
  destruct (st_read_written _ _ (signing_part_wire _ _ _ H2) E2 Hl) as [_ R2]. congruence.
Qed.

(** ** Templates of inner objects *)

Abbreviation tcodes t := ((λ e, fieldCode (e_field e)) <$> t).

Lemma extract_spec f v :
  match extract f v with
  | Some (x, r) => v ≡ₚ x :: r ∧ fieldCode x.1 = fieldCode f
  | None => fieldCode f ∉ codes v
  end.
Proof.
  induction v as [|y v IH]; cbn [extract]; [apply not_elem_of_nil|].
  unfold same_field. destruct (Z.eqb_spec (fieldCode y.1) (fieldCode f)) as [Heq|Hne]; [done|].
  destruct (extract f v) as [[x r]|].
  - destruct IH as [Hp Heq]. split; [|done]. rewrite Hp. apply Permutation_swap.
  - cbn [fmap list_fmap]. rewrite not_elem_of_cons. auto.
Qed.

(** The fields found and those left over are the fields there were. *)
Lemma match_template_perm t v l r :
  match_template t v = Ret (l, r) → Forall (λ y, absent y.2 = false) v →
  filter (λ y, absent y.2 = false) l ++ r ≡ₚ v.
Proof.
  revert v l r. induction t as [|e t IH]; intros v l r; cbn [match_template].
  { by intros [= <- <-]. }
  intros Hm Hv. pose proof (extract_spec (e_field e) v) as Hx.
  destruct (extract (e_field e) v) as [[x v']|].
  - destruct Hx as [Hp _]. destruct (_ && _); [done|].
    destruct (match_template t v') as [[l' r']|] eqn:E; [|done]. injection Hm as <- <-.
    rewrite Hp in Hv |- *. apply Forall_cons in Hv as [Hx Hv'].
    rewrite filter_cons_True by done. simpl. by rewrite (IH _ _ _ E Hv').
  - destruct (bool_decide _); [done|].
    destruct (match_template t v) as [[l' r']|] eqn:E; [|done]. injection Hm as <- <-.
    rewrite filter_cons_False by done. by apply IH.
Qed.

(** Whether a template fits depends on the names only, if no field has a default style. *)
Lemma match_template_names t v v' l r :
  match_template t v = Ret (l, r) → Forall (λ e, flags e ≠ SOE_DEFAULT) t → codes v ≡ₚ codes v' →
  ∃ l' r', match_template t v' = Ret (l', r') ∧ codes r ≡ₚ codes r'.
Proof.
  intros Hm Ht. revert v v' l r Hm. induction Ht as [|e t He _ IH]; intros v v' l r Hm Hc;
    cbn [match_template] in *.
  { injection Hm as <- <-. eauto. }
  rewrite bool_decide_false in * by done. simpl in *.
  pose proof (extract_spec (e_field e) v) as Hx. pose proof (extract_spec (e_field e) v') as Hx'.
  destruct (extract (e_field e) v) as [[x w]|], (extract (e_field e) v') as [[x' w']|].
  - destruct Hx as [Hp Hf], Hx' as [Hp' Hf'].
    assert (Hw : codes w ≡ₚ codes w').
    { rewrite Hp, Hp' in Hc. cbn [fmap list_fmap] in Hc. rewrite Hf, Hf' in Hc.
      by apply Permutation_cons_inv in Hc. }
    destruct (match_template t w) as [[l1 r1]|] eqn:E; [|done]. injection Hm as <- <-.
    destruct (IH _ _ _ _ E Hw) as (l2 & r2 & -> & Hr). eauto.
  - exfalso. apply Hx'. rewrite <- Hc. destruct Hx as [-> <-]. by left.
  - exfalso. apply Hx. rewrite Hc. destruct Hx' as [-> <-]. by left.
  - destruct (bool_decide (flags e = SOE_REQUIRED)); [done|].
    destruct (match_template t v) as [[l1 r1]|] eqn:E; [|done]. injection Hm as <- <-.
    destruct (IH _ _ _ _ E Hc) as (l2 & r2 & -> & Hr). eauto.
Qed.

Lemma inner_formats_required f t :
  findSOTemplateBySField f = Some t → Forall (λ e, flags e ≠ SOE_DEFAULT) t.
Proof.
  unfold findSOTemplateBySField, findByType.
  intros Hl%elem_of_list_to_map_2. unfold InnerObjectFormats in Hl.
  rewrite !elem_of_cons, elem_of_nil in Hl.
  destruct Hl as [[= _ ->]|[[= _ ->]|[]]]; repeat constructor; done.
Qed.

(** All fields are present and can be written. *)
Definition plain (v : list (SField * STVar)) : Prop :=
  Forall (λ y, absent y.2 = false ∧ 0 < fieldValue y.1 < 256) v.

Lemma plain_included v :
  plain v → filter (λ y, negb (absent y.2) && shouldInclude y.1 true = true) v = v.
Proof.
  induction 1 as [|y v [Ha Hv] _ IH]; [done|]. rewrite filter_cons_True, IH; [done|].
  unfold shouldInclude. rewrite Ha. simpl. rewrite (proj2 (Z.ltb_lt _ _)) by lia. done.
Qed.

Lemma plain_find r : plain r → List.find (λ y, negb (isDiscardable y.1)) r = None → r = [].
Proof.
  intros Hr. destruct Hr as [|y r [_ Hv] _]; [done|]. simpl. unfold isDiscardable.
  by rewrite (proj2 (Z.ltb_ge _ _)) by lia.
Qed.

(** Applying a template does not change what is written. *)
Lemma applyTemplate_fields t o o' :
  applyTemplate t o = Ret o' → plain (v_ o) → NoDup (codes (v_ o)) →
  getSortedFields o' true = getSortedFields o true.
Proof.
  unfold applyTemplate. intros Ha Hp Hnd.
  destruct (match_template t (v_ o)) as [[l r]|] eqn:Hm; [|done]. simpl in Ha.
  assert (Hpres : Forall (λ y, absent y.2 = false) (v_ o)) by (eapply Forall_impl; [exact Hp|]; by intros ? []).
  pose proof (match_template_perm _ _ _ _ Hm Hpres) as Hperm.
  assert (Hr : plain r).
  { unfold plain in *. rewrite <- Hperm, Forall_app in Hp. apply Hp. }
  destruct (List.find _ r) as [[]|] eqn:Hf; [done|]. injection Ha as <-.
  apply plain_find in Hf as ->; [|done]. rewrite app_nil_r in Hperm.
  unfold getSortedFields. simpl. symmetry. rewrite (plain_included (v_ o)) by done.
  apply sort_fields_unique; [|done]. rewrite <- Hperm, <- (plain_included (filter _ l)).
  - rewrite list_filter_filter. apply reflexive_eq, list_filter_iff. intros y.
    destruct (absent y.2); simpl; intuition congruence.
  - unfold plain in *. by rewrite Hperm.
Qed.

(** ** What reading returns *)

Lemma wire_obj_fields L n o o' :
  getSortedFields o' true = getSortedFields o true → wire_obj L n o → wire_obj L n o'.
Proof. destruct n; simpl; by intros ->. Qed.

Lemma canon_obj_fields o o' :
  getSortedFields o' true = getSortedFields o true → canon_obj o' = canon_obj o.
Proof. rewrite !canon_obj_eq. by intros ->. Qed.

Definition typed (n : nat) (o : STObject) : Prop :=
  plain (v_ o) ∧ NoDup (codes (v_ o)) ∧ wire_obj leaf_ok n o.

Lemma typed_applied n f o o' :
  typed n o → applyTemplateFromSField f o = Ret o' → conforms f o' ∧ wire_obj leaf_ok n o'.
Proof.
  intros (Hp & Hnd & Ho). unfold applyTemplateFromSField, conforms.
  destruct (findSOTemplateBySField f) as [t|] eqn:Ht.
  2: { intros [= <-]. split; [|done]. unfold applyTemplateFromSField. by rewrite Ht. }
  intros Ha. pose proof (applyTemplate_fields _ _ _ Ha Hp Hnd) as Hg.
  rewrite (canon_obj_fields _ _ Hg). split; [|by eapply wire_obj_fields].
  unfold applyTemplateFromSField. rewrite Ht. unfold applyTemplate in *.
  destruct (match_template t (v_ o)) as [[l r]|] eqn:Hm; [|done]. simpl in Ha.
  destruct (List.find _ r) as [[]|] eqn:Hf; [done|].
  assert (Hr : plain r).
  { assert (Hpres : Forall (λ y, absent y.2 = false) (v_ o)) by (eapply Forall_impl; [exact Hp|]; by intros ? []).
    unfold plain in *. rewrite <- (match_template_perm _ _ _ _ Hm Hpres), Forall_app in Hp. apply Hp. }
  apply plain_find in Hf as ->; [|done].
  destruct (match_template_names t (v_ o) (v_ (canon_obj o)) l [] Hm) as (l' & r' & -> & Hr').
  - by eapply inner_formats_required.
  - rewrite codes_canon. unfold getSortedFields. rewrite plain_included by done.
    by rewrite sort_fields_perm.
  - apply Permutation_nil_l in Hr'. destruct r'; [|done]. done.
Qed.

Lemma safe_weaken {A} (r : reader A) (P Q : A → Prop) : (∀ a, P a → Q a) → safe r P → safe r Q.
Proof. intros HPQ Hr it a it' Hok E. destruct (Hr _ _ _ Hok E) as (?&?&?&?). auto. Qed.

Lemma safe_dep {A} (r : SerialIter → reader A) Q : (∀ it, safe (r it) Q) → safe (λ it, r it it) Q.
Proof. intros H it a it' Hok E. by apply (H it it a it'). Qed.

Lemma safe_fmap {A B} (r : reader A) (g : A → B) P Q :
  safe r P → (∀ a, P a → Q (g a)) → safe (v ← r; mret (g v)) Q.
Proof. intros Hr HQ. eapply safe_bind; [exact Hr|]. intros a Ha. apply safe_ret. auto. Qed.

Lemma safe_read_paths n acc :
  Forall elem_ok acc →
  safe (read_paths n acc) (λ ps, ps ≠ [] ∧ Forall (λ p, p ≠ [] ∧ Forall elem_ok p) ps).
Proof.
  assert (Hflag : ∀ b : bool, safe (if b then get160 else mret 0) (below 20)).
  { intros []; [apply safe_getBitString|]. apply safe_ret. unfold below. lia. }
  revert acc. induction n as [|n IH]; intros acc Hacc; cbn [read_paths]; [apply safe_throw|].
  eapply safe_bind; [apply safe_get8|]. intros t _.
  destruct (_ || _).
  - destruct (bool_decide_reflect (acc = [])); [apply safe_throw|].
    destruct (t =? typeNone); [apply safe_ret; by repeat constructor|].
    eapply safe_fmap; [by apply IH|]. intros ps [_ Hps]. by repeat constructor.
  - destruct (has_flag t _); [apply safe_throw|].
    eapply safe_bind; [apply Hflag|]. intros a Ha. eapply safe_bind; [apply Hflag|]. intros c Hc.
    eapply safe_bind; [apply Hflag|]. intros i Hi. apply IH, Forall_app. split; [done|].
    repeat constructor; by apply path_element_ok.
Qed.

Lemma chunks_below n l : Forall is_byte l → Forall (below 32) (chunks n l).
Proof.
  revert l. induction n as [|n IH]; intros l Hl; cbn [chunks]; constructor; [|by apply IH, Forall_drop].
  pose proof (of_be_bound (take 32 l) ltac:(by apply Forall_take)) as Hb. unfold below.
  rewrite length_take in Hb. split; [lia|]. eapply Z.lt_le_trans; [apply Hb|].
  apply Z.pow_le_mono_r; lia.
Qed.

Lemma safe_read_account : safe read_account (λ x, getSType x = STI_ACCOUNT ∧ leaf_ok x ∧ is_leaf x = true).
Proof.
  eapply safe_bind; [apply safe_getVL|]. intros v [_ Hv].
  destruct (bool_decide _); [apply safe_ret; unfold leaf_ok, below; auto with lia|].
  destruct (Nat.eqb_spec (length v) 20) as [Hl|]; [|apply safe_throw]. apply safe_ret.
  split_and!; try done. pose proof (of_be_bound v Hv) as Hb. by rewrite Hl in Hb.
Qed.

Lemma safe_if_empty {A} (e r : reader A) Q :
  safe e Q → safe r Q → safe (λ it, if empty it then e it else r it) Q.
Proof. intros He Hr it a it' Hok. destruct (empty it); [by apply He|by apply Hr]. Qed.

Lemma safe_read_array elem n (E : STObject → Prop) :
  safe elem (λ r, ∀ f o, applyTemplateFromSField f r.2 = Ret o → conforms f o ∧ E o) →
  safe (read_array elem n)
    (Forall (λ z, wire_field z.1 ∧ fieldType z.1 = STI_OBJECT ∧ conforms z.1 z.2 ∧ E z.2)).
Proof.
  intros He. induction n as [|n IH]; [by apply (safe_ret [])|]. cbn [read_array].
  refine (safe_if_empty (mret []) _ _ _ _); [by apply safe_ret|].
  eapply safe_bind; [apply safe_getFieldID|]. intros [t v] [Ht Hv].
  destruct ((t =? STI_ARRAY) && (v =? 1)) eqn:Ha; [by apply safe_ret|].
  destruct ((t =? STI_OBJECT) && (v =? 1)) eqn:Ho; [apply safe_throw|].
  destruct (isInvalid _) eqn:Hi; [apply safe_throw|].
  assert (Hm : marker t v = false).
  { unfold marker. by destruct (t =? STI_OBJECT), (t =? STI_ARRAY), (v =? 1). }
  destruct (getField_wire t v Ht Hv Hm Hi) as (Hf & _). clear Hi. revert Hf.
  generalize (getField (field_code t v)). intros f Hf.
  destruct (Z.eqb_spec (fieldType f) STI_OBJECT) as [Eq|]; [|apply safe_throw].
  cbn [negb]. eapply safe_bind; [exact He|]. intros [r o] Hty. simpl in Hty.
  eapply safe_bind; [apply safe_lift; intros o' Ho'; exact (Hty _ _ Ho')|].
  intros o' [Hc Hw]. eapply safe_fmap; [exact IH|]. intros l Hl. by constructor.
Qed.

(** What [read_var] returns for a field, before a template is applied. *)
Definition raw_value (m : nat) (f : SField) (x : STVar) : Prop :=
  getSType x = fieldType f ∧ leaf_ok x ∧
  match x with
  | Object o => typed m o
  | Array v =>
    Forall (λ z, wire_field z.1 ∧ fieldType z.1 = STI_OBJECT ∧ conforms z.1 z.2 ∧
      match m with O => False | S m => wire_obj leaf_ok m z.2 end) v
  | _ => True
  end.

Lemma safe_read_var m f :
  wire_field f →
  safe (read_object m) (λ r, typed m r.2) →
  (∀ m', m = S m' → safe (read_object m') (λ r, typed m' r.2)) →
  safe (read_var (read_object m) (elem_at m) f) (raw_value m f).
Proof.
  intros (_ & _ & Ht0 & _) Hobj Helem. unfold read_var, raw_value. cbv zeta.
  destruct (Z.eqb_spec (fieldType f) STI_NOTPRESENT) as [E|_]; [unfold STI_NOTPRESENT in E; lia|].
  repeat (match goal with |- safe (if ?a =? ?b then _ else _) _ =>
    destruct (Z.eqb_spec a b) as [->|_] end); [..|apply safe_throw].
  - eapply safe_fmap; [apply safe_get8|done].
  - eapply safe_fmap; [apply safe_get16|done].
  - eapply safe_fmap; [apply safe_get32|done].
  - eapply safe_fmap; [apply safe_get64|done].
  - eapply (safe_fmap _ _ wire_ok); [|done]. intros it a it' Hok E.
    destruct (st_deserialize_inv _ _ _ Hok E) as (Hw & -> & Hfr).
    assert (Hlen : (length (st_bytes a) ≤ remain_ it)%nat).
    { apply (f_equal length) in Hfr. unfold front in Hfr. rewrite length_take, length_drop in Hfr.
      destruct Hok as (_ & _ & Hl & _). lia. }
    split_and!; [by apply it_ok_advance|done|simpl; lia|done].
  - eapply safe_fmap; [apply safe_getBitString|done].
  - eapply safe_fmap; [apply safe_getBitString|done].
  - eapply safe_fmap; [apply safe_getBitString|done].
  - eapply (safe_fmap _ _ (Forall (below 32))); [|done].
    eapply safe_fmap; [apply safe_getVL|]. intros d [_ Hd]. by apply chunks_below.
  - eapply safe_fmap; [apply safe_getVL|]. by intros d [_ Hd].
  - eapply safe_weaken; [|apply safe_read_account]. intros x (Hx & Hl & Hi). by destruct x.
  - eapply (safe_fmap _ _ (λ ps, ps ≠ [] ∧ Forall (λ p, p ≠ [] ∧ Forall elem_ok p) ps)); [|done].
    apply (safe_dep (λ it, read_paths (S (remain_ it)) [])). intros. by apply safe_read_paths.
  - eapply safe_bind; [exact Hobj|]. intros [r o] Ho. by apply safe_ret.
  - eapply safe_fmap; [|intros v Hv; split_and!; [done|done|exact Hv]].
    apply (safe_dep (λ it, read_array (elem_at m) (remain_ it))). intros it.
    apply (safe_read_array (elem_at m) (remain_ it)
      (λ o, match m with O => False | S m => wire_obj leaf_ok m o end)).
    destruct m as [|m]; cbn [elem_at]; [apply safe_throw|].
    eapply safe_weaken; [|by apply Helem]. intros [r o] Ho f' o' Ho'. by eapply typed_applied.
Qed.

Lemma safe_read_fields n k :
  (∀ f, wire_field f → safe (var_at n f) (λ x, ∃ m, n = S m ∧ raw_value m f x)) →
  safe (read_fields (var_at n) k) (λ r,
    Forall (λ y, match n with O => False | S m => wire_value leaf_ok (wire_obj leaf_ok m)
      (λ o, match m with O => False | S m => wire_obj leaf_ok m o end) y end) r.2).
Proof.
  intros Hvar. induction k as [|k IH]; [by apply (safe_ret (false, []))|]. cbn [read_fields].
  refine (safe_if_empty (mret (false, [])) _ _ _ _); [by apply safe_ret|].
  eapply safe_bind; [apply safe_getFieldID|]. intros [t v] [Ht Hv].
  destruct ((t =? STI_OBJECT) && (v =? 1)) eqn:Ho; [by apply safe_ret|].
  destruct ((t =? STI_ARRAY) && (v =? 1)) eqn:Ha; [apply safe_throw|].
  destruct (isInvalid _) eqn:Hi; [apply safe_throw|].
  assert (Hm : marker t v = false).
  { unfold marker. by destruct (t =? STI_OBJECT), (t =? STI_ARRAY), (v =? 1). }
  destruct (getField_wire t v Ht Hv Hm Hi) as (Hf & _).
  clear Hi. revert Hf. generalize (getField (field_code t v)). intros f Hf.
  eapply safe_bind; [by apply Hvar|]. intros x (m & -> & Hst & Hl & Hx).
  eapply (safe_bind _ _ (λ x, wire_value leaf_ok (wire_obj leaf_ok m)
    (λ o, match m with O => False | S m => wire_obj leaf_ok m o end) (f, x))).
  - destruct x; try (by apply safe_ret). eapply safe_bind.
    + apply safe_lift. intros o' Ho'. exact (typed_applied _ _ _ _ Hx Ho').
    + intros o' Ho'. by apply safe_ret.
  - intros y Hy. eapply safe_bind; [exact IH|]. intros [r l] Hl'. apply safe_ret. by constructor.
Qed.

Lemma wire_value_plain L obj elem y :
  wire_value L obj elem y → absent y.2 = false ∧ 0 < fieldValue y.1 < 256.
Proof.
  intros ((_ & _ & Ht & Hv & _) & Hs & _). split; [|done]. destruct y as [f []]; try done.
  simpl in *. unfold STI_NOTPRESENT in Hs. lia.
Qed.

Lemma safe_read_object n : safe (read_object n) (λ r, typed n r.2).
Proof.
  induction n as [n IH] using lt_wf_ind. rewrite read_object_eq. eapply safe_bind.
  { apply (safe_dep (λ it, read_fields (var_at n) (remain_ it))). intros it. apply safe_read_fields.
    intros f Hf. destruct n as [|m]; [apply safe_throw|].
    eapply safe_weaken; [|apply (safe_read_var m f Hf)].
    - intros x Hx. by exists m.
    - apply IH. lia.
    - intros m' ->. apply IH. lia. }
  intros [r l] Hl. cbn [snd] in Hl. destruct (adjacent_dup _) eqn:Hd; [apply safe_throw|].
  apply safe_ret. cbn [snd v_].
  assert (Hp : plain l).
  { unfold plain. eapply Forall_impl; [exact Hl|]. intros y Hy. destruct n; [done|].
    by eapply wire_value_plain. }
  assert (Hg : getSortedFields (mkObject None l) true = sort_fields l).
  { unfold getSortedFields. by rewrite plain_included. }
  unfold withAllFields in Hd. rewrite Hg in Hd. apply adjacent_dup_nodup in Hd; [|apply sort_fields_sorted].
  assert (Hnd : NoDup (codes l)) by (by rewrite (fmap_Permutation _ _ _ (sort_fields_perm l)) in Hd).
  split_and!; [done|done|]. destruct n; simpl; rewrite Hg; (split; [done|]);
    by rewrite (sort_fields_perm l).
Qed.

(** ** Writing the canonical form *)

Lemma getSType_canon f x : getSType (canon_field f (canon_var x)) = getSType x.
Proof. by destruct x. Qed.

Lemma absent_canon f x : absent (canon_field f (canon_var x)) = absent x.
Proof. by destruct x. Qed.

Lemma plain_sorted n L o : wire_obj L n o → plain (getSortedFields o true).
Proof.
  intros Ho. destruct n as [|n]; destruct Ho as [_ Ho]; (eapply Forall_impl; [exact Ho|]); [done|].
  intros y Hy. by eapply wire_value_plain.
Qed.

Lemma getSortedFields_canon n L o :
  wire_obj L n o → getSortedFields (canon_obj o) true = v_ (canon_obj o).
Proof.
  intros Ho. pose proof (plain_sorted _ _ _ Ho) as Hp. rewrite canon_obj_eq.
  unfold getSortedFields at 1. simpl. rewrite plain_included.
  - rewrite sort_fields_fmap by done. f_equal. unfold getSortedFields. apply sort_fields_id.
    pose proof (wire_obj_nodup _ _ _ Ho) as Hnd. unfold getSortedFields in Hnd.
    by rewrite (fmap_Permutation _ _ _ (sort_fields_perm _)) in Hnd.
  - unfold plain. apply Forall_fmap. eapply Forall_impl; [exact Hp|]. intros y Hy. simpl.
    by rewrite absent_canon.
Qed.

(** The template that reading applies does not change what is written. *)
Lemma add_canon_in L n f o s :
  wire_obj L n o → conforms f o → add_object (canon_in f (canon_obj o)) s = add_object (canon_obj o) s.
Proof.
  intros Ho Hc%conforms_canon. unfold applyTemplateFromSField in Hc.
  destruct (findSOTemplateBySField f) as [t|] eqn:Ht; [|by injection Hc as <-].
  rewrite !add_object_eq, !st_add_eq. do 2 f_equal.
  pose proof (getSortedFields_canon _ _ _ Ho) as Hg.
  apply (applyTemplate_fields _ _ _ Hc).
  - rewrite canon_obj_eq. unfold plain. simpl. apply Forall_fmap.
    eapply Forall_impl; [by eapply plain_sorted|]. intros y Hy. simpl. by rewrite absent_canon.
  - rewrite codes_canon. by eapply wire_obj_nodup.
Qed.

Lemma add_pieces_ext (g h : SField * STVar → SField * (STVar * (Serializer → outcome Serializer))) l s :
  Forall (λ y, (g y).1 = (h y).1 ∧ getSType (g y).2.1 = getSType (h y).2.1 ∧
    ∀ s, (g y).2.2 s = (h y).2.2 s) l →
  add_pieces (g <$> l) s = add_pieces (h <$> l) s.
Proof.
  intros Hl. revert s. induction Hl as [|y l (H1 & H2 & H3) _ IH]; intros s; [done|].
  cbn [fmap list_fmap add_pieces]. destruct (g y) as [f [x a]], (h y) as [f' [x' a']]. simpl in *.
  subst f'. rewrite H3, H2. destruct (a' _) as [s'|]; [|done]. simpl. apply IH.
Qed.

Lemma add_elements_ext (g h : SField * STObject → SField * (Serializer → outcome Serializer)) l s :
  Forall (λ y, (g y).1 = (h y).1 ∧ ∀ s, (g y).2 s = (h y).2 s) l →
  add_elements (map g l) s = add_elements (map h l) s.
Proof.
  intros Hl. revert s. induction Hl as [|y l (H1 & H2) _ IH]; intros s; [done|].
  cbn [map add_elements]. destruct (g y) as [f a], (h y) as [f' a']. simpl in *.
  subst f'. rewrite H2. destruct (a' _) as [s'|]; [|done]. simpl. apply IH.
Qed.

Lemma add_canon L n o s : wire_obj L n o → add_object (canon_obj o) s = add_object o s.
Proof.
  revert o s. induction n as [n IH] using lt_wf_ind. intros o s Ho.
  rewrite !add_object_eq, !st_add_eq, (getSortedFields_canon _ _ _ Ho).
  rewrite canon_obj_eq. simpl. rewrite <- list_fmap_compose. apply add_pieces_ext.
  destruct n as [|n]; destruct Ho as [_ Ho]; (eapply Forall_impl; [exact Ho|]); [done|].
  intros [f x] (Hf & Ht & HL & Hx). simpl in *. split_and!; [done|apply getSType_canon|].
  destruct x as [| | | | | | | | | | | | | o' | v]; try done; intros s'; cbn [canon_var canon_field add_var].
  - destruct Hx as [Hc Hx]. rewrite (add_canon_in _ _ _ _ _ Hx Hc). apply (IH n); [lia|done].
  - rewrite map_map. apply add_elements_ext. eapply Forall_impl; [exact Hx|].
    intros [g o'] (_ & _ & Hc & Hx'). simpl. split; [done|]. intros s''. destruct n as [|n]; [done|].
    rewrite (add_canon_in _ _ _ _ _ Hx' Hc). apply (IH n); [lia|done].
Qed.

Lemma wire_obj_and L1 L2 n o :
  wire_obj L1 n o → wire_obj L2 n o → wire_obj (λ x, L1 x ∧ L2 x) n o.
Proof.
  revert o. induction n as [n IH] using lt_wf_ind. intros o H1 H2.
  destruct n as [|n]; destruct H1 as [Hnd H1], H2 as [_ H2]; (split; [done|]).
  { done. }
  rewrite Forall_forall in H1, H2 |- *. intros y Hy.
  destruct (H1 y Hy) as (Hf & Ht & HL1 & Hx1), (H2 y Hy) as (_ & _ & HL2 & Hx2).
  split_and!; try done. destruct y as [f x]. simpl in *. destruct x; try done.
  - destruct Hx1, Hx2. split; [done|]. apply IH; [lia|done..].
  - rewrite Forall_forall in Hx1, Hx2 |- *. intros z Hz.
    destruct (Hx1 z Hz) as (?&?&?&Hz1), (Hx2 z Hz) as (_&_&_&Hz2). split_and!; try done.
    destruct n as [|n]; [done|]. apply IH; [lia|done..].
Qed.

Lemma safe_object n : safe ('(_, o) ← read_object n; mret o) (wire_obj leaf_ok n).
Proof. eapply safe_bind; [apply safe_read_object|]. intros [r o] (_ & _ & Ho). by apply safe_ret. Qed.

Lemma safe_st_read : safe st_read (wire_obj leaf_ok 10).
Proof. exact (safe_object 10). Qed.

(** C37: reading is typed: whatever bytes the reader accepts, every field of the object,
    at every level, is a field of the protocol that occurs once, holds a value of the
    class its name says and within its range, and inner objects fit their templates. *)
Theorem STObject_typed (it it' : SerialIter) (o : STObject)
    (Hok : it_ok it) (E : st_read it = Ret (o, it')) :
  wire_obj leaf_ok 10 o ∧ it_ok it' ∧ buf it' = buf it.
Proof.
  destruct (safe_st_read _ _ _ Hok E) as (H1 & H2 & _ & H3). exact (conj H3 (conj H1 H2)).
Qed.

(** one canonical encoding: an object that was read, if all its values have an encoding,
    is written to bytes from which its canonical form is read, and the canonical form is
    written to the same bytes, so that its hash does not depend on how it was received. *)
Theorem STObject_canonical (it it' : SerialIter) (o : STObject)
    (Hok : it_ok it) (E : st_read it = Ret (o, it')) (He : wire_obj encodable 10 o) :
  ∃ bs, getSerializer o = Ret bs ∧ getSerializer (canon_obj o) = Ret bs ∧
    (Z.of_nat (length bs) < 2 ^ 63 →
     st_read (iter_of bs) = Ret (canon_obj o, advance (length bs) (iter_of bs))).
Proof.
  destruct (safe_st_read _ _ _ Hok E) as (_ & _ & _ & Ho). pose proof (wire_obj_and _ _ _ _ Ho He) as Hw.
  destruct (object_roundtrip 10 o Hw) as (bs & Hbs & _). exists bs. unfold getSerializer.
  rewrite <- !add_object_eq, (add_canon _ _ _ _ Hw), Hbs. split_and!; try done.
  intros Hl. apply st_read_written; [done| |done]. unfold getSerializer. by rewrite <- add_object_eq.
Qed.

(** ** Witnesses *)

Definition small_payment : STObject :=
  mkObject None
    [(sfAmount, Amount (mkAmount xrpIssue 1000000 0 true false)); (sfSequence, UInt32 7);
     (sfTxnSignature, Blob [1; 2; 3]); (sfAccount, Account 12345 false);
     (sfMemos, Array [(sfMemo, mkObject None [(sfMemoData, Blob [9; 9])])])].

(** A closed decidable fact. *)
Ltac computed := refine (@bool_decide_unpack _ _ _); vm_compute; exact I.

Lemma memo_wire : wire_obj sendable 8 (mkObject None [(sfMemoData, Blob [9; 9])]).
Proof.
  split; [computed|].
  change (getSortedFields _ true) with [(sfMemoData, Blob [9; 9])].
  apply Forall_cons_2; [|constructor].
  split_and!; [split_and!; computed|computed|repeat constructor; unfold is_byte; lia|simpl; lia|done].
Qed.

Lemma small_payment_wire : wire_obj sendable 10 small_payment.
Proof.
  split; [computed|].
  change (getSortedFields small_payment true) with
    [(sfSequence, UInt32 7); (sfAmount, Amount (mkAmount xrpIssue 1000000 0 true false));
     (sfTxnSignature, Blob [1; 2; 3]); (sfAccount, Account 12345 false);
     (sfMemos, Array [(sfMemo, mkObject None [(sfMemoData, Blob [9; 9])])])].
  repeat apply Forall_cons_2; [..|constructor]; (split; [split_and!; computed|]); (split; [computed|]);
    cbn [snd leaf_ok encodable].
  - unfold below. auto with lia.
  - split; [|done]. split; [|done]. split; [|done]. vm_compute. intuition congruence.
  - split; [|done]. split; [|simpl; lia]. repeat constructor; unfold is_byte; lia.
  - split; [|done]. split; [|done]. split; [unfold below; lia|done].
  - split; [done|]. apply Forall_cons_2; [|constructor].
    split_and!; [computed..|vm_compute; reflexivity|apply memo_wire].
Qed.

Lemma STObject_roundtrip_witness :
  ∃ bs, getSerializer small_payment = Ret bs ∧
    (Z.of_nat (length bs) < 2 ^ 63 → Forall is_byte bs ∧
     st_read (iter_of bs) = Ret (canon_obj small_payment, advance (length bs) (iter_of bs))).
Proof. exact (STObject_roundtrip small_payment small_payment_wire). Defined.

Lemma signing_injective_witness :
  ∃ bs, addWithoutSigningFields small_payment [] = Ret bs ∧
    canon_obj (signing_part small_payment) = canon_obj (signing_part (canon_obj small_payment)).
Proof.
  eexists. split; [vm_compute; reflexivity|].
  eapply (signing_injective small_payment (canon_obj small_payment));
    [apply small_payment_wire| |vm_compute; reflexivity|vm_compute; reflexivity|vm_compute; reflexivity].
  apply (wire_obj_fields _ _ small_payment); [vm_compute; reflexivity|apply small_payment_wire].
Defined.

Definition sequence_only : STObject := mkObject None [(sfSequence, UInt32 7)].

Lemma STObject_typed_witness :
  ∃ o it', st_read (iter_of [36; 0; 0; 0; 7]) = Ret (o, it') ∧ wire_obj leaf_ok 10 o.
Proof.
  eexists sequence_only, _. split; [vm_compute; reflexivity|].
  eapply (STObject_typed (iter_of [36; 0; 0; 0; 7])); [|vm_compute; reflexivity].
  split_and!; [repeat constructor; unfold is_byte; lia|done..].
Defined.

Lemma STObject_canonical_witness :
  ∃ bs, getSerializer sequence_only = Ret bs ∧ getSerializer (canon_obj sequence_only) = Ret bs ∧
    (Z.of_nat (length bs) < 2 ^ 63 →
     st_read (iter_of bs) = Ret (canon_obj sequence_only, advance (length bs) (iter_of bs))).
Proof.
  eapply (STObject_canonical (iter_of [36; 0; 0; 0; 7])); [|vm_compute; reflexivity|].
  - split_and!; [repeat constructor; unfold is_byte; lia|done..].
  - split; [computed|]. apply Forall_cons_2; [|constructor]. split_and!; try done; split_and!; computed.
Defined.

(** ** A path set that is read but cannot be written *)

(** a path element may say that it has an account and give the account of XRP.  The
    element read has no type, so that it is written as the end of the paths: the object is
    accepted, but what it is written to is rejected. *)
Theorem path_element_without_type :
  let bytes := field_bytes STI_PATHSET 1 ++ [typeAccount] ++ replicate 20 0 ++ [typeNone] in
  ∃ o it' bs, st_read (iter_of bytes) = Ret (o, it') ∧ getSerializer o = Ret bs ∧
    length bs ≠ length bytes ∧ st_read (iter_of bs) = Throw (runtime_error "empty path").
Proof.
  intros bytes. exists (mkObject None [(sfPaths, PathSet [[path_element 0 0 0 false]])]).
  exists (advance (length bytes) (iter_of bytes)), (field_bytes STI_PATHSET 1 ++ [typeNone; typeNone]).
  split_and!; [vm_compute; reflexivity..|done|vm_compute; reflexivity].
Qed.
