(* ===== verification/STObjectLaws.v ===== *)
(** * Objects as maps from fields to values

    An object whose fields match its template behaves as a finite map from field
    codes to values: [obj_map].  Reading a field is a lookup, setting one an
    insertion that keeps the object well formed; which fields exist is fixed by
    the template.  These are the laws the ledger code relies on when it reads and
    changes ledger entries. *)

From stdpp Require Import base numbers list gmap strings.
From Stdlib Require Import Lia ZArith.
From S2P Require Import Prelude Serializer STAmount StateTable SField STObject STObjectWire.

Local Open Scope Z_scope.

(** ** Positions *)

Lemma find_index_code {A} (code : A → Z) c l :
  find_index (λ x, code x =? c) l = None ∧ c ∉ (code <$> l) ∨
  ∃ i, find_index (λ x, code x =? c) l = Some i ∧ (code <$> l) !! i = Some c.
Proof.
  induction l as [|x l IH]; simpl; [left; split; [done|apply not_elem_of_nil]|].
  destruct (Z.eqb_spec (code x) c) as [Heq|Hne]; [right; exists 0%nat; simpl; by rewrite Heq|].
  destruct IH as [[-> Hn]|(i & -> & Hi)]; [left; rewrite not_elem_of_cons; auto|right; by exists (S i)].
Qed.

(** The code of a field tells its type, and the type is one that values have. *)
Definition coded (f : SField) : bool := (fieldCode f ≫ 16 =? fieldType f) && extensible (fieldType f).

Lemma coded_type f g :
  coded f = true → coded g = true → fieldCode f = fieldCode g → fieldType f = fieldType g.
Proof.
  unfold coded. intros [Hf%Z.eqb_eq _]%andb_true_iff [Hg%Z.eqb_eq _]%andb_true_iff Heq. congruence.
Qed.

(** An object in which every field has a name of its own and a value of its class, and whose
    fields are those of its template. *)
Definition obj_ok (o : STObject) : Prop :=
  NoDup (codes (v_ o)) ∧ (∀ t, mType o = Some t → codes (v_ o) = tcodes t) ∧
  Forall (λ y, coded y.1 = true ∧ (absent y.2 = true ∨ getSType y.2 = fieldType y.1)) (v_ o).

Definition obj_map (o : STObject) : gmap Z STVar :=
  list_to_map ((λ y, (fieldCode y.1, y.2)) <$> v_ o).

Lemma obj_map_lookup o i f x :
  obj_ok o → v_ o !! i = Some (f, x) → obj_map o !! fieldCode f = Some x.
Proof.
  intros (Hnd & _) Hi. apply elem_of_list_to_map_1.
  - by rewrite <- list_fmap_compose.
  - apply list_elem_of_fmap. exists (f, x). split; [done|]. by eapply list_elem_of_lookup_2.
Qed.

Lemma obj_map_None o c : obj_map o !! c = None ↔ c ∉ codes (v_ o).
Proof.
  unfold obj_map. rewrite <- not_elem_of_list_to_map, <- list_fmap_compose. done.
Qed.

(** The position of a field. *)
Lemma getFieldIndex_spec o f :
  obj_ok o →
  match getFieldIndex o f with
  | Some i => ∃ g x, v_ o !! i = Some (g, x) ∧ fieldCode g = fieldCode f
  | None => fieldCode f ∉ codes (v_ o)
  end.
Proof.
  intros (_ & Ht & _).
  assert (Hlook : ∀ i, codes (v_ o) !! i = Some (fieldCode f) →
    ∃ g x, v_ o !! i = Some (g, x) ∧ fieldCode g = fieldCode f).
  { intros i Hi. rewrite list_lookup_fmap in Hi. destruct (v_ o !! i) as [[g x]|] eqn:E; [|done].
    injection Hi as Hi. eauto. }
  unfold getFieldIndex, getIndex, same_field. destruct (mType o) as [t|].
  - rewrite (Ht t eq_refl) in Hlook |- *.
    destruct (find_index_code (λ e, fieldCode (e_field e)) (fieldCode f) t) as [[-> ?]|(i & -> & Hi)]; eauto.
  - destruct (find_index_code (λ y, fieldCode y.1) (fieldCode f) (v_ o)) as [[-> ?]|(i & -> & Hi)]; eauto.
Qed.

Lemma peek_map o f : obj_ok o → peekAtPField o f = obj_map o !! fieldCode f.
Proof.
  intros Ho. unfold peekAtPField. pose proof (getFieldIndex_spec o f Ho) as H.
  destruct (getFieldIndex o f) as [i|]; simpl.
  - destruct H as (g & x & Hi & <-). rewrite Hi. simpl. symmetry. by eapply obj_map_lookup.
  - symmetry. by apply obj_map_None.
Qed.

Lemma codes_alter x i (v : list (SField * STVar)) : codes (alter (λ y, (y.1, x)) i v) = codes v.
Proof.
  apply list_eq. intros j. rewrite !list_lookup_fmap, list_lookup_alter.
  destruct (decide (i = j)) as [->|]; by destruct (v !! j).
Qed.

(** Replacing a value. *)
Lemma put_at_spec o i f g y x :
  obj_ok o → v_ o !! i = Some (g, y) → fieldCode g = fieldCode f →
  absent x = true ∨ getSType x = fieldType g →
  obj_ok (put_at i x o) ∧ mType (put_at i x o) = mType o ∧
  v_ (put_at i x o) !! i = Some (g, x) ∧
  obj_map (put_at i x o) = <[fieldCode f := x]> (obj_map o).
Proof.
  intros Ho Hi Hg Hx. pose proof Ho as (Hnd & Ht & Hall).
  assert (Hnew : v_ (put_at i x o) !! i = Some (g, x)).
  { unfold put_at. simpl. rewrite list_lookup_alter, decide_True by done. by rewrite Hi. }
  assert (Hok : obj_ok (put_at i x o)).
  { unfold obj_ok, put_at. simpl. rewrite codes_alter. split_and!; [done|done|].
    apply Forall_alter; [done|]. intros z Hz. rewrite Hi in Hz. injection Hz as <-.
    intros [Hc _]. by simpl. }
  split_and!; [done|done|done|]. apply map_eq. intros c.
  destruct (decide (c = fieldCode f)) as [->|Hc].
  - rewrite lookup_insert_eq, <- Hg. by eapply obj_map_lookup.
  - rewrite lookup_insert_ne by done. destruct (obj_map o !! c) as [z|] eqn:Hz.
    + apply elem_of_list_to_map_2, list_elem_of_fmap in Hz as ([h w] & [= -> ->] & Hin).
      apply list_elem_of_lookup in Hin as [j Hj]. simpl in *.
      apply (obj_map_lookup (put_at i x o) j h w Hok). unfold put_at. simpl.
      rewrite list_lookup_alter, decide_False; [done|]. intros <-. rewrite Hi in Hj. naive_solver.
    + apply obj_map_None in Hz. apply obj_map_None. unfold put_at. simpl. by rewrite codes_alter.
Qed.

(** Adding a field to a free object. *)
Lemma push_field_spec o f x :
  obj_ok o → mType o = None → fieldCode f ∉ codes (v_ o) → coded f = true →
  absent x = true ∨ getSType x = fieldType f →
  obj_ok (push_field f x o) ∧ mType (push_field f x o) = None ∧
  v_ (push_field f x o) !! length (v_ o) = Some (f, x) ∧
  obj_map (push_field f x o) = <[fieldCode f := x]> (obj_map o).
Proof.
  intros (Hnd & Ht & Hall) Hm Hf Hc Hx. unfold push_field, obj_ok, obj_map. simpl.
  rewrite list_lookup_middle by done. split_and!; [| |..|done|].
  - rewrite fmap_app. apply NoDup_app. split_and!; [done| |apply NoDup_singleton].
    intros c Hin Hin2. apply list_elem_of_singleton in Hin2 as ->. done.
  - intros t. by rewrite Hm.
  - apply Forall_app. split; [done|]. by apply Forall_singleton.
  - done.
  - rewrite fmap_app, list_to_map_app. simpl. rewrite insert_empty, <- insert_union_singleton_r; [done|].
    by apply obj_map_None.
Qed.

(** ** Classes of values *)

Class LawfulClass {V} (T : STClass V) : Prop := {
  c_make_value v : c_value T (c_make T v) = Some v;
  c_make_type v : getSType (c_make T v) = c_type T;
  c_value_type x : getSType x = c_type T ↔ is_Some (c_value T x);
  c_extensible : extensible (c_type T) = true }.

Ltac lawful :=
  constructor; [done|done| |done]; intros x; split;
  [destruct x; intros Hx; try (eexists; reflexivity); vm_compute in Hx; done
  |destruct x; simpl; intros []; done].

#[export] Instance U8_lawful : LawfulClass U8.
Proof. lawful. Qed.
#[export] Instance U16_lawful : LawfulClass U16.
Proof. lawful. Qed.
#[export] Instance U32_lawful : LawfulClass U32.
Proof. lawful. Qed.
#[export] Instance U64_lawful : LawfulClass U64.
Proof. lawful. Qed.
#[export] Instance H128_lawful : LawfulClass H128.
Proof. lawful. Qed.
#[export] Instance H160_lawful : LawfulClass H160.
Proof. lawful. Qed.
#[export] Instance H256_lawful : LawfulClass H256.
Proof. lawful. Qed.
#[export] Instance AccountID_lawful : LawfulClass AccountID.
Proof. lawful. Qed.
#[export] Instance VL_lawful : LawfulClass VL.
Proof. lawful. Qed.
#[export] Instance AmountC_lawful : LawfulClass AmountC.
Proof. lawful. Qed.
#[export] Instance V256_lawful : LawfulClass V256.
Proof. lawful. Qed.
#[export] Instance Paths_lawful : LawfulClass Paths.
Proof. lawful. Qed.
#[export] Instance ArrayC_lawful : LawfulClass ArrayC.
Proof. lawful. Qed.

Lemma defaultObject_type f :
  extensible (fieldType f) = true → ∃ x, defaultObject f = Ret x ∧ getSType x = fieldType f.
Proof.
  unfold extensible, defaultObject. generalize (fieldType f) as t. intros t He%bool_decide_eq_true.
  repeat (apply elem_of_cons in He as [->|He]; [eexists; split; [reflexivity|done]|]).
  by apply elem_of_nil in He.
Qed.

Lemma lawful_present {V} (T : STClass V) `{!LawfulClass T} x v :
  c_value T x = Some v → absent x = false.
Proof.
  intros Hv. destruct x; try done. pose proof (proj2 (c_value_type NotPresent) (mk_is_Some _ _ Hv)) as Ht.
  pose proof (c_extensible (T:=T)) as He. rewrite <- Ht in He. by vm_compute in He.
Qed.

(** ** Reading and setting fields *)

Section Access.
Context {V : Type} (T : STClass V) `{!LawfulClass T}.

(** Reading a field is a lookup: a field the object does not have is an error, one that
    is not present reads as the default of its class, and a value of another class
    is an error. *)
Lemma getFieldBy_map o f :
  obj_ok o →
  getFieldBy T o f =
    match obj_map o !! fieldCode f with
    | None => Throw (runtime_error "Field not found")
    | Some NotPresent => Ret (c_zero T)
    | Some x => match c_value T x with
                | Some v => Ret v
                | None => Throw (runtime_error "Wrong field type")
                end
    end.
Proof. intros Ho. unfold getFieldBy. by rewrite peek_map. Qed.

Lemma getFieldBy_typed o f :
  obj_ok o → coded f = true → fieldType f = c_type T → is_Some (obj_map o !! fieldCode f) →
  ∃ v, getFieldBy T o f = Ret v.
Proof using LawfulClass0.
  intros Ho Hc Ht [x Hx]. rewrite getFieldBy_map, Hx by done.
  destruct (absent x) eqn:Ha; [destruct x; eauto; done|].
  assert (Hst : getSType x = c_type T).
  { apply elem_of_list_to_map_2, list_elem_of_fmap in Hx as ([g y] & [= Hg ->] & Hin).
    destruct Ho as (_ & _ & Hall). rewrite Forall_forall in Hall.
    destruct (Hall _ Hin) as [Hcg [?|Hs]]; simpl in *; [congruence|].
    rewrite Hs, <- Ht. apply coded_type; congruence. }
  apply c_value_type in Hst as [v Hv]. rewrite Hv. exists v. by destruct x.
Qed.

Lemma assign_at_map o i f g x v :
  obj_ok o → v_ o !! i = Some (g, x) → fieldCode g = fieldCode f → coded f = true →
  fieldType f = c_type T → getSType x = fieldType f →
  ∃ o', assign_at T v i o = Ret o' ∧ obj_ok o' ∧ mType o' = mType o ∧
    obj_map o' = <[fieldCode f := c_make T v]> (obj_map o).
Proof using LawfulClass0.
  intros Ho Hl Hg Hc Ht Hx. unfold assign_at. rewrite Hl. rewrite Ht in Hx.
  apply c_value_type in Hx as [w ->]. eexists. split; [reflexivity|].
  destruct (put_at_spec o i f g x (c_make T v) Ho Hl Hg) as (? & ? & _ & ?); [|done].
  right. rewrite c_make_type, <- Ht. apply coded_type; [done| |done].
  destruct Ho as (_ & _ & Hall). rewrite Forall_forall in Hall.
  apply (Hall (g, x)). by eapply list_elem_of_lookup_2.
Qed.

(** The value of a field that is there: made present if it is not. *)
Lemma set_there o i f v :
  obj_ok o → coded f = true → fieldType f = c_type T → getFieldIndex o f = Some i →
  ∃ o', setFieldUsing T f v o = Ret o' ∧ obj_ok o' ∧ mType o' = mType o ∧
    obj_map o' = <[fieldCode f := c_make T v]> (obj_map o).
Proof using LawfulClass0.
  intros Ho Hc Ht Hgi. unfold setFieldUsing, getPField. rewrite Hgi. cbn [mbind outcome_bind].
  pose proof (getFieldIndex_spec o f Ho) as Hi. rewrite Hgi in Hi. destruct Hi as (g & x & Hl & Hg).
  pose proof Ho as (_ & _ & Hall). rewrite Forall_forall in Hall.
  destruct (Hall (g, x)) as [Hcg Hx]; [by eapply list_elem_of_lookup_2|]. cbn [fst snd] in *.
  assert (Hft : fieldType g = fieldType f) by (by apply coded_type).
  rewrite Hl. destruct (absent x) eqn:Ha.
  - destruct x; try done. unfold makeFieldPresent. rewrite Hgi, Hl.
    destruct (defaultObject_type g) as (y & -> & Hy); [by rewrite Hft, Ht; apply c_extensible|].
    cbn [mbind outcome_bind].
    destruct (put_at_spec o i f g NotPresent y Ho Hl Hg) as (Ho1 & Hm1 & Hl1 & Hmap1); [auto|].
    destruct (assign_at_map _ i f g y v Ho1 Hl1 Hg Hc Ht) as (o' & -> & Ho' & Hm' & Hmap'); [congruence|].
    exists o'. split_and!; [done|done|congruence|]. by rewrite Hmap', Hmap1, insert_insert_eq.
  - destruct Hx as [?|Hx]; [congruence|]. rewrite Hft in Hx.
    destruct (assign_at_map o i f g x v Ho Hl Hg Hc Ht Hx) as (o' & Ho' & H').
    exists o'. split; [|done]. by destruct x.
Qed.

Lemma set_new o f v :
  obj_ok o → coded f = true → fieldType f = c_type T → getFieldIndex o f = None → mType o = None →
  ∃ o', setFieldUsing T f v o = Ret o' ∧ obj_ok o' ∧ mType o' = mType o ∧
    obj_map o' = <[fieldCode f := c_make T v]> (obj_map o).
Proof using LawfulClass0.
  intros Ho Hc Ht Hgi Hm. unfold setFieldUsing, getPField, isFree. rewrite Hgi, Hm.
  pose proof (getFieldIndex_spec o f Ho) as Hi. rewrite Hgi in Hi.
  destruct (defaultObject_type f) as (y & -> & Hy); [by rewrite Ht; apply c_extensible|].
  cbn [mbind outcome_bind].
  destruct (push_field_spec o f y Ho Hm Hi Hc) as (Ho1 & Hm1 & Hl1 & Hmap1); [auto|]. rewrite Hl1.
  destruct (assign_at_map _ _ f f y v Ho1 Hl1 eq_refl Hc Ht Hy) as (o' & Ha & Ho' & Hm' & Hmap').
  exists o'. split_and!; [|done|congruence|by rewrite Hmap', Hmap1, insert_insert_eq].
  destruct y; try done. pose proof (c_extensible (T:=T)) as He. rewrite <- Ht, <- Hy in He.
  by vm_compute in He.
Qed.

Lemma setFieldUsing_map o f v :
  obj_ok o → coded f = true → fieldType f = c_type T →
  mType o = None ∨ is_Some (obj_map o !! fieldCode f) →
  ∃ o', setFieldUsing T f v o = Ret o' ∧ obj_ok o' ∧ mType o' = mType o ∧
    obj_map o' = <[fieldCode f := c_make T v]> (obj_map o).
Proof using LawfulClass0.
  intros Ho Hc Ht Hex. destruct (getFieldIndex o f) as [i|] eqn:Hgi; [by eapply set_there|].
  destruct Hex as [Hm|[? Hs]]; [by apply set_new|].
  pose proof (getFieldIndex_spec o f Ho) as Hi. rewrite Hgi in Hi.
  apply obj_map_None in Hi. by rewrite Hi in Hs.
Qed.

Lemma setFieldUsing_missing o f v :
  obj_ok o → mType o ≠ None → obj_map o !! fieldCode f = None →
  setFieldUsing T f v o = Throw (runtime_error "Field not found").
Proof.
  intros Ho Hm Hs. unfold setFieldUsing, getPField, isFree.
  pose proof (getFieldIndex_spec o f Ho) as Hi. destruct (getFieldIndex o f) as [i|].
  - destruct Hi as (g & x & Hl & Hg). pose proof (obj_map_lookup o i g x Ho Hl). congruence.
  - by destruct (mType o).
Qed.
End Access.

(** an object is a map from fields to values: reading a field is a lookup, where a field
    that is not present reads as the default of its class, and setting a field the object
    can have never fails, keeps the object well formed and changes that field only; a field
    that is not in the template cannot be set. *)
Theorem object_fields {V} (T : STClass V) `{!LawfulClass T} (o : STObject) (f : SField) (v : V)
    (Ho : obj_ok o) (Hc : coded f = true) (Ht : fieldType f = c_type T) :
  (∀ x, obj_map o !! fieldCode f = Some x →
    getFieldBy T o f = Ret (if absent x then c_zero T else default (c_zero T) (c_value T x))) ∧
  (mType o = None ∨ is_Some (obj_map o !! fieldCode f) →
    ∃ o', setFieldUsing T f v o = Ret o' ∧ obj_ok o' ∧ mType o' = mType o ∧
      obj_map o' = <[fieldCode f := c_make T v]> (obj_map o) ∧ getFieldBy T o' f = Ret v) ∧
  (obj_map o !! fieldCode f = None →
    getFieldBy T o f = Throw (runtime_error "Field not found") ∧
    (mType o ≠ None → setFieldUsing T f v o = Throw (runtime_error "Field not found"))).
Proof.
  split_and!.
  - intros x Hx. destruct (getFieldBy_typed T o f Ho Hc Ht) as [w Hw]; [eauto|].
    rewrite Hw. rewrite getFieldBy_map, Hx in Hw by done.
    destruct x; simpl in *; repeat case_match; try done; by injection Hw as ->.
  - intros Hex. destruct (setFieldUsing_map T o f v Ho Hc Ht Hex) as (o' & Hs & Ho' & Hm & Hmap).
    exists o'. split_and!; try done. rewrite getFieldBy_map, Hmap, lookup_insert_eq by done.
    pose proof (lawful_present T _ _ (c_make_value v)) as Ha. rewrite c_make_value.
    by destruct (c_make T v).
  - intros Hx. split; [by rewrite getFieldBy_map, Hx|]. intros Hm. by apply setFieldUsing_missing.
Qed.

(** ** Objects with templates *)

(** The object is laid out as the template says: the required fields are present, and those
    of default style are absent if they have their default; inner objects are in
    canonical form. *)
Definition laid_out (e : SOElement) (y : SField * STVar) : Prop :=
  y.1 = e_field e ∧ canon_field y.1 (canon_var y.2) = y.2 ∧
  (flags e = SOE_REQUIRED → absent y.2 = false) ∧
  (flags e = SOE_DEFAULT → absent y.2 = true ∨ isDefault y.2 = false).

Lemma extract_in f v x r :
  NoDup (codes v) → v ≡ₚ x :: r → fieldCode x.1 = fieldCode f →
  ∃ r', extract f v = Some (x, r') ∧ r' ≡ₚ r.
Proof.
  intros Hnd Hp Hx. pose proof (extract_spec f v) as He.
  assert (Hin : x ∈ v) by (rewrite Hp; by left).
  destruct (extract f v) as [[y r']|].
  - destruct He as [Hp' Hy].
    assert (y = x) as ->. { apply (codes_inj v); [done| |done|congruence]. rewrite Hp'. by left. }
    exists r'. split; [done|]. rewrite Hp' in Hp. by apply Permutation_cons_inv in Hp.
  - exfalso. apply He. rewrite <- Hx. by apply (list_elem_of_fmap_2 (λ y, fieldCode y.1)).
Qed.

Lemma match_template_laid_out t v w :
  Forall2 laid_out t v → NoDup (codes v) → w ≡ₚ filter (λ y, absent y.2 = false) v →
  match_template t w = Ret (v, []).
Proof.
  intros Hv. revert w. induction Hv as [|e [f x] t v (Hf & _ & Hreq & Hdef) _ IH]; intros w Hnd Hw.
  { apply Permutation_nil_r in Hw as ->. done. }
  cbn [fst snd fmap list_fmap] in *. subst f. apply NoDup_cons in Hnd as [Hn Hnd].
  assert (Hsub : ∀ c, c ∈ codes (filter (λ y, absent y.2 = false) v) → c ∈ codes v).
  { intros c (y & -> & [_ Hy]%list_elem_of_filter)%list_elem_of_fmap.
    by apply (list_elem_of_fmap_2 (λ y, fieldCode y.1)). }
  cbn [match_template]. destruct (absent x) eqn:Ha.
  - rewrite filter_cons_False in Hw by (simpl; congruence).
    pose proof (extract_spec (e_field e) w) as He. destruct (extract (e_field e) w) as [[y r]|].
    { exfalso. destruct He as [He Hy]. apply Hn, Hsub. rewrite <- Hw, He, <- Hy. by left. }
    rewrite bool_decide_false by (intros Hr; specialize (Hreq Hr); congruence).
    rewrite (IH w Hnd Hw). destruct x; done.
  - rewrite filter_cons_True in Hw by done.
    destruct (extract_in (e_field e) w (e_field e, x) (filter (λ y, absent y.2 = false) v))
      as (r & -> & Hr); [|done|done|].
    { rewrite Hw. cbn [fmap list_fmap]. apply NoDup_cons. split; [intros Hin; by apply Hn, Hsub|].
      eapply sublist_NoDup; [exact Hnd|]. apply fmap_sublist, sublist_filter. }
    cbn [fst snd]. rewrite (IH r Hnd Hr).
    destruct (bool_decide_reflect (flags e = SOE_DEFAULT)) as [Hd|]; [|done].
    destruct (Hdef Hd) as [?| ->]; [congruence|done].
Qed.

(** The fields that are written are those present. *)
Lemma sorted_present o :
  Forall (λ y, fieldValue y.1 < 256) (v_ o) →
  getSortedFields o true = sort_fields (filter (λ y, absent y.2 = false) (v_ o)).
Proof.
  intros Hv. unfold getSortedFields. f_equal. induction Hv as [|y v Hy _ IH]; [done|].
  rewrite !filter_cons, IH. unfold shouldInclude. rewrite (proj2 (Z.ltb_lt _ _)) by done.
  destruct (decide _), (decide (absent y.2 = false)) as [E|E]; try done;
    destruct (absent y.2); simpl in *; done.
Qed.

Lemma canon_obj_id o :
  Forall (λ y, canon_field y.1 (canon_var y.2) = y.2) (v_ o) →
  canon_obj o = mkObject None (getSortedFields o true).
Proof.
  intros Hc. rewrite canon_obj_eq. f_equal. rewrite <- (list_fmap_id (getSortedFields o true)) at 2.
  apply list_fmap_ext. intros i y Hy. simpl.
  assert (Hin : y ∈ v_ o).
  { eapply (list_elem_of_filter (λ y, negb (absent y.2) && shouldInclude y.1 true = true)).
    rewrite <- sort_fields_perm. by eapply list_elem_of_lookup_2. }
  rewrite Forall_forall in Hc. rewrite (Hc y Hin). by destruct y.
Qed.

Lemma applyTemplate_laid_out t o :
  mType o = Some t → Forall2 laid_out t (v_ o) → NoDup (codes (v_ o)) →
  Forall (λ y, fieldValue y.1 < 256) (v_ o) → applyTemplate t (canon_obj o) = Ret o.
Proof.
  intros Hm Hl Hnd Hv. assert (Hc : Forall (λ y, canon_field y.1 (canon_var y.2) = y.2) (v_ o)).
  { clear -Hl. induction Hl as [|e y t v (_ & Hy & _) _ IH]; by constructor. }
  rewrite (canon_obj_id o Hc), (sorted_present o Hv). unfold applyTemplate. cbn [v_].
  rewrite (match_template_laid_out t (v_ o)); [|done|done|apply sort_fields_perm].
  destruct o as [mt v]. simpl in *. by rewrite Hm.
Qed.

(** ** Ledger entries *)

(** Reading an object of a kind from the bytes it was written to. *)
Lemma st_read_as_written t o bs :
  mType o = Some t → Forall2 laid_out t (v_ o) → NoDup (codes (v_ o)) →
  Forall (λ y, fieldValue y.1 < 256) (v_ o) →
  wire_obj sendable 10 o → getSerializer o = Ret bs → Z.of_nat (length bs) < 2 ^ 63 →
  st_read_as t (iter_of bs) = Ret (o, advance (length bs) (iter_of bs)).
Proof.
  intros Hm Hl Hnd Hv Hw Hs Hlen. destruct (st_read_written o bs Hw Hs Hlen) as [_ Hr].
  unfold st_read_as. erewrite bind_at by exact Hr. unfold lift.
  by rewrite (applyTemplate_laid_out t o Hm Hl Hnd Hv).
Qed.

(** What the formats of ledger entries and transactions have in common. *)
Definition format_ok (t : SOTemplate) : bool :=
  bool_decide (NoDup (tcodes t)) &&
  forallb (λ e, coded (e_field e) && (fieldValue (e_field e) <? 256)) t.

Lemma formats_ok : forallb (λ x, format_ok x.2) (LedgerFormats ++ TxFormats) = true.
Proof. vm_compute. reflexivity. Qed.

Lemma format_spec t :
  format_ok t = true → NoDup (tcodes t) ∧
  Forall (λ e, coded (e_field e) = true ∧ fieldValue (e_field e) < 256) t.
Proof.
  unfold format_ok. intros [Hn%bool_decide_eq_true Hf]%andb_true_iff. split; [done|].
  rewrite forallb_forall in Hf. apply Forall_forall. intros e He%list_elem_of_In%Hf.
  apply andb_true_iff in He as [? ?%Z.ltb_lt]. done.
Qed.

Lemma ledger_format type t : findByType LedgerFormats type = Some t → format_ok t = true.
Proof.
  unfold findByType. intros Hf%elem_of_list_to_map_2%list_elem_of_In. pose proof formats_ok as H.
  rewrite forallb_forall in H. apply (H (type, t)), in_app_iff. by left.
Qed.

Lemma laid_out_names t v :
  Forall2 laid_out t v → codes v = tcodes t ∧
  (∀ P : SField → Prop, Forall (λ e, P (e_field e)) t → Forall (λ y, P y.1) v).
Proof.
  induction 1 as [|e y t v (Hy & _) _ [IH1 IH2]]; [done|]. split.
  - cbn [fmap list_fmap]. by rewrite Hy, IH1.
  - intros P [He Ht]%Forall_cons. constructor; [by rewrite Hy|by apply IH2].
Qed.

Lemma wire_field_coded f : wire_field f → coded f = true.
Proof.
  intros (_ & Hc & Ht & Hv & He & _). unfold coded. rewrite He, andb_true_r, Hc, field_code_add by lia.
  apply Z.eqb_eq. rewrite Z.shiftr_div_pow2 by lia. change (2 ^ 16) with 65536. div_lia.
Qed.

Lemma canon_obj_ok L n o : wire_obj L n o → obj_ok (canon_obj o).
Proof.
  intros Hw. split_and!.
  - rewrite codes_canon. by eapply wire_obj_nodup.
  - by rewrite canon_obj_eq.
  - rewrite canon_obj_eq. simpl. apply Forall_fmap. destruct n as [|n]; destruct Hw as [_ Hw];
      (eapply Forall_impl; [exact Hw|]); [done|].
    intros y (Hf & Ht & _). simpl. rewrite getSType_canon. auto using wire_field_coded.
Qed.

(** ledger entries survive storage: an entry laid out as the format of its type says is
    always written, and the same entry is read back. *)
Theorem SLE_roundtrip (e : SLE STObject) (t : SOTemplate)
    (Hf : findByType LedgerFormats (sle_type e) = Some t) (Hm : mType (sle_body e) = Some t)
    (Hl : Forall2 laid_out t (v_ (sle_body e)))
    (Ht : (sfLedgerEntryType, UInt16 (sle_type e)) ∈ v_ (sle_body e))
    (Hw : wire_obj sendable 10 (sle_body e)) :
  ∃ bs, getSerializer (sle_body e) = Ret bs ∧
    (Z.of_nat (length bs) < 2 ^ 63 →
     read_SLE (sle_key e) (iter_of bs) = Ret (e, advance (length bs) (iter_of bs))).
Proof.
  destruct (object_roundtrip 10 _ Hw) as (bs & Hbs & _).
  assert (Hs : getSerializer (sle_body e) = Ret bs)
    by (unfold getSerializer; by rewrite <- add_object_eq).
  exists bs. split; [done|]. intros Hlen.
  destruct (st_read_written _ bs Hw Hs Hlen) as [_ Hr].
  destruct (format_spec t (ledger_format _ _ Hf)) as [Hnd Hall].
  destruct (laid_out_names _ _ Hl) as [Hcodes Hnames]. rewrite <- Hcodes in Hnd.
  assert (Hv : Forall (λ y, fieldValue y.1 < 256) (v_ (sle_body e))).
  { apply (Hnames (λ f, fieldValue f < 256)). eapply Forall_impl; [exact Hall|]. by intros ? []. }
  assert (Hc : Forall (λ y, canon_field y.1 (canon_var y.2) = y.2) (v_ (sle_body e))).
  { clear -Hl. induction Hl as [|x y t v (_ & Hy & _) _ IH]; by constructor. }
  unfold read_SLE. erewrite bind_at by exact Hr. unfold lift, setSLEType.
  assert (Hty : getFieldU16 (canon_obj (sle_body e)) sfLedgerEntryType = Ret (sle_type e)).
  { unfold getFieldU16. rewrite (getFieldBy_map U16) by (by eapply canon_obj_ok).
    enough (Hin : (sfLedgerEntryType, UInt16 (sle_type e)) ∈ v_ (canon_obj (sle_body e))).
    { apply list_elem_of_lookup in Hin as [i Hi].
      by rewrite (obj_map_lookup _ _ _ _ (canon_obj_ok _ _ _ Hw) Hi). }
    rewrite (canon_obj_id _ Hc). simpl. rewrite (sorted_present _ Hv), sort_fields_perm.
    by apply list_elem_of_filter. }
  rewrite Hty. cbn [mbind outcome_bind]. rewrite Hf, (applyTemplate_laid_out t _ Hm Hl Hnd Hv).
  cbn [mbind outcome_bind]. by destruct e.
Qed.

Lemma template_fields_ok t :
  Forall (λ e, coded (e_field e) = true) t →
  ∃ l, template_fields t = Ret l ∧ fst <$> l = e_field <$> t ∧
    Forall (λ y, coded y.1 = true ∧ (absent y.2 = true ∨ getSType y.2 = fieldType y.1)) l.
Proof.
  induction 1 as [|e t He _ (l & Hl & Hn & Hall)]; [exists []; done|]. cbn [template_fields].
  assert (Hx : ∃ x, match flags e with SOE_REQUIRED => defaultObject (e_field e) | _ => Ret NotPresent end
    = Ret x ∧ (absent x = true ∨ getSType x = fieldType (e_field e))).
  { destruct (flags e); eauto. pose proof He as He'. apply andb_true_iff in He' as [_ He'].
    destruct (defaultObject_type _ He') as (x & ? & ?); eauto. }
  destruct Hx as (x & -> & Hx). cbn [mbind outcome_bind]. rewrite Hl.
  exists ((e_field e, x) :: l). split_and!; [done|cbn [fmap list_fmap]; by rewrite <- Hn|by constructor].
Qed.

Lemma set_template_ok t :
  format_ok t = true → ∃ o, set_template t = Ret o ∧ obj_ok o ∧ mType o = Some t ∧
    ∀ f, fieldCode f ∈ tcodes t → is_Some (obj_map o !! fieldCode f).
Proof.
  intros Hf. destruct (format_spec t Hf) as [Hnd Hall].
  destruct (template_fields_ok t) as (l & Hl & Hn & Hty); [eapply Forall_impl; [exact Hall|]; by intros ? []|].
  assert (Hcodes : codes l = tcodes t).
  { transitivity (fieldCode <$> (fst <$> l)); [by rewrite <- list_fmap_compose|].
    by rewrite Hn, <- list_fmap_compose. }
  exists (mkObject (Some t) l). unfold set_template. rewrite Hl. cbn [mbind outcome_bind].
  split_and!; [done| |done|].
  - split_and!; simpl; [by rewrite Hcodes|by intros ? [= <-]|done].
  - intros f Hin. destruct (obj_map _ !! _) eqn:E; [done|]. exfalso.
    apply obj_map_None in E. apply E. simpl. by rewrite Hcodes.
Qed.

Lemma ledger_entry_type :
  forallb (λ x, (0 <=? x.1) && (x.1 <=? 65535) && bool_decide (fieldCode sfLedgerEntryType ∈ tcodes x.2))
    LedgerFormats = true.
Proof. vm_compute. reflexivity. Qed.

(** A new entry has the fields of its format. *)
Lemma make_SLE_ok k t :
  findByType LedgerFormats (kl_type k) = Some t →
  ∃ o, make_SLE k = Ret (mkSLE (kl_key k) (kl_type k) o) ∧ obj_ok o ∧ mType o = Some t ∧
    getFieldU16 o sfLedgerEntryType = Ret (kl_type k) ∧
    ∀ f, fieldCode f ∈ tcodes t → is_Some (obj_map o !! fieldCode f).
Proof.
  intros Hf. destruct (set_template_ok t (ledger_format _ _ Hf)) as (o & Hs & Ho & Hm & Hin).
  assert (Hty : 0 ≤ kl_type k ≤ 65535 ∧ fieldCode sfLedgerEntryType ∈ tcodes t).
  { unfold findByType in Hf. apply elem_of_list_to_map_2, list_elem_of_In in Hf.
    pose proof ledger_entry_type as H. rewrite forallb_forall in H. specialize (H _ Hf). simpl in H.
    rewrite !andb_true_iff, bool_decide_eq_true, !Z.leb_le in H. tauto. }
  destruct Hty as [Hr Hle].
  destruct (setFieldUsing_map U16 o sfLedgerEntryType (kl_type k) Ho eq_refl eq_refl)
    as (o' & Hset & Ho' & Hm' & Hmap); [auto|].
  exists o'. unfold make_SLE. rewrite (proj2 (Z.leb_le _ _)), (proj2 (Z.leb_le _ _)) by lia.
  cbn [negb andb]. rewrite Hf, Hs. cbn [mbind outcome_bind]. unfold setFieldU16. rewrite Hset.
  split_and!; [done|done|congruence| |].
  - unfold getFieldU16. by rewrite (getFieldBy_map U16), Hmap, lookup_insert_eq.
  - intros f Hft. rewrite Hmap. destruct (decide (fieldCode f = fieldCode sfLedgerEntryType)) as [->|].
    + by rewrite lookup_insert_eq.
    + rewrite lookup_insert_ne by done. by apply Hin.
Qed.

(** ** Witnesses *)

Definition sample_entry : SLE STObject :=
  mkSLE 5 ltAMENDMENTS (mkObject (Some (fmt_common ++ fmt_Amendments))
    [(sfLedgerIndex, NotPresent); (sfLedgerEntryType, UInt16 ltAMENDMENTS); (sfFlags, UInt32 0);
     (sfAmendments, Vector256 [3; 4]); (sfMajorities, NotPresent)]).

Lemma sample_entry_ok : obj_ok (sle_body sample_entry).
Proof.
  split_and!; [computed|by intros t [= <-]|].
  repeat apply Forall_cons_2; [..|constructor]; (split; [computed|]); by first [left; reflexivity|right; reflexivity].
Qed.

Lemma object_fields_witness :
  getFieldBy U64 (mkObject None [(sfIndexNext, UInt64 3)]) sfIndexNext = Ret 3 ∧
  (∃ o', setFieldUsing U32 sfFlags 9 (sle_body sample_entry) = Ret o' ∧ getFieldBy U32 o' sfFlags = Ret 9).
Proof.
  split.
  - apply (object_fields U64 (mkObject None [(sfIndexNext, UInt64 3)]) sfIndexNext 0)
      with (x := UInt64 3); try done.
    split_and!; [computed|done|]. apply Forall_singleton. split; [computed|by right].
  - destruct (object_fields U32 (sle_body sample_entry) sfFlags 9 sample_entry_ok eq_refl eq_refl)
      as (_ & Hs & _).
    destruct Hs as (o' & Hs & _ & _ & _ & Hg); [right; by eexists|]. by exists o'.
Defined.

Lemma SLE_roundtrip_witness :
  ∃ bs, getSerializer (sle_body sample_entry) = Ret bs ∧
    (Z.of_nat (length bs) < 2 ^ 63 →
     read_SLE 5 (iter_of bs) = Ret (sample_entry, advance (length bs) (iter_of bs))).
Proof.
  apply (SLE_roundtrip sample_entry (fmt_common ++ fmt_Amendments)).
  - vm_compute. reflexivity.
  - reflexivity.
  - repeat constructor; simpl; auto; done.
  - right. by left.
  - split; [computed|].
    change (getSortedFields _ true) with
      [(sfLedgerEntryType, UInt16 ltAMENDMENTS); (sfFlags, UInt32 0); (sfAmendments, Vector256 [3; 4])].
    repeat apply Forall_cons_2; [..|constructor]; (split; [split_and!; computed|]); (split; [computed|]);
      (split; [|done]); (split; [|simpl; done]); simpl; repeat constructor; unfold below; vm_compute; done.
Defined.

(** ** Reading after setting

    The form in which other files use the laws. *)

Definition has (o : STObject) (f : SField) : Prop := is_Some (obj_map o !! fieldCode f).

Lemma getFieldBy_congr {V} (T : STClass V) o o' g :
  obj_ok o → obj_ok o' → obj_map o' !! fieldCode g = obj_map o !! fieldCode g →
  getFieldBy T o' g = getFieldBy T o g.
Proof. intros Ho Ho' Hm. by rewrite !getFieldBy_map, Hm. Qed.

Lemma setField_reads {V} (T : STClass V) `{!LawfulClass T} o f v :
  obj_ok o → coded f = true → fieldType f = c_type T → has o f →
  ∃ o', setFieldUsing T f v o = Ret o' ∧ obj_ok o' ∧ mType o' = mType o ∧
    getFieldBy T o' f = Ret v ∧
    (∀ V' (T' : STClass V') g, fieldCode g ≠ fieldCode f → getFieldBy T' o' g = getFieldBy T' o g) ∧
    (∀ g, has o' g ↔ has o g).
Proof.
  intros Ho Hc Ht Hh.
  destruct (setFieldUsing_map T o f v Ho Hc Ht) as (o' & Hs & Ho' & Hm & Hmap); [by right|].
  exists o'. split_and!; try done.
  - rewrite getFieldBy_map, Hmap, lookup_insert_eq by done.
    pose proof (lawful_present T _ _ (c_make_value v)) as Ha. rewrite c_make_value.
    by destruct (c_make T v).
  - intros V' T' g Hg. apply getFieldBy_congr; [done|done|]. by rewrite Hmap, lookup_insert_ne.
  - intros g. unfold has. rewrite Hmap.
    destruct (decide (fieldCode g = fieldCode f)) as [->|]; [|by rewrite lookup_insert_ne].
    rewrite lookup_insert_eq. split; [by intros _|eauto].
Qed.
