(* ===== verification/Entry.v ===== *)
(** * Fields of ledger entries

    The laws of [STObjectLaws] in equational form, for objects with a template.
    [val T o f] is the value of a field, [set T f v o] the object with the field set,
    and [unset f o] the object without the field.  On an object that has the
    fields of its template, [entry t o], the methods of [STObject] and the
    proxies return these, so that programs on ledger entries are reasoned about
    by rewriting. *)

From stdpp Require Import base numbers list gmap strings.
From Stdlib Require Import Lia ZArith.
From S2P Require Import Prelude Serializer STAmount StateTable SField STObject STObjectWire STObjectLaws.

Local Open Scope Z_scope.

Definition val {V} (T : STClass V) (o : STObject) (f : SField) : V :=
  match getFieldBy T o f with Ret v => v | Throw _ => c_zero T end.

Definition set {V} (T : STClass V) (f : SField) (v : V) (o : STObject) : STObject :=
  match setFieldUsing T f v o with Ret o' => o' | Throw _ => o end.

Definition unset (f : SField) (o : STObject) : STObject :=
  match makeFieldAbsent f o with Ret o' => o' | Throw _ => o end.

Abbreviation present o f := (isFieldPresent o f).

(** The field is one of the template and holds values of the class. *)
Definition fits {V} (T : STClass V) (t : SOTemplate) (f : SField) : bool :=
  bool_decide (fieldCode f ∈ tcodes t) && coded f && (fieldType f =? c_type T).

Record entry (t : SOTemplate) (o : STObject) : Prop := {
  entry_ok : obj_ok o;
  entry_type : mType o = Some t;
  entry_required e : e ∈ t → flags e = SOE_REQUIRED → present o (e_field e) = true }.

(** ** Lookup *)

Lemma present_map o f :
  obj_ok o →
  present o f = match obj_map o !! fieldCode f with Some x => negb (absent x) | None => false end.
Proof. intros Ho. unfold isFieldPresent. by rewrite peek_map. Qed.

Lemma entry_has t o f : entry t o → fieldCode f ∈ tcodes t → is_Some (obj_map o !! fieldCode f).
Proof.
  intros [Ho Hm _] Hf. destruct (obj_map o !! fieldCode f) eqn:E; [done|]. apply obj_map_None in E.
  destruct Ho as (_ & Ht & _). by rewrite (Ht t Hm) in E.
Qed.

Lemma fits_spec {V} (T : STClass V) t f :
  fits T t f = true → fieldCode f ∈ tcodes t ∧ coded f = true ∧ fieldType f = c_type T.
Proof.
  unfold fits. rewrite !andb_true_iff, bool_decide_eq_true, Z.eqb_eq. tauto.
Qed.

Section Class.
Context {V : Type} (T : STClass V) `{!LawfulClass T}.

Lemma getFieldBy_val t o f :
  entry t o → fits T t f = true → getFieldBy T o f = Ret (val T o f).
Proof using LawfulClass0.
  intros He (Hin & Hc & Ht)%fits_spec.
  destruct (getFieldBy_typed T o f (entry_ok t o He) Hc Ht (entry_has t o f He Hin)) as [v Hv].
  unfold val. by rewrite Hv.
Qed.

Lemma val_map t o f x :
  entry t o → fits T t f = true → obj_map o !! fieldCode f = Some x →
  c_value T x = if absent x then None else Some (val T o f).
Proof using LawfulClass0.
  intros He Hf Hx. pose proof (getFieldBy_val t o f He Hf) as Hg.
  rewrite getFieldBy_map, Hx in Hg by apply He.
  destruct (absent x) eqn:Ha.
  - destruct (c_value T x) eqn:E; [|done]. apply (lawful_present T) in E. congruence.
  - destruct x; try done; (destruct (c_value T _) as [w|]; [by injection Hg as <-|done]).
Qed.

Lemma set_map t o f v :
  entry t o → fits T t f = true →
  setFieldUsing T f v o = Ret (set T f v o) ∧ obj_ok (set T f v o) ∧
  mType (set T f v o) = Some t ∧
  obj_map (set T f v o) = <[fieldCode f := c_make T v]> (obj_map o).
Proof using LawfulClass0.
  intros He (Hin & Hc & Ht)%fits_spec. unfold set.
  destruct (setFieldUsing_map T o f v (entry_ok t o He) Hc Ht) as (o' & -> & Ho' & Hm & Hmap).
  { right. by eapply entry_has. }
  rewrite (entry_type t o He) in Hm. done.
Qed.

Lemma set_ret t o f v :
  entry t o → fits T t f = true → setFieldUsing T f v o = Ret (set T f v o).
Proof using LawfulClass0. intros He Hf. apply (set_map t o f v He Hf). Qed.

Lemma present_set t o f v g :
  entry t o → fits T t f = true →
  present (set T f v o) g = (fieldCode f =? fieldCode g) || present o g.
Proof using LawfulClass0.
  intros He Hf. destruct (set_map t o f v He Hf) as (_ & Ho' & _ & Hmap).
  rewrite !present_map, Hmap by (done || apply He).
  destruct (Z.eqb_spec (fieldCode f) (fieldCode g)) as [->|]; [|by rewrite lookup_insert_ne].
  rewrite lookup_insert_eq. simpl.
  by rewrite (lawful_present T _ v (c_make_value v)).
Qed.

Lemma set_entry t o f v : entry t o → fits T t f = true → entry t (set T f v o).
Proof using LawfulClass0.
  intros He Hf. destruct (set_map t o f v He Hf) as (_ & Ho' & Hm & _). split; [done|done|].
  intros e Hin Hr. rewrite (present_set t o f v (e_field e) He Hf).
  by rewrite (entry_required t o He e Hin Hr), orb_true_r.
Qed.

Lemma val_set t o f v : entry t o → fits T t f = true → val T (set T f v o) f = v.
Proof using LawfulClass0.
  intros He Hf. destruct (set_map t o f v He Hf) as (_ & Ho' & _ & Hmap).
  unfold val. rewrite getFieldBy_map, Hmap, lookup_insert_eq by done.
  pose proof (lawful_present T _ _ (c_make_value v)) as Ha. rewrite c_make_value.
  by destruct (c_make T v).
Qed.

Lemma val_set_ne {W} (T' : STClass W) t o f v g :
  entry t o → fits T t f = true → fieldCode f ≠ fieldCode g →
  val T' (set T f v o) g = val T' o g.
Proof using LawfulClass0.
  intros He Hf Hne. destruct (set_map t o f v He Hf) as (_ & Ho' & _ & Hmap).
  unfold val. rewrite !getFieldBy_map, Hmap, lookup_insert_ne by (done || apply He). done.
Qed.

(** ** Proxies *)

Lemma entry_style t o f : entry t o → fieldCode f ∈ tcodes t → proxy_style o f = Ret (style t f).
Proof.
  intros He Hf. unfold proxy_style. rewrite (entry_type t o He), peek_map by apply He.
  by destruct (entry_has t o f He Hf) as [x ->].
Qed.

Lemma entry_find t o f :
  entry t o → fits T t f = true →
  proxy_find T o f = if present o f then Some (val T o f) else None.
Proof using LawfulClass0.
  intros He Hf. pose proof (fits_spec T t f Hf) as (Hin & _). unfold proxy_find.
  destruct (entry_has t o f He Hin) as [x Hx].
  rewrite peek_map, present_map, Hx by apply He. simpl. rewrite (val_map t o f x He Hf Hx).
  by destruct (absent x).
Qed.

Lemma proxy_value_val t o f :
  entry t o → fits T t f = true → present o f = true → proxy_value T o f = Ret (val T o f).
Proof using LawfulClass0.
  intros He Hf Hp. pose proof (fits_spec T t f Hf) as (Hin & _).
  unfold proxy_value. rewrite (entry_style t o f He Hin). cbn [mbind outcome_bind].
  by rewrite (entry_find t o f He Hf), Hp.
Qed.

Lemma get_at_val t o f :
  entry t o → fits T t f = true → present o f = true → get_at T o f = Ret (val T o f).
Proof using LawfulClass0.
  intros He Hf Hp. pose proof (fits_spec T t f Hf) as (Hin & _). unfold get_at.
  destruct (entry_has t o f He Hin) as [x Hx]. rewrite peek_map, Hx by apply He.
  rewrite present_map, Hx in Hp by apply He. apply negb_true_iff in Hp.
  by rewrite (val_map t o f x He Hf Hx), Hp.
Qed.

Lemma proxy_optional_val t o f :
  entry t o → fits T t f = true → style t f ≠ Some SOE_DEFAULT →
  proxy_optional T o f = Ret (if present o f then Some (val T o f) else None).
Proof using LawfulClass0.
  intros He Hf Hs. pose proof (fits_spec T t f Hf) as (Hin & _).
  unfold proxy_optional. rewrite (entry_style t o f He Hin). cbn [mbind outcome_bind].
  rewrite (entry_find t o f He Hf), bool_decide_false by done. by destruct (present o f).
Qed.

Lemma proxy_assign_set `{EqDecision V} t o f v :
  entry t o → fits T t f = true → style t f ≠ None → style t f ≠ Some SOE_DEFAULT →
  proxy_assign T f v o = Ret (set T f v o).
Proof using LawfulClass0.
  intros He Hf Hs Hs'. pose proof (fits_spec T t f Hf) as (Hin & Hc & Ht).
  pose proof (set_ret t o f v He Hf) as Hset.
  unfold proxy_assign. rewrite (entry_style t o f He Hin). cbn [mbind outcome_bind].
  rewrite (bool_decide_false (style t f = Some SOE_DEFAULT)) by done. cbn [andb].
  destruct (style t f); [|done]. unfold setFieldUsing, getPField in Hset. unfold makeFieldPresent in *.
  destruct (getFieldIndex o f) as [i|] eqn:Hi.
  2: { destruct (entry_has t o f He Hin) as [x Hx]. rewrite <- peek_map in Hx by apply He.
    unfold peekAtPField in Hx. by rewrite Hi in Hx. }
  cbn [mbind outcome_bind] in *.
  assert (Hassign : ∀ i o', assign_at T v i o' = Ret (set T f v o) →
    match Some i ≫= λ i, v_ o' !! i with
    | Some (_, x) => match c_value T x, Some i with
      | Some _, Some i => Ret (put_at i (c_make T v) o') | _, _ => Throw (logic_error "null pointer") end
    | None => Throw (logic_error "null pointer")
    end = Ret (set T f v o)).
  { intros j o'. unfold assign_at. cbn [mbind option_bind]. destruct (v_ o' !! j) as [[? x]|]; [|done].
    by destruct (c_value T x). }
  destruct (v_ o !! i) as [[g x]|] eqn:Hl; [|by apply Hassign].
  destruct x; try by apply Hassign. rewrite Hi, Hl in Hset.
  destruct (defaultObject g) as [y|]; [|done]. cbn [mbind outcome_bind] in *. by apply Hassign.
Qed.
End Class.

(** ** Making a field absent *)

Lemma unset_map t o f :
  entry t o → fieldCode f ∈ tcodes t →
  makeFieldAbsent f o = Ret (unset f o) ∧ obj_ok (unset f o) ∧ mType (unset f o) = Some t ∧
  obj_map (unset f o) = <[fieldCode f := NotPresent]> (obj_map o).
Proof.
  intros He Hf. unfold unset, makeFieldAbsent. pose proof He as [Ho Hm _].
  pose proof (getFieldIndex_spec o f Ho) as Hi. destruct (getFieldIndex o f) as [i|].
  - destruct Hi as (g & x & Hl & Hg).
    destruct (put_at_spec o i f g x NotPresent Ho Hl Hg) as (? & ? & _ & ?); [by left|].
    split_and!; [done|done|congruence|done].
  - apply obj_map_None in Hi. destruct (entry_has t o f He Hf). congruence.
Qed.

Lemma present_unset t o f g :
  entry t o → fieldCode f ∈ tcodes t →
  present (unset f o) g = negb (fieldCode f =? fieldCode g) && present o g.
Proof.
  intros He Hf. destruct (unset_map t o f He Hf) as (_ & Ho' & _ & Hmap).
  rewrite !present_map, Hmap by (done || apply He).
  destruct (Z.eqb_spec (fieldCode f) (fieldCode g)) as [->|]; [|by rewrite lookup_insert_ne].
  by rewrite lookup_insert_eq.
Qed.

Lemma unset_entry t o f :
  entry t o → fieldCode f ∈ tcodes t → NoDup (tcodes t) → style t f = Some SOE_OPTIONAL →
  entry t (unset f o).
Proof.
  intros He Hf Hnd Hs. destruct (unset_map t o f He Hf) as (_ & Ho' & Hm & _). split; [done|done|].
  intros e Hin Hr. rewrite (present_unset t o f _ He Hf), (entry_required t o He e Hin Hr), andb_true_r.
  apply negb_true_iff, Z.eqb_neq. intros Heq. unfold style, same_field in Hs.
  destruct (List.find _ t) as [e'|] eqn:E; [|done]. apply find_some in E as [Hin' Heq'%Z.eqb_eq].
  apply list_elem_of_In, list_elem_of_lookup in Hin' as [i Hi].
  apply list_elem_of_lookup in Hin as [j Hj].
  assert (i = j) as ->.
  { eapply (NoDup_lookup (tcodes t)); [done|by rewrite list_lookup_fmap, Hi|].
    rewrite list_lookup_fmap, Hj. simpl. congruence. }
  rewrite Hi in Hj. simpl in Hs. congruence.
Qed.

Lemma val_unset {V} (T : STClass V) t o f g :
  entry t o → fieldCode f ∈ tcodes t →
  val T (unset f o) g = if fieldCode f =? fieldCode g then c_zero T else val T o g.
Proof.
  intros He Hf. destruct (unset_map t o f He Hf) as (_ & Ho' & _ & Hmap).
  unfold val. rewrite !getFieldBy_map, Hmap by (done || apply He).
  destruct (Z.eqb_spec (fieldCode f) (fieldCode g)) as [->|]; [|by rewrite lookup_insert_ne].
  by rewrite lookup_insert_eq.
Qed.

(** ** New entries *)

(** The value a new object has for a class. *)
Class DefaultClass {V} (T : STClass V) : Prop :=
  default_value f x : fieldType f = c_type T → defaultObject f = Ret x → c_value T x = Some (c_zero T).

Ltac default_class := intros f x Hf Hx; unfold defaultObject in Hx; rewrite Hf in Hx;
  vm_compute in Hx; injection Hx as <-; reflexivity.

#[export] Instance U8_default : DefaultClass U8.
Proof. default_class. Qed.
#[export] Instance U16_default : DefaultClass U16.
Proof. default_class. Qed.
#[export] Instance U32_default : DefaultClass U32.
Proof. default_class. Qed.
#[export] Instance U64_default : DefaultClass U64.
Proof. default_class. Qed.
#[export] Instance H256_default : DefaultClass H256.
Proof. default_class. Qed.
#[export] Instance AccountID_default : DefaultClass AccountID.
Proof. default_class. Qed.
#[export] Instance VL_default : DefaultClass VL.
Proof. default_class. Qed.
#[export] Instance AmountC_default : DefaultClass AmountC.
Proof. default_class. Qed.
#[export] Instance V256_default : DefaultClass V256.
Proof. default_class. Qed.

Lemma template_fields_values t l :
  template_fields t = Ret l →
  Forall2 (λ e y, y.1 = e_field e ∧
    if decide (flags e = SOE_REQUIRED) then defaultObject (e_field e) = Ret y.2
    else y.2 = NotPresent) t l.
Proof.
  revert l. induction t as [|e t IH]; intros l; simpl; [by intros [= <-]|].
  destruct (match flags e with SOE_REQUIRED => _ | _ => _ end) as [x|] eqn:Ex; [|done].
  cbn [mbind outcome_bind]. destruct (template_fields t) as [l'|]; [|done].
  intros [= <-]. constructor; [|by apply IH]. split; [done|]. simpl.
  destruct (flags e); simpl; congruence.
Qed.

Definition new_body (type : Z) : STObject :=
  match make_SLE (mkKeylet type 0) with Ret e => sle_body e | Throw _ => mkObject None [] end.

(** The values in an object made from a template. *)
Lemma set_template_values t o f x :
  format_ok t = true → set_template t = Ret o → obj_map o !! fieldCode f = Some x →
  ∃ e, e ∈ t ∧ fieldCode (e_field e) = fieldCode f ∧
    if decide (flags e = SOE_REQUIRED) then defaultObject (e_field e) = Ret x else x = NotPresent.
Proof.
  intros Hf Hs Hx. unfold set_template in Hs. destruct (template_fields t) as [l|] eqn:El; [|done].
  injection Hs as <-. apply elem_of_list_to_map_2, list_elem_of_fmap in Hx as ([g y] & [= Hg ->] & Hin).
  apply list_elem_of_lookup in Hin as [i Hi].
  destruct (Forall2_lookup_r _ _ _ _ _ (template_fields_values t l El) Hi) as (e & He & Hn & Hv).
  simpl in *. exists e. split_and!; [by eapply list_elem_of_lookup_2|congruence|done].
Qed.

Lemma style_unique t e :
  NoDup (tcodes t) → e ∈ t → ∀ f, fieldCode (e_field e) = fieldCode f → style t f = Some (flags e).
Proof.
  intros Hnd Hin f Hf. unfold style, same_field.
  induction t as [|d t IH]; [by apply elem_of_nil in Hin|]. apply NoDup_cons in Hnd as [Hn Hnd].
  simpl. destruct (Z.eqb_spec (fieldCode (e_field d)) (fieldCode f)) as [Heq|Hne].
  - apply elem_of_cons in Hin as [->|Hin]; [done|]. exfalso. apply Hn. rewrite Heq, <- Hf.
    by apply (list_elem_of_fmap_2 (λ e, fieldCode (e_field e))).
  - apply elem_of_cons in Hin as [->|Hin]; [congruence|]. by apply IH.
Qed.

Lemma make_SLE_new k t :
  findByType LedgerFormats (kl_type k) = Some t →
  make_SLE k = Ret (mkSLE (kl_key k) (kl_type k) (new_body (kl_type k))) ∧
  ∃ o, set_template t = Ret o ∧ entry t o ∧
    new_body (kl_type k) = set U16 sfLedgerEntryType (kl_type k) o ∧
    fits U16 t sfLedgerEntryType = true.
Proof.
  intros Hf. pose proof (ledger_format _ _ Hf) as Hok.
  destruct (make_SLE_ok k t Hf) as (o' & Hmk & _).
  destruct (set_template_ok t Hok) as (o & Hs & Ho & Hm & Hin).
  assert (Hr : 0 ≤ kl_type k ≤ 65535 ∧ fieldCode sfLedgerEntryType ∈ tcodes t).
  { unfold findByType in Hf. apply elem_of_list_to_map_2, list_elem_of_In in Hf.
    pose proof ledger_entry_type as H. rewrite forallb_forall in H. specialize (H _ Hf). simpl in H.
    rewrite !andb_true_iff, bool_decide_eq_true, !Z.leb_le in H. tauto. }
  assert (Hfit : fits U16 t sfLedgerEntryType = true).
  { unfold fits. by rewrite bool_decide_true by tauto. }
  assert (He : entry t o).
  { split; [done|done|]. intros e Hine Hreq. rewrite present_map by done.
    destruct (Hin (e_field e)) as [x Hx]; [by apply (list_elem_of_fmap_2 (λ e, fieldCode (e_field e)))|].
    rewrite Hx. destruct (set_template_values t o _ x Hok Hs Hx) as (e' & Hin' & Hc & Hv).
    pose proof (style_unique t e' (proj1 (format_spec t Hok)) Hin' _ Hc) as S1.
    rewrite (style_unique t e (proj1 (format_spec t Hok)) Hine _ eq_refl), Hreq in S1.
    injection S1 as S1. rewrite <- S1 in Hv. simpl in Hv.
    destruct x; try done. exfalso. destruct (format_spec t Hok) as [_ Hall].
    rewrite Forall_forall in Hall. destruct (Hall e' Hin') as [[_ Hx']%andb_true_iff _].
    destruct (defaultObject_type _ Hx') as (y & Hy & Ht). rewrite Hv in Hy. injection Hy as <-.
    rewrite <- Ht in Hx'. by vm_compute in Hx'. }
  assert (Hnew : ∀ key, make_SLE (mkKeylet (kl_type k) key) =
    Ret (mkSLE key (kl_type k) (set U16 sfLedgerEntryType (kl_type k) o))).
  { intros key. unfold make_SLE. simpl. rewrite (proj2 (Z.leb_le _ _)), (proj2 (Z.leb_le _ _)) by lia.
    cbn [negb andb]. rewrite Hf, Hs. cbn [mbind outcome_bind]. unfold setFieldU16.
    by rewrite (set_ret U16 t o _ _ He Hfit). }
  assert (Hb : new_body (kl_type k) = set U16 sfLedgerEntryType (kl_type k) o).
  { unfold new_body. by rewrite Hnew. }
  split; [|by exists o]. rewrite Hb. destruct k as [ty key]. apply Hnew.
Qed.

Lemma new_entry type t : findByType LedgerFormats type = Some t → entry t (new_body type).
Proof.
  intros Hf. destruct (make_SLE_new (mkKeylet type 0) t Hf) as (_ & o & _ & He & Hb & Hfit).
  simpl in Hb. rewrite Hb. exact (set_entry U16 t o _ _ He Hfit).
Qed.

Lemma val_new {V} (T : STClass V) `{!LawfulClass T, !DefaultClass T} type t f :
  findByType LedgerFormats type = Some t → fits T t f = true →
  fieldCode sfLedgerEntryType ≠ fieldCode f → val T (new_body type) f = c_zero T.
Proof.
  intros Hf Hfit Hne. destruct (make_SLE_new (mkKeylet type 0) t Hf) as (_ & o & Hs & He & Hb & Hfit').
  simpl in Hb. rewrite Hb, (val_set_ne U16 T t o _ _ f He Hfit' Hne).
  pose proof (fits_spec T t f Hfit) as (Hin & Hc & Ht).
  destruct (entry_has t o f He Hin) as [x Hx]. unfold val. rewrite getFieldBy_map, Hx by apply He.
  destruct (set_template_values t o f x (ledger_format _ _ Hf) Hs Hx) as (e & Hine & Hce & Hv).
  case_decide; [|by subst x].
  assert (Hft : fieldType (e_field e) = c_type T).
  { rewrite <- Ht. apply coded_type; [|done|done].
    destruct (format_spec t (ledger_format _ _ Hf)) as [_ Hall]. rewrite Forall_forall in Hall.
    by apply Hall. }
  rewrite (default_value (e_field e) x Hft Hv). by destruct x.
Qed.

Lemma present_new type t f :
  findByType LedgerFormats type = Some t → style t f = Some SOE_OPTIONAL →
  fieldCode sfLedgerEntryType ≠ fieldCode f → present (new_body type) f = false.
Proof.
  intros Hf Hs Hne. destruct (make_SLE_new (mkKeylet type 0) t Hf) as (_ & o & Hso & He & Hb & Hfit').
  simpl in Hb. rewrite Hb, (present_set U16 t o _ _ f He Hfit'), (proj2 (Z.eqb_neq _ _)) by done.
  cbn [orb]. rewrite present_map by apply He. destruct (obj_map o !! fieldCode f) as [x|] eqn:Hx; [|done].
  pose proof (ledger_format _ _ Hf) as Hok.
  destruct (set_template_values t o f x Hok Hso Hx) as (e & Hine & Hce & Hv).
  rewrite (style_unique t e (proj1 (format_spec t Hok)) Hine f Hce) in Hs. injection Hs as Hs.
  rewrite Hs in Hv. simpl in Hv. by subst x.
Qed.
