(* ===== verification/Indexes.v ===== *)
(** * Keys of ledger entries

    Model of [src/src/ripple/protocol/impl/Indexes.cpp]: where entries are stored in the
    ledger.  A key is the first half of a SHA-512 hash of the bytes that identify
    the entry; the hash function is a parameter. *)

From stdpp Require Import base numbers list gmap.
From Stdlib Require Import Lia ZArith.
From S2P Require Import Prelude Serializer STAmount StateTable SField.

Local Open Scope Z_scope.

(** The hash of a sequence of bytes, as a 256-bit number. *)
Class Sha512 : Type := sha512Half : list Z → Z.

(** [LedgerNameSpace]. *)
Definition spaceAccount : Z := 97.
Definition spaceDirNode : Z := 100.
Definition spaceGenerator : Z := 103.
Definition spaceRipple : Z := 114.
Definition spaceOffer : Z := 111.
Definition spaceOwnerDir : Z := 79.
Definition spaceBookDir : Z := 66.
Definition spaceSkipList : Z := 115.
Definition spaceEscrow : Z := 117.
Definition spaceAmendment : Z := 102.
Definition spaceFee : Z := 101.
Definition spaceTicket : Z := 84.
Definition spaceSignerList : Z := 83.
Definition spaceXRPUChannel : Z := 120.
Definition spaceCheck : Z := 67.
Definition spaceDepositPreauth : Z := 112.

Record Book : Type := mkBook { book_in : Issue; book_out : Issue }.

Section Keys.
Context `{!Sha512}.

Definition getLedgerHashIndex : Z := sha512Half (to_be 2 spaceSkipList).
Definition getLedgerHashIndex_at (desiredLedgerIndex : Z) : Z :=
  sha512Half (to_be 2 spaceSkipList ++ to_be 4 (desiredLedgerIndex ≫ 16)).
Definition getLedgerAmendmentIndex : Z := sha512Half (to_be 2 spaceAmendment).
Definition getLedgerFeeIndex : Z := sha512Half (to_be 2 spaceFee).
Definition getAccountRootIndex (account : Z) : Z :=
  sha512Half (to_be 2 spaceAccount ++ to_be 20 account).
Definition getGeneratorIndex (uGeneratorID : Z) : Z :=
  sha512Half (to_be 2 spaceGenerator ++ to_be 20 uGeneratorID).
Definition getOfferIndex (account uSequence : Z) : Z :=
  sha512Half (to_be 2 spaceOffer ++ to_be 20 account ++ to_be 4 uSequence).
Definition getOwnerDirIndex (account : Z) : Z :=
  sha512Half (to_be 2 spaceOwnerDir ++ to_be 20 account).

Definition getDirNodeIndex (uDirRoot uNodeIndex : Z) : Z :=
  if uNodeIndex =? 0 then uDirRoot
  else sha512Half (to_be 2 spaceDirNode ++ to_be 32 uDirRoot ++ to_be 8 uNodeIndex).

(** The quality is in the low 64 bits of the key of a directory of a book. *)
Definition getQualityIndex (uBase uNodeDir : Z) : Z := ((uBase ≫ 64) ≪ 64) + uNodeDir.
Definition getQualityNext (uBase : Z) : Z := (uBase + 2 ^ 64) `mod` 2 ^ 256.
Definition getQuality (uBase : Z) : Z := Z.land uBase (2 ^ 64 - 1).

Definition getBookBase (book : Book) : Z :=
  getQualityIndex (sha512Half (to_be 2 spaceBookDir ++
    to_be 20 (currency (book_in book)) ++ to_be 20 (currency (book_out book)) ++
    to_be 20 (account (book_in book)) ++ to_be 20 (account (book_out book)))) 0.

Definition getTicketIndex (account uSequence : Z) : Z :=
  sha512Half (to_be 2 spaceTicket ++ to_be 20 account ++ to_be 4 uSequence).

Definition getRippleStateIndex (a b currency : Z) : Z :=
  if a <? b then sha512Half (to_be 2 spaceRipple ++ to_be 20 a ++ to_be 20 b ++ to_be 20 currency)
  else sha512Half (to_be 2 spaceRipple ++ to_be 20 b ++ to_be 20 a ++ to_be 20 currency).

Definition getSignerListIndex (account : Z) : Z :=
  sha512Half (to_be 2 spaceSignerList ++ to_be 20 account ++ to_be 4 0).
Definition getCheckIndex (account uSequence : Z) : Z :=
  sha512Half (to_be 2 spaceCheck ++ to_be 20 account ++ to_be 4 uSequence).
Definition getDepositPreauthIndex (owner preauthorized : Z) : Z :=
  sha512Half (to_be 2 spaceDepositPreauth ++ to_be 20 owner ++ to_be 20 preauthorized).

(** ** Keylets *)

Definition kl_account (id : Z) : Keylet := mkKeylet ltACCOUNT_ROOT (getAccountRootIndex id).
Definition kl_child (key : Z) : Keylet := mkKeylet ltCHILD key.
Definition kl_skip : Keylet := mkKeylet ltLEDGER_HASHES getLedgerHashIndex.
Definition kl_skip_at (ledger : Z) : Keylet :=
  mkKeylet ltLEDGER_HASHES (getLedgerHashIndex_at ledger).
Definition kl_amendments : Keylet := mkKeylet ltAMENDMENTS getLedgerAmendmentIndex.
Definition kl_fees : Keylet := mkKeylet ltFEE_SETTINGS getLedgerFeeIndex.
Definition kl_book (b : Book) : Keylet := mkKeylet ltDIR_NODE (getBookBase b).
Definition kl_line (id0 id1 currency : Z) : Keylet :=
  mkKeylet ltRIPPLE_STATE (getRippleStateIndex id0 id1 currency).
Definition kl_offer (id seq : Z) : Keylet := mkKeylet ltOFFER (getOfferIndex id seq).
Definition kl_quality (k : Keylet) (q : Z) : Keylet := mkKeylet ltDIR_NODE (getQualityIndex (kl_key k) q).
Definition kl_next (k : Keylet) : Keylet := mkKeylet ltDIR_NODE (getQualityNext (kl_key k)).
Definition kl_ticket (id seq : Z) : Keylet := mkKeylet ltTICKET (getTicketIndex id seq).
Definition kl_signers (id : Z) : Keylet := mkKeylet ltSIGNER_LIST (getSignerListIndex id).
Definition kl_check (id seq : Z) : Keylet := mkKeylet ltCHECK (getCheckIndex id seq).
Definition kl_depositPreauth (owner preauthorized : Z) : Keylet :=
  mkKeylet ltDEPOSIT_PREAUTH (getDepositPreauthIndex owner preauthorized).
Definition kl_ownerDir (id : Z) : Keylet := mkKeylet ltDIR_NODE (getOwnerDirIndex id).
Definition kl_page (root : Keylet) (index : Z) : Keylet :=
  mkKeylet ltDIR_NODE (getDirNodeIndex (kl_key root) index).
Definition kl_escrow (source seq : Z) : Keylet :=
  mkKeylet ltESCROW (sha512Half (to_be 2 spaceEscrow ++ to_be 20 source ++ to_be 4 seq)).
Definition kl_payChan (source dst seq : Z) : Keylet :=
  mkKeylet ltPAYCHAN
    (sha512Half (to_be 2 spaceXRPUChannel ++ to_be 20 source ++ to_be 20 dst ++ to_be 4 seq)).
End Keys.

(** ** Qualities in keys *)

(** The quality put into the key of a book directory is the one read from it, and the
    directories of a book lie between its base and the base of the next book. *)
Lemma getQuality_index uBase q :
  0 ≤ uBase → 0 ≤ q < 2 ^ 64 →
  getQuality (getQualityIndex uBase q) = q ∧
  getQualityIndex uBase 0 ≤ getQualityIndex uBase q < getQualityIndex uBase 0 + 2 ^ 64.
Proof.
  intros Hb Hq. unfold getQuality, getQualityIndex.
  rewrite Z.shiftr_div_pow2, Z.shiftl_mul_pow2 by lia. split; [|lia].
  change (2 ^ 64 - 1) with (Z.ones 64). rewrite Z.land_ones by lia.
  rewrite Z.add_comm, Z.mod_add, Z.mod_small; lia.
Qed.

(** ** A function without collisions, for examples

    The number written by the bytes. *)
Definition number_hash : Sha512 := λ bs, of_be (1 :: bs).

Lemma number_hash_inj a b :
  Forall is_byte a → Forall is_byte b → number_hash a = number_hash b → a = b.
Proof.
  unfold number_hash. intros Ha Hb E. rewrite !of_be_cons in E.
  pose proof (of_be_bound a Ha) as Ba. pose proof (of_be_bound b Hb) as Bb.
  assert (Hlt : ∀ m n : nat, (m < n)%nat → 2 * 256 ^ Z.of_nat m ≤ 256 ^ Z.of_nat n).
  { intros m n Hmn. replace n with (S m + (n - S m))%nat by lia.
    rewrite Nat2Z.inj_add, Nat2Z.inj_succ, Z.pow_add_r, Z.pow_succ_r by lia.
    pose proof (Z.pow_pos_nonneg 256 (Z.of_nat m) ltac:(lia) ltac:(lia)).
    pose proof (Z.pow_pos_nonneg 256 (Z.of_nat (n - S m)) ltac:(lia) ltac:(lia)). nia. }
  assert (Hl : length a = length b).
  { destruct (Nat.lt_total (length a) (length b)) as [H|[H|H]]; [|done|]; specialize (Hlt _ _ H); lia. }
  rewrite <- (to_be_of_be a Ha), <- (to_be_of_be b Hb), Hl. f_equal. rewrite Hl in E. lia.
Qed.

(** Bytes made of numbers of the same widths are the same only if the numbers are. *)
Lemma to_be_inj n a b : 0 ≤ a < 256 ^ Z.of_nat n → 0 ≤ b < 256 ^ Z.of_nat n → to_be n a = to_be n b → a = b.
Proof. intros Ha Hb E. rewrite <- (of_be_to_be n a Ha), <- (of_be_to_be n b Hb). by rewrite E. Qed.
