(* ===== verification/ApplyView.v ===== *)
(** * Programs on a view of the ledger

    Code that changes the ledger works on an [ApplyView]: it reads entries,
    obtains pointers with [peek], writes fields through them, and tells the view
    with [update], [insert] and [erase] what it has done
    ([src/src/ripple/ledger/ApplyView.h]).  Such code is written here in the
    monad [prog], whose operations are the ones of the view.

    A program has two meanings.  [run_table] runs it on an [ApplyStateTable] over
    a base view with entries shared in a heap, as the classes [ApplyViewBase] and
    [Sandbox] do.  [run] runs it on a finite map from keys to entries.
    [table_refines] relates them, so that theorems about programs are proved on maps
    and hold of the tables.

    A write through a pointer is seen by every later read, but only becomes
    permanent if the entry was inserted or [update] is called for it: the state
    of [run] records the keys for which that is so, and the keys with a write
    that would be lost. *)

From stdpp Require Import base numbers list gmap strings.
From Stdlib Require Import Lia ZArith.
From S2P Require Import Prelude XRPAmount StateTable.

Local Open Scope Z_scope.

(** ** Programs *)

Section Prog.
Context {F : Type}.

(** A pointer to an entry is named by the key of the entry: a table hands out one pointer
    per key and keeps it until the entry is erased. *)
Inductive prog (A : Type) : Type :=
| Done (a : A)
| Fail (e : exn)
| Read (k : Keylet) (c : option (SLE F) → prog A)
| Peek (k : Keylet) (c : option Z → prog A)
| Load (h : Z) (c : SLE F → prog A)
| Store (h : Z) (o : F) (c : prog A)
| Update (h : Z) (c : prog A)
| Insert (s : SLE F) (c : prog A)
| Erase (h : Z) (c : prog A)
| Succ (key : Z) (last : option Z) (c : option Z → prog A).
End Prog.
Arguments prog : clear implicits.
Arguments Done {F A} _.
Arguments Fail {F A} _.
Arguments Read {F A} _ _.
Arguments Peek {F A} _ _.
Arguments Load {F A} _ _.
Arguments Store {F A} _ _ _.
Arguments Update {F A} _ _.
Arguments Insert {F A} _ _.
Arguments Erase {F A} _ _.
Arguments Succ {F A} _ _ _.

#[export] Instance prog_ret {F} : MRet (prog F) := @Done F.

#[export] Instance prog_bind {F} : MBind (prog F) := λ A B f,
  fix bind (p : prog F A) : prog F B :=
    match p with
    | Done a => f a
    | Fail e => Fail e
    | Read k c => Read k (λ x, bind (c x))
    | Peek k c => Peek k (λ x, bind (c x))
    | Load h c => Load h (λ x, bind (c x))
    | Store h o c => Store h o (bind c)
    | Update h c => Update h (bind c)
    | Insert s c => Insert s (bind c)
    | Erase h c => Erase h (bind c)
    | Succ k l c => Succ k l (λ x, bind (c x))
    end.

Section Ops.
Context {F : Type}.

Definition read (k : Keylet) : prog F (option (SLE F)) := Read k Done.
Definition peek (k : Keylet) : prog F (option Z) := Peek k Done.
Definition load (h : Z) : prog F (SLE F) := Load h Done.
Definition store (h : Z) (o : F) : prog F unit := Store h o (Done tt).
Definition update (h : Z) : prog F unit := Update h (Done tt).
Definition insert (s : SLE F) : prog F unit := Insert s (Done tt).
Definition erase (h : Z) : prog F unit := Erase h (Done tt).
Definition succ (key : Z) (last : option Z) : prog F (option Z) := Succ key last Done.
Definition fail {A} (e : exn) : prog F A := Fail e.
Definition from {A} (m : outcome A) : prog F A :=
  match m with Ret a => Done a | Throw e => Fail e end.

(** [LogicError (message)]. *)
Definition LogicError {A} (msg : string) : prog F A := Fail (logic_error msg).
End Ops.

(** ** Running on a map *)

Definition set_body {F} (s : SLE F) (o : F) : SLE F := mkSLE (sle_key s) (sle_type s) o.

Record vstate {F : Type} : Type := mkV {
  vs_map : gmap Z (SLE F);
  vs_saved : gset Z;
  vs_dirty : gset Z }.
Arguments vstate : clear implicits.
Arguments mkV {F} _ _ _.

Section Run.
Context {F : Type}.
Implicit Types (s : vstate F).

(** The first key after [key] and below [last]. *)
Definition map_succ (m : gmap Z (SLE F)) (key : Z) (last : option Z) : option Z :=
  let next := fst <$> head (filter (λ x, key < x.1) (in_order m)) in
  match last with
  | Some l => match next with Some n => if n <? l then next else None | None => None end
  | None => next
  end.

Fixpoint run {A} (p : prog F A) (s : vstate F) : outcome (A * vstate F) :=
  match p with
  | Done a => Ret (a, s)
  | Fail e => Throw e
  | Read k c => run (c (lookup_kl (vs_map s) k)) s
  | Peek k c => run (c ((λ _, kl_key k) <$> lookup_kl (vs_map s) k)) s
  | Load h c =>
    match vs_map s !! h with
    | Some x => run (c x) s
    | None => Throw (logic_error "null pointer")
    end
  | Store h o c =>
    match vs_map s !! h with
    | Some x =>
      run c (mkV (<[h := set_body x o]> (vs_map s)) (vs_saved s)
        (if decide (h ∈ vs_saved s) then vs_dirty s else {[h]} ∪ vs_dirty s))
    | None => Throw (logic_error "null pointer")
    end
  | Update h c =>
    match vs_map s !! h with
    | Some _ => run c (mkV (vs_map s) ({[h]} ∪ vs_saved s) (vs_dirty s ∖ {[h]}))
    | None => Throw (logic_error "null pointer")
    end
  | Insert x c =>
    match vs_map s !! sle_key x with
    | None =>
      run c (mkV (<[sle_key x := x]> (vs_map s)) ({[sle_key x]} ∪ vs_saved s)
        (vs_dirty s ∖ {[sle_key x]}))
    | Some _ => Throw (logic_error "already there")
    end
  | Erase h c =>
    match vs_map s !! h with
    | Some _ => run c (mkV (delete h (vs_map s)) (vs_saved s ∖ {[h]}) (vs_dirty s ∖ {[h]}))
    | None => Throw (logic_error "null pointer")
    end
  | Succ key last c => run (c (map_succ (vs_map s) key last)) s
  end.

(** Every entry the program inserts is new.  A table does not check that for a key it has
    not seen. *)
Fixpoint inserts_fresh {A} (p : prog F A) (s : vstate F) : Prop :=
  match p with
  | Done _ | Fail _ => True
  | Read k c => inserts_fresh (c (lookup_kl (vs_map s) k)) s
  | Peek k c => inserts_fresh (c ((λ _, kl_key k) <$> lookup_kl (vs_map s) k)) s
  | Load h c => ∀ x, vs_map s !! h = Some x → inserts_fresh (c x) s
  | Store h o c => ∀ x, vs_map s !! h = Some x →
      inserts_fresh c (mkV (<[h := set_body x o]> (vs_map s)) (vs_saved s)
        (if decide (h ∈ vs_saved s) then vs_dirty s else {[h]} ∪ vs_dirty s))
  | Update h c => inserts_fresh c (mkV (vs_map s) ({[h]} ∪ vs_saved s) (vs_dirty s ∖ {[h]}))
  | Insert x c => vs_map s !! sle_key x = None ∧
      inserts_fresh c (mkV (<[sle_key x := x]> (vs_map s)) ({[sle_key x]} ∪ vs_saved s)
        (vs_dirty s ∖ {[sle_key x]}))
  | Erase h c => inserts_fresh c (mkV (delete h (vs_map s)) (vs_saved s ∖ {[h]}) (vs_dirty s ∖ {[h]}))
  | Succ key last c => inserts_fresh (c (map_succ (vs_map s) key last)) s
  end.
End Run.

(** ** Running on a table *)

Section RunTable.
Context {F : Type} (base : ReadView F).
Import Apply.

(** The pointer the table holds under a key.  It is there since [peek] or [insert] gave
    it out, so that looking it up changes nothing. *)
Definition pointer (h : Z) (hp : heap F) (t : ApplyStateTable) :
    outcome (sptr * heap F * ApplyStateTable) :=
  let '(r, hp, t) := ap_peek base (unchecked h) hp t in
  match r with
  | Some p => Ret (p, hp, t)
  | None => Throw (logic_error "null pointer")
  end.

Fixpoint run_table {A} (p : prog F A) (hp : heap F) (t : ApplyStateTable) :
    outcome (A * heap F * ApplyStateTable) :=
  match p with
  | Done a => Ret (a, hp, t)
  | Fail e => Throw e
  | Read k c => run_table (c (ap_read base hp t k)) hp t
  | Peek k c => let '(r, hp, t) := ap_peek base k hp t in run_table (c (pkey <$> r)) hp t
  | Load h c =>
    '(p, hp, t) ← pointer h hp t;
    match deref hp p with
    | Some x => run_table (c x) hp t
    | None => Throw (logic_error "null pointer")
    end
  | Store h o c =>
    '(p, hp, t) ← pointer h hp t;
    match deref hp p with
    | Some x => run_table c (<[addr p := set_body x o]> hp) t
    | None => Throw (logic_error "null pointer")
    end
  | Update h c => '(p, hp, t) ← pointer h hp t; t ← ap_update p t; run_table c hp t
  | Insert x c => let '(p, hp) := alloc hp x in t ← ap_insert p t; run_table c hp t
  | Erase h c => '(p, hp, t) ← pointer h hp t; t ← ap_erase p t; run_table c hp t
  | Succ key last c => run_table (c (ap_succ base t key last)) hp t
  end.
End RunTable.

(** ** The table implements the map *)

Lemma is_succ_unique {A} (m : gmap Z A) key last r r' :
  is_succ m key last r → is_succ m key last r' → r = r'.
Proof.
  destruct r as [k|], r' as [k'|]; simpl; try done.
  - intros (Hk & Hlt & _ & Hmin) (Hk' & Hlt' & _ & Hmin').
    specialize (Hmin k' Hlt' Hk'). specialize (Hmin' k Hlt Hk). f_equal. lia.
  - intros (Hk & Hlt & Hl & _) Hn. destruct (Hn k Hlt Hk) as (l & -> & ?). specialize (Hl l eq_refl). lia.
  - intros Hn (Hk & Hlt & Hl & _). destruct (Hn k' Hlt Hk) as (l & -> & ?). specialize (Hl l eq_refl). lia.
Qed.

Lemma map_succ_spec {F} (m : gmap Z (SLE F)) key last : is_succ m key last (map_succ m key last).
Proof.
  unfold map_succ.
  pose proof (head_filter_sorted key_le (λ x, key < x.1) _ (in_order_sorted m)) as H.
  destruct (head _) as [[k x]|]; simpl.
  - destruct H as (Hin%elem_of_in_order & Hlt & Hmin). simpl in *.
    assert (Hle : ∀ k', key < k' → is_Some (m !! k') → k ≤ k').
    { intros k' Hk' [y Hy]. destruct (Hmin (k', y)) as [[= -> ->]|Hle]; [by apply elem_of_in_order|done|lia|done]. }
    destruct last as [l|]; [destruct (Z.ltb_spec k l)|]; simpl.
    + split_and!; [eauto|done|by intros ? [= <-]|done].
    + intros k' Hk' Hs. exists l. split; [done|]. specialize (Hle k' Hk' Hs). lia.
    + split_and!; [eauto|done|done|done].
  - assert (Hno : ∀ k', key < k' → ¬ is_Some (m !! k')).
    { intros k' Hk' [y Hy]. apply (H (k', y)); [by apply elem_of_in_order|done]. }
    destruct last; simpl; intros k' Hk' Hs; by destruct (Hno k' Hk').
Qed.

(** A map as a view. *)
Definition map_view {F} (m : gmap Z (SLE F)) : ReadView F :=
  mkView (λ k, bool_decide (is_Some (lookup_kl m k))) (lookup_kl m) (map_succ m).

#[export] Instance map_view_of {F} (m : gmap Z (SLE F)) : ViewOf (map_view m) m.
Proof. split; [done|done|]. intros. apply map_succ_spec. Qed.

Section Refine.
Context {F : Type} (base : ReadView F) (m : gmap Z (SLE F)) `{!ViewOf base m} (Hkey : keyed m).
Import Apply.
Import ApplyProofs.
Implicit Types (hp : heap F) (t : ApplyStateTable) (s : vstate F).

(** The relation: the table is well formed and shows the map, the keys that count as saved
    are inserted or modified in the table, and a cached entry differs from the base
    only if it is marked. *)
Record sim hp t s : Prop := {
  sim_items : items_ok eff hp m (items_ t);
  sim_state : state hp m t = vs_map s;
  sim_saved k : k ∈ vs_saved s → ∃ a p, items_ t !! k = Some (a, p) ∧ (a = Apply.insert ∨ a = modify);
  sim_clean k p : items_ t !! k = Some (cache, p) → k ∉ vs_dirty s → deref hp p = m !! k }.

Lemma sim_case hp t s k :
  sim hp t s →
  match items_ t !! k with
  | None => vs_map s !! k = m !! k
  | Some (Apply.erase, p) => vs_map s !! k = None ∧ m !! k ≠ None
  | Some (a, p) => (∃ x, points hp p x ∧ vs_map s !! k = Some x) ∧ pkey p = k ∧
      (a = Apply.insert ↔ m !! k = None)
  end.
Proof.
  intros [Hok Hst _ _]. rewrite <- Hst. unfold state. rewrite lookup_overlay.
  destruct (items_ t !! k) as [[a p]|] eqn:Ei; [|done].
  destruct (Hok k (a, p) Ei) as (Hp & Hs & Hins). simpl in *.
  destruct a; simpl in *; try (destruct (Hs ltac:(done)) as (x & Hx);
    split_and!; [exists x; split; [done|apply Hx]|done|rewrite <- Hins; done]).
  split; [done|]. intros E. by apply Hins in E.
Qed.

Lemma sim_read hp t s k : sim hp t s → ap_read base hp t k = lookup_kl (vs_map s) k.
Proof.
  intros Hsim. unfold ap_read, lookup_kl. pose proof (sim_case hp t s (kl_key k) Hsim) as H.
  destruct (items_ t !! kl_key k) as [[[] p]|].
  1,3,4: destruct H as ((x & [Hd _] & ->) & _); by rewrite Hd.
  - by rewrite (proj1 H).
  - by rewrite H, vo_read.
Qed.

(** What the table holds for a key that is not erased. *)
Lemma sim_live hp t s k a p :
  sim hp t s → items_ t !! k = Some (a, p) → a ≠ Apply.erase →
  ∃ x, points hp p x ∧ vs_map s !! k = Some x ∧ pkey p = k.
Proof.
  intros Hsim Hi Ha. pose proof (sim_case hp t s k Hsim) as H. rewrite Hi in H.
  destruct a; try done; destruct H as ((x & Hx & Hm) & Hk & _); eauto.
Qed.

(** Two heaps that agree on what the table holds. *)
Lemma sim_heap hp hp' t s :
  (∀ k a p, items_ t !! k = Some (a, p) → a ≠ Apply.erase → deref hp' p = deref hp p) →
  sim hp t s → sim hp' t s.
Proof.
  intros Hd Hsim. pose proof Hsim as [Hok Hst Hsv Hcl]. split.
  - intros k [a p] Hi. destruct (Hok k _ Hi) as (Hp & Hs & Hins). split_and!; [done| |done].
    intros Ha. destruct (Hs Ha) as (x & Hx & Hxk). exists x. split; [|done]. simpl in *.
    rewrite (Hd k a p Hi); [done|]. by intros ->.
  - rewrite <- Hst. unfold state. apply map_eq. intros k. rewrite !lookup_overlay.
    destruct (items_ t !! k) as [[a p]|] eqn:Ei; [|done]. simpl.
    destruct a; try done; by apply (Hd k _ p Ei).
  - done.
  - intros k p Hi Hk. rewrite (Hd k cache p Hi); [|done]. by apply Hcl.
Qed.

Lemma sim_mono hp hp' t s : hp ⊆ hp' → sim hp t s → sim hp' t s.
Proof.
  intros Hh Hsim. apply (sim_heap hp); [|done]. intros k a p Hi Ha.
  destruct (sim_live _ _ _ _ _ _ Hsim Hi Ha) as (x & [Hx _] & _). rewrite Hx. by eapply lookup_weaken.
Qed.

Lemma sim_peek hp t s k :
  sim hp t s →
  let '(r, hp', t') := ap_peek base k hp t in
  sim hp' t' s ∧
  match r with
  | Some p => ∃ x, points hp' p x ∧ lookup_kl (vs_map s) k = Some x ∧ pkey p = kl_key k ∧ holds t' p
  | None => lookup_kl (vs_map s) k = None
  end.
Proof using Hkey ViewOf0.
  intros Hsim. unfold ap_peek. pose proof (sim_case hp t s (kl_key k) Hsim) as H. unfold lookup_kl.
  destruct (items_ t !! kl_key k) as [[a p]|] eqn:Ei.
  - destruct (decide (a = Apply.erase)) as [->|Ha]; [by rewrite (proj1 H)|].
    destruct (sim_live _ _ _ _ _ _ Hsim Ei Ha) as (x & Hx & Hm & Hk). clear H.
    assert (Hpk : match a with
      | Apply.erase => (None, hp, t)
      | _ => match deref hp p with
             | Some sle => (if check k sle then Some p else None, hp, t)
             | None => (None, hp, t)
             end
      end = (if check k x then Some p else None, hp, t)) by (rewrite (proj1 Hx); by destruct a).
    rewrite Hpk, Hm. destruct (check k x); split; try done.
    exists x. split_and!; try done. exists a. by rewrite Hk.
  - rewrite vo_read, H. unfold lookup_kl.
    destruct (m !! kl_key k) as [x|] eqn:Em; [|done]. destruct (check k x) eqn:Ec; [|done].
    pose proof (alloc_spec hp x) as Ha. destruct (alloc hp x) as [p hp'].
    destruct Ha as (Hh & Hx & Hp). pose proof (Hkey _ _ Em) as Hk. simpl in Hk.
    pose proof (sim_mono _ _ _ _ Hh Hsim) as [Hok Hst Hsv Hcl].
    assert (Hpk : pkey p = kl_key k) by congruence. split; [split|]; simpl.
    + apply items_ok_put; [done|]. split_and!; [simpl; congruence|eauto|]. simpl.
      rewrite Hk, Em. done.
    + unfold state in *. simpl. rewrite (overlay_put _ _ _ _ _ _ _ x), Hst; [|done|apply Hx].
      apply insert_id. by rewrite Hk, H.
    + intros k' Hin. destruct (Hsv k' Hin) as (a & q & Hi & Hor). exists a, q. split; [|done].
      rewrite lookup_insert_ne; [done|]. congruence.
    + intros k' q. destruct (decide (k' = sle_key x)) as [->|].
      * rewrite lookup_insert_eq. intros [= <-] _. rewrite Hk, Em. apply Hx.
      * rewrite lookup_insert_ne by done. apply Hcl.
    + exists x. split_and!; try done. exists cache. split; [|done]. simpl.
      rewrite Hpk, <- Hk. by rewrite lookup_insert_eq.
Qed.

Lemma pointer_spec hp t s k x :
  sim hp t s → vs_map s !! k = Some x →
  ∃ p hp' t', pointer base k hp t = Ret (p, hp', t') ∧ sim hp' t' s ∧ points hp' p x ∧
    pkey p = k ∧ holds t' p.
Proof using Hkey ViewOf0.
  intros Hsim Hm. unfold pointer. pose proof (sim_peek hp t s (unchecked k) Hsim) as H.
  destruct (ap_peek base (unchecked k) hp t) as [[r hp'] t']. destruct H as [Hsim' H].
  unfold lookup_kl in H. simpl in H. rewrite Hm in H.
  destruct r as [p|]; [|by simpl in H]. destruct H as (y & Hy & Hl & Hk & Hh).
  exists p, hp', t'. simpl in Hl. injection Hl as <-. done.
Qed.

(** Writing through a pointer the table holds. *)
Lemma sim_store hp t s p x o :
  sim hp t s → holds t p → points hp p x → vs_map s !! pkey p = Some x →
  sim (<[addr p := set_body x o]> hp) t
    (mkV (<[pkey p := set_body x o]> (vs_map s)) (vs_saved s)
      (if decide (pkey p ∈ vs_saved s) then vs_dirty s else {[pkey p]} ∪ vs_dirty s)).
Proof.
  intros Hsim (a & Hi & Ha) [Hd Hk] Hm. pose proof Hsim as [Hok Hst Hsv Hcl].
  set (hp' := <[addr p := set_body x o]> hp).
  assert (Hnew : deref hp' p = Some (set_body x o)) by (unfold deref, hp'; by rewrite lookup_insert_eq).
  assert (Hold : ∀ k b q, items_ t !! k = Some (b, q) → b ≠ Apply.erase → k ≠ pkey p → deref hp' q = deref hp q).
  { intros k b q Hq Hb Hne. unfold deref, hp'. apply lookup_insert_ne. intros E.
    destruct (sim_live _ _ _ _ _ _ Hsim Hq Hb) as (y & [Hy Hyk] & _ & Hqk).
    unfold deref in Hd, Hy. rewrite E in Hd. congruence. }
  split; simpl.
  - intros k [b q] Hq. destruct (Hok k _ Hq) as (Hp & Hs & Hins). split_and!; [done| |done].
    intros Hb. destruct (decide (k = pkey p)) as [->|Hne].
    + rewrite Hi in Hq. injection Hq as <- <-. exists (set_body x o). split; [done|]. by simpl.
    + destruct (Hs Hb) as (y & Hy & Hyk). exists y. split; [|done]. simpl in *.
      rewrite (Hold k b q Hq); [done| |done]. by intros ->.
  - apply map_eq. intros k. unfold state. rewrite lookup_overlay.
    destruct (decide (k = pkey p)) as [->|Hne].
    + rewrite lookup_insert_eq, Hi. simpl. by destruct a.
    + rewrite lookup_insert_ne, <- Hst by done. unfold state. rewrite lookup_overlay.
      destruct (items_ t !! k) as [[b q]|] eqn:Eq; [|done]. simpl.
      destruct b; try done; by apply (Hold k _ q Eq).
  - done.
  - intros k q Hq Hdirty. destruct (decide (k = pkey p)) as [->|Hne].
    + rewrite Hi in Hq. injection Hq as -> <-. exfalso. destruct (decide (pkey p ∈ vs_saved s)) as [Hin|].
      * destruct (Hsv _ Hin) as (b & q & Hq & Hor). rewrite Hi in Hq. destruct Hor; congruence.
      * apply Hdirty. apply elem_of_union_l. by apply elem_of_singleton.
    + rewrite (Hold k cache q Hq) by done. apply Hcl; [done|]. intros Hin. apply Hdirty.
      case_decide; [done|by apply elem_of_union_r].
Qed.

Lemma put_items_ok hp t k a p x :
  items_ok eff hp m (items_ t) → pkey p = k → points hp p x → a ≠ cache → a ≠ Apply.erase →
  (a = Apply.insert ↔ m !! k = None) → items_ok eff hp m (items_ (ap_put k (a, p) t)).
Proof.
  intros Hok Hp Hx H1 H2 Hins. apply items_ok_put; [done|]. split_and!; [done|eauto|]. simpl.
  rewrite <- Hins. by destruct a.
Qed.

(** Storing a pointer in the table as inserted or modified. *)
Lemma sim_put hp t s k a p x :
  sim hp t s → pkey p = k → points hp p x → a = Apply.insert ∨ a = modify →
  (a = Apply.insert ↔ m !! k = None) →
  sim hp (ap_put k (a, p) t) (mkV (<[k := x]> (vs_map s)) ({[k]} ∪ vs_saved s) (vs_dirty s ∖ {[k]})).
Proof.
  intros [Hok Hst Hsv Hcl] Hp Hx Ha Hins. split; simpl.
  - eapply put_items_ok; try done; destruct Ha as [-> | ->]; done.
  - unfold state in *. simpl. rewrite (overlay_put _ _ _ _ _ _ _ x), Hst; [done| |apply Hx].
    by destruct Ha as [-> | ->].
  - intros k' Hin. destruct (decide (k' = k)) as [->|Hne].
    + exists a, p. rewrite lookup_insert_eq. done.
    + destruct (Hsv k') as (b & q & Hi & Hor).
      { apply elem_of_union in Hin as [?%elem_of_singleton|?]; done. }
      exists b, q. by rewrite lookup_insert_ne.
  - intros k' q. destruct (decide (k' = k)) as [->|Hne].
    + rewrite lookup_insert_eq. intros [= -> ->]. by destruct Ha.
    + rewrite lookup_insert_ne by done. intros Hi Hd. apply Hcl; [done|]. intros Hin. apply Hd.
      apply elem_of_difference. split; [done|]. by intros ?%elem_of_singleton.
Qed.

Lemma sim_update hp t s p x :
  sim hp t s → holds t p → points hp p x → vs_map s !! pkey p = Some x →
  ∃ t', ap_update p t = Ret t' ∧
    sim hp t' (mkV (vs_map s) ({[pkey p]} ∪ vs_saved s) (vs_dirty s ∖ {[pkey p]})).
Proof.
  intros Hsim (a & Hi & Ha) Hx Hm. unfold ap_update. rewrite Hi, bool_decide_true by done.
  pose proof (sim_case hp t s (pkey p) Hsim) as H. rewrite Hi in H.
  assert (Hput : ∀ a0, items_ t !! pkey p = Some (a0, p) → ap_put (pkey p) (a0, p) t = t).
  { intros a0 H0. destruct t as [it d]. unfold ap_put. simpl in *. by rewrite insert_id. }
  assert (Hres : ∀ a', a' = Apply.insert ∨ a' = modify → (a' = Apply.insert ↔ m !! pkey p = None) →
    sim hp (ap_put (pkey p) (a', p) t)
      (mkV (vs_map s) ({[pkey p]} ∪ vs_saved s) (vs_dirty s ∖ {[pkey p]}))).
  { intros a' Ha' Hins. pose proof (sim_put hp t s (pkey p) a' p x Hsim eq_refl Hx Ha' Hins) as Hs.
    by rewrite insert_id in Hs. }
  destruct a; try done; destruct H as (_ & _ & Hins).
  - eexists. split; [done|]. apply Hres; [by right|]. rewrite <- Hins. done.
  - exists t. split; [done|]. specialize (Hres Apply.insert). rewrite Hput in Hres by done.
    apply Hres; [by left|done].
  - exists t. split; [done|]. specialize (Hres modify). rewrite Hput in Hres by done.
    apply Hres; [by right|done].
Qed.

Lemma sim_insert hp t s p x :
  sim hp t s → points hp p x → vs_map s !! pkey p = None →
  ∃ t', ap_insert p t = Ret t' ∧
    sim hp t' (mkV (<[pkey p := x]> (vs_map s)) ({[pkey p]} ∪ vs_saved s) (vs_dirty s ∖ {[pkey p]})).
Proof.
  intros Hsim Hx Hm. pose proof (sim_case hp t s (pkey p) Hsim) as H. unfold ap_insert.
  destruct (items_ t !! pkey p) as [[[] q]|] eqn:Ei.
  1,3,4: destruct H as ((y & _ & Hy) & _); congruence.
  - eexists. split; [done|]. apply sim_put; try done; [by right|]. split; [done|]. by intros ?%(proj2 H).
  - eexists. split; [done|]. apply sim_put; try done; [by left|]. split; [|done]. intros _. congruence.
Qed.

Lemma sim_erase hp t s p x :
  sim hp t s → holds t p → vs_map s !! pkey p = Some x →
  ∃ t', ap_erase p t = Ret t' ∧
    sim hp t' (mkV (delete (pkey p) (vs_map s)) (vs_saved s ∖ {[pkey p]}) (vs_dirty s ∖ {[pkey p]})).
Proof.
  intros Hsim (a & Hi & Ha) Hm. pose proof (sim_case hp t s (pkey p) Hsim) as H.
  pose proof Hsim as [Hok Hst Hsv Hcl]. unfold ap_erase. rewrite Hi in *. rewrite bool_decide_true by done.
  assert (Hrest : ∀ t', (∀ k, k ≠ pkey p → items_ t' !! k = items_ t !! k) →
    (∀ q, items_ t' !! pkey p ≠ Some (cache, q)) → items_ok eff hp m (items_ t') →
    state hp m t' = delete (pkey p) (vs_map s) →
    sim hp t' (mkV (delete (pkey p) (vs_map s)) (vs_saved s ∖ {[pkey p]}) (vs_dirty s ∖ {[pkey p]}))).
  { intros t' Hsame Hnc Hok' Hst'. split; simpl; [done|done| |].
    - intros k [Hin Hne]%elem_of_difference. rewrite Hsame; [by apply Hsv|].
      intros ->. apply Hne. by apply elem_of_singleton.
    - intros k q Hq Hd. destruct (decide (k = pkey p)) as [->|Hne]; [by destruct (Hnc q)|].
      rewrite Hsame in Hq by done. apply Hcl; [done|]. intros Hin. apply Hd, elem_of_difference.
      split; [done|]. by intros ?%elem_of_singleton. }
  destruct a; try done; destruct H as (_ & _ & Hins); eexists; (split; [done|]); apply Hrest; simpl.
  - intros k Hk. by rewrite lookup_insert_ne.
  - intros q. by rewrite lookup_insert_eq.
  - apply items_ok_put; [done|]. split_and!; [done|done|]. simpl. rewrite <- Hins. done.
  - unfold state in *. simpl. by rewrite overlay_put_erase, Hst.
  - intros k Hk. by rewrite lookup_delete_ne.
  - intros q. by rewrite lookup_delete_eq.
  - by apply items_ok_drop.
  - unfold state in *. simpl. rewrite overlay_drop, Hst; [done|]. by apply Hins.
  - intros k Hk. by rewrite lookup_insert_ne.
  - intros q. by rewrite lookup_insert_eq.
  - apply items_ok_put; [done|]. split_and!; [done|done|]. simpl. rewrite <- Hins. done.
  - unfold state in *. simpl. by rewrite overlay_put_erase, Hst.
Qed.

Lemma sim_succ hp t s key last :
  sim hp t s → ap_succ base t key last = map_succ (vs_map s) key last.
Proof using ViewOf0.
  intros Hsim. eapply is_succ_unique; [|apply map_succ_spec]. apply (table_succ_spec _ _ base m).
  rewrite <- (sim_state _ _ _ Hsim). apply items_show; [|apply Hsim]. apply is_erase_eff.
Qed.

(** Every run on the map is matched on the table. *)
Lemma run_table_refines {A} (p : prog F A) hp t s a s' :
  sim hp t s → run p s = Ret (a, s') →
  ∃ hp' t', run_table base p hp t = Ret (a, hp', t') ∧ sim hp' t' s'.
Proof using Hkey ViewOf0.
  revert hp t s. induction p as [x|e|k c IH|k c IH|h c IH|h o c IH|h c IH|y c IH|h c IH|k l c IH];
    intros hp t s Hsim Hrun; cbn [run run_table] in *.
  - injection Hrun as -> ->. eauto.
  - done.
  - rewrite (sim_read _ _ _ _ Hsim). by eapply IH.
  - pose proof (sim_peek hp t s k Hsim) as H. destruct (ap_peek base k hp t) as [[r hp'] t'].
    destruct H as [Hsim' H]. apply (IH _ _ _ _ Hsim'). destruct r as [p|]; simpl.
    + destruct H as (x & _ & Hl & -> & _). by rewrite Hl in Hrun.
    + by rewrite H in Hrun.
  - destruct (vs_map s !! h) as [x|] eqn:Hm; [|done].
    destruct (pointer_spec hp t s h x Hsim Hm) as (p & hp' & t' & -> & Hsim' & [Hd _] & _).
    cbn [mbind outcome_bind]. rewrite Hd. by eapply IH.
  - destruct (vs_map s !! h) as [x|] eqn:Hm; [|done].
    destruct (pointer_spec hp t s h x Hsim Hm) as (p & hp' & t' & -> & Hsim' & Hx & <- & Hh).
    cbn [mbind outcome_bind]. rewrite (proj1 Hx).
    eapply IH; [|exact Hrun]. by apply sim_store.
  - destruct (vs_map s !! h) as [x|] eqn:Hm; [|done].
    destruct (pointer_spec hp t s h x Hsim Hm) as (p & hp' & t' & -> & Hsim' & Hx & <- & Hh).
    destruct (sim_update hp' t' s p x Hsim' Hh Hx Hm) as (t2 & Hu & Hs2).
    cbn [mbind outcome_bind]. rewrite Hu. cbn [mbind outcome_bind]. by eapply IH.
  - destruct (vs_map s !! sle_key y) as [|] eqn:Hm; [done|].
    pose proof (alloc_spec hp y) as Ha. destruct (alloc hp y) as [p hp']. destruct Ha as (Hh & Hx & Hp).
    rewrite <- Hp in Hm, Hrun.
    destruct (sim_insert hp' t s p y (sim_mono _ _ _ _ Hh Hsim) Hx Hm) as (t2 & -> & Hs2).
    cbn [mbind outcome_bind]. by eapply IH.
  - destruct (vs_map s !! h) as [x|] eqn:Hm; [|done].
    destruct (pointer_spec hp t s h x Hsim Hm) as (p & hp' & t' & -> & Hsim' & Hx & <- & Hh).
    destruct (sim_erase hp' t' s p x Hsim' Hh Hm) as (t2 & Hu & Hs2).
    cbn [mbind outcome_bind]. rewrite Hu. cbn [mbind outcome_bind]. by eapply IH.
  - rewrite (sim_succ _ _ _ _ _ Hsim). by eapply IH.
Qed.

Lemma pointer_none hp t s k :
  sim hp t s → vs_map s !! k = None → ∃ e, pointer base k hp t = Throw e.
Proof using Hkey ViewOf0.
  intros Hsim Hm. unfold pointer. pose proof (sim_peek hp t s (unchecked k) Hsim) as H.
  destruct (ap_peek base (unchecked k) hp t) as [[r hp'] t']. destruct H as [Hsim' H].
  unfold lookup_kl in H. simpl in H. rewrite Hm in H. destruct r as [p|]; [|eauto].
  by destruct H as (y & _ & ? & _).
Qed.

(** Every run on the table is a run on the map, for a program whose insertions are new. *)
Lemma run_table_sound {A} (p : prog F A) hp t s a hp' t' :
  sim hp t s → inserts_fresh p s → run_table base p hp t = Ret (a, hp', t') →
  ∃ s', run p s = Ret (a, s') ∧ sim hp' t' s'.
Proof using Hkey ViewOf0.
  revert hp t s. induction p as [x|e|k c IH|k c IH|h c IH|h o c IH|h c IH|y c IH|h c IH|k l c IH];
    intros hp t s Hsim Hf Hrun; cbn [run run_table inserts_fresh] in *.
  - injection Hrun as -> -> ->. eauto.
  - done.
  - rewrite (sim_read _ _ _ _ Hsim) in Hrun. by eapply IH.
  - pose proof (sim_peek hp t s k Hsim) as H. destruct (ap_peek base k hp t) as [[r hp1] t1].
    destruct H as [Hsim' H]. destruct r as [p|]; simpl in *.
    + destruct H as (x & _ & Hl & Hk & _). rewrite Hk in Hrun. rewrite Hl in *. by eapply (IH (Some (kl_key k))).
    + rewrite H in *. by eapply (IH None).
  - destruct (vs_map s !! h) as [x|] eqn:Hm.
    2: { destruct (pointer_none hp t s h Hsim Hm) as [e He]. by rewrite He in Hrun. }
    destruct (pointer_spec hp t s h x Hsim Hm) as (p & hp1 & t1 & Hp & Hsim' & [Hd _] & _).
    rewrite Hp in Hrun. cbn [mbind outcome_bind] in Hrun. rewrite Hd in Hrun. by eapply IH; eauto.
  - destruct (vs_map s !! h) as [x|] eqn:Hm.
    2: { destruct (pointer_none hp t s h Hsim Hm) as [e He]. by rewrite He in Hrun. }
    destruct (pointer_spec hp t s h x Hsim Hm) as (p & hp1 & t1 & Hp & Hsim' & Hx & <- & Hh).
    rewrite Hp in Hrun. cbn [mbind outcome_bind] in Hrun. rewrite (proj1 Hx) in Hrun.
    eapply IH; [by apply sim_store|by apply Hf|exact Hrun].
  - destruct (vs_map s !! h) as [x|] eqn:Hm.
    2: { destruct (pointer_none hp t s h Hsim Hm) as [e He]. by rewrite He in Hrun. }
    destruct (pointer_spec hp t s h x Hsim Hm) as (p & hp1 & t1 & Hp & Hsim' & Hx & <- & Hh).
    destruct (sim_update hp1 t1 s p x Hsim' Hh Hx Hm) as (t2 & Hu & Hs2).
    rewrite Hp in Hrun. cbn [mbind outcome_bind] in Hrun. rewrite Hu in Hrun. by eapply IH.
  - destruct Hf as [Hm Hf]. rewrite Hm.
    pose proof (alloc_spec hp y) as Ha. destruct (alloc hp y) as [p hp1]. destruct Ha as (Hh & Hx & Hp).
    destruct (sim_insert hp1 t s p y (sim_mono _ _ _ _ Hh Hsim) Hx) as (t2 & Ht2 & Hs2); [congruence|].
    rewrite Ht2 in Hrun. cbn [mbind outcome_bind] in Hrun. rewrite Hp in Hs2. by eapply IH.
  - destruct (vs_map s !! h) as [x|] eqn:Hm.
    2: { destruct (pointer_none hp t s h Hsim Hm) as [e He]. by rewrite He in Hrun. }
    destruct (pointer_spec hp t s h x Hsim Hm) as (p & hp1 & t1 & Hp & Hsim' & Hx & <- & Hh).
    destruct (sim_erase hp1 t1 s p x Hsim' Hh Hm) as (t2 & Hu & Hs2).
    rewrite Hp in Hrun. cbn [mbind outcome_bind] in Hrun. rewrite Hu in Hrun. by eapply IH.
  - rewrite (sim_succ _ _ _ _ _ Hsim) in Hrun. by eapply IH.
Qed.
End Refine.

(** *** Lost writes

    What a table commits is what it shows, except for writes to entries that were only
    looked at: the table without those entries commits and reports the same changes. *)

#[local] Existing Instance Apply.ApplyAction_eq_dec.

Definition without_cache (t : Apply.ApplyStateTable) : Apply.ApplyStateTable :=
  Apply.mkApply (filter (λ x, x.2.1 ≠ Apply.cache) (Apply.items_ t)) (Apply.dropsDestroyed_ t).

(** The map that committing the table makes of the base map. *)
Definition committed {F} (hp : heap F) (m : gmap Z (SLE F)) (t : Apply.ApplyStateTable) :
    gmap Z (SLE F) := ApplyProofs.state hp m (without_cache t).

Lemma for_each_filter {A V} (f : A → V → outcome V) (P : A → Prop) `{!∀ x, Decision (P x)} l v :
  (∀ x w, ¬ P x → f x w = Ret w) → for_each f (filter P l) v = for_each f l v.
Proof.
  intros Hf. revert v. induction l as [|x l IH]; intros v; [done|].
  rewrite filter_cons. case_decide as Hx; cbn [for_each].
  - destruct (f x v); [apply IH|done].
  - rewrite Hf by done. apply IH.
Qed.

Section Committed.
Context {F : Type} (hp : heap F) (m : gmap Z (SLE F)).
Implicit Types (t : Apply.ApplyStateTable).

Lemma without_cache_ok t :
  items_ok ApplyProofs.eff hp m (Apply.items_ t) → ApplyProofs.ok hp m (without_cache t).
Proof.
  intros Hok. split.
  - intros k i [Hi _]%map_lookup_filter_Some. by apply Hok.
  - intros k [a p] [_ Ha]%map_lookup_filter_Some He. by destruct a.
Qed.

Lemma without_cache_visit base t : Apply.ap_visit base hp (without_cache t) = Apply.ap_visit base hp t.
Proof.
  unfold Apply.ap_visit. simpl. rewrite in_order_filter. apply omap_filter.
  intros [k [a p]] Ha. simpl in *. by rewrite (dec_stable Ha).
Qed.

Lemma without_cache_apply `{!RawView F V} t (v : V) :
  Apply.ap_apply hp (without_cache t) v = Apply.ap_apply hp t v.
Proof.
  unfold Apply.ap_apply. simpl. rewrite in_order_filter. apply for_each_filter.
  intros [k [a p]] w Ha. simpl in Ha. by rewrite (dec_stable Ha).
Qed.

Lemma committed_clean t :
  ApplyProofs.ok hp m t → committed hp m t = ApplyProofs.state hp m t.
Proof.
  intros [_ Hc]. unfold committed, ApplyProofs.state. apply map_eq. intros k. rewrite !lookup_overlay. simpl.
  destruct (Apply.items_ t !! k) as [[a p]|] eqn:Hi.
  - destruct (decide (a = Apply.cache)) as [->|Ha].
    + rewrite (map_lookup_filter_None_2 _ _ k) by (right; naive_solver). simpl.
      symmetry. exact (Hc k _ Hi eq_refl).
    + by rewrite (map_lookup_filter_Some_2 _ _ k (a, p)).
  - by rewrite (map_lookup_filter_None_2 _ _ k) by auto.
Qed.
End Committed.

(** A new view of a base. *)
Lemma sim_empty {F} (m : gmap Z (SLE F)) (hp : heap F) : sim m hp Apply.empty_table (mkV m ∅ ∅).
Proof.
  split; simpl.
  - apply map_Forall_empty.
  - unfold ApplyProofs.state. apply map_eq. intros k. rewrite lookup_overlay. simpl.
    by rewrite lookup_empty.
  - intros k Hk. by apply not_elem_of_empty in Hk.
  - intros k p Hk. by rewrite lookup_empty in Hk.
Qed.

(** C32: a program that runs on the map of a view and loses no write runs with the same result
    on a fresh state table over the view, through shared pointers and caches; committing
    the table to the ledger below then makes the ledger the map the program made. *)
Theorem table_refines {F A} (base : ReadView F) (m m' : gmap Z (SLE F)) (p : prog F A) (a : A)
    (saved : gset Z) (hp : heap F) (Hb : ViewOf base m) (Hkey : keyed m)
    (Hrun : run p (mkV m ∅ ∅) = Ret (a, mkV m' saved ∅)) :
  ∃ hp' t', run_table base p hp Apply.empty_table = Ret (a, hp', t') ∧
    ViewOf (Apply.ap_view base hp' t') m' ∧
    ∀ l, l_map l = m → ∃ l', Apply.ap_apply hp' t' l = Ret l' ∧ l_map l' = m'.
Proof.
  destruct (run_table_refines base m Hkey p hp _ _ _ _ (sim_empty m hp) Hrun)
    as (hp' & t' & Ht & [Hok Hst Hsv Hcl]). simpl in *.
  assert (Hokt : ApplyProofs.ok hp' m t').
  { split; [done|]. intros k [b q] Hi He. simpl in He. destruct b; try done.
    apply Hcl; [done|]. apply not_elem_of_empty. }
  exists hp', t'. split_and!; [done| |].
  - rewrite <- Hst. by apply ApplyProofs.apply_view_correct.
  - intros l Hl. rewrite apply_apply_effects.
    destruct (apply_spec (H := ledger_laws hp') ApplyProofs.eff m (Apply.items_ t') l
      (Apply.dropsDestroyed_ t')) as (l' & Hl' & _ & Habs); [by rewrite Hl|done|apply Hokt|apply Hokt|].
    exists l'. split; [done|]. by rewrite Habs.
Qed.

(** A program that inserts an entry, reads it, writes it and updates it. *)
Definition sample_prog : prog Z Z :=
  insert (mkSLE 5 97 1) ;;
  h ← peek (mkKeylet 97 5);
  match h with
  | Some h => x ← load h; store h (sle_body x + 1) ;; update h ;; mret (sle_body x)
  | None => LogicError "missing"
  end.

Lemma table_refines_witness :
  ∃ hp t, run_table empty_view sample_prog ∅ Apply.empty_table = Ret (1, hp, t) ∧
    ∃ l, Apply.ap_apply hp t (mkLedger ∅ xrp_zero) = Ret l ∧ l_map l = {[5 := mkSLE 5 97 2]}.
Proof.
  destruct (table_refines empty_view ∅ {[5 := mkSLE 5 97 2]} sample_prog 1 {[5]} ∅ empty_view_of)
    as (hp & t & Hr & _ & Hl).
  - intros k x Hx. by rewrite lookup_empty in Hx.
  - vm_compute. reflexivity.
  - exists hp, t. split; [exact Hr|]. by apply Hl.
Defined.
