(* ===== verification/ViewLogic.v ===== *)
(** * Reasoning about programs on a view

    [wp p Q s] says that the program [p] runs from [s] without an error and that its
    result satisfies [Q].  The rules below follow the operations of the view.
    [get] and [put] are the accesses to a field through a pointer, as in
    [sle->getFieldU64 (field)] and [sle->setFieldU64 (field, v)].

    [wlp p Q s] only speaks of the runs that end without an error.  [confined T p P Q] is a
    property of the text of a program: it changes only entries of the types [T], through
    pointers it has been given or has looked up itself; [confined_run] is the frame
    rule that follows. *)

From stdpp Require Import base numbers list gmap strings.
From Stdlib Require Import Lia ZArith.
From S2P Require Import Prelude Serializer STAmount StateTable SField STObject STObjectWire STObjectLaws Entry ApplyView.

Local Open Scope Z_scope.

Section Wp.
Context {F : Type}.
Implicit Types (s : vstate F).

Definition wp {A} (p : prog F A) (Q : A → vstate F → Prop) (s : vstate F) : Prop :=
  ∃ a s', run p s = Ret (a, s') ∧ Q a s'.

Lemma run_bind {A B} (p : prog F A) (f : A → prog F B) s :
  run (p ≫= f) s = match run p s with Ret (a, s') => run (f a) s' | Throw e => Throw e end.
Proof.
  revert s. induction p as [x|e|k c IH|k c IH|h c IH|h o c IH|h c IH|y c IH|h c IH|k l c IH]; intros s;
    simpl; try done; try apply IH; by destruct (vs_map s !! _); try apply IH.
Qed.

Lemma wp_ret {A} (a : A) Q s : Q a s → wp (mret a) Q s.
Proof. intros H. by exists a, s. Qed.

Lemma wp_bind {A B} (p : prog F A) (f : A → prog F B) Q s :
  wp p (λ a s', wp (f a) Q s') s → wp (p ≫= f) Q s.
Proof. intros (a & s1 & H1 & b & s2 & H2 & HQ). exists b, s2. by rewrite run_bind, H1. Qed.

Lemma wp_mono {A} (p : prog F A) (Q Q' : A → vstate F → Prop) s :
  wp p Q s → (∀ a s', Q a s' → Q' a s') → wp p Q' s.
Proof. intros (a & s' & H & HQ) HM. exists a, s'. auto. Qed.

Lemma wp_from {A} (m : outcome A) a Q s : m = Ret a → Q a s → wp (from m) Q s.
Proof. intros -> H. by exists a, s. Qed.

Lemma wp_read k Q s : Q (lookup_kl (vs_map s) k) s → wp (read k) Q s.
Proof. intros H. by exists (lookup_kl (vs_map s) k), s. Qed.

Lemma wp_peek k Q s : Q ((λ _, kl_key k) <$> lookup_kl (vs_map s) k) s → wp (peek k) Q s.
Proof. intros H. by exists ((λ _, kl_key k) <$> lookup_kl (vs_map s) k), s. Qed.

Lemma wp_load h x Q s : vs_map s !! h = Some x → Q x s → wp (load h) Q s.
Proof. intros Hx H. exists x, s. simpl. by rewrite Hx. Qed.

Definition stored (h : Z) (x : SLE F) s : vstate F :=
  mkV (<[h := x]> (vs_map s)) (vs_saved s)
    (if decide (h ∈ vs_saved s) then vs_dirty s else {[h]} ∪ vs_dirty s).
Definition saved (h : Z) s : vstate F :=
  mkV (vs_map s) ({[h]} ∪ vs_saved s) (vs_dirty s ∖ {[h]}).
Definition inserted (x : SLE F) s : vstate F :=
  mkV (<[sle_key x := x]> (vs_map s)) ({[sle_key x]} ∪ vs_saved s) (vs_dirty s ∖ {[sle_key x]}).
Definition erased (h : Z) s : vstate F :=
  mkV (delete h (vs_map s)) (vs_saved s ∖ {[h]}) (vs_dirty s ∖ {[h]}).

Lemma wp_store h o x Q s :
  vs_map s !! h = Some x → Q tt (stored h (set_body x o) s) → wp (store h o) Q s.
Proof. intros Hx H. exists tt, (stored h (set_body x o) s). simpl. by rewrite Hx. Qed.

Lemma wp_update h x Q s : vs_map s !! h = Some x → Q tt (saved h s) → wp (update h) Q s.
Proof. intros Hx H. exists tt, (saved h s). simpl. by rewrite Hx. Qed.

Lemma wp_insert x Q s :
  vs_map s !! sle_key x = None → Q tt (inserted x s) → wp (insert x) Q s.
Proof. intros Hx H. exists tt, (inserted x s). simpl. by rewrite Hx. Qed.

Lemma wp_erase h x Q s : vs_map s !! h = Some x → Q tt (erased h s) → wp (erase h) Q s.
Proof. intros Hx H. exists tt, (erased h s). simpl. by rewrite Hx. Qed.
End Wp.

(** ** Fields of entries *)

Abbreviation view_prog := (prog STObject).

Definition get {V} (T : STClass V) (h : Z) (f : SField) : view_prog V :=
  x ← load h; from (getFieldBy T (sle_body x) f).

Definition put {V} (T : STClass V) (h : Z) (f : SField) (v : V) : view_prog unit :=
  x ← load h; o ← from (setFieldUsing T f v (sle_body x)); store h o.

Lemma wp_get {V} (T : STClass V) h f x v Q s :
  vs_map s !! h = Some x → getFieldBy T (sle_body x) f = Ret v → Q v s → wp (get T h f) Q s.
Proof. intros Hx Hv H. apply wp_bind, (wp_load _ x); [done|]. by apply (wp_from _ v). Qed.

Lemma wp_put {V} (T : STClass V) h f v x o Q s :
  vs_map s !! h = Some x → setFieldUsing T f v (sle_body x) = Ret o →
  Q tt (stored h (set_body x o) s) → wp (put T h f v) Q s.
Proof.
  intros Hx Ho H. apply wp_bind, (wp_load _ x); [done|]. apply wp_bind, (wp_from _ o); [done|].
  by apply (wp_store _ _ x).
Qed.

(** On an entry with the fields of its format. *)
Lemma wp_get_val {V} (T : STClass V) `{!LawfulClass T} t h f x Q s :
  vs_map s !! h = Some x → entry t (sle_body x) → fits T t f = true →
  Q (val T (sle_body x) f) s → wp (get T h f) Q s.
Proof. intros Hx He Hf. apply (wp_get T h f x); [done|by eapply getFieldBy_val]. Qed.

Lemma wp_put_set {V} (T : STClass V) `{!LawfulClass T} t h f v x Q s :
  vs_map s !! h = Some x → entry t (sle_body x) → fits T t f = true →
  Q tt (stored h (set_body x (set T f v (sle_body x))) s) → wp (put T h f v) Q s.
Proof. intros Hx He Hf. apply (wp_put T h f v x); [done|by eapply set_ret]. Qed.

(** ** Runs that end *)

Section Wlp.
Context {F : Type}.
Implicit Types (s : vstate F).

Definition wlp {A} (p : prog F A) (Q : A → vstate F → Prop) (s : vstate F) : Prop :=
  ∀ a s', run p s = Ret (a, s') → Q a s'.

Lemma wlp_ret {A} (a : A) Q s : Q a s → wlp (mret a) Q s.
Proof. by intros H ? ? [= <- <-]. Qed.

Lemma wlp_bind {A B} (p : prog F A) (f : A → prog F B) Q s :
  wlp p (λ a s', wlp (f a) Q s') s → wlp (p ≫= f) Q s.
Proof.
  intros H b s'. rewrite run_bind. destruct (run p s) as [[a s1]|] eqn:E; [|done]. by apply (H a s1 E).
Qed.

Lemma wlp_mono {A} (p : prog F A) (Q Q' : A → vstate F → Prop) s :
  wlp p Q s → (∀ a s', Q a s' → Q' a s') → wlp p Q' s.
Proof. intros H HM a s' E. by apply HM, H. Qed.

Lemma wlp_fail {A} e (Q : A → vstate F → Prop) s : wlp (Fail e) Q s.
Proof. by intros ? ?. Qed.

Lemma wlp_from {A} (m : outcome A) Q s : (∀ a, m = Ret a → Q a s) → wlp (from m) Q s.
Proof. intros H a s'. destruct m; cbn; [|done]. intros [= <- <-]. by apply H. Qed.

Lemma wlp_read k Q s : Q (lookup_kl (vs_map s) k) s → wlp (read k) Q s.
Proof. by intros H ? ? [= <- <-]. Qed.

Lemma wlp_peek k Q s : Q ((λ _, kl_key k) <$> lookup_kl (vs_map s) k) s → wlp (peek k) Q s.
Proof. by intros H ? ? [= <- <-]. Qed.

Lemma wlp_load h Q s : (∀ x, vs_map s !! h = Some x → Q x s) → wlp (load h) Q s.
Proof. intros H a s'. cbn. destruct (vs_map s !! h) as [x|]; [|done]. intros [= <- <-]. by apply H. Qed.

Lemma wlp_store h o Q s :
  (∀ x, vs_map s !! h = Some x → Q tt (stored h (set_body x o) s)) → wlp (store h o) Q s.
Proof. intros H a s'. cbn. destruct (vs_map s !! h) as [x|]; [|done]. intros [= <- <-]. by apply H. Qed.

Lemma wlp_update h Q s : Q tt (saved h s) → wlp (update h) Q s.
Proof. intros H a s'. cbn. destruct (vs_map s !! h) as [x|]; [|done]. by intros [= <- <-]. Qed.

Lemma wlp_insert x Q s : (vs_map s !! sle_key x = None → Q tt (inserted x s)) → wlp (insert x) Q s.
Proof. intros H a s'. cbn. destruct (vs_map s !! sle_key x); [done|]. intros [= <- <-]. by apply H. Qed.

Lemma wlp_erase h Q s : (∀ x, vs_map s !! h = Some x → Q tt (erased h s)) → wlp (erase h) Q s.
Proof. intros H a s'. cbn. destruct (vs_map s !! h) as [x|] eqn:E; [|done]. intros [= <- <-]. by eapply H. Qed.
End Wlp.

(** ** Programs confined to some types of entries *)

Section Confined.
Context {F : Type} (T : Z → bool).
Implicit Types (s : vstate F) (P S D : gset Z).

(** [P] are the pointers the program may use, [S] keys whose writes are known to be
    kept, and [D] those that may have a write that would be lost. *)
Fixpoint confined {A} (p : prog F A) P S D (Q : A → gset Z → gset Z → gset Z → Prop) : Prop :=
  match p with
  | Done a => Q a P S D
  | Fail e => True
  | Read k c => ∀ x, confined (c x) P S D Q
  | Peek k c =>
    T (kl_type k) = true ∧ confined (c None) P S D Q ∧ confined (c (Some (kl_key k))) ({[kl_key k]} ∪ P) S D Q
  | Load h c => h ∈ P ∧ ∀ x, confined (c x) P S D Q
  | Store h o c => h ∈ P ∧ ((h ∈ S ∧ confined c P S D Q) ∨ confined c P S ({[h]} ∪ D) Q)
  | Update h c => ∃ D', D ⊆ {[h]} ∪ D' ∧ confined c P ({[h]} ∪ S) D' Q
  | Insert x c => T (sle_type x) = true ∧ confined c ({[sle_key x]} ∪ P) ({[sle_key x]} ∪ S) D Q
  | Erase h c => h ∈ P ∧ ∃ D', D ⊆ {[h]} ∪ D' ∧ confined c P (S ∖ {[h]}) D' Q
  | Succ k l c => ∀ x, confined (c x) P S D Q
  end.

Lemma confined_bind {A B} (p : prog F A) (f : A → prog F B) P S D Q :
  confined p P S D (λ a P' S' D', confined (f a) P' S' D' Q) → confined (p ≫= f) P S D Q.
Proof.
  revert P S D. induction p as [x|e|k c IH|k c IH|h c IH|h o c IH|h c IH|y c IH|h c IH|k l c IH];
    intros P S D; cbn; try done; try (intros H x; by apply IH).
  - intros (H1 & H2 & H3). split_and!; [done|by apply IH..].
  - intros [H1 H2]. split; [done|]. intros x. by apply IH.
  - intros [H1 [[H2 H3]|H2]]; (split; [done|]); [left|right]; [split; [done|]|]; by apply IH.
  - intros (D' & H1 & H2). exists D'. split; [done|by apply IH].
  - intros [H1 H2]. split; [done|by apply IH].
  - intros (H1 & D' & H2 & H3). split; [done|]. exists D'. split; [done|by apply IH].
Qed.

Lemma confined_mono {A} (p : prog F A) P S D (Q Q' : A → gset Z → gset Z → gset Z → Prop) :
  confined p P S D Q → (∀ r P' S' D', Q r P' S' D' → Q' r P' S' D') → confined p P S D Q'.
Proof.
  intros H HM. revert P S D H. induction p as [x|e|k c IH|k c IH|h c IH|h o c IH|h c IH|y c IH|h c IH|k l c IH];
    intros P S D; cbn; auto.
  - intros (H1 & H2 & H3). auto.
  - intros [H1 H2]. auto.
  - intros [H1 [[H2 H3]|H2]]; auto.
  - intros (D' & H1 & H2). eauto.
  - intros [H1 H2]. auto.
  - intros (H1 & D' & H2 & H3). eauto.
Qed.

(** The entries the program may not change. *)
Definition others (m : gmap Z (SLE F)) : gmap Z (SLE F) := filter (λ x, T (sle_type x.2) = false) m.

Definition typed P (m : gmap Z (SLE F)) : Prop := ∀ h x, h ∈ P → m !! h = Some x → T (sle_type x) = true.

Lemma others_lookup (m : gmap Z (SLE F)) k x : others m !! k = Some x ↔ m !! k = Some x ∧ T (sle_type x) = false.
Proof. unfold others. by rewrite map_lookup_filter_Some. Qed.

Lemma others_insert (m : gmap Z (SLE F)) k x :
  (∀ y, m !! k = Some y → T (sle_type y) = true) → T (sle_type x) = true → others (<[k := x]> m) = others m.
Proof.
  intros Hy Hx. apply map_eq. intros k'. apply option_eq. intros z. rewrite !others_lookup.
  destruct (decide (k = k')) as [->|Hne]; [rewrite lookup_insert_eq|by rewrite lookup_insert_ne].
  split; [intros [[= ->] Hz]|intros [Hm Hz]; apply Hy in Hm]; congruence.
Qed.

Lemma others_delete (m : gmap Z (SLE F)) k :
  (∀ y, m !! k = Some y → T (sle_type y) = true) → others (delete k m) = others m.
Proof.
  intros Hy. apply map_eq. intros k'. apply option_eq. intros z. rewrite !others_lookup.
  destruct (decide (k = k')) as [->|Hne]; [rewrite lookup_delete_eq|by rewrite lookup_delete_ne].
  split; [by intros []|intros [Hm Hz]; apply Hy in Hm]; congruence.
Qed.

Lemma typed_insert P (m : gmap Z (SLE F)) k x :
  typed P m → T (sle_type x) = true → typed ({[k]} ∪ P) (<[k := x]> m).
Proof.
  intros HP Hx h y Hh. destruct (decide (k = h)) as [->|Hne].
  - rewrite lookup_insert_eq. congruence.
  - rewrite lookup_insert_ne by done. apply HP. apply elem_of_union in Hh as [?%elem_of_singleton|?]; [congruence|done].
Qed.

Context (HT : ∀ z, T z = true → 0 ≤ z).

Lemma lookup_kl_type (m : gmap Z (SLE F)) k x :
  lookup_kl m k = Some x → T (kl_type k) = true → T (sle_type x) = true.
Proof using HT.
  unfold lookup_kl, check. destruct (m !! kl_key k) as [y|]; [|done]. intros H Hk. pose proof (HT _ Hk).
  unfold ltANY, ltINVALID, ltCHILD in H. rewrite !(proj2 (Z.eqb_neq _ _)) in H by lia.
  destruct (Z.eqb_spec (sle_type y) (kl_type k)); [|done]. injection H as <-. congruence.
Qed.

Definition allowed P S D s : Prop := typed P (vs_map s) ∧ S ⊆ vs_saved s ∧ vs_dirty s ⊆ D.

Lemma allowed_peek P S D s k x :
  allowed P S D s → lookup_kl (vs_map s) k = Some x → T (kl_type k) = true → allowed ({[kl_key k]} ∪ P) S D s.
Proof using HT.
  intros (HP & HS & HD) E HTk. split_and!; [|done..].
  intros h y [->%elem_of_singleton|Hh]%elem_of_union Hm; [|by eapply HP].
  pose proof (lookup_kl_type _ _ _ E HTk). unfold lookup_kl in E. rewrite Hm in E.
  destruct (check k y); [|done]. by injection E as <-.
Qed.

Lemma allowed_store P S D D' s h x o :
  allowed P S D s → h ∈ P → vs_map s !! h = Some x → (h ∈ S ∧ D' = D) ∨ D' = {[h]} ∪ D →
  allowed P S D' (stored h (set_body x o) s).
Proof.
  intros (HP & HS & HD) Hh Hm HD'. pose proof (HP h x Hh Hm) as Hx. split_and!; [|done|].
  - cbn. intros h' y Hh' Hy. apply (typed_insert P (vs_map s) h (set_body x o) HP Hx h' y); [|done].
    by apply elem_of_union_r.
  - cbn. destruct HD' as [[HhS ->]| ->]; [rewrite decide_True by (by apply HS); done|].
    case_decide; set_solver.
Qed.

(** The frame rule. *)
Lemma confined_run {A} (p : prog F A) P S D Q s a s' :
  confined p P S D Q → allowed P S D s → run p s = Ret (a, s') →
  others (vs_map s') = others (vs_map s) ∧ ∃ P' S' D', Q a P' S' D' ∧ allowed P' S' D' s'.
Proof using HT.
  revert P S D s. induction p as [x|e|k c IH|k c IH|h c IH|h o c IH|h c IH|y c IH|h c IH|k l c IH];
    intros P S D s Hc Ha Hrun; cbn [run confined] in *.
  - injection Hrun as -> ->. split; [done|]. by exists P, S, D.
  - done.
  - by eapply IH.
  - destruct Hc as (HTk & Hn & Hy). destruct (lookup_kl (vs_map s) k) as [x|] eqn:E; cbn in Hrun.
    + eapply IH; [exact Hy| |exact Hrun]. by eapply allowed_peek.
    + exact (IH None P S D s Hn Ha Hrun).
  - destruct (vs_map s !! h) as [x|]; [|done]. destruct Hc as [_ Hc]. by eapply IH.
  - destruct Hc as [Hh Hc]. destruct (vs_map s !! h) as [x|] eqn:Em; [|done].
    assert (∃ D', confined c P S D' Q ∧ allowed P S D' (stored h (set_body x o) s)) as (D' & Hc' & Ha').
    { destruct Hc as [[HhS Hc]|Hc]; eexists; (split; [exact Hc|]); eapply allowed_store; eauto. }
    destruct (IH _ _ _ _ Hc' Ha' Hrun) as [Ho Hr]. split; [|done]. rewrite Ho. cbn.
    apply others_insert; [|exact (proj1 Ha h x Hh Em)]. intros y Hy. eapply (proj1 Ha); [exact Hh|exact Hy].
  - destruct (vs_map s !! h) as [x|]; [|done]. destruct Hc as (D' & HD' & Hc).
    eapply IH in Hrun; [|exact Hc|]; [done|]. destruct Ha as (HP & HS & HD).
    split_and!; cbn; [done|set_solver..].
  - destruct Hc as [Hy Hc]. destruct (vs_map s !! sle_key y) as [|] eqn:Em; [done|].
    destruct Ha as (HP & HS & HD). eapply IH in Hrun; [|exact Hc|].
    + destruct Hrun as [Ho Hr]. split; [|done]. rewrite Ho. cbn. apply others_insert; [|done].
      intros z Hz. congruence.
    + split_and!; cbn; [by apply typed_insert|set_solver..].
  - destruct Hc as (Hh & D' & HD' & Hc). destruct (vs_map s !! h) as [x|] eqn:Em; [|done].
    destruct Ha as (HP & HS & HD). eapply IH in Hrun; [|exact Hc|].
    + destruct Hrun as [Ho Hr]. split; [|done]. rewrite Ho. cbn. apply others_delete.
      intros y Hy. eapply HP; [exact Hh|done].
    + split_and!; cbn; [|set_solver..]. intros h' y Hh' Hy. apply lookup_delete_Some in Hy as [_ Hy]. by eapply HP.
  - by eapply IH.
Qed.
End Confined.

(** *** The operations *)

Section ConfinedOps.
Context {F : Type} (T : Z → bool) (P S D : gset Z).
Local Abbreviation post A := (A → gset Z → gset Z → gset Z → Prop).

Lemma confined_from {A} (m : outcome A) (Q : post A) :
  (∀ a, m = Ret a → Q a P S D) → confined (F := F) T (from m) P S D Q.
Proof. intros H. destruct m; cbn; auto. Qed.
Lemma confined_ret {A} (a : A) (Q : post A) : Q a P S D → confined (F := F) T (mret a) P S D Q.
Proof. done. Qed.
Lemma confined_read k (Q : post (option (SLE F))) : (∀ x, Q x P S D) → confined T (read k) P S D Q.
Proof. done. Qed.
Lemma confined_peek k (Q : post (option Z)) :
  T (kl_type k) = true → Q None P S D → Q (Some (kl_key k)) ({[kl_key k]} ∪ P) S D →
  confined (F := F) T (peek k) P S D Q.
Proof. done. Qed.
Lemma confined_load h (Q : post (SLE F)) : h ∈ P → (∀ x, Q x P S D) → confined T (load h) P S D Q.
Proof. done. Qed.
Lemma confined_store_saved h (o : F) (Q : post unit) : h ∈ P → h ∈ S → Q tt P S D → confined T (store h o) P S D Q.
Proof. cbn. auto. Qed.
Lemma confined_store h (o : F) (Q : post unit) : h ∈ P → Q tt P S ({[h]} ∪ D) → confined T (store h o) P S D Q.
Proof. cbn. auto. Qed.
Lemma confined_update h (Q : post unit) : Q tt P ({[h]} ∪ S) D → confined (F := F) T (update h) P S D Q.
Proof. intros H. cbn. exists D. split; [set_solver|done]. Qed.
Lemma confined_update_written h (Q : post unit) :
  Q tt P ({[h]} ∪ S) D → confined (F := F) T (update h) P S ({[h]} ∪ D) Q.
Proof. intros H. cbn. exists D. done. Qed.
Lemma confined_erase h (Q : post unit) : h ∈ P → Q tt P (S ∖ {[h]}) D → confined (F := F) T (erase h) P S D Q.
Proof. intros Hh H. cbn. split; [done|]. exists D. split; [set_solver|done]. Qed.
Lemma confined_insert (x : SLE F) (Q : post unit) :
  T (sle_type x) = true → Q tt ({[sle_key x]} ∪ P) ({[sle_key x]} ∪ S) D → confined T (insert x) P S D Q.
Proof. done. Qed.
End ConfinedOps.

Section ConfinedFields.
Context (T : Z → bool) (P S D : gset Z).
Local Abbreviation post A := (A → gset Z → gset Z → gset Z → Prop).

Lemma confined_get {V} (C : STClass V) h f (Q : post V) :
  h ∈ P → (∀ v, Q v P S D) → confined T (get C h f) P S D Q.
Proof. intros Hh HQ. cbn. split; [done|]. intros x. apply confined_from. auto. Qed.

Lemma confined_put {V} (C : STClass V) h f (v : V) (Q : post unit) :
  h ∈ P → Q tt P S ({[h]} ∪ D) → confined T (put C h f v) P S D Q.
Proof.
  intros Hh HQ. cbn. split; [done|]. intros x. apply confined_bind, confined_from. intros o _. cbn. auto.
Qed.

Lemma confined_put_saved {V} (C : STClass V) h f (v : V) (Q : post unit) :
  h ∈ P → h ∈ S → Q tt P S D → confined T (put C h f v) P S D Q.
Proof.
  intros Hh HS HQ. cbn. split; [done|]. intros x. apply confined_bind, confined_from. intros o _. cbn. auto.
Qed.

Lemma confined_put_again {V} (C : STClass V) h f (v : V) (Q : post unit) :
  h ∈ P → h ∈ D → Q tt P S D → confined T (put C h f v) P S D Q.
Proof. intros Hh HD HQ. apply confined_put; [done|]. by replace ({[h]} ∪ D) with D by set_solver. Qed.

Lemma make_SLE_type k x : make_SLE k = Ret x → sle_type x = kl_type k ∧ sle_key x = kl_key k.
Proof.
  unfold make_SLE. destruct (negb _); [done|]. destruct (findByType _ _) as [t|]; [|done].
  destruct (set_template t); [|done]. cbn. destruct (setFieldU16 _ _ _); [|done]. by intros [= <-].
Qed.

Lemma confined_new_entry k o (Q : post unit) x :
  make_SLE k = Ret x → T (kl_type k) = true → Q tt ({[kl_key k]} ∪ P) ({[kl_key k]} ∪ S) D →
  confined T (insert (set_body x o)) P S D Q.
Proof.
  intros [Ht Hk]%make_SLE_type HTk HQ. apply confined_insert; cbn; [by rewrite Ht|by rewrite Hk].
Qed.
End ConfinedFields.

(** Membership in a set of pointers. *)
Ltac in_set := solve [repeat first [ assumption | apply elem_of_union_l, elem_of_singleton; reflexivity
  | match goal with H : make_SLE _ = Ret ?x |- sle_key ?x ∈ _ => rewrite (proj2 (make_SLE_type _ _ H)) end
  | apply elem_of_union_r ]].

(** One step of the proof that a program is confined. *)
Ltac confine_step := lazymatch goal with
  | |- confined _ (mbind _ _) _ _ _ _ => apply confined_bind
  | |- confined _ (get _ _ _) _ _ _ _ => apply confined_get; [in_set|intros ?]
  | |- confined _ (put _ _ _ _) _ _ _ _ =>
    first [apply confined_put_saved; [in_set|in_set|] | apply confined_put_again; [in_set|in_set|]
          | apply confined_put; [in_set|]]
  | |- confined _ (from _) _ _ _ _ => apply confined_from; intros ? ?
  | |- confined _ (read _) _ _ _ _ => apply confined_read; intros ?
  | |- confined _ (peek _) _ _ _ _ => apply confined_peek; [try done| |]
  | |- confined _ (load _) _ _ _ _ => apply confined_load; [in_set|intros ?]
  | |- confined _ (store _ _) _ _ _ _ =>
    first [apply confined_store_saved; [in_set|in_set|] | apply confined_store; [in_set|]]
  | |- confined _ (update ?h) _ _ ({[?h]} ∪ _) _ => apply confined_update_written
  | |- confined _ (update _) _ _ _ _ => apply confined_update
  | |- confined _ (erase _) _ _ _ _ => apply confined_erase; [in_set|]
  | H : make_SLE _ = Ret ?x |- confined _ (insert (set_body ?x _)) _ _ _ _ =>
    apply (confined_new_entry _ _ _ _ _ _ _ _ H); [try done|]
  | |- confined _ (insert _) _ _ _ _ => apply confined_insert; [try done|]
  | |- confined _ (mret _) _ _ _ _ => apply confined_ret
  | |- confined _ (LogicError _) _ _ _ _ => exact I
  | |- confined _ (Fail _) _ _ _ _ => exact I
  | |- confined _ (match ?x with _ => _ end) _ _ _ _ => destruct x eqn:?
  end.

Ltac confine := repeat (cbn beta iota zeta; confine_step); cbn beta iota zeta.
