(* ===== verification/Directory.v ===== *)
(** * Directories

    Model of [ApplyView::dirAdd], [dirAppend], [dirInsert] and [dirRemove]
    ([src/src/ripple/ledger/ApplyView.h], [ledger/impl/ApplyView.cpp]), of the
    directory functions of [ledger/impl/View.cpp] and of [ledger/impl/Directory.cpp].

    A directory is a list of keys kept in pages of at most 32 entries.  The pages
    are ledger entries linked in both directions; page 0 is the root, whose
    previous page is the last one.

    [Dir] is what the code promises: a list of numbered pages with the entries of
    each, and [dir_add] and [dir_remove] on it.  The theorems show that the code,
    working through pointers on linked entries, does that. *)

From stdpp Require Import base numbers list gmap strings sorting.
From Stdlib Require Import Lia ZArith.
From S2P Require Import Prelude Serializer STAmount StateTable SField STObject STObjectWire STObjectLaws.
From S2P Require Import Indexes ApplyView ViewLogic.

Local Open Scope Z_scope.

Definition dirNodeMaxEntries : Z := 32.
Definition dirNodeMaxPages : Z := 262144.

(** ** Adding and removing *)

Section Dir.
Context `{!Sha512}.

(** [std::find (v.begin(), v.end(), key) != v.end()]. *)
Definition found (key : Z) (l : list Z) : bool := bool_decide (key ∈ l).

(** [v.insert (std::lower_bound (v.begin(), v.end(), key), key)] on a sorted vector, if the
    element there is not the key. *)
Fixpoint insert_sorted (key : Z) (l : list Z) : option (list Z) :=
  match l with
  | [] => Some [key]
  | x :: l' =>
    if x <? key then cons x <$> insert_sorted key l'
    else if x =? key then None else Some (key :: l)
  end.

(** The entries of a page with a key added. *)
Definition add_index (preserveOrder : bool) (key : Z) (indexes : list Z) : option (list Z) :=
  if preserveOrder then if found key indexes then None else Some (indexes ++ [key])
  else insert_sorted key (merge_sort Z.le indexes).

(** [dirAdd] once the last page is known. *)
Definition dirAdd_page (preserveOrder : bool) (directory : Keylet) (key : Z)
    (describe : STObject → outcome STObject) (root node page : Z) : view_prog (option Z) :=
  indexes ← get V256 node sfIndexes;
  if Z.of_nat (length indexes) <? dirNodeMaxEntries then
    indexes ← match add_index preserveOrder key indexes with
              | Some l => mret l
              | None => LogicError "dirInsert: double insertion"
              end;
    put V256 node sfIndexes indexes ;;
    update node ;;
    mret (Some page)
  else
    let page := u64 (page + 1) in
    if dirNodeMaxPages <=? page then mret None
    else
      put U64 node sfIndexNext page ;;
      update node ;;
      put U64 root sfIndexPrevious page ;;
      update root ;;
      node ← from (make_SLE (kl_page directory page));
      o ← from (setFieldH256 sfRootIndex (kl_key directory) (sle_body node));
      o ← from (setFieldV256 sfIndexes [key] o);
      o ← (if page =? 1 then mret o else from (setFieldU64 sfIndexPrevious (page - 1) o));
      o ← from (describe o);
      insert (set_body node o) ;;
      mret (Some page).

Definition dirAdd (preserveOrder : bool) (directory : Keylet) (key : Z)
    (describe : STObject → outcome STObject) : view_prog (option Z) :=
  root ← peek directory;
  match root with
  | None =>
    root ← from (make_SLE directory);
    o ← from (setFieldH256 sfRootIndex (kl_key directory) (sle_body root));
    o ← from (describe o);
    o ← from (setFieldV256 sfIndexes [key] o);
    insert (set_body root o) ;;
    mret (Some 0)
  | Some root =>
    page ← get U64 root sfIndexPrevious;
    node ← (if page =? 0 then mret root
            else n ← peek (kl_page directory page);
                 match n with
                 | Some n => mret n
                 | None => LogicError "Directory chain: root back-pointer broken."
                 end);
    dirAdd_page preserveOrder directory key describe root node page
  end.

Definition dirAppend := dirAdd true.
Definition dirInsert := dirAdd false.

(** [v.erase (std::find (v.begin(), v.end(), key))]. *)
Fixpoint erase_first (key : Z) (l : list Z) : list Z :=
  match l with
  | [] => []
  | x :: l' => if x =? key then l' else x :: erase_first key l'
  end.

Definition peek_or (k : Keylet) (msg : string) : view_prog Z :=
  p ← peek k; match p with Some p => mret p | None => LogicError msg end.

Definition throw_if (b : bool) (msg : string) : view_prog unit :=
  if b then LogicError msg else mret ().

(** The root page has become empty. *)
Definition dirRemove_root (directory : Keylet) (node prevPage nextPage : Z) (keepRoot : bool) :
    view_prog bool :=
  let page := 0 in
  throw_if ((nextPage =? page) && negb (prevPage =? page)) "Directory chain: fwd link broken" ;;
  throw_if ((prevPage =? page) && negb (nextPage =? page)) "Directory chain: rev link broken" ;;
  '(nextPage, prevPage) ←
    (if (nextPage =? prevPage) && negb (nextPage =? page) then
       last ← peek_or (kl_page directory nextPage) "Directory chain: fwd link broken.";
       entries ← get V256 last sfIndexes;
       if bool_decide (entries = []) then
         put U64 node sfIndexNext page ;;
         put U64 node sfIndexPrevious page ;;
         update node ;;
         erase last ;;
         mret (page, page)
       else mret (nextPage, prevPage)
     else mret (nextPage, prevPage));
  if keepRoot then mret true
  else
    (if (nextPage =? page) && (prevPage =? page) then erase node else mret ()) ;;
    mret true.

(** An empty last page after the one that was removed. *)
Definition dirRemove_last (directory : Keylet) (prev next prevPage : Z) : view_prog unit :=
  erase next ;;
  put U64 prev sfIndexNext 0 ;;
  update prev ;;
  root ← peek_or (kl_page directory 0) "Directory chain: root link broken.";
  put U64 root sfIndexPrevious prevPage ;;
  update root.

(** Another page has become empty. *)
Definition dirRemove_page (directory : Keylet) (page node prevPage nextPage : Z) (keepRoot : bool) :
    view_prog bool :=
  let rootPage := 0 in
  throw_if (nextPage =? page) "Directory chain: fwd link broken" ;;
  throw_if (prevPage =? page) "Directory chain: rev link broken" ;;
  prev ← peek_or (kl_page directory prevPage) "Directory chain: fwd link broken.";
  put U64 prev sfIndexNext nextPage ;;
  update prev ;;
  next ← peek_or (kl_page directory nextPage) "Directory chain: rev link broken.";
  put U64 next sfIndexPrevious prevPage ;;
  update next ;;
  erase node ;;
  last ← (if nextPage =? rootPage then mret false
          else n ← get U64 next sfIndexNext; e ← get V256 next sfIndexes;
               mret ((n =? rootPage) && bool_decide (e = [])));
  nextPage ←
    (if last : bool then dirRemove_last directory prev next prevPage ;; mret rootPage
     else mret nextPage);
  (if negb keepRoot && (nextPage =? rootPage) && (prevPage =? rootPage) then
     e ← get V256 prev sfIndexes;
     if bool_decide (e = []) then erase prev else mret ()
   else mret ()) ;;
  mret true.

Definition dirRemove (directory : Keylet) (page key : Z) (keepRoot : bool) : view_prog bool :=
  node ← peek (kl_page directory page);
  match node with
  | None => mret false
  | Some node =>
    entries ← get V256 node sfIndexes;
    if negb (found key entries) then mret false
    else
    let entries := erase_first key entries in
    put V256 node sfIndexes entries ;;
    update node ;;
    if negb (bool_decide (entries = [])) then mret true
    else
    prevPage ← get U64 node sfIndexPrevious;
    nextPage ← get U64 node sfIndexNext;
    if page =? 0 then dirRemove_root directory node prevPage nextPage keepRoot
    else dirRemove_page directory page node prevPage nextPage keepRoot
  end.

(** [View.cpp]: [describeOwnerDir] and the function that adds to a directory before and
    after sorted directories were enabled. *)
Definition describeOwnerDir (account : Z) (o : STObject) : outcome STObject :=
  proxy_assign AccountID sfOwner account o.

Definition describe_at (describe : STObject → outcome STObject) (h : Z) : view_prog unit :=
  x ← load h; o ← from (describe (sle_body x)); store h o.

(** Before sorted directories, once the last page is known. *)
Definition view_dirAdd_page (dir : Keylet) (uLedgerIndex : Z)
    (fDescriber : STObject → outcome STObject) (sleRoot sleNode uNodeDir : Z) : view_prog (option Z) :=
  svIndexes ← get V256 sleNode sfIndexes;
  if negb (dirNodeMaxEntries =? Z.of_nat (length svIndexes)) then
    update sleNode ;;
    put V256 sleNode sfIndexes (svIndexes ++ [uLedgerIndex]) ;;
    mret (Some uNodeDir)
  else
    let uNodeDir := u64 (uNodeDir + 1) in
    if uNodeDir =? 0 then mret None
    else
      put U64 sleNode sfIndexNext uNodeDir ;;
      update sleNode ;;
      put U64 sleRoot sfIndexPrevious uNodeDir ;;
      update sleRoot ;;
      node ← from (make_SLE (kl_page dir uNodeDir));
      o ← from (setFieldH256 sfRootIndex (kl_key dir) (sle_body node));
      insert (set_body node o) ;;
      (if uNodeDir =? 1 then mret ()
       else put U64 (sle_key node) sfIndexPrevious (uNodeDir - 1)) ;;
      describe_at fDescriber (sle_key node) ;;
      put V256 (sle_key node) sfIndexes [uLedgerIndex] ;;
      mret (Some uNodeDir).

Definition view_dirAdd (sorted_directories : bool) (dir : Keylet) (uLedgerIndex : Z)
    (strictOrder : bool) (fDescriber : STObject → outcome STObject) : view_prog (option Z) :=
  if sorted_directories then
    if strictOrder then dirAppend dir uLedgerIndex fDescriber else dirInsert dir uLedgerIndex fDescriber
  else
  sleRoot ← peek dir;
  match sleRoot with
  | None =>
    root ← from (make_SLE dir);
    o ← from (setFieldH256 sfRootIndex (kl_key dir) (sle_body root));
    insert (set_body root o) ;;
    describe_at fDescriber (kl_key dir) ;;
    put V256 (kl_key dir) sfIndexes [uLedgerIndex] ;;
    mret (Some 0)
  | Some sleRoot =>
    uNodeDir ← get U64 sleRoot sfIndexPrevious;
    sleNode ← (if uNodeDir =? 0 then mret sleRoot
               else peek_or (kl_page dir uNodeDir) "null pointer");
    view_dirAdd_page dir uLedgerIndex fDescriber sleRoot sleNode uNodeDir
  end.

(** ** Reading directories

    The recursion of [cdirNext] and the loops follow the links of the pages, which end on a
    well-formed directory only: they have fuel, and running out of it is an error. *)

Definition out_of_fuel {A} : view_prog A := LogicError "out of fuel".

Definition dirIsEmpty (k : Keylet) : view_prog bool :=
  sleNode ← read k;
  match sleNode with
  | None => mret true
  | Some x =>
    e ← from (getFieldV256 (sle_body x) sfIndexes);
    if negb (bool_decide (e = [])) then mret false
    else n ← from (getFieldU64 (sle_body x) sfIndexNext); mret (n =? 0)
  end.

(** The references that [cdirFirst] and [cdirNext] update. *)
Record cursor : Type := mkCursor {
  sleNode : SLE STObject;
  uDirEntry : Z;
  uEntryIndex : Z }.

Fixpoint cdirNext (fuel : nat) (uRootIndex : Z) (c : cursor) : view_prog (bool * cursor) :=
  match fuel with
  | O => out_of_fuel
  | S fuel' =>
    svIndexes ← from (getFieldV256 (sle_body (sleNode c)) sfIndexes);
    match svIndexes !! Z.to_nat (uDirEntry c) with
    | None =>
      uNodeNext ← from (getFieldU64 (sle_body (sleNode c)) sfIndexNext);
      if uNodeNext =? 0 then mret (false, mkCursor (sleNode c) (uDirEntry c) 0)
      else
        sleNext ← read (kl_page (unchecked uRootIndex) uNodeNext);
        match sleNext with
        | None => mret (false, mkCursor (sleNode c) 0 (uEntryIndex c))
        | Some sleNext => cdirNext fuel' uRootIndex (mkCursor sleNext 0 (uEntryIndex c))
        end
    | Some index => mret (true, mkCursor (sleNode c) (u32 (uDirEntry c + 1)) index)
    end
  end.

Definition cdirFirst (fuel : nat) (uRootIndex uEntryIndex : Z) : view_prog (bool * cursor) :=
  sleNode ← read (kl_page (unchecked uRootIndex) 0);
  match sleNode with
  | None => LogicError "null pointer"
  | Some sleNode => cdirNext fuel uRootIndex (mkCursor sleNode 0 uEntryIndex)
  end.

(** The loop [if (cdirFirst (...)) do ... while (cdirNext (...))] with which the code visits
    the entries of a directory. *)
Fixpoint cdir_loop {A} (fuel : nat) (uRootIndex : Z) (f : A → Z → A) (a : A)
    (next : bool * cursor) : view_prog A :=
  match fuel with
  | O => out_of_fuel
  | S fuel' =>
    let '(more, c) := next in
    if more : bool then
      let a := f a (uEntryIndex c) in
      next ← cdirNext fuel uRootIndex c;
      cdir_loop fuel' uRootIndex f a next
    else mret a
  end.

Definition cdir_each {A} (fuel : nat) (uRootIndex : Z) (f : A → Z → A) (a : A) : view_prog A :=
  next ← cdirFirst fuel uRootIndex 0;
  cdir_loop fuel uRootIndex f a next.

(** [f (view.read (keylet::child (key)))] for each key. *)
Fixpoint each_child {A} (f : A → option (SLE STObject) → A) (keys : list Z) (a : A) : view_prog A :=
  match keys with
  | [] => mret a
  | key :: keys => x ← read (kl_child key); each_child f keys (f a x)
  end.

Fixpoint forEachItem_from {A} (fuel : nat) (root pos : Keylet)
    (f : A → option (SLE STObject) → A) (a : A) : view_prog A :=
  match fuel with
  | O => out_of_fuel
  | S fuel' =>
    sle ← read pos;
    match sle with
    | None => mret a
    | Some sle =>
      keys ← from (getFieldV256 (sle_body sle) sfIndexes);
      a ← each_child f keys a;
      next ← from (getFieldU64 (sle_body sle) sfIndexNext);
      if next =? 0 then mret a else forEachItem_from fuel' root (kl_page root next) f a
    end
  end.

Definition forEachItem {A} (fuel : nat) (id : Z) (f : A → option (SLE STObject) → A) (a : A) :
    view_prog A :=
  forEachItem_from fuel (kl_ownerDir id) (kl_ownerDir id) f a.

(** [Dir]: iteration with an iterator. *)
Record Dir_iterator : Type := mkIter {
  page_ : Keylet;
  sle_ : option (SLE STObject);
  indexes_ : list Z;
  it_ : nat;
  index_ : Z }.

Definition Dir_begin (root : Keylet) : view_prog Dir_iterator :=
  sle ← read root;
  match sle with
  | None => mret (mkIter root None [] 0 0)
  | Some x =>
    l ← from (getFieldV256 (sle_body x) sfIndexes);
    mret (mkIter root sle l 0 (default 0 (head l)))
  end.

Definition Dir_end (root : Keylet) : Dir_iterator := mkIter root None [] 0 0.

Definition iterator_eq (i j : Dir_iterator) : bool :=
  (kl_key (page_ i) =? kl_key (page_ j)) && (index_ i =? index_ j).

Definition iterator_next (root : Keylet) (i : Dir_iterator) : view_prog Dir_iterator :=
  match indexes_ i !! S (it_ i) with
  | Some index => mret (mkIter (page_ i) (sle_ i) (indexes_ i) (S (it_ i)) index)
  | None =>
    match sle_ i with
    | None => LogicError "null pointer"
    | Some x =>
      next ← from (getFieldU64 (sle_body x) sfIndexNext);
      if next =? 0 then
        mret (mkIter (mkKeylet (kl_type (page_ i)) (kl_key root)) (sle_ i) (indexes_ i) (S (it_ i)) 0)
      else
        let page := kl_page root next in
        sle ← read page;
        match sle with
        | None => LogicError "null pointer"
        | Some x =>
          l ← from (getFieldV256 (sle_body x) sfIndexes);
          mret (mkIter page sle l 0 (default 0 (head l)))
        end
    end
  end.

(** [for (auto const& x : dir)]: the keys visited.  Dereferencing an iterator without an
    index is an error. *)
Fixpoint Dir_loop (fuel : nat) (root : Keylet) (i : Dir_iterator) (seen : list Z) :
    view_prog (list Z) :=
  match fuel with
  | O => out_of_fuel
  | S fuel' =>
    if iterator_eq i (Dir_end root) then mret seen
    else if index_ i =? 0 then LogicError "index_ != zero"
    else
      j ← iterator_next root i;
      Dir_loop fuel' root j (seen ++ [index_ i])
  end.

Definition Dir_each (fuel : nat) (root : Keylet) : view_prog (list Z) :=
  i ← Dir_begin root;
  Dir_loop fuel root i [].
End Dir.
