(* ===== verification/DirectoryPages.v ===== *)
(** * Directories as lists of pages

    The abstract directory: a list of numbered pages with their entries, [dir_add] and
    [dir_remove] on it, and what they do to the entries.  [pages] gives the linked
    pages that represent such a list. *)

From stdpp Require Import base numbers list gmap strings sorting.
From Stdlib Require Import Lia ZArith.
From S2P Require Import Prelude Serializer STAmount StateTable SField STObject Indexes ApplyView ViewLogic Directory.

Local Open Scope Z_scope.

Abbreviation dir := (list (Z * list Z)).

(** The entries of a directory in the order of the pages. *)
Definition entries (l : dir) : list Z := concat l.*2.

Definition set_page (n : Z) (es : list Z) (l : dir) : dir :=
  (λ x, if x.1 =? n then (n, es) else x) <$> l.

Definition page_of (n : Z) (l : dir) : option (list Z) :=
  snd <$> List.find (λ x, x.1 =? n) l.

(** What [dirAdd] does; [None] is the error of inserting a key that is in the last page. *)
Definition dir_add (preserveOrder : bool) (key : Z) (l : dir) : option (option Z * dir) :=
  match last l with
  | None => Some (Some 0, [(0, [key])])
  | Some (n, es) =>
    if Z.of_nat (length es) <? dirNodeMaxEntries then
      es' ← add_index preserveOrder key es; Some (Some n, set_page n es' l)
    else if dirNodeMaxPages <=? n + 1 then Some (None, l)
    else Some (Some (n + 1), l ++ [(n + 1, [key])])
  end.

(** Removing a page that has become empty, together with an empty last page after it. *)
Definition trim (l : dir) : dir := match l with [(_, [])] => [] | _ => l end.

Fixpoint drop_page (n : Z) (l : dir) : dir :=
  match l with
  | [] => []
  | (m, es) :: l' => if m =? n then trim l' else (m, es) :: drop_page n l'
  end.

Definition tidy_root (l : dir) : dir :=
  match l with [(z, []); (_, [])] => [(z, [])] | _ => l end.

(** What [dirRemove] does. *)
Definition dir_remove (keepRoot : bool) (n key : Z) (l : dir) : bool * dir :=
  match page_of n l with
  | None => (false, l)
  | Some es =>
    if negb (found key es) then (false, l)
    else
      let es := erase_first key es in
      let l := set_page n es l in
      if negb (bool_decide (es = [])) then (true, l)
      else
        let l := if n =? 0 then tidy_root l else drop_page n l in
        (true, if negb keepRoot && bool_decide (l = [(0, [])]) then [] else l)
  end.

(** ** Well-formed directories *)

Record dir_ok (l : dir) : Prop := {
  dir_root n es l' : l = (n, es) :: l' → n = 0;
  dir_sorted : StronglySorted Z.lt l.*1;
  dir_range : Forall (λ x, 0 ≤ x.1 < dirNodeMaxPages) l;
  dir_size : Forall (λ x, Z.of_nat (length x.2) ≤ dirNodeMaxEntries) l }.

(** No page is empty but perhaps the root. *)
Definition tidy (l : dir) : Prop := Forall (λ x, x.1 ≠ 0 → x.2 ≠ []) l.

Lemma sorted_nodup (l : list Z) : StronglySorted Z.lt l → NoDup l.
Proof.
  induction 1 as [|x l Hs IH Hx]; constructor; [|done].
  intros Hin. rewrite Forall_forall in Hx. specialize (Hx x Hin). lia.
Qed.

Lemma dir_nodup l : dir_ok l → NoDup l.*1.
Proof. intros H. apply sorted_nodup, H. Qed.

Lemma set_page_split n es es' l1 l2 :
  NoDup (l1 ++ (n, es) :: l2).*1 → set_page n es' (l1 ++ (n, es) :: l2) = l1 ++ (n, es') :: l2.
Proof.
  rewrite fmap_app, NoDup_app. intros (_ & Hd & [Hn _]%NoDup_cons).
  assert (Hid : ∀ l : dir, n ∉ l.*1 → set_page n es' l = l).
  { induction l as [|[m e] l IH]; [done|]. rewrite fmap_cons, not_elem_of_cons. intros [Hm Hl].
    unfold set_page in *. rewrite fmap_cons, (IH Hl). simpl.
    by rewrite (proj2 (Z.eqb_neq m n)) by (simpl in Hm; congruence). }
  unfold set_page in *. rewrite fmap_app, fmap_cons. simpl. rewrite Z.eqb_refl, !Hid; [done|done|].
  intros Hin. apply (Hd n Hin). by left.
Qed.

Lemma page_of_split n es l1 l2 :
  NoDup (l1 ++ (n, es) :: l2).*1 → page_of n (l1 ++ (n, es) :: l2) = Some es.
Proof.
  rewrite fmap_app, NoDup_app. intros (_ & Hd & _). unfold page_of.
  induction l1 as [|[m e] l1 IH]; simpl.
  - by rewrite Z.eqb_refl.
  - rewrite (proj2 (Z.eqb_neq m n)); [apply IH|].
    + intros x Hx. apply Hd. by right.
    + intros ->. apply (Hd n); by left.
Qed.

Lemma page_of_Some n es l : page_of n l = Some es → ∃ l1 l2, l = l1 ++ (n, es) :: l2.
Proof.
  unfold page_of. destruct (List.find _ l) as [[m e]|] eqn:E; [|done]. intros [= ->].
  apply find_some in E as [Hin%list_elem_of_In Hm%Z.eqb_eq]. simpl in Hm. subst m.
  by apply list_elem_of_split in Hin.
Qed.

Lemma page_of_None n l : page_of n l = None → n ∉ l.*1.
Proof.
  unfold page_of. destruct (List.find _ l) as [|] eqn:E; [done|]. intros _ Hin.
  apply list_elem_of_fmap in Hin as ([m e] & -> & Hin%list_elem_of_In).
  apply (find_none _ _ E) in Hin. simpl in Hin. lia.
Qed.

(** ** Adding and removing an entry in a page *)

Lemma insert_sorted_spec key l l' :
  StronglySorted Z.le l → insert_sorted key l = Some l' → (l' ≡ₚ key :: l) ∧ StronglySorted Z.le l' ∧ key ∉ l.
Proof.
  intros Hs. revert l'. induction Hs as [|x l Hs IH Hx]; intros l'; simpl.
  { intros [= <-]. split_and!; [done|repeat constructor|apply not_elem_of_nil]. }
  destruct (Z.ltb_spec x key) as [Hlt|Hge].
  - destruct (insert_sorted key l) as [r|] eqn:Er; [|done]. intros [= <-].
    destruct (IH r eq_refl) as (Hp & Hsr & Hn). split_and!.
    + rewrite Hp. by constructor.
    + constructor; [done|]. rewrite Hp. constructor; [lia|done].
    + apply not_elem_of_cons. split; [lia|done].
  - destruct (Z.eqb_spec x key); [done|]. intros [= <-]. split_and!; [done| |].
    + constructor; [by constructor|]. constructor; [lia|]. eapply Forall_impl; [exact Hx|]. simpl. lia.
    + apply not_elem_of_cons. split; [lia|]. intros Hin. rewrite Forall_forall in Hx.
      specialize (Hx _ Hin). lia.
Qed.

Lemma insert_sorted_None key l : insert_sorted key l = None → key ∈ l.
Proof.
  induction l as [|x l IH]; simpl; [done|]. destruct (x <? key).
  - destruct (insert_sorted key l); [done|]. intros _. right. auto.
  - destruct (Z.eqb_spec x key) as [->|]; [|done]. intros _. by left.
Qed.

(** Adding to a page: an error exactly if the key is there; otherwise the key is added at the
    end, or the page is sorted. *)
Lemma add_index_spec preserveOrder key l :
  match add_index preserveOrder key l with
  | Some l' => (key ∉ l) ∧ (l' ≡ₚ key :: l) ∧
      (if preserveOrder then l' = l ++ [key] else StronglySorted Z.le l')
  | None => key ∈ l
  end.
Proof.
  unfold add_index, found. destruct preserveOrder.
  - case_bool_decide; [done|]. split_and!; [done|by rewrite Permutation_app_comm|done].
  - pose proof (merge_sort_Permutation Z.le l) as Hp.
    destruct (insert_sorted key (merge_sort Z.le l)) as [l'|] eqn:E.
    + apply insert_sorted_spec in E as (? & ? & ?); [|apply StronglySorted_merge_sort; exact _].
      split_and!; [by rewrite <- Hp|by rewrite <- Hp|done].
    + apply insert_sorted_None in E. by rewrite <- Hp.
Qed.

Lemma erase_first_spec key l :
  key ∈ l → (l ≡ₚ key :: erase_first key l) ∧ sublist (erase_first key l) l.
Proof.
  induction l as [|x l IH]; [by intros ?%elem_of_nil|]. simpl. intros Hin.
  destruct (Z.eqb_spec x key) as [->|Hne]; [split; [done|by apply sublist_cons]|].
  apply elem_of_cons in Hin as [->|Hin]; [done|]. destruct (IH Hin) as [Hp Hs]. split.
  - rewrite Permutation_swap. by constructor.
  - by apply sublist_skip.
Qed.

(** ** The operations keep directories well formed *)

Lemma dir_ok_shape l :
  dir_ok l ↔ (∀ n, head l.*1 = Some n → n = 0) ∧ StronglySorted Z.lt l.*1 ∧
    Forall (λ n, 0 ≤ n < dirNodeMaxPages) l.*1 ∧
    Forall (λ es, Z.of_nat (length es) ≤ dirNodeMaxEntries) l.*2.
Proof.
  rewrite !Forall_fmap. split.
  - intros [H1 H2 H3 H4]. split_and!; try done. intros n. destruct l as [|[m es] l]; [done|].
    intros [= <-]. by eapply H1.
  - intros (H1 & H2 & H3 & H4). split; try done. intros n es l' ->. by apply H1.
Qed.

Lemma Forall_sublist {A} (P : A → Prop) l l' : sublist l' l → Forall P l → Forall P l'.
Proof. intros Hs. rewrite !Forall_forall. intros H x Hx. by eapply H, elem_of_sublist. Qed.

Lemma sorted_sublist (l l' : list Z) : sublist l' l → StronglySorted Z.lt l → StronglySorted Z.lt l'.
Proof.
  intros Hs. induction Hs as [|x l1 l2 Hs IH|x l1 l2 Hs IH]; [done|..]; inversion_clear 1.
  - constructor; [auto|]. by eapply Forall_sublist.
  - auto.
Qed.

(** Pages may be left out as long as the root is kept. *)
Lemma dir_ok_sublist l l' :
  sublist l' l → (∀ n, head l'.*1 = Some n → n = 0) → dir_ok l → dir_ok l'.
Proof.
  intros Hs Hh (H1 & H2 & H3 & H4)%dir_ok_shape. apply dir_ok_shape.
  split_and!; [done|..].
  - eapply sorted_sublist; [|exact H2]. by apply fmap_sublist.
  - eapply Forall_sublist; [|exact H3]. by apply fmap_sublist.
  - eapply Forall_sublist; [|exact H4]. by apply fmap_sublist.
Qed.

Lemma dir_ok_page l1 n es es' l2 :
  Z.of_nat (length es') ≤ dirNodeMaxEntries → dir_ok (l1 ++ (n, es) :: l2) → dir_ok (l1 ++ (n, es') :: l2).
Proof.
  intros Hl. rewrite !dir_ok_shape, !fmap_app, !fmap_cons, !Forall_app, !Forall_cons. simpl.
  tauto.
Qed.

Lemma tidy_page l1 n es es' l2 :
  (n ≠ 0 → es' ≠ []) → tidy (l1 ++ (n, es) :: l2) → tidy (l1 ++ (n, es') :: l2).
Proof. intros Hn. unfold tidy. rewrite !Forall_app, !Forall_cons. simpl. tauto. Qed.

Lemma entries_split l1 n es l2 : entries (l1 ++ (n, es) :: l2) = entries l1 ++ es ++ entries l2.
Proof. unfold entries. by rewrite fmap_app, concat_app. Qed.

Lemma last_split {A} (l : list A) x : last l = Some x → ∃ l', l = l' ++ [x].
Proof. by apply last_Some. Qed.

Lemma sorted_snoc (l : list Z) n m :
  StronglySorted Z.lt (l ++ [n]) → n < m → StronglySorted Z.lt ((l ++ [n]) ++ [m]).
Proof.
  intros Hs Hm. induction l as [|x l IH]; simpl in *.
  - repeat constructor; lia.
  - inversion_clear Hs as [|? ? Hs' Hx]. constructor; [by apply IH|].
    apply Forall_app. split; [done|]. apply Forall_app in Hx as [_ Hx].
    apply Forall_singleton. rewrite Forall_singleton in Hx. lia.
Qed.

(** Adding a key to a well-formed directory: it is an error exactly if the last page has room
    and holds the key; it gives no page exactly if all pages are used; otherwise the page
    returned holds the key, which is the only new entry, and is the last one if the
    order is to be kept. *)
Lemma dir_add_spec preserveOrder key l :
  dir_ok l →
  match dir_add preserveOrder key l with
  | None => ∃ n es, last l = Some (n, es) ∧ key ∈ es ∧ Z.of_nat (length es) < dirNodeMaxEntries
  | Some (None, l') => l' = l ∧
      ∃ n es, last l = Some (n, es) ∧ Z.of_nat (length es) = dirNodeMaxEntries ∧ n = dirNodeMaxPages - 1
  | Some (Some n, l') => dir_ok l' ∧ (tidy l → tidy l') ∧
      (∃ es, page_of n l' = Some es ∧ key ∈ es) ∧ (entries l' ≡ₚ key :: entries l) ∧
      (preserveOrder = true → entries l' = entries l ++ [key])
  end.
Proof.
  intros Hok. unfold dir_add. destruct (last l) as [[n es]|] eqn:El.
  2: { apply last_None in El as ->. split_and!; [|by repeat constructor| |done|done].
    - apply dir_ok_shape. simpl. split_and!; [by intros ? [= <-]|repeat constructor|
        apply Forall_singleton; unfold dirNodeMaxPages; lia|
        apply Forall_singleton; unfold dirNodeMaxEntries; simpl; lia].
    - exists [key]. split; [done|by left]. }
  apply last_split in El as (l1 & ->). pose proof (dir_nodup _ Hok) as Hnd.
  destruct (Z.ltb_spec (Z.of_nat (length es)) dirNodeMaxEntries) as [Hlen|Hlen].
  - pose proof (add_index_spec preserveOrder key es) as Ha.
    destruct (add_index preserveOrder key es) as [es'|]; cbn [mbind option_bind];
      [|by exists n, es].
    destruct Ha as (Hn & Hp & Ho). rewrite (set_page_split n es es' l1 []) by done.
    assert (Hok' : dir_ok (l1 ++ [(n, es')])).
    { apply (dir_ok_page l1 n es es' []); [|done]. rewrite Hp. simpl. lia. }
    split_and!; [done| | | |].
    + apply (tidy_page l1 n es es' []). intros _ ->. by apply Permutation_nil_cons in Hp.
    + exists es'. split; [apply page_of_split; by apply dir_nodup|]. rewrite Hp. by left.
    + rewrite !entries_split, Hp. simpl. by rewrite <- Permutation_middle.
    + intros ->. subst es'. rewrite !entries_split. unfold entries. simpl. by rewrite <- !app_assoc.
  - apply dir_ok_shape in Hok as (H1 & H2 & H3 & H4). rewrite !fmap_app in *.
    pose proof (proj2 (proj1 (Forall_app _ _ _) H3)) as Hn.
    cbn in Hn. rewrite Forall_singleton in Hn.
    destruct (Z.leb_spec dirNodeMaxPages (n + 1)) as [Hm|Hm].
    + split; [done|]. exists n, es. split_and!; [done| |lia].
      apply Forall_app in H4 as [_ H4]. cbn in H4. rewrite Forall_singleton in H4. lia.
    + assert (Hok' : dir_ok ((l1 ++ [(n, es)]) ++ [(n + 1, [key])])).
      { apply dir_ok_shape. rewrite !fmap_app. split_and!.
        - intros m. destruct l1 as [|[z ez] l1]; simpl in *; apply H1.
        - apply (sorted_snoc l1.*1 n (n + 1)); [exact H2|lia].
        - apply Forall_app. split; [done|]. apply Forall_singleton. simpl. lia.
        - apply Forall_app. split; [done|]. apply Forall_singleton. unfold dirNodeMaxEntries. simpl. lia. }
      split_and!; [done| | | |].
      * intros Ht. apply Forall_app. split; [done|]. by apply Forall_singleton.
      * exists [key]. split; [apply (page_of_split (n + 1) [key] _ []); by apply dir_nodup|by left].
      * rewrite (entries_split (l1 ++ [(n, es)]) (n + 1) [key] []). simpl.
        rewrite Permutation_app_comm. done.
      * intros _. by rewrite (entries_split (l1 ++ [(n, es)]) (n + 1) [key] []).
Qed.

(** When a key cannot be added: the last page has it and room for more, or there is no room
    at all; and the page it goes to otherwise. *)
Definition add_refused (key : Z) (l : dir) : Prop :=
  ∃ n es, last l = Some (n, es) ∧ key ∈ es ∧ Z.of_nat (length es) < dirNodeMaxEntries.
Definition add_full (l : dir) : Prop :=
  ∃ es, last l = Some (dirNodeMaxPages - 1, es) ∧ Z.of_nat (length es) = dirNodeMaxEntries.
Definition add_page (l : dir) : Z :=
  match last l with
  | None => 0
  | Some (n, es) => if Z.of_nat (length es) <? dirNodeMaxEntries then n else n + 1
  end.

Lemma dir_add_exact preserveOrder key l :
  match dir_add preserveOrder key l with
  | None => add_refused key l
  | Some (None, _) => ¬ add_refused key l
  | Some (Some n, _) => ¬ add_refused key l ∧ ¬ add_full l ∧ n = add_page l
  end.
Proof.
  unfold dir_add, add_refused, add_full, add_page. destruct (last l) as [[n es]|].
  2: { split_and!; [by intros (? & ? & ? & _)|by intros (? & ? & _)|done]. }
  destruct (Z.ltb_spec (Z.of_nat (length es)) dirNodeMaxEntries) as [Hlen|Hlen].
  - pose proof (add_index_spec preserveOrder key es) as Ha.
    destruct (add_index preserveOrder key es) as [es'|]; cbn [mbind option_bind]; [|by exists n, es].
    split_and!; [intros (? & ? & [= <- <-] & Hin & _); by apply Ha|intros (? & [= _ <-] & ?); lia|done].
  - assert (Hno : ¬ ∃ n' es', Some (n, es) = Some (n', es') ∧ key ∈ es' ∧ Z.of_nat (length es') < dirNodeMaxEntries)
      by (intros (? & ? & [= <- <-] & _ & ?); lia).
    destruct (Z.leb_spec dirNodeMaxPages (n + 1)); [done|]. split_and!; [done|intros (? & [= -> _] & _); lia|done].
Qed.

Lemma trim_spec l : sublist (trim l) l ∧ entries (trim l) = entries l.
Proof.
  destruct l as [|[m [|e es]] [|x l]]; simpl; try done. split; [apply sublist_nil_l|done].
Qed.

Lemma drop_page_split n es l1 l2 : n ∉ l1.*1 → drop_page n (l1 ++ (n, es) :: l2) = l1 ++ trim l2.
Proof.
  induction l1 as [|[m e] l1 IH]; simpl; [by rewrite Z.eqb_refl|].
  rewrite not_elem_of_cons. intros [Hm Hl]. rewrite (proj2 (Z.eqb_neq m n)) by congruence.
  by rewrite IH.
Qed.

Lemma tidy_root_spec l :
  sublist (tidy_root l) l ∧ entries (tidy_root l) = entries l ∧ head (tidy_root l) = head l.
Proof.
  destruct l as [|[z [|a e]] [|[b [|c f]] [|x l]]]; simpl; try done.
  split_and!; [|done|done]. apply sublist_skip, sublist_nil_l.
Qed.

(** What is left of a directory from which the only entry of a page was removed. *)
Definition after_empty (n : Z) (l : dir) : dir := if n =? 0 then tidy_root l else drop_page n l.

Lemma after_empty_spec n l1 l2 :
  dir_ok (l1 ++ (n, []) :: l2) →
  let l' := after_empty n (l1 ++ (n, []) :: l2) in
  dir_ok l' ∧ (tidy (l1 ++ l2) → tidy l') ∧ entries l' = entries l1 ++ entries l2 ∧ l' ≠ [].
Proof.
  intros Hok. pose proof (dir_nodup _ Hok) as Hnd. unfold after_empty.
  destruct (Z.eqb_spec n 0) as [->|Hn].
  - destruct (tidy_root_spec (l1 ++ (0, []) :: l2)) as (Hs & He & Hh).
    assert (l1 = []) as ->.
    { destruct l1 as [|[z ez] l1]; [done|]. pose proof (dir_root _ Hok z ez _ eq_refl) as ->.
      simpl in Hnd. apply NoDup_cons in Hnd as [Hnd _]. exfalso. apply Hnd.
      rewrite fmap_app. apply elem_of_app. right. by left. }
    cbn [app head] in *. split_and!.
    + eapply dir_ok_sublist; [exact Hs| |done]. intros n.
      destruct (tidy_root _) as [|[z e] r]; [done|]. injection Hh as -> ->. by intros [= <-].
    + intros Ht. apply (Forall_sublist _ _ _ Hs). constructor; [done|exact Ht].
    + by rewrite He.
    + intros Hnil. by rewrite Hnil in Hh.
  - destruct (trim_spec l2) as [Hs He].
    rewrite fmap_app, NoDup_app in Hnd. destruct Hnd as (_ & Hnd & _).
    rewrite drop_page_split by (intros Hin; apply (Hnd n Hin); by left).
    destruct l1 as [|[z ez] l1]; [by destruct (Hn (dir_root _ Hok n [] l2 eq_refl))|].
    split_and!; [| | |done].
    + eapply dir_ok_sublist; [| |exact Hok].
      * apply sublist_app; [done|]. by apply sublist_cons.
      * simpl. intros ? [= <-]. by eapply dir_root.
    + intros Ht. eapply Forall_sublist; [|exact Ht]. by apply sublist_app.
    + unfold entries in *. by rewrite fmap_app, concat_app, He.
Qed.

(** Removing a key from a page of a well-formed directory: it succeeds exactly if the page has
    the key; the other entries stay in their order; pages that have become empty go,
    and with the last entry the directory, unless the root is to be kept. *)
Lemma dir_remove_spec keepRoot n key l b l' :
  dir_ok l → dir_remove keepRoot n key l = (b, l') →
  dir_ok l' ∧ (tidy l → tidy l') ∧ (b = true ↔ ∃ es, page_of n l = Some es ∧ key ∈ es) ∧
  (if b then (entries l ≡ₚ key :: entries l') ∧ sublist (entries l') (entries l) else l' = l) ∧
  (b = true → keepRoot = true → l' ≠ []) ∧
  (b = true → keepRoot = false → tidy l → entries l' = [] → l' = []).
Proof.
  intros Hok. unfold dir_remove, found. destruct (page_of n l) as [es|] eqn:Ep.
  2: { intros [= <- <-]. split_and!; try done. by split; [|intros (? & ? & _)]. }
  destruct (bool_decide_reflect (key ∈ es)) as [Hin|Hout]; simpl.
  2: { intros [= <- <-]. split_and!; try done. split; [done|]. by intros (? & [= <-] & ?). }
  apply page_of_Some in Ep as (l1 & l2 & ->). pose proof (dir_nodup _ Hok) as Hnd.
  destruct (erase_first_spec key es Hin) as [Hp Hs].
  rewrite (set_page_split n es _ l1 l2) by done.
  assert (Hok' : dir_ok (l1 ++ (n, erase_first key es) :: l2)).
  { apply (dir_ok_page l1 n es); [|done]. apply dir_size in Hok.
    apply Forall_app in Hok as [_ [Hl _]%Forall_cons]. simpl in Hl. apply sublist_length in Hs. lia. }
  assert (Hent : (entries (l1 ++ (n, es) :: l2) ≡ₚ key :: entries (l1 ++ (n, erase_first key es) :: l2)) ∧
    sublist (entries (l1 ++ (n, erase_first key es) :: l2)) (entries (l1 ++ (n, es) :: l2))).
  { rewrite !entries_split. split.
    - rewrite Hp at 1. simpl. by rewrite <- Permutation_middle.
    - apply sublist_app; [done|]. by apply sublist_app. }
  assert (Hb : true = true ↔ ∃ es0, Some es = Some es0 ∧ key ∈ es0) by (split; [by exists es|done]).
  destruct (bool_decide_reflect (erase_first key es = [])) as [He|Hne]; simpl.
  - rewrite He in *. fold (after_empty n (l1 ++ (n, []) :: l2)).
    destruct (after_empty_spec n l1 l2 Hok') as (Hok2 & Ht2 & He2 & Hn2).
    assert (Htt : tidy (l1 ++ (n, es) :: l2) → tidy (l1 ++ l2)).
    { unfold tidy. rewrite !Forall_app, Forall_cons. tauto. }
    intros [= <- <-]. rewrite (entries_split l1 n [] l2) in Hent. cbn [app] in Hent.
    rewrite <- He2 in Hent.
    destruct (bool_decide_reflect (after_empty n (l1 ++ (n, []) :: l2) = [(0, [])])) as [Hr|Hr];
      destruct keepRoot; simpl; split_and!; try done; try tauto.
    + apply dir_ok_shape. simpl. by repeat constructor.
    + intros _. constructor.
    + rewrite Hr in Hent. exact (proj1 Hent).
    + rewrite Hr in Hent. exact (proj2 Hent).
    + intros _ _ Ht Hempty. specialize (Ht2 (Htt Ht)). exfalso. apply Hr.
      destruct (after_empty n (l1 ++ (n, []) :: l2)) as [|[z ez] l] eqn:El; [done|].
      pose proof (dir_root _ Hok2 z ez l eq_refl) as ->.
      apply app_eq_nil in Hempty as [E0 Hempty]. simpl in E0. subst ez.
      destruct l as [|[m em] l]; [done|]. exfalso. apply app_eq_nil in Hempty as [Em _].
      simpl in Em. subst em. apply Forall_cons in Ht2 as [_ [Hm _]%Forall_cons].
      apply Hm; [|done]. simpl. intros ->. pose proof (dir_nodup _ Hok2) as Hnd2.
      apply NoDup_cons in Hnd2 as [Hnd2 _]. apply Hnd2. by left.
  - intros [= <- <-]. split_and!; try done; try tauto.
    + by apply tidy_page.
    + by destruct l1.
    + intros _ _ _ Hempty. rewrite entries_split in Hempty.
      by apply app_eq_nil in Hempty as [_ [? _]%app_eq_nil].
Qed.
