(* ===== verification/DirectoryCorrect.v ===== *)
(** * Directories are lists of pages

    The linked pages in the ledger represent a list of pages, and [dirAdd] and
    [dirRemove] do to the linked pages what [dir_add] and [dir_remove] do to the
    list.  The hash that gives the keys of the pages is a parameter; all that is
    needed of it is that the pages of the directory at hand have different keys. *)

From stdpp Require Import base numbers list gmap strings sorting.
From Stdlib Require Import Lia ZArith.
From S2P Require Import Prelude Serializer STAmount StateTable SField STObject STObjectWire STObjectLaws.
From S2P Require Import Entry Indexes ApplyView ViewLogic Directory DirectoryPages.

Local Open Scope Z_scope.

(** ** Linked pages *)

Record page : Type := mkPage { p_next : Z; p_prev : Z; p_entries : list Z }.

Definition with_next (n : Z) (p : page) : page := mkPage n (p_prev p) (p_entries p).
Definition with_prev (n : Z) (p : page) : page := mkPage (p_next p) n (p_entries p).
Definition with_entries (es : list Z) (p : page) : page := mkPage (p_next p) (p_prev p) es.

Definition first_no (nx : Z) (l : dir) : Z := match l with [] => nx | (n, _) :: _ => n end.
Fixpoint last_no (pv : Z) (l : dir) : Z := match l with [] => pv | (n, _) :: l => last_no n l end.

(** The pages of a list between a previous and a next page. *)
Fixpoint layout (pv nx : Z) (l : dir) : list (Z * page) :=
  match l with
  | [] => []
  | (n, es) :: l' => (n, mkPage (first_no nx l') pv es) :: layout n nx l'
  end.

(** The pages of a directory: the root comes after the last page. *)
Definition pages (l : dir) : gmap Z page := list_to_map (layout (last_no 0 l) 0 l).

Lemma layout_app pv nx l1 l2 :
  layout pv nx (l1 ++ l2) = layout pv (first_no nx l2) l1 ++ layout (last_no pv l1) nx l2.
Proof.
  revert pv. induction l1 as [|[n es] l1 IH]; intros pv; [done|]. simpl. rewrite IH.
  by destruct l1 as [|[]].
Qed.

Lemma last_no_app pv l1 l2 : last_no pv (l1 ++ l2) = last_no (last_no pv l1) l2.
Proof. revert pv. induction l1 as [|[n es] l1 IH]; intros pv; [done|]. apply IH. Qed.

Lemma layout_keys pv nx l : (layout pv nx l).*1 = l.*1.
Proof. revert pv. induction l as [|[n es] l IH]; intros pv; [done|]. simpl. f_equal. apply IH. Qed.

(** *** Changing a page in a list of pages *)

Section Pages.
Context {A : Type}.
Implicit Types (l : list (Z * A)).

Lemma lookup_page l1 n p l2 :
  NoDup (l1 ++ (n, p) :: l2).*1 → (list_to_map (l1 ++ (n, p) :: l2) : gmap Z A) !! n = Some p.
Proof. intros Hnd. apply elem_of_list_to_map_1; [done|]. apply elem_of_app. right. by left. Qed.

Lemma insert_page l1 n p p' l2 :
  NoDup (l1 ++ (n, p) :: l2).*1 →
  <[n := p']> (list_to_map (l1 ++ (n, p) :: l2) : gmap Z A) = list_to_map (l1 ++ (n, p') :: l2).
Proof.
  intros Hnd. rewrite fmap_app, NoDup_app in Hnd. destruct Hnd as (_ & Hd & _).
  assert (Hn : n ∉ l1.*1) by (intros Hin; apply (Hd n Hin); by left).
  rewrite !list_to_map_app. simpl. rewrite insert_union_r by (by apply not_elem_of_list_to_map_1).
  by rewrite insert_insert_eq.
Qed.

Lemma delete_page l1 n p l2 :
  NoDup (l1 ++ (n, p) :: l2).*1 →
  delete n (list_to_map (l1 ++ (n, p) :: l2) : gmap Z A) = list_to_map (l1 ++ l2).
Proof.
  intros Hnd. rewrite fmap_app, NoDup_app in Hnd. destruct Hnd as (_ & Hd & [Hn2 _]%NoDup_cons).
  assert (Hn : n ∉ l1.*1) by (intros Hin; apply (Hd n Hin); by left).
  rewrite !list_to_map_app, delete_union. simpl.
  rewrite delete_id by (by apply not_elem_of_list_to_map_1).
  rewrite delete_insert_id; [done|]. by apply not_elem_of_list_to_map_1.
Qed.

Lemma insert_first z q q' l :
  <[z := q']> (list_to_map ((z, q) :: l) : gmap Z A) = list_to_map ((z, q') :: l).
Proof. simpl. by rewrite insert_insert_eq. Qed.

Lemma insert_inner z q l n p p' l' :
  NoDup ((z, q) :: l ++ (n, p) :: l').*1 →
  <[n := p']> (list_to_map ((z, q) :: l ++ (n, p) :: l') : gmap Z A)
  = list_to_map ((z, q) :: l ++ (n, p') :: l').
Proof. exact (insert_page ((z, q) :: l) n p p' l'). Qed.

Lemma delete_inner z q l n p l' :
  NoDup ((z, q) :: l ++ (n, p) :: l').*1 →
  delete n (list_to_map ((z, q) :: l ++ (n, p) :: l') : gmap Z A) = list_to_map ((z, q) :: l ++ l').
Proof. exact (delete_page ((z, q) :: l) n p l'). Qed.

Lemma append_page l n p :
  n ∉ l.*1 → <[n := p]> (list_to_map l : gmap Z A) = list_to_map (l ++ [(n, p)]).
Proof.
  intros Hn. rewrite list_to_map_app. simpl. rewrite insert_empty, <- insert_union_singleton_r; [done|].
  by apply not_elem_of_list_to_map_1.
Qed.
End Pages.

(** ** Entries that are pages *)

Definition dir_template : SOTemplate := fmt_common ++ fmt_DirectoryNode.

Lemma dir_format : findByType LedgerFormats ltDIR_NODE = Some dir_template.
Proof. vm_compute. reflexivity. Qed.

(** The links and entries of the body of a page. *)
Definition body_rep (o : STObject) (p : page) : Prop :=
  entry dir_template o ∧ val U64 o sfIndexNext = p_next p ∧
  val U64 o sfIndexPrevious = p_prev p ∧ val V256 o sfIndexes = p_entries p.

Definition page_rep (x : SLE STObject) (p : page) : Prop :=
  sle_type x = ltDIR_NODE ∧ body_rep (sle_body x) p.

Lemma fits_next : fits U64 dir_template sfIndexNext = true.
Proof. vm_compute. reflexivity. Qed.
Lemma fits_prev : fits U64 dir_template sfIndexPrevious = true.
Proof. vm_compute. reflexivity. Qed.
Lemma fits_indexes : fits V256 dir_template sfIndexes = true.
Proof. vm_compute. reflexivity. Qed.
Lemma fits_root : fits H256 dir_template sfRootIndex = true.
Proof. vm_compute. reflexivity. Qed.
Lemma fits_owner : fits AccountID dir_template sfOwner = true.
Proof. vm_compute. reflexivity. Qed.

Lemma body_set {V} (T : STClass V) `{!LawfulClass T} f v o p :
  body_rep o p → fits T dir_template f = true →
  fieldCode f ≠ fieldCode sfIndexNext → fieldCode f ≠ fieldCode sfIndexPrevious →
  fieldCode f ≠ fieldCode sfIndexes → body_rep (set T f v o) p.
Proof.
  intros (He & Hn & Hp & Hi) Hf H1 H2 H3. split; [by apply set_entry|].
  by rewrite !(val_set_ne T _ dir_template) by done.
Qed.

Lemma body_next v o p : body_rep o p → body_rep (set U64 sfIndexNext v o) (with_next v p).
Proof.
  intros (He & Hn & Hp & Hi). pose proof fits_next as Hf. split; [by apply (set_entry U64)|].
  by rewrite (val_set U64 dir_template), !(val_set_ne U64 _ dir_template) by done.
Qed.

Lemma body_prev v o p : body_rep o p → body_rep (set U64 sfIndexPrevious v o) (with_prev v p).
Proof.
  intros (He & Hn & Hp & Hi). pose proof fits_prev as Hf. split; [by apply (set_entry U64)|].
  by rewrite (val_set U64 dir_template), !(val_set_ne U64 _ dir_template) by done.
Qed.

Lemma body_entries v o p : body_rep o p → body_rep (set V256 sfIndexes v o) (with_entries v p).
Proof.
  intros (He & Hn & Hp & Hi). pose proof fits_indexes as Hf. split; [by apply (set_entry V256)|].
  by rewrite (val_set V256 dir_template), !(val_set_ne V256 _ dir_template) by done.
Qed.

Lemma new_page : body_rep (new_body ltDIR_NODE) (mkPage 0 0 []).
Proof.
  split; [apply new_entry, dir_format|].
  by rewrite (val_new U64 _ dir_template), (val_new U64 _ dir_template), (val_new V256 _ dir_template)
    by first [apply dir_format|apply fits_next|apply fits_prev|apply fits_indexes|done].
Qed.

(** What is asked of the function that describes a new page: it sets none of the fields that
    make up the directory. *)
Definition describes (describe : STObject → outcome STObject) : Prop :=
  ∀ o p, body_rep o p → ∃ o', describe o = Ret o' ∧ body_rep o' p.

Lemma describeOwnerDir_describes account : describes (describeOwnerDir account).
Proof.
  intros o p Ho. exists (set AccountID sfOwner account o). split.
  - apply (proxy_assign_set AccountID dir_template); [apply Ho|apply fits_owner|done|done].
  - apply (body_set AccountID); [done|apply fits_owner|done|done|done].
Qed.

(** ** The state of a program on a directory *)

Definition page_no (n : Z) : Prop := 0 ≤ n < dirNodeMaxPages.

(** The pages of the directory have different keys. *)
Definition pages_distinct `{Hash : Sha512} (R : Keylet) : Prop :=
  ∀ i j, page_no i → page_no j → getDirNodeIndex (kl_key R) i = getDirNodeIndex (kl_key R) j → i = j.

Lemma settled (n : Z) : ({[n]} ∪ ∅) ∖ {[n]} ⊆ (∅ : gset Z).
Proof. by intros x [[?|?]%elem_of_union ?]%elem_of_difference. Qed.

Lemma settled_twice (n : Z) : ({[n]} ∪ ({[n]} ∪ ∅)) ∖ {[n]} ⊆ (∅ : gset Z).
Proof. by intros x [[?|[?|?]%elem_of_union]%elem_of_union ?]%elem_of_difference. Qed.

Section Linked.
Context `{Hash : Sha512} (R : Keylet).
Implicit Types (s : vstate STObject) (P : gmap Z page) (d : gset Z).

Definition key (n : Z) : Z := getDirNodeIndex (kl_key R) n.

(** Not the key of a page of the directory. *)
Definition foreign (k : Z) : Prop := ∀ n, page_no n → k ≠ key n.

(** In [s] the pages of the directory are [P]; all else is as it was in [s0], and only the pages
    in [d] have writes for which [update] was not called yet. *)
Record linked s0 P d s : Prop := {
  linked_page n p : P !! n = Some p → page_no n ∧ ∃ x, vs_map s !! key n = Some x ∧ page_rep x p;
  linked_none n : page_no n → P !! n = None → vs_map s !! key n = None;
  linked_frame k : foreign k → vs_map s !! k = vs_map s0 !! k;
  linked_saved k : foreign k → (k ∈ vs_saved s ↔ k ∈ vs_saved s0);
  linked_dirty k : k ∈ vs_dirty s → k ∈ vs_dirty s0 ∨ ∃ n, n ∈ d ∧ page_no n ∧ k = key n }.

Section Rules.
Context (Hinj : pages_distinct R) (s0 : vstate STObject).

Lemma key_inj i j : page_no i → page_no j → key i = key j → i = j.
Proof using Hinj. intros Hi Hj. by apply Hinj. Qed.

Lemma linked_lookup P d s n :
  linked s0 P d s → page_no n →
  match P !! n with
  | Some p => ∃ x, vs_map s !! key n = Some x ∧ page_rep x p
  | None => vs_map s !! key n = None
  end.
Proof using.
  intros Hl Hn. destruct (P !! n) as [p|] eqn:E; [by apply (linked_page _ _ _ _ Hl)|].
  by apply (linked_none _ _ _ _ Hl).
Qed.

(** Replacing the entry of a page. *)
Lemma linked_insert P d s n x p saved dirty :
  linked s0 P d s → page_no n → page_rep x p →
  (∀ k, foreign k → (k ∈ saved ↔ k ∈ vs_saved s)) →
  (∀ k, k ∈ dirty → k = key n ∨ k ∈ vs_dirty s) →
  linked s0 (<[n := p]> P) ({[n]} ∪ d) (mkV (<[key n := x]> (vs_map s)) saved dirty).
Proof using Hinj.
  intros [Hp Hno Hf Hs Hd] Hn Hx Hsv Hdt. split; simpl.
  - intros m q Hm. destruct (decide (m = n)) as [->|Hne].
    + rewrite lookup_insert_eq in Hm. injection Hm as <-. split; [done|]. exists x.
      by rewrite lookup_insert_eq.
    + rewrite lookup_insert_ne in Hm by done. destruct (Hp m q Hm) as (Hm' & y & Hy & Hr).
      split; [done|]. exists y. rewrite lookup_insert_ne; [done|]. intros E. apply Hne. by apply key_inj.
  - intros m Hm. destruct (decide (m = n)) as [->|Hne]; [by rewrite lookup_insert_eq|].
    rewrite lookup_insert_ne by done. intros E. rewrite lookup_insert_ne; [by apply Hno|].
    intros E'. apply Hne. by apply key_inj.
  - intros k Hk. rewrite lookup_insert_ne; [by apply Hf|]. intros <-. by apply (Hk n Hn).
  - intros k Hk. rewrite Hsv by done. by apply Hs.
  - intros k [->|Hk]%Hdt; [right; exists n; split; [apply elem_of_union_l, elem_of_singleton|]; done|].
    destruct (Hd k Hk) as [?|(m & Hm & ? & ->)]; [by left|]. right. exists m.
    split; [by apply elem_of_union_r|done].
Qed.

(** [update], [insert] and [erase] settle the page. *)
Lemma linked_settle P d m sv dirty n saved :
  linked s0 P d (mkV m sv dirty) → page_no n →
  (∀ k, foreign k → (k ∈ saved ↔ k ∈ sv)) →
  linked s0 P (d ∖ {[n]}) (mkV m saved (dirty ∖ {[key n]})).
Proof using.
  intros [Hp Hno Hf Hs Hd] Hn Hsv. split; simpl in *; try done.
  - intros k Hk. rewrite Hsv by done. by apply Hs.
  - intros k [Hk Hne]%elem_of_difference. destruct (Hd k Hk) as [?|(i & Hi & ? & ->)]; [by left|].
    right. exists i. split; [|done]. apply elem_of_difference. split; [done|].
    intros ->%elem_of_singleton. apply Hne. by apply elem_of_singleton.
Qed.

Lemma linked_weaken P d d' s : linked s0 P d s → d ⊆ d' → linked s0 P d' s.
Proof using.
  intros [Hp Hno Hf Hs Hd] Hsub. split; try done. intros k Hk.
  destruct (Hd k Hk) as [?|(n & Hn & H)]; [by left|]. right. exists n. split; [by apply Hsub|done].
Qed.

Lemma foreign_key n k : foreign k → page_no n → k ∉ ({[key n]} : gset Z).
Proof using. intros Hk Hn ->%elem_of_singleton. by apply (Hk n Hn). Qed.

(** *** Rules *)

Lemma wp_peek_page P d s n (Q : option Z → vstate STObject → Prop) :
  linked s0 P d s → page_no n → Q ((λ _, key n) <$> P !! n) s → wp (peek (kl_page R n)) Q s.
Proof using.
  intros Hl Hn HQ. apply wp_peek. unfold lookup_kl. simpl. pose proof (linked_lookup P d s n Hl Hn) as H.
  fold (key n). destruct (P !! n) as [p|]; [|by rewrite H].
  destruct H as (x & -> & Hty & _). unfold check. simpl. by rewrite Hty.
Qed.

Lemma wp_peek_or P d s n p msg (Q : Z → vstate STObject → Prop) :
  linked s0 P d s → P !! n = Some p → Q (key n) s → wp (peek_or (kl_page R n) msg) Q s.
Proof using.
  intros Hl Hp HQ. unfold peek_or. apply wp_bind, (wp_peek_page P d); [done|by eapply linked_page|].
  rewrite Hp. by apply wp_ret.
Qed.

Lemma wp_get_page {V} (T : STClass V) `{!LawfulClass T} P d s n p f (Q : V → vstate STObject → Prop) :
  linked s0 P d s → P !! n = Some p → fits T dir_template f = true →
  (∀ o, body_rep o p → Q (val T o f) s) → wp (get T (key n) f) Q s.
Proof using.
  intros Hl Hp Hf HQ. destruct (linked_page _ _ _ _ Hl n p Hp) as (_ & x & Hx & _ & Hb).
  apply (wp_get_val T dir_template _ f x); [done|apply Hb|done|]. by apply HQ.
Qed.

Lemma wp_get_next P d s n p (Q : Z → vstate STObject → Prop) :
  linked s0 P d s → P !! n = Some p → Q (p_next p) s → wp (get U64 (key n) sfIndexNext) Q s.
Proof using.
  intros Hl Hp HQ. apply (wp_get_page U64 P d s n p); [done|done|apply fits_next|]. by intros o (_ & -> & _).
Qed.

Lemma wp_get_prev P d s n p (Q : Z → vstate STObject → Prop) :
  linked s0 P d s → P !! n = Some p → Q (p_prev p) s → wp (get U64 (key n) sfIndexPrevious) Q s.
Proof using.
  intros Hl Hp HQ. apply (wp_get_page U64 P d s n p); [done|done|apply fits_prev|]. by intros o (_ & _ & -> & _).
Qed.

Lemma wp_get_entries P d s n p (Q : list Z → vstate STObject → Prop) :
  linked s0 P d s → P !! n = Some p → Q (p_entries p) s → wp (get V256 (key n) sfIndexes) Q s.
Proof using.
  intros Hl Hp HQ. apply (wp_get_page V256 P d s n p); [done|done|apply fits_indexes|]. by intros o (_ & _ & _ & ->).
Qed.

Lemma wp_put_page {V} (T : STClass V) `{!LawfulClass T} (f : SField) (v : V) upd P d s n p
    (Q : unit → vstate STObject → Prop) :
  (∀ o, body_rep o p → body_rep (set T f v o) (upd p)) → fits T dir_template f = true →
  linked s0 P d s → P !! n = Some p →
  (∀ s', linked s0 (<[n := upd p]> P) ({[n]} ∪ d) s' → Q tt s') → wp (put T (key n) f v) Q s.
Proof using Hinj.
  intros Hset Hf Hl Hp HQ. destruct (linked_page _ _ _ _ Hl n p Hp) as (Hn & x & Hx & Hty & Hb).
  apply (wp_put_set T dir_template _ f v x); [done|apply Hb|done|]. apply HQ. unfold stored.
  apply linked_insert; [done|done|split; [done|by apply Hset]|done|].
  intros k. case_decide; [by right|]. intros [->%elem_of_singleton|?]%elem_of_union; auto.
Qed.

Lemma wp_update_page P d s n (Q : unit → vstate STObject → Prop) :
  linked s0 P d s → is_Some (P !! n) → (∀ s', linked s0 P (d ∖ {[n]}) s' → Q tt s') →
  wp (update (key n)) Q s.
Proof using.
  intros Hl [p Hp] HQ. destruct (linked_page _ _ _ _ Hl n p Hp) as (Hn & x & Hx & _).
  apply (wp_update _ x); [done|]. apply HQ. unfold saved. destruct s as [m sv dt].
  apply (linked_settle _ _ _ sv); [done|done|]. intros k Hk. rewrite elem_of_union.
  pose proof (foreign_key n k Hk Hn). tauto.
Qed.

Lemma wp_erase_page P d s n (Q : unit → vstate STObject → Prop) :
  linked s0 P d s → is_Some (P !! n) → (∀ s', linked s0 (delete n P) (d ∖ {[n]}) s' → Q tt s') →
  wp (erase (key n)) Q s.
Proof using Hinj.
  intros Hl [p Hp] HQ. destruct (linked_page _ _ _ _ Hl n p Hp) as (Hn & x & Hx & _).
  apply (wp_erase _ x); [done|]. apply HQ. unfold erased.
  assert (Hdel : linked s0 (delete n P) d (mkV (delete (key n) (vs_map s)) (vs_saved s) (vs_dirty s))).
  { pose proof Hl as [H1 H2 H3 H4 H5]. split; simpl; try done.
    - intros m q [Hne Hm]%lookup_delete_Some. destruct (H1 m q Hm) as (Hm' & y & Hy & Hr).
      split; [done|]. exists y. rewrite lookup_delete_ne; [done|]. intros E. apply Hne. by apply key_inj.
    - intros m Hm. destruct (decide (m = n)) as [->|Hne]; [intros _; by rewrite lookup_delete_eq|].
      rewrite lookup_delete_ne by done. intros E. rewrite lookup_delete_ne; [by apply H2|].
      intros E'. apply Hne. by apply key_inj.
    - intros k Hk. rewrite lookup_delete_ne; [by apply H3|]. intros <-. by apply (Hk n Hn). }
  apply (linked_settle _ _ _ (vs_saved s)); [done|done|]. intros k Hk. rewrite elem_of_difference.
  pose proof (foreign_key n k Hk Hn). tauto.
Qed.

Lemma wp_insert_page P d s n x p (Q : unit → vstate STObject → Prop) :
  linked s0 P d s → page_no n → P !! n = None → sle_key x = key n → page_rep x p →
  (∀ s', linked s0 (<[n := p]> P) (({[n]} ∪ d) ∖ {[n]}) s' → Q tt s') → wp (insert x) Q s.
Proof using Hinj.
  intros Hl Hn Hp Hk Hx HQ. apply wp_insert; [rewrite Hk; by apply (linked_none _ _ _ _ Hl)|].
  apply HQ. unfold inserted. rewrite Hk. apply (linked_settle _ _ _ (vs_saved s)); [|done|].
  - apply linked_insert; [done|done|done|done|by right].
  - intros k Hf. rewrite elem_of_union. pose proof (foreign_key n k Hf Hn). tauto.
Qed.

(** Setting a field of a page and calling [update]. *)
Lemma wp_save {V A} (T : STClass V) `{!LawfulClass T} (f : SField) (v : V) upd P s n p
    (K : view_prog A) (Q : A → vstate STObject → Prop) :
  (∀ o, body_rep o p → body_rep (set T f v o) (upd p)) → fits T dir_template f = true →
  linked s0 P ∅ s → P !! n = Some p →
  (∀ s', linked s0 (<[n := upd p]> P) ∅ s' → wp K Q s') →
  wp (put T (key n) f v ;; update (key n) ;; K) Q s.
Proof using Hinj.
  intros Hset Hf Hl Hp HK. apply wp_bind. eapply (wp_put_page T); [exact Hset|exact Hf|exact Hl|exact Hp|].
  intros s1 H1. apply wp_bind. eapply wp_update_page; [exact H1|by rewrite lookup_insert_eq|].
  intros s2 H2. apply HK. eapply linked_weaken; [exact H2|apply settled].
Qed.

Definition wp_save_next {A} v P s n p K (Q : A → _ → Prop) :=
  wp_save U64 sfIndexNext v (with_next v) P s n p K Q (λ o, body_next v o p) fits_next.
Definition wp_save_prev {A} v P s n p K (Q : A → _ → Prop) :=
  wp_save U64 sfIndexPrevious v (with_prev v) P s n p K Q (λ o, body_prev v o p) fits_prev.
Definition wp_save_entries {A} v P s n p K (Q : A → _ → Prop) :=
  wp_save V256 sfIndexes v (with_entries v) P s n p K Q (λ o, body_entries v o p) fits_indexes.

Lemma wp_erase_settled {A} P s n (K : view_prog A) (Q : A → vstate STObject → Prop) :
  linked s0 P ∅ s → is_Some (P !! n) → (∀ s', linked s0 (delete n P) ∅ s' → wp K Q s') →
  wp (erase (key n) ;; K) Q s.
Proof using Hinj.
  intros Hl Hp HK. apply wp_bind. eapply wp_erase_page; [exact Hl|exact Hp|]. intros s' H'. apply HK.
  eapply linked_weaken; [exact H'|]. apply subseteq_difference_l, empty_subseteq.
Qed.

Lemma wp_insert_settled {A} P s n x p (K : view_prog A) (Q : A → vstate STObject → Prop) :
  linked s0 P ∅ s → page_no n → P !! n = None → sle_key x = key n → page_rep x p →
  (∀ s', linked s0 (<[n := p]> P) ∅ s' → wp K Q s') → wp (insert x ;; K) Q s.
Proof using Hinj.
  intros Hl Hn Hp Hk Hx HK. apply wp_bind.
  eapply wp_insert_page; [exact Hl|exact Hn|exact Hp|exact Hk|exact Hx|]. intros s' H'. apply HK.
  eapply linked_weaken; [exact H'|apply settled].
Qed.
(** Writes to a page for which [insert] or [update] was already called. *)
Lemma wp_update_saved P s n (Q : unit → vstate STObject → Prop) :
  linked s0 P ∅ s → is_Some (P !! n) →
  (∀ s', linked s0 P ∅ s' → key n ∈ vs_saved s' → Q tt s') → wp (update (key n)) Q s.
Proof using.
  intros Hl [p Hp] HQ. destruct (linked_page _ _ _ _ Hl n p Hp) as (Hn & x & Hx & _).
  assert (Hup : wp (update (key n)) (λ _ s', linked s0 P ∅ s') s).
  { eapply wp_update_page; [exact Hl|by exists p|]. intros s' H'. eapply linked_weaken; [exact H'|].
    apply subseteq_difference_l, empty_subseteq. }
  destruct Hup as (u & s' & Hrun & H'). exists u, s'. split; [done|]. destruct u. apply HQ; [done|].
  simpl in Hrun. rewrite Hx in Hrun. injection Hrun as <-. simpl. apply elem_of_union. left. by apply elem_of_singleton.
Qed.

Lemma wp_insert_saved P s n x p (Q : unit → vstate STObject → Prop) :
  linked s0 P ∅ s → page_no n → P !! n = None → sle_key x = key n → page_rep x p →
  (∀ s', linked s0 (<[n := p]> P) ∅ s' → key n ∈ vs_saved s' → Q tt s') → wp (insert x) Q s.
Proof using Hinj.
  intros Hl Hn Hp Hk Hx HQ.
  assert (Hin : wp (insert x) (λ _ s', linked s0 (<[n := p]> P) ∅ s') s).
  { eapply wp_insert_page; [exact Hl|exact Hn|exact Hp|exact Hk|exact Hx|]. intros s' H'.
    eapply linked_weaken; [exact H'|apply settled]. }
  destruct Hin as (u & s' & Hrun & H'). exists u, s'. split; [done|]. destruct u. apply HQ; [done|].
  simpl in Hrun. rewrite Hk, (linked_none _ _ _ _ Hl n Hn Hp) in Hrun. injection Hrun as <-.
  simpl. apply elem_of_union. left. by apply elem_of_singleton.
Qed.

Lemma wp_store_saved P s n p o p' (Q : unit → vstate STObject → Prop) :
  linked s0 P ∅ s → P !! n = Some p → key n ∈ vs_saved s → body_rep o p' →
  (∀ s', linked s0 (<[n := p']> P) ∅ s' → key n ∈ vs_saved s' → Q tt s') → wp (store (key n) o) Q s.
Proof using Hinj.
  intros Hl Hp Hsv Ho HQ. destruct (linked_page _ _ _ _ Hl n p Hp) as (Hn & x & Hx & Hty & _).
  apply (wp_store _ _ x); [done|]. unfold stored. rewrite decide_True by done. apply HQ; [|done].
  pose proof (linked_insert P ∅ s n (set_body x o) p' (vs_saved s) (vs_dirty s) Hl Hn) as H'.
  destruct H' as [H1 H2 H3 H4 _]; [by split|done|by right|]. split; [done|done|done|done|].
  apply (linked_dirty _ _ _ _ Hl).
Qed.

Lemma wp_put_saved {V} (T : STClass V) `{!LawfulClass T} (f : SField) (v : V) upd P s n p
    (Q : unit → vstate STObject → Prop) :
  (∀ o, body_rep o p → body_rep (set T f v o) (upd p)) → fits T dir_template f = true →
  linked s0 P ∅ s → P !! n = Some p → key n ∈ vs_saved s →
  (∀ s', linked s0 (<[n := upd p]> P) ∅ s' → key n ∈ vs_saved s' → Q tt s') → wp (put T (key n) f v) Q s.
Proof using Hinj.
  intros Hset Hf Hl Hp Hsv HQ. destruct (linked_page _ _ _ _ Hl n p Hp) as (Hn & x & Hx & Hty & Hb).
  apply wp_bind, (wp_load _ x); [done|]. apply wp_bind, (wp_from _ (set T f v (sle_body x))).
  { apply (set_ret T dir_template); [apply Hb|done]. }
  eapply wp_store_saved; [exact Hl|exact Hp|exact Hsv|by apply Hset|exact HQ].
Qed.

Lemma wp_describe_saved describe P s n p (Q : unit → vstate STObject → Prop) :
  describes describe → linked s0 P ∅ s → P !! n = Some p → key n ∈ vs_saved s →
  (∀ s', linked s0 P ∅ s' → key n ∈ vs_saved s' → Q tt s') → wp (describe_at describe (key n)) Q s.
Proof using Hinj.
  intros Hdesc Hl Hp Hsv HQ. destruct (linked_page _ _ _ _ Hl n p Hp) as (Hn & x & Hx & Hty & Hb).
  destruct (Hdesc _ _ Hb) as (o & Ho & Hb').
  apply wp_bind, (wp_load _ x); [done|]. apply wp_bind, (wp_from _ o); [done|].
  eapply wp_store_saved; [exact Hl|exact Hp|exact Hsv|exact Hb'|]. by rewrite insert_id.
Qed.
End Rules.
End Linked.

(** ** Changes of the linked pages *)

Lemma pages_split l1 n es l2 pv :
  pv = last_no 0 (l1 ++ (n, es) :: l2) →
  pages (l1 ++ (n, es) :: l2) =
  list_to_map (layout pv n l1 ++ (n, mkPage (first_no 0 l2) (last_no pv l1) es) :: layout n 0 l2).
Proof. intros ->. unfold pages. by rewrite layout_app. Qed.

Lemma layout_nodup pv nx l : NoDup l.*1 → NoDup (layout pv nx l).*1.
Proof. by rewrite layout_keys. Qed.

Lemma split_nodup pv nx l1 n p l2 es nx' :
  NoDup (l1 ++ (n, es) :: l2).*1 → NoDup (layout pv nx l1 ++ (n, p) :: layout n nx' l2).*1.
Proof. by rewrite !fmap_app, !fmap_cons, !layout_keys. Qed.

Lemma pages_lookup l1 n es l2 :
  NoDup (l1 ++ (n, es) :: l2).*1 →
  pages (l1 ++ (n, es) :: l2) !! n =
  Some (mkPage (first_no 0 l2) (last_no (last_no 0 (l1 ++ (n, es) :: l2)) l1) es).
Proof.
  intros Hnd. rewrite (pages_split l1 n es l2 _ eq_refl). eapply lookup_page, split_nodup, Hnd.
Qed.

Lemma pages_None l n : n ∉ l.*1 → pages l !! n = None.
Proof. intros Hn. apply not_elem_of_list_to_map_1. by rewrite layout_keys. Qed.

Lemma pages_Some l n p : pages l !! n = Some p → n ∈ l.*1.
Proof.
  intros Hp. apply elem_of_list_to_map_2 in Hp. rewrite <- (layout_keys (last_no 0 l) 0 l).
  by apply (list_elem_of_fmap_2 fst) in Hp.
Qed.

Lemma last_no_split pv l1 n es l2 : last_no pv (l1 ++ (n, es) :: l2) = last_no n l2.
Proof. by rewrite last_no_app. Qed.

(** New entries of a page. *)
Lemma pages_set_entries l1 n es es' l2 p :
  NoDup (l1 ++ (n, es) :: l2).*1 → pages (l1 ++ (n, es) :: l2) !! n = Some p →
  <[n := with_entries es' p]> (pages (l1 ++ (n, es) :: l2)) = pages (l1 ++ (n, es') :: l2).
Proof.
  intros Hnd Hp. rewrite pages_lookup in Hp by done. injection Hp as <-.
  rewrite (pages_split l1 n es l2 (last_no n l2)), (pages_split l1 n es' l2 (last_no n l2))
    by (by rewrite last_no_split).
  rewrite insert_page by (by eapply split_nodup). by rewrite last_no_split.
Qed.

(** A new last page: after the root, or after another page. *)
Lemma pages_append_root z es m es' :
  z ≠ m →
  <[m := mkPage 0 z es']> (<[z := mkPage m m es]> (pages [(z, es)])) = pages [(z, es); (m, es')].
Proof.
  intros Hne. unfold pages. simpl. rewrite insert_insert_eq. by rewrite insert_insert_ne.
Qed.

Lemma pages_append z e0 l n es m es' :
  let l0 := (z, e0) :: l ++ [(n, es)] in
  NoDup (l0 ++ [(m, es')]).*1 →
  <[m := mkPage 0 n es']> (<[z := mkPage (first_no n l) m e0]>
    (<[n := mkPage m (last_no z l) es]> (pages l0))) = pages (l0 ++ [(m, es')]).
Proof.
  intros l0 Hnd. unfold l0 in *.
  assert (Hnd0 : NoDup ((z, e0) :: l ++ [(n, es)]).*1).
  { rewrite fmap_app in Hnd. apply NoDup_app in Hnd. apply Hnd. }
  assert (Hm : m ∉ ((z, e0) :: l ++ [(n, es)]).*1).
  { rewrite fmap_app in Hnd. apply NoDup_app in Hnd as (_ & Hd & _). intros Hin. apply (Hd m Hin). by left. }
  unfold pages. cbn [layout app last_no]. rewrite <- app_assoc, !layout_app, !last_no_app.
  cbn [app last_no layout first_no].
  rewrite insert_inner.
  2: { cbn. rewrite fmap_app, layout_keys. cbn in Hnd0. by rewrite fmap_app in Hnd0. }
  rewrite insert_first, append_page.
  2: { cbn. rewrite fmap_app, layout_keys. cbn in Hm. by rewrite fmap_app in Hm. }
  cbn [app]. rewrite <- app_assoc. cbn [app]. by destruct l as [|[]].
Qed.

(** ** A directory in a ledger *)

Record directory `{Hash : Sha512} (R : Keylet) (m : gmap Z (SLE STObject)) (l : dir) : Prop := {
  directory_ok : dir_ok l;
  directory_page n p : pages l !! n = Some p → ∃ x, m !! key R n = Some x ∧ page_rep x p;
  directory_none n : page_no n → n ∉ l.*1 → m !! key R n = None }.

(** From [s] to [s'] nothing changed but the pages of the directory, and no write was lost. *)
Record touches `{Hash : Sha512} (R : Keylet) (s s' : vstate STObject) : Prop := {
  touches_frame k : foreign R k → vs_map s' !! k = vs_map s !! k;
  touches_saved k : foreign R k → (k ∈ vs_saved s' ↔ k ∈ vs_saved s);
  touches_dirty : vs_dirty s' ⊆ vs_dirty s }.

Lemma dir_page_no l n : dir_ok l → n ∈ l.*1 → page_no n.
Proof.
  intros Hok (x & -> & Hin)%list_elem_of_fmap. apply dir_range in Hok. rewrite Forall_forall in Hok.
  by apply Hok.
Qed.

Lemma directory_linked `{Hash : Sha512} R s l :
  directory R (vs_map s) l → linked R s (pages l) ∅ s.
Proof.
  intros [Hok Hp Hn]. split; try done.
  - intros n p Hnp. split; [|by apply Hp]. eapply dir_page_no; [done|]. by eapply pages_Some.
  - intros n Hno Hnone. apply Hn; [done|]. intros Hin.
    apply list_elem_of_fmap in Hin as ([m es] & -> & (l1 & l2 & ->)%list_elem_of_split).
    rewrite pages_lookup in Hnone by (by apply dir_nodup). done.
  - by left.
Qed.

Lemma linked_directory `{Hash : Sha512} R s l s' :
  dir_ok l → linked R s (pages l) ∅ s' → directory R (vs_map s') l ∧ touches R s s'.
Proof.
  intros Hok [Hp Hn Hf Hs Hd]. split; split; try done.
  - intros n p Hnp. by apply Hp.
  - intros n Hno Hnin. apply Hn; [done|]. by apply pages_None.
  - intros k Hk. destruct (Hd k Hk) as [?|(n & Hin & _)]; [done|]. by apply not_elem_of_empty in Hin.
Qed.

(** A run that ends in an error. *)
Definition throws {F A} (p : prog F A) (e : exn) (s : vstate F) : Prop := run p s = Throw e.

Lemma throws_bind {F A B} (p : prog F A) (f : A → prog F B) e s :
  wp p (λ a s', throws (f a) e s') s → throws (p ≫= f) e s.
Proof. intros (a & s1 & H1 & H2). unfold throws. by rewrite run_bind, H1. Qed.

(** ** [dirAdd] *)

Lemma keylet_eta k : mkKeylet (kl_type k) (kl_key k) = k.
Proof. by destruct k. Qed.

Section Add.
Context `{Hash : Sha512} (R : Keylet) (Hty : kl_type R = ltDIR_NODE) (Hinj : pages_distinct R).
Context (describe : STObject → outcome STObject) (Hdesc : describes describe).
Implicit Types (s : vstate STObject).

Lemma root_key : kl_key R = key R 0.
Proof using. done. Qed.

Lemma root_keylet : kl_page R 0 = R.
Proof using Hty. unfold kl_page. simpl. by rewrite <- Hty, keylet_eta. Qed.

Lemma page_zero : page_no 0.
Proof. unfold page_no, dirNodeMaxPages. lia. Qed.

Lemma page_u64 n : page_no n → u64 (n + 1) = n + 1.
Proof using. unfold page_no, dirNodeMaxPages. intros Hn. apply u64_small. unfold in_u64. lia. Qed.

(** The last page, where [dirAdd] works. *)
Lemma wp_last_page l n es s (Q : Z → vstate STObject → Prop) :
  dir_ok l → last l = Some (n, es) → linked R s (pages l) ∅ s → Q (key R n) s →
  wp (if n =? 0 then mret (kl_key R)
      else x ← peek (kl_page R n);
           match x with
           | Some x => mret x
           | None => LogicError "Directory chain: root back-pointer broken."
           end) Q s.
Proof using.
  intros Hok Hlast Hl HQ. destruct (Z.eqb_spec n 0) as [->|Hn]; [by apply wp_ret|].
  apply last_split in Hlast as (l1 & ->). apply wp_bind, (wp_peek_page R s (pages (l1 ++ [(n, es)])) ∅).
  - done.
  - eapply dir_page_no; [done|]. rewrite fmap_app. apply elem_of_app. right. by left.
  - rewrite pages_lookup by (by apply dir_nodup). by apply wp_ret.
Qed.

Lemma pages_root z e0 l : pages ((z, e0) :: l) !! z = Some (mkPage (first_no 0 l) (last_no z l) e0).
Proof. unfold pages. simpl. by rewrite lookup_insert_eq. Qed.

(** Making the body of a new page. *)
Lemma wp_body {V A} (T : STClass V) `{!LawfulClass T} (f : SField) v upd o p
    (K : STObject → view_prog A) Q s :
  body_rep o p → fits T dir_template f = true → body_rep (set T f v o) upd →
  (∀ o', body_rep o' upd → wp (K o') Q s) → wp (from (setFieldUsing T f v o) ≫= K) Q s.
Proof using.
  intros Ho Hf Hset HK. apply wp_bind, (wp_from _ (set T f v o)); [|by apply HK].
  by apply (set_ret T dir_template); [apply Ho|].
Qed.

Lemma wp_describe {A} o p (K : STObject → view_prog A) Q s :
  body_rep o p → (∀ o', body_rep o' p → wp (K o') Q s) → wp (from (describe o) ≫= K) Q s.
Proof using Hdesc.
  intros Ho HK. destruct (Hdesc o p Ho) as (o' & Ho' & Hb).
  apply wp_bind, (wp_from _ o'); [done|by apply HK].
Qed.

Lemma wp_new {A} n (K : SLE STObject → view_prog A) Q s :
  (∀ o, body_rep o (mkPage 0 0 []) → wp (K (mkSLE (key R n) ltDIR_NODE o)) Q s) →
  wp (from (make_SLE (kl_page R n)) ≫= K) Q s.
Proof using.
  intros HK. apply wp_bind. eapply wp_from; [apply (make_SLE_new (kl_page R n) dir_template), dir_format|].
  apply HK, new_page.
Qed.

Lemma body_root v o p : body_rep o p → body_rep (set H256 sfRootIndex v o) p.
Proof using. intros Ho. by apply (body_set H256); [|apply fits_root|..]. Qed.

(** The directory does not exist yet. *)
Lemma dirAdd_new preserveOrder k s :
  linked R s (pages []) ∅ s →
  wp (dirAdd preserveOrder R k describe)
    (λ r s', r = Some 0 ∧ linked R s (pages [(0, [k])]) ∅ s') s.
Proof using Hdesc Hinj Hty.
  intros Hl. unfold dirAdd. rewrite <- root_keylet at 1.
  apply wp_bind, (wp_peek_page R s (pages []) ∅); [done|apply page_zero|].
  rewrite pages_None by apply not_elem_of_nil. cbn [fmap option_fmap option_map]. rewrite <- root_keylet at 1.
  apply wp_new. intros o Ho. cbn [sle_body].
  eapply (wp_body H256); [exact Ho|apply fits_root|by apply body_root|]. intros o1 H1.
  eapply wp_describe; [exact H1|]. intros o2 H2.
  eapply (wp_body V256); [exact H2|apply fits_indexes|by apply body_entries|]. intros o3 H3.
  eapply (wp_insert_settled R Hinj s); [exact Hl|apply page_zero|done|done|split; [done|exact H3]|].
  intros s' Hl'. by apply wp_ret.
Qed.

(** The directory exists: the work is done at its last page. *)
Lemma dirAdd_last preserveOrder k l n es s :
  dir_ok l → last l = Some (n, es) → linked R s (pages l) ∅ s →
  run (dirAdd preserveOrder R k describe) s =
  run (dirAdd_page preserveOrder R k describe (key R 0) (key R n) n) s.
Proof using Hty.
  intros Hok Hlast Hl. destruct l as [|[z e0] l]; [done|].
  pose proof (dir_root _ Hok z e0 l eq_refl) as ->.
  assert (Hn : last_no 0 l = n).
  { apply last_split in Hlast as (l1 & E). change (last_no 0 l) with (last_no 0 ((0, e0) :: l)).
    rewrite E. apply last_no_app. }
  assert (H1 : wp (peek R) (λ r s', r = Some (key R 0) ∧ s' = s) s).
  { rewrite <- root_keylet. eapply wp_peek_page; [exact Hl|apply page_zero|]. by rewrite pages_root. }
  destruct H1 as (? & ? & H1 & -> & ->).
  assert (H2 : wp (get U64 (key R 0) sfIndexPrevious) (λ r s', r = n ∧ s' = s) s).
  { eapply wp_get_prev; [exact Hl|apply pages_root|]. done. }
  destruct H2 as (? & ? & H2 & -> & ->).
  pose proof (wp_last_page _ n es s (λ r s', r = key R n ∧ s' = s) Hok Hlast Hl (conj eq_refl eq_refl)) as H3.
  destruct H3 as (? & ? & H3 & -> & ->).
  unfold dirAdd. rewrite run_bind, H1, run_bind, H2. cbv beta iota. rewrite run_bind.
  by rewrite <- root_key, H3.
Qed.

Lemma last_page_of l n es :
  dir_ok l → last l = Some (n, es) → page_no n ∧ ∃ p, pages l !! n = Some p ∧ p_entries p = es.
Proof using.
  intros Hok (l1 & ->)%last_split. split.
  - eapply dir_page_no; [done|]. rewrite fmap_app. apply elem_of_app. right. by left.
  - eexists. split; [by apply (pages_lookup l1 n es []), dir_nodup|done].
Qed.

Lemma dirAdd_room preserveOrder k l n es es' s :
  dir_ok l → last l = Some (n, es) → linked R s (pages l) ∅ s →
  Z.of_nat (length es) < dirNodeMaxEntries → add_index preserveOrder k es = Some es' →
  wp (dirAdd_page preserveOrder R k describe (key R 0) (key R n) n)
    (λ r s', r = Some n ∧ linked R s (pages (set_page n es' l)) ∅ s') s.
Proof using Hinj.
  intros Hok (l1 & ->)%last_split Hl Hlen Hadd. pose proof (dir_nodup _ Hok) as Hnd.
  pose proof (pages_lookup l1 n es [] Hnd) as Hp. unfold dirAdd_page.
  apply wp_bind. eapply wp_get_entries; [exact Hl|exact Hp|]. cbn [p_entries].
  rewrite (proj2 (Z.ltb_lt _ _) Hlen), Hadd. apply wp_bind, wp_ret.
  eapply (wp_save_entries R Hinj); [exact Hl|exact Hp|]. intros s1 H1.
  rewrite (pages_set_entries l1 n es es' [] _ Hnd Hp) in H1.
  apply wp_ret. split; [done|]. by rewrite (set_page_split n es es' l1 []).
Qed.

Lemma dirAdd_double preserveOrder k l n es s :
  dir_ok l → last l = Some (n, es) → linked R s (pages l) ∅ s →
  Z.of_nat (length es) < dirNodeMaxEntries → add_index preserveOrder k es = None →
  throws (dirAdd_page preserveOrder R k describe (key R 0) (key R n) n)
    (logic_error "dirInsert: double insertion") s.
Proof using.
  intros Hok (l1 & ->)%last_split Hl Hlen Hadd. pose proof (dir_nodup _ Hok) as Hnd.
  pose proof (pages_lookup l1 n es [] Hnd) as Hp. unfold dirAdd_page.
  apply throws_bind. eapply wp_get_entries; [exact Hl|exact Hp|]. cbn [p_entries].
  by rewrite (proj2 (Z.ltb_lt _ _) Hlen), Hadd.
Qed.
Lemma dirAdd_full preserveOrder k l n es s :
  dir_ok l → last l = Some (n, es) → linked R s (pages l) ∅ s →
  dirNodeMaxEntries ≤ Z.of_nat (length es) → dirNodeMaxPages ≤ n + 1 →
  wp (dirAdd_page preserveOrder R k describe (key R 0) (key R n) n) (λ r s', r = None ∧ s' = s) s.
Proof using.
  intros Hok (l1 & ->)%last_split Hl Hlen Hn. pose proof (dir_nodup _ Hok) as Hnd.
  assert (Hr : page_no n) by (eapply dir_page_no; [done|]; rewrite fmap_app; apply elem_of_app; right; by left).
  pose proof (pages_lookup l1 n es [] Hnd) as Hp. unfold dirAdd_page.
  apply wp_bind. eapply wp_get_entries; [exact Hl|exact Hp|]. cbn [p_entries].
  rewrite (proj2 (Z.ltb_ge _ _) Hlen), (page_u64 n Hr).
  rewrite (proj2 (Z.leb_le _ _) Hn). by apply wp_ret.
Qed.

(** The new page. *)
Lemma wp_add_page s0 P k n s (Q : option Z → vstate STObject → Prop) :
  page_no (n + 1) → P !! (n + 1) = None → linked R s0 P ∅ s →
  (∀ s', linked R s0 (<[n + 1 := mkPage 0 n [k]]> P) ∅ s' → Q (Some (n + 1)) s') →
  wp (node ← from (make_SLE (kl_page R (n + 1)));
      o ← from (setFieldH256 sfRootIndex (kl_key R) (sle_body node));
      o ← from (setFieldV256 sfIndexes [k] o);
      o ← (if n + 1 =? 1 then mret o else from (setFieldU64 sfIndexPrevious (n + 1 - 1) o));
      o ← from (describe o);
      insert (set_body node o) ;;
      mret (Some (n + 1))) Q s.
Proof using Hdesc Hinj.
  intros Hn Hnone Hl HQ. apply wp_new. intros o Ho. cbn [sle_body].
  eapply (wp_body H256); [exact Ho|apply fits_root|by apply body_root|]. intros o1 H1.
  eapply (wp_body V256); [exact H1|apply fits_indexes|by apply body_entries|]. intros o2 H2.
  assert (Hlast : ∀ o3, body_rep o3 (mkPage 0 n [k]) →
    wp (o ← from (describe o3);
        insert (set_body (mkSLE (key R (n + 1)) ltDIR_NODE o) o) ;; mret (Some (n + 1))) Q s).
  { intros o3 H3. eapply wp_describe; [exact H3|]. intros o4 H4.
    eapply (wp_insert_settled R Hinj s0); [exact Hl|exact Hn|exact Hnone|done|split; [done|exact H4]|].
    intros s' Hl'. by apply wp_ret, HQ. }
  apply wp_bind. destruct (Z.eqb_spec (n + 1) 1) as [E|E].
  - apply wp_ret, Hlast. assert (n = 0) as -> by lia. exact H2.
  - apply (wp_from _ (set U64 sfIndexPrevious (n + 1 - 1) o2)).
    { apply (set_ret U64 dir_template); [apply H2|apply fits_prev]. }
    apply Hlast. replace (n + 1 - 1) with n by lia. exact (body_prev n _ _ H2).
Qed.

(** Linking a new page after the last one. *)
Lemma wp_link_new {A} k l n es s (K : view_prog A) (Q : A → vstate STObject → Prop) :
  dir_ok l → last l = Some (n, es) → linked R s (pages l) ∅ s → n + 1 < dirNodeMaxPages →
  (∀ s' P, linked R s P ∅ s' → P !! (n + 1) = None → page_no (n + 1) →
    <[n + 1 := mkPage 0 n [k]]> P = pages (l ++ [(n + 1, [k])]) → wp K Q s') →
  wp (put U64 (key R n) sfIndexNext (n + 1) ;; update (key R n) ;;
      put U64 (key R 0) sfIndexPrevious (n + 1) ;; update (key R 0) ;; K) Q s.
Proof using Hinj.
  intros Hok Hlast Hl Hn HK. destruct (last_split _ _ Hlast) as (l1 & ->).
  pose proof (dir_nodup _ Hok) as Hnd.
  assert (Hr : page_no n) by (eapply dir_page_no; [done|]; rewrite fmap_app; apply elem_of_app; right; by left).
  assert (Hr1 : page_no (n + 1)) by (unfold page_no in *; lia).
  assert (Hnew : n + 1 ∉ (l1 ++ [(n, es)]).*1).
  { pose proof (dir_sorted _ Hok) as Hs. rewrite fmap_app in Hs |- *. intros [Hin|Hin]%elem_of_app.
    - pose proof (StronglySorted_app_1_elem_of _ _ _ _ n Hs Hin ltac:(by left)). lia.
    - apply list_elem_of_singleton in Hin. simpl in Hin. lia. }
  assert (Hnd2 : NoDup ((l1 ++ [(n, es)]) ++ [(n + 1, [k])]).*1).
  { rewrite fmap_app. apply NoDup_app. split_and!; [done| |apply NoDup_singleton].
    intros m Hm ->%list_elem_of_singleton. done. }
  pose proof (pages_lookup l1 n es [] Hnd) as Hp.
  eapply (wp_save_next R Hinj); [exact Hl|exact Hp|]. intros s1 H1. destruct l1 as [|[z e0] l1].
  - pose proof (dir_root _ Hok n es [] eq_refl) as ->.
    eapply (wp_save_prev R Hinj); [exact H1|apply lookup_insert_eq|]. intros s2 H2.
    eapply HK; [exact H2| |done|].
    + rewrite !lookup_insert_ne by done. by apply pages_None.
    + rewrite insert_insert_eq. exact (pages_append_root 0 es 1 [k] ltac:(done)).
  - pose proof (dir_root _ Hok z e0 _ eq_refl) as ->.
    assert (Hn0 : n ≠ 0).
    { intros ->. cbn in Hnd. apply NoDup_cons in Hnd as [Hnd _]. apply Hnd. rewrite fmap_app.
      apply elem_of_app. right. by left. }
    eapply (wp_save_prev R Hinj); [exact H1|rewrite lookup_insert_ne by done; apply pages_root|].
    intros s2 H2. eapply HK; [exact H2| |done|].
    + rewrite !lookup_insert_ne by (unfold page_no in Hr; lia). by apply pages_None.
    + pose proof (pages_append 0 e0 l1 n es (n + 1) [k] Hnd2) as E. cbv zeta in E. cbn [app] in *.
      rewrite <- E. cbn [with_prev with_next p_next p_prev p_entries]. rewrite last_no_app.
      by destruct l1 as [|[]].
Qed.

Lemma dirAdd_grow preserveOrder k l n es s :
  dir_ok l → last l = Some (n, es) → linked R s (pages l) ∅ s →
  dirNodeMaxEntries ≤ Z.of_nat (length es) → n + 1 < dirNodeMaxPages →
  wp (dirAdd_page preserveOrder R k describe (key R 0) (key R n) n)
    (λ r s', r = Some (n + 1) ∧ linked R s (pages (l ++ [(n + 1, [k])])) ∅ s') s.
Proof using Hinj Hdesc.
  intros Hok Hlast Hl Hlen Hn. destruct (last_page_of l n es Hok Hlast) as (Hr & p & Hp & He).
  unfold dirAdd_page. apply wp_bind. eapply wp_get_entries; [exact Hl|exact Hp|]. rewrite He.
  rewrite (proj2 (Z.ltb_ge _ _) Hlen), (page_u64 n Hr), (proj2 (Z.leb_gt _ _) Hn).
  eapply (wp_link_new k); [done|exact Hlast|exact Hl|done|]. intros s' P HP Hnone Hn1 Heq.
  eapply wp_add_page; [done|exact Hnone|exact HP|]. intros s3 H3. by rewrite <- Heq.
Qed.

(** [dirAdd] does to the linked pages what [dir_add] does to the list. *)
Lemma dirAdd_refines preserveOrder k l s :
  directory R (vs_map s) l →
  match dir_add preserveOrder k l with
  | Some (r, l') => wp (dirAdd preserveOrder R k describe)
      (λ r' s', r' = r ∧ linked R s (pages l') ∅ s') s
  | None => throws (dirAdd preserveOrder R k describe) (logic_error "dirInsert: double insertion") s
  end.
Proof using Hdesc Hinj Hty.
  intros Hdir. pose proof (directory_ok _ _ _ Hdir) as Hok. apply directory_linked in Hdir.
  unfold dir_add. destruct (last l) as [[n es]|] eqn:Hlast.
  2: { apply last_None in Hlast as ->. by apply dirAdd_new. }
  assert (Hrun : ∀ Q, wp (dirAdd_page preserveOrder R k describe (key R 0) (key R n) n) Q s →
    wp (dirAdd preserveOrder R k describe) Q s).
  { intros Q. unfold wp. by rewrite (dirAdd_last preserveOrder k l n es s Hok Hlast Hdir). }
  destruct (Z.ltb_spec (Z.of_nat (length es)) dirNodeMaxEntries).
  - destruct (add_index preserveOrder k es) as [es'|] eqn:Hadd; cbn [mbind option_bind].
    + apply Hrun. by eapply dirAdd_room.
    + unfold throws. rewrite (dirAdd_last preserveOrder k l n es s Hok Hlast Hdir). by eapply dirAdd_double.
  - destruct (Z.leb_spec dirNodeMaxPages (n + 1)).
    + apply Hrun. eapply wp_mono; [by eapply dirAdd_full|]. by intros r s' [-> ->].
    + apply Hrun. by eapply dirAdd_grow.
Qed.

(** ** The directory function of [View.cpp] *)

(** What it did before directories were sorted: always append, and check nothing. *)
Definition legacy_add (k : Z) (l : dir) : Z * dir :=
  match last l with
  | None => (0, [(0, [k])])
  | Some (n, es) =>
    if Z.of_nat (length es) =? dirNodeMaxEntries then (n + 1, l ++ [(n + 1, [k])])
    else (n, set_page n (es ++ [k]) l)
  end.

Lemma legacy_new strict k s :
  linked R s (pages []) ∅ s →
  wp (view_dirAdd false R k strict describe)
    (λ r s', r = Some 0 ∧ linked R s (pages [(0, [k])]) ∅ s') s.
Proof using Hdesc Hinj Hty.
  intros Hl. unfold view_dirAdd. rewrite <- root_keylet at 1.
  apply wp_bind, (wp_peek_page R s (pages []) ∅); [done|apply page_zero|].
  rewrite pages_None by apply not_elem_of_nil. cbn [fmap option_fmap option_map]. rewrite <- root_keylet at 1.
  apply wp_new. intros o Ho. cbn [sle_body].
  eapply (wp_body H256); [exact Ho|apply fits_root|by apply body_root|]. intros o1 H1.
  apply wp_bind. eapply (wp_insert_saved R Hinj s); [exact Hl|apply page_zero|done|done|split; [done|exact H1]|].
  intros s1 Hl1 Hs1. apply wp_bind. rewrite root_key.
  eapply wp_describe_saved; [exact Hinj|exact Hdesc|exact Hl1|apply lookup_insert_eq|exact Hs1|].
  intros s2 Hl2 Hs2. apply wp_bind.
  eapply (wp_put_saved R Hinj s V256 sfIndexes [k] (with_entries [k]));
    [intros o2; apply body_entries|apply fits_indexes|exact Hl2|apply lookup_insert_eq|exact Hs2|].
  intros s3 Hl3 _. apply wp_ret. split; [done|]. by rewrite insert_insert_eq in Hl3.
Qed.

Lemma legacy_last strict k l n es s :
  dir_ok l → last l = Some (n, es) → linked R s (pages l) ∅ s →
  run (view_dirAdd false R k strict describe) s =
  run (view_dirAdd_page R k describe (key R 0) (key R n) n) s.
Proof using Hty.
  intros Hok Hlast Hl. destruct l as [|[z e0] l]; [done|].
  pose proof (dir_root _ Hok z e0 l eq_refl) as ->.
  assert (Hn : last_no 0 l = n).
  { apply last_split in Hlast as (l1 & E). change (last_no 0 l) with (last_no 0 ((0, e0) :: l)).
    rewrite E. apply last_no_app. }
  assert (H1 : wp (peek R) (λ r s', r = Some (key R 0) ∧ s' = s) s).
  { rewrite <- root_keylet. eapply wp_peek_page; [exact Hl|apply page_zero|]. by rewrite pages_root. }
  destruct H1 as (? & ? & H1 & -> & ->).
  assert (H2 : wp (get U64 (key R 0) sfIndexPrevious) (λ r s', r = n ∧ s' = s) s).
  { eapply wp_get_prev; [exact Hl|apply pages_root|]. done. }
  destruct H2 as (? & ? & H2 & -> & ->).
  assert (H3 : wp (if n =? 0 then mret (key R 0) else peek_or (kl_page R n) "null pointer")
    (λ r s', r = key R n ∧ s' = s) s).
  { destruct (Z.eqb_spec n 0) as [->|Hn0]; [by apply wp_ret|]. apply last_split in Hlast as (l1 & E).
    rewrite E in *. eapply wp_peek_or; [exact Hl| |done]. apply (pages_lookup l1 n es []).
    by apply dir_nodup. }
  destruct H3 as (? & ? & H3 & -> & ->).
  unfold view_dirAdd. rewrite run_bind, H1, run_bind, H2. cbv beta iota. by rewrite run_bind, H3.
Qed.

Lemma legacy_room k l n es s :
  dir_ok l → last l = Some (n, es) → linked R s (pages l) ∅ s →
  Z.of_nat (length es) ≠ dirNodeMaxEntries →
  wp (view_dirAdd_page R k describe (key R 0) (key R n) n)
    (λ r s', r = Some n ∧ linked R s (pages (set_page n (es ++ [k]) l)) ∅ s') s.
Proof using Hinj.
  intros Hok (l1 & ->)%last_split Hl Hlen. pose proof (dir_nodup _ Hok) as Hnd.
  pose proof (pages_lookup l1 n es [] Hnd) as Hp. unfold view_dirAdd_page.
  apply wp_bind. eapply wp_get_entries; [exact Hl|exact Hp|]. cbn [p_entries].
  rewrite (proj2 (Z.eqb_neq _ _)) by congruence. cbn [negb].
  apply wp_bind. eapply wp_update_saved; [exact Hl|by rewrite Hp|]. intros s1 H1 Hs1.
  apply wp_bind. eapply (wp_put_saved R Hinj s V256 sfIndexes _ (with_entries (es ++ [k])));
    [intros o2; apply body_entries|apply fits_indexes|exact H1|exact Hp|exact Hs1|].
  intros s2 H2 _. rewrite (pages_set_entries l1 n es _ [] _ Hnd Hp) in H2.
  apply wp_ret. split; [done|]. by rewrite (set_page_split n es _ l1 []).
Qed.

(** The new page of the older code: the fields are set after the insertion. *)
Lemma wp_legacy_page s0 P k n s (Q : option Z → vstate STObject → Prop) :
  page_no (n + 1) → P !! (n + 1) = None → linked R s0 P ∅ s →
  (∀ s', linked R s0 (<[n + 1 := mkPage 0 n [k]]> P) ∅ s' → Q (Some (n + 1)) s') →
  wp (node ← from (make_SLE (kl_page R (n + 1)));
      o ← from (setFieldH256 sfRootIndex (kl_key R) (sle_body node));
      insert (set_body node o) ;;
      (if n + 1 =? 1 then mret () else put U64 (sle_key node) sfIndexPrevious (n + 1 - 1)) ;;
      describe_at describe (sle_key node) ;;
      put V256 (sle_key node) sfIndexes [k] ;;
      mret (Some (n + 1))) Q s.
Proof using Hdesc Hinj.
  intros Hn Hnone Hl HQ. apply wp_new. intros o Ho. cbn [sle_body sle_key].
  eapply (wp_body H256); [exact Ho|apply fits_root|by apply body_root|]. intros o1 H1.
  apply wp_bind. eapply (wp_insert_saved R Hinj s0); [exact Hl|exact Hn|exact Hnone|done|split; [done|exact H1]|].
  intros s1 Hl1 Hs1. apply wp_bind.
  assert (Hrest : ∀ s2, linked R s0 (<[n + 1 := mkPage 0 n []]> P) ∅ s2 → key R (n + 1) ∈ vs_saved s2 →
    wp (describe_at describe (key R (n + 1)) ;; put V256 (key R (n + 1)) sfIndexes [k] ;;
        mret (Some (n + 1))) Q s2).
  { intros s2 Hl2 Hs2. apply wp_bind.
    eapply wp_describe_saved; [exact Hinj|exact Hdesc|exact Hl2|apply lookup_insert_eq|exact Hs2|].
    intros s3 Hl3 Hs3. apply wp_bind.
    eapply (wp_put_saved R Hinj s0 V256 sfIndexes [k] (with_entries [k]));
      [intros o2; apply body_entries|apply fits_indexes|exact Hl3|apply lookup_insert_eq|exact Hs3|].
    intros s4 Hl4 _. apply wp_ret, HQ. by rewrite insert_insert_eq in Hl4. }
  destruct (Z.eqb_spec (n + 1) 1) as [E|E].
  - apply wp_ret, Hrest; [|done]. assert (n = 0) as -> by lia. exact Hl1.
  - replace (n + 1 - 1) with n by lia.
    eapply (wp_put_saved R Hinj s0 U64 sfIndexPrevious n (with_prev n));
      [intros o2; apply body_prev|apply fits_prev|exact Hl1|apply lookup_insert_eq|exact Hs1|].
    intros s2 Hl2 Hs2. apply Hrest; [|done]. by rewrite insert_insert_eq in Hl2.
Qed.

Lemma legacy_grow k l n es s :
  dir_ok l → last l = Some (n, es) → linked R s (pages l) ∅ s →
  Z.of_nat (length es) = dirNodeMaxEntries → n + 1 < dirNodeMaxPages →
  wp (view_dirAdd_page R k describe (key R 0) (key R n) n)
    (λ r s', r = Some (n + 1) ∧ linked R s (pages (l ++ [(n + 1, [k])])) ∅ s') s.
Proof using Hinj Hdesc.
  intros Hok Hlast Hl Hlen Hn. destruct (last_page_of l n es Hok Hlast) as (Hr & p & Hp & He).
  unfold view_dirAdd_page. apply wp_bind. eapply wp_get_entries; [exact Hl|exact Hp|]. rewrite He.
  rewrite Hlen, Z.eqb_refl, (page_u64 n Hr). cbn [negb].
  rewrite (proj2 (Z.eqb_neq (n + 1) 0)) by (unfold page_no in Hr; lia).
  eapply (wp_link_new k); [done|exact Hlast|exact Hl|done|]. intros s' P HP Hnone Hn1 Heq.
  eapply wp_legacy_page; [done|exact Hnone|exact HP|]. intros s3 H3. by rewrite <- Heq.
Qed.

Lemma legacy_refines strict k l s :
  directory R (vs_map s) l → (∀ n es, last l = Some (n, es) → n + 1 < dirNodeMaxPages) →
  wp (view_dirAdd false R k strict describe)
    (λ r s', r = Some (legacy_add k l).1 ∧ linked R s (pages (legacy_add k l).2) ∅ s') s.
Proof using Hdesc Hinj Hty.
  intros Hdir Hmax. pose proof (directory_ok _ _ _ Hdir) as Hok. apply directory_linked in Hdir.
  unfold legacy_add. destruct (last l) as [[n es]|] eqn:Hlast.
  2: { apply last_None in Hlast as ->. by apply legacy_new. }
  unfold wp. rewrite (legacy_last strict k l n es s Hok Hlast Hdir).
  destruct (Z.eqb_spec (Z.of_nat (length es)) dirNodeMaxEntries).
  - eapply legacy_grow; [done|done|done|done|]. by eapply Hmax.
  - by eapply legacy_room.
Qed.

Lemma legacy_add_spec k l n l' :
  dir_ok l → (∀ n es, last l = Some (n, es) → n + 1 < dirNodeMaxPages) → legacy_add k l = (n, l') →
  dir_ok l' ∧ entries l' = entries l ++ [k] ∧ ∃ es, page_of n l' = Some es ∧ k ∈ es.
Proof using.
  intros Hok Hmax. unfold legacy_add. destruct (last l) as [[m es]|] eqn:Hlast.
  2: { apply last_None in Hlast as ->. pose proof (dir_add_spec true k [] Hok) as (H1 & _ & H2 & _).
    intros [= <- <-]. by split_and!. }
  pose proof (Hmax m es eq_refl) as Hm. pose proof (dir_add_spec true k l Hok) as H.
  unfold dir_add in H. rewrite Hlast in H. destruct (last_split _ _ Hlast) as (l1 & ->).
  pose proof (dir_nodup _ Hok) as Hnd.
  assert (Hsz : Z.of_nat (length es) ≤ dirNodeMaxEntries).
  { apply dir_size in Hok. apply Forall_app in Hok as [_ Hok]. by rewrite Forall_singleton in Hok. }
  destruct (Z.eqb_spec (Z.of_nat (length es)) dirNodeMaxEntries) as [E|E]; intros [= <- <-].
  - rewrite E, (proj2 (Z.ltb_ge _ _)), (proj2 (Z.leb_gt _ _) Hm) in H by lia.
    destruct H as (H1 & _ & H2 & _ & H3). split_and!; auto.
  - rewrite (set_page_split m es _ l1 []) by done. split_and!.
    + apply (dir_ok_page l1 m es); [|done]. rewrite length_app. simpl. lia.
    + rewrite !entries_split. by rewrite <- !app_assoc.
    + exists (es ++ [k]). split; [apply (page_of_split m (es ++ [k]) l1 []); by rewrite fmap_app in *|].
      apply elem_of_app. right. by left.
Qed.
End Add.
