(* ===== verification/DirectoryRemove.v ===== *)
(** * Removing from directories

    [dirRemove] does to the linked pages of a directory what [dir_remove] does to the
    list of pages.  It unlinks pages that have become empty, and never meets a
    broken link on a well-formed directory. *)

From stdpp Require Import base numbers list gmap strings sorting.
From Stdlib Require Import Lia ZArith.
From S2P Require Import Prelude Serializer STAmount StateTable SField STObject STObjectWire STObjectLaws.
From S2P Require Import Entry Indexes ApplyView ViewLogic Directory DirectoryPages DirectoryCorrect.

Local Open Scope Z_scope.

(** ** Unlinking pages *)

Lemma front {A} (l1 : list (Z * A)) n p l2 :
  n ∉ l1.*1 → (list_to_map (l1 ++ (n, p) :: l2) : gmap Z A) = <[n := p]> (list_to_map (l1 ++ l2)).
Proof.
  intros Hn. rewrite !list_to_map_app. simpl.
  by rewrite insert_union_r by (by apply not_elem_of_list_to_map_1).
Qed.

Lemma front_nil {A} n p (l : list (Z * A)) :
  (list_to_map ((n, p) :: l) : gmap Z A) = <[n := p]> (list_to_map l).
Proof. done. Qed.

(** Equality of maps that differ by insertions and deletions at a few keys. *)
Ltac solve_pages :=
  apply map_eq; intros ?k; rewrite ?lookup_delete, ?lookup_insert, ?lookup_delete, ?lookup_insert;
  repeat (rewrite ?lookup_delete, ?lookup_insert; case_decide); subst; try done; try congruence.

Lemma layout_none pv nx l n : n ∉ l.*1 → (list_to_map (layout pv nx l) : gmap Z page) !! n = None.
Proof. intros Hn. apply not_elem_of_list_to_map_1. by rewrite layout_keys. Qed.

(** Removing a page [n] between [a] and [b]. *)
Section Unlink.
Context (n : Z) (l2 : dir).

(** After the root. *)
Lemma unlink_root_last ea pa pb :
  n ≠ 0 → pages [(0, ea); (n, [])] !! 0 = Some pa →
  <[0 := with_next 0 pa]> (pages [(0, ea); (n, [])]) !! 0 = Some pb →
  delete n (<[0 := with_prev 0 pb]> (<[0 := with_next 0 pa]> (pages [(0, ea); (n, [])]))) = pages [(0, ea)].
Proof using.
  intros Hn Ha Hb. rewrite pages_root in Ha. injection Ha as <-.
  rewrite lookup_insert_eq in Hb. injection Hb as <-. unfold pages. cbn [layout last_no first_no].
  rewrite !front_nil. cbn [list_to_map]. solve_pages.
Qed.

Lemma unlink_root ea b eb pa pb :
  let l := (0, ea) :: (n, []) :: (b, eb) :: l2 in
  NoDup l.*1 → pages l !! 0 = Some pa → <[0 := with_next b pa]> (pages l) !! b = Some pb →
  delete n (<[b := with_prev 0 pb]> (<[0 := with_next b pa]> (pages l))) = pages ((0, ea) :: (b, eb) :: l2).
Proof using.
  intros l Hnd Ha Hb. unfold l in *. cbn in Hnd. rewrite !NoDup_cons, !not_elem_of_cons in Hnd.
  destruct Hnd as ((H0n & H0b & H0) & (Hnb & Hn) & Hbl & _).
  rewrite pages_root in Ha. injection Ha as <-. rewrite lookup_insert_ne in Hb by done.
  unfold pages in *. cbn [layout last_no first_no] in *. rewrite !front_nil in *.
  rewrite !lookup_insert_ne, lookup_insert_eq in Hb by done. injection Hb as <-.
  cbn [with_prev with_next p_next p_prev p_entries].
  pose proof (layout_none b 0 l2 n Hn). solve_pages.
Qed.

(** After another page. *)
Lemma unlink_last e0 l1 a ea pa pb :
  let l := (0, e0) :: l1 ++ [(a, ea); (n, [])] in
  NoDup l.*1 → pages l !! a = Some pa → <[a := with_next 0 pa]> (pages l) !! 0 = Some pb →
  delete n (<[0 := with_prev a pb]> (<[a := with_next 0 pa]> (pages l))) = pages ((0, e0) :: l1 ++ [(a, ea)]).
Proof using.
  intros l Hnd Ha Hb. unfold l in *. cbn in Hnd. rewrite fmap_app in Hnd.
  cbn in Hnd. rewrite NoDup_cons, NoDup_app, !NoDup_cons in Hnd.
  destruct Hnd as (H0 & _ & Hd & Han & _).
  rewrite elem_of_app, !elem_of_cons in H0. rewrite elem_of_cons in Han.
  assert (Hal : a ∉ l1.*1) by (intros Hin; apply (Hd a Hin); by left).
  assert (Hnl : n ∉ l1.*1) by (intros Hin; apply (Hd n Hin); right; by left).
  unfold pages in *. cbn [layout last_no first_no] in *.
  rewrite !layout_app, !last_no_app in *. cbn [layout last_no first_no app] in *.
  rewrite !front_nil in *. rewrite !front in Ha, Hb by (by rewrite layout_keys).
  repeat rewrite front by (by rewrite layout_keys).
  rewrite lookup_insert_ne, lookup_insert_eq in Ha by intuition congruence. injection Ha as <-.
  rewrite lookup_insert_ne, lookup_insert_eq in Hb by intuition congruence. injection Hb as <-.
  cbn [with_prev with_next p_next p_prev p_entries].
  pose proof (layout_none 0 a l1 n Hnl). rewrite !app_nil_r.
  replace (first_no 0 (l1 ++ [(a, ea)])) with (first_no 0 (l1 ++ [(a, ea); (n, [])])) by (by destruct l1 as [|[]]).
  solve_pages; intuition congruence.
Qed.

Lemma unlink_middle e0 l1 a ea b eb pa pb :
  let l := (0, e0) :: l1 ++ (a, ea) :: (n, []) :: (b, eb) :: l2 in
  NoDup l.*1 → pages l !! a = Some pa → <[a := with_next b pa]> (pages l) !! b = Some pb →
  delete n (<[b := with_prev a pb]> (<[a := with_next b pa]> (pages l)))
  = pages ((0, e0) :: l1 ++ (a, ea) :: (b, eb) :: l2).
Proof using.
  intros l Hnd Ha Hb. unfold l in *. cbn in Hnd. rewrite fmap_app in Hnd.
  cbn in Hnd. rewrite NoDup_cons, NoDup_app, !NoDup_cons in Hnd.
  destruct Hnd as (H0 & _ & Hd & Han & Hnn & Hbl & _).
  rewrite elem_of_app, !elem_of_cons in H0. rewrite !elem_of_cons in Han. rewrite elem_of_cons in Hnn.
  assert (Hal : a ∉ l1.*1) by (intros Hin; apply (Hd a Hin); by left).
  assert (Hnl : n ∉ l1.*1) by (intros Hin; apply (Hd n Hin); right; by left).
  assert (Hbl1 : b ∉ l1.*1) by (intros Hin; apply (Hd b Hin); right; right; by left).
  unfold pages in *. cbn [layout last_no first_no] in *.
  rewrite !layout_app, !last_no_app in *. cbn [layout last_no first_no app] in *.
  rewrite !front_nil in *. rewrite !front in Ha, Hb by (by rewrite layout_keys).
  repeat rewrite front by (by rewrite layout_keys).
  rewrite lookup_insert_ne, lookup_insert_eq in Ha by intuition congruence. injection Ha as <-.
  rewrite !lookup_insert_ne, lookup_insert_eq in Hb by intuition congruence. injection Hb as <-.
  cbn [with_prev with_next p_next p_prev p_entries].
  assert (Hnone : (list_to_map (layout 0 a l1 ++ layout b 0 l2) : gmap Z page) !! n = None).
  { apply not_elem_of_list_to_map_1. rewrite fmap_app, !layout_keys. rewrite elem_of_app. tauto. }
  replace (first_no 0 (l1 ++ (a, ea) :: (b, eb) :: l2)) with
    (first_no 0 (l1 ++ (a, ea) :: (n, []) :: (b, eb) :: l2)) by (by destruct l1 as [|[]]).
  solve_pages; intuition congruence.
Qed.
End Unlink.

(** Removing the last page. *)
Lemma cut_after_root ea b eb pa pr :
  b ≠ 0 → pages [(0, ea); (b, eb)] !! 0 = Some pa →
  <[0 := with_next 0 pa]> (delete b (pages [(0, ea); (b, eb)])) !! 0 = Some pr →
  <[0 := with_prev 0 pr]> (<[0 := with_next 0 pa]> (delete b (pages [(0, ea); (b, eb)]))) = pages [(0, ea)].
Proof.
  intros Hb Ha Hr. rewrite pages_root in Ha. injection Ha as <-.
  rewrite lookup_insert_eq in Hr. injection Hr as <-. unfold pages. cbn [layout last_no first_no].
  rewrite !front_nil. cbn [list_to_map]. solve_pages.
Qed.

Lemma cut_last e0 l1 a ea b eb pa pr :
  let l := (0, e0) :: l1 ++ [(a, ea); (b, eb)] in
  NoDup l.*1 → pages l !! a = Some pa →
  <[a := with_next 0 pa]> (delete b (pages l)) !! 0 = Some pr →
  <[0 := with_prev a pr]> (<[a := with_next 0 pa]> (delete b (pages l))) = pages ((0, e0) :: l1 ++ [(a, ea)]).
Proof.
  intros l Hnd Ha Hb. unfold l in *. cbn in Hnd. rewrite fmap_app in Hnd.
  cbn in Hnd. rewrite NoDup_cons, NoDup_app, !NoDup_cons in Hnd.
  destruct Hnd as (H0 & _ & Hd & Han & _).
  rewrite elem_of_app, !elem_of_cons in H0. rewrite elem_of_cons in Han.
  assert (Hal : a ∉ l1.*1) by (intros Hin; apply (Hd a Hin); by left).
  assert (Hbl : b ∉ l1.*1) by (intros Hin; apply (Hd b Hin); right; by left).
  unfold pages in *. cbn [layout last_no first_no] in *.
  rewrite !layout_app, !last_no_app in *. cbn [layout last_no first_no app] in *.
  rewrite !front_nil in *. rewrite !front in Ha, Hb by (by rewrite layout_keys).
  repeat rewrite front by (by rewrite layout_keys).
  rewrite lookup_insert_ne, lookup_insert_eq in Ha by intuition congruence. injection Ha as <-.
  rewrite lookup_insert_ne, lookup_delete_ne, lookup_insert_eq in Hb by intuition congruence.
  injection Hb as <-. cbn [with_prev with_next p_next p_prev p_entries].
  pose proof (layout_none 0 a l1 b Hbl). rewrite !app_nil_r.
  replace (first_no 0 (l1 ++ [(a, ea)])) with (first_no 0 (l1 ++ [(a, ea); (b, eb)])) by (by destruct l1 as [|[]]).
  solve_pages; intuition congruence.
Qed.

Lemma two_pages e0 b eb : b ≠ 0 → pages [(0, e0); (b, eb)] !! b = Some (mkPage 0 0 eb).
Proof. intros Hb. unfold pages. simpl. by rewrite lookup_insert_ne, lookup_insert_eq. Qed.

Lemma unlink q a ea n l2 pa pb :
  let l := q ++ (a, ea) :: (n, []) :: l2 in
  dir_ok l → pages l !! a = Some pa →
  <[a := with_next (first_no 0 l2) pa]> (pages l) !! first_no 0 l2 = Some pb →
  delete n (<[first_no 0 l2 := with_prev a pb]> (<[a := with_next (first_no 0 l2) pa]> (pages l)))
  = pages (q ++ (a, ea) :: l2).
Proof.
  intros l Hok Ha Hb. pose proof (dir_nodup _ Hok) as Hnd. unfold l in *.
  destruct q as [|[z e0] q].
  - pose proof (dir_root _ Hok a ea _ eq_refl) as ->. destruct l2 as [|[b eb] l2].
    + apply unlink_root_last; [|done|done]. intros ->. cbn in Hnd.
      apply NoDup_cons in Hnd as [Hnd _]. apply Hnd. by left.
    + by apply unlink_root.
  - pose proof (dir_root _ Hok z e0 _ eq_refl) as ->. destruct l2 as [|[b eb] l2].
    + by apply unlink_last.
    + by apply unlink_middle.
Qed.

Lemma cut q a ea b eb pa pr :
  let l := q ++ [(a, ea); (b, eb)] in
  dir_ok l → pages l !! a = Some pa →
  <[a := with_next 0 pa]> (delete b (pages l)) !! 0 = Some pr →
  <[0 := with_prev a pr]> (<[a := with_next 0 pa]> (delete b (pages l))) = pages (q ++ [(a, ea)]).
Proof.
  intros l Hok Ha Hr. pose proof (dir_nodup _ Hok) as Hnd. unfold l in *.
  destruct q as [|[z e0] q].
  - pose proof (dir_root _ Hok a ea _ eq_refl) as ->. apply cut_after_root; [|done|done].
    intros ->. cbn in Hnd. apply NoDup_cons in Hnd as [Hnd _]. apply Hnd. by left.
  - pose proof (dir_root _ Hok z e0 _ eq_refl) as ->. by apply cut_last.
Qed.

Lemma pages_is_Some l k : NoDup l.*1 → k ∈ l.*1 → is_Some (pages l !! k).
Proof.
  intros Hnd ([m es] & -> & (l1 & l2 & ->)%list_elem_of_split)%list_elem_of_fmap.
  by rewrite pages_lookup.
Qed.

(** The root is a page of every directory that is not empty. *)
Lemma root_in l : dir_ok l → l ≠ [] → 0 ∈ l.*1.
Proof. intros Hok Hne. destruct l as [|[z e0] l]; [done|]. rewrite (dir_root _ Hok z e0 l eq_refl). by left. Qed.

(** Facts on the place of a page in a directory. *)
Lemma dir_before l1 n es l2 : dir_ok (l1 ++ (n, es) :: l2) → n ≠ 0 → ∃ q a ea, l1 = q ++ [(a, ea)].
Proof.
  intros Hok Hn. destruct (last l1) as [[a ea]|] eqn:E.
  - apply last_split in E as [q ->]. by exists q, a, ea.
  - apply last_None in E as ->. destruct Hn. by eapply dir_root.
Qed.

Lemma dir_distinct q a ea n es l2 :
  dir_ok (q ++ (a, ea) :: (n, es) :: l2) → a ≠ n ∧ (n ∉ l2.*1) ∧ (n ∉ (q ++ [(a, ea)]).*1).
Proof.
  intros Hok%dir_nodup. rewrite fmap_app in *. apply NoDup_app in Hok as (_ & Hd & Hnd). cbn in *.
  rewrite !NoDup_cons, not_elem_of_cons in Hnd. destruct Hnd as ((Han & _) & Hn & _).
  split_and!; [done|done|]. intros [Hin| ->%list_elem_of_singleton]%elem_of_app; [|done].
  apply (Hd n Hin). right. by left.
Qed.

Lemma dir_ok_drop q a ea x l2 : dir_ok (q ++ (a, ea) :: x ++ l2) → dir_ok (q ++ (a, ea) :: l2).
Proof.
  intros Hok. eapply dir_ok_sublist; [| |exact Hok].
  - apply sublist_app; [done|]. apply sublist_skip. by apply sublist_inserts_l.
  - intros z Hz. destruct q as [|[z0 e0] q]; injection Hz as <-; by eapply dir_root.
Qed.

Lemma dir_after_root q a ea l2 m : dir_ok (q ++ (a, ea) :: l2) → m ∈ l2.*1 → m ≠ 0.
Proof.
  intros Hok Hm ->. pose proof (dir_nodup _ Hok) as Hnd. rewrite fmap_app in Hnd.
  destruct q as [|[z e0] q].
  - pose proof (dir_root _ Hok a ea _ eq_refl) as ->. by apply NoDup_cons in Hnd as [Hnd _].
  - pose proof (dir_root _ Hok z e0 _ eq_refl) as ->. apply NoDup_cons in Hnd as [Hnd _].
    apply Hnd. apply elem_of_app. right. by right.
Qed.

(** ** The program *)

Section Remove.
Context `{Hash : Sha512} (R : Keylet) (Hty : kl_type R = ltDIR_NODE) (Hinj : pages_distinct R).
Context (s0 : vstate STObject).
Implicit Types (s : vstate STObject).

Lemma wp_throw_if b msg (Q : unit → vstate STObject → Prop) s :
  b = false → Q tt s → wp (throw_if b msg) Q s.
Proof. intros -> HQ. by apply wp_ret. Qed.

(** The erasure of the root at the end. *)
Lemma wp_erase_root l s (Q : bool → vstate STObject → Prop) :
  linked R s0 (pages l) ∅ s →
  (∀ s', linked R s0 (pages (if bool_decide (l = [(0, [])]) then [] else l)) ∅ s' → Q true s') →
  ∀ b : bool, b = bool_decide (l = [(0, [])]) →
  wp ((if b then erase (key R 0) else mret ()) ;; mret true) Q s.
Proof using Hinj.
  intros Hl HQ b ->. case_bool_decide as Hroot.
  - subst l. eapply (wp_erase_settled R Hinj); [exact Hl|by rewrite pages_root|].
    intros s' H'. apply wp_ret, HQ. replace (pages []) with (delete 0 (pages [(0, [])])); [done|].
    unfold pages. simpl. apply delete_insert_id, lookup_empty.
  - apply wp_bind, wp_ret, wp_ret, HQ. done.
Qed.

(** The root and the only other page are empty. *)
Lemma wp_root_tail {A} b s (K : view_prog A) (Q : A → vstate STObject → Prop) :
  b ≠ 0 → linked R s0 (pages [(0, []); (b, [])]) ∅ s →
  (∀ s', linked R s0 (pages [(0, [])]) ∅ s' → wp K Q s') →
  wp (put U64 (key R 0) sfIndexNext 0 ;; put U64 (key R 0) sfIndexPrevious 0 ;;
      update (key R 0) ;; erase (key R b) ;; K) Q s.
Proof using Hinj.
  intros Hb Hl HK. apply wp_bind.
  eapply (wp_put_page R Hinj s0 U64 sfIndexNext 0 (with_next 0));
    [intros o; apply body_next|apply fits_next|exact Hl|apply pages_root|]. intros s1 H1. apply wp_bind.
  eapply (wp_put_page R Hinj s0 U64 sfIndexPrevious 0 (with_prev 0));
    [intros o; apply body_prev|apply fits_prev|exact H1|apply lookup_insert_eq|]. intros s2 H2.
  apply wp_bind. eapply wp_update_page; [exact H2|by rewrite lookup_insert_eq|]. intros s3 H3.
  eapply (wp_erase_settled R Hinj); [eapply linked_weaken; [exact H3|apply settled_twice]| |].
  - rewrite !lookup_insert_ne by done.
    by rewrite two_pages.
  - intros s4 H4. apply HK. rewrite insert_insert_eq in H4. revert H4.
    unfold pages. cbn [layout last_no first_no]. rewrite !front_nil. cbn [list_to_map].
    match goal with |- linked R s0 ?P ∅ s4 → linked R s0 ?P' ∅ s4 => assert (P = P') as ->; [|done] end.
    solve_pages.
Qed.

(** The root page is empty. *)
Lemma wp_remove_root keepRoot l2 s :
  let l := (0, []) :: l2 in
  dir_ok l → linked R s0 (pages l) ∅ s →
  wp (dirRemove_root R (key R 0) (last_no 0 l2) (first_no 0 l2) keepRoot)
    (λ b s', b = true ∧ linked R s0 (pages (let l' := tidy_root l in
      if negb keepRoot && bool_decide (l' = [(0, [])]) then [] else l')) ∅ s') s.
Proof using Hinj.
  intros l Hok Hl. pose proof (dir_nodup _ Hok) as Hnd. unfold l in *.
  assert (Hz : ∀ m em, (m, em) ∈ l2 → m ≠ 0).
  { intros m em Hin ->. cbn in Hnd. apply NoDup_cons in Hnd as [Hnd _]. apply Hnd.
    by apply (list_elem_of_fmap_2 fst) in Hin. }
  assert (Hend : ∀ l' s', linked R s0 (pages l') ∅ s' →
    ∀ b : bool, (keepRoot = false → b = bool_decide (l' = [(0, [])])) →
    wp (if keepRoot then mret true else (if b then erase (key R 0) else mret ()) ;; mret true)
      (λ b s', b = true ∧ linked R s0 (pages
        (if negb keepRoot && bool_decide (l' = [(0, [])]) then [] else l')) ∅ s') s').
  { intros l' s' Hl' b Hb. destruct keepRoot; [by apply wp_ret|].
    eapply wp_erase_root; [exact Hl'| |by apply Hb]. done. }
  unfold dirRemove_root. destruct l2 as [|[b eb] [|[c ec] l2]].
  - cbn [last_no first_no]. do 2 (apply wp_bind, wp_throw_if; [done|]). apply wp_bind, wp_ret.
    by apply (Hend [(0, [])]).
  - assert (Hb : b ≠ 0) by (apply (Hz b eb); by left). cbn [last_no first_no].
    rewrite !(proj2 (Z.eqb_neq b 0)), Z.eqb_refl by done. do 2 (apply wp_bind, wp_throw_if; [done|]).
    cbn [andb negb]. apply wp_bind, wp_bind.
    assert (Hpb : pages [(0, []); (b, eb)] !! b = Some (mkPage 0 0 eb)).
    { by apply two_pages. }
    eapply wp_peek_or; [exact Hl|exact Hpb|]. apply wp_bind.
    eapply wp_get_entries; [exact Hl|exact Hpb|]. cbn [p_entries]. case_bool_decide as Heb.
    + subst eb. apply wp_root_tail; [done|done|]. intros s' H'. apply wp_ret.
      by apply (Hend [(0, [])] s').
    + apply wp_ret. rewrite !(proj2 (Z.eqb_neq b 0)) by done. cbn [tidy_root].
      destruct eb as [|e eb]; [done|]. by apply (Hend [(0, []); (b, e :: eb)]).
  - assert (Hb : b ≠ 0) by (apply (Hz b eb); by left).
    assert (Hl' : ∃ z ez, (z, ez) ∈ (c, ec) :: l2 ∧ last_no c l2 = z).
    { clear. revert c ec. induction l2 as [|[d ed] l2 IH]; intros c ec; [exists c, ec; split; [by left|done]|].
      destruct (IH d ed) as (z & ez & Hin & Hz). exists z, ez. split; [by right|done]. }
    destruct Hl' as (z & ez & Hin & Hlast). cbn [last_no first_no]. rewrite Hlast.
    assert (Hz0 : z ≠ 0) by (apply (Hz z ez); by right).
    assert (Hbz : b ≠ z).
    { intros ->. cbn in Hnd. rewrite !NoDup_cons in Hnd. destruct Hnd as (_ & Hnd & _). apply Hnd.
      apply (list_elem_of_fmap_2 fst) in Hin. exact Hin. }
    rewrite (proj2 (Z.eqb_neq b 0)), (proj2 (Z.eqb_neq z 0)), (proj2 (Z.eqb_neq b z)) by done.
    do 2 (apply wp_bind, wp_throw_if; [done|]). apply wp_bind, wp_ret.
    rewrite (proj2 (Z.eqb_neq b 0)) by done.
    replace (tidy_root ((0, []) :: (b, eb) :: (c, ec) :: l2)) with ((0, []) :: (b, eb) :: (c, ec) :: l2)
      by (by destruct eb).
    by apply (Hend ((0, []) :: (b, eb) :: (c, ec) :: l2)).
Qed.

(** Unlinking a page. *)
Lemma wp_unlink {A} q a ea n l2 s msg msg' (K : Z → Z → view_prog A) (Q : A → vstate STObject → Prop) :
  let l := q ++ (a, ea) :: (n, []) :: l2 in
  let b := first_no 0 l2 in
  dir_ok l → linked R s0 (pages l) ∅ s →
  (∀ s', linked R s0 (pages (q ++ (a, ea) :: l2)) ∅ s' → wp (K (key R a) (key R b)) Q s') →
  wp (prev ← peek_or (kl_page R a) msg;
      put U64 prev sfIndexNext b ;; update prev ;;
      next ← peek_or (kl_page R b) msg';
      put U64 next sfIndexPrevious a ;; update next ;;
      erase (key R n) ;; K prev next) Q s.
Proof using Hinj.
  intros l b Hok Hl HK. pose proof (dir_nodup _ Hok) as Hnd.
  destruct (pages_is_Some l a Hnd) as [pa Ha].
  { unfold l. rewrite fmap_app. apply elem_of_app. right. by left. }
  assert (Hbin : b ∈ l.*1).
  { unfold b. destruct l2 as [|[c ec] l2]; [apply root_in; [done|by destruct q]|].
    unfold l. rewrite fmap_app. apply elem_of_app. right. right. right. by left. }
  assert (Hb : is_Some (<[a := with_next b pa]> (pages l) !! b)).
  { destruct (decide (a = b)) as [->|]; [by rewrite lookup_insert_eq|].
    rewrite lookup_insert_ne by done. by apply pages_is_Some. }
  destruct Hb as [pb Hb].
  apply wp_bind. eapply wp_peek_or; [exact Hl|exact Ha|].
  eapply (wp_save_next R Hinj); [exact Hl|exact Ha|]. intros s1 H1.
  apply wp_bind. eapply wp_peek_or; [exact H1|exact Hb|].
  eapply (wp_save_prev R Hinj); [exact H1|exact Hb|]. intros s2 H2.
  assert (Hnin : n ∈ l.*1).
  { unfold l. rewrite fmap_app. apply elem_of_app. right. right. by left. }
  eapply (wp_erase_settled R Hinj); [exact H2| |].
  - rewrite !lookup_insert. repeat case_decide; [done|done|]. by apply pages_is_Some.
  - intros s3 H3. apply HK. by rewrite <- (unlink q a ea n l2 pa pb Hok Ha Hb).
Qed.

(** Removing an empty last page. *)
Lemma wp_cut {A} q a ea b eb s (K : view_prog A) (Q : A → vstate STObject → Prop) :
  let l := q ++ [(a, ea); (b, eb)] in
  dir_ok l → linked R s0 (pages l) ∅ s →
  (∀ s', linked R s0 (pages (q ++ [(a, ea)])) ∅ s' → wp K Q s') →
  wp (dirRemove_last R (key R a) (key R b) a ;; K) Q s.
Proof using Hinj.
  intros l Hok Hl HK. pose proof (dir_nodup _ Hok) as Hnd. unfold dirRemove_last.
  assert (Hin : a ∈ l.*1 ∧ b ∈ l.*1 ∧ a ≠ b).
  { unfold l in *. rewrite fmap_app in *. split_and!; [apply elem_of_app; right; by left|
      apply elem_of_app; right; right; by left|]. intros ->. apply NoDup_app in Hnd as (_ & _ & Hnd).
    cbn in Hnd. apply NoDup_cons in Hnd as [Hnd _]. apply Hnd. by left. }
  destruct Hin as (Hain & Hbin & Hab).
  destruct (pages_is_Some l a Hnd Hain) as [pa Ha].
  assert (Hb0 : b ≠ 0).
  { intros ->. destruct q as [|[z e0] q].
    - apply Hab. by eapply dir_root.
    - pose proof (dir_root _ Hok z e0 _ eq_refl) as ->. unfold l in Hnd. cbn in Hnd.
      apply NoDup_cons in Hnd as [Hnd _]. apply Hnd. rewrite fmap_app. apply elem_of_app. right. right. by left. }
  assert (Hr : is_Some (<[a := with_next 0 pa]> (delete b (pages l)) !! 0)).
  { rewrite lookup_insert, lookup_delete. repeat case_decide; [done|done|].
    apply pages_is_Some; [done|]. apply root_in; [done|by destruct q]. }
  destruct Hr as [pr Hr].
  apply wp_bind. eapply (wp_erase_settled R Hinj); [exact Hl|by apply pages_is_Some|]. intros s1 H1.
  eapply (wp_save_next R Hinj); [exact H1|rewrite lookup_delete_ne by done; exact Ha|]. intros s2 H2.
  apply wp_bind. eapply wp_peek_or; [exact H2|exact Hr|].
  apply wp_bind. eapply (wp_put_page R Hinj s0 U64 sfIndexPrevious a (with_prev a));
    [intros o; apply body_prev|apply fits_prev|exact H2|exact Hr|]. intros s3 H3.
  eapply wp_update_page; [exact H3|by rewrite lookup_insert_eq|]. intros s4 H4. apply HK.
  rewrite <- (cut q a ea b eb pa pr Hok Ha Hr). eapply linked_weaken; [exact H4|apply settled].
Qed.

(** The end: the root is the only page left. *)
Lemma wp_remove_end keepRoot q a ea s :
  let l := q ++ [(a, ea)] in
  dir_ok l → linked R s0 (pages l) ∅ s →
  wp ((if negb keepRoot && (0 =? 0) && (a =? 0) then
         e ← get V256 (key R a) sfIndexes; if bool_decide (e = []) then erase (key R a) else mret ()
       else mret ()) ;; mret true)
    (λ b s', b = true ∧
      linked R s0 (pages (if negb keepRoot && bool_decide (l = [(0, [])]) then [] else l)) ∅ s') s.
Proof using Hinj.
  intros l Hok Hl. pose proof (dir_nodup _ Hok) as Hnd. unfold l in *.
  assert (Hq : a = 0 → q = []).
  { intros ->. destruct q as [|[z e0] q]; [done|]. pose proof (dir_root _ Hok z e0 _ eq_refl) as ->.
    cbn in Hnd. apply NoDup_cons in Hnd as [Hnd _]. exfalso. apply Hnd. rewrite fmap_app.
    apply elem_of_app. right. by left. }
  destruct keepRoot; cbn [negb andb]; [by apply wp_bind, wp_ret, wp_ret|].
  rewrite Z.eqb_refl. cbn [andb]. destruct (Z.eqb_spec a 0) as [->|Ha].
  - rewrite (Hq eq_refl) in *. cbn [app] in *. apply wp_bind, wp_bind.
    eapply wp_get_entries; [exact Hl|apply pages_root|]. cbn [p_entries].
    destruct (bool_decide_reflect (ea = [])) as [->|Hne].
    + rewrite bool_decide_true by done. eapply wp_erase_page; [exact Hinj|exact Hl|by rewrite pages_root|].
      intros s' H'. apply wp_ret. split; [done|].
      replace (pages []) with (delete 0 (pages [(0, [])])).
      * eapply linked_weaken; [exact H'|]. apply subseteq_difference_l, empty_subseteq.
      * unfold pages. simpl. apply delete_insert_id, lookup_empty.
    + apply wp_ret, wp_ret. split; [done|]. by rewrite bool_decide_false by congruence.
  - apply wp_bind, wp_ret, wp_ret. split; [done|]. rewrite bool_decide_false; [done|].
    intros E. apply (f_equal last) in E. rewrite last_snoc in E. simpl in E. congruence.
Qed.

(** A page that is not the root is empty. *)
Lemma wp_remove_page keepRoot l1 n l2 s :
  let l := l1 ++ (n, []) :: l2 in
  n ≠ 0 → dir_ok l → linked R s0 (pages l) ∅ s →
  wp (dirRemove_page R n (key R n) (last_no (last_no 0 l) l1) (first_no 0 l2) keepRoot)
    (λ b s', b = true ∧ linked R s0 (pages (let l' := drop_page n l in
      if negb keepRoot && bool_decide (l' = [(0, [])]) then [] else l')) ∅ s') s.
Proof using Hinj.
  intros l Hn Hok Hl. unfold l in *. destruct (dir_before l1 n [] l2 Hok Hn) as (q & a & ea & ->).
  rewrite <- !app_assoc in *. cbn [app] in *.
  destruct (dir_distinct q a ea n [] l2 Hok) as (Han & Hnl2 & Hnl1).
  pose proof (drop_page_split n [] (q ++ [(a, ea)]) l2 Hnl1) as Hdrop.
  rewrite <- !app_assoc in Hdrop. cbn [app] in Hdrop. rewrite Hdrop, last_no_app. cbn [last_no].
  unfold dirRemove_page. apply wp_bind, wp_throw_if.
  { destruct l2 as [|[b eb] l2]; cbn [first_no]; apply Z.eqb_neq; [done|]. intros ->. apply Hnl2. by left. }
  apply wp_bind, wp_throw_if; [by apply Z.eqb_neq|].
  pose proof (dir_ok_drop q a ea [(n, [])] l2 Hok) as Hok'.
  apply (wp_unlink q a ea n l2 s); [exact Hok|exact Hl|]. intros s1 H1.
  destruct l2 as [|[b eb] l2]; cbn [first_no].
  { apply wp_bind, wp_ret, wp_bind, wp_ret. by apply wp_remove_end. }
  assert (Hz : ∀ m, m ∈ ((b, eb) :: l2).*1 → m ≠ 0) by (intros m; by eapply dir_after_root).
  assert (Hpb : pages (q ++ (a, ea) :: (b, eb) :: l2) !! b = Some (mkPage (first_no 0 l2) a eb)).
  { pose proof (pages_lookup (q ++ [(a, ea)]) b eb l2) as Hp.
    rewrite <- !app_assoc, !last_no_app in Hp. by apply Hp, dir_nodup. }
  rewrite (proj2 (Z.eqb_neq b 0)) by (apply Hz; by left).
  apply wp_bind, wp_bind. eapply wp_get_next; [exact H1|exact Hpb|].
  apply wp_bind. eapply wp_get_entries; [exact H1|exact Hpb|]. apply wp_ret. cbn [p_next p_entries].
  destruct ((first_no 0 l2 =? 0) && bool_decide (eb = [])) eqn:E.
  - apply andb_true_iff in E as [E1%Z.eqb_eq ->%bool_decide_eq_true].
    destruct l2 as [|[c ec] l2]; [|by destruct (Hz c); [right; left|]]. cbn [trim].
    apply wp_bind, (wp_cut q a ea b []); [done|exact H1|]. intros s2 H2. apply wp_ret.
    apply wp_remove_end; [|exact H2]. by apply (dir_ok_drop q a ea [(b, [])] []).
  - assert (Htrim : trim ((b, eb) :: l2) = (b, eb) :: l2) by (destruct eb, l2; done).
    rewrite Htrim. apply wp_bind, wp_ret. rewrite (proj2 (Z.eqb_neq b 0)) by (apply Hz; by left).
    rewrite andb_false_r. cbn [andb]. apply wp_bind, wp_ret, wp_ret. split; [done|].
    rewrite bool_decide_false; [by rewrite andb_false_r|].
    intros E'. apply (f_equal length) in E'. rewrite length_app in E'. simpl in E'. lia.
Qed.

(** [dirRemove] does to the linked pages what [dir_remove] does to the list. *)
Lemma dirRemove_refines keepRoot n k l s :
  dir_ok l → page_no n → linked R s0 (pages l) ∅ s →
  wp (dirRemove R n k keepRoot)
    (λ b s', b = (dir_remove keepRoot n k l).1 ∧
      linked R s0 (pages (dir_remove keepRoot n k l).2) ∅ s') s.
Proof using Hinj.
  intros Hok Hn Hl. unfold dirRemove, dir_remove. apply wp_bind.
  eapply wp_peek_page; [exact Hl|exact Hn|]. destruct (page_of n l) as [es|] eqn:Hp.
  2: { rewrite pages_None by (by apply page_of_None). by apply wp_ret. }
  apply page_of_Some in Hp as (l1 & l2 & ->). pose proof (dir_nodup _ Hok) as Hnd.
  pose proof (pages_lookup l1 n es l2 Hnd) as Hp. rewrite Hp. cbn [fmap option_fmap option_map].
  apply wp_bind. eapply wp_get_entries; [exact Hl|exact Hp|]. cbn [p_entries].
  destruct (found k es) eqn:Hf; cbn [negb]; [|by apply wp_ret].
  eapply (wp_save_entries R Hinj); [exact Hl|exact Hp|]. intros s1 H1.
  rewrite (pages_set_entries l1 n es _ l2 _ Hnd Hp) in H1. rewrite (set_page_split n es _ l1 l2) by done.
  destruct (bool_decide_reflect (erase_first k es = [])) as [He|He]; cbn [negb]; [|by apply wp_ret].
  rewrite He in *.
  assert (Hok' : dir_ok (l1 ++ (n, []) :: l2)) by (by apply (dir_ok_page l1 n es)).
  pose proof (pages_lookup l1 n [] l2 (dir_nodup _ Hok')) as Hp'.
  apply wp_bind. eapply wp_get_prev; [exact H1|exact Hp'|].
  apply wp_bind. eapply wp_get_next; [exact H1|exact Hp'|]. cbn [p_next p_prev].
  destruct (Z.eqb_spec n 0) as [->|Hn0]; [|by apply wp_remove_page].
  assert (l1 = []) as ->.
  { destruct l1 as [|[z e0] l1]; [done|]. exfalso.
    apply (dir_after_root [] z e0 (l1 ++ (0, []) :: l2) 0 Hok'); [|done].
    rewrite fmap_app. apply elem_of_app. right. by left. }
  exact (wp_remove_root keepRoot l2 s1 Hok' H1).
Qed.
End Remove.
