(* ===== verification/DirectoryRead.v ===== *)
(** * Reading directories

    On a well-formed directory the functions that visit its entries visit each once,
    in the order of the pages: [cdirFirst] and [cdirNext] as well as [forEachItem].
    The iterator of [Dir] does so if no page is empty; it sees nothing in a
    directory whose root page is empty. *)

From stdpp Require Import base numbers list gmap strings.
From Stdlib Require Import Lia ZArith.
From S2P Require Import Prelude Serializer STAmount StateTable SField STObject STObjectWire STObjectLaws.
From S2P Require Import Entry Indexes ApplyView ViewLogic Directory DirectoryPages DirectoryCorrect.

Local Open Scope Z_scope.

Lemma dir_cases l : dir_ok l → l = [] ∨ ∃ e0 l2, l = (0, e0) :: l2.
Proof.
  intros Hok. destruct l as [|[z e0] l2]; [by left|]. right.
  rewrite (dir_root _ Hok z e0 l2 eq_refl). eauto.
Qed.

Section Read.
Context `{Hash : Sha512} (R : Keylet) (Hty : kl_type R = ltDIR_NODE).
Context (s : vstate STObject) (l : dir) (Hdir : directory R (vs_map s) l).

Lemma dir_lookup l1 n es l2 (k : Keylet) :
  l = l1 ++ (n, es) :: l2 → kl_key k = key R n → kl_type k = ltDIR_NODE →
  ∃ x, lookup_kl (vs_map s) k = Some x ∧
    getFieldU64 (sle_body x) sfIndexNext = Ret (first_no 0 l2) ∧
    getFieldV256 (sle_body x) sfIndexes = Ret es.
Proof using Hdir.
  intros El Hk Ht. pose proof Hdir as [Hok Hp _]. rewrite El in Hok, Hp.
  destruct (Hp n _ (pages_lookup l1 n es l2 (dir_nodup _ Hok))) as (x & Hx & Htx & He & Hn & _ & Hi).
  exists x. unfold lookup_kl. rewrite Hk, Hx. unfold check. rewrite Ht, Htx. cbn [p_next p_entries] in *.
  split_and!; [done| |].
  - rewrite <- Hn. apply (getFieldBy_val U64 dir_template); [done|apply fits_next].
  - rewrite <- Hi. apply (getFieldBy_val V256 dir_template); [done|apply fits_indexes].
Qed.

Lemma next_zero l1 n es l2 : l = l1 ++ (n, es) :: l2 → (first_no 0 l2 =? 0) = bool_decide (l2 = []).
Proof using Hdir.
  intros El. pose proof Hdir as [Hok _ _]. rewrite El in Hok. destruct l2 as [|[m em] l2]; [done|].
  cbn [first_no]. rewrite bool_decide_false by done. apply Z.eqb_neq. intros ->.
  pose proof (dir_sorted _ Hok) as Hs. destruct l1 as [|[z ez] l1]; cbn in Hs; inversion_clear Hs as [|? ? _ Hx].
  - pose proof (dir_root _ Hok n es _ eq_refl) as ->. by inversion_clear Hx.
  - pose proof (dir_root _ Hok z ez _ eq_refl) as ->. rewrite Forall_forall in Hx.
    specialize (Hx 0). rewrite fmap_app in Hx. apply (Z.lt_irrefl 0), Hx.
    apply elem_of_app. right. right. by left.
Qed.

Lemma page_small l1 n es l2 : l = l1 ++ (n, es) :: l2 → (length es ≤ 32)%nat.
Proof using Hdir.
  intros El. pose proof Hdir as [Hok _ _]. rewrite El in Hok. apply dir_size in Hok.
  apply Forall_app in Hok as [_ [Hl _]%Forall_cons]. unfold dirNodeMaxEntries in Hl. simpl in Hl. lia.
Qed.

(** ** [cdirFirst] and [cdirNext] *)

(** A cursor with the entries [rest] still to come. *)
Definition at_cursor (c : cursor) (rest : list Z) : Prop :=
  ∃ l1 n es l2 j, l = l1 ++ (n, es) :: l2 ∧
    getFieldU64 (sle_body (sleNode c)) sfIndexNext = Ret (first_no 0 l2) ∧
    getFieldV256 (sle_body (sleNode c)) sfIndexes = Ret es ∧
    uDirEntry c = Z.of_nat j ∧ rest = drop j es ++ entries l2.

Lemma cdirNext_spec fuel c rest :
  at_cursor c rest → (length l < fuel)%nat →
  wp (cdirNext fuel (kl_key R) c) (λ r s', s' = s ∧
    match rest with
    | [] => r.1 = false
    | k :: rest' => r.1 = true ∧ uEntryIndex r.2 = k ∧ at_cursor r.2 rest'
    end) s.
Proof using Hdir.
  intros (l1 & n & es & l2 & j & El & Hn & He & Hj & ->) Hfuel.
  assert (Hf : (length l2 < fuel)%nat) by (rewrite El, length_app in Hfuel; simpl in Hfuel; lia).
  clear Hfuel. revert fuel l1 n es c j El Hn He Hj Hf.
  induction l2 as [|[m em] l2 IH]; intros fuel l1 n es c j El Hn He Hj Hf;
    (destruct fuel as [|fuel]; [simpl in Hf; lia|]); cbn [cdirNext];
    (apply wp_bind, (wp_from _ es); [done|]); rewrite Hj, Nat2Z.id;
    destruct (es !! j) as [k|] eqn:Hk.
  1,3: apply wp_ret; split; [done|]; rewrite (drop_S _ _ _ Hk); cbn [app fst snd];
    (split_and!; [done|done|]);
    exists l1, n, es; eexists; exists (S j); split_and!; [exact El|done|done| |done]; simpl;
    apply lookup_lt_Some in Hk; pose proof (page_small _ _ _ _ El);
    rewrite u32_small; [lia|unfold in_u32; lia].
  - rewrite (drop_ge es j) by (by apply lookup_ge_None). cbn [app].
    apply wp_bind, (wp_from _ 0); [done|]. by apply wp_ret.
  - rewrite (drop_ge es j) by (by apply lookup_ge_None). cbn [app].
    apply wp_bind, (wp_from _ m); [done|].
    pose proof (next_zero l1 n es ((m, em) :: l2) El) as Hz. cbn [first_no] in Hz. rewrite Hz.
    rewrite bool_decide_false by done. apply wp_bind, wp_read.
    assert (El' : l = (l1 ++ [(n, es)]) ++ (m, em) :: l2) by (by rewrite <- app_assoc).
    destruct (dir_lookup _ m em l2 (kl_page (unchecked (kl_key R)) m) El') as (x & -> & Hx1 & Hx2); [done|done|].
    eapply wp_mono; [apply (IH fuel _ m em _ 0%nat El')|]; [done|done|done|simpl in Hf; lia|].
    intros r s' H'. rewrite drop_0 in H'. exact H'.
Qed.

Lemma cdir_loop_spec {A} (f : A → Z → A) fuel c rest a :
  (at_cursor c rest) → (S (length rest + length l) < fuel)%nat →
  ∀ k, uEntryIndex c = k →
  wp (cdir_loop fuel (kl_key R) f a (true, c)) (λ r s', r = foldl f a (k :: rest) ∧ s' = s) s.
Proof using Hdir.
  revert fuel c a. induction rest as [|k' rest IH]; intros fuel c a Hc Hf k Hk;
    (destruct fuel as [|fuel]; [lia|]); cbn [cdir_loop]; rewrite Hk;
    apply wp_bind; (eapply wp_mono; [eapply cdirNext_spec; [exact Hc|simpl in Hf; lia]|]);
    intros [more c'] s' [-> H'].
  - cbn [fst] in H'. subst more. destruct fuel; [simpl in Hf; lia|]. by apply wp_ret.
  - destruct H' as (Hm & Hk' & Hc'). cbn [fst snd] in *. subst more.
    apply IH; [done|simpl in Hf; lia|done].
Qed.

Lemma cdir_each_spec {A} (f : A → Z → A) fuel a :
  l ≠ [] → (length (entries l) + length l < fuel)%nat →
  wp (cdir_each fuel (kl_key R) f a) (λ r s', r = foldl f a (entries l) ∧ s' = s) s.
Proof using Hdir.
  intros Hne Hf. destruct (dir_cases l (directory_ok _ _ _ Hdir)) as [?|(e0 & l2 & El)]; [done|]. unfold cdir_each, cdirFirst.
  destruct (dir_lookup [] 0 e0 l2 (kl_page (unchecked (kl_key R)) 0) El) as (x & Hx & Hx1 & Hx2); [done|done|].
  apply wp_bind, wp_bind, wp_read. rewrite Hx.
  assert (Hc : at_cursor (mkCursor x 0 0) (entries l)).
  { exists [], 0, e0, l2, 0%nat. split_and!; try done. rewrite El. by unfold entries. }
  eapply wp_mono; [eapply cdirNext_spec; [exact Hc|lia]|]. intros [more c] s' [-> H'].
  destruct (entries l) as [|k rest] eqn:He; cbn [fst snd] in H'.
  - subst more. destruct fuel; [lia|]. by apply wp_ret.
  - destruct H' as (-> & Hk & Hc'). apply cdir_loop_spec; [done|simpl in Hf; lia|done].
Qed.

(** ** [forEachItem] *)

Lemma each_child_spec {A} (f : A → option (SLE STObject) → A) keys a :
  wp (each_child f keys a) (λ r s',
    r = foldl (λ a k, f a (lookup_kl (vs_map s) (kl_child k))) a keys ∧ s' = s) s.
Proof using.
  revert a. induction keys as [|k keys IH]; intros a; cbn [each_child]; [by apply wp_ret|].
  apply wp_bind, wp_read, IH.
Qed.

Lemma forEachItem_spec {A} (f : A → option (SLE STObject) → A) fuel a l1 l2 pos :
  l = l1 ++ l2 → (length l2 < fuel)%nat → kl_type pos = ltDIR_NODE → kl_key pos = key R (first_no 0 l2) →
  (l1 = [] ∨ l2 ≠ []) →
  wp (forEachItem_from fuel R pos f a) (λ r s',
    r = foldl (λ a k, f a (lookup_kl (vs_map s) (kl_child k))) a (entries l2) ∧ s' = s) s.
Proof using Hdir.
  revert fuel a l1 pos. induction l2 as [|[n es] l2 IH]; intros fuel a l1 pos El Hf Hpt Hpk Hne;
    (destruct fuel as [|fuel]; [simpl in Hf; lia|]); cbn [forEachItem_from]; apply wp_bind, wp_read.
  - destruct Hne as [->|]; [|done]. unfold lookup_kl. cbn [first_no] in Hpk.
    pose proof Hdir as [_ _ Hno]. rewrite El in Hno.
    rewrite Hpk, Hno; [by apply wp_ret|apply page_zero|apply not_elem_of_nil].
  - destruct (dir_lookup l1 n es l2 pos El) as (x & -> & Hx1 & Hx2); [done|done|].
    apply wp_bind, (wp_from _ es); [done|]. apply wp_bind.
    eapply wp_mono; [apply each_child_spec|]. intros a' s' [-> ->].
    apply wp_bind, (wp_from _ (first_no 0 l2)); [done|]. rewrite (next_zero l1 n es l2 El).
    unfold entries. cbn [fmap list_fmap concat]. rewrite foldl_app. case_bool_decide as H2.
    + subst l2. by apply wp_ret.
    + apply (IH fuel _ (l1 ++ [(n, es)])); [by rewrite <- app_assoc|simpl in Hf; lia|done|done|by right].
Qed.

(** ** [dirIsEmpty] *)

Lemma dirIsEmpty_spec :
  tidy l → wp (dirIsEmpty R) (λ b s', b = bool_decide (entries l = []) ∧ s' = s) s.
Proof using Hdir Hty.
  intros Ht. pose proof Hdir as [Hok _ Hno]. unfold dirIsEmpty. apply wp_bind, wp_read.
  destruct (dir_cases l Hok) as [El|(e0 & l2 & El)].
  { unfold lookup_kl. change (kl_key R) with (key R 0). rewrite El in *.
    rewrite Hno; [by apply wp_ret|apply page_zero|apply not_elem_of_nil]. }
  destruct (dir_lookup [] 0 e0 l2 R El) as (x & -> & Hx1 & Hx2); [done|done|].
  apply wp_bind, (wp_from _ e0); [done|]. rewrite El. unfold entries. cbn [fmap list_fmap concat snd].
  destruct e0 as [|e e0]; cbn [negb app].
  - apply wp_bind, (wp_from _ (first_no 0 l2)); [done|]. apply wp_ret. split; [|done].
    rewrite (next_zero [] 0 [] l2 El). apply bool_decide_ext. split; [by intros ->|]. intros Hc.
    destruct l2 as [|[m em] l2]; [done|]. exfalso. rewrite El in Ht.
    apply Forall_cons in Ht as [_ [Hm _]%Forall_cons]. cbn in Hc. apply app_eq_nil in Hc as [Hc _].
    apply Hm; [|done]. cbn. intros ->. pose proof (next_zero [] 0 [] ((0, em) :: l2) El) as Hz. done.
  - apply wp_ret. by rewrite bool_decide_false.
Qed.

(** ** The iterator of [Dir] *)

(** An iterator at an entry, with the entries still to come. *)
Definition at_iterator (i : Dir_iterator) (rest : list Z) : Prop :=
  ∃ l1 n es l2 x k, l = l1 ++ (n, es) :: l2 ∧ sle_ i = Some x ∧
    getFieldU64 (sle_body x) sfIndexNext = Ret (first_no 0 l2) ∧ indexes_ i = es ∧
    es !! it_ i = Some k ∧ index_ i = k ∧ rest = drop (it_ i) es ++ entries l2.

Definition full_pages : Prop := Forall (λ x, x.2 ≠ [] ∧ Forall (λ k, k ≠ 0) x.2) l.

Lemma full_page l1 n es l2 : full_pages → l = l1 ++ (n, es) :: l2 → es ≠ [] ∧ Forall (λ k, k ≠ 0) es.
Proof using.
  unfold full_pages. intros Hf El. rewrite El in Hf. apply Forall_app in Hf as [_ [Hf _]%Forall_cons]. done.
Qed.

Lemma iterator_next_spec i rest :
  full_pages → at_iterator i rest →
  wp (iterator_next R i) (λ j s', s' = s ∧ ∃ k rest', rest = k :: rest' ∧ index_ i = k ∧ k ≠ 0 ∧
    match rest' with
    | [] => iterator_eq j (Dir_end R) = true
    | _ => at_iterator j rest'
    end) s.
Proof using Hdir.
  intros Hfull (l1 & n & es & l2 & x & k & El & Hx & Hn & Hes & Hk & Hi & ->). unfold iterator_next.
  rewrite Hes, Hx, (drop_S _ _ _ Hk). destruct (full_page _ _ _ _ Hfull El) as [_ Hnz].
  assert (Hk0 : k ≠ 0). { rewrite Forall_forall in Hnz. by eapply Hnz, list_elem_of_lookup_2. }
  cbn [app]. destruct (es !! S (it_ i)) as [k'|] eqn:Hk'.
  - apply wp_ret. split; [done|]. exists k, (drop (S (it_ i)) es ++ entries l2). split_and!; try done.
    assert (Hat : at_iterator (mkIter (page_ i) (Some x) es (S (it_ i)) k') (drop (S (it_ i)) es ++ entries l2)).
    { by exists l1, n, es, l2, x, k'. }
    rewrite (drop_S _ _ _ Hk') in *. exact Hat.
  - rewrite (drop_ge es (S (it_ i))) by (by apply lookup_ge_None). cbn [app].
    apply wp_bind, (wp_from _ (first_no 0 l2)); [done|]. rewrite (next_zero l1 n es l2 El).
    destruct l2 as [|[m em] l2].
    + rewrite bool_decide_true by done. apply wp_ret. split; [done|]. exists k, [].
      split_and!; try done. unfold iterator_eq. simpl. by rewrite Z.eqb_refl.
    + rewrite bool_decide_false by done. apply wp_bind, wp_read. cbn [first_no].
      assert (El' : l = (l1 ++ [(n, es)]) ++ (m, em) :: l2) by (by rewrite <- app_assoc).
      destruct (full_page _ _ _ _ Hfull El') as [Hem _].
      destruct (dir_lookup _ m em l2 (kl_page R m) El') as (y & Hy & Hy1 & Hy2); [done|done|].
      rewrite Hy. apply wp_bind, (wp_from _ em); [done|]. apply wp_ret. split; [done|].
      exists k, (em ++ entries l2). split_and!; try done. destruct em as [|e em]; [done|].
      by exists (l1 ++ [(n, es)]), m, (e :: em), l2, y, e.
Qed.

Lemma Dir_loop_spec fuel i rest seen :
  full_pages → at_iterator i rest → (length rest < fuel)%nat →
  wp (Dir_loop fuel R i seen) (λ r s', r = seen ++ rest ∧ s' = s) s.
Proof using Hdir.
  intros Hfull. revert fuel i seen. induction rest as [|k rest IH]; intros fuel i seen Hi Hf.
  { destruct Hi as (l1 & n & es & l2 & x & k & El & _ & _ & _ & Hk & _ & Hr).
    by rewrite (drop_S _ _ _ Hk) in Hr. }
  destruct (iterator_next_spec i (k :: rest) Hfull Hi) as (j & ? & Hj & -> & k' & rest' & [= <- <-] & Hki & Hk0 & Hm).
  destruct fuel as [|fuel]; [simpl in Hf; lia|]. cbn [Dir_loop].
  unfold iterator_eq at 1. cbn [Dir_end index_]. rewrite Hki, (proj2 (Z.eqb_neq k 0)) by done.
  rewrite andb_false_r. apply wp_bind. exists j, s. split; [done|].
  destruct rest as [|k2 rest].
  - destruct fuel as [|fuel]; [simpl in Hf; lia|]. cbn [Dir_loop]. rewrite Hm. by apply wp_ret.
  - eapply wp_mono; [apply IH; [done|simpl in *; lia]|]. intros r s' [-> ->]. by rewrite <- app_assoc.
Qed.

Lemma Dir_each_spec fuel :
  full_pages → (length (entries l) < fuel)%nat →
  wp (Dir_each fuel R) (λ r s', r = entries l ∧ s' = s) s.
Proof using Hdir Hty.
  intros Hfull Hf. unfold Dir_each, Dir_begin. apply wp_bind, wp_bind, wp_read.
  destruct fuel as [|fuel]; [lia|].
  destruct (dir_cases l (directory_ok _ _ _ Hdir)) as [El|(e0 & l2 & El)].
  - unfold lookup_kl. change (kl_key R) with (key R 0).
    rewrite (directory_none _ _ _ Hdir 0) by (apply page_zero || (rewrite El; apply not_elem_of_nil)).
    apply wp_ret. cbn [Dir_loop]. unfold iterator_eq. simpl. rewrite Z.eqb_refl, El. by apply wp_ret.
  - destruct (dir_lookup [] 0 e0 l2 R El) as (x & -> & Hx1 & Hx2); [done|done|].
    apply wp_bind, (wp_from _ e0); [done|]. apply wp_ret.
    destruct (full_page [] 0 e0 l2 Hfull El) as [Hne _]. destruct e0 as [|e e0]; [done|].
    apply (Dir_loop_spec _ _ (entries l) []); [done| |done].
    exists [], 0, (e :: e0), l2, x, e. rewrite El at 2. by split_and!.
Qed.

(** With an empty root page the iterator is at its end at once. *)
Lemma Dir_each_empty_root fuel l2 :
  l = (0, []) :: l2 → wp (Dir_each (S fuel) R) (λ r s', r = [] ∧ s' = s) s.
Proof using Hdir Hty.
  intros El. unfold Dir_each, Dir_begin. apply wp_bind, wp_bind, wp_read.
  destruct (dir_lookup [] 0 [] l2 R El) as (x & -> & Hx1 & Hx2); [done|done|].
  apply wp_bind, (wp_from _ []); [done|]. apply wp_ret. cbn [Dir_loop]. unfold iterator_eq. simpl.
  rewrite Z.eqb_refl. by apply wp_ret.
Qed.
End Read.
