(* ===== verification/DirectoryTheorems.v ===== *)
(** * The theorems on directories

    What adding to, removing from and reading a directory do to its list of entries. *)

From stdpp Require Import base numbers list gmap strings.
From Stdlib Require Import Lia ZArith.
From S2P Require Import Prelude Serializer STAmount StateTable SField STObject STObjectWire STObjectLaws.
From S2P Require Import Entry Indexes ApplyView ViewLogic Directory DirectoryPages DirectoryCorrect DirectoryRemove DirectoryRead.

Local Open Scope Z_scope.

(** ** Histories *)

(** A directory that comes from nothing by adding and removing keys. *)
Inductive dir_op : Type :=
| AddKey (preserveOrder : bool) (k : Z)
| RemoveKey (n k : Z) (keepRoot : bool).

Section History.
Context `{Hash : Sha512} (R : Keylet) (describe : STObject → outcome STObject).

Definition exec_op (op : dir_op) : view_prog unit :=
  match op with
  | AddKey preserveOrder k => dirAdd preserveOrder R k describe ;; mret ()
  | RemoveKey n k keepRoot => dirRemove R n k keepRoot ;; mret ()
  end.

Fixpoint exec_ops (ops : list dir_op) : view_prog unit :=
  match ops with
  | [] => mret ()
  | op :: ops => exec_op op ;; exec_ops ops
  end.

Definition op_ok (op : dir_op) : Prop := match op with RemoveKey n _ _ => page_no n | _ => True end.

Context (Hty : kl_type R = ltDIR_NODE) (Hinj : pages_distinct R) (Hdesc : describes describe).

Lemma exec_op_directory op s l s' :
  op_ok op → directory R (vs_map s) l → tidy l → run (exec_op op) s = Ret (tt, s') →
  ∃ l', directory R (vs_map s') l' ∧ tidy l' ∧ touches R s s'.
Proof using Hdesc Hinj Hty.
  intros Hop Hdir Ht Hrun. pose proof (directory_ok _ _ _ Hdir) as Hok.
  destruct op as [p k|n k keep]; unfold exec_op in Hrun; rewrite run_bind in Hrun.
  - pose proof (dirAdd_refines R Hty Hinj describe Hdesc p k l s Hdir) as H.
    pose proof (dir_add_spec p k l Hok) as Hs.
    destruct (dir_add p k l) as [[r l']|].
    2: { unfold throws in H. by rewrite H in Hrun. }
    destruct H as (r' & s1 & H1 & -> & Hl). rewrite H1 in Hrun. injection Hrun as <-.
    assert (Hl' : dir_ok l' ∧ tidy l') by (destruct r; [tauto|destruct Hs as [-> _]; done]).
    destruct (linked_directory R s l' s1 (proj1 Hl') Hl) as [Hd Hto]. exists l'. tauto.
  - destruct (dirRemove_refines R Hinj s keep n k l s Hok Hop (directory_linked R s l Hdir))
      as (b & s1 & H1 & _ & Hl). rewrite H1 in Hrun. injection Hrun as <-.
    destruct (dir_remove keep n k l) as [b' l'] eqn:E.
    destruct (dir_remove_spec keep n k l b' l' Hok E) as (Hok' & Ht' & _).
    destruct (linked_directory R s l' s1 Hok' Hl) as [Hd Hto]. exists l'. auto.
Qed.

Lemma exec_ops_directory ops s l s' :
  Forall op_ok ops → directory R (vs_map s) l → tidy l → run (exec_ops ops) s = Ret (tt, s') →
  ∃ l', directory R (vs_map s') l' ∧ tidy l'.
Proof using Hdesc Hinj Hty.
  intros Hops. revert s l. induction Hops as [|op ops Hop _ IH]; intros s l Hdir Ht; cbn [exec_ops].
  - intros [= <-]. eauto.
  - rewrite run_bind. destruct (run (exec_op op) s) as [[[] s1]|] eqn:E; [|done].
    destruct (exec_op_directory op s l s1 Hop Hdir Ht E) as (l1 & Hd1 & Ht1 & _). by eapply IH.
Qed.
End History.

Lemma entries_bound l :
  dir_ok l → Z.of_nat (length l) ≤ dirNodeMaxPages ∧
  Z.of_nat (length (entries l)) ≤ dirNodeMaxPages * dirNodeMaxEntries.
Proof.
  intros Hok. assert (Hlen : Z.of_nat (length l) ≤ dirNodeMaxPages).
  { rewrite <- (length_fmap fst). set (ns := l.*1).
    assert (Hincl : ns ⊆+ (Z.of_nat <$> seq 0 (Z.to_nat dirNodeMaxPages))).
    { apply NoDup_submseteq; [by apply dir_nodup|]. intros n Hn.
      pose proof (dir_page_no l n Hok Hn) as Hr. unfold page_no in Hr. apply list_elem_of_fmap.
      exists (Z.to_nat n). split; [lia|]. apply elem_of_seq. lia. }
    apply submseteq_length in Hincl. rewrite length_fmap, length_seq in Hincl.
    unfold dirNodeMaxPages in *. lia. }
  split; [done|]. apply dir_size in Hok.
  assert (Hsum : Z.of_nat (length (entries l)) ≤ Z.of_nat (length l) * dirNodeMaxEntries).
  { clear Hlen. induction Hok as [|[n es] l Hes _ IH]; [done|]. unfold entries in *. cbn.
    rewrite length_app. simpl in Hes. unfold dirNodeMaxEntries in *. lia. }
  unfold dirNodeMaxEntries in *. nia.
Qed.

(** ** Every well-formed list of pages is a directory of some ledger *)

Definition body_of (p : page) : STObject :=
  set V256 sfIndexes (p_entries p) (set U64 sfIndexPrevious (p_prev p)
    (set U64 sfIndexNext (p_next p) (new_body ltDIR_NODE))).

Lemma body_of_rep p : body_rep (body_of p) p.
Proof.
  destruct p as [nx pv es]. unfold body_of. cbn [p_next p_prev p_entries].
  exact (body_entries es _ _ (body_prev pv _ _ (body_next nx _ _ new_page))).
Qed.

Definition dir_map `{Hash : Sha512} (R : Keylet) (l : dir) : gmap Z (SLE STObject) :=
  list_to_map ((λ x, (key R x.1, mkSLE (key R x.1) ltDIR_NODE (body_of x.2))) <$> layout (last_no 0 l) 0 l).

Lemma dir_map_directory `{Hash : Sha512} R l :
  pages_distinct R → dir_ok l → directory R (dir_map R l) l.
Proof.
  intros Hinj Hok. set (ly := layout (last_no 0 l) 0 l).
  assert (Hnd : NoDup ((λ x, (key R x.1, mkSLE (key R x.1) ltDIR_NODE (body_of x.2))) <$> ly).*1).
  { rewrite <- list_fmap_compose.
    replace ((fst ∘ _) <$> ly) with (key R <$> ly.*1) by (by rewrite <- list_fmap_compose).
    unfold ly. rewrite layout_keys. apply NoDup_fmap_2_strong; [|by apply dir_nodup].
    intros i j Hi Hj. apply Hinj; by eapply dir_page_no. }
  split; [done| |].
  - intros n p Hp. exists (mkSLE (key R n) ltDIR_NODE (body_of p)).
    split; [|split; [done|apply body_of_rep]]. apply elem_of_list_to_map_1; [done|].
    apply list_elem_of_fmap. exists (n, p). split; [done|]. by apply elem_of_list_to_map_2 in Hp.
  - intros n Hn Hnin. apply not_elem_of_list_to_map_1. rewrite <- list_fmap_compose.
    intros ([m p] & E & Hin)%list_elem_of_fmap. simpl in E. apply Hnin.
    apply (list_elem_of_fmap_2 fst) in Hin. unfold ly in Hin. rewrite layout_keys in Hin. simpl in Hin.
    rewrite (Hinj n m Hn (dir_page_no l m Hok Hin) E). done.
Qed.

(** ** The theorems *)

(** C20: adding a key to a directory stops with an error exactly if the last page holds the key
    and has room for more; otherwise it returns.  It returns no page, and changes
    nothing, exactly if the last page there may be is full; if not, it returns the last page, or
    the next one when that is full, which then holds the key; the directory is well
    formed, the key is its only new entry, at the end if the order is to be kept, and
    nothing but the pages of the directory has changed. *)
Theorem dirAdd_correct `{Hash : Sha512} (R : Keylet) (s : vstate STObject) (l : dir)
    (preserveOrder : bool) (k : Z) (describe : STObject → outcome STObject)
    (Hty : kl_type R = ltDIR_NODE) (Hinj : pages_distinct R) (Hdesc : describes describe)
    (Hdir : directory R (vs_map s) l) :
  (add_refused k l → run (dirAdd preserveOrder R k describe) s = Throw (logic_error "dirInsert: double insertion")) ∧
  (¬ add_refused k l → ∃ r l' s', run (dirAdd preserveOrder R k describe) s = Ret (r, s') ∧
    directory R (vs_map s') l' ∧ touches R s s' ∧
    match r with
    | None => add_full l ∧ l' = l
    | Some n => ¬ add_full l ∧ n = add_page l ∧ (tidy l → tidy l') ∧ (∃ es, page_of n l' = Some es ∧ k ∈ es) ∧
        (entries l' ≡ₚ k :: entries l) ∧ (preserveOrder = true → entries l' = entries l ++ [k])
    end).
Proof.
  pose proof (dirAdd_refines R Hty Hinj describe Hdesc preserveOrder k l s Hdir) as H.
  pose proof (dir_add_spec preserveOrder k l (directory_ok _ _ _ Hdir)) as Hs.
  pose proof (dir_add_exact preserveOrder k l) as Hx.
  destruct (dir_add preserveOrder k l) as [[r l']|]; [|split; [by intros _|by intros []]].
  assert (Hno : ¬ add_refused k l) by (destruct r; [apply Hx|exact Hx]). split; [by intros ?%Hno|intros _].
  destruct H as (r' & s' & Hrun & -> & Hl). exists r, l', s'. split; [done|].
  assert (Hok : dir_ok l').
  { destruct r; [apply Hs|]. destruct Hs as [-> _]. apply Hdir. }
  destruct (linked_directory R s l' s' Hok Hl) as [Hd Ht]. split_and!; [done|done|].
  destruct r as [n|]; [tauto|]. destruct Hs as (-> & n & es & Hlast & Hlen & ->). split; [by exists es|done].
Qed.

(** C19: removing a key from a page of a directory: no broken link is met; it succeeds exactly
    if the page holds the key; then the key is the only entry that has gone, the others keep
    their order, pages that have become empty are gone, and with the last entry the
    directory itself unless the root is to be kept; nothing else has changed. *)
Theorem dirRemove_correct `{Hash : Sha512} (R : Keylet) (s : vstate STObject) (l : dir)
    (n k : Z) (keepRoot : bool)
    (Hinj : pages_distinct R) (Hn : page_no n) (Hdir : directory R (vs_map s) l) :
  ∃ b l' s', run (dirRemove R n k keepRoot) s = Ret (b, s') ∧
    directory R (vs_map s') l' ∧ touches R s s' ∧ (tidy l → tidy l') ∧
    (b = true ↔ ∃ es, page_of n l = Some es ∧ k ∈ es) ∧
    (if b then (entries l ≡ₚ k :: entries l') ∧ sublist (entries l') (entries l) else l' = l) ∧
    (b = true → keepRoot = true → l' ≠ []) ∧
    (b = true → keepRoot = false → tidy l → entries l' = [] → l' = []).
Proof.
  pose proof (directory_ok _ _ _ Hdir) as Hok.
  destruct (dirRemove_refines R Hinj s keepRoot n k l s Hok Hn (directory_linked R s l Hdir))
    as (b & s' & Hrun & Hb & Hl).
  destruct (dir_remove keepRoot n k l) as [b' l'] eqn:E. simpl in *. subst b'.
  destruct (dir_remove_spec keepRoot n k l b l' Hok E) as (Hok' & Ht & Hb & He & Hk & Hd).
  destruct (linked_directory R s l' s' Hok' Hl) as [Hdir' Hto].
  exists b, l', s'. by split_and!.
Qed.

(** C31: visiting the entries of a directory with [cdirFirst] and [cdirNext], or the items of an
    owner with [forEachItem], visits every entry once, in the order of the pages, and ends;
    [dirIsEmpty] tells whether there are any. *)
Theorem directory_visits `{Hash : Sha512} {A} (R : Keylet) (s : vstate STObject) (l : dir)
    (f : A → Z → A) (g : A → option (SLE STObject) → A) (a : A) (fuel : nat)
    (Hty : kl_type R = ltDIR_NODE) (Hdir : directory R (vs_map s) l)
    (Hfuel : (length (entries l) + length l < fuel)%nat) :
  (l ≠ [] → run (cdir_each fuel (kl_key R) f a) s = Ret (foldl f a (entries l), s)) ∧
  run (forEachItem_from fuel R R g a) s
    = Ret (foldl (λ a k, g a (lookup_kl (vs_map s) (kl_child k))) a (entries l), s) ∧
  (tidy l → run (dirIsEmpty R) s = Ret (bool_decide (entries l = []), s)).
Proof.
  split_and!.
  - intros Hne. destruct (cdir_each_spec R s l Hdir f fuel a Hne Hfuel) as (r & s' & -> & -> & ->). done.
  - destruct (forEachItem_spec R s l Hdir g fuel a [] l R eq_refl) as (r & s' & -> & -> & ->); [lia|done| |by left|done].
    by destruct (dir_cases l (directory_ok _ _ _ Hdir)) as [->|(e0 & l2 & ->)].
  - intros Ht. destruct (dirIsEmpty_spec R Hty s l Hdir Ht) as (r & s' & -> & -> & ->). done.
Qed.

(** the iterator of [Dir] does not visit a directory whose root page is empty, whatever the
    other pages hold, although removing entries leaves such directories behind. *)
Theorem Dir_misses_entries `{Hash : Sha512} (R : Keylet) (s : vstate STObject) (l2 : dir) (fuel : nat)
    (Hty : kl_type R = ltDIR_NODE) (Hdir : directory R (vs_map s) ((0, []) :: l2)) :
  run (Dir_each (S fuel) R) s = Ret ([], s).
Proof. by destruct (Dir_each_empty_root R Hty s _ Hdir fuel l2 eq_refl) as (r & s' & -> & -> & ->). Qed.

(** C30: whatever keys are added to and removed from a directory that did not exist at first, it
    stays well formed: at most 262144 pages of at most 32 entries each, so never more than
    8388608 entries, and no page but the root empty. *)
Theorem directory_bounds `{Hash : Sha512} (R : Keylet) (describe : STObject → outcome STObject)
    (ops : list dir_op) (s s' : vstate STObject)
    (Hty : kl_type R = ltDIR_NODE) (Hinj : pages_distinct R) (Hdesc : describes describe)
    (Hops : Forall op_ok ops) (Hnew : ∀ n, page_no n → vs_map s !! key R n = None)
    (Hrun : run (exec_ops R describe ops) s = Ret (tt, s')) :
  ∃ l, directory R (vs_map s') l ∧ tidy l ∧ Z.of_nat (length l) ≤ 262144 ∧
    Forall (λ x, Z.of_nat (length x.2) ≤ 32) l ∧ Z.of_nat (length (entries l)) ≤ 8388608.
Proof.
  assert (Hdir : directory R (vs_map s) []).
  { split; [|done|by intros n Hn _; apply Hnew].
    apply dir_ok_shape. split_and!; [done|constructor|constructor|constructor]. }
  destruct (exec_ops_directory R describe Hty Hinj Hdesc ops s [] s' Hops Hdir) as (l & Hl & Ht);
    [constructor|done|].
  exists l. destruct (entries_bound l (directory_ok _ _ _ Hl)) as [H1 H2].
  split_and!; [done|done|done|apply Hl|done].
Qed.

(** ** Witnesses

    The owner directory of account 5, with a hash function without collisions. *)

#[local] Existing Instance number_hash.

Definition sample_dir : Keylet := kl_ownerDir 5.

(** Without collisions the pages of every owner directory are distinct. *)
Lemma owner_distinct id : pages_distinct (kl_ownerDir id).
Proof.
  unfold pages_distinct. change (kl_key (kl_ownerDir id)) with (number_hash (to_be 2 spaceOwnerDir ++ to_be 20 id)).
  remember (number_hash (to_be 2 spaceOwnerDir ++ to_be 20 id)) as r eqn:Hr.
  assert (Hkey : ∀ n, n ≠ 0 → getDirNodeIndex r n = number_hash (to_be 2 spaceDirNode ++ to_be 32 r ++ to_be 8 n)).
  { intros n Hn. unfold getDirNodeIndex. by rewrite (proj2 (Z.eqb_neq n 0)) by done. }
  assert (H0 : getDirNodeIndex r 0 = r) by done.
  assert (Hroot : ∀ n, n ≠ 0 → getDirNodeIndex r n ≠ r).
  { intros n Hn E. rewrite Hkey in E by done. apply (λ E, eq_trans E Hr), number_hash_inj in E;
      [|repeat (apply Forall_app; split); apply to_be_bytes..].
    apply (f_equal length) in E. rewrite !length_app, !length_to_be in E. done. }
  intros i j Hi Hj E. destruct (decide (i = 0)) as [->|Hi0], (decide (j = 0)) as [->|Hj0]; [done|..].
  - rewrite H0 in E. by destruct (Hroot j Hj0 (eq_sym E)).
  - rewrite H0 in E. by destruct (Hroot i Hi0 E).
  - rewrite !Hkey in E by done. apply number_hash_inj in E; [|repeat (apply Forall_app; split); apply to_be_bytes..].
    rewrite !app_assoc in E. apply app_inj_2 in E as [_ E]; [|by rewrite !length_to_be].
    unfold page_no, dirNodeMaxPages in *. apply (to_be_inj 8); [simpl; lia..|done].
Qed.

Lemma sample_distinct : pages_distinct sample_dir.
Proof. apply owner_distinct. Qed.

Lemma sample_directory l : dir_ok l → directory sample_dir (vs_map (mkV (dir_map sample_dir l) ∅ ∅)) l.
Proof. apply dir_map_directory, sample_distinct. Qed.

(** A directory with an empty root page and another page. *)
Definition sample_pages : dir := [(0, []); (1, [7; 8])].

Lemma sample_pages_ok : dir_ok sample_pages.
Proof.
  apply dir_ok_shape. split_and!; [by intros n [= <-]|repeat constructor|..];
    repeat apply Forall_cons_2; unfold dirNodeMaxPages, dirNodeMaxEntries; simpl; try lia; constructor.
Qed.

Lemma dirAdd_correct_witness :
  run (dirAdd false sample_dir 7 (describeOwnerDir 5)) (mkV (dir_map sample_dir sample_pages) ∅ ∅)
    = Throw (logic_error "dirInsert: double insertion") ∧
  ∃ r l' s', run (dirAdd false sample_dir 6 (describeOwnerDir 5)) (mkV (dir_map sample_dir sample_pages) ∅ ∅)
    = Ret (r, s') ∧ directory sample_dir (vs_map s') l'.
Proof.
  destruct (dirAdd_correct sample_dir (mkV (dir_map sample_dir sample_pages) ∅ ∅) sample_pages
    false 7 (describeOwnerDir 5) eq_refl sample_distinct (describeOwnerDir_describes 5)
    (sample_directory _ sample_pages_ok)) as [H7 _].
  destruct (dirAdd_correct sample_dir (mkV (dir_map sample_dir sample_pages) ∅ ∅) sample_pages
    false 6 (describeOwnerDir 5) eq_refl sample_distinct (describeOwnerDir_describes 5)
    (sample_directory _ sample_pages_ok)) as [_ H6].
  split.
  - apply H7. exists 1, [7; 8]. split; [reflexivity|]. split; [by left|reflexivity].
  - destruct H6 as (r & l' & s' & Hr & Hd & _); [|exists r, l', s'; split; [exact Hr|exact Hd]].
    intros (n & es & Hl & Hin & _). injection Hl as <- <-. apply list_elem_of_In in Hin as [?|[?|[]]]; discriminate.
Defined.

Lemma dirRemove_correct_witness :
  ∃ l' s', run (dirRemove sample_dir 1 7 true) (mkV (dir_map sample_dir sample_pages) ∅ ∅) = Ret (true, s') ∧
    directory sample_dir (vs_map s') l' ∧ [7; 8] ≡ₚ 7 :: entries l'.
Proof.
  assert (Hn : page_no 1) by (split; vm_compute; congruence).
  destruct (dirRemove_correct sample_dir (mkV (dir_map sample_dir sample_pages) ∅ ∅) sample_pages 1 7 true
    sample_distinct Hn (sample_directory _ sample_pages_ok)) as (b & l' & s' & Hr & Hd & _ & _ & Hb & He & _).
  assert (b = true) as ->.
  { apply Hb. exists [7; 8]. split; [reflexivity|]. by left. }
  exists l', s'. split_and!; [exact Hr|exact Hd|apply He].
Defined.

Lemma directory_visits_witness :
  run (cdir_each 10 (kl_key sample_dir) (λ a k, a ++ [k]) []) (mkV (dir_map sample_dir sample_pages) ∅ ∅)
  = Ret ([7; 8], mkV (dir_map sample_dir sample_pages) ∅ ∅).
Proof.
  apply (directory_visits sample_dir (mkV (dir_map sample_dir sample_pages) ∅ ∅) sample_pages
    (λ a k, a ++ [k]) (λ a _, a) [] 10 eq_refl (sample_directory _ sample_pages_ok)).
  - vm_compute. lia.
  - discriminate.
Defined.

Lemma Dir_misses_entries_witness :
  run (Dir_each 10 sample_dir) (mkV (dir_map sample_dir sample_pages) ∅ ∅)
  = Ret ([], mkV (dir_map sample_dir sample_pages) ∅ ∅).
Proof. apply (Dir_misses_entries sample_dir _ [(1, [7; 8])] 9 eq_refl), (sample_directory _ sample_pages_ok). Defined.

Lemma directory_bounds_witness :
  ∃ s' l, run (exec_ops sample_dir (describeOwnerDir 5) [AddKey true 7; AddKey true 8; RemoveKey 0 7 false])
    (mkV ∅ ∅ ∅) = Ret (tt, s') ∧ directory sample_dir (vs_map s') l.
Proof.
  destruct (run (exec_ops sample_dir (describeOwnerDir 5) [AddKey true 7; AddKey true 8; RemoveKey 0 7 false])
    (mkV ∅ ∅ ∅)) as [[[] s']|e] eqn:E.
  - destruct (directory_bounds sample_dir (describeOwnerDir 5)
      [AddKey true 7; AddKey true 8; RemoveKey 0 7 false] (mkV ∅ ∅ ∅) s' eq_refl sample_distinct
      (describeOwnerDir_describes 5)) as (l & Hl & _).
    + repeat constructor; vm_compute; congruence.
    + intros n _. apply lookup_empty.
    + exact E.
    + exists s', l. split; [reflexivity|exact Hl].
  - exfalso. vm_compute in E. discriminate.
Defined.
