(* ===== verification/DirectoryFrame.v ===== *)
(** * What directories touch

    The programs that add to directories and remove from them change directory pages and
    nothing else, whatever the state of the ledger is. *)

From stdpp Require Import base numbers list gmap strings.
From Stdlib Require Import Lia ZArith.
From S2P Require Import Prelude Serializer STAmount StateTable SField STObject STObjectWire STObjectLaws.
From S2P Require Import Entry Indexes ApplyView ViewLogic Directory.

Local Open Scope Z_scope.

Section Frame.
Context `{Hash : Sha512} (T : Z → bool) (HT : T ltDIR_NODE = true).
Implicit Types (P S D : gset Z).

Lemma confined_peek_or k msg P S D (Q : Z → gset Z → gset Z → gset Z → Prop) :
  T (kl_type k) = true → Q (kl_key k) ({[kl_key k]} ∪ P) S D → confined T (peek_or k msg) P S D Q.
Proof. intros H1 H2. unfold peek_or. confine. done. Qed.

Lemma confined_throw_if b msg P S D
    (Q : unit → gset Z → gset Z → gset Z → Prop) : Q tt P S D → confined T (throw_if b msg) P S D Q.
Proof. intros H. unfold throw_if. confine. done. Qed.

Lemma confined_dirRemove_root directory node prev next keep P S D
    (Q : bool → gset Z → gset Z → gset Z → Prop) :
  node ∈ P → (∀ b P' S', P ⊆ P' → Q b P' S' D) → confined T (dirRemove_root directory node prev next keep) P S D Q.
Proof using HT.
  intros Hn HQ. unfold dirRemove_root. confine.
  apply confined_throw_if. confine. apply confined_throw_if. confine.
  1: (apply confined_peek_or; [done|]; confine).
  all: apply HQ; set_solver.
Qed.

Lemma confined_dirRemove_page directory page node prev next keep P S D
    (Q : bool → gset Z → gset Z → gset Z → Prop) :
  node ∈ P → (∀ b P' S', P ⊆ P' → Q b P' S' D) → confined T (dirRemove_page directory page node prev next keep) P S D Q.
Proof using HT.
  intros Hn HQ. unfold dirRemove_page, dirRemove_last. confine.
  apply confined_throw_if. confine. apply confined_throw_if. confine.
  apply confined_peek_or; [done|]. confine. apply confined_peek_or; [done|]. confine.
  all: try (apply confined_peek_or; [done|]; confine).
  all: apply HQ; set_solver.
Qed.

Lemma confined_dirRemove directory page key keep P S D (Q : bool → gset Z → gset Z → gset Z → Prop) :
  (∀ b P' S', P ⊆ P' → Q b P' S' D) → confined T (dirRemove directory page key keep) P S D Q.
Proof using HT.
  intros HQ. unfold dirRemove. confine.
  all: try (apply HQ; set_solver).
  - apply confined_dirRemove_root; [in_set|]. intros b P' S' HP. apply HQ; set_solver.
  - apply confined_dirRemove_page; [in_set|]. intros b P' S' HP. apply HQ; set_solver.
Qed.

Lemma confined_dirAdd_page order directory key describe root node page P S D
    (Q : option Z → gset Z → gset Z → gset Z → Prop) :
  root ∈ P → node ∈ P → (∀ b P' S', P ⊆ P' → S ⊆ S' → Q b P' S' D) →
  confined T (dirAdd_page order directory key describe root node page) P S D Q.
Proof using HT.
  intros Hr Hn HQ. unfold dirAdd_page. confine.
  all: apply HQ; set_solver.
Qed.

Lemma confined_dirAdd order directory key describe P S D (Q : option Z → gset Z → gset Z → gset Z → Prop) :
  kl_type directory = ltDIR_NODE → (∀ b P' S', P ⊆ P' → S ⊆ S' → Q b P' S' D) →
  confined T (dirAdd order directory key describe) P S D Q.
Proof using HT.
  intros Hd HQ. unfold dirAdd. confine.
  - by rewrite Hd.
  - by rewrite Hd.
  - apply HQ; set_solver.
  - apply confined_dirAdd_page; [in_set..|]. intros b P' S' HP HS. apply HQ; set_solver.
  - apply confined_dirAdd_page; [in_set..|]. intros b P' S' HP HS. apply HQ; set_solver.
Qed.

Lemma confined_view_dirAdd_page directory key describe root node page P S D
    (Q : option Z → gset Z → gset Z → gset Z → Prop) :
  root ∈ P → node ∈ P → (∀ b P' S', P ⊆ P' → S ⊆ S' → Q b P' S' D) →
  confined T (view_dirAdd_page directory key describe root node page) P S D Q.
Proof using HT.
  intros Hr Hn HQ. unfold view_dirAdd_page, describe_at. confine.
  all: apply HQ; set_solver.
Qed.

Lemma confined_view_dirAdd sorted directory key strict describe P S D
    (Q : option Z → gset Z → gset Z → gset Z → Prop) :
  kl_type directory = ltDIR_NODE → (∀ b P' S', P ⊆ P' → S ⊆ S' → Q b P' S' D) →
  confined T (view_dirAdd sorted directory key strict describe) P S D Q.
Proof using HT.
  intros Hd HQ. unfold view_dirAdd, describe_at, dirAppend, dirInsert. destruct sorted.
  { destruct strict; by apply confined_dirAdd. }
  confine.
  - by rewrite Hd.
  - by rewrite Hd.
  - apply HQ; set_solver.
  - apply confined_view_dirAdd_page; [in_set..|]. intros b P' S' HP HS. apply HQ; set_solver.
  - apply confined_peek_or; [done|]. apply confined_view_dirAdd_page; [in_set..|]. intros b P' S' HP HS. apply HQ; set_solver.
Qed.
End Frame.
