(* ===== verification/TxBase.v ===== *)
(** * Results, rules and fees

    What all transactions share: the result codes ([src/src/ripple/protocol/TER.h]),
    the amendments a view has enabled ([protocol/Feature.h], [ledger/ReadView.h]), its
    fees and the flags of its ledger entries and transactions. *)

From stdpp Require Import base numbers list strings.
From Stdlib Require Import Lia ZArith.
From S2P Require Import Prelude XRPAmount.

Local Open Scope Z_scope.

(** ** Result codes *)

Abbreviation TER := Z.

Definition telLOCAL_ERROR : TER := -399.
Definition telBAD_DOMAIN : TER := -398.
Definition telBAD_PATH_COUNT : TER := -397.
Definition telBAD_PUBLIC_KEY : TER := -396.
Definition telFAILED_PROCESSING : TER := -395.
Definition telINSUF_FEE_P : TER := -394.
Definition telNO_DST_PARTIAL : TER := -393.
Definition telCAN_NOT_QUEUE : TER := -392.
Definition telCAN_NOT_QUEUE_BALANCE : TER := -391.
Definition telCAN_NOT_QUEUE_BLOCKS : TER := -390.
Definition telCAN_NOT_QUEUE_BLOCKED : TER := -389.
Definition telCAN_NOT_QUEUE_FEE : TER := -388.
Definition telCAN_NOT_QUEUE_FULL : TER := -387.

Definition temMALFORMED : TER := -299.
Definition temBAD_AMOUNT : TER := -298.
Definition temBAD_CURRENCY : TER := -297.
Definition temBAD_EXPIRATION : TER := -296.
Definition temBAD_FEE : TER := -295.
Definition temBAD_ISSUER : TER := -294.
Definition temBAD_LIMIT : TER := -293.
Definition temBAD_OFFER : TER := -292.
Definition temBAD_PATH : TER := -291.
Definition temBAD_PATH_LOOP : TER := -290.
Definition temBAD_SEND_XRP_LIMIT : TER := -289.
Definition temBAD_SEND_XRP_MAX : TER := -288.
Definition temBAD_SEND_XRP_NO_DIRECT : TER := -287.
Definition temBAD_SEND_XRP_PARTIAL : TER := -286.
Definition temBAD_SEND_XRP_PATHS : TER := -285.
Definition temBAD_SEQUENCE : TER := -284.
Definition temBAD_SIGNATURE : TER := -283.
Definition temBAD_SRC_ACCOUNT : TER := -282.
Definition temBAD_TRANSFER_RATE : TER := -281.
Definition temDST_IS_SRC : TER := -280.
Definition temDST_NEEDED : TER := -279.
Definition temINVALID : TER := -278.
Definition temINVALID_FLAG : TER := -277.
Definition temREDUNDANT : TER := -276.
Definition temRIPPLE_EMPTY : TER := -275.
Definition temDISABLED : TER := -274.
Definition temBAD_SIGNER : TER := -273.
Definition temBAD_QUORUM : TER := -272.
Definition temBAD_WEIGHT : TER := -271.
Definition temBAD_TICK_SIZE : TER := -270.
Definition temINVALID_ACCOUNT_ID : TER := -269.
Definition temCANNOT_PREAUTH_SELF : TER := -268.
Definition temUNCERTAIN : TER := -267.
Definition temUNKNOWN : TER := -266.

Definition tefFAILURE : TER := -199.
Definition tefALREADY : TER := -198.
Definition tefBAD_ADD_AUTH : TER := -197.
Definition tefBAD_AUTH : TER := -196.
Definition tefBAD_LEDGER : TER := -195.
Definition tefCREATED : TER := -194.
Definition tefEXCEPTION : TER := -193.
Definition tefINTERNAL : TER := -192.
Definition tefNO_AUTH_REQUIRED : TER := -191.
Definition tefPAST_SEQ : TER := -190.
Definition tefWRONG_PRIOR : TER := -189.
Definition tefMASTER_DISABLED : TER := -188.
Definition tefMAX_LEDGER : TER := -187.
Definition tefBAD_SIGNATURE : TER := -186.
Definition tefBAD_QUORUM : TER := -185.
Definition tefNOT_MULTI_SIGNING : TER := -184.
Definition tefBAD_AUTH_MASTER : TER := -183.
Definition tefINVARIANT_FAILED : TER := -182.

Definition terRETRY : TER := -99.
Definition terFUNDS_SPENT : TER := -98.
Definition terINSUF_FEE_B : TER := -97.
Definition terNO_ACCOUNT : TER := -96.
Definition terNO_AUTH : TER := -95.
Definition terNO_LINE : TER := -94.
Definition terOWNERS : TER := -93.
Definition terPRE_SEQ : TER := -92.
Definition terLAST : TER := -91.
Definition terNO_RIPPLE : TER := -90.
Definition terQUEUED : TER := -89.

Definition tesSUCCESS : TER := 0.

Definition tecCLAIM : TER := 100.
Definition tecPATH_PARTIAL : TER := 101.
Definition tecUNFUNDED_ADD : TER := 102.
Definition tecUNFUNDED_OFFER : TER := 103.
Definition tecUNFUNDED_PAYMENT : TER := 104.
Definition tecFAILED_PROCESSING : TER := 105.
Definition tecDIR_FULL : TER := 121.
Definition tecINSUF_RESERVE_LINE : TER := 122.
Definition tecINSUF_RESERVE_OFFER : TER := 123.
Definition tecNO_DST : TER := 124.
Definition tecNO_DST_INSUF_XRP : TER := 125.
Definition tecNO_LINE_INSUF_RESERVE : TER := 126.
Definition tecNO_LINE_REDUNDANT : TER := 127.
Definition tecPATH_DRY : TER := 128.
Definition tecUNFUNDED : TER := 129.
Definition tecNO_ALTERNATIVE_KEY : TER := 130.
Definition tecNO_REGULAR_KEY : TER := 131.
Definition tecOWNERS : TER := 132.
Definition tecNO_ISSUER : TER := 133.
Definition tecNO_AUTH : TER := 134.
Definition tecNO_LINE : TER := 135.
Definition tecINSUFF_FEE : TER := 136.
Definition tecFROZEN : TER := 137.
Definition tecNO_TARGET : TER := 138.
Definition tecNO_PERMISSION : TER := 139.
Definition tecNO_ENTRY : TER := 140.
Definition tecINSUFFICIENT_RESERVE : TER := 141.
Definition tecNEED_MASTER_KEY : TER := 142.
Definition tecDST_TAG_NEEDED : TER := 143.
Definition tecINTERNAL : TER := 144.
Definition tecOVERSIZE : TER := 145.
Definition tecCRYPTOCONDITION_ERROR : TER := 146.
Definition tecINVARIANT_FAILED : TER := 147.
Definition tecEXPIRED : TER := 148.
Definition tecDUPLICATE : TER := 149.
Definition tecKILLED : TER := 150.

Definition isTelLocal (x : TER) : bool := (telLOCAL_ERROR <=? x) && (x <? temMALFORMED).
Definition isTemMalformed (x : TER) : bool := (temMALFORMED <=? x) && (x <? tefFAILURE).
Definition isTefFailure (x : TER) : bool := (tefFAILURE <=? x) && (x <? terRETRY).
Definition isTerRetry (x : TER) : bool := (terRETRY <=? x) && (x <? tesSUCCESS).
Definition isTesSuccess (x : TER) : bool := x =? tesSUCCESS.
Definition isTecClaim (x : TER) : bool := tecCLAIM <=? x.

(** The codes a preflight check may return: all but those that claim a fee.  In the source
    this is the type [NotTEC]. *)
Definition NotTEC (x : TER) : Prop := isTecClaim x = false.

(** ** Flags of application *)

Definition tapNONE : Z := 0.
Definition tapRETRY : Z := 0x20.
Definition tapPREFER_QUEUE : Z := 0x40.
Definition tapUNLIMITED : Z := 0x400.

(** [flags & f] as a condition. *)
Definition flagged (flags f : Z) : bool := negb (Z.land flags f =? 0).

Lemma flagged_lor f g b : flagged (Z.lor f g) b = flagged f b || flagged g b.
Proof.
  unfold flagged. rewrite Z.land_lor_distr_l.
  destruct (Z.eqb_spec (Z.land f b) 0) as [->|Hf]; [by rewrite Z.lor_0_l|].
  destruct (Z.eqb_spec (Z.lor (Z.land f b) (Z.land g b)) 0) as [H|]; [|done].
  apply Z.lor_eq_0_iff in H. tauto.
Qed.

Definition isTecClaimHardFail (ter : TER) (flags : Z) : bool :=
  isTecClaim ter && negb (flagged flags tapRETRY).

(** ** Rules *)

Inductive Feature : Type :=
  | featureMultiSign | featureTickets | featureTrustSetAuth | featureFeeEscalation
  | featureOwnerPaysFee | featureCompareFlowV1V2 | featureSHAMapV2 | featurePayChan
  | featureFlow | featureCompareTakerFlowCross | featureFlowCross | featureCryptoConditions
  | featureTickSize | fix1368 | featureEscrow | featureCryptoConditionsSuite | fix1373
  | featureEnforceInvariants | featureSortedDirectories | fix1201 | fix1512 | fix1513
  | fix1523 | fix1528 | featureDepositAuth | featureChecks | fix1571 | fix1543 | fix1623
  | featureDepositPreauth | fix1515 | fix1578 | featureMultiSignReserve
  | fixTakerDryOfferRemoval.
#[export] Instance Feature_eq_dec : EqDecision Feature.
Proof. solve_decision. Defined.

(** [Rules::enabled]. *)
Definition Rules : Type := Feature → bool.
Definition enabled (rules : Rules) (f : Feature) : bool := rules f.

(** ** Fees *)

Record Fees : Type := mkFees {
  f_base : Z;
  f_units : Z;
  f_reserve : Z;
  f_increment : Z }.

Definition accountReserve (fees : Fees) (ownerCount : Z) : XRPAmount :=
  xrp_of_int (u64 (f_reserve fees + ownerCount * f_increment fees)).

(** What a transaction sees of a view besides its entries. *)
Record ViewInfo : Type := mkInfo {
  v_rules : Rules;
  v_fees : Fees;
  v_seq : Z;
  v_parentCloseTime : Z;
  v_open : bool }.

(** ** Flags of transactions and of ledger entries *)

Definition tfFullyCanonicalSig : Z := 0x80000000.
Definition tfUniversal : Z := tfFullyCanonicalSig.
(** [~ mask] on 32 bits. *)
Definition not32 (z : Z) : Z := Z.lxor z 0xFFFFFFFF.
Definition tfUniversalMask : Z := not32 tfUniversal.
Definition tfRenew : Z := 0x00010000.
Definition tfClose : Z := 0x00020000.
Definition tfPayChanClaimMask : Z := not32 (Z.lor (Z.lor tfUniversal tfRenew) tfClose).

Definition lsfPasswordSpent : Z := 0x00010000.
Definition lsfRequireDestTag : Z := 0x00020000.
Definition lsfRequireAuth : Z := 0x00040000.
Definition lsfDisallowXRP : Z := 0x00080000.
Definition lsfDisableMaster : Z := 0x00100000.
Definition lsfNoFreeze : Z := 0x00200000.
Definition lsfGlobalFreeze : Z := 0x00400000.
Definition lsfDefaultRipple : Z := 0x00800000.
Definition lsfDepositAuth : Z := 0x01000000.
Definition lsfOneOwnerCount : Z := 0x00010000.
Definition lsfPassive : Z := 0x00010000.
Definition lsfSell : Z := 0x00020000.
Definition lsfLowReserve : Z := 0x00010000.
Definition lsfHighReserve : Z := 0x00020000.
Definition lsfLowAuth : Z := 0x00040000.
Definition lsfHighAuth : Z := 0x00080000.
Definition lsfLowNoRipple : Z := 0x00100000.
Definition lsfHighNoRipple : Z := 0x00200000.
Definition lsfLowFreeze : Z := 0x00400000.
Definition lsfHighFreeze : Z := 0x00800000.

(** Flags of account settings. *)
Definition requireDestTag : Z := 0x00010000.
Definition tfOptionalDestTag : Z := 0x00020000.
Definition tfRequireAuth : Z := 0x00040000.
Definition tfOptionalAuth : Z := 0x00080000.
Definition tfDisallowXRP : Z := 0x00100000.
Definition tfAllowXRP : Z := 0x00200000.
Definition tfAccountSetMask : Z :=
  not32 (Z.lor tfUniversal (Z.lor requireDestTag (Z.lor tfOptionalDestTag (Z.lor tfRequireAuth
    (Z.lor tfOptionalAuth (Z.lor tfDisallowXRP tfAllowXRP)))))).

Definition asfRequireDest : Z := 1.
Definition asfRequireAuth : Z := 2.
Definition asfDisallowXRP : Z := 3.
Definition asfDisableMaster : Z := 4.
Definition asfAccountTxnID : Z := 5.
Definition asfNoFreeze : Z := 6.
Definition asfGlobalFreeze : Z := 7.
Definition asfDefaultRipple : Z := 8.
Definition asfDepositAuth : Z := 9.
