(* ===== verification/Invariants.v ===== *)
(** * Invariant checks

    Model of [src/src/ripple/app/tx/impl/InvariantCheck.cpp] and of
    [ApplyContext::checkInvariants] ([app/tx/impl/ApplyContext.cpp]).  Before the
    changes of a transaction are written to the ledger, every checker is shown each
    changed entry, before and after, and then has to agree.

    The checkers only see the changes, but what they are meant to guarantee is about
    the whole ledger.  [checks_sound] relates the two: if all of them agree then
    the XRP held by all entries of the ledger has gone down by exactly the fee, no
    account has disappeared, and so on. *)

From stdpp Require Import base numbers list gmap strings.
From Stdlib Require Import Lia ZArith.
From S2P Require Import Prelude XRPAmount Serializer STAmount StateTable SField STObject STObjectLaws Entry ApplyView TxBase.

Local Open Scope Z_scope.

(** ** Checkers *)

(** A class with [visitEntry] and [finalize]. *)
Record InvariantChecker : Type := mkChecker {
  ic_state : Type;
  ic_init : ic_state;
  visitEntry : bool → option (SLE STObject) → option (SLE STObject) → ic_state → outcome ic_state;
  finalize : STObject → TER → XRPAmount → ic_state → outcome bool }.

Definition when {A} (o : option A) (f : A → outcome bool) : outcome bool :=
  match o with Some a => f a | None => Ret false end.

(** [if (sle && sle->getType () == type) bad |= isBad (sle)]. *)
Definition bad_entry (type : Z) (isBad : STObject → outcome bool) (sle : option (SLE STObject)) :
    outcome bool :=
  when sle (λ s, if sle_type s =? type then isBad (sle_body s) else Ret false).

(** A checker that looks for bad entries, before and after. *)
Definition bad_checker (type : Z) (isBad : STObject → outcome bool) : InvariantChecker :=
  mkChecker bool false
    (λ _ before after bad_, b ← bad_entry type isBad before; a ← bad_entry type isBad after;
       Ret (bad_ || b || a))
    (λ _ _ _ bad_, Ret (negb bad_)).

Definition TransactionFeeCheck : InvariantChecker :=
  mkChecker () ()
    (λ _ _ _ s, Ret s)
    (λ tx _ fee _,
       if drops_ fee <? 0 then Ret false else
       if SYSTEM_CURRENCY_START <=? drops_ fee then Ret false else
       a ← getFieldAmount tx sfFee; limit ← xrp a;
       Ret (negb (xrp_lt limit fee))).

(** The XRP an entry holds, as both halves of [XRPNotCreated::visitEntry] compute it. *)
Definition entry_drops (sle : SLE STObject) : outcome Z :=
  let o := sle_body sle in
  if sle_type sle =? ltACCOUNT_ROOT then
    b ← get_at AmountC o sfBalance; x ← xrp b; Ret (drops_ x)
  else if sle_type sle =? ltPAYCHAN then
    a ← get_at AmountC o sfAmount; b ← get_at AmountC o sfBalance; d ← st_sub a b; x ← xrp d;
    Ret (drops_ x)
  else if sle_type sle =? ltESCROW then
    a ← get_at AmountC o sfAmount; x ← xrp a; Ret (drops_ x)
  else Ret 0.

Definition XRPNotCreated_visitEntry (isDelete : bool) (before after : option (SLE STObject)) (drops : Z) :
    outcome Z :=
  drops ← match before with
          | Some s => d ← entry_drops s; Ret (i64 (drops - d))
          | None => Ret drops
          end;
  match after with
  | Some s =>
    if isDelete && ((sle_type s =? ltPAYCHAN) || (sle_type s =? ltESCROW)) then Ret drops
    else d ← entry_drops s; Ret (i64 (drops + d))
  | None => Ret drops
  end.

Definition XRPNotCreated : InvariantChecker :=
  mkChecker Z 0 XRPNotCreated_visitEntry
    (λ _ _ fee drops,
       if 0 <? drops then Ret false
       else if negb (i64 (- drops) =? drops_ fee) then Ret false
       else Ret true).

Definition XRPBalance_isBad (o : STObject) : outcome bool :=
  balance ← get_at AmountC o sfBalance;
  if negb (mIsNative balance) then Ret true else
  x ← xrp balance;
  Ret ((SYSTEM_CURRENCY_START <? drops_ x) || (drops_ x <? 0)).
Definition XRPBalanceChecks : InvariantChecker := bad_checker ltACCOUNT_ROOT XRPBalance_isBad.

Definition Offer_isBad (o : STObject) : outcome bool :=
  pays ← get_at AmountC o sfTakerPays;
  gets ← get_at AmountC o sfTakerGets;
  if st_signum pays <? 0 then Ret true else
  if st_signum gets <? 0 then Ret true else
  Ret (mIsNative pays && mIsNative gets).
Definition NoBadOffers : InvariantChecker := bad_checker ltOFFER Offer_isBad.

Definition Escrow_isBad (o : STObject) : outcome bool :=
  amount ← get_at AmountC o sfAmount;
  if negb (mIsNative amount) then Ret true else
  x ← xrp amount;
  Ret ((drops_ x <=? 0) || (SYSTEM_CURRENCY_START <=? drops_ x)).
Definition NoZeroEscrow : InvariantChecker := bad_checker ltESCROW Escrow_isBad.

Definition is_type (type : Z) (sle : option (SLE STObject)) : bool :=
  match sle with Some s => sle_type s =? type | None => false end.

Definition AccountRootsNotDeleted : InvariantChecker :=
  mkChecker bool false
    (λ isDelete before _ accountDeleted_,
       Ret (accountDeleted_ || (isDelete && is_type ltACCOUNT_ROOT before)))
    (λ _ _ _ accountDeleted_, Ret (negb accountDeleted_)).

Definition valid_types : list Z :=
  [ltACCOUNT_ROOT; ltDIR_NODE; ltRIPPLE_STATE; ltTICKET; ltSIGNER_LIST; ltOFFER; ltLEDGER_HASHES;
   ltAMENDMENTS; ltFEE_SETTINGS; ltESCROW; ltPAYCHAN; ltCHECK; ltDEPOSIT_PREAUTH].

Definition LedgerEntryTypesMatch : InvariantChecker :=
  mkChecker (bool * bool) (false, false)
    (λ _ before after '(typeMismatch_, invalidTypeAdded_),
       Ret (typeMismatch_ || match before, after with
                             | Some b, Some a => negb (sle_type b =? sle_type a)
                             | _, _ => false
                             end,
            invalidTypeAdded_ || match after with
                                 | Some a => bool_decide (sle_type a ∉ valid_types)
                                 | None => false
                                 end))
    (λ _ _ _ '(typeMismatch_, invalidTypeAdded_), Ret (negb typeMismatch_ && negb invalidTypeAdded_)).

(** [compare] of issues, as in [protocol/impl/Issue.cpp]: the issuer of XRP is ignored. *)
Definition issue_eq (lhs rhs : Issue) : bool :=
  (currency lhs =? currency rhs) && (isXRP (currency lhs) || (account lhs =? account rhs)).

(** The flag is assigned, not accumulated: the last trust line decides. *)
Definition NoXRPTrustLines : InvariantChecker :=
  mkChecker bool false
    (λ _ _ after xrpTrustLine_,
       match after with
       | Some s =>
         if sle_type s =? ltRIPPLE_STATE then
           low ← getFieldAmount (sle_body s) sfLowLimit;
           if issue_eq (mIssue low) xrpIssue then Ret true
           else high ← getFieldAmount (sle_body s) sfHighLimit;
                Ret (issue_eq (mIssue high) xrpIssue)
         else Ret xrpTrustLine_
       | None => Ret xrpTrustLine_
       end)
    (λ _ _ _ xrpTrustLine_, Ret (negb xrpTrustLine_)).

(** Two checkers side by side, as the tuple [InvariantChecks] has them. *)
Definition both (a b : InvariantChecker) : InvariantChecker :=
  mkChecker (ic_state a * ic_state b) (ic_init a, ic_init b)
    (λ del before after '(s, t),
       s ← visitEntry a del before after s; t ← visitEntry b del before after t; Ret (s, t))
    (λ tx ter fee '(s, t), x ← finalize a tx ter fee s; y ← finalize b tx ter fee t; Ret (x && y)).

Definition InvariantChecks : InvariantChecker :=
  both TransactionFeeCheck (both AccountRootsNotDeleted (both LedgerEntryTypesMatch
    (both XRPBalanceChecks (both XRPNotCreated (both NoXRPTrustLines (both NoBadOffers NoZeroEscrow)))))).

(** What [ApplyStateTable::visit] shows. *)
Abbreviation change := (Z * bool * option (SLE STObject) * option (SLE STObject))%type.

Fixpoint visit_all (c : InvariantChecker) (vs : list change) (s : ic_state c) : outcome (ic_state c) :=
  match vs with
  | [] => Ret s
  | (_, del, before, after) :: vs => s ← visitEntry c del before after s; visit_all c vs s
  end.

Definition run_checker (c : InvariantChecker) (vs : list change) (tx : STObject) (ter : TER)
    (fee : XRPAmount) : outcome bool :=
  s ← visit_all c vs (ic_init c); finalize c tx ter fee s.

Definition failInvariantCheck (result : TER) : TER :=
  if (result =? tecINVARIANT_FAILED) || (result =? tefINVARIANT_FAILED)
  then tefINVARIANT_FAILED else tecINVARIANT_FAILED.

(** [ApplyContext::checkInvariants]; an exception counts as a failed check. *)
Definition checkInvariants (rules : Rules) (vs : list change) (tx : STObject) (result : TER)
    (fee : XRPAmount) : TER :=
  if enabled rules featureEnforceInvariants then
    match run_checker InvariantChecks vs tx result fee with
    | Ret true => result
    | _ => failInvariantCheck result
    end
  else result.

(** ** What passing the checks means *)

Lemma visit_both a b vs s t s' t' :
  visit_all (both a b) vs (s, t) = Ret (s', t') ↔
  visit_all a vs s = Ret s' ∧ visit_all b vs t = Ret t'.
Proof.
  revert s t. induction vs as [|[[[k del] x] y] vs IH]; intros s t.
  - cbn. split; [by intros [= -> ->]|by intros [[= ->] [= ->]]].
  - cbn. destruct (visitEntry a del x y s) as [s1|]; cbn; [|split; [done|by intros [? _]]].
    destruct (visitEntry b del x y t) as [t1|]; cbn; [apply IH|split; [done|by intros [_ ?]]].
Qed.

(** All checkers of a pair have to agree. *)
Lemma run_both a b vs tx ter fee :
  run_checker (both a b) vs tx ter fee = Ret true ↔
  run_checker a vs tx ter fee = Ret true ∧ run_checker b vs tx ter fee = Ret true.
Proof.
  unfold run_checker. pose proof (visit_both a b vs (ic_init a) (ic_init b)) as Hv.
  destruct (visit_all (both a b) vs (ic_init (both a b))) as [[s t]|e] eqn:E.
  - destruct (Hv s t) as [H _]. destruct (H E) as [-> ->]. cbn.
    destruct (finalize a tx ter fee s) as [x|]; cbn; [|split; [done|by intros [? _]]].
    destruct (finalize b tx ter fee t) as [y|]; cbn; [|split; [done|by intros [_ ?]]].
    destruct x, y; cbn; intuition congruence.
  - split; [done|]. intros [Ha Hb].
    destruct (visit_all a vs (ic_init a)) as [s|] eqn:Ea; [|done].
    destruct (visit_all b vs (ic_init b)) as [t|] eqn:Eb; [|done].
    destruct (Hv s t) as [_ H]. cbn in *. by rewrite H in E.
Qed.

(** A checker that accumulates what it finds has found nothing in any of the changes. *)
Lemma visit_none (c : InvariantChecker) (flag : ic_state c → bool)
    (P : bool → option (SLE STObject) → option (SLE STObject) → bool) vs s s' :
  (∀ del x y t t', visitEntry c del x y t = Ret t' → flag t' = flag t || P del x y) →
  visit_all c vs s = Ret s' → flag s' = false →
  flag s = false ∧ ∀ k del x y, (k, del, x, y) ∈ vs → P del x y = false.
Proof.
  intros Hstep. revert s. induction vs as [|[[[k del] x] y] vs IH]; intros s; cbn.
  - intros [= ->] Hf. split; [done|]. by intros ? ? ? ? ?%elem_of_nil.
  - destruct (visitEntry c del x y s) as [s1|] eqn:E; [|done]. cbn. intros Hv Hf.
    destruct (IH s1 Hv Hf) as [H1 Hall]. rewrite (Hstep _ _ _ _ _ E) in H1.
    apply orb_false_iff in H1 as [Hs HP]. split; [done|].
    intros k' del' x' y' [[= -> -> -> ->]|Hin]%elem_of_cons; [done|by eapply Hall].
Qed.

(** [isBad] says no, without an exception. *)
Definition fine (type : Z) (isBad : STObject → outcome bool) (sle : option (SLE STObject)) : Prop :=
  ∀ s, sle = Some s → sle_type s = type → isBad (sle_body s) = Ret false.

Lemma bad_entry_fine type isBad sle : bad_entry type isBad sle = Ret false → fine type isBad sle.
Proof. intros H s -> Ht. cbn in H. by rewrite Ht, Z.eqb_refl in H. Qed.

Lemma bad_checker_fine type isBad vs tx ter fee :
  run_checker (bad_checker type isBad) vs tx ter fee = Ret true →
  ∀ k del x y, (k, del, x, y) ∈ vs → fine type isBad x ∧ fine type isBad y.
Proof.
  assert (Hgen : ∀ vs s s', visit_all (bad_checker type isBad) vs s = Ret s' → s' = false → s = false ∧
    ∀ k del x y, (k, del, x, y) ∈ vs → fine type isBad x ∧ fine type isBad y).
  { clear vs. intros vs. induction vs as [|[[[k del] x] y] vs IH]; intros s s'; cbn.
    - intros [= ->] ->. split; [done|]. by intros ? ? ? ? ?%elem_of_nil.
    - destruct (bad_entry type isBad x) as [b|] eqn:Ex; [|done]. cbn.
      destruct (bad_entry type isBad y) as [a|] eqn:Ey; [|done]. cbn. intros Hv ->.
      destruct (IH _ _ Hv eq_refl) as [H1 Hall].
      rewrite !orb_false_iff in H1. destruct H1 as [[-> ->] ->]. split; [done|].
      intros k' del' x' y' [[= -> -> -> ->]|Hin]%elem_of_cons; [|by eapply Hall].
      split; by apply bad_entry_fine. }
  unfold run_checker. destruct (visit_all _ vs _) as [s'|] eqn:E; [|done].
  cbn. intros [= Hn%negb_true_iff]. by eapply Hgen.
Qed.

(** *** The XRP in the ledger *)

(** What an entry holds, and what all entries hold. *)
Definition held (sle : SLE STObject) : Z := match entry_drops sle with Ret d => d | Throw _ => 0 end.
Definition heldo (sle : option (SLE STObject)) : Z := match sle with Some s => held s | None => 0 end.
Definition xrp_total (m : gmap Z (SLE STObject)) : Z := sum (λ x, held x.2) (map_to_list m).

Lemma xrp_total_insert m k s : xrp_total (<[k := s]> m) = xrp_total m - heldo (m !! k) + held s.
Proof.
  assert (Hnew : ∀ m' s', m' !! k = None → xrp_total (<[k := s']> m') = xrp_total m' + held s').
  { intros m' s' Hk. unfold xrp_total.
    rewrite (sum_perm _ _ _ (map_to_list_insert m' k s' Hk)), sum_cons. cbn. lia. }
  destruct (m !! k) as [s0|] eqn:Hk; cbn; [|rewrite Hnew by done; lia].
  rewrite <- (insert_delete_id m k s0 Hk) at 2. rewrite <- insert_delete_eq, !Hnew by apply lookup_delete_eq.
  lia.
Qed.

Lemma xrp_total_delete m k : xrp_total (delete k m) = xrp_total m - heldo (m !! k).
Proof.
  destruct (m !! k) as [s|] eqn:Hk; cbn; [|rewrite delete_id by done; lia].
  rewrite <- (insert_delete_id m k s Hk) at 2. rewrite xrp_total_insert, lookup_delete_eq. cbn. lia.
Qed.

(** The total over a table differs from that of its base by what the items change. *)
Lemma xrp_total_overlay {A} (eff : A → effect) h m items :
  xrp_total (overlay eff h m items) =
  xrp_total m + sum (λ x, heldo (shown eff h (Some x.2) (m !! x.1)) - heldo (m !! x.1)) (in_order items).
Proof.
  rewrite (sum_perm _ _ _ (in_order_perm items)).
  induction items as [|k i items Hk IH] using map_ind.
  - rewrite map_to_list_empty. cbn. replace (overlay eff h m ∅) with m; [lia|].
    apply map_eq. intros k. rewrite lookup_overlay. by rewrite lookup_empty.
  - rewrite (sum_perm _ _ _ (map_to_list_insert items k i Hk)), sum_cons. cbn [fst snd].
    assert (Hov : overlay eff h m items !! k = m !! k) by (by rewrite lookup_overlay, Hk).
    assert (Hput : ∀ k', k' ≠ k → overlay eff h m (<[k := i]> items) !! k' = overlay eff h m items !! k').
    { intros k' Hne. by rewrite !lookup_overlay, lookup_insert_ne. }
    pose proof (lookup_overlay eff h m (<[k := i]> items) k) as Hi. rewrite lookup_insert_eq in Hi.
    destruct (shown eff h (Some i) (m !! k)) as [s|] eqn:Es; cbn [heldo].
    + replace (overlay eff h m (<[k := i]> items)) with (<[k := s]> (overlay eff h m items)).
      { rewrite xrp_total_insert, Hov, IH. lia. }
      apply map_eq. intros k'. destruct (decide (k' = k)) as [->|]; [by rewrite lookup_insert_eq, Hi|].
      by rewrite lookup_insert_ne, Hput.
    + replace (overlay eff h m (<[k := i]> items)) with (delete k (overlay eff h m items)).
      { rewrite xrp_total_delete, Hov, IH. lia. }
      apply map_eq. intros k'. destruct (decide (k' = k)) as [->|]; [by rewrite lookup_delete_eq, Hi|].
      by rewrite lookup_delete_ne, Hput.
Qed.

(** *** The count of [XRPNotCreated] *)

(** What the checker adds to its count for a change. *)
Definition counted (v : change) : Z :=
  let '(_, del, before, after) := v in
  (if del && (is_type ltPAYCHAN after || is_type ltESCROW after) then 0 else heldo after) - heldo before.

Lemma entry_drops_held s d : entry_drops s = Ret d → held s = d.
Proof. unfold held. by intros ->. Qed.

Lemma visit_counted v drops drops' :
  let '(_, del, before, after) := v in XRPNotCreated_visitEntry del before after drops = Ret drops' →
  (drops' - (drops + counted v)) `mod` 2 ^ 64 = 0.
Proof.
  destruct v as [[[k del] x] y]. unfold XRPNotCreated_visitEntry, counted.
  destruct x as [x|]; [destruct (entry_drops x) as [dx|] eqn:Ex; [|done]; apply entry_drops_held in Ex|];
    (destruct y as [y|]; [|intros [= <-]]); cbn;
    try (destruct (del && _); [intros [= <-]|
      destruct (entry_drops y) as [dy|] eqn:Ey; [|done]; apply entry_drops_held in Ey; intros [= <-]]);
    rewrite ?andb_false_r; unfold i64; div_lia.
Qed.

Lemma visit_all_counted vs drops drops' :
  visit_all XRPNotCreated vs drops = Ret drops' → (drops' - (drops + sum counted vs)) `mod` 2 ^ 64 = 0.
Proof.
  revert drops. induction vs as [|v vs IH]; intros drops.
  - cbn. intros [= ->]. by rewrite Z.add_0_r, Z.sub_diag.
  - pose proof (visit_counted v drops) as Hv. destruct v as [[[k del] x] y].
    cbn [visit_all visitEntry XRPNotCreated]. destruct (XRPNotCreated_visitEntry del x y drops) as [d|]; [|done].
    cbn [mbind outcome_bind]. intros H%IH. specialize (Hv d eq_refl). rewrite sum_cons.
    replace (drops' - (drops + (counted (k, del, x, y) + sum counted vs)))
      with (drops' - (d + sum counted vs) + (d - (drops + counted (k, del, x, y)))) by lia.
    by rewrite Z.add_mod, H, Hv by done.
Qed.

(** *** The changes of a table *)

Section Table.
Context (base : ReadView STObject) (m : gmap Z (SLE STObject)) `{!ViewOf base m}.
Context (h : heap STObject) (t : Apply.ApplyStateTable) (Hok : ApplyProofs.ok h m t).
Local Abbreviation changes := (Apply.ap_visit base h t).
Local Abbreviation m' := (ApplyProofs.state h m t).

Lemma read_base k : rv_read base (unchecked k) = m !! k.
Proof using ViewOf0. rewrite vo_read. unfold lookup_kl. cbn. by destruct (m !! k). Qed.

(** Every change of the table is shown to the checkers, as it is. *)
Lemma change_shown k :
  (m' !! k = m !! k) ∨
  (∃ s, (k, false, m !! k, Some s) ∈ changes ∧ m' !! k = Some s) ∨
  (∃ s p, m !! k = Some s ∧ (k, true, Some s, deref h p) ∈ changes ∧ m' !! k = None).
Proof using ViewOf0 Hok.
  destruct Hok as [Hi Hc]. unfold ApplyProofs.state. rewrite lookup_overlay.
  destruct (Apply.items_ t !! k) as [[a p]|] eqn:E; [|by left].
  pose proof (proj2 (elem_of_in_order _ _ _) E) as Hin. destruct (Hi k _ E) as (_ & Hs & Hins).
  assert (Hch : ∀ v, (match a with
    | Apply.cache => None
    | Apply.erase => Some (k, true, rv_read base (unchecked k), deref h p)
    | Apply.insert => Some (k, false, None, deref h p)
    | Apply.modify => Some (k, false, rv_read base (unchecked k), deref h p)
    end) = Some v → v ∈ changes).
  { intros v Hv. unfold Apply.ap_visit. apply list_elem_of_omap. by exists (k, (a, p)). }
  rewrite read_base in Hch. destruct a; cbn in *.
  - left. exact (Hc k _ E eq_refl).
  - right; right. destruct (m !! k) as [s|] eqn:Em; [|by destruct Hins as [_ H]; specialize (H eq_refl)].
    exists s, p. auto.
  - right; left. destruct (Hs ltac:(done)) as (s & Hd & _). rewrite Hd in *. exists s.
    rewrite (proj1 Hins eq_refl). auto.
  - right; left. destruct (Hs ltac:(done)) as (s & Hd & _). rewrite Hd in *. exists s. auto.
Qed.

(** The count is the change of the total, as long as no account root is deleted and no entry
    changes its type. *)
Lemma counted_total :
  (∀ k del x y, (k, del, x, y) ∈ changes → (del && is_type ltACCOUNT_ROOT x) = false) →
  (∀ k del x y, (k, del, Some x, Some y) ∈ changes → sle_type x = sle_type y) →
  sum counted changes = xrp_total m' - xrp_total m.
Proof using ViewOf0 Hok.
  intros Hdel Hty. unfold ApplyProofs.state. rewrite xrp_total_overlay. unfold Apply.ap_visit in *.
  rewrite sum_omap. match goal with |- ?a = _ + ?b - _ => cut (a = b); [lia|] end.
  apply sum_ext. intros [k [a p]] Hin. destruct Hok as [Hi Hc].
  pose proof (proj1 (elem_of_in_order _ _ _) Hin) as E. destruct (Hi k _ E) as (_ & _ & Hins).
  cbn in Hins. destruct a; cbn; rewrite ?read_base.
  - pose proof (Hc k _ E eq_refl) as Hd. cbn in Hd. rewrite Hd. lia.
  - destruct (m !! k) as [s|] eqn:Em; [|by destruct Hins as [_ H]; specialize (H eq_refl)].
    assert (Hch : (k, true, Some s, deref h p) ∈ changes).
    { apply list_elem_of_omap. exists (k, (Apply.erase, p)). cbn. by rewrite read_base, Em. }
    specialize (Hdel _ _ _ _ Hch). cbn in *. destruct (deref h p) as [y|]; cbn; [|lia].
    specialize (Hty _ _ _ _ Hch). rewrite Hty in Hdel.
    destruct (sle_type y =? ltPAYCHAN) eqn:E1, (sle_type y =? ltESCROW) eqn:E2; cbn; try lia.
    unfold held, entry_drops. rewrite Hdel, E1, E2. lia.
  - rewrite (proj1 Hins eq_refl). cbn. lia.
  - lia.
Qed.
End Table.

(** *** Soundness *)

(** The amount in a field is a number of drops. *)
Definition drops_in (o : STObject) (f : SField) (d : Z) : Prop :=
  ∃ a, get_at AmountC o f = Ret a ∧ xrp a = Ret (mkXRP d).

(** What is guaranteed of an entry that was added or changed. *)
Record entry_checked (s : SLE STObject) : Prop := {
  chk_type : sle_type s ∈ valid_types;
  chk_account : sle_type s = ltACCOUNT_ROOT →
    ∃ d, drops_in (sle_body s) sfBalance d ∧ 0 ≤ d ≤ SYSTEM_CURRENCY_START;
  chk_escrow : sle_type s = ltESCROW →
    ∃ d, drops_in (sle_body s) sfAmount d ∧ 0 < d < SYSTEM_CURRENCY_START;
  chk_offer : sle_type s = ltOFFER →
    ∃ pays gets, get_at AmountC (sle_body s) sfTakerPays = Ret pays ∧
      get_at AmountC (sle_body s) sfTakerGets = Ret gets ∧ 0 ≤ st_signum pays ∧ 0 ≤ st_signum gets ∧
      (mIsNative pays && mIsNative gets) = false }.

(** What is guaranteed of a ledger whose changes have been checked. *)
Record ledger_checked (m m' : gmap Z (SLE STObject)) (tx : STObject) (fee : Z) : Prop := {
  lc_fee : 0 ≤ fee < SYSTEM_CURRENCY_START;
  lc_fee_tx : ∃ a limit, getFieldAmount tx sfFee = Ret a ∧ xrp a = Ret limit ∧ fee ≤ drops_ limit;
  lc_total : (xrp_total m' - (xrp_total m - fee)) `mod` 2 ^ 64 = 0;
  lc_total_exact : 0 ≤ xrp_total m ≤ SYSTEM_CURRENCY_START → 0 ≤ xrp_total m' < 2 ^ 63 →
    xrp_total m' = xrp_total m - fee;
  lc_accounts k s : m !! k = Some s → sle_type s = ltACCOUNT_ROOT → is_Some (m' !! k);
  lc_types k s s' : m !! k = Some s → m' !! k = Some s' → sle_type s' = sle_type s;
  lc_entries k s : m' !! k = Some s → m !! k = Some s ∨ entry_checked s }.

Lemma balance_fine s :
  fine ltACCOUNT_ROOT XRPBalance_isBad (Some s) → sle_type s = ltACCOUNT_ROOT →
  ∃ d, drops_in (sle_body s) sfBalance d ∧ 0 ≤ d ≤ SYSTEM_CURRENCY_START.
Proof.
  intros H Ht. specialize (H s eq_refl Ht). unfold XRPBalance_isBad in H.
  destruct (get_at AmountC (sle_body s) sfBalance) as [a|] eqn:Ea; [|done]. cbn [mbind outcome_bind] in H.
  destruct (mIsNative a); [|done]. cbn [negb] in H. destruct (xrp a) as [[d]|] eqn:Ex; [|done].
  injection H as [H1%Z.ltb_ge H2%Z.ltb_ge]%orb_false_iff. exists d. split; [by exists a|done].
Qed.

Lemma escrow_fine s :
  fine ltESCROW Escrow_isBad (Some s) → sle_type s = ltESCROW →
  ∃ d, drops_in (sle_body s) sfAmount d ∧ 0 < d < SYSTEM_CURRENCY_START.
Proof.
  intros H Ht. specialize (H s eq_refl Ht). unfold Escrow_isBad in H.
  destruct (get_at AmountC (sle_body s) sfAmount) as [a|] eqn:Ea; [|done]. cbn [mbind outcome_bind] in H.
  destruct (mIsNative a); [|done]. cbn [negb] in H. destruct (xrp a) as [[d]|] eqn:Ex; [|done].
  injection H as [H1%Z.leb_gt H2%Z.leb_gt]%orb_false_iff. exists d. split; [by exists a|done].
Qed.

Lemma offer_fine s :
  fine ltOFFER Offer_isBad (Some s) → sle_type s = ltOFFER →
  ∃ pays gets, get_at AmountC (sle_body s) sfTakerPays = Ret pays ∧
    get_at AmountC (sle_body s) sfTakerGets = Ret gets ∧ 0 ≤ st_signum pays ∧ 0 ≤ st_signum gets ∧
    (mIsNative pays && mIsNative gets) = false.
Proof.
  intros H Ht. specialize (H s eq_refl Ht). unfold Offer_isBad in H.
  destruct (get_at AmountC (sle_body s) sfTakerPays) as [p|]; [|done]. cbn [mbind outcome_bind] in H.
  destruct (get_at AmountC (sle_body s) sfTakerGets) as [g|]; [|done]. cbn [mbind outcome_bind] in H.
  destruct (Z.ltb_spec (st_signum p) 0); [done|]. destruct (Z.ltb_spec (st_signum g) 0); [done|].
  injection H as H. by exists p, g.
Qed.

(** The invariants of [AccountRootsNotDeleted] and of [LedgerEntryTypesMatch]. *)
Lemma accounts_fine vs tx ter fee :
  run_checker AccountRootsNotDeleted vs tx ter fee = Ret true →
  ∀ k del x y, (k, del, x, y) ∈ vs → (del && is_type ltACCOUNT_ROOT x) = false.
Proof.
  unfold run_checker. destruct (visit_all _ vs _) as [s'|] eqn:E; [|done]. cbn.
  intros [= Hn%negb_true_iff].
  eapply (visit_none AccountRootsNotDeleted (λ s, s) (λ del x _, del && is_type ltACCOUNT_ROOT x));
    [|exact E|done]. by intros del x y t t' [= <-].
Qed.

Lemma types_fine vs tx ter fee :
  run_checker LedgerEntryTypesMatch vs tx ter fee = Ret true →
  (∀ k del x y, (k, del, Some x, Some y) ∈ vs → sle_type x = sle_type y) ∧
  (∀ k del x y, (k, del, x, Some y) ∈ vs → sle_type y ∈ valid_types).
Proof.
  unfold run_checker. destruct (visit_all _ vs _) as [[s1 s2]|] eqn:E; [|done].
  cbn. intros [= [H1%negb_true_iff H2%negb_true_iff]%andb_true_iff].
  destruct (visit_none LedgerEntryTypesMatch fst (λ _ b a, match b, a with
    | Some b, Some a => negb (sle_type b =? sle_type a) | _, _ => false end) _ _ _
    ltac:(by intros ? ? ? [] ? [= <-]) E H1) as [_ Hm].
  destruct (visit_none LedgerEntryTypesMatch snd (λ _ _ a, match a with
    | Some a => bool_decide (sle_type a ∉ valid_types) | None => false end) _ _ _
    ltac:(by intros ? ? ? [] ? [= <-]) E H2) as [_ Hv].
  split; intros k del x y Hin.
  - specialize (Hm _ _ _ _ Hin). by apply negb_false_iff, Z.eqb_eq in Hm.
  - specialize (Hv _ _ _ _ Hin). apply bool_decide_eq_false in Hv. by apply dec_stable.
Qed.

(** Passing all checks. *)
Lemma checks_sound base m `{!ViewOf base m} h t tx ter fee :
  ApplyProofs.ok h m t →
  run_checker InvariantChecks (Apply.ap_visit base h t) tx ter fee = Ret true →
  ledger_checked m (ApplyProofs.state h m t) tx (drops_ fee).
Proof.
  intros Hok Hrun. unfold InvariantChecks in Hrun. rewrite !run_both in Hrun.
  destruct Hrun as (Hfee & Hacc & Hty & Hbal & Hxrp & _ & Hoff & Hesc).
  pose proof (accounts_fine _ _ _ _ Hacc) as Hdel. pose proof (types_fine _ _ _ _ Hty) as [Hmatch Hvalid].
  pose proof (counted_total base m h t Hok Hdel Hmatch) as Hcount.
  unfold run_checker in Hfee, Hxrp. cbn [visit_all] in Hfee.
  assert (Hf : 0 ≤ drops_ fee < SYSTEM_CURRENCY_START ∧
    ∃ a limit, getFieldAmount tx sfFee = Ret a ∧ xrp a = Ret limit ∧ drops_ fee ≤ drops_ limit).
  { destruct (visit_all TransactionFeeCheck _ _) as [u|]; [|done]. cbn [mbind outcome_bind finalize TransactionFeeCheck] in Hfee.
    destruct (Z.ltb_spec (drops_ fee) 0); [done|].
    destruct (Z.leb_spec SYSTEM_CURRENCY_START (drops_ fee)); [done|]. split; [lia|].
    destruct (getFieldAmount tx sfFee) as [a|]; [|done]. cbn [mbind outcome_bind] in Hfee.
    destruct (xrp a) as [l|] eqn:El; [|done]. injection Hfee as Hl%negb_true_iff%Z.ltb_ge. eauto 6. }
  assert (Htot : (xrp_total (ApplyProofs.state h m t) - (xrp_total m - drops_ fee)) `mod` 2 ^ 64 = 0).
  { destruct (visit_all XRPNotCreated _ _) as [d|] eqn:E; [|done]. apply visit_all_counted in E.
    cbn [mbind outcome_bind finalize XRPNotCreated ic_init] in *. rewrite Hcount in E.
    destruct (0 <? d); [done|]. destruct (Z.eqb_spec (i64 (- d)) (drops_ fee)) as [Hd|]; [|done].
    unfold i64 in Hd. clear -E Hd. div_lia. }
  split.
  - apply Hf.
  - apply Hf.
  - done.
  - intros H1 H2. destruct Hf as [Hf _]. unfold SYSTEM_CURRENCY_START in *. clear -Htot H1 H2 Hf. div_lia.
  - intros k s Hs Ht. destruct (change_shown base m h t Hok k) as [->|[(s' & _ & ->)|(s' & p & E & Hin & _)]];
      [eauto|eauto|]. rewrite Hs in E. injection E as <-. specialize (Hdel _ _ _ _ Hin). cbn in Hdel.
    by rewrite Ht in Hdel.
  - intros k s s' Hs Hs'. destruct (change_shown base m h t Hok k) as [E|[(s1 & Hin & E)|(s1 & p & E & Hin & ?)]];
      [congruence| |congruence]. rewrite Hs in Hin. rewrite Hs' in E. injection E as <-. symmetry. by eapply Hmatch.
  - intros k s Hs. destruct (change_shown base m h t Hok k) as [E|[(s1 & Hin & E)|(s1 & p & E & Hin & ?)]];
      [left; congruence| |congruence]. right. rewrite Hs in E. injection E as <-.
    split; [by eapply Hvalid|apply balance_fine|apply escrow_fine|apply offer_fine].
    + apply (bad_checker_fine _ _ _ _ _ _ Hbal _ _ _ _ Hin).
    + apply (bad_checker_fine _ _ _ _ _ _ Hesc _ _ _ _ Hin).
    + apply (bad_checker_fine _ _ _ _ _ _ Hoff _ _ _ _ Hin).
Qed.

Lemma checks_committed base m `{!ViewOf base m} h t tx ter fee :
  items_ok ApplyProofs.eff h m (Apply.items_ t) →
  run_checker InvariantChecks (Apply.ap_visit base h t) tx ter fee = Ret true →
  ledger_checked m (committed h m t) tx (drops_ fee).
Proof.
  intros Hok Hrun. rewrite <- without_cache_visit in Hrun.
  exact (checks_sound base m h (without_cache t) tx ter fee (without_cache_ok _ _ _ Hok) Hrun).
Qed.

Lemma checkInvariants_passed rules vs tx result fee :
  enabled rules featureEnforceInvariants = true → checkInvariants rules vs tx result fee = result →
  result ≠ tefINVARIANT_FAILED → run_checker InvariantChecks vs tx result fee = Ret true.
Proof.
  unfold checkInvariants, failInvariantCheck. intros ->.
  destruct (run_checker _ vs tx result fee) as [[]|]; [done|..];
    destruct (Z.eqb_spec result tecINVARIANT_FAILED), (Z.eqb_spec result tefINVARIANT_FAILED); cbn;
    congruence.
Qed.

(** C10: the invariant checks see only the entries a transaction changes, and yet if they let it
    pass, the XRP held by the whole ledger has gone down by exactly the fee (modulo
    the 64 bits of the counter, and exactly if both totals are in range), the fee is
    in range and not more than the transaction offers, no account has been deleted, no
    entry has changed its type, and all new and changed accounts, escrows and offers
    are sane. *)
Theorem invariants_sound (base : ReadView STObject) (m : gmap Z (SLE STObject)) (h : heap STObject)
    (t : Apply.ApplyStateTable) (rules : Rules) (tx : STObject) (result : TER) (fee : XRPAmount)
    (Hb : ViewOf base m) (Hok : items_ok ApplyProofs.eff h m (Apply.items_ t))
    (Hon : enabled rules featureEnforceInvariants = true) (Hnot : result ≠ tefINVARIANT_FAILED)
    (Hpass : checkInvariants rules (Apply.ap_visit base h t) tx result fee = result) :
  ledger_checked m (committed h m t) tx (drops_ fee).
Proof. apply (checks_committed base m h t tx result fee Hok). by eapply checkInvariants_passed. Qed.

(** *** Examples *)

Definition sample_account (drops : Z) : SLE STObject :=
  mkSLE 1 ltACCOUNT_ROOT (set AmountC sfBalance (st_native drops false) (new_body ltACCOUNT_ROOT)).
Definition sample_fee_tx : STObject := mkObject None [(sfFee, Amount (st_native 10 false))].
Definition sample_heap : heap STObject := {[1%positive := sample_account 90]}.
Definition sample_table : Apply.ApplyStateTable :=
  Apply.mkApply {[1 := (Apply.modify, mkPtr 1 1)]} xrp_zero.

(** An account pays a fee of 10 drops out of 100. *)
Lemma invariants_sound_witness :
  xrp_total (committed sample_heap {[1 := sample_account 100]} sample_table) = 90 ∧
  xrp_total {[1 := sample_account 100]} = 100.
Proof.
  assert (H100 : xrp_total {[1 := sample_account 100]} = 100) by (vm_compute; reflexivity).
  split; [|exact H100].
  assert (Hc : ledger_checked {[1 := sample_account 100]}
    (committed sample_heap {[1 := sample_account 100]} sample_table) sample_fee_tx (drops_ (mkXRP 10))).
  { apply (invariants_sound (map_view {[1 := sample_account 100]}) {[1 := sample_account 100]}
      sample_heap sample_table (λ _, true) sample_fee_tx tesSUCCESS (mkXRP 10)).
    - exact (map_view_of _).
    - apply map_Forall_singleton. split_and!; [reflexivity| |split; discriminate].
      intros _. exists (sample_account 90). split; reflexivity.
    - reflexivity.
    - discriminate.
    - vm_compute. reflexivity. }
  pose proof (lc_total_exact _ _ _ _ Hc) as He. rewrite H100 in He.
  apply He; vm_compute; intuition discriminate.
Defined.

(** [NoXRPTrustLines] assigns its flag instead of accumulating it, so that a trust line in
    XRP goes unnoticed when another trust line is visited after it. *)
Definition sample_line (key : Z) (issue : Issue) : SLE STObject :=
  mkSLE key ltRIPPLE_STATE (mkObject None
    [(sfLowLimit, Amount (mkAmount issue 0 0 (isXRP (currency issue)) false));
     (sfHighLimit, Amount (mkAmount issue 0 0 (isXRP (currency issue)) false))]).

Lemma xrp_trust_line_missed :
  let vs l := (λ s, (sle_key s, false, None, Some s)) <$> l in
  let xrp_line := sample_line 1 xrpIssue in
  let usd_line := sample_line 2 (mkIssue 5 6) in
  run_checker NoXRPTrustLines (vs [xrp_line]) sample_fee_tx tesSUCCESS xrp_zero = Ret false ∧
  run_checker NoXRPTrustLines (vs [xrp_line; usd_line]) sample_fee_tx tesSUCCESS xrp_zero = Ret true.
Proof. split; reflexivity. Qed.
