(* ===== verification/Keys.v ===== *)
(** * Public keys and signatures

    Model of [src/src/ripple/protocol/impl/PublicKey.cpp]: the kinds of public keys, the
    checks that make the encoding of a signature unique, and [verify].  The curve
    arithmetic itself is not part of the repository's own code; [Class Crypto] lists
    the functions of the libraries that are called.

    An ECDSA signature is a pair of numbers (R, S) of which (R, G - S) is a twin that
    verifies too.  [canonical_unique] shows that the checks leave one string of
    bytes for both. *)

From stdpp Require Import base numbers list strings.
From Stdlib Require Import Lia ZArith.
From S2P Require Import Prelude Serializer STAmount StateTable Indexes.

Local Open Scope Z_scope.

Inductive KeyType : Type := secp256k1 | ed25519.

Definition publicKeyType (slice : list Z) : option KeyType :=
  if (length slice =? 33)%nat then
    match slice with
    | b :: _ => if b =? 0xED then Some ed25519
                else if (b =? 0x02) || (b =? 0x03) then Some secp256k1 else None
    | [] => None
    end
  else None.

(** ** Canonical signatures *)

(** [sigPart (buf)]: the number at the start of the buffer, and what follows it. *)
Definition sigPart (buf : list Z) : option (list Z * list Z) :=
  match buf with
  | t :: len :: buf =>
    if (length buf =? 0)%nat || negb (t =? 0x02) then None else
    if (Z.of_nat (length buf) <? len) || (len <? 1) || (33 <? len) then None else
    if negb (Z.land (nth 0 buf 0) 0x80 =? 0) then None else
    if (nth 0 buf 0 =? 0) && ((len =? 1) || (Z.land (nth 1 buf 0) 0x80 =? 0)) then None
    else Some (take (Z.to_nat len) buf, drop (Z.to_nat len) buf)
  | _ => None
  end.

Inductive ECDSACanonicality : Type := canonical | fullyCanonical.

(** The order of the group. *)
Definition G : Z := 0xFFFFFFFFFFFFFFFFFFFFFFFFFFFFFFFEBAAEDCE6AF48A03BBFD25E8CD0364141.

(** The numbers of a signature: <30><len>[<02><len r><r>][<02><len s><s>]. *)
Definition sigParts (sig : list Z) : option (list Z * list Z) :=
  match sig with
  | t :: len :: p =>
    if (Z.of_nat (length sig) <? 8) || (72 <? Z.of_nat (length sig)) then None else
    if negb (t =? 0x30) || negb (len =? Z.of_nat (length sig) - 2) then None else
    match sigPart p with
    | Some (r, p) =>
      match sigPart p with
      | Some (s, []) => Some (r, s)
      | _ => None
      end
    | None => None
    end
  | _ => None
  end.

Definition ecdsaCanonicality (sig : list Z) : option ECDSACanonicality :=
  match sigParts sig with
  | None => None
  | Some (r, s) =>
    let R := of_be r in
    let S := of_be s in
    if G <=? R then None else
    if G <=? S then None else
    let Sp := G - S in
    if Sp <? S then Some canonical else Some fullyCanonical
  end.

(** The order of the subgroup, big endian. *)
Definition Order : list Z :=
  [0x10; 0; 0; 0; 0; 0; 0; 0; 0; 0; 0; 0; 0; 0; 0; 0;
   0x14; 0xDE; 0xF9; 0xDE; 0xA2; 0xF7; 0x9C; 0xD6; 0x58; 0x12; 0x63; 0x1A; 0x5C; 0xF5; 0xD3; 0xED].

(** [std::lexicographical_compare]. *)
Fixpoint lexicographical_compare (a b : list Z) : bool :=
  match a, b with
  | _, [] => false
  | [], _ :: _ => true
  | x :: a, y :: b => if x <? y then true else if y <? x then false else lexicographical_compare a b
  end.

Definition ed25519Canonical (sig : list Z) : bool :=
  if negb (length sig =? 64)%nat then false
  else lexicographical_compare (reverse (drop 32 sig)) Order.

(** ** Verification *)

Class Crypto : Type := {
  ec_pubkey : Type;
  ec_signature : Type;
  ec_pubkey_parse : list Z → option ec_pubkey;
  ecdsa_signature_parse_der : list Z → option ec_signature;
  (** whether the signature was not normalized, and the normalized one *)
  ecdsa_signature_normalize : ec_signature → bool * ec_signature;
  ecdsa_verify : ec_signature → Z → ec_pubkey → bool;
  ed25519_sign_open : list Z → list Z → list Z → bool;
  ripesha : list Z → Z }.

Section Verify.
Context `{Hash : Sha512} `{Lib : Crypto}.

Definition calcAccountID (pk : list Z) : Z := ripesha pk.

Definition verifyDigest (publicKey : list Z) (digest : Z) (sig : list Z) (mustBeFullyCanonical : bool) :
    outcome bool :=
  match publicKeyType publicKey with
  | Some secp256k1 =>
    match ecdsaCanonicality sig with
    | None => Ret false
    | Some c =>
      let full := match c with fullyCanonical => true | canonical => false end in
      if mustBeFullyCanonical && negb full then Ret false else
      match ec_pubkey_parse publicKey with
      | None => Ret false
      | Some pubkey_imp =>
        match ecdsa_signature_parse_der sig with
        | None => Ret false
        | Some sig_imp =>
          if negb full then
            let '(r, sig_norm) := ecdsa_signature_normalize sig_imp in
            if negb r then Ret false else Ret (ecdsa_verify sig_norm digest pubkey_imp)
          else Ret (ecdsa_verify sig_imp digest pubkey_imp)
        end
      end
    end
  | _ => Throw (logic_error "sign: secp256k1 required for digest signing")
  end.

Definition verify (publicKey m sig : list Z) (mustBeFullyCanonical : bool) : outcome bool :=
  match publicKeyType publicKey with
  | Some secp256k1 => verifyDigest publicKey (sha512Half m) sig mustBeFullyCanonical
  | Some ed25519 =>
    if negb (ed25519Canonical sig) then Ret false
    else Ret (ed25519_sign_open m (drop 1 publicKey) sig)
  | None => Ret false
  end.
End Verify.

(** ** One encoding for each number *)

(** Bytes of a number that is not negative and not padded. *)
Definition minimal (l : list Z) : Prop :=
  Forall is_byte l ∧ ∃ b l', l = b :: l' ∧ b < 128 ∧ (b = 0 → ∃ c l2, l' = c :: l2 ∧ 128 ≤ c).

Lemma land_128 b : is_byte b → (Z.land b 0x80 =? 0) = (b <? 128).
Proof.
  intros Hb. assert (H : forallb (λ n, Bool.eqb (Z.land (Z.of_nat n) 0x80 =? 0) (Z.of_nat n <? 128)) (seq 0 256) = true)
    by (vm_compute; reflexivity).
  rewrite forallb_forall in H. specialize (H (Z.to_nat b)). unfold is_byte in Hb.
  rewrite Z2Nat.id in H by lia. apply Bool.eqb_prop, H. apply in_seq. lia.
Qed.

Lemma sigPart_spec buf l rest :
  Forall is_byte buf → sigPart buf = Some (l, rest) →
  buf = 2 :: Z.of_nat (length l) :: l ++ rest ∧ minimal l ∧ Forall is_byte rest.
Proof.
  intros Hb. destruct buf as [|t [|len buf]]; try done. unfold sigPart.
  apply Forall_cons in Hb as [Ht [Hlen Hb]%Forall_cons].
  destruct buf as [|b buf]; [done|]. cbn [length Nat.eqb orb].
  destruct (Z.eqb_spec t 2) as [->|]; [|done]. cbn [negb].
  destruct (Z.ltb_spec (Z.of_nat (S (length buf))) len); [done|].
  destruct (Z.ltb_spec len 1); [done|]. destruct (Z.ltb_spec 33 len); [done|]. cbn [orb nth].
  pose proof Hb as Hb'. apply Forall_cons in Hb as [Hb0 Hb].
  rewrite land_128 by done. destruct (Z.ltb_spec b 128); [|done]. cbn [negb].
  destruct (_ && _) eqn:E; [done|]. intros [= <- <-].
  assert (Hl : length (take (Z.to_nat len) (b :: buf)) = Z.to_nat len).
  { rewrite length_take. simpl. lia. }
  rewrite Hl, take_drop, Z2Nat.id by lia. split; [done|]. split; [split|by apply Forall_drop].
  - by apply Forall_take.
  - destruct (Z.to_nat len) as [|n] eqn:En; [lia|]. exists b, (take n buf). split; [done|]. split; [done|].
    intros ->. cbn in E. apply orb_false_iff in E as [E1 E2].
    destruct buf as [|c buf]; [cbn in *; destruct (Z.eqb_spec len 1); [done|lia]|].
    cbn [nth] in E2. rewrite land_128 in E2 by (by inversion Hb). apply Z.ltb_ge in E2.
    destruct n as [|n]; [destruct (Z.eqb_spec len 1); [done|lia]|]. by exists c, (take n buf).
Qed.

(** The number determines how many bytes there are. *)
Lemma minimal_bounds l :
  minimal l →
  128 * 256 ^ (Z.of_nat (length l) - 1) ≤ 256 * of_be l + 255 ∧
  of_be l < 128 * 256 ^ (Z.of_nat (length l) - 1).
Proof.
  intros (Hb & b & l' & -> & Hlt & Hz). apply Forall_cons in Hb as [Hb0 Hb].
  rewrite of_be_cons. pose proof (of_be_bound l' Hb) as Hl. simpl length.
  replace (Z.of_nat (S (length l')) - 1) with (Z.of_nat (length l')) by lia.
  set (p := 256 ^ Z.of_nat (length l')) in *. unfold is_byte in Hb0.
  assert (0 < p) by (apply Z.pow_pos_nonneg; lia). split; [|nia].
  destruct (decide (b = 0)) as [->|Hn]; [|nia].
  destruct (Hz eq_refl) as (c & l2 & -> & Hc). apply Forall_cons in Hb as [Hc0 Hb].
  rewrite of_be_cons. pose proof (of_be_bound l2 Hb). unfold p. simpl length.
  rewrite Nat2Z.inj_succ, Z.pow_succ_r by lia. nia.
Qed.

Lemma of_be_inj l1 l2 :
  length l1 = length l2 → Forall is_byte l1 → Forall is_byte l2 → of_be l1 = of_be l2 → l1 = l2.
Proof.
  revert l2. induction l1 as [|b1 l1 IH]; intros [|b2 l2] Hl H1 H2 He; try done.
  injection Hl as Hl. apply Forall_cons in H1 as [Hb1 H1]. apply Forall_cons in H2 as [Hb2 H2].
  rewrite !of_be_cons, Hl in He. pose proof (of_be_bound l1 H1) as B1. pose proof (of_be_bound l2 H2) as B2.
  rewrite Hl in B1. unfold is_byte in *. assert (b1 = b2) as -> by nia. f_equal. apply IH; try done. lia.
Qed.

Lemma minimal_unique l1 l2 : minimal l1 → minimal l2 → of_be l1 = of_be l2 → l1 = l2.
Proof.
  intros H1 H2 He. apply of_be_inj; [|apply H1|apply H2|done].
  pose proof (minimal_bounds l1 H1) as [A1 B1]. pose proof (minimal_bounds l2 H2) as [A2 B2].
  assert (L1 : (1 ≤ length l1)%nat) by (destruct H1 as (_ & ? & ? & -> & _); simpl; lia).
  assert (L2 : (1 ≤ length l2)%nat) by (destruct H2 as (_ & ? & ? & -> & _); simpl; lia).
  assert (Hstep : ∀ a b : nat, (1 ≤ a)%nat → (a < b)%nat →
    256 * 256 ^ (Z.of_nat a - 1) ≤ 256 ^ (Z.of_nat b - 1)).
  { intros a b Ha Hab. rewrite <- Z.pow_succ_r by lia. apply Z.pow_le_mono_r; lia. }
  destruct (lt_eq_lt_dec (length l1) (length l2)) as [[Hlt|]|Hlt]; [|done|].
  - pose proof (Hstep _ _ L1 Hlt). lia.
  - pose proof (Hstep _ _ L2 Hlt). lia.
Qed.

Lemma sigParts_spec sig r s :
  Forall is_byte sig → sigParts sig = Some (r, s) →
  minimal r ∧ minimal s ∧
  sig = 0x30 :: Z.of_nat (length r + length s + 4) ::
    (2 :: Z.of_nat (length r) :: r) ++ 2 :: Z.of_nat (length s) :: s.
Proof.
  intros Hb. destruct sig as [|t [|len p]]; try done. unfold sigParts.
  destruct (_ || _); [done|]. destruct (Z.eqb_spec t 0x30) as [->|]; [|done]. cbn [negb orb].
  destruct (Z.eqb_spec len (Z.of_nat (length (0x30 :: len :: p)) - 2)) as [Hlen|]; [|done]. cbn [negb].
  apply Forall_cons in Hb as [_ [_ Hb]%Forall_cons].
  destruct (sigPart p) as [[r' p']|] eqn:E1; [|done].
  destruct (sigPart_spec _ _ _ Hb E1) as (-> & Hr & Hb').
  destruct (sigPart p') as [[s' [|]]|] eqn:E2; [|done..]. intros [= -> ->].
  destruct (sigPart_spec _ _ _ Hb' E2) as (-> & Hs & _). split; [done|]. split; [done|].
  rewrite app_nil_r in *. simpl in Hlen. rewrite length_app in Hlen. simpl in Hlen.
  rewrite Hlen. simpl. f_equal. f_equal. lia.
Qed.

(** C33: the encoding of a signature that the checks accept is the only one for its numbers
    R and S; and of the two signatures (R, S) and (R, G - S), which verify alike, exactly one
    is fully canonical. So with full canonicality required nobody can turn a
    signature into another one of the same message. *)
Theorem canonical_unique (sig1 sig2 r1 s1 r2 s2 : list Z) (c1 c2 : ECDSACanonicality)
    (H1 : Forall is_byte sig1) (H2 : Forall is_byte sig2)
    (P1 : sigParts sig1 = Some (r1, s1)) (P2 : sigParts sig2 = Some (r2, s2))
    (C1 : ecdsaCanonicality sig1 = Some c1) (C2 : ecdsaCanonicality sig2 = Some c2) :
  (of_be r1 = of_be r2 → of_be s1 = of_be s2 → sig1 = sig2) ∧
  (of_be r1 = of_be r2 → of_be s2 = G - of_be s1 → c1 ≠ c2).
Proof.
  destruct (sigParts_spec _ _ _ H1 P1) as (Hr1 & Hs1 & E1).
  destruct (sigParts_spec _ _ _ H2 P2) as (Hr2 & Hs2 & E2). split.
  - intros Hr Hs. by rewrite E1, E2, (minimal_unique r1 r2 Hr1 Hr2 Hr), (minimal_unique s1 s2 Hs1 Hs2 Hs).
  - intros _ Hs. unfold ecdsaCanonicality in C1, C2. rewrite P1 in C1. rewrite P2 in C2.
    destruct (G <=? of_be r1), (G <=? of_be r2); try done.
    destruct (G <=? of_be s1), (G <=? of_be s2); try done. rewrite Hs in C2. clear -C1 C2.
    unfold G in *.
    destruct (Z.ltb_spec (0xFFFFFFFFFFFFFFFFFFFFFFFFFFFFFFFEBAAEDCE6AF48A03BBFD25E8CD0364141 - of_be s1) (of_be s1)),
      (Z.ltb_spec (0xFFFFFFFFFFFFFFFFFFFFFFFFFFFFFFFEBAAEDCE6AF48A03BBFD25E8CD0364141 -
        (0xFFFFFFFFFFFFFFFFFFFFFFFFFFFFFFFEBAAEDCE6AF48A03BBFD25E8CD0364141 - of_be s1))
        (0xFFFFFFFFFFFFFFFFFFFFFFFFFFFFFFFEBAAEDCE6AF48A03BBFD25E8CD0364141 - of_be s1)); try congruence; lia.
Qed.

(** The signature (1, 1) and its twin. *)
Lemma canonical_unique_witness :
  ecdsaCanonicality (0x30 :: 6 :: [2; 1; 1; 2; 1; 1]) = Some fullyCanonical ∧
  fullyCanonical ≠ canonical.
Proof.
  split; [reflexivity|].
  apply (canonical_unique (0x30 :: 6 :: [2; 1; 1; 2; 1; 1])
    (0x30 :: 38 :: [2; 1; 1; 2; 33] ++ to_be 33 (G - 1)) [1] [1] [1] (to_be 33 (G - 1))).
  - repeat constructor; vm_compute; intuition discriminate.
  - repeat (apply Forall_cons_2; [vm_compute; intuition discriminate|]). constructor.
  - reflexivity.
  - vm_compute. reflexivity.
  - reflexivity.
  - vm_compute. reflexivity.
  - reflexivity.
  - vm_compute. reflexivity.
Defined.
