(* ===== verification/HashRouter.v ===== *)
(** * The hash router

    Model of [src/src/ripple/app/misc/HashRouter.h] and [HashRouter.cpp]: the table that
    remembers, for some time, which peers have sent an item, whether it was relayed or
    processed, and what is known about it (its flags).

    The items live in an aged container: looking one up makes it young again, and
    creating one removes those that nobody has looked up for the hold time.  The clock
    is steady, so that removing the oldest items first is a filter on their times. *)

From stdpp Require Import base numbers list gmap sorting.
From Stdlib Require Import Lia ZArith.
From S2P Require Import Prelude.

Local Open Scope Z_scope.

Definition SF_BAD : Z := 0x02.
Definition SF_SAVED : Z := 0x04.
Definition SF_TRUSTED : Z := 0x10.
Definition SF_PRIVATE1 : Z := 0x0100.
Definition SF_PRIVATE2 : Z := 0x0200.
Definition SF_PRIVATE3 : Z := 0x0400.
Definition SF_PRIVATE4 : Z := 0x0800.
Definition SF_PRIVATE5 : Z := 0x1000.
Definition SF_PRIVATE6 : Z := 0x2000.

(** ** Entries *)

Record Entry : Type := mkEntry {
  flags_ : Z;
  peers_ : gset Z;
  relayed_ : option Z;
  processed_ : option Z;
  recoveries_ : Z }.

Definition new_item : Entry := mkEntry 0 ∅ None None 0.

Definition addPeer (peer : Z) (e : Entry) : Entry :=
  if peer =? 0 then e
  else mkEntry (flags_ e) ({[peer]} ∪ peers_ e) (relayed_ e) (processed_ e) (recoveries_ e).

Definition entry_setFlags (flagsToSet : Z) (e : Entry) : Entry :=
  mkEntry (Z.lor (flags_ e) flagsToSet) (peers_ e) (relayed_ e) (processed_ e) (recoveries_ e).

Definition releasePeerSet (e : Entry) : gset Z * Entry :=
  (peers_ e, mkEntry (flags_ e) ∅ (relayed_ e) (processed_ e) (recoveries_ e)).

(** [last && *last + interval > now]. *)
Definition recent (last : option Z) (interval now : Z) : bool :=
  match last with Some t => now <? t + interval | None => false end.

Definition entry_shouldRelay (now holdTime : Z) (e : Entry) : bool * Entry :=
  if recent (relayed_ e) holdTime now then (false, e)
  else (true, mkEntry (flags_ e) (peers_ e) (Some now) (processed_ e) (recoveries_ e)).

Definition entry_shouldRecover (limit : Z) (e : Entry) : bool * Entry :=
  let recoveries := u32 (recoveries_ e + 1) in
  (negb (recoveries `mod` limit =? 0),
   mkEntry (flags_ e) (peers_ e) (relayed_ e) (processed_ e) recoveries).

Definition entry_shouldProcess (now interval : Z) (e : Entry) : bool * Entry :=
  if recent (processed_ e) interval now then (false, e)
  else (true, mkEntry (flags_ e) (peers_ e) (relayed_ e) (Some now) (recoveries_ e)).

(** ** The router *)

Record HashRouter : Type := mkRouter {
  suppressionMap_ : gmap Z (Z * Entry);
  holdTime_ : Z;
  recoverLimit_ : Z }.

Definition getDefaultHoldTime : Z := 300.
Definition getDefaultRecoverLimit : Z := 1.

Definition make_router (holdTime recoverLimit : Z) : HashRouter :=
  mkRouter ∅ holdTime (u32 (recoverLimit + 1)).

Section Router.
Context (now : Z).
Implicit Types (r : HashRouter).

(** [expire (suppressionMap_, holdTime_)]. *)
Definition expire (age : Z) (m : gmap Z (Z * Entry)) : gmap Z (Z * Entry) :=
  filter (λ x, now - age < x.2.1) m.

(** [emplace], and what the caller then does to the entry. *)
Definition emplace {A} (key : Z) (f : Entry → A * Entry) (r : HashRouter) : A * bool * HashRouter :=
  match suppressionMap_ r !! key with
  | Some (_, e) =>
    let '(a, e) := f e in
    (a, false, mkRouter (<[key := (now, e)]> (suppressionMap_ r)) (holdTime_ r) (recoverLimit_ r))
  | None =>
    let '(a, e) := f new_item in
    (a, true, mkRouter (<[key := (now, e)]> (expire (holdTime_ r) (suppressionMap_ r)))
                (holdTime_ r) (recoverLimit_ r))
  end.

Definition addSuppression (key : Z) r : HashRouter :=
  (emplace key (λ e, (tt, e)) r).2.

Definition addSuppressionPeer (key peer : Z) r : bool * HashRouter :=
  let '(_, inserted, r) := emplace key (λ e, (tt, addPeer peer e)) r in (inserted, r).

Definition addSuppressionPeer_flags (key peer : Z) r : bool * Z * HashRouter :=
  let '(flags, inserted, r) :=
    emplace key (λ e, let e := addPeer peer e in (flags_ e, e)) r in (inserted, flags, r).

Definition shouldProcess (key peer tx_interval : Z) r : bool * Z * HashRouter :=
  let '((flags, b), _, r) :=
    emplace key (λ e,
      let e := addPeer peer e in
      let flags := flags_ e in
      let '(b, e) := entry_shouldProcess now tx_interval e in
      ((flags, b), e)) r in
  (b, flags, r).

Definition router_getFlags (key : Z) r : Z * HashRouter :=
  let '(flags, _, r) := emplace key (λ e, (flags_ e, e)) r in (flags, r).

Definition router_setFlags (key flags : Z) r : bool * HashRouter :=
  let '(b, _, r) :=
    emplace key (λ e,
      if Z.land (flags_ e) flags =? flags then (false, e) else (true, entry_setFlags flags e)) r in
  (b, r).

Definition shouldRelay (key : Z) r : option (gset Z) * HashRouter :=
  let '(res, _, r) :=
    emplace key (λ e,
      let '(b, e) := entry_shouldRelay now (holdTime_ r) e in
      if negb b then (None, e) else let '(ps, e) := releasePeerSet e in (Some ps, e)) r in
  (res, r).

Definition shouldRecover (key : Z) r : bool * HashRouter :=
  let '(b, _, r) := emplace key (entry_shouldRecover (recoverLimit_ r)) r in (b, r).
End Router.

(** ** Histories *)

Inductive call : Type :=
| Suppress (key : Z)
| SuppressPeer (key peer : Z)
| Process (key peer interval : Z)
| GetFlags (key : Z)
| SetFlags (key flags : Z)
| Relay (key : Z)
| Recover (key : Z).

Definition call_key (c : call) : Z :=
  match c with
  | Suppress k | SuppressPeer k _ | Process k _ _ | GetFlags k | SetFlags k _ | Relay k | Recover k => k
  end.

(** What a call returns: a set of peers for a relay, flags, or an answer. *)
Inductive answer : Type := Peers (ps : option (gset Z)) | Flags (f : Z) | Answer (b : bool).

Definition exec (now : Z) (c : call) (r : HashRouter) : answer * HashRouter :=
  match c with
  | Suppress k => (Answer true, addSuppression now k r)
  | SuppressPeer k p => let '(b, r) := addSuppressionPeer now k p r in (Answer b, r)
  | Process k p i => let '(b, _, r) := shouldProcess now k p i r in (Answer b, r)
  | GetFlags k => let '(f, r) := router_getFlags now k r in (Flags f, r)
  | SetFlags k f => let '(b, r) := router_setFlags now k f r in (Answer b, r)
  | Relay k => let '(ps, r) := shouldRelay now k r in (Peers ps, r)
  | Recover k => let '(b, r) := shouldRecover now k r in (Answer b, r)
  end.

(** A history: calls with their times, and what they returned. *)
Fixpoint exec_all (h : list (Z * call)) (r : HashRouter) : list (Z * call * answer) * HashRouter :=
  match h with
  | [] => ([], r)
  | (now, c) :: h =>
    let '(a, r) := exec now c r in
    let '(es, r) := exec_all h r in ((now, c, a) :: es, r)
  end.

(** ** What is remembered, and for how long *)

Section Remember.
Context (hold key since : Z) (Q : Entry → Prop).

(** The router knows [Q] of the item, or the hold time is over. *)
Definition remembers (now : Z) (r : HashRouter) : Prop :=
  holdTime_ r = hold ∧ since ≤ now ∧
  ((∃ t e, suppressionMap_ r !! key = Some (t, e) ∧ since ≤ t ∧ Q e) ∨ since + hold ≤ now).

Lemma remembers_later now now' r : remembers now r → now ≤ now' → remembers now' r.
Proof. intros (Hh & Hs & [H|H]) Hle; (split; [done|]); (split; [lia|]); [by left|right; lia]. Qed.

Lemma emplace_hold {A} now k (f : Entry → A * Entry) r : holdTime_ (emplace now k f r).2 = holdTime_ r.
Proof. unfold emplace. destruct (_ !! k) as [[t e]|]; by destruct (f _). Qed.

Lemma emplace_remembers {A} now k (f : Entry → A * Entry) r :
  (k = key → ∀ e, Q e → Q (f e).2) → remembers now r → remembers now (emplace now k f r).2.
Proof.
  intros Hf (Hh & Hs & H). split; [by rewrite emplace_hold|]. split; [done|].
  destruct H as [(t & e & He & Ht & HQ)|]; [|by right]. unfold emplace.
  destruct (decide (k = key)) as [->|Hne].
  - rewrite He. specialize (Hf eq_refl e HQ). destruct (f e) as [a e']. left. exists now, e'. cbn.
    by rewrite lookup_insert_eq.
  - destruct (suppressionMap_ r !! k) as [[t' e']|]; destruct (f _) as [a e'']; cbn.
    + left. exists t, e. by rewrite lookup_insert_ne.
    + destruct (decide (now - holdTime_ r < t)) as [Hlt|Hge]; [left|right; lia].
      exists t, e. rewrite lookup_insert_ne by done. unfold expire.
      rewrite (map_lookup_filter_Some_2 _ _ key (t, e)) by done. done.
Qed.

Definition kept_by (now : Z) (c : call) : Prop := ∀ r, remembers now r → remembers now (exec now c r).2.

Ltac by_emplace := match goal with
  | |- context [emplace ?now ?k ?f ?r] =>
    let H := fresh in pose proof (emplace_remembers now k f r) as H;
    let x := fresh "x" in destruct (emplace now k f r) as [[x ?] ?];
    lazymatch type of x with (_ * _)%type => destruct x | _ => idtac end; cbn in H |- *;
    apply H; [|done] end.

(** Calls keep what no change of an entry can undo. *)
Lemma calls_keep now c :
  (∀ p e, Q e → Q (addPeer p e)) →
  (∀ f e, Q e → Q (entry_setFlags f e)) →
  (∀ i e, Q e → Q (entry_shouldProcess now i e).2) →
  (∀ l e, Q e → Q (entry_shouldRecover l e).2) →
  (∀ e, Q e → Q (entry_shouldRelay now hold e).2) →
  (∀ e, Q e → Q (releasePeerSet e).2) →
  kept_by now c.
Proof.
  intros Hp Hf Hpr Hrec Hrel Hps r Hr. destruct c as [k|k p|k p i|k|k f|k|k]; cbn;
    unfold addSuppression, addSuppressionPeer, shouldProcess, router_getFlags, router_setFlags, shouldRelay,
      shouldRecover; by_emplace; intros _ e He; cbn; auto.
  - specialize (Hpr i _ (Hp p e He)). by destruct (entry_shouldProcess _ _ _).
  - case_match; cbn; auto.
  - rewrite (proj1 Hr). specialize (Hrel e He). destruct (entry_shouldRelay now hold e) as [res e'].
    destruct res; cbn in *; [|done]. by apply Hps.
  - exact (Hrec 0 e He).
Qed.
End Remember.

Lemma exec_hold now c r : holdTime_ (exec now c r).2 = holdTime_ r.
Proof.
  destruct c; cbn; unfold addSuppression, addSuppressionPeer, shouldProcess, router_getFlags,
    router_setFlags, shouldRelay, shouldRecover; match goal with
  | |- context [emplace ?now ?k ?f ?r] =>
    pose proof (emplace_hold now k f r); destruct (emplace now k f r) as [[x ?] ?] end; try done.
  by destruct x.
Qed.

(** The state before an event of a history. *)
Lemma exec_all_event h r i t c a :
  (exec_all h r).1 !! i = Some (t, c, a) →
  ∃ r1, holdTime_ r1 = holdTime_ r ∧ exec t c r1 = (a, (exec t c r1).2) ∧ h !! i = Some (t, c) ∧
    (exec_all (drop (S i) h) (exec t c r1).2).1 = drop (S i) (exec_all h r).1.
Proof.
  revert r i. induction h as [|[t' c'] h IH]; intros r i; [done|]. cbn.
  pose proof (exec_hold t' c' r) as Hh. destruct (exec t' c' r) as [a' r'] eqn:E. specialize (IH r').
  destruct (exec_all h r') as [es r2] eqn:Eh. destruct i as [|i]; cbn in *.
  - intros [= -> -> ->]. exists r. rewrite E. cbn. rewrite !drop_0, Eh. done.
  - intros Hi. destruct (IH i Hi) as (r1 & H0 & H1 & H2 & H3). exists r1. split; [congruence|done].
Qed.

Lemma exec_all_inv (Inv : Z → HashRouter → Prop) h r t0 :
  (∀ t t' r, Inv t r → t ≤ t' → Inv t' r) →
  (∀ t c r, t0 ≤ t → Inv t r → Inv t (exec t c r).2) →
  StronglySorted Z.le h.*1 → Forall (λ x, t0 ≤ x.1) h → Inv t0 r →
  ∀ i t c a, (exec_all h r).1 !! i = Some (t, c, a) → ∃ r', Inv t r' ∧ (exec t c r').1 = a.
Proof.
  intros Hmono Hstep Hs Hall Hr.
  assert (Hgen : ∀ t1, t0 ≤ t1 → Forall (λ x, t1 ≤ x.1) h → Inv t1 r →
    ∀ i t c a, (exec_all h r).1 !! i = Some (t, c, a) → ∃ r', Inv t r' ∧ (exec t c r').1 = a);
    [|by apply (Hgen t0)].
  clear Hall Hr. revert r Hs. induction h as [|[t' c'] h IH]; intros r Hs t1 Ht1 Hall Hr i t c a; [done|].
  cbn in Hs. apply StronglySorted_inv in Hs as [Hs Hle]. apply Forall_cons in Hall as [Ht Hall]. cbn in Ht.
  cbn. pose proof (Hstep t' c' r ltac:(lia) (Hmono _ t' _ Hr Ht)) as Hr'.
  destruct (exec t' c' r) as [a' r'] eqn:E. destruct (exec_all h r') as [es r2] eqn:Eh.
  destruct i as [|i]; cbn.
  - intros [= -> -> ->]. exists r. rewrite E. split; [by eapply Hmono|done].
  - intros Hi. apply (IH r' Hs t' ltac:(lia)) with (i := i); [|done|by rewrite Eh].
    rewrite Forall_fmap in Hle. exact Hle.
Qed.

(** *** What the flags and the relay times promise *)

Lemma relay_kept hold key since now c :
  since ≤ now → kept_by hold key since (λ e, ∃ t, relayed_ e = Some t ∧ since ≤ t) now c.
Proof.
  intros Hle. apply calls_keep; try (intros ? ? H; exact H).
  - intros p e He. unfold addPeer. by case_match.
  - intros i e He. unfold entry_shouldProcess. by case_match.
  - intros e He. unfold entry_shouldRelay. case_match; [done|]. cbn. by exists now.
  - intros e He. exact He.
Qed.

Lemma flags_kept hold key since f now c :
  kept_by hold key since (λ e, Z.land (flags_ e) f = f) now c.
Proof.
  apply calls_keep; try (intros ? ? H; exact H).
  - intros p e He. unfold addPeer. by case_match.
  - intros g e He. cbn. apply Z.bits_inj'. intros n Hn. apply (f_equal (λ z, Z.testbit z n)) in He.
    rewrite Z.land_spec in *. rewrite Z.lor_spec. destruct (Z.testbit f n); [|by rewrite andb_false_r].
    rewrite andb_true_r in *. by rewrite He.
  - intros i e He. unfold entry_shouldProcess. by case_match.
  - intros e He. unfold entry_shouldRelay. by case_match.
  - intros e He. exact He.
Qed.

(** A relay that is granted. *)
Lemma relay_granted now key r ps :
  shouldRelay now key r = (Some ps, (shouldRelay now key r).2) →
  remembers (holdTime_ r) key now (λ e, ∃ t, relayed_ e = Some t ∧ now ≤ t) now (shouldRelay now key r).2 ∧
  (∀ t0 e, suppressionMap_ r !! key = Some (t0, e) → recent (relayed_ e) (holdTime_ r) now = false).
Proof.
  unfold shouldRelay, emplace, entry_shouldRelay. destruct (suppressionMap_ r !! key) as [[t0 e]|] eqn:E.
  - destruct (recent (relayed_ e) (holdTime_ r) now) eqn:Er; cbn; [by intros [=]|]. intros _. split.
    + split; [done|]. split; [lia|]. left. eexists _, _. cbn. rewrite lookup_insert_eq. split; [done|].
      split; [lia|]. cbn. by exists now.
    + by intros ? ? [= <- <-].
  - cbn. intros _. split; [|done]. split; [done|]. split; [lia|]. left. eexists _, _. cbn.
    rewrite lookup_insert_eq. split; [done|]. split; [lia|]. cbn. by exists now.
Qed.

Lemma flags_set now key f r :
  remembers (holdTime_ r) key now (λ e, Z.land (flags_ e) f = f) now (router_setFlags now key f r).2.
Proof.
  assert (Hset : ∀ e, Z.land (flags_ (entry_setFlags f e)) f = f).
  { intros e. cbn. apply Z.bits_inj'. intros n _. rewrite Z.land_spec, Z.lor_spec.
    by destruct (Z.testbit (flags_ e) n), (Z.testbit f n). }
  assert (Hres : ∀ e, Z.land (flags_ (if Z.land (flags_ e) f =? f then (false, e)
    else (true, entry_setFlags f e)).2) f = f).
  { intros e. destruct (Z.eqb_spec (Z.land (flags_ e) f) f); [done|apply Hset]. }
  unfold router_setFlags, emplace.
  destruct (suppressionMap_ r !! key) as [[t0 e]|]; [specialize (Hres e)|specialize (Hres new_item)];
    destruct (Z.land _ f =? f); cbn [fst snd] in *; (split; [done|]); (split; [lia|]); left;
    eexists now, _; cbn [suppressionMap_]; (split; [apply lookup_insert_eq|]); done.
Qed.

Lemma drop_sorted (h : list (Z * call)) i t c :
  StronglySorted Z.le h.*1 → h !! i = Some (t, c) →
  StronglySorted Z.le (drop (S i) h).*1 ∧ Forall (λ x, t ≤ x.1) (drop (S i) h).
Proof.
  revert i. induction h as [|[t' c'] h IH]; intros i Hs Hi; [done|]. cbn in Hs.
  apply StronglySorted_inv in Hs as [Hs Hle]. destruct i as [|i]; [|by apply IH].
  injection Hi as -> ->. cbn. rewrite drop_0. split; [done|]. by rewrite Forall_fmap in Hle.
Qed.

(** What is remembered after one event is still known at a later one, or too much time has
    passed. *)
Lemma event_remembered h r i j t1 c1 a1 t2 c2 a2 key Q :
  StronglySorted Z.le h.*1 → (i < j)%nat →
  (exec_all h r).1 !! i = Some (t1, c1, a1) → (exec_all h r).1 !! j = Some (t2, c2, a2) →
  (∀ r1, holdTime_ r1 = holdTime_ r → exec t1 c1 r1 = (a1, (exec t1 c1 r1).2) →
     remembers (holdTime_ r) key t1 Q t1 (exec t1 c1 r1).2) →
  (∀ now c, t1 ≤ now → kept_by (holdTime_ r) key t1 Q now c) →
  ∃ r2, remembers (holdTime_ r) key t1 Q t2 r2 ∧ (exec t2 c2 r2).1 = a2.
Proof.
  intros Hs Hij Hi Hj Hnow Hkeep. destruct (exec_all_event _ _ _ _ _ _ Hi) as (r1 & Hh & H1 & Hhi & Hrest).
  destruct (drop_sorted _ _ _ _ Hs Hhi) as [Hs' Hall].
  assert (Hj' : (exec_all (drop (S i) h) (exec t1 c1 r1).2).1 !! (j - S i)%nat = Some (t2, c2, a2)).
  { rewrite Hrest, lookup_drop. rewrite <- Hj. f_equal. lia. }
  apply (exec_all_inv (remembers (holdTime_ r) key t1 Q) (drop (S i) h) (exec t1 c1 r1).2 t1)
    with (i := (j - S i)%nat) (c := c2); try done.
  - intros t t' r' H Hle. by eapply remembers_later.
  - intros t c r' Hle. by apply Hkeep.
  - by apply Hnow.
Qed.

(** *** The flags of an item *)

(** The flags the router has for an item, none when it does not know it. *)
Definition known_flags (r : HashRouter) (key : Z) : Z :=
  match suppressionMap_ r !! key with Some (_, e) => flags_ e | None => 0 end.

(** A call changes the flags of its own item only; others may be forgotten. *)
Lemma known_emplace {A} now k (f : Entry → A * Entry) r key :
  let r' := (emplace now k f r).2 in
  (key ≠ k → known_flags r' key = known_flags r key ∨ known_flags r' key = 0) ∧
  (key = k → ∃ e, flags_ e = known_flags r key ∧ (emplace now k f r).1.1 = (f e).1 ∧
                  known_flags r' key = flags_ (f e).2).
Proof.
  unfold emplace. split.
  - intros Hne. unfold known_flags. destruct (suppressionMap_ r !! k) as [[t e]|]; destruct (f _) as [a e']; cbn;
      rewrite lookup_insert_ne by done; [by left|].
    unfold expire. destruct (filter _ _ !! key) as [[t e]|] eqn:E; [|by right].
    apply map_lookup_filter_Some in E as [-> _]. by left.
  - intros ->. unfold known_flags at 1. destruct (suppressionMap_ r !! k) as [[t e]|] eqn:E;
      [exists e|exists new_item]; destruct (f _) as [a e'] eqn:Ef; cbn; unfold known_flags; cbn;
      by rewrite ?E, lookup_insert_eq.
Qed.

Lemma known_setFlags now k f r key :
  let r' := (router_setFlags now k f r).2 in
  known_flags r' key = known_flags r key ∨ known_flags r' key = 0 ∨
  (key = k ∧ known_flags r' key = Z.lor (known_flags r key) f).
Proof.
  unfold router_setFlags. match goal with |- context [emplace now k ?g r] =>
    pose proof (known_emplace now k g r key) as [H1 H2]; destruct (emplace now k g r) as [[b ins] r'] end.
  cbn in *. destruct (decide (key = k)) as [->|Hne]; [|destruct (H1 Hne); auto].
  destruct (H2 eq_refl) as (e & He & _ & ->). case_match; cbn; [auto|]. rewrite He. auto.
Qed.

Lemma known_getFlags_state now k r key :
  let r' := (router_getFlags now k r).2 in
  known_flags r' key = known_flags r key ∨ known_flags r' key = 0.
Proof.
  unfold router_getFlags. match goal with |- context [emplace now k ?g r] =>
    pose proof (known_emplace now k g r key) as [H1 H2]; destruct (emplace now k g r) as [[b ins] r'] end.
  cbn in *. destruct (decide (key = k)) as [->|Hne]; [|by apply H1].
  destruct (H2 eq_refl) as (e & He & _ & ->). auto.
Qed.

Lemma known_getFlags now k r : (router_getFlags now k r).1 = known_flags r k.
Proof.
  unfold router_getFlags. match goal with |- context [emplace now k ?g r] =>
    pose proof (known_emplace now k g r k) as [_ H2]; destruct (emplace now k g r) as [[b ins] r'] end.
  cbn in *. by destruct (H2 eq_refl) as (e & <- & -> & _).
Qed.

(** The calls that set no flags. *)
Lemma known_exec now c r key :
  (∀ k f, c ≠ SetFlags k f) →
  known_flags (exec now c r).2 key = known_flags r key ∨ known_flags (exec now c r).2 key = 0.
Proof.
  intros Hc. destruct c as [k|k p|k p i|k|k f|k|k]; try (by destruct (Hc k f)); cbn;
    unfold addSuppression, addSuppressionPeer, shouldProcess, router_getFlags, shouldRelay, shouldRecover;
    match goal with |- context [emplace now k ?g r] =>
      pose proof (known_emplace now k g r key) as [H1 H2]; destruct (emplace now k g r) as [[x ins] r'] end;
    lazymatch type of x with (_ * _)%type => destruct x | _ => idtac end; cbn in *;
    (destruct (decide (key = k)) as [->|Hne]; [|by apply H1]);
    destruct (H2 eq_refl) as (e & <- & _ & ->); left; unfold addPeer; try done.
  - by case_match.
  - unfold entry_shouldProcess. by repeat (case_match; simplify_eq).
  - unfold entry_shouldRelay. by repeat (case_match; simplify_eq).
Qed.

(** whatever calls are made, with a clock that does not go back: an item is not relayed twice
    within the hold time, and flags set for an item are reported for as long. *)
Theorem router_remembers (hold limit : Z) (h : list (Z * call)) (i j : nat) (k t1 t2 : Z)
    (Hs : StronglySorted Z.le h.*1) (Hij : (i < j)%nat) :
  let es := (exec_all h (make_router hold limit)).1 in
  (∀ p1 p2, es !! i = Some (t1, Relay k, Peers (Some p1)) → es !! j = Some (t2, Relay k, Peers (Some p2)) →
     t1 + hold ≤ t2) ∧
  (∀ f b g, es !! i = Some (t1, SetFlags k f, b) → es !! j = Some (t2, GetFlags k, Flags g) →
     t2 < t1 + hold → Z.land g f = f).
Proof.
  cbn zeta. split.
  - intros p1 p2 Hi Hj.
    destruct (event_remembered h _ i j t1 _ _ t2 _ _ k (λ e, ∃ t, relayed_ e = Some t ∧ t1 ≤ t) Hs Hij Hi Hj)
      as (r2 & (Hh & Ht & Hm) & Ha).
    + intros r1 Hh He. rewrite <- Hh. cbn in He |- *. destruct (shouldRelay t1 k r1) as [ps r'] eqn:E.
      injection He as ->. pose proof (relay_granted t1 k r1 p1) as [H _]; rewrite E in *; done.
    + intros now c. apply relay_kept.
    + destruct Hm as [(t & e & He & _ & tr & Hr & Hle)|]; [|done]. cbn in Ha.
      destruct (shouldRelay t2 k r2) as [ps r'] eqn:E. cbn in Ha. injection Ha as ->.
      pose proof (relay_granted t2 k r2 p2) as [_ H]; [by rewrite E|]. specialize (H _ _ He).
      rewrite Hr, Hh in H. cbn in *. apply Z.ltb_ge in H. lia.
  - intros f b g Hi Hj Hlt.
    destruct (event_remembered h _ i j t1 _ _ t2 _ _ k (λ e, Z.land (flags_ e) f = f) Hs Hij Hi Hj)
      as (r2 & (Hh & Ht & Hm) & Ha).
    + intros r1 Hh _. rewrite <- Hh. cbn. pose proof (flags_set t1 k f r1). by destruct (router_setFlags t1 k f r1).
    + intros now c _. apply flags_kept.
    + destruct Hm as [(t & e & He & _ & HQ)|]; [|cbn in *; lia]. cbn in Ha. unfold router_getFlags, emplace in Ha.
      rewrite He in Ha. injection Ha as <-. done.
Qed.

Lemma router_remembers_witness :
  let es := (exec_all [(0, Relay 7); (5, SetFlags 7 4); (8, GetFlags 7)] (make_router 300 1)).1 in
  es !! 2%nat = Some (8, GetFlags 7, Flags 4) ∧ Z.land 4 4 = 4.
Proof.
  assert (Hs : StronglySorted Z.le [(0, Relay 7); (5, SetFlags 7 4); (8, GetFlags 7)].*1)
    by (repeat constructor; vm_compute; discriminate).
  split; [vm_compute; reflexivity|].
  apply (proj2 (router_remembers 300 1 [(0, Relay 7); (5, SetFlags 7 4); (8, GetFlags 7)] 1 2 7 5 8 Hs
    ltac:(lia)) 4 (Answer true) 4); [vm_compute; reflexivity..|lia].
Defined.
