(* ===== verification/Encodings.v ===== *)
(** * Text encodings

    Model of the encodings that turn bytes into text and back:
    - hexadecimal: [src/src/ripple/basics/strHex.h], [basics/impl/strHex.cpp],
      [basics/impl/StringUtilities.cpp];
    - base64: [basics/impl/base64.cpp];
    - base58 tokens with a type and a checksum, as used for account addresses, keys
      and seeds: [protocol/impl/tokens.cpp].

    Text is a list of bytes. *)

From stdpp Require Import base numbers list strings.
From Stdlib Require Import Lia ZArith Ascii.
From S2P Require Import Prelude Serializer.

Local Open Scope Z_scope.

Definition text (s : string) : list Z := Z.of_N ∘ N_of_ascii <$> String.list_ascii_of_string s.

(** ** Hexadecimal *)

Definition charHex (digit : Z) : Z := nth (Z.to_nat digit) (text "0123456789ABCDEF") 0.

Definition charUnHex (c : Z) : Z :=
  if (48 <=? c) && (c <=? 57) then c - 48
  else if (65 <=? c) && (c <=? 70) then 10 + (c - 65)
  else if (97 <=? c) && (c <=? 102) then 10 + (c - 97)
  else -1.

(** [boost::algorithm::hex]: two digits for each byte. *)
Definition strHex (bytes : list Z) : list Z := b ← bytes; [charHex (b ≫ 4); charHex (Z.land b 15)].

Fixpoint unhex_pairs (s : list Z) : option (list Z) :=
  match s with
  | [] => Some []
  | h :: l :: s =>
    if charUnHex h <? 0 then None else
    if charUnHex l <? 0 then None else
    cons (Z.lor (charUnHex h ≪ 4) (charUnHex l)) <$> unhex_pairs s
  | [_] => None
  end.

Definition strUnHex (s : list Z) : option (list Z) :=
  if Z.odd (Z.of_nat (length s)) then
    match s with
    | c :: s => if charUnHex c <? 0 then None else cons (charUnHex c) <$> unhex_pairs s
    | [] => None
    end
  else unhex_pairs s.

(** ** Base64 *)

Definition b64_alphabet : list Z :=
  text "ABCDEFGHIJKLMNOPQRSTUVWXYZabcdefghijklmnopqrstuvwxyz0123456789+/".
Definition b64_char (v : Z) : Z := nth (Z.to_nat v) b64_alphabet 0.

(** The table of [get_inverse]. *)
Definition b64_inverse (c : Z) : Z :=
  if (65 <=? c) && (c <=? 90) then c - 65
  else if (97 <=? c) && (c <=? 122) then 26 + (c - 97)
  else if (48 <=? c) && (c <=? 57) then 52 + (c - 48)
  else if c =? 43 then 62
  else if c =? 47 then 63
  else -1.

Definition pad : Z := 61.

Fixpoint base64_encode (data : list Z) : list Z :=
  match data with
  | [] => []
  | [a] => [b64_char (Z.land a 0xfc ≫ 2); b64_char (Z.land a 0x03 ≪ 4); pad; pad]
  | [a; b] =>
    [b64_char (Z.land a 0xfc ≫ 2); b64_char ((Z.land a 0x03 ≪ 4) + (Z.land b 0xf0 ≫ 4));
     b64_char (Z.land b 0x0f ≪ 2); pad]
  | a :: b :: c :: data =>
    b64_char (Z.land a 0xfc ≫ 2) :: b64_char ((Z.land a 0x03 ≪ 4) + (Z.land b 0xf0 ≫ 4)) ::
    b64_char ((Z.land c 0xc0 ≫ 6) + (Z.land b 0x0f ≪ 2)) :: b64_char (Z.land c 0x3f) ::
    base64_encode data
  end.

(** The three bytes made of four digits. *)
Definition b64_bytes (c4 : list Z) : list Z :=
  let d i := nth i c4 0 in
  [u8 ((d 0%nat ≪ 2) + (Z.land (d 1%nat) 0x30 ≫ 4));
   u8 ((Z.land (d 1%nat) 0xf ≪ 4) + (Z.land (d 2%nat) 0x3c ≫ 2));
   u8 ((Z.land (d 2%nat) 0x3 ≪ 6) + d 3%nat)].

(** The loop of [decode]; [c4] holds the digits read of a group. *)
Fixpoint b64_decode_from (c4 : list Z) (s : list Z) : list Z :=
  let stop := match c4 with [] => [] | _ => take (length c4 - 1) (b64_bytes c4) end in
  match s with
  | [] => stop
  | c :: s =>
    if c =? pad then stop else
    if b64_inverse c =? -1 then stop else
    let c4 := c4 ++ [b64_inverse c] in
    if (length c4 =? 4)%nat then b64_bytes c4 ++ b64_decode_from [] s else b64_decode_from c4 s
  end.

Definition base64_decode (s : list Z) : list Z := b64_decode_from [] s.

(** ** Base58 *)

Definition rippleAlphabet : list Z := text "rpshnaf39wBUDNEGHJKLM4PQRST7VWXYZ2bcdeCg65jkm8oFqi1tuvAxyz".
Definition bitcoinAlphabet : list Z := text "123456789ABCDEFGHJKLMNPQRSTUVWXYZabcdefghijkmnopqrstuvwxyz".

(** Multiply the number in the buffer and add to it, digit by digit from the end; the buffer
    is given from its end. *)
Fixpoint mul_add (mul radix carry : Z) (digits : list Z) : list Z :=
  match digits with
  | [] => []
  | d :: ds => let carry := carry + mul * d in
               (carry `mod` radix) :: mul_add mul radix (carry `div` radix) ds
  end.

Definition apply_digit (mul radix : Z) (buf : list Z) (d : Z) : list Z :=
  reverse (mul_add mul radix d (reverse buf)).

(** Leading zeros, counted and skipped. *)
Fixpoint count_zeroes (l : list Z) : nat :=
  match l with d :: l => if d =? 0 then S (count_zeroes l) else 0%nat | [] => 0%nat end.
Definition skip_zeroes (l : list Z) : list Z := drop (count_zeroes l) l.

Definition encodeBase58 (message : list Z) (temp_size : nat) (alphabet : list Z) : list Z :=
  let zeroes := count_zeroes message in
  let b58 := foldl (apply_digit 256 58) (replicate temp_size 0) (skip_zeroes message) in
  replicate zeroes (nth 0 alphabet 0) ++ ((λ d, nth (Z.to_nat d) alphabet 0) <$> skip_zeroes b58).

(** [InverseAlphabet]: a later digit would overwrite an earlier one. *)
Fixpoint inverse_from (i : Z) (digits : list Z) (c : Z) : Z :=
  match digits with
  | [] => -1
  | d :: ds => let r := inverse_from (i + 1) ds c in
               if r =? -1 then (if d =? c then i else -1) else r
  end.
Definition InverseAlphabet (digits : list Z) (c : Z) : Z := inverse_from 0 digits c.

Definition decodeBase58 (s : list Z) (inv : Z → Z) : list Z :=
  let zeroes := count_zeroes (inv <$> s) in
  let digits := inv <$> drop zeroes s in
  let remain := Z.of_nat (length digits) in
  if existsb (λ d, d =? -1) digits then []
  else
    let b256 := foldl (apply_digit 58 256) (replicate (Z.to_nat ((remain * 733) `div` 1000 + 1)) 0) digits in
    replicate zeroes 0 ++ skip_zeroes b256.

(** *** Tokens *)

(** The digest [sha256_hasher] computes. *)
Class Sha256 : Type := sha256 : list Z → list Z.

Section Token.
Context `{Hash256 : Sha256}.

Definition checksum (message : list Z) : list Z := take 4 (sha256 (sha256 message)).

Definition encodeToken (type : Z) (token : list Z) (alphabet : list Z) : list Z :=
  let expanded := (1 + length token + 4)%nat in
  let bufsize := (expanded * 3)%nat in
  let data := type :: token in
  encodeBase58 (data ++ checksum data) (bufsize - expanded) alphabet.

Definition decodeToken (s : list Z) (type : Z) (inv : Z → Z) : list Z :=
  let ret := decodeBase58 s inv in
  if (length ret <? 6)%nat then [] else
  if negb (type =? nth 0 ret 0) then [] else
  let body := take (length ret - 4) ret in
  if negb (bool_decide (checksum body = drop (length ret - 4) ret)) then []
  else drop 1 body.

Definition base58EncodeToken (type : Z) (token : list Z) : list Z := encodeToken type token rippleAlphabet.
Definition base58EncodeTokenBitcoin (type : Z) (token : list Z) : list Z :=
  encodeToken type token bitcoinAlphabet.
Definition decodeBase58Token (s : list Z) (type : Z) : list Z :=
  decodeToken s type (InverseAlphabet rippleAlphabet).
Definition decodeBase58TokenBitcoin (s : list Z) (type : Z) : list Z :=
  decodeToken s type (InverseAlphabet bitcoinAlphabet).
End Token.

(** ** Round trips *)

(** A fact about all numbers below a bound, by computing it for each. *)
Lemma below_ind (n : nat) (P : Z → bool) :
  forallb (λ i, P (Z.of_nat i)) (seq 0 n) = true → ∀ z, 0 ≤ z < Z.of_nat n → P z = true.
Proof.
  rewrite forallb_forall. intros H z Hz. specialize (H (Z.to_nat z)).
  rewrite Z2Nat.id in H by lia. apply H, in_seq. lia.
Qed.

(** *** Hexadecimal *)

Lemma hex_byte b : is_byte b →
  (charUnHex (charHex (b ≫ 4)) <? 0) = false ∧ (charUnHex (charHex (Z.land b 15)) <? 0) = false ∧
  Z.lor (charUnHex (charHex (b ≫ 4)) ≪ 4) (charUnHex (charHex (Z.land b 15))) = b.
Proof.
  intros Hb. pose proof (below_ind 256 (λ b, negb (charUnHex (charHex (b ≫ 4)) <? 0) &&
    negb (charUnHex (charHex (Z.land b 15)) <? 0) &&
    (Z.lor (charUnHex (charHex (b ≫ 4)) ≪ 4) (charUnHex (charHex (Z.land b 15))) =? b))
    ltac:(vm_compute; reflexivity) b Hb) as H.
  rewrite !andb_true_iff, !negb_true_iff, Z.eqb_eq in H. tauto.
Qed.

Lemma length_strHex bytes : length (strHex bytes) = (2 * length bytes)%nat.
Proof. induction bytes as [|b l IH]; [done|]. unfold strHex in *. cbn in *. rewrite IH. lia. Qed.

Lemma strUnHex_strHex bytes : Forall is_byte bytes → strUnHex (strHex bytes) = Some bytes.
Proof.
  intros Hb. unfold strUnHex. rewrite length_strHex, Nat2Z.inj_mul, Z.odd_mul. cbn [Z.odd Z.of_nat andb].
  replace (Z.odd (Z.of_nat 2)) with false by done. cbn [andb].
  induction Hb as [|b l Hb _ IH]; [done|].
  change (strHex (b :: l)) with (charHex (b ≫ 4) :: charHex (Z.land b 15) :: strHex l). cbn [unhex_pairs].
  destruct (hex_byte b Hb) as (-> & -> & ->). by rewrite IH.
Qed.

(** *** Base64 *)

Definition digit64 (v : Z) : Prop := 0 ≤ v < 64.

Lemma b64_digit v : digit64 v → (b64_char v =? pad) = false ∧ b64_inverse (b64_char v) = v.
Proof.
  intros Hv. pose proof (below_ind 64 (λ v, negb (b64_char v =? pad) && (b64_inverse (b64_char v) =? v))
    ltac:(vm_compute; reflexivity) v Hv) as H.
  rewrite andb_true_iff, negb_true_iff, Z.eqb_eq in H. tauto.
Qed.

(** The bit operations of both directions as divisions. *)
Lemma b64_ops_byte b : is_byte b →
  Z.land b 0xfc ≫ 2 = b `div` 4 ∧ Z.land b 0x03 ≪ 4 = b `mod` 4 * 16 ∧ Z.land b 0xf0 ≫ 4 = b `div` 16 ∧
  Z.land b 0x0f ≪ 2 = b `mod` 16 * 4 ∧ Z.land b 0xc0 ≫ 6 = b `div` 64 ∧ Z.land b 0x3f = b `mod` 64.
Proof.
  intros Hb. pose proof (below_ind 256 (λ b, (Z.land b 0xfc ≫ 2 =? b `div` 4) &&
    (Z.land b 0x03 ≪ 4 =? b `mod` 4 * 16) && (Z.land b 0xf0 ≫ 4 =? b `div` 16) &&
    (Z.land b 0x0f ≪ 2 =? b `mod` 16 * 4) && (Z.land b 0xc0 ≫ 6 =? b `div` 64) && (Z.land b 0x3f =? b `mod` 64))
    ltac:(vm_compute; reflexivity) b Hb) as H.
  rewrite !andb_true_iff, !Z.eqb_eq in H. tauto.
Qed.

Lemma b64_ops_digit d : digit64 d →
  d ≪ 2 = d * 4 ∧ Z.land d 0x30 ≫ 4 = d `div` 16 ∧ Z.land d 0xf ≪ 4 = d `mod` 16 * 16 ∧
  Z.land d 0x3c ≫ 2 = d `div` 4 ∧ Z.land d 0x3 ≪ 6 = d `mod` 4 * 64.
Proof.
  intros Hd. pose proof (below_ind 64 (λ d, (d ≪ 2 =? d * 4) && (Z.land d 0x30 ≫ 4 =? d `div` 16) &&
    (Z.land d 0xf ≪ 4 =? d `mod` 16 * 16) && (Z.land d 0x3c ≫ 2 =? d `div` 4) && (Z.land d 0x3 ≪ 6 =? d `mod` 4 * 64))
    ltac:(vm_compute; reflexivity) d Hd) as H.
  rewrite !andb_true_iff, !Z.eqb_eq in H. tauto.
Qed.

Lemma decode_digit c4 v s : digit64 v →
  b64_decode_from c4 (b64_char v :: s) =
    if (length (c4 ++ [v]) =? 4)%nat then b64_bytes (c4 ++ [v]) ++ b64_decode_from [] s
    else b64_decode_from (c4 ++ [v]) s.
Proof.
  intros Hv. destruct (b64_digit v Hv) as [Hp Hi]. cbn [b64_decode_from]. rewrite Hp, Hi.
  destruct (Z.eqb_spec v (-1)); [unfold digit64 in Hv; lia|done].
Qed.

Lemma digits_of_bytes a b c : is_byte a → is_byte b → is_byte c →
  digit64 (a `div` 4) ∧ digit64 (a `mod` 4 * 16) ∧ digit64 (a `mod` 4 * 16 + b `div` 16) ∧
  digit64 (b `mod` 16 * 4) ∧ digit64 (c `div` 64 + b `mod` 16 * 4) ∧ digit64 (c `mod` 64).
Proof. unfold is_byte, digit64. intros. split_and!; div_lia. Qed.

Lemma b64_bytes_digits d0 d1 d2 d3 : digit64 d0 → digit64 d1 → digit64 d2 → digit64 d3 →
  b64_bytes [d0; d1; d2; d3] =
    [u8 (d0 * 4 + d1 `div` 16); u8 (d1 `mod` 16 * 16 + d2 `div` 4); u8 (d2 `mod` 4 * 64 + d3)].
Proof.
  intros H0 H1 H2 H3. unfold b64_bytes. cbn [nth].
  destruct (b64_ops_digit d0 H0) as (-> & _). destruct (b64_ops_digit d1 H1) as (_ & -> & -> & _).
  destruct (b64_ops_digit d2 H2) as (_ & _ & _ & -> & ->). done.
Qed.

Lemma decode_encode_3 a b c s : is_byte a → is_byte b → is_byte c →
  b64_decode_from [] (base64_encode (a :: b :: c :: s)) = a :: b :: c :: b64_decode_from [] (base64_encode s).
Proof.
  intros Ha Hb Hc. destruct (digits_of_bytes a b c Ha Hb Hc) as (D0 & _ & D1 & _ & D2 & D3).
  cbn [base64_encode]. destruct (b64_ops_byte a Ha) as (-> & -> & _).
  destruct (b64_ops_byte b Hb) as (_ & _ & -> & -> & _). destruct (b64_ops_byte c Hc) as (_ & _ & _ & _ & -> & ->).
  rewrite !decode_digit by done. cbn [length app Nat.eqb].
  rewrite b64_bytes_digits by done. unfold is_byte, u8 in *. cbn [app]. repeat f_equal; div_lia.
Qed.

Lemma decode_encode_2 a b : is_byte a → is_byte b →
  b64_decode_from [] (base64_encode [a; b]) = [a; b].
Proof.
  intros Ha Hb. destruct (digits_of_bytes a b b Ha Hb Hb) as (D0 & _ & D1 & D2 & _).
  cbn [base64_encode]. destruct (b64_ops_byte a Ha) as (-> & -> & _).
  destruct (b64_ops_byte b Hb) as (_ & _ & -> & -> & _).
  rewrite !decode_digit by done. cbn [length app Nat.eqb b64_decode_from pad Z.eqb Pos.eqb].
  unfold b64_bytes. cbn [nth length Nat.sub take].
  destruct (b64_ops_digit _ D0) as (-> & _). destruct (b64_ops_digit _ D1) as (_ & -> & -> & _).
  destruct (b64_ops_digit _ D2) as (_ & _ & _ & -> & _).
  unfold is_byte, u8 in *. repeat f_equal; div_lia.
Qed.

Lemma decode_encode_1 a : is_byte a → b64_decode_from [] (base64_encode [a]) = [a].
Proof.
  intros Ha. destruct (digits_of_bytes a a a Ha Ha Ha) as (D0 & D1 & _).
  cbn [base64_encode]. destruct (b64_ops_byte a Ha) as (-> & -> & _).
  rewrite !decode_digit by done. cbn [length app Nat.eqb b64_decode_from pad Z.eqb Pos.eqb].
  unfold b64_bytes. cbn [nth length Nat.sub take].
  destruct (b64_ops_digit _ D0) as (-> & _). destruct (b64_ops_digit _ D1) as (_ & -> & _).
  unfold is_byte, u8 in *. repeat f_equal; div_lia.
Qed.

Lemma base64_roundtrip_bytes data : Forall is_byte data → base64_decode (base64_encode data) = data.
Proof.
  unfold base64_decode. remember (length data) as n eqn:Hn. revert data Hn.
  induction n as [n IH] using lt_wf_ind. intros [|a [|b [|c data]]] Hn Hb; [done|..];
    apply Forall_cons in Hb as [Ha Hb].
  - by apply decode_encode_1.
  - apply Forall_cons in Hb as [Hb _]. by apply decode_encode_2.
  - apply Forall_cons in Hb as [Hb [Hc Hd]%Forall_cons]. rewrite decode_encode_3 by done.
    rewrite (IH (length data)); [done|simpl in Hn; lia|done|done].
Qed.

(** *** Numbers in a radix *)

(** The number written in a list of digits, the first digit counting most. *)
Definition num (radix : Z) (l : list Z) : Z := foldl (λ a d, a * radix + d) 0 l.

Definition digits_ok (radix : Z) (l : list Z) : Prop := Forall (λ d, 0 ≤ d < radix) l.

Section Radix.
Context (radix : Z) (Hradix : 1 < radix).
Local Abbreviation num := (num radix).
Local Abbreviation pow n := (radix ^ Z.of_nat n).

Lemma pow_pos n : 0 < pow n.
Proof using Hradix. apply Z.pow_pos_nonneg; lia. Qed.

Lemma num_snoc l d : num (l ++ [d]) = num l * radix + d.
Proof. unfold Encodings.num. by rewrite foldl_app. Qed.

Lemma num_cons d l : num (d :: l) = d * pow (length l) + num l.
Proof.
  unfold Encodings.num. change (d :: l) with ([d] ++ l). rewrite foldl_app. cbn [foldl].
  rewrite Z.mul_0_l, Z.add_0_l. generalize d at 1 2. clear d.
  assert (H : ∀ l a, foldl (λ a d, a * radix + d) a l = a * pow (length l) + foldl (λ a d, a * radix + d) 0 l).
  { clear l. intros l. induction l as [|x l IH]; intros a; cbn [foldl length]; [simpl; lia|].
    rewrite (IH (a * radix + x)), (IH (0 * radix + x)), Nat2Z.inj_succ, Z.pow_succ_r by lia. lia. }
  intros d. apply H.
Qed.

Lemma num_bound l : digits_ok radix l → 0 ≤ num l < pow (length l).
Proof using Hradix.
  induction 1 as [|d l Hd _ IH]; [done|]. rewrite num_cons. simpl length.
  rewrite Nat2Z.inj_succ, Z.pow_succ_r by lia. nia.
Qed.

Lemma num_replicate n l : num (replicate n 0 ++ l) = num l.
Proof. induction n as [|n IH]; [done|]. cbn [replicate app]. by rewrite num_cons, IH. Qed.

Lemma digits_inj l1 l2 :
  length l1 = length l2 → digits_ok radix l1 → digits_ok radix l2 → num l1 = num l2 → l1 = l2.
Proof using Hradix.
  revert l2. induction l1 as [|b1 l1 IH]; intros [|b2 l2] Hl H1 H2 He; try done.
  injection Hl as Hl. apply Forall_cons in H1 as [Hb1 H1]. apply Forall_cons in H2 as [Hb2 H2].
  rewrite !num_cons, Hl in He. pose proof (num_bound l1 H1) as B1. pose proof (num_bound l2 H2) as B2.
  rewrite Hl in B1. assert (b1 = b2) as -> by nia. f_equal. apply IH; try done. lia.
Qed.

(** No leading zero. *)
Definition leading (l : list Z) : Prop := ∀ d, head l = Some d → d ≠ 0.

Lemma leading_length l n : leading l → digits_ok radix l → num l < pow n → (length l ≤ n)%nat.
Proof using Hradix.
  intros Hl Hd Hn. destruct l as [|d l]; [simpl; lia|].
  apply Forall_cons in Hd as [Hd Hds]. specialize (Hl d eq_refl). rewrite num_cons in Hn.
  pose proof (num_bound l Hds). destruct (decide (length (d :: l) ≤ n)%nat) as [|Hlt]; [done|].
  assert (pow n ≤ pow (length l)) by (apply Z.pow_le_mono_r; simpl in *; lia).
  pose proof (pow_pos (length l)). nia.
Qed.

Lemma digits_unique l1 l2 :
  leading l1 → leading l2 → digits_ok radix l1 → digits_ok radix l2 → num l1 = num l2 → l1 = l2.
Proof using Hradix.
  intros L1 L2 H1 H2 He. apply digits_inj; try done.
  pose proof (num_bound l1 H1) as B1. pose proof (num_bound l2 H2) as B2.
  pose proof (leading_length l1 (length l2) L1 H1). pose proof (leading_length l2 (length l1) L2 H2). lia.
Qed.

Lemma skip_zeroes_spec l :
  l = replicate (count_zeroes l) 0 ++ skip_zeroes l ∧ leading (skip_zeroes l).
Proof.
  unfold skip_zeroes. induction l as [|d l [IH Hl]]; [done|]. cbn [count_zeroes].
  destruct (Z.eqb_spec d 0) as [->|Hd]; [|by split; [|intros x [= <-]]]. cbn. by split; [f_equal|].
Qed.

Lemma skip_zeroes_ok l : digits_ok radix l → digits_ok radix (skip_zeroes l).
Proof. apply Forall_drop. Qed.

Lemma num_skip_zeroes l : num (skip_zeroes l) = num l.
Proof. destruct (skip_zeroes_spec l) as [E _]. rewrite E at 2. by rewrite num_replicate. Qed.

(** *** Applying digits to a buffer *)

Lemma length_mul_add mul c ds : length (mul_add mul radix c ds) = length ds.
Proof. revert c. induction ds; intros c; simpl; congruence. Qed.

Lemma mul_add_ok mul c ds : digits_ok radix (mul_add mul radix c ds).
Proof using Hradix.
  revert c. induction ds as [|d ds IH]; intros c; constructor; [|apply IH]. apply Z.mod_pos_bound. lia.
Qed.

(** As long as the number fits the buffer nothing is lost. *)
Lemma mul_add_num mul c ds :
  0 ≤ mul → 0 ≤ c → digits_ok radix ds → c + mul * num (reverse ds) < pow (length ds) →
  num (reverse (mul_add mul radix c ds)) = c + mul * num (reverse ds).
Proof using Hradix.
  intros Hm. revert c. induction ds as [|d ds IH]; intros c Hc Hds Hlt.
  { cbn in *. lia. }
  apply Forall_cons in Hds as [Hd Hds]. cbn [mul_add]. rewrite !reverse_cons, !num_snoc in *.
  cbn [length] in Hlt. rewrite Nat2Z.inj_succ, Z.pow_succ_r in Hlt by lia.
  pose proof (Z.div_mod (c + mul * d) radix ltac:(lia)) as Hdm.
  pose proof (Z.mod_pos_bound (c + mul * d) radix ltac:(lia)) as Hmod.
  assert (Hq : 0 ≤ (c + mul * d) `div` radix) by (apply Z.div_pos; nia).
  rewrite IH; [nia|done|done|]. pose proof (num_bound (reverse ds)) as Hb.
  set (q := (c + mul * d) `div` radix) in *. set (r := (c + mul * d) `mod` radix) in *.
  set (x := num (reverse ds)) in *. assert (radix * (q + mul * x) < radix * pow (length ds)) by nia. nia.
Qed.
End Radix.

Lemma digits_ok_replicate radix n : 1 < radix → digits_ok radix (replicate n 0).
Proof. intros Hr. apply Forall_replicate. lia. Qed.

Lemma num_zeroes radix n : num radix (replicate n 0) = 0.
Proof. rewrite <- (app_nil_r (replicate n 0)). by rewrite num_replicate. Qed.

Lemma apply_digits (mul radix : Z) (ds buf : list Z) :
  1 < mul → 1 < radix → digits_ok mul ds → digits_ok radix buf →
  num radix buf * mul ^ Z.of_nat (length ds) + num mul ds < radix ^ Z.of_nat (length buf) →
  let res := foldl (apply_digit mul radix) buf ds in
  digits_ok radix res ∧ num radix res = num radix buf * mul ^ Z.of_nat (length ds) + num mul ds.
Proof.
  intros Hm Hr. revert buf. induction ds as [|d ds IH]; intros buf Hds Hbuf Hlt.
  { cbn [foldl]. split; [done|]. change (num mul []) with 0. simpl. lia. }
  apply Forall_cons in Hds as [Hd Hds]. cbn [foldl]. rewrite num_cons in *.
  cbn [length] in *. rewrite Nat2Z.inj_succ, Z.pow_succ_r in * by lia.
  pose proof (num_bound mul Hm ds Hds) as Hnd. pose proof (num_bound radix Hr buf Hbuf) as Hnb.
  assert (Hstep : num radix (apply_digit mul radix buf d) = d + mul * num radix buf).
  { unfold apply_digit. rewrite mul_add_num; [by rewrite reverse_involutive|done|lia|lia|by apply Forall_reverse|].
    rewrite reverse_involutive, length_reverse. set (p := mul ^ Z.of_nat (length ds)) in *. nia. }
  assert (Hl : length (apply_digit mul radix buf d) = length buf).
  { unfold apply_digit. by rewrite length_reverse, length_mul_add, length_reverse. }
  destruct (IH (apply_digit mul radix buf d)) as [Hok Hn]; [done|apply Forall_reverse; by apply mul_add_ok|..].
  - rewrite Hl, Hstep. eapply Z.le_lt_trans; [|exact Hlt]. apply Z.eq_le_incl. ring.
  - split; [done|]. rewrite Hn, Hstep. ring.
Qed.

(** Converting a number to another radix. *)
Lemma convert_radix (mul radix : Z) (ds : list Z) (n : nat) :
  1 < mul → 1 < radix → digits_ok mul ds → mul ^ Z.of_nat (length ds) ≤ radix ^ Z.of_nat n →
  let res := skip_zeroes (foldl (apply_digit mul radix) (replicate n 0) ds) in
  digits_ok radix res ∧ leading res ∧ num radix res = num mul ds.
Proof.
  intros Hm Hr Hds Hle. pose proof (num_bound mul Hm ds Hds) as Hb.
  destruct (apply_digits mul radix ds (replicate n 0) Hm Hr Hds (digits_ok_replicate _ _ Hr)) as [Hok Hn].
  { rewrite num_zeroes, length_replicate. lia. }
  cbn zeta. split; [by apply skip_zeroes_ok|]. split; [apply skip_zeroes_spec|].
  rewrite num_skip_zeroes, Hn, num_zeroes. lia.
Qed.

Lemma leading_zeroes n l : leading l → count_zeroes (replicate n 0 ++ l) = n.
Proof.
  intros Hl. induction n as [|n IH]; [|cbn; by rewrite IH]. destruct l as [|d l]; [done|]. cbn.
  destruct (Z.eqb_spec d 0) as [->|]; [|done]. by destruct (Hl 0 eq_refl).
Qed.

(** The space [decodeBase58] allots is enough. *)
Lemma b256_space n : 58 ^ Z.of_nat n ≤ 256 ^ Z.of_nat (Z.to_nat ((Z.of_nat n * 733) `div` 1000 + 1)).
Proof.
  rewrite Z2Nat.id by (apply Z.add_nonneg_nonneg; [apply Z.div_pos; lia|lia]).
  set (k := (Z.of_nat n * 733) `div` 1000 + 1).
  apply (Z.pow_le_mono_l_iff _ _ 1000); [apply Z.pow_nonneg; lia|apply Z.pow_nonneg; lia|lia|].
  rewrite <- !Z.pow_mul_r by (unfold k; try apply Z.add_nonneg_nonneg; try apply Z.div_pos; lia).
  transitivity (256 ^ (733 * Z.of_nat n)).
  - rewrite (Z.mul_comm (Z.of_nat n)), !Z.pow_mul_r by lia. apply Z.pow_le_mono_l.
    split; [lia|]. vm_compute. discriminate.
  - apply Z.pow_le_mono_r; [lia|]. unfold k. div_lia.
Qed.

(** *** Alphabets *)

Lemma all_valid ds : digits_ok 58 ds → existsb (λ d, d =? -1) ds = false.
Proof.
  intros Hok. destruct (existsb _ ds) eqn:E; [|done].
  apply existsb_exists in E as (d & Hin & Hd%Z.eqb_eq). apply list_elem_of_In in Hin.
  unfold digits_ok in Hok. rewrite Forall_forall in Hok. specialize (Hok d Hin). lia.
Qed.

(** An alphabet of 58 different characters. *)
Definition alphabet_ok (alphabet : list Z) : bool :=
  (length alphabet =? 58)%nat &&
  forallb (λ i, InverseAlphabet alphabet (nth i alphabet 0) =? Z.of_nat i) (seq 0 58).

Section Alphabet.
Context (alphabet : list Z) (Hal : alphabet_ok alphabet = true).
Local Abbreviation inv := (InverseAlphabet alphabet).
Local Abbreviation chr d := (nth (Z.to_nat d) alphabet 0).

Lemma inv_chr d : 0 ≤ d < 58 → inv (chr d) = d.
Proof using Hal.
  intros Hd. unfold alphabet_ok in Hal. apply andb_true_iff in Hal as [_ H].
  rewrite forallb_forall in H. specialize (H (Z.to_nat d)). rewrite Z2Nat.id in H by lia.
  apply Z.eqb_eq, H, in_seq. lia.
Qed.

Lemma inverse_from_spec i ds c : 0 ≤ i →
  inverse_from i ds c = -1 ∨
  (i ≤ inverse_from i ds c < i + Z.of_nat (length ds) ∧ nth (Z.to_nat (inverse_from i ds c - i)) ds 0 = c).
Proof.
  revert i. induction ds as [|d ds IH]; intros i Hi; [by left|]. cbn [inverse_from length].
  destruct (Z.eqb_spec (inverse_from (i + 1) ds c) (-1)) as [E|E].
  - destruct (Z.eqb_spec d c) as [->|]; [|by left]. right. rewrite Z.sub_diag. split; [lia|done].
  - destruct (IH (i + 1) ltac:(lia)) as [|[Hr Hn]]; [done|]. right. split; [lia|].
    replace (Z.to_nat (inverse_from (i + 1) ds c - i)) with (S (Z.to_nat (inverse_from (i + 1) ds c - (i + 1)))) by lia.
    done.
Qed.

Lemma chr_inv c : inv c ≠ -1 → 0 ≤ inv c < 58 ∧ chr (inv c) = c.
Proof using Hal.
  intros Hc. unfold alphabet_ok in Hal. apply andb_true_iff in Hal as [Hl%Nat.eqb_eq _].
  destruct (inverse_from_spec 0 alphabet c) as [|[Hr Hn]]; [lia|done|]. rewrite Hl in Hr.
  rewrite Z.sub_0_r in Hn. split; [exact Hr|exact Hn].
Qed.

Lemma inv_chr_list l : digits_ok 58 l → inv <$> ((λ d, chr d) <$> l) = l.
Proof using Hal.
  induction 1 as [|d l Hd _ IH]; [done|]. rewrite !fmap_cons, IH. f_equal. by apply inv_chr.
Qed.

Lemma decode_encode_58 message n :
  Forall is_byte message → 256 ^ Z.of_nat (length message) ≤ 58 ^ Z.of_nat n →
  decodeBase58 (encodeBase58 message n alphabet) inv = message.
Proof using Hal.
  intros Hb Hn. unfold encodeBase58, decodeBase58.
  destruct (skip_zeroes_spec message) as [Hm Hlead].
  assert (Hbs : digits_ok 256 (skip_zeroes message)) by (by apply skip_zeroes_ok).
  destruct (convert_radix 256 58 (skip_zeroes message) n) as (Hok & Hl & Hnum); [lia|lia|done| |].
  { etransitivity; [|exact Hn]. apply Z.pow_le_mono_r; [lia|]. unfold skip_zeroes. rewrite length_drop. lia. }
  set (ds := skip_zeroes (foldl _ _ _)) in *. rewrite fmap_app, fmap_replicate, (inv_chr_list ds Hok).
  replace (inv (nth 0 alphabet 0)) with 0 by (symmetry; by apply (inv_chr 0)).
  rewrite leading_zeroes by done. rewrite drop_app_length' by (by rewrite length_replicate).
  rewrite (inv_chr_list ds Hok), (all_valid ds Hok).
  destruct (convert_radix 58 256 ds _ ltac:(lia) ltac:(lia) Hok (b256_space (length ds))) as (Hok' & Hl' & Hnum').
  transitivity (replicate (count_zeroes message) 0 ++ skip_zeroes message); [|done]. f_equal.
  apply (digits_unique 256); [lia|done..|congruence].
Qed.

Lemma encode_decode_58 s n :
  Forall (λ c, inv c ≠ -1) s → 256 ^ Z.of_nat (length (decodeBase58 s inv)) ≤ 58 ^ Z.of_nat n →
  encodeBase58 (decodeBase58 s inv) n alphabet = s.
Proof using Hal.
  intros Hs Hn. set (z := count_zeroes (inv <$> s)).
  assert (Hds : digits_ok 58 (inv <$> s)).
  { apply Forall_fmap. eapply Forall_impl; [done|]. intros c Hc. by apply chr_inv. }
  destruct (skip_zeroes_spec (inv <$> s)) as [Hsplit Hlead]. fold z in Hsplit.
  assert (Hdrop : inv <$> drop z s = skip_zeroes (inv <$> s)) by (unfold skip_zeroes; by rewrite fmap_drop).
  assert (Hdok : digits_ok 58 (inv <$> drop z s)) by (rewrite Hdrop; by apply skip_zeroes_ok).
  unfold decodeBase58 in *. fold z in Hn |- *. rewrite (all_valid _ Hdok) in Hn |- *.
  destruct (convert_radix 58 256 (inv <$> drop z s) _ ltac:(lia) ltac:(lia) Hdok (b256_space _)) as (Hok & Hl & Hnum).
  set (bs := skip_zeroes (foldl _ _ _)) in *. unfold encodeBase58. rewrite (leading_zeroes z bs Hl).
  assert (Hskip : skip_zeroes (replicate z 0 ++ bs) = bs).
  { unfold skip_zeroes. rewrite leading_zeroes by done. by rewrite drop_app_length' by (by rewrite length_replicate). }
  rewrite Hskip.
  destruct (convert_radix 256 58 bs n) as (Hok2 & Hl2 & Hnum2); [lia|lia|done| |].
  { etransitivity; [|exact Hn]. apply Z.pow_le_mono_r; [lia|]. rewrite length_app. lia. }
  set (ds := skip_zeroes (foldl _ _ bs)) in *.
  assert (ds = inv <$> drop z s) as ->.
  { apply (digits_unique 58); [lia|done|by rewrite Hdrop|done|done|congruence]. }
  rewrite <- list_fmap_compose.
  assert (Hid : ∀ l, Forall (λ c, inv c ≠ -1) l → ((λ d, chr d) ∘ inv) <$> l = l).
  { induction 1 as [|c l Hc _ IH]; [done|]. rewrite fmap_cons, IH. f_equal. by apply chr_inv. }
  rewrite Hid by (by apply Forall_drop).
  rewrite <- (take_drop z s) at 2. f_equal. rewrite <- (Hid (take z s)) by (by apply Forall_take).
  rewrite list_fmap_compose, fmap_take, Hsplit, take_app_length' by (by rewrite length_replicate).
  by rewrite fmap_replicate.
Qed.
End Alphabet.

Lemma ripple_alphabet : alphabet_ok rippleAlphabet = true.
Proof. vm_compute. reflexivity. Qed.
Lemma bitcoin_alphabet : alphabet_ok bitcoinAlphabet = true.
Proof. vm_compute. reflexivity. Qed.

(** *** Tokens *)

Section Tokens.
Context `{Hash256 : Sha256} (alphabet : list Z) (Hal : alphabet_ok alphabet = true).
Context (Hsha : ∀ m, length (sha256 m) = 32%nat ∧ Forall is_byte (sha256 m)).
Local Abbreviation inv := (InverseAlphabet alphabet).

Lemma length_checksum m : length (checksum m) = 4%nat.
Proof using Hsha. unfold checksum. rewrite length_take, (proj1 (Hsha _)). done. Qed.

Lemma b58_space k : 256 ^ Z.of_nat k ≤ 58 ^ Z.of_nat (k * 3 - k).
Proof.
  replace (Z.of_nat (k * 3 - k)) with (2 * Z.of_nat k) by lia. rewrite Z.pow_mul_r by lia.
  apply Z.pow_le_mono_l. lia.
Qed.

Lemma decode_encode_token type token :
  is_byte type → Forall is_byte token → token ≠ [] →
  decodeToken (encodeToken type token alphabet) type inv = token.
Proof using Hal Hsha.
  intros Ht Hb Hne. unfold encodeToken, decodeToken.
  set (data := type :: token). assert (Hd : Forall is_byte data) by (by constructor).
  assert (Hl : length (data ++ checksum data) = (1 + length token + 4)%nat)
    by (rewrite length_app, length_checksum; done).
  rewrite decode_encode_58; [|done| |rewrite Hl; apply b58_space].
  2: { apply Forall_app. split; [done|]. apply Forall_take, Hsha. }
  rewrite Hl. assert (0 < length token)%nat by (destruct token; [done|simpl; lia]).
  destruct (Nat.ltb_spec (1 + length token + 4) 6); [lia|].
  change (nth 0 (data ++ checksum data) 0) with type. rewrite Z.eqb_refl. cbn [negb].
  replace (1 + length token + 4 - 4)%nat with (length data) by (simpl; lia).
  rewrite take_app_length, drop_app_length, bool_decide_true by done. done.
Qed.

(** A string that is accepted is the encoding of what it is decoded to. *)
Lemma encode_decode_token s type :
  decodeToken s type inv ≠ [] → encodeToken type (decodeToken s type inv) alphabet = s.
Proof using Hal Hsha.
  unfold decodeToken. set (ret := decodeBase58 s inv).
  destruct (Nat.ltb_spec (length ret) 6); [done|]. destruct (Z.eqb_spec type (nth 0 ret 0)) as [Ht|]; [|done].
  cbn [negb]. case_bool_decide as Hc; [|done]. cbn [negb]. intros _.
  assert (Hdata : type :: drop 1 (take (length ret - 4) ret) = take (length ret - 4) ret).
  { destruct ret as [|t ret']; [simpl in *; lia|]. cbn in Ht. subst t.
    destruct (length (type :: ret') - 4)%nat as [|k] eqn:E; [simpl in *; lia|]. cbn. by rewrite drop_0. }
  unfold encodeToken. rewrite Hdata, Hc, take_drop.
  replace (1 + length (drop 1 (take (length ret - 4) ret)) + 4)%nat with (length ret).
  2: { rewrite length_drop, length_take. lia. }
  apply encode_decode_58; [done| |apply b58_space].
  assert (Hne : ret ≠ []) by (intros E; rewrite E in *; simpl in *; lia).
  unfold ret, decodeBase58 in Hne. destruct (existsb _ _) eqn:E; [done|].
  set (z := count_zeroes (inv <$> s)) in *. rewrite <- (take_drop z s). apply Forall_app. split.
  - assert (Hz : inv <$> take z s = replicate z 0).
    { destruct (skip_zeroes_spec (inv <$> s)) as [Hs _]. fold z in Hs. rewrite fmap_take, Hs.
      by rewrite take_app_length' by (by rewrite length_replicate). }
    apply Forall_forall. intros c Hin. apply (list_elem_of_fmap_2 inv) in Hin. rewrite Hz in Hin.
    apply elem_of_replicate in Hin as [-> _]. lia.
  - apply Forall_forall. intros c Hin Hc'.
    assert (Hex : existsb (λ d, d =? -1) (inv <$> drop z s) = true); [|congruence].
    apply existsb_exists. exists (inv c). split; [|by apply Z.eqb_eq].
    apply list_elem_of_In. by apply list_elem_of_fmap_2.
Qed.
End Tokens.

(** C34: the base58 text of an address, key or seed can be read back: decoding the encoding of
    a token of a type gives the token, and a text is only accepted if it is the
    encoding of the token it is read as, so that no two texts stand for the
    same token; with the alphabets of both Ripple and Bitcoin. *)
Theorem token_roundtrip `{Hash256 : Sha256} (type : Z) (token : list Z)
    (Hsha : ∀ m, length (sha256 m) = 32%nat ∧ Forall is_byte (sha256 m))
    (Ht : is_byte type) (Hb : Forall is_byte token) (Hne : token ≠ []) :
  decodeBase58Token (base58EncodeToken type token) type = token ∧
  decodeBase58TokenBitcoin (base58EncodeTokenBitcoin type token) type = token ∧
  (∀ s, decodeBase58Token s type = token → s = base58EncodeToken type token) ∧
  (∀ s, decodeBase58TokenBitcoin s type = token → s = base58EncodeTokenBitcoin type token).
Proof.
  split_and!.
  - by apply decode_encode_token; [apply ripple_alphabet|..].
  - by apply decode_encode_token; [apply bitcoin_alphabet|..].
  - intros s <-. symmetry. by apply encode_decode_token; [apply ripple_alphabet|..].
  - intros s <-. symmetry. by apply encode_decode_token; [apply bitcoin_alphabet|..].
Qed.

(** bytes written in hexadecimal or base64 are read back unchanged. *)
Theorem text_roundtrip (bytes : list Z) (Hb : Forall is_byte bytes) :
  strUnHex (strHex bytes) = Some bytes ∧ base64_decode (base64_encode bytes) = bytes.
Proof. split; [by apply strUnHex_strHex|by apply base64_roundtrip_bytes]. Qed.

Lemma text_roundtrip_witness :
  strUnHex (strHex [0; 255; 16; 77]) = Some [0; 255; 16; 77] ∧
  base64_decode (base64_encode [0; 255; 16; 77]) = [0; 255; 16; 77].
Proof.
  apply (text_roundtrip [0; 255; 16; 77]).
  repeat (apply Forall_cons_2; [split; vm_compute; discriminate || reflexivity|]). constructor.
Defined.

(** A digest for the example: the length and the sum of the bytes. *)
Definition sample_sha256 : Sha256 := λ m, to_be 32 (256 * sum (λ b, b) m + Z.of_nat (length m)).

Lemma token_roundtrip_witness :
  @decodeBase58Token sample_sha256 (@base58EncodeToken sample_sha256 0 [0; 1; 2]) 0 = [0; 1; 2].
Proof.
  refine (proj1 (@token_roundtrip sample_sha256 0 [0; 1; 2] _ _ _ _)).
  - intros m. split; [apply length_to_be|apply to_be_bytes].
  - split; vm_compute; discriminate || reflexivity.
  - repeat (apply Forall_cons_2; [split; vm_compute; discriminate || reflexivity|]). constructor.
  - discriminate.
Defined.
