(* ===== verification/Conditions.v ===== *)
(** * Crypto-conditions

    Model of [src/src/ripple/conditions]: the decoder of DER ([impl/utils.h]), conditions
    ([impl/Condition.cpp]), fulfillments ([impl/Fulfillment.cpp]) and the one type that
    is supported, the preimage of a SHA-256 digest ([impl/PreimageSha256.h]).

    A slice is a list of bytes.  A function that takes a slice by reference and may set
    an error code returns the error or its result with the rest of the slice. *)

From stdpp Require Import base numbers list.
From Stdlib Require Import Lia ZArith.
From S2P Require Import Prelude Serializer Encodings.

Local Open Scope Z_scope.

Inductive cc_error : Type :=
  | generic | unsupported_type | unsupported_subtype | unknown_type | unknown_subtype
  | fingerprint_size | incorrect_encoding | trailing_garbage | buffer_empty | buffer_overfull
  | buffer_underfull | malformed_encoding | short_preamble | unexpected_tag | long_tag
  | large_size | preimage_too_long.

Abbreviation slice := (list Z).
Abbreviation parsed A := (cc_error + A * slice)%type.

(** An [if (ec) return {}] after a call. *)
Definition parse_bind {A B} (m : parsed A) (f : A → slice → cc_error + B) : cc_error + B :=
  match m with inl e => inl e | inr (a, s) => f a s end.
Notation "'parse' '(' a ',' s ')' ':=' m 'in' k" := (parse_bind m (λ a s, k))
  (at level 10, a name, s name, m at level 100, k at level 200).

(** ** DER *)

Record Preamble : Type := mkPreamble { p_type : Z; p_tag : Z; p_length : Z }.

Definition isPrimitive (p : Preamble) : bool := Z.land (p_type p) 0x20 =? 0.
Definition isConstructed (p : Preamble) : bool := negb (isPrimitive p).
Definition isContextSpecific (p : Preamble) : bool := Z.land (p_type p) 0xC0 =? 0x80.

Definition be_value (bytes : slice) : Z := foldl (λ v b, u64 ((v ≪ 8) + b)) 0 bytes.

Definition parsePreamble (s : slice) : parsed Preamble :=
  match s with
  | b :: l :: s =>
    let type := Z.land b 0xE0 in
    let tag := Z.land b 0x1F in
    if tag =? 0x1F then inl long_tag else
    if negb (Z.land l 0x80 =? 0) then
      let cnt := Z.land l 0x7F in
      if cnt =? 0 then inl malformed_encoding else
      if 8 <? cnt then inl large_size else
      if Z.of_nat (length s) <? cnt then inl short_preamble else
      let len := be_value (take (Z.to_nat cnt) s) in
      if len =? 0 then inl malformed_encoding else inr (mkPreamble type tag len, drop (Z.to_nat cnt) s)
    else inr (mkPreamble type tag l, s)
  | _ => inl short_preamble
  end.

(** The count is a 32-bit parameter. *)
Definition parseOctetString (s : slice) (count : Z) : parsed slice :=
  let count := u32 count in
  if Z.of_nat (length s) <? count then inl buffer_underfull else
  if 65535 <? count then inl large_size else
  inr (take (Z.to_nat count) s, drop (Z.to_nat count) s).

(** [parseInteger<std::uint32_t>]. *)
Definition parseInteger (s : slice) (count : Z) : parsed Z :=
  match s with
  | [] => inl malformed_encoding
  | b :: _ =>
    if Z.of_nat (length s) <? count then inl buffer_underfull else
    if 5 <? count then inl large_size else
    if negb (Z.land b 128 =? 0) then inl malformed_encoding else
    if (count =? 5) && negb (b =? 0) then inl malformed_encoding else
    inr (foldl (λ v b, Z.lor (u32 (v ≪ 8)) (Z.land b 0xff)) 0 (take (Z.to_nat count) s), drop (Z.to_nat count) s)
  end.

(** ** Conditions *)

Inductive cc_type : Type := preimageSha256 | prefixSha256 | thresholdSha256 | rsaSha256 | ed25519Sha256.
#[export] Instance cc_type_eq_dec : EqDecision cc_type.
Proof. solve_decision. Defined.

(** The set of subtypes is empty for all conditions that can be made. *)
Record Condition : Type := mkCondition { c_kind : cc_type; c_cost : Z; c_fingerprint : slice }.

Definition condition_eq (a b : Condition) : bool :=
  bool_decide (c_kind a = c_kind b) && (c_cost a =? c_cost b) && bool_decide (c_fingerprint a = c_fingerprint b).

Definition fingerprintSize : Z := 32.
Definition maxSerializedCondition : Z := 128.
Definition maxSerializedFulfillment : Z := 256.
Definition maxPreimageLength : Z := 128.

Definition loadSimpleSha256 (type : cc_type) (s : slice) : cc_error + Condition :=
  parse (p, s) := parsePreamble s in
  if negb (isPrimitive p) || negb (isContextSpecific p) then inl incorrect_encoding else
  if negb (p_tag p =? 0) then inl unexpected_tag else
  if negb (p_length p =? fingerprintSize) then inl fingerprint_size else
  parse (b, s) := parseOctetString s (p_length p) in
  parse (p, s) := parsePreamble s in
  if negb (isPrimitive p) || negb (isContextSpecific p) then inl malformed_encoding else
  if negb (p_tag p =? 1) then inl unexpected_tag else
  parse (cost, s) := parseInteger s (p_length p) in
  if negb (bool_decide (s = [])) then inl trailing_garbage else
  if bool_decide (type = preimageSha256) && (maxPreimageLength <? cost) then inl preimage_too_long
  else inr (mkCondition type cost b).

(** An error inside the condition leaves the slice where it is, and is then replaced by
    [trailing_garbage]. *)
Definition Condition_deserialize (s : slice) : cc_error + Condition :=
  if bool_decide (s = []) then inl buffer_empty else
  parse (p, s) := parsePreamble s in
  if negb (isConstructed p) || negb (isContextSpecific p) then inl malformed_encoding else
  if Z.of_nat (length s) <? p_length p then inl buffer_underfull else
  if maxSerializedCondition <? Z.of_nat (length s) then inl large_size else
  if p_tag p =? 0 then
    let c := loadSimpleSha256 preimageSha256 (take (Z.to_nat (p_length p)) s) in
    let s := match c with inr _ => drop (Z.to_nat (p_length p)) s | inl _ => s end in
    if negb (bool_decide (s = [])) then inl trailing_garbage else c
  else if (1 <=? p_tag p) && (p_tag p <=? 4) then inl unsupported_type
  else inl unknown_type.

(** ** Fulfillments *)

Record Preimage : Type := mkPreimage { payload_ : slice }.

Definition Preimage_deserialize (s : slice) : cc_error + Preimage :=
  parse (p, s) := parsePreamble s in
  if negb (isPrimitive p) || negb (isContextSpecific p) then inl incorrect_encoding else
  if negb (p_tag p =? 0) then inl unexpected_tag else
  if negb (Z.of_nat (length s) =? p_length p) then inl trailing_garbage else
  if maxPreimageLength <? Z.of_nat (length s) then inl preimage_too_long else
  parse (b, _s) := parseOctetString s (p_length p) in inr (mkPreimage b).

Definition Fulfillment_deserialize (s : slice) : cc_error + Preimage :=
  if bool_decide (s = []) then inl buffer_empty else
  parse (p, s) := parsePreamble s in
  if negb (isConstructed p) || negb (isContextSpecific p) then inl malformed_encoding else
  if Z.of_nat (length s) <? p_length p then inl buffer_underfull else
  if p_length p <? Z.of_nat (length s) then inl buffer_overfull else
  if maxSerializedFulfillment <? p_length p then inl large_size else
  if p_tag p =? 0 then
    match Preimage_deserialize (take (Z.to_nat (p_length p)) s) with
    | inl e => inl e
    | inr f => if negb (bool_decide (drop (Z.to_nat (p_length p)) s = [])) then inl trailing_garbage else inr f
    end
  else if (1 <=? p_tag p) && (p_tag p <=? 4) then inl unsupported_type
  else inl unknown_type.

Section Validate.
Context `{Hash256 : Sha256}.

(** [PreimageSha256::condition]. *)
Definition condition_of (f : Preimage) : Condition :=
  mkCondition preimageSha256 (u32 (Z.of_nat (length (payload_ f)))) (sha256 (payload_ f)).

Definition match_condition (f : Preimage) (c : Condition) : bool :=
  bool_decide (preimageSha256 = c_kind c) && condition_eq c (condition_of f).

(** [validate (f, c)]; the message does not matter for a preimage. *)
Definition validate (f : Preimage) (c : Condition) : bool := match_condition f c && true.

(** [checkCondition] of [Escrow.cpp]. *)
Definition checkCondition (f c : slice) : bool :=
  match Condition_deserialize c with
  | inl _ => false
  | inr condition =>
    match Fulfillment_deserialize f with
    | inl _ => false
    | inr fulfillment => validate fulfillment condition
    end
  end.
End Validate.

(** ** The encodings *)

(** The distinguished encoding of a length below 256, and of an element. *)
Definition der_length (n : nat) : slice := if (n <? 128)%nat then [Z.of_nat n] else [0x81; Z.of_nat n].
Definition der (b : Z) (content : slice) : slice := b :: der_length (length content) ++ content.

(** The integer encoding of a cost up to the longest preimage. *)
Definition der_cost (n : Z) : slice := if n <? 128 then [n] else [0; n].

Definition encode_fulfillment (preimage : slice) : slice := der 0xA0 (der 0x80 preimage).
Definition encode_condition (fingerprint : slice) (cost : Z) : slice :=
  der 0xA0 (der 0x80 fingerprint ++ der 0x81 (der_cost cost)).

(** ** Laws *)

Lemma parsePreamble_der b content rest :
  (length content < 256)%nat → Z.land b 0x1F ≠ 0x1F →
  parsePreamble (der b content ++ rest) =
  inr (mkPreamble (Z.land b 0xE0) (Z.land b 0x1F) (Z.of_nat (length content)), content ++ rest).
Proof.
  intros Hl Hb. unfold der, der_length. destruct (Nat.ltb_spec (length content) 128) as [Hs|Hs]; cbn -[Z.land be_value Z.of_nat length].
  - destruct (Z.eqb_spec (Z.land b 31) 31); [done|].
    assert (Z.land (Z.of_nat (length content)) 128 = 0) as ->; [|done].
    rewrite <- (Z.mod_small (Z.of_nat (length content)) (2 ^ 7)) by lia.
    rewrite <- Z.land_ones, <- Z.land_assoc by lia. apply Z.land_0_r.
  - destruct (Z.eqb_spec (Z.land b 31) 31); [done|]. change (Z.land 129 128 =? 0) with false. cbn [negb].
    change (Z.land 129 127) with 1. cbn -[be_value Z.of_nat length Z.land]. change (length (Z.of_nat (length content) :: content ++ rest)) with (S (length (content ++ rest))).
    destruct (Z.ltb_spec (Z.of_nat (S (length (content ++ rest)))) 1); [lia|].
    change (Z.to_nat 1) with 1%nat. cbn [firstn skipn take drop]. rewrite take_0, drop_0.
    assert (be_value [Z.of_nat (length content)] = Z.of_nat (length content)) as ->.
    { unfold be_value. cbn [foldl]. rewrite Z.shiftl_0_l, Z.add_0_l. apply u64_small. unfold in_u64. lia. }
    destruct (Z.eqb_spec (Z.of_nat (length content)) 0); [lia|]. done.
Qed.

Lemma parsePreamble_der_all b content :
  (length content < 256)%nat → Z.land b 0x1F ≠ 0x1F →
  parsePreamble (der b content) =
  inr (mkPreamble (Z.land b 0xE0) (Z.land b 0x1F) (Z.of_nat (length content)), content).
Proof. intros Hl Hb. pose proof (parsePreamble_der b content [] Hl Hb) as H. by rewrite !app_nil_r in H. Qed.

Lemma parsePreamble_suffix s p s' : parsePreamble s = inr (p, s') → ∃ pre, s = pre ++ s'.
Proof.
  destruct s as [|b [|l s]]; try done. cbn -[Z.land]. repeat (case_match; try done); intros [= <- <-].
  - exists (b :: l :: take (Z.to_nat (Z.land l 127)) s). cbn. by rewrite take_drop.
  - by exists [b; l].
Qed.

Lemma parseOctetString_spec s n b s' :
  parseOctetString s n = inr (b, s') → s = b ++ s' ∧ Z.of_nat (length b) = u32 n.
Proof.
  unfold parseOctetString. destruct (Z.ltb_spec (Z.of_nat (length s)) (u32 n)); [done|].
  case_match; [done|]. intros [= <- <-]. rewrite take_drop, length_take. split; [done|].
  assert (0 ≤ u32 n) by (unfold u32; apply Z.mod_pos_bound; lia). lia.
Qed.

Lemma parseInteger_suffix s n v s' : parseInteger s n = inr (v, s') → ∃ pre, s = pre ++ s'.
Proof.
  destruct s as [|b s]; [done|]. unfold parseInteger. repeat (case_match; try done). intros [= <- <-].
  exists (take (Z.to_nat n) (b :: s)). by rewrite take_drop.
Qed.

Lemma length_der b content : (length (der b content) ≤ length content + 3)%nat.
Proof. unfold der, der_length. cbn. rewrite length_app. case_match; cbn; lia. Qed.

(** The encoding of a preimage is decoded. *)
Lemma fulfillment_decodes p :
  (length p ≤ 128)%nat → Fulfillment_deserialize (encode_fulfillment p) = inr (mkPreimage p).
Proof.
  intros Hl. pose proof (length_der 0x80 p) as Hd. unfold Fulfillment_deserialize, encode_fulfillment.
  rewrite parsePreamble_der_all by (lia || done).
  rewrite bool_decide_false by done. cbn [parse_bind].
  change (negb (isConstructed _) || _) with false. cbn [p_length p_tag p_type]. cbv iota.
  rewrite !Z.ltb_irrefl, Nat2Z.id. change (Z.land 160 31 =? 0) with true. cbv iota.
  destruct (Z.ltb_spec maxSerializedFulfillment (Z.of_nat (length (der 128 p)))) as [H|_];
    [unfold maxSerializedFulfillment in H; lia|].
  rewrite take_ge, drop_ge by lia. cbn [bool_decide negb].
  unfold Preimage_deserialize. rewrite parsePreamble_der_all by (lia || done).
  cbn [parse_bind]. change (negb (isPrimitive _) || _) with false. cbn [p_length p_tag p_type]. cbv iota.
  change (Z.land 128 31 =? 0) with true. rewrite Z.eqb_refl. cbn [negb]. cbv iota.
  destruct (Z.ltb_spec maxPreimageLength (Z.of_nat (length p))) as [H|_]; [unfold maxPreimageLength in H; lia|].
  unfold parseOctetString. rewrite u32_small by (unfold in_u32; lia). rewrite Z.ltb_irrefl, Nat2Z.id.
  destruct (Z.ltb_spec 65535 (Z.of_nat (length p))); [lia|]. cbn [parse_bind]. rewrite take_ge by lia.
  by rewrite bool_decide_true by done.
Qed.

Lemma parseInteger_cost n :
  0 ≤ n ≤ 128 → parseInteger (der_cost n) (Z.of_nat (length (der_cost n))) = inr (n, []).
Proof.
  intros Hn. unfold der_cost. destruct (Z.ltb_spec n 128).
  - cbn -[Z.land Z.lor]. rewrite <- (Z.mod_small n (2 ^ 7)) at 1 by lia.
    rewrite <- Z.land_ones, <- Z.land_assoc by lia. change (Z.land (Z.ones 7) 128) with 0. rewrite Z.land_0_r.
    change (inr (Z.lor 0 (Z.land n 255), @nil Z) = inr (A := cc_error) (n, @nil Z)). rewrite Z.lor_0_l. change 255 with (Z.ones 8). by rewrite Z.land_ones, Z.mod_small by lia.
  - replace n with 128 by lia. vm_compute. reflexivity.
Qed.

Lemma condition_decodes fp n :
  length fp = 32%nat → 0 ≤ n ≤ 128 →
  Condition_deserialize (encode_condition fp n) = inr (mkCondition preimageSha256 n fp).
Proof.
  intros Hf Hn. assert (Hc : (1 ≤ length (der_cost n) ≤ 2)%nat) by (unfold der_cost; case_match; cbn; lia).
  set (body := der 0x80 fp ++ der 0x81 (der_cost n)).
  assert (Hb : (length body < 120)%nat).
  { unfold body. rewrite length_app. pose proof (length_der 0x80 fp). pose proof (length_der 0x81 (der_cost n)). lia. }
  assert (Hload : loadSimpleSha256 preimageSha256 body = inr (mkCondition preimageSha256 n fp)).
  { unfold loadSimpleSha256, body. rewrite parsePreamble_der by (lia || done). cbn [parse_bind p_length p_tag].
    change (negb (isPrimitive (mkPreamble (Z.land 128 224) _ _)) || _) with false. change (Z.land 128 31 =? 0) with true. rewrite Hf. cbn [negb Z.eqb fingerprintSize].
    unfold parseOctetString. rewrite u32_small by (unfold in_u32; lia). rewrite length_app, Hf.
    destruct (Z.ltb_spec (Z.of_nat (32 + length (der 129 (der_cost n)))) (Z.of_nat 32)); [lia|].
    change (65535 <? Z.of_nat 32) with false. rewrite Nat2Z.id, take_app_length', drop_app_length' by done. cbn [parse_bind].
    rewrite parsePreamble_der_all by (lia || done). cbn [parse_bind p_length p_tag].
    change (negb (isPrimitive _) || _) with false. change (Z.land 129 31 =? 1) with true. cbn [negb].
    rewrite parseInteger_cost by done. cbn [parse_bind]. rewrite bool_decide_true by done. cbn [negb].
    rewrite bool_decide_true by done. cbn [andb]. destruct (Z.ltb_spec maxPreimageLength n) as [H'|]; [unfold maxPreimageLength in H'; lia|done]. }
  unfold Condition_deserialize, encode_condition. fold body. rewrite bool_decide_false by done.
  rewrite parsePreamble_der_all by (lia || done). cbn [parse_bind p_length p_tag].
  change (negb (isConstructed _) || _) with false. cbv iota. rewrite Z.ltb_irrefl.
  destruct (Z.ltb_spec maxSerializedCondition (Z.of_nat (length body))) as [H|_]; [unfold maxSerializedCondition in H; lia|].
  change (Z.land 160 31 =? 0) with true. cbv iota zeta. rewrite Nat2Z.id, take_ge, drop_ge, Hload by lia.
  by rewrite bool_decide_true by done.
Qed.

(** What is decoded is part of what was given. *)
Lemma fulfillment_payload f p :
  Fulfillment_deserialize f = inr p → (∃ pre, f = pre ++ payload_ p) ∧ Z.of_nat (length (payload_ p)) ≤ maxPreimageLength.
Proof.
  unfold Fulfillment_deserialize. case_bool_decide; [done|]. destruct (parsePreamble f) as [|[q s]] eqn:Eq; [done|]. cbn [parse_bind].
  destruct (_ || _); [done|]. destruct (Z.ltb_spec (Z.of_nat (length s)) (p_length q)); [done|].
  destruct (Z.ltb_spec (p_length q) (Z.of_nat (length s))); [done|]. case_match; [done|].
  case_match; [|by case_match]. rewrite take_ge by lia.
  destruct (Preimage_deserialize s) as [|g] eqn:Eg; [done|]. case_match; [done|]. intros [= <-].
  apply parsePreamble_suffix in Eq as [pre ->]. revert Eg. unfold Preimage_deserialize.
  destruct (parsePreamble s) as [|[q' s']] eqn:Eq'; [done|]. cbn [parse_bind].
  destruct (_ || _); [done|]. case_match; [done|]. destruct (Z.eqb_spec (Z.of_nat (length s')) (p_length q')) as [El|]; [|done].
  cbn [negb]. destruct (Z.ltb_spec maxPreimageLength (Z.of_nat (length s'))) as [|Hmax]; [done|].
  destruct (parseOctetString s' (p_length q')) as [|[b rest]] eqn:Eo; [done|]. intros [= <-]. cbn [payload_].
  apply parsePreamble_suffix in Eq' as [pre' ->]. apply parseOctetString_spec in Eo as [-> Hb].
  unfold maxPreimageLength in *. rewrite length_app in *.
  assert (rest = []) as ->.
  { apply length_zero_iff_nil. rewrite <- El, u32_small in Hb by (unfold in_u32; lia). lia. }
  rewrite app_nil_r in *. split; [|cbn in *; lia]. exists (pre ++ pre'). by rewrite app_assoc.
Qed.

Lemma condition_fingerprint c cond :
  Condition_deserialize c = inr cond →
  c_kind cond = preimageSha256 ∧ ∃ a b, c = a ++ c_fingerprint cond ++ b ∧ length (c_fingerprint cond) = 32%nat.
Proof.
  unfold Condition_deserialize. case_bool_decide; [done|]. destruct (parsePreamble c) as [|[q s]] eqn:Eq; [done|]. cbn [parse_bind].
  destruct (_ || _); [done|]. do 2 (case_match; [done|]). case_match; [|by case_match].
  destruct (loadSimpleSha256 preimageSha256 _) as [|k] eqn:El; [by case_bool_decide|]. case_bool_decide; [|done]. intros [= <-].
  apply parsePreamble_suffix in Eq as [pre ->]. set (s1 := take _ s) in El.
  assert (Hs : ∃ b, s = s1 ++ b) by (exists (drop (Z.to_nat (p_length q)) s); unfold s1; by rewrite take_drop).
  destruct Hs as [b Hs]. rewrite Hs. clear - El. clearbody s1. revert El. unfold loadSimpleSha256.
  destruct (parsePreamble s1) as [|[q1 s2]] eqn:E1; [done|]. cbn [parse_bind]. destruct (_ || _); [done|]. case_match; [done|].
  destruct (Z.eqb_spec (p_length q1) fingerprintSize) as [E32|]; [|done]. cbn [negb].
  destruct (parseOctetString s2 _) as [|[fp s3]] eqn:Eo; [done|]. cbn [parse_bind].
  destruct (parsePreamble s3) as [|[q2 s4]]; [done|]. cbn [parse_bind]. destruct (_ || _); [done|]. case_match; [done|].
  destruct (parseInteger s4 _) as [|[cost s5]]; [done|]. cbn [parse_bind]. repeat (case_match; try done). intros [= <-].
  split; [done|]. apply parsePreamble_suffix in E1 as [pre1 ->]. apply parseOctetString_spec in Eo as [-> Hl].
  rewrite E32 in Hl. cbn [c_fingerprint]. exists (pre ++ pre1), (s3 ++ b). split; [by rewrite <- !app_assoc|].
  unfold fingerprintSize in Hl. change (u32 32) with 32 in Hl. lia.
Qed.

Section Conditions.
Context `{Hash256 : Sha256}.

(** C24: a condition made of the digest of a preimage of at most 128 bytes is fulfilled by the
    encoding of the preimage; and whoever fulfils a condition, in whatever encoding the
    decoder accepts, has given bytes whose SHA-256 digest and length are those in the
    condition. *)
Theorem condition_fulfilled
    (Hsha : ∀ m, length (sha256 m) = 32%nat) :
  (∀ p, (length p ≤ 128)%nat →
    checkCondition (encode_fulfillment p) (encode_condition (sha256 p) (Z.of_nat (length p))) = true) ∧
  (∀ f c, checkCondition f c = true →
    ∃ p pre a b cond, f = pre ++ p ∧ (length p ≤ 128)%nat ∧ c = a ++ sha256 p ++ b ∧
      Condition_deserialize c = inr cond ∧ c_cost cond = Z.of_nat (length p)).
Proof.
  split.
  - intros p Hp. unfold checkCondition. rewrite condition_decodes, fulfillment_decodes by (done || lia).
    unfold validate, match_condition, condition_eq, condition_of. cbn. rewrite u32_small by (unfold in_u32; lia).
    by rewrite Z.eqb_refl, !bool_decide_true by done.
  - intros f c. unfold checkCondition. destruct (Condition_deserialize c) as [|cond] eqn:Ec; [done|].
    destruct (Fulfillment_deserialize f) as [|p] eqn:Ef; [done|].
    unfold validate, match_condition, condition_eq. rewrite andb_true_r.
    intros [_ [[_ Hcost%Z.eqb_eq]%andb_true_iff Hfp%bool_decide_eq_true]%andb_true_iff]%andb_true_iff.
    apply fulfillment_payload in Ef as [[pre ->] Hl]. pose proof (condition_fingerprint c cond Ec) as (_ & a & b & Hc & _).
    unfold maxPreimageLength in Hl. exists (payload_ p), pre, a, b, cond. cbn in *.
    rewrite u32_small in Hcost by (unfold in_u32; lia). split_and!; [done|lia| |done|done]. by rewrite <- Hfp.
Qed.
End Conditions.

(** The digest of the examples has the length of a real one. *)
Lemma condition_fulfilled_witness :
  @checkCondition sample_sha256 (encode_fulfillment [1; 2; 3])
    (encode_condition (sample_sha256 [1; 2; 3]) 3) = true ∧
  (∃ p pre a b cond, encode_fulfillment [] = pre ++ p ∧ (length p ≤ 128)%nat ∧
    encode_condition (sample_sha256 []) 0 = a ++ sample_sha256 p ++ b ∧
    Condition_deserialize (encode_condition (sample_sha256 []) 0) = inr cond ∧ c_cost cond = Z.of_nat (length p)).
Proof.
  destruct (@condition_fulfilled sample_sha256 (λ m, length_to_be _ _)) as [H1 H2]. split.
  - apply (H1 [1; 2; 3]). cbn. lia.
  - apply H2. vm_compute. reflexivity.
Defined.

(** The error found inside a condition is not the one that is reported: here the
    fingerprint has the wrong size. *)
Lemma condition_error_replaced :
  loadSimpleSha256 preimageSha256 [0x80; 0x01; 0x00] = inl fingerprint_size ∧
  Condition_deserialize [0xA0; 0x03; 0x80; 0x01; 0x00] = inl trailing_garbage.
Proof. by vm_compute. Qed.
