(* ===== verification/STTx.v ===== *)
(** * Transactions and their signatures

    Model of [src/src/ripple/protocol/impl/STTx.cpp] and [protocol/impl/Sign.cpp]: the
    construction of a transaction and its identity, the data that is signed, the
    checks of single and multiple signatures, the local checks, and of
    [checkValidity] ([app/tx/impl/apply.cpp]), which remembers their results in the
    hash router. *)

From stdpp Require Import base numbers list gmap strings sorting.
From Stdlib Require Import Lia ZArith.
From S2P Require Import Prelude XRPAmount Serializer STAmount StateTable SField STObject STObjectWire Indexes.
From S2P Require Import TxBase Keys Encodings HashRouter.

Local Open Scope Z_scope.

(** ** Hash prefixes *)

(** [HashPrefix (a, b, c)]. *)
Definition hash_prefix (s : string) : Z :=
  match text s with
  | [a; b; c] => u32 ((((((a ≪ 8) + b) ≪ 8) + c) ≪ 8))
  | _ => 0
  end.

Definition HP_transactionID : Z := hash_prefix "TXN".
Definition HP_txNode : Z := hash_prefix "SND".
Definition HP_leafNode : Z := hash_prefix "MLN".
Definition HP_innerNode : Z := hash_prefix "MIN".
Definition HP_innerNodeV2 : Z := hash_prefix "INR".
Definition HP_ledgerMaster : Z := hash_prefix "LWR".
Definition HP_txSign : Z := hash_prefix "STX".
Definition HP_txMultiSign : Z := hash_prefix "SMT".
Definition HP_validation : Z := hash_prefix "VAL".
Definition HP_proposal : Z := hash_prefix "PRP".
Definition HP_manifest : Z := hash_prefix "MAN".
Definition HP_paymentChannelClaim : Z := hash_prefix "CLM".

(** ** Transactions *)

Record STTx : Type := mkTx { tx_obj : STObject; tid_ : Z; tx_type_ : Z }.

Definition minMultiSigners : nat := 1.
Definition maxMultiSigners : nat := 8.
Definition txMinSizeBytes : Z := 32.
Definition txMaxSizeBytes : Z := 1024 * 1024.

Section Tx.
Context `{Hash : Sha512} `{Lib : Crypto}.

(** [STObject::getHash]. *)
Definition getHash (prefix : Z) (o : STObject) : outcome Z :=
  s ← st_add withAllFields o (add32 prefix []).2; Ret (sha512Half s).

Definition getTxFormat (type : Z) : outcome SOTemplate :=
  match findByType TxFormats type with
  | None => Throw (runtime_error ("Invalid transaction type " +:+ to_string type))
  | Some t => Ret t
  end.

(** [STTx (STObject&&)]. *)
Definition make_STTx (o : STObject) : outcome STTx :=
  type ← getFieldU16 o sfTransactionType;
  t ← getTxFormat type;
  o ← applyTemplate t o;
  id ← getHash HP_transactionID o;
  Ret (mkTx o id type).

(** [STTx (SerialIter&)]. *)
Definition read_STTx : reader STTx := λ it,
  let length := Z.of_nat (remain_ it) in
  if (length <? txMinSizeBytes) || (txMaxSizeBytes <? length)
  then Throw (runtime_error "Transaction length invalid")
  else
    match read_object 10 it with
    | Throw e => Throw e
    | Ret (true, _, _) => Throw (runtime_error "Transaction contains an object terminator")
    | Ret (false, o, it) => tx ← make_STTx o; Ret (tx, it)
    end.

(** [sterilize]. *)
Definition sterilize (tx : STTx) : outcome STTx :=
  s ← st_add withAllFields (tx_obj tx) []; '(tx, _) ← read_STTx (iter_of s); Ret tx.

Definition getSigningPubKey (tx : STTx) : outcome (list Z) := getFieldVL (tx_obj tx) sfSigningPubKey.
Definition getSequence (tx : STTx) : outcome Z := getFieldU32 (tx_obj tx) sfSequence.

(** ** Signatures *)

Definition getSigningData (o : STObject) : outcome Serializer :=
  addWithoutSigningFields o (add32 HP_txSign []).2.
Definition startMultiSigningData (o : STObject) : outcome Serializer :=
  addWithoutSigningFields o (add32 HP_txMultiSign []).2.
Definition finishMultiSigningData (signingID : Z) (s : Serializer) : Serializer := (add160 signingID s).2.
Definition buildMultiSigningData (o : STObject) (signingID : Z) : outcome Serializer :=
  s ← startMultiSigningData o; Ret (finishMultiSigningData signingID s).

(** A [catch] for any exception. *)
Definition or_else {A} (m : outcome A) (a : A) : A := match m with Ret x => x | Throw _ => a end.

Definition checkSingleSign (tx : STTx) : outcome bool :=
  let o := tx_obj tx in
  if isFieldPresent o sfSigners then Ret false
  else Ret (or_else (
    let fullyCanonical := flagged (getFlags o) tfFullyCanonicalSig in
    spk ← getFieldVL o sfSigningPubKey;
    match publicKeyType spk with
    | None => Ret false
    | Some _ =>
      signature ← getFieldVL o sfTxnSignature;
      data ← getSigningData o;
      verify spk data signature fullyCanonical
    end) false).

(** One signer of a multi-signature. *)
Definition signer_valid (dataStart : Serializer) (fullyCanonical : bool) (accountID : Z) (signer : STObject) : bool :=
  or_else (
    let s := finishMultiSigningData accountID dataStart in
    spk ← getFieldVL signer sfSigningPubKey;
    match publicKeyType spk with
    | None => Ret false
    | Some _ => signature ← getFieldVL signer sfTxnSignature; verify spk s signature fullyCanonical
    end) false.

Fixpoint check_signers (dataStart : Serializer) (fullyCanonical : bool) (txnAccountID lastAccountID : Z)
    (signers : list (SField * STObject)) : outcome bool :=
  match signers with
  | [] => Ret true
  | (_, signer) :: signers =>
    accountID ← getAccountID signer sfAccount;
    if accountID =? txnAccountID then Ret false else
    if lastAccountID =? accountID then Ret false else
    if accountID <? lastAccountID then Ret false else
    if negb (signer_valid dataStart fullyCanonical accountID signer) then Ret false
    else check_signers dataStart fullyCanonical txnAccountID accountID signers
  end.

Definition tx_checkMultiSign (tx : STTx) : outcome bool :=
  let o := tx_obj tx in
  if negb (isFieldPresent o sfSigners) then Ret false else
  if isFieldPresent o sfTxnSignature then Ret false else
  signers ← getFieldArray o sfSigners;
  if (length signers <? minMultiSigners)%nat || (maxMultiSigners <? length signers)%nat then Ret false else
  dataStart ← startMultiSigningData o;
  txnAccountID ← getAccountID o sfAccount;
  check_signers dataStart (flagged (getFlags o) tfFullyCanonicalSig) txnAccountID 0 signers.

(** [STTx::checkSign]. *)
Definition tx_checkSign (allowMultiSign : bool) (tx : STTx) : bool :=
  or_else (
    if allowMultiSign then
      signingPubKey ← getFieldVL (tx_obj tx) sfSigningPubKey;
      if bool_decide (signingPubKey = []) then tx_checkMultiSign tx else checkSingleSign tx
    else checkSingleSign tx) false.

(** ** Local checks *)

Definition memo_symbols : list Z :=
  text "0123456789-._~:/?#[]@!$&'()*+,;=%ABCDEFGHIJKLMNOPQRSTUVWXYZabcdefghijklmnopqrstuvwxyz".

(** The text of the elements of a memo. *)
Definition memo_text (x : STVar) : list Z := match x with Blob b => strHex b | _ => [] end.

Definition memo_element_ok (e : SField * STVar) : bool :=
  let '(name, x) := e in
  if negb (same_field name sfMemoType) && negb (same_field name sfMemoData) && negb (same_field name sfMemoFormat)
  then false
  else
    match strUnHex (memo_text x) with
    | None => false
    | Some data => same_field name sfMemoData || forallb (λ c, bool_decide (c ∈ memo_symbols)) data
    end.

Definition isMemoOkay (st : STObject) : outcome bool :=
  if negb (isFieldPresent st sfMemos) then Ret true else
  memos ← getFieldArray st sfMemos;
  s ← add_var (Array memos) [];
  if 1024 <? Z.of_nat (length s) then Ret false
  else Ret (forallb (λ m, same_field m.1 sfMemo && forallb memo_element_ok (v_ m.2)) memos).

Definition isAccountFieldOkay (st : STObject) : bool :=
  forallb (λ e, match e.2 with Account _ d => negb d | _ => true end) (v_ st).

Definition isPseudoTx (st : STObject) : bool :=
  match get_optional U16 st sfTransactionType with
  | None => false
  | Some t => (t =? ttAMENDMENT) || (t =? ttFEE)
  end.

Definition passesLocalChecks (st : STObject) : outcome bool :=
  memo ← isMemoOkay st;
  Ret (memo && isAccountFieldOkay st && negb (isPseudoTx st)).

(** ** Validity *)

Definition SF_SIGBAD : Z := SF_PRIVATE1.
Definition SF_SIGGOOD : Z := SF_PRIVATE2.
Definition SF_LOCALBAD : Z := SF_PRIVATE3.
Definition SF_LOCALGOOD : Z := SF_PRIVATE4.

Inductive Validity : Type := SigBad | SigGoodOnly | Valid.
#[export] Instance Validity_eq_dec : EqDecision Validity.
Proof. solve_decision. Defined.

Definition checkValidity (now : Z) (rules : Rules) (tx : STTx) (router : HashRouter) :
    outcome Validity * HashRouter :=
  let allowMultiSign := enabled rules featureMultiSign in
  let id := tid_ tx in
  let '(flags, router) := router_getFlags now id router in
  if flagged flags SF_SIGBAD then (Ret SigBad, router) else
  let '(bad, router) :=
    if negb (flagged flags SF_SIGGOOD) then
      if negb (tx_checkSign allowMultiSign tx)
      then (true, (router_setFlags now id SF_SIGBAD router).2)
      else (false, (router_setFlags now id SF_SIGGOOD router).2)
    else (false, router) in
  if (bad : bool) then (Ret SigBad, router) else
  if flagged flags SF_LOCALBAD then (Ret SigGoodOnly, router) else
  if flagged flags SF_LOCALGOOD then (Ret Valid, router) else
  match passesLocalChecks (tx_obj tx) with
  | Throw e => (Throw e, router)
  | Ret false => (Ret SigGoodOnly, (router_setFlags now id SF_LOCALBAD router).2)
  | Ret true => (Ret Valid, (router_setFlags now id SF_LOCALGOOD router).2)
  end.

Definition forceValidity (now txid : Z) (validity : Validity) (router : HashRouter) : HashRouter :=
  let flags := match validity with
               | Valid => Z.lor SF_LOCALGOOD SF_SIGGOOD
               | SigGoodOnly => SF_SIGGOOD
               | SigBad => 0
               end in
  if flags =? 0 then router else (router_setFlags now txid flags router).2.

(** ** The results that are remembered *)

(** The validity of a transaction, computed anew. *)
Definition validity (rules : Rules) (tx : STTx) : outcome Validity :=
  if negb (tx_checkSign (enabled rules featureMultiSign) tx) then Ret SigBad
  else ok ← passesLocalChecks (tx_obj tx); Ret (if (ok : bool) then Valid else SigGoodOnly).

(** Flags that tell the truth about a transaction. *)
Record honest (rules : Rules) (tx : STTx) (flags : Z) : Prop := mkHonest {
  honest_sigbad : flagged flags SF_SIGBAD = true → tx_checkSign (enabled rules featureMultiSign) tx = false;
  honest_siggood : flagged flags SF_SIGGOOD = true → tx_checkSign (enabled rules featureMultiSign) tx = true;
  honest_localbad : flagged flags SF_LOCALBAD = true → passesLocalChecks (tx_obj tx) = Ret false;
  honest_localgood : flagged flags SF_LOCALGOOD = true → passesLocalChecks (tx_obj tx) = Ret true }.

Lemma honest_none rules tx : honest rules tx 0.
Proof. by split. Qed.

Lemma honest_lor rules tx f g : honest rules tx f → honest rules tx g → honest rules tx (Z.lor f g).
Proof.
  intros [] []. split; rewrite flagged_lor; intros [?|?]%orb_true_iff; auto.
Qed.

Definition honest_router (rules : Rules) (txs : list STTx) (r : HashRouter) : Prop :=
  ∀ tx, tx ∈ txs → honest rules tx (known_flags r (tid_ tx)).

Lemma honest_setFlags rules txs now id f r :
  (∀ tx, tx ∈ txs → tid_ tx = id → honest rules tx f) →
  honest_router rules txs r → honest_router rules txs (router_setFlags now id f r).2.
Proof.
  intros Hf Hr tx Htx. destruct (known_setFlags now id f r (tid_ tx)) as [->|[->|[He ->]]].
  - by apply Hr.
  - apply honest_none.
  - apply honest_lor; [by apply Hr|by apply Hf].
Qed.

Lemma honest_getFlags rules txs now id r :
  honest_router rules txs r →
  honest_router rules txs (router_getFlags now id r).2 ∧ (router_getFlags now id r).1 = known_flags r id.
Proof.
  intros Hr. split; [|apply known_getFlags]. intros tx Htx.
  destruct (known_getFlags_state now id r (tid_ tx)) as [->| ->]; [by apply Hr|apply honest_none].
Qed.

(** With honest flags a check returns the validity, and its own flags are honest. *)
Lemma checkValidity_honest now rules txs tx r :
  (∀ tx', tx' ∈ txs → tid_ tx' = tid_ tx → tx' = tx) → tx ∈ txs → honest_router rules txs r →
  (checkValidity now rules tx r).1 = validity rules tx ∧
  honest_router rules txs (checkValidity now rules tx r).2.
Proof.
  intros Hinj Htx Hr. unfold checkValidity, validity.
  pose proof (honest_getFlags rules txs now (tid_ tx) r Hr) as [Hr1 Hf].
  destruct (router_getFlags now (tid_ tx) r) as [flags r1]. cbn in Hr1, Hf. subst flags.
  destruct (Hr tx Htx) as [Hb Hg Hlb Hlg]. set (flags := known_flags r (tid_ tx)) in *.
  assert (Hset : ∀ f r, honest rules tx f → honest_router rules txs r →
    honest_router rules txs (router_setFlags now (tid_ tx) f r).2).
  { intros f r' Hf Hr'. apply honest_setFlags; [|done]. intros tx' H1 H2. by rewrite (Hinj tx' H1 H2). }
  destruct (flagged flags SF_SIGBAD); [by rewrite Hb|].
  destruct (flagged flags SF_SIGGOOD); [rewrite Hg by done|destruct (tx_checkSign _ tx) eqn:Es]; cbn [negb].
  2: set (r2 := (router_setFlags _ _ SF_SIGGOOD r1).2);
     assert (Hr2 : honest_router rules txs r2) by (apply Hset; [by split|done]); clearbody r2; clear Hr1.
  3: split; [done|apply Hset; [by split|done]].
  all: destruct (flagged flags SF_LOCALBAD); [by rewrite Hlb|].
  all: destruct (flagged flags SF_LOCALGOOD); [by rewrite Hlg|].
  all: destruct (passesLocalChecks (tx_obj tx)) as [[]|e] eqn:El; cbn; (split; [done|]); try done.
  all: apply Hset; [by split|done].
Qed.

(** What happens to the router between checks: other uses of it, which leave the
    four flags alone, and results that are forced because they are known. *)
Inductive event : Type :=
| CheckTx (tx : STTx)
| Force (txid : Z) (v : Validity)
| Use (c : call).

Definition event_step (now : Z) (rules : Rules) (e : event) (r : HashRouter) : option (outcome Validity) * HashRouter :=
  match e with
  | CheckTx tx => let '(v, r) := checkValidity now rules tx r in (Some v, r)
  | Force id v => (None, forceValidity now id v r)
  | Use c => (None, (exec now c r).2)
  end.

Fixpoint event_steps (rules : Rules) (h : list (Z * event)) (r : HashRouter) : list (option (outcome Validity)) :=
  match h with
  | [] => []
  | (now, e) :: h => let '(v, r) := event_step now rules e r in v :: event_steps rules h r
  end.

Definition private_flags : Z := Z.lor (Z.lor SF_SIGBAD SF_SIGGOOD) (Z.lor SF_LOCALBAD SF_LOCALGOOD).

Definition event_ok (rules : Rules) (txs : list STTx) (e : event) : Prop :=
  match e with
  | CheckTx tx => tx ∈ txs
  | Force id v => ∀ tx, tx ∈ txs → tid_ tx = id →
      match v with
      | Valid => validity rules tx = Ret Valid
      | SigGoodOnly => validity rules tx ≠ Ret SigBad
      | SigBad => True
      end
  | Use (SetFlags _ f) => Z.land f private_flags = 0
  | Use _ => True
  end.

Lemma private_honest rules tx f : Z.land f private_flags = 0 → honest rules tx f.
Proof.
  intros Hf. assert (Hz : ∀ g, Z.land private_flags g = g → flagged f g = false).
  { intros g <-. unfold flagged. by rewrite Z.land_assoc, Hf, Z.land_0_l. }
  split; by rewrite Hz.
Qed.

Lemma forceValidity_honest now rules txs id v r :
  event_ok rules txs (Force id v) → honest_router rules txs r → honest_router rules txs (forceValidity now id v r).
Proof.
  intros Hv Hr. unfold forceValidity. case_match; [done|]. apply honest_setFlags; [|done].
  intros tx Htx Hid. specialize (Hv tx Htx Hid). revert Hv. unfold validity.
  destruct (tx_checkSign _ tx) eqn:Es; cbn [negb]; [|by destruct v].
  destruct (passesLocalChecks (tx_obj tx)) as [[]|] eqn:El; cbn; destruct v; try done; by split.
Qed.

(** Each check of a history, made with a cold or a warm router, gives the validity. *)
Lemma event_steps_honest rules txs h r :
  (∀ tx tx', tx ∈ txs → tx' ∈ txs → tid_ tx = tid_ tx' → tx = tx') →
  Forall (λ e, event_ok rules txs e.2) h → honest_router rules txs r →
  event_steps rules h r =
  map (λ e : Z * event, match e.2 with CheckTx tx => Some (validity rules tx) | _ => None end) h.
Proof.
  intros Hinj. revert r. induction h as [|[now e] h IH]; intros r Hh Hr; [done|].
  apply Forall_cons in Hh as [He Hh]. destruct e as [tx|id v|c]; cbn.
  - destruct (checkValidity_honest now rules txs tx r) as [H1 H2]; [by intros; apply Hinj|done..|].
    destruct (checkValidity now rules tx r) as [v r']. cbn in *. rewrite H1. f_equal. by apply IH.
  - f_equal. apply IH; [done|]. by apply forceValidity_honest.
  - f_equal. apply IH; [done|].
    assert ((∃ k f, c = SetFlags k f) ∨ ∀ k f, c ≠ SetFlags k f) as [(k & f & ->)|Hc]
      by (destruct c; eauto; by right).
    + cbn in He |- *. destruct (router_setFlags now k f r) as [b r'] eqn:E.
      change r' with (b, r').2. rewrite <- E. apply honest_setFlags; [|done]. intros. by apply private_honest.
    + intros tx Htx. destruct (known_exec now c r (tid_ tx)) as [->| ->];
        [done|by apply Hr|apply honest_none].
Qed.

(** ** Who has signed *)

(** A multi-signature that is accepted has verified signatures of distinct accounts, in
    increasing order, none of them the account itself. *)
Lemma check_signers_ordered start canonical account last signers :
  check_signers start canonical account last signers = Ret true →
  ∃ ids, mapM (λ s, getAccountID s.2 sfAccount) signers = Ret ids ∧
    StronglySorted Z.lt (last :: ids) ∧ (account ∉ ids) ∧
    Forall2 (λ id s, signer_valid start canonical id s.2 = true) ids signers.
Proof.
  revert last. induction signers as [|[f s] signers IH]; intros last H.
  - exists []. split_and!; [done|by repeat constructor|set_solver|constructor].
  - cbn in H. destruct (getAccountID s sfAccount) as [id|] eqn:Eid; [|done]. cbn in H.
    destruct (Z.eqb_spec id account) as [|Hne]; [done|]. destruct (Z.eqb_spec last id) as [|Hne']; [done|].
    destruct (Z.ltb_spec id last); [done|]. destruct (signer_valid _ _ id s) eqn:Es; [|done]. cbn in H.
    destruct (IH id H) as (ids & Hm & Hs & Hn & Hv). exists (id :: ids). cbn. rewrite Eid. cbn. rewrite Hm. cbn.
    split; [done|]. split_and!; [|set_solver|by constructor].
    constructor; [done|]. apply StronglySorted_inv in Hs as [_ Hall]. constructor; [lia|].
    eapply Forall_impl; [exact Hall|]. cbn. lia.
Qed.
End Tx.

(** ** The theorems *)

(** whatever the router has been used for before, each check of a transaction returns the
    validity computed from the transaction alone, as long as other users leave the four
    private flags alone and forced results are true ones.  The cache of results in the
    router is never wrong, also after entries have expired. *)
Theorem checkValidity_cached `{Hash : Sha512} `{Lib : Crypto} (rules : Rules) (txs : list STTx)
    (h : list (Z * event)) (hold limit : Z)
    (Hinj : ∀ tx tx', tx ∈ txs → tx' ∈ txs → tid_ tx = tid_ tx' → tx = tx')
    (Hh : Forall (λ e, event_ok rules txs e.2) h) :
  event_steps rules h (make_router hold limit) =
  map (λ e : Z * event, match e.2 with CheckTx tx => Some (validity rules tx) | _ => None end) h.
Proof. apply (event_steps_honest rules txs); [done..|]. intros tx _. apply honest_none. Qed.

(** a multi-signature is accepted only when it has one to eight signers, in strictly
    increasing order of their accounts, none of them the account of the transaction or the
    zero account, and each signature verifies against the transaction's multi-signing data
    for that account. *)
Theorem multisign_sound `{Hash : Sha512} `{Lib : Crypto} (tx : STTx)
    (H : tx_checkMultiSign tx = Ret true) :
  ∃ signers ids account start,
    getFieldArray (tx_obj tx) sfSigners = Ret signers ∧ (1 ≤ length signers ≤ 8)%nat ∧
    getAccountID (tx_obj tx) sfAccount = Ret account ∧ startMultiSigningData (tx_obj tx) = Ret start ∧
    StronglySorted Z.lt (0 :: ids) ∧ (account ∉ ids) ∧
    Forall2 (λ id s, getAccountID s.2 sfAccount = Ret id ∧
      signer_valid start (flagged (getFlags (tx_obj tx)) tfFullyCanonicalSig) id s.2 = true) ids signers.
Proof.
  revert H. unfold tx_checkMultiSign. destruct (negb _); [done|]. destruct (isFieldPresent _ sfTxnSignature); [done|].
  destruct (getFieldArray _ _) as [signers|] eqn:Ea; [|done]. cbn [mbind outcome_bind].
  destruct (Nat.ltb_spec (length signers) minMultiSigners) as [|H1]; [done|].
  destruct (Nat.ltb_spec maxMultiSigners (length signers)) as [|H2]; [done|]. cbn [orb].
  destruct (startMultiSigningData _) as [start|] eqn:Es; [|done]. cbn [mbind outcome_bind].
  destruct (getAccountID _ _) as [account|] eqn:Eacc; [|done]. cbn [mbind outcome_bind].
  intros (ids & Hm & Hs & Hn & Hv)%check_signers_ordered. exists signers, ids, account, start.
  unfold minMultiSigners, maxMultiSigners in *. split_and!; try done; try lia.
  clear - Hm Hv. revert ids Hm Hv. induction signers as [|s signers IH]; intros ids Hm Hv.
  - by apply Forall2_nil_inv_r in Hv as ->.
  - apply Forall2_cons_inv_r in Hv as (id & ids' & Hid & Hv & ->). cbn in Hm.
    destruct (getAccountID s.2 sfAccount) as [id'|] eqn:E; [|done]. cbn in Hm.
    destruct (mapM _ signers) as [l|] eqn:El; [|done]. cbn in Hm. injection Hm as -> ->.
    constructor; [done|]. by apply IH.
Qed.

(** *** Witnesses *)

(** A library whose signatures all verify. *)
Definition trusting_crypto : Crypto := {|
  ec_pubkey := unit; ec_signature := unit;
  ec_pubkey_parse := λ _, Some tt; ecdsa_signature_parse_der := λ _, Some tt;
  ecdsa_signature_normalize := λ _, (true, tt); ecdsa_verify := λ _ _ _, true;
  ed25519_sign_open := λ _ _ _, true; ripesha := λ _, 0 |}.

Definition test_signer (id : Z) : SField * STObject :=
  (sfSigner, mkObject None [(sfSigningPubKey, Blob (0xED :: replicate 32 7)); (sfTxnSignature, Blob (replicate 64 0));
    (sfAccount, Account id false)]).

Definition test_multisigned : STTx :=
  mkTx (mkObject None [(sfTransactionType, UInt16 3); (sfSigningPubKey, Blob []); (sfAccount, Account 5 false);
    (sfSigners, Array [test_signer 3; test_signer 9])]) 77 3.

Lemma multisign_sound_witness :
  tx_checkMultiSign (Hash := number_hash) (Lib := trusting_crypto) test_multisigned = Ret true ∧
  ∃ signers, getFieldArray (tx_obj test_multisigned) sfSigners = Ret signers ∧ (1 ≤ length signers ≤ 8)%nat.
Proof.
  assert (H : tx_checkMultiSign (Hash := number_hash) (Lib := trusting_crypto) test_multisigned = Ret true)
    by (vm_compute; reflexivity).
  split; [exact H|].
  destruct (multisign_sound (Hash := number_hash) (Lib := trusting_crypto) test_multisigned H)
    as (signers & ids & account & start & H1 & H2 & _).
  exact (ex_intro _ signers (conj H1 H2)).
Defined.

Lemma checkValidity_cached_witness :
  let h := [(0, CheckTx test_multisigned); (4, Use (Relay 77)); (9, CheckTx test_multisigned)] in
  event_steps (Hash := number_hash) (Lib := trusting_crypto) (λ _, true) h (make_router 300 1) =
  [Some (Ret Valid); None; Some (Ret Valid)].
Proof.
  cbn zeta. rewrite (checkValidity_cached (Hash := number_hash) (Lib := trusting_crypto) (λ _, true)
    [test_multisigned]).
  - vm_compute. reflexivity.
  - by intros tx tx' ->%list_elem_of_singleton ->%list_elem_of_singleton.
  - repeat constructor.
Defined.
