(* ===== verification/LoadFeeTrack.v ===== *)
(** * Load fees

    Model of [src/src/ripple/app/misc/LoadFeeTrack.h] and
    [app/misc/impl/LoadFeeTrack.cpp]: the load factors that scale the fee of a
    transaction, and [scaleFeeLoad], which computes
    [fee * base * factor / (units * 256)] in 64 bits. *)

From stdpp Require Import base numbers list strings.
From Stdlib Require Import Lia ZArith Znumtheory.
From S2P Require Import Prelude XRPAmount TxBase.

Local Open Scope Z_scope.

Definition lftNormalFee : Z := 256.
Definition lftFeeIncFraction : Z := 4.
Definition lftFeeDecFraction : Z := 4.
Definition lftFeeMax : Z := lftNormalFee * 1000000.

Record LoadFeeTrack : Type := mkTrack {
  localTxnLoadFee_ : Z;
  remoteTxnLoadFee_ : Z;
  clusterTxnLoadFee_ : Z;
  raiseCount_ : Z }.

Definition new_track : LoadFeeTrack := mkTrack lftNormalFee lftNormalFee lftNormalFee 0.

Definition setRemoteFee (f : Z) (t : LoadFeeTrack) : LoadFeeTrack :=
  mkTrack (localTxnLoadFee_ t) f (clusterTxnLoadFee_ t) (raiseCount_ t).
Definition setClusterFee (f : Z) (t : LoadFeeTrack) : LoadFeeTrack :=
  mkTrack (localTxnLoadFee_ t) (remoteTxnLoadFee_ t) f (raiseCount_ t).
Definition getLoadBase : Z := lftNormalFee.
Definition getLoadFactor (t : LoadFeeTrack) : Z :=
  Z.max (clusterTxnLoadFee_ t) (Z.max (localTxnLoadFee_ t) (remoteTxnLoadFee_ t)).
Definition getScalingFactors (t : LoadFeeTrack) : Z * Z :=
  (Z.max (localTxnLoadFee_ t) (remoteTxnLoadFee_ t), Z.max (remoteTxnLoadFee_ t) (clusterTxnLoadFee_ t)).
Definition isLoadedLocal (t : LoadFeeTrack) : bool :=
  negb (raiseCount_ t =? 0) || negb (localTxnLoadFee_ t =? lftNormalFee).
Definition isLoadedCluster (t : LoadFeeTrack) : bool :=
  negb (raiseCount_ t =? 0) || negb (localTxnLoadFee_ t =? lftNormalFee) ||
  negb (clusterTxnLoadFee_ t =? lftNormalFee).

Definition set_local (fee : Z) (t : LoadFeeTrack) : LoadFeeTrack :=
  mkTrack fee (remoteTxnLoadFee_ t) (clusterTxnLoadFee_ t) (raiseCount_ t).

Definition raiseLocalFee (t : LoadFeeTrack) : bool * LoadFeeTrack :=
  let t := mkTrack (localTxnLoadFee_ t) (remoteTxnLoadFee_ t) (clusterTxnLoadFee_ t)
             (u32 (raiseCount_ t + 1)) in
  if raiseCount_ t <? 2 then (false, t)
  else
    let origFee := localTxnLoadFee_ t in
    let fee := if origFee <? remoteTxnLoadFee_ t then remoteTxnLoadFee_ t else origFee in
    let fee := u32 (fee + fee `div` lftFeeIncFraction) in
    let fee := if lftFeeMax <? fee then lftFeeMax else fee in
    (negb (origFee =? fee), set_local fee t).

Definition lowerLocalFee (t : LoadFeeTrack) : bool * LoadFeeTrack :=
  let origFee := localTxnLoadFee_ t in
  let t := mkTrack (localTxnLoadFee_ t) (remoteTxnLoadFee_ t) (clusterTxnLoadFee_ t) 0 in
  let fee := u32 (origFee - origFee `div` lftFeeDecFraction) in
  let fee := if fee <? lftNormalFee then lftNormalFee else fee in
  (negb (origFee =? fee), set_local fee t).

(** ** Scaling *)

(** The loop of [lowestTerms]. *)
Fixpoint euclid (fuel : nat) (x y : Z) : option Z :=
  match fuel with
  | O => None
  | S fuel => if y =? 0 then Some x else euclid fuel y (x `mod` y)
  end.

(** The remainders of 64-bit numbers are gone after 129 rounds. *)
Definition euclid_fuel : nat := 130.

Definition lowestTerms (a b : Z) : outcome (Z * Z) :=
  if (a =? 0) && (b =? 0) then Ret (a, b)
  else
    match euclid euclid_fuel a b with
    | Some x => Ret (a `div` x, b `div` x)
    | None => Throw (logic_error "out of fuel")
    end.

(** Division of unsigned integers. *)
Definition udiv (a b : Z) : outcome Z :=
  if b =? 0 then Throw (logic_error "division by zero") else Ret (a `div` b).

Definition max_u64 : Z := 2 ^ 64 - 1.

Definition larger_first (a b : Z) : Z * Z := if a <? b then (b, a) else (a, b).

(** What follows the reduction to lowest terms. *)
Definition mul_div (fee baseFee feeFactor den : Z) : outcome Z :=
  let '(fee, baseFee) := larger_first fee baseFee in
  q ← udiv max_u64 feeFactor;
  if q <? baseFee then Throw (overflow_error "scaleFeeLoad") else
  let baseFee := u64 (baseFee * feeFactor) in
  let '(fee, baseFee) := larger_first fee baseFee in
  q ← udiv max_u64 baseFee;
  if q <? fee then
    fee ← udiv fee den;
    q ← udiv max_u64 baseFee;
    if q <? fee then Throw (overflow_error "scaleFeeLoad") else Ret (u64 (fee * baseFee))
  else udiv (u64 (fee * baseFee)) den.

Definition fee_factor (t : LoadFeeTrack) (bUnlimited : bool) : Z :=
  let '(feeFactor, uRemFee) := getScalingFactors t in
  if bUnlimited && (uRemFee <? feeFactor) && (feeFactor <? u32 (4 * uRemFee)) then uRemFee else feeFactor.

Definition scaleFeeLoad (fee : Z) (feeTrack : LoadFeeTrack) (fees : Fees) (bUnlimited : bool) : outcome Z :=
  if fee =? 0 then Ret fee
  else
    let feeFactor := fee_factor feeTrack bUnlimited in
    let baseFee := f_base fees in
    let den := u64 (f_units fees * getLoadBase) in
    '(fee, den) ← lowestTerms fee den;
    '(baseFee, den) ← lowestTerms baseFee den;
    '(feeFactor, den) ← lowestTerms feeFactor den;
    mul_div fee baseFee feeFactor den.

(** ** The reduction *)

Lemma euclid_gcd n x y :
  0 ≤ x → 0 ≤ y < 2 ^ Z.of_nat n → euclid (2 * n + 1) x y = Some (Z.gcd x y).
Proof.
  revert x y. induction n as [|n IH]; intros x y Hx Hy.
  - assert (y = 0) as -> by (simpl in Hy; lia). cbn. by rewrite Z.gcd_0_r, Z.abs_eq.
  - replace (2 * S n + 1)%nat with (S (S (2 * n + 1))) by lia. cbn [euclid].
    destruct (Z.eqb_spec y 0) as [->|Hy0]; [by rewrite Z.gcd_0_r, Z.abs_eq|].
    pose proof (Z.mod_pos_bound x y ltac:(lia)) as Hr. rewrite (Z.gcd_comm x y), <- (Z.gcd_mod x y), (Z.gcd_comm _ y) by done.
    destruct (Z.eqb_spec (x `mod` y) 0) as [->|Hr0]; [by rewrite Z.gcd_0_r, Z.abs_eq by lia|].
    set (r := x `mod` y) in *. rewrite (Z.gcd_comm y r), <- (Z.gcd_mod y r), (Z.gcd_comm _ r) by done. apply IH; [lia|].
    rewrite Nat2Z.inj_succ, Z.pow_succ_r in Hy by lia.
    pose proof (Z.mod_pos_bound y r ltac:(lia)). split; [lia|].
    destruct (decide (2 * r ≤ y)); [lia|].
    rewrite Z.mod_eq by lia. assert (y `div` r = 1) as -> by (symmetry; apply (Z.div_unique_pos _ _ _ (y - r)); lia).
    lia.
Qed.

Lemma lowestTerms_spec a b :
  in_u64 a → in_u64 b → 0 < b →
  ∃ a' b' g, lowestTerms a b = Ret (a', b') ∧ a = g * a' ∧ b = g * b' ∧ 0 < g ∧ 0 < b' ∧ 0 ≤ a'.
Proof.
  intros Ha Hb Hb0. unfold in_u64 in *. unfold lowestTerms. rewrite (proj2 (Z.eqb_neq b 0)), andb_false_r by lia.
  change euclid_fuel with (2 * 64 + 2)%nat.
  assert (He : euclid (2 * 64 + 2) a b = Some (Z.gcd a b)).
  { cut (∀ n x y r, euclid n x y = Some r → euclid (S n) x y = Some r).
    { intros H. apply (H (2 * 64 + 1)%nat), (euclid_gcd 64); [lia|simpl; lia]. }
    induction n as [|n IH]; intros x y r; [done|]. intros H. cbn in H. cbn [euclid].
    destruct (y =? 0); [done|by apply IH]. }
  rewrite He. pose proof (Z.gcd_nonneg a b). pose proof (Z.gcd_divide_l a b) as [ka Hka].
  pose proof (Z.gcd_divide_r a b) as [kb Hkb]. set (g := Z.gcd a b) in *. 
  assert (0 < g) by (destruct (decide (g = 0)) as [Hg|]; [rewrite Hg in Hkb; lia|lia]). clearbody g.
  exists (a `div` g), (b `div` g), g. split; [reflexivity|].
  assert (a `div` g = ka) as -> by (rewrite Hka; apply Z.div_mul; lia).
  assert (b `div` g = kb) as -> by (rewrite Hkb; apply Z.div_mul; lia). clear He. split_and!; nia.
Qed.

Lemma udiv_pos a b : 0 < b → udiv a b = Ret (a `div` b).
Proof. intros H. unfold udiv. by rewrite (proj2 (Z.eqb_neq b 0)) by lia. Qed.

Lemma larger_first_spec a b : let '(x, y) := larger_first a b in x * y = a * b ∧ y ≤ x ∧
  ((x = a ∧ y = b) ∨ (x = b ∧ y = a)).
Proof. unfold larger_first. destruct (Z.ltb_spec a b); split_and!; auto; lia. Qed.

(** The product of positive numbers, divided. *)
Lemma mul_div_spec fee baseFee feeFactor den :
  0 < fee ≤ max_u64 → 0 < baseFee ≤ max_u64 → 0 < feeFactor ≤ max_u64 → 0 < den →
  match mul_div fee baseFee feeFactor den with
  | Ret r => r ≤ (fee * baseFee * feeFactor) `div` den ∧
      (fee * baseFee * feeFactor ≤ max_u64 → r = (fee * baseFee * feeFactor) `div` den)
  | Throw e => e = overflow_error "scaleFeeLoad" ∧ max_u64 < fee * baseFee * feeFactor
  end.
Proof.
  intros Hf Hb Hk Hd. unfold mul_div. pose proof (larger_first_spec fee baseFee) as H1.
  destruct (larger_first fee baseFee) as [x y]. destruct H1 as (Hp & _ & Hxy).
  rewrite <- Hp. assert (Hx : 0 < x ≤ max_u64) by lia. assert (Hy : 0 < y ≤ max_u64) by lia. clear Hp Hxy Hf Hb.
  rewrite (udiv_pos _ feeFactor) by lia. cbn [mbind outcome_bind].
  destruct (Z.ltb_spec (max_u64 `div` feeFactor) y) as [Ho|Ho].
  { split; [done|]. apply Z.lt_nge. intros Hle. revert Ho. apply Z.le_ngt.
    apply Z.div_le_lower_bound; [lia|]. nia. }
  assert (Hyk : y * feeFactor ≤ max_u64).
  { pose proof (Z.mul_div_le max_u64 feeFactor ltac:(lia)). nia. }
  rewrite (u64_small (y * feeFactor)) by (unfold in_u64, max_u64 in *; nia).
  pose proof (larger_first_spec x (y * feeFactor)) as H2. destruct (larger_first x (y * feeFactor)) as [v w].
  destruct H2 as (Hp & _ & Hvw). assert (Hv : 0 < v ≤ max_u64) by nia. assert (Hw : 0 < w ≤ max_u64) by nia.
  replace (x * y * feeFactor) with (v * w) by lia. clear Hp Hvw Hyk Ho Hx Hy.
  rewrite (udiv_pos _ w), !(udiv_pos _ den) by lia. cbn [mbind outcome_bind].
  pose proof (Z.mul_div_le max_u64 w ltac:(lia)) as Hq. pose proof (Z.mul_succ_div_gt max_u64 w ltac:(lia)) as Hq'.
  pose proof (Z.mul_div_le v den ltac:(lia)) as Hvd.
  assert (Hfl : v `div` den * w ≤ (v * w) `div` den) by (apply Z.div_le_lower_bound; [lia|nia]).
  destruct (Z.ltb_spec (max_u64 `div` w) v) as [Ho|Ho].
  - assert (0 ≤ v `div` den) by (apply Z.div_pos; lia).
    destruct (Z.ltb_spec (max_u64 `div` w) (v `div` den)) as [Ho'|Ho'].
    + split; [done|]. nia.
    + rewrite u64_small by (unfold in_u64, max_u64 in *; nia). split; [done|]. nia.
  - rewrite u64_small by (unfold in_u64, max_u64 in *; nia). done.
Qed.

(** The three fees of a tracker are positive 32-bit numbers. *)
Definition track_ok (t : LoadFeeTrack) : Prop :=
  0 < localTxnLoadFee_ t < 2 ^ 32 ∧ 0 < remoteTxnLoadFee_ t < 2 ^ 32 ∧ 0 < clusterTxnLoadFee_ t < 2 ^ 32.

Lemma fee_factor_pos t unlimited : track_ok t → 0 < fee_factor t unlimited < 2 ^ 32.
Proof.
  intros (H1 & H2 & H3). unfold fee_factor, getScalingFactors.
  destruct (unlimited && _ && _); lia.
Qed.

(** The fee a transaction is charged under load is the exact quotient
    [fee * base * factor / (units * 256)] whenever the product fits in 64 bits;
    past that the result never exceeds the exact quotient, and the only error
    is an overflow, which is reported just for a product past 64 bits.  The
    reduction to lowest terms always ends. *)
Theorem scaleFeeLoad_correct fee t fees unlimited :
  in_u64 fee → track_ok t → 0 < f_base fees ≤ max_u64 → 0 < f_units fees < 2 ^ 32 →
  let product := fee * f_base fees * fee_factor t unlimited in
  match scaleFeeLoad fee t fees unlimited with
  | Ret r => r ≤ product `div` (f_units fees * getLoadBase) ∧
      (product ≤ max_u64 → r = product `div` (f_units fees * getLoadBase))
  | Throw e => e = overflow_error "scaleFeeLoad" ∧ max_u64 < product
  end.
Proof.
  intros Hfee Ht Hb Hu product. pose proof (fee_factor_pos t unlimited Ht) as Hk. unfold scaleFeeLoad.
  destruct (Z.eqb_spec fee 0) as [->|Hf0]; [split; [|intros _]; unfold product; by rewrite Zdiv_0_l|].
  unfold in_u64, max_u64, getLoadBase, lftNormalFee in *. rewrite (u64_small (f_units fees * 256)) by (unfold in_u64; lia).
  destruct (lowestTerms_spec fee (f_units fees * 256)) as (x & d1 & g1 & -> & Hx & Hd1 & ? & ? & ?);
    [unfold in_u64; lia..|]. cbn [mbind outcome_bind].
  assert (d1 ≤ f_units fees * 256) by nia.
  destruct (lowestTerms_spec (f_base fees) d1) as (y & d2 & g2 & -> & Hy & Hd2 & ? & ? & ?);
    [unfold in_u64; lia..|]. cbn [mbind outcome_bind].
  assert (d2 ≤ d1) by nia.
  destruct (lowestTerms_spec (fee_factor t unlimited) d2) as (z & d3 & g3 & -> & Hz & Hd3 & ? & ? & ?);
    [unfold in_u64; lia..|]. cbn [mbind outcome_bind].
  pose proof (mul_div_spec x y z d3 ltac:(unfold max_u64; nia) ltac:(unfold max_u64; nia)
    ltac:(unfold max_u64; nia) ltac:(lia)) as Hm.
  assert (Hg : 1 ≤ g1 * g2 * g3) by nia. assert (0 ≤ x * y * z) by (apply Z.mul_nonneg_nonneg; nia).
  assert (Hp : product = (x * y * z) * (g1 * g2 * g3)) by (unfold product; rewrite Hx, Hy, Hz; ring).
  assert (Hd : f_units fees * 256 = d3 * (g1 * g2 * g3)) by (rewrite Hd1, Hd2, Hd3; ring).
  rewrite Hd, Hp, Z.div_mul_cancel_r by lia. clear - Hm Hg H10. unfold max_u64 in *.
  destruct (mul_div x y z d3); destruct Hm as [? Hm]; split; try done; [intros; apply Hm|]; nia.
Qed.

Lemma scaleFeeLoad_correct_witness :
  let t := mkTrack 320 256 256 0 in let fees := mkFees 10 10 20000000 5000000 in
  scaleFeeLoad 10 t fees false = Ret 12 ∧ 12 ≤ (10 * 10 * 320) `div` (10 * 256).
Proof.
  intros t fees.
  pose proof (scaleFeeLoad_correct 10 t fees false ltac:(unfold in_u64; lia) ltac:(unfold track_ok; cbn; lia)
    ltac:(unfold max_u64; cbn; lia) ltac:(cbn; lia)) as H.
  assert (E : scaleFeeLoad 10 t fees false = Ret 12) by (vm_compute; reflexivity).
  rewrite E in H. exact (conj E (proj1 H)).
Defined.

(** ** The local fee *)

Definition local_ok (t : LoadFeeTrack) : Prop := lftNormalFee ≤ localTxnLoadFee_ t ≤ lftFeeMax.

(** The remote fees whose increase by a quarter fits in 32 bits. *)
Definition remote_ok (t : LoadFeeTrack) : Prop := 0 ≤ remoteTxnLoadFee_ t ≤ 3435973836.

(** Raising the local fee keeps it between the normal fee and the largest fee,
    never lowers it, and leaves the other fees alone. *)
Lemma raiseLocalFee_ok t :
  local_ok t → remote_ok t → let t' := (raiseLocalFee t).2 in
  local_ok t' ∧ localTxnLoadFee_ t ≤ localTxnLoadFee_ t' ∧ remoteTxnLoadFee_ t' = remoteTxnLoadFee_ t.
Proof.
  unfold local_ok, remote_ok, raiseLocalFee, lftFeeMax, lftNormalFee, lftFeeIncFraction. cbn.
  destruct (Z.ltb_spec (u32 (raiseCount_ t + 1)) 2); cbn; [lia|]. intros Hl Hr.
  set (f := if _ <? remoteTxnLoadFee_ t then _ else _).
  assert (Hf : localTxnLoadFee_ t ≤ f ≤ 3435973836) by (subst f; destruct (Z.ltb_spec (localTxnLoadFee_ t) (remoteTxnLoadFee_ t)); lia).
  clearbody f. rewrite (u32_small (f + f `div` 4)) by (unfold in_u32; div_lia).
  destruct (Z.ltb_spec (256 * 1000000) (f + f `div` 4)); div_lia.
Qed.

Lemma lowerLocalFee_ok t :
  local_ok t → let t' := (lowerLocalFee t).2 in
  local_ok t' ∧ localTxnLoadFee_ t' ≤ localTxnLoadFee_ t ∧ remoteTxnLoadFee_ t' = remoteTxnLoadFee_ t.
Proof.
  unfold local_ok, lowerLocalFee, lftFeeMax, lftNormalFee, lftFeeDecFraction. cbn. intros Hl.
  rewrite u32_small by (unfold in_u32; div_lia).
  destruct (Z.ltb_spec (localTxnLoadFee_ t - localTxnLoadFee_ t `div` 4) 256); div_lia.
Qed.

(** A remote fee past that limit wraps the local one to nothing. *)
Lemma raiseLocalFee_wraps :
  localTxnLoadFee_ (raiseLocalFee (mkTrack 256 3435973837 256 1)).2 = 0.
Proof. vm_compute. reflexivity. Qed.
