(* ===== verification/CoreLogic.v ===== *)
(** * Reasoning about entries and directories

    Programs on a view work on entries of the ledger and, on the side, on the directories
    that list them.  The logic of this file describes the state of a view by its [core],
    the entries that are not pages of directories, and by the rest of it.  The operations
    on an entry of the core have the rules one expects, and programs confined to pages,
    such as those of the directories, leave the core alone.

    [cspec tot p a Q] says that from a state described by [a] the program [p], if it
    ends without an error, ends as [Q] says; with [tot] it has to end without an error. *)

From stdpp Require Import base numbers list gmap strings.
From Stdlib Require Import Lia ZArith.
From S2P Require Import Prelude XRPAmount Serializer STAmount StateTable SField STObject STObjectWire STObjectLaws.
From S2P Require Import Entry Indexes ApplyView ViewLogic Directory DirectoryFrame TxBase Invariants.

Local Open Scope Z_scope.

(** ** The core *)

Definition quiet (type : Z) : bool := type =? ltDIR_NODE.

Lemma quiet_type z : quiet z = true → 0 ≤ z.
Proof. unfold quiet, ltDIR_NODE. rewrite Z.eqb_eq. lia. Qed.

Abbreviation core m := (others quiet m).
Abbreviation rest m := (others (λ z, negb (quiet z)) m).

Lemma rest_lookup {F} (m : gmap Z (SLE F)) k x : rest m !! k = Some x ↔ m !! k = Some x ∧ quiet (sle_type x) = true.
Proof. rewrite others_lookup, negb_false_iff. done. Qed.

Lemma held_quiet (s : SLE STObject) : quiet (sle_type s) = true → held s = 0.
Proof. unfold quiet, held, entry_drops. rewrite Z.eqb_eq. by intros ->. Qed.

(** All XRP is in the core. *)
Lemma xrp_total_core m : xrp_total m = xrp_total (core m).
Proof.
  induction m as [|k s m Hk IH] using map_ind; [done|].
  rewrite xrp_total_insert, Hk, IH. cbn [heldo]. destruct (quiet (sle_type s)) eqn:E.
  - rewrite others_insert, held_quiet by (done || congruence). lia.
  - assert (Hc : core (<[k := s]> m) = <[k := s]> (core m)).
    { unfold others. by rewrite map_filter_insert_True. }
    rewrite Hc, xrp_total_insert. assert (core m !! k = None) as ->; [|cbn [heldo]; lia].
    destruct (core m !! k) eqn:Ek; [|done]. apply others_lookup in Ek as [? _]. congruence.
Qed.

Lemma lookup_core {F} (m : gmap Z (SLE F)) k :
  quiet (kl_type k) = false → 0 ≤ kl_type k → lookup_kl m k = lookup_kl (core m) k.
Proof.
  intros Hq H0. unfold lookup_kl, check, ltANY, ltINVALID, ltCHILD. rewrite !(proj2 (Z.eqb_neq _ _)) by lia.
  destruct (core m !! kl_key k) as [x|] eqn:E.
  - apply others_lookup in E as [-> _]. done.
  - destruct (m !! kl_key k) as [x|] eqn:Em; [|done]. destruct (Z.eqb_spec (sle_type x) (kl_type k)) as [Ht|]; [|done].
    assert (core m !! kl_key k = Some x) by (apply others_lookup; split; [done|congruence]). congruence.
Qed.

Lemma lookup_rest {F} (m : gmap Z (SLE F)) k :
  quiet (kl_type k) = true → lookup_kl m k = lookup_kl (rest m) k.
Proof.
  intros Hq. pose proof (quiet_type _ Hq). unfold lookup_kl, check, ltANY, ltINVALID, ltCHILD.
  rewrite !(proj2 (Z.eqb_neq _ _)) by lia. destruct (rest m !! kl_key k) as [x|] eqn:E.
  - apply rest_lookup in E as [-> _]. done.
  - destruct (m !! kl_key k) as [x|] eqn:Em; [|done]. destruct (Z.eqb_spec (sle_type x) (kl_type k)) as [Ht|]; [|done].
    assert (rest m !! kl_key k = Some x) by (apply rest_lookup; split; [done|congruence]). congruence.
Qed.

(** Changes of an entry of the core. *)
Lemma core_insert {F} (m : gmap Z (SLE F)) k x : quiet (sle_type x) = false → core (<[k := x]> m) = <[k := x]> (core m).
Proof. intros H. unfold others. by rewrite map_filter_insert_True. Qed.

Lemma core_delete {F} (m : gmap Z (SLE F)) k : core (delete k m) = delete k (core m).
Proof. unfold others. by rewrite map_filter_delete. Qed.

Lemma rest_insert {F} (m : gmap Z (SLE F)) k x :
  quiet (sle_type x) = false → (∀ y, m !! k = Some y → quiet (sle_type y) = false) → rest (<[k := x]> m) = rest m.
Proof. intros Hx Hy. apply others_insert; [|by rewrite Hx]. intros y Hm. by rewrite (Hy y Hm). Qed.

Lemma rest_delete {F} (m : gmap Z (SLE F)) k :
  (∀ y, m !! k = Some y → quiet (sle_type y) = false) → rest (delete k m) = rest m.
Proof. intros Hy. apply others_delete. intros y Hm. by rewrite (Hy y Hm). Qed.

(** ** Specifications *)

Abbreviation entries := (gmap Z (SLE STObject)).

Record vabs : Type := mkAbs { ab_core : entries; ab_rest : entries; ab_saved : gset Z; ab_dirty : gset Z }.

Record abs (a : vabs) (s : vstate STObject) : Prop := mkDescribed {
  abs_core : core (vs_map s) = ab_core a;
  abs_rest : rest (vs_map s) = ab_rest a;
  abs_saved : ab_saved a ⊆ vs_saved s;
  abs_dirty : vs_dirty s ⊆ ab_dirty a }.

Definition with_core (c : entries) (a : vabs) : vabs := mkAbs c (ab_rest a) (ab_saved a) (ab_dirty a).
Definition with_saved (h : Z) (d : gset Z) (a : vabs) : vabs := mkAbs (ab_core a) (ab_rest a) ({[h]} ∪ ab_saved a) d.
Definition with_dirty (d : gset Z) (a : vabs) : vabs := mkAbs (ab_core a) (ab_rest a) (ab_saved a) d.

Definition cspec (tot : bool) {A} (p : view_prog A) (a : vabs) (Q : A → vabs → Prop) : Prop :=
  ∀ s, abs a s →
  match run p s with
  | Ret (r, s') => ∃ a', abs a' s' ∧ Q r a'
  | Throw _ => tot = false
  end.

Section Rules.
Context (tot : bool).
Implicit Types (a : vabs) (s : vstate STObject).

Lemma cspec_ret {A} (r : A) a (Q : A → vabs → Prop) : Q r a → cspec tot (mret r) a Q.
Proof. intros H s Hs. cbn. eauto. Qed.

Lemma cspec_fail {A} e a (Q : A → vabs → Prop) : tot = false → cspec tot (Fail e) a Q.
Proof. by intros H s Hs. Qed.

Lemma cspec_bind {A B} (p : view_prog A) (f : A → view_prog B) a Q :
  cspec tot p a (λ r a', cspec tot (f r) a' Q) → cspec tot (p ≫= f) a Q.
Proof.
  intros H s Hs. rewrite run_bind. specialize (H s Hs). destruct (run p s) as [[r s1]|]; [|done].
  destruct H as (a1 & Hs1 & H). by apply H.
Qed.

Lemma cspec_mono {A} (p : view_prog A) a (Q Q' : A → vabs → Prop) :
  cspec tot p a Q → (∀ r a', Q r a' → Q' r a') → cspec tot p a Q'.
Proof.
  intros H HM s Hs. specialize (H s Hs). destruct (run p s) as [[r s1]|]; [|done]. destruct H as (a1 & ? & ?). eauto.
Qed.

Lemma cspec_from {A} (m : outcome A) r a (Q : A → vabs → Prop) : m = Ret r → Q r a → cspec tot (from m) a Q.
Proof. intros -> H s Hs. cbn. eauto. Qed.

Lemma cspec_from_any {A} (m : outcome A) a (Q : A → vabs → Prop) :
  tot = false → (∀ r, m = Ret r → Q r a) → cspec tot (from m) a Q.
Proof. intros Ht H s Hs. destruct m; cbn; [|done]. eauto. Qed.

Lemma cspec_read k a Q :
  quiet (kl_type k) = false → 0 ≤ kl_type k → Q (lookup_kl (ab_core a) k) a → cspec tot (read k) a Q.
Proof. intros Hq H0 HQ s Hs. cbn. rewrite lookup_core, (abs_core a s Hs) by done. eauto. Qed.

Lemma cspec_read_quiet k a Q :
  quiet (kl_type k) = true → Q (lookup_kl (ab_rest a) k) a → cspec tot (read k) a Q.
Proof. intros Hq HQ s Hs. cbn. rewrite lookup_rest, (abs_rest a s Hs) by done. eauto. Qed.

Lemma cspec_peek k a (Q : option Z → vabs → Prop) :
  quiet (kl_type k) = false → 0 ≤ kl_type k → Q ((λ _, kl_key k) <$> lookup_kl (ab_core a) k) a → cspec tot (peek k) a Q.
Proof. intros Hq H0 HQ s Hs. cbn. rewrite lookup_core, (abs_core a s Hs) by done. eauto. Qed.

Lemma abs_lookup a s h x : abs a s → ab_core a !! h = Some x → vs_map s !! h = Some x ∧ quiet (sle_type x) = false.
Proof. intros Hs. rewrite <- (abs_core a s Hs). apply others_lookup. Qed.

Lemma cspec_load h x a Q : ab_core a !! h = Some x → Q x a → cspec tot (load h) a Q.
Proof. intros Hx HQ s Hs. cbn. destruct (abs_lookup a s h x Hs Hx) as [-> _]. eauto. Qed.

Lemma cspec_store h o x a (Q : unit → vabs → Prop) d :
  ab_core a !! h = Some x → (h ∈ ab_saved a ∧ d = ab_dirty a) ∨ d = {[h]} ∪ ab_dirty a →
  Q tt (with_dirty d (with_core (<[h := set_body x o]> (ab_core a)) a)) → cspec tot (store h o) a Q.
Proof.
  intros Hx Hd HQ s Hs. cbn. destruct (abs_lookup a s h x Hs Hx) as [Hm Hq]. rewrite Hm. cbn.
  eexists. split; [|exact HQ]. destruct Hs as [Hc Hr Hsv Hdt]. split; cbn.
  - by rewrite core_insert, Hc.
  - rewrite rest_insert, Hr; [done|done|]. intros y Hy. by rewrite Hm in Hy; injection Hy as <-.
  - done.
  - destruct Hd as [[Hin ->]| ->]; [rewrite decide_True by (by apply Hsv); done|]. case_decide; set_solver.
Qed.

Lemma cspec_update h x a (Q : unit → vabs → Prop) d :
  ab_core a !! h = Some x → ab_dirty a ⊆ {[h]} ∪ d → Q tt (with_saved h d a) → cspec tot (update h) a Q.
Proof.
  intros Hx Hd HQ s Hs. cbn. destruct (abs_lookup a s h x Hs Hx) as [-> _]. cbn.
  eexists. split; [|exact HQ]. destruct Hs as [Hc Hr Hsv Hdt]. split; cbn; [done|done|set_solver|set_solver].
Qed.

Lemma cspec_insert x a (Q : unit → vabs → Prop) :
  quiet (sle_type x) = false →
  (tot = true → ab_core a !! sle_key x = None ∧ ab_rest a !! sle_key x = None) →
  (ab_core a !! sle_key x = None →
   Q tt (with_saved (sle_key x) (ab_dirty a) (with_core (<[sle_key x := x]> (ab_core a)) a))) →
  cspec tot (insert x) a Q.
Proof.
  intros Hq Htot HQ s Hs. cbn. pose proof Hs as [Hc Hr Hsv Hdt]. destruct (vs_map s !! sle_key x) as [y|] eqn:Em.
  - destruct tot; [|done]. destruct (Htot eq_refl) as [H1 H2]. exfalso. destruct (quiet (sle_type y)) eqn:Ey.
    + assert (Hy : rest (vs_map s) !! sle_key x = Some y) by (by apply rest_lookup). congruence.
    + assert (Hy : core (vs_map s) !! sle_key x = Some y) by (by apply others_lookup). congruence.
  - eexists. split; [|apply HQ].
    + split; cbn; [by rewrite core_insert, Hc| |set_solver|set_solver].
      rewrite rest_insert, Hr; [done|done|]. intros y Hy. congruence.
    + rewrite <- Hc. destruct (core (vs_map s) !! sle_key x) eqn:E; [|done]. apply others_lookup in E as [? _]. congruence.
Qed.

Lemma cspec_erase h x a (Q : unit → vabs → Prop) :
  ab_core a !! h = Some x →
  Q tt (mkAbs (delete h (ab_core a)) (ab_rest a) (ab_saved a ∖ {[h]}) (ab_dirty a)) → cspec tot (erase h) a Q.
Proof.
  intros Hx HQ s Hs. cbn. destruct (abs_lookup a s h x Hs Hx) as [Hm Hq]. rewrite Hm. cbn.
  eexists. split; [|exact HQ]. destruct Hs as [Hc Hr Hsv Hdt]. split; cbn; [by rewrite core_delete, Hc| |set_solver|set_solver].
  rewrite rest_delete, Hr; [done|]. intros y Hy. by rewrite Hm in Hy; injection Hy as <-.
Qed.

(** *** Fields *)

Lemma cspec_get {V} (T : STClass V) `{!LawfulClass T} t h f x a (Q : V → vabs → Prop) :
  ab_core a !! h = Some x → entry t (sle_body x) → fits T t f = true →
  Q (val T (sle_body x) f) a → cspec tot (get T h f) a Q.
Proof.
  intros Hx He Hf HQ. apply cspec_bind, (cspec_load _ x); [done|].
  by apply (cspec_from _ (val T (sle_body x) f)); [eapply getFieldBy_val|].
Qed.

Lemma cspec_put {V} (T : STClass V) `{!LawfulClass T} t h f v x a (Q : unit → vabs → Prop) d :
  ab_core a !! h = Some x → entry t (sle_body x) → fits T t f = true →
  (h ∈ ab_saved a ∧ d = ab_dirty a) ∨ d = {[h]} ∪ ab_dirty a →
  Q tt (with_dirty d (with_core (<[h := set_body x (set T f v (sle_body x))]> (ab_core a)) a)) →
  cspec tot (put T h f v) a Q.
Proof.
  intros Hx He Hf Hd HQ. apply cspec_bind, (cspec_load _ x); [done|].
  apply cspec_bind, (cspec_from _ (set T f v (sle_body x))); [by eapply set_ret|].
  by apply (cspec_store _ _ x _ _ d).
Qed.

(** *** Programs confined to pages *)

(** [R] is what is known of the result and of the quiet entries when the program has to
    end. *)
Lemma cspec_confined {A} (R : A → entries → Prop) (p : view_prog A) a (Q : A → vabs → Prop) :
  (∀ s, abs a s → match run p s with Ret (r, s') => R r (rest (vs_map s')) | Throw _ => tot = false end) →
  confined quiet p ∅ (ab_saved a) (ab_dirty a)
    (λ r _ S D, ∀ n, R r n → Q r (mkAbs (ab_core a) n S D)) →
  cspec tot p a Q.
Proof.
  intros HR Hc s Hs. specialize (HR s Hs). destruct (run p s) as [[r s']|] eqn:E; [|done].
  destruct (confined_run quiet quiet_type p _ _ _ _ s r s' Hc) as (Ho & P & S & D & HQ & _ & HS & HD); [|done|].
  { split_and!; [by intros ? ? ?%elem_of_empty|apply Hs|apply Hs]. }
  eexists. split; [|by apply (HQ (rest (vs_map s')))]. split; cbn; [|done|done|done].
  rewrite Ho. apply Hs.
Qed.

Lemma cspec_confined_partial {A} (p : view_prog A) a (Q : A → vabs → Prop) :
  tot = false →
  confined quiet p ∅ (ab_saved a) (ab_dirty a) (λ r _ S D, ∀ n, Q r (mkAbs (ab_core a) n S D)) →
  cspec tot p a Q.
Proof.
  intros Ht Hc. apply (cspec_confined (λ _ _, True)).
  - intros s Hs. by destruct (run p s) as [[??]|].
  - revert Hc. generalize (∅ : gset Z) as P. generalize (ab_saved a) as S, (ab_dirty a) as D. intros S D P Hc.
    eapply confined_mono; [exact Hc|]. auto.
Qed.
End Rules.
