(* ===== verification/View.v ===== *)
(** * Operations on balances and trust lines

    Model of [src/src/ripple/ledger/impl/View.cpp] apart from its directories, which are in
    [Directory]: what an account holds and may spend, owner counts, the creation and
    deletion of trust lines and offers, and the functions that move XRP and issued
    currencies.

    The hooks of a view ([balanceHook], [creditHook], ...) do what [ReadView] and [ApplyView]
    define: nothing; those of payments are in [PaymentSandbox].  Log output and assertions are
    left out. *)

From stdpp Require Import base numbers list gmap strings.
From Stdlib Require Import Lia ZArith.
From S2P Require Import Prelude XRPAmount Serializer STAmount Quality StateTable SField STObject STObjectWire STObjectLaws.
From S2P Require Import Entry Indexes ApplyView ViewLogic Directory TxBase.

Local Open Scope Z_scope.

Section View.
Context `{Hash : Sha512} (info : ViewInfo).

(** ** Dates after which fixes are active *)

Definition fix1141Time : Z := 520707600.
Definition fix1141 (closeTime : Z) : bool := fix1141Time <? closeTime.
Definition fix1274Time : Z := 528570000.
Definition fix1274 (closeTime : Z) : bool := fix1274Time <? closeTime.
Definition fix1298Time : Z := 535658400.
Definition fix1298 (closeTime : Z) : bool := fix1298Time <? closeTime.
Definition fix1443Time : Z := 542595600.
Definition fix1443 (closeTime : Z) : bool := fix1443Time <? closeTime.
Definition fix1449Time : Z := 544219200.
Definition fix1449 (closeTime : Z) : bool := fix1449Time <? closeTime.

(** ** Observers *)

Definition noAccount : Z := 1.

(** A flag of an entry that was read, if there is one. *)
Definition entry_flag (s : option (SLE STObject)) (f : Z) : bool :=
  match s with Some s => isFlag (sle_body s) f | None => false end.

Definition isGlobalFrozen (issuer : Z) : view_prog bool :=
  if isXRP issuer then mret false
  else sle ← read (kl_account issuer); mret (entry_flag sle lsfGlobalFreeze).

Definition isFrozen (account currency issuer : Z) : view_prog bool :=
  if isXRP currency then mret false
  else
    sle ← read (kl_account issuer);
    if entry_flag sle lsfGlobalFreeze then mret true
    else if issuer =? account then mret false
    else
      sle ← read (kl_line account issuer currency);
      mret (entry_flag sle (if account <? issuer then lsfHighFreeze else lsfLowFreeze)).

Inductive FreezeHandling : Type := fhIGNORE_FREEZE | fhZERO_IF_FROZEN.

(** [setIssuer]. *)
Definition setIssuer (issuer : Z) (a : STAmount) : STAmount :=
  setIssue (mkIssue (currency (mIssue a)) issuer) a.

(** [clear (issue)]. *)
Definition clear_issue (issue : Issue) (a : STAmount) : STAmount := clear (setIssue issue a).

Definition confineOwnerCount (current adjustment : Z) : Z :=
  let adjusted := u32 (current + adjustment) in
  if 0 <? adjustment then if adjusted <? current then 2 ^ 32 - 1 else adjusted
  else if current <? adjusted then 0 else adjusted.

(** The balance without the reserve, or nothing. *)
Definition above_reserve (balance : STAmount) (reserve : XRPAmount) : outcome STAmount :=
  r ← st_of_xrp reserve;
  amount ← st_sub balance r;
  b ← st_lt balance r;
  Ret (if (b : bool) then clear amount else amount).

Definition xrpLiquid (id ownerCountAdj : Z) : view_prog XRPAmount :=
  sle ← read (kl_account id);
  match sle with
  | None => mret xrp_zero
  | Some sle =>
    let o := sle_body sle in
    count ← from (getFieldU32 o sfOwnerCount);
    let reserve :=
      if fix1141 (v_parentCloseTime info)
      then accountReserve (v_fees info) (confineOwnerCount count ownerCountAdj)
      else accountReserve (v_fees info) count in
    balance ← from (getFieldAmount o sfBalance);
    amount ← from (above_reserve balance reserve);
    from (xrp amount)
  end.

Definition accountHolds (account currency issuer : Z) (zeroIfFrozen : FreezeHandling) : view_prog STAmount :=
  if isXRP currency then x ← xrpLiquid account 0; from (st_of_xrp x)
  else
    sle ← read (kl_line account issuer currency);
    match sle with
    | None => mret (clear_issue (mkIssue currency issuer) zeroAmount)
    | Some sle =>
      frozen ← match zeroIfFrozen with
               | fhZERO_IF_FROZEN => isFrozen account currency issuer
               | fhIGNORE_FREEZE => mret false
               end;
      if (frozen : bool) then mret (clear_issue (mkIssue currency issuer) zeroAmount)
      else
        amount ← from (getFieldAmount (sle_body sle) sfBalance);
        mret (setIssuer issuer (if issuer <? account then negate amount else amount))
    end.

Definition accountFunds (id : Z) (saDefault : STAmount) (freezeHandling : FreezeHandling) : view_prog STAmount :=
  if negb (mIsNative saDefault) && (account (mIssue saDefault) =? id) then mret saDefault
  else accountHolds id (currency (mIssue saDefault)) (account (mIssue saDefault)) freezeHandling.

Definition transferRate (issuer : Z) : view_prog Z :=
  sle ← read (kl_account issuer);
  match sle with
  | Some sle =>
    if isFieldPresent (sle_body sle) sfTransferRate then from (getFieldU32 (sle_body sle) sfTransferRate)
    else mret parityRate
  | None => mret parityRate
  end.

Definition getEnabledAmendments : view_prog (gset Z) :=
  sle ← read kl_amendments;
  match sle with
  | Some sle =>
    if isFieldPresent (sle_body sle) sfAmendments
    then v ← from (getFieldV256 (sle_body sle) sfAmendments); mret (list_to_set v)
    else mret ∅
  | None => mret ∅
  end.

(** The loop over the majorities: a later one replaces an earlier one. *)
Fixpoint collect_majorities (l : list (SField * STObject)) (acc : gmap Z Z) : outcome (gmap Z Z) :=
  match l with
  | [] => Ret acc
  | (_, m) :: l =>
    k ← getFieldH256 m sfAmendment; t ← getFieldU32 m sfCloseTime; collect_majorities l (<[k := t]> acc)
  end.

Definition getMajorityAmendments : view_prog (gmap Z Z) :=
  sle ← read kl_amendments;
  match sle with
  | Some sle =>
    if isFieldPresent (sle_body sle) sfMajorities
    then l ← from (getFieldArray (sle_body sle) sfMajorities); from (collect_majorities l ∅)
    else mret ∅
  | None => mret ∅
  end.

(** ** Hashes of earlier ledgers *)

Record LedgerIdent : Type := mkIdent { li_seq : Z; li_hash : Z; li_parentHash : Z }.

(** The list of the 256 hashes before the ledger. *)
Definition recent_hash (diff : Z) : view_prog (option Z) :=
  hashIndex ← read kl_skip;
  match hashIndex with
  | Some s =>
    vec ← from (getFieldV256 (sle_body s) sfHashes);
    let n := Z.of_nat (length vec) in
    mret (if diff <=? n then vec !! Z.to_nat (n - diff) else None)
  | None => mret None
  end.

Definition hashOfSeq (ledger : LedgerIdent) (seq : Z) : view_prog (option Z) :=
  if li_seq ledger <? seq then mret None else
  if seq =? li_seq ledger then mret (Some (li_hash ledger)) else
  if seq =? u32 (li_seq ledger - 1) then mret (Some (li_parentHash ledger)) else
  let diff := i32 (u32 (li_seq ledger - seq)) in
  near ← (if diff <=? 256 then recent_hash diff else mret None);
  match near with
  | Some h => mret (Some h)
  | None =>
    if negb (Z.land seq 0xff =? 0) then mret None
    else
      hashIndex ← read (kl_skip_at seq);
      match hashIndex with
      | Some s =>
        lastSeq ← from (getFieldU32 (sle_body s) sfLastLedgerSequence);
        let diff := u32 (lastSeq - seq) ≫ 8 in
        vec ← from (getFieldV256 (sle_body s) sfHashes);
        let n := Z.of_nat (length vec) in
        mret (if diff <? n then vec !! Z.to_nat (n - diff - 1) else None)
      | None => mret None
      end
  end.

(** ** Modifiers *)

(** A pointer that is used without a test. *)
Definition peek_deref (k : Keylet) : view_prog Z := peek_or k "null pointer".

Definition adjustOwnerCount (sle amount : Z) : view_prog unit :=
  current ← get U32 sle sfOwnerCount;
  x ← load sle;
  id ← from (proxy_value AccountID (sle_body x) sfAccount);
  put U32 sle sfOwnerCount (confineOwnerCount current amount) ;;
  update sle.

(** [view.dirAdd], in the form the rules ask for. *)
Definition owner_dirAdd (account key : Z) : view_prog (option Z) :=
  view_dirAdd (enabled (v_rules info) featureSortedDirectories) (kl_ownerDir account) key false
    (describeOwnerDir account).

(** The fields of a new trust line, once it is in both directories. *)
Definition trustCreate_fields (bSrcHigh : bool) (uSrcAccountID uDstAccountID line sleAccount : Z)
    (bAuth bNoRipple bFreeze : bool) (saBalance saLimit : STAmount) (uQualityIn uQualityOut lowNode highNode : Z) :
    view_prog TER :=
  let uLowAccountID := if negb bSrcHigh then uSrcAccountID else uDstAccountID in
  let uHighAccountID := if bSrcHigh then uSrcAccountID else uDstAccountID in
  let bSetDst := account (mIssue saLimit) =? uDstAccountID in
  let bSetHigh := xorb bSrcHigh bSetDst in
  slePeer ← peek (kl_account (if bSetHigh then uLowAccountID else uHighAccountID));
  put U64 line sfLowNode lowNode ;;
  put U64 line sfHighNode highNode ;;
  put AmountC line (if bSetHigh then sfHighLimit else sfLowLimit) saLimit ;;
  peerLimit ← from (st_zero (mkIssue (currency (mIssue saBalance))
                               (if bSetDst then uSrcAccountID else uDstAccountID)));
  put AmountC line (if bSetHigh then sfLowLimit else sfHighLimit) peerLimit ;;
  (if uQualityIn =? 0 then mret ()
   else put U32 line (if bSetHigh then sfHighQualityIn else sfLowQualityIn) uQualityIn) ;;
  (if uQualityOut =? 0 then mret ()
   else put U32 line (if bSetHigh then sfHighQualityOut else sfLowQualityOut) uQualityOut) ;;
  peer ← match slePeer with Some h => load h | None => LogicError "null pointer" end;
  let uFlags := if bSetHigh then lsfHighReserve else lsfLowReserve in
  let uFlags := if bAuth then Z.lor uFlags (if bSetHigh then lsfHighAuth else lsfLowAuth) else uFlags in
  let uFlags := if bNoRipple then Z.lor uFlags (if bSetHigh then lsfHighNoRipple else lsfLowNoRipple) else uFlags in
  let uFlags := if bFreeze then Z.lor uFlags (if negb bSetHigh then lsfLowFreeze else lsfHighFreeze) else uFlags in
  let uFlags := if negb (flagged (getFlags (sle_body peer)) lsfDefaultRipple)
                then Z.lor uFlags (if bSetHigh then lsfLowNoRipple else lsfHighNoRipple) else uFlags in
  put U32 line sfFlags uFlags ;;
  adjustOwnerCount sleAccount 1 ;;
  put AmountC line sfBalance (if bSetHigh then st_neg saBalance else saBalance) ;;
  mret tesSUCCESS.

Definition trustCreate (bSrcHigh : bool) (uSrcAccountID uDstAccountID uIndex sleAccount : Z)
    (bAuth bNoRipple bFreeze : bool) (saBalance saLimit : STAmount) (uQualityIn uQualityOut : Z) : view_prog TER :=
  let uLowAccountID := if negb bSrcHigh then uSrcAccountID else uDstAccountID in
  let uHighAccountID := if bSrcHigh then uSrcAccountID else uDstAccountID in
  sleRippleState ← from (make_SLE (mkKeylet ltRIPPLE_STATE uIndex));
  insert sleRippleState ;;
  lowNode ← owner_dirAdd uLowAccountID uIndex;
  match lowNode with
  | None => mret tecDIR_FULL
  | Some lowNode =>
    highNode ← owner_dirAdd uHighAccountID uIndex;
    match highNode with
    | None => mret tecDIR_FULL
    | Some highNode =>
      trustCreate_fields bSrcHigh uSrcAccountID uDstAccountID uIndex sleAccount bAuth bNoRipple bFreeze
        saBalance saLimit uQualityIn uQualityOut lowNode highNode
    end
  end.

Definition trustDelete (sleRippleState uLowAccountID uHighAccountID : Z) : view_prog TER :=
  uLowNode ← get U64 sleRippleState sfLowNode;
  uHighNode ← get U64 sleRippleState sfHighNode;
  ok ← dirRemove (kl_ownerDir uLowAccountID) uLowNode sleRippleState false;
  if negb ok then mret tefBAD_LEDGER else
  ok ← dirRemove (kl_ownerDir uHighAccountID) uHighNode sleRippleState false;
  if negb ok then mret tefBAD_LEDGER else
  erase sleRippleState ;;
  mret tesSUCCESS.

(** [keylet::page (key)]. *)
Definition kl_page_at (key : Z) : Keylet := mkKeylet ltDIR_NODE key.

Definition offerDelete (sle : option Z) : view_prog TER :=
  match sle with
  | None => mret tesSUCCESS
  | Some sle =>
    owner ← get AccountID sle sfAccount;
    uDirectory ← get H256 sle sfBookDirectory;
    ownerNode ← get U64 sle sfOwnerNode;
    ok ← dirRemove (kl_ownerDir owner) ownerNode sle false;
    if negb ok then mret tefBAD_LEDGER else
    bookNode ← get U64 sle sfBookNode;
    ok ← dirRemove (kl_page_at uDirectory) bookNode sle false;
    if negb ok then mret tefBAD_LEDGER else
    root ← peek_deref (kl_account owner);
    adjustOwnerCount root (-1) ;;
    erase sle ;;
    mret tesSUCCESS
  end.

(** ** Issued currencies *)

(** Whether the sender's side of a trust line is in its default state after its balance has
    gone from positive to zero or below, so that it no longer needs a reserve.  The flags
    of the sender's account are only looked at when the conditions before hold. *)
Definition sender_cleared (state uFlags : Z) (bSenderHigh : bool) (before after : STAmount)
    (senderFlags : view_prog Z) : view_prog bool :=
  let side {A} (low high : A) := if negb bSenderHigh then low else high in
  if negb ((0 <? st_signum before) && (st_signum after <=? 0)
           && flagged uFlags (side lsfLowReserve lsfHighReserve)) then mret false
  else
    f ← senderFlags;
    if Bool.eqb (flagged uFlags (side lsfLowNoRipple lsfHighNoRipple)) (flagged f lsfDefaultRipple)
       || flagged uFlags (side lsfLowFreeze lsfHighFreeze) then mret false
    else
      limit ← get AmountC state (side sfLowLimit sfHighLimit);
      if negb (is_zero limit) then mret false else
      qin ← get U32 state (side sfLowQualityIn sfHighQualityIn);
      if negb (qin =? 0) then mret false else
      qout ← get U32 state (side sfLowQualityOut sfHighQualityOut);
      mret (qout =? 0).

(** A balance in the terms of the sender. *)
Definition in_terms (bSenderHigh : bool) (balance : STAmount) : STAmount :=
  if bSenderHigh then negate balance else balance.

(** A trust line for somebody who is sent an issued currency. *)
Definition receiver_line (bSenderHigh : bool) (uSenderID uReceiverID uIndex : Z) (saAmount : STAmount) : view_prog TER :=
  saReceiverLimit ← from (st_zero (mkIssue (currency (mIssue saAmount)) uReceiverID));
  let saBalance := setIssuer noAccount saAmount in
  sleAccount ← peek_deref (kl_account uReceiverID);
  x ← load sleAccount;
  let noRipple := negb (flagged (getFlags (sle_body x)) lsfDefaultRipple) in
  trustCreate bSenderHigh uSenderID uReceiverID uIndex sleAccount false noRipple false saBalance
    saReceiverLimit 0 0.

Definition rippleCredit (uSenderID uReceiverID : Z) (saAmount : STAmount) (bCheckIssuer : bool) : view_prog TER :=
  let bSenderHigh := uReceiverID <? uSenderID in
  let line := kl_line uSenderID uReceiverID (currency (mIssue saAmount)) in
  sleRippleState ← peek line;
  match sleRippleState with
  | None => receiver_line bSenderHigh uSenderID uReceiverID (kl_key line) saAmount
  | Some state =>
    saBalance ← get AmountC state sfBalance;
    let saBefore := in_terms bSenderHigh saBalance in
    saBalance ← from (st_sub saBefore saAmount);
    uFlags ← get U32 state sfFlags;
    cleared ← sender_cleared state uFlags bSenderHigh saBefore saBalance
      (sle ← read (kl_account uSenderID);
       match sle with Some s => mret (getFlags (sle_body s)) | None => LogicError "null pointer" end);
    bDelete ← (if (cleared : bool) then
      root ← peek_deref (kl_account uSenderID);
      adjustOwnerCount root (-1) ;;
      put U32 state sfFlags (Z.land uFlags (not32 (if negb bSenderHigh then lsfLowReserve else lsfHighReserve))) ;;
      mret (is_zero saBalance && negb (flagged uFlags (if bSenderHigh then lsfLowReserve else lsfHighReserve)))
      else mret false);
    put AmountC state sfBalance (in_terms bSenderHigh saBalance) ;;
    if (bDelete : bool) then
      trustDelete state (if bSenderHigh then uReceiverID else uSenderID)
        (if negb bSenderHigh then uReceiverID else uSenderID)
    else update state ;; mret tesSUCCESS
  end.

Definition rippleTransferFee (from_ to_ issuer : Z) (amount : STAmount) : view_prog STAmount :=
  if negb (from_ =? issuer) && negb (to_ =? issuer) then
    rate ← transferRate issuer;
    if negb (parityRate =? rate) then
      m ← from (rate_multiply amount rate); from (st_sub m amount)
    else from (st_zero (mIssue amount))
  else from (st_zero (mIssue amount)).

(** The result of a direct transfer is dropped. *)
Definition rippleSend (uSenderID uReceiverID : Z) (saAmount : STAmount) : view_prog (TER * STAmount) :=
  let issuer := account (mIssue saAmount) in
  if (uSenderID =? issuer) || (uReceiverID =? issuer) || (issuer =? noAccount) then
    rippleCredit uSenderID uReceiverID saAmount false ;; mret (tesSUCCESS, saAmount)
  else
    saActual ←
      (if negb (fix1141 (v_parentCloseTime info)) then
         saTransitFee ← rippleTransferFee uSenderID uReceiverID issuer saAmount;
         a ← (if is_zero saTransitFee then mret saAmount else from (STAmount.st_add saAmount saTransitFee));
         mret (setIssuer issuer a)
       else rate ← transferRate issuer; from (rate_multiply saAmount rate));
    terResult ← rippleCredit issuer uReceiverID saAmount true;
    terResult ← (if terResult =? tesSUCCESS then rippleCredit uSenderID issuer saActual true
                 else mret terResult);
    mret (terResult, saActual).

Definition failed_processing : TER :=
  if v_open info then telFAILED_PROCESSING else tecFAILED_PROCESSING.

(** A transfer of XRP; a party with the zero account is left out. *)
Definition accountSend (uSenderID uReceiverID : Z) (saAmount : STAmount) : view_prog TER :=
  if is_zero saAmount || (uSenderID =? uReceiverID) then mret tesSUCCESS
  else if negb (mIsNative saAmount) then
    '(ter, _) ← rippleSend uSenderID uReceiverID saAmount; mret ter
  else
    sender ← (if uSenderID =? 0 then mret None else peek (kl_account uSenderID));
    receiver ← (if uReceiverID =? 0 then mret None else peek (kl_account uReceiverID));
    terResult ← match sender with
      | None => mret tesSUCCESS
      | Some sender =>
        sndBal ← get AmountC sender sfBalance;
        less ← from (st_lt sndBal saAmount);
        if (less : bool) then mret failed_processing
        else
          b ← from (st_sub sndBal saAmount);
          put AmountC sender sfBalance b ;; update sender ;; mret tesSUCCESS
      end;
    match receiver with
    | Some receiver =>
      if terResult =? tesSUCCESS then
        rcvBal ← get AmountC receiver sfBalance;
        b ← from (STAmount.st_add rcvBal saAmount);
        put AmountC receiver sfBalance b ;; update receiver ;; mret terResult
      else mret terResult
    | None => mret terResult
    end.

(** Returns whether the line has to be deleted. *)
Definition updateTrustLine (state : Z) (bSenderHigh : bool) (sender : Z) (before after : STAmount) : view_prog bool :=
  flags ← get U32 state sfFlags;
  sle ← peek (kl_account sender);
  cleared ← sender_cleared state flags bSenderHigh before after
    (match sle with Some h => x ← load h; mret (getFlags (sle_body x)) | None => LogicError "null pointer" end);
  if (cleared : bool) then
    root ← match sle with Some h => mret h | None => LogicError "null pointer" end;
    adjustOwnerCount root (-1) ;;
    put U32 state sfFlags (Z.land flags (not32 (if negb bSenderHigh then lsfLowReserve else lsfHighReserve))) ;;
    mret (is_zero after && negb (flagged flags (if bSenderHigh then lsfLowReserve else lsfHighReserve)))
  else mret false.

(** What [issueIOU] and [redeemIOU] do with a line that exists: [sender] pays [receiver]. *)
Definition move_line (state : Z) (bSenderHigh : bool) (sender receiver : Z) (amount : STAmount) : view_prog TER :=
  balance ← get AmountC state sfBalance;
  let start_balance := in_terms bSenderHigh balance in
  final_balance ← from (st_sub start_balance amount);
  must_delete ← updateTrustLine state bSenderHigh sender start_balance final_balance;
  put AmountC state sfBalance (in_terms bSenderHigh final_balance) ;;
  if (must_delete : bool) then
    trustDelete state (if bSenderHigh then receiver else sender) (if bSenderHigh then sender else receiver)
  else update state ;; mret tesSUCCESS.

Definition issueIOU (acct : Z) (amount : STAmount) (issue : Issue) : view_prog TER :=
  let bSenderHigh := acct <? account issue in
  let line := kl_line (account issue) acct (currency issue) in
  state ← peek line;
  match state with
  | None =>
    limit ← from (st_zero (mkIssue (currency issue) acct));
    let final_balance := setIssuer noAccount amount in
    receiverAccount ← peek_deref (kl_account acct);
    x ← load receiverAccount;
    let noRipple := negb (flagged (getFlags (sle_body x)) lsfDefaultRipple) in
    trustCreate bSenderHigh (account issue) acct (kl_key line) receiverAccount false noRipple false
      final_balance limit 0 0
  | Some state => move_line state bSenderHigh (account issue) acct amount
  end.

Definition redeemIOU (acct : Z) (amount : STAmount) (issue : Issue) : view_prog TER :=
  let bSenderHigh := account issue <? acct in
  state ← peek (kl_line acct (account issue) (currency issue));
  match state with
  | None => mret tefINTERNAL
  | Some state => move_line state bSenderHigh acct (account issue) amount
  end.

Definition transferXRP (from_ to_ : Z) (amount : STAmount) : view_prog TER :=
  sender ← peek_deref (kl_account from_);
  receiver ← peek (kl_account to_);
  b ← get AmountC sender sfBalance;
  less ← from (st_lt b amount);
  if (less : bool) then mret failed_processing
  else
    b ← from (st_sub b amount);
    put AmountC sender sfBalance b ;;
    update sender ;;
    receiver ← match receiver with Some h => mret h | None => LogicError "null pointer" end;
    b ← get AmountC receiver sfBalance;
    b ← from (STAmount.st_add b amount);
    put AmountC receiver sfBalance b ;;
    update receiver ;;
    mret tesSUCCESS.
End View.
