(* ===== verification/ViewLaws.v ===== *)
(** * Laws of the operations on balances

    What the functions of [View] do to accounts: owner counts are adjusted within their
    32 bits, transfers of XRP conserve XRP, and nothing that is done for issued
    currencies moves any. *)

From stdpp Require Import base numbers list gmap strings.
From Stdlib Require Import Lia ZArith.
From S2P Require Import Prelude XRPAmount Serializer STAmount Quality StateTable SField STObject STObjectWire STObjectLaws.
From S2P Require Import Entry Indexes ApplyView ViewLogic Directory DirectoryFrame TxBase Invariants CoreLogic View.

Local Open Scope Z_scope.

(** ** Well-formed entries *)

Definition account_template : SOTemplate := fmt_common ++ fmt_AccountRoot.
Lemma account_format : findByType LedgerFormats ltACCOUNT_ROOT = Some account_template.
Proof. vm_compute. reflexivity. Qed.

Definition line_template : SOTemplate := fmt_common ++ fmt_RippleState.
Lemma line_format : findByType LedgerFormats ltRIPPLE_STATE = Some line_template.
Proof. vm_compute. reflexivity. Qed.

Definition wf_entry (k : Z) (x : SLE STObject) : Prop :=
  sle_key x = k ∧ ∃ t, findByType LedgerFormats (sle_type x) = Some t ∧ entry t (sle_body x).

Abbreviation wf c := (map_Forall wf_entry (c : entries)).

Lemma wf_body (c : entries) k x t :
  wf c → c !! k = Some x → findByType LedgerFormats (sle_type x) = Some t → entry t (sle_body x).
Proof. intros Hw Hx Ht. destruct (Hw k x Hx) as (_ & t' & Ht' & He). congruence. Qed.

Lemma wf_set (c : entries) k x t o :
  wf c → c !! k = Some x → findByType LedgerFormats (sle_type x) = Some t → entry t o →
  wf (<[k := set_body x o]> c).
Proof.
  intros Hw Hx Ht He. apply map_Forall_insert_2; [|done]. destruct (Hw k x Hx) as (Hk & _). split; [done|]. eauto.
Qed.

Section Laws.
Context `{Hash : Sha512}.

(** ** Accounts *)

Abbreviation akey id := (kl_key (kl_account id)).

Definition root (c : entries) (id : Z) (x : SLE STObject) : Prop :=
  c !! akey id = Some x ∧ sle_type x = ltACCOUNT_ROOT.

Lemma lookup_root c id x : lookup_kl c (kl_account id) = Some x ↔ root c id x.
Proof.
  unfold lookup_kl, root, check. change (kl_type (kl_account id)) with ltACCOUNT_ROOT.
  change (ltACCOUNT_ROOT =? ltANY) with false. change (ltACCOUNT_ROOT =? ltINVALID) with false.
  change (ltACCOUNT_ROOT =? ltCHILD) with false. cbn iota.
  destruct (c !! akey id) as [y|]; [|split; [done|by intros [? _]]].
  destruct (Z.eqb_spec (sle_type y) ltACCOUNT_ROOT); split.
  - by intros [= ->].
  - by intros [[= ->] _].
  - done.
  - intros [[= ->] ?]. done.
Qed.

Lemma root_entry c id x : wf c → root c id x → entry account_template (sle_body x).
Proof. intros Hw [Hx Ht]. eapply wf_body; [done|done|]. rewrite Ht. apply account_format. Qed.

Definition balance (x : SLE STObject) : STAmount := val AmountC (sle_body x) sfBalance.
Definition set_field {V} (T : STClass V) (f : SField) (v : V) (x : SLE STObject) : SLE STObject :=
  set_body x (set T f v (sle_body x)).

Lemma fits_balance : fits AmountC account_template sfBalance = true.
Proof. vm_compute. reflexivity. Qed.
Lemma fits_ownerCount : fits U32 account_template sfOwnerCount = true.
Proof. vm_compute. reflexivity. Qed.

Lemma required_present t o f :
  entry t o → (∃ e, e ∈ t ∧ e_field e = f ∧ flags e = SOE_REQUIRED) → present o f = true.
Proof. intros He (e & Hin & <- & Hr). by apply (entry_required t o He). Qed.

Lemma present_balance o : entry account_template o → present o sfBalance = true.
Proof.
  intros He. apply (required_present _ _ _ He). exists (required sfBalance).
  split; [|done]. apply list_elem_of_In. cbn. tauto.
Qed.

Lemma held_root x :
  sle_type x = ltACCOUNT_ROOT → entry account_template (sle_body x) → native_ok (balance x) →
  held x = drops_view (balance x).
Proof.
  intros Ht He Hn. unfold held, entry_drops. rewrite Ht, Z.eqb_refl.
  rewrite (get_at_val AmountC _ _ _ He fits_balance (present_balance _ He)). cbn [mbind outcome_bind].
  fold (balance x). by rewrite xrp_drops by apply Hn.
Qed.

(** *** Owner counts *)

Lemma confineOwnerCount_clamps n adj :
  in_u32 n → - 2 ^ 31 ≤ adj < 2 ^ 31 → confineOwnerCount n adj = Z.max 0 (Z.min (2 ^ 32 - 1) (n + adj)).
Proof.
  unfold in_u32, confineOwnerCount, u32. intros Hn Ha.
  destruct (Z.ltb_spec 0 adj) as [Hp|Hp].
  - destruct (decide (n + adj < 2 ^ 32)).
    + rewrite Z.mod_small by lia. destruct (Z.ltb_spec (n + adj) n); lia.
    + replace (n + adj) with (n + adj - 2 ^ 32 + 1 * 2 ^ 32) at 1 2 by lia.
      rewrite Z_mod_plus_full, Z.mod_small by lia. destruct (Z.ltb_spec (n + adj - 2 ^ 32) n); lia.
  - destruct (decide (0 ≤ n + adj)).
    + rewrite Z.mod_small by lia. destruct (Z.ltb_spec n (n + adj)); lia.
    + replace (n + adj) with (n + adj + 2 ^ 32 + (-1) * 2 ^ 32) at 1 2 by lia.
      rewrite Z_mod_plus_full, Z.mod_small by lia. destruct (Z.ltb_spec n (n + adj + 2 ^ 32)); lia.
Qed.

Definition count_adjusted (adj : Z) (x : SLE STObject) : SLE STObject :=
  set_field U32 sfOwnerCount (confineOwnerCount (val U32 (sle_body x) sfOwnerCount) adj) x.

Lemma cspec_adjustOwnerCount tot h adj x a (Q : unit → vabs → Prop) :
  ab_core a !! h = Some x → entry account_template (sle_body x) →
  Q tt (with_saved h (ab_dirty a) (with_core (<[h := count_adjusted adj x]> (ab_core a)) a)) →
  cspec tot (adjustOwnerCount h adj) a Q.
Proof.
  intros Hx He HQ. unfold adjustOwnerCount.
  apply cspec_bind, (cspec_get _ U32 account_template _ _ x); [done|done|apply fits_ownerCount|].
  apply cspec_bind, (cspec_load _ _ x); [done|].
  apply cspec_bind, (cspec_from _ _ (val AccountID (sle_body x) sfAccount)).
  { apply (proxy_value_val AccountID account_template); [done|vm_compute; reflexivity|].
    apply (required_present _ _ _ He). exists (required sfAccount). split; [|done]. apply list_elem_of_In. cbn. tauto. }
  apply cspec_bind, (cspec_put _ U32 account_template _ _ _ x _ _ ({[h]} ∪ ab_dirty a));
    [done|done|apply fits_ownerCount|by right|].
  apply (cspec_update _ _ (count_adjusted adj x) _ _ (ab_dirty a)); cbn; [by rewrite lookup_insert_eq|done|].
  destruct a as [c n S D]. exact HQ.
Qed.

(** *** Payments of XRP *)

(** A native amount with so many drops. *)
Definition drops_of (a : STAmount) (d : Z) : Prop := native_ok a ∧ drops_view a = d.

Lemma drops_of_bound a d : drops_of a d → Z.abs d ≤ cMaxNativeN.
Proof. intros [(v & neg & -> & Hv & _)%native_ok_inv <-]. unfold drops_view. cbn. destruct neg; lia. Qed.

Lemma drops_of_sub a b x y :
  drops_of a x → drops_of b y → Z.abs (x - y) ≤ cMaxNativeN →
  ∃ c, st_sub a b = Ret c ∧ drops_of c (x - y).
Proof.
  intros [Ha <-] [Hb <-] Hle. destruct (native_ok_neg b Hb) as [Hnb Hd].
  destruct (st_add_native a (st_neg b) Ha Hnb) as (c & Hc & Hcc & Hn & Hv). exists c. split; [done|].
  rewrite Hd in Hv. split; [|lia]. split_and!; [done|done|]. unfold drops_view in Hv at 1. destruct (mIsNegative c); lia.
Qed.

Lemma drops_of_add a b x y :
  drops_of a x → drops_of b y → Z.abs (x + y) ≤ cMaxNativeN →
  ∃ c, STAmount.st_add a b = Ret c ∧ drops_of c (x + y).
Proof.
  intros [Ha <-] [Hb <-] Hle. destruct (st_add_native a b Ha Hb) as (c & Hc & Hcc & Hn & Hv). exists c.
  split; [done|]. split; [|lia]. split_and!; [done|done|]. unfold drops_view in Hv at 1. destruct (mIsNegative c); lia.
Qed.

Lemma drops_of_lt a b x y : drops_of a x → drops_of b y → st_lt a b = Ret (x <? y).
Proof. intros [Ha <-] [Hb <-]. by apply st_order_native. Qed.

(** The account with another balance. *)
Definition with_balance (b : STAmount) (x : SLE STObject) : SLE STObject := set_field AmountC sfBalance b x.

Lemma balance_set b x : entry account_template (sle_body x) → balance (with_balance b x) = b.
Proof. intros He. apply (val_set AmountC account_template); [done|apply fits_balance]. Qed.

Lemma held_with_balance b d x :
  sle_type x = ltACCOUNT_ROOT → entry account_template (sle_body x) → drops_of b d → held (with_balance b x) = d.
Proof.
  intros Ht He [Hn <-]. rewrite held_root; rewrite ?balance_set; try done.
  apply (set_entry AmountC); [done|apply fits_balance].
Qed.

(** Writing a balance and saving the entry. *)
Lemma cspec_put_balance {A} tot h b x a (p : view_prog A) (Q : A → vabs → Prop) :
  ab_core a !! h = Some x → entry account_template (sle_body x) →
  cspec tot p (with_saved h (ab_dirty a) (with_core (<[h := with_balance b x]> (ab_core a)) a)) Q →
  cspec tot (put AmountC h sfBalance b ;; update h ;; p) a Q.
Proof.
  intros Hx He HQ.
  apply cspec_bind, (cspec_put _ AmountC account_template _ _ _ x _ _ ({[h]} ∪ ab_dirty a));
    [done|done|apply fits_balance|by right|].
  apply cspec_bind, (cspec_update _ _ (with_balance b x) _ _ (ab_dirty a)); cbn; [by rewrite lookup_insert_eq|done|].
  destruct a as [c n S D]. exact HQ.
Qed.

Lemma cspec_peek_root {A} tot id x a (f : option Z → view_prog A) (Q : A → vabs → Prop) :
  root (ab_core a) id x → cspec tot (f (Some (akey id))) a Q → cspec tot (peek (kl_account id) ≫= f) a Q.
Proof.
  intros Hx HQ. apply cspec_bind, cspec_peek; [done|done|]. apply lookup_root in Hx. by rewrite Hx.
Qed.

Lemma cspec_peek_deref_root {A} tot id x a (f : Z → view_prog A) (Q : A → vabs → Prop) :
  root (ab_core a) id x → cspec tot (f (akey id)) a Q → cspec tot (peek_deref (kl_account id) ≫= f) a Q.
Proof.
  intros Hx HQ. apply cspec_bind. unfold peek_deref, peek_or. apply (cspec_peek_root _ _ x); [done|].
  by apply cspec_ret.
Qed.

(** What a transfer of XRP does. *)
Lemma transferXRP_spec tot info from_ to_ amount x y bx by_ v a :
  wf (ab_core a) → root (ab_core a) from_ x → root (ab_core a) to_ y → akey from_ ≠ akey to_ →
  drops_of (balance x) bx → drops_of (balance y) by_ → drops_of amount v →
  0 ≤ v → 0 ≤ bx → 0 ≤ by_ → by_ + v ≤ cMaxNativeN →
  cspec tot (transferXRP info from_ to_ amount) a (λ ter a',
    (v ≤ bx ∧ ter = tesSUCCESS ∧ ab_dirty a' = ab_dirty a ∧ ab_rest a' = ab_rest a ∧
     ∃ b c, drops_of b (bx - v) ∧ drops_of c (by_ + v) ∧
       ab_core a' = <[akey to_ := with_balance c y]> (<[akey from_ := with_balance b x]> (ab_core a))) ∨
    (bx < v ∧ ter = failed_processing info ∧ a' = a)).
Proof.
  intros Hw Hx Hy Hne Hbx Hby Hv Hv0 Hbx0 Hby0 Hmax.
  pose proof (root_entry _ _ _ Hw Hx) as Hex. pose proof (root_entry _ _ _ Hw Hy) as Hey.
  unfold transferXRP. apply (cspec_peek_deref_root _ _ x); [done|]. apply (cspec_peek_root _ _ y); [done|].
  apply cspec_bind, (cspec_get _ AmountC account_template _ _ x); [apply Hx|done|apply fits_balance|].
  fold (balance x). apply cspec_bind, (cspec_from _ _ (bx <? v)); [by apply drops_of_lt|].
  destruct (Z.ltb_spec bx v) as [Hlt|Hle]; [apply cspec_ret; by right|].
  pose proof (drops_of_bound _ _ Hbx) as Hbmax.
  destruct (drops_of_sub _ _ _ _ Hbx Hv ltac:(lia)) as (b & Hb & Hbd).
  apply cspec_bind, (cspec_from _ _ b); [done|].
  apply (cspec_put_balance _ _ _ x); [apply Hx|done|].
  apply cspec_bind, cspec_ret.
  apply cspec_bind, (cspec_get _ AmountC account_template _ _ y); cbn;
    [rewrite lookup_insert_ne by done; apply Hy|done|apply fits_balance|].
  destruct (drops_of_add _ _ _ _ Hby Hv ltac:(lia)) as (c & Hc & Hcd). fold (balance y).
  apply cspec_bind, (cspec_from _ _ c); [done|].
  apply (cspec_put_balance _ _ _ y); cbn; [rewrite lookup_insert_ne by done; apply Hy|done|].
  apply cspec_ret. left. cbn. split_and!; [done..|]. by exists b, c.
Qed.
End Laws.
