(* ===== verification/PaymentSandbox.v ===== *)
(** * Payment sandboxes and deferred credits

    [ledger/PaymentSandbox.h] and [ledger/impl/PaymentSandbox.cpp]: the views in which
    payments are tried.  What an account receives during a payment cannot be spent in the
    same payment: [creditHook] notes every transfer in a table, and [balanceHook] answers
    with the balance from which the credits are left out, over a chain of sandboxes.

    The table of a sandbox ([tab_]) is modelled whole, and a chain of sandboxes ([ps_]) is
    the list of their tables, the innermost first; the entries ([items_]) are the state
    tables of [StateTable].  [send_xrp] is how [accountSend] uses the hooks, on the balances
    of the accounts. *)

From stdpp Require Import base numbers list gmap strings.
From Stdlib Require Import Lia ZArith.
From S2P Require Import Prelude XRPAmount Serializer STAmount Quality StateTable SField STObject STObjectWire STObjectLaws.
From S2P Require Import Entry Indexes ApplyView ViewLogic Directory DirectoryFrame TxBase Invariants CoreLogic View ViewLaws.

Local Open Scope Z_scope.

(** ** [DeferredCredits] *)

(** [Key]: the low account, the high account and the currency. *)
Abbreviation credit_key := (Z * Z * Z)%type.

(** [Value]. *)
Record credit_value : Type := mkValue {
  lowAcctCredits : STAmount;
  highAcctCredits : STAmount;
  lowAcctOrigBalance : STAmount }.

Record Adjustment : Type := mkAdjustment {
  debits : STAmount;
  credits : STAmount;
  origBalance : STAmount }.

Record DeferredCredits : Type := mkDeferred {
  credits_ : gmap credit_key credit_value;
  ownerCounts_ : gmap Z Z }.

Definition no_credits : DeferredCredits := mkDeferred ∅ ∅.

Definition makeKey (a1 a2 c : Z) : credit_key := if a1 <? a2 then (a1, a2, c) else (a2, a1, c).

(** [zeroed]. *)
Definition zeroed (a : STAmount) : outcome STAmount := st_zero (mIssue a).

Definition dc_credit (sender receiver : Z) (amount preCreditSenderBalance : STAmount) (t : DeferredCredits) :
    outcome DeferredCredits :=
  let k := makeKey sender receiver (currency (mIssue amount)) in
  v ← match credits_ t !! k with
      | None =>
        zero ← zeroed amount;
        Ret (if sender <? receiver then mkValue zero amount preCreditSenderBalance
             else mkValue amount zero (st_neg preCreditSenderBalance))
      | Some v =>
        if sender <? receiver
        then high ← STAmount.st_add (highAcctCredits v) amount; Ret (mkValue (lowAcctCredits v) high (lowAcctOrigBalance v))
        else low ← STAmount.st_add (lowAcctCredits v) amount; Ret (mkValue low (highAcctCredits v) (lowAcctOrigBalance v))
      end;
  Ret (mkDeferred (<[k := v]> (credits_ t)) (ownerCounts_ t)).

(** [ownerCount (id, cur, next)]: the largest count is kept. *)
Definition note_owner_count (id cur next : Z) (t : DeferredCredits) : DeferredCredits :=
  let v := Z.max cur next in
  mkDeferred (credits_ t)
    (match ownerCounts_ t !! id with
     | None => <[id := v]> (ownerCounts_ t)
     | Some m => <[id := Z.max v m]> (ownerCounts_ t)
     end).

(** [ownerCount (id)]. *)
Definition deferred_owner_count (id : Z) (t : DeferredCredits) : option Z := ownerCounts_ t !! id.

Definition adjustments (main other currency : Z) (t : DeferredCredits) : option Adjustment :=
  match credits_ t !! makeKey main other currency with
  | None => None
  | Some v =>
    if main <? other
    then Some (mkAdjustment (highAcctCredits v) (lowAcctCredits v) (lowAcctOrigBalance v))
    else Some (mkAdjustment (lowAcctCredits v) (highAcctCredits v) (st_neg (lowAcctOrigBalance v)))
  end.

(** The original balance of the table below stays. *)
Definition merge_value (toVal fromVal : credit_value) : outcome credit_value :=
  low ← STAmount.st_add (lowAcctCredits toVal) (lowAcctCredits fromVal);
  high ← STAmount.st_add (highAcctCredits toVal) (highAcctCredits fromVal);
  Ret (mkValue low high (lowAcctOrigBalance toVal)).

Fixpoint apply_credits (l : list (credit_key * credit_value)) (to_ : gmap credit_key credit_value) :
    outcome (gmap credit_key credit_value) :=
  match l with
  | [] => Ret to_
  | (k, v) :: l =>
    w ← match to_ !! k with None => Ret v | Some t => merge_value t v end;
    apply_credits l (<[k := w]> to_)
  end.

Definition apply_owner_counts (from_ to_ : gmap Z Z) : gmap Z Z :=
  union_with (λ toVal fromVal, Some (Z.max toVal fromVal)) to_ from_.

Definition dc_apply (from_ to_ : DeferredCredits) : outcome DeferredCredits :=
  m ← apply_credits (map_to_list (credits_ from_)) (credits_ to_);
  Ret (mkDeferred m (apply_owner_counts (ownerCounts_ from_) (ownerCounts_ to_))).

(** ** The hooks of [PaymentSandbox] *)

(** [std::min]. *)
Definition st_min (a b : STAmount) : outcome STAmount := less ← st_lt b a; Ret (if less : bool then b else a).

Section Hooks.
Context (info : ViewInfo).

(** The loop after the switch to the original balances: what was debited, the oldest
    original balance and the least one. *)
Fixpoint scan_debits (account issuer currency : Z) (chain : list DeferredCredits) (delta lastBal minBal : STAmount) :
    outcome (STAmount * STAmount * STAmount) :=
  match chain with
  | [] => Ret (delta, lastBal, minBal)
  | tab_ :: ps_ =>
    match adjustments account issuer currency tab_ with
    | None => scan_debits account issuer currency ps_ delta lastBal minBal
    | Some adj =>
      delta ← STAmount.st_add delta (debits adj);
      let lastBal := origBalance adj in
      less ← st_lt lastBal minBal;
      scan_debits account issuer currency ps_ delta lastBal (if less : bool then lastBal else minBal)
    end
  end.

(** The loop before it: the credits are taken off the balance. *)
Fixpoint scan_credits (account issuer currency : Z) (chain : list DeferredCredits) (adjustedAmt : STAmount) :
    outcome STAmount :=
  match chain with
  | [] => Ret adjustedAmt
  | tab_ :: ps_ =>
    match adjustments account issuer currency tab_ with
    | None => scan_credits account issuer currency ps_ adjustedAmt
    | Some adj => adjustedAmt ← st_sub adjustedAmt (credits adj); scan_credits account issuer currency ps_ adjustedAmt
    end
  end.

Definition balanceHook (chain : list DeferredCredits) (account_ issuer : Z) (amount : STAmount) : outcome STAmount :=
  let currency_ := currency (mIssue amount) in
  adjustedAmt ←
    (if fix1141 (v_parentCloseTime info) then
       delta ← zeroed amount;
       '(delta, lastBal, minBal) ← scan_debits account_ issuer currency_ chain delta amount amount;
       rest ← st_sub lastBal delta;
       adjustedAmt ← st_min amount rest;
       adjustedAmt ← (if enabled (v_rules info) fix1368 then st_min adjustedAmt minBal else Ret adjustedAmt);
       Ret (if fix1274 (v_parentCloseTime info) then setIssuer (account (mIssue amount)) adjustedAmt else adjustedAmt)
     else scan_credits account_ issuer currency_ chain amount);
  Ret (if isXRP issuer && (st_signum adjustedAmt <? 0) then clear adjustedAmt else adjustedAmt).

Fixpoint ownerCountHook (chain : list DeferredCredits) (account : Z) (result : Z) : Z :=
  match chain with
  | [] => result
  | tab_ :: ps_ =>
    ownerCountHook ps_ account
      (match deferred_owner_count account tab_ with Some adj => Z.max result adj | None => result end)
  end.

(** [creditHook] and [adjustOwnerCountHook] note in the table of the innermost sandbox. *)
Definition creditHook (from_ to_ : Z) (amount preCreditBalance : STAmount) (chain : list DeferredCredits) :
    outcome (list DeferredCredits) :=
  match chain with
  | [] => Ret []
  | tab_ :: ps_ => tab_ ← dc_credit from_ to_ amount preCreditBalance tab_; Ret (tab_ :: ps_)
  end.

Definition adjustOwnerCountHook (account cur next : Z) (chain : list DeferredCredits) : list DeferredCredits :=
  match chain with [] => [] | tab_ :: ps_ => note_owner_count account cur next tab_ :: ps_ end.

End Hooks.

(** ** [balanceChanges] *)

(** What a change of an entry says of a balance: the low and the high account, the balance
    before and after. *)
Record BalanceChange : Type := mkBalanceChange {
  lowID : Z;
  highID : Z;
  oldBalance : STAmount;
  newBalance : STAmount }.

Definition no_change : BalanceChange := mkBalanceChange 0 0 (st_native 0 false) (st_native 0 false).

(** The accounts of an account root or of a trust line; none for other entries. *)
Definition balance_ends (sle : SLE STObject) : outcome (option (Z * Z)) :=
  if sle_type sle =? ltACCOUNT_ROOT then
    high ← get_at AccountID (sle_body sle) sfAccount; Ret (Some (0, high))
  else if sle_type sle =? ltRIPPLE_STATE then
    low ← get_at AmountC (sle_body sle) sfLowLimit;
    high ← get_at AmountC (sle_body sle) sfHighLimit;
    Ret (Some (account (mIssue low), account (mIssue high)))
  else Ret None.

(** The branches of [each]; nothing when an entry that was not there is deleted. *)
Definition balance_change (isDelete : bool) (before after : option (SLE STObject)) : outcome (option BalanceChange) :=
  match isDelete, before, after with
  | true, None, _ => Ret None
  | true, Some before, _ =>
    ends ← balance_ends before;
    match ends with
    | None => Ret (Some no_change)
    | Some (low, high) =>
      old ← get_at AmountC (sle_body before) sfBalance; new ← zeroed old; Ret (Some (mkBalanceChange low high old new))
    end
  | false, None, Some after =>
    ends ← balance_ends after;
    match ends with
    | None => Ret (Some no_change)
    | Some (low, high) =>
      new ← get_at AmountC (sle_body after) sfBalance; old ← zeroed new; Ret (Some (mkBalanceChange low high old new))
    end
  | false, Some before, Some after =>
    ends ← balance_ends after;
    match ends with
    | None => Ret (Some no_change)
    | Some (low, high) =>
      old ← get_at AmountC (sle_body before) sfBalance;
      new ← get_at AmountC (sle_body after) sfBalance; Ret (Some (mkBalanceChange low high old new))
    end
  | false, _, None => Throw (logic_error "null pointer")
  end.

(** [emplace], then [+=] when the key is new. *)
Definition emplace_delta (k : credit_key) (delta : STAmount) (result : gmap credit_key STAmount) :
    outcome (gmap credit_key STAmount) :=
  match result !! k with
  | Some _ => Ret result
  | None => d ← STAmount.st_add delta delta; Ret (<[k := d]> result)
  end.

Definition put_change (c : BalanceChange) (result : gmap credit_key STAmount) : outcome (gmap credit_key STAmount) :=
  delta ← st_sub (newBalance c) (oldBalance c);
  let cur := currency (mIssue (newBalance c)) in
  let result := <[(lowID c, highID c, cur) := delta]> result in
  result ← emplace_delta (lowID c, lowID c, cur) delta result;
  emplace_delta (highID c, highID c, cur) (negate delta) result.

(** [vs] is what [items_.visit (view, each)] shows. *)
Fixpoint balanceChanges (vs : list change) (result : gmap credit_key STAmount) : outcome (gmap credit_key STAmount) :=
  match vs with
  | [] => Ret result
  | (_, isDelete, before, after) :: vs =>
    c ← balance_change isDelete before after;
    result ← match c with None => Ret result | Some c => put_change c result end;
    balanceChanges vs result
  end.

(** The total of an account root that changed by [d] drops is entered as [-2 d] the first
    time, and later changes of the same key are dropped; its own entry is right. *)
Lemma balance_totals_wrong :
  let xrp d := st_of_int64 d in
  let c := mkBalanceChange 0 7 (xrp 10) (xrp 15) in
  ∃ m, put_change c ∅ = Ret m ∧ m !! (0, 7, 0) = Some (xrp 5) ∧
    m !! (7, 7, 0) = Some (xrp (-10)) ∧ m !! (0, 0, 0) = Some (xrp 10) ∧
    ∃ m', put_change (mkBalanceChange 0 9 (xrp 10) (xrp 5)) m = Ret m' ∧ m' !! (0, 0, 0) = Some (xrp 10).
Proof. eexists. split_and!; try (vm_compute; reflexivity). eexists. by split; vm_compute. Qed.

(** ** Payments in XRP over a stack of sandboxes *)

(** A sandbox: its table, and the XRP balances of the accounts as it shows them. *)
Record Sandbox : Type := mkSandbox {
  tab_ : DeferredCredits;
  sb_balances : gmap Z STAmount }.

(** [accountSend] for XRP after the switch: the sender is debited, then the receiver is
    credited; either may be missing.  Whether the transfer was made. *)
Definition debit_xrp (id : Z) (saAmount : STAmount) (s : Sandbox) : outcome (bool * Sandbox) :=
  match (if id =? 0 then None else sb_balances s !! id) with
  | None => Ret (true, s)
  | Some sndBal =>
    less ← st_lt sndBal saAmount;
    if (less : bool) then Ret (false, s) else
    t ← dc_credit id 0 saAmount sndBal (tab_ s);
    b ← st_sub sndBal saAmount;
    Ret (true, mkSandbox t (<[id := b]> (sb_balances s)))
  end.

Definition credit_xrp (id : Z) (saAmount : STAmount) (s : Sandbox) : outcome Sandbox :=
  match (if id =? 0 then None else sb_balances s !! id) with
  | None => Ret s
  | Some rcvBal =>
    b ← STAmount.st_add rcvBal saAmount;
    t ← dc_credit 0 id saAmount (st_neg rcvBal) (tab_ s);
    Ret (mkSandbox t (<[id := b]> (sb_balances s)))
  end.

Definition send_xrp (uSenderID uReceiverID : Z) (saAmount : STAmount) (s : Sandbox) : outcome Sandbox :=
  if is_zero saAmount || (uSenderID =? uReceiverID) then Ret s else
  '(ok, s) ← debit_xrp uSenderID saAmount s;
  if (ok : bool) then credit_xrp uReceiverID saAmount s else Ret s.

(** What happens in a payment: transfers, a new sandbox on top of the innermost one, and
    the innermost one applied to the one below it or thrown away. *)
Inductive pay_event : Type :=
| Transfer (uSenderID uReceiverID : Z) (saAmount : STAmount)
| OpenSandbox
| ApplySandbox
| DropSandbox.

Definition pay_step (e : pay_event) (st : list Sandbox) : outcome (list Sandbox) :=
  match e, st with
  | Transfer s r amount, sb :: st => sb ← send_xrp s r amount sb; Ret (sb :: st)
  | OpenSandbox, sb :: st => Ret (mkSandbox no_credits (sb_balances sb) :: sb :: st)
  | ApplySandbox, sb :: below :: st => t ← dc_apply (tab_ sb) (tab_ below); Ret (mkSandbox t (sb_balances sb) :: st)
  | DropSandbox, _ :: below :: st => Ret (below :: st)
  | _, st => Ret st
  end.

Fixpoint pay_run (es : list pay_event) (st : list Sandbox) : outcome (list Sandbox) :=
  match es with [] => Ret st | e :: es => st ← pay_step e st; pay_run es st end.
