(* ===== verification/PaymentLaws.v ===== *)
(** * What deferred credits promise

    A payment in XRP over a stack of [PaymentSandbox] sandboxes, against a specification
    that keeps a journal of the transfers of every sandbox: opening a sandbox opens a
    journal, applying one appends its journal to that of the sandbox below, and dropping
    one forgets its journal.  The balances are those of the journals, and [balanceHook]
    answers with the first balance less all that was sent: nothing that was received in
    the payment can be spent in it, and nothing else is withheld. *)

From stdpp Require Import base numbers list gmap strings.
From Stdlib Require Import Lia ZArith.
From S2P Require Import Prelude XRPAmount Serializer STAmount Quality StateTable SField STObject STObjectWire STObjectLaws.
From S2P Require Import Entry Indexes ApplyView ViewLogic TxBase Invariants CoreLogic View ViewLaws PaymentSandbox.

Local Open Scope Z_scope.

(** ** Journals *)

Record transfer : Type := mkTransfer { tr_from : Z; tr_to : Z; tr_drops : Z }.

Definition sent (a : Z) (j : list transfer) : Z := sum (λ t, if tr_from t =? a then tr_drops t else 0) j.
Definition received (a : Z) (j : list transfer) : Z := sum (λ t, if tr_to t =? a then tr_drops t else 0) j.
Definition moved (j : list transfer) : Z := sum tr_drops j.

Definition proper (t : transfer) : Prop := 0 ≤ tr_drops t ∧ tr_from t ≠ tr_to t.

Lemma sent_app a j k : sent a (j ++ k) = sent a j + sent a k.
Proof. apply sum_app. Qed.
Lemma received_app a j k : received a (j ++ k) = received a j + received a k.
Proof. apply sum_app. Qed.

Lemma journal_bounds a j : Forall proper j →
  0 ≤ sent a j ∧ 0 ≤ received a j ∧ sent a j + received a j ≤ moved j.
Proof.
  unfold sent, received, moved. induction 1 as [|t j [Hd Hne] _ IH]; [cbn; lia|]. rewrite !sum_cons.
  destruct (Z.eqb_spec (tr_from t) a), (Z.eqb_spec (tr_to t) a); lia.
Qed.

(** ** The specification *)

Section Payment.
Context (m0 : gmap Z STAmount).

(** The balance of an account before the payment. *)
Definition first_balance (a : Z) : Z := match m0 !! a with Some x => drops_view x | None => 0 end.

(** The balance that follows from the journals of the sandboxes. *)
Definition holds (js : list (list transfer)) (a : Z) : Z :=
  first_balance a + received a (concat js) - sent a (concat js).

(** A transfer is made unless it is empty, to oneself, or more than the sender holds. *)
Definition spec_step (e : pay_event) (js : list (list transfer)) : list (list transfer) :=
  match e, js with
  | Transfer s r amount, j :: rest =>
    if (drops_view amount =? 0) || (s =? r) then js
    else if bool_decide (is_Some (m0 !! s)) && (holds js s <? drops_view amount) then js
    else (mkTransfer s r (drops_view amount) :: j) :: rest
  | OpenSandbox, _ :: _ => [] :: js
  | ApplySandbox, j :: k :: rest => (j ++ k) :: rest
  | DropSandbox, _ :: k :: rest => k :: rest
  | _, _ => js
  end.

Definition spec_run (es : list pay_event) (js : list (list transfer)) : list (list transfer) :=
  foldl (λ js e, spec_step e js) js es.

Definition cost (e : pay_event) : Z := match e with Transfer _ _ amount => drops_view amount | _ => 0 end.

Definition valid_event (e : pay_event) : Prop :=
  match e with Transfer _ _ amount => native_ok amount ∧ 0 ≤ drops_view amount | _ => True end.

(** ** Tables and the journals they stand for *)

Definition xrp_key (a : Z) : credit_key := (0, a, 0).

(** The entry of an account that held [b] when the sandbox was opened, and has since
    received [c] and sent [d]. *)
Definition entry_ok (o : option credit_value) (b c d : Z) : Prop :=
  match o with
  | Some v => drops_of (lowAcctCredits v) d ∧ drops_of (highAcctCredits v) c ∧ drops_of (lowAcctOrigBalance v) (- b)
  | None => c = 0 ∧ d = 0
  end.

Definition tab_ok (t : DeferredCredits) (b c d : Z → Z) : Prop :=
  (∀ k v, credits_ t !! k = Some v → ∃ a, is_Some (m0 !! a) ∧ k = xrp_key a) ∧
  ∀ a, is_Some (m0 !! a) → entry_ok (credits_ t !! xrp_key a) (b a) (c a) (d a).

Definition bal_ok (m : gmap Z STAmount) (f : Z → Z) : Prop :=
  ∀ a, match m !! a with
       | Some x => is_Some (m0 !! a) ∧ drops_of x (f a) ∧ 0 ≤ f a
       | None => m0 !! a = None
       end.

Fixpoint stack_ok (st : list Sandbox) (js : list (list transfer)) : Prop :=
  match st, js with
  | [], [] => True
  | s :: st, j :: js =>
    tab_ok (tab_ s) (holds js) (λ a, received a j) (λ a, sent a j) ∧
    bal_ok (sb_balances s) (holds (j :: js)) ∧ stack_ok st js
  | _, _ => False
  end.

Definition inv (used : Z) (st : list Sandbox) (js : list (list transfer)) : Prop :=
  js ≠ [] ∧ stack_ok st js ∧ Forall proper (concat js) ∧ moved (concat js) ≤ used.

Lemma tab_ok_ext t b c d b' c' d' :
  (∀ a, is_Some (m0 !! a) → b a = b' a ∧ c a = c' a ∧ d a = d' a) → tab_ok t b c d → tab_ok t b' c' d'.
Proof. intros He [Hk Ha]. split; [done|]. intros a H. destruct (He a H) as (<- & <- & <-). by apply Ha. Qed.

Lemma bal_ok_ext m f g : (∀ a, is_Some (m0 !! a) → f a = g a) → bal_ok m f → bal_ok m g.
Proof.
  intros He Hb a. specialize (Hb a). destruct (m !! a) as [x|]; [|done].
  destruct Hb as (H & Hx & Hp). rewrite <- (He a H). done.
Qed.

(** Every account has a proper identifier, and room for all that is moved. *)
Context (T : Z).
Hypothesis room : ∀ a x, m0 !! a = Some x → 0 < a ∧ native_ok x ∧ 0 ≤ drops_view x ∧ drops_view x + T ≤ cMaxNativeN.

Lemma account_pos a : is_Some (m0 !! a) → 0 < a.
Proof. intros [x Hx]. by apply (room a x). Qed.

Lemma first_room a : is_Some (m0 !! a) → 0 ≤ first_balance a ∧ first_balance a + T ≤ cMaxNativeN.
Proof. intros [x Hx]. unfold first_balance. rewrite Hx. destruct (room a x Hx) as (_ & _ & ? & ?). lia. Qed.

Lemma drops_of_neg x d : drops_of x d → drops_of (st_neg x) (- d).
Proof. intros [Hx <-]. by apply native_ok_neg. Qed.

Lemma zeroed_drops x d : drops_of x d → ∃ z, zeroed x = Ret z ∧ drops_of z 0.
Proof.
  intros [(v & neg & -> & _)%native_ok_inv _]. exists (mkAmount xrpIssue 0 0 true false). split; [done|].
  split; [|done]. unfold native_ok, canonical. cbn. unfold cMaxNativeN. split_and!; (done || lia).
Qed.

Lemma drops_currency x d : drops_of x d → currency (mIssue x) = 0.
Proof. by intros [(v & neg & -> & _)%native_ok_inv _]. Qed.

Lemma makeKey_out a : 0 < a → makeKey a 0 0 = xrp_key a.
Proof. intros H. unfold makeKey. destruct (Z.ltb_spec a 0); [lia|done]. Qed.
Lemma makeKey_in a : 0 < a → makeKey 0 a 0 = xrp_key a.
Proof. intros H. unfold makeKey. destruct (Z.ltb_spec 0 a); [done|lia]. Qed.

(** ** The operations on tables *)

Lemma tab_ok_insert t oc b c d c' d' a v :
  tab_ok t b c d → is_Some (m0 !! a) → entry_ok (Some v) (b a) (c' a) (d' a) →
  (∀ y, y ≠ a → c y = c' y ∧ d y = d' y) →
  tab_ok (mkDeferred (<[xrp_key a := v]> (credits_ t)) oc) b c' d'.
Proof.
  intros [Hk Ht] Ha Hv He. split; cbn.
  - intros k w. rewrite lookup_insert_Some. intros [[<- _]|[_ Hw]]; [by exists a|by eapply Hk].
  - intros y Hy. destruct (decide (y = a)) as [->|Hne]; [by rewrite lookup_insert_eq|].
    rewrite lookup_insert_ne by (unfold xrp_key; congruence). destruct (He y Hne) as [<- <-]. by apply Ht.
Qed.

(** [x] more drops in the count of account [a]. *)
Definition plus_at (a x : Z) (f : Z → Z) (y : Z) : Z := f y + if a =? y then x else 0.

Lemma plus_at_eq a x f : plus_at a x f a = f a + x.
Proof. unfold plus_at. by rewrite Z.eqb_refl. Qed.
Lemma plus_at_ne a x f y : y ≠ a → f y = plus_at a x f y.
Proof. unfold plus_at. destruct (Z.eqb_spec a y); [congruence|lia]. Qed.

Lemma debit_tab t b c d a bal amt x :
  tab_ok t b c d → is_Some (m0 !! a) → drops_of bal (b a + c a - d a) → drops_of amt x →
  Z.abs (d a + x) ≤ cMaxNativeN →
  ∃ t', dc_credit a 0 amt bal t = Ret t' ∧ tab_ok t' b c (plus_at a x d).
Proof.
  intros Ht Ha Hbal Hamt Hle. pose proof (account_pos a Ha) as Hp. pose proof (proj2 Ht a Ha) as He.
  unfold dc_credit. rewrite (drops_currency _ _ Hamt), makeKey_out by done.
  destruct (Z.ltb_spec a 0); [lia|]. destruct (credits_ t !! xrp_key a) as [v|]; cbn in He.
  - destruct He as (Hl & Hh & Ho). destruct (drops_of_add _ _ _ _ Hl Hamt Hle) as (l & -> & Hl').
    cbn. eexists. split; [done|]. eapply tab_ok_insert; [done..| |].
    + rewrite plus_at_eq. done.
    + intros y Hy. split; [done|by apply plus_at_ne].
  - destruct He as [Hc Hd]. destruct (zeroed_drops _ _ Hamt) as (z & -> & Hz). cbn. eexists. split; [done|].
    eapply tab_ok_insert; [done..| |].
    + rewrite plus_at_eq, Hc, Hd. split_and!; cbn; [done|done|]. apply drops_of_neg.
      by replace (b a) with (b a + c a - d a) by lia.
    + intros y Hy. split; [done|by apply plus_at_ne].
Qed.

Lemma credit_tab t b c d a bal amt x :
  tab_ok t b c d → is_Some (m0 !! a) → drops_of bal (- (b a + c a - d a)) → drops_of amt x →
  Z.abs (c a + x) ≤ cMaxNativeN →
  ∃ t', dc_credit 0 a amt bal t = Ret t' ∧ tab_ok t' b (plus_at a x c) d.
Proof.
  intros Ht Ha Hbal Hamt Hle. pose proof (account_pos a Ha) as Hp. pose proof (proj2 Ht a Ha) as He.
  unfold dc_credit. rewrite (drops_currency _ _ Hamt), makeKey_in by done.
  destruct (Z.ltb_spec 0 a); [|lia]. destruct (credits_ t !! xrp_key a) as [v|]; cbn in He.
  - destruct He as (Hl & Hh & Ho). destruct (drops_of_add _ _ _ _ Hh Hamt Hle) as (h & -> & Hh').
    cbn. eexists. split; [done|]. eapply tab_ok_insert; [done..| |].
    + rewrite plus_at_eq. done.
    + intros y Hy. split; [by apply plus_at_ne|done].
  - destruct He as [Hc Hd]. destruct (zeroed_drops _ _ Hamt) as (z & -> & Hz). cbn. eexists. split; [done|].
    eapply tab_ok_insert; [done..| |].
    + rewrite plus_at_eq, Hc, Hd. split_and!; cbn; [done|done|].
      by replace (b a) with (b a + c a - d a) by lia.
    + intros y Hy. split; [by apply plus_at_ne|done].
Qed.

(** What applying a table does at every key. *)
Lemma apply_credits_lookup (l : list (credit_key * credit_value)) (to_ : gmap credit_key credit_value) :
  NoDup l.*1 →
  (∀ k v t, (k, v) ∈ l → to_ !! k = Some t → ∃ w, merge_value t v = Ret w) →
  ∃ m, apply_credits l to_ = Ret m ∧
    (∀ k, k ∉ l.*1 → m !! k = to_ !! k) ∧
    (∀ k v, (k, v) ∈ l → match to_ !! k with
                         | Some t => ∃ w, merge_value t v = Ret w ∧ m !! k = Some w
                         | None => m !! k = Some v
                         end).
Proof.
  revert to_. induction l as [|[k v] l IH]; intros to_ Hnd Hm.
  - exists to_. split_and!; [done|done|]. by intros k v ?%not_elem_of_nil.
  - rewrite fmap_cons, NoDup_cons in Hnd. destruct Hnd as [Hk Hnd].
    assert (∃ w, match to_ !! k with None => Ret v | Some t => merge_value t v end = Ret w) as [w Hw].
    { destruct (to_ !! k) as [t|] eqn:E; [|by eexists]. apply (Hm k v t); [by left|done]. }
    assert (∀ k' v', (k', v') ∈ l → k' ≠ k) as Hne.
    { intros k' v' H ->. apply Hk, list_elem_of_fmap. by exists (k, v'). }
    destruct (IH (<[k := w]> to_) Hnd) as (m & Hrun & Hout & Hin).
    { intros k' v' t' H. rewrite lookup_insert_ne by (symmetry; by eapply Hne). apply Hm. by right. }
    exists m. split_and!; [cbn; by rewrite Hw| |].
    + intros k' Hk'. rewrite fmap_cons, not_elem_of_cons in Hk'. destruct Hk' as [Hk1 Hk2].
      rewrite Hout by done. by rewrite lookup_insert_ne.
    + intros k' v' [[= -> ->]|H]%elem_of_cons.
      * rewrite Hout by done. rewrite lookup_insert_eq. destruct (to_ !! k); [by eexists|congruence].
      * specialize (Hin _ _ H). by rewrite lookup_insert_ne in Hin by (symmetry; by eapply Hne).
Qed.

Lemma merge_entry t v b c d b' c' d' :
  entry_ok (Some t) b c d → entry_ok (Some v) b' c' d' →
  Z.abs (c + c') ≤ cMaxNativeN → Z.abs (d + d') ≤ cMaxNativeN →
  ∃ w, merge_value t v = Ret w ∧ entry_ok (Some w) b (c + c') (d + d').
Proof.
  intros (Hl & Hh & Ho) (Hl' & Hh' & _) Hc Hd.
  destruct (drops_of_add _ _ _ _ Hl Hl' Hd) as (l & El & ?). destruct (drops_of_add _ _ _ _ Hh Hh' Hc) as (h & Eh & ?).
  exists (mkValue l h (lowAcctOrigBalance t)). unfold merge_value. rewrite El. cbn. rewrite Eh. done.
Qed.

(** The table of a sandbox applied to the one it was opened on. *)
Lemma apply_tab t u b c d c' d' :
  tab_ok u b c d → tab_ok t (λ a, b a + c a - d a) c' d' →
  (∀ a, is_Some (m0 !! a) → Z.abs (c a + c' a) ≤ cMaxNativeN ∧ Z.abs (d a + d' a) ≤ cMaxNativeN) →
  ∃ r, dc_apply t u = Ret r ∧ tab_ok r b (λ a, c a + c' a) (λ a, d a + d' a).
Proof.
  intros [Hku Hu] [Hkt Ht] Hle.
  destruct (apply_credits_lookup (map_to_list (credits_ t)) (credits_ u)) as (m & Hrun & Hout & Hin).
  { apply NoDup_fst_map_to_list. }
  { intros k v w Hv%elem_of_map_to_list Hw. destruct (Hkt k v Hv) as (a & Ha & ->).
    specialize (Hu a Ha). specialize (Ht a Ha). rewrite Hv in Ht. rewrite Hw in Hu. destruct (Hle a Ha) as [Hc Hd].
    destruct (merge_entry _ _ _ _ _ _ _ _ Hu Ht Hc Hd) as (x & Hx & _). by exists x. }
  unfold dc_apply. rewrite Hrun. cbn. eexists. split; [done|].
  assert (∀ k, credits_ t !! k = None → m !! k = credits_ u !! k) as Hnone.
  { intros k Hk. apply Hout. rewrite list_elem_of_fmap. intros ([k' v] & -> & H%elem_of_map_to_list). cbn in Hk. congruence. }
  split; cbn.
  - intros k w Hw. destruct (credits_ t !! k) as [v|] eqn:E; [by eapply Hkt|]. rewrite Hnone in Hw by done. by eapply Hku.
  - intros a Ha. specialize (Hu a Ha). specialize (Ht a Ha). destruct (Hle a Ha) as [Hc Hd].
    destruct (credits_ t !! xrp_key a) as [v|] eqn:E.
    + specialize (Hin _ _ (proj2 (elem_of_map_to_list _ _ _) E)).
      destruct (credits_ u !! xrp_key a) as [w|].
      * destruct Hin as (x & Hx & ->). destruct (merge_entry _ _ _ _ _ _ _ _ Hu Ht Hc Hd) as (x' & Hx' & He). congruence.
      * rewrite Hin. destruct Hu as [Hc0 Hd0]. destruct Ht as (? & ? & Ho). rewrite Hc0, Hd0, !Z.add_0_l in *.
        split_and!; [done|done|]. by replace (b a) with (b a + 0 - 0) by lia.
    + destruct Ht as [-> ->]. rewrite Hnone by done. by rewrite !Z.add_0_r.
Qed.

(** ** Transfers *)

Definition sandbox_ok (s : Sandbox) (b c d : Z → Z) : Prop :=
  tab_ok (tab_ s) b c d ∧ bal_ok (sb_balances s) (λ a, b a + c a - d a).

Lemma sandbox_ok_ext s b c d c' d' :
  (∀ a, is_Some (m0 !! a) → c a = c' a ∧ d a = d' a) → sandbox_ok s b c d → sandbox_ok s b c' d'.
Proof.
  intros He [Ht Hb]. split.
  - eapply tab_ok_ext; [|done]. intros a Ha. by split; [|apply He].
  - eapply bal_ok_ext; [|done]. intros a Ha. cbn. by destruct (He a Ha) as [-> ->].
Qed.

Lemma bal_ok_insert m f g id x :
  bal_ok m f → is_Some (m0 !! id) → drops_of x (g id) → 0 ≤ g id → (∀ a, a ≠ id → f a = g a) →
  bal_ok (<[id := x]> m) g.
Proof.
  intros Hb Hid Hx Hp He a. destruct (decide (a = id)) as [->|Hne]; [by rewrite lookup_insert_eq|].
  rewrite lookup_insert_ne by done. specialize (Hb a). by rewrite He in Hb.
Qed.

(** The balance an operation finds for an account identifier. *)
Lemma found_balance m f id :
  bal_ok m f →
  (m0 !! id = None ∧ (if id =? 0 then None else m !! id) = None) ∨
  (is_Some (m0 !! id) ∧ ∃ x, (if id =? 0 then None else m !! id) = Some x ∧ drops_of x (f id) ∧ 0 ≤ f id).
Proof.
  intros Hb. specialize (Hb id). destruct (m !! id) as [x|].
  - destruct Hb as (Hs & Hx & Hp). right. split; [done|]. exists x. pose proof (account_pos _ Hs).
    destruct (Z.eqb_spec id 0); [lia|done].
  - left. split; [done|]. by destruct (id =? 0).
Qed.

Lemma debit_xrp_ok id amt x s b c d :
  sandbox_ok s b c d → drops_of amt x → 0 ≤ x →
  (∀ a, is_Some (m0 !! a) → 0 ≤ d a ∧ d a + x ≤ cMaxNativeN) →
  (is_Some (m0 !! id) ∧ b id + c id - d id < x ∧ debit_xrp id amt s = Ret (false, s)) ∨
  (¬ (is_Some (m0 !! id) ∧ b id + c id - d id < x) ∧
   ∃ s', debit_xrp id amt s = Ret (true, s') ∧ sandbox_ok s' b c (plus_at id x d)).
Proof.
  intros [Ht Hb] Hamt Hx Hd. unfold debit_xrp. destruct (found_balance _ _ id Hb) as [[Hn ->]|(Hs & bal & -> & Hbal & Hp)].
  - right. split; [intros [[? ?] _]; congruence|]. eexists. split; [done|].
    eapply sandbox_ok_ext; [|by split]. intros a [y Ha]. split; [done|]. apply plus_at_ne. congruence.
  - rewrite (drops_of_lt _ _ _ _ Hbal Hamt). cbn. destruct (Z.ltb_spec (b id + c id - d id) x) as [Hlt|Hge].
    { left. done. }
    right. split; [intros [_ ?]; lia|]. destruct (Hd id Hs) as [Hd0 Hd1].
    destruct (debit_tab _ _ _ _ id bal amt x Ht Hs Hbal Hamt ltac:(lia)) as (t & -> & Ht').
    pose proof (drops_of_bound _ _ Hbal).
    destruct (drops_of_sub _ _ _ _ Hbal Hamt ltac:(lia)) as (nb & -> & Hnb). cbn.
    eexists. split; [done|]. split; [done|]. cbn. eapply bal_ok_insert; [done..| | |].
    + rewrite plus_at_eq. by replace (b id + c id - (d id + x)) with (b id + c id - d id - x) by lia.
    + rewrite plus_at_eq. lia.
    + intros a Ha. cbn. by rewrite <- (plus_at_ne id x d a Ha).
Qed.

Lemma credit_xrp_ok id amt x s b c d :
  sandbox_ok s b c d → drops_of amt x → 0 ≤ x →
  (∀ a, is_Some (m0 !! a) → 0 ≤ c a ∧ c a + x ≤ cMaxNativeN ∧ b a + c a - d a + x ≤ cMaxNativeN) →
  ∃ s', credit_xrp id amt s = Ret s' ∧ sandbox_ok s' b (plus_at id x c) d.
Proof.
  intros [Ht Hb] Hamt Hx Hc. unfold credit_xrp. destruct (found_balance _ _ id Hb) as [[Hn ->]|(Hs & bal & -> & Hbal & Hp)].
  - eexists. split; [done|]. eapply sandbox_ok_ext; [|by split]. intros a [y Ha]. split; [|done].
    apply plus_at_ne. congruence.
  - destruct (Hc id Hs) as (Hc0 & Hc1 & Hc2).
    destruct (drops_of_add _ _ _ _ Hbal Hamt ltac:(lia)) as (nb & -> & Hnb). cbn.
    destruct (credit_tab _ _ _ _ id (st_neg bal) amt x Ht Hs (drops_of_neg _ _ Hbal) Hamt ltac:(lia)) as (t & -> & Ht').
    cbn. eexists. split; [done|]. split; [done|]. cbn. eapply bal_ok_insert; [done..| | |].
    + rewrite plus_at_eq. by replace (b id + (c id + x) - d id) with (b id + c id - d id + x) by lia.
    + rewrite plus_at_eq. lia.
    + intros a Ha. cbn. by rewrite <- (plus_at_ne id x c a Ha).
Qed.

(** ** The steps of a payment *)

Lemma holds_cons j js a : holds (j :: js) a = holds js a + received a j - sent a j.
Proof. unfold holds. rewrite concat_cons, received_app, sent_app. lia. Qed.

Lemma moved_app j k : moved (j ++ k) = moved j + moved k.
Proof. apply sum_app. Qed.

Lemma moved_nonneg j : Forall proper j → 0 ≤ moved j.
Proof. intros H. pose proof (journal_bounds 0 j H). lia. Qed.

(** What the journals leave room for. *)
Lemma journal_room x used j js a :
  Forall proper (concat (j :: js)) → moved (concat (j :: js)) ≤ used → used + x ≤ T → 0 ≤ x → is_Some (m0 !! a) →
  0 ≤ received a j ∧ 0 ≤ sent a j ∧ received a j + sent a j + x ≤ cMaxNativeN ∧ holds (j :: js) a + x ≤ cMaxNativeN.
Proof.
  rewrite concat_cons, Forall_app, moved_app. intros [Hj Hjs] Hm Hu Hx Ha. pose proof (journal_bounds a _ Hj).
  pose proof (journal_bounds a _ Hjs). pose proof (first_room a Ha).
  unfold holds. rewrite concat_cons, received_app, sent_app. lia.
Qed.

Lemma stack_ok_cons s st j js :
  stack_ok (s :: st) (j :: js) ↔ sandbox_ok s (holds js) (λ a, received a j) (λ a, sent a j) ∧ stack_ok st js.
Proof.
  cbn. unfold sandbox_ok. split; intros (Ht & Hb); [destruct Hb as [Hb Hs]|destruct Ht as [Ht Hb']].
  - split_and!; [done| |done]. eapply bal_ok_ext; [|done]. intros a _. apply holds_cons.
  - split_and!; [done| |done]. eapply bal_ok_ext; [|done]. intros a _. symmetry. apply holds_cons.
Qed.

Lemma is_zero_drops x : native_ok x → is_zero x = (drops_view x =? 0).
Proof.
  intros (v & neg & -> & Hv & _)%native_ok_inv. unfold is_zero, st_signum, drops_view. cbn.
  destruct (Z.eqb_spec v 0) as [->|]; [by destruct neg|]. destruct neg; cbn; symmetry; apply Z.eqb_neq; lia.
Qed.

Lemma sent_cons a s r x j : sent a (mkTransfer s r x :: j) = plus_at s x (λ a, sent a j) a.
Proof. unfold sent, plus_at. rewrite sum_cons. cbn. lia. Qed.
Lemma received_cons a s r x j : received a (mkTransfer s r x :: j) = plus_at r x (λ a, received a j) a.
Proof. unfold received, plus_at. rewrite sum_cons. cbn. lia. Qed.

Lemma send_ok used s j js src dst amt :
  sandbox_ok s (holds js) (λ a, received a j) (λ a, sent a j) →
  Forall proper (concat (j :: js)) → moved (concat (j :: js)) ≤ used →
  native_ok amt → 0 ≤ drops_view amt → used + drops_view amt ≤ T →
  ∃ s' j', send_xrp src dst amt s = Ret s' ∧ spec_step (Transfer src dst amt) (j :: js) = j' :: js ∧
    sandbox_ok s' (holds js) (λ a, received a j') (λ a, sent a j') ∧
    Forall proper j' ∧ moved j' ≤ moved j + drops_view amt.
Proof.
  intros Hs Hp Hm Hn Hx Hu. unfold send_xrp, spec_step. rewrite is_zero_drops by done.
  assert (Forall proper j) as Hj by (rewrite concat_cons, Forall_app in Hp; apply Hp).
  destruct (Z.eqb_spec (drops_view amt) 0) as [|Hnz]; cbn [orb]; [exists s, j; by split_and!; [..|lia]|].
  destruct (Z.eqb_spec src dst) as [|Hne]; [exists s, j; by split_and!; [..|lia]|].
  pose proof (λ a, journal_room _ _ _ _ a Hp Hm Hu Hx) as Hroom.
  assert (drops_of amt (drops_view amt)) as Hamt by done.
  destruct (debit_xrp_ok src amt _ s _ _ _ Hs Hamt Hx) as [(H1 & H2 & ->)|(Hno & s1 & -> & Hs1)].
  { intros a Ha. destruct (Hroom a Ha) as (? & ? & ? & ?). cbn. lia. }
  - exists s, j. rewrite bool_decide_true by done. rewrite holds_cons.
    destruct (Z.ltb_spec (holds js src + received src j - sent src j) (drops_view amt)); [|lia].
    by split_and!; [..|lia].
  - destruct (credit_xrp_ok dst amt _ s1 _ _ _ Hs1 Hamt Hx) as (s2 & Hc & Hs2).
    { intros a Ha. destruct (Hroom a Ha) as (? & ? & ? & ?). rewrite holds_cons in *. cbn. unfold plus_at. destruct (src =? a); lia. }
    exists s2, (mkTransfer src dst (drops_view amt) :: j). split_and!; [done| | | |].
    + case_bool_decide as Hd; [|done]. rewrite holds_cons.
      destruct (Z.ltb_spec (holds js src + received src j - sent src j) (drops_view amt)); [|done]. by destruct Hno.
    + eapply sandbox_ok_ext; [|done]. intros a _. split; symmetry; [apply received_cons|apply sent_cons].
    + by constructor.
    + unfold moved. rewrite sum_cons. cbn. lia.
Qed.

(** Applying a sandbox joins the journals. *)
Lemma apply_ok used s s2 j k js :
  sandbox_ok s (holds (k :: js)) (λ a, received a j) (λ a, sent a j) →
  sandbox_ok s2 (holds js) (λ a, received a k) (λ a, sent a k) →
  Forall proper (concat (j :: k :: js)) → moved (concat (j :: k :: js)) ≤ used → used ≤ T →
  ∃ t, dc_apply (tab_ s) (tab_ s2) = Ret t ∧
    sandbox_ok (mkSandbox t (sb_balances s)) (holds js) (λ a, received a (j ++ k)) (λ a, sent a (j ++ k)).
Proof.
  intros Hs Hs2 Hp Hm Hu.
  destruct (apply_tab (tab_ s) (tab_ s2) (holds js) _ _ (λ a, received a j) (λ a, sent a j) (proj1 Hs2)) as (t & Ht & Htab).
  { eapply tab_ok_ext; [|apply Hs]. intros a _. by rewrite holds_cons. }
  { intros a Ha. destruct (journal_room 0 used (j ++ k) js a) as (H1 & H2 & H3 & _); [..|done|].
    - by rewrite concat_cons, <- app_assoc.
    - rewrite concat_cons, <- app_assoc. exact Hm.
    - lia.
    - done.
    - rewrite sent_app, received_app in *. lia. }
  exists t. split; [done|]. split; cbn.
  - eapply tab_ok_ext; [|done]. intros a _. cbn. rewrite received_app, sent_app. split_and!; [done|lia|lia].
  - eapply bal_ok_ext; [|apply Hs]. intros a _. cbn. rewrite received_app, sent_app, holds_cons. lia.
Qed.

Lemma inv_step used e st js :
  inv used st js → valid_event e → used + cost e ≤ T →
  ∃ st', pay_step e st = Ret st' ∧ inv (used + cost e) st' (spec_step e js).
Proof.
  intros (Hne & Hst & Hp & Hm) Hv Hu.
  destruct js as [|j js]; [done|]. destruct st as [|s st]; [done|]. apply stack_ok_cons in Hst as [Hs Hst].
  destruct e as [src dst amt| | |]; cbn [cost] in *.
  - destruct Hv as [Hn Hx]. destruct (send_ok _ _ _ _ src dst _ Hs Hp Hm Hn Hx Hu) as (s' & j' & Hrun & -> & Hs' & Hj' & Hm').
    cbn. rewrite Hrun. eexists. split; [done|]. rewrite concat_cons, Forall_app, moved_app in *. split_and!; [done| | |].
    + by apply stack_ok_cons.
    + rewrite concat_cons, Forall_app. split; [done|apply Hp].
    + rewrite concat_cons, moved_app. lia.
  - eexists. split; [done|]. split_and!; [done| |done|rewrite Z.add_0_r; exact Hm]. apply stack_ok_cons.
    split; [|by apply stack_ok_cons]. split; cbn.
    + split; cbn; [intros k v; by rewrite lookup_empty|]. intros a _. by rewrite lookup_empty.
    + eapply bal_ok_ext; [|apply Hs]. intros a _. rewrite holds_cons. cbn. lia.
  - destruct js as [|k js], st as [|s2 st]; try done.
    { eexists. split; [done|]. split_and!; [done| |done|by rewrite Z.add_0_r]. by apply stack_ok_cons. }
    apply stack_ok_cons in Hst as [Hs2 Hst].
    destruct (apply_ok used s s2 j k js Hs Hs2 Hp Hm ltac:(lia)) as (t & Ht & Hs'). cbn. rewrite Ht. eexists. split; [done|].
    split_and!; [done|by apply stack_ok_cons|by rewrite concat_cons, <- app_assoc|].
    rewrite concat_cons, <- app_assoc, Z.add_0_r. exact Hm.
  - destruct js as [|k js], st as [|s2 st]; try done.
    { eexists. split; [done|]. split_and!; [done| |done|by rewrite Z.add_0_r]. by apply stack_ok_cons. }
    eexists. split; [done|]. rewrite (concat_cons j), Forall_app, moved_app in *. destruct Hp as [Hp1 Hp2].
    pose proof (moved_nonneg _ Hp1). split_and!; [done|done|done|]. change (moved (concat (k :: js)) ≤ used + 0). lia.
Qed.

(** ** The hook *)

Lemma adjustments_xrp a t :
  is_Some (m0 !! a) → adjustments a 0 0 t =
    (λ v, mkAdjustment (lowAcctCredits v) (highAcctCredits v) (st_neg (lowAcctOrigBalance v))) <$> credits_ t !! xrp_key a.
Proof.
  intros Hp%account_pos. unfold adjustments. rewrite makeKey_out by done.
  destruct (Z.ltb_spec a 0); [lia|]. by destruct (credits_ t !! xrp_key a).
Qed.

(** The loop sums what was sent, goes back to the first balance, and meets no balance
    below that which is left of it. *)
Lemma scan_ok st js a delta lastBal minBal x y L :
  stack_ok st js → is_Some (m0 !! a) → Forall proper (concat js) →
  drops_of delta x → 0 ≤ x → x + sent a (concat js) ≤ cMaxNativeN →
  drops_of lastBal (holds js a) → drops_of minBal y → L ≤ y → L ≤ first_balance a - sent a (concat js) →
  ∃ delta' lastBal' minBal' z, scan_debits a 0 0 (tab_ <$> st) delta lastBal minBal = Ret (delta', lastBal', minBal') ∧
    drops_of delta' (x + sent a (concat js)) ∧ drops_of lastBal' (first_balance a) ∧ drops_of minBal' z ∧ L ≤ z.
Proof.
  intros Hst Ha. revert js delta lastBal minBal x y Hst.
  induction st as [|s st IH]; intros [|j js] delta lastBal minBal x y Hst Hp Hd Hx Hle Hl Hm Hy HL; try done.
  { exists delta, lastBal, minBal, y. unfold holds in Hl. cbn in *. rewrite Z.add_0_r in *. rewrite Z.sub_0_r in Hl. done. }
  apply stack_ok_cons in Hst as [[[_ Ht] _] Hst]. specialize (Ht a Ha).
  rewrite concat_cons, Forall_app, sent_app in *. destruct Hp as [Hj Hjs].
  pose proof (journal_bounds a j Hj) as (Hb1 & Hb2 & _). pose proof (journal_bounds a _ Hjs) as (Hb3 & Hb4 & _).
  rewrite fmap_cons. cbn. rewrite adjustments_xrp by done. destruct (credits_ (tab_ s) !! xrp_key a) as [v|]; cbn in Ht |- *.
  - destruct Ht as (Hlow & _ & Ho%drops_of_neg). rewrite Z.opp_involutive in Ho.
    destruct (drops_of_add _ _ _ _ Hd Hlow ltac:(lia)) as (d' & -> & Hd'). cbn.
    rewrite (drops_of_lt _ _ _ _ Ho Hm). cbn. rewrite Z.add_assoc in *.
    eapply (IH js _ _ _ _ (if holds js a <? y then holds js a else y)); try done; [lia|by destruct (_ <? _)|..].
    + assert (L ≤ holds js a) by (unfold holds; lia). destruct (_ <? _); lia.
    + lia.
  - destruct Ht as [Hr0 Hs0]. rewrite Hs0, !Z.add_0_l in *. eapply IH; try done.
    rewrite holds_cons, Hr0, Hs0 in Hl. by replace (holds js a) with (holds js a + 0 - 0) by lia.
Qed.

Lemma st_min_drops a b x y : drops_of a x → drops_of b y → ∃ c, st_min a b = Ret c ∧ drops_of c (Z.min x y).
Proof.
  intros Ha Hb. unfold st_min. rewrite (drops_of_lt _ _ _ _ Hb Ha). cbn. eexists. split; [done|].
  destruct (Z.ltb_spec y x); [by rewrite Z.min_r by lia|by rewrite Z.min_l by lia].
Qed.

Lemma setIssuer_drops a b x y : drops_of a x → drops_of b y → drops_of (setIssuer (account (mIssue b)) a) x.
Proof.
  intros Ha [(v' & neg' & -> & _)%native_ok_inv _]. pose proof Ha as [(v & neg & -> & _)%native_ok_inv _]. exact Ha.
Qed.

Lemma clear_drops a x : drops_of a x → drops_of (if st_signum a <? 0 then clear a else a) (Z.max 0 x).
Proof.
  intros [Hn <-]. pose proof Hn as Hn'. apply native_ok_inv in Hn as (v & neg & -> & Hv & Hz).
  unfold st_signum, drops_view. cbn. destruct (Z.eqb_spec v 0) as [->|Hne]; [rewrite Hz by done; by split|].
  destruct neg; cbn; [rewrite Z.max_l by lia|by rewrite Z.max_r by lia].
  destruct (zeroed_drops _ _ (conj Hn' eq_refl)) as (z & [= <-] & Hz'). exact Hz'.
Qed.

Lemma balanceHook_drops info used st js a bal :
  fix1141 (v_parentCloseTime info) = true →
  inv used st js → used ≤ T → is_Some (m0 !! a) → drops_of bal (holds js a) →
  ∃ r, balanceHook info (tab_ <$> st) a 0 bal = Ret r ∧
    drops_of r (Z.max 0 (first_balance a - sent a (concat js))).
Proof.
  intros Hfix (Hne & Hst & Hp & Hm) Hu Ha Hbal. unfold balanceHook. rewrite Hfix, (drops_currency _ _ Hbal).
  destruct (zeroed_drops _ _ Hbal) as (z & -> & Hz). cbn [mbind outcome_bind].
  pose proof (journal_bounds a _ Hp) as (H1 & H2 & H3). pose proof (first_room a Ha).
  set (L := first_balance a - sent a (concat js)).
  assert (L ≤ holds js a) as HL by (unfold L, holds; lia).
  destruct (scan_ok st js a z bal bal 0 (holds js a) L) as (d & l & mb & y & -> & Hd & Hl & Hmb & Hy); try done; [lia|].
  cbn [mbind outcome_bind].
  destruct (drops_of_sub _ _ _ _ Hl Hd ltac:(lia)) as (rest & -> & Hrest). cbn [mbind outcome_bind].
  destruct (st_min_drops _ _ _ _ Hbal Hrest) as (x & -> & Hx). cbn [mbind outcome_bind].
  rewrite Z.add_0_l in Hx. fold L in Hx. rewrite Z.min_r in Hx by done.
  assert (∃ x', (if enabled (v_rules info) fix1368 then st_min x mb else Ret x) = Ret x' ∧ drops_of x' L) as (x' & -> & Hx').
  { destruct (enabled _ _); [|by exists x]. destruct (st_min_drops _ _ _ _ Hx Hmb) as (x' & -> & Hx').
    rewrite Z.min_l in Hx' by done. by exists x'. }
  cbn [mbind outcome_bind]. eexists. split; [done|].
  destruct (fix1274 _); apply clear_drops; [|done]. by eapply setIssuer_drops.
Qed.

Lemma inv_run es used st js :
  inv used st js → Forall valid_event es → used + sum cost es ≤ T →
  ∃ st' used', pay_run es st = Ret st' ∧ used' ≤ T ∧ inv used' st' (spec_run es js).
Proof.
  revert used st js. induction es as [|e es IH]; intros used st js Hi Hv Hu.
  - exists st, used. cbn in *. split_and!; [done|lia|done].
  - apply Forall_cons in Hv as [He Hv]. rewrite sum_cons in Hu.
    assert (0 ≤ sum cost es) as Hpos.
    { apply sum_nonneg. intros x Hx. rewrite Forall_forall in Hv. specialize (Hv x Hx). destruct x; cbn in *; [apply Hv|lia..]. }
    destruct (inv_step _ _ _ _ Hi He ltac:(lia)) as (st1 & H1 & Hi1). cbn. rewrite H1. cbn.
    apply (IH _ _ _ Hi1); [done|lia].
Qed.

Lemma inv_start : 0 ≤ T → inv 0 [mkSandbox no_credits m0] [[]].
Proof.
  intros HT. split_and!; [done| |constructor|done]. apply stack_ok_cons. split; [|done]. split; cbn.
  - split; cbn; [intros k v; by rewrite lookup_empty|]. intros a _. by rewrite lookup_empty.
  - intros a. destruct (m0 !! a) as [x|] eqn:E; [|done]. destruct (room a x E) as (_ & Hn & Hx & _).
    split; [done|]. unfold holds, first_balance. rewrite E. cbn. split; [split; [done|lia]|lia].
Qed.

End Payment.

(** ** Owner counts *)

Lemma ownerCountHook_max chain a n m : ownerCountHook chain a (Z.max n m) = Z.max n (ownerCountHook chain a m).
Proof.
  revert m. induction chain as [|t chain IH]; intros m; cbn; [done|].
  destruct (deferred_owner_count a t) as [c|]; [|apply IH]. rewrite <- IH. f_equal. lia.
Qed.

(** The hook answers with the largest of the counts that were noted. *)
Lemma owner_count_noted t chain a b cur next n :
  ownerCountHook (adjustOwnerCountHook a cur next (t :: chain)) b n =
  (if a =? b then Z.max (Z.max cur next) (ownerCountHook (t :: chain) b n) else ownerCountHook (t :: chain) b n).
Proof.
  cbn. unfold deferred_owner_count, note_owner_count. cbn. destruct (Z.eqb_spec a b) as [->|Hne].
  - rewrite <- ownerCountHook_max. destruct (ownerCounts_ t !! b); rewrite lookup_insert_eq; f_equal; lia.
  - destruct (ownerCounts_ t !! a); by rewrite lookup_insert_ne.
Qed.

(** Applying a sandbox to the one below does not change what the hook answers. *)
Lemma owner_count_applied t u r chain a n :
  dc_apply t u = Ret r → ownerCountHook (r :: chain) a n = ownerCountHook (t :: u :: chain) a n.
Proof.
  unfold dc_apply. destruct (apply_credits _ _) as [m|]; cbn; [|done]. intros [= <-].
  unfold deferred_owner_count, apply_owner_counts. cbn. rewrite lookup_union_with.
  destruct (ownerCounts_ t !! a), (ownerCounts_ u !! a); cbn; f_equal; lia.
Qed.

(** ** Payments *)

(** C13: whatever transfers of XRP are made in a payment, and however sandboxes are opened,
    applied and dropped, no operation fails; the balances are the first balances with the
    transfers that were kept; and what [balanceHook] lets an account spend is its first
    balance less all it sent, or nothing: what it received in the payment is never part of it,
    and nothing else is withheld. *)
Theorem credits_deferred (info : ViewInfo) (m0 : gmap Z STAmount) (es : list pay_event) :
  fix1141 (v_parentCloseTime info) = true →
  Forall valid_event es →
  (∀ a x, m0 !! a = Some x → 0 < a ∧ native_ok x ∧ 0 ≤ drops_view x ∧ drops_view x + sum cost es ≤ cMaxNativeN) →
  ∃ st, pay_run es [mkSandbox no_credits m0] = Ret st ∧
    let j := concat (spec_run m0 es [[]]) in
    ∀ a x, m0 !! a = Some x → ∃ sb below bal r, st = sb :: below ∧
      sb_balances sb !! a = Some bal ∧ drops_of bal (drops_view x + received a j - sent a j) ∧
      balanceHook info (tab_ <$> st) a 0 bal = Ret r ∧ drops_of r (Z.max 0 (drops_view x - sent a j)).
Proof.
  intros Hfix Hv Hroom.
  assert (0 ≤ sum cost es) as HT.
  { apply sum_nonneg. intros e He. rewrite Forall_forall in Hv. specialize (Hv e He). destruct e; cbn in *; [apply Hv|lia..]. }
  destruct (inv_run m0 _ Hroom es 0 _ [[]] (inv_start m0 _ Hroom HT) Hv ltac:(lia)) as (st & used & Hrun & Hu & Hi).
  exists st. split; [done|]. intros j a x Hx. pose proof Hi as (Hne & Hst & _ & _).
  unfold j. clear j. destruct (spec_run m0 es [[]]) as [|j js] eqn:Ej; [done|]. destruct st as [|sb below]; [done|].
  pose proof (proj1 (proj2 Hst) a) as Hb. destruct (sb_balances sb !! a) as [bal|] eqn:Eb; [|congruence].
  destruct Hb as (Ha & Hbal & _).
  destruct (balanceHook_drops m0 _ Hroom info used (sb :: below) (j :: js) a bal Hfix Hi Hu Ha Hbal) as (r & Hr & Hd).
  exists sb, below, bal, r. unfold holds, first_balance in *. rewrite Hx in *. done.
Qed.

Definition payment_accounts : gmap Z STAmount := {[7 := st_of_int64 100; 9 := st_of_int64 5]}.
(** Account 9 has 5, gets 60 and sends 50 of them on: it holds 15 and can spend nothing. *)
Definition payment_events : list pay_event :=
  [Transfer 7 9 (st_of_int64 60); OpenSandbox; Transfer 9 7 (st_of_int64 50); Transfer 9 7 (st_of_int64 500);
   ApplySandbox; OpenSandbox; Transfer 7 9 (st_of_int64 1); DropSandbox].

Definition payment_info : ViewInfo := mkInfo (λ _, true) (mkFees 10 10 200 50) 5 600000000 false.

Lemma credits_deferred_witness :
  fix1141 (v_parentCloseTime payment_info) = true ∧
  ∃ st sb below bal r, pay_run payment_events [mkSandbox no_credits payment_accounts] = Ret st ∧ st = sb :: below ∧
    sb_balances sb !! 9 = Some bal ∧ drops_of bal 15 ∧
    balanceHook payment_info (tab_ <$> st) 9 0 bal = Ret r ∧ drops_of r 0.
Proof.
  split; [done|].
  destruct (credits_deferred payment_info payment_accounts payment_events) as (st & Hst & H).
  - done.
  - repeat constructor; vm_compute; congruence.
  - intros a x. unfold payment_accounts. rewrite lookup_insert_Some, lookup_singleton_Some.
    intros [[<- <-]|[_ [<- <-]]]; (split_and!; [lia| |by vm_compute|by vm_compute]);
      split_and!; vm_compute; repeat split; congruence.
  - destruct (H 9 (st_of_int64 5) ltac:(by vm_compute)) as (sb & below & bal & r & Hs & Hb & Hbal & Hr & Hd).
    exists st, sb, below, bal, r.
    assert (sent 9 (concat (spec_run payment_accounts payment_events [[]])) = 50 ∧
            received 9 (concat (spec_run payment_accounts payment_events [[]])) = 60) as [Es Er] by by vm_compute.
    rewrite Es, Er in Hbal. rewrite Es in Hd. exact (conj Hst (conj Hs (conj Hb (conj Hbal (conj Hr Hd))))).
Defined.
