(* ===== verification/XrpNeutral.v ===== *)
(** * Programs that move no XRP

    A program is [neutral] when it leaves the XRP in the ledger where it is: it does not
    write the balance of an account, a payment channel or an escrow, and neither creates
    nor deletes one.  Everything that is done for issued currencies and offers is
    neutral, whatever the ledger looks like. *)

From stdpp Require Import base numbers list gmap strings.
From Stdlib Require Import Lia ZArith.
From S2P Require Import Prelude XRPAmount Serializer STAmount Quality StateTable SField STObject STObjectWire STObjectLaws.
From S2P Require Import Entry Indexes ApplyView ViewLogic Directory DirectoryFrame TxBase Invariants CoreLogic View ViewLaws.

Local Open Scope Z_scope.

(** The types of entries that hold XRP. *)
Definition holds_xrp (type : Z) : bool := (type =? ltACCOUNT_ROOT) || (type =? ltPAYCHAN) || (type =? ltESCROW).

Definition money_field (f : SField) : bool :=
  (fieldCode f =? fieldCode sfBalance) || (fieldCode f =? fieldCode sfAmount).

(** Writing a field that is not counted. *)
Lemma held_set {V} (T : STClass V) `{!LawfulClass T} t f v x :
  findByType LedgerFormats (sle_type x) = Some t → entry t (sle_body x) → fits T t f = true →
  holds_xrp (sle_type x) && money_field f = false → held (set_field T f v x) = held x.
Proof.
  intros Ht He Hf Hn. unfold held, entry_drops, set_field. cbn [sle_type sle_body set_body].
  assert (Hat : ∀ g, fieldCode f ≠ fieldCode g → get_at AmountC (set T f v (sle_body x)) g = get_at AmountC (sle_body x) g).
  { intros g Hg. destruct (set_map T t (sle_body x) f v He Hf) as (_ & Ho & Hm & Hmap). unfold get_at.
    rewrite !peek_map, Hmap, lookup_insert_ne, Hm, (entry_type _ _ He) by (done || apply He). done. }
  unfold holds_xrp, money_field in Hn.
  destruct (Z.eqb_spec (sle_type x) ltACCOUNT_ROOT), (Z.eqb_spec (sle_type x) ltPAYCHAN),
    (Z.eqb_spec (sle_type x) ltESCROW); try done; cbn [orb andb] in Hn;
    apply orb_false_iff in Hn as [?%Z.eqb_neq ?%Z.eqb_neq]; by rewrite !Hat.
Qed.

Lemma held_other x : holds_xrp (sle_type x) = false → held x = 0.
Proof. unfold holds_xrp, held, entry_drops. rewrite !orb_false_iff. by intros [[-> ->] ->]. Qed.

(** ** The logic *)

(** The pointers a program holds, with the types of what they point to. *)
Abbreviation pointers := (gmap Z Z).

Record inv (X : Z) (H : pointers) (a : vabs) : Prop := mkInv {
  inv_wf : wf (ab_core a);
  inv_total : xrp_total (ab_core a) = X;
  inv_ptr h t : H !! h = Some t → ∃ x, ab_core a !! h = Some x ∧ sle_type x = t }.

Definition neutral {A} (p : view_prog A) (H : pointers) (Q : A → pointers → Prop) : Prop :=
  ∀ X a, inv X H a → cspec false p a (λ r a', ∃ H', inv X H' a' ∧ Q r H').

Section Rules.
Implicit Types (H : pointers).

Lemma neutral_ret {A} (r : A) H (Q : A → pointers → Prop) : Q r H → neutral (mret r) H Q.
Proof. intros HQ X a Ha. apply cspec_ret. eauto. Qed.

Lemma neutral_fail {A} e H (Q : A → pointers → Prop) : neutral (Fail e) H Q.
Proof. intros X a Ha. by apply cspec_fail. Qed.

Lemma neutral_bind {A B} (p : view_prog A) (f : A → view_prog B) H Q :
  neutral p H (λ r H', neutral (f r) H' Q) → neutral (p ≫= f) H Q.
Proof.
  intros Hp X a Ha. apply cspec_bind. eapply cspec_mono; [by apply Hp|]. intros r a' (H' & Ha' & Hf). by apply Hf.
Qed.

Lemma neutral_mono {A} (p : view_prog A) H (Q Q' : A → pointers → Prop) :
  neutral p H Q → (∀ r H', Q r H' → Q' r H') → neutral p H Q'.
Proof.
  intros Hp HM X a Ha. eapply cspec_mono; [by apply Hp|]. intros r a' (H' & Ha' & Hf). eauto.
Qed.

Lemma neutral_from {A} (m : outcome A) H (Q : A → pointers → Prop) :
  (∀ r, m = Ret r → Q r H) → neutral (from m) H Q.
Proof. intros HQ X a Ha. apply cspec_from_any; eauto. Qed.

Lemma inv_put_at X H a h x o t S D :
  inv X H a → ab_core a !! h = Some x → findByType LedgerFormats (sle_type x) = Some t → entry t o →
  held (set_body x o) = held x →
  inv X H (mkAbs (<[h := set_body x o]> (ab_core a)) (ab_rest a) S D).
Proof.
  intros [Hw HX Hp] Hx Ht He Hh. split; cbn.
  - by eapply wf_set.
  - rewrite xrp_total_insert, Hx, HX. cbn [heldo]. lia.
  - intros h' t' Hh'. destruct (Hp h' t' Hh') as (y & Hy & Hty). destruct (decide (h' = h)) as [->|Hne].
    + exists (set_body x o). rewrite lookup_insert_eq. split; [done|]. cbn. congruence.
    + exists y. by rewrite lookup_insert_ne.
Qed.

Lemma neutral_load h t H Q :
  H !! h = Some t → (∀ x, sle_type x = t → wf_entry h x → Q x H) → neutral (load h) H Q.
Proof.
  intros Hh HQ X a Ha. destruct (inv_ptr _ _ _ Ha h t Hh) as (x & Hx & Hxt).
  apply (cspec_load _ _ x); [done|]. exists H. split; [done|]. apply HQ; [done|]. by apply (inv_wf _ _ _ Ha).
Qed.

Lemma neutral_get {V} (C : STClass V) h t H f (Q : V → pointers → Prop) :
  H !! h = Some t → (∀ v, Q v H) → neutral (get C h f) H Q.
Proof.
  intros Hh HQ. apply neutral_bind, (neutral_load h t); [done|]. intros x _ _. apply neutral_from. auto.
Qed.

Lemma neutral_put {V} (C : STClass V) `{!LawfulClass C} h t tmpl H f (v : V) (Q : unit → pointers → Prop) :
  H !! h = Some t → findByType LedgerFormats t = Some tmpl → fits C tmpl f = true →
  holds_xrp t && money_field f = false → Q tt H → neutral (put C h f v) H Q.
Proof.
  intros Hh Ht Hf Hn HQ X a Ha. destruct (inv_ptr _ _ _ Ha h t Hh) as (x & Hx & <-).
  pose proof (wf_body _ _ _ _ (inv_wf _ _ _ Ha) Hx Ht) as He.
  apply (cspec_put _ C tmpl _ _ _ x _ _ ({[h]} ∪ ab_dirty a)); [done|done|done|by right|].
  exists H. split; [|done]. apply (inv_put_at _ _ a h x _ tmpl); try done.
  - by apply (set_entry C).
  - by eapply held_set.
Qed.

Lemma neutral_update h t H (Q : unit → pointers → Prop) : H !! h = Some t → Q tt H → neutral (update h) H Q.
Proof.
  intros Hh HQ X a Ha. destruct (inv_ptr _ _ _ Ha h t Hh) as (x & Hx & _).
  apply (cspec_update _ _ x _ _ (ab_dirty a)); [done|set_solver|]. exists H. split; [|done]. by destruct Ha.
Qed.

Lemma neutral_erase h t H (Q : unit → pointers → Prop) :
  H !! h = Some t → holds_xrp t = false → Q tt (delete h H) → neutral (erase h) H Q.
Proof.
  intros Hh Hn HQ X a Ha. destruct (inv_ptr _ _ _ Ha h t Hh) as (x & Hx & <-).
  apply (cspec_erase _ _ x); [done|]. exists (delete h H). split; [|done]. destruct Ha as [Hw HX Hp]. split; cbn.
  - by apply map_Forall_delete.
  - rewrite xrp_total_delete, Hx, HX. cbn [heldo]. rewrite held_other by done. lia.
  - intros h' t' [Hne Hh']%lookup_delete_Some. destruct (Hp h' t' Hh') as (y & Hy & ?). exists y.
    by rewrite lookup_delete_ne.
Qed.

Lemma neutral_peek k H (Q : option Z → pointers → Prop) :
  quiet (kl_type k) = false → 0 ≤ kl_type k → Q None H →
  (∀ H', H' !! kl_key k = Some (kl_type k) → H ⊆ H' → Q (Some (kl_key k)) H') → neutral (peek k) H Q.
Proof.
  intros Hq H0 HN HS X a Ha. apply cspec_peek; [done|done|].
  destruct (lookup_kl (ab_core a) k) as [x|] eqn:E; cbn; [|eauto].
  unfold lookup_kl, check, ltANY, ltINVALID, ltCHILD in E. rewrite !(proj2 (Z.eqb_neq _ _)) in E by lia.
  destruct (ab_core a !! kl_key k) as [y|] eqn:Ey; [|done].
  destruct (Z.eqb_spec (sle_type y) (kl_type k)) as [Ht|]; [|done]. injection E as ->.
  exists (<[kl_key k := kl_type k]> H). split.
  - destruct Ha as [Hw HX Hp]. split; [done|done|]. intros h t. destruct (decide (h = kl_key k)) as [->|Hne].
    + rewrite lookup_insert_eq. intros [= <-]. eauto.
    + rewrite lookup_insert_ne by done. apply Hp.
  - apply HS; [by rewrite lookup_insert_eq|]. apply map_subseteq_spec. intros h t Hh.
    destruct (decide (h = kl_key k)) as [->|Hne]; [|by rewrite lookup_insert_ne].
    destruct (inv_ptr _ _ _ Ha _ _ Hh) as (z & Hz & <-). rewrite lookup_insert_eq. congruence.
Qed.

Lemma neutral_read k H (Q : option (SLE STObject) → pointers → Prop) :
  quiet (kl_type k) = false → 0 ≤ kl_type k → (∀ r, Q r H) → neutral (read k) H Q.
Proof. intros Hq H0 HQ X a Ha. apply cspec_read; [done|done|]. eauto. Qed.

(** A new entry that holds no XRP. *)
Lemma neutral_insert k x tmpl H (Q : unit → pointers → Prop) :
  make_SLE k = Ret x → findByType LedgerFormats (kl_type k) = Some tmpl → quiet (kl_type k) = false →
  holds_xrp (kl_type k) = false → (H !! kl_key k = None → Q tt (<[kl_key k := kl_type k]> H)) →
  neutral (insert x) H Q.
Proof.
  intros Hx Ht Hq Hn HQ X a Ha. destruct (make_SLE_type _ _ Hx) as [Hty Hk].
  destruct (make_SLE_new k tmpl Ht) as (Hnew & _). rewrite Hnew in Hx. injection Hx as <-. cbn in Hty, Hk.
  apply cspec_insert; [done|done|]. cbn. intros Hnone. exists (<[kl_key k := kl_type k]> H). split; cycle 1.
  { apply HQ. destruct (H !! kl_key k) as [t|] eqn:E; [|done]. destruct (inv_ptr _ _ _ Ha _ _ E) as (y & ? & _). congruence. }
  destruct Ha as [Hw HX Hp]. split; cbn.
  - apply map_Forall_insert_2; [|done]. split; [done|]. cbn. exists tmpl. split; [done|]. by apply new_entry.
  - rewrite xrp_total_insert, Hnone, HX. cbn [heldo]. rewrite held_other by done. lia.
  - intros h t. destruct (decide (h = kl_key k)) as [->|Hne].
    + rewrite !lookup_insert_eq. intros [= <-]. eauto.
    + rewrite !lookup_insert_ne by done. apply Hp.
Qed.

(** Programs on directories. *)
Lemma neutral_confined {A} (p : view_prog A) H (Q : A → pointers → Prop) :
  (∀ S D, confined quiet p ∅ S D (λ r _ _ _, Q r H)) → neutral p H Q.
Proof.
  intros Hc X a Ha. apply cspec_confined_partial; [done|]. eapply confined_mono; [apply Hc|].
  intros r P' S' D' HQ n. exists H. split; [|done]. by destruct Ha.
Qed.

Lemma neutral_dirRemove `{Hash : Sha512} d page key keep H (Q : bool → pointers → Prop) :
  (∀ b, Q b H) → neutral (dirRemove d page key keep) H Q.
Proof. intros HQ. apply neutral_confined. intros S D. apply confined_dirRemove; auto. Qed.

Lemma neutral_dirAdd `{Hash : Sha512} info id key H (Q : option Z → pointers → Prop) :
  (∀ b, Q b H) → neutral (owner_dirAdd info id key) H Q.
Proof. intros HQ. apply neutral_confined. intros S D. apply confined_view_dirAdd; auto. Qed.
End Rules.

(** ** Issued currencies and offers *)

Abbreviation akey id := (kl_key (kl_account id)).

Section View.
Context `{Hash : Sha512} (info : ViewInfo).
Implicit Types (H : pointers).

(** One step of the proof that a program is neutral. *)
Ltac held_ptr := solve [eassumption | eapply lookup_weaken; eassumption
  | rewrite lookup_insert_eq; reflexivity
  | rewrite lookup_insert_ne by done; eassumption ].
Ltac by_cases := first [reflexivity | match goal with |- context [if ?b then _ else _] => destruct b; reflexivity end].
Ltac neutral_step := lazymatch goal with
  | |- neutral (mbind _ _) _ _ => apply neutral_bind
  | |- neutral (mret _) _ _ => apply neutral_ret
  | |- neutral (LogicError _) _ _ => apply neutral_fail
  | |- neutral (from _) _ _ => apply neutral_from; intros ? ?
  | |- neutral (get _ _ _) _ _ => eapply neutral_get; [held_ptr|intros ?]
  | |- neutral (put ?C _ _ _) _ _ => eapply (neutral_put C); [held_ptr|vm_compute; reflexivity|by_cases|by_cases|]
  | |- neutral (update _) _ _ => eapply neutral_update; [held_ptr|]
  | |- neutral (load _) _ _ => eapply neutral_load; [held_ptr|intros ? ? ?]
  | |- neutral (read _) _ _ => apply neutral_read; [reflexivity|done|intros ?]
  | |- neutral (dirRemove _ _ _ _) _ _ => apply neutral_dirRemove; intros ?
  | |- neutral (owner_dirAdd _ _ _) _ _ => apply neutral_dirAdd; intros ?
  | |- neutral (match ?x with _ => _ end) _ _ => destruct x eqn:?
  end.
Ltac neutral := repeat (cbn beta iota zeta; neutral_step); cbn beta iota zeta.

Lemma neutral_adjustOwnerCount h n H (Q : unit → pointers → Prop) :
  H !! h = Some ltACCOUNT_ROOT → Q tt H → neutral (adjustOwnerCount h n) H Q.
Proof. intros Hh HQ. unfold adjustOwnerCount. neutral. done. Qed.

Lemma neutral_peek_deref k H (Q : Z → pointers → Prop) :
  quiet (kl_type k) = false → 0 ≤ kl_type k →
  (∀ H', H' !! kl_key k = Some (kl_type k) → H ⊆ H' → Q (kl_key k) H') → neutral (peek_deref k) H Q.
Proof.
  intros Hq H0 HQ. apply neutral_bind, neutral_peek; [done|done|apply neutral_fail|].
  intros H' Hk Hsub. apply neutral_ret. by apply HQ.
Qed.

Lemma neutral_trustDelete state low high H (Q : TER → pointers → Prop) :
  H !! state = Some ltRIPPLE_STATE → Q tefBAD_LEDGER H → Q tesSUCCESS (delete state H) →
  neutral (trustDelete state low high) H Q.
Proof.
  intros Hs H1 H2. unfold trustDelete. neutral; try done.
  eapply neutral_erase; [done|done|]. neutral. done.
Qed.

Lemma neutral_offerDelete o H (Q : TER → pointers → Prop) :
  (∀ h, o = Some h → H !! h = Some ltOFFER) → (∀ r H', Q r H') → neutral (offerDelete o) H Q.
Proof.
  intros Ho HQ. unfold offerDelete. destruct o as [h|]; [|neutral; auto]. specialize (Ho h eq_refl). neutral; auto.
  apply neutral_peek_deref; [done|done|]. intros H' Hk Hsub. neutral.
  apply neutral_adjustOwnerCount; [done|]. neutral. eapply neutral_erase; [held_ptr|done|]. neutral. auto.
Qed.

Lemma neutral_trustCreate high src dst key account auth nr fr bal limit qi qo H (Q : TER → pointers → Prop) :
  H !! account = Some ltACCOUNT_ROOT → (∀ r H', Q r H') →
  neutral (trustCreate info high src dst key account auth nr fr bal limit qi qo) H Q.
Proof.
  intros Ha HQ. unfold trustCreate, trustCreate_fields.
  apply neutral_bind, neutral_from. intros x Hx.
  apply neutral_bind. eapply neutral_insert; [exact Hx|vm_compute; reflexivity|done|done|]. cbn [kl_key kl_type]. intros Hfree.
  assert (Hne : account ≠ key) by congruence.
  set (H' := <[key := ltRIPPLE_STATE]> H).
  assert (Hl : H' !! key = Some ltRIPPLE_STATE) by apply lookup_insert_eq.
  assert (Hacc : H' !! account = Some ltACCOUNT_ROOT) by (unfold H'; by rewrite lookup_insert_ne).
  clearbody H'. neutral; auto. apply neutral_peek; [done|done|neutral|].
  intros H2 Hpeer Hsub. pose proof (lookup_weaken _ _ _ _ Hl Hsub) as Hl2.
  pose proof (lookup_weaken _ _ _ _ Hacc Hsub) as Hacc2. clear Hl Hacc Hsub.
  neutral; apply neutral_adjustOwnerCount; try done; neutral; auto.
Qed.

Lemma neutral_receiver_line high src dst key amount H (Q : TER → pointers → Prop) :
  (∀ r H', Q r H') → neutral (receiver_line info high src dst key amount) H Q.
Proof.
  intros HQ. unfold receiver_line. neutral.
  apply neutral_peek_deref; [done|done|]. intros H' Hk _. neutral. by apply neutral_trustCreate.
Qed.

Lemma neutral_sender_cleared state flags high before after p H (Q : bool → pointers → Prop) :
  H !! state = Some ltRIPPLE_STATE → neutral p H (λ _ H', H' = H) → (∀ b, Q b H) →
  neutral (sender_cleared state flags high before after p) H Q.
Proof.
  intros Hs Hp HQ. unfold sender_cleared. neutral; auto.
  eapply neutral_mono; [exact Hp|]. intros f H' ->. neutral; auto.
Qed.

Lemma neutral_rippleCredit sender receiver amount check H (Q : TER → pointers → Prop) :
  (∀ r H', Q r H') → neutral (rippleCredit info sender receiver amount check) H Q.
Proof.
  intros HQ. unfold rippleCredit. apply neutral_bind, neutral_peek; [done|done| |].
  { by apply neutral_receiver_line. }
  intros H1 Hs _. neutral.
  apply neutral_sender_cleared; [done|neutral; done|]. intros []; neutral.
  - apply neutral_peek_deref; [done|done|]. intros H2 Hk Hsub. pose proof (lookup_weaken _ _ _ _ Hs Hsub). neutral.
    apply neutral_adjustOwnerCount; [done|]. neutral; auto. apply neutral_trustDelete; auto.
  - auto.
Qed.

Lemma neutral_move_line state high sender receiver amount H (Q : TER → pointers → Prop) :
  H !! state = Some ltRIPPLE_STATE → (∀ r H', Q r H') →
  neutral (move_line state high sender receiver amount) H Q.
Proof.
  intros Hs HQ. unfold move_line, updateTrustLine. neutral. apply neutral_peek; [done|done|..].
  - neutral. apply neutral_sender_cleared; [done|neutral|]. intros []; neutral. auto.
  - intros H1 Hk Hsub. pose proof (lookup_weaken _ _ _ _ Hs Hsub). neutral.
    apply neutral_sender_cleared; [done|neutral; done|]. intros []; neutral; auto.
    apply neutral_adjustOwnerCount; [done|]. neutral; auto. apply neutral_trustDelete; auto.
Qed.

Lemma neutral_issueIOU acct amount issue H (Q : TER → pointers → Prop) :
  (∀ r H', Q r H') → neutral (issueIOU info acct amount issue) H Q.
Proof.
  intros HQ. unfold issueIOU. apply neutral_bind, neutral_peek; [done|done| |].
  - neutral. apply neutral_peek_deref; [done|done|]. intros H' Hk _. neutral. by apply neutral_trustCreate.
  - intros H' Hk _. by apply neutral_move_line.
Qed.

Lemma neutral_redeemIOU acct amount issue H (Q : TER → pointers → Prop) :
  (∀ r H', Q r H') → neutral (redeemIOU acct amount issue) H Q.
Proof.
  intros HQ. unfold redeemIOU. apply neutral_bind, neutral_peek; [done|done|neutral; auto|].
  intros H' Hk _. by apply neutral_move_line.
Qed.

Lemma neutral_rippleSend sender receiver amount H (Q : TER * STAmount → pointers → Prop) :
  (∀ r H', Q r H') → neutral (rippleSend info sender receiver amount) H Q.
Proof.
  intros HQ. unfold rippleSend, rippleTransferFee, transferRate. neutral.
  1: apply neutral_rippleCredit; intros; neutral; auto.
  all: apply neutral_rippleCredit; intros; neutral; auto.
  all: apply neutral_rippleCredit; intros; neutral; auto.
Qed.
End View.

(** ** Sound ledgers *)

(** The amounts of an entry that holds XRP are native. *)
Definition native_entry (x : SLE STObject) : Prop :=
  (sle_type x = ltACCOUNT_ROOT → native_ok (balance x)) ∧
  (sle_type x = ltESCROW → native_ok (val AmountC (sle_body x) sfAmount)) ∧
  (sle_type x = ltPAYCHAN → native_ok (val AmountC (sle_body x) sfAmount) ∧ native_ok (balance x)).

Record sound (c : entries) : Prop := mkSound {
  sound_wf : wf c;
  sound_native : map_Forall (λ _ x, native_entry x) c;
  sound_held : map_Forall (λ _ x, 0 ≤ held x) c;
  sound_max : xrp_total c ≤ cMaxNativeN }.

Lemma xrp_total_nonneg (c : entries) : map_Forall (λ _ x, 0 ≤ held x) c → 0 ≤ xrp_total c.
Proof.
  induction c as [|k x c Hk IH] using map_ind; [done|]. intros H. apply map_Forall_insert in H as [Hx Hc]; [|done].
  rewrite xrp_total_insert, Hk. specialize (IH Hc). cbn [heldo]. lia.
Qed.

(** What some entries hold is a part of the total. *)
Lemma held_le (c : entries) k x : map_Forall (λ _ x, 0 ≤ held x) c → c !! k = Some x → held x ≤ xrp_total c.
Proof.
  intros Hp Hx. pose proof (xrp_total_delete c k) as Hd. rewrite Hx in Hd. cbn [heldo] in Hd.
  pose proof (xrp_total_nonneg (delete k c) (map_Forall_delete _ _ _ Hp)). lia.
Qed.

Lemma held_le_two (c : entries) k x k' y :
  map_Forall (λ _ x, 0 ≤ held x) c → c !! k = Some x → c !! k' = Some y → k ≠ k' → held x + held y ≤ xrp_total c.
Proof.
  intros Hp Hx Hy Hne. pose proof (xrp_total_delete c k) as Hd. rewrite Hx in Hd. cbn [heldo] in Hd.
  pose proof (held_le (delete k c) k' y (map_Forall_delete _ _ _ Hp)) as H. rewrite lookup_delete_ne in H by done.
  specialize (H Hy). lia.
Qed.

Section Sends.
Context `{Hash : Sha512} (info : ViewInfo).

Lemma sound_root c id x : sound c → root c id x → ∃ d, drops_of (balance x) d ∧ held x = d ∧ 0 ≤ d.
Proof.
  intros Hs Hx. pose proof (root_entry _ _ _ (sound_wf c Hs) Hx) as He.
  pose proof (proj1 (sound_native c Hs _ x (proj1 Hx)) (proj2 Hx)) as Hn.
  exists (drops_view (balance x)). pose proof (sound_held c Hs _ x (proj1 Hx)) as Hp.
  pose proof (held_root x (proj2 Hx) He Hn) as Hh. split; [by split|]. rewrite <- Hh. done.
Qed.

(** Replacing the balances of two accounts. *)
Lemma xrp_total_two c k x k' y b b' d d' :
  sound c → c !! k = Some x → c !! k' = Some y → k ≠ k' →
  sle_type x = ltACCOUNT_ROOT → sle_type y = ltACCOUNT_ROOT → drops_of b d → drops_of b' d' →
  xrp_total (<[k' := with_balance b' y]> (<[k := with_balance b x]> c)) = xrp_total c - held x - held y + d + d'.
Proof.
  intros Hs Hx Hy Hne Htx Hty Hb Hb'. rewrite !xrp_total_insert, lookup_insert_ne, Hx, Hy by done. cbn [heldo].
  assert (Hent : ∀ k z, c !! k = Some z → sle_type z = ltACCOUNT_ROOT → entry account_template (sle_body z)).
  { intros j z Hz Ht. eapply wf_body; [apply Hs|done|]. rewrite Ht. apply account_format. }
  rewrite (held_with_balance b d), (held_with_balance b' d') by eauto. lia.
Qed.

(** A transfer of XRP between two accounts of a sound ledger. *)
Definition paid (c c' : entries) (from_ to_ v : Z) : Prop :=
  ∃ x y b b', root c from_ x ∧ root c to_ y ∧ drops_of b (held x - v) ∧ drops_of b' (held y + v) ∧
    c' = <[akey to_ := with_balance b' y]> (<[akey from_ := with_balance b x]> c).

Lemma paid_total c c' from_ to_ v :
  sound c → akey from_ ≠ akey to_ → paid c c' from_ to_ v → xrp_total c' = xrp_total c.
Proof.
  intros Hs Hne (x & y & b & b' & [Hx Htx] & [Hy Hty] & Hb & Hb' & ->).
  rewrite (xrp_total_two c _ x _ y _ _ _ _ Hs Hx Hy Hne Htx Hty Hb Hb'). lia.
Qed.

Lemma accountSend_xrp tot sender receiver amount x y v a :
  sound (ab_core a) → root (ab_core a) sender x → root (ab_core a) receiver y → akey sender ≠ akey receiver →
  sender ≠ 0 → receiver ≠ 0 → drops_of amount v → 0 < v →
  cspec tot (accountSend info sender receiver amount) a (λ ter a',
    (v ≤ held x ∧ ter = tesSUCCESS ∧ paid (ab_core a) (ab_core a') sender receiver v ∧ ab_dirty a' = ab_dirty a) ∨
    (held x < v ∧ ter = failed_processing info ∧ a' = a)).
Proof.
  intros Hs Hx Hy Hne Hsn Hrn Hv Hv0. pose proof (sound_wf _ Hs) as Hw.
  pose proof (root_entry _ _ _ Hw Hx) as Hex. pose proof (root_entry _ _ _ Hw Hy) as Hey.
  destruct (sound_root _ _ _ Hs Hx) as (bx & Hbx & Hhx & Hbx0).
  destruct (sound_root _ _ _ Hs Hy) as (by_ & Hby & Hhy & Hby0). rewrite Hhx.
  pose proof (held_le_two _ _ _ _ _ (sound_held _ Hs) (proj1 Hx) (proj1 Hy) Hne) as Hsum.
  pose proof (sound_max _ Hs) as Hmax. pose proof (drops_of_bound _ _ Hbx) as Hbmax.
  unfold accountSend. assert (is_zero amount = false) as ->.
  { rewrite is_zero_value. apply Z.eqb_neq. destruct Hv as [_ Hv]. unfold drops_view in Hv. destruct (mIsNegative amount); lia. }
  rewrite (proj2 (Z.eqb_neq sender receiver)) by (intros ->; done).
  rewrite (proj1 (proj2 (proj1 Hv))), (proj2 (Z.eqb_neq sender 0)), (proj2 (Z.eqb_neq receiver 0)) by done. cbn [orb negb].
  apply (cspec_peek_root _ _ x); [done|]. apply (cspec_peek_root _ _ y); [done|]. apply cspec_bind.
  apply cspec_bind, (cspec_get _ AmountC account_template _ _ x); [apply Hx|done|apply fits_balance|]. fold (balance x).
  apply cspec_bind, (cspec_from _ _ (bx <? v)); [by apply drops_of_lt|].
  destruct (Z.ltb_spec bx v) as [Hlt|Hle].
  { apply cspec_ret. assert ((failed_processing info =? tesSUCCESS) = false) as ->.
    { unfold failed_processing. by destruct (v_open info). }
    apply cspec_ret. by right. }
  destruct (drops_of_sub _ _ _ _ Hbx Hv ltac:(lia)) as (b & Hb & Hbd).
  apply cspec_bind, (cspec_from _ _ b); [done|]. apply (cspec_put_balance _ _ _ x); [apply Hx|done|].
  apply cspec_ret. change (tesSUCCESS =? tesSUCCESS) with true. cbn iota.
  apply cspec_bind, (cspec_get _ AmountC account_template _ _ y); cbn;
    [rewrite lookup_insert_ne by done; apply Hy|done|apply fits_balance|].
  destruct (drops_of_add _ _ _ _ Hby Hv ltac:(lia)) as (c & Hc & Hcd). fold (balance y).
  apply cspec_bind, (cspec_from _ _ c); [done|].
  apply (cspec_put_balance _ _ _ y); cbn; [rewrite lookup_insert_ne by done; apply Hy|done|].
  apply cspec_ret. left. cbn. split_and!; [done..| |done]. exists x, y, b, c. rewrite Hhx, Hhy. done.
Qed.
End Sends.

(** ** Trust lines *)

Section Lines.
Context `{Hash : Sha512} (info : ViewInfo).
Implicit Types (a : vabs).












End Lines.

(** ** The theorem *)

Lemma neutral_total {A} (p : view_prog A) s a s' (Q : A → pointers → Prop) :
  wf (core (vs_map s)) → neutral p ∅ Q → run p s = Ret (a, s') → xrp_total (vs_map s') = xrp_total (vs_map s).
Proof.
  intros Hw Hp Hr. rewrite !(xrp_total_core (vs_map _)).
  set (a0 := mkAbs (core (vs_map s)) (rest (vs_map s)) ∅ (vs_dirty s)).
  assert (Ha : inv (xrp_total (core (vs_map s))) ∅ a0) by (split; [done|done|]; intros h t Hh; by rewrite lookup_empty in Hh).
  specialize (Hp _ a0 Ha s ltac:(by split)). rewrite Hr in Hp. destruct Hp as (a' & Hs & H' & Hi & _).
  rewrite (abs_core _ _ Hs). apply Hi.
Qed.


(** C22: sending conserves XRP: a transfer of an issued currency, with all the trust lines and
    directory entries it may create and delete, moves no XRP, and a transfer of XRP takes
    from the sender exactly what it gives to the receiver, or fails when the sender has
    too little. *)
Theorem accountSend_conserves `{Hash : Sha512} (info : ViewInfo) (sender receiver : Z) (amount : STAmount)
    (s : vstate STObject) (x y : SLE STObject)
    (Hs : sound (core (vs_map s))) (Hx : root (core (vs_map s)) sender x) (Hy : root (core (vs_map s)) receiver y)
    (Hne : akey sender ≠ akey receiver) (Hs0 : sender ≠ 0) (Hr0 : receiver ≠ 0) :
  (mIsNative amount = false → ∀ ter s', run (accountSend info sender receiver amount) s = Ret (ter, s') →
     xrp_total (vs_map s') = xrp_total (vs_map s)) ∧
  (∀ v, drops_of amount v → 0 < v → ∃ ter s', run (accountSend info sender receiver amount) s = Ret (ter, s') ∧
     ter = (if v <=? held x then tesSUCCESS else failed_processing info) ∧
     xrp_total (vs_map s') = xrp_total (vs_map s) ∧
     (v ≤ held x → paid (core (vs_map s)) (core (vs_map s')) sender receiver v)).
Proof.
  split.
  - intros Hn ter s' Hr. eapply (neutral_total _ _ _ _ (λ _ _, True)); [apply Hs| |exact Hr]. unfold accountSend.
    destruct (is_zero amount || (sender =? receiver)); [by apply neutral_ret|]. rewrite Hn. cbn [negb].
    apply neutral_bind, neutral_rippleSend. intros [r ?] H'. by apply neutral_ret.
  - intros v Hv Hv0. set (a0 := mkAbs (core (vs_map s)) (rest (vs_map s)) ∅ (vs_dirty s)).
    pose proof (accountSend_xrp info true sender receiver amount x y v a0 Hs Hx Hy Hne Hs0 Hr0 Hv Hv0 s ltac:(by split)) as H.
    destruct (run _ s) as [[ter s']|]; [|done]. exists ter, s'. split; [done|].
    destruct H as (a' & Ha' & [(Hle & -> & Hp & _)|(Hlt & -> & ->)]); rewrite !(xrp_total_core (vs_map _)), (abs_core _ _ Ha').
    + rewrite (proj2 (Z.leb_le _ _)) by done. split; [done|]. split; [by eapply paid_total|done].
    + rewrite (proj2 (Z.leb_gt _ _)) by done. split_and!; [done|done|lia].
Qed.

(** *** A small ledger *)

Definition test_root `{Hash : Sha512} (id drops : Z) : SLE STObject :=
  mkSLE (akey id) ltACCOUNT_ROOT (set AmountC sfBalance (st_native drops false) (new_body ltACCOUNT_ROOT)).
Definition test_ledger : entries :=
  {[ kl_key (kl_account (H := number_hash) 5) := test_root (Hash := number_hash) 5 100;
     kl_key (kl_account (H := number_hash) 7) := test_root (Hash := number_hash) 7 20 ]}.

Lemma test_root_wf `{Hash : Sha512} id d : wf_entry (akey id) (test_root id d).
Proof.
  split; [done|]. exists account_template. split; [apply account_format|].
  apply (set_entry AmountC); [apply new_entry, account_format|apply fits_balance].
Qed.

Lemma test_ledger_sound : sound test_ledger.
Proof.
  split.
  - apply map_Forall_insert_2; [apply test_root_wf|]. apply map_Forall_singleton, test_root_wf.
  - apply map_Forall_insert_2; [|apply map_Forall_singleton].
    all: split; [intros _; split; vm_compute; intuition discriminate|]; split; discriminate.
  - apply map_Forall_insert_2; [|apply map_Forall_singleton]; vm_compute; discriminate.
  - vm_compute. discriminate.
Qed.

Lemma accountSend_conserves_witness :
  let info := mkInfo (λ _, true) (mkFees 10 10 200 50) 3 600000000 false in
  ∃ s', run (accountSend (Hash := number_hash) info 5 7 (st_native 30 false)) (mkV test_ledger ∅ ∅) = Ret (tesSUCCESS, s') ∧
    xrp_total (vs_map s') = 120.
Proof.
  intros info. assert (Hc : core test_ledger = test_ledger) by (vm_compute; reflexivity).
  pose proof test_ledger_sound as Hs. rewrite <- Hc in Hs.
  destruct (accountSend_conserves (Hash := number_hash) info 5 7 (st_native 30 false) (mkV test_ledger ∅ ∅)
    (test_root (Hash := number_hash) 5 100) (test_root (Hash := number_hash) 7 20) Hs) as [_ H].
  - split; vm_compute; reflexivity.
  - split; vm_compute; reflexivity.
  - vm_compute. discriminate.
  - discriminate.
  - discriminate.
  - destruct (H 30) as (ter & s' & Hr & Ht & Hx & _).
    + split; [split; vm_compute; intuition discriminate|reflexivity].
    + reflexivity.
    + exists s'. rewrite Ht in Hr. assert (Hh : held (test_root (Hash := number_hash) 5 100) = 100) by (vm_compute; reflexivity).
      rewrite Hh in Hr. split; [exact Hr|]. rewrite Hx. vm_compute. reflexivity.
Defined.


