(* ===== verification/Transactor.v ===== *)
(** * Applying transactions

    Model of [src/src/ripple/app/tx/impl/Transactor.cpp], [SignerEntries.cpp],
    [ApplyContext.cpp] and [applySteps.cpp]: what all transactions have in common.  A
    transaction passes [preflight] (checks without a ledger), [preclaim] (checks against a
    ledger that may not be changed) and is then applied on a view of its own, which is
    committed if the transaction succeeds or at least claims its fee.

    What the types of transactions do differently is the interface [TxType].  The work on
    the ledger is a program on a view, run on a state table over the open ledger.
    Committing the table is [Apply.ap_apply]; the metadata of the transaction is not
    modelled. *)

From stdpp Require Import base numbers list gmap strings.
From Stdlib Require Import Lia ZArith.
From S2P Require Import Prelude XRPAmount Serializer STAmount Quality StateTable SField STObject STObjectWire STObjectLaws.
From S2P Require Import Entry Indexes ApplyView ViewLogic Directory TxBase Invariants Keys HashRouter STTx LoadFeeTrack View.

Local Open Scope Z_scope.

(** A pointer that is used without a test. *)
Definition need {A} (o : option A) : outcome A :=
  match o with Some a => Ret a | None => Throw (logic_error "null pointer") end.

(** A program that only reads, on a view that cannot be changed. *)
Fixpoint run_read {A} (base : ReadView STObject) (p : view_prog A) : outcome A :=
  match p with
  | Done a => Ret a
  | Fail e => Throw e
  | Read k c => run_read base (c (rv_read base k))
  | Succ key last c => run_read base (c (rv_succ base key last))
  | _ => Throw (logic_error "read-only view")
  end.

(** ** Signer lists *)

Record SignerEntry : Type := mkSigner { se_account : Z; se_weight : Z }.

Fixpoint read_signers (l : list (SField * STObject)) (acc : list SignerEntry) :
    outcome (list SignerEntry * TER) :=
  match l with
  | [] => Ret (acc, tesSUCCESS)
  | (name, sEntry) :: l =>
    if negb (same_field name sfSignerEntry) then Ret (acc, temMALFORMED)
    else
      account ← getAccountID sEntry sfAccount;
      weight ← getFieldU16 sEntry sfSignerWeight;
      read_signers l (acc ++ [mkSigner account weight])
  end.

(** [SignerEntries::deserialize]. *)
Definition deserialize_signers (obj : STObject) : outcome (list SignerEntry * TER) :=
  if negb (isFieldPresent obj sfSignerEntries) then Ret ([], temMALFORMED)
  else l ← getFieldArray obj sfSignerEntries; read_signers l [].

(** ** Contexts *)

Record PreflightContext : Type := mkPreflight {
  pf_tx : STTx;
  pf_rules : Rules;
  pf_flags : Z;
  pf_now : Z }.

Record PreclaimContext : Type := mkPreclaim {
  pc_view : ReadView STObject;
  pc_info : ViewInfo;
  pc_txExists : Z → bool;
  pc_tx : STTx;
  pc_flags : Z;
  pc_track : LoadFeeTrack }.

(** [ApplyContext]; of the application the transactors use the clock and the load track. *)
Record ApplyContext : Type := mkContext {
  cx_tx : STTx;
  cx_info : ViewInfo;
  cx_flags : Z;
  cx_baseFee : Z;
  cx_now : Z;
  cx_track : LoadFeeTrack }.

(** What [doApply] finds in the transactor. *)
Record ApplyArgs : Type := mkArgs {
  ar_ctx :> ApplyContext;
  account_ : Z;
  mPriorBalance : XRPAmount;
  mSourceBalance : XRPAmount }.

(** A type of transactions. *)
Class TxType : Type := {
  t_preflight : PreflightContext → HashRouter → outcome TER * HashRouter;
  t_preclaim : PreclaimContext → outcome TER;
  t_calculateBaseFee : ReadView STObject → ViewInfo → STTx → outcome Z;
  t_doApply : ApplyArgs → HashRouter → view_prog (TER * HashRouter) }.

Section Transactor.
Context `{Hash : Sha512} `{Lib : Crypto}.

(** ** Preflight *)

Definition preflight0 (ctx : PreflightContext) : TER :=
  if tid_ (pf_tx ctx) =? 0 then temINVALID else tesSUCCESS.

Definition preflight1 (ctx : PreflightContext) : outcome TER :=
  let ret := preflight0 ctx in
  if negb (isTesSuccess ret) then Ret ret else
  let o := tx_obj (pf_tx ctx) in
  id ← getAccountID o sfAccount;
  if id =? 0 then Ret temBAD_SRC_ACCOUNT else
  fee ← getFieldAmount o sfFee;
  badFee ← (if negb (mIsNative fee) || mIsNegative fee then Ret true
            else x ← xrp fee; Ret (negb (isLegalAmount x)));
  if (badFee : bool) then Ret temBAD_FEE else
  spk ← getSigningPubKey (pf_tx ctx);
  if negb (bool_decide (spk = [])) && bool_decide (publicKeyType spk = None) then Ret temBAD_SIGNATURE
  else Ret tesSUCCESS.

Definition preflight2 (ctx : PreflightContext) (router : HashRouter) : outcome TER * HashRouter :=
  let '(sigValid, router) := checkValidity (pf_now ctx) (pf_rules ctx) (pf_tx ctx) router in
  (v ← sigValid; Ret (if bool_decide (v = SigBad) then temINVALID else tesSUCCESS), router).

(** The shape of the preflights: the checks of the type between the common ones. *)
Definition preflight_with (ctx : PreflightContext) (router : HashRouter) (check : outcome TER) :
    outcome TER * HashRouter :=
  match (ret ← preflight1 ctx; if negb (isTesSuccess ret) then Ret ret else check) with
  | Ret r => if isTesSuccess r then preflight2 ctx router else (Ret r, router)
  | Throw e => (Throw e, router)
  end.

(** ** Preclaim *)

Definition calculateBaseFee (view : ReadView STObject) (info : ViewInfo) (tx : STTx) : outcome Z :=
  let baseFee := f_units (v_fees info) in
  signerCount ← (if isFieldPresent (tx_obj tx) sfSigners
                 then l ← getFieldArray (tx_obj tx) sfSigners; Ret (u32 (Z.of_nat (length l)))
                 else Ret 0);
  Ret (u64 (baseFee + u64 (signerCount * baseFee))).

Definition calculateFeePaid (tx : STTx) : outcome XRPAmount :=
  a ← get_at AmountC (tx_obj tx) sfFee; xrp a.

Definition minimumFee (track : LoadFeeTrack) (baseFee : Z) (fees : Fees) (flags : Z) : outcome XRPAmount :=
  f ← scaleFeeLoad baseFee track fees (flagged flags tapUNLIMITED); Ret (xrp_of_int f).

Definition checkFee (ctx : PreclaimContext) (baseFee : Z) : outcome TER :=
  feePaid ← calculateFeePaid (pc_tx ctx);
  if negb (isLegalAmount feePaid) || (xrp_signum feePaid <? 0) then Ret temBAD_FEE else
  feeDue ← minimumFee (pc_track ctx) baseFee (v_fees (pc_info ctx)) (pc_flags ctx);
  if v_open (pc_info ctx) && xrp_lt feePaid feeDue then Ret telINSUF_FEE_P else
  if xrp_signum feePaid =? 0 then Ret tesSUCCESS else
  id ← getAccountID (tx_obj (pc_tx ctx)) sfAccount;
  sle ← need (rv_read (pc_view ctx) (kl_account id));
  b ← get_at AmountC (sle_body sle) sfBalance;
  balance ← xrp b;
  if xrp_lt balance feePaid then
    if (0 <? xrp_signum balance) && negb (v_open (pc_info ctx)) then Ret tecINSUFF_FEE
    else Ret terINSUF_FEE_B
  else Ret tesSUCCESS.

Definition checkSeq (ctx : PreclaimContext) : outcome TER :=
  let o := tx_obj (pc_tx ctx) in
  id ← getAccountID o sfAccount;
  match rv_read (pc_view ctx) (kl_account id) with
  | None => Ret terNO_ACCOUNT
  | Some sle =>
    t_seq ← getSequence (pc_tx ctx);
    a_seq ← getFieldU32 (sle_body sle) sfSequence;
    if negb (t_seq =? a_seq) then
      if a_seq <? t_seq then Ret terPRE_SEQ
      else if pc_txExists ctx (tid_ (pc_tx ctx)) then Ret tefALREADY
      else Ret tefPAST_SEQ
    else
    wrongPrior ← (if isFieldPresent o sfAccountTxnID then
                    x ← getFieldH256 (sle_body sle) sfAccountTxnID; y ← getFieldH256 o sfAccountTxnID;
                    Ret (negb (x =? y))
                  else Ret false);
    if (wrongPrior : bool) then Ret tefWRONG_PRIOR else
    late ← (if isFieldPresent o sfLastLedgerSequence then
              l ← getFieldU32 o sfLastLedgerSequence; Ret (l <? v_seq (pc_info ctx))
            else Ret false);
    if (late : bool) then Ret tefMAX_LEDGER else Ret tesSUCCESS
  end.

(** [Transactor::checkSingleSign]. *)
Definition transactor_checkSingleSign (ctx : PreclaimContext) : outcome TER :=
  id ← getAccountID (tx_obj (pc_tx ctx)) sfAccount;
  sle ← need (rv_read (pc_view ctx) (kl_account id));
  let hasAuthKey := isFieldPresent (sle_body sle) sfRegularKey in
  spk ← getSigningPubKey (pc_tx ctx);
  match publicKeyType spk with
  | None => Ret tefBAD_AUTH
  | Some _ =>
    let pkAccount := calcAccountID spk in
    if pkAccount =? id then
      if isFlag (sle_body sle) lsfDisableMaster then Ret tefMASTER_DISABLED else Ret tesSUCCESS
    else if hasAuthKey then
      key ← getAccountID (sle_body sle) sfRegularKey;
      if pkAccount =? key then Ret tesSUCCESS else Ret tefBAD_AUTH
    else Ret tefBAD_AUTH_MASTER
  end.

(** The inner loop of [checkMultiSign]: [None] when the list is used up. *)
Fixpoint find_signer (id : Z) (iter : list SignerEntry) : outcome (option (list SignerEntry)) :=
  match iter with
  | [] => Throw (logic_error "past the end")
  | e :: rest =>
    if se_account e <? id then
      match rest with [] => Ret None | _ => find_signer id rest end
    else Ret (Some iter)
  end.

(** Whether a key may sign for a signer of the list. *)
Definition signer_key_ok (ctx : PreclaimContext) (txSignerAcctID signingAcctIDFromPubKey : Z) : outcome TER :=
  let sleTxSignerRoot := rv_read (pc_view ctx) (kl_account txSignerAcctID) in
  if signingAcctIDFromPubKey =? txSignerAcctID then
    match sleTxSignerRoot with
    | Some s =>
      f ← getFieldU32 (sle_body s) sfFlags;
      if flagged f lsfDisableMaster then Ret tefMASTER_DISABLED else Ret tesSUCCESS
    | None => Ret tesSUCCESS
    end
  else
    match sleTxSignerRoot with
    | None => Ret tefBAD_SIGNATURE
    | Some s =>
      if negb (isFieldPresent (sle_body s) sfRegularKey) then Ret tefBAD_SIGNATURE
      else
        k ← getAccountID (sle_body s) sfRegularKey;
        if negb (signingAcctIDFromPubKey =? k) then Ret tefBAD_SIGNATURE else Ret tesSUCCESS
    end.

(** The loop over the signers: their weight, or an error. *)
Fixpoint sum_weights (ctx : PreclaimContext) (txSigners : list (SField * STObject)) (iter : list SignerEntry)
    (weightSum : Z) : outcome (TER + Z) :=
  match txSigners with
  | [] => Ret (inr weightSum)
  | (_, txSigner) :: txSigners =>
    id ← getAccountID txSigner sfAccount;
    found ← find_signer id iter;
    match found with
    | None => Ret (inl tefBAD_SIGNATURE)
    | Some iter =>
      e ← need (head iter);
      if negb (se_account e =? id) then Ret (inl tefBAD_SIGNATURE) else
      spk ← getFieldVL txSigner sfSigningPubKey;
      match publicKeyType spk with
      | None => Ret (inl tefBAD_SIGNATURE)
      | Some _ =>
        ter ← signer_key_ok ctx id (calcAccountID spk);
        if negb (isTesSuccess ter) then Ret (inl ter)
        else sum_weights ctx txSigners iter (u32 (weightSum + se_weight e))
      end
    end
  end.

Definition transactor_checkMultiSign (ctx : PreclaimContext) : outcome TER :=
  let o := tx_obj (pc_tx ctx) in
  id ← getAccountID o sfAccount;
  match rv_read (pc_view ctx) (kl_signers id) with
  | None => Ret tefNOT_MULTI_SIGNING
  | Some sleAccountSigners =>
    '(accountSigners, ter) ← deserialize_signers (sle_body sleAccountSigners);
    if negb (ter =? tesSUCCESS) then Ret ter else
    txSigners ← getFieldArray o sfSigners;
    r ← sum_weights ctx txSigners accountSigners 0;
    match r with
    | inl ter => Ret ter
    | inr weightSum =>
      quorum ← getFieldU32 (sle_body sleAccountSigners) sfSignerQuorum;
      if weightSum <? quorum then Ret tefBAD_QUORUM else Ret tesSUCCESS
    end
  end.

Definition transactor_checkSign (ctx : PreclaimContext) : outcome TER :=
  if enabled (v_rules (pc_info ctx)) featureMultiSign then
    spk ← getSigningPubKey (pc_tx ctx);
    if bool_decide (spk = []) then transactor_checkMultiSign ctx else transactor_checkSingleSign ctx
  else transactor_checkSingleSign ctx.

(** [invoke_preclaim<T>]. *)
Definition invoke_preclaim (T : TxType) (ctx : PreclaimContext) : outcome TER :=
  id ← getAccountID (tx_obj (pc_tx ctx)) sfAccount;
  if negb (id =? 0) then
    result ← checkSeq ctx;
    if negb (result =? tesSUCCESS) then Ret result else
    baseFee ← t_calculateBaseFee (pc_view ctx) (pc_info ctx) (pc_tx ctx);
    result ← checkFee ctx baseFee;
    if negb (result =? tesSUCCESS) then Ret result else
    result ← transactor_checkSign ctx;
    if negb (result =? tesSUCCESS) then Ret result else t_preclaim ctx
  else t_preclaim ctx.

(** ** Applying *)

Definition unfundedOfferRemoveLimit : Z := 1000.
Definition oversizeMetaDataCap : Z := 5200.

Definition setSeq (tx : STTx) (account : Z) : view_prog unit :=
  sle ← peek_deref (kl_account account);
  t_seq ← from (getSequence tx);
  put U32 sle sfSequence (u32 (t_seq + 1)) ;;
  x ← load sle;
  if isFieldPresent (sle_body x) sfAccountTxnID then put H256 sle sfAccountTxnID (tid_ tx) else mret ().

(** Returns the new [mSourceBalance]. *)
Definition payFee (tx : STTx) (account : Z) (source : XRPAmount) : view_prog XRPAmount :=
  feePaid ← from (calculateFeePaid tx);
  sle ← peek_deref (kl_account account);
  let source := xrp_sub source feePaid in
  b ← from (st_of_xrp source);
  put AmountC sle sfBalance b ;;
  mret source.

(** [Transactor::apply]. *)
Definition transactor_apply (T : TxType) (ctx : ApplyContext) (router : HashRouter) :
    view_prog (TER * HashRouter) :=
  account ← from (getAccountID (tx_obj (cx_tx ctx)) sfAccount);
  sle ← peek (kl_account account);
  match sle with
  | Some sle =>
    x ← load sle;
    b ← from (proxy_value AmountC (sle_body x) sfBalance);
    prior ← from (xrp b);
    setSeq (cx_tx ctx) account ;;
    source ← payFee (cx_tx ctx) account prior;
    update sle ;;
    t_doApply (mkArgs ctx account prior source) router
  | None => t_doApply (mkArgs ctx account xrp_zero xrp_zero) router
  end.

(** The removal of offers found to be unfunded, while the limit allows. *)
Fixpoint remove_offers (offers : list Z) (removed : Z) : view_prog unit :=
  match offers with
  | [] => mret ()
  | index :: offers =>
    sleOffer ← peek (mkKeylet ltOFFER index);
    match sleOffer with
    | Some h =>
      offerDelete (Some h) ;;
      if removed + 1 =? unfundedOfferRemoveLimit then mret () else remove_offers offers (removed + 1)
    | None => remove_offers offers removed
    end
  end.

Definition removeUnfundedOffers (offers : list Z) : view_prog unit := remove_offers offers 0.

(** [reset], on the fresh view that [discard] makes. *)
Definition reset_fee (tx : STTx) (fee : XRPAmount) : view_prog XRPAmount :=
  account ← from (getAccountID (tx_obj tx) sfAccount);
  txnAcct ← peek_deref (kl_account account);
  b ← get AmountC txnAcct sfBalance;
  balance ← from (xrp b);
  let fee := if xrp_lt balance fee then balance else fee in
  b ← from (st_of_xrp (xrp_sub balance fee));
  put AmountC txnAcct sfBalance b ;;
  seq ← from (getSequence tx);
  put U32 txnAcct sfSequence (u32 (seq + 1)) ;;
  update txnAcct ;;
  mret fee.

(** The offers that were deleted without having been used. *)
Fixpoint removed_offers (vs : list change) : outcome (list Z) :=
  match vs with
  | [] => Ret []
  | (index, isDelete, before, after) :: vs =>
    gone ← match isDelete, before, after with
           | true, Some before, Some after =>
             if sle_type before =? ltOFFER then
               x ← getFieldAmount (sle_body before) sfTakerPays;
               y ← getFieldAmount (sle_body after) sfTakerPays;
               Ret (st_eq x y)
             else Ret false
           | _, _, _ => Ret false
           end;
    rest ← removed_offers vs;
    Ret (if (gone : bool) then index :: rest else rest)
  end.

Section Call.
Context (T : TxType) (base : ReadView STObject) (ctx : ApplyContext).
Import Apply.
Local Abbreviation tx := (cx_tx ctx).
Local Abbreviation info := (cx_info ctx).
Local Abbreviation flags := (cx_flags ctx).

(** A program on a fresh view. *)
Definition run_fresh {A} (p : view_prog A) (hp : heap STObject) := run_table base p hp empty_table.

Definition hard_fail (result : TER) : bool :=
  (result =? tecOVERSIZE) || (result =? tecKILLED) || isTecClaimHardFail result flags.

(** The changes are dropped and the fee is claimed. *)
Definition claim_fee (result : TER) (fee : XRPAmount) (hp : heap STObject) (t : ApplyStateTable) :
    outcome (XRPAmount * heap STObject * ApplyStateTable) :=
  let offers_too := (result =? tecOVERSIZE) || (result =? tecKILLED) in
  removed ← (if offers_too then removed_offers (ap_visit base hp t) else Ret []);
  '(fee, hp, t) ← run_fresh (reset_fee tx fee) hp;
  if offers_too then '(_, hp, t) ← run_table base (removeUnfundedOffers removed) hp t; Ret (fee, hp, t)
  else Ret (fee, hp, t).

(** The invariants are checked, and checked again for the fee alone if they fail. *)
Definition check_twice (result : TER) (fee : XRPAmount) (hp : heap STObject) (t : ApplyStateTable) :
    outcome (TER * XRPAmount * heap STObject * ApplyStateTable) :=
  let result := checkInvariants (v_rules info) (ap_visit base hp t) (tx_obj tx) result fee in
  if result =? tecINVARIANT_FAILED then
    '(fee, hp, t) ← run_fresh (reset_fee tx fee) hp;
    Ret (checkInvariants (v_rules info) (ap_visit base hp t) (tx_obj tx) result fee, fee, hp, t)
  else Ret (result, fee, hp, t).

(** What is left of the transaction before it is committed. *)
Record applied_tx : Type := mkApplied {
  x_result : TER;
  x_applied : bool;
  x_fee : XRPAmount;
  x_heap : heap STObject;
  x_table : ApplyStateTable;
  x_router : HashRouter }.

(** [Transactor::operator()], up to [ctx_.apply]. *)
Definition transact (preclaimResult : TER) (router : HashRouter) (hp : heap STObject) : outcome applied_tx :=
  '(result, router, hp, t) ←
    (if preclaimResult =? tesSUCCESS then
       '(r, hp, t) ← run_fresh (transactor_apply T ctx router) hp; Ret (r.1, r.2, hp, t)
     else Ret (preclaimResult, router, hp, empty_table));
  a ← getFieldAmount (tx_obj tx) sfFee;
  fee ← xrp a;
  let applied := isTesSuccess result in
  let result := if oversizeMetaDataCap <? Z.of_nat (ap_size t) then tecOVERSIZE else result in
  '(applied, fee, hp, t) ←
    (if hard_fail result then '(fee, hp, t) ← claim_fee result fee hp t; Ret (true, fee, hp, t)
     else Ret (applied, fee, hp, t));
  if negb applied then Ret (mkApplied result false fee hp t router) else
  '(result, fee, hp, t) ← check_twice result fee hp t;
  if negb (isTecClaim result) && negb (isTesSuccess result) then Ret (mkApplied result false fee hp t router) else
  if xrp_signum fee <? 0 then Throw (logic_error "fee charged is negative!") else
  let t := if negb (v_open info) && negb (xrp_signum fee =? 0) then ap_destroyXRP fee t else t in
  Ret (mkApplied result true fee hp t router).
End Call.

(** ** The steps *)

Definition likelyToClaimFee (ter : TER) (flags : Z) : bool := (ter =? tesSUCCESS) || isTecClaimHardFail ter flags.

Definition tx_preflight (T : TxType) (ctx : PreflightContext) (router : HashRouter) : TER * HashRouter :=
  let '(r, router) := t_preflight ctx router in (or_else r tefEXCEPTION, router).

(** [preclaim]; the rules may have changed since the preflight. *)
Definition tx_preclaim (T : TxType) (rules : Rules) (sameRules : bool) (preflightResult : TER) (now : Z)
    (ctx : PreclaimContext) (router : HashRouter) : TER * HashRouter :=
  let '(pre, router) :=
    if sameRules then (preflightResult, router)
    else tx_preflight T (mkPreflight (pc_tx ctx) (v_rules (pc_info ctx)) (pc_flags ctx) now) router in
  (if negb (pre =? tesSUCCESS) then pre else or_else (invoke_preclaim T ctx) tefEXCEPTION, router).

(** [doApply]: the new ledger, if the transaction was applied. *)
Definition tx_doApply (T : TxType) (base : ReadView STObject) (info : ViewInfo) (tx : STTx) (flags now : Z)
    (track : LoadFeeTrack) (preclaimSeq : Z) (ter : TER) (router : HashRouter) (l : LedgerState STObject) :
    TER * bool * LedgerState STObject :=
  if negb (preclaimSeq =? v_seq info) then (tefEXCEPTION, false, l) else
  if negb (likelyToClaimFee ter flags) then (ter, false, l)
  else
    match (baseFee ← t_calculateBaseFee base info tx;
           x ← transact T base (mkContext tx info flags baseFee now track) ter router ∅;
           if x_applied x then l ← Apply.ap_apply (x_heap x) (x_table x) l; Ret (x_result x, true, l)
           else Ret (x_result x, false, l)) with
    | Ret r => r
    | Throw _ => (tefEXCEPTION, false, l)
    end.
End Transactor.
