(* ===== verification/AccountTx.v ===== *)
(** * Transactions that change an account

    Model of [SetRegularKey.cpp], [SetAccount.cpp] and [SetSignerList.cpp] of
    [src/src/ripple/app/tx/impl]: the keys that may sign for an account, its flags and
    settings, and its list of signers.

    The transactors change the account they have peeked without calling [update]:
    [Transactor::apply] has already done so, and the table commits what the pointer shows
    in the end. *)

From stdpp Require Import base numbers list gmap strings sorting.
From Stdlib Require Import Lia ZArith.
From S2P Require Import Prelude XRPAmount Serializer STAmount Quality StateTable SField STObject STObjectWire STObjectLaws.
From S2P Require Import Entry Indexes ApplyView ViewLogic Directory TxBase Keys HashRouter STTx LoadFeeTrack View Transactor.

Local Open Scope Z_scope.

Section AccountTx.
Context `{Hash : Sha512} `{Lib : Crypto}.

Definition make_absent (sle : Z) (f : SField) : view_prog unit := describe_at (makeFieldAbsent f) sle.

(** Whether the transaction is signed with the master key of the account. *)
Definition sigWithMaster (tx : STTx) (acct : Z) : outcome bool :=
  spk ← getSigningPubKey tx;
  Ret match publicKeyType spk with Some _ => calcAccountID spk =? acct | None => false end.

(** ** SetRegularKey *)

Definition SetRegularKey_calculateBaseFee (view : ReadView STObject) (info : ViewInfo) (tx : STTx) : outcome Z :=
  id ← getAccountID (tx_obj tx) sfAccount;
  master ← sigWithMaster tx id;
  if (master : bool) then
    match rv_read view (kl_account id) with
    | Some sle => if negb (flagged (getFlags (sle_body sle)) lsfPasswordSpent) then Ret 0 else calculateBaseFee view info tx
    | None => calculateBaseFee view info tx
    end
  else calculateBaseFee view info tx.

Definition SetRegularKey_preflight (ctx : PreflightContext) (router : HashRouter) : outcome TER * HashRouter :=
  preflight_with ctx router
    (Ret (if flagged (getFlags (tx_obj (pf_tx ctx))) tfUniversalMask then temINVALID_FLAG else tesSUCCESS)).

Definition SetRegularKey_doApply (a : ApplyArgs) : view_prog TER :=
  let tx := tx_obj (cx_tx a) in
  sle ← peek_deref (kl_account (account_ a));
  fee ← from (minimumFee (cx_track a) (cx_baseFee a) (v_fees (cx_info a)) (cx_flags a));
  (if xrp_signum fee =? 0
   then describe_at (λ o, '(_, o) ← setFlag lsfPasswordSpent o; Ret o) sle else mret ()) ;;
  if isFieldPresent tx sfRegularKey then
    key ← from (getAccountID tx sfRegularKey);
    put AccountID sle sfRegularKey key ;;
    mret tesSUCCESS
  else
    x ← load sle;
    stuck ← (if isFlag (sle_body x) lsfDisableMaster
             then s ← peek (kl_signers (account_ a)); mret (bool_decide (s = None)) else mret false);
    if (stuck : bool) then mret tecNO_ALTERNATIVE_KEY else
    make_absent sle sfRegularKey ;;
    mret tesSUCCESS.

Definition SetRegularKey : TxType := {|
  t_preflight := SetRegularKey_preflight;
  t_preclaim := λ _, Ret tesSUCCESS;
  t_calculateBaseFee := SetRegularKey_calculateBaseFee;
  t_doApply := λ a router, r ← SetRegularKey_doApply a; mret (r, router) |}.

(** ** SetAccount *)

Definition DOMAIN_BYTES_MAX : Z := 256.
Definition minTickSize : Z := 3.
Definition maxTickSize : Z := 16.

(** A flag that may be given in two ways. *)
Definition asked (uTxFlags tf uFlag asf : Z) : bool := flagged uTxFlags tf || (uFlag =? asf).

Definition contradictory (uTxFlags uSetFlag uClearFlag : Z) : bool :=
  (asked uTxFlags tfRequireAuth uSetFlag asfRequireAuth && asked uTxFlags tfOptionalAuth uClearFlag asfRequireAuth) ||
  (asked uTxFlags requireDestTag uSetFlag asfRequireDest && asked uTxFlags tfOptionalDestTag uClearFlag asfRequireDest) ||
  (asked uTxFlags tfDisallowXRP uSetFlag asfDisallowXRP && asked uTxFlags tfAllowXRP uClearFlag asfDisallowXRP).

Definition bad_rate (rules : Rules) (tx : STObject) : outcome bool :=
  if isFieldPresent tx sfTransferRate then
    uRate ← getFieldU32 tx sfTransferRate;
    Ret ((negb (uRate =? 0) && (uRate <? QUALITY_ONE)) || (enabled rules fix1201 && (2 * QUALITY_ONE <? uRate)))
  else Ret false.

Definition check_tickSize (rules : Rules) (tx : STObject) : outcome TER :=
  if isFieldPresent tx sfTickSize then
    if negb (enabled rules featureTickSize) then Ret temDISABLED else
    n ← get_at U8 tx sfTickSize;
    Ret (if negb (n =? 0) && ((n <? minTickSize) || (maxTickSize <? n)) then temBAD_TICK_SIZE else tesSUCCESS)
  else Ret tesSUCCESS.

Definition SetAccount_check (rules : Rules) (tx : STObject) : outcome TER :=
  let uTxFlags := getFlags tx in
  if flagged uTxFlags tfAccountSetMask then Ret temINVALID_FLAG else
  uSetFlag ← getFieldU32 tx sfSetFlag;
  uClearFlag ← getFieldU32 tx sfClearFlag;
  if negb (uSetFlag =? 0) && (uSetFlag =? uClearFlag) then Ret temINVALID_FLAG else
  if contradictory uTxFlags uSetFlag uClearFlag then Ret temINVALID_FLAG else
  bad ← bad_rate rules tx;
  if (bad : bool) then Ret temBAD_TRANSFER_RATE else
  ter ← check_tickSize rules tx;
  if negb (isTesSuccess ter) then Ret ter else
  if match get_optional VL tx sfMessageKey with
     | Some mk => negb (bool_decide (mk = [])) && bool_decide (publicKeyType mk = None)
     | None => false
     end then Ret telBAD_PUBLIC_KEY else
  Ret match get_optional VL tx sfDomain with
      | Some domain => if DOMAIN_BYTES_MAX <? Z.of_nat (length domain) then telBAD_DOMAIN else tesSUCCESS
      | None => tesSUCCESS
      end.

Definition SetAccount_preflight (ctx : PreflightContext) (router : HashRouter) : outcome TER * HashRouter :=
  preflight_with ctx router (SetAccount_check (pf_rules ctx) (tx_obj (pf_tx ctx))).

Definition SetAccount_preclaim (ctx : PreclaimContext) : outcome TER :=
  let tx := tx_obj (pc_tx ctx) in
  id ← get_at AccountID tx sfAccount;
  sle ← need (rv_read (pc_view ctx) (kl_account id));
  uFlagsIn ← getFieldU32 (sle_body sle) sfFlags;
  uSetFlag ← getFieldU32 tx sfSetFlag;
  if asked (getFlags tx) tfRequireAuth uSetFlag asfRequireAuth && negb (flagged uFlagsIn lsfRequireAuth) then
    empty ← run_read (pc_view ctx) (dirIsEmpty (kl_ownerDir id));
    Ret (if (empty : bool) then tesSUCCESS else if flagged (pc_flags ctx) tapRETRY then terOWNERS else tecOWNERS)
  else Ret tesSUCCESS.

(** The flags that can be asked for in two ways: set if it is not, cleared if it is. *)
Definition toggle (setIt clearIt : bool) (f uFlagsIn uFlagsOut : Z) : Z :=
  let uFlagsOut := if setIt && negb (flagged uFlagsIn f) then Z.lor uFlagsOut f else uFlagsOut in
  if clearIt && flagged uFlagsIn f then Z.land uFlagsOut (not32 f) else uFlagsOut.

Definition legacy_flags (uTxFlags uSetFlag uClearFlag uFlagsIn : Z) : Z :=
  let out := toggle (asked uTxFlags tfRequireAuth uSetFlag asfRequireAuth)
    (asked uTxFlags tfOptionalAuth uClearFlag asfRequireAuth) lsfRequireAuth uFlagsIn uFlagsIn in
  let out := toggle (asked uTxFlags requireDestTag uSetFlag asfRequireDest)
    (asked uTxFlags tfOptionalDestTag uClearFlag asfRequireDest) lsfRequireDestTag uFlagsIn out in
  toggle (asked uTxFlags tfDisallowXRP uSetFlag asfDisallowXRP)
    (asked uTxFlags tfAllowXRP uClearFlag asfDisallowXRP) lsfDisallowXRP uFlagsIn out.

(** The flags set or cleared without looking at what they were. *)
Definition choose (uSetFlag uClearFlag asf f uFlagsOut : Z) : Z :=
  if uSetFlag =? asf then Z.lor uFlagsOut f
  else if uClearFlag =? asf then Z.land uFlagsOut (not32 f) else uFlagsOut.

(** The freeze flags: an account that gave up freezing cannot clear its global freeze. *)
Definition freeze_flags (uSetFlag uClearFlag uFlagsOut : Z) : Z :=
  let out := if uSetFlag =? asfNoFreeze then Z.lor uFlagsOut lsfNoFreeze else uFlagsOut in
  let out := if uSetFlag =? asfGlobalFreeze then Z.lor out lsfGlobalFreeze else out in
  if negb (uSetFlag =? asfGlobalFreeze) && (uClearFlag =? asfGlobalFreeze) && negb (flagged out lsfNoFreeze)
  then Z.land out (not32 lsfGlobalFreeze) else out.

(** Disabling the master key: an error or the flags. *)
Definition disable_master (info : ViewInfo) (account sle : Z) (master : bool) (uSetFlag uClearFlag uFlagsIn uFlagsOut : Z) :
    view_prog (TER + Z) :=
  if (uSetFlag =? asfDisableMaster) && negb (flagged uFlagsIn lsfDisableMaster) then
    if negb master then mret (inl tecNEED_MASTER_KEY) else
    x ← load sle;
    alone ← (if isFieldPresent (sle_body x) sfRegularKey then mret false
             else s ← peek (kl_signers account); mret (bool_decide (s = None)));
    if (alone : bool) then
      mret (inl (if enabled (v_rules info) featureMultiSign then tecNO_ALTERNATIVE_KEY else tecNO_REGULAR_KEY))
    else
      let out := Z.lor uFlagsOut lsfDisableMaster in
      mret (inr (if (uClearFlag =? asfDisableMaster) && flagged uFlagsIn lsfDisableMaster
                 then Z.land out (not32 lsfDisableMaster) else out))
  else
    mret (inr (if (uClearFlag =? asfDisableMaster) && flagged uFlagsIn lsfDisableMaster
               then Z.land uFlagsOut (not32 lsfDisableMaster) else uFlagsOut)).

(** A setting: taken away if the transaction has the empty value. *)
Definition set_or_unset {V} (C : STClass V) (tx : STObject) (f : SField) (empty : V → bool) (sle : Z) : view_prog unit :=
  if isFieldPresent tx f then
    v ← from (getFieldBy C tx f);
    if empty v then make_absent sle f else put C sle f v
  else mret ().

Definition account_settings (tx : STObject) (sle : Z) : view_prog unit :=
  set_or_unset H128 tx sfEmailHash (λ h, h =? 0) sle ;;
  set_or_unset H256 tx sfWalletLocator (λ h, h =? 0) sle ;;
  set_or_unset VL tx sfMessageKey (λ b, bool_decide (b = [])) sle ;;
  set_or_unset VL tx sfDomain (λ b, bool_decide (b = [])) sle ;;
  set_or_unset U32 tx sfTransferRate (λ r, (r =? 0) || (r =? QUALITY_ONE)) sle ;;
  if isFieldPresent tx sfTickSize then
    n ← from (get_at U8 tx sfTickSize);
    if (n =? 0) || (n =? maxTickSize) then make_absent sle sfTickSize else put U8 sle sfTickSize n
  else mret ().

Definition account_txnID (uSetFlag uClearFlag sle : Z) : view_prog unit :=
  x ← load sle;
  (if (uSetFlag =? asfAccountTxnID) && negb (isFieldPresent (sle_body x) sfAccountTxnID)
   then describe_at (λ o, '(_, o) ← makeFieldPresent sfAccountTxnID o; Ret o) sle else mret ()) ;;
  x ← load sle;
  if (uClearFlag =? asfAccountTxnID) && isFieldPresent (sle_body x) sfAccountTxnID
  then make_absent sle sfAccountTxnID else mret ().

Definition SetAccount_doApply (a : ApplyArgs) : view_prog TER :=
  let tx := tx_obj (cx_tx a) in
  sle ← peek_deref (kl_account (account_ a));
  uFlagsIn ← get U32 sle sfFlags;
  uSetFlag ← from (getFieldU32 tx sfSetFlag);
  uClearFlag ← from (getFieldU32 tx sfClearFlag);
  master ← from (sigWithMaster (cx_tx a) (account_ a));
  let out := legacy_flags (getFlags tx) uSetFlag uClearFlag uFlagsIn in
  r ← disable_master (cx_info a) (account_ a) sle master uSetFlag uClearFlag uFlagsIn out;
  match r with
  | inl ter => mret ter
  | inr out =>
    let out := choose uSetFlag uClearFlag asfDefaultRipple lsfDefaultRipple out in
    if (uSetFlag =? asfNoFreeze) && negb master && negb (flagged uFlagsIn lsfDisableMaster)
    then mret tecNEED_MASTER_KEY
    else
      let out := freeze_flags uSetFlag uClearFlag out in
      account_txnID uSetFlag uClearFlag sle ;;
      let out := if enabled (v_rules (cx_info a)) featureDepositAuth
                 then choose uSetFlag uClearFlag asfDepositAuth lsfDepositAuth out else out in
      account_settings tx sle ;;
      (if negb (uFlagsIn =? out) then put U32 sle sfFlags out else mret ()) ;;
      mret tesSUCCESS
  end.

Definition SetAccount : TxType := {|
  t_preflight := SetAccount_preflight;
  t_preclaim := SetAccount_preclaim;
  t_calculateBaseFee := calculateBaseFee;
  t_doApply := λ a router, r ← SetAccount_doApply a; mret (r, router) |}.

(** ** SetSignerList *)

Inductive Operation := unknown | set_list | destroy_list.

Definition signer_le (a b : SignerEntry) : Prop := se_account a ≤ se_account b.
#[export] Instance signer_le_dec a b : Decision (signer_le a b).
Proof. unfold signer_le. apply _. Defined.

(** The result, the quorum, the signers in order, and what to do. *)
Definition determineOperation (tx : STObject) : outcome (TER * Z * list SignerEntry * Operation) :=
  quorum ← get_at U32 tx sfSignerQuorum;
  let hasSignerEntries := isFieldPresent tx sfSignerEntries in
  if negb (quorum =? 0) && hasSignerEntries then
    '(signers, ter) ← deserialize_signers tx;
    if negb (ter =? tesSUCCESS) then Ret (ter, quorum, [], unknown)
    else Ret (tesSUCCESS, quorum, merge_sort signer_le signers, set_list)
  else if (quorum =? 0) && negb hasSignerEntries then Ret (tesSUCCESS, quorum, [], destroy_list)
  else Ret (tesSUCCESS, quorum, [], unknown).

(** [std::adjacent_find]. *)
Fixpoint adjacent_equal (l : list SignerEntry) : bool :=
  match l with
  | a :: (b :: _) as l => (se_account a =? se_account b) || adjacent_equal l
  | _ => false
  end.

(** The loop over the signers: their weight, or an error. *)
Fixpoint check_weights (account : Z) (signers : list SignerEntry) (allSignersWeight : Z) : TER + Z :=
  match signers with
  | [] => inr allSignersWeight
  | s :: signers =>
    if se_weight s <=? 0 then inl temBAD_WEIGHT
    else if se_account s =? account then inl temBAD_SIGNER
    else check_weights account signers (u64 (allSignersWeight + se_weight s))
  end.

Definition validateQuorumAndSignerEntries (quorum : Z) (signers : list SignerEntry) (account : Z) : TER :=
  if (length signers <? minMultiSigners)%nat || (maxMultiSigners <? length signers)%nat then temMALFORMED else
  if adjacent_equal signers then temBAD_SIGNER else
  match check_weights account signers 0 with
  | inl ter => ter
  | inr weight => if (quorum <=? 0) || (weight <? quorum) then temBAD_QUORUM else tesSUCCESS
  end.

Definition SetSignerList_preflight (ctx : PreflightContext) (router : HashRouter) : outcome TER * HashRouter :=
  if negb (enabled (pf_rules ctx) featureMultiSign) then (Ret temDISABLED, router) else
  preflight_with ctx router
    (let tx := tx_obj (pf_tx ctx) in
     '(ter, quorum, signers, op) ← determineOperation tx;
     if negb (ter =? tesSUCCESS) then Ret ter else
     match op with
     | unknown => Ret temMALFORMED
     | set_list => account ← getAccountID tx sfAccount; Ret (validateQuorumAndSignerEntries quorum signers account)
     | destroy_list => Ret tesSUCCESS
     end).

Definition signerCountBasedOwnerCountDelta (entryCount : Z) : Z := 2 + entryCount.

Definition removeSignersFromLedger (account : Z) : view_prog TER :=
  signers ← peek (kl_signers account);
  match signers with
  | None => mret tesSUCCESS
  | Some signers =>
    x ← load signers;
    removeFromOwnerCount ←
      (if negb (flagged (getFlags (sle_body x)) lsfOneOwnerCount)
       then actualList ← from (getFieldArray (sle_body x) sfSignerEntries);
            mret (- signerCountBasedOwnerCountDelta (Z.of_nat (length actualList)))
       else mret (-1));
    hint ← from (proxy_value U64 (sle_body x) sfOwnerNode);
    ok ← dirRemove (kl_ownerDir account) hint (kl_key (kl_signers account)) false;
    if negb ok then mret tefBAD_LEDGER else
    sle ← peek_deref (kl_account account);
    adjustOwnerCount sle removeFromOwnerCount ;;
    erase signers ;;
    mret tesSUCCESS
  end.

(** The objects of the list, each a free object with two fields. *)
Fixpoint signer_objects (signers : list SignerEntry) : outcome (list (SField * STObject)) :=
  match signers with
  | [] => Ret []
  | s :: signers =>
    obj ← setAccountID sfAccount (se_account s) (mkObject None []);
    obj ← setFieldU16 sfSignerWeight (se_weight s) obj;
    rest ← signer_objects signers;
    Ret ((sfSignerEntry, obj) :: rest)
  end.

Definition writeSignersToSLE (ledgerEntry quorum : Z) (signers : list SignerEntry) (flags : Z) : view_prog unit :=
  put U32 ledgerEntry sfSignerQuorum quorum ;;
  put U32 ledgerEntry sfSignerListID 0 ;;
  (if negb (flags =? 0) then put U32 ledgerEntry sfFlags flags else mret ()) ;;
  toLedger ← from (signer_objects signers);
  put ArrayC ledgerEntry sfSignerEntries toLedger.

Definition replaceSignerList (a : ApplyArgs) (quorum : Z) (signers : list SignerEntry) : view_prog TER :=
  let info := cx_info a in
  ter ← removeSignersFromLedger (account_ a);
  if negb (ter =? tesSUCCESS) then mret ter else
  sle ← peek_deref (kl_account (account_ a));
  x ← load sle;
  oldOwnerCount ← from (proxy_value U32 (sle_body x) sfOwnerCount);
  let '(addedOwnerCount, flags) :=
    if negb (enabled (v_rules info) featureMultiSignReserve)
    then (signerCountBasedOwnerCountDelta (Z.of_nat (length signers)), 0) else (1, lsfOneOwnerCount) in
  let newReserve := accountReserve (v_fees info) (u32 (oldOwnerCount + addedOwnerCount)) in
  if xrp_lt (mPriorBalance a) newReserve then mret tecINSUFFICIENT_RESERVE else
  signerList ← from (make_SLE (kl_signers (account_ a)));
  insert signerList ;;
  let h := sle_key signerList in
  writeSignersToSLE h quorum signers flags ;;
  page ← owner_dirAdd info (account_ a) h;
  match page with
  | None => mret tecDIR_FULL
  | Some page =>
    put U64 h sfOwnerNode page ;;
    adjustOwnerCount sle addedOwnerCount ;;
    mret tesSUCCESS
  end.

Definition destroySignerList (account : Z) : view_prog TER :=
  ledgerEntry ← peek_deref (kl_account account);
  x ← load ledgerEntry;
  if isFlag (sle_body x) lsfDisableMaster && negb (isFieldPresent (sle_body x) sfRegularKey)
  then mret tecNO_ALTERNATIVE_KEY
  else removeSignersFromLedger account.

(** [preCompute] and [doApply]. *)
Definition SetSignerList_doApply (a : ApplyArgs) : view_prog TER :=
  '(_, quorum, signers, op) ← from (determineOperation (tx_obj (cx_tx a)));
  match op with
  | set_list => replaceSignerList a quorum signers
  | destroy_list => destroySignerList (account_ a)
  | unknown => mret temMALFORMED
  end.

Definition SetSignerList : TxType := {|
  t_preflight := SetSignerList_preflight;
  t_preclaim := λ _, Ret tesSUCCESS;
  t_calculateBaseFee := calculateBaseFee;
  t_doApply := λ a router, r ← SetSignerList_doApply a; mret (r, router) |}.
End AccountTx.
