(* ===== verification/OwnedTx.v ===== *)
(** * Transactions on entries an account owns

    Model of [DepositPreauth.cpp], [CreateTicket.cpp], [CancelTicket.cpp],
    [CancelOffer.cpp], [CreateCheck.cpp] and [CancelCheck.cpp] of
    [src/src/ripple/app/tx/impl].  Each creates or deletes one entry, keeps the
    directories of the accounts concerned and the owner's count in step, and checks the
    reserve when it creates. *)

From stdpp Require Import base numbers list gmap strings.
From Stdlib Require Import Lia ZArith.
From S2P Require Import Prelude XRPAmount Serializer STAmount Quality StateTable SField STObject STObjectWire STObjectLaws.
From S2P Require Import Entry Indexes ApplyView ViewLogic Directory TxBase Keys HashRouter STTx LoadFeeTrack View Transactor.

Local Open Scope Z_scope.

Section OwnedTx.
Context `{Hash : Sha512} `{Lib : Crypto}.

(** A field of the transaction that is copied if it is there. *)
Definition copy_field {V} (C : STClass V) (f : SField) (tx o : STObject) : outcome STObject :=
  match get_optional C tx f with Some v => setFieldUsing C f v o | None => Ret o end.

(** A new entry, filled in before it is inserted; its key. *)
Definition insert_new (k : Keylet) (fields : STObject → outcome STObject) : view_prog Z :=
  sle ← from (make_SLE k);
  o ← from (fields (sle_body sle));
  insert (set_body sle o) ;;
  mret (sle_key sle).

(** The reserve of the account with one more entry, against the balance before the fee;
    the comparison is one of [STAmount]s or of [XRPAmount]s. *)
Definition next_reserve (a : ApplyArgs) (sle : Z) : view_prog XRPAmount :=
  count ← get U32 sle sfOwnerCount;
  mret (accountReserve (v_fees (cx_info a)) (u32 (count + 1))).

Definition below_reserve (a : ApplyArgs) (reserve : XRPAmount) : outcome bool :=
  r ← st_of_xrp reserve; b ← st_of_xrp (mPriorBalance a); st_lt b r.

(** Directories and counts. *)
Definition remove_owned (account page key : Z) (keepRoot : bool) : view_prog bool :=
  dirRemove (kl_ownerDir account) page key keepRoot.

Definition release_owner (account sle : Z) : view_prog unit :=
  root ← peek_deref (kl_account account);
  adjustOwnerCount root (-1) ;;
  erase sle.

Definition no_flags (tx : STTx) : TER :=
  if flagged (getFlags (tx_obj tx)) tfUniversalMask then temINVALID_FLAG else tesSUCCESS.

(** ** DepositPreauth *)

Definition DepositPreauth_check (tx : STObject) : outcome TER :=
  if flagged (getFlags tx) tfUniversalMask then Ret temINVALID_FLAG else
  match get_optional AccountID tx sfAuthorize, get_optional AccountID tx sfUnauthorize with
  | Some target, None =>
    if target =? 0 then Ret temINVALID_ACCOUNT_ID else
    id ← get_at AccountID tx sfAccount;
    Ret (if target =? id then temCANNOT_PREAUTH_SELF else tesSUCCESS)
  | None, Some target => Ret (if target =? 0 then temINVALID_ACCOUNT_ID else tesSUCCESS)
  | _, _ => Ret temMALFORMED
  end.

Definition DepositPreauth_preflight (ctx : PreflightContext) (router : HashRouter) : outcome TER * HashRouter :=
  if negb (enabled (pf_rules ctx) featureDepositPreauth) then (Ret temDISABLED, router)
  else preflight_with ctx router (DepositPreauth_check (tx_obj (pf_tx ctx))).

Definition DepositPreauth_preclaim (ctx : PreclaimContext) : outcome TER :=
  let tx := tx_obj (pc_tx ctx) in
  if isFieldPresent tx sfAuthorize then
    auth ← get_at AccountID tx sfAuthorize;
    if negb (rv_exists (pc_view ctx) (kl_account auth)) then Ret tecNO_TARGET else
    id ← get_at AccountID tx sfAccount;
    Ret (if rv_exists (pc_view ctx) (kl_depositPreauth id auth) then tecDUPLICATE else tesSUCCESS)
  else
    unauth ← get_at AccountID tx sfUnauthorize;
    id ← get_at AccountID tx sfAccount;
    Ret (if negb (rv_exists (pc_view ctx) (kl_depositPreauth id unauth)) then tecNO_ENTRY else tesSUCCESS).

Definition DepositPreauth_doApply (a : ApplyArgs) : view_prog TER :=
  let tx := tx_obj (cx_tx a) in
  sleOwner ← peek_deref (kl_account (account_ a));
  if isFieldPresent tx sfAuthorize then
    reserve ← next_reserve a sleOwner;
    short ← from (below_reserve a reserve);
    if (short : bool) then mret tecINSUFFICIENT_RESERVE else
    auth ← from (get_at AccountID tx sfAuthorize);
    slePreauth ← insert_new (kl_depositPreauth (account_ a) auth)
      (λ o, o ← setAccountID sfAccount (account_ a) o; setAccountID sfAuthorize auth o);
    page ← dirInsert (kl_ownerDir (account_ a)) slePreauth (describeOwnerDir (account_ a));
    match page with
    | None => mret tecDIR_FULL
    | Some page =>
      put U64 slePreauth sfOwnerNode page ;;
      adjustOwnerCount sleOwner 1 ;;
      mret tesSUCCESS
    end
  else
    unauth ← from (get_at AccountID tx sfUnauthorize);
    slePreauth ← peek (kl_depositPreauth (account_ a) unauth);
    match slePreauth with
    | None => mret tecNO_ENTRY
    | Some slePreauth =>
      x ← load slePreauth;
      page ← from (proxy_value U64 (sle_body x) sfOwnerNode);
      ok ← remove_owned (account_ a) page slePreauth true;
      if negb ok then mret tefBAD_LEDGER else
      release_owner (account_ a) slePreauth ;;
      mret tesSUCCESS
    end.

Definition DepositPreauth : TxType := {|
  t_preflight := DepositPreauth_preflight;
  t_preclaim := DepositPreauth_preclaim;
  t_calculateBaseFee := calculateBaseFee;
  t_doApply := λ a router, r ← DepositPreauth_doApply a; mret (r, router) |}.

(** ** Tickets *)

Definition ticket_preflight (ctx : PreflightContext) (router : HashRouter) (check : outcome TER) :
    outcome TER * HashRouter :=
  if negb (enabled (pf_rules ctx) featureTickets) then (Ret temDISABLED, router) else
  if flagged (getFlags (tx_obj (pf_tx ctx))) tfUniversalMask then (Ret temINVALID_FLAG, router) else
  preflight_with ctx router check.

Definition CreateTicket_preflight (ctx : PreflightContext) (router : HashRouter) : outcome TER * HashRouter :=
  ticket_preflight ctx router
    (let tx := tx_obj (pf_tx ctx) in
     if isFieldPresent tx sfExpiration then
       e ← getFieldU32 tx sfExpiration; Ret (if e =? 0 then temBAD_EXPIRATION else tesSUCCESS)
     else Ret tesSUCCESS).

(** The target of a ticket: whether it exists; it is stored if it is not the issuer. *)
Definition ticket_target (a : ApplyArgs) (sleTicket : Z) : view_prog bool :=
  let tx := tx_obj (cx_tx a) in
  if isFieldPresent tx sfTarget then
    target_account ← from (getAccountID tx sfTarget);
    sleTarget ← peek (kl_account target_account);
    match sleTarget with
    | None => mret false
    | Some _ =>
      (if negb (target_account =? account_ a) then put AccountID sleTicket sfTarget target_account else mret ()) ;;
      mret true
    end
  else mret true.

Definition create_ticket (a : ApplyArgs) (sle expiration : Z) : view_prog TER :=
  seq ← from (getSequence (cx_tx a));
  sleTicket ← insert_new (kl_ticket (account_ a) seq)
    (λ o, o ← setAccountID sfAccount (account_ a) o;
          o ← setFieldU32 sfSequence seq o;
          if negb (expiration =? 0) then setFieldU32 sfExpiration expiration o else Ret o);
  ok ← ticket_target a sleTicket;
  if negb ok then mret tecNO_TARGET else
  page ← owner_dirAdd (cx_info a) (account_ a) sleTicket;
  match page with
  | None => mret tecDIR_FULL
  | Some page =>
    put U64 sleTicket sfOwnerNode page ;;
    adjustOwnerCount sle 1 ;;
    mret tesSUCCESS
  end.

(** A ticket that would already have expired is not made, and that is a success. *)
Definition CreateTicket_doApply (a : ApplyArgs) : view_prog TER :=
  let tx := tx_obj (cx_tx a) in
  sle ← peek_deref (kl_account (account_ a));
  reserve ← next_reserve a sle;
  if xrp_lt (mPriorBalance a) reserve then mret tecINSUFFICIENT_RESERVE else
  if isFieldPresent tx sfExpiration then
    expiration ← from (get_at U32 tx sfExpiration);
    if expiration <=? v_parentCloseTime (cx_info a) then mret tesSUCCESS
    else create_ticket a sle expiration
  else create_ticket a sle 0.

Definition CreateTicket : TxType := {|
  t_preflight := CreateTicket_preflight;
  t_preclaim := λ _, Ret tesSUCCESS;
  t_calculateBaseFee := calculateBaseFee;
  t_doApply := λ a router, r ← CreateTicket_doApply a; mret (r, router) |}.

Definition CancelTicket_preflight (ctx : PreflightContext) (router : HashRouter) : outcome TER * HashRouter :=
  ticket_preflight ctx router (Ret tesSUCCESS).

(** The owner, the target, and anybody once the ticket has expired. *)
Definition ticket_authorized (info : ViewInfo) (account owner : Z) (ticket : STObject) : outcome bool :=
  if account =? owner then Ret true else
  target ← (if isFieldPresent ticket sfTarget then t ← getAccountID ticket sfTarget; Ret (account =? t) else Ret false);
  if (target : bool) then Ret true else
  if isFieldPresent ticket sfExpiration then
    expiration ← getFieldU32 ticket sfExpiration; Ret (expiration <=? v_parentCloseTime info)
  else Ret false.

Definition CancelTicket_doApply (a : ApplyArgs) : view_prog TER :=
  ticketId ← from (getFieldH256 (tx_obj (cx_tx a)) sfTicketID);
  sleTicket ← peek (mkKeylet ltTICKET ticketId);
  match sleTicket with
  | None => mret tecNO_ENTRY
  | Some sleTicket =>
    x ← load sleTicket;
    ticket_owner ← from (getAccountID (sle_body x) sfAccount);
    authorized ← from (ticket_authorized (cx_info a) (account_ a) ticket_owner (sle_body x));
    if negb authorized then mret tecNO_PERMISSION else
    hint ← get U64 sleTicket sfOwnerNode;
    ok ← remove_owned ticket_owner hint ticketId false;
    if negb ok then mret tefBAD_LEDGER else
    release_owner ticket_owner sleTicket ;;
    mret tesSUCCESS
  end.

Definition CancelTicket : TxType := {|
  t_preflight := CancelTicket_preflight;
  t_preclaim := λ _, Ret tesSUCCESS;
  t_calculateBaseFee := calculateBaseFee;
  t_doApply := λ a router, r ← CancelTicket_doApply a; mret (r, router) |}.

(** ** CancelOffer *)

Definition CancelOffer_preflight (ctx : PreflightContext) (router : HashRouter) : outcome TER * HashRouter :=
  preflight_with ctx router
    (if negb (isTesSuccess (no_flags (pf_tx ctx))) then Ret temINVALID_FLAG else
     seq ← getFieldU32 (tx_obj (pf_tx ctx)) sfOfferSequence;
     Ret (if seq =? 0 then temBAD_SEQUENCE else tesSUCCESS)).

Definition CancelOffer_preclaim (ctx : PreclaimContext) : outcome TER :=
  let tx := tx_obj (pc_tx ctx) in
  id ← get_at AccountID tx sfAccount;
  offerSequence ← get_at U32 tx sfOfferSequence;
  sle ← need (rv_read (pc_view ctx) (kl_account id));
  seq ← get_at U32 (sle_body sle) sfSequence;
  Ret (if seq <=? offerSequence then temBAD_SEQUENCE else tesSUCCESS).

Definition CancelOffer_doApply (a : ApplyArgs) : view_prog TER :=
  offerSequence ← from (get_at U32 (tx_obj (cx_tx a)) sfOfferSequence);
  _ ← read (kl_account (account_ a));
  sleOffer ← peek (kl_offer (account_ a) offerSequence);
  match sleOffer with
  | Some _ => offerDelete sleOffer
  | None => mret tesSUCCESS
  end.

Definition CancelOffer : TxType := {|
  t_preflight := CancelOffer_preflight;
  t_preclaim := CancelOffer_preclaim;
  t_calculateBaseFee := calculateBaseFee;
  t_doApply := λ a router, r ← CancelOffer_doApply a; mret (r, router) |}.

(** ** Checks *)

Definition badCurrency : Z := 0x5852500000000000.

Definition isLegalNet (value : STAmount) : bool := negb (mIsNative value) || (mValue value <=? cMaxNativeN).

Definition CreateCheck_check (tx : STObject) : outcome TER :=
  if flagged (getFlags tx) tfUniversalMask then Ret temINVALID_FLAG else
  id ← get_at AccountID tx sfAccount;
  dst ← get_at AccountID tx sfDestination;
  if id =? dst then Ret temREDUNDANT else
  sendMax ← getFieldAmount tx sfSendMax;
  if negb (isLegalNet sendMax) || (st_signum sendMax <=? 0) then Ret temBAD_AMOUNT else
  if badCurrency =? currency (mIssue sendMax) then Ret temBAD_CURRENCY else
  Ret match get_optional U32 tx sfExpiration with
      | Some e => if e =? 0 then temBAD_EXPIRATION else tesSUCCESS
      | None => tesSUCCESS
      end.

Definition CreateCheck_preflight (ctx : PreflightContext) (router : HashRouter) : outcome TER * HashRouter :=
  if negb (enabled (pf_rules ctx) featureChecks) then (Ret temDISABLED, router)
  else preflight_with ctx router (CreateCheck_check (tx_obj (pf_tx ctx))).

(** Whether the issuer has frozen the line of an account, or the account that of the issuer. *)
Definition line_frozen (view : ReadView STObject) (a b currency : Z) (high : bool) : bool :=
  match rv_read view (kl_line a b currency) with
  | Some sleTrust => isFlag (sle_body sleTrust) (if high then lsfHighFreeze else lsfLowFreeze)
  | None => false
  end.

Definition check_frozen (ctx : PreclaimContext) (dstId : Z) (sendMax : STAmount) : outcome bool :=
  if mIsNative sendMax then Ret false else
  let issuerId := account (mIssue sendMax) in
  let cur := currency (mIssue sendMax) in
  frozen ← run_read (pc_view ctx) (isGlobalFrozen issuerId);
  if (frozen : bool) then Ret true else
  srcId ← getAccountID (tx_obj (pc_tx ctx)) sfAccount;
  if negb (issuerId =? srcId) && line_frozen (pc_view ctx) srcId issuerId cur (srcId <? issuerId) then Ret true else
  Ret (negb (issuerId =? dstId) && line_frozen (pc_view ctx) issuerId dstId cur (issuerId <? dstId)).

Definition CreateCheck_preclaim (ctx : PreclaimContext) : outcome TER :=
  let tx := tx_obj (pc_tx ctx) in
  dstId ← get_at AccountID tx sfDestination;
  match rv_read (pc_view ctx) (kl_account dstId) with
  | None => Ret tecNO_DST
  | Some sleDst =>
    if flagged (getFlags (sle_body sleDst)) lsfRequireDestTag && negb (isFieldPresent tx sfDestinationTag)
    then Ret tecDST_TAG_NEEDED else
    sendMax ← get_at AmountC tx sfSendMax;
    frozen ← check_frozen ctx dstId sendMax;
    if (frozen : bool) then Ret tecFROZEN else
    Ret match get_optional U32 tx sfExpiration with
        | Some e => if e <=? v_parentCloseTime (pc_info ctx) then tecEXPIRED else tesSUCCESS
        | None => tesSUCCESS
        end
  end.

Definition check_fields (tx : STObject) (account dst seq : Z) (o : STObject) : outcome STObject :=
  o ← setAccountID sfAccount account o;
  o ← setAccountID sfDestination dst o;
  o ← setFieldU32 sfSequence seq o;
  sendMax ← get_at AmountC tx sfSendMax;
  o ← setFieldAmount sfSendMax sendMax o;
  o ← copy_field U32 sfSourceTag tx o;
  o ← copy_field U32 sfDestinationTag tx o;
  o ← copy_field H256 sfInvoiceID tx o;
  copy_field U32 sfExpiration tx o.

(** Adding the check to the directory of an account, and the page to the check. *)
Definition add_check (info : ViewInfo) (account sleCheck : Z) (f : SField) : view_prog bool :=
  page ← owner_dirAdd info account sleCheck;
  match page with
  | None => mret false
  | Some page => put U64 sleCheck f page ;; mret true
  end.

Definition CreateCheck_doApply (a : ApplyArgs) : view_prog TER :=
  let tx := tx_obj (cx_tx a) in
  sle ← peek_deref (kl_account (account_ a));
  reserve ← next_reserve a sle;
  short ← from (below_reserve a reserve);
  if (short : bool) then mret tecINSUFFICIENT_RESERVE else
  dst ← from (get_at AccountID tx sfDestination);
  seq ← from (getSequence (cx_tx a));
  sleCheck ← insert_new (kl_check (account_ a) seq) (check_fields tx (account_ a) dst seq);
  ok ← (if negb (dst =? account_ a) then add_check (cx_info a) dst sleCheck sfDestinationNode else mret true);
  if negb ok then mret tecDIR_FULL else
  ok ← add_check (cx_info a) (account_ a) sleCheck sfOwnerNode;
  if negb ok then mret tecDIR_FULL else
  adjustOwnerCount sle 1 ;;
  mret tesSUCCESS.

Definition CreateCheck : TxType := {|
  t_preflight := CreateCheck_preflight;
  t_preclaim := CreateCheck_preclaim;
  t_calculateBaseFee := calculateBaseFee;
  t_doApply := λ a router, r ← CreateCheck_doApply a; mret (r, router) |}.

Definition CancelCheck_preflight (ctx : PreflightContext) (router : HashRouter) : outcome TER * HashRouter :=
  if negb (enabled (pf_rules ctx) featureChecks) then (Ret temDISABLED, router)
  else preflight_with ctx router (Ret (no_flags (pf_tx ctx))).

(** Until the check expires only its source and its destination may cancel it. *)
Definition CancelCheck_preclaim (ctx : PreclaimContext) : outcome TER :=
  let tx := tx_obj (pc_tx ctx) in
  checkId ← get_at H256 tx sfCheckID;
  match rv_read (pc_view ctx) (mkKeylet ltCHECK checkId) with
  | None => Ret tecNO_ENTRY
  | Some sleCheck =>
    let o := sle_body sleCheck in
    if match get_optional U32 o sfExpiration with
       | Some e => v_parentCloseTime (pc_info ctx) <? e
       | None => true
       end
    then
      acctId ← get_at AccountID tx sfAccount;
      src ← get_at AccountID o sfAccount;
      if acctId =? src then Ret tesSUCCESS else
      dst ← get_at AccountID o sfDestination;
      Ret (if negb (acctId =? dst) then tecNO_PERMISSION else tesSUCCESS)
    else Ret tesSUCCESS
  end.

Definition CancelCheck_doApply (a : ApplyArgs) : view_prog TER :=
  checkId ← from (get_at H256 (tx_obj (cx_tx a)) sfCheckID);
  sleCheck ← peek (mkKeylet ltCHECK checkId);
  match sleCheck with
  | None => mret tecNO_ENTRY
  | Some sleCheck =>
    srcId ← get AccountID sleCheck sfAccount;
    dstId ← get AccountID sleCheck sfDestination;
    x ← load sleCheck;
    ok ← (if negb (srcId =? dstId)
          then page ← from (proxy_value U64 (sle_body x) sfDestinationNode); remove_owned dstId page checkId true
          else mret true);
    if negb ok then mret tefBAD_LEDGER else
    page ← from (proxy_value U64 (sle_body x) sfOwnerNode);
    ok ← remove_owned srcId page checkId true;
    if negb ok then mret tefBAD_LEDGER else
    release_owner srcId sleCheck ;;
    mret tesSUCCESS
  end.

Definition CancelCheck : TxType := {|
  t_preflight := CancelCheck_preflight;
  t_preclaim := CancelCheck_preclaim;
  t_calculateBaseFee := calculateBaseFee;
  t_doApply := λ a router, r ← CancelCheck_doApply a; mret (r, router) |}.
End OwnedTx.
