(* ===== verification/Escrow.v ===== *)
(** * Escrow

    Model of [src/src/ripple/app/tx/impl/Escrow.cpp]: an escrow sets XRP aside until it is
    finished, by whoever shows that its condition is fulfilled and its time has come, or
    cancelled after its time has run out.

    Whether a condition is fulfilled is remembered in the hash router, so that
    [EscrowFinish] reads and changes the router both in its preflight and when it is
    applied. *)

From stdpp Require Import base numbers list gmap strings.
From Stdlib Require Import Lia ZArith.
From S2P Require Import Prelude XRPAmount Serializer STAmount Quality StateTable SField STObject STObjectWire STObjectLaws.
From S2P Require Import Entry Indexes ApplyView ViewLogic Directory TxBase Keys HashRouter Encodings Conditions STTx LoadFeeTrack.
From S2P Require Import View Transactor OwnedTx.

Local Open Scope Z_scope.

Definition SF_CF_INVALID : Z := SF_PRIVATE5.
Definition SF_CF_VALID : Z := SF_PRIVATE6.

Definition after (now mark : Z) : bool := mark <? now.

Section Escrow.
Context `{Hash : Sha512} `{Hash256 : Sha256} `{Lib : Crypto}.

(** [x[f] = x[f] + v] and the like on an entry. *)
Definition modify_amount (op : STAmount → outcome STAmount) (h : Z) (f : SField) : view_prog unit :=
  x ← load h;
  v ← from (proxy_value AmountC (sle_body x) f);
  v ← from (op v);
  o ← from (proxy_assign AmountC f v (sle_body x));
  store h o.

(** [x[~f] = tx[~f]]. *)
Definition copy_optional {V} `{EqDecision V} (C : STClass V) (f : SField) (tx o : STObject) : outcome STObject :=
  proxy_assign_optional C f (get_optional C tx f) o.

Definition escrow_preflight (ctx : PreflightContext) (router : HashRouter) (k : outcome TER * HashRouter) :
    outcome TER * HashRouter :=
  if negb (enabled (pf_rules ctx) featureEscrow) then (Ret temDISABLED, router) else
  if enabled (pf_rules ctx) fix1543 && flagged (getFlags (tx_obj (pf_tx ctx))) tfUniversalMask
  then (Ret temINVALID_FLAG, router) else k.

(** ** EscrowCreate *)

Definition EscrowCreate_calculateMaxSpend (tx : STTx) : outcome XRPAmount :=
  a ← get_at AmountC (tx_obj tx) sfAmount; xrp a.

Definition EscrowCreate_check (rules : Rules) (tx : STObject) : outcome TER :=
  amount ← get_at AmountC tx sfAmount;
  if negb (isXRP (currency (mIssue amount))) then Ret temBAD_AMOUNT else
  if st_signum amount <=? 0 then Ret temBAD_AMOUNT else
  let cancelAfter := get_optional U32 tx sfCancelAfter in
  let finishAfter := get_optional U32 tx sfFinishAfter in
  let condition := get_optional VL tx sfCondition in
  if match cancelAfter, finishAfter with
     | None, None => true
     | Some c, Some f => c <=? f
     | _, _ => false
     end then Ret temBAD_EXPIRATION else
  if enabled rules fix1571 && bool_decide (finishAfter = None) && bool_decide (condition = None)
  then Ret temMALFORMED else
  Ret match condition with
      | None => tesSUCCESS
      | Some cb =>
        match Condition_deserialize cb with
        | inl _ => temMALFORMED
        | inr c =>
          if negb (bool_decide (c_kind c = preimageSha256)) && negb (enabled rules featureCryptoConditionsSuite)
          then temDISABLED else tesSUCCESS
        end
      end.

Definition EscrowCreate_preflight (ctx : PreflightContext) (router : HashRouter) : outcome TER * HashRouter :=
  escrow_preflight ctx router
    (preflight_with ctx router (EscrowCreate_check (pf_rules ctx) (tx_obj (pf_tx ctx)))).

(** Times that are over already; without the amendment the close time itself is too late. *)
Definition create_too_late (rules : Rules) (closeTime : Z) (tx : STObject) : bool :=
  let late mark := match mark with
                   | Some m => if enabled rules fix1571 then after closeTime m else m <=? closeTime
                   | None => false
                   end in
  late (get_optional U32 tx sfCancelAfter) || late (get_optional U32 tx sfFinishAfter).

Definition check_funds (info : ViewInfo) (tx o : STObject) : outcome TER :=
  b ← proxy_value AmountC o sfBalance;
  balance ← xrp b;
  count ← proxy_value U32 o sfOwnerCount;
  let reserve := accountReserve (v_fees info) (u32 (count + 1)) in
  if xrp_lt balance reserve then Ret tecINSUFFICIENT_RESERVE else
  a ← get_at AmountC tx sfAmount;
  amount ← xrp a;
  Ret (if xrp_lt balance (xrp_add reserve amount) then tecUNFUNDED else tesSUCCESS).

(** The destination: it has to exist, and its flags may ask for a tag or refuse XRP. *)
Definition check_destination (info : ViewInfo) (tx : STObject) (sled : option (SLE STObject)) : outcome TER :=
  match sled with
  | None => Ret tecNO_DST
  | Some sled =>
    flags ← get_at U32 (sle_body sled) sfFlags;
    if flagged flags lsfRequireDestTag && bool_decide (get_optional U32 tx sfDestinationTag = None)
    then Ret tecDST_TAG_NEEDED else
    Ret (if negb (enabled (v_rules info) featureDepositAuth) && flagged flags lsfDisallowXRP
         then tecNO_TARGET else tesSUCCESS)
  end.

Definition escrow_fields (tx : STObject) (account : Z) (o : STObject) : outcome STObject :=
  amount ← get_at AmountC tx sfAmount;
  o ← proxy_assign AmountC sfAmount amount o;
  o ← proxy_assign AccountID sfAccount account o;
  o ← copy_optional VL sfCondition tx o;
  o ← copy_optional U32 sfSourceTag tx o;
  dst ← get_at AccountID tx sfDestination;
  o ← proxy_assign AccountID sfDestination dst o;
  o ← copy_optional U32 sfCancelAfter tx o;
  o ← copy_optional U32 sfFinishAfter tx o;
  copy_optional U32 sfDestinationTag tx o.

(** Adding an entry to the directory of an account, and the page to the entry. *)
Definition add_to_dir (info : ViewInfo) (account slep : Z) (f : SField) : view_prog bool :=
  page ← owner_dirAdd info account slep;
  match page with
  | None => mret false
  | Some page => describe_at (proxy_assign U64 f page) slep ;; mret true
  end.

Definition EscrowCreate_doApply (a : ApplyArgs) : view_prog TER :=
  let tx := tx_obj (cx_tx a) in
  let info := cx_info a in
  if create_too_late (v_rules info) (v_parentCloseTime info) tx then mret tecNO_PERMISSION else
  account ← from (get_at AccountID tx sfAccount);
  sle ← peek_deref (kl_account account);
  x ← load sle;
  ter ← from (check_funds info tx (sle_body x));
  if negb (ter =? tesSUCCESS) then mret ter else
  dest ← from (get_at AccountID tx sfDestination);
  sled ← read (kl_account dest);
  ter ← from (check_destination info tx sled);
  if negb (ter =? tesSUCCESS) then mret ter else
  seq ← from (proxy_value U32 (sle_body x) sfSequence);
  slep ← insert_new (kl_escrow account (u32 (seq - 1))) (escrow_fields tx account);
  ok ← add_to_dir info account slep sfOwnerNode;
  if negb ok then mret tecDIR_FULL else
  ok ← (if enabled (v_rules info) fix1523 && negb (dest =? account)
        then add_to_dir info dest slep sfDestinationNode else mret true);
  if negb ok then mret tecDIR_FULL else
  amount ← from (get_at AmountC tx sfAmount);
  modify_amount (λ v, st_sub v amount) sle sfBalance ;;
  adjustOwnerCount sle 1 ;;
  update sle ;;
  mret tesSUCCESS.

Definition EscrowCreate : TxType := {|
  t_preflight := EscrowCreate_preflight;
  t_preclaim := λ _, Ret tesSUCCESS;
  t_calculateBaseFee := calculateBaseFee;
  t_doApply := λ a router, r ← EscrowCreate_doApply a; mret (r, router) |}.

(** ** EscrowFinish *)

Definition EscrowFinish_preflight (ctx : PreflightContext) (router : HashRouter) : outcome TER * HashRouter :=
  let tx := tx_obj (pf_tx ctx) in
  escrow_preflight ctx router
    (let cb := get_optional VL tx sfCondition in
     let fb := get_optional VL tx sfFulfillment in
     match preflight_with ctx router
             (Ret (if negb (Bool.eqb (bool_decide (cb = None)) (bool_decide (fb = None))) then temMALFORMED else tesSUCCESS)) with
     | (Ret r, router) =>
       if negb (isTesSuccess r) then (Ret r, router) else
       match cb, fb with
       | Some cb, Some fb =>
         let id := tid_ (pf_tx ctx) in
         let '(flags, router) := router_getFlags (pf_now ctx) id router in
         if negb (flagged flags (Z.lor SF_CF_INVALID SF_CF_VALID))
         then (Ret tesSUCCESS,
               (router_setFlags (pf_now ctx) id (if checkCondition fb cb then SF_CF_VALID else SF_CF_INVALID) router).2)
         else (Ret tesSUCCESS, router)
       | _, _ => (Ret tesSUCCESS, router)
       end
     | r => r
     end).

Definition EscrowFinish_calculateBaseFee (view : ReadView STObject) (info : ViewInfo) (tx : STTx) : outcome Z :=
  let extraFee := match get_optional VL (tx_obj tx) sfFulfillment with
                  | Some fb => u64 (f_units (v_fees info) * (32 + Z.of_nat (length fb) `div` 16))
                  | None => 0
                  end in
  base ← calculateBaseFee view info tx;
  Ret (u64 (base + extraFee)).

(** Whether it is too early or too late to finish. *)
Definition finish_refused (rules : Rules) (now : Z) (finishAfter cancelAfter : option Z) : bool :=
  if enabled rules fix1571 then
    match finishAfter with Some f => negb (after now f) | None => false end ||
    match cancelAfter with Some c => after now c | None => false end
  else
    match finishAfter with Some f => now <=? f | None => false end ||
    match cancelAfter with Some c => now <=? c | None => false end.

(** What the router knows of the fulfillment, checked now if it has forgotten; [None] is
    [tecINTERNAL]. *)
Definition condition_flags (now : Z) (tx : STTx) (router : HashRouter) : option Z * HashRouter :=
  let id := tid_ tx in
  let '(flags, router) := router_getFlags now id router in
  match get_optional VL (tx_obj tx) sfCondition with
  | Some cb =>
    if negb (flagged flags (Z.lor SF_CF_INVALID SF_CF_VALID)) then
      match get_optional VL (tx_obj tx) sfFulfillment with
      | None => (None, router)
      | Some fb =>
        let flags := if checkCondition fb cb then SF_CF_VALID else SF_CF_INVALID in
        (Some flags, (router_setFlags now id flags router).2)
      end
    else (Some flags, router)
  | None => (Some flags, router)
  end.

(** The condition of the transaction against that of the escrow. *)
Definition condition_refused (flags : Z) (cond cb : option (list Z)) : bool :=
  flagged flags SF_CF_INVALID ||
  match cond with None => negb (bool_decide (cb = None)) | Some _ => negb (bool_decide (cond = cb)) end.

(** Removing the escrow from the directories it is in. *)
Definition remove_escrow (info : ViewInfo) (o : STObject) (key account : Z) : view_prog bool :=
  page ← from (proxy_value U64 o sfOwnerNode);
  ok ← remove_owned account page key true;
  if negb ok then mret false else
  node ← from (proxy_optional U64 o sfDestinationNode);
  match node with
  | Some page =>
    if enabled (v_rules info) fix1523
    then dest ← from (proxy_value AccountID o sfDestination); remove_owned dest page key true
    else mret true
  | None => mret true
  end.

(** The end of [EscrowFinish::doApply]: the amount goes to the destination. *)
Definition pay_escrow (slep sled account : Z) (o : STObject) : view_prog TER :=
  amount ← from (proxy_value AmountC o sfAmount);
  modify_amount (λ v, STAmount.st_add v amount) sled sfBalance ;;
  update sled ;;
  sle ← peek_deref (kl_account account);
  adjustOwnerCount sle (-1) ;;
  update sle ;;
  erase slep ;;
  mret tesSUCCESS.

(** Deposits that need the consent of the receiver. *)
Definition deposit_refused (info : ViewInfo) (sled : STObject) (account destID : Z) : view_prog bool :=
  if enabled (v_rules info) featureDepositAuth && flagged (getFlags sled) lsfDepositAuth && negb (account =? destID) then
    preauth ← read (kl_depositPreauth destID account);
    mret (bool_decide (preauth = None))
  else mret false.

Definition EscrowFinish_doApply (a : ApplyArgs) (router : HashRouter) : view_prog (TER * HashRouter) :=
  let tx := tx_obj (cx_tx a) in
  let info := cx_info a in
  owner ← from (get_at AccountID tx sfOwner);
  seq ← from (get_at U32 tx sfOfferSequence);
  slep ← peek (kl_escrow owner seq);
  match slep with
  | None => mret (tecNO_TARGET, router)
  | Some slep =>
    x ← load slep;
    finishAfter ← from (proxy_optional U32 (sle_body x) sfFinishAfter);
    cancelAfter ← from (proxy_optional U32 (sle_body x) sfCancelAfter);
    if finish_refused (v_rules info) (v_parentCloseTime info) finishAfter cancelAfter
    then mret (tecNO_PERMISSION, router) else
    let '(flags, router) := condition_flags (cx_now a) (cx_tx a) router in
    match flags with
    | None => mret (tecINTERNAL, router)
    | Some flags =>
      cond ← from (proxy_optional VL (sle_body x) sfCondition);
      if condition_refused flags cond (get_optional VL tx sfCondition)
      then mret (tecCRYPTOCONDITION_ERROR, router) else
      destID ← from (proxy_value AccountID (sle_body x) sfDestination);
      sled ← peek (kl_account destID);
      match sled with
      | None => mret (tecNO_DST, router)
      | Some sled =>
        y ← load sled;
        refused ← deposit_refused info (sle_body y) (account_ a) destID;
        if (refused : bool) then mret (tecNO_PERMISSION, router) else
        account ← from (proxy_value AccountID (sle_body x) sfAccount);
        ok ← remove_escrow info (sle_body x) slep account;
        if negb ok then mret (tefBAD_LEDGER, router) else
        r ← pay_escrow slep sled account (sle_body x);
        mret (r, router)
      end
    end
  end.

Definition EscrowFinish : TxType := {|
  t_preflight := EscrowFinish_preflight;
  t_preclaim := λ _, Ret tesSUCCESS;
  t_calculateBaseFee := EscrowFinish_calculateBaseFee;
  t_doApply := EscrowFinish_doApply |}.

(** ** EscrowCancel *)

Definition EscrowCancel_preflight (ctx : PreflightContext) (router : HashRouter) : outcome TER * HashRouter :=
  escrow_preflight ctx router (preflight_with ctx router (Ret tesSUCCESS)).

Definition cancel_refused (rules : Rules) (now : Z) (cancelAfter : option Z) : bool :=
  match cancelAfter with
  | None => true
  | Some c => if enabled rules fix1571 then negb (after now c) else now <=? c
  end.

(** The end of [EscrowCancel::doApply]: the amount goes back to the owner. *)
Definition refund_escrow (slep account : Z) (o : STObject) : view_prog TER :=
  sle ← peek_deref (kl_account account);
  amount ← from (proxy_value AmountC o sfAmount);
  modify_amount (λ v, STAmount.st_add v amount) sle sfBalance ;;
  adjustOwnerCount sle (-1) ;;
  update sle ;;
  erase slep ;;
  mret tesSUCCESS.

Definition EscrowCancel_doApply (a : ApplyArgs) : view_prog TER :=
  let tx := tx_obj (cx_tx a) in
  let info := cx_info a in
  owner ← from (get_at AccountID tx sfOwner);
  seq ← from (get_at U32 tx sfOfferSequence);
  slep ← peek (kl_escrow owner seq);
  match slep with
  | None => mret tecNO_TARGET
  | Some slep =>
    x ← load slep;
    cancelAfter ← from (proxy_optional U32 (sle_body x) sfCancelAfter);
    if cancel_refused (v_rules info) (v_parentCloseTime info) cancelAfter then mret tecNO_PERMISSION else
    account ← from (proxy_value AccountID (sle_body x) sfAccount);
    ok ← remove_escrow info (sle_body x) slep account;
    if negb ok then mret tefBAD_LEDGER else refund_escrow slep account (sle_body x)
  end.

Definition EscrowCancel : TxType := {|
  t_preflight := EscrowCancel_preflight;
  t_preclaim := λ _, Ret tesSUCCESS;
  t_calculateBaseFee := calculateBaseFee;
  t_doApply := λ a router, r ← EscrowCancel_doApply a; mret (r, router) |}.
End Escrow.
