(* ===== verification/EscrowLaws.v ===== *)
(** * Laws of escrows

    No XRP is lost or made when an escrow is created, finished or cancelled; the three
    operations move it between the account and the escrow.  With the amendment fix1571 an
    escrow can be finished or cancelled at any time after it may be finished, but never
    both; and cancelling succeeds as soon as its time has come. *)

From stdpp Require Import base numbers list gmap strings.
From Stdlib Require Import Lia ZArith.
From S2P Require Import Prelude XRPAmount Serializer STAmount Quality StateTable SField STObject STObjectWire STObjectLaws.
From S2P Require Import Entry Indexes ApplyView ViewLogic Directory DirectoryPages DirectoryCorrect DirectoryRemove DirectoryTheorems DirectoryFrame TxBase Invariants Keys HashRouter Encodings Conditions.
From S2P Require Import STTx LoadFeeTrack CoreLogic View ViewLaws XrpNeutral Transactor OwnedTx Escrow.

Local Open Scope Z_scope.

Definition escrow_template : SOTemplate := fmt_common ++ fmt_Escrow.
Lemma escrow_format : findByType LedgerFormats ltESCROW = Some escrow_template.
Proof. vm_compute. reflexivity. Qed.

Lemma fits_amount : fits AmountC escrow_template sfAmount = true.
Proof. vm_compute. reflexivity. Qed.

Definition escrow_amount (x : SLE STObject) : STAmount := val AmountC (sle_body x) sfAmount.

Ltac abs_simpl := cbn [ab_core ab_rest ab_saved ab_dirty with_core with_saved with_dirty].

Section EscrowLaws.
Context `{Hash : Sha512} `{Hash256 : Sha256}.
Local Abbreviation akey id := (kl_key (kl_account id)).

(** ** Single steps *)

Lemma cspec_modify_balance tot op h x b a (Q : unit → vabs → Prop) :
  ab_core a !! h = Some x → entry account_template (sle_body x) → op (balance x) = Ret b →
  Q tt (with_dirty ({[h]} ∪ ab_dirty a) (with_core (<[h := with_balance b x]> (ab_core a)) a)) →
  cspec tot (modify_amount op h sfBalance) a Q.
Proof.
  intros Hx He Hop HQ. unfold modify_amount. apply cspec_bind, (cspec_load _ _ x); [done|].
  apply cspec_bind, (cspec_from _ _ (balance x)).
  { apply (proxy_value_val AmountC account_template); [done|apply fits_balance|by apply present_balance]. }
  apply cspec_bind, (cspec_from _ _ b); [done|].
  apply cspec_bind, (cspec_from _ _ (set AmountC sfBalance b (sle_body x))).
  { apply (proxy_assign_set AmountC account_template); [done|apply fits_balance|done|done]. }
  apply (cspec_store _ _ _ x _ _ ({[h]} ∪ ab_dirty a)); [done|by right|done].
Qed.

Lemma cspec_peek_deref_any {A} id a (f : Z → view_prog A) (Q : A → vabs → Prop) :
  (∀ y, root (ab_core a) id y → cspec false (f (akey id)) a Q) → cspec false (peek_deref (kl_account id) ≫= f) a Q.
Proof.
  intros HQ. destruct (lookup_kl (ab_core a) (kl_account id)) as [y|] eqn:E.
  - apply lookup_root in E. apply (cspec_peek_deref_root _ _ y); [done|]. by eapply HQ.
  - apply cspec_bind. unfold peek_deref, peek_or. apply cspec_bind, cspec_peek; [done|done|]. rewrite E. by apply cspec_fail.
Qed.

Lemma held_count n x :
  sle_type x = ltACCOUNT_ROOT → entry account_template (sle_body x) → held (count_adjusted n x) = held x.
Proof.
  intros Ht He. apply (held_set U32 account_template); [by rewrite Ht, account_format|done|apply fits_ownerCount|].
  rewrite Ht. done.
Qed.

(** An escrow of so many drops. *)
Definition escrow_of (v : Z) (e : SLE STObject) : Prop :=
  sle_type e = ltESCROW ∧ entry escrow_template (sle_body e) ∧ drops_of (escrow_amount e) v.

Lemma present_amount o : entry escrow_template o → present o sfAmount = true.
Proof.
  intros He. apply (required_present _ _ _ He). exists (required sfAmount). split; [|done]. apply list_elem_of_In. cbn. tauto.
Qed.

Lemma held_escrow v e : escrow_of v e → held e = v.
Proof.
  intros (Ht & He & Hn & <-). unfold held, entry_drops. rewrite Ht. change (ltESCROW =? ltACCOUNT_ROOT) with false.
  change (ltESCROW =? ltPAYCHAN) with false. rewrite Z.eqb_refl. cbv iota.
  rewrite (get_at_val AmountC _ _ _ He fits_amount (present_amount _ He)). cbn [mbind outcome_bind].
  fold (escrow_amount e). by rewrite xrp_drops by apply Hn.
Qed.

(** The amount of an escrow of a sound ledger. *)
Lemma sound_escrow c k x :
  sound c → c !! k = Some x → sle_type x = ltESCROW →
  escrow_of (held x) x ∧ 0 ≤ held x ∧ proxy_value AmountC (sle_body x) sfAmount = Ret (escrow_amount x).
Proof.
  intros Hs Hx Ht. assert (He : entry escrow_template (sle_body x)).
  { eapply wf_body; [apply Hs|done|]. rewrite Ht. apply escrow_format. }
  pose proof (proj1 (proj2 (sound_native c Hs k x Hx)) Ht) as Hn.
  assert (Ho : escrow_of (drops_view (escrow_amount x)) x) by done.
  split_and!; [by rewrite (held_escrow _ _ Ho)|by apply (sound_held c Hs k)|].
  apply (proxy_value_val AmountC escrow_template); [done|apply fits_amount|by apply present_amount].
Qed.

(** ** Creating *)

(** Assignments to fields other than the amount. *)
Definition other_field {V} (C : STClass V) (f : SField) : bool :=
  fits C escrow_template f && negb (fieldCode f =? fieldCode sfAmount) &&
  negb (bool_decide (style escrow_template f = None)) && negb (bool_decide (style escrow_template f = Some SOE_DEFAULT)).

Lemma other_field_spec {V} (C : STClass V) f :
  other_field C f = true → fits C escrow_template f = true ∧ fieldCode f ≠ fieldCode sfAmount ∧
    style escrow_template f ≠ None ∧ style escrow_template f ≠ Some SOE_DEFAULT.
Proof.
  unfold other_field. rewrite !andb_true_iff, !negb_true_iff, Z.eqb_neq, !bool_decide_eq_false. tauto.
Qed.

Lemma assign_other {V} (C : STClass V) `{!LawfulClass C} `{EqDecision V} f v o o' a :
  other_field C f = true → entry escrow_template o → val AmountC o sfAmount = a → proxy_assign C f v o = Ret o' →
  entry escrow_template o' ∧ val AmountC o' sfAmount = a.
Proof.
  intros (Hf & Hne & Hs1 & Hs2)%other_field_spec He Ha.
  rewrite (proxy_assign_set C escrow_template) by done. intros [= <-].
  split; [by apply (set_entry C)|]. rewrite <- Ha. by apply (val_set_ne C AmountC escrow_template).
Qed.

Lemma copy_other {V} (C : STClass V) `{!LawfulClass C} `{EqDecision V} f tx o o' a :
  other_field C f = true → style escrow_template f = Some SOE_OPTIONAL → entry escrow_template o →
  val AmountC o sfAmount = a → copy_optional C f tx o = Ret o' →
  entry escrow_template o' ∧ val AmountC o' sfAmount = a.
Proof.
  intros Hof Hst He Ha. unfold copy_optional, proxy_assign_optional. destruct (get_optional C tx f) as [v|]; [by eapply assign_other|].
  pose proof (other_field_spec C f Hof) as (Hf & Hne & _). pose proof (fits_spec C _ f Hf) as (Hin & _).
  unfold proxy_disengage. rewrite (entry_style _ _ _ He Hin). cbn [mbind outcome_bind]. rewrite Hst.
  rewrite (proj1 (unset_map _ _ _ He Hin)). intros [= <-]. split.
  - apply unset_entry; [done|done| |done]. apply (bool_decide_unpack (NoDup _)). vm_compute. exact I.
  - rewrite (val_unset AmountC _ _ _ _ He Hin), (proj2 (Z.eqb_neq _ _)) by done. done.
Qed.

Ltac keep_amount amount E := lazymatch type of E with
  | proxy_assign ?C ?f ?v ?o = Ret ?o' =>
    destruct (assign_other C f v o o' amount ltac:(vm_compute; reflexivity) ltac:(eassumption) ltac:(eassumption) E) as [? ?]
  | copy_optional ?C ?f ?tx ?o = Ret ?o' =>
    destruct (copy_other C f tx o o' amount ltac:(vm_compute; reflexivity) ltac:(vm_compute; reflexivity)
      ltac:(eassumption) ltac:(eassumption) E) as [? ?]
  | _ => idtac
  end.

(** The fields of a new escrow. *)
Lemma escrow_fields_spec tx account amount v o o' :
  get_at AmountC tx sfAmount = Ret amount → drops_of amount v → entry escrow_template o →
  escrow_fields tx account o = Ret o' → entry escrow_template o' ∧ val AmountC o' sfAmount = amount.
Proof.
  intros Hat Hd He. unfold escrow_fields. rewrite Hat. cbn [mbind outcome_bind].
  rewrite (proxy_assign_set AmountC escrow_template) by (done || apply fits_amount). cbn [mbind outcome_bind].
  assert (H : ∃ o1, set AmountC sfAmount amount o = o1 ∧ entry escrow_template o1 ∧ val AmountC o1 sfAmount = amount).
  { eexists. split; [done|]. split; [by apply (set_entry AmountC), fits_amount|by apply (val_set AmountC escrow_template), fits_amount]. }
  destruct H as (o1 & -> & He1 & Ha1).
  repeat match goal with
  | |- (?m ≫= _) = Ret _ → _ => let E := fresh "E" in destruct m eqn:E; cbn [mbind outcome_bind]; [keep_amount amount E|done]
  end.
  intros Hend. keep_amount amount Hend. done.
Qed.

(** The new entry, whatever its directories have put into it. *)
Lemma cspec_insert_escrow k tx account amount v a (Q : Z → vabs → Prop) :
  kl_type k = ltESCROW → get_at AmountC tx sfAmount = Ret amount → drops_of amount v →
  (∀ e a', ab_core a !! kl_key k = None → escrow_of v e → ab_core a' = <[kl_key k := e]> (ab_core a) →
     kl_key k ∈ ab_saved a' → Q (kl_key k) a') →
  cspec false (insert_new k (escrow_fields tx account)) a Q.
Proof.
  intros Hk Hat Hd HQ. unfold insert_new. destruct (make_SLE_new k escrow_template) as (Hnew & o & _ & _ & _ & _).
  { by rewrite Hk, escrow_format. }
  apply cspec_bind, (cspec_from _ _ _ _ _ Hnew). cbn [sle_body]. rewrite Hk.
  apply cspec_bind, cspec_from_any; [done|]. intros o' Ho'.
  eapply escrow_fields_spec in Ho' as [He Ha]; [|done|done|apply new_entry, escrow_format].
  apply cspec_bind, cspec_insert; [done|done|]. cbn [sle_key set_body]. intros Hnone. apply cspec_ret.
  eapply HQ; [done| |reflexivity|abs_simpl; set_solver]. split_and!; [done|done|]. unfold escrow_amount. cbn. by rewrite Ha.
Qed.

Lemma cspec_add_to_dir info account slep f v e a (Q : bool → vabs → Prop) :
  other_field U64 f = true → ab_core a !! slep = Some e → escrow_of v e → slep ∈ ab_saved a →
  (∀ b e' a', escrow_of v e' → ab_core a' = <[slep := e']> (ab_core a) → slep ∈ ab_saved a' → Q b a') →
  cspec false (add_to_dir info account slep f) a Q.
Proof.
  intros Hf He Hv Hsv HQ. unfold add_to_dir, owner_dirAdd.
  apply cspec_bind, cspec_confined_partial; [done|]. apply confined_view_dirAdd; [done|done|]. intros r P' S' _ HS n.
  destruct r as [page|]; [|apply cspec_ret, (HQ false e); [done|abs_simpl; by rewrite insert_id|set_solver]].
  apply cspec_bind. unfold describe_at. apply cspec_bind, (cspec_load _ _ e); [done|].
  apply cspec_bind, cspec_from_any; [done|]. intros o Ho. destruct Hv as (Ht & Hent & Hd).
  eapply (assign_other U64) in Ho as [Ho Ha]; [|done|done|reflexivity].
  apply (cspec_store _ _ _ e _ _ (ab_dirty a)); [done|left; abs_simpl; set_solver|]. abs_simpl.
  apply cspec_ret, (HQ true (set_body e o)); [|done|set_solver]. split_and!; [done|done|]. unfold escrow_amount. cbn. by rewrite Ha.
Qed.

(** ** Cancelling *)

(** The escrow is gone and the account has what it held. *)
Definition released (c c' : entries) (key id : Z) (x : SLE STObject) : Prop :=
  c !! key = Some x ∧ c' !! key = None ∧ xrp_total c' = xrp_total c ∧
  heldo (c' !! akey id) = heldo (c !! akey id) + held x.

Lemma cspec_refund tot slep account x y a (Q : TER → vabs → Prop) :
  sound (ab_core a) → ab_core a !! slep = Some x → sle_type x = ltESCROW → root (ab_core a) account y →
  (∀ a', released (ab_core a) (ab_core a') slep account x → Q tesSUCCESS a') →
  cspec tot (refund_escrow slep account (sle_body x)) a Q.
Proof.
  intros Hs Hx Ht Hy HQ. pose proof (root_entry _ _ _ (sound_wf _ Hs) Hy) as Hey. pose proof Hy as [Hyk Hyt].
  destruct (sound_escrow _ _ _ Hs Hx Ht) as ((_ & Hex & Hd) & Hd0 & Hamt).
  destruct (sound_root _ _ _ Hs Hy) as (dy & Hdy & Hhy & Hdy0).
  assert (Hne : slep ≠ akey account) by (intros ->; rewrite Hyk in Hx; injection Hx as ->; by rewrite Ht in Hyt).
  pose proof (held_le_two _ _ _ _ _ (sound_held _ Hs) Hx Hyk Hne) as Hle. pose proof (sound_max _ Hs) as Hmax.
  destruct (drops_of_add (balance y) (escrow_amount x) dy (held x) Hdy Hd) as (b & Hb & Hbd); [lia|].
  assert (Hey' : entry account_template (sle_body (with_balance b y))).
  { apply (set_entry AmountC); [done|apply fits_balance]. }
  unfold refund_escrow. apply (cspec_peek_deref_root _ _ y); [done|].
  apply cspec_bind, (cspec_from _ _ (escrow_amount x)); [done|].
  apply cspec_bind, (cspec_modify_balance _ _ _ y b); [done|done|done|].
  apply cspec_bind, (cspec_adjustOwnerCount _ _ _ (with_balance b y)); abs_simpl; [by rewrite lookup_insert_eq|done|].
  rewrite insert_insert_eq. set (y' := count_adjusted (-1) (with_balance b y)).
  apply cspec_bind, (cspec_update _ _ y' _ _ ({[akey account]} ∪ ab_dirty a)); abs_simpl; [by rewrite lookup_insert_eq|set_solver|].
  apply cspec_bind, (cspec_erase _ _ x); abs_simpl; [by rewrite lookup_insert_ne|]. apply cspec_ret, HQ. abs_simpl.
  assert (Hh : held y' = dy + held x).
  { unfold y'. rewrite held_count by done. by apply held_with_balance. }
  split_and!; [done|by rewrite lookup_delete_eq| |].
  - rewrite xrp_total_delete, lookup_insert_ne, Hx, xrp_total_insert, Hyk by done. cbn [heldo]. lia.
  - rewrite lookup_delete_ne, lookup_insert_eq, Hyk by done. cbn [heldo]. lia.
Qed.

(** ** Finishing *)

Lemma cspec_pay slep dst account x y a (Q : TER → vabs → Prop) :
  sound (ab_core a) → ab_core a !! slep = Some x → sle_type x = ltESCROW → root (ab_core a) dst y →
  (∀ a', released (ab_core a) (ab_core a') slep dst x → Q tesSUCCESS a') →
  cspec false (pay_escrow slep (akey dst) account (sle_body x)) a Q.
Proof.
  intros Hs Hx Ht Hy HQ. pose proof (root_entry _ _ _ (sound_wf _ Hs) Hy) as Hey. pose proof Hy as [Hyk Hyt].
  destruct (sound_escrow _ _ _ Hs Hx Ht) as ((_ & Hex & Hd) & Hd0 & Hamt).
  destruct (sound_root _ _ _ Hs Hy) as (dy & Hdy & Hhy & Hdy0).
  assert (Hne : ∀ id z, root (ab_core a) id z → slep ≠ akey id).
  { intros id z [Hz Hzt] ->. rewrite Hz in Hx. injection Hx as ->. by rewrite Ht in Hzt. }
  pose proof (Hne _ _ Hy) as Hned.
  pose proof (held_le_two _ _ _ _ _ (sound_held _ Hs) Hx Hyk Hned) as Hle. pose proof (sound_max _ Hs) as Hmax.
  destruct (drops_of_add (balance y) (escrow_amount x) dy (held x) Hdy Hd) as (b & Hb & Hbd); [lia|].
  set (y' := with_balance b y). set (c1 := <[akey dst := y']> (ab_core a)).
  assert (Hhy' : held y' = dy + held x) by (by apply held_with_balance).
  assert (Hw1 : wf c1).
  { apply (wf_set _ _ _ account_template); [apply Hs|done|by rewrite Hyt, account_format|].
    apply (set_entry AmountC); [done|apply fits_balance]. }
  unfold pay_escrow. apply cspec_bind, (cspec_from _ _ (escrow_amount x)); [done|].
  apply cspec_bind, (cspec_modify_balance _ _ _ y b); [done|done|done|].
  apply cspec_bind, (cspec_update _ _ y' _ _ ({[akey dst]} ∪ ab_dirty a)); abs_simpl; [by rewrite lookup_insert_eq|set_solver|].
  apply cspec_peek_deref_any; abs_simpl. fold y'. fold c1. intros z Hz. pose proof (root_entry _ _ _ Hw1 Hz) as Hez.
  apply cspec_bind, (cspec_adjustOwnerCount _ _ _ z); abs_simpl; [apply Hz|done|].
  set (z' := count_adjusted (-1) z). assert (Hhz : held z' = held z) by (apply held_count; [apply Hz|done]).
  apply cspec_bind, (cspec_update _ _ z' _ _ ({[akey dst]} ∪ ab_dirty a)); abs_simpl; [by rewrite lookup_insert_eq|set_solver|].
  destruct Hz as [Hz Hzt].
  assert (Hnea : slep ≠ akey account).
  { intros Heq. rewrite <- Heq in Hz. unfold c1 in Hz. rewrite lookup_insert_ne, Hx in Hz by done. injection Hz as ->.
    by rewrite Ht in Hzt. }
  assert (Hx1 : <[akey account := z']> c1 !! slep = Some x) by (unfold c1; by rewrite !lookup_insert_ne).
  apply cspec_bind, (cspec_erase _ _ x); abs_simpl; [done|]. apply cspec_ret, HQ. abs_simpl.
  split_and!; [done|by rewrite lookup_delete_eq| |].
  - rewrite xrp_total_delete, Hx1, xrp_total_insert, Hz. unfold c1. rewrite xrp_total_insert, Hyk. cbn [heldo]. lia.
  - rewrite lookup_delete_ne, Hyk by done. cbn [heldo]. destruct (decide (akey account = akey dst)) as [E|E].
    + rewrite E, lookup_insert_eq. cbn [heldo]. unfold c1 in Hz. rewrite E, lookup_insert_eq in Hz. injection Hz as <-. lia.
    + rewrite lookup_insert_ne by done. unfold c1. rewrite lookup_insert_eq. cbn [heldo]. lia.
Qed.

Lemma cspec_remove_escrow info o key account a (Q : bool → vabs → Prop) :
  (∀ b n S D, Q b (mkAbs (ab_core a) n S D)) → cspec false (remove_escrow info o key account) a Q.
Proof.
  intros HQ. unfold remove_escrow, remove_owned. apply cspec_bind, cspec_from_any; [done|]. intros page _.
  apply cspec_bind, cspec_confined_partial; [done|]. apply confined_dirRemove; [done|]. intros b P' S' _ n.
  destruct b; cbn [negb]; [|apply cspec_ret; by apply HQ].
  apply cspec_bind, cspec_from_any; [done|]. intros [node|] _; [|apply cspec_ret; by apply HQ].
  destruct (enabled _ fix1523); [|apply cspec_ret; by apply HQ].
  apply cspec_bind, cspec_from_any; [done|]. intros dest _.
  apply cspec_confined_partial; [done|]. apply confined_dirRemove; [done|]. intros b2 P2 S2 _ n2. apply HQ.
Qed.

(** What a successful transaction has done. *)
Definition finished (c : entries) (a : ApplyArgs) (c' : entries) : Prop :=
  ∃ owner seq dst x, get_at AccountID (tx_obj (cx_tx a)) sfOwner = Ret owner ∧
    get_at U32 (tx_obj (cx_tx a)) sfOfferSequence = Ret seq ∧
    proxy_value AccountID (sle_body x) sfDestination = Ret dst ∧
    released c c' (kl_key (kl_escrow owner seq)) dst x.

Definition cancelled (c : entries) (a : ApplyArgs) (c' : entries) : Prop :=
  ∃ owner seq account x, get_at AccountID (tx_obj (cx_tx a)) sfOwner = Ret owner ∧
    get_at U32 (tx_obj (cx_tx a)) sfOfferSequence = Ret seq ∧
    proxy_value AccountID (sle_body x) sfAccount = Ret account ∧
    released c c' (kl_key (kl_escrow owner seq)) account x.

Lemma lookup_escrow (c : entries) k x :
  lookup_kl c k = Some x → kl_type k = ltESCROW → c !! kl_key k = Some x ∧ sle_type x = ltESCROW.
Proof.
  unfold lookup_kl, check. intros Hl Ht. rewrite Ht in Hl. destruct (c !! kl_key k) as [y|]; [|done].
  change (ltESCROW =? ltANY) with false in Hl. change (ltESCROW =? ltINVALID) with false in Hl.
  change (ltESCROW =? ltCHILD) with false in Hl. cbv iota in Hl. destruct (Z.eqb_spec (sle_type y) ltESCROW); [|done].
  by injection Hl as ->.
Qed.

Lemma cancel_spec args a :
  sound (ab_core a) →
  cspec false (EscrowCancel_doApply args) a (λ r a', r = tesSUCCESS → cancelled (ab_core a) args (ab_core a')).
Proof.
  intros Hs. unfold EscrowCancel_doApply.
  apply cspec_bind, cspec_from_any; [done|]. intros owner Ho. apply cspec_bind, cspec_from_any; [done|]. intros seq Hq.
  apply cspec_bind, cspec_peek; [done|done|]. destruct (lookup_kl (ab_core a) _) as [x|] eqn:Ex; cbn [fmap option_fmap option_map];
    [|by apply cspec_ret].
  apply lookup_escrow in Ex as [Hx Ht]; [|done]. apply cspec_bind, (cspec_load _ _ x); [done|].
  apply cspec_bind, cspec_from_any; [done|]. intros ca _. destruct (cancel_refused _ _ ca); [by apply cspec_ret|].
  apply cspec_bind, cspec_from_any; [done|]. intros account Ha. apply cspec_bind, cspec_remove_escrow. intros b n S D.
  destruct b; cbn [negb]; [|by apply cspec_ret].
  destruct (lookup_kl (ab_core a) (kl_account account)) as [y|] eqn:Ey.
  - apply lookup_root in Ey. apply (cspec_refund _ _ _ x y); [done|done|done|done|]. intros a' Hr _. by exists owner, seq, account, x.
  - unfold refund_escrow. apply cspec_peek_deref_any. intros y Hy%lookup_root. cbn in Hy. congruence.
Qed.

Lemma finish_spec args router a :
  sound (ab_core a) →
  cspec false (EscrowFinish_doApply args router) a (λ r a', r.1 = tesSUCCESS → finished (ab_core a) args (ab_core a')).
Proof.
  intros Hs. unfold EscrowFinish_doApply.
  apply cspec_bind, cspec_from_any; [done|]. intros owner Ho. apply cspec_bind, cspec_from_any; [done|]. intros seq Hq.
  apply cspec_bind, cspec_peek; [done|done|]. destruct (lookup_kl (ab_core a) _) as [x|] eqn:Ex; cbn [fmap option_fmap option_map];
    [|by apply cspec_ret].
  apply lookup_escrow in Ex as [Hx Ht]; [|done]. apply cspec_bind, (cspec_load _ _ x); [done|].
  apply cspec_bind, cspec_from_any; [done|]. intros fa _. apply cspec_bind, cspec_from_any; [done|]. intros ca _.
  destruct (finish_refused _ _ fa ca); [by apply cspec_ret|].
  destruct (condition_flags _ _ _) as [[flags|] router']; [|by apply cspec_ret].
  apply cspec_bind, cspec_from_any; [done|]. intros cond _. destruct (condition_refused _ _ _); [by apply cspec_ret|].
  apply cspec_bind, cspec_from_any; [done|]. intros dst Hd. apply cspec_bind, cspec_peek; [done|done|].
  destruct (lookup_kl (ab_core a) (kl_account dst)) as [y|] eqn:Ey; cbn [fmap option_fmap option_map]; [|by apply cspec_ret].
  apply lookup_root in Ey. apply cspec_bind, (cspec_load _ _ y); [apply Ey|].
  apply cspec_bind. unfold deposit_refused.
  assert (Hrest : cspec false (account ← from (proxy_value AccountID (sle_body x) sfAccount);
    ok ← remove_escrow (cx_info args) (sle_body x) (kl_key (kl_escrow owner seq)) account;
    if negb ok then mret (tefBAD_LEDGER, router') else
    r ← pay_escrow (kl_key (kl_escrow owner seq)) (akey dst) account (sle_body x); mret (r, router')) a
    (λ r a', r.1 = tesSUCCESS → finished (ab_core a) args (ab_core a'))).
  { apply cspec_bind, cspec_from_any; [done|]. intros account _. apply cspec_bind, cspec_remove_escrow. intros b n S D.
    destruct b; cbn [negb]; [|by apply cspec_ret]. apply cspec_bind, (cspec_pay _ _ _ x y); [done|done|done|done|].
    intros a' Hr. apply cspec_ret. intros _. by exists owner, seq, dst, x. }
  destruct (_ && negb _); [|by apply cspec_ret]. apply cspec_bind, cspec_read; [done|done|]. apply cspec_ret.
  case_bool_decide; [by apply cspec_ret|done].
Qed.

(** A successful creation: the amount has gone from the account to a new escrow. *)
Definition created (c : entries) (a : ApplyArgs) (v : Z) (c' : entries) : Prop :=
  ∃ account key e, get_at AccountID (tx_obj (cx_tx a)) sfAccount = Ret account ∧
    c !! key = None ∧ c' !! key = Some e ∧ escrow_of v e ∧ xrp_total c' = xrp_total c ∧
    heldo (c' !! akey account) = heldo (c !! akey account) - v.

Lemma charge_account account key amount v x e a c (Q : TER → vabs → Prop) :
  sound c → root c account x → c !! key = None → drops_of amount v → 0 ≤ v → escrow_of v e → ab_core a = <[key := e]> c →
  (∀ a', ab_core a' !! key = Some e → xrp_total (ab_core a') = xrp_total c →
    heldo (ab_core a' !! akey account) = heldo (c !! akey account) - v → Q tesSUCCESS a') →
  cspec false (modify_amount (λ b, st_sub b amount) (akey account) sfBalance ;;
    adjustOwnerCount (akey account) 1 ;; update (akey account) ;; mret tesSUCCESS) a Q.
Proof.
  intros Hs Hx Hk Hv Hv0 He Hc HQ. pose proof (root_entry _ _ _ (sound_wf _ Hs) Hx) as Hex. pose proof Hx as [Hxk Hxt].
  destruct (sound_root _ _ _ Hs Hx) as (dx & Hdx & Hhx & Hdx0). pose proof (drops_of_bound _ _ Hdx). pose proof (drops_of_bound _ _ Hv).
  destruct (drops_of_sub (balance x) amount dx v Hdx Hv) as (b & Hb & Hbd); [lia|].
  assert (Hne : key ≠ akey account) by congruence.
  assert (Hex' : entry account_template (sle_body (with_balance b x))).
  { apply (set_entry AmountC); [done|apply fits_balance]. }
  apply cspec_bind, (cspec_modify_balance _ _ _ x b); [by rewrite Hc, lookup_insert_ne|done|done|].
  apply cspec_bind, (cspec_adjustOwnerCount _ _ _ (with_balance b x)); abs_simpl; [by rewrite lookup_insert_eq|done|].
  rewrite insert_insert_eq. set (x' := count_adjusted 1 (with_balance b x)).
  apply cspec_bind, (cspec_update _ _ x' _ _ ({[akey account]} ∪ ab_dirty a)); abs_simpl; [by rewrite lookup_insert_eq|set_solver|].
  assert (Hh : held x' = dx - v) by (unfold x'; rewrite held_count by done; by apply held_with_balance).
  apply cspec_ret, HQ; abs_simpl; rewrite Hc.
  - by rewrite lookup_insert_ne, lookup_insert_eq.
  - rewrite xrp_total_insert, lookup_insert_ne, xrp_total_insert, Hk, Hxk by done. cbn [heldo]. rewrite (held_escrow v) by done. lia.
  - rewrite lookup_insert_eq, Hxk. cbn [heldo]. lia.
Qed.

Lemma create_spec (args : ApplyArgs) amount v a :
  sound (ab_core a) → get_at AmountC (tx_obj (cx_tx args)) sfAmount = Ret amount → drops_of amount v → 0 ≤ v →
  cspec false (EscrowCreate_doApply args) a (λ r a', r = tesSUCCESS → created (ab_core a) args v (ab_core a')).
Proof.
  intros Hs Hat Hv Hv0. unfold EscrowCreate_doApply. destruct (create_too_late _ _ _); [by apply cspec_ret|].
  apply cspec_bind, cspec_from_any; [done|]. intros account Ha. apply cspec_peek_deref_any. intros x Hx.
  apply cspec_bind, (cspec_load _ _ x); [apply Hx|]. apply cspec_bind, cspec_from_any; [done|]. intros ter1 _.
  destruct (Z.eqb_spec ter1 tesSUCCESS) as [_|]; cbn [negb]; [|by apply cspec_ret].
  apply cspec_bind, cspec_from_any; [done|]. intros dest _. apply cspec_bind, cspec_read; [done|done|].
  apply cspec_bind, cspec_from_any; [done|]. intros ter2 _. destruct (Z.eqb_spec ter2 tesSUCCESS) as [_|]; cbn [negb]; [|by apply cspec_ret].
  apply cspec_bind, cspec_from_any; [done|]. intros seq _. set (k := kl_escrow account (u32 (seq - 1))).
  apply cspec_bind, (cspec_insert_escrow _ _ _ amount v); [done|done|done|]. intros e1 a1 Hk He1 Hc1 Hs1.
  apply cspec_bind, (cspec_add_to_dir _ _ _ _ v e1); [vm_compute; reflexivity|by rewrite Hc1, lookup_insert_eq|done|done|].
  intros b1 e2 a2 He2 Hc2 Hs2. rewrite Hc1, insert_insert_eq in Hc2. destruct b1; cbn [negb]; [|by apply cspec_ret].
  assert (Hlast : ∀ e a', escrow_of v e → ab_core a' = <[kl_key k := e]> (ab_core a) →
    cspec false (amount ← from (get_at AmountC (tx_obj (cx_tx args)) sfAmount);
      modify_amount (λ v, st_sub v amount) (akey account) sfBalance ;; adjustOwnerCount (akey account) 1 ;;
      update (akey account) ;; mret tesSUCCESS) a' (λ r a', r = tesSUCCESS → created (ab_core a) args v (ab_core a'))).
  { intros e a' He Hc. apply cspec_bind, (cspec_from _ _ amount); [done|].
    apply (charge_account _ (kl_key k) _ v x e _ (ab_core a)); try done. intros a'' H1 H2 H3 _. by exists account, (kl_key k), e. }
  destruct (_ && _).
  - apply cspec_bind, (cspec_add_to_dir _ _ _ _ v e2); [vm_compute; reflexivity|by rewrite Hc2, lookup_insert_eq|done|done|].
    intros b3 e3 a3 He3 Hc3 _. rewrite Hc2, insert_insert_eq in Hc3. destruct b3; cbn [negb]; [by eapply Hlast|by apply cspec_ret].
  - apply cspec_bind, cspec_ret. cbn [negb]. by eapply Hlast.
Qed.

Lemma cspec_run {A} (p : view_prog A) s r s' (R : A → entries → Prop) :
  (∀ a, ab_core a = core (vs_map s) → cspec false p a (λ r a', R r (ab_core a'))) →
  run p s = Ret (r, s') → R r (core (vs_map s')).
Proof.
  intros H Hr. specialize (H (mkAbs (core (vs_map s)) (rest (vs_map s)) ∅ (vs_dirty s)) eq_refl s ltac:(by split)).
  rewrite Hr in H. destruct H as (a' & Ha' & HR). by rewrite (abs_core _ _ Ha').
Qed.
(** ** Cancelling succeeds *)

(** The entry is on the page of the directory that it says it is on. *)
Definition listed (R : Keylet) (m : entries) (n k : Z) : Prop :=
  page_no n ∧ ∃ l es, directory R m l ∧ page_of n l = Some es ∧ k ∈ es.

Definition apart (R R' : Keylet) : Prop :=
  ∀ i j, page_no i → page_no j → getDirNodeIndex (kl_key R) i ≠ getDirNodeIndex (kl_key R') j.

Lemma wp_dirRemove_listed R n k keep s (Q : bool → vstate STObject → Prop) :
  pages_distinct R → listed R (vs_map s) n k →
  (∀ s', core (vs_map s') = core (vs_map s) → touches R s s' → Q true s') → wp (dirRemove R n k keep) Q s.
Proof.
  intros Hinj (Hn & l & es & Hdir & Hpage & Hk) HQ. pose proof (directory_ok _ _ _ Hdir) as Hok.
  destruct (dirRemove_refines R Hinj s keep n k l s Hok Hn (directory_linked R s l Hdir)) as (b & s' & Hrun & Hb & Hl).
  destruct (dir_remove keep n k l) as [b' l'] eqn:E. cbn [fst snd] in *. subst b'.
  destruct (dir_remove_spec keep n k l b l' Hok E) as (Hok' & _ & Hbt & _).
  destruct (linked_directory R s l' s' Hok' Hl) as [_ Hto]. exists b, s'. split; [done|].
  assert (b = true) as -> by (apply Hbt; eauto). apply HQ; [|done].
  refine (cspec_run _ s _ s' (λ _ c', c' = core (vs_map s)) _ Hrun). intros a Ha.
  apply cspec_confined_partial; [done|]. by apply confined_dirRemove.
Qed.

Lemma listed_apart R R' s s' n k :
  apart R R' → touches R s s' → listed R' (vs_map s) n k → listed R' (vs_map s') n k.
Proof.
  intros Ha Ht (Hn & l & es & [Hok Hp Hnone] & Hes). split; [done|]. exists l, es. split; [|done].
  assert (Hf : ∀ j, page_no j → vs_map s' !! DirectoryCorrect.key R' j = vs_map s !! DirectoryCorrect.key R' j).
  { intros j Hj. apply (touches_frame _ _ _ Ht). intros i Hi. by apply not_eq_sym, Ha. }
  split; [done| |].
  - intros j p Hj. rewrite Hf; [by apply Hp|]. eapply dir_page_no; [done|]. by eapply pages_Some.
  - intros j Hj Hnin. rewrite Hf by done. by apply Hnone.
Qed.

(** An escrow that is listed in the directories it names. *)
Record escrow_listed (m : entries) (x : SLE STObject) (key account : Z) : Prop := mkListed {
  el_account : proxy_value AccountID (sle_body x) sfAccount = Ret account;
  el_owner : ∃ n, proxy_value U64 (sle_body x) sfOwnerNode = Ret n ∧ listed (kl_ownerDir account) m n key;
  el_dest : proxy_optional U64 (sle_body x) sfDestinationNode = Ret None ∨
    ∃ n dest, proxy_optional U64 (sle_body x) sfDestinationNode = Ret (Some n) ∧
      proxy_value AccountID (sle_body x) sfDestination = Ret dest ∧
      apart (kl_ownerDir account) (kl_ownerDir dest) ∧ listed (kl_ownerDir dest) m n key }.

Lemma wp_remove_escrow info x key account s (Q : bool → vstate STObject → Prop) :
  (∀ id, pages_distinct (kl_ownerDir id)) → escrow_listed (vs_map s) x key account →
  (∀ s', core (vs_map s') = core (vs_map s) → Q true s') → wp (remove_escrow info (sle_body x) key account) Q s.
Proof.
  intros Hinj [Ha (n & Hn & Hl) Hd] HQ. unfold remove_escrow, remove_owned. apply wp_bind, (wp_from _ n); [done|].
  apply wp_bind, wp_dirRemove_listed; [done|done|]. intros s1 Hc1 Ht1. cbn [negb].
  destruct Hd as [Hd|(n2 & dest & Hd & Hdest & Hap & Hl2)]; (apply wp_bind; eapply wp_from; [exact Hd|]).
  - by apply wp_ret, HQ.
  - destruct (enabled _ fix1523); [|by apply wp_ret, HQ]. apply wp_bind, (wp_from _ dest); [done|].
    apply wp_dirRemove_listed; [done|by eapply listed_apart|]. intros s2 Hc2 _. apply HQ. congruence.
Qed.

Lemma cancel_early (args : ApplyArgs) s owner seq c x :
  enabled (v_rules (cx_info args)) fix1571 = true → v_parentCloseTime (cx_info args) ≤ c →
  get_at AccountID (tx_obj (cx_tx args)) sfOwner = Ret owner → get_at U32 (tx_obj (cx_tx args)) sfOfferSequence = Ret seq →
  lookup_kl (vs_map s) (kl_escrow owner seq) = Some x → vs_map s !! kl_key (kl_escrow owner seq) = Some x →
  proxy_optional U32 (sle_body x) sfCancelAfter = Ret (Some c) →
  run (EscrowCancel_doApply args) s = Ret (tecNO_PERMISSION, s).
Proof.
  intros Hfix Hge Ho Hq Hx Hxs Hc. unfold EscrowCancel_doApply. rewrite run_bind, Ho. cbn [run from].
  rewrite run_bind, Hq. cbn [run from]. rewrite run_bind. cbn [run peek]. rewrite Hx. cbn [fmap option_fmap option_map run].
  rewrite run_bind. cbn [run load]. rewrite Hxs, run_bind, Hc. cbn [run from].
  unfold cancel_refused, after. rewrite Hfix. destruct (Z.ltb_spec c (v_parentCloseTime (cx_info args))); [lia|done].
Qed.

Lemma finish_late (args : ApplyArgs) router s owner seq c x :
  enabled (v_rules (cx_info args)) fix1571 = true → c < v_parentCloseTime (cx_info args) →
  get_at AccountID (tx_obj (cx_tx args)) sfOwner = Ret owner → get_at U32 (tx_obj (cx_tx args)) sfOfferSequence = Ret seq →
  lookup_kl (vs_map s) (kl_escrow owner seq) = Some x → vs_map s !! kl_key (kl_escrow owner seq) = Some x →
  entry escrow_template (sle_body x) → proxy_optional U32 (sle_body x) sfCancelAfter = Ret (Some c) →
  run (EscrowFinish_doApply args router) s = Ret ((tecNO_PERMISSION, router), s).
Proof.
  intros Hfix Hlt Ho Hq Hx Hxs He Hc. unfold EscrowFinish_doApply. rewrite run_bind, Ho. cbn [run from].
  rewrite run_bind, Hq. cbn [run from]. rewrite run_bind. cbn [run peek]. rewrite Hx. cbn [fmap option_fmap option_map run].
  rewrite run_bind. cbn [run load]. rewrite Hxs, run_bind.
  rewrite (proxy_optional_val U32 escrow_template) by (done || (vm_compute; reflexivity)). cbn [run from].
  rewrite run_bind, Hc. cbn [run from]. unfold finish_refused, after. rewrite Hfix.
  rewrite (proj2 (Z.ltb_lt _ _) Hlt), orb_true_r. done.
Qed.

Lemma cspec_wp {A} (p : view_prog A) a s (Q : A → vabs → Prop) :
  cspec true p a Q → abs a s → wp p (λ r s', ∃ a', abs a' s' ∧ Q r a') s.
Proof.
  intros H Hs. specialize (H s Hs). destruct (run p s) as [[r s']|] eqn:E; [|done]. by exists r, s'.
Qed.


Lemma cancel_live (args : ApplyArgs) s owner seq account c x y :
  (∀ id, pages_distinct (kl_ownerDir id)) → sound (core (vs_map s)) →
  enabled (v_rules (cx_info args)) fix1571 = true → c < v_parentCloseTime (cx_info args) →
  get_at AccountID (tx_obj (cx_tx args)) sfOwner = Ret owner → get_at U32 (tx_obj (cx_tx args)) sfOfferSequence = Ret seq →
  lookup_kl (vs_map s) (kl_escrow owner seq) = Some x → core (vs_map s) !! kl_key (kl_escrow owner seq) = Some x →
  sle_type x = ltESCROW → root (core (vs_map s)) account y →
  escrow_listed (vs_map s) x (kl_key (kl_escrow owner seq)) account →
  proxy_optional U32 (sle_body x) sfCancelAfter = Ret (Some c) →
  ∃ s', run (EscrowCancel_doApply args) s = Ret (tesSUCCESS, s') ∧
    released (core (vs_map s)) (core (vs_map s')) (kl_key (kl_escrow owner seq)) account x.
Proof.
  intros Hinj Hs Hfix Hlt Ho Hq Hx Hxc Ht Hy Hl Hc.
  assert (H : wp (EscrowCancel_doApply args) (λ r s', r = tesSUCCESS ∧
    released (core (vs_map s)) (core (vs_map s')) (kl_key (kl_escrow owner seq)) account x) s).
  2: { destruct H as (r & s' & Hr & -> & Hrel). eauto. }
  unfold EscrowCancel_doApply. apply wp_bind, (wp_from _ owner); [done|]. apply wp_bind, (wp_from _ seq); [done|].
  apply wp_bind, wp_peek. rewrite Hx. cbn [fmap option_fmap option_map].
  apply wp_bind, (wp_load _ x); [by apply others_lookup in Hxc as [? _]|]. apply wp_bind, (wp_from _ (Some c)); [done|].
  unfold cancel_refused, after. rewrite Hfix, (proj2 (Z.ltb_lt _ _) Hlt). cbn [negb].
  apply wp_bind, (wp_from _ account); [apply Hl|]. apply wp_bind, wp_remove_escrow; [done|done|]. intros s1 Hc1. cbn [negb].
  set (a1 := mkAbs (core (vs_map s1)) (rest (vs_map s1)) ∅ (vs_dirty s1)).
  eapply wp_mono; [apply (cspec_wp _ a1); [|by split]|].
  - apply (cspec_refund _ _ _ x y _ (λ r a', r = tesSUCCESS ∧
      released (core (vs_map s)) (ab_core a') (kl_key (kl_escrow owner seq)) account x)); cbn; rewrite ?Hc1; try done.
  - intros r s' (a' & Ha' & -> & Hrel). by rewrite (abs_core _ _ Ha').
Qed.
End EscrowLaws.

(** C5: on a sound ledger, whatever its directories are like, a successful creation, finish or
    cancellation leaves the total of all XRP as it is: a creation moves the amount of the
    transaction from the account into a new escrow, finishing deletes the escrow and
    pays its destination what it held, cancelling deletes it and pays its account. *)
Theorem escrow_conserves `{Hash : Sha512} `{Hash256 : Sha256} (args : ApplyArgs) (router : HashRouter)
    (s : vstate STObject) (Hs : sound (core (vs_map s))) :
  (∀ amount v s', get_at AmountC (tx_obj (cx_tx args)) sfAmount = Ret amount → drops_of amount v → 0 ≤ v →
     run (EscrowCreate_doApply args) s = Ret (tesSUCCESS, s') →
     created (core (vs_map s)) args v (core (vs_map s'))) ∧
  (∀ router' s', run (EscrowFinish_doApply args router) s = Ret ((tesSUCCESS, router'), s') →
     finished (core (vs_map s)) args (core (vs_map s'))) ∧
  (∀ s', run (EscrowCancel_doApply args) s = Ret (tesSUCCESS, s') →
     cancelled (core (vs_map s)) args (core (vs_map s'))).
Proof.
  split_and!.
  - intros amount v s' Hat Hv Hv0 Hr.
    refine (cspec_run _ s _ s' (λ r c', r = tesSUCCESS → created (core (vs_map s)) args v c') _ Hr eq_refl).
    intros a Ha. rewrite <- Ha in *. by eapply create_spec.
  - intros router' s' Hr.
    refine (cspec_run _ s _ s' (λ r c', r.1 = tesSUCCESS → finished (core (vs_map s)) args c') _ Hr eq_refl).
    intros a Ha. rewrite <- Ha in *. by apply finish_spec.
  - intros s' Hr.
    refine (cspec_run _ s _ s' (λ r c', r = tesSUCCESS → cancelled (core (vs_map s)) args c') _ Hr eq_refl).
    intros a Ha. rewrite <- Ha in *. by apply cancel_spec.
Qed.

(** C12: with the amendment fix1571, an escrow with a time to cancel can be cancelled exactly
    when that time is over: before, the transaction is refused and nothing changes; after,
    it succeeds, whoever sends it, and the owner has the XRP back, while finishing is
    refused.  The escrow has to be listed in the directories it names, and their pages
    must not collide. *)
Theorem escrow_deadline `{Hash : Sha512} `{Hash256 : Sha256} (args : ApplyArgs) (router : HashRouter)
    (s : vstate STObject) (owner seq account c : Z) (x y : SLE STObject)
    (Hinj : ∀ id, pages_distinct (kl_ownerDir id)) (Hs : sound (core (vs_map s)))
    (Hfix : enabled (v_rules (cx_info args)) fix1571 = true)
    (Howner : get_at AccountID (tx_obj (cx_tx args)) sfOwner = Ret owner)
    (Hseq : get_at U32 (tx_obj (cx_tx args)) sfOfferSequence = Ret seq)
    (Hx : lookup_kl (vs_map s) (kl_escrow owner seq) = Some x)
    (Hy : root (core (vs_map s)) account y)
    (Hl : escrow_listed (vs_map s) x (kl_key (kl_escrow owner seq)) account)
    (Hc : proxy_optional U32 (sle_body x) sfCancelAfter = Ret (Some c)) :
  if c <? v_parentCloseTime (cx_info args) then
    (∃ s', run (EscrowCancel_doApply args) s = Ret (tesSUCCESS, s') ∧
       released (core (vs_map s)) (core (vs_map s')) (kl_key (kl_escrow owner seq)) account x) ∧
    run (EscrowFinish_doApply args router) s = Ret ((tecNO_PERMISSION, router), s)
  else run (EscrowCancel_doApply args) s = Ret (tecNO_PERMISSION, s).
Proof.
  assert (Hxc : core (vs_map s) !! kl_key (kl_escrow owner seq) = Some x ∧ sle_type x = ltESCROW).
  { apply lookup_escrow; [|done]. by rewrite <- lookup_core. }
  destruct Hxc as [Hxc Ht]. pose proof (proj1 (proj1 (others_lookup _ _ _ _) Hxc)) as Hxs.
  destruct (sound_escrow _ _ _ Hs Hxc Ht) as ((_ & He & _) & _).
  destruct (Z.ltb_spec c (v_parentCloseTime (cx_info args))) as [Hlt|Hge]; [split|].
  - apply (cancel_live args s owner seq account c x y); done.
  - apply (finish_late args router s owner seq c x); done.
  - apply (cancel_early args s owner seq c x); done.
Qed.

(** *** Examples *)

Definition test_escrow_tx : STTx :=
  mkTx (mkObject None [(sfAccount, c_make AccountID 5); (sfDestination, c_make AccountID 7);
    (sfAmount, c_make AmountC (st_native 30 false)); (sfFinishAfter, c_make U32 600000010);
    (sfCancelAfter, c_make U32 600000020)]) 99 1.
Definition test_info (now : Z) : ViewInfo := mkInfo (λ _, true) (mkFees 10 10 20 5) 3 now false.
Definition test_args (tx : STTx) (now : Z) : ApplyArgs :=
  mkArgs (mkContext tx (test_info now) 0 10 0 (mkTrack 256 256 256 0)) 5 (mkXRP 100) (mkXRP 100).

Lemma run_returns {A} (m : outcome (TER * A)) (t : TER) :
  match m with Ret (r, _) => r =? t | Throw _ => false end = true → ∃ s', m = Ret (t, s').
Proof. destruct m as [[r s']|]; [|done]. intros ->%Z.eqb_eq. by exists s'. Qed.

(** Account 5 puts 30 of its 100 drops into an escrow for account 7. *)
Lemma escrow_conserves_witness :
  ∃ s', run (EscrowCreate_doApply (Hash := number_hash) (test_args test_escrow_tx 600000000)) (mkV test_ledger ∅ ∅) = Ret (tesSUCCESS, s') ∧
    created (Hash := number_hash) test_ledger (test_args test_escrow_tx 600000000) 30 (core (vs_map s')).
Proof.
  assert (Hc : core test_ledger = test_ledger) by (vm_compute; reflexivity).
  pose proof test_ledger_sound as Hs. rewrite <- Hc in Hs.
  destruct (escrow_conserves (Hash := number_hash) (Hash256 := sample_sha256) (test_args test_escrow_tx 600000000)
    (make_router 300 1) (mkV test_ledger ∅ ∅) Hs) as [H _].
  destruct (run_returns (run (EscrowCreate_doApply (Hash := number_hash) (test_args test_escrow_tx 600000000))
    (mkV test_ledger ∅ ∅)) tesSUCCESS) as [s' E]; [vm_compute; reflexivity|]. exists s'. split; [exact E|].
  rewrite <- Hc at 1. apply (H (st_native 30 false)); [vm_compute; reflexivity| |discriminate|exact E].
  split; [split; vm_compute; intuition discriminate|reflexivity].
Defined.

(** Entries that are not pages of a directory do not change what is in it. *)
Lemma directory_union `{Hash : Sha512} R (c m : entries) l :
  directory R m l → (∀ n, page_no n → c !! DirectoryCorrect.key R n = None) → directory R (c ∪ m) l.
Proof.
  intros [Hok Hp Hn] Hc. split; [done| |].
  - intros n p Hnp. destruct (Hp n p Hnp) as (x & Hx & Hr). exists x. split; [|done].
    rewrite lookup_union_r; [done|]. apply Hc. eapply dir_page_no; [done|]. by eapply pages_Some.
  - intros n Hno Hnin. rewrite lookup_union_r; [by apply Hn|by apply Hc].
Qed.

(** Keys of different name spaces do not collide. *)
Lemma number_hash_space a b r r' :
  Forall is_byte r → Forall is_byte r' → to_be 2 a ≠ to_be 2 b →
  number_hash (to_be 2 a ++ r) ≠ number_hash (to_be 2 b ++ r').
Proof.
  intros Hr Hr' Hne E. apply number_hash_inj in E; [|by apply Forall_app; split; [apply to_be_bytes|]..].
  apply app_inj_1 in E as [E _]; [done|by rewrite !length_to_be].
Qed.

#[local] Existing Instance number_hash.

(** An escrow of account 5, listed in its directory. *)
Definition test_escrow_key : Z := kl_key (kl_escrow 5 3).
Definition test_escrow : SLE STObject :=
  mkSLE test_escrow_key ltESCROW
    (set U64 sfOwnerNode 0 (set U32 sfCancelAfter 600000020 (set AmountC sfAmount (st_native 30 false)
      (set AccountID sfDestination 7 (set AccountID sfAccount 5 (new_body ltESCROW)))))).
Definition test_cancel_tx : STTx := mkTx (mkObject None [(sfOwner, c_make AccountID 5); (sfOfferSequence, c_make U32 3)]) 98 1.
Definition test_core : entries := <[test_escrow_key := test_escrow]> test_ledger.
Definition test_escrow_state : vstate STObject :=
  mkV (test_core ∪ dir_map (kl_ownerDir 5) [(0, [test_escrow_key])]) ∅ ∅.

Lemma test_core_sound : sound test_core.
Proof.
  pose proof test_ledger_sound as [Hw Hn Hh _]. split; [..|vm_compute; discriminate].
  - apply map_Forall_insert_2; [|done]. split; [done|]. exists escrow_template. split; [apply escrow_format|].
    unfold test_escrow. cbn [sle_body]. apply (set_entry U64); [|vm_compute; reflexivity].
    apply (set_entry U32); [|vm_compute; reflexivity]. apply (set_entry AmountC); [|vm_compute; reflexivity].
    do 2 (apply (set_entry AccountID); [|vm_compute; reflexivity]). apply new_entry, escrow_format.
  - apply map_Forall_insert_2; [|done]. split; [discriminate|]. split; [|discriminate].
    intros _. split; vm_compute; intuition discriminate.
  - apply map_Forall_insert_2; [vm_compute; discriminate|done].
Qed.

Lemma test_core_foreign n : page_no n → test_core !! DirectoryCorrect.key (kl_ownerDir 5) n = None.
Proof.
  intros _.
  assert (H : ∀ sp r, Forall is_byte r → to_be 2 sp ≠ to_be 2 spaceOwnerDir → to_be 2 sp ≠ to_be 2 spaceDirNode →
    number_hash (to_be 2 sp ++ r) ≠ DirectoryCorrect.key (kl_ownerDir 5) n).
  { intros sp r Hr H1 H2. unfold DirectoryCorrect.key, getDirNodeIndex. destruct (n =? 0);
      (apply number_hash_space; [done|repeat (apply Forall_app; split); apply to_be_bytes|done]). }
  unfold test_core, test_ledger. rewrite 2!lookup_insert_ne, lookup_singleton_ne; [done|..];
    apply H; try (vm_compute; discriminate); repeat (apply Forall_app; split); apply to_be_bytes.
Qed.

Lemma escrow_deadline_witness :
  ∃ s', run (EscrowCancel_doApply (test_args test_cancel_tx 600000021)) test_escrow_state = Ret (tesSUCCESS, s') ∧
    released test_core (core (vs_map s')) test_escrow_key 5 test_escrow.
Proof.
  assert (Hc : core (vs_map test_escrow_state) = test_core) by (vm_compute; reflexivity).
  pose proof (escrow_deadline (Hash256 := sample_sha256) (test_args test_cancel_tx 600000021) (make_router 300 1)
    test_escrow_state 5 3 5 600000020 test_escrow (test_root 5 100) owner_distinct) as H. rewrite Hc in H.
  apply H; [exact test_core_sound|reflexivity|reflexivity|reflexivity|vm_compute; reflexivity|split; vm_compute; reflexivity| |].
  - split; [vm_compute; reflexivity| |left; vm_compute; reflexivity].
    exists 0. split; [vm_compute; reflexivity|]. split; [vm_compute; intuition discriminate|].
    exists [(0, [test_escrow_key])], [test_escrow_key]. split; [|split; [reflexivity|by left]].
    apply directory_union; [|apply test_core_foreign]. apply dir_map_directory; [apply owner_distinct|].
    apply dir_ok_shape. split_and!; [by intros m [= <-]|repeat constructor|..];
      repeat apply Forall_cons_2; unfold dirNodeMaxPages, dirNodeMaxEntries; simpl; try lia; constructor.
  - vm_compute. reflexivity.
Defined.
