(* ===== verification/AccountLaws.v ===== *)
(** * No account is locked out

    The transactions of [SetRegularKey.cpp], [SetAccount.cpp] and [SetSignerList.cpp] change the ways in which an
    account can sign: its master key, its regular key, its list of signers.  This file
    shows that none of them takes the last one away, as long as the account is not made its own
    regular key.  Such a regular key signs nothing that the master key does not sign, but it
    counts as a second key when the master key is disabled: [own_key_locks_out] is an account
    that nobody can sign for any more.

    What the transactions do to the account is described by the few things that matter,
    [auth]: its flags, its regular key, and whether it has a list of signers. *)

From stdpp Require Import base numbers list gmap strings.
From Stdlib Require Import Lia ZArith.
From S2P Require Import Prelude XRPAmount Serializer STAmount Quality StateTable SField STObject STObjectWire STObjectLaws.
From S2P Require Import Entry Indexes ApplyView ViewLogic Directory DirectoryFrame TxBase Invariants Keys HashRouter STTx LoadFeeTrack.
From S2P Require Import CoreLogic View ViewLaws XrpNeutral Transactor AccountTx EscrowLaws.

Local Open Scope Z_scope.

Record auth : Type := mkAuth { au_flags : Z; au_key : option Z; au_list : bool }.

(** ** Flags *)

Lemma flagged_master F : flagged F lsfDisableMaster = Z.testbit F 20.
Proof.
  unfold flagged. change lsfDisableMaster with (2 ^ 20). destruct (Z.testbit F 20) eqn:E.
  - apply negb_true_iff, Z.eqb_neq. intros H. assert (Hb : Z.testbit (Z.land F (2 ^ 20)) 20 = true).
    { by rewrite Z.land_spec, E, Z.pow2_bits_true by lia. } by rewrite H, Z.bits_0 in Hb.
  - apply negb_false_iff, Z.eqb_eq. apply Z.bits_inj'. intros n Hn. rewrite Z.land_spec, Z.bits_0, Z.pow2_bits_eqb by lia.
    destruct (Z.eqb_spec 20 n) as [<-|]; [by rewrite E|by rewrite andb_false_r].
Qed.

Lemma land_master F : (Z.land F lsfDisableMaster =? lsfDisableMaster) = Z.testbit F 20.
Proof.
  rewrite <- flagged_master. unfold flagged. destruct (Z.eqb_spec (Z.land F lsfDisableMaster) lsfDisableMaster) as [->|Hne]; [done|].
  symmetry. apply negb_false_iff, Z.eqb_eq. pose proof (flagged_master F) as H. unfold flagged in H.
  destruct (Z.testbit F 20) eqn:E; [|by apply negb_false_iff, Z.eqb_eq in H]. destruct Hne.
  change lsfDisableMaster with (2 ^ 20). apply Z.bits_inj'. intros n Hn. rewrite Z.land_spec, Z.pow2_bits_eqb by lia.
  destruct (Z.eqb_spec 20 n) as [<-|]; [by rewrite E|by rewrite andb_false_r].
Qed.

Lemma flags_val o : entry account_template o → getFlags o = val U32 o sfFlags.
Proof.
  intros He. assert (Hf : fits U32 account_template sfFlags = true) by (vm_compute; reflexivity).
  pose proof (fits_spec U32 _ _ Hf) as (Hin & _). destruct (entry_has _ _ _ He Hin) as [x Hx].
  pose proof (val_map U32 _ _ _ x He Hf Hx) as Hv. unfold getFlags. rewrite peek_map, Hx by apply He.
  assert (Hp : present o sfFlags = true).
  { apply (required_present _ _ _ He). exists (required sfFlags). split; [|done]. apply list_elem_of_In. cbn. tauto. }
  rewrite present_map, Hx in Hp by apply He. apply negb_true_iff in Hp. rewrite Hp in Hv. destruct x; try discriminate Hv. by injection Hv as ->.
Qed.

(** ** Changes of one field *)

Definition flags_in (x : STVar) : Z := match x with UInt32 v => v | _ => 0 end.

Lemma getFlags_map o :
  obj_ok o → getFlags o = match obj_map o !! fieldCode sfFlags with Some x => flags_in x | None => 0 end.
Proof. intros Ho. unfold getFlags. rewrite peek_map by done. by destruct (obj_map o !! _). Qed.

(** The regular key of an account. *)
Definition regular (o : STObject) : option Z :=
  if present o sfRegularKey then Some (val AccountID o sfRegularKey) else None.
Definition key_in (x : STVar) : option Z := if absent x then None else Some (default 0 (c_value AccountID x)).

Lemma regular_map o :
  entry account_template o → regular o = match obj_map o !! fieldCode sfRegularKey with Some x => key_in x | None => None end.
Proof.
  intros He. unfold regular. rewrite present_map by apply He. destruct (obj_map o !! fieldCode sfRegularKey) as [x|] eqn:Hx; [|done].
  assert (Hf : fits AccountID account_template sfRegularKey = true) by (vm_compute; reflexivity).
  pose proof (val_map AccountID _ _ _ x He Hf Hx) as Hv. unfold key_in. rewrite Hv. by destruct (absent x).
Qed.

(** The field may be absent from an account. *)
Definition may_miss (f : SField) : bool :=
  forallb (λ e, negb (bool_decide (flags e = SOE_REQUIRED)) || negb (fieldCode f =? fieldCode (e_field e))) account_template.

Lemma edited o o' f y :
  entry account_template o → obj_ok o' → mType o' = Some account_template →
  obj_map o' = <[fieldCode f := y]> (obj_map o) → absent y = false ∨ may_miss f = true →
  entry account_template o' ∧
  getFlags o' = (if fieldCode f =? fieldCode sfFlags then flags_in y else getFlags o) ∧
  regular o' = (if fieldCode f =? fieldCode sfRegularKey then key_in y else regular o).
Proof.
  intros He Ho Ht Hmap Hy. assert (He' : entry account_template o').
  { split; [done|done|]. intros e Hin Hr. pose proof (entry_required _ _ He e Hin Hr) as Hp.
    rewrite present_map in * by (done || apply He). rewrite Hmap.
    destruct (Z.eqb_spec (fieldCode f) (fieldCode (e_field e))) as [Heq|Hne]; [|by rewrite lookup_insert_ne].
    rewrite Heq, lookup_insert_eq. destruct Hy as [->|Hm]; [done|]. unfold may_miss in Hm. rewrite forallb_forall in Hm.
    specialize (Hm e ltac:(by apply list_elem_of_In)). by rewrite Hr, Heq, Z.eqb_refl in Hm. }
  split_and!; [done|..].
  - rewrite !getFlags_map, Hmap by (done || apply He).
    destruct (Z.eqb_spec (fieldCode f) (fieldCode sfFlags)) as [->|]; [by rewrite lookup_insert_eq|by rewrite lookup_insert_ne].
  - rewrite !regular_map, Hmap by done.
    destruct (Z.eqb_spec (fieldCode f) (fieldCode sfRegularKey)) as [->|]; [by rewrite lookup_insert_eq|by rewrite lookup_insert_ne].
Qed.

Lemma put_edited {V} (C : STClass V) `{!LawfulClass C} f v o o' :
  entry account_template o → fits C account_template f = true → setFieldUsing C f v o = Ret o' →
  entry account_template o' ∧
  getFlags o' = (if fieldCode f =? fieldCode sfFlags then flags_in (c_make C v) else getFlags o) ∧
  regular o' = (if fieldCode f =? fieldCode sfRegularKey then key_in (c_make C v) else regular o).
Proof.
  intros He Hf Ho. destruct (set_map C _ o f v He Hf) as (Hs & Hok & Ht & Hmap). rewrite Hs in Ho. injection Ho as <-.
  assert (Ha : absent (c_make C v) = false) by apply (lawful_present C _ v (c_make_value v)).
  destruct (edited _ _ f _ He Hok Ht Hmap (or_introl Ha)) as (H1 & H2 & H3). by split_and!.
Qed.

Lemma absent_edited f o o' :
  entry account_template o → bool_decide (fieldCode f ∈ tcodes account_template) = true → may_miss f = true →
  makeFieldAbsent f o = Ret o' →
  entry account_template o' ∧
  getFlags o' = (if fieldCode f =? fieldCode sfFlags then 0 else getFlags o) ∧
  regular o' = (if fieldCode f =? fieldCode sfRegularKey then None else regular o).
Proof.
  intros He Hf%bool_decide_eq_true Hm Ho. destruct (unset_map _ o f He Hf) as (Hs & Hok & Ht & Hmap). rewrite Hs in Ho. injection Ho as <-.
  destruct (edited _ _ f _ He Hok Ht Hmap (or_intror Hm)) as (H1 & H2 & H3). by split_and!.
Qed.

Lemma made_present_edited f o o' :
  entry account_template o → fieldCode f ≠ fieldCode sfFlags → fieldCode f ≠ fieldCode sfRegularKey →
  extensible (fieldType f) = true → coded f = true → may_miss f = true →
  ('(_, o) ← makeFieldPresent f o; Ret o) = Ret o' →
  entry account_template o' ∧ getFlags o' = getFlags o ∧ regular o' = regular o.
Proof.
  intros He Hf1 Hf2 Hext Hc Hmiss H. apply outcome_bind_Ret in H as ([i o1] & H & [= ->]). unfold makeFieldPresent in H.
  pose proof (getFieldIndex_spec o f (entry_ok _ _ He)) as Hi. destruct (getFieldIndex o f) as [j|].
  2: { unfold isFree in H. by rewrite (entry_type _ _ He) in H. }
  destruct Hi as (g & x & Hl & Hg). rewrite Hl in H.
  destruct x; try (by injection H as _ <-). apply outcome_bind_Ret in H as (y & Hy & [= _ <-]).
  pose proof (entry_ok _ _ He) as Ho. pose proof Ho as (_ & _ & Hall). rewrite Forall_forall in Hall.
  destruct (Hall (g, NotPresent)) as [Hcg _]; [by eapply list_elem_of_lookup_2|].
  destruct (defaultObject_type g) as (y' & Hy' & Ht'); [by rewrite (coded_type g f) by done|].
  rewrite Hy' in Hy. injection Hy as ->.
  destruct (put_at_spec o j f g _ y Ho Hl Hg (or_intror Ht')) as (Hok & Hm & _ & Hmap). rewrite (entry_type _ _ He) in Hm.
  destruct (edited _ _ f _ He Hok Hm Hmap (or_intror Hmiss)) as (H1 & H2 & H3).
  rewrite H2, H3. by rewrite !(proj2 (Z.eqb_neq _ _)) by done.
Qed.

(** ** The state of an account *)

Section Auth.
Context `{Hash : Sha512} `{Lib : Crypto} (id : Z).
Local Abbreviation akey := (kl_key (kl_account id)).
Local Abbreviation skey := (kl_key (kl_signers id)).

Definition has_list (c : entries) : bool := bool_decide (is_Some (lookup_kl c (kl_signers id))).

Record described (c : entries) (st : auth) (x : SLE STObject) : Prop := mkDesc {
  de_root : root c id x;
  de_entry : entry account_template (sle_body x);
  de_flags : getFlags (sle_body x) = au_flags st;
  de_key : regular (sle_body x) = au_key st;
  de_list : has_list c = au_list st }.

(** [aspec p st Q]: from an account in the state [st], [p] ends as [Q] says if it ends. *)
Definition aspec {A} (p : view_prog A) (st : auth) (Q : A → auth → Prop) : Prop :=
  ∀ a x, described (ab_core a) st x →
    cspec false p a (λ r a', ∃ st' x', described (ab_core a') st' x' ∧ Q r st').

Lemma aspec_ret {A} (r : A) st (Q : A → auth → Prop) : Q r st → aspec (mret r) st Q.
Proof. intros HQ a x Hx. apply cspec_ret. eauto. Qed.

Lemma aspec_bind {A B} (p : view_prog A) (f : A → view_prog B) st Q :
  aspec p st (λ r st', aspec (f r) st' Q) → aspec (p ≫= f) st Q.
Proof.
  intros H a x Hx. apply cspec_bind. eapply cspec_mono; [by eapply H|].
  intros r a' (st' & x' & Hx' & HQ). by eapply HQ.
Qed.

Lemma aspec_mono {A} (p : view_prog A) st (Q Q' : A → auth → Prop) :
  (∀ r st', Q r st' → Q' r st') → aspec p st Q → aspec p st Q'.
Proof.
  intros HQ H a x Hx. eapply cspec_mono; [by eapply H|]. intros r a' (st' & x' & Hx' & Hr). exists st', x'. auto.
Qed.

Lemma aspec_from {A} (m : outcome A) st (Q : A → auth → Prop) : (∀ r, m = Ret r → Q r st) → aspec (from m) st Q.
Proof. intros HQ a x Hx. apply cspec_from_any; [done|]. intros r Hr. exists st, x. auto. Qed.

Lemma aspec_load st (Q : SLE STObject → auth → Prop) :
  (∀ c x, described c st x → Q x st) → aspec (load akey) st Q.
Proof. intros HQ a x Hx. apply (cspec_load _ _ x); [apply Hx|]. exists st, x. split; [done|]. by eapply HQ. Qed.

Lemma aspec_peek_deref {A} st (f : Z → view_prog A) (Q : A → auth → Prop) :
  aspec (f akey) st Q → aspec (peek_deref (kl_account id) ≫= f) st Q.
Proof. intros H a x Hx. apply (cspec_peek_deref_root _ _ x); [apply Hx|]. by eapply H. Qed.

Lemma aspec_peek_list st (Q : option Z → auth → Prop) :
  Q (if au_list st then Some skey else None) st → aspec (peek (kl_signers id)) st Q.
Proof.
  intros HQ a x Hx. apply cspec_peek; [done|done|]. exists st, x. split; [done|].
  replace ((λ _, skey) <$> lookup_kl (ab_core a) (kl_signers id)) with (if au_list st then Some skey else None); [done|].
  rewrite <- (de_list _ _ _ Hx). unfold has_list. by destruct (lookup_kl _ _).
Qed.

(** The list is not where the account is. *)
Lemma list_apart c st x y : described c st x → lookup_kl c (kl_signers id) = Some y → akey ≠ skey ∧ c !! skey = Some y ∧ sle_type y = ltSIGNER_LIST.
Proof.
  intros Hx Hy. destruct (de_root _ _ _ Hx) as [Hr Ht]. unfold lookup_kl in Hy.
  destruct (c !! skey) as [z|] eqn:E; [|done]. unfold check in Hy.
  change (kl_type (kl_signers id)) with ltSIGNER_LIST in Hy. change (ltSIGNER_LIST =? ltANY) with false in Hy.
  change (ltSIGNER_LIST =? ltINVALID) with false in Hy. change (ltSIGNER_LIST =? ltCHILD) with false in Hy. cbn iota in Hy.
  destruct (Z.eqb_spec (sle_type z) ltSIGNER_LIST) as [Hz|]; [|done]. injection Hy as <-. split_and!; [|done|done].
  intros Heq. rewrite Heq, E in Hr. injection Hr as ->. by rewrite Hz in Ht.
Qed.

Lemma has_list_root c st x y : described c st x → sle_type y = ltACCOUNT_ROOT → has_list (<[akey := y]> c) = has_list c.
Proof.
  intros Hx Hy. unfold has_list. apply bool_decide_ext. destruct (lookup_kl c (kl_signers id)) as [z|] eqn:E.
  - pose proof (list_apart _ _ _ _ Hx E) as (Hne & _). unfold lookup_kl in *. by rewrite lookup_insert_ne, E by done.
  - enough (lookup_kl (<[akey := y]> c) (kl_signers id) = None) as -> by done. unfold lookup_kl in *.
    destruct (decide (akey = skey)) as [Heq|Hne]; [|by rewrite lookup_insert_ne, E by done].
    rewrite Heq, lookup_insert_eq. unfold check. rewrite Hy. done.
Qed.

(** *** Changes of the account *)

Lemma aspec_change (describe : STObject → outcome STObject) st st' (Q : unit → auth → Prop) :
  (∀ o o', entry account_template o → getFlags o = au_flags st → regular o = au_key st →
    describe o = Ret o' →
    entry account_template o' ∧ getFlags o' = au_flags st' ∧ regular o' = au_key st') →
  au_list st' = au_list st → Q tt st' → aspec (describe_at describe akey) st Q.
Proof.
  intros Hd Hl HQ a x Hx. unfold describe_at. apply cspec_bind, (cspec_load _ _ x); [apply Hx|].
  apply cspec_bind, cspec_from_any; [done|]. intros o Ho.
  destruct (Hd _ _ (de_entry _ _ _ Hx) (de_flags _ _ _ Hx) (de_key _ _ _ Hx) Ho) as (H1 & H2 & H3).
  apply (cspec_store _ _ _ x _ _ ({[akey]} ∪ ab_dirty a)); [apply Hx|by right|].
  exists st', (set_body x o). split; [|done]. abs_simpl. destruct (de_root _ _ _ Hx) as [_ Ht].
  split; [split; [apply lookup_insert_eq|done]|done|done|done|].
  rewrite (has_list_root _ st x) by done. by rewrite Hl, (de_list _ _ _ Hx).
Qed.

Lemma aspec_put {V} (C : STClass V) `{!LawfulClass C} f v st (Q : unit → auth → Prop) :
  fits C account_template f = true → fieldCode f ≠ fieldCode sfFlags →
  Q tt (mkAuth (au_flags st) (if fieldCode f =? fieldCode sfRegularKey then key_in (c_make C v) else au_key st) (au_list st)) →
  aspec (put C akey f v) st Q.
Proof.
  intros Hf Hne HQ. eapply (aspec_change (setFieldUsing C f v)); [| |exact HQ]; [|reflexivity]. cbn.
  intros o o' He Hfl Hk Ho. destruct (put_edited C f v o o' He Hf Ho) as (H1 & H2 & H3).
  rewrite (proj2 (Z.eqb_neq _ _) Hne) in H2. by rewrite H2, H3, Hk.
Qed.

Lemma aspec_put_flags v st (Q : unit → auth → Prop) :
  Q tt (mkAuth v (au_key st) (au_list st)) → aspec (put U32 akey sfFlags v) st Q.
Proof.
  intros HQ. eapply (aspec_change (setFieldUsing U32 sfFlags v)); [| |exact HQ]; [|reflexivity]. cbn.
  intros o o' He Hfl Hk Ho. destruct (put_edited U32 sfFlags v o o' He) as (H1 & H2 & H3);
    [vm_compute; reflexivity|done|]. split_and!; [done|by rewrite H2|]. rewrite H3, Hk. done.
Qed.

Lemma aspec_absent f st (Q : unit → auth → Prop) :
  bool_decide (fieldCode f ∈ tcodes account_template) && may_miss f && negb (fieldCode f =? fieldCode sfFlags) = true →
  Q tt (mkAuth (au_flags st) (if fieldCode f =? fieldCode sfRegularKey then None else au_key st) (au_list st)) →
  aspec (make_absent akey f) st Q.
Proof.
  intros [[H1 H2]%andb_true_iff H3%negb_true_iff]%andb_true_iff HQ.
  eapply (aspec_change (makeFieldAbsent f)); [| |exact HQ]; [|reflexivity]. cbn. intros o o' He Hfl Hk Ho.
  destruct (absent_edited f o o' He H1 H2 Ho) as (H4 & H5 & H6). rewrite H3 in H5. by rewrite H5, H6, Hk.
Qed.

Lemma setFlag_edited f o o' :
  entry account_template o → ('(_, o) ← setFlag f o; Ret o) = Ret o' →
  entry account_template o' ∧ getFlags o' = Z.lor (getFlags o) f ∧ regular o' = regular o.
Proof.
  intros He H. pose proof (entry_ok _ _ He) as Ho. apply outcome_bind_Ret in H as ([b o1] & H & [= ->]). unfold setFlag, getPField in H.
  assert (Hin : fieldCode sfFlags ∈ tcodes account_template) by (apply (bool_decide_eq_true_1 _); vm_compute; reflexivity).
  destruct (entry_has _ _ _ He Hin) as [y Hy]. pose proof (flags_val o He) as Hfl.
  pose proof (getFieldIndex_spec o sfFlags Ho) as Hi. destruct (getFieldIndex o sfFlags) as [i|] eqn:Ei.
  2: { apply obj_map_None in Hi. congruence. }
  cbn [mbind outcome_bind] in H. destruct Hi as (g & x & Hl & Hg). rewrite Hl in H.
  assert (Hx : obj_map o !! fieldCode sfFlags = Some x) by (rewrite <- Hg; by eapply obj_map_lookup).
  pose proof (val_map U32 _ _ sfFlags x He ltac:(vm_compute; reflexivity) Hx) as Hv.
  assert (Hp : present o sfFlags = true).
  { apply (required_present _ _ _ He). exists (required sfFlags). split; [|done]. apply list_elem_of_In. cbn. tauto. }
  rewrite present_map, Hx in Hp by done. apply negb_true_iff in Hp. rewrite Hp in Hv.
  destruct x as [| | |z| | | | | | | | | | |]; try discriminate Hv. injection Hv as Hv. injection H as _ <-.
  pose proof Ho as (_ & _ & Hall). rewrite Forall_forall in Hall.
  destruct (Hall (g, UInt32 z)) as [_ [?|Hty]]; [by eapply list_elem_of_lookup_2|done|].
  destruct (put_at_spec o i sfFlags g _ (UInt32 (Z.lor z f)) Ho Hl Hg (or_intror Hty)) as (Hok & Hm & _ & Hmap).
  rewrite (entry_type _ _ He) in Hm. destruct (edited _ _ sfFlags _ He Hok Hm Hmap (or_introl eq_refl)) as (H1 & H2 & H3).
  split_and!; [done| |done]. rewrite H2, Hfl, <- Hv. done.
Qed.

Lemma aspec_setFlag f st (Q : unit → auth → Prop) :
  Q tt (mkAuth (Z.lor (au_flags st) f) (au_key st) (au_list st)) →
  aspec (describe_at (λ o, '(_, o) ← setFlag f o; Ret o) akey) st Q.
Proof.
  intros HQ. eapply aspec_change; [| |exact HQ]; [|reflexivity]. cbn. intros o o' He Hfl Hk Ho.
  apply setFlag_edited in Ho as (H1 & H2 & H3); [|done]. by rewrite H2, H3, Hfl.
Qed.

Lemma aspec_get_flags st (Q : Z → auth → Prop) : Q (au_flags st) st → aspec (get U32 akey sfFlags) st Q.
Proof.
  intros HQ a x Hx. apply (cspec_get _ U32 account_template _ _ x); [apply Hx|apply Hx|vm_compute; reflexivity|].
  exists st, x. split; [done|]. rewrite <- flags_val, (de_flags _ _ _ Hx) by apply Hx. done.
Qed.

Lemma aspec_confined {A} (p : view_prog A) st (Q : A → auth → Prop) :
  (∀ S D, confined quiet p ∅ S D (λ r _ S D, Q r st)) → aspec p st Q.
Proof.
  intros H a x Hx. apply cspec_confined_partial; [done|]. eapply confined_mono; [apply H|].
  intros r P S D HQ n. by exists st, x.
Qed.

Lemma aspec_count n st (Q : unit → auth → Prop) : Q tt st → aspec (adjustOwnerCount akey n) st Q.
Proof.
  intros HQ a x Hx. apply (cspec_adjustOwnerCount _ _ _ x); [apply Hx|apply Hx|]. abs_simpl.
  exists st, (count_adjusted n x). split; [|done].
  destruct (put_edited U32 sfOwnerCount (confineOwnerCount (val U32 (sle_body x) sfOwnerCount) n) (sle_body x)
    (sle_body (count_adjusted n x))) as (H1 & H2 & H3); [apply Hx|apply fits_ownerCount| |].
  { apply (set_ret U32 account_template); [apply Hx|apply fits_ownerCount]. }
  destruct (de_root _ _ _ Hx) as [_ Ht]. split; [split; [apply lookup_insert_eq|done]|done|..].
  - by rewrite <- (de_flags _ _ _ Hx), H2.
  - by rewrite <- (de_key _ _ _ Hx), H3.
  - rewrite (has_list_root _ st x) by done. apply (de_list _ _ _ Hx).
Qed.

(** *** The list of signers *)

Lemma has_list_true c st x : described c st x → au_list st = true → ∃ y, lookup_kl c (kl_signers id) = Some y.
Proof. intros Hx Hl. pose proof (de_list _ _ _ Hx) as H. rewrite Hl in H. by apply bool_decide_eq_true_1 in H as [y Hy]; exists y. Qed.

Lemma aspec_load_list st (Q : SLE STObject → auth → Prop) :
  au_list st = true → (∀ y, Q y st) → aspec (load skey) st Q.
Proof.
  intros Hl HQ a x Hx. destruct (has_list_true _ _ _ Hx Hl) as [y Hy]. destruct (list_apart _ _ _ _ Hx Hy) as (_ & Hc & _).
  apply (cspec_load _ _ y); [done|]. exists st, x. auto.
Qed.

(** The account does not see changes elsewhere. *)
Lemma described_elsewhere c c' st st' x :
  described c st x → c' !! akey = c !! akey → au_flags st' = au_flags st → au_key st' = au_key st →
  has_list c' = au_list st' → described c' st' x.
Proof. intros [[H1 H2] H3 H4 H5 _] Hc Hf Hk Hl. split; [split; [by rewrite Hc|done]|done|congruence|congruence|done]. Qed.

Lemma list_at c y : c !! skey = Some y → sle_type y = ltSIGNER_LIST → has_list c = true.
Proof.
  intros Hc Ht. unfold has_list, lookup_kl, check. rewrite Hc. change (kl_type (kl_signers id)) with ltSIGNER_LIST. by rewrite Ht.
Qed.

Lemma aspec_change_list (describe : STObject → outcome STObject) st (Q : unit → auth → Prop) :
  au_list st = true → Q tt st → aspec (describe_at describe skey) st Q.
Proof.
  intros Hl HQ a x Hx. destruct (has_list_true _ _ _ Hx Hl) as [y Hy]. destruct (list_apart _ _ _ _ Hx Hy) as (Hne & Hc & Ht).
  unfold describe_at. apply cspec_bind, (cspec_load _ _ y); [done|]. apply cspec_bind, cspec_from_any; [done|]. intros o Ho.
  apply (cspec_store _ _ _ y _ _ ({[skey]} ∪ ab_dirty a)); [done|by right|]. exists st, x. split; [|done]. abs_simpl.
  eapply described_elsewhere; [exact Hx|by rewrite lookup_insert_ne by done|done|done|].
  rewrite Hl. by eapply list_at; [apply lookup_insert_eq|].
Qed.

Lemma aspec_erase_list st (Q : unit → auth → Prop) :
  au_list st = true → Q tt (mkAuth (au_flags st) (au_key st) false) → aspec (erase skey) st Q.
Proof.
  intros Hl HQ a x Hx. destruct (has_list_true _ _ _ Hx Hl) as [y Hy]. destruct (list_apart _ _ _ _ Hx Hy) as (Hne & Hc & Ht).
  apply (cspec_erase _ _ y); [done|]. abs_simpl. eexists _, x. split; [|exact HQ].
  eapply described_elsewhere; [exact Hx|by rewrite lookup_delete_ne by done|done|done|].
  cbn. unfold has_list, lookup_kl. by rewrite lookup_delete_eq.
Qed.

Lemma aspec_insert_list e st (Q : unit → auth → Prop) :
  sle_key e = skey → sle_type e = ltSIGNER_LIST → Q tt (mkAuth (au_flags st) (au_key st) true) → aspec (insert e) st Q.
Proof.
  intros Hk Ht HQ a x Hx. apply cspec_insert; [by rewrite Ht|done|]. intros Hnone. abs_simpl. eexists _, x. split; [|exact HQ].
  destruct (de_root _ _ _ Hx) as [Hr _].
  eapply described_elsewhere; [exact Hx| |done|done|]; rewrite Hk in *.
  - rewrite lookup_insert_ne; [done|]. intros Heq. congruence.
  - cbn. by eapply list_at; [apply lookup_insert_eq|].
Qed.
End Auth.

(** Steps that do not change the ways to sign. *)
Ltac astep := first
  [ apply aspec_ret | apply aspec_peek_deref | apply aspec_setFlag | apply aspec_get_flags | apply aspec_put_flags
  | apply aspec_count | apply aspec_peek_list | apply aspec_load; intros ? ? ? | apply aspec_from; intros ? ?
  | apply aspec_bind ].

(** ** The transactions *)

(** There is a regular key. *)
Definition has_key (st : auth) : bool := match au_key st with Some _ => true | None => false end.

(** There is a way to sign: the account itself is no second key. *)
Definition signable (id : Z) (st : auth) : bool :=
  negb (Z.testbit (au_flags st) 20) || match au_key st with Some k => negb (k =? id) | None => false end || au_list st.

Lemma signable_key id st :
  au_key st ≠ Some id → signable id st = negb (Z.testbit (au_flags st) 20) || has_key st || au_list st.
Proof.
  intros Hk. unfold signable, has_key. destruct (au_key st) as [k|]; [|done].
  destruct (Z.eqb_spec k id) as [->|]; [done|]. by cbn [negb].
Qed.

(** There is one, and the account is not its own regular key. *)
Definition kept (id : Z) (st : auth) : Prop := signable id st = true ∧ au_key st ≠ Some id.

Section Laws.
Context `{Hash : Sha512} `{Lib : Crypto} (a : ApplyArgs).
Local Abbreviation aspec := (aspec (account_ a)).
Local Abbreviation kept := (kept (account_ a)).

Lemma described_key c st x :
  described (account_ a) c st x → isFieldPresent (sle_body x) sfRegularKey = has_key st.
Proof.
  intros Hx. pose proof (de_key _ _ _ _ Hx) as H. unfold regular in H. change (isFieldPresent (sle_body x) sfRegularKey) with (present (sle_body x) sfRegularKey).
  unfold has_key. rewrite <- H. by destruct (present _ _).
Qed.

Lemma described_master c st x :
  described (account_ a) c st x → isFlag (sle_body x) lsfDisableMaster = Z.testbit (au_flags st) 20.
Proof. intros Hx. unfold isFlag. by rewrite (de_flags _ _ _ _ Hx), land_master. Qed.

(** The transaction makes the account its own regular key. *)
Definition names_itself (a : ApplyArgs) : Prop :=
  isFieldPresent (tx_obj (cx_tx a)) sfRegularKey = true ∧ getAccountID (tx_obj (cx_tx a)) sfRegularKey = Ret (account_ a).

Lemma regular_spec st :
  kept st → ¬ names_itself a → aspec (SetRegularKey_doApply a) st (λ r st', r = tesSUCCESS → kept st').
Proof.
  intros [Hs Hk] Hn. rewrite (signable_key _ _ Hk) in Hs. unfold SetRegularKey_doApply. astep. astep. astep. apply aspec_bind.
  set (Q := λ (_ : unit) st', Z.testbit (au_flags st') 20 = Z.testbit (au_flags st) 20 ∧ au_key st' = au_key st ∧ au_list st' = au_list st).
  eapply (aspec_mono _ _ _ Q).
  2: { destruct (xrp_signum r =? 0); [|by astep]. astep. split_and!; [|done|done]. cbn [au_flags]. rewrite Z.lor_spec.
       change (Z.testbit lsfPasswordSpent 20) with false. by rewrite orb_false_r. }
  intros _ st' (HF & HK & HL). destruct (isFieldPresent _ sfRegularKey) eqn:EP.
  - apply aspec_bind, aspec_from. intros k Hkey. apply aspec_bind, (aspec_put _ AccountID); [vm_compute; reflexivity|vm_compute; discriminate|].
    astep. intros _. assert (Hne : k ≠ account_ a) by (intros ->; by destruct Hn).
    assert (Hnew : (if fieldCode sfRegularKey =? fieldCode sfRegularKey then key_in (c_make AccountID k) else au_key st') = Some k) by done.
    rewrite Hnew. unfold AccountLaws.kept, signable. cbn [au_flags au_key au_list].
    rewrite (proj2 (Z.eqb_neq _ _) Hne). cbn [negb]. rewrite orb_true_r. split; [done|congruence].
  - apply aspec_bind, aspec_load. intros c x Hx. rewrite (described_master _ _ _ Hx), HF.
    assert (Hout : ∀ st2, negb (Z.testbit (au_flags st) 20) || au_list st = true →
      st2 = mkAuth (au_flags st') None (au_list st') → kept st2).
    { intros st2 Hw ->. split; [|done]. unfold signable. cbn [au_flags au_key au_list]. by rewrite HF, HL, orb_false_r. }
    destruct (Z.testbit (au_flags st) 20) eqn:EF; cbn [negb orb] in Hout.
    + astep. astep. astep. astep. rewrite HL. destruct (au_list st) eqn:EL.
      * rewrite bool_decide_false by done. apply aspec_bind, aspec_absent; [vm_compute; reflexivity|]. astep. intros _. by apply Hout.
      * rewrite bool_decide_true by done. by astep.
    + astep. astep. apply aspec_bind, aspec_absent; [vm_compute; reflexivity|]. astep. intros _. by apply Hout.
Qed.

(** Removing the list changes nothing else. *)
Lemma remove_spec st :
  aspec (removeSignersFromLedger (account_ a)) st (λ r st', r = tesSUCCESS → st' = mkAuth (au_flags st) (au_key st) false).
Proof.
  unfold removeSignersFromLedger. astep. astep. destruct (au_list st) eqn:EL.
  2: { astep. intros _. destruct st. by cbn in *; subst. }
  apply aspec_bind, aspec_load_list; [done|]. intros y. apply aspec_bind.
  eapply (aspec_mono _ _ _ (λ _ st', st' = st)).
  2: { destruct (negb _); [|by astep]. astep. astep. by astep. }
  intros n st' ->. astep. astep. apply aspec_bind, aspec_confined. intros S D. apply confined_dirRemove; [done|].
  intros ok P' S' _. destruct (negb ok); [by astep|]. astep. astep. astep. apply aspec_bind, aspec_erase_list; [done|]. by astep.
Qed.

(** A new list is a way to sign. *)
Lemma new_list_spec quorum signers flags n st :
  au_key st ≠ Some (account_ a) →
  aspec (signerList ← from (make_SLE (kl_signers (account_ a)));
    insert signerList ;;
    writeSignersToSLE (sle_key signerList) quorum signers flags ;;
    page ← owner_dirAdd (cx_info a) (account_ a) (sle_key signerList);
    match page with
    | None => mret tecDIR_FULL
    | Some page =>
      put U64 (sle_key signerList) sfOwnerNode page ;;
      adjustOwnerCount (kl_key (kl_account (account_ a))) n ;;
      mret tesSUCCESS
    end) st (λ r st', r = tesSUCCESS → kept st').
Proof.
  intros Hown. apply aspec_bind, aspec_from. intros e [Ht Hk]%make_SLE_type. apply aspec_bind, aspec_insert_list; [done|done|].
  rewrite Hk. set (st' := mkAuth _ _ true). unfold writeSignersToSLE. apply aspec_bind.
  assert (Hput : ∀ {V} (C : STClass V) f v (Q : unit → auth → Prop), Q tt st' → aspec (put C (kl_key (kl_signers (account_ a))) f v) st' Q).
  { intros V C f v Q HQ. by apply (aspec_change_list _ (setFieldUsing C f v)). }
  apply aspec_bind, Hput, aspec_bind, Hput, aspec_bind.
  eapply (aspec_mono _ _ _ (λ _ st2, st2 = st')); [|destruct (negb _); [by apply Hput|by astep]].
  intros _ ? ->. apply aspec_bind, aspec_from. intros l _. apply Hput. apply aspec_bind, aspec_confined. intros S D.
  apply confined_view_dirAdd; [done|done|]. intros page P' S' _ _. destruct page as [page|]; [|by astep].
  apply aspec_bind, Hput. astep. astep. astep. intros _. split; [|done]. unfold signable. cbn [au_list st']. by rewrite orb_true_r.
Qed.

Lemma signers_spec st :
  kept st → aspec (SetSignerList_doApply a) st (λ r st', r = tesSUCCESS → kept st').
Proof.
  intros [Hs Hk]. unfold SetSignerList_doApply. astep. astep. destruct r as [[[ter quorum] signers] [| |]]; [by astep| |].
  - unfold replaceSignerList. apply aspec_bind. eapply aspec_mono; [|apply remove_spec]. intros r st' Hst'.
    destruct (Z.eqb_spec r tesSUCCESS) as [Hr|Hr]; cbn [negb]; [|by astep]. rewrite (Hst' Hr). clear st' Hst' Hr.
    astep. astep. astep. astep. astep. destruct (negb _); (destruct (xrp_lt _ _); [by astep|]; by apply new_list_spec).
  - rewrite (signable_key _ _ Hk) in Hs. unfold destroySignerList. astep. astep. apply aspec_load. intros c x Hx.
    rewrite (described_master _ _ _ Hx), (described_key _ _ _ Hx).
    destruct (Z.testbit (au_flags st) 20 && negb (has_key st)) eqn:E; [by astep|].
    eapply aspec_mono; [|apply remove_spec]. intros r st' Hst' Hr. rewrite (Hst' Hr). split; [|done].
    rewrite signable_key by done. unfold has_key in *. cbn [au_flags au_key au_list].
    by destruct (Z.testbit (au_flags st) 20), (au_key st).
Qed.

(** *** The flags of an account *)

Lemma choose_bit u c asf f F : Z.testbit f 20 = false → Z.testbit (not32 f) 20 = true → Z.testbit (choose u c asf f F) 20 = Z.testbit F 20.
Proof.
  intros Hf Hn. unfold choose. destruct (u =? asf); [by rewrite Z.lor_spec, Hf, orb_false_r|].
  destruct (c =? asf); [by rewrite Z.land_spec, Hn, andb_true_r|done].
Qed.

Lemma toggle_bit s c f G F : Z.testbit f 20 = false → Z.testbit (not32 f) 20 = true → Z.testbit (toggle s c f G F) 20 = Z.testbit F 20.
Proof.
  intros Hf Hn. unfold toggle. destruct (s && _), (c && _); rewrite ?Z.land_spec, ?Hn, ?andb_true_r, ?Z.lor_spec, ?Hf, ?orb_false_r; done.
Qed.

Lemma legacy_bit t u c F : Z.testbit (legacy_flags t u c F) 20 = Z.testbit F 20.
Proof. unfold legacy_flags. by rewrite !toggle_bit. Qed.

Lemma freeze_bit u c F : Z.testbit (freeze_flags u c F) 20 = Z.testbit F 20.
Proof.
  unfold freeze_flags. destruct (_ && _ && _); rewrite ?Z.land_spec; change (Z.testbit (not32 lsfGlobalFreeze) 20) with true;
    rewrite ?andb_true_r; destruct (u =? asfGlobalFreeze), (u =? asfNoFreeze); rewrite ?Z.lor_spec;
    change (Z.testbit lsfGlobalFreeze 20) with false; change (Z.testbit lsfNoFreeze 20) with false; by rewrite ?orb_false_r.
Qed.

(** The master key is disabled only if there is another way to sign. *)
Lemma disable_spec info master u c F st :
  Z.testbit F 20 = Z.testbit (au_flags st) 20 → kept st →
  aspec (disable_master info (account_ a) (kl_key (kl_account (account_ a))) master u c (au_flags st) F) st
    (λ r st', st' = st ∧ match r with inr F' => kept (mkAuth F' (au_key st) (au_list st)) | inl ter => ter ≠ tesSUCCESS end).
Proof.
  intros HF [Hs Hk]. rewrite (signable_key _ _ Hk) in Hs.
  assert (Hclear : ∀ F', negb (Z.testbit F' 20) || has_key st || au_list st = true →
    kept (mkAuth (if (c =? asfDisableMaster) && flagged (au_flags st) lsfDisableMaster
                      then Z.land F' (not32 lsfDisableMaster) else F') (au_key st) (au_list st))).
  { intros F' HF'. split; [|done]. rewrite signable_key by done. unfold has_key. cbn [au_flags au_key au_list]. fold (has_key st).
    destruct (_ && _); [|done]. rewrite Z.land_spec. change (Z.testbit (not32 lsfDisableMaster) 20) with false. by rewrite andb_false_r. }
  unfold disable_master. destruct ((u =? asfDisableMaster) && _).
  2: { astep. split; [done|]. apply Hclear. by rewrite HF. }
  destruct (negb master); [by astep|]. astep. apply aspec_load. intros c0 x Hx. rewrite (described_key _ _ _ Hx). apply aspec_bind.
  eapply (aspec_mono _ _ _ (λ alone st', st' = st ∧ alone = negb (has_key st) && negb (au_list st))).
  2: { destruct (has_key st); [by astep|]. astep. astep. astep. split; [done|]. by destruct (au_list st). }
  intros alone st' [-> ->]. destruct (negb (has_key st) && negb (au_list st)) eqn:E.
  - astep. split; [done|]. by destruct (enabled _ _).
  - astep. split; [done|]. apply Hclear. destruct (has_key st); [by rewrite orb_true_r|]. destruct (au_list st); [by rewrite orb_true_r|done].
Qed.

Lemma set_or_unset_spec {V} (C : STClass V) `{!LawfulClass C} tx f empty st (Q : unit → auth → Prop) :
  fits C account_template f && may_miss f && negb (fieldCode f =? fieldCode sfFlags) &&
    negb (fieldCode f =? fieldCode sfRegularKey) && bool_decide (fieldCode f ∈ tcodes account_template) = true → Q tt st →
  aspec (set_or_unset C tx f empty (kl_key (kl_account (account_ a)))) st Q.
Proof.
  intros [[[[Hf Hm]%andb_true_iff Hfl]%andb_true_iff Hk%negb_true_iff]%andb_true_iff Hin]%andb_true_iff HQ.
  assert (Hst : st = mkAuth (au_flags st) (au_key st) (au_list st)) by (by destruct st).
  unfold set_or_unset. destruct (isFieldPresent tx f); [|by astep]. astep. apply aspec_from. intros v _. destruct (empty v).
  - apply aspec_absent; [by rewrite Hin, Hm, Hfl|]. rewrite Hk. by rewrite <- Hst.
  - apply (aspec_put _ C); [done|by apply Z.eqb_neq, negb_true_iff|]. rewrite Hk. by rewrite <- Hst.
Qed.

Lemma settings_spec tx st (Q : unit → auth → Prop) :
  Q tt st → aspec (account_settings tx (kl_key (kl_account (account_ a)))) st Q.
Proof.
  intros HQ. assert (Hst : st = mkAuth (au_flags st) (au_key st) (au_list st)) by (by destruct st). unfold account_settings.
  do 5 (apply aspec_bind, set_or_unset_spec; [apply _|vm_compute; reflexivity|]).
  destruct (isFieldPresent tx sfTickSize); [|by astep]. astep. apply aspec_from. intros n _. destruct (_ || _).
  - apply aspec_absent; [vm_compute; reflexivity|]. by rewrite Hst in HQ.
  - apply (aspec_put _ U8); [vm_compute; reflexivity|vm_compute; discriminate|]. by rewrite Hst in HQ.
Qed.

Lemma txnID_spec u c st (Q : unit → auth → Prop) :
  Q tt st → aspec (account_txnID u c (kl_key (kl_account (account_ a)))) st Q.
Proof.
  intros HQ. assert (Hst : st = mkAuth (au_flags st) (au_key st) (au_list st)) by (by destruct st). unfold account_txnID.
  astep. apply aspec_load. intros c0 x Hx. apply aspec_bind. eapply (aspec_mono _ _ _ (λ _ st', st' = st)).
  2: { destruct (_ && _); [|by astep]. eapply (aspec_change _ _ st st); [|done|done].
    intros o o' He Hf Hk Ho. apply made_present_edited in Ho as (H1 & H2 & H3);
      [by rewrite H2, H3|done|vm_compute; discriminate|vm_compute; discriminate|vm_compute; reflexivity..]. }
  intros _ st' ->. astep. apply aspec_load. intros c1 y Hy. destruct (_ && _); [|by astep].
  apply aspec_absent; [vm_compute; reflexivity|]. by rewrite Hst in HQ.
Qed.

Lemma account_spec st :
  kept st → aspec (SetAccount_doApply a) st (λ r st', r = tesSUCCESS → kept st').
Proof.
  intros Hs. unfold SetAccount_doApply. astep. apply aspec_bind, aspec_get_flags.
  do 2 (astep; apply aspec_from; intros ? _). astep. apply aspec_from. intros master _. cbv zeta. apply aspec_bind.
  eapply aspec_mono; [|apply disable_spec; [apply legacy_bit|done]]. intros res st' [-> Hr]. destruct res as [ter|F].
  { by astep. }
  destruct (_ && _ && _); [by astep|]. apply aspec_bind, txnID_spec, aspec_bind, settings_spec.
  set (out := if enabled _ featureDepositAuth then _ else _).
  assert (Hout : kept (mkAuth out (au_key st) (au_list st))).
  { destruct Hr as [Hr Hne]. split; [|done]. unfold signable in *. cbn [au_flags au_key au_list] in *. unfold out.
    destruct (enabled _ _); by rewrite ?choose_bit, ?freeze_bit, ?choose_bit. }
  destruct (negb _); [apply aspec_bind, aspec_put_flags; by astep|by astep].
Qed.

(** From the programs to their runs. *)
Lemma aspec_run {A} (p : view_prog A) s st x r s' (R : A → auth → Prop) :
  aspec p st R → described (account_ a) (core (vs_map s)) st x → run p s = Ret (r, s') →
  ∃ st' x', described (account_ a) (core (vs_map s')) st' x' ∧ R r st'.
Proof.
  intros H Hx Hr. refine (cspec_run p s r s' (λ r c', ∃ st' x', described (account_ a) c' st' x' ∧ R r st') _ Hr).
  intros b Hb. eapply H. by rewrite Hb.
Qed.
End Laws.

(** The ways to sign for an account, as the ledger has them: its master key, a regular key other
    than the account itself, or a list of signers. *)
Definition can_sign `{Hash : Sha512} (m : entries) (id : Z) : Prop :=
  ∃ x, lookup_kl m (kl_account id) = Some x ∧ entry account_template (sle_body x) ∧
    (isFlag (sle_body x) lsfDisableMaster = false ∨
     (isFieldPresent (sle_body x) sfRegularKey = true ∧ getAccountID (sle_body x) sfRegularKey ≠ Ret id) ∨
     lookup_kl m (kl_signers id) ≠ None).

(** The account is its own regular key. *)
Definition self_keyed `{Hash : Sha512} (m : entries) (id : Z) : Prop :=
  ∃ x, lookup_kl m (kl_account id) = Some x ∧
    isFieldPresent (sle_body x) sfRegularKey = true ∧ getAccountID (sle_body x) sfRegularKey = Ret id.

Lemma regular_get o id :
  entry account_template o →
  (isFieldPresent o sfRegularKey = true ∧ getAccountID o sfRegularKey = Ret id) ↔ regular o = Some id.
Proof.
  intros He. assert (Hf : fits AccountID account_template sfRegularKey = true) by (vm_compute; reflexivity).
  unfold getAccountID. rewrite (getFieldBy_val AccountID account_template _ _ He Hf). unfold regular.
  change (isFieldPresent o sfRegularKey) with (present o sfRegularKey). destruct (present o sfRegularKey); [|by split; [intros []|]].
  split; [by intros [_ [= ->]]|by intros [= ->]].
Qed.

Lemma can_sign_root `{Hash : Sha512} m id x :
  lookup_kl m (kl_account id) = Some x → entry account_template (sle_body x) →
  can_sign m id ↔ signable id (mkAuth (getFlags (sle_body x)) (regular (sle_body x)) (has_list id m)) = true.
Proof.
  intros Hx He. unfold signable. cbn [au_flags au_key au_list]. rewrite <- land_master.
  assert (Hf : fits AccountID account_template sfRegularKey = true) by (vm_compute; reflexivity).
  assert (Hk : (isFieldPresent (sle_body x) sfRegularKey = true ∧ getAccountID (sle_body x) sfRegularKey ≠ Ret id) ↔
    match regular (sle_body x) with Some k => negb (k =? id) | None => false end = true).
  { unfold getAccountID. rewrite (getFieldBy_val AccountID account_template _ _ He Hf). unfold regular.
    change (isFieldPresent (sle_body x) sfRegularKey) with (present (sle_body x) sfRegularKey).
    destruct (present _ _); [|by split; [intros []|]]. rewrite negb_true_iff, Z.eqb_neq. split; [|by intros ?; split; congruence].
    intros [_ Hne] Heq. apply Hne. by rewrite Heq. }
  assert (Hl : lookup_kl m (kl_signers id) ≠ None ↔ has_list id m = true).
  { unfold has_list. destruct (lookup_kl m (kl_signers id)); split; done. }
  unfold can_sign. rewrite !orb_true_iff, negb_true_iff, <- Hk, <- Hl. split.
  - intros (x' & Hx' & _ & Hs). rewrite Hx in Hx'. injection Hx' as <-. unfold isFlag in Hs. tauto.
  - intros Hs. exists x. unfold isFlag. tauto.
Qed.

Lemma can_sign_described `{Hash : Sha512} m id :
  can_sign m id ∧ ¬ self_keyed m id ↔ ∃ st x, described id (core m) st x ∧ kept id st.
Proof.
  assert (Hl : ∀ k, quiet (kl_type k) = false → 0 ≤ kl_type k → lookup_kl m k = lookup_kl (core m) k) by (intros k; apply lookup_core).
  assert (Hh : has_list id (core m) = has_list id m) by (unfold has_list; by rewrite <- (Hl (kl_signers id))).
  split.
  - intros [Hs Hn]. pose proof Hs as (x & Hx & He & _). rewrite (can_sign_root _ _ _ Hx He) in Hs.
    exists (mkAuth (getFlags (sle_body x)) (regular (sle_body x)) (has_list id m)), x.
    split; [split; [apply lookup_root; by rewrite <- (Hl (kl_account id))|done..]|]. split; [done|]. cbn [au_key].
    intros Hreg%regular_get; [|done]. apply Hn. by exists x.
  - intros (st & x & Hx & Hs & Hne). pose proof (de_entry _ _ _ _ Hx) as He.
    assert (Hr : lookup_kl m (kl_account id) = Some x) by (rewrite (Hl (kl_account id)) by done; apply lookup_root; apply Hx).
    rewrite (can_sign_root _ _ _ Hr He), <- Hh, (de_flags _ _ _ _ Hx), (de_key _ _ _ _ Hx), (de_list _ _ _ _ Hx).
    split; [by destruct st|]. intros (x' & Hx' & Hreg). rewrite Hr in Hx'. injection Hx' as <-.
    apply regular_get in Hreg; [|done]. by rewrite (de_key _ _ _ _ Hx) in Hreg.
Qed.

(** Without a way to sign, no transaction of the account passes the check of its signature. *)
Lemma cannot_sign_refused `{Hash : Sha512} `{Lib : Crypto} (ctx : PreclaimContext) m id x `{!ViewOf (pc_view ctx) m} :
  getAccountID (tx_obj (pc_tx ctx)) sfAccount = Ret id →
  lookup_kl m (kl_account id) = Some x → entry account_template (sle_body x) → ¬ can_sign m id →
  transactor_checkSign ctx ≠ Ret tesSUCCESS.
Proof.
  intros Hid Hx He Hn. assert (Hno : ¬ (isFlag (sle_body x) lsfDisableMaster = false ∨
    (isFieldPresent (sle_body x) sfRegularKey = true ∧ getAccountID (sle_body x) sfRegularKey ≠ Ret id) ∨
     lookup_kl m (kl_signers id) ≠ None)) by (intros H; apply Hn; by exists x). clear Hn.
  assert (Hsingle : transactor_checkSingleSign ctx ≠ Ret tesSUCCESS).
  { unfold transactor_checkSingleSign. rewrite Hid. cbn [mbind outcome_bind]. rewrite (vo_read _), Hx. cbn [need mbind outcome_bind].
    destruct (getSigningPubKey _) as [spk|]; [|done]. cbn [mbind outcome_bind]. destruct (publicKeyType spk) as [ty|]; [|done].
    destruct (Z.eqb_spec (calcAccountID spk) id) as [Heq|Hne].
    - destruct (isFlag _ _) eqn:E; [done|]. intros _. apply Hno. by left.
    - destruct (isFieldPresent _ _) eqn:E; [|done]. destruct (getAccountID (sle_body x) sfRegularKey) as [k|] eqn:Ek; [|done].
      cbn [mbind outcome_bind]. destruct (Z.eqb_spec (calcAccountID spk) k) as [Heq|]; [|done]. intros _. apply Hno. right. left.
      split; [done|]. congruence. }
  unfold transactor_checkSign. destruct (enabled _ _); [|done]. destruct (getSigningPubKey _) as [spk|] eqn:Es; [|done]. cbn [mbind outcome_bind].
  case_bool_decide; [|done]. unfold transactor_checkMultiSign. rewrite Hid. cbn [mbind outcome_bind]. rewrite (vo_read _).
  destruct (lookup_kl m (kl_signers id)) eqn:El; [|done]. intros _. apply Hno. right. by right.
Qed.

(** C11: an account never loses its last key, unless it is made its own regular key.  If an
    account can sign, with its master key, a regular key or a list of signers, and is not its
    own regular key, then both still hold after any transaction that sets or removes its regular
    key, changes its settings or its list of signers, and succeeds, provided it does not set the
    account as its own regular key.  The proviso is needed: see [own_key_locks_out]. *)
Theorem account_keeps_key `{Hash : Sha512} `{Lib : Crypto} (a : ApplyArgs) (s s' : vstate STObject) (p : view_prog TER)
    (Hp : p ∈ [SetRegularKey_doApply a; SetAccount_doApply a; SetSignerList_doApply a])
    (Hs : can_sign (vs_map s) (account_ a)) (Hown : ¬ self_keyed (vs_map s) (account_ a)) (Htx : ¬ names_itself a)
    (Hrun : run p s = Ret (tesSUCCESS, s')) :
  can_sign (vs_map s') (account_ a) ∧ ¬ self_keyed (vs_map s') (account_ a).
Proof.
  destruct (proj1 (can_sign_described _ _) (conj Hs Hown)) as (st & x & Hx & Hst). apply can_sign_described.
  assert (Hspec : aspec (account_ a) p st (λ r st', r = tesSUCCESS → kept (account_ a) st')).
  { apply elem_of_cons in Hp as [->|Hp]; [by apply regular_spec|].
    apply elem_of_cons in Hp as [->| ->%list_elem_of_singleton]; [by apply account_spec|by apply signers_spec]. }
  destruct (aspec_run a p s st x _ s' _ Hspec Hx Hrun) as (st' & x' & Hx' & HR). exists st', x'. auto.
Qed.

(** Account 5, which has a regular key, disables its master key. *)
Section Tests.
#[local] Existing Instance number_hash.
#[local] Instance test_crypto : Crypto := {|
  ec_pubkey := unit; ec_signature := unit;
  ec_pubkey_parse := λ _, Some tt; ecdsa_signature_parse_der := λ _, Some tt;
  ecdsa_signature_normalize := λ _, (true, tt); ecdsa_verify := λ _ _ _, true;
  ed25519_sign_open := λ _ _ _, true; ripesha := λ _, 5 |}.

Definition test_disable : STTx :=
  mkTx (mkObject None [(sfAccount, c_make AccountID 5); (sfSetFlag, c_make U32 asfDisableMaster); (sfClearFlag, NotPresent);
    (sfSigningPubKey, Blob (0xED :: replicate 32 7))]) 97 3.
Definition test_keyed_root : SLE STObject :=
  mkSLE (kl_key (kl_account 5)) ltACCOUNT_ROOT (set AccountID sfRegularKey 9 (sle_body (test_root 5 100))).
Definition test_keyed : vstate STObject := mkV {[kl_key (kl_account 5) := test_keyed_root]} ∅ ∅.

Lemma account_keeps_key_witness :
  ∃ s', run (SetAccount_doApply (test_args test_disable 600000000)) test_keyed = Ret (tesSUCCESS, s') ∧ can_sign (vs_map s') 5.
Proof.
  destruct (run_returns (run (SetAccount_doApply (test_args test_disable 600000000)) test_keyed) tesSUCCESS)
    as [s' E]; [vm_compute; reflexivity|]. exists s'. split; [exact E|].
  refine (proj1 (account_keeps_key (test_args test_disable 600000000) test_keyed s' _
    (list_elem_of_further _ _ _ (list_elem_of_here _ _)) _ _ _ E)).
  - exists test_keyed_root. split; [vm_compute; reflexivity|]. split; [|left; vm_compute; reflexivity].
    apply (set_entry AccountID account_template); [|vm_compute; reflexivity].
    apply (set_entry AmountC); [apply new_entry, account_format|apply fits_balance].
  - intros (x & Hx & _ & Hk). vm_compute in Hx. injection Hx as <-. vm_compute in Hk. discriminate Hk.
  - intros [Hp _]. vm_compute in Hp. discriminate Hp.
Defined.

(** Account 5, whose master key is disabled and whose regular key is 9, takes itself as
    regular key. *)
Definition test_own_key : STTx :=
  mkTx (mkObject None [(sfAccount, c_make AccountID 5); (sfRegularKey, c_make AccountID 5)]) 97 3.
Definition test_disabled_root : SLE STObject :=
  mkSLE (kl_key (kl_account 5)) ltACCOUNT_ROOT (set U32 sfFlags lsfDisableMaster (sle_body test_keyed_root)).
Definition test_disabled : vstate STObject := mkV {[kl_key (kl_account 5) := test_disabled_root]} ∅ ∅.

(** The transaction succeeds, and afterwards no transaction of the account passes the check of
    its signature, whatever it is and whoever signed it. *)
Lemma own_key_locks_out :
  ∃ s', run (SetRegularKey_doApply (test_args test_own_key 600000000)) test_disabled = Ret (tesSUCCESS, s') ∧
    can_sign (vs_map test_disabled) 5 ∧ ¬ can_sign (vs_map s') 5 ∧
    ∀ ctx, pc_view ctx = map_view (vs_map s') → getAccountID (tx_obj (pc_tx ctx)) sfAccount = Ret 5 →
      transactor_checkSign ctx ≠ Ret tesSUCCESS.
Proof.
  set (o := set AccountID sfRegularKey 5 (sle_body test_disabled_root)).
  assert (He : entry account_template (sle_body test_disabled_root)).
  { apply (set_entry U32 account_template); [|vm_compute; reflexivity]. apply (set_entry AccountID account_template); [|vm_compute; reflexivity].
    apply (set_entry AmountC); [apply new_entry, account_format|apply fits_balance]. }
  assert (Ho : entry account_template o) by (apply (set_entry AccountID account_template); [done|vm_compute; reflexivity]).
  destruct (run (SetRegularKey_doApply (test_args test_own_key 600000000)) test_disabled) as [[ter s']|] eqn:E; [|vm_compute in E; discriminate].
  assert (Hs : ter = tesSUCCESS ∧ vs_map s' = {[kl_key (kl_account 5) := mkSLE (kl_key (kl_account 5)) ltACCOUNT_ROOT o]}).
  { vm_compute in E. injection E as <- <-. split; vm_compute; reflexivity. }
  destruct Hs as [-> Hm]. exists s'. rewrite !Hm.
  assert (Hx : lookup_kl (vs_map s') (kl_account 5) = Some (mkSLE (kl_key (kl_account 5)) ltACCOUNT_ROOT o)) by (rewrite Hm; vm_compute; reflexivity).
  assert (Hn : ¬ can_sign (vs_map s') 5).
  { rewrite (can_sign_root _ _ _ Hx Ho), Hm. vm_compute. discriminate. }
  rewrite Hm in Hx, Hn. split_and!; [done| |done|].
  - exists test_disabled_root. split; [vm_compute; reflexivity|]. split; [done|]. right. left. split; vm_compute; [reflexivity|discriminate].
  - intros ctx Hv Hid. apply (cannot_sign_refused ctx _ 5 _ (ViewOf0 := eq_ind_r (λ v, ViewOf v _) (map_view_of _) Hv) Hid Hx Ho Hn).
Qed.
End Tests.
