(* ===== verification/TransactorLaws.v ===== *)
(** * What applying a transaction guarantees

    Whatever the code of a type of transactions does with its view, as long as the entries
    it inserts are new: when a transaction is committed, the invariants hold of the whole
    ledger and the XRP that is missing is the fee; when it only claims its fee, the
    sender's account is the only entry that has changed. *)

From stdpp Require Import base numbers list gmap strings.
From Stdlib Require Import Lia ZArith.
From S2P Require Import Prelude XRPAmount Serializer STAmount Quality StateTable SField STObject STObjectWire STObjectLaws.
From S2P Require Import Entry Indexes ApplyView ViewLogic Directory TxBase Invariants Keys HashRouter STTx LoadFeeTrack.
From S2P Require Import CoreLogic View ViewLaws XrpNeutral Transactor AccountTx EscrowLaws.

Local Open Scope Z_scope.

(** ** Programs without insertions *)

Fixpoint no_insert {F A} (p : prog F A) : Prop :=
  match p with
  | Done _ | Fail _ => True
  | Read _ c => ∀ x, no_insert (c x)
  | Peek _ c => ∀ x, no_insert (c x)
  | Load _ c => ∀ x, no_insert (c x)
  | Store _ _ c | Update _ c | Erase _ c => no_insert c
  | Insert _ _ => False
  | Succ _ _ c => ∀ x, no_insert (c x)
  end.

Lemma no_insert_fresh {F A} (p : prog F A) s : no_insert p → inserts_fresh p s.
Proof.
  revert s. induction p as [x|e|k c IH|k c IH|h c IH|h o c IH|h c IH|y c IH|h c IH|k l c IH]; cbn; auto; done.
Qed.

Lemma no_insert_bind {F A B} (p : prog F A) (f : A → prog F B) :
  no_insert p → (∀ a, no_insert (f a)) → no_insert (p ≫= f).
Proof.
  intros Hp Hf. induction p as [x|e|k c IH|k c IH|h c IH|h o c IH|h c IH|y c IH|h c IH|k l c IH]; cbn in *; auto.
Qed.

Lemma no_insert_from {F A} (m : outcome A) : no_insert (F := F) (from m).
Proof. by destruct m. Qed.

Lemma no_insert_get {V} (C : STClass V) h f : no_insert (get C h f).
Proof. intros x. apply no_insert_from. Qed.

Lemma no_insert_put {V} (C : STClass V) h f (v : V) : no_insert (put C h f v).
Proof. intros x. apply no_insert_bind; [apply no_insert_from|done]. Qed.

Create HintDb no_insert.
#[export] Hint Resolve no_insert_from no_insert_get no_insert_put : no_insert.

Ltac no_insert := repeat (cbn beta iota zeta; first
  [ apply no_insert_from | apply no_insert_get | apply no_insert_put | solve [eauto with no_insert]
  | apply no_insert_bind; [|intros ?] | progress cbn [no_insert mret prog_ret peek read load store update erase LogicError]; intros
  | match goal with |- no_insert (match ?x with _ => _ end) => destruct x end | exact I ]).

(** [inserts_fresh], decided by running the program. *)
Fixpoint fresh_run {F A} (p : prog F A) (s : vstate F) : bool :=
  match p with
  | Done _ | ApplyView.Fail _ => true
  | Read k c => fresh_run (c (lookup_kl (vs_map s) k)) s
  | Peek k c => fresh_run (c ((λ _, kl_key k) <$> lookup_kl (vs_map s) k)) s
  | Load h c => match vs_map s !! h with Some x => fresh_run (c x) s | None => true end
  | Store h o c => match vs_map s !! h with Some x => fresh_run c (stored h (set_body x o) s) | None => true end
  | Update h c => fresh_run c (saved h s)
  | Insert x c => match vs_map s !! sle_key x with Some _ => false | None => fresh_run c (inserted x s) end
  | Erase h c => fresh_run c (erased h s)
  | Succ key last c => fresh_run (c (map_succ (vs_map s) key last)) s
  end.

Lemma fresh_run_ok {F A} (p : prog F A) s : fresh_run p s = true → inserts_fresh p s.
Proof.
  revert s. induction p as [x|e|k c IH|k c IH|h c IH|h o c IH|h c IH|y c IH|h c IH|k l c IH]; intros s; cbn; auto.
  - destruct (vs_map s !! h); [|done]. intros H ? [= <-]. auto.
  - destruct (vs_map s !! h); [|done]. intros H ? [= <-]. by apply IH.
  - destruct (vs_map s !! sle_key y); [done|]. intros H. split; [done|]. by apply IH.
Qed.

Section NoInsert.
Context `{Hash : Sha512}.

Lemma no_insert_peek_or k msg : no_insert (peek_or k msg).
Proof. unfold peek_or. no_insert. Qed.
#[local] Hint Resolve no_insert_peek_or : no_insert.

Lemma no_insert_dirRemove d page key keep : no_insert (dirRemove d page key keep).
Proof. unfold dirRemove, dirRemove_root, dirRemove_page, dirRemove_last, throw_if. no_insert. Qed.
#[local] Hint Resolve no_insert_dirRemove : no_insert.

Lemma no_insert_offerDelete o : no_insert (offerDelete o).
Proof. unfold offerDelete, adjustOwnerCount, peek_deref. no_insert. Qed.
#[local] Hint Resolve no_insert_offerDelete : no_insert.

Lemma no_insert_remove_offers l n : no_insert (remove_offers l n).
Proof. revert n. induction l as [|k l IH]; intros n; cbn [remove_offers]; no_insert. Qed.

Lemma no_insert_reset_fee tx fee : no_insert (reset_fee tx fee).
Proof. unfold reset_fee, peek_deref. no_insert. Qed.
End NoInsert.

(** ** Tables *)

Lemma run_table_drops {F A} (base : ReadView F) (p : prog F A) hp t a hp' t' :
  run_table base p hp t = Ret (a, hp', t') → Apply.dropsDestroyed_ t' = Apply.dropsDestroyed_ t.
Proof.
  assert (Hpeek : ∀ k hp t r hp1 t1, Apply.ap_peek base k hp t = (r, hp1, t1) →
    Apply.dropsDestroyed_ t1 = Apply.dropsDestroyed_ t).
  { intros k h0 t0 r h1 t1. unfold Apply.ap_peek. repeat case_match; intros; by simplify_eq. }
  assert (Hptr : ∀ k hp t p hp1 t1, pointer base k hp t = Ret (p, hp1, t1) →
    Apply.dropsDestroyed_ t1 = Apply.dropsDestroyed_ t).
  { intros k h0 t0 p0 h1 t1. unfold pointer. destruct (Apply.ap_peek _ _ _ _) as [[r h2] t2] eqn:E.
    destruct r; [|done]. intros [= <- <- <-]. by eapply Hpeek. }
  revert hp t. induction p as [x|e|k c IH|k c IH|h c IH|h o c IH|h c IH|y c IH|h c IH|k l c IH]; intros hp t; cbn [run_table].
  - by intros [= _ _ <-].
  - done.
  - apply IH.
  - destruct (Apply.ap_peek base k hp t) as [[r h1] t1] eqn:E. intros H. rewrite (IH _ _ _ H). by eapply Hpeek.
  - destruct (pointer base h hp t) as [[[p h1] t1]|] eqn:E; [|done]. cbn [mbind outcome_bind].
    destruct (deref h1 p); [|done]. intros H. rewrite (IH _ _ _ H). by eapply Hptr.
  - destruct (pointer base h hp t) as [[[p h1] t1]|] eqn:E; [|done]. cbn [mbind outcome_bind].
    destruct (deref h1 p); [|done]. intros H. rewrite (IH _ _ H). by eapply Hptr.
  - destruct (pointer base h hp t) as [[[p h1] t1]|] eqn:E; [|done]. cbn [mbind outcome_bind].
    destruct (Apply.ap_update p t1) as [t2|] eqn:E2; [|done]. cbn [mbind outcome_bind]. intros H.
    rewrite (IH _ _ H). rewrite <- (Hptr _ _ _ _ _ _ E). unfold Apply.ap_update in E2.
    repeat case_match; try done; by injection E2 as <-.
  - destruct (alloc hp y) as [p h1]. destruct (Apply.ap_insert p t) as [t2|] eqn:E2; [|done]. cbn [mbind outcome_bind].
    intros H. rewrite (IH _ _ H). unfold Apply.ap_insert in E2. repeat case_match; try done; by injection E2 as <-.
  - destruct (pointer base h hp t) as [[[p h1] t1]|] eqn:E; [|done]. cbn [mbind outcome_bind].
    destruct (Apply.ap_erase p t1) as [t2|] eqn:E2; [|done]. cbn [mbind outcome_bind]. intros H.
    rewrite (IH _ _ H). rewrite <- (Hptr _ _ _ _ _ _ E). unfold Apply.ap_erase in E2.
    repeat case_match; try done; by injection E2 as <-.
  - apply IH.
Qed.

(** Committing a table to the ledger it is based on. *)
Lemma commit_ledger {F} (hp : heap F) m t (l : LedgerState F) :
  items_ok ApplyProofs.eff hp m (Apply.items_ t) → keyed m → l_map l = m →
  ∃ l', Apply.ap_apply hp t l = Ret l' ∧ l_map l' = committed hp m t ∧ keyed (l_map l') ∧
    l_drops l' = xrp_sub (l_drops l) (Apply.dropsDestroyed_ t).
Proof.
  intros Hok Hk Hl. rewrite <- (without_cache_apply hp t), apply_apply_effects.
  pose proof (without_cache_ok hp m t Hok) as [Hok' Hc'].
  destruct (apply_spec (H := ledger_laws hp) ApplyProofs.eff m (Apply.items_ (without_cache t)) l
    (Apply.dropsDestroyed_ (without_cache t))) as (l' & Hl' & Hinv & Habs); [by rewrite Hl|done|done|done|].
  exists l'. split; [done|]. split; [by rewrite Habs|]. split; [exact Hinv|].
  eapply (for_each_keeps _ l_drops) in Hl'; [exact Hl'|]. intros x v v'. apply ledger_effect_drops.
Qed.

(** ** Committed transactions *)

Section Applied.
Context `{Hash : Sha512} (T : TxType) (base : ReadView STObject) (m : entries) `{!ViewOf base m} (Hkey : keyed m).
Context (ctx : ApplyContext).
Local Abbreviation tx := (cx_tx ctx).
Local Abbreviation info := (cx_info ctx).
Local Abbreviation flags := (cx_flags ctx).

(** A table that is well formed and has not destroyed any XRP. *)
Definition good_table (hp : heap STObject) (t : Apply.ApplyStateTable) : Prop :=
  items_ok ApplyProofs.eff hp m (Apply.items_ t) ∧ Apply.dropsDestroyed_ t = xrp_zero.

Lemma run_fresh_good {A} (p : prog STObject A) hp a hp' t' :
  inserts_fresh p (mkV m ∅ ∅) → run_fresh base p hp = Ret (a, hp', t') → good_table hp' t'.
Proof using Hkey ViewOf0.
  intros Hf Hrun. destruct (run_table_sound base m Hkey p hp _ _ _ _ _ (sim_empty m hp) Hf Hrun) as (s' & _ & Hs).
  split; [apply Hs|]. by apply run_table_drops in Hrun.
Qed.

Lemma claim_fee_good result fee hp t fee' hp' t' :
  claim_fee base ctx result fee hp t = Ret (fee', hp', t') → good_table hp' t'.
Proof using Hkey ViewOf0.
  unfold claim_fee. set (both := (result =? tecOVERSIZE) || _).
  destruct (if both then _ else _) as [removed|]; [|done]. cbn [mbind outcome_bind].
  destruct (run_fresh base _ hp) as [[[f1 h1] t1]|] eqn:E1; [|done]. cbn [mbind outcome_bind].
  destruct both; [|by intros [= <- <- <-]; eapply run_fresh_good; [apply no_insert_fresh, no_insert_reset_fee|done]].
  destruct (run_table base _ h1 t1) as [[[f2 h2] t2]|] eqn:E2; [|done]. cbn [mbind outcome_bind]. intros [= <- <- <-].
  destruct (run_table_sound base m Hkey _ _ _ _ _ _ _ (sim_empty m hp)
    (no_insert_fresh _ _ (no_insert_reset_fee tx fee)) E1) as (s1 & _ & Hs1).
  destruct (run_table_sound base m Hkey _ _ _ _ _ _ _ Hs1
    (no_insert_fresh _ _ (no_insert_remove_offers removed _)) E2) as (s2 & _ & Hs2).
  split; [apply Hs2|]. apply run_table_drops in E1, E2. by rewrite E2, E1.
Qed.

Lemma check_twice_good result fee hp t r fee' hp' t' :
  enabled (v_rules info) featureEnforceInvariants = true →
  good_table hp t → check_twice base ctx result fee hp t = Ret (r, fee', hp', t') →
  isTecClaim r = true ∨ isTesSuccess r = true →
  good_table hp' t' ∧ run_checker InvariantChecks (Apply.ap_visit base hp' t') (tx_obj tx) r fee' = Ret true.
Proof using Hkey ViewOf0.
  intros Hen Hg. unfold check_twice. set (r1 := checkInvariants _ _ _ result fee).
  assert (Hpass : ∀ vs x f y, checkInvariants (v_rules info) vs (tx_obj tx) x f = y → y ≠ tecINVARIANT_FAILED ∨ x = tecINVARIANT_FAILED →
    isTecClaim y = true ∨ isTesSuccess y = true → run_checker InvariantChecks vs (tx_obj tx) y f = Ret true).
  { intros vs x f y <-. unfold checkInvariants, failInvariantCheck. rewrite Hen.
    destruct (run_checker _ vs _ x f) as [[]|] eqn:E; [done|..];
    (destruct (Z.eqb_spec x tecINVARIANT_FAILED), (Z.eqb_spec x tefINVARIANT_FAILED); cbn; intros [?|?] [?|?]; done). }
  destruct (Z.eqb_spec r1 tecINVARIANT_FAILED) as [E1|E1].
  - destruct (run_fresh base _ hp) as [[[f1 h1] t1]|] eqn:E; [|done]. cbn [mbind outcome_bind].
    intros [= Hr <- <- <-] Hok. split.
    + eapply run_fresh_good; [apply no_insert_fresh, no_insert_reset_fee|done].
    + eapply Hpass; [exact Hr|by right|done].
  - intros [= Hr <- <- <-] Hok. rewrite <- Hr. split; [done|].
    apply (Hpass _ result); [done|by left|by rewrite Hr].
Qed.

Lemma transact_good ter router hp x :
  enabled (v_rules info) featureEnforceInvariants = true →
  (ter = tesSUCCESS → inserts_fresh (transactor_apply T ctx router) (mkV m ∅ ∅)) →
  transact T base ctx ter router hp = Ret x → x_applied x = true →
  isTesSuccess (x_result x) || isTecClaim (x_result x) = true ∧
  items_ok ApplyProofs.eff (x_heap x) m (Apply.items_ (x_table x)) ∧
  ledger_checked m (committed (x_heap x) m (x_table x)) (tx_obj tx) (drops_ (x_fee x)) ∧
  Apply.dropsDestroyed_ (x_table x) = if v_open info then xrp_zero else x_fee x.
Proof using Hkey ViewOf0.
  intros Hen Hf. unfold transact.
  destruct (if ter =? tesSUCCESS then _ else _) as [[[[r1 ro1] h1] t1]|] eqn:E1; [|done]. cbn [mbind outcome_bind].
  assert (Hg1 : good_table h1 t1).
  { destruct (Z.eqb_spec ter tesSUCCESS) as [Hter|_]; [|injection E1 as _ _ <- <-; split; [apply map_Forall_empty|done]].
    destruct (run_fresh base _ hp) as [[[r h] t]|] eqn:E; [|done]. cbn [mbind outcome_bind] in E1.
    injection E1 as _ _ <- <-. eapply run_fresh_good; [|done]. by apply Hf. }
  destruct (getFieldAmount (tx_obj tx) sfFee) as [a|]; [|done]. cbn [mbind outcome_bind].
  destruct (xrp a) as [fee|]; [|done]. cbn [mbind outcome_bind]. cbv zeta.
  set (r2 := if oversizeMetaDataCap <? _ then _ else _).
  destruct (if hard_fail ctx r2 then _ else _) as [[[[ap f2] h2] t2]|] eqn:E2; [|done]. cbn [mbind outcome_bind].
  assert (Hg2 : good_table h2 t2).
  { destruct (hard_fail ctx r2); [|by injection E2 as _ _ <- <-].
    destruct (claim_fee base ctx r2 fee h1 t1) as [[[f h] t]|] eqn:E; [|done]. cbn [mbind outcome_bind] in E2.
    injection E2 as _ _ <- <-. by eapply claim_fee_good. }
  destruct ap; [|by intros [= <-]]. cbn [negb].
  destruct (check_twice base ctx r2 f2 h2 t2) as [[[[r3 f3] h3] t3]|] eqn:E3; [|done]. cbn [mbind outcome_bind].
  destruct (negb (isTecClaim r3) && negb (isTesSuccess r3)) eqn:Er; [by intros [= <-]|].
  destruct (check_twice_good _ _ _ _ _ _ _ _ Hen Hg2 E3) as [Hg3 Hrun].
  { destruct (isTecClaim r3), (isTesSuccess r3); auto. }
  destruct (xrp_signum f3 <? 0); [done|].
  pose proof (checks_committed base m h3 t3 (tx_obj tx) r3 f3 (proj1 Hg3) Hrun) as Hc.
  intros [= <-] _. cbn [x_heap x_table x_fee]. destruct Hg3 as [Hok Hd].
  set (t4 := if negb (v_open info) && _ then Apply.ap_destroyXRP f3 t3 else t3).
  assert (Hi : Apply.items_ t4 = Apply.items_ t3) by (unfold t4; by destruct (v_open info), (xrp_signum f3 =? 0)).
  unfold committed, without_cache, ApplyProofs.state in *. rewrite Hi. split_and!; [cbn; by destruct (isTecClaim r3), (isTesSuccess r3)|done|done|].
  unfold t4. destruct (v_open info); cbn [negb andb]; [done|].
  pose proof (lc_fee _ _ _ _ Hc) as Hfee. destruct f3 as [d]. cbn [drops_] in Hfee. unfold xrp_signum. cbn [drops_].
  destruct (Z.ltb_spec d 0); [lia|]. destruct (Z.eqb_spec d 0) as [->|]; [done|]. cbn.
  rewrite Hd. change SYSTEM_CURRENCY_START with (10 ^ 17) in Hfee. unfold xrp_add. cbn [drops_ xrp_zero].
  clear - Hfee. by rewrite i64_small by (unfold in_i64; lia).
Qed.
End Applied.

(** ** A table with one entry *)

Lemma run_table_bind {F A B} (base : ReadView F) (p : prog F A) (f : A → prog F B) hp t :
  run_table base (p ≫= f) hp t =
  match run_table base p hp t with Ret (a, hp', t') => run_table base (f a) hp' t' | Throw e => Throw e end.
Proof.
  revert hp t. induction p as [x|e|k c IH|k c IH|h c IH|h o c IH|h c IH|y c IH|h c IH|k l c IH]; intros hp t;
    cbn [run_table mbind prog_bind]; try done; try apply IH.
  - destruct (Apply.ap_peek base k hp t) as [[r h1] t1]. apply IH.
  - destruct (pointer base h hp t) as [[[p h1] t1]|]; [|done]. cbn. destruct (deref h1 p); [apply IH|done].
  - destruct (pointer base h hp t) as [[[p h1] t1]|]; [|done]. cbn. destruct (deref h1 p); [apply IH|done].
  - destruct (pointer base h hp t) as [[[p h1] t1]|]; [|done]. cbn. destruct (Apply.ap_update p t1); [apply IH|done].
  - destruct (alloc hp y) as [p h1]. destruct (Apply.ap_insert p t); [apply IH|done].
  - destruct (pointer base h hp t) as [[[p h1] t1]|]; [|done]. cbn. destruct (Apply.ap_erase p t1); [apply IH|done].
Qed.

Section Single.
Context {F : Type} (base : ReadView F).

(** The table with one entry, and what it points to. *)
Definition single (a : Apply.ApplyAction) (p : sptr) : Apply.ApplyStateTable :=
  Apply.mkApply {[pkey p := (a, p)]} xrp_zero.

Lemma pointer_single a p hp x :
  a ≠ Apply.erase → deref hp p = Some x → pointer base (pkey p) hp (single a p) = Ret (p, hp, single a p).
Proof.
  intros Ha Hx. unfold pointer, Apply.ap_peek, single. cbn. rewrite lookup_singleton_eq.
  destruct a; try done; by rewrite Hx.
Qed.
End Single.

Lemma table_get {V} (C : STClass V) base a p f hp x v :
  a ≠ Apply.erase → deref hp p = Some x → getFieldBy C (sle_body x) f = Ret v →
  run_table base (get C (pkey p) f) hp (single a p) = Ret (v, hp, single a p).
Proof.
  intros Ha Hx Hv. unfold get. rewrite run_table_bind. cbn [run_table load].
  rewrite (pointer_single base a p hp x) by done. cbn. rewrite Hx. cbn. by rewrite Hv.
Qed.

Lemma table_put {V} (C : STClass V) base a p f v hp x o :
  a ≠ Apply.erase → deref hp p = Some x → setFieldUsing C f v (sle_body x) = Ret o →
  run_table base (put C (pkey p) f v) hp (single a p) = Ret (tt, <[addr p := set_body x o]> hp, single a p).
Proof.
  intros Ha Hx Ho. unfold put. rewrite run_table_bind. cbn [run_table load].
  rewrite (pointer_single base a p hp x) by done. cbn. rewrite Hx. cbn. rewrite Ho. cbn.
  rewrite (pointer_single base a p hp x) by done. cbn. by rewrite Hx.
Qed.

Lemma table_update {F} (base : ReadView F) p hp x :
  deref hp p = Some x →
  run_table base (update (pkey p)) hp (single Apply.cache p) = Ret (tt, hp, single Apply.modify p).
Proof.
  intros Hx. cbn [run_table update]. rewrite (pointer_single base _ p hp x) by done. cbn.
  unfold Apply.ap_update, single. cbn. rewrite lookup_singleton_eq, bool_decide_true by done. cbn.
  unfold Apply.ap_put. cbn. by rewrite insert_singleton_eq.
Qed.

Lemma table_peek_deref (base : ReadView STObject) k hp x :
  rv_read base k = Some x → sle_key x = kl_key k →
  ∃ p hp1, run_table base (peek_deref k) hp Apply.empty_table = Ret (pkey p, hp1, single Apply.cache p) ∧
    deref hp1 p = Some x ∧ pkey p = kl_key k.
Proof.
  intros Hr Hk. pose proof (ApplyProofs.alloc_spec hp x) as Ha. unfold peek_deref, peek_or.
  destruct (alloc hp x) as [p hp1] eqn:E. destruct Ha as (_ & [Hp _] & Hpk). exists p, hp1.
  split_and!; [|done|congruence]. rewrite run_table_bind. cbn [run_table peek]. unfold Apply.ap_peek.
  cbn [Apply.items_ Apply.empty_table]. rewrite lookup_empty, Hr, E. cbn. unfold Apply.ap_put, single. by rewrite Hpk.
Qed.

Lemma visit_single base (m : entries) `{!ViewOf base m} hp p :
  Apply.ap_visit base hp (single Apply.modify p) = [(pkey p, false, m !! pkey p, deref hp p)].
Proof. unfold Apply.ap_visit, single. cbn. rewrite in_order_singleton. cbn. by rewrite (read_base base m). Qed.

Lemma committed_single {F} (m : gmap Z (SLE F)) hp p y :
  deref hp p = Some y → committed hp m (single Apply.modify p) = <[pkey p := y]> m.
Proof.
  intros Hy. unfold committed, without_cache, single, ApplyProofs.state. cbn [Apply.items_].
  rewrite map_filter_singleton_True by done. apply map_eq. intros k. rewrite lookup_overlay.
  destruct (decide (k = pkey p)) as [->|Hne].
  - rewrite lookup_singleton_eq, lookup_insert_eq. cbn. done.
  - by rewrite lookup_singleton_ne, lookup_insert_ne by done.
Qed.

(** ** Claiming the fee *)

Section Claim.
Context `{Hash : Sha512}.
Local Abbreviation akey id := (kl_key (kl_account id)).

(** The account after the fee has been taken. *)
Definition fee_root (b : STAmount) (seq : Z) (x : SLE STObject) : SLE STObject :=
  set_field U32 sfSequence seq (with_balance b x).

(** The sender of a transaction. *)
Record sender_ok (m : entries) (tx : STTx) (id seq : Z) (x : SLE STObject) (d : Z) : Prop := mkSender {
  so_account : getAccountID (tx_obj tx) sfAccount = Ret id;
  so_sequence : getSequence tx = Ret seq;
  so_root : lookup_kl m (kl_account id) = Some x;
  so_entry : entry account_template (sle_body x);
  so_balance : drops_of (balance x) d;
  so_positive : 0 ≤ d }.

Lemma st_of_xrp_drops d : 0 ≤ d ≤ cMaxNativeN → ∃ b, st_of_xrp (mkXRP d) = Ret b ∧ drops_of b d.
Proof.
  intros Hd. assert (Hn : native_ok (mkAmount xrpIssue d 0 true false)).
  { unfold native_ok, STAmount.canonical. cbn. unfold cMaxNativeN in *. repeat split; done || lia. }
  exists (mkAmount xrpIssue d 0 true false). split; [by apply (st_of_xrp_native (mkAmount xrpIssue d 0 true false))|done].
Qed.

Lemma fits_sequence : fits U32 account_template sfSequence = true.
Proof. vm_compute. reflexivity. Qed.

Context (base : ReadView STObject) (m : entries) `{!ViewOf base m} (Hkey : keyed m).
Context (tx : STTx) (id seq d : Z) (x : SLE STObject) (Hs : sender_ok m tx id seq x d).

(** Charging a fee: the account pays what it has, at most. *)
Lemma reset_fee_table fee hp :
  0 ≤ fee →
  ∃ b p hp', st_of_xrp (mkXRP (d - Z.min d fee)) = Ret b ∧ pkey p = akey id ∧
    run_fresh base (reset_fee tx (mkXRP fee)) hp = Ret (mkXRP (Z.min d fee), hp', single Apply.modify p) ∧
    deref hp' p = Some (fee_root b (u32 (seq + 1)) x).
Proof using Hkey Hs ViewOf0.
  intros Hfee. destruct Hs as [Hacc Hseq Hroot He Hd Hd0].
  pose proof (drops_of_bound _ _ Hd) as Hb.
  destruct (st_of_xrp_drops (d - Z.min d fee)) as (b & Eb & Hbd); [lia|].
  destruct (table_peek_deref base (kl_account id) hp x) as (p & hp1 & Hpeek & Hp & Hpk).
  { by rewrite vo_read. } { apply lookup_root in Hroot as [Hx _]. exact (Hkey _ _ Hx). }
  exists b, p, (<[addr p := fee_root b (u32 (seq + 1)) x]> (<[addr p := with_balance b x]> hp1)).
  split_and!; [done|done| |by unfold deref; rewrite lookup_insert_eq].
  unfold run_fresh, reset_fee. rewrite run_table_bind, Hacc. cbn [run_table from].
  rewrite run_table_bind, Hpeek.
  assert (He' : entry account_template (sle_body (with_balance b x))).
  { apply (set_entry AmountC); [done|apply fits_balance]. }
  rewrite run_table_bind, (table_get AmountC base _ p _ hp1 x (balance x)); [|done|done|].
  2: { apply (getFieldBy_val AmountC account_template); [done|apply fits_balance]. }
  rewrite run_table_bind, (xrp_drops (balance x)) by apply Hd. cbn [run_table from].
  replace (drops_view (balance x)) with d by (symmetry; apply Hd). cbv zeta.
  assert (Emin : (if xrp_lt (mkXRP d) (mkXRP fee) then mkXRP d else mkXRP fee) = mkXRP (Z.min d fee)).
  { unfold xrp_lt. cbn. destruct (Z.ltb_spec d fee); f_equal; lia. }
  rewrite Emin. assert (Esub : xrp_sub (mkXRP d) (mkXRP (Z.min d fee)) = mkXRP (d - Z.min d fee)).
  { unfold xrp_sub. cbn. rewrite i64_small; [done|]. unfold in_i64, cMaxNativeN in *. lia. }
  rewrite Esub, run_table_bind, Eb. cbn [run_table from].
  rewrite run_table_bind, (table_put AmountC base _ p _ b hp1 x (set AmountC sfBalance b (sle_body x))); [|done|done|].
  2: { apply (set_ret AmountC account_template); [done|apply fits_balance]. }
  rewrite run_table_bind, Hseq. cbn [run_table from].
  rewrite run_table_bind, (table_put U32 base _ p _ (u32 (seq + 1)) _ (with_balance b x)
    (set U32 sfSequence (u32 (seq + 1)) (sle_body (with_balance b x)))); [|done|by unfold deref; rewrite lookup_insert_eq|].
  2: { apply (set_ret U32 account_template); [done|apply fits_sequence]. }
  rewrite run_table_bind, (table_update base p _ (fee_root b (u32 (seq + 1)) x)); [done|].
  unfold deref. by rewrite lookup_insert_eq.
Qed.

Lemma fee_root_entry b n :
  entry account_template (sle_body x) →
  entry account_template (sle_body (fee_root b n x)) ∧ balance (fee_root b n x) = b.
Proof.
  intros He. assert (He' : entry account_template (sle_body (with_balance b x))).
  { apply (set_entry AmountC); [done|apply fits_balance]. }
  split; [apply (set_entry U32); [done|apply fits_sequence]|].
  rewrite <- (balance_set b x He) at 2. apply (val_set_ne U32 AmountC account_template); [done|apply fits_sequence|done].
Qed.

Lemma root_reads (y : SLE STObject) n :
  entry account_template (sle_body y) → drops_of (balance y) n → sle_type y = ltACCOUNT_ROOT → 0 ≤ n →
  XRPBalance_isBad (sle_body y) = Ret false ∧ entry_drops y = Ret n.
Proof.
  intros He Hn Ht Hn0. pose proof (drops_of_bound _ _ Hn) as Hmax. change cMaxNativeN with SYSTEM_CURRENCY_START in Hmax.
  assert (Hg : get_at AmountC (sle_body y) sfBalance = Ret (balance y)).
  { apply (get_at_val AmountC account_template); [done|apply fits_balance|by apply present_balance]. }
  assert (Hx : xrp (balance y) = Ret (mkXRP n)) by (rewrite <- (proj2 Hn); apply xrp_drops; apply Hn).
  unfold XRPBalance_isBad, entry_drops. rewrite Ht, Z.eqb_refl, Hg. cbn [mbind outcome_bind].
  rewrite Hx. replace (mIsNative (balance y)) with true by (symmetry; apply Hn). cbn [mbind outcome_bind drops_ negb].
  split; [|done]. destruct (Z.ltb_spec SYSTEM_CURRENCY_START n), (Z.ltb_spec n 0); done || lia.
Qed.

(** Taking the fee and nothing else passes the invariants. *)
Lemma fee_only_checked k b fee f ter :
  drops_of b (d - Z.min d f) → 0 ≤ f < SYSTEM_CURRENCY_START →
  getFieldAmount (tx_obj tx) sfFee = Ret fee → xrp fee = Ret (mkXRP f) →
  run_checker InvariantChecks [(k, false, Some x, Some (fee_root b (u32 (seq + 1)) x))] (tx_obj tx) ter
    (mkXRP (Z.min d f)) = Ret true.
Proof using Hs.
  intros Hb Hf Ha Hx. destruct Hs as [_ _ [_ Ht]%lookup_root He Hd Hd0].
  destruct (fee_root_entry b (u32 (seq + 1)) He) as [Hey Hby]. set (y := fee_root b (u32 (seq + 1)) x) in *.
  assert (Hty : sle_type y = ltACCOUNT_ROOT) by done. rewrite <- Hby in Hb.
  destruct (root_reads x d He Hd Ht Hd0) as [Hx1 Hx2].
  destruct (root_reads y _ Hey Hb Hty) as [Hy1 Hy2]; [lia|].
  pose proof (drops_of_bound _ _ Hd) as Hmax. change cMaxNativeN with (10 ^ 17) in Hmax.
  unfold InvariantChecks. rewrite !run_both. unfold run_checker. cbn [visit_all visitEntry TransactionFeeCheck AccountRootsNotDeleted
    LedgerEntryTypesMatch XRPBalanceChecks XRPNotCreated NoXRPTrustLines NoBadOffers NoZeroEscrow bad_checker bad_entry when
    mbind outcome_bind finalize ic_init]. rewrite Ht, Hty. split_and!; try done.
  - rewrite Ha. cbn [mbind outcome_bind drops_]. rewrite Hx. cbn [mbind outcome_bind]. unfold xrp_lt. cbn [drops_].
    destruct (Z.ltb_spec (Z.min d f) 0), (Z.leb_spec SYSTEM_CURRENCY_START (Z.min d f)), (Z.ltb_spec f (Z.min d f)); done || lia.
  - rewrite Z.eqb_refl, Hx1, Hy1. done.
  - unfold XRPNotCreated_visitEntry. rewrite Hx2, Hy2. cbn [mbind outcome_bind andb drops_].
    rewrite (i64_small (0 - d)) by (unfold in_i64; lia). rewrite i64_small by (unfold in_i64; lia).
    replace (0 - d + (d - Z.min d f)) with (- Z.min d f) by lia. rewrite Z.opp_involutive.
    rewrite i64_small by (unfold in_i64; lia). rewrite Z.eqb_refl. destruct (Z.ltb_spec 0 (- Z.min d f)); [lia|done].
Qed.
End Claim.

(** ** Atomicity *)

Lemma doApply_checked `{Hash : Sha512} (T : TxType) (base : ReadView STObject) (info : ViewInfo) (tx : STTx)
    (flags now : Z) (track : LoadFeeTrack) (seq : Z) (ter : TER) (router : HashRouter)
    (l l' : LedgerState STObject) (r : TER) (applied : bool)
    (Hb : ViewOf base (l_map l)) (Hkey : keyed (l_map l))
    (Hen : enabled (v_rules info) featureEnforceInvariants = true)
    (Hf : ∀ baseFee, ter = tesSUCCESS → t_calculateBaseFee base info tx = Ret baseFee →
      inserts_fresh (transactor_apply T (mkContext tx info flags baseFee now track) router) (mkV (l_map l) ∅ ∅))
    (Hrun : tx_doApply T base info tx flags now track seq ter router l = (r, applied, l')) :
  if applied then
    isTesSuccess r || isTecClaim r = true ∧
    ∃ fee, ledger_checked (l_map l) (l_map l') (tx_obj tx) fee ∧
      l_drops l' = xrp_sub (l_drops l) (if v_open info then xrp_zero else mkXRP fee) ∧ keyed (l_map l')
  else l' = l.
Proof.
  unfold tx_doApply in Hrun. destruct (negb (seq =? v_seq info)); [by injection Hrun as _ <- <-|].
  destruct (negb (likelyToClaimFee ter flags)); [by injection Hrun as _ <- <-|].
  destruct (t_calculateBaseFee base info tx) as [baseFee|] eqn:Eb; [|by injection Hrun as _ <- <-]. cbn [mbind outcome_bind] in Hrun.
  set (ctx := mkContext tx info flags baseFee now track) in *.
  destruct (transact T base ctx ter router ∅) as [x|] eqn:Ex; [|by injection Hrun as _ <- <-]. cbn [mbind outcome_bind] in Hrun.
  destruct (x_applied x) eqn:Ea; [|by injection Hrun as _ <- <-].
  destruct (transact_good T base (l_map l) Hkey ctx ter router ∅ x Hen (λ Hter, Hf baseFee Hter eq_refl) Ex Ea) as (Hres & Hok & Hc & Hd).
  destruct (commit_ledger (x_heap x) (l_map l) (x_table x) l Hok Hkey eq_refl) as (l1 & Hl1 & Hm & Hk1 & Hdr).
  rewrite Hl1 in Hrun. injection Hrun as <- <- <-. split; [done|]. exists (drops_ (x_fee x)). change (cx_info ctx) with info in Hd. rewrite Hdr, Hd.
  split; [rewrite Hm; exact Hc|]. split; [|exact Hk1]. destruct (v_open info); [done|]. by destruct (x_fee x).
Qed.

(** C9: applying a transaction is all or nothing.  Whatever the code of its type does with
    its view, as long as the entries it inserts are new: either the transaction is not
    applied and the ledger is unchanged, or it has succeeded or claims a fee, the
    invariants hold of the whole ledger, and on a closed ledger the fee has been taken
    out of the XRP in existence. *)
Theorem doApply_sound `{Hash : Sha512} (T : TxType) (base : ReadView STObject) (info : ViewInfo) (tx : STTx)
    (flags now : Z) (track : LoadFeeTrack) (seq : Z) (ter : TER) (router : HashRouter)
    (l l' : LedgerState STObject) (r : TER) (applied : bool)
    (Hb : ViewOf base (l_map l)) (Hkey : keyed (l_map l))
    (Hen : enabled (v_rules info) featureEnforceInvariants = true)
    (Hf : ∀ baseFee, inserts_fresh (transactor_apply T (mkContext tx info flags baseFee now track) router) (mkV (l_map l) ∅ ∅))
    (Hrun : tx_doApply T base info tx flags now track seq ter router l = (r, applied, l')) :
  if applied then
    isTesSuccess r || isTecClaim r = true ∧
    ∃ fee, ledger_checked (l_map l) (l_map l') (tx_obj tx) fee ∧
      l_drops l' = xrp_sub (l_drops l) (if v_open info then xrp_zero else mkXRP fee)
  else l' = l.
Proof.
  pose proof (doApply_checked T base info tx flags now track seq ter router l l' r applied Hb Hkey Hen (λ baseFee _ _, Hf baseFee) Hrun) as H.
  destruct applied; [|exact H]. destruct H as (Hr & fee & Hc & Hd & _). eauto.
Qed.

(** ** A fee is always claimed *)

Section ClaimFee.
Context `{Hash : Sha512} (T : TxType) (base : ReadView STObject) (m : entries) `{!ViewOf base m} (Hkey : keyed m).
Context (ctx : ApplyContext) (id seq d f : Z) (x : SLE STObject) (a : STAmount).
Local Abbreviation tx := (cx_tx ctx).
Context (Hs : sender_ok m tx id seq x d) (Ha : getFieldAmount (tx_obj tx) sfFee = Ret a) (Hx : xrp a = Ret (mkXRP f))
  (Hf : 0 ≤ f < SYSTEM_CURRENCY_START).

(** How a transaction comes to claim its fee, and the offers that it has found unfunded:
    [preclaim] said so, or the code of its type, or the code was killed or changed too much, or
    the invariants failed. *)
Inductive claims (pre : TER) (router : HashRouter) (hp : heap STObject) : TER → list Z → HashRouter → Prop :=
  | claims_preclaim : isTecClaim pre = true → claims pre router hp pre [] router
  | claims_apply r router' hp' t : pre = tesSUCCESS →
      run_fresh base (transactor_apply T ctx router) hp = Ret ((r, router'), hp', t) →
      Z.of_nat (Apply.ap_size t) ≤ oversizeMetaDataCap →
      isTecClaim r = true → r ≠ tecOVERSIZE → r ≠ tecKILLED → claims pre router hp r [] router'
  | claims_killed r c offers router' hp' t : pre = tesSUCCESS →
      run_fresh base (transactor_apply T ctx router) hp = Ret ((r, router'), hp', t) →
      c = (if oversizeMetaDataCap <? Z.of_nat (Apply.ap_size t) then tecOVERSIZE else r) →
      c = tecOVERSIZE ∨ c = tecKILLED → removed_offers (Apply.ap_visit base hp' t) = Ret offers →
      claims pre router hp c offers router'
  | claims_invariants router' hp' t : pre = tesSUCCESS →
      run_fresh base (transactor_apply T ctx router) hp = Ret ((tesSUCCESS, router'), hp', t) →
      Z.of_nat (Apply.ap_size t) ≤ oversizeMetaDataCap → enabled (v_rules (cx_info ctx)) featureEnforceInvariants = true →
      run_checker InvariantChecks (Apply.ap_visit base hp' t) (tx_obj tx) tesSUCCESS (mkXRP f) ≠ Ret true →
      claims pre router hp tecINVARIANT_FAILED [] router'.

Context (b : STAmount) (Eb : st_of_xrp (mkXRP (d - Z.min d f)) = Ret b).
Local Abbreviation akey := (kl_key (kl_account id)).

(** The ledger with the fee taken, and the view of it. *)
Definition fee_map : entries := <[akey := fee_root b (u32 (seq + 1)) x]> m.
Definition fee_view : vstate STObject := mkV fee_map {[akey]} ∅.

(** The table after the fee has been taken. *)
Definition fee_taken (hp : heap STObject) (t : Apply.ApplyStateTable) : Prop :=
  ∃ p, pkey p = akey ∧ t = single Apply.modify p ∧ deref hp p = Some (fee_root b (u32 (seq + 1)) x).

Lemma reset_taken g hp :
  0 ≤ g → Z.min d g = Z.min d f →
  ∃ hp' t', run_fresh base (reset_fee tx (mkXRP g)) hp = Ret (mkXRP (Z.min d f), hp', t') ∧ fee_taken hp' t'.
Proof using Eb Hkey Hs ViewOf0.
  intros Hg He. destruct (reset_fee_table base m Hkey tx id seq d x Hs g hp Hg) as (b' & p & hp' & Hb & Hp & Hr & Hd).
  rewrite He in *. rewrite Eb in Hb. injection Hb as <-. exists hp', (single Apply.modify p). split; [done|]. by exists p.
Qed.

Lemma fee_drops : drops_of b (d - Z.min d f).
Proof using Eb Hf Hs.
  pose proof (so_positive _ _ _ _ _ _ Hs) as Hd0. pose proof (drops_of_bound _ _ (so_balance _ _ _ _ _ _ Hs)) as Hmax.
  destruct (st_of_xrp_drops (d - Z.min d f)) as (b' & Hb' & Hd'); [lia|]. rewrite Eb in Hb'. by injection Hb' as <-.
Qed.

Lemma taken_sim hp t : fee_taken hp t → sim m hp t fee_view ∧ Apply.dropsDestroyed_ t = xrp_zero.
Proof using Hkey Hs.
  intros (p & Hp & -> & Hd). split; [|done]. pose proof (so_root _ _ _ _ _ _ Hs) as [Hroot _]%lookup_root.
  assert (Hok : items_ok ApplyProofs.eff hp m (Apply.items_ (single Apply.modify p))).
  { apply map_Forall_singleton. split_and!; [done| |split; [done|]]; cbn.
    - intros _. exists (fee_root b (u32 (seq + 1)) x). split; [done|]. cbn. rewrite Hp. exact (Hkey _ _ Hroot).
    - rewrite Hp, Hroot. done. }
  split; [done|..]; cbn [fee_view vs_map vs_saved vs_dirty].
  - unfold fee_map. rewrite <- Hp, <- (committed_single m hp p _ Hd). symmetry. apply committed_clean. split; [done|].
    by apply map_Forall_singleton.
  - intros k ->%elem_of_singleton. exists Apply.modify, p. split; [|by right]. rewrite <- Hp. apply lookup_singleton_eq.
  - intros k q Hk _. cbn [Apply.items_ single] in Hk. apply lookup_singleton_Some in Hk as [_ Hk]. discriminate Hk.
Qed.

Lemma taken_checked hp t r :
  fee_taken hp t → run_checker InvariantChecks (Apply.ap_visit base hp t) (tx_obj tx) r (mkXRP (Z.min d f)) = Ret true.
Proof using Eb Ha Hf Hs Hx ViewOf0.
  intros (p & Hp & -> & Hd). rewrite (visit_single base m), Hd, Hp.
  pose proof (so_root _ _ _ _ _ _ Hs) as [Hroot _]%lookup_root. rewrite Hroot.
  exact (fee_only_checked m tx id seq d x Hs _ b a f r fee_drops Hf Ha Hx).
Qed.

Lemma check_taken r hp t :
  fee_taken hp t →
  checkInvariants (v_rules (cx_info ctx)) (Apply.ap_visit base hp t) (tx_obj tx) r (mkXRP (Z.min d f)) = r.
Proof using Eb Ha Hf Hs Hx ViewOf0.
  intros Ht. unfold checkInvariants. rewrite (taken_checked hp t r Ht). by destruct (enabled _ _).
Qed.

(** The checks let the fee pass; what else was done is given up if they do not let it pass. *)
Lemma check_twice_claims r hp t s (offers : list Z) :
  sim m hp t s → Apply.dropsDestroyed_ t = xrp_zero →
  (offers = [] → fee_taken hp t ∧ s = fee_view) → (offers ≠ [] → r = tecOVERSIZE ∨ r = tecKILLED) →
  ∃ r' hp' t' s', check_twice base ctx r (mkXRP (Z.min d f)) hp t = Ret (r', mkXRP (Z.min d f), hp', t') ∧
    sim m hp' t' s' ∧ Apply.dropsDestroyed_ t' = xrp_zero ∧
    (r' = r ∧ s' = s ∨
     r' = tecINVARIANT_FAILED ∧ offers ≠ [] ∧ enabled (v_rules (cx_info ctx)) featureEnforceInvariants = true ∧ s' = fee_view).
Proof using Eb Ha Hf Hkey Hs Hx ViewOf0.
  intros Hsim Hz Hnone Hsome. unfold check_twice. set (r1 := checkInvariants _ _ _ r _).
  pose proof (so_positive _ _ _ _ _ _ Hs) as Hd0.
  destruct (reset_taken (Z.min d f) hp) as (hp' & t' & Hr & Ht'); [lia|lia|]. destruct (taken_sim _ _ Ht') as [Hsim' Hz'].
  destruct (decide (offers = [])) as [He|Hne].
  - destruct (Hnone He) as [Ht ->]. unfold r1. rewrite (check_taken r hp t Ht). destruct (r =? tecINVARIANT_FAILED); [|eauto 10].
    rewrite Hr. cbn [mbind outcome_bind]. rewrite (check_taken r hp' t' Ht'). eauto 10.
  - assert (Hr1 : r1 = r ∨ r1 = tecINVARIANT_FAILED ∧ enabled (v_rules (cx_info ctx)) featureEnforceInvariants = true).
    { unfold r1, checkInvariants. destruct (enabled _ _); [|by left]. destruct (run_checker _ _ _ _ _) as [[]|]; [by left|..];
        right; (split; [|done]); by destruct (Hsome Hne) as [->| ->]. }
    destruct Hr1 as [->|[-> Hen]].
    + rewrite (proj2 (Z.eqb_neq r tecINVARIANT_FAILED)) by (by destruct (Hsome Hne) as [->| ->]). eauto 10.
    + rewrite Z.eqb_refl, Hr. cbn [mbind outcome_bind]. rewrite (check_taken _ hp' t' Ht'). eauto 15.
Qed.

(** Claiming the fee of a transaction whose changes are dropped. *)
Lemma claim_fee_claims r (offers : list Z) hp t :
  (r ≠ tecOVERSIZE ∧ r ≠ tecKILLED ∧ offers = []) ∨
    ((r = tecOVERSIZE ∨ r = tecKILLED) ∧ removed_offers (Apply.ap_visit base hp t) = Ret offers) →
  match ApplyView.run (removeUnfundedOffers offers) fee_view with
  | Throw _ => offers ≠ [] ∧ ∃ e, claim_fee base ctx r (mkXRP f) hp t = Throw e
  | Ret (_, s') => ∃ hp' t', claim_fee base ctx r (mkXRP f) hp t = Ret (mkXRP (Z.min d f), hp', t') ∧
      sim m hp' t' s' ∧ Apply.dropsDestroyed_ t' = xrp_zero ∧ (offers = [] → fee_taken hp' t' ∧ s' = fee_view)
  end.
Proof using Eb Hf Hkey Hs ViewOf0.
  intros Hcase. destruct (reset_taken f hp) as (hp1 & t1 & Hr1 & Ht1); [lia|done|]. destruct (taken_sim _ _ Ht1) as [Hsim1 Hz1].
  unfold claim_fee. destruct Hcase as [(H1 & H2 & ->)|[Hr Hrem]].
  { rewrite (proj2 (Z.eqb_neq _ _) H1), (proj2 (Z.eqb_neq _ _) H2). cbn [orb mbind outcome_bind]. rewrite Hr1.
    cbn [mbind outcome_bind removeUnfundedOffers remove_offers mret prog_ret run]. eauto 10. }
  assert (Hboth : (r =? tecOVERSIZE) || (r =? tecKILLED) = true) by (by destruct Hr as [->| ->]). rewrite Hboth, Hrem. cbn [mbind outcome_bind].
  rewrite Hr1. cbn [mbind outcome_bind]. destruct (ApplyView.run (removeUnfundedOffers offers) fee_view) as [[u s']|e] eqn:Erun.
  - destruct (run_table_refines base m Hkey _ hp1 t1 _ _ _ Hsim1 Erun) as (hp2 & t2 & Et & Hsim2). rewrite Et. cbn [mbind outcome_bind].
    exists hp2, t2. split; [done|]. split; [done|]. split; [by apply run_table_drops in Et; rewrite Et|].
    intros ->. cbn in Erun, Et. injection Erun as _ <-. injection Et as _ <- <-. done.
  - split; [by intros ->|]. destruct (run_table base (removeUnfundedOffers offers) hp1 t1) as [[[u hp2] t2]|e'] eqn:Et; [|by exists e'].
    destruct (run_table_sound base m Hkey _ _ _ _ _ _ _ Hsim1 (no_insert_fresh _ _ (no_insert_remove_offers offers _)) Et) as (s' & Hs' & _).
    unfold removeUnfundedOffers in Erun. congruence.
Qed.

(** What a program has written and updated is committed. *)
Lemma sim_committed hp t s k : sim m hp t s → k ∉ vs_dirty s → committed hp m t !! k = vs_map s !! k.
Proof.
  intros Hsim Hk. rewrite <- (sim_state _ _ _ _ Hsim). unfold committed, ApplyProofs.state. rewrite !lookup_overlay. cbn [without_cache Apply.items_].
  destruct (Apply.items_ t !! k) as [[c p]|] eqn:Hi.
  - destruct c; try (by rewrite (map_lookup_filter_Some_2 _ _ k _ Hi) by done).
    rewrite (map_lookup_filter_None_2 _ _ k) by (right; intros y Hy Hne; rewrite Hi in Hy; injection Hy as <-; by destruct Hne).
    cbn. symmetry. by apply (sim_clean _ _ _ _ Hsim).
  - by rewrite (map_lookup_filter_None_2 _ _ k) by auto.
Qed.

(** The end of [transact]: the fee is destroyed. *)
Lemma transact_end hp t s :
  sim m hp t s → Apply.dropsDestroyed_ t = xrp_zero →
  let t' := if negb (v_open (cx_info ctx)) && negb (xrp_signum (mkXRP (Z.min d f)) =? 0)
            then Apply.ap_destroyXRP (mkXRP (Z.min d f)) t else t in
  items_ok ApplyProofs.eff hp m (Apply.items_ t') ∧
  (∀ k, k ∉ vs_dirty s → committed hp m t' !! k = vs_map s !! k) ∧
  Apply.dropsDestroyed_ t' = if v_open (cx_info ctx) then xrp_zero else mkXRP (Z.min d f).
Proof using Hf Hs.
  intros Hsim Hz t'. assert (Hi : Apply.items_ t' = Apply.items_ t) by (unfold t'; by destruct (_ && negb _)).
  split; [rewrite Hi; apply Hsim|]. split.
  { intros k Hk. rewrite <- (sim_committed _ _ _ _ Hsim Hk). unfold committed, without_cache, ApplyProofs.state. by rewrite Hi. }
  pose proof (so_positive _ _ _ _ _ _ Hs) as Hd0. pose proof (drops_of_bound _ _ (so_balance _ _ _ _ _ _ Hs)) as Hmax.
  unfold t'. destruct (v_open (cx_info ctx)); [done|]. cbn [negb andb].
  unfold xrp_signum. cbn [drops_]. destruct (Z.ltb_spec (Z.min d f) 0); [lia|].
  destruct (Z.eqb_spec (Z.min d f) 0) as [->|]; [done|]. cbn. rewrite Hz. unfold xrp_add. cbn [drops_ xrp_zero].
  clear - Hd0 Hmax H. unfold cMaxNativeN in Hmax. by rewrite i64_small by (unfold in_i64; lia).
Qed.

(** What [transact] returns when the fee is claimed. *)
Definition claimed (r : TER) (offers : list Z) (out : outcome applied_tx) : Prop :=
  match ApplyView.run (removeUnfundedOffers offers) fee_view with
  | Throw _ => offers ≠ [] ∧ ∃ e, out = Throw e
  | Ret (_, s') => ∃ y s2, out = Ret y ∧ x_applied y = true ∧
      items_ok ApplyProofs.eff (x_heap y) m (Apply.items_ (x_table y)) ∧
      (∀ k, k ∉ vs_dirty s2 → committed (x_heap y) m (x_table y) !! k = vs_map s2 !! k) ∧
      Apply.dropsDestroyed_ (x_table y) = (if v_open (cx_info ctx) then xrp_zero else mkXRP (Z.min d f)) ∧
      (x_result y = r ∧ s2 = s' ∨
       x_result y = tecINVARIANT_FAILED ∧ offers ≠ [] ∧ enabled (v_rules (cx_info ctx)) featureEnforceInvariants = true ∧ s2 = fee_view)
  end.

(** [transact] from where the changes are dropped. *)
Definition claim_rest (c : TER) (router : HashRouter) (hp : heap STObject) (t : Apply.ApplyStateTable) : outcome applied_tx :=
  '(fee, hp, t) ← claim_fee base ctx c (mkXRP f) hp t;
  '(result, fee, hp, t) ← check_twice base ctx c fee hp t;
  if negb (isTecClaim result) && negb (isTesSuccess result) then Ret (mkApplied result false fee hp t router) else
  if xrp_signum fee <? 0 then Throw (logic_error "fee charged is negative!") else
  Ret (mkApplied result true fee hp
    (if negb (v_open (cx_info ctx)) && negb (xrp_signum fee =? 0) then Apply.ap_destroyXRP fee t else t) router).

Lemma fee_sign : (xrp_signum (mkXRP (Z.min d f)) <? 0) = false.
Proof using Hf Hs.
  pose proof (so_positive _ _ _ _ _ _ Hs). unfold xrp_signum. cbn. destruct (Z.ltb_spec (Z.min d f) 0); [lia|].
  by destruct (Z.min d f =? 0).
Qed.

Lemma claim_rest_claims c offers router hp t :
  isTecClaim c = true →
  (c ≠ tecOVERSIZE ∧ c ≠ tecKILLED ∧ offers = []) ∨
    ((c = tecOVERSIZE ∨ c = tecKILLED) ∧ removed_offers (Apply.ap_visit base hp t) = Ret offers) →
  claimed c offers (claim_rest c router hp t).
Proof using Eb Ha Hf Hkey Hs Hx ViewOf0.
  intros Hc Hcase. pose proof (claim_fee_claims c offers hp t Hcase) as H. unfold claimed, claim_rest.
  destruct (ApplyView.run (removeUnfundedOffers offers) fee_view) as [[u s']|e]; [|destruct H as [Hne [e' ->]]; by eauto].
  destruct H as (hp1 & t1 & -> & Hsim & Hz & Htaken). cbn [mbind outcome_bind].
  destruct (check_twice_claims c hp1 t1 s' offers Hsim Hz Htaken) as (r2 & hp2 & t2 & s2 & -> & Hsim2 & Hz2 & Hr2).
  { intros Hne. destruct Hcase as [(_ & _ & ?)|[? _]]; done. }
  cbn [mbind outcome_bind]. assert (Htec : isTecClaim r2 = true) by (by destruct Hr2 as [[-> _]|[-> _]]). rewrite Htec. cbn [negb andb].
  rewrite fee_sign. destruct (transact_end hp2 t2 s2 Hsim2 Hz2) as (H1 & H2 & H3). eexists _, s2. split; [done|]. by split_and!.
Qed.

(** What is left of [transact] when the result makes it drop the changes. *)
Ltac drop_changes c offers router hp t := match goal with |- claimed _ _ ?out =>
  let H := fresh in
  enough (H : out = claim_rest c router hp t) by (rewrite H; apply claim_rest_claims; auto);
  unfold claim_rest; destruct (claim_fee _ _ _ _ _ _) as [[[? ?] ?]|]; reflexivity end.

Lemma transact_claims pre router hp r offers router' :
  flagged (cx_flags ctx) tapRETRY = false → claims pre router hp r offers router' →
  claimed r offers (transact T base ctx pre router hp).
Proof using Eb Ha Hf Hkey Hs Hx ViewOf0.
  intros Hretry Hc. assert (Hhard : ∀ r, isTecClaim r = true → hard_fail ctx r = true).
  { intros r0 Hr. unfold hard_fail, isTecClaimHardFail. rewrite Hr, Hretry. by rewrite !orb_true_r. }
  unfold transact. destruct Hc as [Hp|r0 router0 hp0 t0 -> Hrun Hsz Hp H1 H2|r0 c offers router0 hp0 t0 -> Hrun Hcode Hc Hrem
    |router0 hp0 t0 -> Hrun Hsz Hen Hfail].
  - assert (Hne : pre ≠ tesSUCCESS) by (intros ->; done). rewrite (proj2 (Z.eqb_neq _ _) Hne). cbn [mbind outcome_bind].
    rewrite Ha. cbn [mbind outcome_bind]. rewrite Hx. cbn [mbind outcome_bind]. cbv zeta.
    change (oversizeMetaDataCap <? _) with false. cbv iota. rewrite (Hhard pre Hp).
    assert (Hcase : (pre ≠ tecOVERSIZE ∧ pre ≠ tecKILLED ∧ @nil Z = []) ∨
      ((pre = tecOVERSIZE ∨ pre = tecKILLED) ∧ removed_offers (Apply.ap_visit base hp Apply.empty_table) = Ret [])).
    { destruct (decide (pre = tecOVERSIZE)), (decide (pre = tecKILLED)); auto. }
    drop_changes pre (@nil Z) router hp (@Apply.empty_table).
  - rewrite Z.eqb_refl, Hrun. cbn [mbind outcome_bind fst snd]. rewrite Ha. cbn [mbind outcome_bind]. rewrite Hx.
    cbn [mbind outcome_bind]. cbv zeta. destruct (Z.ltb_spec oversizeMetaDataCap (Z.of_nat (Apply.ap_size t0))); [lia|].
    rewrite (Hhard r0 Hp). drop_changes r0 (@nil Z) router0 hp0 t0.
  - rewrite Z.eqb_refl, Hrun. cbn [mbind outcome_bind fst snd]. rewrite Ha. cbn [mbind outcome_bind]. rewrite Hx.
    cbn [mbind outcome_bind]. cbv zeta. rewrite <- Hcode. assert (Hp : isTecClaim c = true) by (by destruct Hc as [->| ->]).
    rewrite (Hhard c Hp). drop_changes c offers router0 hp0 t0.
  - rewrite Z.eqb_refl, Hrun. cbn [mbind outcome_bind fst snd]. rewrite Ha. cbn [mbind outcome_bind]. rewrite Hx.
    cbn [mbind outcome_bind]. cbv zeta. destruct (Z.ltb_spec oversizeMetaDataCap (Z.of_nat (Apply.ap_size t0))); [lia|].
    change (hard_fail ctx tesSUCCESS) with false. cbv iota. change (isTesSuccess tesSUCCESS) with true. cbn [mbind outcome_bind negb].
    assert (Hbad : checkInvariants (v_rules (cx_info ctx)) (Apply.ap_visit base hp0 t0) (tx_obj tx) tesSUCCESS (mkXRP f) = tecINVARIANT_FAILED).
    { unfold checkInvariants. rewrite Hen. destruct (run_checker _ _ _ _ _) as [[]|]; done. }
    unfold check_twice at 1. rewrite Hbad, Z.eqb_refl.
    destruct (reset_taken f hp0) as (hp1 & t1 & -> & Ht1); [lia|done|]. cbn [mbind outcome_bind].
    rewrite (check_taken _ hp1 t1 Ht1). change (isTecClaim tecINVARIANT_FAILED) with true. cbn [negb andb]. rewrite fee_sign.
    destruct (taken_sim _ _ Ht1) as [Hsim Hz]. destruct (transact_end hp1 t1 _ Hsim Hz) as (E1 & E2 & E3).
    unfold claimed. cbn [removeUnfundedOffers remove_offers mret prog_ret run]. eexists _, fee_view. split; [done|]. split_and!; auto.
Qed.
End ClaimFee.

(** The ledger that [doApply] leaves when the fee is claimed. *)
Lemma doApply_claims `{Hash : Sha512} (T : TxType) (base : ReadView STObject) (info : ViewInfo) (tx : STTx)
    (flags now : Z) (track : LoadFeeTrack) (baseFee : Z) (ter r : TER) (router router' : HashRouter) (offers : list Z)
    (l : LedgerState STObject) (id seq d f : Z) (x : SLE STObject) (a : STAmount)
    (Hb : ViewOf base (l_map l)) (Hkey : keyed (l_map l)) (Hs : sender_ok (l_map l) tx id seq x d)
    (Ha : getFieldAmount (tx_obj tx) sfFee = Ret a) (Hx : xrp a = Ret (mkXRP f)) (Hf : 0 ≤ f < SYSTEM_CURRENCY_START)
    (Hbase : t_calculateBaseFee base info tx = Ret baseFee) (Hretry : flagged flags tapRETRY = false)
    (Hc : claims T base (mkContext tx info flags baseFee now track) f ter router ∅ r offers router') :
  ∃ b, drops_of b (d - Z.min d f) ∧
    let left := fee_map (l_map l) id seq x b in
    let out := tx_doApply T base info tx flags now track (v_seq info) ter router l in
    match ApplyView.run (removeUnfundedOffers offers) (mkV left {[kl_key (kl_account id)]} ∅) with
    | Throw _ => offers ≠ [] ∧ out = (tefEXCEPTION, false, l)
    | Ret (_, s') => ∃ r' l' s2, out = (r', true, l') ∧
        (∀ k, k ∉ vs_dirty s2 → l_map l' !! k = vs_map s2 !! k) ∧
        l_drops l' = xrp_sub (l_drops l) (if v_open info then xrp_zero else mkXRP (Z.min d f)) ∧
        (r' = r ∧ s2 = s' ∨
         r' = tecINVARIANT_FAILED ∧ offers ≠ [] ∧ enabled (v_rules info) featureEnforceInvariants = true ∧
           s2 = mkV left {[kl_key (kl_account id)]} ∅)
    end.
Proof.
  pose proof (so_positive _ _ _ _ _ _ Hs) as Hd0. pose proof (drops_of_bound _ _ (so_balance _ _ _ _ _ _ Hs)) as Hmax.
  destruct (st_of_xrp_drops (d - Z.min d f)) as (b & Eb & Hbd); [lia|]. exists b. split; [done|]. cbv zeta.
  pose proof (transact_claims T base (l_map l) Hkey (mkContext tx info flags baseFee now track) id seq d f x a
    Hs Ha Hx Hf b Eb ter router ∅ r offers router' Hretry Hc) as H. unfold claimed, fee_view in H. cbn [cx_info] in H.
  assert (Hlike : likelyToClaimFee ter flags = true).
  { unfold likelyToClaimFee, isTecClaimHardFail. destruct Hc as [Hp0|? ? ? ? -> _ _ _ _ _|? ? ? ? ? ? -> _ _ _ _|? ? ? -> _ _ _ _]; [|done..].
    by rewrite Hp0, Hretry, orb_true_r. }
  unfold tx_doApply. rewrite Z.eqb_refl, Hbase, Hlike. cbn [negb mbind outcome_bind].
  destruct (ApplyView.run _ _) as [[u s']|e].
  - destruct H as (y & s2 & -> & Hap & Hok & Hcom & Hdr & Hr). cbn [mbind outcome_bind]. rewrite Hap.
    destruct (commit_ledger (x_heap y) (l_map l) (x_table y) l Hok Hkey eq_refl) as (l' & -> & Hm & _ & Hdrops).
    cbn [mbind outcome_bind]. exists (x_result y), l', s2. split; [done|]. rewrite Hm, Hdrops, Hdr. by split_and!.
  - destruct H as [Hne [e' ->]]. by split.
Qed.

(** C3: a transaction that claims its fee gets its way, and keeps nothing else it did.  If
    [preclaim] or the code of its type returns a code that claims the fee, or if what it did breaks an
    invariant, and it is not to be tried again, then it is applied, and the ledger differs
    from the one before in the sender's account only, where the balance is down by the
    fee, as far as it goes, and the sequence is that of the transaction plus one.  Only for the
    codes [tecOVERSIZE] and [tecKILLED] of the code of its type is more kept: the offers which it deleted
    without using them are removed from the ledger with the fee taken; if that throws, the
    transaction is not applied, and if that breaks an invariant, the fee alone is taken. *)
Theorem doApply_claims_fee `{Hash : Sha512} (T : TxType) (base : ReadView STObject) (info : ViewInfo) (tx : STTx)
    (flags now : Z) (track : LoadFeeTrack) (baseFee : Z) (ter r : TER) (router router' : HashRouter) (offers : list Z)
    (l : LedgerState STObject) (id seq d f : Z) (x : SLE STObject) (a : STAmount)
    (Hb : ViewOf base (l_map l)) (Hkey : keyed (l_map l)) (Hs : sender_ok (l_map l) tx id seq x d)
    (Ha : getFieldAmount (tx_obj tx) sfFee = Ret a) (Hx : xrp a = Ret (mkXRP f)) (Hf : 0 ≤ f < SYSTEM_CURRENCY_START)
    (Hbase : t_calculateBaseFee base info tx = Ret baseFee) (Hretry : flagged flags tapRETRY = false)
    (Hc : claims T base (mkContext tx info flags baseFee now track) f ter router ∅ r offers router') :
  ∃ b, drops_of b (d - Z.min d f) ∧
    let left := <[kl_key (kl_account id) := fee_root b (u32 (seq + 1)) x]> (l_map l) in
    let drops := xrp_sub (l_drops l) (if v_open info then xrp_zero else mkXRP (Z.min d f)) in
    let out := tx_doApply T base info tx flags now track (v_seq info) ter router l in
    (offers = [] → out = (r, true, mkLedger left drops)) ∧
    match ApplyView.run (removeUnfundedOffers offers) (mkV left {[kl_key (kl_account id)]} ∅) with
    | Throw _ => out = (tefEXCEPTION, false, l)
    | Ret (_, s') => ∃ r' l', out = (r', true, l') ∧ l_drops l' = drops ∧
        (r' = r ∧ (∀ k, k ∉ vs_dirty s' → l_map l' !! k = vs_map s' !! k) ∨ r' = tecINVARIANT_FAILED ∧ l_map l' = left)
    end.
Proof.
  destruct (doApply_claims T base info tx flags now track baseFee ter r router router' offers l id seq d f x a
    Hb Hkey Hs Ha Hx Hf Hbase Hretry Hc) as (b & Hbd & H). exists b. split; [done|]. cbv zeta in *.
  change (fee_map (l_map l) id seq x b) with (<[kl_key (kl_account id) := fee_root b (u32 (seq + 1)) x]> (l_map l)) in H.
  set (left := <[_ := _]> (l_map l)) in *. set (out := tx_doApply _ _ _ _ _ _ _ _ _ _ _) in *.
  assert (Hall : ∀ (m1 : entries) D (s : vstate STObject), vs_dirty s = ∅ → D = vs_map s → (∀ k, k ∉ vs_dirty s → m1 !! k = vs_map s !! k) → m1 = D).
  { intros m1 D s0 Hd -> Hk. apply map_eq. intros k. apply Hk. rewrite Hd. apply not_elem_of_empty. }
  destruct (ApplyView.run _ _) as [[u s']|e] eqn:Erun.
  - destruct H as (r' & l' & s2 & -> & Hk & Hd & Hr). split.
    + intros ->. cbn in Erun. injection Erun as _ <-. destruct Hr as [[-> ->]|(_ & Hne & _)]; [|done].
      rewrite <- Hd, <- (Hall (l_map l') left (mkV left {[kl_key (kl_account id)]} ∅) eq_refl eq_refl Hk). by destruct l'.
    + exists r', l'. split; [done|]. split; [done|]. destruct Hr as [[-> ->]|(-> & _ & _ & ->)]; [by left|right]. split; [done|].
      by apply (Hall _ _ (mkV left {[kl_key (kl_account id)]} ∅) eq_refl eq_refl Hk).
  - destruct H as [Hne ->]. by split.
Qed.

(** *** Setting and removing a regular key *)

Section Tests.
#[local] Existing Instance number_hash.
#[local] Existing Instance trusting_crypto.

Definition test_setkey (key : option Z) : STTx :=
  mkTx (mkObject None ([(sfAccount, c_make AccountID 5); (sfFee, c_make AmountC (st_native 10 false));
    (sfSequence, c_make U32 1); (sfSigningPubKey, Blob (0xED :: replicate 32 7))] ++
    match key with Some k => [(sfRegularKey, c_make AccountID k)] | None => [] end)) 98 5.

Lemma no_insert_setkey (ctx : ApplyContext) (router : HashRouter) :
  no_insert (transactor_apply SetRegularKey ctx router).
Proof.
  unfold transactor_apply, setSeq, payFee, peek_deref.
  cbn [t_doApply SetRegularKey]. unfold SetRegularKey_doApply, peek_deref, make_absent, describe_at. no_insert.
Qed.

Lemma run_applied {A B} (m : A * bool * B) (t : A) (eqb : A → A → bool) :
  (∀ a b, eqb a b = true → a = b) → (let '(r, ok, _) := m in eqb r t && ok) = true → ∃ l', m = (t, true, l').
Proof. intros Heq. destruct m as [[r []] l']; [|by rewrite andb_false_r]. rewrite andb_true_r. intros ->%Heq. by exists l'. Qed.

Lemma run_claims {A B} (m : outcome (TER * A * B * Apply.ApplyStateTable)) (r : TER) (cap : Z) :
  match m with Ret (r', _, _, t) => (r' =? r) && (Z.of_nat (Apply.ap_size t) <=? cap) | Throw _ => false end = true →
  ∃ x y t, m = Ret (r, x, y, t) ∧ Z.of_nat (Apply.ap_size t) ≤ cap.
Proof. destruct m as [[[[r' x] y] t]|]; [|done]. intros [->%Z.eqb_eq ?%Z.leb_le]%andb_true_iff. by exists x, y, t. Qed.

Lemma test_ledger_keyed : keyed test_ledger.
Proof. apply map_Forall_insert_2; [reflexivity|]. apply map_Forall_singleton. reflexivity. Qed.

(** Account 5 chooses a regular key; the fee of 10 drops is destroyed. *)
Lemma doApply_sound_witness :
  let l := mkLedger test_ledger (mkXRP 1000) in
  ∃ l', tx_doApply SetRegularKey (map_view test_ledger) (test_info 600000000) (test_setkey (Some 9)) 0 0
    (mkTrack 256 256 256 0) 3 tesSUCCESS (make_router 300 1) l = (tesSUCCESS, true, l') ∧
    ∃ fee, ledger_checked test_ledger (l_map l') (tx_obj (test_setkey (Some 9))) fee ∧
      l_drops l' = xrp_sub (mkXRP 1000) (mkXRP fee).
Proof.
  cbv zeta. destruct (run_applied (tx_doApply SetRegularKey (map_view test_ledger) (test_info 600000000) (test_setkey (Some 9)) 0 0
    (mkTrack 256 256 256 0) 3 tesSUCCESS (make_router 300 1) (mkLedger test_ledger (mkXRP 1000))) tesSUCCESS Z.eqb)
    as [l' E]; [apply Z.eqb_eq|vm_compute; reflexivity|].
  exists l'. split; [exact E|]. apply (doApply_sound _ _ (test_info 600000000) _ _ _ _ _ _ _ (mkLedger test_ledger (mkXRP 1000)) _ _ _
    (map_view_of _) test_ledger_keyed eq_refl) in E; [exact (proj2 E)|].
  intros baseFee. apply no_insert_fresh, no_insert_setkey.
Defined.

(** Account 5 has given up its master key and asks to remove its regular key too. *)
Definition test_locked : SLE STObject :=
  mkSLE (kl_key (kl_account 5)) ltACCOUNT_ROOT
    (set U32 sfFlags lsfDisableMaster (set AmountC sfBalance (st_native 100 false) (new_body ltACCOUNT_ROOT))).

Lemma doApply_claims_fee_witness :
  let l := mkLedger {[kl_key (kl_account 5) := test_locked]} (mkXRP 1000) in
  ∃ b, tx_doApply SetRegularKey (map_view (l_map l)) (test_info 600000000) (test_setkey None) 0 0
    (mkTrack 256 256 256 0) 3 tesSUCCESS (make_router 300 1) l =
      (tecNO_ALTERNATIVE_KEY, true, mkLedger {[kl_key (kl_account 5) := fee_root b 2 test_locked]} (mkXRP 990)) ∧ drops_of b 90.
Proof.
  cbv zeta. set (ctx := mkContext (test_setkey None) (test_info 600000000) 0 10 0 (mkTrack 256 256 256 0)).
  destruct (run_claims (run_fresh (map_view {[kl_key (kl_account 5) := test_locked]})
    (transactor_apply SetRegularKey ctx (make_router 300 1)) ∅) tecNO_ALTERNATIVE_KEY oversizeMetaDataCap)
    as (router' & hp & t & Hrun & Hsz); [vm_compute; reflexivity|].
  destruct (doApply_claims_fee SetRegularKey (map_view {[kl_key (kl_account 5) := test_locked]}) (test_info 600000000)
    (test_setkey None) 0 0 (mkTrack 256 256 256 0) 10 tesSUCCESS tecNO_ALTERNATIVE_KEY (make_router 300 1) router' []
    (mkLedger {[kl_key (kl_account 5) := test_locked]} (mkXRP 1000)) 5 1 100 10 test_locked (st_native 10 false))
    as (b & Hb & Hl & _); cbn [l_map l_drops] in *.
  - exact (map_view_of _).
  - apply map_Forall_singleton. reflexivity.
  - split; [vm_compute; reflexivity..| | |lia].
    + apply (set_entry U32); [|done]. apply (set_entry AmountC); [apply new_entry, account_format|apply fits_balance].
    + split; [split; vm_compute; intuition discriminate|reflexivity].
  - vm_compute; reflexivity.
  - vm_compute; reflexivity.
  - vm_compute. intuition discriminate.
  - vm_compute; reflexivity.
  - reflexivity.
  - eapply claims_apply; [reflexivity|exact Hrun|exact Hsz|reflexivity|discriminate|discriminate].
  - exists b. rewrite insert_singleton_eq in Hl. split; [exact (Hl eq_refl)|exact Hb].
Defined.
End Tests.
