(* ===== verification/PreclaimLaws.v ===== *)
(** * Who may send a transaction

    What the checks of [Transactor.cpp] in [src/src/ripple/app/tx/impl] let through before a transaction touches the
    ledger: a transaction that goes on to claim a fee has the sequence of its account, is in
    time, and carries signatures that verify and are by keys the account allows, be it the master key, the
    regular key, or the keys of enough of its signers.

    The signatures are verified in [preflight], the keys compared with the ledger in [preclaim].
    [CommonChecks] is what a type of transactions promises: its preflight makes the checks
    common to all types.  All the types modelled keep that promise. *)

From stdpp Require Import base numbers list gmap strings sorting.
From Stdlib Require Import Lia ZArith.
From S2P Require Import Prelude XRPAmount Serializer STAmount Quality StateTable SField STObject STObjectWire STObjectLaws.
From S2P Require Import Entry Indexes ApplyView ViewLogic Directory TxBase Invariants Keys HashRouter STTx LoadFeeTrack.
From S2P Require Import Encodings Conditions CoreLogic View ViewLaws XrpNeutral Transactor AccountTx OwnedTx Escrow EscrowLaws TransactorLaws.

Local Open Scope Z_scope.

(** ** The checks common to all types *)

Class CommonChecks `{Hash : Sha512} `{Lib : Crypto} (T : TxType) : Prop :=
  common_checks ctx router router' : t_preflight ctx router = (Ret tesSUCCESS, router') →
    preflight1 ctx = Ret tesSUCCESS ∧ (preflight2 ctx router).1 = Ret tesSUCCESS.

Section Common.
Context `{Hash : Sha512} `{Hash256 : Sha256} `{Lib : Crypto}.

Lemma preflight_with_common ctx router check router' :
  preflight_with ctx router check = (Ret tesSUCCESS, router') →
  preflight1 ctx = Ret tesSUCCESS ∧ (preflight2 ctx router).1 = Ret tesSUCCESS.
Proof.
  unfold preflight_with. destruct (preflight1 ctx) as [r|]; [|done]. cbn [mbind outcome_bind].
  unfold isTesSuccess. destruct (Z.eqb_spec r tesSUCCESS) as [->|Hne]; cbn [negb].
  - destruct check as [c|]; [|done]. destruct (Z.eqb_spec c tesSUCCESS) as [->|]; [|by intros [= ->]]. by intros ->.
  - rewrite (proj2 (Z.eqb_neq _ _) Hne). by intros [= ->].
Qed.

(** The preflight of the type is the common one after checks that may refuse. *)
Ltac common := intros ctx router router'; cbn [t_preflight];
  repeat match goal with |- (if ?b then _ else _) = _ → _ => destruct b; [discriminate|] end; apply preflight_with_common.

#[export] Instance SetRegularKey_common : CommonChecks SetRegularKey.
Proof. common. Qed.
#[export] Instance SetAccount_common : CommonChecks SetAccount.
Proof. common. Qed.
#[export] Instance SetSignerList_common : CommonChecks SetSignerList.
Proof. unfold CommonChecks; cbn [t_preflight SetSignerList]; unfold SetSignerList_preflight. common. Qed.
#[export] Instance DepositPreauth_common : CommonChecks DepositPreauth.
Proof. unfold CommonChecks; cbn [t_preflight DepositPreauth]; unfold DepositPreauth_preflight. common. Qed.
#[export] Instance CreateTicket_common : CommonChecks CreateTicket.
Proof. unfold CommonChecks; cbn [t_preflight CreateTicket]; unfold CreateTicket_preflight, ticket_preflight. common. Qed.
#[export] Instance CancelTicket_common : CommonChecks CancelTicket.
Proof. unfold CommonChecks; cbn [t_preflight CancelTicket]; unfold CancelTicket_preflight, ticket_preflight. common. Qed.
#[export] Instance CancelOffer_common : CommonChecks CancelOffer.
Proof. common. Qed.
#[export] Instance CreateCheck_common : CommonChecks CreateCheck.
Proof. unfold CommonChecks; cbn [t_preflight CreateCheck]; unfold CreateCheck_preflight. common. Qed.
#[export] Instance CancelCheck_common : CommonChecks CancelCheck.
Proof. unfold CommonChecks; cbn [t_preflight CancelCheck]; unfold CancelCheck_preflight. common. Qed.
#[export] Instance EscrowCreate_common : CommonChecks EscrowCreate.
Proof. unfold CommonChecks; cbn [t_preflight EscrowCreate]; unfold EscrowCreate_preflight, escrow_preflight. common. Qed.
#[export] Instance EscrowCancel_common : CommonChecks EscrowCancel.
Proof. unfold CommonChecks; cbn [t_preflight EscrowCancel]; unfold EscrowCancel_preflight, escrow_preflight. common. Qed.

#[export] Instance EscrowFinish_common : CommonChecks EscrowFinish.
Proof.
  unfold CommonChecks; cbn [t_preflight EscrowFinish]; unfold EscrowFinish_preflight, escrow_preflight. intros ctx router router'.
  destruct (negb _); [done|]. destruct (_ && _); [done|]. cbv zeta.
  destruct (preflight_with _ _ _) as [[r|] router1] eqn:E; [|done]. unfold isTesSuccess.
  destruct (Z.eqb_spec r tesSUCCESS) as [->|]; cbn [negb]; [|by intros [= ->]]. intros _. by eapply preflight_with_common.
Qed.
End Common.

Section Authorized.
Context `{Hash : Sha512} `{Lib : Crypto}.

(** Codes that refuse a transaction at no cost. *)
Definition refused (r : TER) : Prop := r ≠ tesSUCCESS ∧ isTecClaim r = false.

Lemma refused_unlikely r flags : refused r → likelyToClaimFee r flags = false.
Proof.
  intros [H1 H2]. unfold likelyToClaimFee, isTecClaimHardFail. rewrite H2. by rewrite (proj2 (Z.eqb_neq _ _) H1).
Qed.

(** ** Keys *)

(** The key of an account may sign for a signer: the account need not exist. *)
Definition key_may_sign (view : ReadView STObject) (id key : Z) : Prop :=
  match rv_read view (kl_account id) with
  | None => key = id
  | Some s =>
    (key = id ∧ ∃ f, getFieldU32 (sle_body s) sfFlags = Ret f ∧ flagged f lsfDisableMaster = false) ∨
    (isFieldPresent (sle_body s) sfRegularKey = true ∧ getAccountID (sle_body s) sfRegularKey = Ret key)
  end.

Definition may_sign_for (view : ReadView STObject) (s : SField * STObject) (e : SignerEntry) : Prop :=
  getAccountID s.2 sfAccount = Ret (se_account e) ∧
  ∃ spk, getFieldVL s.2 sfSigningPubKey = Ret spk ∧ publicKeyType spk ≠ None ∧
    key_may_sign view (se_account e) (calcAccountID spk).

Definition weight (es : list SignerEntry) : Z := foldr (λ e w, se_weight e + w) 0 es.

(** The signers are members of the list and reach the quorum. *)
Definition quorum_named (ctx : PreclaimContext) (id : Z) : Prop :=
  ∃ s all signers es quorum,
    rv_read (pc_view ctx) (kl_signers id) = Some s ∧ deserialize_signers (sle_body s) = Ret (all, tesSUCCESS) ∧
    getFieldArray (tx_obj (pc_tx ctx)) sfSigners = Ret signers ∧ Forall2 (may_sign_for (pc_view ctx)) signers es ∧
    Forall (λ e, e ∈ all) es ∧ (StronglySorted Z.lt (map se_account es) → es `sublist_of` all) ∧
    getFieldU32 (sle_body s) sfSignerQuorum = Ret quorum ∧ quorum ≤ u32 (weight es).

Definition key_named (ctx : PreclaimContext) (id : Z) (x : SLE STObject) : Prop :=
  ∃ spk, getSigningPubKey (pc_tx ctx) = Ret spk ∧ publicKeyType spk ≠ None ∧
    ((calcAccountID spk = id ∧ isFlag (sle_body x) lsfDisableMaster = false) ∨
     (isFieldPresent (sle_body x) sfRegularKey = true ∧ getAccountID (sle_body x) sfRegularKey = Ret (calcAccountID spk))).

Lemma checkSingleSign_sound ctx r :
  transactor_checkSingleSign ctx = Ret r →
  refused r ∨ r = tesSUCCESS ∧ ∃ id x, getAccountID (tx_obj (pc_tx ctx)) sfAccount = Ret id ∧
    rv_read (pc_view ctx) (kl_account id) = Some x ∧ key_named ctx id x.
Proof.
  unfold transactor_checkSingleSign. intros H. apply outcome_bind_Ret in H as (id & Hid & H).
  apply outcome_bind_Ret in H as (x & Hx & H). apply outcome_bind_Ret in H as (spk & Hspk & H).
  assert (Hread : rv_read (pc_view ctx) (kl_account id) = Some x) by (destruct (rv_read _ _); [by injection Hx as ->|done]).
  destruct (publicKeyType spk) as [ty|] eqn:Ety; [|injection H as <-; left; done].
  assert (Hty : publicKeyType spk ≠ None) by (by rewrite Ety).
  destruct (Z.eqb_spec (calcAccountID spk) id) as [Eid|_].
  - destruct (isFlag _ _) eqn:Ef; injection H as <-; [left; done|]. right. split; [done|].
    exists id, x. split_and!; [done|done|]. exists spk. by auto.
  - destruct (isFieldPresent _ sfRegularKey) eqn:Ep; [|injection H as <-; left; done].
    apply outcome_bind_Ret in H as (k & Hk & H). destruct (Z.eqb_spec (calcAccountID spk) k) as [<-|];
      injection H as <-; [|left; done]. right. split; [done|]. exists id, x. split_and!; [done|done|]. exists spk. by auto.
Qed.

(** ** Signer lists *)

Lemma find_signer_suffix id iter r :
  find_signer id iter = Ret (Some r) → ∃ skipped, iter = skipped ++ r.
Proof.
  revert r. induction iter as [|e rest IH]; intros r; cbn [find_signer]; [done|].
  destruct (_ <? _); [|intros [= <-]; by exists []].
  destruct rest as [|e' rest]; [done|]. intros [sk ->]%IH. by exists (e :: sk).
Qed.

Lemma signer_key_ok_sound ctx id key r :
  signer_key_ok ctx id key = Ret r → refused r ∨ r = tesSUCCESS ∧ key_may_sign (pc_view ctx) id key.
Proof.
  unfold signer_key_ok, key_may_sign. destruct (rv_read _ _) as [s|].
  - destruct (Z.eqb_spec key id) as [->|_].
    + intros H. apply outcome_bind_Ret in H as (f & Hf & H).
      destruct (flagged f lsfDisableMaster) eqn:Ef; injection H as <-; [left; done|right; eauto 6].
    + destruct (isFieldPresent _ _); cbn [negb]; [|intros [= <-]; left; done].
      intros H. apply outcome_bind_Ret in H as (k & Hk & H). destruct (Z.eqb_spec key k) as [<-|]; cbn [negb] in H;
        injection H as <-; [right; eauto|left; done].
  - destruct (Z.eqb_spec key id) as [->|_]; intros [= <-]; [right|left]; done.
Qed.

Lemma sublist_signers (e : SignerEntry) es rest :
  StronglySorted Z.lt (map se_account (e :: es)) → es `sublist_of` e :: rest → e :: es `sublist_of` e :: rest.
Proof.
  intros [_ Hall]%StronglySorted_inv Hes. apply sublist_skip.
  inversion Hes as [|? es' ? Hs|? ? ? Hs]; subst; [|done].
  cbn in Hall. apply Forall_cons_1 in Hall as [? _]. lia.
Qed.

Lemma sum_weights_sound ctx signers iter w r :
  0 ≤ w < 2 ^ 32 → sum_weights ctx signers iter w = Ret r →
  match r with
  | inl r => refused r
  | inr w' => ∃ es, Forall2 (may_sign_for (pc_view ctx)) signers es ∧ Forall (λ e, e ∈ iter) es ∧
      (StronglySorted Z.lt (map se_account es) → es `sublist_of` iter) ∧ w' = u32 (w + weight es)
  end.
Proof.
  revert iter w. induction signers as [|[nm s] signers IH]; intros iter w Hw; cbn [sum_weights].
  { intros [= <-]. exists []. split_and!; [constructor|constructor|intros _; apply sublist_nil_l|].
    cbn. rewrite Z.add_0_r. symmetry. by apply Z.mod_small. }
  intros H. apply outcome_bind_Ret in H as (id & Hid & H). apply outcome_bind_Ret in H as (found & Hf & H).
  destruct found as [iter'|]; [|injection H as <-; done]. apply find_signer_suffix in Hf as [sk ->].
  apply outcome_bind_Ret in H as (e & He & H). destruct iter' as [|e' rest]; [done|]. injection He as ->.
  destruct (Z.eqb_spec (se_account e) id) as [<-|]; cbn [negb] in H; [|injection H as <-; done].
  apply outcome_bind_Ret in H as (spk & Hspk & H).
  destruct (publicKeyType spk) as [ty|] eqn:Ety; [|injection H as <-; done].
  apply outcome_bind_Ret in H as (ter & Hter & H). apply signer_key_ok_sound in Hter as [Hter|[-> Hk]].
  { change (isTesSuccess ter) with (ter =? tesSUCCESS) in H. rewrite (proj2 (Z.eqb_neq ter tesSUCCESS)) in H by apply Hter. cbn [negb] in H. by injection H as <-. }
  cbn [negb] in H. apply IH in H; [|apply Z.mod_pos_bound; lia]. destruct r as [r|w']; [done|].
  destruct H as (es & Hes & Hin & Hsub & ->). exists (e :: es). split_and!.
  - constructor; [|done]. split; [done|]. exists spk. by rewrite Ety.
  - apply Forall_cons. split; [set_solver|]. eapply Forall_impl; [exact Hin|]. set_solver.
  - intros Hsort. apply sublist_inserts_l, sublist_signers; [done|]. apply Hsub. by apply StronglySorted_inv in Hsort as [? _].
  - unfold u32. cbn [weight foldr]. rewrite Zplus_mod_idemp_l. f_equal. unfold weight. lia.
Qed.

Lemma read_signers_code l acc r : read_signers l acc = Ret r → r.2 = tesSUCCESS ∨ refused r.2.
Proof.
  revert acc. induction l as [|[nm e] l IH]; intros acc; cbn [read_signers]; [intros [= <-]; by left|].
  destruct (negb _); [intros [= <-]; by right|]. intros H. apply outcome_bind_Ret in H as (id & _ & H).
  apply outcome_bind_Ret in H as (w & _ & H). by eapply IH.
Qed.

Lemma checkMultiSign_sound ctx r :
  transactor_checkMultiSign ctx = Ret r →
  refused r ∨ r = tesSUCCESS ∧ ∃ id, getAccountID (tx_obj (pc_tx ctx)) sfAccount = Ret id ∧ quorum_named ctx id.
Proof.
  unfold transactor_checkMultiSign. intros H. apply outcome_bind_Ret in H as (id & Hid & H).
  destruct (rv_read _ _) as [s|] eqn:Es; [|injection H as <-; by left].
  apply outcome_bind_Ret in H as ([all ter] & Hall & H).
  destruct (Z.eqb_spec ter tesSUCCESS) as [->|Hne]; cbn [negb] in H.
  - apply outcome_bind_Ret in H as (signers & Hsig & H). apply outcome_bind_Ret in H as ([ter|w] & Hw & H).
    + injection H as <-. left. by apply sum_weights_sound in Hw.
    + apply sum_weights_sound in Hw as (es & H1 & H2 & H3 & ->); [|lia]. apply outcome_bind_Ret in H as (q & Hq & H).
      destruct (Z.ltb_spec (u32 (0 + weight es)) q); injection H as <-; [by left|]. right. split; [done|].
      exists id. split; [done|]. exists s, all, signers, es, q. by split_and!.
  - injection H as <-. left. unfold deserialize_signers in Hall.
    destruct (negb _); [by injection Hall as _ <-|]. apply outcome_bind_Ret in Hall as (l & _ & [?|?]%read_signers_code); done.
Qed.

(** ** Sequence and fee *)

Definition in_time (ctx : PreclaimContext) : Prop :=
  isFieldPresent (tx_obj (pc_tx ctx)) sfLastLedgerSequence = true →
  ∃ n, getFieldU32 (tx_obj (pc_tx ctx)) sfLastLedgerSequence = Ret n ∧ v_seq (pc_info ctx) ≤ n.

Lemma checkSeq_sound ctx r :
  checkSeq ctx = Ret r →
  refused r ∨ r = tesSUCCESS ∧ in_time ctx ∧ ∃ id x seq, getAccountID (tx_obj (pc_tx ctx)) sfAccount = Ret id ∧
    rv_read (pc_view ctx) (kl_account id) = Some x ∧ getSequence (pc_tx ctx) = Ret seq ∧
    getFieldU32 (sle_body x) sfSequence = Ret seq.
Proof.
  unfold checkSeq, in_time. intros H. apply outcome_bind_Ret in H as (id & Hid & H).
  destruct (rv_read _ _) as [x|] eqn:Ex; [|injection H as <-; by left].
  apply outcome_bind_Ret in H as (seq & Hseq & H). apply outcome_bind_Ret in H as (aseq & Haseq & H).
  destruct (Z.eqb_spec seq aseq) as [->|]; cbn [negb] in H.
  2: { destruct (aseq <? seq); [injection H as <-; by left|]. destruct (pc_txExists _ _); injection H as <-; by left. }
  apply outcome_bind_Ret in H as ([] & _ & H); [injection H as <-; by left|].
  apply outcome_bind_Ret in H as (late & Hlate & H). destruct late; injection H as <-; [by left|].
  right. split; [done|]. split; [|by exists id, x, aseq]. intros Hp. rewrite Hp in Hlate.
  apply outcome_bind_Ret in Hlate as (n & Hn & [= ?%Z.ltb_ge]). by exists n.
Qed.

(** The account cannot pay the fee, on a closed ledger. *)
Definition short_of_fee (ctx : PreclaimContext) (x : SLE STObject) : Prop :=
  v_open (pc_info ctx) = false ∧ ∃ fee b balance, calculateFeePaid (pc_tx ctx) = Ret fee ∧
    get_at AmountC (sle_body x) sfBalance = Ret b ∧ xrp b = Ret balance ∧ 0 < drops_ balance < drops_ fee.

Lemma checkFee_sound ctx baseFee r :
  checkFee ctx baseFee = Ret r →
  refused r ∨ r = tesSUCCESS ∨ r = tecINSUFF_FEE ∧ ∃ id x, getAccountID (tx_obj (pc_tx ctx)) sfAccount = Ret id ∧
    rv_read (pc_view ctx) (kl_account id) = Some x ∧ short_of_fee ctx x.
Proof.
  unfold checkFee. intros H. apply outcome_bind_Ret in H as (fee & Hfee & H).
  destruct (negb _ || _); [injection H as <-; by left|]. apply outcome_bind_Ret in H as (due & _ & H).
  destruct (v_open _ && xrp_lt fee due); [injection H as <-; by left|].
  destruct (xrp_signum fee =? 0); [injection H as <-; by right; left|].
  apply outcome_bind_Ret in H as (id & Hid & H). apply outcome_bind_Ret in H as (x & Hx & H).
  apply outcome_bind_Ret in H as (b & Hb & H). apply outcome_bind_Ret in H as (bal & Hbal & H).
  unfold xrp_lt in H. destruct (Z.ltb_spec (drops_ bal) (drops_ fee)); [|injection H as <-; by right; left].
  destruct (Z.ltb_spec 0 (xrp_signum bal)) as [Hpos|]; [|injection H as <-; by left].
  destruct (v_open _) eqn:Eo; injection H as <-; [by left|]. right; right. split; [done|]. exists id, x.
  split_and!; [done|by destruct (rv_read _ _); [injection Hx as ->|]|]. split; [done|]. exists fee, b, bal. split_and!; [done..| |done].
  unfold xrp_signum in Hpos. destruct (Z.ltb_spec (drops_ bal) 0); [lia|]. destruct (Z.eqb_spec (drops_ bal) 0); lia.
Qed.

(** The account's sequence fits, the transaction is in time and names keys the account allows, or
    the account cannot pay. *)
Lemma invoke_preclaim_sound T ctx id r :
  getAccountID (tx_obj (pc_tx ctx)) sfAccount = Ret id → id ≠ 0 →
  invoke_preclaim T ctx = Ret r → likelyToClaimFee r (pc_flags ctx) = true →
  in_time ctx ∧ ∃ x seq, rv_read (pc_view ctx) (kl_account id) = Some x ∧
    getSequence (pc_tx ctx) = Ret seq ∧ getFieldU32 (sle_body x) sfSequence = Ret seq ∧
    (transactor_checkSign ctx = Ret tesSUCCESS ∨ r = tecINSUFF_FEE ∧ short_of_fee ctx x).
Proof.
  intros Hid Hnz Hr Hl. assert (Hno : ¬ refused r) by (intros H%(refused_unlikely _ (pc_flags ctx)); by rewrite H in Hl).
  unfold invoke_preclaim in Hr. rewrite Hid in Hr. cbn [mbind outcome_bind] in Hr.
  rewrite (proj2 (Z.eqb_neq _ _) Hnz) in Hr. cbn [negb] in Hr. apply outcome_bind_Ret in Hr as (r1 & H1 & Hr).
  apply checkSeq_sound in H1 as [Href|(-> & Htime & id' & x & seq & Hid' & Hx & Hseq & Haseq)].
  { rewrite (proj2 (Z.eqb_neq r1 tesSUCCESS)) in Hr by apply Href. by injection Hr as <-. }
  rewrite Hid in Hid'. injection Hid' as <-. split; [done|]. exists x, seq. split_and!; [done..|].
  cbn [negb] in Hr. apply outcome_bind_Ret in Hr as (base & _ & Hr). apply outcome_bind_Ret in Hr as (r2 & H2 & Hr).
  apply checkFee_sound in H2 as [Href|[->|(-> & id' & x' & Hid' & Hx' & Hshort)]].
  { rewrite (proj2 (Z.eqb_neq r2 tesSUCCESS)) in Hr by apply Href. by injection Hr as <-. }
  2: { rewrite Hid in Hid'. injection Hid' as <-. rewrite Hx in Hx'. injection Hx' as <-. injection Hr as <-. by auto. }
  cbn [negb] in Hr. apply outcome_bind_Ret in Hr as (r3 & H3 & Hr). left.
  destruct (decide (r3 = tesSUCCESS)) as [->|Hne]; [done|]. exfalso. rewrite (proj2 (Z.eqb_neq _ _) Hne) in Hr. cbn [negb] in Hr.
  injection Hr as <-. apply Hno. unfold transactor_checkSign in H3.
  assert (Hone : transactor_checkSingleSign ctx = Ret r3 → refused r3) by (by intros [?|[? _]]%checkSingleSign_sound).
  destruct (enabled _ featureMultiSign); [|by auto]. apply outcome_bind_Ret in H3 as (spk & _ & H3).
  destruct (bool_decide (spk = [])); [|by auto]. by apply checkMultiSign_sound in H3 as [?|[? _]].
Qed.

(** ** Signatures *)

(** The signature of the transaction verifies with a key. *)
Definition signed_with (tx : STTx) (spk : list Z) : Prop :=
  ∃ sig data, getFieldVL (tx_obj tx) sfTxnSignature = Ret sig ∧ getSigningData (tx_obj tx) = Ret data ∧
    verify spk data sig (flagged (getFlags (tx_obj tx)) tfFullyCanonicalSig) = Ret true.

(** It is signed with the master key of the account, unless disabled, or with its regular key. *)
Definition key_signed (ctx : PreclaimContext) (id : Z) (x : SLE STObject) : Prop :=
  ∃ spk, getSigningPubKey (pc_tx ctx) = Ret spk ∧ signed_with (pc_tx ctx) spk ∧
    ((calcAccountID spk = id ∧ isFlag (sle_body x) lsfDisableMaster = false) ∨
     (isFieldPresent (sle_body x) sfRegularKey = true ∧ getAccountID (sle_body x) sfRegularKey = Ret (calcAccountID spk))).

(** A member of the list has signed, for itself, with a key it allows. *)
Definition signs_for (ctx : PreclaimContext) (start : Serializer) (s : SField * STObject) (e : SignerEntry) : Prop :=
  getAccountID s.2 sfAccount = Ret (se_account e) ∧
  ∃ spk sig, getFieldVL s.2 sfSigningPubKey = Ret spk ∧ getFieldVL s.2 sfTxnSignature = Ret sig ∧
    verify spk (finishMultiSigningData (se_account e) start) sig
      (flagged (getFlags (tx_obj (pc_tx ctx))) tfFullyCanonicalSig) = Ret true ∧
    key_may_sign (pc_view ctx) (se_account e) (calcAccountID spk).

(** Different members of the account's signer list have signed and reach the quorum. *)
Definition quorum_signed (ctx : PreclaimContext) (id : Z) : Prop :=
  ∃ s all start signers es quorum,
    rv_read (pc_view ctx) (kl_signers id) = Some s ∧ deserialize_signers (sle_body s) = Ret (all, tesSUCCESS) ∧
    startMultiSigningData (tx_obj (pc_tx ctx)) = Ret start ∧ getFieldArray (tx_obj (pc_tx ctx)) sfSigners = Ret signers ∧
    Forall2 (signs_for ctx start) signers es ∧ es `sublist_of` all ∧ NoDup (map se_account es) ∧
    getFieldU32 (sle_body s) sfSignerQuorum = Ret quorum ∧ quorum ≤ u32 (weight es).

Lemma checkSingleSign_signed tx : checkSingleSign tx = Ret true → ∃ spk, getSigningPubKey tx = Ret spk ∧ signed_with tx spk.
Proof.
  unfold checkSingleSign. destruct (isFieldPresent _ sfSigners); [done|]. intros [= H]. unfold or_else in H.
  destruct (spk ← _; _) as [v|] eqn:E; [|done]. subst v. apply outcome_bind_Ret in E as (spk & Hspk & E). exists spk. split; [done|].
  destruct (publicKeyType spk); [|done]. apply outcome_bind_Ret in E as (sig & Hsig & E).
  apply outcome_bind_Ret in E as (data & Hd & E). by exists sig, data.
Qed.

Lemma signer_valid_signed start c id signer :
  signer_valid start c id signer = true → ∃ spk sig, getFieldVL signer sfSigningPubKey = Ret spk ∧
    getFieldVL signer sfTxnSignature = Ret sig ∧ verify spk (finishMultiSigningData id start) sig c = Ret true.
Proof.
  unfold signer_valid, or_else. destruct (spk ← _; _) as [v|] eqn:E; [|done]. intros ->.
  apply outcome_bind_Ret in E as (spk & Hspk & E). destruct (publicKeyType spk); [|done].
  apply outcome_bind_Ret in E as (sig & Hsig & E). by exists spk, sig.
Qed.

(** The signers that are counted are those whose signatures verify. *)
Lemma signers_match ctx start ids signers es :
  Forall2 (may_sign_for (pc_view ctx)) signers es →
  Forall2 (λ id s, getAccountID s.2 sfAccount = Ret id ∧
    signer_valid start (flagged (getFlags (tx_obj (pc_tx ctx))) tfFullyCanonicalSig) id s.2 = true) ids signers →
  Forall2 (signs_for ctx start) signers es ∧ map se_account es = ids.
Proof.
  intros H1. revert ids. induction H1 as [|s e signers es [Hid (spk & Hspk & _ & Hkey)] _ IH]; intros ids H2.
  - apply Forall2_nil_inv_r in H2 as ->. by split; [constructor|].
  - apply Forall2_cons_inv_r in H2 as (id & ids' & [Hid' Hv] & H2 & ->). rewrite Hid in Hid'. injection Hid' as <-.
    destruct (IH ids' H2) as [HF <-]. split; [|done]. constructor; [|done]. split; [done|].
    apply signer_valid_signed in Hv as (spk' & sig & Hspk' & Hsig & Hver). rewrite Hspk in Hspk'. injection Hspk' as <-. by exists spk, sig.
Qed.

Lemma checkSign_signed ctx id x :
  getAccountID (tx_obj (pc_tx ctx)) sfAccount = Ret id → rv_read (pc_view ctx) (kl_account id) = Some x →
  tx_checkSign (enabled (v_rules (pc_info ctx)) featureMultiSign) (pc_tx ctx) = true →
  transactor_checkSign ctx = Ret tesSUCCESS → key_signed ctx id x ∨ quorum_signed ctx id.
Proof.
  intros Hid Hx Hsig Hc.
  assert (Hsingle : checkSingleSign (pc_tx ctx) = Ret true → transactor_checkSingleSign ctx = Ret tesSUCCESS → key_signed ctx id x).
  { intros (spk & Hspk & Hs)%checkSingleSign_signed [[]|(_ & id' & x' & Hid' & Hx' & spk' & Hspk' & _ & Hkey)]%checkSingleSign_sound; [done|].
    rewrite Hid in Hid'. injection Hid' as <-. rewrite Hx in Hx'. injection Hx' as <-. rewrite Hspk in Hspk'. injection Hspk' as <-. by exists spk. }
  unfold transactor_checkSign in Hc. unfold tx_checkSign, or_else in Hsig. destruct (enabled _ _).
  2: { left. apply Hsingle; [|done]. destruct (checkSingleSign _); [by subst|done]. }
  apply outcome_bind_Ret in Hc as (spk & Hspk & Hc). unfold getSigningPubKey in Hspk. rewrite Hspk in Hsig. cbn [mbind outcome_bind] in Hsig.
  destruct (bool_decide (spk = [])); [right|left; apply Hsingle; [|done]; destruct (checkSingleSign _); [by subst|done]].
  assert (Hm : tx_checkMultiSign (pc_tx ctx) = Ret true) by (destruct (tx_checkMultiSign _); [by subst|done]).
  apply multisign_sound in Hm as (signers & ids & account & start & Hsg & _ & _ & Hstart & Hsort & _ & Hv).
  apply checkMultiSign_sound in Hc as [[]|(_ & id' & Hid' & s & all & signers' & es & q & Hs & Hall & Hsg' & Hes & _ & Hsub & Hq & Hw)]; [done|].
  rewrite Hid in Hid'. injection Hid' as <-. rewrite Hsg in Hsg'. injection Hsg' as <-.
  destruct (signers_match ctx start ids signers es Hes Hv) as [HF Hids]. apply StronglySorted_inv in Hsort as [Hsort _].
  exists s, all, start, signers, es, q. split_and!; try done; [by apply Hsub; rewrite Hids|].
  rewrite Hids. clear - Hsort. induction Hsort as [|i ids _ IH Hall]; constructor; [|done]. intros Hin. rewrite Forall_forall in Hall.
  specialize (Hall i Hin). lia.
Qed.

(** A preflight that succeeds has verified the signatures, if the router is honest about them. *)
Lemma preflight_signed T `{!CommonChecks T} pf router router' :
  honest (pf_rules pf) (pf_tx pf) (known_flags router (tid_ (pf_tx pf))) →
  tx_preflight T pf router = (tesSUCCESS, router') →
  tx_checkSign (enabled (pf_rules pf) featureMultiSign) (pf_tx pf) = true ∧
  ∃ id, getAccountID (tx_obj (pf_tx pf)) sfAccount = Ret id ∧ id ≠ 0.
Proof.
  intros Hh Hpf. unfold tx_preflight in Hpf. destruct (t_preflight pf router) as [[r|] router1] eqn:E; [|done]. injection Hpf as -> ->.
  destruct (common_checks pf router router' E) as [H1 H2]. split.
  - unfold preflight2 in H2. destruct (checkValidity_honest (pf_now pf) (pf_rules pf) [pf_tx pf] (pf_tx pf) router) as [Hv _];
      [by intros tx' ->%list_elem_of_singleton|by apply list_elem_of_singleton|by intros tx' ->%list_elem_of_singleton|].
    destruct (checkValidity _ _ _ _) as [v router2]. cbn [fst] in Hv, H2. subst v. unfold validity in H2.
    destruct (tx_checkSign _ _); [done|]. cbn in H2. discriminate H2.
  - unfold preflight1 in H1. destruct (isTesSuccess (preflight0 pf)) eqn:E0; cbn [negb] in H1; [|injection H1 as H1; by rewrite H1 in E0].
    apply outcome_bind_Ret in H1 as (id & Hid & H1). exists id. split; [done|]. intros ->. discriminate H1.
Qed.
End Authorized.

(** C2: a transaction is only allowed to cost its account anything if the account has agreed to
    it.  If the preflight succeeds and the checks against the ledger return success or a code that
    claims a fee, then the account exists and is at the sequence of the transaction, the transaction is
    not too late, its signatures have been verified, and it is signed with the account's master key,
    unless disabled, with its regular key, or by different members of its signer list who
    reach the quorum, each with a key it allows.  There is one exception, which the code makes: when an
    account cannot pay the fee on a closed ledger, what it has is claimed with
    [tecINSUFF_FEE] once the signatures have been verified, before the keys are compared with those the
    account allows.  It is assumed that what the router remembers about this transaction is true. *)
Theorem preclaim_authorized `{Hash : Sha512} `{Lib : Crypto} (T : TxType) `{!CommonChecks T} (pf : PreflightContext)
    (ctx : PreclaimContext) (rules : Rules) (now : Z) (r : TER) (router router1 router2 : HashRouter)
    (Htx : pf_tx pf = pc_tx ctx) (Hrules : pf_rules pf = v_rules (pc_info ctx))
    (Hh : honest (pf_rules pf) (pf_tx pf) (known_flags router (tid_ (pf_tx pf))))
    (Hpf : tx_preflight T pf router = (tesSUCCESS, router1))
    (Hpc : tx_preclaim T rules true tesSUCCESS now ctx router1 = (r, router2))
    (Hl : likelyToClaimFee r (pc_flags ctx) = true) :
  in_time ctx ∧ tx_checkSign (enabled (v_rules (pc_info ctx)) featureMultiSign) (pc_tx ctx) = true ∧
  ∃ id x seq, getAccountID (tx_obj (pc_tx ctx)) sfAccount = Ret id ∧ rv_read (pc_view ctx) (kl_account id) = Some x ∧
    getSequence (pc_tx ctx) = Ret seq ∧ getFieldU32 (sle_body x) sfSequence = Ret seq ∧
    (key_signed ctx id x ∨ quorum_signed ctx id ∨ r = tecINSUFF_FEE ∧ short_of_fee ctx x).
Proof.
  destruct (preflight_signed T pf router router1 Hh Hpf) as [Hsig (id & Hid & Hnz)]. rewrite Htx, ?Hrules in *.
  unfold tx_preclaim in Hpc. change (tesSUCCESS =? tesSUCCESS) with true in Hpc. cbn [negb] in Hpc. injection Hpc as Hr <-.
  destruct (invoke_preclaim T ctx) as [r0|] eqn:E; cbn [or_else] in Hr; [|by subst r]. subst r0.
  destruct (invoke_preclaim_sound T ctx id r Hid Hnz E Hl) as (Htime & x & seq & Hx & Hseq & Haseq & Hc).
  split; [done|]. split; [done|]. exists id, x, seq. split_and!; [done..|]. destruct Hc as [Hc|Hc]; [|by auto].
  destruct (checkSign_signed ctx id x Hid Hx Hsig Hc); auto.
Qed.

Section Tests.
#[local] Existing Instance number_hash.
#[local] Existing Instance trusting_crypto.

(** Account 5 has no master key any more; 0 is its regular key, which is the account of every key here. *)
Definition test_regular : SLE STObject :=
  mkSLE (kl_key (kl_account 5)) ltACCOUNT_ROOT
    (set AccountID sfRegularKey 0 (set U32 sfSequence 1 (sle_body test_locked))).
Definition test_signed_setkey : STTx :=
  mkTx (mkObject None [(sfAccount, c_make AccountID 5); (sfFee, c_make AmountC (st_native 10 false));
    (sfSequence, c_make U32 1); (sfSigningPubKey, Blob (0xED :: replicate 32 7)); (sfTxnSignature, Blob (replicate 64 1));
    (sfRegularKey, c_make AccountID 9); (sfSigners, NotPresent); (sfFlags, c_make U32 0)]) 98 5.
Definition test_preflight : PreflightContext := mkPreflight test_signed_setkey (λ _, true) 0 0.
Definition test_preclaim : PreclaimContext :=
  mkPreclaim (map_view {[kl_key (kl_account 5) := test_regular]}) (test_info 600000000) (λ _, false)
    test_signed_setkey 0 (mkTrack 256 256 256 0).

Lemma preclaim_authorized_witness :
  (tx_preflight SetRegularKey test_preflight (make_router 300 1)).1 = tesSUCCESS ∧
  ∃ id x seq, rv_read (pc_view test_preclaim) (kl_account id) = Some x ∧ getSequence (pc_tx test_preclaim) = Ret seq ∧
    getFieldU32 (sle_body x) sfSequence = Ret seq.
Proof.
  assert (H : (tx_preflight SetRegularKey test_preflight (make_router 300 1)).1 = tesSUCCESS) by (vm_compute; reflexivity).
  split; [exact H|]. destruct (tx_preflight SetRegularKey test_preflight (make_router 300 1)) as [r router1] eqn:E.
  cbn in H. subst r.
  destruct (preclaim_authorized SetRegularKey test_preflight test_preclaim (λ _, true) 0 tesSUCCESS (make_router 300 1) router1 router1)
    as (_ & _ & id & x & seq & _ & H1 & H2 & H3 & _).
  - reflexivity.
  - reflexivity.
  - apply honest_none.
  - exact E.
  - unfold tx_preclaim. f_equal.
  - reflexivity.
  - exact (ex_intro _ id (ex_intro _ x (ex_intro _ seq (conj H1 (conj H2 H3))))).
Defined.
End Tests.
