(* ===== verification/ReplayLaws.v ===== *)
(** The sequence of an account.

    Applying a transaction raises the sequence of the account that sends it, and none of the
    transaction types puts it back: a program logic follows the root of the account through
    [Transactor::apply], through [Transactor::reset] and through the [doApply] of each type.
    With the way a transaction is committed, a transaction that was applied is refused when
    it is tried again. *)

From stdpp Require Import base numbers list gmap strings.
From Stdlib Require Import Lia ZArith.
From S2P Require Import Prelude XRPAmount Serializer STAmount Quality StateTable SField STObject STObjectWire STObjectLaws.
From S2P Require Import Entry Indexes ApplyView ViewLogic Directory DirectoryFrame TxBase Invariants Keys HashRouter STTx LoadFeeTrack.
From S2P Require Import Encodings Conditions CoreLogic View ViewLaws XrpNeutral Transactor AccountTx OwnedTx Escrow EscrowLaws AccountLaws TransactorLaws PreclaimLaws.

Local Open Scope Z_scope.

(** ** Changing one field *)

(** [o'] differs from [o] in the field [f] at most. *)
Definition touched (f : SField) (o o' : STObject) : Prop :=
  mType o' = mType o ∧ ∀ g, fieldCode f ≠ fieldCode g → peekAtPField o' g = peekAtPField o g.

Lemma touched_refl f o : touched f o o.
Proof. done. Qed.

Lemma touched_trans f o1 o2 o3 : touched f o1 o2 → touched f o2 o3 → touched f o1 o3.
Proof. intros [H1 H2] [H3 H4]. split; [congruence|]. intros g Hg. by rewrite H4, H2. Qed.

Lemma getFieldBy_touched {V} (C : STClass V) f g o o' :
  touched f o o' → fieldCode f ≠ fieldCode g → getFieldBy C o' g = getFieldBy C o g.
Proof. intros [_ H] Hg. unfold getFieldBy. by rewrite H. Qed.

Lemma find_index_Some {A} (p : A → bool) l i : find_index p l = Some i → ∃ x, l !! i = Some x ∧ p x = true.
Proof.
  revert i. induction l as [|y l IH]; intros i; cbn; [done|]. destruct (p y) eqn:E.
  - intros [= <-]. by exists y.
  - intros (j & Hj & ->)%fmap_Some. by apply IH.
Qed.

Lemma put_touched t f i x o : mType o = Some t → getFieldIndex o f = Some i → touched f o (put_at i x o).
Proof.
  intros Ht. unfold touched, peekAtPField, getFieldIndex, put_at. cbn. rewrite Ht. intros Hi. split; [done|]. intros g Hg.
  destruct (getIndex t g) as [j|] eqn:Hj; [|done]. cbn. rewrite list_lookup_alter_ne; [done|]. intros <-.
  apply find_index_Some in Hi as (e & He & Hf). apply find_index_Some in Hj as (e' & He' & Hf').
  rewrite He in He'. injection He' as <-. apply Z.eqb_eq in Hf, Hf'. congruence.
Qed.

Section Touch.
Context (t : SOTemplate) (o o' : STObject) (Ht : mType o = Some t).

Lemma getPField_touched f i : getPField f o = Ret (i, o') → o' = o ∧ i = getFieldIndex o f.
Proof using Ht.
  unfold getPField, isFree. rewrite Ht. destruct (getFieldIndex o f); by intros [= <- <-].
Qed.

Lemma makeFieldPresent_touched f i : makeFieldPresent f o = Ret (i, o') → touched f o o' ∧ getFieldIndex o f = Some i.
Proof using Ht.
  unfold makeFieldPresent, isFree. rewrite Ht. destruct (getFieldIndex o f) as [j|] eqn:Hj; [|done].
  destruct (v_ o !! j) as [[g []]|]; try (intros [= <- <-]; done).
  intros (x & _ & [= <- <-])%outcome_bind_Ret. split; [by eapply put_touched|done].
Qed.

Lemma makeFieldAbsent_touched f : makeFieldAbsent f o = Ret o' → touched f o o'.
Proof using Ht. unfold makeFieldAbsent. destruct (getFieldIndex o f) eqn:E; [|done]. intros [= <-]. by eapply put_touched. Qed.

Lemma setFlag_touched n b : setFlag n o = Ret (b, o') → touched sfFlags o o'.
Proof using Ht.
  unfold setFlag. unfold getPField, isFree. rewrite Ht. destruct (getFieldIndex o sfFlags) as [i|] eqn:Hi; cbn.
  - destruct (v_ o !! i) as [[g []]|]; intros [= <- <-]; try done. by eapply put_touched.
  - by intros [= <- <-].
Qed.
End Touch.

Lemma assign_touched {V} (C : STClass V) t f i v o o' :
  mType o = Some t → getFieldIndex o f = Some i → assign_at C v i o = Ret o' → touched f o o'.
Proof.
  intros Ht Hi. unfold assign_at. destruct (v_ o !! i) as [[g x]|]; [|done]. destruct (c_value C x); [|done].
  intros [= <-]. by eapply put_touched.
Qed.

Lemma index_touched f g t o o' : mType o = Some t → touched f o o' → getFieldIndex o' g = getFieldIndex o g.
Proof. intros Ht [Hm _]. unfold getFieldIndex. by rewrite Hm, Ht. Qed.

Lemma setFieldUsing_touched {V} (C : STClass V) t f v o o' :
  mType o = Some t → setFieldUsing C f v o = Ret o' →
  touched f o o' ∧ ∃ i o1, getFieldIndex o1 f = Some i ∧ mType o1 = Some t ∧ assign_at C v i o1 = Ret o'.
Proof.
  intros Ht. unfold setFieldUsing, getPField, isFree. rewrite Ht. destruct (getFieldIndex o f) as [i|] eqn:Hi; cbn; [|done].
  intros ([j o1] & Hj & Ha)%outcome_bind_Ret.
  assert (touched f o o1 ∧ getFieldIndex o f = Some j) as [H1 Hj'].
  { destruct (v_ o !! i) as [[g []]|]; try (injection Hj as <- <-; done). by eapply makeFieldPresent_touched. }
  rewrite <- (index_touched f f t o o1) in Hj' by done. assert (mType o1 = Some t) as Ht1 by (by rewrite (proj1 H1)).
  split; [|by exists j, o1]. eapply touched_trans; [exact H1|]. by eapply assign_touched.
Qed.

Lemma proxy_assign_touched {V} `{EqDecision V} (C : STClass V) t f v o o' :
  mType o = Some t → proxy_assign C f v o = Ret o' → touched f o o'.
Proof.
  intros Ht. unfold proxy_assign. intros (st & Hst & H)%outcome_bind_Ret. destruct (_ && _); [by eapply makeFieldAbsent_touched|].
  apply outcome_bind_Ret in H as ([p o1] & H1 & H). unfold proxy_style in Hst. rewrite Ht in Hst.
  assert (touched f o o1 ∧ p = getFieldIndex o f) as [Ho ->].
  { destruct st.
    - apply outcome_bind_Ret in H1 as ([i o2] & H1 & [= <- <-]). by eapply makeFieldPresent_touched in H1 as [? ->].
    - by eapply getPField_touched in H1 as [-> ->]. }
  eapply touched_trans; [exact Ho|]. rewrite <- (index_touched f f t o o1) in H by done.
  destruct (getFieldIndex o1 f) as [i|] eqn:Hi; cbn in H; [|done].
  destruct (v_ o1 !! i) as [[g x]|]; [|done]. destruct (c_value C x); [|done]. injection H as <-.
  apply (put_touched t); [|done]. by rewrite (proj1 Ho).
Qed.

(** What was assigned is there. *)
Lemma setFieldU32_same t f v o o' : mType o = Some t → setFieldUsing U32 f v o = Ret o' → getFieldU32 o' f = Ret v.
Proof.
  intros Ht (_ & i & o1 & Hi & Ht1 & H)%(setFieldUsing_touched _ t); [|done]. unfold assign_at in H.
  destruct (v_ o1 !! i) as [[g x]|] eqn:E; [|done]. destruct (c_value U32 x); [|done]. injection H as <-.
  unfold getFieldU32, getFieldBy, peekAtPField.
  assert (∀ y, getFieldIndex (put_at i y o1) f = Some i) as ->
    by (intros y; revert Hi; unfold getFieldIndex, put_at; cbn; by rewrite Ht1).
  cbn. rewrite list_lookup_alter_eq, E. done.
Qed.

(** ** Following the root of an account *)

(** How far the sequence has come: not set yet, set, or set in an entry that the view will
    write whatever is stored in it later. *)
Inductive progress := Unset | Raised | Recorded.

Section Follow.
Context (k n : Z).
Implicit Types (s : vstate STObject) (st : progress).

Definition root_of (st : progress) (s : vstate STObject) (y : SLE STObject) : Prop :=
  vs_map s !! k = Some y ∧ sle_type y = ltACCOUNT_ROOT ∧ mType (sle_body y) = Some account_template ∧
  (st ≠ Unset → getFieldU32 (sle_body y) sfSequence = Ret n) ∧ (st = Recorded → k ∈ vs_saved s ∧ k ∉ vs_dirty s).

Definition follows st s : Prop := ∃ y, root_of st s y.

(** [kspec p st Q]: from the state [st] of the root, [p] ends as [Q] says if it ends. *)
Definition kspec {A} (p : view_prog A) st (Q : A → progress → Prop) : Prop :=
  ∀ s, follows st s → wlp p (λ a s', ∃ st', follows st' s' ∧ Q a st') s.

Lemma kspec_ret {A} (a : A) st (Q : A → progress → Prop) : Q a st → kspec (mret a) st Q.
Proof. intros HQ s Hs. apply wlp_ret. by exists st. Qed.

Lemma kspec_fail {A} e st (Q : A → progress → Prop) : kspec (Fail e) st Q.
Proof. intros s _. apply wlp_fail. Qed.

Lemma kspec_bind {A B} (p : view_prog A) (f : A → view_prog B) st Q :
  kspec p st (λ a st', kspec (f a) st' Q) → kspec (p ≫= f) st Q.
Proof.
  intros H s Hs. apply wlp_bind. eapply wlp_mono; [by apply H|]. intros a s' (st' & Hst' & Hf). by apply Hf.
Qed.

Lemma kspec_mono {A} (p : view_prog A) st (Q Q' : A → progress → Prop) :
  (∀ a st', Q a st' → Q' a st') → kspec p st Q → kspec p st Q'.
Proof.
  intros HM H s Hs. eapply wlp_mono; [by apply H|]. intros a s' (st' & Hst' & HQ). exists st'. auto.
Qed.

Lemma kspec_from {A} (m : outcome A) st (Q : A → progress → Prop) : (∀ a, m = Ret a → Q a st) → kspec (from m) st Q.
Proof. intros H s Hs. apply wlp_from. intros a Ha. exists st. auto. Qed.

Lemma kspec_read kl st (Q : option (SLE STObject) → progress → Prop) : (∀ x, Q x st) → kspec (read kl) st Q.
Proof. intros H s Hs. apply wlp_read. by exists st. Qed.

Lemma kspec_load h st (Q : SLE STObject → progress → Prop) : (∀ x, Q x st) → kspec (load h) st Q.
Proof. intros H s Hs. apply wlp_load. intros x _. by exists st. Qed.

Lemma kspec_get {V} (C : STClass V) h f st (Q : V → progress → Prop) : (∀ v, Q v st) → kspec (get C h f) st Q.
Proof. intros H. apply kspec_bind, kspec_load. intros x. apply kspec_from. auto. Qed.

(** An entry of another type is not the root. *)
Definition other_type (kl : Keylet) : Prop := 0 ≤ kl_type kl ∧ kl_type kl ≠ ltACCOUNT_ROOT.

Lemma kspec_peek kl st (Q : option Z → progress → Prop) :
  Q None st → ((other_type kl → kl_key kl ≠ k) → Q (Some (kl_key kl)) st) → kspec (peek kl) st Q.
Proof.
  intros Hn Hs s [y Hy]. apply wlp_peek. exists st. split; [by exists y|].
  destruct (lookup_kl (vs_map s) kl) as [x|] eqn:E; [|exact Hn]. apply Hs. intros [Hp Ht] Hk.
  destruct Hy as (Hy & Hr & _). unfold lookup_kl, check in E. rewrite Hk, Hy in E.
  unfold ltANY, ltINVALID, ltCHILD in E. rewrite !(proj2 (Z.eqb_neq (kl_type kl) _)) in E by lia.
  rewrite Hr in E. by destruct (Z.eqb_spec ltACCOUNT_ROOT (kl_type kl)).
Qed.

Lemma kspec_peek_or kl msg st (Q : Z → progress → Prop) :
  ((other_type kl → kl_key kl ≠ k) → Q (kl_key kl) st) → kspec (peek_or kl msg) st Q.
Proof. intros H. apply kspec_bind, kspec_peek; [apply kspec_fail|]. intros Hk. apply kspec_ret. auto. Qed.

Lemma root_stored h y o st s x :
  root_of st s y → vs_map s !! h = Some x →
  (h = k → mType o = Some account_template ∧ (st ≠ Unset → getFieldU32 o sfSequence = Ret n)) →
  follows st (stored h (set_body x o) s).
Proof.
  intros (Hy & Hr & Ht & Hn & Hc) Hx Ho. destruct (decide (h = k)) as [->|Hne].
  - destruct (Ho eq_refl) as [H1 H2]. rewrite Hy in Hx. injection Hx as <-. exists (set_body y o).
    split_and!; [apply lookup_insert_eq|done..|]. intros Hst. destruct (Hc Hst). cbn. by rewrite decide_True by done.
  - exists y. split_and!; [cbn; by rewrite lookup_insert_ne|done..|]. intros Hst. destruct (Hc Hst) as [H1 H2]. cbn. split; [done|].
    case_decide; [done|]. intros [?%elem_of_singleton|?]%elem_of_union; [by subst|done].
Qed.

Lemma kspec_change (describe : STObject → outcome STObject) h st (Q : unit → progress → Prop) f :
  (∀ o o', mType o = Some account_template → describe o = Ret o' → touched f o o') →
  fieldCode f ≠ fieldCode sfSequence → Q tt st → kspec (describe_at describe h) st Q.
Proof.
  intros Hd Hf HQ s [y Hy]. apply wlp_bind, wlp_load. intros x Hx. apply wlp_bind, wlp_from. intros o Ho. apply wlp_store.
  intros x' Hx'. exists st. split; [|done]. rewrite Hx in Hx'. injection Hx' as <-. eapply root_stored; [done..|]. intros ->.
  destruct Hy as (Hy & _ & Ht & Hn & _). rewrite Hx in Hy. injection Hy as <-. pose proof (Hd _ _ Ht Ho) as Hto.
  split; [by rewrite (proj1 Hto)|]. intros Hst. unfold getFieldU32. rewrite (getFieldBy_touched _ _ _ _ _ Hto) by done. by apply Hn.
Qed.

Lemma kspec_put {V} (C : STClass V) h f v st (Q : unit → progress → Prop) :
  fieldCode f ≠ fieldCode sfSequence → Q tt st → kspec (put C h f v) st Q.
Proof.
  apply (kspec_change (setFieldUsing C f v) h st Q f). intros o o' Ht Ho. by eapply setFieldUsing_touched.
Qed.

Lemma kspec_absent h f st (Q : unit → progress → Prop) :
  fieldCode f ≠ fieldCode sfSequence → Q tt st → kspec (make_absent h f) st Q.
Proof. apply (kspec_change (makeFieldAbsent f) h st Q f). intros o o' Ht Ho. by eapply makeFieldAbsent_touched. Qed.

Lemma kspec_assign {V} `{EqDecision V} (C : STClass V) h f v st (Q : unit → progress → Prop) :
  fieldCode f ≠ fieldCode sfSequence → Q tt st → kspec (describe_at (proxy_assign C f v) h) st Q.
Proof. apply (kspec_change (proxy_assign C f v) h st Q f). intros o o' Ht Ho. by eapply proxy_assign_touched. Qed.

Lemma kspec_present h f st (Q : unit → progress → Prop) :
  fieldCode f ≠ fieldCode sfSequence → Q tt st → kspec (describe_at (λ o, '(_, o) ← makeFieldPresent f o; Ret o) h) st Q.
Proof.
  apply (kspec_change _ h st Q f). intros o o' Ht ([i o1] & Ho & [= <-])%outcome_bind_Ret. by eapply makeFieldPresent_touched.
Qed.

Lemma kspec_setFlag h f st (Q : unit → progress → Prop) :
  Q tt st → kspec (describe_at (λ o, '(_, o) ← setFlag f o; Ret o) h) st Q.
Proof.
  apply (kspec_change _ h st Q sfFlags); [|by vm_compute]. intros o o' Ht ([i o1] & Ho & [= <-])%outcome_bind_Ret.
  by eapply setFlag_touched.
Qed.

(** The place where the sequence is set. *)
Lemma kspec_raise st (Q : unit → progress → Prop) : Q tt Raised → kspec (put U32 k sfSequence n) st Q.
Proof.
  intros HQ s [y (Hy & Hr & Ht & _)]. apply wlp_bind, wlp_load. intros x Hx. rewrite Hy in Hx. injection Hx as <-.
  apply wlp_bind, wlp_from. intros o Ho. apply wlp_store. intros x Hx. rewrite Hy in Hx. injection Hx as <-. exists Raised.
  split; [|done]. pose proof (setFieldUsing_touched _ _ _ _ _ _ Ht Ho) as [Hto _]. exists (set_body y o).
  split_and!; [apply lookup_insert_eq|done|by rewrite <- Ht; apply Hto| |done]. intros _. by eapply setFieldU32_same.
Qed.

Lemma kspec_modify_amount op h f st (Q : unit → progress → Prop) :
  fieldCode f ≠ fieldCode sfSequence → Q tt st → kspec (modify_amount op h f) st Q.
Proof.
  intros Hf HQ. unfold modify_amount.
  set (d := λ o, v ← proxy_value AmountC o f; v ← op v; proxy_assign AmountC f v o).
  assert (Hd : kspec (describe_at d h) st Q).
  { apply (kspec_change d h st Q f); [|done..]. intros o o' Ht Ho. apply outcome_bind_Ret in Ho as (v & _ & Ho).
    apply outcome_bind_Ret in Ho as (w & _ & Ho). by eapply proxy_assign_touched. }
  intros s Hs a s' Hrun. apply (Hd s Hs). revert Hrun. unfold describe_at, d. rewrite !run_bind.
  destruct (run (load h) s) as [[x s1]|]; [|done]. rewrite !run_bind.
  destruct (proxy_value AmountC (sle_body x) f); [cbn|done]. rewrite !run_bind.
  destruct (op _); [cbn|done]. rewrite !run_bind. by destruct (proxy_assign AmountC f _ _).
Qed.

Lemma kspec_update h st (Q : unit → progress → Prop) : Q tt st → kspec (update h) st Q.
Proof.
  intros HQ s [y (Hy & Hr & Ht & Hn & Hc)]. apply wlp_update. exists st. split; [|done]. exists y. split_and!; [done..|].
  intros Hst. destruct (Hc Hst). cbn. set_solver.
Qed.

(** The update by which the view takes note of the root. *)
Lemma kspec_record (Q : unit → progress → Prop) : Q tt Recorded → kspec (update k) Raised Q.
Proof.
  intros HQ s [y (Hy & Hr & Ht & Hn & Hc)]. apply wlp_update. exists Recorded. split; [|done]. exists y.
  split_and!; [done..| |].
  - intros _. by apply Hn.
  - intros _. cbn. set_solver.
Qed.

Lemma kspec_insert x st (Q : unit → progress → Prop) : (sle_key x ≠ k → Q tt st) → kspec (insert x) st Q.
Proof.
  intros HQ s [y (Hy & Hr & Ht & Hn & Hc)]. apply wlp_insert. intros Hx.
  assert (Hne : sle_key x ≠ k) by (intros Hk; rewrite Hk, Hy in Hx; discriminate).
  exists st. split; [|auto]. exists y. split_and!; [cbn; by rewrite lookup_insert_ne|done..|].
  intros Hst. destruct (Hc Hst). cbn. set_solver.
Qed.

Lemma kspec_erase h st (Q : unit → progress → Prop) : h ≠ k → Q tt st → kspec (erase h) st Q.
Proof.
  intros Hne HQ s [y (Hy & Hr & Ht & Hn & Hc)]. apply wlp_erase. intros x Hx.
  exists st. split; [|done]. exists y. split_and!; [cbn; by rewrite lookup_delete_ne|done..|].
  intros Hst. destruct (Hc Hst). cbn. set_solver.
Qed.

(** Programs that keep to the directories. *)
Lemma run_recorded {A} (p : view_prog A) s a s' :
  run p s = Ret (a, s') → k ∉ vs_dirty s → (k ∈ vs_saved s ∨ vs_map s !! k = None) →
  k ∉ vs_dirty s' ∧ (k ∈ vs_saved s' ∨ vs_map s' !! k = None).
Proof.
  revert s. induction p as [x|e|kl c IH|kl c IH|h c IH|h o c IH|h c IH|y c IH|h c IH|kl l c IH]; intros s Hrun Hd Hc;
    cbn [run] in Hrun; try (by eauto).
  - injection Hrun as -> ->. auto.
  - destruct (vs_map s !! h); [by eauto|done].
  - destruct (vs_map s !! h) as [x|] eqn:Hx; [|done]. apply (IH _ Hrun); cbn.
    + case_decide as Hh; [done|]. intros [->%elem_of_singleton|?]%elem_of_union; [|done]. destruct Hc; congruence.
    + destruct Hc as [?|Hn]; [by left|right]. rewrite lookup_insert_ne; congruence.
  - destruct (vs_map s !! h) as [x|] eqn:Hx; [|done]. apply (IH _ Hrun); cbn; [set_solver|]. destruct Hc; [left; set_solver|by right].
  - destruct (vs_map s !! sle_key y) eqn:Hx; [done|]. apply (IH _ Hrun); cbn; [set_solver|].
    destruct (decide (sle_key y = k)) as [->|Hne]; [left; set_solver|]. rewrite lookup_insert_ne by done. destruct Hc; [left; set_solver|by right].
  - destruct (vs_map s !! h) eqn:Hx; [|done]. apply (IH _ Hrun); cbn; [set_solver|].
    destruct (decide (h = k)) as [->|Hne]; [right; apply lookup_delete_eq|]. rewrite lookup_delete_ne by done.
    destruct Hc; [left; set_solver|by right].
Qed.

Lemma kspec_confined {A} (p : view_prog A) st (Q : A → progress → Prop) :
  (∀ S D, confined quiet p ∅ S D (λ a _ _ _, Q a st)) → kspec p st Q.
Proof.
  intros Hp s [y (Hy & Hr & Ht & Hn & Hc)] a s' Hrun.
  destruct (confined_run _ quiet_type p _ _ _ _ s a s' (Hp ∅ (vs_dirty s))) as (Ho & P' & S' & D' & HQ & _);
    [split_and!; [by intros ? ? ?%not_elem_of_empty|apply empty_subseteq|done]|done|].
  assert (Hq : quiet (sle_type y) = false) by by rewrite Hr.
  assert (Hy' : vs_map s' !! k = Some y).
  { apply (others_lookup quiet). rewrite Ho. by apply others_lookup. }
  exists st. split; [|done]. exists y. split_and!; [done..|]. intros Hst. destruct (Hc Hst) as [H1 H2].
  destruct (run_recorded p s a s' Hrun H2 (or_introl H1)) as [H3 [H4|H4]]; [done|congruence].
Qed.

Section Ops.
Context `{Hash : Sha512}.

Lemma kspec_dirRemove d page key keep st (Q : bool → progress → Prop) :
  (∀ b, Q b st) → kspec (dirRemove d page key keep) st Q.
Proof. intros HQ. apply kspec_confined. intros S D. apply confined_dirRemove; [done|]. auto. Qed.

Lemma kspec_dirAdd info account key st (Q : option Z → progress → Prop) :
  (∀ b, Q b st) → kspec (owner_dirAdd info account key) st Q.
Proof. intros HQ. apply kspec_confined. intros S D. by apply confined_view_dirAdd. Qed.

Lemma kspec_dirInsert account key describe st (Q : option Z → progress → Prop) :
  (∀ b, Q b st) → kspec (dirInsert (kl_ownerDir account) key describe) st Q.
Proof. intros HQ. apply kspec_confined. intros S D. by apply confined_dirAdd. Qed.

Lemma kspec_count h amount st (Q : unit → progress → Prop) : Q tt st → kspec (adjustOwnerCount h amount) st Q.
Proof.
  intros HQ. apply kspec_bind, kspec_get. intros c. apply kspec_bind, kspec_load. intros x. apply kspec_bind, kspec_from.
  intros id _. apply kspec_bind, kspec_put; [by vm_compute|]. by apply kspec_update.
Qed.

Lemma kspec_insert_new kl fields st (Q : Z → progress → Prop) :
  (∀ h, h ≠ k → Q h st) → kspec (insert_new kl fields) st Q.
Proof.
  intros HQ. apply kspec_bind, kspec_from. intros x _. apply kspec_bind, kspec_from. intros o _.
  apply kspec_bind, kspec_insert. intros Hx. apply kspec_ret. by apply HQ.
Qed.
End Ops.
End Follow.

(** One step of a program that leaves the sequence alone. *)
Ltac kstep := first
  [ apply kspec_ret | apply kspec_fail | apply kspec_dirRemove; intros ? | apply kspec_dirAdd; intros ?
  | apply kspec_dirInsert; intros ? | apply kspec_count | apply kspec_insert_new; intros ? ?
  | apply kspec_absent; [by vm_compute|] | apply kspec_assign; [by vm_compute|] | apply kspec_present; [by vm_compute|] | apply kspec_setFlag
  | apply kspec_put; [by vm_compute|] | apply kspec_modify_amount; [by vm_compute|] | apply kspec_update
  | apply kspec_insert; intros ? | apply kspec_erase; [auto|] | apply kspec_peek; [|intros ?] | apply kspec_peek_or; intros ?
  | apply kspec_get; intros ? | apply kspec_load; intros ? | apply kspec_read; intros ? | apply kspec_from; intros ? ?
  | apply kspec_bind ].

(** The branches of a program. *)
Ltac ksplit := match goal with |- kspec _ _ ?p _ _ => match p with context [match ?b with _ => _ end] => destruct b end end.
Ltac other_entry := match goal with H : other_type ?kl → _ |- _ ≠ _ =>
  apply H; split; [apply Z.leb_le; reflexivity|apply Z.eqb_neq; reflexivity] end.
Ltac kwalk := repeat first [ kstep | ksplit ]; try done; try other_entry.

(** ** The types of transactions *)

(** Applying a transaction of the type leaves the sequences of all accounts as they are. *)
Class KeepsSequence (T : TxType) : Prop :=
  keeps_sequence : ∀ (args : ApplyArgs) (router : HashRouter) (k n : Z), kspec k n (t_doApply args router) Recorded (λ _ st, st = Recorded).

Section Types.
Context `{Hash : Sha512} `{Hash256 : Sha256} `{Lib : Crypto}.

Lemma kspec_offerDelete k n o st : match o with Some h => h ≠ k | None => True end → kspec k n (offerDelete o) st (λ _ st', st' = st).
Proof. intros Ho. unfold offerDelete, peek_deref. kwalk. Qed.

Lemma kspec_remove_offers k n offers removed st : kspec k n (remove_offers offers removed) st (λ _ st', st' = st).
Proof.
  revert removed. induction offers as [|i offers IH]; intros removed; [by apply kspec_ret|]. cbn [remove_offers].
  apply kspec_bind, kspec_peek; [apply IH|]. intros Hk. apply kspec_bind.
  eapply kspec_mono; [|apply kspec_offerDelete; other_entry]. intros _ ? ->. destruct (_ =? _); [by apply kspec_ret|apply IH].
Qed.

#[export] Instance SetRegularKey_keeps : KeepsSequence SetRegularKey.
Proof. intros a router k n. cbn [t_doApply SetRegularKey]. unfold SetRegularKey_doApply, peek_deref. kwalk. Qed.
(** A part of a program that leaves the root in the state it finds. *)
Lemma kspec_part {A} k n (p : view_prog A) st (Q : A → progress → Prop) :
  kspec k n p st (λ _ st', st' = st) → (∀ a, Q a st) → kspec k n p st Q.
Proof. intros Hp HQ. eapply kspec_mono; [|exact Hp]. by intros a ? ->. Qed.

Lemma kspec_set_or_unset {V} (C : STClass V) k n tx f empty h st :
  fieldCode f ≠ fieldCode sfSequence → kspec k n (set_or_unset C tx f empty h) st (λ _ st', st' = st).
Proof.
  intros Hf. unfold set_or_unset. destruct (isFieldPresent tx f); [|by kstep]. do 2 kstep.
  destruct (empty _); [by apply kspec_absent|by apply kspec_put].
Qed.

Lemma kspec_settings k n tx h st : kspec k n (account_settings tx h) st (λ _ st', st' = st).
Proof.
  unfold account_settings. do 5 (apply kspec_bind, kspec_part; [apply kspec_set_or_unset; by vm_compute|]; intros []). kwalk.
Qed.

Lemma kspec_txnID k n s c h st : kspec k n (account_txnID s c h) st (λ _ st', st' = st).
Proof. unfold account_txnID. kwalk. Qed.

Lemma kspec_disable k n info account h master s c i o st :
  kspec k n (disable_master info account h master s c i o) st (λ _ st', st' = st).
Proof. unfold disable_master. kwalk. Qed.

#[export] Instance SetAccount_keeps : KeepsSequence SetAccount.
Proof.
  intros a router k n. cbn [t_doApply SetAccount]. unfold SetAccount_doApply, peek_deref. do 11 kstep.
  apply kspec_bind, kspec_part; [apply kspec_disable|]. intros [?|?]; [by kwalk|]. destruct (_ && _); [by kwalk|].
  apply kspec_bind, kspec_part; [apply kspec_txnID|]. intros []. apply kspec_bind, kspec_part; [apply kspec_settings|].
  intros []. destruct (negb _); kwalk.
Qed.

#[export] Instance SetSignerList_keeps : KeepsSequence SetSignerList.
Proof. intros a router k n. cbn [t_doApply SetSignerList]. unfold SetSignerList_doApply, replaceSignerList, destroySignerList, removeSignersFromLedger, writeSignersToSLE, peek_deref. kwalk. Qed.
#[export] Instance DepositPreauth_keeps : KeepsSequence DepositPreauth.
Proof. intros a router k n. cbn [t_doApply DepositPreauth]. unfold DepositPreauth_doApply, next_reserve, remove_owned, release_owner, peek_deref. kwalk. Qed.
#[export] Instance CreateTicket_keeps : KeepsSequence CreateTicket.
Proof. intros a router k n. cbn [t_doApply CreateTicket]. unfold CreateTicket_doApply, create_ticket, ticket_target, next_reserve, peek_deref. kwalk. Qed.
#[export] Instance CancelTicket_keeps : KeepsSequence CancelTicket.
Proof. intros a router k n. cbn [t_doApply CancelTicket]. unfold CancelTicket_doApply, remove_owned, release_owner, peek_deref. kwalk. Qed.
#[export] Instance CreateCheck_keeps : KeepsSequence CreateCheck.
Proof. intros a router k n. cbn [t_doApply CreateCheck]. unfold CreateCheck_doApply, add_check, next_reserve, peek_deref. kwalk. Qed.
#[export] Instance CancelCheck_keeps : KeepsSequence CancelCheck.
Proof. intros a router k n. cbn [t_doApply CancelCheck]. unfold CancelCheck_doApply, remove_owned, release_owner, peek_deref. kwalk. Qed.
#[export] Instance EscrowCreate_keeps : KeepsSequence EscrowCreate.
Proof. intros a router k n. cbn [t_doApply EscrowCreate]. unfold EscrowCreate_doApply, add_to_dir, peek_deref. kwalk. Qed.
#[export] Instance EscrowFinish_keeps : KeepsSequence EscrowFinish.
Proof. intros a router k n. cbn [t_doApply EscrowFinish]. unfold EscrowFinish_doApply, deposit_refused, remove_escrow, pay_escrow, remove_owned, peek_deref. kwalk. Qed.
#[export] Instance EscrowCancel_keeps : KeepsSequence EscrowCancel.
Proof. intros a router k n. cbn [t_doApply EscrowCancel]. unfold EscrowCancel_doApply, remove_escrow, refund_escrow, remove_owned, peek_deref. kwalk. Qed.
#[export] Instance CancelOffer_keeps : KeepsSequence CancelOffer.
Proof.
  intros a router k n. cbn [t_doApply CancelOffer]. unfold CancelOffer_doApply. do 2 kstep. kwalk.
Qed.
End Types.

(** ** Applying a transaction *)

Section Raise.
Context `{Hash : Sha512} (tx : STTx) (id seq : Z).
Context (Hid : getAccountID (tx_obj tx) sfAccount = Ret id) (Hseq : getSequence tx = Ret seq).
Local Abbreviation akey := (kl_key (kl_account id)).
Local Abbreviation next := (u32 (seq + 1)).

Lemma kspec_peek_root st (Q : option Z → progress → Prop) : Q (Some akey) st → kspec akey next (peek (kl_account id)) st Q.
Proof.
  intros HQ s Hs. pose proof Hs as [y (Hy & Hr & _)]. apply wlp_peek. exists st. split; [done|].
  rewrite (proj2 (lookup_root (vs_map s) id y)); [exact HQ|done].
Qed.

Lemma kspec_setSeq st (Q : unit → progress → Prop) : Q tt Raised → kspec akey next (setSeq tx id) st Q.
Proof using Hseq.
  intros HQ. unfold setSeq, peek_deref, peek_or. apply kspec_bind, kspec_bind, kspec_peek_root, kspec_ret.
  apply kspec_bind, kspec_from. intros a Ha. rewrite Hseq in Ha. injection Ha as <-.
  apply kspec_bind, kspec_raise, kspec_bind, kspec_load. intros x. destruct (isFieldPresent _ _); by kstep.
Qed.

Lemma kspec_payFee account source st (Q : XRPAmount → progress → Prop) :
  (∀ a, Q a st) → kspec akey next (payFee tx account source) st Q.
Proof. intros HQ. unfold payFee, peek_deref. kwalk. Qed.

Lemma kspec_apply (T : TxType) `{!KeepsSequence T} ctx router :
  cx_tx ctx = tx → kspec akey next (transactor_apply T ctx router) Unset (λ _ st, st = Recorded).
Proof using Hid Hseq.
  intros Htx. unfold transactor_apply. rewrite Htx. apply kspec_bind, kspec_from. intros i Hi. rewrite Hid in Hi. injection Hi as <-.
  apply kspec_bind, kspec_peek_root. do 6 kstep. apply kspec_bind, kspec_setSeq, kspec_bind, kspec_payFee. intros a2.
  apply kspec_bind, kspec_record, keeps_sequence.
Qed.

Lemma kspec_reset_fee fee : kspec akey next (reset_fee tx fee) Unset (λ _ st, st = Recorded).
Proof using Hid Hseq.
  unfold reset_fee, peek_deref, peek_or. apply kspec_bind, kspec_from. intros i Hi. rewrite Hid in Hi. injection Hi as <-.
  apply kspec_bind, kspec_bind, kspec_peek_root, kspec_ret. do 8 kstep. apply kspec_bind, kspec_from. intros j Hj.
  rewrite Hseq in Hj. injection Hj as <-. apply kspec_bind, kspec_raise, kspec_bind, kspec_record. by kstep.
Qed.
End Raise.

(** Whatever becomes of a transaction that is applied, the view that is committed has the
    root of the account with the next sequence. *)
Section Written.
Context `{Hash : Sha512} (T : TxType) `{!KeepsSequence T} (base : ReadView STObject) (m : entries) `{!ViewOf base m} (Hkey : keyed m).
Context (ctx : ApplyContext) (id seq : Z) (x : SLE STObject).
Local Abbreviation tx := (cx_tx ctx).
Context (Hid : getAccountID (tx_obj tx) sfAccount = Ret id) (Hseq : getSequence tx = Ret seq).
Context (Hx : lookup_kl m (kl_account id) = Some x) (Ht : mType (sle_body x) = Some account_template).
Local Abbreviation akey := (kl_key (kl_account id)).
Local Abbreviation next := (u32 (seq + 1)).

Definition written (hp : heap STObject) (t : Apply.ApplyStateTable) : Prop :=
  ∃ s, sim m hp t s ∧ follows akey next Recorded s.

Lemma start_follows : follows akey next Unset (mkV m ∅ ∅).
Proof using Hx Ht. apply lookup_root in Hx as [H1 H2]. by exists x. Qed.

Lemma run_written {A} (p : view_prog A) st hp t s a hp' t' :
  kspec akey next p st (λ _ st, st = Recorded) → follows akey next st s → inserts_fresh p s → sim m hp t s →
  run_table base p hp t = Ret (a, hp', t') → written hp' t'.
Proof using Hkey ViewOf0.
  intros Hp Hst Hf Hs Hrun. destruct (run_table_sound base m Hkey p _ _ _ _ _ _ Hs Hf Hrun) as (s' & Hs' & Hsim).
  destruct (Hp s Hst a s' Hs') as (? & Hfo & ->). by exists s'.
Qed.

Lemma reset_written fee hp f hp' t' : run_fresh base (reset_fee tx fee) hp = Ret (f, hp', t') → written hp' t'.
Proof using All.
  intros Hrun. eapply run_written; [by apply kspec_reset_fee|apply start_follows| |apply sim_empty|exact Hrun].
  apply no_insert_fresh, no_insert_reset_fee.
Qed.

Lemma claim_written result fee hp t f hp' t' : claim_fee base ctx result fee hp t = Ret (f, hp', t') → written hp' t'.
Proof using All.
  unfold claim_fee. set (both := (result =? tecOVERSIZE) || _).
  destruct (if both then _ else _) as [removed|]; [|done]. cbn [mbind outcome_bind].
  destruct (run_fresh base _ hp) as [[[f1 h1] t1]|] eqn:E1; [|done]. cbn [mbind outcome_bind]. apply reset_written in E1.
  destruct both; [|by intros [= <- <- <-]]. destruct (run_table base _ h1 t1) as [[[f2 h2] t2]|] eqn:E2; [|done].
  intros [= <- <- <-]. destruct E1 as (s & Hs & Hfo).
  eapply run_written; [apply kspec_remove_offers|exact Hfo| |exact Hs|exact E2]. apply no_insert_fresh, no_insert_remove_offers.
Qed.

Lemma transact_written ter router hp a :
  (ter = tesSUCCESS → inserts_fresh (transactor_apply T ctx router) (mkV m ∅ ∅)) →
  transact T base ctx ter router hp = Ret a → x_applied a = true → written (x_heap a) (x_table a).
Proof using All.
  intros Hf. unfold transact.
  destruct (if ter =? tesSUCCESS then _ else _) as [[[[r1 ro1] h1] t1]|] eqn:E1; [|done]. cbn [mbind outcome_bind].
  assert (Hw1 : isTesSuccess r1 = true → written h1 t1).
  { destruct (Z.eqb_spec ter tesSUCCESS) as [Hter|Hter]; [|by injection E1 as <- _ <- <-; intros ?%Z.eqb_eq].
    destruct (run_fresh base _ hp) as [[[r h] t]|] eqn:E; [|done]. cbn [mbind outcome_bind] in E1. injection E1 as _ _ <- <-.
    intros _. eapply run_written; [by apply (kspec_apply tx)|apply start_follows|by apply Hf|apply sim_empty|exact E]. }
  destruct (getFieldAmount (tx_obj tx) sfFee) as [b|]; [|done]. cbn [mbind outcome_bind].
  destruct (xrp b) as [fee|]; [|done]. cbn [mbind outcome_bind]. cbv zeta. set (r2 := if oversizeMetaDataCap <? _ then _ else _).
  destruct (if hard_fail ctx r2 then _ else _) as [[[[ap f2] h2] t2]|] eqn:E2; [|done]. cbn [mbind outcome_bind].
  assert (Hw2 : ap = true → written h2 t2).
  { destruct (hard_fail ctx r2); [|by injection E2 as <- _ <- <-].
    destruct (claim_fee base ctx r2 fee h1 t1) as [[[f h] t]|] eqn:E; [|done]. cbn [mbind outcome_bind] in E2.
    injection E2 as _ _ <- <-. intros _. by eapply claim_written. }
  destruct ap; [|by intros [= <-]]. cbn [negb]. specialize (Hw2 eq_refl).
  destruct (check_twice base ctx r2 f2 h2 t2) as [[[[r3 f3] h3] t3]|] eqn:E3; [|done]. cbn [mbind outcome_bind].
  destruct (negb (isTecClaim r3) && negb (isTesSuccess r3)); [by intros [= <-]|]. destruct (xrp_signum f3 <? 0); [done|].
  assert (Hw3 : written h3 t3).
  { revert E3. unfold check_twice. destruct (checkInvariants _ _ _ r2 f2 =? _); [|by intros [= <- <- <- <-]].
    destruct (run_fresh base _ h2) as [[[f1 h] t]|] eqn:E; [|done]. intros [= _ <- <- <-]. by eapply reset_written. }
  intros [= <-] _. cbn [x_heap x_table]. destruct Hw3 as (s & [] & Hfo). exists s. split; [|done].
  split; by destruct (negb (v_open (cx_info ctx)) && negb (xrp_signum f3 =? 0)).
Qed.
End Written.

(** A transaction whose sequence is over is refused, and that result applies nothing. *)
Lemma past_refused `{Hash : Sha512} `{Lib : Crypto} (T : TxType) (ctx : PreclaimContext) (id seq n : Z) (y : SLE STObject)
    (rules : Rules) (now : Z) (router : HashRouter) :
  getAccountID (tx_obj (pc_tx ctx)) sfAccount = Ret id → id ≠ 0 → getSequence (pc_tx ctx) = Ret seq →
  rv_read (pc_view ctx) (kl_account id) = Some y → getFieldU32 (sle_body y) sfSequence = Ret n → seq < n →
  tx_preclaim T rules true tesSUCCESS now ctx router =
    (if pc_txExists ctx (tid_ (pc_tx ctx)) then tefALREADY else tefPAST_SEQ, router).
Proof.
  intros Hid Hnz Hseq Hy Hn Hlt. unfold tx_preclaim. change (tesSUCCESS =? tesSUCCESS) with true. cbn [negb]. f_equal.
  unfold invoke_preclaim. rewrite Hid. cbn [mbind outcome_bind]. rewrite (proj2 (Z.eqb_neq _ _) Hnz). cbn [negb].
  assert (Hc : checkSeq ctx = Ret (if pc_txExists ctx (tid_ (pc_tx ctx)) then tefALREADY else tefPAST_SEQ)).
  { unfold checkSeq. rewrite Hid. cbn [mbind outcome_bind]. rewrite Hy, Hseq. cbn [mbind outcome_bind].
    rewrite Hn. cbn [mbind outcome_bind]. destruct (Z.eqb_spec seq n), (Z.ltb_spec n seq); [lia..|]. by destruct (pc_txExists _ _). }
  rewrite Hc. by destruct (pc_txExists _ _).
Qed.

(** C21: a transaction that was applied is not applied again.  Take any of the transaction types
    that leave the sequences of accounts alone in their [doApply], as all those modelled do,
    and a transaction of that type that [doApply] has applied, whether it succeeded or claimed
    its fee, be it with offers removed or after the invariants failed.  Then on the ledger
    it has left, the same transaction is refused by [preclaim] as known or as past, and
    applying it with that result changes nothing.

    The account is a real one, its root has the format of roots, the sequence of the
    transaction is below the last 32-bit number (after which the sequence would start again
    at 0), and the entries that its code inserts into the view are new. *)
Theorem replay_refused `{Hash : Sha512} `{Lib : Crypto} (T : TxType) `{!KeepsSequence T} (base : ReadView STObject)
    (info : ViewInfo) (tx : STTx) (flags now : Z) (track : LoadFeeTrack) (seq_of_view : Z) (ter r : TER) (router : HashRouter)
    (l l' : LedgerState STObject) (id seq : Z) (x : SLE STObject)
    (Hb : ViewOf base (l_map l)) (Hkey : keyed (l_map l))
    (Hid : getAccountID (tx_obj tx) sfAccount = Ret id) (Hnz : id ≠ 0)
    (Hseq : getSequence tx = Ret seq) (Hrange : 0 ≤ seq < 2 ^ 32 - 1)
    (Hx : lookup_kl (l_map l) (kl_account id) = Some x) (Ht : mType (sle_body x) = Some account_template)
    (Hf : ∀ baseFee, ter = tesSUCCESS → t_calculateBaseFee base info tx = Ret baseFee →
      inserts_fresh (transactor_apply T (mkContext tx info flags baseFee now track) router) (mkV (l_map l) ∅ ∅))
    (Hrun : tx_doApply T base info tx flags now track seq_of_view ter router l = (r, true, l')) :
  ∀ (ctx : PreclaimContext) (rules : Rules) (later : Z) (router' : HashRouter),
    pc_tx ctx = tx → ViewOf (pc_view ctx) (l_map l') →
    let again := if pc_txExists ctx (tid_ tx) then tefALREADY else tefPAST_SEQ in
    tx_preclaim T rules true tesSUCCESS later ctx router' = (again, router') ∧
    tx_doApply T (pc_view ctx) (pc_info ctx) tx (pc_flags ctx) later (pc_track ctx) (v_seq (pc_info ctx)) again router' l' =
      (again, false, l').
Proof.
  intros ctx rules later router' <- Hv. cbn zeta. split.
  2: { unfold tx_doApply. rewrite Z.eqb_refl. by destruct (pc_txExists _ _). }
  unfold tx_doApply in Hrun. destruct (negb (seq_of_view =? _)); [done|]. destruct (negb (likelyToClaimFee _ _)); [done|].
  destruct (t_calculateBaseFee base info (pc_tx ctx)) as [baseFee|] eqn:Eb; [|done]. cbn [mbind outcome_bind] in Hrun.
  set (actx := mkContext (pc_tx ctx) info flags baseFee now track) in *.
  destruct (transact T base actx ter router ∅) as [a|] eqn:Ea; [|done]. cbn [mbind outcome_bind] in Hrun.
  destruct (x_applied a) eqn:Eapp; [|done].
  destruct (transact_written T base (l_map l) Hkey actx id seq x Hid Hseq Hx Ht ter router ∅ a
    (λ Hter, Hf baseFee Hter eq_refl) Ea Eapp) as (s & Hsim & y & Hy & Hr & _ & Hn & Hc).
  destruct (commit_ledger (x_heap a) (l_map l) (x_table a) l (sim_items _ _ _ _ Hsim) Hkey eq_refl) as (l1 & Hl1 & Hm & _ & _).
  rewrite Hl1 in Hrun. injection Hrun as _ <-.
  assert (Hy' : l_map l1 !! kl_key (kl_account id) = Some y).
  { rewrite Hm, (sim_committed (l_map l) _ _ s _ Hsim); [done|]. by apply Hc. }
  specialize (Hn ltac:(done)). rewrite u32_small in Hn by (unfold in_u32; lia).
  apply (past_refused T ctx id seq (seq + 1) y); [done..| |done|lia]. rewrite vo_read. by apply lookup_root.
Qed.

Section Tests.
#[local] Existing Instance number_hash.
#[local] Existing Instance trusting_crypto.

(** Account 5 puts 30 drops into an escrow for account 7. *)
Definition test_escrow_signed : STTx :=
  mkTx (mkObject None [(sfAccount, c_make AccountID 5); (sfFee, c_make AmountC (st_native 10 false));
    (sfSequence, c_make U32 1); (sfSigningPubKey, Blob (0xED :: replicate 32 7)); (sfTxnSignature, Blob (replicate 64 1));
    (sfSigners, NotPresent); (sfFlags, c_make U32 0); (sfDestination, c_make AccountID 7);
    (sfAmount, c_make AmountC (st_native 30 false)); (sfFinishAfter, c_make U32 600000010);
    (sfCancelAfter, c_make U32 600000020)]) 99 1.

Lemma replay_refused_witness :
  ∃ l', tx_doApply EscrowCreate (map_view test_ledger) (test_info 600000000) test_escrow_signed 0 0
      (mkTrack 256 256 256 0) 3 tesSUCCESS (make_router 300 1) (mkLedger test_ledger (mkXRP 1000)) = (tesSUCCESS, true, l') ∧
    tx_preclaim EscrowCreate (λ _, true) true tesSUCCESS 0
      (mkPreclaim (map_view (l_map l')) (test_info 600000000) (λ _, false) test_escrow_signed 0 (mkTrack 256 256 256 0))
      (make_router 300 1) = (tefPAST_SEQ, make_router 300 1).
Proof.
  destruct (run_applied (tx_doApply EscrowCreate (map_view test_ledger) (test_info 600000000) test_escrow_signed 0 0
    (mkTrack 256 256 256 0) 3 tesSUCCESS (make_router 300 1) (mkLedger test_ledger (mkXRP 1000))) tesSUCCESS Z.eqb)
    as [l' E]; [apply Z.eqb_eq|vm_compute; reflexivity|]. exists l'. split; [exact E|].
  assert (Hx : lookup_kl test_ledger (kl_account 5) = Some (test_root 5 100)) by (vm_compute; reflexivity).
  apply (replay_refused EscrowCreate (map_view test_ledger) (test_info 600000000) test_escrow_signed 0 0
    (mkTrack 256 256 256 0) 3 tesSUCCESS tesSUCCESS (make_router 300 1) (mkLedger test_ledger (mkXRP 1000)) l' 5 1 (test_root 5 100)
    (map_view_of _) test_ledger_keyed eq_refl ltac:(lia) eq_refl ltac:(lia) Hx eq_refl);
    [|exact E|reflexivity|exact (map_view_of _)].
  intros baseFee _ _. apply fresh_run_ok. vm_compute. reflexivity.
Defined.
End Tests.
