(* ===== verification/SHAMap.v ===== *)
(** * The Merkle tree of a ledger

    Model of [SHAMap.cpp], [SHAMapTreeNode.cpp] and [SHAMapNodeID.cpp] of [src/src/ripple/shamap]: the
    radix tree with sixteen branches in which a ledger keeps its state and its transactions,
    and whose root hash stands for all of them.

    The nodes are values.  In the code the nodes of a map that has been shared with another
    one are cloned before they are changed ([unshareNode]), which is what working on
    values does; a node that is only in the database is loaded when it is needed
    ([descend]), here it is in the tree.  The tree is the one of version 1, the version
    ledgers have.

    A walk leaves the way it has taken on a stack of nodes with their identifiers.  The
    loops have fuel: a tree has at most 65 levels. *)

From stdpp Require Import base numbers list gmap strings.
From Stdlib Require Import Lia ZArith.
From S2P Require Import Prelude Serializer SField STObject Indexes STTx.

Local Open Scope Z_scope.

(** ** Identifiers of nodes *)

Record SHAMapNodeID : Type := mkNodeID { mDepth : nat; mNodeID : Z }.

Definition root_id : SHAMapNodeID := mkNodeID 0 0.
Definition isRoot (n : SHAMapNodeID) : bool := (mDepth n =? 0)%nat.

(** Byte [i] of a 256-bit value, the first one being the most significant. *)
Definition key_byte (i : nat) (k : Z) : Z := Z.land (Z.shiftr k (8 * (31 - Z.of_nat i))) 255.

Definition selectBranch (n : SHAMapNodeID) (hash : Z) : nat :=
  let branch := key_byte (mDepth n / 2) hash in
  Z.to_nat (if Nat.odd (mDepth n) then Z.land branch 0xf else Z.shiftr branch 4).

Definition getChildNodeID (n : SHAMapNodeID) (m : nat) : SHAMapNodeID :=
  let b := if Nat.odd (mDepth n) then Z.of_nat m else Z.shiftl (Z.of_nat m) 4 in
  mkNodeID (S (mDepth n)) (Z.lor (mNodeID n) (Z.shiftl b (8 * (31 - Z.of_nat (mDepth n / 2))))).

(** ** Nodes *)

Record SHAMapItem : Type := mkItem { item_key : Z; item_data : list Z }.

#[export] Instance SHAMapItem_eq_dec : EqDecision SHAMapItem.
Proof. solve_decision. Defined.

Inductive TNType := tnTRANSACTION_NM | tnTRANSACTION_MD | tnACCOUNT_STATE.

#[export] Instance TNType_eq_dec : EqDecision TNType.
Proof. solve_decision. Defined.

Inductive SHAMapNode : Type :=
| TreeNode (mItem : SHAMapItem) (mType : TNType)
| InnerNode (mChildren : list (option SHAMapNode)).

Definition isLeaf (n : SHAMapNode) : bool := match n with TreeNode _ _ => true | InnerNode _ => false end.

Definition empty_inner : SHAMapNode := InnerNode (replicate 16 None).

Definition getChild (cs : list (option SHAMapNode)) (branch : nat) : option SHAMapNode := mjoin (cs !! branch).
Definition isEmptyBranch (cs : list (option SHAMapNode)) (m : nat) : bool :=
  match getChild cs m with Some _ => false | None => true end.
Definition setChild (cs : list (option SHAMapNode)) (m : nat) (child : option SHAMapNode) : list (option SHAMapNode) :=
  <[m := child]> cs.

(** The numbers of the branches. *)
Definition branches : list nat := seq 0 16.

Definition getBranchCount (cs : list (option SHAMapNode)) : nat :=
  length (filter (λ i, isEmptyBranch cs i = false) branches).

(** The first branch that is not empty, from a branch on. *)
Definition next_branch (cs : list (option SHAMapNode)) (from_ : nat) : option (nat * SHAMapNode) :=
  head (omap (λ i, n ← getChild cs i; Some (i, n)) (drop from_ branches)).

(** ** Hashes *)

Section Hashes.
Context `{Hash : Sha512}.

Definition leaf_bytes (item : SHAMapItem) (type : TNType) : list Z :=
  match type with
  | tnTRANSACTION_NM => to_be 4 HP_transactionID ++ item_data item
  | tnACCOUNT_STATE => to_be 4 HP_leafNode ++ item_data item ++ to_be 32 (item_key item)
  | tnTRANSACTION_MD => to_be 4 HP_txNode ++ item_data item ++ to_be 32 (item_key item)
  end.

Definition leaf_hash (item : SHAMapItem) (type : TNType) : Z := sha512Half (leaf_bytes item type).

Definition inner_bytes (mHashes : list Z) : list Z := to_be 4 HP_innerNode ++ concat (map (to_be 32) mHashes).

(** [updateHash], with [updateHashDeep] and the walk of [walkSubTree] for the hashes of
    the children. *)
Fixpoint node_hash (n : SHAMapNode) : Z :=
  match n with
  | TreeNode item type => leaf_hash item type
  | InnerNode cs =>
    let mHashes := map (λ c, match c with Some n => node_hash n | None => 0 end) cs in
    if forallb (λ c, match c with Some _ => false | None => true end) cs then 0 else sha512Half (inner_bytes mHashes)
  end.

(** ** Finding *)

Definition Stack : Type := list (SHAMapNode * SHAMapNodeID).

Definition out_of_levels : exn := logic_error "out of levels".

(** The stack that is left, and the leaf if there is one at the end of the way. *)
Fixpoint walk (fuel : nat) (id : Z) (inNode : SHAMapNode) (nodeID : SHAMapNodeID) (stack : Stack) :
    outcome (Stack * option (SHAMapItem * TNType)) :=
  match inNode with
  | TreeNode item type => Ret ((inNode, nodeID) :: stack, Some (item, type))
  | InnerNode cs =>
    let stack := (inNode, nodeID) :: stack in
    let branch := selectBranch nodeID id in
    match getChild cs branch with
    | None => Ret (stack, None)
    | Some n =>
      match fuel with
      | O => Throw out_of_levels
      | S fuel => walk fuel id n (getChildNodeID nodeID branch) stack
      end
    end
  end.

Definition levels : nat := 64.

Definition walkTowardsKey (root_ : SHAMapNode) (id : Z) : outcome (Stack * option (SHAMapItem * TNType)) :=
  walk levels id root_ root_id [].

Definition findKey (root_ : SHAMapNode) (id : Z) : outcome (option (SHAMapItem * TNType)) :=
  '(_, leaf) ← walkTowardsKey root_ id;
  Ret match leaf with
      | Some (item, type) => if item_key item =? id then Some (item, type) else None
      | None => None
      end.

Definition peekItem (root_ : SHAMapNode) (id : Z) : outcome (option SHAMapItem) :=
  leaf ← findKey root_ id; Ret (option_map fst leaf).

Definition hasItem (root_ : SHAMapNode) (id : Z) : outcome bool :=
  leaf ← findKey root_ id; Ret (bool_decide (is_Some leaf)).

(** ** Changing *)

Definition make_leaf (item : SHAMapItem) (type : TNType) : SHAMapNode := TreeNode item type.

(** Puts a changed node into its parents, up to the root. *)
Fixpoint dirtyUp (stack : Stack) (target : Z) (child : SHAMapNode) : outcome SHAMapNode :=
  match stack with
  | [] => Ret child
  | (InnerNode cs, nodeID) :: stack => dirtyUp stack target (InnerNode (setChild cs (selectBranch nodeID target) (Some child)))
  | (TreeNode _ _, _) :: _ => Throw (logic_error "null pointer")
  end.

(** New levels for as long as two keys take the same branch. *)
Fixpoint split (fuel : nat) (tag other : Z) (nodeID : SHAMapNodeID) (stack : Stack) :
    outcome (Stack * SHAMapNodeID * nat * nat) :=
  let b1 := selectBranch nodeID tag in
  let b2 := selectBranch nodeID other in
  if (b1 =? b2)%nat then
    match fuel with
    | O => Throw out_of_levels
    | S fuel => split fuel tag other (getChildNodeID nodeID b1) ((empty_inner, nodeID) :: stack)
    end
  else Ret (stack, nodeID, b1, b2).

Definition item_type (isTransaction hasMeta : bool) : TNType :=
  if negb isTransaction then tnACCOUNT_STATE else if hasMeta then tnTRANSACTION_MD else tnTRANSACTION_NM.

(** What [addGiveItem] does at the end of the way. *)
Definition add_at (item : SHAMapItem) (type : TNType) (stack : Stack) : outcome (option SHAMapNode) :=
  let tag := item_key item in
  match stack with
  | [] => Throw (runtime_error "missing node")
  | (InnerNode cs, nodeID) :: stack =>
    Some <$> dirtyUp stack tag (InnerNode (setChild cs (selectBranch nodeID tag) (Some (make_leaf item type))))
  | (TreeNode otherItem _, nodeID) :: stack =>
    if item_key otherItem =? tag then Ret None
    else
      '(stack, nodeID, b1, b2) ← split levels tag (item_key otherItem) nodeID stack;
      Some <$> dirtyUp stack tag (InnerNode (setChild (setChild (replicate 16 None) b1 (Some (make_leaf item type)))
                                              b2 (Some (make_leaf otherItem type))))
  end.

(** The new root and whether the item was added. *)
Definition addGiveItem (root_ : SHAMapNode) (item : SHAMapItem) (isTransaction hasMeta : bool) : outcome (bool * SHAMapNode) :=
  '(stack, _) ← walkTowardsKey root_ (item_key item);
  r ← add_at item (item_type isTransaction hasMeta) stack;
  Ret match r with Some root_ => (true, root_) | None => (false, root_) end.

(** What [updateGiveItem] does at the end of the way: nothing if the hash stays.  When the key
    is not in the tree the source has [assert (false)] before it returns false: here as in
    the source, callers are to ask for keys that are there, and a build without assertions
    returns false. *)
Definition update_at (item : SHAMapItem) (type : TNType) (stack : Stack) : outcome (bool * option SHAMapNode) :=
  match stack with
  | [] => Throw (runtime_error "missing node")
  | (InnerNode _, _) :: _ => Ret (false, None)
  | (TreeNode old ty, _) :: stack =>
    if negb (item_key old =? item_key item) then Ret (false, None)
    else if leaf_hash item type =? leaf_hash old ty then Ret (true, None)
    else root_ ← dirtyUp stack (item_key item) (make_leaf item type); Ret (true, Some root_)
  end.

Definition updateGiveItem (root_ : SHAMapNode) (item : SHAMapItem) (isTransaction hasMeta : bool) : outcome (bool * SHAMapNode) :=
  '(stack, _) ← walkTowardsKey root_ (item_key item);
  '(ok, r) ← update_at item (item_type isTransaction hasMeta) stack;
  Ret (ok, default root_ r).

(** The item of a tree that has only one. *)
Fixpoint onlyBelow (fuel : nat) (n : SHAMapNode) : outcome (option SHAMapItem) :=
  match n with
  | TreeNode item _ => Ret (Some item)
  | InnerNode cs =>
    match omap (getChild cs) branches with
    | [next] => match fuel with O => Throw out_of_levels | S fuel => onlyBelow fuel next end
    | _ => Ret None
    end
  end.

(** The way back of [delItem]: [prevNode] is what is left of the branch below. *)
Fixpoint del_up (stack : Stack) (id : Z) (type : TNType) (prevNode : option SHAMapNode) (root_ : SHAMapNode) :
    outcome SHAMapNode :=
  match stack with
  | [] => Ret root_
  | (TreeNode _ _, _) :: _ => Throw (logic_error "null pointer")
  | (InnerNode cs, nodeID) :: stack =>
    let cs := setChild cs (selectBranch nodeID id) prevNode in
    if isRoot nodeID then del_up stack id type prevNode (InnerNode cs)
    else
      match getBranchCount cs with
      | O => del_up stack id type None root_
      | 1%nat =>
        item ← onlyBelow levels (InnerNode cs);
        del_up stack id type (Some match item with Some item => make_leaf item type | None => InnerNode cs end) root_
      | _ => del_up stack id type (Some (InnerNode cs)) root_
      end
  end.

Definition delItem (root_ : SHAMapNode) (id : Z) : outcome (bool * SHAMapNode) :=
  '(stack, _) ← walkTowardsKey root_ id;
  match stack with
  | [] => Throw (runtime_error "missing node")
  | (InnerNode _, _) :: _ => Ret (false, root_)
  | (TreeNode item type, _) :: stack =>
    if negb (item_key item =? id) then Ret (false, root_)
    else root_ ← del_up stack id type None root_; Ret (true, root_)
  end.

(** ** Iterating *)

(** The loop of [firstBelow]; it goes into the first branch that is not empty until that
    is a leaf.  The identifiers it pushes name the wrong branch, but are at the right level. *)
Fixpoint first_leaf (fuel : nat) (cs : list (option SHAMapNode)) (stack : Stack) (branch : nat) :
    outcome (option SHAMapItem * Stack) :=
  match next_branch cs 0 with
  | None => Ret (None, stack)
  | Some (_, TreeNode item type) =>
    Ret (Some item, (TreeNode item type, mkNodeID 64 (item_key item)) :: stack)
  | Some (_, InnerNode cs) =>
    match stack, fuel with
    | (_, top) :: _, S fuel => first_leaf fuel cs ((InnerNode cs, getChildNodeID top branch) :: stack) branch
    | _, _ => Throw out_of_levels
    end
  end.

Definition firstBelow (node : SHAMapNode) (stack : Stack) (branch : nat) : outcome (option SHAMapItem * Stack) :=
  match node with
  | TreeNode item _ => Ret (Some item, (node, mkNodeID 64 (item_key item)) :: stack)
  | InnerNode cs =>
    let nodeID := match stack with [] => root_id | (_, top) :: _ => getChildNodeID top branch end in
    first_leaf levels cs ((node, nodeID) :: stack) branch
  end.

Definition peekFirstItem (root_ : SHAMapNode) : outcome (option SHAMapItem * Stack) :=
  '(item, stack) ← firstBelow root_ [] 0;
  Ret match item with Some _ => (item, stack) | None => (None, []) end.

(** Up the stack until there is a branch to the right. *)
Fixpoint next_up (stack : Stack) (id : Z) : outcome (option SHAMapItem * Stack) :=
  match stack with
  | [] => Ret (None, [])
  | (TreeNode _ _, _) :: _ => Throw (logic_error "null pointer")
  | (InnerNode cs, nodeID) :: rest =>
    match next_branch cs (S (selectBranch nodeID id)) with
    | Some (i, node) =>
      '(leaf, stack) ← firstBelow node stack i;
      match leaf with Some _ => Ret (leaf, stack) | None => Throw (runtime_error "missing node") end
    | None => next_up rest id
    end
  end.

Definition peekNextItem (id : Z) (stack : Stack) : outcome (option SHAMapItem * Stack) :=
  match stack with
  | [] => Throw (logic_error "empty stack")
  | _ :: stack => next_up stack id
  end.

Definition upper_bound (root_ : SHAMapNode) (id : Z) : outcome (option SHAMapItem * Stack) :=
  '(stack, _) ← walkTowardsKey root_ id;
  match stack with
  | (TreeNode item _, _) :: rest => if id <? item_key item then Ret (Some item, stack) else next_up rest id
  | _ => next_up stack id
  end.

(** A range-based loop over the map: the items it visits. *)
Fixpoint iterate (fuel : nat) (item : option SHAMapItem) (stack : Stack) : outcome (list SHAMapItem) :=
  match item with
  | None => Ret []
  | Some it =>
    match fuel with
    | O => Throw (logic_error "out of fuel")
    | S fuel => '(item, stack) ← peekNextItem (item_key it) stack; rest ← iterate fuel item stack; Ret (it :: rest)
    end
  end.

Definition visit_items (fuel : nat) (root_ : SHAMapNode) : outcome (list SHAMapItem) :=
  '(item, stack) ← peekFirstItem root_; iterate fuel item stack.
End Hashes.
