(* ===== verification/SHAMapLaws.v ===== *)
(** * The Merkle tree refines a finite map

    [tree_of] builds the tree of a finite map without any history: nothing for the empty
    map, a leaf for one item, and otherwise an inner node over the sixteen parts.  The
    operations of [SHAMap] on such a tree are the operations of the map, and their result is
    again such a tree; so the tree, and with it the root hash, depends on the contents
    only.  Iteration goes through the items in the order of their keys. *)

From stdpp Require Import base numbers list gmap strings sorting.
From Stdlib Require Import Lia ZArith.
From S2P Require Import Prelude Serializer SField STObject Indexes STTx SHAMap.

Local Open Scope Z_scope.

(** ** Branches of keys

    [nib f k] is the branch a key takes in a node with [f] levels below it. *)

Definition nib (f : nat) (k : Z) : nat := Z.to_nat ((k / 16 ^ Z.of_nat f) `mod` 16).

Lemma nib_lt f k : (nib f k < 16)%nat.
Proof. unfold nib. pose proof (Z.mod_pos_bound (k / 16 ^ Z.of_nat f) 16 ltac:(lia)). lia. Qed.

Lemma selectBranch_nib f n k : (f ≤ 63)%nat → mDepth n = (63 - f)%nat → selectBranch n k = nib f k.
Proof.
  intros Hf Hd. unfold selectBranch, nib, key_byte. rewrite Hd. f_equal.
  rewrite (Z.land_ones _ 8 ltac:(lia) : Z.land _ 255 = _).
  destruct (Nat.Even_or_Odd f) as [[j ->]|[j ->]].
  - replace (Nat.odd (63 - 2 * j)) with true.
    2:{ symmetry. apply Nat.odd_spec. exists (31 - j)%nat. lia. }
    replace ((63 - 2 * j) / 2)%nat with (31 - j)%nat.
    2:{ apply Nat.div_unique with 1%nat; lia. }
    rewrite (Z.land_ones _ 4 ltac:(lia) : Z.land _ 15 = _).
    replace (8 * (31 - Z.of_nat (31 - j))) with (8 * Z.of_nat j) by lia. rewrite !Z.shiftr_div_pow2 by lia.
    replace (16 ^ Z.of_nat (2 * j)) with (2 ^ (8 * Z.of_nat j)).
    2:{ change 16 with (2 ^ 4). rewrite <- Z.pow_mul_r by lia. f_equal. lia. }
    set (x := k / _). change (2 ^ 8) with 256. change (2 ^ 4) with 16. div_lia.
  - replace (Nat.odd (63 - (2 * j + 1))) with false.
    2:{ symmetry. apply not_true_iff_false. rewrite Nat.odd_spec. intros [x Hx]. lia. }
    replace ((63 - (2 * j + 1)) / 2)%nat with (31 - j)%nat.
    2:{ apply Nat.div_unique with 0%nat; lia. }
    replace (8 * (31 - Z.of_nat (31 - j))) with (8 * Z.of_nat j) by lia. rewrite !Z.shiftr_div_pow2 by lia.
    replace (16 ^ Z.of_nat (2 * j + 1)) with (2 ^ (8 * Z.of_nat j) * 16).
    2:{ change 16 with (2 ^ 4) at 2. rewrite Nat2Z.inj_add, Z.pow_add_r by lia.
        change 16 with (2 ^ 4) at 1. rewrite <- Z.pow_mul_r by lia. f_equal. f_equal. lia. }
    rewrite <- Z.div_div by lia. set (x := k / _). change (2 ^ 8) with 256. change (2 ^ 4) with 16. div_lia.
Qed.

Lemma key_level f k : k / 16 ^ Z.of_nat f = 16 * (k / 16 ^ Z.of_nat (S f)) + Z.of_nat (nib f k).
Proof.
  unfold nib. rewrite Nat2Z.inj_succ, Z.pow_succ_r, (Z.mul_comm 16 (16 ^ _)), <- Z.div_div by lia.
  set (x := k / _). pose proof (Z.mod_pos_bound x 16 ltac:(lia)). rewrite Z2Nat.id by lia. div_lia.
Qed.

(** ** Trees of maps *)

Abbreviation smap := (gmap Z (list Z)).

Definition part (f i : nat) (m : smap) : smap := filter (λ kv, nib f kv.1 = i) m.

Definition item_of (kv : Z * list Z) : SHAMapItem := mkItem kv.1 kv.2.

Section Trees.
Context (T : TNType).

Fixpoint tree_of (f : nat) (m : smap) : option SHAMapNode :=
  match map_to_list m with
  | [] => None
  | [kv] => Some (TreeNode (item_of kv) T)
  | _ =>
    match f with
    | O => None
    | S f => Some (InnerNode (map (λ i, tree_of f (part f i m)) branches))
    end
  end.

Definition children (f : nat) (m : smap) : list (option SHAMapNode) := map (λ i, tree_of f (part f i m)) branches.

(** The root has 63 levels below it, and is an inner node also when the map is small. *)
Definition root_of (m : smap) : SHAMapNode := InnerNode (children 63 m).

(** All keys begin with the same branches. *)
Definition under (f : nat) (p : Z) (m : smap) : Prop := ∀ k v, m !! k = Some v → k / 16 ^ Z.of_nat f = p.

Lemma tree_of_empty f : tree_of f ∅ = None.
Proof. by destruct f. Qed.

Lemma tree_of_one f k v : tree_of f {[k := v]} = Some (TreeNode (mkItem k v) T).
Proof. destruct f; cbn [tree_of]; by rewrite map_to_list_singleton. Qed.

Lemma map_sizes (m : smap) : m = ∅ ∨ (∃ k v, m = {[k := v]}) ∨ ∃ k v k' v', k ≠ k' ∧ m !! k = Some v ∧ m !! k' = Some v'.
Proof.
  destruct (map_to_list m) as [|[k v] [|[k' v'] l]] eqn:E.
  - left. by apply map_to_list_empty_iff.
  - right. left. exists k, v. apply map_to_list_inj. by rewrite E, map_to_list_singleton.
  - right. right. exists k, v, k', v'. pose proof (NoDup_fst_map_to_list m) as Hnd. rewrite E in Hnd.
    apply NoDup_cons in Hnd as [Hn _]. split; [|split].
    + intros ->. apply Hn. simpl. left.
    + apply elem_of_map_to_list. rewrite E. left.
    + apply elem_of_map_to_list. rewrite E. right. left.
Qed.

Definition many (m : smap) : Prop := ∃ k v k' v', k ≠ k' ∧ m !! k = Some v ∧ m !! k' = Some v'.

Lemma many_insert k v m : many m → many (<[k:=v]> m).
Proof.
  intros (k1 & v1 & k2 & v2 & Hne & H1 & H2). destruct (lookup_insert_is_Some' m k k1 v) as [_ [x1 X1]]; [eauto|].
  destruct (lookup_insert_is_Some' m k k2 v) as [_ [x2 X2]]; [eauto|]. by exists k1, x1, k2, x2.
Qed.

Lemma tree_of_many f m : many m → tree_of (S f) m = Some (InnerNode (children f m)).
Proof.
  intros (k & v & k' & v' & Hne & Hk & Hk'). cbn [tree_of]. fold (children f m).
  destruct (map_to_list m) as [|kv [|kv' l]] eqn:E; [| |done].
  - apply map_to_list_empty_iff in E as ->. by rewrite lookup_empty in Hk.
  - apply elem_of_map_to_list in Hk, Hk'. rewrite E in Hk, Hk'. apply list_elem_of_singleton in Hk, Hk'. congruence.
Qed.

Lemma under_many f p m : under f p m → many m → (0 < f)%nat.
Proof.
  intros Hu (k & v & k' & v' & Hne & Hk & Hk'). destruct f; [|lia].
  apply Hu in Hk, Hk'. rewrite Z.pow_0_r, Z.div_1_r in Hk, Hk'. congruence.
Qed.

Lemma part_lookup f i m k : part f i m !! k = if decide (nib f k = i) then m !! k else None.
Proof.
  unfold part. case_decide as H.
  - destruct (m !! k) eqn:E; [by apply map_lookup_filter_Some|]. apply map_lookup_filter_None. by left.
  - apply map_lookup_filter_None. right. intros ? _. done.
Qed.

Lemma part_under f p i m : under (S f) p m → under f (16 * p + Z.of_nat i) (part f i m).
Proof.
  intros Hu k v Hk. rewrite part_lookup in Hk. case_decide as Hi; [|done].
  rewrite key_level, (Hu _ _ Hk), Hi. done.
Qed.

Lemma part_insert_ne f i m k v : nib f k ≠ i → part f i (<[k:=v]> m) = part f i m.
Proof.
  intros H. apply map_eq. intros k'. rewrite !part_lookup. case_decide; [|done].
  rewrite lookup_insert_ne; [done|congruence].
Qed.

Lemma part_insert f m k v : part f (nib f k) (<[k:=v]> m) = <[k:=v]> (part f (nib f k) m).
Proof.
  apply map_eq. intros k'. rewrite part_lookup. destruct (decide (k = k')) as [<-|Hne].
  - by rewrite !lookup_insert_eq, decide_True.
  - by rewrite !lookup_insert_ne, part_lookup by done.
Qed.

Lemma part_delete_ne f i m k : nib f k ≠ i → part f i (delete k m) = part f i m.
Proof.
  intros H. apply map_eq. intros k'. rewrite !part_lookup. case_decide; [|done].
  rewrite lookup_delete_ne; [done|congruence].
Qed.

Lemma part_delete f m k : part f (nib f k) (delete k m) = delete k (part f (nib f k) m).
Proof.
  apply map_eq. intros k'. rewrite part_lookup. destruct (decide (k = k')) as [<-|Hne].
  - by rewrite !lookup_delete_eq, decide_True.
  - by rewrite !lookup_delete_ne, part_lookup by done.
Qed.

Lemma children_lookup f m i : (i < 16)%nat → children f m !! i = Some (tree_of f (part f i m)).
Proof. intros H. unfold children, branches. rewrite list_lookup_fmap, lookup_seq_lt by lia. done. Qed.

Lemma children_length f m : length (children f m) = 16%nat.
Proof. done. Qed.

Lemma getChild_children f m k : getChild (children f m) (nib f k) = tree_of f (part f (nib f k) m).
Proof. unfold getChild. by rewrite children_lookup by apply nib_lt. Qed.

(** A change in one part changes one child. *)
Lemma children_change f m m' k c :
  (∀ i, nib f k ≠ i → part f i m' = part f i m) → tree_of f (part f (nib f k) m') = c →
  setChild (children f m) (nib f k) c = children f m'.
Proof.
  intros Hp Hc. unfold setChild. apply list_eq. intros i. destruct (decide (i < 16)%nat) as [Hi|Hi].
  - destruct (decide (nib f k = i)) as [<-|Hne].
    + rewrite list_lookup_insert_eq by (rewrite children_length; apply nib_lt). by rewrite children_lookup, Hc.
    + rewrite list_lookup_insert_ne by done. by rewrite !children_lookup, Hp.
  - rewrite !lookup_ge_None_2; rewrite ?length_insert, ?children_length; [done|lia|lia].
Qed.

(** ** Walks *)

Lemma walk_children fuel k f m nid st : (f ≤ 63)%nat → mDepth nid = (63 - f)%nat →
  walk (S fuel) k (InnerNode (children f m)) nid st =
    match tree_of f (part f (nib f k) m) with
    | None => Ret ((InnerNode (children f m), nid) :: st, None)
    | Some n => walk fuel k n (getChildNodeID nid (nib f k)) ((InnerNode (children f m), nid) :: st)
    end.
Proof. intros Hf Hd. cbn [walk]. by rewrite (selectBranch_nib f), getChild_children by done. Qed.

(** The part of the map a key belongs to, by its size. *)
Lemma child_cases f p m k : under (S f) p m →
  part f (nib f k) m = ∅ ∨ (∃ k' v', part f (nib f k) m = {[k' := v']} ∧ m !! k' = Some v' ∧ nib f k' = nib f k) ∨
  ∃ f', f = S f' ∧ many (part f (nib f k) m) ∧
    tree_of f (part f (nib f k) m) = Some (InnerNode (children f' (part f (nib f k) m))).
Proof.
  intros Hu. destruct (map_sizes (part f (nib f k) m)) as [E|[(k' & v' & E)|Hm]]; [by left|right; left|right; right].
  - exists k', v'. split; [done|]. assert (Hl : part f (nib f k) m !! k' = Some v') by (rewrite E; apply lookup_singleton_eq).
    rewrite part_lookup in Hl. by case_decide.
  - pose proof (under_many _ _ _ (part_under _ _ (nib f k) _ Hu) Hm) as Hf. destruct f as [|f']; [lia|].
    exists f'. split; [done|]. split; [done|]. by apply tree_of_many.
Qed.

Lemma lookup_part f m k : part f (nib f k) m !! k = m !! k.
Proof. by rewrite part_lookup, decide_True. Qed.

(** What a walk for a key finds. *)
Inductive reached (k : Z) (m : smap) : Stack * option (SHAMapItem * TNType) → Prop :=
| reached_item k' v' nid st : m !! k' = Some v' → (k' ≠ k → m !! k = None) →
    reached k m ((TreeNode (mkItem k' v') T, nid) :: st, Some (mkItem k' v', T))
| reached_nothing cs nid st : m !! k = None → reached k m ((InnerNode cs, nid) :: st, None).

Lemma walk_reached f : ∀ m p k nid st fuel, (f ≤ 63)%nat → (f < fuel)%nat → mDepth nid = (63 - f)%nat → under (S f) p m →
  ∃ r, walk fuel k (InnerNode (children f m)) nid st = Ret r ∧ reached k m r.
Proof.
  induction f as [f IH] using lt_wf_ind. intros m p k nid st [|fuel] Hf Hfu Hd Hu; [lia|].
  rewrite walk_children by done. destruct (child_cases f p m k Hu) as [E|[(k' & v' & E & Hk' & Hn)|(f' & -> & Hm & E)]].
  - rewrite E, tree_of_empty. eexists. split; [done|]. constructor. by rewrite <- (lookup_part f), E.
  - rewrite E, tree_of_one. destruct fuel; (eexists; split; [done|]); constructor; [done|intros Hne|done|intros Hne];
      by rewrite <- (lookup_part f), E, lookup_singleton_ne by done.
  - rewrite E. destruct (IH f' ltac:(lia) (part (S f') (nib (S f') k) m) (16 * p + Z.of_nat (nib (S f') k)) k (getChildNodeID nid (nib (S f') k))
      ((InnerNode (children (S f') m), nid) :: st) fuel) as (r & Hr & Hx); [lia|lia|cbn [getChildNodeID mDepth]; lia|by apply part_under|].
    exists r. split; [done|]. inversion Hx as [k' v' ? ? Hl Ho|? ? ? Ho]; subst; rewrite lookup_part in Ho; constructor; try done.
    rewrite part_lookup in Hl. by case_decide.
Qed.

(** ** Adding *)

(** The part of a map of two items. *)
Lemma part_two f k k' v v' :
  part f (nib f k) {[k := v; k' := v']} = if decide (nib f k' = nib f k) then {[k := v; k' := v']} else {[k := v]}.
Proof.
  apply map_eq. intros x. rewrite part_lookup. case_decide as Hx; case_decide as Hk.
  - done.
  - destruct (decide (x = k)) as [->|Hne]; [by rewrite lookup_insert_eq, lookup_singleton_eq|].
    rewrite lookup_insert_ne, !lookup_singleton_ne by congruence. done.
  - rewrite lookup_insert_ne, lookup_singleton_ne by congruence. done.
  - rewrite lookup_singleton_ne by congruence. done.
Qed.

Lemma children_one f k v : children f {[k := v]} = setChild (replicate 16 None) (nib f k) (Some (TreeNode (mkItem k v) T)).
Proof.
  assert (E : replicate 16 None = children f ∅).
  { unfold children, branches, part. cbn [map seq]. by rewrite !map_filter_empty, tree_of_empty. }
  rewrite E. symmetry. apply children_change.
  - intros i Hi. rewrite <- insert_empty. by apply part_insert_ne.
  - rewrite <- insert_empty, part_insert. unfold part. rewrite map_filter_empty, insert_empty. apply tree_of_one.
Qed.

Lemma many_two k k' v v' : k ≠ k' → many {[k := v; k' := v']}.
Proof.
  intros H. exists k, v, k', v'. split; [done|]. rewrite lookup_insert_eq, lookup_insert_ne, lookup_singleton_eq by done. done.
Qed.

Lemma two_swap k k' v v' : k ≠ k' → ({[k := v; k' := v']} : smap) = {[k' := v'; k := v]}.
Proof. intros H. rewrite <- !insert_empty. by apply insert_insert_ne. Qed.

Lemma children_two f k k' v v' : nib f k' ≠ nib f k →
  setChild (setChild (replicate 16 None) (nib f k) (Some (TreeNode (mkItem k v) T))) (nib f k') (Some (TreeNode (mkItem k' v') T)) =
  children f {[k := v; k' := v']}.
Proof.
  intros Hb. rewrite <- children_one. apply children_change.
  - intros i Hi. rewrite two_swap by congruence. by apply part_insert_ne.
  - rewrite two_swap, part_two, decide_False by congruence. apply tree_of_one.
Qed.

(** The new levels hold the two items. *)
Lemma split_correct f : ∀ k k' v v' nid st fuel, (f ≤ 64)%nat → (f ≤ fuel)%nat → mDepth nid = (64 - f)%nat →
  k ≠ k' → k / 16 ^ Z.of_nat f = k' / 16 ^ Z.of_nat f →
  ∃ st1 nid1 b1 b2 n, split fuel k k' nid st = Ret (st1, nid1, b1, b2) ∧ tree_of f {[k := v; k' := v']} = Some n ∧
    dirtyUp st1 k (InnerNode (setChild (setChild (replicate 16 None) b1 (Some (TreeNode (mkItem k v) T)))
                               b2 (Some (TreeNode (mkItem k' v') T)))) = dirtyUp st k n.
Proof.
  induction f as [|f IH]; intros k k' v v' nid st fuel Hf Hfu Hd Hne Heq.
  { rewrite Z.pow_0_r, !Z.div_1_r in Heq. done. }
  rewrite tree_of_many by by apply many_two. destruct fuel as [|fuel]; [lia|]. cbn [split].
  rewrite !(selectBranch_nib f) by lia. destruct (Nat.eqb_spec (nib f k) (nib f k')) as [Hb|Hb].
  - destruct (IH k k' v v' (getChildNodeID nid (nib f k)) ((empty_inner, nid) :: st) fuel) as (st1 & nid1 & b1 & b2 & n & Hs & Ht & Hu);
      [lia|lia|cbn [getChildNodeID mDepth]; lia|done|by rewrite (key_level f k), (key_level f k'), Heq, Hb|].
    exists st1, nid1, b1, b2, (InnerNode (children f {[k := v; k' := v']})). split; [done|]. split; [done|].
    rewrite Hu. cbn [dirtyUp empty_inner]. rewrite (selectBranch_nib f) by lia. f_equal. f_equal.
    transitivity (setChild (children f {[k := v]}) (nib f k) (Some n)).
    { rewrite children_one. unfold setChild. by rewrite list_insert_insert_eq. }
    apply children_change; [|by rewrite part_two, decide_True]. intros i Hi. rewrite (part_insert_ne _ _ {[k' := v']}) by done.
    by rewrite <- !insert_empty, !part_insert_ne by congruence.
  - exists st, nid, (nib f k), (nib f k'), (InnerNode (children f {[k := v; k' := v']})). do 2 (split; [done|]).
    by rewrite children_two by done.
Qed.

Lemma add_children f : ∀ m p k v nid st fuel, (f ≤ 63)%nat → (f < fuel)%nat → mDepth nid = (63 - f)%nat →
  under (S f) p m → k / 16 ^ Z.of_nat (S f) = p → m !! k = None →
  ∃ st' leaf, walk fuel k (InnerNode (children f m)) nid st = Ret (st', leaf) ∧
    add_at (mkItem k v) T st' = Some <$> dirtyUp st k (InnerNode (children f (<[k:=v]> m))).
Proof.
  induction f as [f IH] using lt_wf_ind. intros m p k v nid st [|fuel] Hf Hfu Hd Hu Hp Hk; [lia|].
  assert (Hpart : ∀ i, nib f k ≠ i → part f i (<[k:=v]> m) = part f i m) by (intros; by apply part_insert_ne).
  rewrite walk_children by done. destruct (child_cases f p m k Hu) as [E|[(k' & v' & E & Hk' & Hn)|(f' & -> & Hm & E)]].
  - rewrite E, tree_of_empty. eexists _, _. split; [done|]. cbn [add_at item_key]. rewrite (selectBranch_nib f) by done.
    erewrite children_change; [done|done|]. rewrite part_insert, E, insert_empty. apply tree_of_one.
  - rewrite E, tree_of_one. assert (Hne : k ≠ k') by congruence.
    destruct (split_correct f k k' v v' (getChildNodeID nid (nib f k)) ((InnerNode (children f m), nid) :: st) levels)
      as (st1 & nid1 & b1 & b2 & n & Hs & Ht & Hd1); [lia|unfold levels; lia|cbn [getChildNodeID mDepth]; lia|done| |].
    { by rewrite (key_level f k), (key_level f k'), Hp, (Hu _ _ Hk'), Hn. }
    destruct fuel; (eexists _, _; split; [done|]); cbn [add_at item_key]; rewrite (proj2 (Z.eqb_neq k' k)) by done;
      rewrite Hs; cbn [mbind outcome_bind make_leaf]; unfold make_leaf; rewrite Hd1; cbn [dirtyUp];
      rewrite (selectBranch_nib f) by done; (erewrite children_change; [done|done|]); by rewrite part_insert, E.
  - rewrite E. destruct (IH f' ltac:(lia) (part (S f') (nib (S f') k) m) (16 * p + Z.of_nat (nib (S f') k)) k v (getChildNodeID nid (nib (S f') k))
      ((InnerNode (children (S f') m), nid) :: st) fuel) as (st' & leaf & Hw & Ha);
      [lia|lia|cbn [getChildNodeID mDepth]; lia|by apply part_under|by rewrite key_level, Hp|by rewrite lookup_part|].
    exists st', leaf. split; [done|]. rewrite Ha. cbn [dirtyUp]. rewrite (selectBranch_nib (S f')) by done.
    erewrite children_change; [done|done|]. rewrite part_insert. by apply tree_of_many, many_insert.
Qed.

(** ** Replacing *)

Lemma replace_children f : ∀ m p k v0 v nid st fuel, (f ≤ 63)%nat → (f < fuel)%nat → mDepth nid = (63 - f)%nat →
  under (S f) p m → m !! k = Some v0 →
  ∃ nid' rest, walk fuel k (InnerNode (children f m)) nid st = Ret ((TreeNode (mkItem k v0) T, nid') :: rest, Some (mkItem k v0, T)) ∧
    dirtyUp rest k (TreeNode (mkItem k v) T) = dirtyUp st k (InnerNode (children f (<[k:=v]> m))).
Proof.
  induction f as [f IH] using lt_wf_ind. intros m p k v0 v nid st [|fuel] Hf Hfu Hd Hu Hk; [lia|].
  assert (Hpart : ∀ i, nib f k ≠ i → part f i (<[k:=v]> m) = part f i m) by (intros; by apply part_insert_ne).
  rewrite walk_children by done. destruct (child_cases f p m k Hu) as [E|[(k' & v' & E & Hk' & Hn)|(f' & -> & Hm & E)]].
  - by rewrite <- (lookup_part f), E in Hk.
  - rewrite E, tree_of_one. rewrite <- (lookup_part f), E in Hk. apply lookup_singleton_Some in Hk as [-> ->].
    destruct fuel; (eexists _, _; split; [done|]); cbn [dirtyUp]; rewrite (selectBranch_nib f) by done;
      (erewrite children_change; [done|done|]); rewrite part_insert, E, insert_singleton_eq; apply tree_of_one.
  - rewrite E. destruct (IH f' ltac:(lia) (part (S f') (nib (S f') k) m) (16 * p + Z.of_nat (nib (S f') k)) k v0 v
      (getChildNodeID nid (nib (S f') k)) ((InnerNode (children (S f') m), nid) :: st) fuel) as (nid' & rest & Hw & Ha);
      [lia|lia|cbn [getChildNodeID mDepth]; lia|by apply part_under|by rewrite lookup_part|].
    exists nid', rest. split; [done|]. rewrite Ha. cbn [dirtyUp]. rewrite (selectBranch_nib (S f')) by done.
    erewrite children_change; [done|done|]. rewrite part_insert. by apply tree_of_many, many_insert.
Qed.

(** ** Removing *)

Lemma omap_single {A B} (g : A → option B) l x : omap g l = [x] → ∃ i, g i = Some x ∧ ∀ j, j ∈ l → is_Some (g j) → j = i.
Proof.
  induction l as [|a l IH]; [done|]. cbn [omap list_omap]. destruct (g a) as [y|] eqn:E; intros H.
  - injection H as -> H. exists a. split; [done|]. intros j [->|Hj]%elem_of_cons Hs; [done|].
    destruct Hs as [z Hz]. assert (Hin : z ∈ omap g l) by (apply list_elem_of_omap; eauto). rewrite H in Hin. by apply not_elem_of_nil in Hin.
  - destruct (IH H) as (i & Hi & Hu). exists i. split; [done|]. intros j [->|Hj]%elem_of_cons Hs; [|by apply Hu].
    rewrite E in Hs. by destruct Hs.
Qed.

Lemma branch_count cs : getBranchCount cs = length (omap (getChild cs) branches).
Proof.
  unfold getBranchCount, isEmptyBranch. induction branches as [|i l IH]; [done|].
  rewrite filter_cons. cbn [omap list_omap]. destruct (getChild cs i); case_decide; try done; cbn [length]; by rewrite IH.
Qed.

Lemma tree_of_some f p m k v : under f p m → m !! k = Some v → is_Some (tree_of f m).
Proof.
  intros Hu Hk. destruct (map_sizes m) as [->|[(k' & v' & ->)|Hm]]; [done|by rewrite tree_of_one|].
  pose proof (under_many _ _ _ Hu Hm). destruct f; [lia|]. by rewrite tree_of_many.
Qed.

Lemma branch_elem f k : nib f k ∈ branches.
Proof. apply list_elem_of_In, in_seq. pose proof (nib_lt f k). lia. Qed.

Lemma child_some f p m k v : under (S f) p m → m !! k = Some v → is_Some (getChild (children f m) (nib f k)).
Proof.
  intros Hu Hk. rewrite getChild_children. eapply tree_of_some; [by apply part_under|]. by rewrite lookup_part.
Qed.

Lemma below_one f k v : omap (getChild (children f {[k := v]})) branches = [TreeNode (mkItem k v) T].
Proof.
  rewrite children_one. pose proof (nib_lt f k) as Hb. destruct (nib f k) as [|b]; [done|].
  do 15 (destruct b as [|b]; [done|]). lia.
Qed.

(** A tree of several items has no only one. *)
Lemma onlyBelow_many f : ∀ p m fuel, (f < fuel)%nat → under (S f) p m → many m → onlyBelow fuel (InnerNode (children f m)) = Ret None.
Proof.
  induction f as [f IH] using lt_wf_ind. intros p m fuel Hfu Hu Hm. destruct fuel as [|fuel]; [lia|].
  cbn [onlyBelow]. destruct (omap _ _) as [|n [|]] eqn:E; [done| |done].
  destruct (omap_single _ _ _ E) as (i & Hi & Honly).
  assert (Hall : ∀ k v, m !! k = Some v → nib f k = i) by (intros; apply Honly; [apply branch_elem|by eapply child_some]).
  assert (Hp : part f i m = m).
  { apply map_eq. intros k. rewrite part_lookup. case_decide as Hn; [done|]. destruct (m !! k) eqn:Ek; [|done]. by apply Hall in Ek. }
  pose proof (part_under _ _ i _ Hu) as Hu'. rewrite Hp in Hu'. pose proof (under_many _ _ _ Hu' Hm) as Hf.
  destruct f as [|f]; [lia|]. destruct Hm as (k & v & Hm). pose proof Hm as (_ & _ & _ & Hk & _). rewrite <- (Hall k v Hk) in Hi.
  rewrite getChild_children, (Hall k v Hk), Hp, tree_of_many in Hi by by exists k, v. injection Hi as <-.
  eapply (IH f); [lia|lia|done|by exists k, v].
Qed.

Lemma del_step f m p k nid st r : (f < 63)%nat → mDepth nid = (63 - f)%nat → under (S f) p m →
  del_up ((InnerNode (children f m), nid) :: st) k T (tree_of f (delete k (part f (nib f k) m))) r =
  del_up st k T (tree_of (S f) (delete k m)) r.
Proof.
  intros Hf Hd Hu. cbn [del_up]. rewrite (selectBranch_nib f) by lia.
  rewrite (children_change f m (delete k m)); [|intros; by apply part_delete_ne|by rewrite part_delete].
  unfold isRoot. rewrite (proj2 (Nat.eqb_neq _ 0)) by lia.
  assert (Hu' : under (S f) p (delete k m)) by (intros k' v [_ H]%lookup_delete_Some; by eapply Hu).
  destruct (map_sizes (delete k m)) as [E|[(k' & v' & E)|Hm]].
  - rewrite E, tree_of_empty. replace (getBranchCount _) with 0%nat; [done|].
    rewrite branch_count. unfold children, branches, part. cbn [map seq]. by rewrite !map_filter_empty, tree_of_empty.
  - rewrite E, tree_of_one, branch_count, below_one. unfold levels. cbn [length onlyBelow]. by rewrite below_one.
  - rewrite tree_of_many by done. pose proof Hm as (k1 & v1 & _ & _ & _ & Hk1 & _).
    destruct (getBranchCount _) as [|[|]] eqn:E; [| |done].
    + rewrite branch_count in E. apply nil_length_inv in E. destruct (child_some _ _ _ _ _ Hu' Hk1) as [n Hn].
      assert (Hin : n ∈ omap (getChild (children f (delete k m))) branches) by (apply list_elem_of_omap; eauto using branch_elem).
      rewrite E in Hin. by apply not_elem_of_nil in Hin.
    + by rewrite (onlyBelow_many f p) by (done || (unfold levels; lia)).
Qed.

Lemma del_children f : ∀ m p k v nid st fuel r, (f ≤ 63)%nat → (f < fuel)%nat → mDepth nid = (63 - f)%nat →
  under (S f) p m → m !! k = Some v →
  ∃ nid' rest, walk fuel k (InnerNode (children f m)) nid st = Ret ((TreeNode (mkItem k v) T, nid') :: rest, Some (mkItem k v, T)) ∧
    del_up rest k T None r = del_up ((InnerNode (children f m), nid) :: st) k T (tree_of f (delete k (part f (nib f k) m))) r.
Proof.
  induction f as [f IH] using lt_wf_ind. intros m p k v nid st [|fuel] r Hf Hfu Hd Hu Hk; [lia|].
  rewrite walk_children by done. destruct (child_cases f p m k Hu) as [E|[(k' & v' & E & Hk' & Hn)|(f' & -> & Hm & E)]].
  - by rewrite <- (lookup_part f), E in Hk.
  - rewrite E, tree_of_one. rewrite <- (lookup_part f), E in Hk. apply lookup_singleton_Some in Hk as [-> ->].
    rewrite delete_singleton_eq, tree_of_empty. by destruct fuel; eexists _, _.
  - rewrite E. destruct (IH f' ltac:(lia) (part (S f') (nib (S f') k) m) (16 * p + Z.of_nat (nib (S f') k)) k v
      (getChildNodeID nid (nib (S f') k)) ((InnerNode (children (S f') m), nid) :: st) fuel r) as (nid' & rest & Hw & Ha);
      [lia|lia|cbn [getChildNodeID mDepth]; lia|by apply part_under|by rewrite lookup_part|].
    exists nid', rest. split; [done|]. rewrite Ha. eapply del_step; [lia|cbn [getChildNodeID mDepth]; lia|by apply part_under].
Qed.
End Trees.

(** ** Histories *)

Inductive shamap_op := AddItem (item : SHAMapItem) | UpdateItem (item : SHAMapItem) | DelItem (id : Z).

Definition op_key (op : shamap_op) : Z :=
  match op with AddItem item | UpdateItem item => item_key item | DelItem id => id end.

(** The items a history brings. *)
Definition given (ops : list shamap_op) : list SHAMapItem :=
  omap (λ op, match op with AddItem item | UpdateItem item => Some item | DelItem _ => None end) ops.

(** The operations on finite maps, with the result the operation reports. *)
Definition spec_op (m : smap) (op : shamap_op) : bool * smap :=
  match op with
  | AddItem (mkItem k v) => match m !! k with Some _ => (false, m) | None => (true, <[k := v]> m) end
  | UpdateItem (mkItem k v) => match m !! k with Some _ => (true, <[k := v]> m) | None => (false, m) end
  | DelItem k => match m !! k with Some _ => (true, delete k m) | None => (false, m) end
  end.

Fixpoint spec_ops (m : smap) (ops : list shamap_op) : list bool * smap :=
  match ops with
  | [] => ([], m)
  | op :: ops => let '(b, m) := spec_op m op in let '(bs, m) := spec_ops m ops in (b :: bs, m)
  end.

Definition uint256_keys (m : smap) : Prop := map_Forall (λ k _, 0 ≤ k < 2 ^ 256) m.

Section History.
Context `{Hash : Sha512} (isTransaction hasMeta : bool).

Definition run_op (root_ : SHAMapNode) (op : shamap_op) : outcome (bool * SHAMapNode) :=
  match op with
  | AddItem item => addGiveItem root_ item isTransaction hasMeta
  | UpdateItem item => updateGiveItem root_ item isTransaction hasMeta
  | DelItem id => delItem root_ id
  end.

Fixpoint run_ops (root_ : SHAMapNode) (ops : list shamap_op) : outcome (list bool * SHAMapNode) :=
  match ops with
  | [] => Ret ([], root_)
  | op :: ops => '(b, root_) ← run_op root_ op; '(bs, root_) ← run_ops root_ ops; Ret (b :: bs, root_)
  end.

Abbreviation T := (item_type isTransaction hasMeta).

(** Two items for the same key that are among the given ones have different hashes. *)
Definition leaves_distinct (l : list SHAMapItem) : Prop :=
  ∀ a b, a ∈ l → b ∈ l → item_key a = item_key b → leaf_hash a T = leaf_hash b T → a = b.

Lemma key_top k : 0 ≤ k < 2 ^ 256 → k / 16 ^ Z.of_nat 64 = 0.
Proof. intros H. apply Z.div_small. by change (16 ^ Z.of_nat 64) with (2 ^ 256). Qed.

Lemma keys_under m : uint256_keys m → under 64 0 m.
Proof. intros H k v Hk. apply key_top. by apply (H k v). Qed.

Lemma root_empty U : empty_inner = root_of U ∅.
Proof. done. Qed.

Lemma find_root m k : uint256_keys m → findKey (root_of T m) k = Ret ((λ v, (mkItem k v, T)) <$> m !! k).
Proof.
  intros Hm. unfold findKey, walkTowardsKey, root_of.
  destruct (walk_reached T 63 m 0 k root_id [] levels) as (r & -> & Hr); [lia|unfold levels; lia|done|by apply keys_under|].
  cbn [mbind outcome_bind]. destruct Hr as [k' v' nid st Hk Ho|cs nid st Ho]; [|by rewrite Ho]. cbn [item_key].
  destruct (Z.eqb_spec k' k) as [->|Hne]; [by rewrite Hk|by rewrite Ho].
Qed.

Lemma run_op_correct m op l : uint256_keys m → 0 ≤ op_key op < 2 ^ 256 →
  leaves_distinct l → (∀ k v, m !! k = Some v → mkItem k v ∈ l) → (∀ i, i ∈ given [op] → i ∈ l) →
  run_op (root_of T m) op = Ret ((spec_op m op).1, root_of T (spec_op m op).2).
Proof.
  intros Hm Hk Hl Hin Hop. pose proof (keys_under m Hm) as Hu. unfold root_of.
  assert (Hf : (63 < levels)%nat) by (unfold levels; lia).
  destruct op as [[k v]|[k v]|k]; cbn [run_op spec_op op_key item_key] in *;
    unfold addGiveItem, updateGiveItem, delItem, walkTowardsKey; cbn [item_key];
    destruct (m !! k) as [v0|] eqn:E.
  - destruct (del_children T 63 m 0 k v0 root_id [] levels empty_inner) as (nid' & rest & -> & _); [lia|done|done|done|done|].
    cbn [mbind outcome_bind add_at item_key]. by rewrite Z.eqb_refl.
  - destruct (add_children T 63 m 0 k v root_id [] levels) as (st' & leaf & -> & Ha); [lia|done|done|done|by apply key_top|done|].
    cbn [mbind outcome_bind]. by rewrite Ha.
  - destruct (replace_children T 63 m 0 k v0 v root_id [] levels) as (nid' & rest & -> & Hd); [lia|done|done|done|done|].
    cbn [mbind outcome_bind update_at item_key]. rewrite Z.eqb_refl. cbn [negb]. destruct (Z.eqb_spec (leaf_hash (mkItem k v) T) (leaf_hash (mkItem k v0) T)) as [Hh|Hh].
    + apply Hl in Hh as [= ->]; [|by apply Hop; left|by apply Hin|done]. by rewrite insert_id.
    + unfold make_leaf. by rewrite Hd.
  - destruct (walk_reached T 63 m 0 k root_id [] levels) as (r & -> & Hr); [lia|done|done|done|].
    destruct Hr as [k' v' nid st Hk' Ho|cs nid st Ho]; [|done]. cbn [mbind outcome_bind update_at item_key].
    by rewrite (proj2 (Z.eqb_neq k' k)) by congruence.
  - destruct (del_children T 63 m 0 k v0 root_id [] levels (InnerNode (children T 63 m))) as (nid' & rest & -> & Hd); [lia|done|done|done|done|].
    cbn [mbind outcome_bind item_key]. rewrite Z.eqb_refl. cbn [negb]. rewrite Hd. cbn [del_up isRoot root_id mDepth Nat.eqb].
    rewrite (selectBranch_nib 63), (children_change T 63 m (delete k m)); [done|intros; by apply part_delete_ne|by rewrite part_delete|lia|done].
  - destruct (walk_reached T 63 m 0 k root_id [] levels) as (r & -> & Hr); [lia|done|done|done|].
    destruct Hr as [k' v' nid st Hk' Ho|cs nid st Ho]; [|done]. cbn [mbind outcome_bind item_key].
    by rewrite (proj2 (Z.eqb_neq k' k)) by congruence.
Qed.

Lemma spec_op_keys m op : uint256_keys m → 0 ≤ op_key op < 2 ^ 256 → uint256_keys (spec_op m op).2.
Proof.
  intros Hm Hk. destruct op as [[k v]|[k v]|k]; cbn [spec_op op_key item_key] in *; destruct (m !! k); try done;
    [by apply map_Forall_insert_2..|by apply map_Forall_delete].
Qed.

Lemma spec_op_given m op (l : list SHAMapItem) : (∀ k v, m !! k = Some v → mkItem k v ∈ l) → (∀ i, i ∈ given [op] → i ∈ l) →
  ∀ k v, (spec_op m op).2 !! k = Some v → mkItem k v ∈ l.
Proof.
  intros Hin Hop k v. destruct op as [[k' v']|[k' v']|k']; cbn [spec_op]; destruct (m !! k'); cbn [snd]; try apply Hin.
  - intros [[-> ->]|[_ H]]%lookup_insert_Some; [by apply Hop; left|by apply Hin].
  - intros [[-> ->]|[_ H]]%lookup_insert_Some; [by apply Hop; left|by apply Hin].
  - intros [_ H]%lookup_delete_Some. by apply Hin.
Qed.

Lemma run_ops_correct ops (l : list SHAMapItem) : Forall (λ op, 0 ≤ op_key op < 2 ^ 256) ops → leaves_distinct l → ∀ m, uint256_keys m →
  (∀ k v, m !! k = Some v → mkItem k v ∈ l) → (∀ i, i ∈ given ops → i ∈ l) →
  run_ops (root_of T m) ops = Ret ((spec_ops m ops).1, root_of T (spec_ops m ops).2) ∧ uint256_keys (spec_ops m ops).2.
Proof.
  intros Hops Hl. induction Hops as [|op ops Hop _ IH]; intros m Hm Hin Hg; [done|]. cbn [run_ops spec_ops].
  assert (Hop' : ∀ i, i ∈ given [op] → i ∈ l).
  { intros i Hi. apply Hg. change (op :: ops) with ([op] ++ ops). unfold given in *. rewrite omap_app. apply elem_of_app. by left. }
  rewrite (run_op_correct m op l) by done. pose proof (spec_op_keys m op Hm Hop) as Hm'. pose proof (spec_op_given m op l Hin Hop') as Hin'.
  destruct (spec_op m op) as [b m']. cbn [fst snd mbind outcome_bind] in *. destruct (IH m' Hm' Hin') as [-> Hk].
  { intros i Hi. apply Hg. change (op :: ops) with ([op] ++ ops). unfold given in *. rewrite omap_app. apply elem_of_app. by right. }
  by destruct (spec_ops m' ops).
Qed.
End History.

(** C7: any sequence of additions, updates and removals on an empty tree succeeds, reports what
    the same operations on a finite map report, and leaves the tree of that map; looking
    an item up afterwards finds what the map holds.  The hypothesis is that two different
    items given for the same key do not collide under the hash. *)
Theorem shamap_refines `{Hash : Sha512} (isTransaction hasMeta : bool) (ops : list shamap_op) :
  Forall (λ op, 0 ≤ op_key op < 2 ^ 256) ops → leaves_distinct isTransaction hasMeta (given ops) →
  let '(results, m) := spec_ops ∅ ops in
  ∃ root_, run_ops isTransaction hasMeta empty_inner ops = Ret (results, root_) ∧
    root_ = root_of (item_type isTransaction hasMeta) m ∧
    ∀ k, peekItem root_ k = Ret (mkItem k <$> m !! k) ∧ hasItem root_ k = Ret (bool_decide (is_Some (m !! k))).
Proof.
  intros Hops Hl. destruct (run_ops_correct isTransaction hasMeta ops (given ops) Hops Hl ∅) as [Hr Hk]; [done|done|done|].
  rewrite <- root_empty in Hr. destruct (spec_ops ∅ ops) as [results m]. cbn [fst snd] in *. eexists. split; [done|]. split; [done|].
  intros k. unfold peekItem, hasItem. rewrite find_root by done. destruct (m !! k); cbn [fmap option_fmap option_map mbind outcome_bind]; split; try done;
    f_equal; by apply bool_decide_ext; split; intros [? ?].
Qed.

(** A hash without collisions on bytes tells leaves apart. *)
Lemma leaves_distinct_number (isTransaction hasMeta : bool) l : Forall (λ i, Forall is_byte (item_data i)) l →
  @leaves_distinct number_hash isTransaction hasMeta l.
Proof.
  intros Hb [k v] [k' v'] Ha Hb' [= <-] H. rewrite Forall_forall in Hb. apply Hb in Ha, Hb'. cbn [item_data] in *.
  unfold leaf_hash in H. apply number_hash_inj in H.
  - destruct isTransaction, hasMeta; cbn [leaf_bytes item_type negb item_data item_key] in H; apply app_inv_head in H;
      try (apply app_inv_tail in H); by subst.
  - destruct isTransaction, hasMeta; cbn [leaf_bytes item_type negb]; auto using Forall_app_2, to_be_bytes.
  - destruct isTransaction, hasMeta; cbn [leaf_bytes item_type negb]; auto using Forall_app_2, to_be_bytes.
Qed.

(** Two items far down the same way, one elsewhere, a replacement, and a removal. *)
Definition test_ops : list shamap_op :=
  [AddItem (mkItem 0x12345 [1; 2]); AddItem (mkItem 0x12346 [3]); AddItem (mkItem (2 ^ 255) []);
   UpdateItem (mkItem 0x12346 [4; 5]); AddItem (mkItem 0x12345 [9]); DelItem 0x12345; DelItem 7].

Lemma shamap_refines_witness :
  let '(results, m) := spec_ops ∅ test_ops in
  results = [true; true; true; true; false; true; false] ∧
  ∃ root_, @run_ops number_hash false false empty_inner test_ops = Ret (results, root_) ∧
    root_ = root_of (item_type false false) m ∧
    ∀ k, peekItem root_ k = Ret (mkItem k <$> m !! k) ∧ hasItem root_ k = Ret (bool_decide (is_Some (m !! k))).
Proof.
  split; [reflexivity|]. apply (@shamap_refines number_hash false false test_ops).
  - unfold test_ops. repeat (constructor; [cbn [op_key item_key]; lia|]). constructor.
  - apply leaves_distinct_number. unfold test_ops, given. cbn [omap list_omap]. repeat constructor; unfold is_byte; cbn; lia.
Defined.
