(* ===== verification/SHAMapHash.v ===== *)
(** * The root hash identifies the contents

    The hash of a tree is computed from the encodings of its nodes.  If the hash has no
    collision among the encodings of two trees, equal root hashes mean equal maps; and
    the history by which a tree was built plays no role. *)

From stdpp Require Import base numbers list gmap strings.
From Stdlib Require Import Lia ZArith.
From S2P Require Import Prelude Serializer SField STObject Indexes STTx SHAMap SHAMapLaws.

Local Open Scope Z_scope.

Section Identify.
Context `{Hash : Sha512} (T : TNType).

Definition ohash (c : option SHAMapNode) : Z := match c with Some n => node_hash n | None => 0 end.

Definition is_none (c : option SHAMapNode) : bool := match c with Some _ => false | None => true end.

(** What is hashed for a tree. *)
Fixpoint encodings (n : SHAMapNode) : list (list Z) :=
  match n with
  | TreeNode item type => [leaf_bytes item type]
  | InnerNode cs =>
    if forallb is_none cs then []
    else inner_bytes (map ohash cs) :: concat (map (λ c, match c with Some n => encodings n | None => [] end) cs)
  end.

Definition oencodings (c : option SHAMapNode) : list (list Z) := match c with Some n => encodings n | None => [] end.

(** No two of the given strings have the same hash, and the hashes are proper ones. *)
Definition hash_faithful (es : list (list Z)) : Prop :=
  (∀ a b, a ∈ es → b ∈ es → sha512Half a = sha512Half b → a = b) ∧ (∀ a, a ∈ es → 0 < sha512Half a < 2 ^ 256).

Lemma hash_faithful_sub es es' : es' ⊆ es → hash_faithful es → hash_faithful es'.
Proof. intros Hs [H1 H2]. split; intros; [apply H1|apply H2]; auto. Qed.

Lemma sub_left (es es' : list (list Z)) : es ⊆ es ++ es'.
Proof. intros e He. apply elem_of_app. by left. Qed.

Lemma sub_right (es es' : list (list Z)) : es' ⊆ es ++ es'.
Proof. intros e He. apply elem_of_app. by right. Qed.

Lemma node_hash_inner cs : node_hash (InnerNode cs) = if forallb is_none cs then 0 else sha512Half (inner_bytes (map ohash cs)).
Proof. done. Qed.

Lemma inner_bytes_inj l l' : length l = length l' → Forall (λ h, 0 ≤ h < 2 ^ 256) l → Forall (λ h, 0 ≤ h < 2 ^ 256) l' →
  inner_bytes l = inner_bytes l' → l = l'.
Proof.
  intros Hlen Hl Hl' E. apply app_inv_head in E. revert l' Hlen Hl' E.
  induction Hl as [|h l Hh _ IH]; intros [|h' l'] Hlen Hl' E; try done. inversion Hl' as [|? ? Hh' Hl'']; subst.
  cbn [map concat] in E. apply app_inj_1 in E as [E1 E2]; [|done]. f_equal; [|apply IH; [by injection Hlen|done|done]].
  rewrite <- (of_be_to_be 32 h), <- (of_be_to_be 32 h'), E1 by done. done.
Qed.

Lemma leaf_not_inner item l : leaf_bytes item T ≠ inner_bytes l.
Proof.
  intros E. apply (f_equal (take 4)) in E. unfold inner_bytes in E.
  destruct T; cbn [leaf_bytes] in E; rewrite !take_app_length' in E by done; vm_compute in E; discriminate E.
Qed.

(** The key of a transaction without metadata is its hash; the encoding leaves it out. *)
Definition named (it : SHAMapItem) : Prop := T = tnTRANSACTION_NM → item_key it = leaf_hash it T.

Lemma leaf_bytes_inj a b : named a → named b → 0 ≤ item_key a < 2 ^ 256 → 0 ≤ item_key b < 2 ^ 256 →
  leaf_bytes a T = leaf_bytes b T → a = b.
Proof.
  intros Na Nb Ha Hb E. destruct (decide (T = tnTRANSACTION_NM)) as [HT|HT].
  - specialize (Na HT). specialize (Nb HT). unfold leaf_hash in *. rewrite E, <- Nb in Na. rewrite HT in E. cbn [leaf_bytes] in E.
    apply app_inv_head in E. destruct a as [k v], b as [k' v']; cbn [item_key item_data] in *. by subst.
  - destruct a as [k v], b as [k' v']. cbn [item_key] in *.
    assert (E' : v ++ to_be 32 k = v' ++ to_be 32 k') by (destruct T; [done|..]; cbn [leaf_bytes item_data item_key] in E; by apply app_inv_head in E).
    apply app_inj_2 in E' as [-> E2]; [|done]. rewrite <- (of_be_to_be 32 k), <- (of_be_to_be 32 k'), E2 by done. done.
Qed.

(** Maps with proper keys. *)
Definition proper_keys (m : smap) : Prop := map_Forall (λ k v, 0 ≤ k < 2 ^ 256 ∧ named (mkItem k v)) m.

Lemma none_children f p m : under (S f) p m → forallb is_none (children T f m) = true ↔ m = ∅.
Proof.
  intros Hu. split.
  - intros H. apply map_empty. intros k. apply eq_None_not_Some. intros [v Hk].
    destruct (child_some T f p m k v Hu Hk) as [n Hn]. rewrite forallb_forall in H.
    specialize (H (Some n)). discriminate H. apply list_elem_of_In. unfold getChild in Hn.
    destruct (children T f m !! _) as [c|] eqn:E; [|done]. change (c = Some n) in Hn. subst c. by apply list_elem_of_lookup_2 in E.
  - intros ->. apply forallb_forall. intros c Hc. unfold children, branches, part in Hc. apply in_map_iff in Hc as (i & <- & _).
    by rewrite map_filter_empty, tree_of_empty.
Qed.

(** The encodings below a node. *)
Lemma encodings_child f p m i : under (S f) p m → (i < 16)%nat →
  oencodings (tree_of T f (part f i m)) ⊆ encodings (InnerNode (children T f m)).
Proof.
  intros Hu Hi e He. cbn [encodings]. destruct (forallb is_none _) eqn:E.
  - apply (none_children f p m Hu) in E as ->. unfold part in He. rewrite map_filter_empty, tree_of_empty in He. done.
  - right. apply list_elem_of_In, in_concat. exists (oencodings (tree_of T f (part f i m))). split; [|by apply list_elem_of_In].
    apply (in_map oencodings), list_elem_of_In, list_elem_of_lookup. exists i. by apply children_lookup.
Qed.

Lemma ohash_range f p m es : under f p m → hash_faithful es → oencodings (tree_of T f m) ⊆ es →
  0 ≤ ohash (tree_of T f m) < 2 ^ 256 ∧ (ohash (tree_of T f m) = 0 → m = ∅).
Proof.
  intros Hu [_ He] Hs. destruct (map_sizes m) as [->|[(k & v & ->)|Hm]].
  - by rewrite tree_of_empty.
  - rewrite tree_of_one in *. cbn [ohash node_hash oencodings encodings] in *. unfold leaf_hash.
    pose proof (He _ (Hs _ (list_elem_of_here _ _))). lia.
  - pose proof (under_many _ _ _ Hu Hm). destruct f as [|f]; [lia|]. rewrite (tree_of_many T f m Hm) in *.
    cbn [ohash oencodings]. cbn [oencodings encodings] in Hs. rewrite node_hash_inner. destruct (forallb is_none _) eqn:E.
    + apply (none_children f p m Hu) in E as ->. by destruct Hm as (k & v & _ & _ & _ & Hk & _).
    + pose proof (He _ (Hs _ (list_elem_of_here _ _))). lia.
Qed.

(** Inner nodes with the same hash are over the same map, if that holds for their children. *)
Lemma inner_identify f p m m' : under (S f) p m → under (S f) p m' →
  hash_faithful (encodings (InnerNode (children T f m)) ++ encodings (InnerNode (children T f m'))) →
  (∀ i, hash_faithful (oencodings (tree_of T f (part f i m)) ++ oencodings (tree_of T f (part f i m'))) →
     ohash (tree_of T f (part f i m)) = ohash (tree_of T f (part f i m')) → part f i m = part f i m') →
  node_hash (InnerNode (children T f m)) = node_hash (InnerNode (children T f m')) → m = m'.
Proof.
  intros Hu Hu' Hh IH E.
  assert (Hpart : ∀ i, (i < 16)%nat → ohash (tree_of T f (part f i m)) = ohash (tree_of T f (part f i m')) → part f i m = part f i m').
  { intros i Hi Hi'. apply IH; [|done]. eapply hash_faithful_sub; [|done].
    intros e [He|He]%elem_of_app; apply elem_of_app; [left|right]; by eapply encodings_child. }
  assert (Hall : ∀ i, (i < 16)%nat → part f i m = part f i m').
  2:{ apply map_eq. intros k. rewrite <- (lookup_part f m), <- (lookup_part f m'), Hall by apply nib_lt. done. }
  assert (Hr : ∀ x i, under (S f) p x → (i < 16)%nat → encodings (InnerNode (children T f x)) ⊆ encodings (InnerNode (children T f m)) ++ encodings (InnerNode (children T f m')) →
    0 ≤ ohash (tree_of T f (part f i x)) < 2 ^ 256).
  { intros x i Hx Hi Hs. eapply ohash_range; [by apply part_under|exact Hh|]. intros e He. apply Hs. by eapply encodings_child. }
  assert (Hrange : ∀ x, under (S f) p x → encodings (InnerNode (children T f x)) ⊆ encodings (InnerNode (children T f m)) ++ encodings (InnerNode (children T f m')) →
    Forall (λ h, 0 ≤ h < 2 ^ 256) (map ohash (children T f x))).
  { intros x Hx Hs. apply Forall_forall. intros h (c & -> & Hc)%list_elem_of_fmap. apply list_elem_of_lookup in Hc as [i Hi].
    pose proof (lookup_lt_Some _ _ _ Hi) as Hlt. rewrite children_length in Hlt. rewrite children_lookup in Hi by done. injection Hi as <-. by apply Hr. }
  intros i Hi. apply Hpart; [done|]. rewrite !node_hash_inner in E. destruct Hh as [Hc Hpos]. cbn [encodings] in Hc, Hpos.
  destruct (forallb is_none (children T f m)) eqn:E1; destruct (forallb is_none (children T f m')) eqn:E2.
  - apply (none_children f p _ Hu) in E1 as ->. by apply (none_children f p _ Hu') in E2 as ->.
  - specialize (Hpos _ (list_elem_of_here _ _)). lia.
  - specialize (Hpos _ (list_elem_of_here _ _)). lia.
  - apply Hc, inner_bytes_inj in E; [|done|apply Hrange; [done|apply sub_left]|apply Hrange; [done|apply sub_right]|left|apply elem_of_app; right; left].
    assert (Hj : map ohash (children T f m) !! i = map ohash (children T f m') !! i) by by rewrite E.
    rewrite !list_lookup_fmap, !children_lookup in Hj by done. by injection Hj.
Qed.

Lemma proper_uint256 m : proper_keys m → uint256_keys m.
Proof. intros H k v Hk. by apply (H k v). Qed.

Lemma part_keys f i m : proper_keys m → proper_keys (part f i m).
Proof. intros H k v Hk. rewrite part_lookup in Hk. case_decide; [|done]. by apply (H k v). Qed.

Lemma single_keys k v : proper_keys {[k := v]} → 0 ≤ k < 2 ^ 256 ∧ named (mkItem k v).
Proof. intros H. apply (H k v), lookup_singleton_eq. Qed.

Lemma tree_identify f : ∀ p m m', under f p m → under f p m' → proper_keys m → proper_keys m' →
  hash_faithful (oencodings (tree_of T f m) ++ oencodings (tree_of T f m')) →
  ohash (tree_of T f m) = ohash (tree_of T f m') → m = m'.
Proof.
  induction f as [f IH] using lt_wf_ind. intros p m m' Hu Hu' Hk Hk' Hh E.
  destruct (ohash_range f p m _ Hu Hh) as [Hr H0]; [apply sub_left|]. destruct (ohash_range f p m' _ Hu' Hh) as [Hr' H0']; [apply sub_right|].
  destruct (map_sizes m) as [->|Hm]; [rewrite tree_of_empty in E; symmetry; apply H0'; by rewrite <- E|].
  destruct (map_sizes m') as [->|Hm']; [rewrite tree_of_empty in E; by apply H0|]. pose proof Hh as [Hc _]. clear H0 H0' Hr Hr'.
  destruct Hm as [(k & v & ->)|Hm]; destruct Hm' as [(k' & v' & ->)|Hm'].
  - destruct (single_keys _ _ Hk) as [R N]. destruct (single_keys _ _ Hk') as [R' N']. rewrite !tree_of_one in *.
    apply Hc, leaf_bytes_inj in E; [by injection E as -> ->|done..|left|right; left].
  - pose proof (under_many _ _ _ Hu' Hm'). destruct f as [|f]; [lia|]. rewrite tree_of_one, (tree_of_many T f m' Hm') in *.
    cbn [ohash oencodings encodings] in *. rewrite node_hash_inner in E. destruct (forallb is_none _) eqn:En.
    + apply (none_children f p m' Hu') in En as ->. by destruct Hm' as (? & ? & _ & _ & _ & Hx & _).
    + apply Hc in E; [by apply leaf_not_inner in E|left|right; left].
  - pose proof (under_many _ _ _ Hu Hm). destruct f as [|f]; [lia|]. rewrite tree_of_one, (tree_of_many T f m Hm) in *.
    cbn [ohash oencodings encodings] in *. rewrite node_hash_inner in E. destruct (forallb is_none _) eqn:En.
    + apply (none_children f p m Hu) in En as ->. by destruct Hm as (? & ? & _ & _ & _ & Hx & _).
    + symmetry in E. apply Hc in E; [by apply leaf_not_inner in E|apply elem_of_app; right; left|left].
  - pose proof (under_many _ _ _ Hu Hm). destruct f as [|f]; [lia|]. rewrite (tree_of_many T f m Hm), (tree_of_many T f m' Hm') in *.
    apply (inner_identify f p m m' Hu Hu' Hh); [|done]. intros i Hi. apply (IH f ltac:(lia) (16 * p + Z.of_nat i)); auto using part_under, part_keys.
Qed.

Lemma root_identify m m' : proper_keys m → proper_keys m' →
  hash_faithful (encodings (root_of T m) ++ encodings (root_of T m')) → node_hash (root_of T m) = node_hash (root_of T m') → m = m'.
Proof.
  intros Hk Hk' Hh. apply (inner_identify 63 0); [by apply keys_under, proper_uint256..|done|]. intros i Hi.
  apply (tree_identify 63 (16 * 0 + Z.of_nat i)); auto using part_keys, part_under, keys_under, proper_uint256.
Qed.
End Identify.

(** Maps that a history leads to have proper keys. *)
Lemma spec_ops_proper `{Hash : Sha512} T ops : Forall (λ op, 0 ≤ op_key op < 2 ^ 256) ops → (∀ it, it ∈ given ops → named T it) →
  ∀ m, proper_keys T m → proper_keys T (spec_ops m ops).2.
Proof.
  induction 1 as [|op ops Hop _ IH]; intros Hn m Hm; [done|]. cbn [spec_ops]. change (op :: ops) with ([op] ++ ops) in Hn. unfold given in Hn.
  rewrite omap_app in Hn. assert (Hm' : proper_keys T (spec_op m op).2).
  { destruct op as [[k v]|[k v]|k]; cbn [spec_op op_key item_key] in *; destruct (m !! k); try done.
    - apply map_Forall_insert_2; [|done]. split; [done|]. apply Hn. left.
    - apply map_Forall_insert_2; [|done]. split; [done|]. apply Hn. left.
    - by apply map_Forall_delete. }
  destruct (spec_op m op) as [b m']. specialize (IH (λ it Hit, Hn it (proj2 (elem_of_app _ _ _) (or_intror Hit))) m' Hm').
  by destruct (spec_ops m' ops).
Qed.

(** C6: two trees, each built by its own sequence of operations, have the same root hash if and
    only if they hold the same items; the hypotheses are that the hash has no collision
    among the encodings of the nodes of these two trees (and the leaves given for one key),
    and that transactions without metadata are filed under their hash. *)
Theorem root_hash_identifies `{Hash : Sha512} (isTransaction hasMeta : bool) (ops ops' : list shamap_op) (rs rs' : list bool) (root_ root_' : SHAMapNode) :
  Forall (λ op, 0 ≤ op_key op < 2 ^ 256) ops → Forall (λ op, 0 ≤ op_key op < 2 ^ 256) ops' →
  (∀ it, it ∈ given ops ++ given ops' → named (item_type isTransaction hasMeta) it) →
  leaves_distinct isTransaction hasMeta (given ops) → leaves_distinct isTransaction hasMeta (given ops') →
  run_ops isTransaction hasMeta empty_inner ops = Ret (rs, root_) →
  run_ops isTransaction hasMeta empty_inner ops' = Ret (rs', root_') →
  hash_faithful (encodings root_ ++ encodings root_') →
  node_hash root_ = node_hash root_' ↔ (spec_ops ∅ ops).2 = (spec_ops ∅ ops').2.
Proof.
  intros Ho Ho' Hn Hl Hl' Hr Hr' Hh.
  destruct (run_ops_correct isTransaction hasMeta ops (given ops) Ho Hl ∅) as [E _]; [done|done|done|].
  destruct (run_ops_correct isTransaction hasMeta ops' (given ops') Ho' Hl' ∅) as [E' _]; [done|done|done|].
  rewrite <- root_empty in E, E'. rewrite Hr in E. rewrite Hr' in E'. injection E as -> ->. injection E' as -> ->.
  split; [|by intros ->]. apply root_identify; [| |done]; (apply spec_ops_proper; [done| |done]); intros it Hit; apply Hn, elem_of_app; auto.
Qed.

(** A stand-in for the hash with values in the proper range. *)
Definition residue_hash : Sha512 := λ bs, 1 + of_be (1 :: bs) `mod` (2 ^ 255 - 19).

Definition test_history : list shamap_op :=
  [AddItem (mkItem (2 ^ 255) [1; 2]); AddItem (mkItem (2 ^ 255 + 2 ^ 250) [3]); AddItem (mkItem (2 ^ 252) [7])].

(** The same contents in another way. *)
Definition test_history' : list shamap_op :=
  [AddItem (mkItem (2 ^ 252) [7]); AddItem (mkItem 5 [5]); AddItem (mkItem (2 ^ 255 + 2 ^ 250) [4]); DelItem 5;
   AddItem (mkItem (2 ^ 255) [1; 2]); UpdateItem (mkItem (2 ^ 255 + 2 ^ 250) [3])].

Definition all_faithful (h : Sha512) (es : list (list Z)) : bool :=
  forallb (λ a, forallb (λ b, negb (h a =? h b) || bool_decide (a = b)) es && (0 <? h a) && (h a <? 2 ^ 256)) es.

Lemma all_faithful_sound h es : all_faithful h es = true → @hash_faithful h es.
Proof.
  unfold all_faithful. rewrite forallb_forall. intros H. split.
  - intros a b Ha%list_elem_of_In Hb%list_elem_of_In E. apply H in Ha. rewrite !andb_true_iff, forallb_forall in Ha.
    destruct Ha as [[Ha _] _]. specialize (Ha b Hb). unfold sha512Half in E. rewrite E, Z.eqb_refl in Ha. by apply bool_decide_eq_true in Ha.
  - intros a Ha%list_elem_of_In. apply H in Ha. rewrite !andb_true_iff, !Z.ltb_lt in Ha. by destruct Ha as [[_ Ha] Hb].
Qed.

(** Leaves whose encodings do not collide are distinct. *)
Lemma leaves_distinct_faithful h (isTransaction hasMeta : bool) l :
  forallb (λ a, forallb (λ b, negb (@leaf_hash h a (item_type isTransaction hasMeta) =? @leaf_hash h b (item_type isTransaction hasMeta)) || bool_decide (a = b)) l) l = true →
  @leaves_distinct h isTransaction hasMeta l.
Proof.
  rewrite forallb_forall. intros H a b Ha%list_elem_of_In Hb%list_elem_of_In _ E. apply H in Ha. rewrite forallb_forall in Ha.
  specialize (Ha b Hb). rewrite E, Z.eqb_refl in Ha. by apply bool_decide_eq_true in Ha.
Qed.

Lemma root_hash_identifies_witness :
  ∃ rs rs' root_ root_', @run_ops residue_hash false false empty_inner test_history = Ret (rs, root_) ∧
    @run_ops residue_hash false false empty_inner test_history' = Ret (rs', root_') ∧
    (@node_hash residue_hash root_ = @node_hash residue_hash root_' ↔ (spec_ops ∅ test_history).2 = (spec_ops ∅ test_history').2) ∧
    @node_hash residue_hash root_ = @node_hash residue_hash root_'.
Proof.
  destruct (@run_ops residue_hash false false empty_inner test_history) as [[rs root_]|] eqn:E; [|vm_compute in E; discriminate E].
  destruct (@run_ops residue_hash false false empty_inner test_history') as [[rs' root_']|] eqn:E'; [|vm_compute in E'; discriminate E'].
  exists rs, rs', root_, root_'. split; [reflexivity|]. split; [reflexivity|].
  pose proof E as F. vm_compute in F. injection F as <- <-. pose proof E' as F. vm_compute in F. injection F as <- <-. split.
  - eapply (@root_hash_identifies residue_hash false false test_history test_history').
    + unfold test_history. repeat (constructor; [cbn [op_key item_key]; lia|]). constructor.
    + unfold test_history'. repeat (constructor; [cbn [op_key item_key]; lia|]). constructor.
    + intros it _ HT. discriminate HT.
    + apply leaves_distinct_faithful. vm_compute. reflexivity.
    + apply leaves_distinct_faithful. vm_compute. reflexivity.
    + exact E.
    + exact E'.
    + apply all_faithful_sound. vm_compute. reflexivity.
  - vm_compute. reflexivity.
Defined.
