(* ===== verification/SHAMapOrder.v ===== *)
(** * The order of iteration

    An iterator of a [SHAMap] is an item with the stack of nodes that leads to it.  Starting
    at [begin] or [upper_bound] it visits the items in the increasing order of their
    keys, each one once. *)

From stdpp Require Import base numbers list gmap strings sorting.
From Stdlib Require Import Lia ZArith.
From S2P Require Import Prelude Serializer SField STObject Indexes STTx SHAMap SHAMapLaws.

Local Open Scope Z_scope.

Section Order.
Context (T : TNType).

(** ** Items in order *)

Fixpoint items (n : SHAMapNode) : list SHAMapItem :=
  match n with
  | TreeNode item _ => [item]
  | InnerNode cs => concat (map (λ c, match c with Some n => items n | None => [] end) cs)
  end.

Definition oitems (c : option SHAMapNode) : list SHAMapItem := match c with Some n => items n | None => [] end.

Definition row (cs : list (option SHAMapNode)) : list SHAMapItem := concat (map oitems cs).

Lemma items_inner cs : items (InnerNode cs) = row cs.
Proof. done. Qed.

Definition key_lt (a b : SHAMapItem) : Prop := item_key a < item_key b.

(** What a list of items holds. *)
Definition lists (l : list SHAMapItem) (m : smap) : Prop := ∀ it, it ∈ l ↔ m !! item_key it = Some (item_data it).

Lemma sorted_app (l l' : list SHAMapItem) : StronglySorted key_lt l → StronglySorted key_lt l' →
  (∀ a b, a ∈ l → b ∈ l' → key_lt a b) → StronglySorted key_lt (l ++ l').
Proof.
  intros H H' Hab. induction H as [|a l Hs IH Ha]; [done|]. cbn [app]. constructor.
  - apply IH. intros. apply Hab; [by right|done].
  - apply Forall_app. split; [done|]. apply Forall_forall. intros b Hb. apply Hab; [left|done].
Qed.

Lemma prefix_lt f a b : a / 16 ^ Z.of_nat (S f) = b / 16 ^ Z.of_nat (S f) → (nib f a < nib f b)%nat → a < b.
Proof.
  intros E Hn. assert (H : a / 16 ^ Z.of_nat f < b / 16 ^ Z.of_nat f) by (rewrite (key_level f a), (key_level f b), E; lia).
  destruct (Z.lt_ge_cases a b) as [|Hge]; [done|]. pose proof (Z.div_le_mono b a (16 ^ Z.of_nat f) ltac:(lia) ltac:(lia)). lia.
Qed.

Lemma lists_key l m it : lists l m → it ∈ l → m !! item_key it = Some (item_data it).
Proof. intros H. apply H. Qed.

(** The items of consecutive branches. *)
Lemma row_sorted f p m : under (S f) p m →
  (∀ i, (i < 16)%nat → StronglySorted key_lt (oitems (tree_of T f (part f i m))) ∧ lists (oitems (tree_of T f (part f i m))) (part f i m)) →
  ∀ n a, (a + n ≤ 16)%nat →
  let l := concat (map (λ i, oitems (tree_of T f (part f i m))) (seq a n)) in
  StronglySorted key_lt l ∧ (∀ it, it ∈ l ↔ m !! item_key it = Some (item_data it) ∧ (a ≤ nib f (item_key it) < a + n)%nat).
Proof.
  intros Hu Hi n. induction n as [|n IH]; intros a Ha; cbn [seq map concat].
  - split; [constructor|]. intros it. split; [by intros ?%not_elem_of_nil|lia].
  - destruct (Hi a ltac:(lia)) as [Hs Hl]. destruct (IH (S a) ltac:(lia)) as [Hs' Hl'].
    assert (Hhead : ∀ it, it ∈ oitems (tree_of T f (part f a m)) ↔ m !! item_key it = Some (item_data it) ∧ nib f (item_key it) = a).
    { intros it. rewrite (Hl it), part_lookup. case_decide; [split; [by split|by intros [? _]]|split; [done|by intros [_ ?]]]. }
    split.
    + apply sorted_app; [done|done|]. intros x y [Hx Hnx]%Hhead [Hy Hny]%Hl'.
      apply (prefix_lt f); [by rewrite (Hu _ _ Hx), (Hu _ _ Hy)|lia].
    + intros it. rewrite elem_of_app, Hhead, Hl'. split; [intros [[? ?]|[? ?]]; (split; [done|lia])|].
      intros [Hx Hn]. destruct (decide (nib f (item_key it) = a)); [by left|right; split; [done|lia]].
Qed.

Lemma children_sorted f p m : under (S f) p m →
  (∀ i, (i < 16)%nat → StronglySorted key_lt (oitems (tree_of T f (part f i m))) ∧ lists (oitems (tree_of T f (part f i m))) (part f i m)) →
  StronglySorted key_lt (row (children T f m)) ∧ lists (row (children T f m)) m.
Proof.
  intros Hu Hi. destruct (row_sorted f p m Hu Hi 16 0 ltac:(lia)) as [Hs Hl]. unfold row, children, branches. rewrite map_map.
  split; [done|]. intros it. rewrite Hl. pose proof (nib_lt f (item_key it)). split; [by intros [? _]|]. split; [done|lia].
Qed.

Lemma tree_sorted f : ∀ p m, under f p m → StronglySorted key_lt (oitems (tree_of T f m)) ∧ lists (oitems (tree_of T f m)) m.
Proof.
  induction f as [f IH] using lt_wf_ind. intros p m Hu. destruct (map_sizes m) as [->|[(k & v & ->)|Hm]].
  - rewrite tree_of_empty. split; [constructor|]. intros it. cbn [oitems]. by rewrite lookup_empty, elem_of_nil.
  - rewrite tree_of_one. split; [repeat constructor|]. intros [k' v']. cbn [oitems items item_key item_data].
    rewrite list_elem_of_singleton, lookup_singleton_Some. split; [by intros [= -> ->]|by intros [-> ->]].
  - pose proof (under_many _ _ _ Hu Hm). destruct f as [|f]; [lia|]. rewrite (tree_of_many T f m Hm). apply (children_sorted f p m Hu).
    intros i Hi. eapply (IH f); [lia|by apply part_under].
Qed.

Lemma inner_sorted f p m : under (S f) p m → StronglySorted key_lt (row (children T f m)) ∧ lists (row (children T f m)) m.
Proof. intros Hu. apply (children_sorted f p m Hu). intros i Hi. eapply tree_sorted. by apply part_under. Qed.

(** ** Stacks *)

(** A stack that leads to the node of the keys with prefix [p] at the level [f]. *)
Inductive path : nat → Z → Stack → Prop :=
| path_root : path 64 0 []
| path_step f p m nid st : (f ≤ 63)%nat → path (S f) (p / 16) st → under (S f) (p / 16) m → mDepth nid = (63 - f)%nat →
    path f p ((InnerNode (children T f m), nid) :: st).

(** The items to the right of a key, along a stack. *)
Fixpoint rest (st : Stack) (id : Z) : list SHAMapItem :=
  match st with
  | (InnerNode cs, nid) :: st => row (drop (S (selectBranch nid id)) cs) ++ rest st id
  | _ => []
  end.

Lemma level_up f k : k / 16 ^ Z.of_nat (S f) = k / 16 ^ Z.of_nat f / 16.
Proof. rewrite Nat2Z.inj_succ, Z.pow_succ_r, (Z.mul_comm 16), <- Z.div_div by lia. done. Qed.

Lemma nib_prefix f k k' : k / 16 ^ Z.of_nat f = k' / 16 ^ Z.of_nat f → nib f k = nib f k'.
Proof. unfold nib. by intros ->. Qed.

Lemma rest_prefix f p st : path f p st → ∀ k k', k / 16 ^ Z.of_nat f = p → k' / 16 ^ Z.of_nat f = p → rest st k = rest st k'.
Proof.
  induction 1 as [|f p m nid st Hf Hpath IH Hu Hd]; intros k k' Hk Hk'; [done|]. cbn [rest].
  rewrite !(selectBranch_nib f) by done. rewrite (nib_prefix f k k') by congruence. f_equal.
  apply IH; rewrite level_up; by f_equal.
Qed.

(** An iterator: the item, its leaf on the stack, and what follows. *)
Definition positioned (it : SHAMapItem) (st : Stack) (more : list SHAMapItem) : Prop :=
  ∃ f p nid st', st = (TreeNode it T, nid) :: st' ∧ path f p st' ∧ item_key it / 16 ^ Z.of_nat f = p ∧ rest st' (item_key it) = more.

Lemma row_drop cs i c : cs !! i = Some c → row (drop i cs) = oitems c ++ row (drop (S i) cs).
Proof. intros H. unfold row. by rewrite (drop_S _ _ _ H). Qed.

(** The first branch that is not empty has the first items. *)
Lemma next_branch_row cs a : length cs = 16%nat →
  match next_branch cs a with
  | None => row (drop a cs) = []
  | Some (i, n) => (a ≤ i < 16)%nat ∧ cs !! i = Some (Some n) ∧ row (drop a cs) = items n ++ row (drop (S i) cs)
  end.
Proof.
  intros Hlen. remember (16 - a)%nat as d eqn:Hd. revert a Hd. induction d as [|d IH]; intros a Hd.
  - unfold next_branch. rewrite !drop_ge by (try change (length branches) with 16%nat; lia). done.
  - assert (Hb : branches !! a = Some a) by (unfold branches; apply lookup_seq; lia).
    destruct (lookup_lt_is_Some_2 cs a) as [c Hc]; [lia|]. rewrite (row_drop cs a c Hc).
    specialize (IH (S a) ltac:(lia)). unfold next_branch in *. rewrite (drop_S _ _ _ Hb). cbn [omap list_omap].
    unfold getChild at 1. rewrite Hc. change (mjoin (Some c)) with c. destruct c as [n|]; cbn [mbind option_bind head oitems app].
    + split; [lia|]. done.
    + destruct (head _) as [[i n]|]; [|done]. destruct IH as (Hi & Hl & Hr). split; [lia|]. done.
Qed.

Lemma child_prefix f p m i k v : under (S f) p m → part f i m !! k = Some v → k / 16 ^ Z.of_nat f = 16 * p + Z.of_nat i ∧ nib f k = i.
Proof.
  intros Hu Hk. split; [by apply (part_under f p i m Hu k v)|]. rewrite part_lookup in Hk. by case_decide.
Qed.

Lemma child_up p i : (i < 16)%nat → (16 * p + Z.of_nat i) / 16 = p.
Proof. intros. symmetry. apply (Z.div_unique _ _ _ (Z.of_nat i)); lia. Qed.

(** Going down to the first leaf. *)
Lemma first_leaf_correct f : ∀ p m nid st fuel b, (f ≤ 63)%nat → (f < fuel)%nat → path (S f) p st → under (S f) p m →
  mDepth nid = (63 - f)%nat → m ≠ ∅ →
  ∃ it more st', first_leaf fuel (children T f m) ((InnerNode (children T f m), nid) :: st) b = Ret (Some it, st') ∧
    row (children T f m) = it :: more ∧ positioned it st' (more ++ rest st (item_key it)).
Proof.
  induction f as [f IH] using lt_wf_ind. intros p m nid st fuel b Hf Hfu Hpath Hu Hd Hne. destruct fuel as [|fuel]; [lia|].
  cbn [first_leaf]. pose proof (next_branch_row (children T f m) 0 (children_length T f m)) as Hnb. rewrite drop_0 in Hnb.
  destruct (next_branch _ _) as [[i n]|].
  2:{ exfalso. apply Hne, map_empty. intros k. apply eq_None_not_Some. intros [v Hk].
      destruct (inner_sorted f p m Hu) as [_ Hl]. apply (Hl (mkItem k v)) in Hk. rewrite Hnb in Hk. by apply not_elem_of_nil in Hk. }
  destruct Hnb as ([_ Hi] & Hc & Hrow). rewrite children_lookup in Hc by done. injection Hc as Hc.
  assert (Hpath' : path f (16 * p + Z.of_nat i) ((InnerNode (children T f m), nid) :: st)) by (constructor; rewrite ?child_up; done).
  destruct (map_sizes (part f i m)) as [E|[(k & v & E)|Hm]].
  - by rewrite E, tree_of_empty in Hc.
  - rewrite E, tree_of_one in Hc. injection Hc as <-. eexists (mkItem k v), _, _. split; [done|]. split; [exact Hrow|].
    assert (Hk : part f i m !! k = Some v) by (rewrite E; apply lookup_singleton_eq). destruct (child_prefix _ _ _ _ _ _ Hu Hk) as [Hp Hn].
    exists f, (16 * p + Z.of_nat i), (mkNodeID 64 k), ((InnerNode (children T f m), nid) :: st). repeat split; try done.
    cbn [rest item_key]. by rewrite (selectBranch_nib f), Hn.
  - pose proof (under_many _ _ _ (part_under _ _ i _ Hu) Hm). destruct f as [|f]; [lia|]. rewrite (tree_of_many T f _ Hm) in Hc. injection Hc as <-.
    destruct (IH f ltac:(lia) (16 * p + Z.of_nat i) (part (S f) i m) (getChildNodeID nid b) ((InnerNode (children T (S f) m), nid) :: st) fuel b)
      as (it & more & st' & Hfl & Hr & Hpos); [lia|lia|done|by apply part_under|cbn [getChildNodeID mDepth]; lia| |].
    { intros E. destruct Hm as (k & v & _ & _ & _ & Hk & _). by rewrite E in Hk. }
    exists it, (more ++ row (drop (S i) (children T (S f) m))), st'. split; [done|]. rewrite Hrow, items_inner, Hr. split; [done|].
    rewrite <- app_assoc. replace (row _ ++ rest st (item_key it)) with (rest ((InnerNode (children T (S f) m), nid) :: st) (item_key it)); [done|].
    cbn [rest]. rewrite (selectBranch_nib (S f)) by done. destruct (inner_sorted f (16 * p + Z.of_nat i) (part (S f) i m)) as [_ Hl]; [by apply part_under|].
    rewrite Hr in Hl. destruct (child_prefix _ _ _ _ _ _ Hu (proj1 (Hl it) (list_elem_of_here _ _))) as [_ ->]. done.
Qed.

Lemma firstBelow_correct f p m n x top st b : (f ≤ 63)%nat → path f p ((x, top) :: st) → under f p m → tree_of T f m = Some n →
  mDepth top = (63 - f)%nat →
  ∃ it more st', firstBelow n ((x, top) :: st) b = Ret (Some it, st') ∧ items n = it :: more ∧
    positioned it st' (more ++ rest ((x, top) :: st) (item_key it)).
Proof.
  intros Hf Hpath Hu Hn Hd. destruct (map_sizes m) as [->|[(k & v & ->)|Hm]].
  - by rewrite tree_of_empty in Hn.
  - rewrite tree_of_one in Hn. injection Hn as <-. eexists (mkItem k v), [], _. split; [done|]. split; [done|].
    exists f, p, (mkNodeID 64 k), ((x, top) :: st). repeat split; [done|]. apply (Hu k v), lookup_singleton_eq.
  - pose proof (under_many _ _ _ Hu Hm). destruct f as [|f]; [lia|]. rewrite (tree_of_many T f m Hm) in Hn. injection Hn as <-.
    cbn [firstBelow]. destruct (first_leaf_correct f p m (getChildNodeID top b) ((x, top) :: st) levels b) as (it & more & st' & E & Hr & Hpos);
      [lia|unfold levels; lia|done|done|cbn [getChildNodeID mDepth]; lia| |by exists it, more, st'].
    intros ->. by destruct Hm as (k & v & _ & _ & _ & Hk & _).
Qed.

Lemma next_up_correct f p st : path f p st → ∀ id, id / 16 ^ Z.of_nat f = p →
  match rest st id with
  | [] => next_up st id = Ret (None, [])
  | it :: more => ∃ st', next_up st id = Ret (Some it, st') ∧ positioned it st' more
  end.
Proof.
  induction 1 as [|f p m nid st Hf Hpath IH Hu Hd]; intros id Hid; [done|]. cbn [rest next_up]. rewrite !(selectBranch_nib f) by done.
  pose proof (next_branch_row (children T f m) (S (nib f id)) (children_length T f m)) as Hnb.
  destruct (next_branch _ _) as [[i n]|].
  - destruct Hnb as ([Hi1 Hi] & Hc & Hrow). rewrite children_lookup in Hc by done. injection Hc as Hc.
    destruct (firstBelow_correct f (16 * (p / 16) + Z.of_nat i) (part f i m) n (InnerNode (children T f m)) nid st i)
      as (it & more & st' & E & Hit & Hpos); [done|constructor; rewrite ?child_up; done|by apply part_under|done|done|].
    rewrite Hrow, Hit. cbn [app]. exists st'. rewrite E. split; [done|]. cbn [rest] in Hpos.
    destruct (tree_sorted f (16 * (p / 16) + Z.of_nat i) (part f i m)) as [_ Hl]; [by apply part_under|]. rewrite Hc in Hl. cbn [oitems] in Hl.
    rewrite Hit in Hl. destruct (child_prefix _ _ _ _ _ _ Hu (proj1 (Hl it) (list_elem_of_here _ _))) as [Hp Hn].
    rewrite (selectBranch_nib f), Hn, (rest_prefix (S f) (p / 16) st Hpath (item_key it) id), app_assoc in Hpos; try done.
    + rewrite level_up, Hp. by apply child_up.
    + rewrite level_up. by f_equal.
  - rewrite Hnb. cbn [app]. apply IH. rewrite level_up. by f_equal.
Qed.

Lemma iterate_correct more : ∀ it st fuel, (length more < fuel)%nat → positioned it st more → iterate fuel (Some it) st = Ret (it :: more).
Proof.
  induction more as [|it' more IH]; intros it st [|fuel] Hf Hpos; cbn [length] in Hf; try lia;
    destruct Hpos as (f & p & nid & st' & -> & Hpath & Hk & Hr); cbn [iterate peekNextItem];
    pose proof (next_up_correct f p st' Hpath (item_key it) Hk) as Hn; rewrite Hr in Hn.
  - rewrite Hn. by destruct fuel.
  - destruct Hn as (st1 & -> & Hpos'). cbn [mbind outcome_bind]. by rewrite (IH it' st1 fuel) by (done || lia).
Qed.

(** ** Upper bounds *)

Definition above (id : Z) (l : list SHAMapItem) : list SHAMapItem := filter (λ it, id < item_key it) l.

Lemma above_app id l l' : above id (l ++ l') = above id l ++ above id l'.
Proof. apply filter_app. Qed.

Lemma above_all id l : (∀ it, it ∈ l → id < item_key it) → above id l = l.
Proof.
  induction l as [|it l IH]; intros H; [done|]. unfold above in *. rewrite filter_cons, decide_True by (apply H; left).
  f_equal. apply IH. intros. apply H. by right.
Qed.

Lemma above_none id l : (∀ it, it ∈ l → item_key it ≤ id) → above id l = [].
Proof.
  induction l as [|it l IH]; intros H; [done|]. unfold above in *. rewrite filter_cons, decide_False.
  - apply IH. intros. apply H. by right.
  - apply Z.le_ngt, H. left.
Qed.

(** What a stack that a walk for a key has left stands for. *)
Definition after (st : Stack) (id : Z) : list SHAMapItem :=
  match st with
  | (TreeNode it _, _) :: st => (if id <? item_key it then [it] else []) ++ rest st id
  | _ => rest st id
  end.

(** The stack of a walk for a key. *)
Inductive walked (id : Z) : Stack → Prop :=
| walked_leaf f p it nid st : path f p st → id / 16 ^ Z.of_nat f = p → item_key it / 16 ^ Z.of_nat f = p → walked id ((TreeNode it T, nid) :: st)
| walked_inner f p x nid st : path f p ((InnerNode x, nid) :: st) → id / 16 ^ Z.of_nat f = p → walked id ((InnerNode x, nid) :: st).

Lemma row_elem cs it : it ∈ row cs → ∃ i c, cs !! i = Some c ∧ it ∈ oitems c.
Proof.
  intros Hit. apply list_elem_of_In, in_concat in Hit as (l & Hl & Hit). apply in_map_iff in Hl as (c & <- & Hc).
  apply list_elem_of_In, list_elem_of_lookup in Hc as [i Hi]. exists i, c. split; [done|]. by apply list_elem_of_In.
Qed.

Lemma row_above f p m id : under (S f) p m → id / 16 ^ Z.of_nat (S f) = p →
  above id (row (children T f m)) =
  above id (oitems (tree_of T f (part f (nib f id) m))) ++ row (drop (S (nib f id)) (children T f m)).
Proof.
  intros Hu Hid. pose proof (nib_lt f id) as Hb.
  assert (Hin : ∀ i it c, children T f m !! i = Some c → it ∈ oitems c → item_key it / 16 ^ Z.of_nat (S f) = p ∧ nib f (item_key it) = i).
  { intros i it c Hc Hit. pose proof (lookup_lt_Some _ _ _ Hc) as Hi. rewrite children_length in Hi.
    rewrite children_lookup in Hc by done. injection Hc as <-.
    destruct (tree_sorted f (16 * p + Z.of_nat i) (part f i m)) as [_ Hl]; [by apply part_under|].
    apply Hl in Hit. destruct (child_prefix _ _ _ _ _ _ Hu Hit) as [Hp Hn]. split; [|done]. rewrite level_up, Hp. by apply child_up. }
  assert (Hsplit : row (children T f m) = row (take (nib f id) (children T f m)) ++ row (drop (nib f id) (children T f m))).
  { unfold row. by rewrite <- concat_app, <- map_app, take_drop. }
  rewrite Hsplit, (row_drop _ _ _ (children_lookup T f m (nib f id) Hb)), !above_app.
  rewrite (above_none id (row (take _ _))), (above_all id (row (drop _ _))); [done|..].
  - intros it (i & c & Hc & Hit)%row_elem. rewrite lookup_drop in Hc. destruct (Hin _ _ _ Hc Hit) as [Hp Hn].
    apply (prefix_lt f); [congruence|lia].
  - intros it (i & c & Hc & Hit)%row_elem. pose proof (lookup_lt_Some _ _ _ Hc) as Hi. rewrite length_take in Hi.
    rewrite lookup_take_lt in Hc by lia. destruct (Hin _ _ _ Hc Hit) as [Hp Hn].
    apply Z.lt_le_incl, (prefix_lt f); [congruence|lia].
Qed.

Lemma walk_after f : ∀ m p id nid st fuel, (f ≤ 63)%nat → (f < fuel)%nat → path (S f) p st → mDepth nid = (63 - f)%nat →
  under (S f) p m → id / 16 ^ Z.of_nat (S f) = p →
  ∃ st' leaf, walk fuel id (InnerNode (children T f m)) nid st = Ret (st', leaf) ∧ walked id st' ∧
    after st' id = above id (row (children T f m)) ++ rest st id.
Proof.
  induction f as [f IH] using lt_wf_ind. intros m p id nid st [|fuel] Hf Hfu Hpath Hd Hu Hid; [lia|].
  rewrite walk_children by done. rewrite (row_above f p m id Hu Hid).
  assert (Hpath' : path f (id / 16 ^ Z.of_nat f) ((InnerNode (children T f m), nid) :: st)) by (constructor; rewrite <- ?level_up, ?Hid; done).
  assert (Hrest : rest ((InnerNode (children T f m), nid) :: st) id = row (drop (S (nib f id)) (children T f m)) ++ rest st id).
  { cbn [rest]. by rewrite (selectBranch_nib f) by done. }
  rewrite <- app_assoc, <- Hrest. clear Hrest.
  destruct (child_cases T f p m id Hu) as [E|[(k' & v' & E & Hk' & Hn)|(f' & -> & Hm & E)]].
  - rewrite E, tree_of_empty. eexists _, _. split; [done|]. split; [by eapply walked_inner|done].
  - rewrite E, tree_of_one. destruct fuel; (eexists _, _; split; [done|]);
      (split; [eapply walked_leaf; [exact Hpath'|done|]; cbn [item_key]; by rewrite (key_level f k'), (key_level f id), (Hu _ _ Hk'), Hid, Hn|]);
      cbn [after oitems items]; f_equal; unfold above; rewrite filter_cons, filter_nil; case_decide as Hlt; cbn [item_key] in *;
      [by rewrite (proj2 (Z.ltb_lt _ _) Hlt)|by rewrite (proj2 (Z.ltb_nlt _ _) Hlt)|by rewrite (proj2 (Z.ltb_lt _ _) Hlt)|by rewrite (proj2 (Z.ltb_nlt _ _) Hlt)].
  - rewrite E. cbn [oitems]. rewrite items_inner. eapply (IH f'); [lia|lia|lia|exact Hpath'|cbn [getChildNodeID mDepth]; lia| |done].
    intros k v Hk. rewrite part_lookup in Hk. case_decide as Hn; [|done]. by rewrite (key_level (S f') k), (key_level (S f') id), (Hu _ _ Hk), Hid, Hn.
Qed.

Lemma upper_bound_correct m id : uint256_keys m → 0 ≤ id < 2 ^ 256 →
  match above id (items (root_of T m)) with
  | [] => upper_bound (root_of T m) id = Ret (None, [])
  | it :: more => ∃ st, upper_bound (root_of T m) id = Ret (Some it, st) ∧ positioned it st more
  end.
Proof.
  intros Hm Hid. pose proof (keys_under m Hm) as Hu. unfold upper_bound, walkTowardsKey, root_of. rewrite items_inner.
  destruct (walk_after 63 m 0 id root_id [] levels) as (st' & leaf & -> & Hw & Ha); [lia|unfold levels; lia|constructor|done|done|by apply key_top|].
  rewrite app_nil_r in Ha. rewrite <- Ha. cbn [mbind outcome_bind]. destruct Hw as [f p it nid st Hp Hk Hit|f p x nid st Hp Hk]; cbn [after].
  - pose proof (next_up_correct f p st Hp id Hk) as Hn. destruct (Z.ltb_spec id (item_key it)) as [Hlt|Hge]; cbn [app].
    + eexists. split; [done|]. exists f, p, nid, st. repeat split; [done|done|]. by apply (rest_prefix f p).
    + done.
  - by apply (next_up_correct f p).
Qed.

Lemma first_correct m : uint256_keys m →
  match items (root_of T m) with
  | [] => peekFirstItem (root_of T m) = Ret (None, [])
  | it :: more => ∃ st, peekFirstItem (root_of T m) = Ret (Some it, st) ∧ positioned it st more
  end.
Proof.
  intros Hm. pose proof (keys_under m Hm) as Hu. unfold peekFirstItem, root_of. cbn [firstBelow]. rewrite items_inner.
  destruct (decide (m = ∅)) as [->|Hne]; [done|].
  destruct (first_leaf_correct 63 0 m root_id [] levels 0) as (it & more & st' & -> & Hr & Hpos); [lia|unfold levels; lia|constructor|done|done|done|].
  rewrite Hr. cbn [mbind outcome_bind]. exists st'. cbn [rest] in Hpos. by rewrite app_nil_r in Hpos.
Qed.

Lemma items_nodup l : StronglySorted key_lt l → NoDup l.
Proof.
  induction 1 as [|a l Hs IH Ha]; constructor; [|done]. intros Hin. rewrite Forall_forall in Ha. specialize (Ha a Hin). unfold key_lt in Ha. lia.
Qed.

Lemma items_size m : uint256_keys m → length (items (root_of T m)) = size m.
Proof.
  intros Hm. destruct (inner_sorted 63 0 m (keys_under m Hm)) as [Hs Hl]. unfold root_of. rewrite items_inner.
  rewrite <- length_map_to_list, <- (length_map item_of (map_to_list m)). apply Permutation_length, NoDup_Permutation; [by apply items_nodup| |].
  - apply (NoDup_fmap_2_strong item_of); [|apply NoDup_map_to_list]. intros [k v] [k' v'] _ _ [= -> ->]. done.
  - intros [k v]. rewrite (Hl _). cbn [item_key item_data]. split.
    + intros H. apply (list_elem_of_fmap_2' item_of _ (k, v)); [by apply elem_of_map_to_list|done].
    + intros ([k' v'] & [= -> ->] & H%elem_of_map_to_list)%list_elem_of_fmap. done.
Qed.
End Order.

(** C26: a loop over the tree of a map ends after one step for each item, and visits exactly the
    items of the map in the strictly increasing order of their keys; from [upper_bound]
    of a key it visits exactly those with a greater key. *)
Theorem shamap_iterates (T : TNType) (m : smap) : uint256_keys m →
  ∃ l, visit_items (size m) (root_of T m) = Ret l ∧ StronglySorted key_lt l ∧ lists l m ∧
    ∀ id, 0 ≤ id < 2 ^ 256 → ∃ it st, upper_bound (root_of T m) id = Ret (it, st) ∧ it = head (above id l) ∧
      iterate (size m) it st = Ret (above id l).
Proof.
  intros Hm. exists (items (root_of T m)). pose proof (first_correct T m Hm) as Hf. pose proof (items_size T m Hm) as Hsz.
  destruct (inner_sorted T 63 0 m (keys_under m Hm)) as [Hs Hl]. split; [|split; [done|split; [done|]]].
  - unfold visit_items. destruct (items (root_of T m)) as [|it more]; [rewrite Hf; by destruct (size m)|].
    destruct Hf as (st & -> & Hpos). cbn [mbind outcome_bind]. apply (iterate_correct T); [cbn [length] in Hsz; lia|done].
  - intros id Hid. pose proof (upper_bound_correct T m id Hm Hid) as Hub.
    assert (Hlen : (length (above id (items (root_of T m))) ≤ size m)%nat) by (rewrite <- Hsz; apply length_filter).
    destruct (above id (items (root_of T m))) as [|it more]; [exists None, []; split; [done|]; split; [done|by destruct (size m)]|].
    destruct Hub as (st & E & Hpos). exists (Some it), st. split; [done|]. split; [done|]. apply (iterate_correct T); [cbn [length] in Hlen; lia|done].
Qed.

Lemma shamap_iterates_witness :
  let m := (spec_ops ∅ test_ops).2 in
  (∃ l, visit_items (size m) (root_of tnACCOUNT_STATE m) = Ret l ∧ StronglySorted key_lt l ∧ lists l m ∧
    ∀ id, 0 ≤ id < 2 ^ 256 → ∃ it st, upper_bound (root_of tnACCOUNT_STATE m) id = Ret (it, st) ∧ it = head (above id l) ∧
      iterate (size m) it st = Ret (above id l)) ∧
  visit_items (size m) (root_of tnACCOUNT_STATE m) = Ret [mkItem 0x12346 [4; 5]; mkItem (2 ^ 255) []].
Proof.
  split; [|vm_compute; reflexivity]. apply (shamap_iterates tnACCOUNT_STATE).
  apply (bool_decide_unpack _). vm_compute. exact I.
Defined.
