(* ===== verification/SHAMapDelta.v ===== *)
(** * The differences between two trees

    Model of [SHAMap::compare] and [SHAMap::walkBranch] of
    [src/src/ripple/shamap/impl/SHAMapDelta.cpp], which find the items in which two trees differ
    and skip the branches with equal hashes.  The result is exact, up to the number of
    differences that was asked for. *)

From stdpp Require Import base numbers list gmap strings.
From Stdlib Require Import Lia ZArith.
From S2P Require Import Prelude Serializer SField STObject Indexes STTx SHAMap SHAMapLaws SHAMapHash SHAMapOrder.

Local Open Scope Z_scope.

(** An item of the one map and of the other. *)
Definition DeltaItem : Type := option SHAMapItem * option SHAMapItem.
Abbreviation Delta := (gmap Z DeltaItem).

(** The differences that have been found and [maxCount]. *)
Definition DeltaState : Type := Delta * Z.

(** [differences.insert] of a pair and [--maxCount <= 0]; whether to go on. *)
Definition note (k : Z) (x : DeltaItem) (s : DeltaState) : bool * DeltaState :=
  let '(differences, maxCount) := s in
  let differences := match differences !! k with Some _ => differences | None => <[k := x]> differences end in
  (negb (maxCount - 1 <=? 0), (differences, maxCount - 1)).

(** The item of the map that is walked comes first if that is the first map. *)
Definition delta_ref (isFirstMap : bool) (item other : option SHAMapItem) : DeltaItem :=
  if isFirstMap then (item, other) else (other, item).

(** The loop of [walkBranch]: whether it goes on, [emptyBranch] and the state. *)
Fixpoint walk_stack (fuel : nat) (otherMapItem : option SHAMapItem) (isFirstMap emptyBranch : bool)
    (nodeStack : list SHAMapNode) (s : DeltaState) : outcome (bool * bool * DeltaState) :=
  match nodeStack with
  | [] => Ret (true, emptyBranch, s)
  | node :: nodeStack =>
    match fuel with
    | O => Throw out_of_levels
    | S fuel =>
      match node with
      | InnerNode cs => walk_stack fuel otherMapItem isFirstMap emptyBranch (reverse (omap (getChild cs) branches) ++ nodeStack) s
      | TreeNode item _ =>
        match (if emptyBranch then None else otherMapItem) with
        | Some other =>
          if item_key item =? item_key other then
            if bool_decide (item_data item = item_data other) then
              walk_stack fuel otherMapItem isFirstMap true nodeStack s
            else
              let '(go, s) := note (item_key item) (delta_ref isFirstMap (Some item) (Some other)) s in
              if go then walk_stack fuel otherMapItem isFirstMap true nodeStack s else Ret (false, true, s)
          else
            let '(go, s) := note (item_key item) (delta_ref isFirstMap (Some item) None) s in
            if go then walk_stack fuel otherMapItem isFirstMap emptyBranch nodeStack s else Ret (false, emptyBranch, s)
        | None =>
          let '(go, s) := note (item_key item) (delta_ref isFirstMap (Some item) None) s in
          if go then walk_stack fuel otherMapItem isFirstMap emptyBranch nodeStack s else Ret (false, emptyBranch, s)
        end
      end
    end
  end.

Definition walkBranch (fuel : nat) (node : SHAMapNode) (otherMapItem : option SHAMapItem) (isFirstMap : bool) (s : DeltaState) :
    outcome (bool * DeltaState) :=
  '(go, emptyBranch, s) ← walk_stack fuel otherMapItem isFirstMap (negb (bool_decide (is_Some otherMapItem))) [node] s;
  if negb go then Ret (false, s)
  else match (if (emptyBranch : bool) then None else otherMapItem) with
       | Some other => Ret (note (item_key other) (delta_ref isFirstMap None (Some other)) s)
       | None => Ret (true, s)
       end.

Section Compare.
Context `{Hash : Sha512}.

Definition getChildHash (cs : list (option SHAMapNode)) (m : nat) : Z :=
  match getChild cs m with Some n => node_hash n | None => 0 end.

(** The loop over the branches of two inner nodes: pairs for the stack are collected. *)
Fixpoint compare_branches (fuel : nat) (ours other : list (option SHAMapNode)) (bs : list nat)
    (nodeStack : list (SHAMapNode * SHAMapNode)) (s : DeltaState) : outcome (bool * list (SHAMapNode * SHAMapNode) * DeltaState) :=
  match bs with
  | [] => Ret (true, nodeStack, s)
  | i :: bs =>
    if getChildHash ours i =? getChildHash other i then compare_branches fuel ours other bs nodeStack s
    else
      match getChild ours i, getChild other i with
      | Some iNode, None =>
        '(go, s) ← walkBranch fuel iNode None true s;
        if negb go then Ret (false, nodeStack, s) else compare_branches fuel ours other bs nodeStack s
      | None, Some iNode =>
        '(go, s) ← walkBranch fuel iNode None false s;
        if negb go then Ret (false, nodeStack, s) else compare_branches fuel ours other bs nodeStack s
      | Some a, Some b => compare_branches fuel ours other bs ((a, b) :: nodeStack) s
      | None, None => Throw (runtime_error "missing node")
      end
  end.

Fixpoint compare_stack (fuel wfuel : nat) (nodeStack : list (SHAMapNode * SHAMapNode)) (s : DeltaState) : outcome (bool * DeltaState) :=
  match nodeStack with
  | [] => Ret (true, s)
  | (ourNode, otherNode) :: nodeStack =>
    match fuel with
    | O => Throw out_of_levels
    | S fuel =>
      match ourNode, otherNode with
      | TreeNode ours _, TreeNode other _ =>
        if item_key ours =? item_key other then
          if bool_decide (item_data ours = item_data other) then compare_stack fuel wfuel nodeStack s
          else
            let '(go, s) := note (item_key ours) (Some ours, Some other) s in
            if go then compare_stack fuel wfuel nodeStack s else Ret (false, s)
        else
          let '(go, s) := note (item_key ours) (Some ours, None) s in
          if negb go then Ret (false, s)
          else
            let '(go, s) := note (item_key other) (None, Some other) s in
            if go then compare_stack fuel wfuel nodeStack s else Ret (false, s)
      | InnerNode _, TreeNode other _ =>
        '(go, s) ← walkBranch wfuel ourNode (Some other) true s;
        if (go : bool) then compare_stack fuel wfuel nodeStack s else Ret (false, s)
      | TreeNode ours _, InnerNode _ =>
        '(go, s) ← walkBranch wfuel otherNode (Some ours) false s;
        if (go : bool) then compare_stack fuel wfuel nodeStack s else Ret (false, s)
      | InnerNode ours, InnerNode other =>
        '(go, nodeStack, s) ← compare_branches wfuel ours other branches nodeStack s;
        if (go : bool) then compare_stack fuel wfuel nodeStack s else Ret (false, s)
      end
    end
  end.

Definition compare (fuel : nat) (root_ otherRoot : SHAMapNode) (maxCount : Z) : outcome (bool * Delta) :=
  if node_hash root_ =? node_hash otherRoot then Ret (true, ∅)
  else '(ok, s) ← compare_stack fuel fuel [(root_, otherRoot)] (∅, maxCount); Ret (ok, s.1).
End Compare.

(** ** What two maps differ in *)

Definition differ (first : bool) (m m' : smap) : Delta :=
  map_imap (λ k (x : option (list Z) * option (list Z)), Some (delta_ref first (mkItem k <$> x.1) (mkItem k <$> x.2)))
    (merge (λ a b, if decide (a = b) then None else Some (a, b)) m m').

Lemma differ_lookup first m m' k :
  differ first m m' !! k = if decide (m !! k = m' !! k) then None else Some (delta_ref first (mkItem k <$> m !! k) (mkItem k <$> m' !! k)).
Proof. unfold differ. rewrite map_lookup_imap, lookup_merge. destruct (m !! k), (m' !! k); cbn [diag_None]; by case_decide. Qed.

Lemma differ_swap m m' : differ false m m' = differ true m' m.
Proof. apply map_eq. intros k. rewrite !differ_lookup. by case_decide; case_decide. Qed.

(** ** Sequences of differences

    A walk notes one difference after the other, and stops when there are enough. *)

Fixpoint emit (l : list (Z * DeltaItem)) (s : DeltaState) : bool * DeltaState :=
  match l with
  | [] => (true, s)
  | (k, x) :: l => let '(go, s) := note k x s in if go then emit l s else (false, s)
  end.

Lemma emit_app l l' s : emit (l ++ l') s = let '(go, s) := emit l s in if go then emit l' s else (false, s).
Proof. revert s. induction l as [|[k x] l IH]; intros s; [done|]. cbn [app emit]. destruct (note k x s) as [[] s']; [apply IH|done]. Qed.

(** A list that has the differences, each key once. *)
Definition describes (l : list (Z * DeltaItem)) (d : Delta) : Prop :=
  NoDup l.*1 ∧ ∀ k x, (k, x) ∈ l ↔ d !! k = Some x.

Lemma describes_nil : describes [] ∅.
Proof. split; [constructor|]. intros k x. by rewrite elem_of_nil, lookup_empty. Qed.

Lemma describes_cons k x l d : describes l d → d !! k = None → describes ((k, x) :: l) (<[k := x]> d).
Proof.
  intros [Hn Hl] Hk. split.
  - cbn [fmap list_fmap]. constructor; [|done]. intros ([k' x'] & Hx & Hin)%list_elem_of_fmap. cbn in Hx. subst k'.
    apply Hl in Hin. congruence.
  - intros k' x'. rewrite elem_of_cons, Hl, lookup_insert_Some. split.
    + intros [[= -> ->]|H]; [by left|]. right. split; [congruence|done].
    + intros [[-> ->]|[_ H]]; auto.
Qed.

Lemma describes_app l l' d d' : describes l d → describes l' d' → d ##ₘ d' → describes (l ++ l') (d ∪ d').
Proof.
  intros [Hn Hl] [Hn' Hl'] Hd. split.
  - rewrite fmap_app. apply NoDup_app. split; [done|]. split; [|done].
    intros k ([k1 x1] & -> & H1)%list_elem_of_fmap ([k2 x2] & E & H2)%list_elem_of_fmap. cbn in E. subst k2.
    apply Hl in H1. apply Hl' in H2. by eapply map_disjoint_spec.
  - intros k x. rewrite elem_of_app, Hl, Hl'. by rewrite lookup_union_Some.
Qed.

(** ** Walking one tree *)

(** The leaves in the order of the walk. *)
Fixpoint trav (n : SHAMapNode) : list SHAMapItem :=
  match n with
  | TreeNode item _ => [item]
  | InnerNode cs => concat (reverse (map (λ c, match c with Some n => trav n | None => [] end) cs))
  end.

Definition otrav (c : option SHAMapNode) : list SHAMapItem := match c with Some n => trav n | None => [] end.

Fixpoint nodes (n : SHAMapNode) : nat :=
  match n with
  | TreeNode _ _ => 1
  | InnerNode cs => S (sum_list (map (λ c, match c with Some n => nodes n | None => O end) cs))
  end.

Definition onodes (c : option SHAMapNode) : nat := match c with Some n => nodes n | None => O end.

Definition full_list (cs : list (option SHAMapNode)) : list SHAMapNode := omap id cs.

Lemma below_full cs : length cs = 16%nat → omap (getChild cs) branches = full_list cs.
Proof. intros H. do 16 (destruct cs as [|? cs]; [done|]). by destruct cs. Qed.

Lemma trav_full cs : concat (map trav (reverse (full_list cs))) = concat (reverse (map otrav cs)).
Proof.
  induction cs as [|c cs IH]; [done|]. cbn [map]. rewrite reverse_cons, concat_app, <- IH. unfold full_list. cbn [omap list_omap].
  destruct c as [n|]; cbn [id otrav concat].
  - by rewrite reverse_cons, map_app, concat_app.
  - by rewrite app_nil_r.
Qed.

Lemma nodes_full cs : sum_list (map nodes (full_list cs)) = sum_list (map onodes cs).
Proof. induction cs as [|[n|] cs IH]; [done|..]; unfold full_list in *; cbn [omap list_omap id map sum_list onodes] in *; by rewrite IH. Qed.

(** What the walk notes. *)
Fixpoint walk_list (first : bool) (o : option SHAMapItem) (l : list SHAMapItem) : list (Z * DeltaItem) :=
  match l with
  | [] => match o with Some ot => [(item_key ot, delta_ref first None (Some ot))] | None => [] end
  | it :: l =>
    match o with
    | Some ot =>
      if item_key it =? item_key ot then
        (if bool_decide (item_data it = item_data ot) then [] else [(item_key it, delta_ref first (Some it) (Some ot))]) ++ walk_list first None l
      else (item_key it, delta_ref first (Some it) None) :: walk_list first o l
    | None => (item_key it, delta_ref first (Some it) None) :: walk_list first None l
    end
  end.

(** Inner nodes have sixteen branches. *)
Inductive shaped : SHAMapNode → Prop :=
| shaped_leaf item type : shaped (TreeNode item type)
| shaped_inner cs : length cs = 16%nat → (∀ n, Some n ∈ cs → shaped n) → shaped (InnerNode cs).

Definition finish (first : bool) (o : option SHAMapItem) (r : bool * bool * DeltaState) : outcome (bool * DeltaState) :=
  let '(go, emptyBranch, s) := r in
  if negb go then Ret (false, s)
  else match (if (emptyBranch : bool) then None else o) with
       | Some other => Ret (note (item_key other) (delta_ref first None (Some other)) s)
       | None => Ret (true, s)
       end.

Lemma nodes_app l l' : sum_list (map nodes (l ++ l')) = (sum_list (map nodes l) + sum_list (map nodes l'))%nat.
Proof. induction l as [|a l IH]; [done|]. cbn [app map sum_list]. rewrite IH. lia. Qed.

Lemma nodes_rev l : sum_list (map nodes (reverse l)) = sum_list (map nodes l).
Proof. induction l as [|a l IH]; [done|]. rewrite reverse_cons, nodes_app, IH. cbn [map sum_list]. lia. Qed.

Lemma nodes_inner cs : nodes (InnerNode cs) = S (sum_list (map onodes cs)).
Proof. done. Qed.

Lemma walk_stack_list fuel first o : ∀ sts e s, Forall shaped sts → (sum_list (map nodes sts) ≤ fuel)%nat →
  (r ← walk_stack fuel o first e sts s; finish first o r) =
  Ret (emit (walk_list first (if e then None else o) (concat (map trav sts))) s).
Proof.
  induction fuel as [|fuel IH]; intros [|n sts] e s Hsh Hf.
  1,3: cbn; destruct e, o as [ot|]; cbn; try done; by destruct (note _ _ s) as [[] s'].
  - destruct n; cbn in Hf; lia.
  - apply Forall_cons in Hsh as [Hn Hsts]. cbn [walk_stack]. destruct n as [it ty|cs].
    + cbn [map trav concat app sum_list] in *. assert (Hf' : (sum_list (map nodes sts) ≤ fuel)%nat) by (cbn in Hf; lia).
      destruct (if e then None else o) as [ot|] eqn:E; cbn [walk_list].
      * destruct e; [done|]. subst o. destruct (Z.eqb_spec (item_key it) (item_key ot)); [case_bool_decide|].
        -- by rewrite (IH sts true s Hsts Hf').
        -- cbn [app emit]. destruct (note _ _ s) as [[] s']; [by rewrite (IH sts true s' Hsts Hf')|done].
        -- cbn [emit]. destruct (note _ _ s) as [[] s']; [by rewrite (IH sts false s' Hsts Hf')|done].
      * cbn [emit]. destruct (note _ _ s) as [[] s']; [by rewrite (IH sts e s' Hsts Hf'), E|done].
    + inversion Hn as [|? Hlen Hcs]; subst. rewrite below_full by done. rewrite IH.
      * by rewrite map_app, concat_app, trav_full.
      * apply Forall_app. split; [|done]. apply Forall_forall. intros n (c & Hc & E)%elem_of_reverse%list_elem_of_omap.
        cbn in E. subst c. by apply Hcs.
      * rewrite nodes_app, nodes_rev, nodes_full. change (nodes (InnerNode cs) + sum_list (map nodes sts) ≤ S fuel)%nat in Hf. rewrite nodes_inner in Hf. lia.
Qed.

Lemma walkBranch_list fuel first o n s : shaped n → (nodes n ≤ fuel)%nat →
  walkBranch fuel n o first s = Ret (emit (walk_list first o (trav n)) s).
Proof.
  intros Hn Hf. pose proof (walk_stack_list fuel first o [n] (negb (bool_decide (is_Some o))) s) as H.
  cbn [map concat] in H. rewrite app_nil_r in H. unfold walkBranch. fold (finish first o). etransitivity; [|etransitivity; [apply H|]].
  - done.
  - by constructor.
  - cbn. lia.
  - by destruct o.
Qed.

Lemma concat_rev {A} (l : list (list A)) : concat (reverse l) ≡ₚ concat l.
Proof.
  induction l as [|a l IH]; [done|]. rewrite reverse_cons, concat_app. cbn [concat]. rewrite app_nil_r, IH. apply Permutation_app_comm.
Qed.

Lemma trav_items n : shaped n → trav n ≡ₚ items n.
Proof.
  induction 1 as [|cs Hlen Hcs IH]; [done|]. change (concat (reverse (map otrav cs)) ≡ₚ concat (map oitems cs)).
  rewrite concat_rev. clear Hlen Hcs. induction cs as [|c cs IHcs]; [done|]. cbn [map concat]. rewrite IHcs; [|intros; apply IH; by right].
  destruct c as [n|]; [|done]. cbn [otrav oitems]. rewrite (IH n); [done|left].
Qed.

Section Correct.
Context (T : TNType).

Lemma children_shaped f m : (∀ m n, tree_of T f m = Some n → shaped n) → shaped (InnerNode (children T f m)).
Proof.
  intros H. constructor; [done|]. intros n [i Hi]%list_elem_of_lookup. pose proof (lookup_lt_Some _ _ _ Hi) as Hlt.
  rewrite children_length in Hlt. rewrite children_lookup in Hi by done. injection Hi as Hi. by eapply H.
Qed.

Lemma tree_shaped f : ∀ m n, tree_of T f m = Some n → shaped n.
Proof.
  induction f as [|f IH]; intros m n; cbn [tree_of]; destruct (map_to_list m) as [|? [|? ?]]; intros H; try done;
    injection H as <-; first [by apply (children_shaped f m) | constructor].
Qed.

Lemma root_shaped m : shaped (root_of T m).
Proof. apply children_shaped, tree_shaped. Qed.

Definition single (o : option SHAMapItem) : smap := match o with Some it => {[item_key it := item_data it]} | None => ∅ end.

Lemma lists_cons it l m : NoDup (map item_key (it :: l)) → lists (it :: l) m →
  m !! item_key it = Some (item_data it) ∧ lists l (delete (item_key it) m) ∧ NoDup (map item_key l).
Proof.
  intros [Hn Hnd]%NoDup_cons Hl. split; [apply Hl; left|]. split; [|done]. intros x. rewrite lookup_delete_Some, <- (Hl x). split.
  - intros Hx. split; [|by right]. intros E. apply Hn. rewrite E. by apply list_elem_of_fmap_2.
  - intros [Hne Hx]. apply elem_of_cons in Hx as [->|Hx]; done.
Qed.

(** A key that only the walked map has. *)
Lemma differ_own first m m' k v : m !! k = Some v → m' !! k = None →
  differ first m m' = <[k := delta_ref first (Some (mkItem k v)) None]> (differ first (delete k m) m') ∧ differ first (delete k m) m' !! k = None.
Proof.
  intros Hk Hk'. split; [apply map_eq; intros x|].
  - destruct (decide (k = x)) as [<-|Hne].
    + rewrite lookup_insert_eq, differ_lookup, Hk, Hk'. by case_decide.
    + rewrite lookup_insert_ne, !differ_lookup, lookup_delete_ne by done. done.
  - rewrite differ_lookup, lookup_delete_eq, Hk'. by case_decide.
Qed.

(** A key that both maps have. *)
Lemma differ_both first m k v v' : m !! k = Some v →
  differ first m {[k := v']} = if decide (v = v') then differ first (delete k m) ∅
    else <[k := delta_ref first (Some (mkItem k v)) (Some (mkItem k v'))]> (differ first (delete k m) ∅).
Proof.
  intros Hk. apply map_eq. intros x. rewrite differ_lookup. destruct (decide (k = x)) as [<-|Hne].
  - rewrite Hk, lookup_singleton_eq. destruct (decide (v = v')) as [->|Hv].
    + rewrite decide_True by done. by rewrite differ_lookup, lookup_delete_eq, lookup_empty, decide_True.
    + rewrite decide_False by congruence. by rewrite lookup_insert_eq.
  - rewrite lookup_singleton_ne by done. destruct (decide (v = v')); rewrite ?lookup_insert_ne by done;
      rewrite differ_lookup, lookup_delete_ne, lookup_empty by done; done.
Qed.

Lemma walk_list_correct first l : ∀ o m, NoDup (map item_key l) → lists l m → describes (walk_list first o l) (differ first m (single o)).
Proof.
  induction l as [|[k v] l IH]; intros o m Hnd Hl.
  - assert (m = ∅) as ->.
    { apply map_empty. intros k. apply eq_None_not_Some. intros [v Hk]. apply (Hl (mkItem k v)) in Hk. by apply not_elem_of_nil in Hk. }
    destruct o as [[k v]|]; cbn [walk_list single item_key item_data].
    + replace (differ first ∅ {[k := v]}) with (<[k := delta_ref first None (Some (mkItem k v))]> (∅ : Delta)).
      { apply describes_cons; [apply describes_nil|done]. }
      apply map_eq. intros x. rewrite differ_lookup, lookup_empty. destruct (decide (k = x)) as [<-|Hne].
      * by rewrite lookup_insert_eq, lookup_singleton_eq, decide_False.
      * by rewrite lookup_insert_ne, lookup_singleton_ne, lookup_empty, decide_True.
    + replace (differ first ∅ ∅) with (∅ : Delta); [apply describes_nil|]. apply map_eq. intros x. rewrite differ_lookup. by rewrite !lookup_empty, decide_True.
  - destruct (lists_cons _ _ _ Hnd Hl) as (Hk & Hl' & Hnd'). cbn [item_key item_data] in *.
    assert (Hown : ∀ o, single o !! k = None → describes ((k, delta_ref first (Some (mkItem k v)) None) :: walk_list first o l) (differ first m (single o))).
    { intros o' Ho. destruct (differ_own first m (single o') k v Hk Ho) as [-> Hx]. apply describes_cons; [by apply IH|done]. }
    destruct o as [[k' v']|]; cbn [walk_list item_key item_data]; [|by apply Hown]. destruct (Z.eqb_spec k k') as [<-|Hne].
    + cbn [single item_key item_data]. rewrite (differ_both first m k v v' Hk). case_bool_decide; [rewrite decide_True by done; by apply (IH None)|].
      rewrite decide_False by done. cbn [app]. apply describes_cons; [by apply (IH None)|].
      by rewrite differ_lookup, lookup_delete_eq, lookup_empty, decide_True.
    + apply Hown. cbn [single item_key item_data]. by rewrite lookup_singleton_ne.
Qed.

Lemma walkBranch_correct fuel first o f p m n : under f p m → tree_of T f m = Some n → (nodes n ≤ fuel)%nat →
  ∃ l, (∀ s, walkBranch fuel n o first s = Ret (emit l s)) ∧ describes l (differ first m (single o)).
Proof.
  intros Hu Hn Hf. pose proof (tree_shaped f m n Hn) as Hsh. exists (walk_list first o (trav n)).
  split; [intros s; by apply walkBranch_list|]. pose proof (trav_items n Hsh) as Hp. destruct (tree_sorted T f p m Hu) as [Hs Hl].
  rewrite Hn in Hs, Hl. cbn [oitems] in Hs, Hl. apply walk_list_correct.
  - rewrite Hp. clear -Hs. induction Hs as [|a l Hs IH Ha]; [constructor|]. cbn [map]. constructor; [|done].
    intros (b & E & Hb)%list_elem_of_fmap. rewrite Forall_forall in Ha. specialize (Ha b Hb). unfold key_lt in Ha. lia.
  - intros it. rewrite Hp. apply Hl.
Qed.
End Correct.

(** ** Lists of differences *)

Definition dl (m m' : smap) : list (Z * DeltaItem) := map_to_list (differ true m m').

Lemma describes_perm l d : describes l d ↔ l ≡ₚ map_to_list d.
Proof.
  split.
  - intros [Hn Hl]. apply NoDup_Permutation; [by eapply NoDup_fmap_1|apply NoDup_map_to_list|].
    intros [k x]. by rewrite Hl, elem_of_map_to_list.
  - intros H. split; [rewrite H; apply NoDup_fst_map_to_list|]. intros k x. by rewrite H, elem_of_map_to_list.
Qed.

Lemma differ_part f i m m' k x : differ true (part f i m) (part f i m') !! k = Some x ↔ differ true m m' !! k = Some x ∧ nib f k = i.
Proof.
  rewrite !differ_lookup, !part_lookup. destruct (decide (nib f k = i)) as [Hi|Hi].
  - split; [by intros H|by intros [H _]].
  - rewrite decide_True by done. split; [done|by intros [_ ?]].
Qed.

Lemma dl_elem m m' k x : (k, x) ∈ dl m m' ↔ differ true m m' !! k = Some x.
Proof. apply elem_of_map_to_list. Qed.

(** The differences are those of the parts. *)
Lemma dl_branches f m m' : concat (map (λ i, dl (part f i m) (part f i m')) branches) ≡ₚ dl m m'.
Proof.
  assert (H : ∀ n a, let l := concat (map (λ i, dl (part f i m) (part f i m')) (seq a n)) in
    NoDup l.*1 ∧ ∀ k x, (k, x) ∈ l ↔ differ true m m' !! k = Some x ∧ (a ≤ nib f k < a + n)%nat).
  { intros n. induction n as [|n IH]; intros a; cbn [seq map concat].
    { split; [constructor|]. intros k x. rewrite elem_of_nil. split; [done|lia]. }
    destruct (IH (S a)) as [Hn Hl]. split.
    - rewrite fmap_app. apply NoDup_app. split; [apply NoDup_fst_map_to_list|]. split; [|done].
      intros k ([k1 x1] & -> & H1)%list_elem_of_fmap ([k2 x2] & E & H2)%list_elem_of_fmap. cbn in E. subst k2.
      apply dl_elem, differ_part in H1 as [_ H1]. apply Hl in H2 as [_ H2]. lia.
    - intros k x. rewrite elem_of_app, dl_elem, differ_part, Hl. split; [intros [[? ?]|[? ?]]; (split; [done|lia])|].
      intros [Hx Hk]. destruct (decide (nib f k = a)); [by left|right; split; [done|lia]]. }
  apply describes_perm. destruct (H 16%nat 0%nat) as [Hn Hl]. split; [done|]. intros k x. unfold branches. rewrite Hl. pose proof (nib_lt f k).
  split; [by intros [? _]|]. intros ?. split; [done|lia].
Qed.

Lemma dl_same m : dl m m = [].
Proof.
  apply map_to_list_empty_iff, map_empty. intros k. by rewrite differ_lookup, decide_True.
Qed.

(** ** Comparing *)

Section Compared.
Context `{Hash : Sha512} (T : TNType) (ES : list (list Z)) (wfuel : nat).
Hypothesis ES_faithful : hash_faithful ES.

(** A pair of trees on the stack. *)
Record entry (f : nat) (p : Z) (m m' : smap) (n n' : SHAMapNode) : Prop := {
  entry_under : under f p m; entry_under' : under f p m';
  entry_keys : proper_keys T m; entry_keys' : proper_keys T m';
  entry_enc : encodings n ⊆ ES; entry_enc' : encodings n' ⊆ ES;
  entry_nodes : (nodes n ≤ wfuel)%nat; entry_nodes' : (nodes n' ≤ wfuel)%nat;
}.

Inductive stacked : list (SHAMapNode * SHAMapNode) → list (Z * DeltaItem) → Prop :=
| stacked_nil : stacked [] []
| stacked_cons f p m m' n n' st l : entry f p m m' n n' → tree_of T f m = Some n → tree_of T f m' = Some n' →
    stacked st l → stacked ((n, n') :: st) (dl m m' ++ l).

Definition weight (st : list (SHAMapNode * SHAMapNode)) : nat := sum_list (map (λ e, nodes e.1) st).

Lemma onodes_le (cs : list (option SHAMapNode)) c : c ∈ cs → (onodes c ≤ sum_list (map onodes cs))%nat.
Proof.
  intros Hc. induction Hc as [c cs|c c' cs _ IH].
  - change (onodes c ≤ onodes c + sum_list (map onodes cs))%nat. lia.
  - change (onodes c ≤ onodes c' + sum_list (map onodes cs))%nat. lia.
Qed.

Lemma child_nodes f m i : (i < 16)%nat → (onodes (tree_of T f (part f i m)) ≤ sum_list (map onodes (children T f m)))%nat.
Proof. intros Hi. apply onodes_le, list_elem_of_lookup. exists i. by apply children_lookup. Qed.

(** An entry for a branch. *)
Lemma entry_child f p m m' i n n' : entry (S f) p m m' (InnerNode (children T f m)) (InnerNode (children T f m')) → (i < 16)%nat →
  tree_of T f (part f i m) = Some n → tree_of T f (part f i m') = Some n' →
  entry f (16 * p + Z.of_nat i) (part f i m) (part f i m') n n'.
Proof.
  intros [Hu Hu' Hk Hk' He He' Hn Hn'] Hi E E'. pose proof (child_nodes f m i Hi) as Hc. pose proof (child_nodes f m' i Hi) as Hc'.
  rewrite E in Hc. rewrite E' in Hc'. rewrite nodes_inner in Hn, Hn'. cbn [onodes] in Hc, Hc'.
  constructor; auto using part_under, part_keys; [| |lia|lia].
  - intros e He1. apply He. eapply encodings_child; [exact Hu|exact Hi|]. by rewrite E.
  - intros e He1. apply He'. eapply encodings_child; [exact Hu'|exact Hi|]. by rewrite E'.
Qed.
(** One difference after the other, then the rest. *)
Definition emit_then {A} (l : list (Z * DeltaItem)) (s : DeltaState) (stop : DeltaState → outcome A) (K : DeltaState → outcome A) : outcome A :=
  let '(go, s) := emit l s in if go then K s else stop s.

Lemma emit_then_app {A} l l' s (stop K : DeltaState → outcome A) :
  emit_then (l ++ l') s stop K = emit_then l s stop (λ s, emit_then l' s stop K).
Proof. unfold emit_then. rewrite emit_app. by destruct (emit l s) as [[] s']. Qed.

Lemma getChild_part f m i : (i < 16)%nat → getChild (children T f m) i = tree_of T f (part f i m).
Proof. intros Hi. unfold getChild. by rewrite children_lookup. Qed.

(** Equal hashes mean equal parts. *)
Lemma same_hash_part f p m m' i : entry (S f) p m m' (InnerNode (children T f m)) (InnerNode (children T f m')) → (i < 16)%nat →
  getChildHash (children T f m) i = getChildHash (children T f m') i → part f i m = part f i m'.
Proof.
  intros [Hu Hu' Hk Hk' He He' _ _] Hi E. unfold getChildHash in E. rewrite !getChild_part in E by done.
  apply (tree_identify T f (16 * p + Z.of_nat i)); auto using part_under, part_keys.
  eapply hash_faithful_sub; [|exact ES_faithful]. intros e [H|H]%elem_of_app.
  - apply He. by eapply encodings_child.
  - apply He'. by eapply encodings_child.
Qed.

Lemma walk_own f p m n (first : bool) : under f p m → tree_of T f m = Some n → (nodes n ≤ wfuel)%nat →
  ∃ l, (∀ s, walkBranch wfuel n None first s = Ret (emit l s)) ∧ l ≡ₚ (if first then dl m ∅ else dl ∅ m).
Proof.
  intros Hu Hn Hf. destruct (walkBranch_correct T wfuel first None f p m n Hu Hn Hf) as (l & Hw & Hl%describes_perm).
  exists l. split; [done|]. rewrite Hl. cbn [single]. destruct first; [done|]. by rewrite differ_swap.
Qed.

Lemma tree_none f p m : under f p m → tree_of T f m = None → m = ∅.
Proof.
  intros Hu Hn. apply map_empty. intros k. apply eq_None_not_Some. intros [v Hk].
  destruct (tree_of_some T f p m k v Hu Hk) as [n E]. congruence.
Qed.

Lemma branches_correct f p m m' : entry (S f) p m m' (InnerNode (children T f m)) (InnerNode (children T f m')) →
  ∀ bs st L, Forall (λ i, i < 16)%nat bs → stacked st L →
  ∃ l st' L', (∀ s K, ('(go, nodeStack, s) ← compare_branches wfuel (children T f m) (children T f m') bs st s;
                        if (go : bool) then K nodeStack s else Ret (false, s)) = emit_then l s (λ s, Ret (false, s)) (K st')) ∧
    stacked st' L' ∧ l ++ L' ≡ₚ concat (map (λ i, dl (part f i m) (part f i m')) bs) ++ L ∧
    (weight st' ≤ weight st + sum_list (map (λ i, onodes (tree_of T f (part f i m))) bs))%nat.
Proof.
  intros He. pose proof (entry_under _ _ _ _ _ _ He) as Hu. pose proof (entry_under' _ _ _ _ _ _ He) as Hu'.
  pose proof (entry_nodes _ _ _ _ _ _ He) as Hn. pose proof (entry_nodes' _ _ _ _ _ _ He) as Hn'. rewrite nodes_inner in Hn, Hn'.
  intros bs. induction bs as [|i bs IH]; intros st L Hbs Hst.
  { exists [], st, L. split; [done|]. split; [done|]. split; [done|]. cbn. lia. }
  apply Forall_cons in Hbs as [Hi Hbs]. cbn [compare_branches map concat].
  assert (Hsum : ∀ x y, sum_list (x :: y) = (x + sum_list y)%nat) by done. rewrite Hsum. clear Hsum.
  pose proof (child_nodes f m i Hi) as Hc. pose proof (child_nodes f m' i Hi) as Hc'.
  destruct (Z.eqb_spec (getChildHash (children T f m) i) (getChildHash (children T f m') i)) as [E|E].
  { apply (same_hash_part f p m m' i He Hi) in E. destruct (IH st L Hbs Hst) as (l & st' & L' & Hr & Hs & Hp & Hw).
    exists l, st', L'. split; [done|]. split; [done|]. split; [|lia]. by rewrite Hp, E, dl_same. }
  unfold getChildHash in E. rewrite !getChild_part in E |- * by done.
  destruct (tree_of T f (part f i m)) as [n|] eqn:E1; destruct (tree_of T f (part f i m')) as [n'|] eqn:E2; [| | |done].
  - destruct (IH ((n, n') :: st) (dl (part f i m) (part f i m') ++ L) Hbs) as (l & st' & L' & Hr & Hs & Hp & Hw).
    { econstructor; [by eapply entry_child|done|done|done]. }
    exists l, st', L'. split; [done|]. split; [done|]. split; [rewrite Hp; solve_Permutation|].
    change (weight ((n, n') :: st)) with (nodes n + weight st)%nat in Hw. cbn [onodes]. lia.
  - destruct (walk_own f _ _ n true (part_under _ _ i _ Hu) E1) as (l1 & Hw1 & Hl1); [cbn [onodes] in Hc; lia|].
    destruct (IH st L Hbs Hst) as (l & st' & L' & Hr & Hs & Hp & Hw). exists (l1 ++ l), st', L'. split; [|split; [done|split; [|lia]]].
    + intros s K. rewrite Hw1, emit_then_app. unfold emit_then at 1. cbn [mbind outcome_bind]. destruct (emit l1 s) as [[] s1]; [apply Hr|done].
    + rewrite <- app_assoc, Hp, Hl1, (tree_none f _ _ (part_under _ _ i _ Hu') E2). solve_Permutation.
  - destruct (walk_own f _ _ n' false (part_under _ _ i _ Hu') E2) as (l1 & Hw1 & Hl1); [cbn [onodes] in Hc'; lia|].
    destruct (IH st L Hbs Hst) as (l & st' & L' & Hr & Hs & Hp & Hw). exists (l1 ++ l), st', L'. split; [|split; [done|split; [|lia]]].
    + intros s K. rewrite Hw1, emit_then_app. unfold emit_then at 1. cbn [mbind outcome_bind]. destruct (emit l1 s) as [[] s1]; [apply Hr|done].
    + rewrite <- app_assoc, Hp, Hl1, (tree_none f _ _ (part_under _ _ i _ Hu) E1). solve_Permutation.
Qed.
(** The two inner nodes on top of the stack, given the rest. *)
Lemma inner_correct fuel f p m m' st L : entry (S f) p m m' (InnerNode (children T f m)) (InnerNode (children T f m')) →
  stacked st L → (weight ((InnerNode (children T f m), InnerNode (children T f m')) :: st) ≤ S fuel)%nat →
  (∀ st L, stacked st L → (weight st ≤ fuel)%nat → ∃ l, (∀ s, compare_stack fuel wfuel st s = Ret (emit l s)) ∧ l ≡ₚ L) →
  ∃ l, (∀ s, compare_stack (S fuel) wfuel ((InnerNode (children T f m), InnerNode (children T f m')) :: st) s = Ret (emit l s)) ∧ l ≡ₚ dl m m' ++ L.
Proof.
  intros He Hst Hw IH. destruct (branches_correct f p m m' He branches st L) as (l & st' & L' & Hr & Hs & Hp & Hw').
  { apply Forall_seq. lia. }
  { done. }
  change (nodes (InnerNode (children T f m)) + weight st ≤ S fuel)%nat in Hw. rewrite nodes_inner in Hw.
  assert (Hsum : sum_list (map onodes (children T f m)) = sum_list (map (λ i, onodes (tree_of T f (part f i m))) branches)).
  { unfold children. by rewrite map_map. }
  destruct (IH st' L' Hs) as (l' & Hl' & Hp'); [lia|]. exists (l ++ l'). split.
  - intros s. cbn [compare_stack]. rewrite (Hr s (compare_stack fuel wfuel)), emit_app. unfold emit_then.
    destruct (emit l s) as [[] s']; [apply Hl'|done].
  - by rewrite Hp', Hp, dl_branches.
Qed.

Lemma leaf_leaf fuel it it' st s : compare_stack (S fuel) wfuel ((TreeNode it T, TreeNode it' T) :: st) s =
  emit_then (walk_list true (Some it') [it]) s (λ s, Ret (false, s)) (compare_stack fuel wfuel st).
Proof.
  cbn [compare_stack walk_list delta_ref]. unfold emit_then. destruct (item_key it =? item_key it'); [case_bool_decide|]; cbn [app emit]; [done|..];
    destruct (note _ _ s) as [[] s1]; try done. cbn [negb]. by destruct (note _ _ s1) as [[] s2].
Qed.

Lemma stack_correct fuel : ∀ st L, stacked st L → (weight st ≤ fuel)%nat →
  ∃ l, (∀ s, compare_stack fuel wfuel st s = Ret (emit l s)) ∧ l ≡ₚ L.
Proof.
  induction fuel as [|fuel IH]; intros st L Hst Hw; (destruct Hst as [|f p m m' n n' st L He E E' Hst]; [by exists []|]).
  { destruct n; change (weight ((?n, ?n') :: st)) with (nodes n + weight st)%nat in Hw; cbn in Hw; lia. }
  pose proof He as [Hu Hu' Hk Hk' _ _ Hn Hn'].
  assert (Htail : ∀ l1, l1 ≡ₚ dl m m' → (1 + weight st ≤ S fuel)%nat →
    (∀ s, compare_stack (S fuel) wfuel ((n, n') :: st) s = emit_then l1 s (λ s, Ret (false, s)) (compare_stack fuel wfuel st)) →
    ∃ l, (∀ s, compare_stack (S fuel) wfuel ((n, n') :: st) s = Ret (emit l s)) ∧ l ≡ₚ dl m m' ++ L).
  { intros l1 H1 Hw1 Hs. destruct (IH st L Hst) as (l2 & Hl2 & Hp2); [lia|]. exists (l1 ++ l2). split; [|by rewrite H1, Hp2].
    intros s. rewrite Hs, emit_app. unfold emit_then. destruct (emit l1 s) as [[] s']; [apply Hl2|done]. }
  assert (Hpos : (1 + weight st ≤ S fuel)%nat).
  { change (nodes n + weight st ≤ S fuel)%nat in Hw. destruct n; cbn in Hw; lia. }
  destruct (map_sizes m) as [->|[(k & v & ->)|Hm]]; [by rewrite tree_of_empty in E|..];
    (destruct (map_sizes m') as [->|[(k' & v' & ->)|Hm']]; [by rewrite tree_of_empty in E'|..]).
  - rewrite tree_of_one in E, E'. injection E as <-. injection E' as <-.
    eapply Htail; [|done|intros s; apply leaf_leaf]. apply describes_perm.
    eapply (walk_list_correct true [mkItem k v] (Some (mkItem k' v'))).
    + by apply NoDup_singleton.
    + intros [k1 v1]. rewrite list_elem_of_singleton. cbn [item_key item_data]. rewrite lookup_singleton_Some. split; [by intros [= -> ->]|by intros [-> ->]].
  - rewrite tree_of_one in E. injection E as <-. pose proof (under_many _ _ _ Hu' Hm') as Hf. destruct f as [|f]; [lia|].
    destruct (walkBranch_correct T wfuel false (Some (mkItem k v)) _ p m' n' Hu' E' Hn') as (l & Hl & Hd%describes_perm).
    rewrite (tree_of_many T f m' Hm') in E'. injection E' as <-. rewrite differ_swap in Hd. eapply Htail; [exact Hd|done|].
    intros s. cbn [compare_stack item_of]. by rewrite Hl.
  - rewrite tree_of_one in E'. injection E' as <-. pose proof (under_many _ _ _ Hu Hm) as Hf. destruct f as [|f]; [lia|].
    destruct (walkBranch_correct T wfuel true (Some (mkItem k' v')) _ p m n Hu E Hn) as (l & Hl & Hd%describes_perm).
    rewrite (tree_of_many T f m Hm) in E. injection E as <-. eapply Htail; [exact Hd|done|].
    intros s. cbn [compare_stack item_of]. by rewrite Hl.
  - pose proof (under_many _ _ _ Hu Hm) as Hf. destruct f as [|f]; [lia|]. rewrite tree_of_many in E, E' by done.
    injection E as <-. injection E' as <-. by eapply inner_correct.
Qed.
End Compared.

(** What is noted of a list of differences. *)
Lemma emit_result l : ∀ d n, NoDup l.*1 → (∀ k x, (k, x) ∈ l → d !! k = None) → 0 < n →
  emit l (d, n) = if decide (Z.of_nat (length l) < n) then (true, (list_to_map l ∪ d, n - Z.of_nat (length l)))
                  else (false, (list_to_map (take (Z.to_nat n) l) ∪ d, 0)).
Proof.
  induction l as [|[k x] l IH]; intros d n Hnd Hd Hn.
  { rewrite decide_True by (cbn; lia). cbn. rewrite Z.sub_0_r. by rewrite (left_id_L ∅ (∪)). }
  cbn [fmap list_fmap fst] in Hnd. apply NoDup_cons in Hnd as [Hk Hnd]. cbn [emit note].
  rewrite (Hd k x) by left. destruct (Z.leb_spec (n - 1) 0) as [H1|H1]; cbn [negb].
  - assert (n = 1) as -> by lia. rewrite decide_False by (cbn [length]; lia).
    change (Z.to_nat 1) with 1%nat. cbn [take list_to_map foldr uncurry]. rewrite take_0. cbn [list_to_map foldr]. 
    by rewrite insert_empty, insert_union_singleton_l.
  - rewrite IH; [|done| |lia].
    + assert (Hnk : (list_to_map l : Delta) !! k = None) by by apply not_elem_of_list_to_map.
      destruct (decide (Z.of_nat (length l) < n - 1)).
      * rewrite decide_True by (cbn [length]; lia). cbn [list_to_map foldr uncurry].
        rewrite <- insert_union_l, insert_union_r by done. do 2 f_equal. cbn [length]. lia.
      * rewrite decide_False by (cbn [length]; lia). replace (Z.to_nat n) with (S (Z.to_nat (n - 1))) by lia.
        cbn [take list_to_map foldr uncurry]. f_equal. f_equal. rewrite <- insert_union_l. rewrite insert_union_r; [done|].
        apply not_elem_of_list_to_map. intros ([k1 x1] & E & Hin)%list_elem_of_fmap. cbn in E. subst k1. apply Hk. apply list_elem_of_fmap.
        exists (k, x1). split; [done|]. by apply elem_of_take in Hin as (i & Hi%list_elem_of_lookup_2 & _).
    + intros k' x' Hin. rewrite lookup_insert_ne; [by apply (Hd k' x'); right|]. intros <-. apply Hk.
      apply list_elem_of_fmap. by exists (k, x').
Qed.

(** C25: comparing two trees returns the differences between their maps: all of them, if they are
    fewer than [maxCount], and otherwise [maxCount] of them and the result [false].  Skipping
    the branches with equal hashes loses none, if the hash has no collision among the
    encodings of the nodes of the two trees. *)
Theorem compare_correct `{Hash : Sha512} (T : TNType) (m m' : smap) (maxCount : Z) (fuel : nat) :
  proper_keys T m → proper_keys T m' → hash_faithful (encodings (root_of T m) ++ encodings (root_of T m')) → 0 < maxCount →
  (nodes (root_of T m) + nodes (root_of T m') ≤ fuel)%nat →
  let all := differ true m m' in
  ∃ ok d, compare fuel (root_of T m) (root_of T m') maxCount = Ret (ok, d) ∧ d ⊆ all ∧
    (Z.of_nat (size all) < maxCount → ok = true ∧ d = all) ∧
    (maxCount ≤ Z.of_nat (size all) → ok = false ∧ Z.of_nat (size d) = maxCount).
Proof.
  intros Hk Hk' Hh Hc Hf all. unfold compare. destruct (Z.eqb_spec (node_hash (root_of T m)) (node_hash (root_of T m'))) as [E|E].
  { apply root_identify in E as <-; [|done|done|done]. assert (all = ∅) as ->.
    { apply map_empty. intros k. unfold all. by rewrite differ_lookup, decide_True. }
    exists true, ∅. split; [done|]. split; [done|]. split; [done|]. rewrite map_size_empty. lia. }
  destruct fuel as [|fuel]; [unfold root_of in Hf; rewrite !nodes_inner in Hf; lia|].
  destruct (inner_correct T (encodings (root_of T m) ++ encodings (root_of T m')) (S fuel) Hh fuel 63 0 m m' [] []) as (l & Hl & Hp).
  { constructor; [apply keys_under; by eapply proper_uint256|apply keys_under; by eapply proper_uint256|exact Hk|exact Hk'|apply sub_left|apply sub_right|..].
    - change (nodes (root_of T m) ≤ S fuel)%nat. lia.
    - change (nodes (root_of T m') ≤ S fuel)%nat. lia. }
  { constructor. }
  { change (nodes (root_of T m) + 0 ≤ S fuel)%nat. lia. }
  { intros st L Hs Hw. by apply (stack_correct T _ _ Hh). }
  rewrite app_nil_r in Hp. change (l ≡ₚ map_to_list all) in Hp. clearbody all. change (InnerNode (children T 63 ?x)) with (root_of T x) in Hl.
  destruct (proj2 (describes_perm l all) Hp) as [Hnd Hin]. rewrite Hl. cbn [mbind outcome_bind].
  assert (Hlen : length l = size all) by (rewrite Hp; apply length_map_to_list).
  assert (Hall : list_to_map l = all) by (rewrite <- (list_to_map_to_list all); exact (list_to_map_proper (M:=gmap Z) l (map_to_list all) Hnd Hp)).
  rewrite emit_result; [|done|done|done]. rewrite Hlen. clear - Hlen Hall Hnd Hin Hc. destruct (decide (Z.of_nat (size all) < maxCount)) as [Hlt|Hge].
  - exists true, all. cbn [fst]. rewrite Hall, (right_id_L ∅ (∪)). split; [done|]. split; [done|]. split; [done|]. intros. exfalso. lia.
  - set (t := take (Z.to_nat maxCount) l). exists false, (list_to_map t). cbn [fst]. rewrite (right_id_L ∅ (∪)). split; [done|].
    assert (Ht : NoDup t.*1) by (rewrite <- (take_drop (Z.to_nat maxCount) l), fmap_app in Hnd; by apply NoDup_app in Hnd as [? _]). split; [|split; [intros; exfalso; lia|intros _; split; [done|]]].
    + apply map_subseteq_spec. intros k x Hx%elem_of_list_to_map_2. apply Hin.
      by apply elem_of_take in Hx as (i & Hi%list_elem_of_lookup_2 & _).
    + rewrite <- length_map_to_list, map_to_list_to_map by done. unfold t. rewrite length_take, Hlen. lia.
Qed.

(** One item changed, one removed and one added. *)
Definition test_map : smap := {[2 ^ 255 := [1; 2]; 2 ^ 255 + 2 ^ 250 := [3]; 2 ^ 252 := [7]]}.
Definition test_map' : smap := {[2 ^ 255 := [1; 3]; 2 ^ 252 := [7]; 5 := [8]]}.

Lemma proper_keys_check h T m : T ≠ tnTRANSACTION_NM → map_Forall (λ k _, 0 ≤ k < 2 ^ 256) m → @proper_keys h T m.
Proof. intros HT Hm k v Hk. split; [by apply (Hm k v)|]. by intros ?. Qed.

Lemma compare_correct_witness :
  let all := differ true test_map test_map' in
  let t := root_of tnACCOUNT_STATE test_map in let t' := root_of tnACCOUNT_STATE test_map' in
  (∃ ok d, @compare residue_hash 1000 t t' 10 = Ret (ok, d) ∧ d ⊆ all ∧
    (Z.of_nat (size all) < 10 → ok = true ∧ d = all) ∧
    (10 ≤ Z.of_nat (size all) → ok = false ∧ Z.of_nat (size d) = 10)) ∧ size all = 3%nat.
Proof.
  split; [|vm_compute; reflexivity]. apply (@compare_correct residue_hash tnACCOUNT_STATE test_map test_map' 10 1000).
  - apply proper_keys_check; [discriminate|]. apply (bool_decide_unpack _). vm_compute. exact I.
  - apply proper_keys_check; [discriminate|]. apply (bool_decide_unpack _). vm_compute. exact I.
  - apply all_faithful_sound. vm_compute. reflexivity.
  - lia.
  - vm_compute. lia.
Defined.
