(* ===== verification/SHAMapWire.v ===== *)
(** * Nodes as bytes

    Model of [addRaw], [updateHash] and [SHAMapAbstractNode::make] of
    [src/src/ripple/shamap/impl/SHAMapTreeNode.cpp]: the form in which a node is hashed and stored
    ([snfPREFIX]) and the one in which it is sent ([snfWIRE]), for leaves and for the
    inner nodes of both versions.  What is written is read back, and the hash of a node is
    the hash of its stored form.

    A node here has the hashes of its children, not the children; [mIsBranch] is the word with
    a bit for each branch that is not empty. *)

From stdpp Require Import base numbers list gmap strings.
From Stdlib Require Import Lia ZArith.
From S2P Require Import Prelude Serializer SField STObject Indexes STTx SHAMap.

Local Open Scope Z_scope.

Inductive SHANodeFormat := snfPREFIX | snfWIRE | snfHASH.

Inductive RawNode : Type :=
| RawLeaf (mItem : SHAMapItem) (mType : TNType)
| RawInner (mHashes : list Z) (mIsBranch : Z)
| RawInnerV2 (mHashes : list Z) (mIsBranch : Z) (depth_ common_ : Z).

Definition raw_emptyBranch (mIsBranch : Z) (m : nat) : bool := Z.land mIsBranch (1 ≪ Z.of_nat m) =? 0.

Definition raw_branchCount (mIsBranch : Z) : nat := length (filter (λ i, raw_emptyBranch mIsBranch i = false) branches).

Section Wire.
Context `{Hash : Sha512}.

(** ** Writing *)

Definition add_hashes (mHashes : list Z) (s : Serializer) : Serializer := foldl (λ s h, (add256 h s).2) s mHashes.

Definition add_compressed (mHashes : list Z) (mIsBranch : Z) (s : Serializer) : Serializer :=
  foldl (λ s i, if raw_emptyBranch mIsBranch i then s else (add8 (Z.of_nat i) (add256 (nth i mHashes 0) s).2).2) s branches.

(** [SHAMapInnerNode::addRaw]; [snfHASH] is the caller's. *)
Definition inner_addRaw (format : SHANodeFormat) (mHashes : list Z) (mIsBranch mHash : Z) : Serializer :=
  match format with
  | snfHASH => (add256 mHash []).2
  | snfPREFIX => add_hashes mHashes (add32 HP_innerNode []).2
  | snfWIRE =>
    if (raw_branchCount mIsBranch <? 12)%nat then (add8 3 (add_compressed mHashes mIsBranch [])).2
    else (add8 2 (add_hashes mHashes [])).2
  end.

Definition inner2_prefix (mHashes : list Z) (depth_ common_ : Z) : Serializer :=
  let s := add_hashes mHashes (add32 HP_innerNodeV2 []).2 in
  let s := (add8 (u8 depth_) s).2 in
  foldl (λ s b, (add8 b s).2) s (take (Z.to_nat ((depth_ + 1) / 2)) (to_be 32 common_)).

(** [data.back() += 3]. *)
Definition back_add (n : Z) (s : Serializer) : Serializer :=
  match last s with Some b => take (length s - 1) s ++ [u8 (b + n)] | None => s end.

Definition leaf_addRaw (format : SHANodeFormat) (item : SHAMapItem) (type : TNType) (mHash : Z) : Serializer :=
  match format, type with
  | snfHASH, _ => (add256 mHash []).2
  | snfPREFIX, tnACCOUNT_STATE => (add256 (item_key item) (addRaw (item_data item) (add32 HP_leafNode []).2).2).2
  | snfWIRE, tnACCOUNT_STATE => (add8 1 (add256 (item_key item) (addRaw (item_data item) []).2).2).2
  | snfPREFIX, tnTRANSACTION_NM => (addRaw (item_data item) (add32 HP_transactionID []).2).2
  | snfWIRE, tnTRANSACTION_NM => (add8 0 (addRaw (item_data item) []).2).2
  | snfPREFIX, tnTRANSACTION_MD => (add256 (item_key item) (addRaw (item_data item) (add32 HP_txNode []).2).2).2
  | snfWIRE, tnTRANSACTION_MD => (add8 4 (add256 (item_key item) (addRaw (item_data item) []).2).2).2
  end.

Definition node_addRaw (format : SHANodeFormat) (n : RawNode) (mHash : Z) : Serializer :=
  match n with
  | RawLeaf item type => leaf_addRaw format item type mHash
  | RawInner hs br => inner_addRaw format hs br mHash
  | RawInnerV2 hs br depth common =>
    match format with
    | snfPREFIX => inner2_prefix hs depth common
    | snfWIRE => back_add 3 (inner_addRaw snfWIRE hs br mHash)
    | snfHASH => inner_addRaw snfHASH hs br mHash
    end
  end.

(** [updateHash] of the three classes. *)
Definition raw_hash (n : RawNode) : Z :=
  match n with
  | RawLeaf item type => leaf_hash item type
  | RawInner hs br => if br =? 0 then 0 else sha512Half (inner_bytes hs)
  | RawInnerV2 hs br depth common => if br =? 0 then 0 else sha512Half (inner2_prefix hs depth common)
  end.

(** ** Reading *)

Definition getLength (s : Serializer) : Z := i32 (Z.of_nat (length s)).

(** The branches whose hashes have been read, and the word of bits. *)
Definition set_hash (pos : nat) (h : Z) (st : list Z * Z) : list Z * Z :=
  (<[pos := h]> st.1, if h =? 0 then st.2 else Z.lor st.2 (1 ≪ Z.of_nat pos)).

Definition no_hashes : list Z * Z := (replicate 16 0, 0).

(** [get256] leaves the hash alone when it fails. *)
Definition read_hashes (s : Serializer) : list Z * Z :=
  foldl (λ st i, set_hash i (default (nth i st.1 0) (ser_get256 (Z.of_nat i * 32) s)) st) no_hashes branches.

Definition read_compressed (s : Serializer) (len : Z) : outcome (list Z * Z) :=
  foldl (λ r i,
    st ← r;
    match ser_get8 (32 + Z.of_nat i * 33) s with
    | None => Throw (runtime_error "short CI node")
    | Some pos =>
      if (pos <? 0) || (16 <=? pos) then Throw (runtime_error "invalid CI node")
      else Ret (set_hash (Z.to_nat pos) (default (nth (Z.to_nat pos) st.1 0) (ser_get256 (Z.of_nat i * 33) s)) st)
    end) (Ret no_hashes) (seq 0 (Z.to_nat (len / 33))).

(** The key at the end of a leaf, and what is before it. *)
Definition read_leaf (s : Serializer) (short invalid : string) (zero_ok : bool) : outcome (Z * Serializer) :=
  let len := getLength s in
  if len <? 32 then Throw (runtime_error short)
  else
    let u := default 0 (ser_get256 (len - 32) s) in
    let s := default s (chop 32 s) in
    if (u =? 0) && negb zero_ok then Throw (runtime_error invalid) else Ret (u, s).

Definition make_wire (rawNode : list Z) (id : SHAMapNodeID) : outcome (option RawNode) :=
  match last rawNode with
  | None => Ret None
  | Some type =>
    let s := take (length rawNode - 1) rawNode in
    let len := getLength s in
    if (type <? 0) || (6 <? type) then Ret None
    else if type =? 0 then Ret (Some (RawLeaf (mkItem (sha512Half (to_be 4 HP_transactionID ++ s)) s) tnTRANSACTION_NM))
    else if type =? 1 then
      '(u, s) ← read_leaf s "short AS node" "invalid AS node" false; Ret (Some (RawLeaf (mkItem u s) tnACCOUNT_STATE))
    else if type =? 2 then
      if negb (len =? 512) then Throw (runtime_error "invalid FI node")
      else let '(hs, br) := read_hashes s in Ret (Some (RawInner hs br))
    else if type =? 3 then '(hs, br) ← read_compressed s len; Ret (Some (RawInner hs br))
    else if type =? 4 then
      '(u, s) ← read_leaf s "short TM node" "invalid TM node" false; Ret (Some (RawLeaf (mkItem u s) tnTRANSACTION_MD))
    else if type =? 5 then
      if negb (len =? 512) then Throw (runtime_error "invalid FI node")
      else let '(hs, br) := read_hashes s in Ret (Some (RawInnerV2 hs br (Z.of_nat (mDepth id)) (mNodeID id)))
    else '(hs, br) ← read_compressed s len; Ret (Some (RawInnerV2 hs br (Z.of_nat (mDepth id)) (mNodeID id)))
  end.

(** The bytes of [common_]; the code writes past the end of the 32 bytes if there are more. *)
Definition read_common (n : Z) (s : Serializer) : outcome Z :=
  if 32 <? n then Throw (logic_error "write past the end of common_")
  else
    let bs := map (λ i, default 0 (ser_get8 (512 + 1 + Z.of_nat i) s)) (seq 0 (Z.to_nat n)) in
    Ret (of_be (bs ++ replicate (32 - length bs) 0)).

Definition make_prefix (rawNode : list Z) : outcome (option RawNode) :=
  if (length rawNode <? 4)%nat then Throw (runtime_error "invalid P node")
  else
    let prefix := of_be (take 4 rawNode) in
    let s := drop 4 rawNode in
    if prefix =? HP_transactionID then Ret (Some (RawLeaf (mkItem (sha512Half rawNode) s) tnTRANSACTION_NM))
    else if prefix =? HP_leafNode then
      '(u, s) ← read_leaf s "short PLN node" "invalid PLN node" false; Ret (Some (RawLeaf (mkItem u s) tnACCOUNT_STATE))
    else if (prefix =? HP_innerNode) || (prefix =? HP_innerNodeV2) then
      let len := getLength s in
      let isV2 := prefix =? HP_innerNodeV2 in
      if (len <? 512) || (negb isV2 && negb (len =? 512)) || (isV2 && (len =? 512)) then Throw (runtime_error "invalid PIN node")
      else
        let '(hs, br) := read_hashes s in
        if isV2 then
          let depth := default 64 (ser_get8 512 s) in
          let n := (depth + 1) / 2 in
          if negb (len =? 512 + 1 + n) then Throw (runtime_error "invalid PIN node")
          else common ← read_common n s; Ret (Some (RawInnerV2 hs br depth common))
        else Ret (Some (RawInner hs br))
    else if prefix =? HP_txNode then
      '(u, s) ← read_leaf s "short TXN node" "" true; Ret (Some (RawLeaf (mkItem u s) tnTRANSACTION_MD))
    else Throw (runtime_error "invalid node prefix").

(** The node and its hash, which is the given one if that is known to be right. *)
Definition make (rawNode : list Z) (format : SHANodeFormat) (hash : Z) (hashValid : bool) (id : SHAMapNodeID) :
    outcome (option (RawNode * Z)) :=
  n ← match format with
      | snfWIRE => make_wire rawNode id
      | snfPREFIX => make_prefix rawNode
      | snfHASH => Throw (runtime_error "Unknown format")
      end;
  Ret (option_map (λ n, (n, if hashValid then hash else raw_hash n)) n).

(** ** Round trips *)

Definition mask_of (mHashes : list Z) : Z :=
  foldl (λ m i, if nth i mHashes 0 =? 0 then m else Z.lor m (1 ≪ Z.of_nat i)) 0 branches.

Definition hashes_ok (mHashes : list Z) (mIsBranch : Z) : Prop :=
  length mHashes = 16%nat ∧ Forall (λ h, 0 ≤ h < 2 ^ 256) mHashes ∧ mIsBranch = mask_of mHashes.

Definition raw_ok (n : RawNode) : Prop :=
  match n with
  | RawLeaf item type =>
    0 ≤ item_key item < 2 ^ 256 ∧ Z.of_nat (length (item_data item)) < 2 ^ 31 - 64 ∧
    if decide (type = tnTRANSACTION_NM) then item_key item = leaf_hash item type else item_key item ≠ 0
  | RawInner hs br => hashes_ok hs br
  | RawInnerV2 hs br depth common =>
    hashes_ok hs br ∧ 0 ≤ depth ≤ 64 ∧ 0 ≤ common < 2 ^ 256 ∧
    let n := Z.to_nat ((depth + 1) / 2) in drop n (to_be 32 common) = replicate (32 - n) 0
  end.

Lemma add_hashes_bytes hs : ∀ s, add_hashes hs s = s ++ concat (map (to_be 32) hs).
Proof.
  induction hs as [|h hs IH]; intros s; [by rewrite app_nil_r|]. cbn [map concat]. unfold add_hashes in *. cbn [foldl].
  rewrite IH, app_assoc. done.
Qed.

Lemma add_bytes bs : ∀ s, foldl (λ s b, (add8 b s).2) s bs = s ++ bs.
Proof. induction bs as [|b bs IH]; intros s; [by rewrite app_nil_r|]. cbn [foldl]. rewrite IH. cbn. by rewrite <- app_assoc. Qed.

Lemma get256_at pre h post : 0 ≤ h < 2 ^ 256 → Z.of_nat (length (pre ++ to_be 32 h ++ post)) < 2 ^ 63 →
  ser_get256 (Z.of_nat (length pre)) (pre ++ to_be 32 h ++ post) = Some h.
Proof.
  intros Hh Hl. unfold ser_get256. rewrite !length_app, length_to_be in *. rewrite u64_small by (unfold in_u64; lia).
  destruct (Z.ltb_spec (Z.of_nat (length pre + (32 + length post))) (Z.of_nat (length pre) + 32)); [lia|].
  rewrite Nat2Z.id, drop_app_length, take_app_length' by by rewrite length_to_be. by rewrite of_be_to_be.
Qed.

Lemma get8_at pre b post : Z.of_nat (length (pre ++ b :: post)) < 2 ^ 63 → ser_get8 (Z.of_nat (length pre)) (pre ++ b :: post) = Some b.
Proof.
  intros Hl. unfold ser_get8. rewrite length_app in *. cbn [length] in *. rewrite u64_small by (unfold in_u64; lia).
  destruct (Z.leb_spec (Z.of_nat (length pre + S (length post))) (Z.of_nat (length pre))); [lia|].
  rewrite Nat2Z.id. by apply list_lookup_middle.
Qed.

Lemma hashes_len hs : length (concat (map (to_be 32) hs)) = (32 * length hs)%nat.
Proof. induction hs as [|h hs IH]; [done|]. cbn [map concat length]. rewrite length_app, length_to_be, IH. lia. Qed.

(** The hash of a branch in the full form. *)
Lemma get256_hashes hs post i : Forall (λ h, 0 ≤ h < 2 ^ 256) hs → (i < length hs)%nat →
  Z.of_nat (length (concat (map (to_be 32) hs) ++ post)) < 2 ^ 63 →
  ser_get256 (Z.of_nat i * 32) (concat (map (to_be 32) hs) ++ post) = Some (nth i hs 0).
Proof.
  intros Hr Hi Hl. destruct (lookup_lt_is_Some_2 hs i Hi) as [h Hh]. rewrite (nth_lookup_Some _ _ _ _ Hh).
  assert (E : concat (map (to_be 32) hs) ++ post = concat (map (to_be 32) (take i hs)) ++ to_be 32 h ++ concat (map (to_be 32) (drop (S i) hs)) ++ post).
  { rewrite <- (take_drop_middle hs i h Hh) at 1. by rewrite map_app, concat_app, <- !app_assoc. }
  rewrite E in *. replace (Z.of_nat i * 32) with (Z.of_nat (length (concat (map (to_be 32) (take i hs))))).
  - apply get256_at; [|done]. by eapply (Forall_lookup_1 _ _ _ _ Hr).
  - rewrite hashes_len, length_take. lia.
Qed.

Lemma set_all hs : length hs = 16%nat → foldl (λ st i, set_hash i (nth i hs 0) st) no_hashes branches = (hs, mask_of hs).
Proof. intros H. do 16 (destruct hs as [|? hs]; [done|]). by destruct hs. Qed.

Lemma read_hashes_correct hs post : length hs = 16%nat → Forall (λ h, 0 ≤ h < 2 ^ 256) hs → Z.of_nat (length post) < 2 ^ 32 →
  read_hashes (concat (map (to_be 32) hs) ++ post) = (hs, mask_of hs).
Proof.
  intros Hl Hr Hp. rewrite <- set_all by done. unfold read_hashes. generalize no_hashes as st.
  assert (Hb : Forall (λ i, i < 16)%nat branches) by (apply Forall_seq; lia). revert Hb. generalize branches as bs.
  induction bs as [|i bs IH]; intros Hb st; [done|]. apply Forall_cons in Hb as [Hi Hb]. cbn [foldl].
  rewrite get256_hashes; [by apply IH|done|lia|]. rewrite length_app, hashes_len. lia.
Qed.

(** *** The compressed form *)

Lemma emptyBranch_bit br m : raw_emptyBranch br m = negb (Z.testbit br (Z.of_nat m)).
Proof.
  unfold raw_emptyBranch. rewrite Z.shiftl_1_l. destruct (Z.testbit br (Z.of_nat m)) eqn:E; cbn [negb].
  - apply Z.eqb_neq. intros H. assert (Hb : Z.testbit (Z.land br (2 ^ Z.of_nat m)) (Z.of_nat m) = false) by (rewrite H; apply Z.bits_0).
    rewrite Z.land_spec, E, Z.pow2_bits_true in Hb by lia. done.
  - apply Z.eqb_eq. apply Z.bits_inj_0. intros j. rewrite Z.land_spec. destruct (decide (j = Z.of_nat m)) as [->|Hne]; [by rewrite E|].
    rewrite Z.pow2_bits_false by lia. by rewrite andb_false_r.
Qed.

Lemma mask_bits (g : nat → bool) l j : ∀ m,
  Z.testbit (foldl (λ m i, if g i then m else Z.lor m (1 ≪ Z.of_nat i)) m l) (Z.of_nat j) =
  Z.testbit m (Z.of_nat j) || existsb (λ i, negb (g i) && (i =? j)%nat) l.
Proof.
  induction l as [|i l IH]; intros m; cbn [foldl existsb]; [by rewrite orb_false_r|]. rewrite IH. destruct (g i); cbn [negb andb]; [done|].
  rewrite Z.lor_spec, Z.shiftl_1_l. destruct (Nat.eqb_spec i j) as [->|Hne].
  - rewrite Z.pow2_bits_true by lia. by rewrite !orb_true_r.
  - rewrite Z.pow2_bits_false by lia. by rewrite orb_false_r.
Qed.

Lemma mask_branch hs i : (i < 16)%nat → raw_emptyBranch (mask_of hs) i = (nth i hs 0 =? 0).
Proof.
  intros Hi. rewrite emptyBranch_bit. unfold mask_of. rewrite (mask_bits (λ i, nth i hs 0 =? 0)). rewrite Z.bits_0. cbn [orb].
  destruct (nth i hs 0 =? 0) eqn:E.
  - apply negb_true_iff, not_true_is_false. intros (j & _ & [Hg Hj]%andb_true_iff)%existsb_exists.
    apply Nat.eqb_eq in Hj as ->. by rewrite E in Hg.
  - apply negb_false_iff, existsb_exists. exists i. rewrite E, Nat.eqb_refl. split; [|done]. apply in_seq. lia.
Qed.

Definition chunk (hs : list Z) (i : nat) : list Z := to_be 32 (nth i hs 0) ++ [Z.of_nat i].

Definition filled (hs : list Z) (bs : list nat) : list nat := filter (λ i, nth i hs 0 ≠ 0) bs.

Lemma add_compressed_bytes hs : add_compressed hs (mask_of hs) [] = concat (map (chunk hs) (filled hs branches)).
Proof.
  unfold add_compressed. change (concat (map (chunk hs) (filled hs branches))) with ([] ++ concat (map (chunk hs) (filled hs branches))).
  generalize (@nil Z) as s. assert (Hb : Forall (λ i, i < 16)%nat branches) by (apply Forall_seq; lia). revert Hb.
  generalize branches as bs. induction bs as [|i bs IH]; intros Hb s; [by rewrite app_nil_r|]. apply Forall_cons in Hb as [Hi Hb].
  cbn [foldl]. unfold filled in *. rewrite filter_cons, mask_branch, IH by done. destruct (Z.eqb_spec (nth i hs 0) 0) as [E|E].
  - by rewrite decide_False by tauto.
  - rewrite decide_True by done. cbn [map concat]. unfold chunk at 2. cbn. by rewrite <- !app_assoc.
Qed.

Lemma chunks_len hs l : length (concat (map (chunk hs) l)) = (33 * length l)%nat.
Proof. induction l as [|i l IH]; [done|]. cbn [map concat length]. rewrite length_app, IH. unfold chunk. rewrite length_app, length_to_be. cbn. lia. Qed.

(** Reading the chunks one after the other. *)
Lemma read_chunks hs l : Forall (λ h, 0 ≤ h < 2 ^ 256) hs → Forall (λ i, i < 16)%nat l → (length l ≤ 16)%nat → length hs = 16%nat →
  ∀ l2 l1 st, l = l1 ++ l2 →
  foldl (λ r i,
    st ← r;
    match ser_get8 (32 + Z.of_nat i * 33) (concat (map (chunk hs) l)) with
    | None => Throw (runtime_error "short CI node")
    | Some pos =>
      if (pos <? 0) || (16 <=? pos) then Throw (runtime_error "invalid CI node")
      else Ret (set_hash (Z.to_nat pos) (default (nth (Z.to_nat pos) st.1 0) (ser_get256 (Z.of_nat i * 33) (concat (map (chunk hs) l)))) st)
    end) (Ret st) (seq (length l1) (length l2)) = Ret (foldl (λ st i, set_hash i (nth i hs 0) st) st l2).
Proof.
  intros Hr Hb Hlen H16 l2. induction l2 as [|p l2 IH]; intros l1 st El; [done|]. cbn [length seq foldl mbind outcome_bind].
  assert (Hp : (p < 16)%nat) by (rewrite El, Forall_app, Forall_cons in Hb; tauto).
  assert (Hsz : Z.of_nat (length (concat (map (chunk hs) l))) < 2 ^ 63) by (rewrite chunks_len; lia).
  assert (Hh : 0 ≤ nth p hs 0 < 2 ^ 256).
  { destruct (lookup_lt_is_Some_2 hs p ltac:(lia)) as [h Hh]. rewrite (nth_lookup_Some _ _ _ _ Hh). by eapply (Forall_lookup_1 _ _ _ _ Hr). }
  assert (E : concat (map (chunk hs) l) = concat (map (chunk hs) l1) ++ to_be 32 (nth p hs 0) ++ Z.of_nat p :: concat (map (chunk hs) l2)).
  { rewrite El, map_app, concat_app. cbn [map concat]. unfold chunk at 2. by rewrite <- app_assoc. }
  assert (E8 : ser_get8 (32 + Z.of_nat (length l1) * 33) (concat (map (chunk hs) l)) = Some (Z.of_nat p)).
  { rewrite E, app_assoc in *. replace (32 + Z.of_nat (length l1) * 33) with (Z.of_nat (length (concat (map (chunk hs) l1) ++ to_be 32 (nth p hs 0)))).
    - by apply get8_at.
    - rewrite length_app, chunks_len, length_to_be. lia. }
  assert (E256 : ser_get256 (Z.of_nat (length l1) * 33) (concat (map (chunk hs) l)) = Some (nth p hs 0)).
  { rewrite E in *. replace (Z.of_nat (length l1) * 33) with (Z.of_nat (length (concat (map (chunk hs) l1)))) by (rewrite chunks_len; lia).
    by apply get256_at. }
  rewrite E8, E256. destruct (Z.ltb_spec (Z.of_nat p) 0); [lia|]. destruct (Z.leb_spec 16 (Z.of_nat p)); [lia|]. cbn [orb from_option id].
  rewrite Nat2Z.id. specialize (IH (l1 ++ [p]) (set_hash p (nth p hs 0) st)). rewrite length_app, Nat.add_1_r in IH.
  apply IH. by rewrite <- app_assoc.
Qed.

(** Empty branches may be left out. *)
Lemma set_filled hs bs : NoDup bs → ∀ st, (∀ j, j ∈ bs → st.1 !! j = Some 0) →
  foldl (λ st i, set_hash i (nth i hs 0) st) st (filled hs bs) = foldl (λ st i, set_hash i (nth i hs 0) st) st bs.
Proof.
  induction 1 as [|i bs Hi Hnd IH]; intros st Hst; [done|]. unfold filled in *. rewrite filter_cons. cbn [foldl]. case_decide as E.
  - cbn [foldl]. apply IH. intros j Hj. unfold set_hash. cbn [fst]. rewrite list_lookup_insert_ne; [apply Hst; by right|]. by intros ->.
  - assert (nth i hs 0 = 0) as -> by (destruct (decide (nth i hs 0 = 0)); tauto). replace (set_hash i 0 st) with st.
    + apply IH. intros j Hj. apply Hst. by right.
    + unfold set_hash. cbn [Z.eqb]. destruct st as [a m]. cbn [fst snd] in *. f_equal. rewrite list_insert_id; [done|]. apply Hst. left.
Qed.

Lemma read_compressed_correct hs : length hs = 16%nat → Forall (λ h, 0 ≤ h < 2 ^ 256) hs →
  let s := add_compressed hs (mask_of hs) [] in read_compressed s (getLength s) = Ret (hs, mask_of hs).
Proof.
  intros Hl Hr s. unfold s. rewrite add_compressed_bytes. unfold read_compressed, getLength. rewrite chunks_len.
  assert (Hf : (length (filled hs branches) ≤ 16)%nat) by (unfold filled; apply (length_filter _ branches)).
  unfold i32. rewrite Z.mod_small by lia. replace (Z.to_nat _) with (length (filled hs branches)).
  2:{ replace (Z.of_nat (33 * length (filled hs branches)) + 2 ^ 31 - 2 ^ 31) with (Z.of_nat (length (filled hs branches)) * 33) by lia.
      by rewrite Z.div_mul, Nat2Z.id. }
  rewrite (read_chunks hs (filled hs branches) Hr) with (l1 := []); [|..|done|done].
  - rewrite set_filled; [by rewrite set_all|apply NoDup_seq|]. intros j Hj%list_elem_of_In%in_seq. unfold no_hashes. cbn [fst].
    apply lookup_replicate_2. lia.
  - apply Forall_forall. intros i [_ Hi%list_elem_of_In%in_seq]%list_elem_of_filter. lia.
  - done.
Qed.

(** *** Leaves *)

Lemma read_leaf_correct data k short invalid zero_ok : 0 ≤ k < 2 ^ 256 → Z.of_nat (length data) < 2 ^ 31 - 64 → (k ≠ 0 ∨ zero_ok = true) →
  read_leaf (data ++ to_be 32 k) short invalid zero_ok = Ret (k, data).
Proof.
  intros Hk Hl Hz. assert (Hlen : getLength (data ++ to_be 32 k) = Z.of_nat (length data) + 32).
  { unfold getLength, i32. rewrite length_app, length_to_be, Z.mod_small; lia. }
  unfold read_leaf. rewrite Hlen. destruct (Z.ltb_spec (Z.of_nat (length data) + 32) 32); [lia|].
  replace (Z.of_nat (length data) + 32 - 32) with (Z.of_nat (length data)) by lia.
  pose proof (get256_at data k [] Hk) as Hg. rewrite app_nil_r in Hg. rewrite Hg by (rewrite length_app, length_to_be; lia). cbn [from_option id].
  unfold chop. rewrite length_app, length_to_be. change (u64 32) with 32. destruct (Z.ltb_spec (Z.of_nat (length data + 32)) 32); [lia|].
  cbn [from_option id]. change (Z.to_nat 32) with 32%nat. rewrite Nat.add_sub, take_app_length.
  destruct Hz as [Hz| ->]; [by rewrite (proj2 (Z.eqb_neq k 0) Hz)|by rewrite andb_false_r].
Qed.

(** The bytes of the leaves. *)
Lemma leaf_addRaw_bytes item type h : leaf_addRaw snfPREFIX item type h = leaf_bytes item type ∧
  leaf_addRaw snfWIRE item type h =
    match type with
    | tnTRANSACTION_NM => item_data item ++ [0]
    | tnACCOUNT_STATE => (item_data item ++ to_be 32 (item_key item)) ++ [1]
    | tnTRANSACTION_MD => (item_data item ++ to_be 32 (item_key item)) ++ [4]
    end.
Proof. unfold leaf_addRaw. rewrite !add32_push. destruct type; cbn [leaf_bytes push addRaw add256 add8 addBitString snd app]; rewrite <- ?app_assoc; done. Qed.

Lemma wire_split (s : list Z) b : last (s ++ [b]) = Some b ∧ take (length (s ++ [b]) - 1) (s ++ [b]) = s.
Proof. split; [apply last_snoc|]. rewrite length_app. cbn [length]. rewrite Nat.add_sub. apply take_app_length. Qed.

Lemma make_wire_snoc s b id : make_wire (s ++ [b]) id =
  let len := getLength s in
  if (b <? 0) || (6 <? b) then Ret None
  else if b =? 0 then Ret (Some (RawLeaf (mkItem (sha512Half (to_be 4 HP_transactionID ++ s)) s) tnTRANSACTION_NM))
  else if b =? 1 then
    '(u, s) ← read_leaf s "short AS node" "invalid AS node" false; Ret (Some (RawLeaf (mkItem u s) tnACCOUNT_STATE))
  else if b =? 2 then
    if negb (len =? 512) then Throw (runtime_error "invalid FI node")
    else let '(hs, br) := read_hashes s in Ret (Some (RawInner hs br))
  else if b =? 3 then '(hs, br) ← read_compressed s len; Ret (Some (RawInner hs br))
  else if b =? 4 then
    '(u, s) ← read_leaf s "short TM node" "invalid TM node" false; Ret (Some (RawLeaf (mkItem u s) tnTRANSACTION_MD))
  else if b =? 5 then
    if negb (len =? 512) then Throw (runtime_error "invalid FI node")
    else let '(hs, br) := read_hashes s in Ret (Some (RawInnerV2 hs br (Z.of_nat (mDepth id)) (mNodeID id)))
  else '(hs, br) ← read_compressed s len; Ret (Some (RawInnerV2 hs br (Z.of_nat (mDepth id)) (mNodeID id))).
Proof. unfold make_wire. destruct (wire_split s b) as [-> ->]. done. Qed.

Lemma wire_leaf item type h id : raw_ok (RawLeaf item type) → make_wire (leaf_addRaw snfWIRE item type h) id = Ret (Some (RawLeaf item type)).
Proof.
  intros (Hk & Hl & Hn). rewrite (proj2 (leaf_addRaw_bytes item type h)). destruct item as [k v]. cbn [item_key item_data] in *.
  destruct type; rewrite make_wire_snoc; cbn [Z.ltb Z.eqb Z.compare Pos.compare Pos.compare_cont Pos.eqb orb].
  - rewrite decide_True in Hn by done. rewrite Hn. done.
  - rewrite decide_False in Hn by done. rewrite read_leaf_correct by auto. done.
  - rewrite decide_False in Hn by done. rewrite read_leaf_correct by auto. done.
Qed.

Lemma prefix_split p s : 0 ≤ p < 2 ^ 32 → (length (to_be 4 p ++ s) <? 4)%nat = false ∧ of_be (take 4 (to_be 4 p ++ s)) = p ∧ drop 4 (to_be 4 p ++ s) = s.
Proof.
  intros Hp. split; [|split].
  - apply Nat.ltb_ge. rewrite length_app, length_to_be. lia.
  - rewrite take_app_length' by by rewrite length_to_be. by apply of_be_to_be.
  - by rewrite drop_app_length' by by rewrite length_to_be.
Qed.

Lemma prefixes_distinct :
  (HP_txNode =? HP_transactionID) = false ∧ (HP_txNode =? HP_leafNode) = false ∧ (HP_txNode =? HP_innerNode) = false ∧
  (HP_txNode =? HP_innerNodeV2) = false ∧ (HP_leafNode =? HP_transactionID) = false ∧ (HP_innerNode =? HP_transactionID) = false ∧
  (HP_innerNode =? HP_leafNode) = false ∧ (HP_innerNode =? HP_innerNodeV2) = false ∧ (HP_innerNodeV2 =? HP_transactionID) = false ∧
  (HP_innerNodeV2 =? HP_leafNode) = false ∧ (HP_innerNodeV2 =? HP_innerNode) = false.
Proof. by vm_compute. Qed.

Ltac tell_prefixes :=
  let H := fresh in
  pose proof prefixes_distinct as H;
  repeat lazymatch type of H with
    | _ ∧ _ => let H' := fresh in destruct H as [H' H]; rewrite ?H'; clear H'
    end;
  rewrite ?H, ?Z.eqb_refl; clear H.

Lemma prefix_leaf item type h : raw_ok (RawLeaf item type) → make_prefix (leaf_addRaw snfPREFIX item type h) = Ret (Some (RawLeaf item type)).
Proof.
  intros (Hk & Hl & Hn). rewrite (proj1 (leaf_addRaw_bytes item type h)). destruct item as [k v]. unfold make_prefix.
  destruct type; cbn [leaf_bytes item_key item_data] in *.
  - rewrite decide_True in Hn by done. destruct (prefix_split HP_transactionID v) as (-> & -> & ->); [by vm_compute|].
    rewrite Z.eqb_refl. rewrite Hn. done.
  - rewrite decide_False in Hn by done. destruct (prefix_split HP_txNode (v ++ to_be 32 k)) as (-> & -> & ->); [by vm_compute|].
    tell_prefixes. cbn [orb]. by rewrite read_leaf_correct by auto.
  - rewrite decide_False in Hn by done. destruct (prefix_split HP_leafNode (v ++ to_be 32 k)) as (-> & -> & ->); [by vm_compute|].
    tell_prefixes. cbn [orb]. by rewrite read_leaf_correct by auto.
Qed.

(** *** Inner nodes *)

Lemma getLength_small s : Z.of_nat (length s) < 2 ^ 31 → getLength s = Z.of_nat (length s).
Proof. intros H. unfold getLength, i32. rewrite Z.mod_small; lia. Qed.

Lemma inner_wire_bytes hs h : length hs = 16%nat →
  inner_addRaw snfWIRE hs (mask_of hs) h =
    if (raw_branchCount (mask_of hs) <? 12)%nat then add_compressed hs (mask_of hs) [] ++ [3] else concat (map (to_be 32) hs) ++ [2].
Proof. intros Hl. cbn [inner_addRaw]. by rewrite add_hashes_bytes. Qed.

Lemma full_512 hs : length hs = 16%nat → getLength (concat (map (to_be 32) hs)) = 512.
Proof. intros H. rewrite getLength_small; rewrite hashes_len, H; lia. Qed.

Lemma read_full hs : length hs = 16%nat → Forall (λ h, 0 ≤ h < 2 ^ 256) hs → read_hashes (concat (map (to_be 32) hs)) = (hs, mask_of hs).
Proof. intros Hl Hr. rewrite <- (app_nil_r (concat _)). by apply read_hashes_correct. Qed.

Lemma wire_inner hs br h id : hashes_ok hs br → make_wire (inner_addRaw snfWIRE hs br h) id = Ret (Some (RawInner hs br)).
Proof.
  intros (Hl & Hr & ->). rewrite inner_wire_bytes by done. destruct (_ <? _)%nat; rewrite make_wire_snoc; cbn [Z.ltb Z.eqb Z.compare Pos.compare Pos.compare_cont Pos.eqb orb].
  - by rewrite read_compressed_correct.
  - by rewrite full_512, read_full.
Qed.

Lemma back_add_snoc s b n : back_add n (s ++ [b]) = s ++ [u8 (b + n)].
Proof. unfold back_add. destruct (wire_split s b) as [-> ->]. done. Qed.

Lemma wire_inner2 hs br h depth common id : hashes_ok hs br → Z.of_nat (mDepth id) = depth → mNodeID id = common →
  make_wire (back_add 3 (inner_addRaw snfWIRE hs br h)) id = Ret (Some (RawInnerV2 hs br depth common)).
Proof.
  intros (Hl & Hr & ->) <- <-. rewrite inner_wire_bytes by done. destruct (_ <? _)%nat; rewrite back_add_snoc, make_wire_snoc;
    change (u8 (3 + 3)) with 6; change (u8 (2 + 3)) with 5; cbn [Z.ltb Z.eqb Z.compare Pos.compare Pos.compare_cont Pos.eqb orb].
  - by rewrite read_compressed_correct.
  - by rewrite full_512, read_full.
Qed.

Lemma inner_prefix_bytes hs br h : inner_addRaw snfPREFIX hs br h = to_be 4 HP_innerNode ++ concat (map (to_be 32) hs).
Proof. cbn [inner_addRaw]. by rewrite add_hashes_bytes, add32_push. Qed.

Lemma prefix_inner hs br h : hashes_ok hs br → make_prefix (inner_addRaw snfPREFIX hs br h) = Ret (Some (RawInner hs br)).
Proof.
  intros (Hl & Hr & ->). rewrite inner_prefix_bytes. unfold make_prefix.
  destruct (prefix_split HP_innerNode (concat (map (to_be 32) hs))) as (-> & -> & ->); [by vm_compute|]. tell_prefixes. cbn [orb].
  by rewrite full_512, read_full.
Qed.

Lemma inner2_prefix_bytes hs depth common : inner2_prefix hs depth common =
  to_be 4 HP_innerNodeV2 ++ concat (map (to_be 32) hs) ++ u8 depth :: take (Z.to_nat ((depth + 1) / 2)) (to_be 32 common).
Proof. unfold inner2_prefix. rewrite add_bytes, add_hashes_bytes, add32_push. cbn [add8 push snd app]. rewrite <- !app_assoc. done. Qed.

(** The bytes of [common_] that are stored. *)
Lemma read_common_correct pre d common n : length pre = 512%nat → (n ≤ 32)%nat → 0 ≤ common < 2 ^ 256 →
  drop n (to_be 32 common) = replicate (32 - n) 0 →
  read_common (Z.of_nat n) (pre ++ d :: take n (to_be 32 common)) = Ret common.
Proof.
  intros Hpre Hn Hc Hz. unfold read_common. destruct (Z.ltb_spec 32 (Z.of_nat n)); [lia|]. rewrite Nat2Z.id.
  assert (E : map (λ i, default 0 (ser_get8 (512 + 1 + Z.of_nat i) (pre ++ d :: take n (to_be 32 common)))) (seq 0 n) = take n (to_be 32 common)).
  { apply list_eq. intros i. rewrite list_lookup_fmap. destruct (decide (i < n)%nat) as [Hi|Hi].
    - rewrite lookup_seq_lt by done. cbn [fmap option_fmap option_map]. destruct (lookup_lt_is_Some_2 (take n (to_be 32 common)) i) as [b Hb].
      { rewrite length_take, length_to_be. lia. }
      rewrite Hb. f_equal. rewrite <- (take_drop_middle _ _ _ Hb). set (a := take i _). set (z := drop (S i) _).
      assert (Ha : length a = i) by (unfold a; rewrite length_take, length_take, length_to_be; lia).
      assert (Hzl : (length z ≤ 32)%nat) by (unfold z; rewrite length_drop, length_take, length_to_be; lia).
      replace (pre ++ d :: a ++ b :: z) with ((pre ++ d :: a) ++ b :: z) by by rewrite <- app_assoc.
      replace (512 + 1 + Z.of_nat (0 + i)) with (Z.of_nat (length (pre ++ d :: a))) by (rewrite length_app; cbn [length]; lia).
      rewrite get8_at; [done|]. rewrite !length_app. cbn [length]. lia.
    - rewrite (lookup_ge_None_2 (seq 0 n)) by (rewrite length_seq; lia). rewrite lookup_ge_None_2; [done|]. rewrite length_take. lia. }
  rewrite E. rewrite length_take, length_to_be, Nat.min_l, <- Hz, take_drop by lia. by rewrite of_be_to_be.
Qed.

Lemma prefix_inner2 hs br depth common : raw_ok (RawInnerV2 hs br depth common) →
  make_prefix (inner2_prefix hs depth common) = Ret (Some (RawInnerV2 hs br depth common)).
Proof.
  intros ((Hl & Hr & ->) & Hd & Hc & Hz). rewrite inner2_prefix_bytes. unfold make_prefix. cbn zeta in Hz.
  set (n := Z.to_nat ((depth + 1) / 2)) in *. assert (Hn : 0 ≤ (depth + 1) / 2 ≤ 32) by div_lia.
  assert (Hn32 : (n ≤ 32)%nat) by (unfold n; lia). set (s := concat (map (to_be 32) hs) ++ u8 depth :: take n (to_be 32 common)).
  destruct (prefix_split HP_innerNodeV2 s) as (-> & -> & ->); [by vm_compute|].
  assert (Hlen : length s = (513 + n)%nat).
  { unfold s. rewrite length_app, hashes_len. cbn [length]. rewrite length_take, length_to_be. lia. }
  rewrite (getLength_small s) by (rewrite Hlen; lia). rewrite Hlen. tell_prefixes. cbn [orb andb negb].
  destruct (Z.ltb_spec (Z.of_nat (513 + n)) 512); [lia|]. destruct (Z.eqb_spec (Z.of_nat (513 + n)) 512); [lia|]. cbn [orb andb negb].
  assert (Hu : u8 depth = depth) by (unfold u8; apply Z.mod_small; lia).
  assert (Hg : ser_get8 512 s = Some depth).
  { unfold s. rewrite Hu. replace 512 with (Z.of_nat (length (concat (map (to_be 32) hs)))) by (rewrite hashes_len, Hl; lia).
    apply get8_at. rewrite length_app, hashes_len. cbn [length]. rewrite length_take, length_to_be. lia. }
  rewrite Hg. cbn [from_option id]. unfold s. rewrite read_hashes_correct; [|done|done|cbn [length]; rewrite length_take, length_to_be; lia].
  replace ((depth + 1) / 2) with (Z.of_nat n) by (unfold n; lia). destruct (Z.eqb_spec (Z.of_nat (513 + n)) (512 + 1 + Z.of_nat n)); [|lia]. cbn [negb].
  rewrite read_common_correct; [done|rewrite hashes_len, Hl; done|done|done|done].
Qed.
End Wire.

(** The identifier that is given for a node of version 2 that has been sent. *)
Definition id_matches (n : RawNode) (id : SHAMapNodeID) : Prop :=
  match n with RawInnerV2 _ _ depth common => Z.of_nat (mDepth id) = depth ∧ mNodeID id = common | _ => True end.

Definition nonempty (n : RawNode) : Prop :=
  match n with RawLeaf _ _ => True | RawInner _ br | RawInnerV2 _ br _ _ => br ≠ 0 end.

(** C29: a node of any kind is read back from its stored and from its sent form, with the hash
    that is given or computed; and the computed hash is the hash of the stored form. *)
Theorem node_roundtrip `{Hash : Sha512} (n : RawNode) (id : SHAMapNodeID) (mHash hash : Z) (hashValid : bool) :
  raw_ok n → id_matches n id →
  let result := Ret (Some (n, if hashValid then hash else raw_hash n)) in
  make (node_addRaw snfWIRE n mHash) snfWIRE hash hashValid id = result ∧
  make (node_addRaw snfPREFIX n mHash) snfPREFIX hash hashValid id = result ∧
  (nonempty n → raw_hash n = sha512Half (node_addRaw snfPREFIX n mHash)).
Proof.
  intros Hok Hid. cbn zeta. unfold make. destruct n as [item type|hs br|hs br depth common]; cbn [node_addRaw raw_hash nonempty].
  - rewrite wire_leaf, prefix_leaf by done. split; [done|]. split; [done|]. intros _. unfold leaf_hash. by rewrite (proj1 (leaf_addRaw_bytes item type mHash)).
  - rewrite wire_inner, prefix_inner by done. split; [done|]. split; [done|]. intros Hne. by rewrite (proj2 (Z.eqb_neq br 0) Hne), inner_prefix_bytes.
  - rewrite wire_inner2 with (depth := depth) (common := common) by (apply Hok || apply Hid). rewrite (prefix_inner2 hs br) by done.
    split; [done|]. split; [done|]. intros Hne. by rewrite (proj2 (Z.eqb_neq br 0) Hne).
Qed.

(** An inner node of version 2 with two branches. *)
Definition test_raw : RawNode :=
  RawInnerV2 (<[3%nat := 77]> (<[9%nat := 2 ^ 200]> (replicate 16 0))) (2 ^ 3 + 2 ^ 9) 5 (0xabcde * 2 ^ 236).

Lemma node_roundtrip_witness :
  let id := mkNodeID 5 (0xabcde * 2 ^ 236) in
  let result := Ret (Some (test_raw, @raw_hash number_hash test_raw)) in
  @make number_hash (node_addRaw snfWIRE test_raw 0) snfWIRE 1 false id = result ∧
  @make number_hash (node_addRaw snfPREFIX test_raw 0) snfPREFIX 1 false id = result ∧
  (nonempty test_raw → @raw_hash number_hash test_raw = @sha512Half number_hash (node_addRaw snfPREFIX test_raw 0)).
Proof.
  apply (@node_roundtrip number_hash test_raw (mkNodeID 5 (0xabcde * 2 ^ 236)) 0 1 false).
  - unfold test_raw, raw_ok, hashes_ok. split; [split; [reflexivity|split; [|reflexivity]]|split; [lia|split; [lia|vm_compute; reflexivity]]].
    apply (bool_decide_unpack _). vm_compute. exact I.
  - split; reflexivity.
Defined.

(** A stored node of version 2 whose depth is not one of the 64 levels is not refused before
    its bytes are copied. *)
Definition deep_blob : list Z := to_be 4 HP_innerNodeV2 ++ replicate 512 0 ++ [255] ++ replicate 128 0.

Lemma common_overrun `{Hash : Sha512} : make_prefix deep_blob = Throw (logic_error "write past the end of common_").
Proof. vm_compute. reflexivity. Qed.
