(* ===== verification/CanonicalTXSet.v ===== *)
(** * The canonical order of transactions

    Model of [src/src/ripple/app/misc/CanonicalTXSet.h] and [CanonicalTXSet.cpp]: the set of
    transactions that have been agreed on, in the order in which every server applies
    them; and of [app/ledger/impl/LocalTxs.cpp], the transactions a server keeps for a few
    ledgers.

    The [std::map] is the list of its elements in order.  The order is by account, which is
    hidden by the salt, then by sequence, then by identity.  [canonical_order] shows that the
    set does not depend on the order in which the transactions came. *)

From stdpp Require Import base numbers list gmap strings sorting.
From Stdlib Require Import Lia ZArith.
From S2P Require Import Prelude Serializer StateTable SField STObject Indexes STTx Transactor.

Local Open Scope Z_scope.

(** ** Keys *)

Record TXKey : Type := mkTXKey { mAccount : Z; mSeq : Z; mTXid : Z }.

Definition key_less (a b : TXKey) : bool :=
  if mAccount a <? mAccount b then true
  else if mAccount b <? mAccount a then false
  else if mSeq a <? mSeq b then true
  else if mSeq b <? mSeq a then false
  else mTXid a <? mTXid b.

Definition key_greater (a b : TXKey) : bool :=
  if mAccount b <? mAccount a then true
  else if mAccount a <? mAccount b then false
  else if mSeq b <? mSeq a then true
  else if mSeq a <? mSeq b then false
  else mTXid b <? mTXid a.

Definition key_less_eq (a b : TXKey) : bool :=
  if mAccount a <? mAccount b then true
  else if mAccount b <? mAccount a then false
  else if mSeq a <? mSeq b then true
  else if mSeq b <? mSeq a then false
  else mTXid a <=? mTXid b.

Definition key_greater_eq (a b : TXKey) : bool :=
  if mAccount b <? mAccount a then true
  else if mAccount a <? mAccount b then false
  else if mSeq b <? mSeq a then true
  else if mSeq a <? mSeq b then false
  else mTXid b <=? mTXid a.

(** ** The set *)

Abbreviation TXMap := (list (TXKey * STTx)).

Record CanonicalTXSet : Type := mkTXSet { map_ : TXMap; salt_ : Z }.

Definition make_txset (saltHash : Z) : CanonicalTXSet := mkTXSet [] saltHash.

(** [reset]. *)
Definition reset_txset (salt : Z) (s : CanonicalTXSet) : CanonicalTXSet := mkTXSet [] salt.

(** The account is the first 20 of 32 bytes. *)
Definition accountKey (salt account : Z) : Z := Z.lxor (account ≪ 96) salt.

Definition tx_key (salt : Z) (txn : STTx) : outcome TXKey :=
  account ← getAccountID (tx_obj txn) sfAccount;
  seq ← getSequence txn;
  Ret (mkTXKey (accountKey salt account) seq (tid_ txn)).

(** [std::map::insert]. *)
Fixpoint map_insert (k : TXKey) (txn : STTx) (l : TXMap) : TXMap :=
  match l with
  | [] => [(k, txn)]
  | (k', txn') :: l' =>
    if key_less k k' then (k, txn) :: l
    else if key_less k' k then (k', txn') :: map_insert k txn l'
    else l
  end.

Definition txset_insert (txn : STTx) (s : CanonicalTXSet) : outcome CanonicalTXSet :=
  k ← tx_key (salt_ s) txn; Ret (mkTXSet (map_insert k txn (map_ s)) (salt_ s)).

(** The number of elements before [lower_bound]. *)
Fixpoint lower_bound (k : TXKey) (l : TXMap) : nat :=
  match l with
  | [] => 0
  | (k', _) :: l => if key_less k' k then S (lower_bound k l) else 0
  end.

(** [prune].  A range whose begin is after its end is not one. *)
Definition prune (account seq : Z) (s : CanonicalTXSet) : outcome (list STTx * CanonicalTXSet) :=
  let effectiveAccount := accountKey (salt_ s) account in
  let low := lower_bound (mkTXKey effectiveAccount seq 0) (map_ s) in
  let high := lower_bound (mkTXKey effectiveAccount (u32 (seq + 1)) 0) (map_ s) in
  if (high <? low)%nat then Throw (logic_error "invalid range")
  else Ret (map snd (drop low (take high (map_ s))), mkTXSet (take low (map_ s) ++ drop high (map_ s)) (salt_ s)).

(** Transactions that come one after the other. *)
Fixpoint insert_all (txns : list STTx) (s : CanonicalTXSet) : outcome CanonicalTXSet :=
  match txns with
  | [] => Ret s
  | t :: txns => s ← txset_insert t s; insert_all txns s
  end.

(** ** Local transactions *)

Record LocalTx : Type := mkLocal { m_txn : STTx; m_expire : Z; m_id : Z; m_account : Z; m_seq : Z }.

Definition holdLedgers : Z := 5.

Definition make_local (index : Z) (txn : STTx) : outcome LocalTx :=
  account ← getAccountID (tx_obj txn) sfAccount;
  seq ← getSequence txn;
  let expire := u32 (index + holdLedgers) in
  expire ← (if isFieldPresent (tx_obj txn) sfLastLedgerSequence then
              last ← getFieldU32 (tx_obj txn) sfLastLedgerSequence; Ret (Z.min expire (u32 (last + 1)))
            else Ret expire);
  Ret (mkLocal txn expire (tid_ txn) account seq).

Definition isExpired (i : Z) (t : LocalTx) : bool := m_expire t <? i.

Definition push_local (index : Z) (txn : STTx) (m_txns : list LocalTx) : outcome (list LocalTx) :=
  t ← make_local index txn; Ret (m_txns ++ [t]).

(** [getTxSet]. *)
Definition local_set (m_txns : list LocalTx) : outcome CanonicalTXSet := insert_all (map m_txn m_txns) (make_txset 0).

(** Whether [sweep] removes a transaction. *)
Definition swept `{Hash : Sha512} (view : ReadView STObject) (seq : Z) (txExists : Z → bool) (t : LocalTx) : outcome bool :=
  if isExpired seq t then Ret true
  else if txExists (m_id t) then Ret true
  else match rv_read view (kl_account (m_account t)) with
       | None => Ret false
       | Some sle => s ← getFieldU32 (sle_body sle) sfSequence; Ret (m_seq t <? s)
       end.

Fixpoint sweep `{Hash : Sha512} (view : ReadView STObject) (seq : Z) (txExists : Z → bool) (m_txns : list LocalTx) : outcome (list LocalTx) :=
  match m_txns with
  | [] => Ret []
  | t :: m_txns =>
    gone ← swept view seq txExists t;
    rest ← sweep view seq txExists m_txns;
    Ret (if (gone : bool) then rest else t :: rest)
  end.

(** ** The order is total *)

Definition key_lt (a b : TXKey) : Prop :=
  mAccount a < mAccount b ∨ mAccount a = mAccount b ∧ (mSeq a < mSeq b ∨ mSeq a = mSeq b ∧ mTXid a < mTXid b).

Lemma key_less_spec a b : key_less a b = true ↔ key_lt a b.
Proof.
  unfold key_less, key_lt. destruct (Z.ltb_spec (mAccount a) (mAccount b)); [intuition lia|].
  destruct (Z.ltb_spec (mAccount b) (mAccount a)); [intuition (done || lia)|].
  destruct (Z.ltb_spec (mSeq a) (mSeq b)); [intuition lia|]. destruct (Z.ltb_spec (mSeq b) (mSeq a)); [intuition (done || lia)|].
  rewrite Z.ltb_lt. intuition lia.
Qed.

Lemma key_less_false a b : key_less a b = false ↔ ¬ key_lt a b.
Proof. rewrite <- key_less_spec. by destruct (key_less a b). Qed.

(** Keys that are not ordered are equal. *)
Lemma key_total a b : ¬ key_lt a b → ¬ key_lt b a → a = b.
Proof. destruct a, b. unfold key_lt. cbn. intros H1 H2. f_equal; lia. Qed.

Lemma key_lt_trans a b c : key_lt a b → key_lt b c → key_lt a c.
Proof. unfold key_lt. lia. Qed.

(** The other operators are what their names say. *)
Lemma key_operators a b : key_greater a b = key_less b a ∧ key_less_eq a b = negb (key_less b a) ∧ key_greater_eq a b = negb (key_less a b).
Proof.
  unfold key_greater, key_less, key_less_eq, key_greater_eq. split; [done|].
  destruct (Z.ltb_spec (mAccount a) (mAccount b)); destruct (Z.ltb_spec (mAccount b) (mAccount a)); try lia; try done.
  destruct (Z.ltb_spec (mSeq a) (mSeq b)); destruct (Z.ltb_spec (mSeq b) (mSeq a)); try lia; try done.
Qed.

(** ** Inserting *)

Definition before (a b : TXKey * STTx) : Prop := key_lt a.1 b.1.

#[export] Instance before_antisymm : AntiSymm (=) before.
Proof. intros [a ?] [b ?]. unfold before, key_lt. cbn. lia. Qed.

Lemma map_insert_perm k t l : k ∉ l.*1 → map_insert k t l ≡ₚ (k, t) :: l.
Proof.
  induction l as [|[k' t'] l IH]; intros Hk; [done|]. cbn [map_insert]. cbn [fmap list_fmap fst] in Hk. apply not_elem_of_cons in Hk as [Hne Hk].
  destruct (key_less k k') eqn:E1; [done|]. destruct (key_less k' k) eqn:E2.
  - rewrite IH by done. constructor.
  - apply key_less_false in E1, E2. by destruct (Hne (key_total _ _ E1 E2)).
Qed.

Lemma map_insert_sorted k t l : k ∉ l.*1 → StronglySorted before l → StronglySorted before (map_insert k t l).
Proof.
  intros Hk Hs. induction Hs as [|[k' t'] l Hs IH Hall]; [by repeat constructor|]. cbn [map_insert].
  cbn [fmap list_fmap fst] in Hk. apply not_elem_of_cons in Hk as [Hne Hk]. destruct (key_less k k') eqn:E1.
  - apply key_less_spec in E1. constructor; [by constructor|]. constructor; [done|]. eapply Forall_impl; [exact Hall|].
    intros [k2 t2] H2. by eapply key_lt_trans.
  - destruct (key_less k' k) eqn:E2; [|apply key_less_false in E1, E2; by destruct (Hne (key_total _ _ E1 E2))].
    apply key_less_spec in E2. constructor; [by apply IH|]. rewrite map_insert_perm by done. by constructor.
Qed.

(** The elements that a list of transactions makes. *)
Inductive keyed_list (salt : Z) : list STTx → TXMap → Prop :=
| keyed_nil : keyed_list salt [] []
| keyed_cons t k txns l : tx_key salt t = Ret k → keyed_list salt txns l → keyed_list salt (t :: txns) ((k, t) :: l).

Lemma keyed_ids salt txns l : keyed_list salt txns l → map snd l = txns ∧ ∀ k, k ∈ l.*1 → mTXid k ∈ map tid_ txns.
Proof.
  induction 1 as [|t k txns l Hk _ [IH1 IH2]]; [split; [done|]; intros k []%not_elem_of_nil|]. cbn [map]. split; [by rewrite IH1|].
  intros k' [->|Hk']%elem_of_cons; [|right; by apply IH2]. unfold tx_key in Hk. apply outcome_bind_Ret in Hk as (a & _ & Hk).
  apply outcome_bind_Ret in Hk as (q & _ & [= <-]). left.
Qed.

Lemma insert_all_correct salt txns : NoDup (map tid_ txns) → Forall (λ t, ∃ k, tx_key salt t = Ret k) txns → ∀ l0,
  StronglySorted before l0 → (∀ k, k ∈ l0.*1 → mTXid k ∉ map tid_ txns) →
  ∃ l1 l, keyed_list salt txns l1 ∧ insert_all txns (mkTXSet l0 salt) = Ret (mkTXSet l salt) ∧ StronglySorted before l ∧ l ≡ₚ l1 ++ l0.
Proof.
  intros Hnd Hall. induction Hall as [|t txns [k Hk] Hall IH]; intros l0 Hs Hn.
  { exists [], l0. split; [constructor|]. by split. }
  cbn [map] in Hnd. apply NoDup_cons in Hnd as [Ht Hnd]. cbn [insert_all txset_insert salt_ map_]. unfold txset_insert. cbn [salt_ map_].
  assert (Hid : mTXid k = tid_ t).
  { unfold tx_key in Hk. apply outcome_bind_Ret in Hk as (a & _ & Hk'). by apply outcome_bind_Ret in Hk' as (q & _ & [= <-]). }
  assert (Hk0 : k ∉ l0.*1) by (intros Hin; apply (Hn k Hin); rewrite Hid; left).
  rewrite Hk. cbn [mbind outcome_bind]. destruct (IH Hnd (map_insert k t l0)) as (l1 & l & Hl1 & Hi & Hs' & Hp).
  { by apply map_insert_sorted. }
  { intros k' Hk'. rewrite (map_insert_perm k t l0 Hk0) in Hk'. apply elem_of_cons in Hk' as [->|Hk'].
    - cbn [fst]. by rewrite Hid.
    - intros Hin. apply (Hn k' Hk'). by right. }
  exists ((k, t) :: l1), l. split; [by constructor|]. split; [done|]. split; [done|]. rewrite Hp, (map_insert_perm k t l0 Hk0). cbn [app].
  symmetry. apply Permutation_middle.
Qed.

Lemma keyed_perm salt txns txns' l l' : txns ≡ₚ txns' → keyed_list salt txns l → keyed_list salt txns' l' → l ≡ₚ l'.
Proof.
  assert (Hf : ∀ txns l, keyed_list salt txns l → l = omap (λ t, match tx_key salt t with Ret k => Some (k, t) | Throw _ => None end) txns).
  { induction 1 as [|t k ts l0 Hk _ IH]; [done|]. cbn [omap list_omap]. rewrite Hk. by f_equal. }
  intros Hp H%Hf H'%Hf. subst. by rewrite Hp.
Qed.

(** Every element is filed under the key of its transaction. *)
Lemma keyed_elem salt txns l k t : keyed_list salt txns l → (k, t) ∈ l → tx_key salt t = Ret k.
Proof.
  induction 1 as [|t' k' txns l Hk _ IH]; [by intros []%not_elem_of_nil|].
  intros [[= -> ->]|H]%elem_of_cons; [done|by apply IH].
Qed.

Lemma tx_key_fields salt t k a q :
  tx_key salt t = Ret k → getAccountID (tx_obj t) sfAccount = Ret a → getSequence t = Ret q →
  mAccount k = accountKey salt a ∧ mSeq k = q.
Proof.
  unfold tx_key. intros Hk Ha Hq. rewrite Ha in Hk. cbn [mbind outcome_bind] in Hk. rewrite Hq in Hk. by injection Hk as <-.
Qed.

Lemma sorted_before l i j x y :
  StronglySorted before l → (i < j)%nat → l !! i = Some x → l !! j = Some y → before x y.
Proof.
  intros Hs. revert i j. induction Hs as [|z l Hs IH Hz]; intros [|i] [|j] Hij Hx Hy; try done; try lia.
  - injection Hx as ->. rewrite Forall_forall in Hz. apply Hz. by eapply list_elem_of_lookup_2.
  - apply (IH i j); [lia|done|done].
Qed.

(** C14: the set of transactions that has been agreed on is applied in the same order by every
    server, in whatever order the transactions came: the set is the same, it has every
    transaction once, and of two transactions that name the same account the one with the
    smaller sequence number comes first. *)
Theorem canonical_order (salt : Z) (txns txns' : list STTx) :
  NoDup (map tid_ txns) → Forall (λ t, ∃ k, tx_key salt t = Ret k) txns → txns ≡ₚ txns' →
  ∃ s, insert_all txns (make_txset salt) = Ret s ∧ insert_all txns' (make_txset salt) = Ret s ∧
    map snd (map_ s) ≡ₚ txns ∧
    ∀ i j t t' a q q', map snd (map_ s) !! i = Some t → map snd (map_ s) !! j = Some t' →
      getAccountID (tx_obj t) sfAccount = Ret a → getAccountID (tx_obj t') sfAccount = Ret a →
      getSequence t = Ret q → getSequence t' = Ret q' → q < q' → (i < j)%nat.
Proof.
  intros Hnd Hall Hp. assert (Hnd' : NoDup (map tid_ txns')) by (change (NoDup (tid_ <$> txns')); by rewrite <- Hp).
  assert (Hall' : Forall (λ t, ∃ k, tx_key salt t = Ret k) txns') by by rewrite <- Hp.
  destruct (insert_all_correct salt txns Hnd Hall []) as (l1 & l & Hl1 & Hi & Hs & Hpl); [constructor|by intros k []%not_elem_of_nil|].
  destruct (insert_all_correct salt txns' Hnd' Hall' []) as (l1' & l' & Hl1' & Hi' & Hs' & Hpl'); [constructor|by intros k []%not_elem_of_nil|].
  rewrite app_nil_r in Hpl, Hpl'. assert (l = l') as <-.
  { apply (StronglySorted_unique before); [done|done|]. rewrite Hpl, Hpl'. by eapply keyed_perm. }
  exists (mkTXSet l salt). split; [done|]. split; [done|]. cbn [map_]. split.
  - rewrite <- (proj1 (keyed_ids _ _ _ Hl1)). by apply Permutation_map.
  - intros i j t t' a q q' Ht Ht' Ha Ha' Hq Hq' Hlt. change (map snd l) with (snd <$> l) in Ht, Ht'.
    apply list_lookup_fmap_Some in Ht as ([k t1] & -> & Hk), Ht' as ([k' t1'] & -> & Hk'). cbn [snd] in *.
    assert (Hkey : ∀ n k t, l !! n = Some (k, t) → tx_key salt t = Ret k).
    { intros n k0 t0 Hn%list_elem_of_lookup_2. rewrite Hpl in Hn. exact (keyed_elem _ _ _ _ _ Hl1 Hn). }
    destruct (tx_key_fields _ _ _ _ _ (Hkey _ _ _ Hk) Ha Hq) as [Eacc Eseq].
    destruct (tx_key_fields _ _ _ _ _ (Hkey _ _ _ Hk') Ha' Hq') as [Eacc' Eseq'].
    destruct (Nat.lt_trichotomy i j) as [?|[->|Hji]]; [done|rewrite Hk in Hk'; injection Hk' as <- <-; lia|].
    pose proof (sorted_before l j i _ _ Hs Hji Hk' Hk) as Hb. unfold before, key_lt in Hb. cbn in Hb. lia.
Qed.

(** Transactions of two accounts. *)
Definition test_tx (account seq id : Z) : STTx :=
  mkTx (mkObject None [(sfAccount, c_make AccountID account); (sfSequence, c_make U32 seq)]) id 5.

Lemma canonical_order_witness :
  let txns := [test_tx 7 2 30; test_tx 5 9 31; test_tx 7 1 32] in
  let txns' := [test_tx 7 1 32; test_tx 7 2 30; test_tx 5 9 31] in
  ∃ s, insert_all txns (make_txset 3) = Ret s ∧ insert_all txns' (make_txset 3) = Ret s ∧
    map snd (map_ s) ≡ₚ txns ∧
    ∀ i j t t' a q q', map snd (map_ s) !! i = Some t → map snd (map_ s) !! j = Some t' →
      getAccountID (tx_obj t) sfAccount = Ret a → getAccountID (tx_obj t') sfAccount = Ret a →
      getSequence t = Ret q → getSequence t' = Ret q' → q < q' → (i < j)%nat.
Proof.
  apply (canonical_order 3 [test_tx 7 2 30; test_tx 5 9 31; test_tx 7 1 32] [test_tx 7 1 32; test_tx 7 2 30; test_tx 5 9 31]).
  - apply (bool_decide_unpack _). vm_compute. exact I.
  - repeat (constructor; [eexists; vm_compute; reflexivity|]). constructor.
  - symmetry. apply (Permutation_cons_append [test_tx 7 2 30; test_tx 5 9 31]).
Defined.

(** ** Pruning *)

Lemma lower_bound_filter k l : StronglySorted before l →
  take (lower_bound k l) l = filter (λ x, key_less x.1 k = true) l ∧ drop (lower_bound k l) l = filter (λ x, key_less x.1 k = false) l.
Proof.
  induction 1 as [|[k' t] l Hs [IH1 IH2] Hall]; [done|]. cbn [lower_bound]. rewrite !filter_cons. cbn [fst].
  destruct (key_less k' k) eqn:E.
  - rewrite decide_True, decide_False by done. cbn [take drop]. by rewrite IH1, IH2.
  - rewrite decide_False, decide_True by done. cbn [take drop].
    assert (Hno : ∀ x, x ∈ l → key_less x.1 k = false).
    { intros x Hx. rewrite Forall_forall in Hall. specialize (Hall x Hx). apply key_less_false in E. apply key_less_false. intros H.
      apply E. by eapply key_lt_trans. }
    clear -Hno. split; [|f_equal].
    + symmetry. induction l as [|x l IH]; [done|]. rewrite filter_cons, decide_False; [apply IH; intros; apply Hno; by right|].
      rewrite Hno; [done|left].
    + induction l as [|x l IH]; [done|]. rewrite filter_cons, decide_True by (apply Hno; left). f_equal. apply IH. intros. apply Hno. by right.
Qed.

Lemma key_between acc seq k : 0 ≤ mTXid k →
  negb (key_less k (mkTXKey acc seq 0)) && key_less k (mkTXKey acc (seq + 1) 0) = (mAccount k =? acc) && (mSeq k =? seq).
Proof.
  intros Hid. apply eq_true_iff_eq. rewrite !andb_true_iff, negb_true_iff, key_less_false, key_less_spec, !Z.eqb_eq.
  unfold key_lt. cbn [mAccount mSeq mTXid]. lia.
Qed.

Lemma filter_ext_in (P Q : TXKey * STTx → bool) b (l : TXMap) : (∀ x, x ∈ l → P x = Q x) → filter (λ x, P x = b) l = filter (λ x, Q x = b) l.
Proof.
  induction l as [|x l IH]; intros H; [done|]. rewrite !filter_cons, (H x) by left. rewrite IH by (intros; apply H; by right). done.
Qed.

(** Between two keys. *)
Lemma range_filter low high l : key_lt low high → StronglySorted before l →
  let P (x : TXKey * STTx) := negb (key_less x.1 low) && key_less x.1 high in
  (lower_bound low l ≤ lower_bound high l)%nat ∧
  drop (lower_bound low l) (take (lower_bound high l) l) = filter (λ x, P x = true) l ∧
  take (lower_bound low l) l ++ drop (lower_bound high l) l = filter (λ x, P x = false) l.
Proof.
  intros Hlh Hs P. induction Hs as [|[k t] l Hs (IH1 & IH2 & IH3) Hall]; [done|]. destruct (key_less k low) eqn:E1.
  - assert (E2 : key_less k high = true) by (apply key_less_spec in E1; apply key_less_spec; by eapply key_lt_trans).
    cbn [lower_bound]. rewrite E1, E2. assert (EP : P (k, t) = false) by (unfold P; cbn [fst]; by rewrite E1).
    rewrite !filter_cons, decide_False, decide_True by congruence. cbn [take drop app]. split; [lia|]. by rewrite IH2, IH3.
  - assert (Hge : ∀ x, x ∈ (k, t) :: l → P x = key_less x.1 high).
    { intros x Hx. unfold P. replace (key_less x.1 low) with false; [done|]. symmetry. apply elem_of_cons in Hx as [->|Hx]; [done|].
      rewrite Forall_forall in Hall. apply key_less_false. apply key_less_false in E1. intros H. apply E1. eapply key_lt_trans; [by apply (Hall x)|done]. }
    rewrite (filter_ext_in _ _ true _ Hge), (filter_ext_in _ _ false _ Hge).
    destruct (lower_bound_filter high ((k, t) :: l)) as [H1 H2]; [by constructor|].
    replace (lower_bound low ((k, t) :: l)) with 0%nat by (cbn [lower_bound]; by rewrite E1). rewrite drop_0, take_0. split; [lia|]. by split.
Qed.

(** Pruning takes out exactly the transactions of an account with a sequence number. *)
Lemma prune_correct account seq s : StronglySorted before (map_ s) → (∀ x, x ∈ map_ s → 0 ≤ mTXid x.1) → 0 ≤ seq < 2 ^ 32 - 1 →
  let mine (x : TXKey * STTx) := (mAccount x.1 =? accountKey (salt_ s) account) && (mSeq x.1 =? seq) in
  prune account seq s = Ret (map snd (filter (λ x, mine x = true) (map_ s)), mkTXSet (filter (λ x, mine x = false) (map_ s)) (salt_ s)).
Proof.
  intros Hs Hid Hseq mine. unfold prune. rewrite (u32_small (seq + 1)) by (unfold in_u32; lia).
  set (low := mkTXKey _ seq 0). set (high := mkTXKey _ (seq + 1) 0).
  assert (Hmine : ∀ x, x ∈ map_ s → negb (key_less x.1 low) && key_less x.1 high = mine x) by (intros x Hx; apply key_between; by apply Hid).
  destruct (range_filter low high (map_ s)) as (Hle & H1 & H2); [unfold key_lt; cbn; lia|done|].
  rewrite (filter_ext_in _ _ true _ Hmine) in H1. rewrite (filter_ext_in _ _ false _ Hmine) in H2.
  destruct (Nat.ltb_spec (lower_bound high (map_ s)) (lower_bound low (map_ s))); [lia|]. by rewrite H1, H2.
Qed.

(** After the last sequence number comes zero, and the range ends before it begins. *)
Lemma prune_last_sequence : ∃ s, insert_all [test_tx 7 1 30] (make_txset 3) = Ret s ∧ prune 7 (2 ^ 32 - 1) s = Throw (logic_error "invalid range").
Proof. exists (match insert_all [test_tx 7 1 30] (make_txset 3) with Ret s => s | Throw _ => make_txset 3 end). split; vm_compute; reflexivity. Qed.
