(* ===== verification/BuildLedger.v ===== *)
(** * Building a ledger

    Model of [src/src/ripple/app/ledger/impl/BuildLedger.cpp] and of [apply] and
    [applyTransaction] of [app/tx/impl/apply.cpp]: the transactions that have been agreed on are
    applied in their canonical order, those that may succeed later again, in at most three
    passes.

    The view [accum] is the ledger it will be applied to: [sandbox_commit] of [StateTable] shows
    that the view and the ledger it is committed to show the same entries.  The types of
    transactions are the interface [TxType]; the application's clock and load are
    arguments.  The list of skipped ledger hashes, flushing to the node store and the header
    of the new ledger are not modelled. *)

From stdpp Require Import base numbers list gmap strings sorting.
From Stdlib Require Import Lia ZArith.
From S2P Require Import Prelude XRPAmount Serializer STAmount StateTable SField STObject STObjectWire STObjectLaws Entry Indexes ApplyView.
From S2P Require Import ViewLogic Directory TxBase Invariants Keys HashRouter STTx LoadFeeTrack View Transactor AccountTx Escrow EscrowLaws TransactorLaws ReplayLaws CanonicalTXSet.

Local Open Scope Z_scope.

(** The ledger that is built, the transactions in it, and the router. *)
Record BuildState : Type := mkBuild { b_ledger : LedgerState STObject; b_txs : gset Z; b_router : HashRouter }.

Inductive ApplyResult := Success | Fail | Retry.

Definition LEDGER_TOTAL_PASSES : nat := 3.
Definition LEDGER_RETRY_PASSES : Z := 1.

Section Build.
Context `{Hash : Sha512} `{Lib : Crypto} (types : STTx → TxType) (info : ViewInfo) (now : Z) (track : LoadFeeTrack).

(** [apply]. *)
Definition apply_tx (tx : STTx) (flags : Z) (b : BuildState) : TER * bool * BuildState :=
  let view := map_view (l_map (b_ledger b)) in
  let T := types tx in
  let '(pfresult, router) := tx_preflight T (mkPreflight tx (v_rules info) flags now) (b_router b) in
  let '(pcresult, router) :=
    tx_preclaim T (v_rules info) true pfresult now
      (mkPreclaim view info (λ id, bool_decide (id ∈ b_txs b)) tx flags track) router in
  let '(r, applied, l) := tx_doApply T view info tx flags now track (v_seq info) pcresult router (b_ledger b) in
  (r, applied, mkBuild l (if applied then {[tid_ tx]} ∪ b_txs b else b_txs b) router).

Definition applyTransaction (txn : STTx) (retryAssured : bool) (flags : Z) (b : BuildState) : ApplyResult * BuildState :=
  let flags := if retryAssured then Z.lor flags tapRETRY else flags in
  let '(r, applied, b) := apply_tx txn flags b in
  if (applied : bool) then (Success, b)
  else if isTefFailure r || isTemMalformed r || isTelLocal r then (Fail, b)
  else (Retry, b).

(** The loop over the set: what stays in it, the failed ones, the number of changes. *)
Fixpoint apply_pass (first : bool) (in_built : Z → bool) (certainRetry : bool) (txns : TXMap) (failed : gset Z) (changes : Z)
    (b : BuildState) : TXMap * gset Z * Z * BuildState :=
  match txns with
  | [] => ([], failed, changes, b)
  | (k, tx) :: txns =>
    if first && in_built (mTXid k) then apply_pass first in_built certainRetry txns failed changes b
    else
      let '(result, b) := applyTransaction tx certainRetry 0 b in
      match result with
      | Success => apply_pass first in_built certainRetry txns failed (changes + 1) b
      | Fail => apply_pass first in_built certainRetry txns ({[mTXid k]} ∪ failed) changes b
      | Retry =>
        let '(kept, failed, changes, b) := apply_pass first in_built certainRetry txns failed changes b in
        ((k, tx) :: kept, failed, changes, b)
      end
  end.

(** The passes from one on, with the last value of [certainRetry]. *)
Fixpoint apply_passes (n : nat) (pass : Z) (in_built : Z → bool) (certainRetry : bool) (txns : TXMap) (failed : gset Z)
    (b : BuildState) : bool * TXMap * gset Z * BuildState :=
  match n with
  | O => (certainRetry, txns, failed, b)
  | S n =>
    let '(txns, failed, changes, b) := apply_pass (pass =? 0) in_built certainRetry txns failed 0 b in
    if (changes =? 0) && negb certainRetry then (certainRetry, txns, failed, b)
    else
      let certainRetry := if (changes =? 0) || (LEDGER_RETRY_PASSES <=? pass) then false else certainRetry in
      apply_passes n (pass + 1) in_built certainRetry txns failed b
  end.

Definition applyTransactions (in_built : Z → bool) (txns : CanonicalTXSet) (failed : gset Z) (b : BuildState) :
    bool * CanonicalTXSet * gset Z * BuildState :=
  let '(certainRetry, l, failed, b) := apply_passes LEDGER_TOTAL_PASSES 0 in_built true (map_ txns) failed b in
  (certainRetry, mkTXSet l (salt_ txns), failed, b).

(** The other [buildLedger]: the transactions of a ledger again, in the order they were in. *)
Definition replay_transactions (orderedTxns : list STTx) (applyFlags : Z) (b : BuildState) : BuildState :=
  foldl (λ b tx, (applyTransaction tx false applyFlags b).2) b orderedTxns.

(** ** What is applied *)

(** Transactions applied one after the other, with the fees they paid. *)
Inductive chain : LedgerState STObject → list (STTx * Z) → LedgerState STObject → Prop :=
| chain_nil l : chain l [] l
| chain_cons l l1 l2 tx fee done : ledger_checked (l_map l) (l_map l1) (tx_obj tx) fee → l_drops l1 = xrp_sub (l_drops l) (mkXRP fee) →
    chain l1 done l2 → chain l ((tx, fee) :: done) l2.

Lemma chain_app l d l1 d1 l2 : chain l d l1 → chain l1 d1 l2 → chain l (d ++ d1) l2.
Proof. induction 1; intros H'; [done|]. econstructor; [done|done|]. by apply IHchain. Qed.

Definition fees (done : list (STTx * Z)) : Z := foldr (λ x s, x.2 + s) 0 done.

Lemma chain_total l d l' : chain l d l' → (xrp_total (l_map l') - (xrp_total (l_map l) - fees d)) `mod` 2 ^ 64 = 0.
Proof.
  induction 1 as [l|l l1 l2 tx fee d Hc _ _ IH]; cbn [fees foldr]; [by rewrite Z.sub_0_r, Z.sub_diag|]. fold (fees d). cbn [snd].
  pose proof (lc_total _ _ _ _ Hc) as H. apply Z.mod_divide in H as [a Ha]; [|lia]. apply Z.mod_divide in IH as [c Hc']; [|lia].
  apply Z.mod_divide; [lia|]. exists (a + c). lia.
Qed.

Lemma chain_drops l d l' : chain l d l' → (drops_ (l_drops l') - (drops_ (l_drops l) - fees d)) `mod` 2 ^ 64 = 0.
Proof.
  induction 1 as [l|l l1 l2 tx fee d _ Hd _ IH]; cbn [fees foldr]; [by rewrite Z.sub_0_r, Z.sub_diag|]. fold (fees d). cbn [snd].
  rewrite Hd in IH. cbn [xrp_sub drops_] in IH. unfold i64 in IH. apply Z.mod_divide in IH as [c Hc]; [|lia].
  pose proof (Z.div_mod (drops_ (l_drops l) - fee + 2 ^ 63) (2 ^ 64) ltac:(lia)) as Hm. apply Z.mod_divide; [lia|].
  exists (c - (drops_ (l_drops l) - fee + 2 ^ 63) / 2 ^ 64). lia.
Qed.

Lemma chain_accounts l d l' : chain l d l' → ∀ k s, l_map l !! k = Some s → sle_type s = ltACCOUNT_ROOT →
  ∃ s', l_map l' !! k = Some s' ∧ sle_type s' = ltACCOUNT_ROOT.
Proof.
  induction 1 as [l|l l1 l2 tx fee d Hc _ _ IH]; intros k s Hk Ht; [eauto|].
  destruct (lc_accounts _ _ _ _ Hc k s Hk Ht) as [s1 Hs1]. apply (IH k s1 Hs1). by rewrite (lc_types _ _ _ _ Hc k s s1 Hk Hs1).
Qed.
(** ** The attempts of a run *)

(** A transaction that is tried, whether it may be tried again, and the state it is tried in. *)
Abbreviation attempt := (STTx * bool * BuildState)%type.

(** The attempts of a pass and of all passes, in order. *)
Fixpoint pass_attempts (first : bool) (in_built : Z → bool) (certainRetry : bool) (txns : TXMap) (b : BuildState) : list attempt :=
  match txns with
  | [] => []
  | (k, tx) :: txns =>
    if first && in_built (mTXid k) then pass_attempts first in_built certainRetry txns b
    else (tx, certainRetry, b) :: pass_attempts first in_built certainRetry txns (applyTransaction tx certainRetry 0 b).2
  end.

Fixpoint passes_attempts (n : nat) (pass : Z) (in_built : Z → bool) (certainRetry : bool) (txns : TXMap) (failed : gset Z)
    (b : BuildState) : list attempt :=
  match n with
  | O => []
  | S n =>
    pass_attempts (pass =? 0) in_built certainRetry txns b ++
    let '(txns, failed, changes, b) := apply_pass (pass =? 0) in_built certainRetry txns failed 0 b in
    if (changes =? 0) && negb certainRetry then []
    else
      let certainRetry := if (changes =? 0) || (LEDGER_RETRY_PASSES <=? pass) then false else certainRetry in
      passes_attempts n (pass + 1) in_built certainRetry txns failed b
  end.

(** In this attempt the code of the type, if it gets to run, inserts only entries that are
    not in the ledger yet.  Otherwise the program stops at a [LogicError]. *)
Definition fresh_attempt (x : attempt) : bool :=
  let '(tx, retry, b) := x in
  let flags := if (retry : bool) then Z.lor 0 tapRETRY else 0 in
  let view := map_view (l_map (b_ledger b)) in
  let T := types tx in
  let '(pfresult, router) := tx_preflight T (mkPreflight tx (v_rules info) flags now) (b_router b) in
  let '(pcresult, router) :=
    tx_preclaim T (v_rules info) true pfresult now
      (mkPreclaim view info (λ id, bool_decide (id ∈ b_txs b)) tx flags track) router in
  if pcresult =? tesSUCCESS then
    match t_calculateBaseFee view info tx with
    | Ret baseFee =>
      fresh_run (transactor_apply T (mkContext tx info flags baseFee now track) router) (mkV (l_map (b_ledger b)) ∅ ∅)
    | Throw _ => true
    end
  else true.

Context (Hen : enabled (v_rules info) featureEnforceInvariants = true) (Hclosed : v_open info = false).

(** One transaction: it is applied and pays its fee, or the ledger stays. *)
Lemma apply_one tx retry b : fresh_attempt (tx, retry, b) = true → keyed (l_map (b_ledger b)) →
  let '(result, b') := applyTransaction tx retry 0 b in
  keyed (l_map (b_ledger b')) ∧
  match result with
  | Success => b_txs b' = {[tid_ tx]} ∪ b_txs b ∧ ∃ fee, chain (b_ledger b) [(tx, fee)] (b_ledger b')
  | _ => b_txs b' = b_txs b ∧ b_ledger b' = b_ledger b
  end.
Proof using Hclosed Hen.
  intros Hf Hk. unfold fresh_attempt in Hf. unfold applyTransaction, apply_tx. set (fl := if retry then _ else _) in *.
  destruct (tx_preflight _ _ _) as [pf r1]. destruct (tx_preclaim _ _ _ _ _ _ _) as [pc r2].
  destruct (tx_doApply _ _ _ _ _ _ _ _ _ _ _) as [[r applied] l'] eqn:E.
  pose proof (doApply_checked (types tx) (map_view (l_map (b_ledger b))) info tx fl now track (v_seq info) pc r2 (b_ledger b) l' r applied
    (map_view_of _) Hk Hen) as H. specialize (λ Hfr, H Hfr E). cbn zeta in H.
  specialize (H ltac:(intros baseFee -> Hfee; rewrite Hfee in Hf; by apply fresh_run_ok)).
  destruct applied; cbn [b_ledger b_txs].
  - destruct H as (_ & fee & Hc & Hd & Hk'). split; [done|]. split; [done|]. exists fee. rewrite Hclosed in Hd. eapply chain_cons; [exact Hc|exact Hd|constructor].
  - subst l'. destruct (_ || _); done.
Qed.

(** What a pass has done. *)
Record passed (txns kept : TXMap) (done : list ((TXKey * STTx) * Z)) (dropped : TXMap) (gone : TXKey → Prop) (b b' : BuildState) : Prop := {
  pd_split : txns ≡ₚ map fst done ++ dropped ++ kept;
  pd_kept : sublist kept txns;
  pd_chain : chain (b_ledger b) (map (λ x, (x.1.2, x.2)) done) (b_ledger b');
  pd_keyed : keyed (l_map (b_ledger b'));
  pd_dropped : ∀ x, x ∈ dropped → gone x.1;
  pd_txs : b_txs b' = list_to_set (map (λ x, tid_ x.1.2) done) ∪ b_txs b }.

(** A transaction was tried and should be tried again, after some of the others were applied. *)
Definition tried (retry : bool) (tx : STTx) (done : list (STTx * Z)) (b : BuildState) : Prop :=
  ∃ b0 d0 d1, done = d0 ++ d1 ∧ chain (b_ledger b) d0 (b_ledger b0) ∧ (applyTransaction tx retry 0 b0).1 = Retry.

Lemma pass_correct first in_built retry : ∀ txns failed changes b, Forall (λ x, fresh_attempt x = true) (pass_attempts first in_built retry txns b) → keyed (l_map (b_ledger b)) →
  let '(kept, failed', changes', b') := apply_pass first in_built retry txns failed changes b in
  failed ⊆ failed' ∧
  ∃ done dropped,
    passed txns kept done dropped (λ k, mTXid k ∈ failed' ∨ in_built (mTXid k) = true) b b' ∧
    ∀ x, x ∈ kept → tried retry x.2 (map (λ x, (x.1.2, x.2)) done) b.
Proof using Hclosed Hen.
  induction txns as [|[k tx] txns IH]; intros failed changes b Hf Hk; cbn [apply_pass pass_attempts] in *.
  { split; [done|]. exists [], []. split; [|by intros x []%not_elem_of_nil]. constructor; try done; [constructor|by intros x []%not_elem_of_nil|set_solver]. }
  destruct (first && in_built (mTXid k)) eqn:Efirst.
  { specialize (IH failed changes b Hf Hk). destruct (apply_pass _ _ _ txns _ _ _) as [[[kept failed'] changes'] b'].
    destruct IH as (Hs & done & dropped & [H1 H2 H3 H4 H5 H6] & H7). split; [done|]. exists done, ((k, tx) :: dropped). split; [|done].
    constructor; try done; [|by constructor|].
    - rewrite H1. cbn [app]. apply Permutation_middle.
    - intros x [->|Hx]%elem_of_cons; [|by apply H5]. right. by apply andb_true_iff in Efirst as [_ ?]. }
  apply Forall_cons in Hf as [Hf0 Hf']. pose proof (apply_one tx retry b Hf0 Hk) as H.
  destruct (applyTransaction tx retry 0 b) as [result b1] eqn:E1. cbn [snd] in Hf'. destruct H as [Hk1 H]. destruct result.
  - destruct H as [Htxs [fee Hc]]. specialize (IH failed (changes + 1) b1 Hf' Hk1). destruct (apply_pass _ _ _ txns _ _ _) as [[[kept failed'] changes'] b'].
    destruct IH as (Hs & done & dropped & [H1 H2 H3 H4 H5 H6] & H7). split; [done|]. exists (((k, tx), fee) :: done), dropped. split.
    + constructor; try done; [by rewrite H1|by constructor| |].
      * change (map (λ x : TXKey * STTx * Z, (x.1.2, x.2)) (((k, tx), fee) :: done)) with ([(tx, fee)] ++ map (λ x : TXKey * STTx * Z, (x.1.2, x.2)) done).
        by eapply chain_app.
      * rewrite H6, Htxs. cbn [map list_to_set fst snd]. set_solver.
    + intros x Hx. destruct (H7 x Hx) as (b0 & d0 & d1 & Hd & Hc0 & Hr). exists b0, ((tx, fee) :: d0), d1. split; [cbn [map]; by rewrite Hd|].
      split; [|done]. by apply (chain_app _ [(tx, fee)] (b_ledger b1)).
  - destruct H as [Htxs Hl]. specialize (IH ({[mTXid k]} ∪ failed) changes b1 Hf' Hk1). destruct (apply_pass _ _ _ txns _ _ _) as [[[kept failed'] changes'] b'].
    destruct IH as (Hs & done & dropped & [H1 H2 H3 H4 H5 H6] & H7). rewrite Hl in *. rewrite Htxs in H6. split; [set_solver|].
    exists done, ((k, tx) :: dropped). split.
    + constructor; try done; [|by constructor|].
      * rewrite H1. cbn [app]. apply Permutation_middle.
      * intros x [->|Hx]%elem_of_cons; [|by apply H5]. left. cbn [fst]. set_solver.
    + intros x Hx. destruct (H7 x Hx) as (b0 & d0 & d1 & Hd & Hc0 & Hr). rewrite Hl in Hc0. by exists b0, d0, d1.
  - destruct H as [Htxs Hl]. specialize (IH failed changes b1 Hf' Hk1). destruct (apply_pass _ _ _ txns _ _ _) as [[[kept failed'] changes'] b'].
    destruct IH as (Hs & done & dropped & [H1 H2 H3 H4 H5 H6] & H7). rewrite Hl in *. rewrite Htxs in H6. split; [done|].
    exists done, dropped. split.
    + constructor; try done; [|by constructor]. rewrite H1, !app_assoc. apply Permutation_middle.
    + intros x [->|Hx]%elem_of_cons.
      * exists b, [], (map (λ x, (x.1.2, x.2)) done). split; [done|]. split; [constructor|]. cbn [snd]. by rewrite E1.
      * destruct (H7 x Hx) as (b0 & d0 & d1 & Hd & Hc0 & Hr). rewrite Hl in Hc0. by exists b0, d0, d1.
Qed.
Definition fee_list (done : list ((TXKey * STTx) * Z)) : list (STTx * Z) := map (λ x, (x.1.2, x.2)) done.

Lemma passed_trans txns kept done dropped (gone gone' : TXKey → Prop) b b1 kept' done' dropped' b2 :
  passed txns kept done dropped gone b b1 → passed kept kept' done' dropped' gone' b1 b2 → (∀ k, gone k → gone' k) →
  passed txns kept' (done ++ done') (dropped ++ dropped') gone' b b2.
Proof.
  intros [H1 H2 H3 H4 H5 H6] [K1 K2 K3 K4 K5 K6] Hg. constructor.
  - rewrite H1, K1, map_app. solve_Permutation.
  - by transitivity kept.
  - rewrite map_app. by eapply chain_app.
  - done.
  - intros x [Hx|Hx]%elem_of_app; [by apply Hg, H5|by apply K5].
  - rewrite K6, H6, map_app, list_to_set_app_L. set_solver.
Qed.

Lemma tried_later retry tx d d' b b1 : chain (b_ledger b) d (b_ledger b1) → tried retry tx d' b1 → tried retry tx (d ++ d') b.
Proof.
  intros Hc (b0 & d0 & d1 & -> & Hc0 & Hr). exists b0, (d ++ d0), d1. split; [by rewrite app_assoc|]. split; [|done]. by eapply chain_app.
Qed.

Lemma passes_correct in_built n : ∀ pass retry txns failed b,
  Forall (λ x, fresh_attempt x = true) (passes_attempts n pass in_built retry txns failed b) → keyed (l_map (b_ledger b)) → (0 < n)%nat → 0 ≤ pass →
  (retry = false ∨ pass ≤ 1 ∧ 3 ≤ Z.of_nat n + pass) →
  let '(retry', kept, failed', b') := apply_passes n pass in_built retry txns failed b in
  retry' = false ∧ failed ⊆ failed' ∧
  ∃ done dropped,
    passed txns kept done dropped (λ k, mTXid k ∈ failed' ∨ in_built (mTXid k) = true) b b' ∧
    ∀ x, x ∈ kept → tried false x.2 (fee_list done) b.
Proof using Hclosed Hen.
  induction n as [|n IH]; intros pass retry txns failed b Hf Hk Hn Hpass Hretry; [lia|]. cbn [apply_passes passes_attempts] in *.
  apply Forall_app in Hf as [Hf Hf1]. pose proof (pass_correct (pass =? 0) in_built retry txns failed 0 b Hf Hk) as H.
  destruct (apply_pass _ _ _ _ _ _ _) as [[[kept failed1] changes] b1]. destruct H as (Hs & done & dropped & Hp & Ht).
  destruct ((changes =? 0) && negb retry) eqn:E.
  { apply andb_true_iff in E as [_ E%negb_true_iff]. subst retry. split; [done|]. split; [done|]. by exists done, dropped. }
  set (retry1 := if (changes =? 0) || (LEDGER_RETRY_PASSES <=? pass) then false else retry) in *.
  destruct n as [|n].
  - cbn [apply_passes]. assert (retry = false) as -> by (destruct Hretry as [->|[? ?]]; [done|lia]).
    split; [unfold retry1; by destruct (_ || _)|]. split; [done|]. by exists done, dropped.
  - specialize (IH (pass + 1) retry1 kept failed1 b1 Hf1 (pd_keyed _ _ _ _ _ _ _ Hp) ltac:(lia) ltac:(lia)).
    assert (Hr1 : retry1 = false ∨ pass + 1 ≤ 1 ∧ 3 ≤ Z.of_nat (S n) + (pass + 1)).
    { unfold retry1, LEDGER_RETRY_PASSES. destruct (Z.leb_spec 1 pass); [left; by rewrite orb_true_r|]. rewrite orb_false_r.
      destruct (changes =? 0); [by left|]. destruct Hretry as [->|[? ?]]; [by left|right; lia]. }
    specialize (IH Hr1). destruct (apply_passes _ _ _ _ _ _ _) as [[[retry' kept'] failed'] b'].
    destruct IH as (Hret & Hs' & done' & dropped' & Hp' & Ht'). split; [done|]. split; [set_solver|].
    exists (done ++ done'), (dropped ++ dropped'). split.
    + eapply passed_trans; [exact Hp|exact Hp'|]. intros k [Hg|Hg]; [left; set_solver|by right].
    + intros x Hx. unfold fee_list. rewrite map_app. eapply tried_later; [exact (pd_chain _ _ _ _ _ _ _ Hp)|]. by apply Ht'.
Qed.
End Build.

(** C4: building a ledger from an agreed set ends, and accounts for every transaction of the set:
    each has been applied once, has failed (or was in the ledger before), or is left for
    later, and then the last attempt was a final one.  The XRP of the ledger has gone down
    by the fees of those that were applied (while both are far from the ends of the 64-bit
    range), as has the total in its header, and no account has been deleted.

    The types of the transactions are arbitrary.  The invariants are enforced, the ledger is
    a closed one, and in the attempts of this very run the code of the types inserts only
    entries that are not in the ledger yet: [fresh_attempt] computes that for an attempt. *)
Theorem build_accounts `{Hash : Sha512} `{Lib : Crypto} (types : STTx → TxType) (info : ViewInfo) (now : Z) (track : LoadFeeTrack)
    (in_built : Z → bool) (txns : CanonicalTXSet) (failed : gset Z) (b : BuildState)
    (Hen : enabled (v_rules info) featureEnforceInvariants = true) (Hclosed : v_open info = false)
    (Hf : Forall (λ x, fresh_attempt types info now track x = true)
      (passes_attempts types info now track LEDGER_TOTAL_PASSES 0 in_built true (map_ txns) failed b)) (Hk : keyed (l_map (b_ledger b))) :
  let '(certainRetry, rest, failed', b') := applyTransactions types info now track in_built txns failed b in
  certainRetry = false ∧ failed ⊆ failed' ∧
  ∃ done dropped,
    let paid := fees (fee_list done) in
    let xrp (b : BuildState) := xrp_total (l_map (b_ledger b)) in
    map_ txns ≡ₚ map fst done ++ dropped ++ map_ rest ∧
    b_txs b' = list_to_set (map (λ x, tid_ x.1.2) done) ∪ b_txs b ∧
    (∀ x, x ∈ dropped → mTXid x.1 ∈ failed' ∨ in_built (mTXid x.1) = true) ∧
    (∀ x, x ∈ map_ rest → tried types info now track false x.2 (fee_list done) b) ∧
    chain (b_ledger b) (fee_list done) (b_ledger b') ∧
    (0 ≤ xrp b ≤ SYSTEM_CURRENCY_START → 0 ≤ xrp b' < 2 ^ 63 → 0 ≤ paid < 2 ^ 62 → xrp b' = xrp b - paid) ∧
    (drops_ (l_drops (b_ledger b')) - (drops_ (l_drops (b_ledger b)) - paid)) `mod` 2 ^ 64 = 0 ∧
    (∀ k s, l_map (b_ledger b) !! k = Some s → sle_type s = ltACCOUNT_ROOT →
       ∃ s', l_map (b_ledger b') !! k = Some s' ∧ sle_type s' = ltACCOUNT_ROOT).
Proof.
  unfold applyTransactions. pose proof (passes_correct types info now track Hen Hclosed in_built LEDGER_TOTAL_PASSES 0 true (map_ txns) failed b Hf Hk) as H.
  destruct (apply_passes _ _ _ _ _ _ _ _ _ _ _) as [[[retry' kept] failed'] b']. destruct H as (Hr & Hs & paid_by & dropped & [H1 _ H3 _ H5 H6] & Ht);
    [unfold LEDGER_TOTAL_PASSES; lia|lia|right; split; [lia|done]|].
  split; [done|]. split; [done|]. exists paid_by, dropped. cbn zeta. split; [done|]. split; [done|]. split; [done|]. split; [done|]. split; [done|].
  split; [|split; [exact (chain_drops _ _ _ H3)|exact (chain_accounts _ _ _ H3)]].
  pose proof (chain_total _ _ _ H3) as Hx. fold (fee_list paid_by) in Hx. intros A B C. apply Z.mod_divide in Hx as [q Hq]; [|lia].
  unfold SYSTEM_CURRENCY_START in A. lia.
Qed.

Section Tests.
#[local] Existing Instance number_hash.
#[local] Existing Instance trusting_crypto.

Definition test_signed (seq id : Z) : STTx :=
  mkTx (mkObject None [(sfAccount, c_make AccountID 5); (sfFee, c_make AmountC (st_native 10 false));
    (sfSequence, c_make U32 seq); (sfSigningPubKey, Blob (0xED :: replicate 32 7)); (sfTxnSignature, Blob (replicate 64 1));
    (sfRegularKey, c_make AccountID 9); (sfSigners, NotPresent); (sfFlags, c_make U32 0)]) id 5.

Definition test_owner : SLE STObject :=
  mkSLE (kl_key (kl_account 5)) ltACCOUNT_ROOT
    (set AccountID sfRegularKey 0 (set U32 sfSequence 1 (set AmountC sfBalance (st_native 100 false) (new_body ltACCOUNT_ROOT)))).

Definition test_payee : SLE STObject :=
  mkSLE (kl_key (kl_account 7)) ltACCOUNT_ROOT (set AmountC sfBalance (st_native 20 false) (new_body ltACCOUNT_ROOT)).
Definition test_accounts : gmap Z (SLE STObject) := {[kl_key (kl_account 5) := test_owner; kl_key (kl_account 7) := test_payee]}.
Definition test_build : BuildState := mkBuild (mkLedger test_accounts (mkXRP 1000)) ∅ (make_router 300 1).

Definition test_types (tx : STTx) : TxType :=
  if isFieldPresent (tx_obj tx) sfDestination then EscrowCreate else SetRegularKey.

(** Account 5 makes an escrow, with a new entry and a new owner directory, then chooses a
    regular key; a third transaction has to wait. *)
Definition test_agreed : CanonicalTXSet :=
  match insert_all [test_signed 4 97; test_signed 2 98; test_escrow_signed] (make_txset 3) with Ret s => s | Throw _ => make_txset 3 end.

Definition outcome_is (r : bool * CanonicalTXSet * gset Z * BuildState) : bool :=
  let '(_, rest, _, b) := r in bool_decide (map (λ x, tid_ x.2) (map_ rest) = [97]) && (drops_ (l_drops (b_ledger b)) =? 980).

Lemma build_accounts_witness :
  let '(certainRetry, rest, failed', b') :=
    applyTransactions test_types (test_info 600000000) 0 (mkTrack 256 256 256 0) (λ _, false) test_agreed ∅ test_build in
  map (λ x, tid_ x.2) (map_ rest) = [97] ∧ l_drops (b_ledger b') = mkXRP 980 ∧ certainRetry = false.
Proof.
  pose proof (build_accounts test_types (test_info 600000000) 0 (mkTrack 256 256 256 0) (λ _, false) test_agreed ∅ test_build
    eq_refl eq_refl) as Hb.
  assert (H : outcome_is (applyTransactions test_types (test_info 600000000) 0 (mkTrack 256 256 256 0) (λ _, false) test_agreed ∅ test_build) = true)
    by (vm_compute; reflexivity).
  unfold outcome_is in H. destruct (applyTransactions _ _ _ _ _ _ _ _) as [[[certainRetry rest] failed'] b'].
  apply andb_true_iff in H as [H1%bool_decide_eq_true H2%Z.eqb_eq]. split; [exact H1|].
  split; [destruct (l_drops (b_ledger b')); by f_equal|]. apply Hb.
  - apply List.Forall_forall, List.forallb_forall. vm_compute. reflexivity.
  - apply map_Forall_insert_2; [reflexivity|]. apply map_Forall_singleton. reflexivity.
Defined.
End Tests.
